(* ===== verification/_CoqProject ===== *)
-Q . S2P
Prelude.v
BabyBear.v
Poseidon2.v
CapRoot.v
Heap.v
State.v
Permissions.v
Facet.v
Derivation.v
Capability.v
Lifecycle.v
Cell.v
Migration.v
Merkle.v
Ledger.v
LedgerTree.v
LedgerDelta.v
LedgerRoot.v
LedgerRestore.v
Handoff.v
Regex.v
Automata.v
Nfa.v
NfaProofs.v
PatternProofs.v
Elimination.v
Filter.v
Router.v
Air.v
Aafi.v
Notes.v
Nullifier.v
Channels.v
Journal.v
Executor.v
Forest.v
Metering.v
ExecuteTree.v
Conflict.v
BudgetGate.v
Execute.v
TurnRollback.v
TurnTrace.v
TurnSafety.v
TurnAtomic.v
TurnReplay.v
TurnBooks.v
TurnNotes.v
VerifiedGate.v
Stingray.v
SharedBudget.v
Preconditions.v
Atomic.v
Causal.v
Captp.v
CaptpGc.v
CaptpHandoff.v
CaptpPipeline.v
Macaroon.v
Blocklace.v
Ordering.v
