(* ===== verification/Prelude.v ===== *)
(** * dregg: a capability kernel, its router, turns, coordination and transport

    dregg is a capability operating system: authority lives in cells, each with
    its own state, permissions and list of capabilities; a ledger hosts the
    cells, applies deltas to them and commits to them in a Merkle tree; cells
    move between federations; messages are routed by compiled automata; and
    turns, forests of actions signed by an agent, are the only way cells change.
    This library models the crate that carries the state (cell/), the commitment
    trees it is built on (circuit/src), the automata and the router (dfa/), the
    executor of turns (turn/), the coordination of turns and budgets across
    nodes (coord/) and the transport of capabilities between them (captp/), and
    proves what makes them correct.

    ** The parts, and where they are

    - Prelude.v (this file): results and early return, machine integers with
      their checked, saturating and wrapping operations, bytes, the BLAKE3 and
      Ed25519 interfaces, loops over lists and their sums, ordered maps as sorted
      lists, and the tactics and hints the other files share.

    The trees:
    - BabyBear.v: circuit/src/field.rs, the 31-bit prime field.
    - Poseidon2.v: circuit/src/poseidon2.rs and the absorb gadget of
      circuit/src/descriptor_ir2.rs, with the real round constants.
    - CapRoot.v: circuit/src/cap_root.rs, the sparse sorted capability tree with
      tombstones and its witnesses.
    - Heap.v, Aafi.v: circuit/src/heap_root.rs (the eight-lane tree), the linked
      sorted heap tree, its in-place update, and the append-at-free-index insert.

    Cells and the ledger:
    - State.v: cell/src/state.rs, fields, visibility, balances, overflow field
      map and heap map with their roots and caches.
    - Permissions.v, Facet.v: cell/src/permissions.rs and facet.rs.
    - Derivation.v: cell/src/derivation.rs, provenance hashes and the
      derivation tree.
    - Capability.v: cell/src/capability.rs and the capability part of
      commitment.rs, the c-list.  Channels.v: cell/src/revocation_channel.rs.
    - Lifecycle.v, Cell.v: cell/src/lifecycle.rs, cell.rs, delegation.rs and the
      canonical state commitment of commitment.rs.
    - Migration.v: cell/src/migration.rs.
    - Merkle.v, Ledger.v: cell/src/ledger.rs, its tree code and the rest.
    - LedgerTree.v, LedgerDelta.v, LedgerRoot.v, LedgerRestore.v, Handoff.v:
      the theorems about the ledger, and about two ledgers.
    - Notes.v, Nullifier.v: cell/src/note.rs, nullifier_set.rs,
      commitment_set.rs and revoked_set.rs; the accumulators are one structure
      with the error of a duplicate as a parameter.
    - Preconditions.v: cell/src/preconditions.rs, what a leg or an action asserts
      of a cell, its clauses, hash and evaluation.

    The router:
    - Regex.v, Automata.v, Elimination.v: dfa/src/derivative.rs and the tables
      of compiler.rs; byte classes, derivatives, the worklist compiler, the
      regex recovered from a table.
    - Nfa.v, NfaProofs.v, PatternProofs.v: the eager path of compiler.rs.
    - Filter.v, Router.v, Air.v: dfa/src/filter.rs, router.rs, air.rs and the
      acceptance verifier of cell/src/predicate.rs.

    The executor of turns (turn/src):
    - Journal.v: journal.rs, the undo journal, its write set and its rollback.
    - Executor.v: executor/apply.rs, one function per effect, over a state and
      error monad with the journal in the state.
    - Forest.v: forest.rs, with the records of action.rs and turn.rs.
    - Metering.v: executor/costs.rs and the cost and note checks of finalize.rs.
    - ExecuteTree.v: executor/execute_tree.rs, one action and the tree walk.
    - Conflict.v, BudgetGate.v: conflict.rs and budget_gate.rs.
    - Execute.v: executor/execute.rs, admission, the fee, sovereign witnesses,
      the checks after the forest, abort and commit.
    - TurnRollback.v, TurnTrace.v, TurnSafety.v: every run is a sequence of
      journalled steps (a step relation), and what follows of rollback, write
      sets, conservation and authority.
    - TurnAtomic.v, TurnReplay.v, TurnBooks.v, TurnNotes.v: the theorems about
      whole turns.

    Coordination (coord/src):
    - VerifiedGate.v: verified_gate.rs, the seam to an external oracle, and the
      text exchanged with it.
    - Stingray.v: budget.rs, the counter that splits an agent's balance over
      silos, its rebalances, and the locks with their unlock quorum.
    - SharedBudget.v: shared_budget.rs, allowances of several agents on one
      resource, its escalation and resolution by an ordering, and the observer
      of blocks (the block type of blocklace/src/finality.rs).
    - Atomic.v: atomic.rs, the two-phase commit of a forest of several parties,
      over Execute.v and Preconditions.v.
    - Causal.v: types/src/causal.rs and causal.rs, the graph of happened-before
      between turns, its searches, sort and depth, and the query by the gate.

    Capability transport (captp/src):
    - Captp.v: session.rs, the tables and promises of a session; sturdy.rs, the
      swiss numbers behind durable references; uri.rs, their written form.
    - CaptpGc.v: gc.rs, counts of distributed references, and verified_gate.rs.
    - CaptpHandoff.v: handoff.rs, the introduction of a third party to a cell,
      classical and hybrid.
    - CaptpPipeline.v: pipeline.rs, messages to promises not yet resolved, their
      delivery, cascades and chains, and the bridge between federations.

    Tokens (macaroon/src):
    - Macaroon.v: macaroon.rs, caveat.rs, caveat_3p.rs and crypto.rs, tokens with
      a chain of tags, third-party caveats and discharges; action.rs and
      resource.rs, masks per resource; the token form of format.rs.

    Consensus (blocklace/src):
    - Blocklace.v: lib.rs, blocks named by their content, the lattice with its two
      write paths, forks and feeds, causal pasts and the topological order.
    - Ordering.v: ordering.rs, rounds, waves, ratification, final leaders and the
      total order they anchor, also of a group over a shared lattice.

    A struct is a record, an enum an inductive type, a method a function that
    returns the new state with its result; [None] outside a result is a panic
    (the capacity assertion of a tree builder, an overflow that is not checked).
    A 32-byte array is a list of integers, usize has 64 bits.  A HashMap is a
    finite map; where the code iterates over one, the order is an argument, or
    that of insertion where the iterations commute.  A loop that is not
    structural takes fuel.

    ** What the theorems show

    - Turns, of the modelled effects: a committed turn, with sovereign witnesses
      or without, conserves value up to the part of the fee that reaches no cell,
      its notes balance and are spent once, and what it is billed is the estimate;
      without witnesses a rejected turn costs its fee and its nonce and nothing
      else, and a turn that makes no cell sovereign never runs twice, whatever
      such turns follow; rolling back any forest, stopped anywhere, restores the
      cells up to what the journal does not undo ([cell_restored]: order of
      references, tombstones, cleared field commitments); the journal names every
      cell that changed; authority over a cell is only ever passed on by one who
      holds it.
    - The ledger: after any history of operations (closures that keep the
      identity of their cell, created cells without a stale digest) its lazily
      maintained root and proofs are those of a tree rebuilt over fresh
      commitments, a refused delta changes nothing, an accepted one conserves
      value up to the cells it creates and removes, and a rolled-back restore
      point is undone.
    - Migration: what arrives is what was prepared, at most once.
    - Commitments: the canonical commitment is injective on what it covers; the
      sparse trees are the dense ones; incremental updates are rebuilds; forest
      hashes bind the forest; accumulators are append-only logs and their
      two-sided absence proofs are sound.
    - Authority: attenuation orders are exactly inclusion of what is admitted,
      delegation never widens, revocation and tripped channels are permanent,
      transitive revocation is decided.
    - The router: both compilers are correct for the language of the pattern
      (they differ on an alternation over no parts), the derivative one returns exactly on finitely many residuals, and
      classification is longest match.
    - Coordination: a commit has a quorum of distinct signed votes behind it and
      replays alike at every participant; its decisions are right and final, and
      honest parties reach one; slices and allowances stay within their ceilings;
      a rebalance counts every silo once or changes nothing; an unlock has a
      quorum and happens once; an overspent resource closes, stays closed until
      an ordering, and is then settled first come, first served; happened-before
      is a strict partial order that insertions only extend, the sort is a linear
      extension of it, and the gate that decides the graph it is sent agrees.
    - Capability transport: a handoff is accepted exactly under the documented
      conditions, never confers more than its introducer has, and is accepted
      once; swiss numbers are used as often as they were issued for; certificates
      are fully signed; distributed references are counted per session, dropped
      only by it, and a cell is revocable exactly when none is left; promises
      settle once; written references are read back; breaking a pipelined promise
      returns, even on cycles, and reaches exactly what waits on it.
    - Tokens: a holder can only add caveats to the tokens it was given; a caveat
      of a third party is cleared only by a fresh discharge of that party for
      this token; the honest run verifies and leaves exactly the caveats of token
      and discharge; masks of a resource and of the wildcard both apply.
    - Consensus: a lattice is causally closed and acyclic, feeds are authentic and
      forks are found and proved; a name binds its block; nodes that see fewer than
      a third of the participants fork never have two leaders final in one wave;
      the order returns, does not depend on how sets are walked, grows by appending
      while nothing arrives for a finished wave, and is a linear extension of
      causality when each leader covers what the one before it did.
    - Arithmetic: field operations are exact, balances are bounded.
    - Where the code does not do what its documentation says, a theorem or a
      lemma states what it does: an introduction that no one authorised, a
      forgeable acceptance proof, access sets that omit written cells, one-sided
      absence proofs, derivation cycles, aliased heap and field keys, votes that
      replay, quorums met by one signature repeated, slices that together exceed
      the balance, references that are never dropped, keys the gate takes for one
      another, chain steps delivered to the wrong promise, locations that no tag
      covers, a total order that lists a block twice, that a late block rewrites and
      that strangers make final, blocks lost by the topological order.

    ** Assumptions, fuel and bounds

    BLAKE3, the serialisers (programs, routes, traces), hashes of turns and
    receipts, signatures and proof verifiers are interfaces ([Blake3],
    [ProgramCodec], [RouteCodec], [TraceCodec], [TurnOracles], [TurnCrypto]);
    so are the checks of an action made by code outside the model
    ([TurnChecks]: authorisation, preconditions, programs) and the encoded size
    of a program ([ProgramSize]).  The theorems about turns hold for every
    instance of them.  Signatures of votes and certificates are [Ed25519]; that
    honest ones verify is [Ed25519OK], used by the liveness theorems only.  The
    oracle of the coordination layer is [InstalledGate], which may be absent;
    [GateFaithful] and [DecisionFaithful] say that what it answers is documented,
    and each has an instance that reads and answers the text; of its answer on
    causal order the theorem assumes it at the graph sent.  The transport has its
    own gate, [CaptpGate], and the interfaces [Base58] and [MlDsa]; tokens have
    [MacCrypto], [MacCodec] and [Base64], with [MacIdeal] for tags and boxes and an
    attacker that computes tags from what it holds.  Collision resistance
    is the class [Blake3CR], in its idealised injective form, and appears only where a theorem needs it, with a
    concrete instance for the witnesses.  Poseidon2 is computed and never
    assumed collision free.  The walks of the derivation tree take fuel, and
    [size + 2] is shown enough on an acyclic chain; the worklists of the
    compilers are shown to need the number of residuals or of state sets; the
    level loops of the trees take the logarithm of their width; the delegation
    walk is bounded by 16 hops, as in the code; the depth-first iterators need
    as many steps as there are actions; the searches of the causal graph and
    its sort need one step more than there are turns, the cascade of a broken
    promise one more than there are queued messages; the causal past of a block
    needs a step per edge and one more, the sorts of the lattice one per block, the
    search for leaders one per wave.  A tree of depth 16 holds 65536 leaves,
    which is the capacity hypothesis of the writes.  Integers are bounded where
    the code bounds them: u32 slots and field elements, u64 nonces, heights and
    costs, i64 balances.

    ** What is not modelled

    The program language and its evaluator, authorisation of actions and
    preconditions (parameters of the executor), proof-carrying turns and sidecar
    binding proofs, the receipt and the ledger delta a commit builds (a hash
    stands for the receipt), the effects BridgeMint, ShieldedTransfer,
    CreateCellFromFactory, Promise, Notify and React, the memory-trace hooks and
    rate counters; the services built on cells, private legs of coordination,
    relays and networks of the transport, dissemination and membership of the
    lattice, the discharge gateway, and proof generation; of the
    modelled files, the one-lane twins of the trees, the circuit-side rotation
    commitment, serialisation, and the channels that notify witness subscribers.

    The order in which the library is meant to grow: the program evaluator
    (cell/src/program), as an instance of [TurnChecks]; receipts and deltas; then
    dissemination and membership (blocklace/). *)

From stdpp Require Import base decidable option list gmap strings sorting.
From Stdlib Require Import ZArith Lia Ascii.

#[global] Set Default Goal Selector "!".

Open Scope Z_scope.

Declare Scope dregg_scope.
Delimit Scope dregg_scope with dregg.
Open Scope dregg_scope.

(** ** Results

    Rust's [Result<A, E>], with the [?] operator as a notation. *)

Inductive result (A E : Type) : Type :=
| Ok (a : A)
| Err (e : E).
Arguments Ok {A E} a.
Arguments Err {A E} e.

Notation "'let?' x ':=' c 'in' k" :=
  (match c with Ok x => k | Err e => Err e end)
  (at level 10, x pattern, c at level 100, k at level 200) : dregg_scope.

(** [opt.ok_or(e)]. *)
Definition ok_or {A E} (o : option A) (e : E) : result A E :=
  match o with Some a => Ok a | None => Err e end.

Definition is_ok {A E} (r : result A E) : bool :=
  match r with Ok _ => true | Err _ => false end.

(** [for x in l { body(x)? }]: a loop whose body threads a state and may
    return early with an error. *)
Fixpoint try_fold {S X E} (f : S -> X -> result S E) (s : S) (l : list X) : result S E :=
  match l with
  | [] => Ok s
  | x :: l' => let? s' := f s x in try_fold f s' l'
  end.

Lemma try_fold_app {S X E} (f : S -> X -> result S E) s l1 l2 :
  try_fold f s (l1 ++ l2) = (let? s' := try_fold f s l1 in try_fold f s' l2).
Proof.
  revert s; induction l1 as [|x l1 IH]; intros s; simpl; [done|].
  destruct (f s x); simpl; [apply IH|done].
Qed.

(** Rule induction for a successful loop: an invariant of the state that every
    successful iteration preserves holds at the end. *)
Lemma try_fold_inv {S X E} (f : S -> X -> result S E) (P : S -> Prop) l s s' :
  (forall a x a', x ∈ l -> P a -> f a x = Ok a' -> P a') ->
  P s -> try_fold f s l = Ok s' -> P s'.
Proof.
  revert s; induction l as [|x l IH]; intros s Hstep HP; simpl.
  - by intros [= <-].
  - destruct (f s x) as [a|e] eqn:Hf; [|done]. intros Hrest.
    eapply IH; [|eapply Hstep; [left|exact HP|exact Hf]|exact Hrest].
    intros b y b' Hy. apply Hstep. by right.
Qed.

(** ** Machine integers

    A machine integer of the source is a [Z]; every operation that can leave
    its range is written with the check the source makes. *)

Definition u8_max : Z := 255.
Definition u32_max : Z := 4294967295.
Definition u64_max : Z := 18446744073709551615.
Definition i64_min : Z := -9223372036854775808.
Definition i64_max : Z := 9223372036854775807.

Definition is_u32 (z : Z) : Prop := 0 <= z <= u32_max.
Definition is_u64 (z : Z) : Prop := 0 <= z <= u64_max.
Definition is_i64 (z : Z) : Prop := i64_min <= z <= i64_max.

(** [u32::checked_add], [u64::checked_add], [i64::checked_add]. *)
Definition checked_add_u32 (a b : Z) : option Z :=
  if a + b <=? u32_max then Some (a + b) else None.
Definition checked_add_u64 (a b : Z) : option Z :=
  if a + b <=? u64_max then Some (a + b) else None.
Definition in_i64 (z : Z) : bool := (i64_min <=? z) && (z <=? i64_max).
Definition checked_add_i64 (a b : Z) : option Z :=
  if in_i64 (a + b) then Some (a + b) else None.
Definition checked_sub_i64 (a b : Z) : option Z :=
  if in_i64 (a - b) then Some (a - b) else None.

(** [u64::saturating_sub], [u32::saturating_add], [i64::try_from(u64)]. *)
Definition saturating_sub (a b : Z) : Z := Z.max 0 (a - b).
Definition saturating_add_u32 (a b : Z) : Z := Z.min u32_max (a + b).

(** [u64::saturating_add] and [saturating_mul], and the product that panics. *)
Definition saturating_add_u64 (a b : Z) : Z := Z.min u64_max (a + b).
Definition saturating_mul_u64 (a b : Z) : Z := Z.min u64_max (a * b).
Definition checked_mul_u64 (a b : Z) : option Z := if a * b <=? u64_max then Some (a * b) else None.
Definition i64_try_from (a : Z) : option Z :=
  if a <=? i64_max then Some a else None.

(** [x as u64] on an [i64], [x as i64] on a [u64]: two's complement. *)
Definition as_u64 (z : Z) : Z := z mod 2 ^ 64.
Definition as_i64 (z : Z) : Z := if z <=? i64_max then z else z - 2 ^ 64.

Ltac unfold_ints :=
  unfold is_u32, is_u64, is_i64, checked_add_u32, checked_add_u64,
    checked_add_i64, checked_sub_i64, i64_try_from, saturating_sub,
    saturating_add_u32, in_i64, u8_max, u32_max, u64_max, i64_min, i64_max in *.

(** Splits every integer test in sight and finishes with linear arithmetic. *)
Ltac int_cases :=
  unfold_ints; repeat case_match; simplify_eq/=;
  rewrite ?andb_true_iff, ?andb_false_iff, ?Z.leb_le, ?Z.leb_gt in *;
  try done; try lia.

Lemma i64_try_from_spec a b : i64_try_from a = Some b <-> b = a /\ a <= i64_max.
Proof.
  unfold i64_try_from. destruct (Z.leb_spec a i64_max); split.
  - by intros [= ->].
  - by intros [-> _].
  - done.
  - intros [_ ?]. lia.
Qed.

Lemma in_i64_spec z : in_i64 z = true <-> is_i64 z.
Proof. unfold in_i64, is_i64. rewrite andb_true_iff, !Z.leb_le. done. Qed.

Lemma checked_add_i64_spec a b c :
  checked_add_i64 a b = Some c <-> c = a + b /\ is_i64 c.
Proof.
  unfold checked_add_i64. rewrite <-in_i64_spec.
  destruct (in_i64 (a + b)) eqn:E; split; [naive_solver..|done|].
  intros [-> ?]. congruence.
Qed.

Lemma checked_add_i64_None a b :
  checked_add_i64 a b = None <-> ~ is_i64 (a + b).
Proof.
  unfold checked_add_i64. rewrite <-in_i64_spec.
  destruct (in_i64 (a + b)); naive_solver.
Qed.

Lemma checked_sub_i64_spec a b c :
  checked_sub_i64 a b = Some c <-> c = a - b /\ is_i64 c.
Proof.
  unfold checked_sub_i64. rewrite <-in_i64_spec.
  destruct (in_i64 (a - b)) eqn:E; split; [naive_solver..|done|].
  intros [-> ?]. congruence.
Qed.

Lemma checked_add_u64_spec a b c :
  checked_add_u64 a b = Some c <-> c = a + b /\ c <= u64_max.
Proof.
  unfold checked_add_u64. destruct (Z.leb_spec (a + b) u64_max); naive_solver lia.
Qed.

Lemma checked_add_u32_spec a b c :
  checked_add_u32 a b = Some c <-> c = a + b /\ c <= u32_max.
Proof.
  unfold checked_add_u32. destruct (Z.leb_spec (a + b) u32_max); naive_solver lia.
Qed.

(** ** Byte strings

    A byte is a [Z]; [[u8; 32]] and [Vec<u8>] are both lists of bytes, and the
    fixed length of the former is stated where a theorem needs it. *)

Abbreviation bytes := (list Z).

Definition zero32 : bytes := replicate 32 0.

(** [n] copies of one byte: the shape the concrete examples use for ids. *)
Definition fill32 (b : Z) : bytes := replicate 32 b.

(** [x.to_le_bytes()] on an [n]-byte integer, and [from_le_bytes]. *)
Fixpoint le_bytes (n : nat) (z : Z) : bytes :=
  match n with
  | O => []
  | S n' => z mod 256 :: le_bytes n' (z / 256)
  end.

Fixpoint of_le_bytes (l : bytes) : Z :=
  match l with
  | [] => 0
  | b :: l' => b + 256 * of_le_bytes l'
  end.

Lemma length_le_bytes n z : length (le_bytes n z) = n.
Proof. revert z; induction n as [|n IH]; intros z; simpl; [done|]. by rewrite IH. Qed.

Lemma of_le_bytes_le_bytes n z :
  of_le_bytes (le_bytes n z) = z mod 256 ^ Z.of_nat n.
Proof.
  revert z; induction n as [|n IH]; intros z.
  - simpl. by rewrite Z.mod_1_r.
  - cbn [le_bytes of_le_bytes]. rewrite IH.
    rewrite Nat2Z.inj_succ, Z.pow_succ_r by lia.
    rewrite Z.rem_mul_r by lia. lia.
Qed.

Definition is_byte (b : Z) : Prop := 0 <= b < 256.

Lemma le_bytes_of_le_bytes l : Forall is_byte l -> le_bytes (length l) (of_le_bytes l) = l.
Proof.
  induction 1 as [|b l Hb _ IH]; [done|]. cbn [length le_bytes of_le_bytes]. unfold is_byte in Hb.
  rewrite (Z.mul_comm 256), Z_mod_plus_full, Z.div_add, Z.mod_small, Z.div_small by lia.
  by f_equal.
Qed.

Lemma of_le_bytes_bound l : Forall is_byte l -> 0 <= of_le_bytes l < 256 ^ Z.of_nat (length l).
Proof.
  intros Hl. rewrite <- (le_bytes_of_le_bytes l Hl) at 1 2. rewrite of_le_bytes_le_bytes.
  apply Z.mod_pos_bound. lia.
Qed.

Lemma le_bytes_inj n a b :
  0 <= a < 256 ^ Z.of_nat n -> 0 <= b < 256 ^ Z.of_nat n ->
  le_bytes n a = le_bytes n b -> a = b.
Proof.
  intros Ha Hb Heq. apply (f_equal of_le_bytes) in Heq.
  rewrite !of_le_bytes_le_bytes in Heq. by rewrite !Z.mod_small in Heq.
Qed.

Lemma le_bytes4_inj a b : is_u32 a -> is_u32 b -> le_bytes 4 a = le_bytes 4 b -> a = b.
Proof. unfold is_u32, u32_max. intros ??. apply le_bytes_inj; simpl; lia. Qed.

Lemma le_bytes8_inj a b : is_u64 a -> is_u64 b -> le_bytes 8 a = le_bytes 8 b -> a = b.
Proof. unfold is_u64, u64_max. intros ??. apply le_bytes_inj; simpl; lia. Qed.

(** The bytes of a string literal (a domain-separation tag). *)
Fixpoint str_bytes (s : string) : bytes :=
  match s with
  | EmptyString => []
  | String c s' => Z.of_N (N_of_ascii c) :: str_bytes s'
  end.

Lemma length_str_bytes s : length (str_bytes s) = String.length s.
Proof. induction s; simpl; congruence. Qed.

Lemma str_bytes_inj s t : str_bytes s = str_bytes t -> s = t.
Proof.
  revert t; induction s as [|c s IH]; intros [|d t]; simpl; try done.
  intros [= Hc Hs]. f_equal; [|by apply IH].
  apply N2Z.inj in Hc. apply (f_equal ascii_of_N) in Hc.
  by rewrite !ascii_N_embedding in Hc.
Qed.

(** ** BLAKE3

    The hash is a crate the repository does not vendor: it is a parameter of
    the model. [blake3_hash] is [Hasher::new()], every [update] and
    [finalize()], so its argument is the concatenation of what was absorbed;
    [blake3_derive_key] is [Hasher::new_derive_key(context)]. *)

Class Blake3 := {
  blake3_hash : bytes -> bytes;
  blake3_derive_key : string -> bytes -> bytes;
}.

(** The documented behaviour the code relies on: digests are 32 long, and
    collision resistance in the idealised form in which no collision exists
    (for the derive-key mode, across contexts too). *)
Class Blake3CR (H : Blake3) : Prop := {
  length_blake3_hash : forall x, length (blake3_hash x) = 32%nat;
  length_blake3_derive_key : forall c x, length (blake3_derive_key c x) = 32%nat;
  blake3_hash_inj : forall x y, blake3_hash x = blake3_hash y -> x = y;
  blake3_derive_key_inj : forall c d x y,
    blake3_derive_key c x = blake3_derive_key d y -> c = d /\ x = y;
}.

(** A concrete instance of the interface, used to evaluate the definitions: the
    first cell of the digest is a code of the absorbed message. *)
Definition model_digest (x : bytes) : bytes := Zpos (encode x) :: replicate 31 0.

Definition model_blake3 : Blake3 := {|
  blake3_hash := model_digest;
  blake3_derive_key := fun c x =>
    model_digest (Z.of_nat (String.length c) :: str_bytes c ++ x);
|}.

Lemma model_digest_inj x y : model_digest x = model_digest y -> x = y.
Proof. intros [= H]. by apply (inj encode) in H. Qed.

Lemma model_blake3_cr : Blake3CR model_blake3.
Proof.
  split; [done|done|apply model_digest_inj|].
  intros c d x y H. apply model_digest_inj in H as [= Hlen Happ].
  apply app_inj_1 in Happ as [Hs ->]; [by apply str_bytes_inj in Hs|].
  rewrite !length_str_bytes. lia.
Qed.

(** ** Ed25519

    Signatures are a crate too.  A key that does not decode verifies nothing. *)

Class Ed25519 := {
  ed_public : bytes -> bytes;
  ed_sign : bytes -> bytes -> bytes;
  ed_verify : bytes -> bytes -> bytes -> bool;
}.

(** Signatures made with a key verify under it. *)
Class Ed25519OK (H : Ed25519) : Prop :=
  ed_sign_verifies : forall sk msg, ed_verify (ed_public sk) msg (ed_sign sk msg) = true.

(** A concrete instance: a signature names its key and its message. *)
Definition model_ed25519 : Ed25519 := {|
  ed_public sk := sk;
  ed_sign sk msg := sk ++ msg;
  ed_verify pk msg sig := bool_decide (sig = pk ++ msg);
|}.

Lemma model_ed25519_ok : Ed25519OK model_ed25519.
Proof. intros sk msg. cbn. by apply bool_decide_eq_true. Qed.

(** ** Lists *)

(** [l.iter().find(p)] as a function to [option]: stdpp's [list_find] without
    the position. *)
Definition ffind {A} (p : A -> bool) (l : list A) : option A := List.find p l.

Definition any {A} (p : A -> bool) (l : list A) : bool := existsb p l.

Lemma any_true {A} (p : A -> bool) l : any p l = true <-> exists x, x ∈ l /\ p x = true.
Proof.
  unfold any. rewrite existsb_exists. by setoid_rewrite <-list_elem_of_In.
Qed.

Lemma NoDup_fmap_elem_inj {A B} (f : A -> B) (l : list A) x y :
  NoDup (f <$> l) -> x ∈ l -> y ∈ l -> f x = f y -> x = y.
Proof.
  intros Hnd Hx Hy E. apply list_elem_of_lookup in Hx as (i & Hi). apply list_elem_of_lookup in Hy as (j & Hj).
  assert (i = j) as ->; [|congruence].
  eapply NoDup_lookup; [exact Hnd|by rewrite list_lookup_fmap, Hi|].
  rewrite list_lookup_fmap, Hj. simpl. by rewrite E.
Qed.

(** [Vec::retain]. *)
Definition retain {A} (p : A -> bool) (l : list A) : list A := List.filter p l.

Lemma elem_of_retain {A} (p : A -> bool) l x : x ∈ retain p l <-> x ∈ l /\ p x = true.
Proof. unfold retain. rewrite !list_elem_of_In. apply filter_In. Qed.

Lemma retain_all {A} (p : A -> bool) l :
  (forall x, x ∈ l -> p x = true) -> retain p l = l.
Proof.
  induction l as [|a l IH]; intros Hp; simpl; [done|].
  rewrite (Hp a) by left. f_equal. apply IH. intros x Hx. apply Hp. by right.
Qed.

Lemma ffind_some {A} (p : A -> bool) l x : ffind p l = Some x -> x ∈ l /\ p x = true.
Proof. unfold ffind. intros H. rewrite list_elem_of_In. by apply find_some in H. Qed.

Lemma ffind_none {A} (p : A -> bool) l : ffind p l = None -> forall x, x ∈ l -> p x = false.
Proof. unfold ffind. intros H x. rewrite list_elem_of_In. by apply find_none. Qed.

Lemma ffind_app {A} (p : A -> bool) l1 l2 :
  ffind p (l1 ++ l2) = match ffind p l1 with Some x => Some x | None => ffind p l2 end.
Proof. unfold ffind. induction l1 as [|a l1 IH]; simpl; [done|]. by destruct (p a). Qed.

(** ** Sorting

    [sort_by_key] and [sort_unstable_by_key] as an insertion sort (stable), and
    [dedup_by_key], which keeps the first element of every run of equal keys. *)

Fixpoint insert_by_key {A} (key : A -> Z) (x : A) (l : list A) : list A :=
  match l with
  | [] => [x]
  | y :: l' => if key x <=? key y then x :: y :: l' else y :: insert_by_key key x l'
  end.

Definition sort_by_key {A} (key : A -> Z) (l : list A) : list A :=
  foldr (insert_by_key key) [] l.

Fixpoint dedup_after {A} (key : A -> Z) (prev : A) (l : list A) : list A :=
  match l with
  | [] => []
  | y :: l' =>
      if key y =? key prev then dedup_after key prev l' else y :: dedup_after key y l'
  end.

Definition dedup_by_key {A} (key : A -> Z) (l : list A) : list A :=
  match l with [] => [] | x :: l' => x :: dedup_after key x l' end.

Definition key_le {A} (key : A -> Z) (x y : A) : Prop := key x <= key y.
Definition key_lt {A} (key : A -> Z) (x y : A) : Prop := key x < key y.

Section Sorting.
Context {A : Type} (key : A -> Z).
Implicit Types (l : list A) (x y : A).

Lemma insert_by_key_perm x l : insert_by_key key x l ≡ₚ x :: l.
Proof.
  induction l as [|y l IH]; simpl; [done|]. destruct (key x <=? key y); [done|].
  rewrite IH. apply Permutation_swap.
Qed.

Lemma sort_by_key_perm l : sort_by_key key l ≡ₚ l.
Proof. induction l as [|x l IH]; simpl; [done|]. by rewrite insert_by_key_perm, IH. Qed.

Lemma elem_of_sort_by_key x l : x ∈ sort_by_key key l <-> x ∈ l.
Proof. by rewrite sort_by_key_perm. Qed.

Lemma insert_by_key_sorted x l :
  StronglySorted (key_le key) l -> StronglySorted (key_le key) (insert_by_key key x l).
Proof.
  unfold key_le. induction 1 as [|y l Hs IH Hy]; simpl; [by repeat constructor|].
  destruct (Z.leb_spec (key x) (key y)).
  - constructor; [by constructor|]. constructor; [done|].
    eapply Forall_impl; [exact Hy|]. simpl. lia.
  - constructor; [done|]. rewrite insert_by_key_perm. constructor; [lia|done].
Qed.

Lemma sort_by_key_sorted l : StronglySorted (key_le key) (sort_by_key key l).
Proof. induction l; simpl; [constructor|]. by apply insert_by_key_sorted. Qed.

Lemma NoDup_keys_inj l x y : NoDup (key <$> l) -> x ∈ l -> y ∈ l -> key x = key y -> x = y.
Proof. apply NoDup_fmap_elem_inj. Qed.

(** With distinct keys the sorted order is unique. *)
Lemma sorted_key_unique l1 l2 :
  NoDup (key <$> l1) -> l1 ≡ₚ l2 ->
  StronglySorted (key_le key) l1 -> StronglySorted (key_le key) l2 -> l1 = l2.
Proof.
  revert l2; induction l1 as [|x l1 IH]; intros [|y l2] Hnd Hp H1 H2; try done.
  - by apply Permutation_nil_l in Hp.
  - by apply Permutation_nil_r in Hp.
  - inversion H1 as [|?? Hs1 Hx]; inversion H2 as [|?? Hs2 Hy]; subst.
    assert (x = y) as <-.
    { apply (NoDup_keys_inj (x :: l1)); [done|left|rewrite Hp; left|].
      rewrite Forall_forall in Hx, Hy. unfold key_le in *.
      assert (Hyx : key x <= key y).
      { assert (Hin : y ∈ x :: l1) by (rewrite Hp; left).
        apply elem_of_cons in Hin as [->|Hin]; [lia|by apply Hx]. }
      assert (Hxy : key y <= key x).
      { assert (Hin : x ∈ y :: l2) by (rewrite <-Hp; left).
        apply elem_of_cons in Hin as [->|Hin]; [lia|by apply Hy]. }
      lia. }
    f_equal. apply IH; [by apply NoDup_cons in Hnd as [_ ?]|by apply Permutation_cons_inv in Hp|done|done].
Qed.

Lemma sort_by_key_unique l1 l2 :
  NoDup (key <$> l1) -> l1 ≡ₚ l2 -> sort_by_key key l1 = sort_by_key key l2.
Proof.
  intros Hnd Hp. apply sorted_key_unique; try apply sort_by_key_sorted.
  - by rewrite sort_by_key_perm.
  - by rewrite !sort_by_key_perm.
Qed.

Lemma sort_by_key_id l : StronglySorted (key_lt key) l -> sort_by_key key l = l.
Proof.
  induction 1 as [|x l Hs IH Hx]; simpl; [done|]. rewrite IH.
  destruct l as [|y l]; [done|]. apply Forall_cons in Hx as [Hxy _]. unfold key_lt in Hxy. simpl.
  by rewrite (proj2 (Z.leb_le _ _)) by lia.
Qed.

Lemma dedup_after_nodup x l : NoDup (key <$> x :: l) -> dedup_after key x l = l.
Proof.
  revert x; induction l as [|y l IH]; intros x Hnd; simpl; [done|].
  assert (Hne : key y <> key x).
  { intros E. simpl in Hnd. apply NoDup_cons in Hnd as [Hn _]. apply Hn. rewrite E. left. }
  rewrite (proj2 (Z.eqb_neq _ _)) by done. f_equal. apply IH.
  simpl in Hnd |- *. by apply NoDup_cons in Hnd as [_ ?].
Qed.

Lemma dedup_by_key_nodup l : NoDup (key <$> l) -> dedup_by_key key l = l.
Proof. destruct l as [|x l]; simpl; [done|]. intros Hnd. f_equal. by apply dedup_after_nodup. Qed.

Lemma dedup_after_sublist x l : dedup_after key x l `sublist_of` l.
Proof.
  revert x; induction l as [|y l IH]; intros x; simpl; [done|].
  destruct (_ =? _); [by apply sublist_cons|by apply sublist_skip].
Qed.

(** Deduplicating a sorted list leaves one element per key. *)
Lemma dedup_after_sorted x l :
  StronglySorted (key_le key) (x :: l) -> StronglySorted (key_lt key) (x :: dedup_after key x l).
Proof.
  revert x; induction l as [|y l IH]; intros x Hs; simpl; [by repeat constructor|].
  inversion Hs as [|?? Hs' Hx]; subst. inversion Hs' as [|?? Hs'' Hy]; subst.
  apply Forall_cons in Hx as [Hxy Hx]. unfold key_le in Hxy.
  destruct (Z.eqb_spec (key y) (key x)) as [E|E].
  - apply IH. by constructor.
  - pose proof (IH y Hs') as Hd. constructor; [done|].
    inversion Hd as [|?? _ Hyd]; subst.
    constructor; [unfold key_lt; lia|]. eapply Forall_impl; [exact Hyd|].
    unfold key_lt. intros z. lia.
Qed.

Lemma dedup_by_key_sorted l :
  StronglySorted (key_le key) l -> StronglySorted (key_lt key) (dedup_by_key key l).
Proof. destruct l as [|x l]; [constructor|]. apply dedup_after_sorted. Qed.

Lemma sorted_lt_NoDup l : StronglySorted (key_lt key) l -> NoDup (key <$> l).
Proof.
  induction 1 as [|x l Hs IH Hx]; simpl; [constructor|]. constructor; [|done].
  intros (y & E & Hy)%list_elem_of_fmap. rewrite Forall_forall in Hx.
  specialize (Hx y Hy). unfold key_lt in Hx. lia.
Qed.

Lemma sorted_NoDup_lt l :
  StronglySorted (key_le key) l -> NoDup (key <$> l) -> StronglySorted (key_lt key) l.
Proof.
  induction 1 as [|x l Hs IH Hx]; simpl; intros Hnd; constructor;
    apply NoDup_cons in Hnd as [Hn Hnd]; [by apply IH|].
  apply Forall_forall. intros y Hy. rewrite Forall_forall in Hx. specialize (Hx y Hy).
  unfold key_lt, key_le in *. destruct (decide (key x = key y)) as [E|]; [|lia].
  destruct Hn. rewrite E. by apply list_elem_of_fmap_2.
Qed.

End Sorting.

Lemma sort_by_key_map {A B} (key : A -> Z) (key' : B -> Z) (g : A -> B) l :
  (forall x, key' (g x) = key x) -> sort_by_key key' (map g l) = map g (sort_by_key key l).
Proof.
  intros Hg. induction l as [|x l IH]; simpl; [done|]. rewrite IH. clear IH.
  induction (sort_by_key key l) as [|y l' IH]; simpl; [done|].
  rewrite !Hg. destruct (key x <=? key y); [done|]. simpl. by rewrite IH.
Qed.

(** ** Ordered maps

    A [BTreeMap<K, V>] is its ascending list of entries; [ord] is the order of
    the keys, as an integer. *)

Section BTree.
Context {K V : Type} (ord : K -> Z).

Abbreviation btree := (list (K * V)).

Fixpoint bt_insert (k : K) (v : V) (m : btree) : btree :=
  match m with
  | [] => [(k, v)]
  | (k', v') :: m' =>
      if ord k <? ord k' then (k, v) :: (k', v') :: m'
      else if ord k =? ord k' then (k, v) :: m'
      else (k', v') :: bt_insert k v m'
  end.

Fixpoint bt_get (k : K) (m : btree) : option V :=
  match m with
  | [] => None
  | (k', v') :: m' => if ord k =? ord k' then Some v' else bt_get k m'
  end.

Definition bt_remove (k : K) (m : btree) : btree :=
  retain (fun e => negb (ord e.1 =? ord k)) m.

Definition bt_contains (k : K) (m : btree) : bool :=
  match bt_get k m with Some _ => true | None => false end.

Definition bt_key (e : K * V) : Z := ord e.1.
Definition bt_ok (m : btree) : Prop := StronglySorted (key_lt bt_key) m.

Lemma bt_get_insert k v m j :
  bt_get j (bt_insert k v m) = if ord j =? ord k then Some v else bt_get j m.
Proof.
  induction m as [|[k' v'] m IH]; simpl; [done|].
  destruct (Z.ltb_spec (ord k) (ord k')); simpl; [done|].
  destruct (Z.eqb_spec (ord k) (ord k')) as [E|]; simpl.
  - rewrite E. by destruct (ord j =? ord k').
  - rewrite IH. destruct (Z.eqb_spec (ord j) (ord k')), (Z.eqb_spec (ord j) (ord k)); congruence.
Qed.

Lemma elem_of_bt_insert e k v m :
  e ∈ bt_insert k v m -> e = (k, v) \/ e ∈ m.
Proof.
  induction m as [|[k' v'] m IH]; simpl; [rewrite list_elem_of_singleton; tauto|].
  destruct (ord k <? ord k'); [rewrite (elem_of_cons (_ :: m)); tauto|].
  destruct (ord k =? ord k'); rewrite !elem_of_cons; tauto.
Qed.

Lemma bt_insert_ok k v m : bt_ok m -> bt_ok (bt_insert k v m).
Proof.
  unfold bt_ok, key_lt. induction 1 as [|[k' v'] m Hs IH Hk]; simpl; [by repeat constructor|].
  destruct (Z.ltb_spec (ord k) (ord k')); [|destruct (Z.eqb_spec (ord k) (ord k')) as [E|]].
  - repeat constructor; [done|done|done|]. eapply Forall_impl; [exact Hk|]. unfold bt_key. simpl. lia.
  - constructor; [done|]. eapply Forall_impl; [exact Hk|]. unfold bt_key. simpl. lia.
  - constructor; [done|]. apply Forall_forall. intros e [->|He]%elem_of_bt_insert.
    + unfold bt_key. simpl. lia.
    + rewrite Forall_forall in Hk. by apply Hk.
Qed.

Lemma bt_get_elem k v m : bt_get k m = Some v -> exists k', ord k' = ord k /\ (k', v) ∈ m.
Proof.
  induction m as [|[k' v'] m IH]; simpl; [done|]. destruct (Z.eqb_spec (ord k) (ord k')).
  - intros [= ->]. exists k'. split; [done|left].
  - intros (j & ? & ?)%IH. exists j. split; [done|by right].
Qed.

(** Overwriting a present key keeps every key and changes one value. *)
Lemma bt_insert_present k v m :
  bt_ok m -> bt_contains k m = true ->
  bt_insert k v m = map (fun e => if ord e.1 =? ord k then (k, v) else e) m.
Proof.
  unfold bt_ok, bt_contains. induction 1 as [|[k' v'] m Hs IH Hk]; simpl; [done|].
  destruct (Z.eqb_spec (ord k) (ord k')) as [E|E].
  - intros _. rewrite E, Z.ltb_irrefl, Z.eqb_refl. f_equal.
    rewrite <-(map_id m) at 1. apply map_ext_in. intros e He%list_elem_of_In.
    rewrite Forall_forall in Hk. specialize (Hk e He). unfold key_lt, bt_key in Hk. simpl in Hk.
    by rewrite (proj2 (Z.eqb_neq _ _)) by lia.
  - intros Hc. destruct (Z.ltb_spec (ord k) (ord k')).
    + exfalso. destruct (bt_get k m) as [w|] eqn:Eg; [|done].
      apply bt_get_elem in Eg as (j & Hj & Hin). rewrite Forall_forall in Hk.
      specialize (Hk _ Hin). unfold key_lt, bt_key in Hk. simpl in Hk. lia.
    + rewrite (proj2 (Z.eqb_neq (ord k') (ord k))) by lia. f_equal. by apply IH.
Qed.

Lemma bt_remove_ok k m : bt_ok m -> bt_ok (bt_remove k m).
Proof.
  unfold bt_ok, bt_remove, retain. induction 1 as [|e m Hs IH Hk]; simpl; [constructor|].
  destruct (negb _); [|done]. constructor; [done|].
  rewrite Forall_forall in Hk |- *. intros x [Hx _]%list_elem_of_In%filter_In.
  by apply Hk, list_elem_of_In.
Qed.

Lemma bt_get_remove k m j :
  bt_get j (bt_remove k m) = if ord j =? ord k then None else bt_get j m.
Proof.
  unfold bt_remove, retain. induction m as [|[k' v'] m IH]; simpl; [by destruct (_ =? _)|].
  destruct (Z.eqb_spec (ord k') (ord k)); simpl; rewrite IH;
    destruct (Z.eqb_spec (ord j) (ord k)), (Z.eqb_spec (ord j) (ord k')); congruence.
Qed.

Lemma elem_of_bt_remove e k m : e ∈ bt_remove k m -> e ∈ m.
Proof. intros [? _]%list_elem_of_In%filter_In. by apply list_elem_of_In. Qed.

Lemma bt_remove_length k m : (length (bt_remove k m) <= length m)%nat.
Proof. apply filter_length_le. Qed.

Lemma bt_insert_length k v m : (length (bt_insert k v m) <= S (length m))%nat.
Proof. induction m as [|[k' v'] m IH]; simpl; [done|]. repeat case_match; simpl in *; lia. Qed.

Lemma bt_remove_absent k m : bt_contains k m = false -> bt_remove k m = m.
Proof.
  unfold bt_contains, bt_remove, retain. induction m as [|[k' v'] m IH]; simpl; [done|].
  rewrite (Z.eqb_sym (ord k')). destruct (ord k =? ord k'); [done|]. intros H. simpl. f_equal. by apply IH.
Qed.

End BTree.

(** ** Digests in a vector *)

(** [iter().position(..)]. *)
Fixpoint position_of_digest (d : bytes) (l : list bytes) : option nat :=
  match l with
  | [] => None
  | x :: l' => if bool_decide (x = d) then Some O else S <$> position_of_digest d l'
  end.

(** [swap_remove]: the last element takes the place of the removed one. *)
Definition swap_remove (l : list bytes) (pos : nat) : list bytes :=
  match last l with
  | Some x => take (length l - 1) (<[pos := x]> l)
  | None => l
  end.

Lemma position_first (d : bytes) l : exists pos, position_of_digest d (l ++ [d]) = Some pos /\
  (pos <= length l)%nat /\ (pos < length l -> l !! pos = Some d)%nat.
Proof.
  induction l as [|x l (pos & E & Hle & Hp)]; cbn.
  - exists O. rewrite bool_decide_true by done. split_and!; [done|lia|lia].
  - case_bool_decide as Ex; [exists O; split_and!; [done|lia|by subst]|].
    exists (S pos). rewrite E. split_and!; [done|lia|]. intros H. cbn. apply Hp. lia.
Qed.

(** Whichever copy of the digest the refund finds, the debit it takes back is
    the last one. *)
Lemma swap_remove_last l d pos :
  position_of_digest d (l ++ [d]) = Some pos -> swap_remove (l ++ [d]) pos = l.
Proof.
  intros E. destruct (position_first d l) as (pos' & E' & Hle & Hp). rewrite E in E'. injection E' as <-.
  unfold swap_remove. rewrite last_snoc, length_app. cbn. replace (length l + 1 - 1)%nat with (length l) by lia.
  destruct (decide (pos = length l)) as [->|Hne].
  - rewrite insert_app_r_alt, take_app_le, take_ge by lia. done.
  - rewrite insert_app_l, take_app_le by (rewrite ?length_insert; lia).
    rewrite take_ge by (rewrite length_insert; lia). apply list_insert_id. apply Hp. lia.
Qed.

(** ** The hint database of the development *)

Create HintDb dregg.
#[export] Hint Resolve length_le_bytes length_str_bytes model_blake3_cr : dregg.

(** ** Sums over lists *)

Section Sums.
Context {A : Type}.

Definition sum_over (f : A -> Z) (l : list A) : Z := foldr (fun x acc => f x + acc) 0 l.

Lemma sum_over_app f l1 l2 : sum_over f (l1 ++ l2) = sum_over f l1 + sum_over f l2.
Proof. unfold sum_over. induction l1 as [|x l1 IH]; cbn [app foldr]; lia. Qed.

Lemma sum_over_perm f l1 l2 : l1 ≡ₚ l2 -> sum_over f l1 = sum_over f l2.
Proof. unfold sum_over. induction 1; cbn; lia. Qed.

Lemma sum_over_ext f g l : (forall x, x ∈ l -> f x = g x) -> sum_over f l = sum_over g l.
Proof.
  unfold sum_over. induction l as [|x l IH]; intros H; cbn; [done|].
  rewrite (H x) by apply list_elem_of_here. f_equal. apply IH. intros y Hy. apply H. by apply list_elem_of_further.
Qed.

Lemma sum_over_const f n l : (forall x, x ∈ l -> f x = n) -> sum_over f l = Z.of_nat (length l) * n.
Proof.
  unfold sum_over. induction l as [|x l IH]; intros H; [done|]. cbn [foldr length].
  rewrite (H x) by apply list_elem_of_here. rewrite IH; [lia|]. intros y Hy. apply H. by apply list_elem_of_further.
Qed.

Lemma sum_over_nonneg f l : (forall x, x ∈ l -> 0 <= f x) -> 0 <= sum_over f l.
Proof.
  unfold sum_over. induction l as [|x l IH]; intros H; cbn; [done|].
  pose proof (H x (list_elem_of_here x l)). assert (0 <= foldr (fun x acc => f x + acc) 0 l); [|lia].
  apply IH. intros y Hy. apply H. by apply list_elem_of_further.
Qed.

End Sums.

(** A share of [f + 1] in [2f + 1] of a balance. *)
Lemma quorum_share_bounds f b : 0 <= f -> 0 <= b -> 0 <= b * (f + 1) / (2 * f + 1) <= b.
Proof. intros Hf Hb. split; [apply Z.div_pos; nia|]. apply Z.div_le_upper_bound; nia. Qed.

Lemma quorum_share_mono f b b' : 0 <= f -> b <= b' -> b * (f + 1) / (2 * f + 1) <= b' * (f + 1) / (2 * f + 1).
Proof. intros Hf Hb. apply Z.div_le_mono; nia. Qed.
