(* ===== verification/BabyBear.v ===== *)
(** * The BabyBear field

    Models [circuit/src/field.rs]: field elements as [u32] values modulo
    [P = 2^31 - 2^27 + 1], the division-free reduction every operation ends
    with, exponentiation, and the 32-byte hash encodings.  A [BabyBear(v)] is
    the integer [v], a [u32] that need not be canonical. *)

From stdpp Require Import base decidable option list.
From Stdlib Require Import ZArith Zpow_facts Lia.
From S2P Require Import Prelude.

Open Scope Z_scope.

Definition BABYBEAR_P : Z := Z.shiftl 1 31 - Z.shiftl 1 27 + 1.

Definition canonical (x : Z) : Prop := 0 <= x < BABYBEAR_P.

Definition canonical_val (v : Z) : Z := if BABYBEAR_P <=? v then v - BABYBEAR_P else v.

(** [PartialEq]: elements compare by [canonical_val]. *)
Definition bb_eqb (a b : Z) : bool := canonical_val a =? canonical_val b.

Definition bb_new (val : Z) : Z := val mod BABYBEAR_P.

(** ** Reduction

    Barrett: [M] is the reciprocal, [q] the quotient estimate, and the [while]
    loop removes the multiples of [P] the estimate left behind.  [fuel] bounds
    the loop; [reduce_u64_mod] shows two rounds are more than it ever takes. *)

Definition BARRETT_M : Z := Z.shiftl 1 64 / BABYBEAR_P.

Fixpoint reduce_loop (fuel : nat) (r : Z) : option Z :=
  if BABYBEAR_P <=? r
  then match fuel with O => None | S f => reduce_loop f (r - BABYBEAR_P) end
  else Some r.

Definition reduce_u64 (x : Z) : Z :=
  let q := Z.shiftr (x * BARRETT_M) 64 in
  let r := x - q * BABYBEAR_P in
  default 0 (reduce_loop 2 r).

(** ** Arithmetic *)

Definition bb_add (a b : Z) : Z :=
  if (a <? BABYBEAR_P) && (b <? BABYBEAR_P)
  then let s := a + b in if BABYBEAR_P <=? s then s - BABYBEAR_P else s
  else reduce_u64 (a + b).

(** The non-canonical fallback computes [a + P - b] in [u64] arithmetic, which
    wraps in a release build. *)
Definition bb_sub (a b : Z) : Z :=
  if (a <? BABYBEAR_P) && (b <? BABYBEAR_P)
  then if a <? b then a - b + BABYBEAR_P else a - b
  else reduce_u64 (as_u64 (a + BABYBEAR_P - b)).

Definition bb_mul (a b : Z) : Z := reduce_u64 (a * b).

Definition bb_neg (a : Z) : Z := if a =? 0 then 0 else BABYBEAR_P - a.

(** Square and multiply; the exponent is a [u32], so 32 rounds consume it. *)
Fixpoint pow_loop (fuel : nat) (base result exp : Z) : Z :=
  match fuel with
  | O => result
  | S f =>
      if exp <=? 0 then result
      else
        let result := if Z.land exp 1 =? 1 then bb_mul result base else result in
        pow_loop f (bb_mul base base) result (Z.shiftr exp 1)
  end.

Definition bb_pow (self exp : Z) : Z := pow_loop 32 self 1 exp.

Definition bb_inverse (self : Z) : option Z :=
  if self =? 0 then None else Some (bb_pow self (BABYBEAR_P - 2)).

(** ** Byte encodings *)

Fixpoint chunks4 (fuel : nat) (l : list Z) : list (list Z) :=
  match fuel with
  | O => []
  | S f => match l with [] => [] | _ => take 4 l :: chunks4 f (drop 4 l) end
  end.

(** [encode_hash]: eight 4-byte little-endian limbs, each reduced. *)
Definition encode_hash (hash : bytes) : list Z :=
  map (fun chunk => bb_new (of_le_bytes chunk)) (chunks4 8 hash).

Definition decode_hash (elements : list Z) : bytes :=
  concat (map (le_bytes 4) elements).

(** ** Arithmetic is arithmetic modulo [P] *)

Lemma P_val : BABYBEAR_P = 2013265921.
Proof. reflexivity. Qed.

Lemma M_val : BARRETT_M = 9162596893.
Proof. reflexivity. Qed.

Ltac unfold_P := unfold canonical, is_u32, is_u64, u32_max, u64_max in *; rewrite ?P_val, ?M_val in *.

Lemma reduce_loop_mod fuel r :
  0 <= r < (Z.of_nat fuel + 1) * BABYBEAR_P -> reduce_loop fuel r = Some (r mod BABYBEAR_P).
Proof.
  revert r; induction fuel as [|f IH]; intros r Hr; cbn [reduce_loop];
    destruct (Z.leb_spec BABYBEAR_P r).
  - unfold_P. lia.
  - rewrite Z.mod_small; [done|lia].
  - rewrite IH by (unfold_P; lia). f_equal.
    rewrite <-(Z_mod_plus_full (r - BABYBEAR_P) 1). f_equal. lia.
  - rewrite Z.mod_small; [done|lia].
Qed.

(** The estimate is never above the quotient and at most one below it. *)
Lemma barrett_bounds x :
  is_u64 x -> let q := Z.shiftr (x * BARRETT_M) 64 in
  0 <= x - q * BABYBEAR_P < 2 * BABYBEAR_P.
Proof.
  intros Hx q. unfold q. rewrite Z.shiftr_div_pow2 by lia. unfold_P.
  change (2 ^ 64) with 18446744073709551616.
  pose proof (Z.div_mod (x * 9162596893) 18446744073709551616 ltac:(lia)).
  pose proof (Z.mod_pos_bound (x * 9162596893) 18446744073709551616 ltac:(lia)). lia.
Qed.

Lemma reduce_u64_mod x : is_u64 x -> reduce_u64 x = x mod BABYBEAR_P.
Proof.
  intros Hx. unfold reduce_u64. pose proof (barrett_bounds x Hx) as Hb. simpl in Hb.
  rewrite reduce_loop_mod by (unfold_P; lia). simpl.
  rewrite <-(Z_mod_plus_full _ (Z.shiftr (x * BARRETT_M) 64)). f_equal. lia.
Qed.

Lemma mod_canonical x : canonical (x mod BABYBEAR_P).
Proof. unfold canonical. apply Z.mod_pos_bound. unfold_P. lia. Qed.

Lemma canonical_u32 x : canonical x -> is_u32 x.
Proof. unfold_P. lia. Qed.

Lemma bb_add_mod a b : is_u32 a -> is_u32 b -> bb_add a b = (a + b) mod BABYBEAR_P.
Proof.
  intros Ha Hb. unfold bb_add.
  destruct (Z.ltb_spec a BABYBEAR_P), (Z.ltb_spec b BABYBEAR_P); simpl;
    try (apply reduce_u64_mod; unfold_P; lia).
  destruct (Z.leb_spec BABYBEAR_P (a + b)); unfold_P.
  - rewrite <-(Z_mod_plus_full (a + b) (-1)), Z.mod_small; lia.
  - rewrite Z.mod_small; lia.
Qed.

Lemma bb_sub_mod a b : canonical a -> canonical b -> bb_sub a b = (a - b) mod BABYBEAR_P.
Proof.
  intros Ha Hb. unfold bb_sub.
  rewrite (proj2 (Z.ltb_lt a _)), (proj2 (Z.ltb_lt b _)) by (apply Ha || apply Hb). simpl.
  destruct (Z.ltb_spec a b); unfold_P.
  - rewrite <-(Z_mod_plus_full (a - b) 1), Z.mod_small; lia.
  - rewrite Z.mod_small; lia.
Qed.

Lemma bb_mul_mod a b : is_u32 a -> is_u32 b -> bb_mul a b = (a * b) mod BABYBEAR_P.
Proof. intros Ha Hb. apply reduce_u64_mod. unfold_P. nia. Qed.

Lemma bb_add_canonical a b : is_u32 a -> is_u32 b -> canonical (bb_add a b).
Proof. intros. rewrite bb_add_mod by done. apply mod_canonical. Qed.

Lemma bb_sub_canonical a b : canonical a -> canonical b -> canonical (bb_sub a b).
Proof. intros. rewrite bb_sub_mod by done. apply mod_canonical. Qed.

Lemma bb_mul_canonical a b : is_u32 a -> is_u32 b -> canonical (bb_mul a b).
Proof. intros. rewrite bb_mul_mod by done. apply mod_canonical. Qed.

Lemma bb_new_canonical v : canonical (bb_new v).
Proof. apply mod_canonical. Qed.

#[export] Hint Resolve bb_add_canonical bb_sub_canonical bb_mul_canonical bb_new_canonical
  canonical_u32 mod_canonical : dregg.

Lemma mul_pow_square r b k :
  0 <= k -> (r * ((b * b) mod BABYBEAR_P) ^ k) mod BABYBEAR_P = (r * b ^ (2 * k)) mod BABYBEAR_P.
Proof.
  intros Hk. rewrite <-(Z.mul_mod_idemp_r r (((b * b) mod BABYBEAR_P) ^ k)) by (unfold_P; lia).
  rewrite <-Zpower_mod, Z.mul_mod_idemp_r by (unfold_P; lia).
  by rewrite <-Z.pow_2_r, <-Z.pow_mul_r by lia.
Qed.

Lemma pow_loop_mod fuel base result exp :
  canonical base -> canonical result -> 0 <= exp < 2 ^ Z.of_nat fuel ->
  pow_loop fuel base result exp = (result * base ^ exp) mod BABYBEAR_P.
Proof.
  revert base result exp; induction fuel as [|f IH]; intros base result exp Hb Hr He.
  - assert (exp = 0) as -> by (simpl in He; lia). simpl.
    rewrite Z.mul_1_r, Z.mod_small; done.
  - cbn [pow_loop]. destruct (Z.leb_spec exp 0).
    { assert (exp = 0) as -> by lia. rewrite Z.pow_0_r, Z.mul_1_r, Z.mod_small; done. }
    rewrite Nat2Z.inj_succ, Z.pow_succ_r in He by lia.
    rewrite Z.shiftr_div_pow2 by lia. change (2 ^ 1) with 2.
    change (Z.land exp 1) with (Z.land exp (Z.ones 1)).
    rewrite (Z.land_ones exp 1) by lia. change (2 ^ 1) with 2.
    pose proof (Z.div_mod exp 2 ltac:(lia)) as Hd.
    pose proof (Z.mod_pos_bound exp 2 ltac:(lia)) as Hm.
    rewrite IH; [|auto with dregg|destruct (_ =? 1); auto with dregg|split; [apply Z.div_pos; lia|apply Z.div_lt_upper_bound; lia]].
    rewrite (bb_mul_mod base base) by auto with dregg.
    rewrite mul_pow_square by (apply Z.div_pos; lia).
    destruct (Z.eqb_spec (exp mod 2) 1) as [E|E].
    + rewrite bb_mul_mod, Z.mul_mod_idemp_l by (auto with dregg || (unfold_P; lia)).
      f_equal. rewrite Hd at 2. rewrite E, Z.pow_add_r, Z.pow_1_r by lia. ring.
    + f_equal. f_equal. f_equal. lia.
Qed.

Lemma bb_pow_mod a e : canonical a -> is_u32 e -> bb_pow a e = a ^ e mod BABYBEAR_P.
Proof.
  intros Ha He. unfold bb_pow. rewrite pow_loop_mod, Z.mul_1_l; [done|done|by unfold_P|].
  unfold is_u32, u32_max in He. simpl. lia.
Qed.

Lemma bb_pow_canonical a e : canonical a -> is_u32 e -> canonical (bb_pow a e).
Proof. intros. rewrite bb_pow_mod by done. apply mod_canonical. Qed.

#[export] Hint Resolve bb_pow_canonical : dregg.

(** ** Encodings *)

Lemma chunks4_concat n l : length l = (4 * n)%nat -> concat (chunks4 n l) = l.
Proof.
  revert l; induction n as [|n IH]; intros l Hl.
  - by destruct l.
  - destruct l as [|x l]; [done|]. cbn [chunks4 concat].
    rewrite IH; [by rewrite take_drop|]. rewrite length_drop. lia.
Qed.

Lemma chunks4_lengths n l : length l = (4 * n)%nat -> Forall (fun c => length c = 4%nat) (chunks4 n l).
Proof.
  revert l; induction n as [|n IH]; intros l Hl; [constructor|].
  destruct l as [|x l]; [constructor|]. cbn [chunks4]. constructor.
  - rewrite length_take. lia.
  - apply IH. rewrite length_drop. lia.
Qed.

Lemma elem_of_chunks4 n l c x : c ∈ chunks4 n l -> x ∈ c -> x ∈ l.
Proof.
  revert l; induction n as [|n IH]; intros l; [by intros ?%elem_of_nil|].
  destruct l as [|y l]; [by intros ?%elem_of_nil|]. cbn [chunks4].
  rewrite <-(take_drop 4 (y :: l)) at 3. rewrite elem_of_app.
  intros [->|Hc]%elem_of_cons Hx; [by left|]. right. by eapply IH.
Qed.

(** Limbs written one after the other are the chunks that come back. *)
Lemma chunks4_limbs n (ls : list (list Z)) :
  length ls = n -> Forall (fun c => length c = 4%nat) ls -> chunks4 n (concat ls) = ls.
Proof.
  revert n; induction ls as [|c ls IH]; intros n <- HF; [done|].
  apply Forall_cons in HF as [Hc HF]. cbn [concat length chunks4].
  destruct (c ++ concat ls) as [|z l] eqn:E; [by destruct c|]. rewrite <-E.
  rewrite take_app_length', drop_app_length' by done. by rewrite IH.
Qed.

Lemma of_le_bytes_4 x : is_u32 x -> of_le_bytes (le_bytes 4 x) = x.
Proof.
  intros Hx. rewrite of_le_bytes_le_bytes. apply Z.mod_small.
  unfold is_u32, u32_max in Hx. simpl. lia.
Qed.

Lemma encode_decode d : length d = 8%nat -> Forall canonical d -> encode_hash (decode_hash d) = d.
Proof.
  intros Hl Hd. unfold encode_hash, decode_hash. rewrite chunks4_limbs.
  - rewrite map_map. rewrite <-(map_id d) at 2. apply map_ext_in. intros x Hx.
    rewrite <-list_elem_of_In in Hx. rewrite Forall_forall in Hd. specialize (Hd x Hx).
    rewrite of_le_bytes_4 by auto with dregg. by apply Z.mod_small.
  - by rewrite length_map.
  - apply Forall_forall. intros c (x & -> & _)%list_elem_of_fmap. apply length_le_bytes.
Qed.

Lemma decode_hash_inj d1 d2 :
  length d1 = 8%nat -> length d2 = 8%nat -> Forall canonical d1 -> Forall canonical d2 ->
  decode_hash d1 = decode_hash d2 -> d1 = d2.
Proof.
  intros ???? E. rewrite <-(encode_decode d1), <-(encode_decode d2) by done. by rewrite E.
Qed.

(** ** Properties *)

(** The field operations are arithmetic modulo [P].  For any two [u32]
    operands, canonical or not, the division-free sum and product are the exact
    residues; the difference is on canonical operands; and square-and-multiply
    computes the power for every [u32] exponent. *)
Theorem babybear_ops_exact a b :
  is_u32 a -> is_u32 b ->
  bb_add a b = (a + b) mod BABYBEAR_P /\
  bb_mul a b = (a * b) mod BABYBEAR_P /\
  (canonical a -> canonical b -> bb_sub a b = (a - b) mod BABYBEAR_P) /\
  (canonical a -> bb_pow a b = a ^ b mod BABYBEAR_P).
Proof.
  intros Ha Hb. split_and!.
  - by apply bb_add_mod.
  - by apply bb_mul_mod.
  - apply bb_sub_mod.
  - intros Hc. by apply bb_pow_mod.
Qed.

Lemma babybear_ops_exact_witness :
  bb_add u32_max u32_max = (u32_max + u32_max) mod BABYBEAR_P /\
  bb_add u32_max u32_max = 536870906.
Proof.
  assert (Hm : is_u32 u32_max) by (unfold is_u32, u32_max; lia).
  split; [|vm_compute; reflexivity].
  exact (proj1 (babybear_ops_exact u32_max u32_max Hm Hm)).
Defined.

(** [canonical_val] subtracts [P] once, so it is canonical exactly for
    inner values below [2 P]; from [2 P] up to [u32::MAX] it is not, and such an
    element does not compare equal to its own reduction. *)
Theorem canonical_val_range v :
  is_u32 v ->
  (canonical (canonical_val v) <-> v < 2 * BABYBEAR_P) /\
  (bb_eqb v (bb_new v) = true <-> v < 2 * BABYBEAR_P).
Proof.
  intros Hv. unfold bb_eqb, bb_new. rewrite Z.eqb_eq.
  pose proof (Z.mod_pos_bound v BABYBEAR_P ltac:(unfold_P; lia)) as Hm.
  pose proof (Z.div_mod v BABYBEAR_P ltac:(unfold_P; lia)) as Hd.
  unfold canonical_val. rewrite (proj2 (Z.leb_gt BABYBEAR_P (v mod BABYBEAR_P))) by lia.
  destruct (Z.leb_spec BABYBEAR_P v); unfold_P; split; split; nia.
Qed.

Lemma canonical_val_range_witness :
  (canonical (canonical_val (2 * BABYBEAR_P)) <-> 2 * BABYBEAR_P < 2 * BABYBEAR_P) /\
  bb_eqb (2 * BABYBEAR_P) 0 = false.
Proof.
  assert (Hv : is_u32 (2 * BABYBEAR_P)) by (unfold is_u32, u32_max; rewrite P_val; lia).
  split; [|vm_compute; reflexivity].
  exact (proj1 (canonical_val_range (2 * BABYBEAR_P) Hv)).
Defined.

(** The 32-byte encodings.  Eight canonical elements survive the trip
    through their packing ([decode_hash], also [digest8_to_bytes32]), and a
    32-byte string survives the trip through [encode_hash] exactly when each of
    its eight little-endian limbs is below [P]. *)
Theorem hash_encoding_roundtrip d h :
  length d = 8%nat -> Forall canonical d ->
  length h = 32%nat -> Forall is_byte h ->
  encode_hash (decode_hash d) = d /\
  (decode_hash (encode_hash h) = h <->
   Forall (fun c => of_le_bytes c < BABYBEAR_P) (chunks4 8 h)).
Proof.
  intros Hd Hc Hh Hb. split; [by apply encode_decode|].
  pose proof (chunks4_lengths 8 h Hh) as Hlen.
  assert (Hby : Forall (fun c => Forall is_byte c) (chunks4 8 h)).
  { apply Forall_forall. intros c Hin. apply Forall_forall. intros x Hx.
    rewrite Forall_forall in Hb. apply Hb. by eapply elem_of_chunks4. }
  rewrite <-(chunks4_concat 8 h Hh) at 2. unfold decode_hash, encode_hash. rewrite map_map.
  induction (chunks4 8 h) as [|c cs IH]; [by split|].
  apply Forall_cons in Hlen as [Hl Hlen]. apply Forall_cons in Hby as [Hx Hby].
  specialize (IH Hlen Hby). cbn [map concat]. rewrite Forall_cons, <-IH.
  pose proof (le_bytes_of_le_bytes c Hx) as Hrt. rewrite Hl in Hrt.
  assert (Hnn : 0 <= of_le_bytes c).
  { clear -Hx. induction Hx as [|b l Hb _ IH']; simpl; unfold is_byte in *; lia. }
  rewrite <-Hrt at 2. split.
  - intros E. apply app_inj_1 in E as [E1 E2]; [|by rewrite !length_le_bytes]. split; [|done].
    assert (Hc4 : 0 <= of_le_bytes c < 256 ^ Z.of_nat 4).
    { rewrite <-Hrt, of_le_bytes_le_bytes. apply Z.mod_pos_bound. lia. }
    apply le_bytes_inj in E1; [|pose proof (bb_new_canonical (of_le_bytes c)); unfold_P; simpl; lia|done].
    rewrite <-E1. apply bb_new_canonical.
  - intros [Hlt E]. unfold bb_new at 1. by rewrite E, (Z.mod_small _ _ (conj Hnn Hlt)).
Qed.

Lemma hash_encoding_roundtrip_witness :
  decode_hash (encode_hash (fill32 7)) = fill32 7 /\
  ~ decode_hash (encode_hash (fill32 255)) = fill32 255.
Proof.
  assert (H0 : Forall canonical (replicate 8 0)) by (apply Forall_replicate; by unfold_P).
  assert (Hb : forall b, is_byte b -> Forall is_byte (fill32 b)) by (intros; by apply Forall_replicate).
  split.
  - apply (proj2 (hash_encoding_roundtrip (replicate 8 0) (fill32 7) eq_refl H0 eq_refl
                    (Hb 7 ltac:(by unfold is_byte)))).
    repeat constructor.
  - intros E. apply (proj2 (hash_encoding_roundtrip (replicate 8 0) (fill32 255) eq_refl H0 eq_refl
                    (Hb 255 ltac:(by unfold is_byte)))) in E.
    apply Forall_cons in E as [E _]. by vm_compute in E.
Defined.
