(* ===== verification/Poseidon2.v ===== *)
(** * Poseidon2 over BabyBear

    Models [circuit/src/poseidon2.rs] (the width-16 permutation with its round
    constants, the per-round functions and the witness trace, the sponges) and
    the chip absorb of [circuit/src/descriptor_ir2.rs].  A state is a list of
    sixteen field elements. *)

From stdpp Require Import base decidable option list.
From Stdlib Require Import ZArith Lia.
From S2P Require Import Prelude BabyBear.

Open Scope Z_scope.

Definition WIDTH : nat := 16.
Definition EXTERNAL_ROUNDS : nat := 8.
Definition INTERNAL_ROUNDS : nat := 13.
Definition TOTAL_ROUNDS : nat := EXTERNAL_ROUNDS + INTERNAL_ROUNDS.
Definition SBOX_ALPHA : Z := 7.

(** ** Constants *)

Definition RC_EXT_INIT : list (list Z) := [
  [
    0x69cbb6af; 0x46ad93f9; 0x60a00f4e; 0x6b1297cd; 0x23189afe; 0x732e7bef;
    0x72c246de; 0x2c941900; 0x0557eede; 0x1580496f; 0x3a3ea77b; 0x54f3f271;
    0x0f49b029; 0x47872fe1; 0x221e2e36; 0x1ab7202e];
  [
    0x487779a6; 0x3851c9d8; 0x38dc17c0; 0x209f8849; 0x268dcee8; 0x350c48da;
    0x5b9ad32e; 0x0523272b; 0x3f89055b; 0x01e894b2; 0x13ddedde; 0x1b2ef334;
    0x7507d8b4; 0x6ceeb94e; 0x52eb6ba2; 0x50642905];
  [
    0x05453f3f; 0x06349efc; 0x6922787c; 0x04bfff9c; 0x768c714a; 0x3e9ff21a;
    0x15737c9c; 0x2229c807; 0x0d47f88c; 0x097e0ecc; 0x27eadba0; 0x2d7d29e4;
    0x3502aaa0; 0x0f475fd7; 0x29fbda49; 0x018afffd];
  [
    0x0315b618; 0x6d4497d1; 0x1b171d9e; 0x52861abd; 0x2e5d0501; 0x3ec8646c;
    0x6e5f250a; 0x148ae8e6; 0x17f5fa4a; 0x3e66d284; 0x0051aa3b; 0x483f7913;
    0x2cfe5f15; 0x023427ca; 0x2cc78315; 0x1e36ea47]].

Definition RC_EXT_FINAL : list (list Z) := [
  [
    0x7290a80d; 0x6f7e5329; 0x598ec8a8; 0x76a859a0; 0x6559e868; 0x657b83af;
    0x13271d3f; 0x1f876063; 0x0aeeae37; 0x706e9ca6; 0x46400cee; 0x72a05c26;
    0x2c589c9e; 0x20bd37a7; 0x6a2d3d10; 0x20523767];
  [
    0x5b8fe9c4; 0x2aa501d6; 0x1e01ac3e; 0x1448bc54; 0x5ce5ad1c; 0x4918a14d;
    0x2c46a83f; 0x4fcf6876; 0x61d8d5c8; 0x6ddf4ff9; 0x11fda4d3; 0x02933a8f;
    0x170eaf81; 0x5a9c314f; 0x49a12590; 0x35ec52a1];
  [
    0x58eb1611; 0x5e481e65; 0x367125c9; 0x0eba33ba; 0x1fc28ded; 0x066399ad;
    0x0cbec0ea; 0x75fd1af0; 0x50f5bf4e; 0x643d5f41; 0x6f4fe718; 0x5b3cbbde;
    0x1e3afb3e; 0x296fb027; 0x45e1547b; 0x4a8db2ab];
  [
    0x59986d19; 0x30bcdfa3; 0x1db63932; 0x1d7c2824; 0x53b33681; 0x0673b747;
    0x038a98a3; 0x2c5bce60; 0x351979cd; 0x5008fb73; 0x547bca78; 0x711af481;
    0x3f93bf64; 0x644d987b; 0x3c8bcd87; 0x608758b8]].

Definition RC_INTERNAL : list Z := [
    0x5a8053c0; 0x693be639; 0x3858867d; 0x19334f6b; 0x128f0fd8; 0x4e2b1ccb;
    0x61210ce0; 0x3c318939; 0x0b5b2f22; 0x2edb11d5; 0x213effdf; 0x0cac4606;
    0x241af16d].

Definition INTERNAL_DIAG : list Z := [
    2013265920; 2; 3; 1006632962; 4; 5;
    1006632961; 2013265919; 2013265918; 2005401602; 1509949442; 1761607682;
    2013265907; 7864321; 125829121; 16].

(** [compute_round_constants]: external, internal (first lane only), external. *)
Definition ROUND_CONSTANTS : list (list Z) :=
  map (map bb_new) RC_EXT_INIT ++
  map (fun c => bb_new c :: replicate 15 0) RC_INTERNAL ++
  map (map bb_new) RC_EXT_FINAL.

(** ** The permutation *)

Definition lane (st : list Z) (i : nat) : Z := nth i st 0.

Definition state_new : list Z := replicate WIDTH 0.

Definition from_elements (elements : list Z) : list Z :=
  take WIDTH elements ++ replicate (WIDTH - length elements) 0.

Definition sbox (x : Z) : Z := bb_pow x SBOX_ALPHA.

(** One block of four under the matrix circ[2,3,1,1]. *)
Definition mds4 (x0 x1 x2 x3 : Z) : list Z :=
  let t01 := bb_add x0 x1 in
  let t23 := bb_add x2 x3 in
  let t0123 := bb_add t01 t23 in
  let t01123 := bb_add t0123 x1 in
  let t01233 := bb_add t0123 x3 in
  [bb_add t01123 t01; bb_add (bb_add t01123 x2) x2;
   bb_add t01233 t23; bb_add (bb_add t01233 x0) x0].

Fixpoint mds_blocks (st : list Z) : list Z :=
  match st with
  | x0 :: x1 :: x2 :: x3 :: rest => mds4 x0 x1 x2 x3 ++ mds_blocks rest
  | _ => []
  end.

(** [sums[k]]: the column of lanes congruent to [k] modulo 4. *)
Definition col_sum (st : list Z) (k : nat) : Z :=
  foldl (fun acc j => bb_add acc (lane st (j + k))) 0 [0; 4; 8; 12]%nat.

Definition external_linear_layer (st : list Z) : list Z :=
  let st := mds_blocks st in
  let sums := map (col_sum st) [0; 1; 2; 3]%nat in
  imap (fun i x => bb_add x (lane sums (i mod 4))) st.

Definition internal_linear_layer (st : list Z) : list Z :=
  let sum := foldl bb_add 0 st in
  imap (fun i x => bb_add sum (bb_mul (bb_sub (lane INTERNAL_DIAG i) 1) x)) st.

(** The two kinds of round, as the loops of [permute] write them out. *)
Definition round_constants (round : nat) : list Z := nth round ROUND_CONSTANTS [].

Definition compute_full_round (st rc : list Z) : list Z :=
  external_linear_layer (map sbox (zip_with bb_add st rc)).

Definition set_lane0 (f : Z -> Z) (st : list Z) : list Z :=
  match st with [] => [] | x :: rest => f x :: rest end.

Definition compute_partial_round (st : list Z) (rc : Z) : list Z :=
  internal_linear_layer (set_lane0 (fun x => sbox (bb_add x rc)) st).

Definition permute (st : list Z) : list Z :=
  let st := external_linear_layer st in
  let st := foldl (fun st round => compute_full_round st (round_constants round))
              st (seq 0 (EXTERNAL_ROUNDS / 2)) in
  let st := foldl (fun st round =>
                compute_partial_round st
                  (lane (round_constants (EXTERNAL_ROUNDS / 2 + round)) 0))
              st (seq 0 INTERNAL_ROUNDS) in
  foldl (fun st round =>
           compute_full_round st
             (round_constants (EXTERNAL_ROUNDS / 2 + INTERNAL_ROUNDS + round)))
    st (seq 0 (EXTERNAL_ROUNDS / 2)).

(** The next state by round index. *)
Definition compute_round (st : list Z) (round_idx : nat) : list Z :=
  if (round_idx <? EXTERNAL_ROUNDS / 2)%nat then
    compute_full_round st (round_constants round_idx)
  else if (round_idx <? EXTERNAL_ROUNDS / 2 + INTERNAL_ROUNDS)%nat then
    compute_partial_round st (lane (round_constants round_idx) 0)
  else if (round_idx <? TOTAL_ROUNDS)%nat then
    compute_full_round st (round_constants round_idx)
  else st.

(** [poseidon2_trace]: the state after the first linear layer and after every
    round, pushed in order. *)
Definition push_round {A} (f : list Z -> A -> list Z) (acc : list Z * list (list Z)) (r : A)
    : list Z * list (list Z) :=
  let st := f acc.1 r in (st, acc.2 ++ [st]).

Definition poseidon2_trace (input_state : list Z) : list (list Z) :=
  let st := external_linear_layer (from_elements input_state) in
  let acc := (st, [st]) in
  let acc := foldl (push_round (fun st round => compute_full_round st (round_constants round)))
               acc (seq 0 (EXTERNAL_ROUNDS / 2)) in
  let acc := foldl (push_round (fun st round =>
                 compute_partial_round st
                   (lane (round_constants (EXTERNAL_ROUNDS / 2 + round)) 0)))
               acc (seq 0 INTERNAL_ROUNDS) in
  let acc := foldl (push_round (fun st round =>
                 compute_full_round st
                   (round_constants (EXTERNAL_ROUNDS / 2 + INTERNAL_ROUNDS + round))))
               acc (seq 0 (EXTERNAL_ROUNDS / 2)) in
  acc.2.

(** ** Hashes *)

Definition seed (lanes : list Z) : list Z := from_elements lanes.

Definition hash_4_to_1 (a b c d : Z) : Z :=
  lane (permute (seed [a; b; c; d; bb_new 4])) 0.

Definition hash_2_to_1 (left right : Z) : Z :=
  lane (permute (seed [left; right; 0; 0; bb_new 2])) 0.

(** The sponge: rate 4, the input length in lane 4. *)
Fixpoint absorb (chunk st : list Z) : list Z :=
  match chunk, st with
  | c :: cs, s :: ss => bb_add s c :: absorb cs ss
  | _, _ => st
  end.

Definition absorb_all (inputs : list Z) : list Z :=
  foldl (fun st chunk => permute (absorb chunk st))
    (seed [0; 0; 0; 0; bb_new (Z.of_nat (length inputs))])
    (chunks4 (length inputs) inputs).

Definition hash_many (inputs : list Z) : Z := lane (absorb_all inputs) 0.

Definition hash_many_8 (inputs : list Z) : list Z :=
  let st := absorb_all inputs in
  take 4 st ++ take 4 (permute st).

(** [hash_fact]: up to four terms, the marker in lane 5, the leaf flag in
    lane 6. *)
Definition hash_fact (predicate : Z) (terms : list Z) : Z :=
  lane (permute (seed ([predicate; lane terms 0; lane terms 1; lane terms 2; lane terms 3;
                        bb_new 0xFACF; 1]))) 0.

(** [single_perm_compress]: one permutation read off the trace. *)
Definition single_perm_compress (inputs : list Z) : list Z :=
  take 8 (default [] (last (poseidon2_trace (seed inputs)))).

(** [perm_lanes]: the first eight lanes of the last trace row. *)
Definition CHIP_NODE8_ARITY : nat := 16.
Definition CHIP_WIDE_ARITY : nat := 11.
Definition CHIP_OUT_LANES : nat := 8.

Definition poseidon2_permute_aux_witness (input : list Z) : list Z :=
  concat (poseidon2_trace input).

Definition perm_lanes (st : list Z) : list Z :=
  let aux := poseidon2_permute_aux_witness st in
  take CHIP_OUT_LANES (drop (length aux - WIDTH) aux).

Definition chip_absorb_all_lanes (arity : nat) (inputs : list Z) : list Z :=
  let seed456 := (arity =? 7)%nat || (arity =? CHIP_WIDE_ARITY)%nat
                 || (arity =? CHIP_NODE8_ARITY)%nat in
  perm_lanes
    (map (lane inputs) [0; 1; 2; 3]%nat ++
     (if seed456 then map (lane inputs) [4; 5; 6]%nat
      else [bb_new (Z.of_nat arity); 0; 0]) ++
     map (lane inputs) (seq 7 (CHIP_NODE8_ARITY - 7))).

(** ** States stay canonical *)

Definition u32_state (st : list Z) : Prop := length st = WIDTH /\ Forall is_u32 st.
Definition canonical_state (st : list Z) : Prop := length st = WIDTH /\ Forall canonical st.

Lemma canonical_state_u32 st : canonical_state st -> u32_state st.
Proof. intros [Hl Hc]. split; [done|]. eapply Forall_impl; [exact Hc|auto with dregg]. Qed.

Lemma canonical_0 : canonical 0.
Proof. by unfold_P. Qed.

Lemma u32_0 : is_u32 0.
Proof. by unfold is_u32, u32_max. Qed.

#[export] Hint Resolve canonical_state_u32 canonical_0 u32_0 : dregg.

Lemma lane_canonical st i : Forall canonical st -> canonical (lane st i).
Proof.
  intros Hc. unfold lane. destruct (nth_in_or_default i st 0) as [Hin|E].
  - rewrite <-list_elem_of_In in Hin. rewrite Forall_forall in Hc. by apply Hc.
  - rewrite E. apply canonical_0.
Qed.

#[export] Hint Resolve lane_canonical : dregg.

Lemma mds4_canonical x0 x1 x2 x3 :
  is_u32 x0 -> is_u32 x1 -> is_u32 x2 -> is_u32 x3 -> Forall canonical (mds4 x0 x1 x2 x3).
Proof.
  intros. unfold mds4.
  assert (Hu : forall a b, is_u32 a -> is_u32 b -> is_u32 (bb_add a b)) by auto with dregg.
  repeat constructor; apply bb_add_canonical; auto 10.
Qed.

Lemma mds_blocks_canonical n st :
  length st = (4 * n)%nat -> Forall is_u32 st ->
  length (mds_blocks st) = (4 * n)%nat /\ Forall canonical (mds_blocks st).
Proof.
  revert st; induction n as [|n IH]; intros st Hl Hu.
  - destruct st; [split; [done|constructor]|done].
  - destruct st as [|x0 [|x1 [|x2 [|x3 rest]]]]; simpl in Hl; try lia.
    rewrite !Forall_cons in Hu. destruct Hu as (?&?&?&?&Hu).
    destruct (IH rest) as [Hr Hc]; [lia|done|]. cbn [mds_blocks].
    rewrite length_app, Hr. split; [simpl; lia|].
    apply Forall_app. split; [by apply mds4_canonical|done].
Qed.

Lemma foldl_add_canonical {A} (f : A -> Z) acc l :
  canonical acc -> (forall a, canonical (f a)) ->
  canonical (foldl (fun acc a => bb_add acc (f a)) acc l).
Proof. intros Hacc Hf. revert acc Hacc. induction l; simpl; auto with dregg. Qed.

Lemma Forall_imap {A B} (P : B -> Prop) (f : nat -> A -> B) (l : list A) :
  (forall i x, x ∈ l -> P (f i x)) -> Forall P (imap f l).
Proof.
  intros Hf. apply Forall_lookup_2. intros i y Hy. rewrite list_lookup_imap in Hy.
  destruct (l !! i) as [x|] eqn:E; [|done]. injection Hy as <-.
  apply Hf. by eapply list_elem_of_lookup_2.
Qed.

Lemma external_linear_layer_canonical st :
  u32_state st -> canonical_state (external_linear_layer st).
Proof.
  intros [Hl Hu]. destruct (mds_blocks_canonical 4 st Hl Hu) as [Hm Hc].
  split; [by unfold external_linear_layer; rewrite length_imap|].
  apply Forall_imap. intros i x Hx. rewrite Forall_forall in Hc.
  assert (canonical x) by by apply Hc.
  enough (canonical (lane (map (col_sum (mds_blocks st)) [0; 1; 2; 3]%nat) (i mod 4)))
    by auto with dregg.
  apply lane_canonical, Forall_forall. intros y (k & -> & _)%list_elem_of_fmap.
  apply foldl_add_canonical; [apply canonical_0|].
  intros j. apply lane_canonical. by apply Forall_forall.
Qed.

Lemma diag_canonical i : canonical (bb_sub (lane INTERNAL_DIAG i) 1).
Proof.
  apply bb_sub_canonical; [|by unfold_P]. apply lane_canonical.
  unfold INTERNAL_DIAG. repeat constructor; by unfold_P.
Qed.

Lemma internal_linear_layer_canonical st :
  canonical_state st -> canonical_state (internal_linear_layer st).
Proof.
  intros [Hl Hc]. split; [by unfold internal_linear_layer; rewrite length_imap|].
  apply Forall_imap. intros i x Hx. rewrite Forall_forall in Hc.
  assert (canonical x) by by apply Hc.
  assert (Hs : canonical (foldl bb_add 0 st)).
  { clear -Hc. assert (Hgen : forall l acc, Forall canonical l -> canonical acc -> canonical (foldl bb_add acc l)).
    { induction l as [|y l IH]; simpl; [done|]. intros acc [??]%Forall_cons ?. auto with dregg. }
    apply Hgen; [by apply Forall_forall|apply canonical_0]. }
  pose proof (diag_canonical i). auto with dregg.
Qed.

Lemma sbox_canonical x : canonical x -> canonical (sbox x).
Proof.
  intros Hx. unfold sbox. apply (bb_pow_canonical x SBOX_ALPHA Hx).
  unfold SBOX_ALPHA, is_u32, u32_max. lia.
Qed.

Lemma new_rows_canonical rows :
  Forall (fun r => length r = WIDTH) rows -> Forall canonical_state (map (map bb_new) rows).
Proof.
  intros Hr. apply Forall_forall. intros y (row & -> & Hin)%list_elem_of_fmap.
  rewrite Forall_forall in Hr. split; [rewrite length_map; by apply Hr|].
  apply Forall_forall. intros z (v & -> & _)%list_elem_of_fmap. apply bb_new_canonical.
Qed.

Lemma round_constants_ok r :
  (r < TOTAL_ROUNDS)%nat -> canonical_state (round_constants r).
Proof.
  intros Hr. assert (HF : Forall canonical_state ROUND_CONSTANTS).
  { unfold ROUND_CONSTANTS. rewrite !Forall_app. split_and!.
    - by apply new_rows_canonical; repeat constructor.
    - apply Forall_forall. intros y (c & -> & _)%list_elem_of_fmap. split; [done|].
      constructor; [apply bb_new_canonical|apply Forall_replicate, canonical_0].
    - by apply new_rows_canonical; repeat constructor. }
  unfold round_constants. destruct (nth_in_or_default r ROUND_CONSTANTS []) as [Hin|E].
  - rewrite <-list_elem_of_In in Hin. rewrite Forall_forall in HF. by apply HF.
  - exfalso. rewrite Forall_forall in HF.
    assert (length ROUND_CONSTANTS = TOTAL_ROUNDS) as Hl by reflexivity.
    destruct (lookup_lt_is_Some_2 ROUND_CONSTANTS r) as [v Hv]; [by rewrite Hl|].
    specialize (HF v ltac:(by eapply list_elem_of_lookup_2)).
    apply (nth_lookup_Some _ _ []) in Hv. rewrite E in Hv. subst v. by destruct HF.
Qed.

Lemma full_round_canonical st rc :
  canonical_state st -> canonical_state rc -> canonical_state (compute_full_round st rc).
Proof.
  intros [Hl Hc] [Hl' Hc']. apply external_linear_layer_canonical. split.
  - rewrite length_map, length_zip_with. lia.
  - apply Forall_forall. intros y Hy. apply list_elem_of_lookup in Hy as (i & Hy).
    change (map sbox) with (fmap (M := list) sbox) in Hy. rewrite list_lookup_fmap in Hy.
    destruct (zip_with bb_add st rc !! i) as [z|] eqn:E; [|done]. injection Hy as <-.
    apply lookup_zip_with_Some in E as (a & b & -> & Ha & Hb).
    eapply Forall_lookup_1 in Ha, Hb; [|done..]. auto using sbox_canonical with dregg.
Qed.

Lemma partial_round_canonical st c :
  canonical_state st -> canonical c -> canonical_state (compute_partial_round st c).
Proof.
  intros [Hl Hc] Hcc. apply internal_linear_layer_canonical. destruct st as [|x st]; [done|].
  apply Forall_cons in Hc as [??]. split; [done|]. constructor; [|done].
  auto using sbox_canonical with dregg.
Qed.

Lemma foldl_preserves {A B} (P : A -> Prop) (f : A -> B -> A) acc l :
  P acc -> (forall a b, b ∈ l -> P a -> P (f a b)) -> P (foldl f acc l).
Proof.
  revert acc; induction l as [|b l IH]; intros acc Hacc Hf; simpl; [done|].
  apply IH; [by apply Hf; [left|]|]. intros a b' Hb'. apply Hf. by right.
Qed.

(** ** The permutation as a run of [compute_round] *)

(** Every intermediate state of [foldl f st l], after the first. *)
Fixpoint scan {A B} (f : A -> B -> A) (st : A) (l : list B) : list A :=
  match l with
  | [] => []
  | r :: l' => f st r :: scan f (f st r) l'
  end.

Lemma push_rounds {B} (f : list Z -> B -> list Z) st tr l :
  foldl (push_round f) (st, tr) l = (foldl f st l, tr ++ scan f st l).
Proof.
  revert st tr; induction l as [|r l IH]; intros st tr; cbn [foldl scan]; [by rewrite app_nil_r|].
  change (push_round f (st, tr) r) with (f st r, tr ++ [f st r]).
  rewrite IH. by rewrite <-app_assoc.
Qed.

Lemma scan_app {A B} (f : A -> B -> A) st l1 l2 :
  scan f st (l1 ++ l2) = scan f st l1 ++ scan f (foldl f st l1) l2.
Proof. revert st; induction l1 as [|r l IH]; intros st; simpl; [done|]. by rewrite IH. Qed.

Lemma scan_map {A B C} (f : A -> B -> A) (g : C -> B) st l :
  scan f st (map g l) = scan (fun st c => f st (g c)) st l.
Proof. revert st; induction l as [|r l IH]; intros st; simpl; [done|]. by rewrite IH. Qed.

Lemma scan_ext {A B} (f g : A -> B -> A) st l :
  (forall st r, r ∈ l -> f st r = g st r) -> scan f st l = scan g st l.
Proof.
  revert st; induction l as [|r l IH]; intros st H; simpl; [done|].
  rewrite (H st r) by left. f_equal. apply IH. intros. apply H. by right.
Qed.

Lemma foldl_scan {A B} (f : A -> B -> A) st l : Some (foldl f st l) = last (st :: scan f st l).
Proof.
  revert st; induction l as [|r l IH]; intros st; simpl; [done|].
  rewrite IH. simpl. by destruct (scan f (f st r) l).
Qed.

Lemma scan_lookup {A B} (f : A -> B -> A) st l i row r :
  l !! i = Some r -> (st :: scan f st l) !! i = Some row ->
  (st :: scan f st l) !! S i = Some (f row r).
Proof.
  revert st i; induction l as [|x l IH]; intros st i Hr Hrow; [done|].
  destruct i as [|i]; simpl in *; [by simplify_eq|]. by apply IH.
Qed.

(** The three loops run [compute_round] over the indices 0 to 20. *)
Lemma compute_round_first st r : (r < 4)%nat -> compute_round st r = compute_full_round st (round_constants r).
Proof. intros H. unfold compute_round. by rewrite (proj2 (Nat.ltb_lt r (EXTERNAL_ROUNDS / 2)) H). Qed.

Lemma compute_round_middle st r :
  (r < 13)%nat ->
  compute_round st (EXTERNAL_ROUNDS / 2 + r) =
  compute_partial_round st (lane (round_constants (EXTERNAL_ROUNDS / 2 + r)) 0).
Proof.
  intros H. unfold compute_round. change (EXTERNAL_ROUNDS / 2)%nat with 4%nat.
  rewrite (proj2 (Nat.ltb_ge (4 + r) 4)) by lia.
  by rewrite (proj2 (Nat.ltb_lt (4 + r) (4 + INTERNAL_ROUNDS))) by (unfold INTERNAL_ROUNDS; lia).
Qed.

Lemma compute_round_last st r :
  (r < 4)%nat ->
  compute_round st (EXTERNAL_ROUNDS / 2 + INTERNAL_ROUNDS + r) =
  compute_full_round st (round_constants (EXTERNAL_ROUNDS / 2 + INTERNAL_ROUNDS + r)).
Proof.
  intros H. unfold compute_round, TOTAL_ROUNDS.
  change (EXTERNAL_ROUNDS / 2)%nat with 4%nat. unfold INTERNAL_ROUNDS, EXTERNAL_ROUNDS.
  rewrite (proj2 (Nat.ltb_ge (4 + 13 + r) 4)) by lia.
  rewrite (proj2 (Nat.ltb_ge (4 + 13 + r) (4 + 13))) by lia.
  by rewrite (proj2 (Nat.ltb_lt (4 + 13 + r) (8 + 13))) by lia.
Qed.

Lemma from_elements_full st : length st = WIDTH -> from_elements st = st.
Proof.
  intros Hl. unfold from_elements. rewrite Hl, Nat.sub_diag. simpl.
  rewrite app_nil_r. apply take_ge. lia.
Qed.

Definition round_indices : list nat := seq 0 TOTAL_ROUNDS.

Lemma round_indices_split :
  round_indices = seq 0 4 ++ map (Nat.add 4) (seq 0 13) ++ map (Nat.add 17) (seq 0 4).
Proof. reflexivity. Qed.

Lemma foldl_map {A B C} (f : A -> B -> A) (g : C -> B) st l :
  foldl f st (map g l) = foldl (fun st c => f st (g c)) st l.
Proof. revert st; induction l as [|r l IH]; intros st; simpl; [done|]. by rewrite IH. Qed.

Lemma foldl_ext_in {A B} (f g : A -> B -> A) st l :
  (forall st r, r ∈ l -> f st r = g st r) -> foldl f st l = foldl g st l.
Proof.
  revert st; induction l as [|r l IH]; intros st H; simpl; [done|].
  rewrite (H st r) by left. apply IH. intros. apply H. by right.
Qed.

(** The bodies of the three loops. *)
Definition first_body (st : list Z) (r : nat) := compute_full_round st (round_constants r).
Definition middle_body (st : list Z) (r : nat) :=
  compute_partial_round st (lane (round_constants (EXTERNAL_ROUNDS / 2 + r)) 0).
Definition last_body (st : list Z) (r : nat) :=
  compute_full_round st (round_constants (EXTERNAL_ROUNDS / 2 + INTERNAL_ROUNDS + r)).

Lemma first_loop st r : r ∈ seq 0 4 -> compute_round st r = first_body st r.
Proof. intros Hr%elem_of_seq. apply compute_round_first. lia. Qed.
Lemma middle_loop st r : r ∈ seq 0 13 -> compute_round st (4 + r) = middle_body st r.
Proof. intros Hr%elem_of_seq. apply compute_round_middle. lia. Qed.
Lemma last_loop st r : r ∈ seq 0 4 -> compute_round st (17 + r) = last_body st r.
Proof. intros Hr%elem_of_seq. apply compute_round_last. lia. Qed.

Lemma permute_rounds st : permute st = foldl compute_round (external_linear_layer st) round_indices.
Proof.
  rewrite round_indices_split, !foldl_app, !foldl_map.
  rewrite (foldl_ext_in _ _ _ _ first_loop), (foldl_ext_in _ _ _ _ middle_loop),
    (foldl_ext_in _ _ _ _ last_loop). done.
Qed.

Lemma trace_rounds st :
  length st = WIDTH ->
  poseidon2_trace st =
  external_linear_layer st :: scan compute_round (external_linear_layer st) round_indices.
Proof.
  intros Hl. unfold poseidon2_trace. rewrite from_elements_full by done.
  rewrite !push_rounds. cbn [snd].
  rewrite round_indices_split, !scan_app, !foldl_map, !scan_map.
  rewrite (scan_ext _ _ _ _ first_loop), (foldl_ext_in _ _ _ _ first_loop).
  rewrite (scan_ext _ _ _ _ middle_loop), (foldl_ext_in _ _ _ _ middle_loop).
  rewrite (scan_ext _ _ _ _ last_loop).
  by rewrite <-!app_assoc.
Qed.

Lemma trace_last st : length st = WIDTH -> last (poseidon2_trace st) = Some (permute st).
Proof. intros Hl. rewrite trace_rounds, permute_rounds, foldl_scan by done. done. Qed.

Lemma compute_round_canonical st r :
  r ∈ round_indices -> canonical_state st -> canonical_state (compute_round st r).
Proof.
  intros Hr%elem_of_seq Hst.
  assert (Hrc : canonical_state (round_constants r)) by (apply round_constants_ok; lia).
  assert (canonical (lane (round_constants r) 0)) by (apply lane_canonical, Hrc).
  unfold compute_round.
  repeat case_match; auto using full_round_canonical, partial_round_canonical.
Qed.

(** Whatever [u32] lanes go in, canonical field elements come out. *)
Lemma permute_canonical st : u32_state st -> canonical_state (permute st).
Proof.
  intros Hst. rewrite permute_rounds. apply foldl_preserves.
  - by apply external_linear_layer_canonical.
  - intros st' r Hr. by apply compute_round_canonical.
Qed.

Lemma trace_canonical st row :
  u32_state st -> row ∈ poseidon2_trace st -> canonical_state row.
Proof.
  intros Hst. rewrite trace_rounds by apply Hst.
  assert (Hgen : forall l st0, (forall r, r ∈ l -> r ∈ round_indices) -> canonical_state st0 ->
    row ∈ st0 :: scan compute_round st0 l -> canonical_state row).
  { induction l as [|r l IH]; intros st0 Hin H0 Hrow; simpl in Hrow.
    - by apply list_elem_of_singleton in Hrow as ->.
    - apply elem_of_cons in Hrow as [->|Hrow]; [done|].
      apply (IH (compute_round st0 r)); [intros; apply Hin; by right| |done].
      apply compute_round_canonical; [|done]. apply Hin. left. }
  apply Hgen; [done|]. by apply external_linear_layer_canonical.
Qed.

Lemma concat_last {A} (n : nat) (l : list (list A)) x :
  Forall (fun r => length r = n) l -> last l = Some x ->
  drop (length (concat l) - n) (concat l) = x.
Proof.
  intros HF Hx. apply last_Some in Hx as (l' & ->).
  apply Forall_app in HF as [_ HF]. apply Forall_cons in HF as [Hn _].
  rewrite concat_app. simpl. rewrite app_nil_r, length_app, Hn.
  rewrite Nat.add_sub. by rewrite drop_app_length.
Qed.

Lemma perm_lanes_permute st : u32_state st -> perm_lanes st = take 8 (permute st).
Proof.
  intros Hst. unfold perm_lanes, poseidon2_permute_aux_witness. f_equal.
  apply concat_last; [|by apply trace_last, Hst].
  apply Forall_forall. intros row Hrow. by apply (trace_canonical st).
Qed.

(** ** The hashes return canonical elements *)

Lemma seed_ok l : Forall is_u32 l -> u32_state (seed l).
Proof.
  intros Hl. unfold seed, from_elements. split.
  - rewrite length_app, length_take, length_replicate. lia.
  - apply Forall_app. split; [by apply Forall_take|]. apply Forall_replicate, u32_0.
Qed.

Lemma absorb_ok chunk st : Forall is_u32 chunk -> u32_state st -> u32_state (absorb chunk st).
Proof.
  intros Hc [Hl Hst]. unfold u32_state. rewrite <-Hl. clear Hl.
  revert st Hst; induction chunk as [|c cs IH]; intros [|x st] Hst; simpl; try done.
  apply Forall_cons in Hc as [??]. apply Forall_cons in Hst as [??].
  destruct (IH ltac:(done) st ltac:(done)) as [-> ?]. split; [done|].
  constructor; auto with dregg.
Qed.

Lemma seed_canonical l : Forall canonical l -> canonical_state (seed l).
Proof.
  intros Hl. destruct (seed_ok l) as [Hn _]; [by eapply Forall_impl; [exact Hl|auto with dregg]|].
  split; [done|]. apply Forall_app. split; [by apply Forall_take|].
  apply Forall_replicate, canonical_0.
Qed.

Lemma absorb_all_canonical inputs : Forall is_u32 inputs -> canonical_state (absorb_all inputs).
Proof.
  intros Hi. unfold absorb_all. apply foldl_preserves.
  - apply seed_canonical. repeat (constructor; [apply canonical_0|]).
    constructor; auto with dregg.
  - intros st chunk Hch Hst. apply permute_canonical, absorb_ok; [|by apply canonical_state_u32].
    apply Forall_forall. intros x Hx. rewrite Forall_forall in Hi. apply Hi. by eapply elem_of_chunks4.
Qed.

Lemma hash_many_canonical inputs : Forall is_u32 inputs -> canonical (hash_many inputs).
Proof. intros Hi. by apply lane_canonical, absorb_all_canonical. Qed.

Lemma chip_absorb_canonical arity inputs :
  Forall is_u32 inputs ->
  length (chip_absorb_all_lanes arity inputs) = 8%nat /\
  Forall canonical (chip_absorb_all_lanes arity inputs).
Proof.
  intros Hi. unfold chip_absorb_all_lanes. set (st := map _ _ ++ _).
  assert (Hst : u32_state st).
  { assert (Hlane : forall i, is_u32 (lane inputs i)).
    { intros i. unfold lane. destruct (nth_in_or_default i inputs 0) as [Hin| ->]; [|apply u32_0].
      rewrite <-list_elem_of_In in Hin. rewrite Forall_forall in Hi. by apply Hi. }
    unfold st. split; [by destruct (_ || _)|]. rewrite !Forall_app. split_and!.
    - repeat constructor; apply Hlane.
    - destruct (_ || _); repeat (constructor; [auto with dregg|]); constructor.
    - apply Forall_forall. intros y (i & -> & _)%list_elem_of_fmap. apply Hlane. }
  rewrite perm_lanes_permute by done. destruct (permute_canonical st Hst) as [Hl Hc].
  split; [rewrite length_take; unfold WIDTH in Hl; lia|by apply Forall_take].
Qed.

(** ** Properties *)

(** The witness trace is the permutation.  It has one row per round and
    one for the initial layer, each row is the previous one under
    [compute_round], all rows are canonical, and the last is what [permute]
    leaves, so [perm_lanes] (read off the flattened trace) and
    [single_perm_compress] return the first eight lanes of the permuted state. *)
Theorem poseidon2_trace_is_permute st :
  u32_state st ->
  length (poseidon2_trace st) = S TOTAL_ROUNDS /\
  (forall i row, (i < TOTAL_ROUNDS)%nat -> poseidon2_trace st !! i = Some row ->
     canonical_state row /\ poseidon2_trace st !! S i = Some (compute_round row i)) /\
  last (poseidon2_trace st) = Some (permute st) /\
  perm_lanes st = take 8 (permute st) /\
  single_perm_compress st = take 8 (permute st).
Proof.
  intros Hst. split_and!.
  - rewrite trace_rounds by apply Hst. reflexivity.
  - intros i row Hi Hrow. split.
    + eapply trace_canonical; [exact Hst|]. by eapply list_elem_of_lookup_2.
    + rewrite trace_rounds in Hrow |- * by apply Hst.
      apply (scan_lookup _ _ _ i row i); [|done]. by apply lookup_seq_lt.
  - apply trace_last, Hst.
  - by apply perm_lanes_permute.
  - unfold single_perm_compress, seed. rewrite from_elements_full by apply Hst.
    by rewrite trace_last by apply Hst.
Qed.

Lemma poseidon2_trace_is_permute_witness :
  last (poseidon2_trace state_new) = Some (permute state_new).
Proof.
  assert (H0 : u32_state state_new) by (split; [done|apply Forall_replicate, u32_0]).
  exact (proj1 (proj2 (proj2 (poseidon2_trace_is_permute state_new H0)))).
Defined.

(** The known answers the repository's own tests pin for the permutation
    and for the 4-to-1 compression. *)
Theorem poseidon2_known_answers :
  permute (map Z.of_nat (seq 0 16)) =
    [1906786279; 1737026427; 1959749225; 700325316; 1638050605; 1021608788; 1726691001;
     1761127344; 1552405120; 417318995; 36799261; 1215172152; 614923223; 1300746575;
     957311597; 304856115] /\
  hash_4_to_1 1 2 3 4 = 1163579196.
Proof. split; vm_compute; reflexivity. Qed.
