(* ===== verification/CapRoot.v ===== *)
(** * The canonical capability tree

    Models [circuit/src/cap_root.rs]: the seven-field capability leaf, the
    sorted and sentinel-bracketed Merkle tree over a c-list stored sparsely,
    tombstone ghosts, membership paths, and the attenuation, revocation,
    delegation, insertion and removal witnesses.  Construction can fail an
    [assert!] (the leaves do not fit); that is [None]. *)

From stdpp Require Import base decidable option list sorting.
From Stdlib Require Import ZArith Lia.
From S2P Require Import Prelude BabyBear Poseidon2.

Open Scope Z_scope.

Abbreviation digest8 := (list Z).

Definition CAP_DIGEST_W : nat := 8.
Definition CAP_ZERO8 : digest8 := replicate CAP_DIGEST_W 0.
Definition CAP_TREE_DEPTH : nat := 16.
Definition SLOT_HASH_TAG : Z := 0x0CAB5107.
Definition SENTINEL_MIN : Z := 0.
Definition SENTINEL_MAX : Z := 2013265920.
Definition NONE_SENTINEL : Z := SENTINEL_MAX.

Definition cap_node8 (l r : digest8) : digest8 :=
  chip_absorb_all_lanes CHIP_NODE8_ARITY (l ++ r).

(** [EMPTY_SUBTREE_ROOTS[level]]. *)
Fixpoint cap_empty_subtree_root (level : nat) : digest8 :=
  match level with
  | O => CAP_ZERO8
  | S k => let e := cap_empty_subtree_root k in cap_node8 e e
  end.

(** ** Leaves *)

Record CapLeaf : Type := mkLeaf {
  leaf_slot_hash : Z;
  leaf_target : Z;
  leaf_auth_tag : Z;
  leaf_mask_lo : Z;
  leaf_mask_hi : Z;
  leaf_expiry : Z;
  leaf_breadstuff : Z;
}.

#[global] Instance CapLeaf_eq_dec : EqDecision CapLeaf.
Proof. solve_decision. Defined.

Definition leaf_digest (l : CapLeaf) : digest8 :=
  chip_absorb_all_lanes 7
    [leaf_slot_hash l; leaf_target l; leaf_auth_tag l; leaf_mask_lo l; leaf_mask_hi l;
     leaf_expiry l; leaf_breadstuff l].

Definition fold_bytes32 (b : bytes) : Z := hash_many (encode_hash b).

Definition slot_hash (slot : Z) : Z := hash_many [bb_new SLOT_HASH_TAG; bb_new slot].

Definition split_effect_mask (mask : Z) : Z * Z :=
  (bb_new (Z.land mask 0xFFFF), bb_new (Z.land (Z.shiftr mask 16) 0xFFFF)).

Definition encode_expiry (expiry : option Z) : Z :=
  match expiry with
  | Some h => hash_many [bb_new (h mod 2 ^ 32); bb_new (Z.shiftr h 32)]
  | None => NONE_SENTINEL
  end.

Definition encode_breadstuff (breadstuff : option bytes) : Z :=
  match breadstuff with Some b => fold_bytes32 b | None => NONE_SENTINEL end.

Definition sentinel_leaf (key : Z) : CapLeaf := mkLeaf key 0 0 0 0 0 0.

(** ** The tree *)

Record CanonicalCapTree : Type := mkCapTree {
  tree_levels : list (list digest8);
  sorted_leaves : list CapLeaf;
  tree_depth : nat;
}.

(** The ghost loop: tombstoned keys in order, each once, live keys skipped. *)
Fixpoint ghosts (live_keys : list Z) (seen : list Z) (tombstone_keys : list Z)
    : list (CapLeaf * digest8) :=
  match tombstone_keys with
  | [] => []
  | k :: ks =>
      if bool_decide (k ∈ live_keys) || bool_decide (k ∈ seen)
      then ghosts live_keys seen ks
      else (sentinel_leaf k, CAP_ZERO8) :: ghosts live_keys (k :: seen) ks
  end.

(** One level of the sparse fold: the non-empty prefix against the empty
    subtree root of its level. *)
Fixpoint fold_level (empty : digest8) (prev : list digest8) : list digest8 :=
  match prev with
  | [] => []
  | [l] => [cap_node8 l empty]
  | l :: r :: rest => cap_node8 l r :: fold_level empty rest
  end.

Fixpoint build_levels (level remaining : nat) (prev : list digest8) : list (list digest8) :=
  prev :: match remaining with
          | O => []
          | S n => build_levels (S level) n (fold_level (cap_empty_subtree_root level) prev)
          end.

Definition keyed_leaves (leaves : list CapLeaf) (tombstone_keys : list Z)
    : list (CapLeaf * digest8) :=
  let leaves := leaves ++ [sentinel_leaf SENTINEL_MIN; sentinel_leaf SENTINEL_MAX] in
  let leaves := sort_by_key leaf_slot_hash leaves in
  let leaves := dedup_by_key leaf_slot_hash leaves in
  let live_keys := map leaf_slot_hash leaves in
  let keyed := map (fun l => (l, leaf_digest l)) leaves in
  let keyed := keyed ++ ghosts live_keys [] tombstone_keys in
  sort_by_key (fun e => leaf_slot_hash e.1) keyed.

Definition new_with_tombstones (leaves : list CapLeaf) (tombstone_keys : list Z) (depth : nat)
    : option CanonicalCapTree :=
  let keyed := keyed_leaves leaves tombstone_keys in
  let capacity := (2 ^ depth)%nat in
  if negb (length keyed <=? capacity)%nat then None
  else Some (mkCapTree (build_levels 0 depth (map snd keyed)) (map fst keyed) depth).

Definition tree_new (leaves : list CapLeaf) (depth : nat) : option CanonicalCapTree :=
  new_with_tombstones leaves [] depth.

Definition tree_node (t : CanonicalCapTree) (level idx : nat) : digest8 :=
  default (cap_empty_subtree_root level) (default [] (tree_levels t !! level) !! idx).

Definition tree_root (t : CanonicalCapTree) : digest8 := tree_node t (tree_depth t) 0.

(** [partition_point] on a partitioned list: the length of the prefix that
    satisfies the predicate. *)
Fixpoint partition_point {A} (p : A -> bool) (l : list A) : nat :=
  match l with
  | [] => 0
  | x :: l' => if p x then S (partition_point p l') else 0
  end.

Definition position_of (t : CanonicalCapTree) (key : Z) : option nat :=
  let i := partition_point (fun l => leaf_slot_hash l <? key) (sorted_leaves t) in
  match sorted_leaves t !! i with
  | Some l => if leaf_slot_hash l =? key then Some i else None
  | None => None
  end.

(** The [(sibling, direction)] path from a bottom position to the root. *)
Fixpoint path_from (t : CanonicalCapTree) (level remaining idx : nat) : list (digest8 * Z) :=
  match remaining with
  | O => []
  | S n =>
      (tree_node t level (Nat.lxor idx 1), Z.of_nat (Nat.land idx 1))
      :: path_from t (S level) n (Nat.shiftr idx 1)
  end.

Definition prove_membership (t : CanonicalCapTree) (position : nat)
    : option (list digest8 * list Z) :=
  if (2 ^ tree_depth t <=? position)%nat then None
  else let path := path_from t 0 (tree_depth t) position in
       Some (map fst path, map snd path).

(** Folding a digest up a path: direction 0 is the left child. *)
Definition path_step (cur : digest8) (step : digest8 * Z) : digest8 :=
  if step.2 =? 0 then cap_node8 cur step.1 else cap_node8 step.1 cur.

Definition fold_path (cur : digest8) (siblings : list digest8) (directions : list Z) : digest8 :=
  foldl path_step cur (zip siblings directions).

(** [None] is the [assert_eq!] on the lengths. *)
Definition recompose_membership (d : digest8) (siblings : list digest8) (directions : list Z)
    : option digest8 :=
  if (length siblings =? length directions)%nat then Some (fold_path d siblings directions)
  else None.

(** ** Witnesses *)

Record CapAttenuationWitness : Type := mkAttW {
  aw_held : CapLeaf;
  aw_granted : CapLeaf;
  aw_siblings : list digest8;
  aw_directions : list Z;
  aw_old_root : digest8;
  aw_new_root : digest8;
}.

Definition attenuation_witness (t : CanonicalCapTree) (granted : CapLeaf)
    : option CapAttenuationWitness :=
  pos ← position_of t (leaf_slot_hash granted);
  held ← sorted_leaves t !! pos;
  path ← prove_membership t pos;
  let '(siblings, directions) := path in
  Some (mkAttW held granted siblings directions (tree_root t)
          (fold_path (leaf_digest granted) siblings directions)).

Definition revocation_witness (t : CanonicalCapTree) (held_key : Z)
    : option CapAttenuationWitness :=
  pos ← position_of t held_key;
  held ← sorted_leaves t !! pos;
  path ← prove_membership t pos;
  let '(siblings, directions) := path in
  Some (mkAttW held (sentinel_leaf 0) siblings directions (tree_root t)
          (fold_path CAP_ZERO8 siblings directions)).

Definition delegation_witness (t : CanonicalCapTree) (held_key : Z) (granted : CapLeaf)
    : option CapAttenuationWitness :=
  pos ← position_of t held_key;
  held ← sorted_leaves t !! pos;
  path ← prove_membership t pos;
  let '(siblings, directions) := path in
  Some (mkAttW held granted siblings directions (tree_root t) (tree_root t)).

Record CapInsertWitness : Type := mkInsW {
  iw_new_leaf : CapLeaf;
  iw_pred : CapLeaf;
  iw_succ : CapLeaf;
  iw_siblings : list digest8;
  iw_directions : list Z;
  iw_old_root : digest8;
  iw_new_root : digest8;
}.

Record CapRemoveWitness : Type := mkRemW {
  rw_removed : CapLeaf;
  rw_siblings : list digest8;
  rw_directions : list Z;
  rw_old_root : digest8;
  rw_new_root : digest8;
}.

(** Digests compare lane by lane with the field's [PartialEq]. *)
Fixpoint digest_eqb (a b : digest8) : bool :=
  match a, b with
  | [], [] => true
  | x :: a', y :: b' => bb_eqb x y && digest_eqb a' b'
  | _, _ => false
  end.

Definition is_sentinel_key (k : Z) : bool := bb_eqb k SENTINEL_MIN || bb_eqb k SENTINEL_MAX.

Fixpoint live_and_tombstones_from (t : CanonicalCapTree) (i : nat) (ls : list CapLeaf)
    : list CapLeaf * list Z :=
  match ls with
  | [] => ([], [])
  | l :: ls' =>
      let '(live, tombs) := live_and_tombstones_from t (S i) ls' in
      if is_sentinel_key (leaf_slot_hash l) then (live, tombs)
      else if digest_eqb (tree_node t 0 i) CAP_ZERO8 then (live, leaf_slot_hash l :: tombs)
      else (l :: live, tombs)
  end.

Definition live_and_tombstones (t : CanonicalCapTree) : list CapLeaf * list Z :=
  live_and_tombstones_from t 0 (sorted_leaves t).

Definition insert_witness (t : CanonicalCapTree) (new_leaf : CapLeaf) : option CapInsertWitness :=
  let key := leaf_slot_hash new_leaf in
  if (key <=? SENTINEL_MIN) || (SENTINEL_MAX <=? key) then None
  else match position_of t key with
  | Some _ => None
  | None =>
      let succ_pos := partition_point (fun l => leaf_slot_hash l <=? key) (sorted_leaves t) in
      if (succ_pos =? length (sorted_leaves t))%nat then None
      else if (succ_pos =? 0)%nat then None
      else
        pred ← sorted_leaves t !! (succ_pos - 1)%nat;
        succ ← sorted_leaves t !! succ_pos;
        let '(live, tombs) := live_and_tombstones t in
        after ← new_with_tombstones (live ++ [new_leaf]) tombs (tree_depth t);
        pos ← position_of after key;
        path ← prove_membership after pos;
        let '(siblings, directions) := path in
        Some (mkInsW new_leaf pred succ siblings directions (tree_root t) (tree_root after))
  end.

Definition remove_witness (t : CanonicalCapTree) (key : Z) : option CapRemoveWitness :=
  if is_sentinel_key key then None
  else
    pos ← position_of t key;
    if digest_eqb (tree_node t 0 pos) CAP_ZERO8 then None
    else
      removed ← sorted_leaves t !! pos;
      path ← prove_membership t pos;
      let '(siblings, directions) := path in
      new_root ← recompose_membership CAP_ZERO8 siblings directions;
      Some (mkRemW removed siblings directions (tree_root t) new_root).

Definition compute_capability_root_with_tombstones (leaves : list CapLeaf)
    (tombstone_keys : list Z) : option digest8 :=
  tree_root <$> new_with_tombstones leaves tombstone_keys CAP_TREE_DEPTH.

Definition compute_capability_root (leaves : list CapLeaf) : option digest8 :=
  tree_root <$> tree_new leaves CAP_TREE_DEPTH.

Definition empty_capability_root : option digest8 := compute_capability_root [].

Record CapMembershipWitness : Type := mkMemW {
  mw_leaf : CapLeaf;
  mw_siblings : list digest8;
  mw_directions : list Z;
  mw_root : digest8;
}.

Definition membership_witness (t : CanonicalCapTree) (key : Z) : option CapMembershipWitness :=
  pos ← position_of t key;
  leaf ← sorted_leaves t !! pos;
  path ← prove_membership t pos;
  let '(siblings, directions) := path in
  Some (mkMemW leaf siblings directions (tree_root t)).

Definition recomposes (w : CapMembershipWitness) : bool :=
  match recompose_membership (leaf_digest (mw_leaf w)) (mw_siblings w) (mw_directions w) with
  | Some d => digest_eqb d (mw_root w)
  | None => false
  end.

Definition target_is (w : CapMembershipWitness) (src : Z) : bool :=
  bb_eqb (leaf_target (mw_leaf w)) src.

Definition confers_write (w : CapMembershipWitness) (write_bit : Z) : bool :=
  Z.land write_bit (leaf_mask_lo (mw_leaf w)) =? write_bit.

(** ** Digests are canonical

    From here on the hashes are opaque: the rest of the file only uses that
    they return canonical elements. *)

Definition leaf_ok (l : CapLeaf) : Prop :=
  is_u32 (leaf_slot_hash l) /\ is_u32 (leaf_target l) /\ is_u32 (leaf_auth_tag l) /\
  is_u32 (leaf_mask_lo l) /\ is_u32 (leaf_mask_hi l) /\ is_u32 (leaf_expiry l) /\
  is_u32 (leaf_breadstuff l).

Lemma leaf_digest_canonical l : leaf_ok l -> Forall canonical (leaf_digest l).
Proof.
  intros (?&?&?&?&?&?&?). unfold leaf_digest.
  apply chip_absorb_canonical. repeat (constructor; [done|]). constructor.
Qed.

Lemma node_canonical a b :
  Forall canonical a -> Forall canonical b ->
  length (cap_node8 a b) = 8%nat /\ Forall canonical (cap_node8 a b).
Proof.
  intros Ha Hb. unfold cap_node8.
  apply chip_absorb_canonical, Forall_app.
  split; (eapply Forall_impl; [eassumption|auto with dregg]).
Qed.

Lemma cap_node8_def l r : cap_node8 l r = chip_absorb_all_lanes CHIP_NODE8_ARITY (l ++ r).
Proof. reflexivity. Qed.

Lemma slot_hash_canonical slot : canonical (slot_hash slot).
Proof.
  apply hash_many_canonical. repeat (constructor; [auto with dregg|]). constructor.
Qed.

#[global] Opaque cap_node8 leaf_digest slot_hash.

(** ** The dense reference tree

    The tree the sparse levels stand for: position [i] of level [k] over an
    infinite bottom level that is [CAP_ZERO8] beyond the leaves. *)

Fixpoint dense (lf : nat -> digest8) (k i : nat) : digest8 :=
  match k with
  | O => lf i
  | S k' => cap_node8 (dense lf k' (2 * i)) (dense lf k' (2 * i + 1))
  end.

Definition leaf_at (ds : list digest8) (i : nat) : digest8 := default CAP_ZERO8 (ds !! i).

Definition update_at (lf : nat -> digest8) (p : nat) (d : digest8) (i : nat) : digest8 :=
  if decide (i = p) then d else lf i.

Lemma dense_ext lf lf' k i : (forall j, lf j = lf' j) -> dense lf k i = dense lf' k i.
Proof.
  intros H. revert i; induction k as [|k IH]; intros i; cbn [dense]; [apply H|]. by rewrite !IH.
Qed.

Lemma fold_level_lookup e prev i :
  default (cap_node8 e e) (fold_level e prev !! i) =
  cap_node8 (default e (prev !! (2 * i)%nat)) (default e (prev !! (2 * i + 1)%nat)).
Proof.
  revert prev; induction i as [|i IH]; intros [|a [|b prev]]; try reflexivity.
  replace (2 * S i)%nat with (S (S (2 * i))) by lia. cbn [fold_level plus lookup list_lookup].
  exact (IH prev).
Qed.

Lemma build_levels_dense lf n level prev k i :
  (forall j, default (cap_empty_subtree_root level) (prev !! j) = dense lf level j) ->
  (k <= n)%nat ->
  default (cap_empty_subtree_root (level + k)) (default [] (build_levels level n prev !! k) !! i) =
  dense lf (level + k) i.
Proof.
  revert level prev k; induction n as [|n IH]; intros level prev k Hp Hk.
  - assert (k = 0%nat) as -> by lia. rewrite Nat.add_0_r. apply Hp.
  - destruct k as [|k]; [rewrite Nat.add_0_r; apply Hp|].
    replace (level + S k)%nat with (S level + k)%nat by lia.
    cbn [build_levels lookup list_lookup]. apply IH; [|lia].
    intros j. cbn [dense cap_empty_subtree_root]. rewrite fold_level_lookup, !Hp. reflexivity.
Qed.

Section Tree.
Context (leaves : list CapLeaf) (tombs : list Z) (depth : nat) (t : CanonicalCapTree).
Hypothesis Ht : new_with_tombstones leaves tombs depth = Some t.

Lemma new_depth : tree_depth t = depth.
Proof. unfold new_with_tombstones in Ht. destruct (negb _); by simplify_eq. Qed.

Lemma new_sorted_leaves : sorted_leaves t = map fst (keyed_leaves leaves tombs).
Proof. unfold new_with_tombstones in Ht. destruct (negb _); by simplify_eq. Qed.

Lemma new_fits : (length (keyed_leaves leaves tombs) <= 2 ^ depth)%nat.
Proof.
  unfold new_with_tombstones in Ht.
  destruct (Nat.leb_spec (length (keyed_leaves leaves tombs)) (2 ^ depth)); [done|by simplify_eq].
Qed.

(** The sparse storage denotes the dense tree, node for node. *)
Lemma tree_node_dense k i :
  (k <= depth)%nat ->
  tree_node t k i = dense (leaf_at (map snd (keyed_leaves leaves tombs))) k i.
Proof.
  intros Hk. unfold new_with_tombstones in Ht. destruct (negb _); [done|].
  injection Ht as <-. unfold tree_node. cbn [tree_levels].
  apply (build_levels_dense _ depth 0); [|done]. done.
Qed.

Lemma tree_root_dense :
  tree_root t = dense (leaf_at (map snd (keyed_leaves leaves tombs))) depth 0.
Proof. unfold tree_root. rewrite new_depth. by apply tree_node_dense. Qed.

End Tree.

(** ** Paths *)

Lemma dense_update_ne lf p d k i :
  i <> (p / 2 ^ k)%nat -> dense (update_at lf p d) k i = dense lf k i.
Proof.
  revert i; induction k as [|k IH]; intros i Hi; cbn [dense].
  - unfold update_at. rewrite decide_False; [done|]. by rewrite Nat.div_1_r in Hi.
  - rewrite Nat.pow_succ_r', Nat.mul_comm, <-Nat.Div0.div_div in Hi.
    rewrite !IH; [done| |]; intros E; apply Hi; rewrite <-E.
    + rewrite Nat.mul_comm, Nat.add_comm, Nat.div_add by lia. done.
    + by rewrite Nat.mul_comm, Nat.div_mul by lia.
Qed.

(** The sibling index and direction bit of position [j]. *)
Lemma lxor1_cases j :
  (Nat.land j 1 = 0%nat /\ Nat.lxor j 1 = (2 * (j / 2) + 1)%nat /\ j = (2 * (j / 2))%nat) \/
  (Nat.land j 1 = 1%nat /\ Nat.lxor j 1 = (2 * (j / 2))%nat /\ j = (2 * (j / 2) + 1)%nat).
Proof.
  assert (Hl : Nat.land j 1 = (j mod 2)%nat) by apply (Nat.land_ones j 1).
  assert (H2 : Nat.div2 (Nat.lxor j 1) = Nat.div2 j).
  { rewrite !Nat.div2_spec, Nat.shiftr_lxor. change (Nat.shiftr 1 1) with 0%nat.
    apply Nat.lxor_0_r. }
  assert (H1 : Nat.odd (Nat.lxor j 1) = negb (Nat.odd j)).
  { rewrite <-!Nat.bit0_odd, Nat.lxor_spec. by destruct (Nat.testbit j 0). }
  pose proof (Nat.div2_odd j) as Hj. pose proof (Nat.div2_odd (Nat.lxor j 1)) as Hx.
  rewrite H2, H1 in Hx. rewrite (Nat.div2_div j) in *.
  pose proof (Nat.div_mod_eq j 2) as Hd. rewrite Hl.
  destruct (Nat.odd j); simpl negb in Hx; simpl Nat.b2n in *; [right|left]; lia.
Qed.

(** One step of a path climbs one level of the updated tree. *)
Lemma path_step_up lf p d k :
  let j := (p / 2 ^ k)%nat in
  path_step (dense (update_at lf p d) k j)
    (dense lf k (Nat.lxor j 1), Z.of_nat (Nat.land j 1)) =
  dense (update_at lf p d) (S k) (p / 2 ^ S k).
Proof.
  intros j. unfold path_step. cbn [fst snd dense].
  assert (Hj : (p / 2 ^ S k)%nat = (j / 2)%nat).
  { unfold j. by rewrite Nat.pow_succ_r', Nat.mul_comm, Nat.Div0.div_div. }
  rewrite Hj. destruct (lxor1_cases j) as [(-> & -> & Ej)|(-> & -> & Ej)]; cbn [Z.of_nat Z.eqb].
  - rewrite (dense_update_ne lf p d k (2 * (j / 2) + 1)) by (fold j; lia).
    rewrite <-Ej. reflexivity.
  - rewrite (dense_update_ne lf p d k (2 * (j / 2))) by (fold j; lia).
    rewrite <-Ej. reflexivity.
Qed.

Lemma path_from_fold t lf p d n level :
  (forall k i, (k < level + n)%nat -> tree_node t k i = dense lf k i) ->
  foldl path_step (dense (update_at lf p d) level (p / 2 ^ level))
    (path_from t level n (p / 2 ^ level)) =
  dense (update_at lf p d) (level + n) (p / 2 ^ (level + n)).
Proof.
  revert level; induction n as [|n IH]; intros level Hn.
  - by rewrite Nat.add_0_r.
  - cbn [path_from foldl]. rewrite Hn by lia. rewrite path_step_up.
    replace (Nat.shiftr (p / 2 ^ level) 1) with (p / 2 ^ S level)%nat.
    + rewrite IH; [by replace (S level + n)%nat with (level + S n)%nat by lia|].
      intros k i Hk. apply Hn. lia.
    + rewrite Nat.shiftr_div_pow2, Nat.Div0.div_div, Nat.pow_succ_r'. f_equal. simpl. lia.
Qed.

Lemma zip_fst_snd {A B} (l : list (A * B)) : zip (map fst l) (map snd l) = l.
Proof. induction l as [|[a b] l IH]; simpl; [done|]. by rewrite IH. Qed.

(** Folding any digest up a leaf's path gives the root of the tree with that
    digest at that leaf. *)
Lemma fold_path_update leaves tombs depth t p d :
  new_with_tombstones leaves tombs depth = Some t -> (p < 2 ^ depth)%nat ->
  exists sibs dirs,
    prove_membership t p = Some (sibs, dirs) /\ length sibs = length dirs /\ length sibs = depth /\
    fold_path d sibs dirs =
      dense (update_at (leaf_at (map snd (keyed_leaves leaves tombs))) p d) depth 0.
Proof.
  intros Ht Hp. unfold prove_membership. rewrite (new_depth _ _ _ _ Ht).
  rewrite (proj2 (Nat.leb_gt _ _)) by done. eexists _, _. split; [done|].
  split_and!; [by rewrite !length_map| |].
  - rewrite length_map. clear. generalize 0%nat at 1. revert p.
    induction depth as [|n IH]; intros p level; simpl; [done|]. by rewrite IH.
  - unfold fold_path. rewrite zip_fst_snd.
    set (lf := leaf_at _).
    pose proof (path_from_fold t lf p d depth 0) as Hf. simpl (0 + depth)%nat in Hf.
    rewrite Nat.pow_0_r, Nat.div_1_r, (Nat.div_small p (2 ^ depth)) in Hf by done.
    assert (Hd : dense (update_at lf p d) 0 p = d) by (simpl; unfold update_at; by rewrite decide_True).
    rewrite Hd in Hf. apply Hf. intros k i Hk. apply (tree_node_dense leaves tombs depth t Ht). lia.
Qed.

(** ** What the tree holds *)

Abbreviation entry := (CapLeaf * digest8)%type.
Definition entry_key (e : entry) : Z := leaf_slot_hash e.1.
Definition live_entry (l : CapLeaf) : entry := (l, leaf_digest l).
Definition ghost_entry (k : Z) : entry := (sentinel_leaf k, CAP_ZERO8).
Definition bracketed (leaves : list CapLeaf) : list CapLeaf :=
  leaves ++ [sentinel_leaf SENTINEL_MIN; sentinel_leaf SENTINEL_MAX].

(** The keys of distinct c-list slots do not collide with each other or with
    the sentinels. *)
Definition distinct_keys (leaves : list CapLeaf) : Prop :=
  NoDup (leaf_slot_hash <$> bracketed leaves).

Lemma elem_of_ghosts live seen ts e :
  e ∈ ghosts live seen ts <->
  exists k, k ∈ ts /\ (k ∉ live) /\ (k ∉ seen) /\ e = ghost_entry k.
Proof.
  revert seen; induction ts as [|k ts IH]; intros seen; simpl.
  - rewrite elem_of_nil. split; [done|]. intros (?&[]%elem_of_nil&_).
  - destruct (bool_decide (k ∈ live)) eqn:E1; simpl;
      [|destruct (bool_decide (k ∈ seen)) eqn:E2; simpl];
      rewrite ?bool_decide_eq_true, ?bool_decide_eq_false in *; rewrite ?elem_of_cons, ?IH.
    + split; [|intros (x & Hx & ?); apply elem_of_cons in Hx as [->|?]; naive_solver].
      intros (x & ? & ?). exists x. split; [by right|done].
    + split; [|intros (x & Hx & ?); apply elem_of_cons in Hx as [->|?]; naive_solver].
      intros (x & ? & ?). exists x. split; [by right|done].
    + split.
      * intros [->|(x & Hx & Hl & Hs & ->)]; [exists k; split; [left|done]|].
        apply not_elem_of_cons in Hs as [??]. exists x. split; [by right|done].
      * intros (x & Hx & Hl & Hs & ->). apply elem_of_cons in Hx as [->|Hx]; [by left|].
        destruct (decide (x = k)) as [->|]; [by left|]. right. exists x.
        split_and!; [done|done|by apply not_elem_of_cons|done].
Qed.

Lemma ghosts_nodup live seen ts : NoDup (entry_key <$> ghosts live seen ts).
Proof.
  revert seen; induction ts as [|k ts IH]; intros seen; simpl; [constructor|].
  destruct (_ || _); [apply IH|]. simpl. constructor; [|apply IH].
  intros (e & E & He)%list_elem_of_fmap.
  apply elem_of_ghosts in He as (x & _ & _ & Hs & ->). apply not_elem_of_cons in Hs as [? _].
  by unfold entry_key in E; simpl in E.
Qed.

Lemma dedup_sort_id (leaves : list CapLeaf) :
  NoDup (leaf_slot_hash <$> leaves) ->
  dedup_by_key leaf_slot_hash (sort_by_key leaf_slot_hash leaves) =
  sort_by_key leaf_slot_hash leaves.
Proof. intros Hnd. apply dedup_by_key_nodup. by rewrite sort_by_key_perm. Qed.

(** The entries before the final sort, with their keys distinct. *)
Definition entries (leaves : list CapLeaf) (ts : list Z) : list entry :=
  let ls := dedup_by_key leaf_slot_hash (sort_by_key leaf_slot_hash (bracketed leaves)) in
  map live_entry ls ++ ghosts (map leaf_slot_hash ls) [] ts.

Lemma keyed_leaves_entries leaves ts :
  keyed_leaves leaves ts = sort_by_key entry_key (entries leaves ts).
Proof. reflexivity. Qed.

Lemma entries_nodup leaves ts : NoDup (entry_key <$> entries leaves ts).
Proof.
  unfold entries. set (ls := dedup_by_key _ _).
  assert (Hls : NoDup (leaf_slot_hash <$> ls)).
  { eapply sorted_lt_NoDup, dedup_by_key_sorted, sort_by_key_sorted. }
  rewrite fmap_app. apply NoDup_app. split_and!.
  - change (map live_entry ls) with (live_entry <$> ls). by rewrite <-list_fmap_compose.
  - intros k Hk (e & -> & He)%list_elem_of_fmap. apply elem_of_ghosts in He as (x & _ & Hl & _ & ->).
    apply Hl. apply list_elem_of_fmap in Hk as (e & E & He). apply list_elem_of_fmap in He as (l & -> & He).
    unfold entry_key in E. simpl in E. rewrite E. by apply list_elem_of_fmap_2.
  - apply ghosts_nodup.
Qed.

Lemma keyed_nodup leaves ts : NoDup (entry_key <$> keyed_leaves leaves ts).
Proof. rewrite keyed_leaves_entries, sort_by_key_perm. apply entries_nodup. Qed.

Lemma keyed_sorted leaves ts : StronglySorted (key_lt entry_key) (keyed_leaves leaves ts).
Proof. apply sorted_NoDup_lt; [apply sort_by_key_sorted|apply keyed_nodup]. Qed.

Lemma elem_of_entries leaves ts e :
  distinct_keys leaves ->
  e ∈ entries leaves ts <->
  (exists l, l ∈ bracketed leaves /\ e = live_entry l) \/
  (exists k, k ∈ ts /\ (k ∉ leaf_slot_hash <$> bracketed leaves) /\ e = ghost_entry k).
Proof.
  intros Hnd. unfold entries. rewrite dedup_sort_id by done.
  rewrite elem_of_app, elem_of_ghosts, list_elem_of_fmap.
  setoid_rewrite elem_of_sort_by_key.
  assert (Hk : forall k, k ∈ map leaf_slot_hash (sort_by_key leaf_slot_hash (bracketed leaves)) <->
                         k ∈ leaf_slot_hash <$> bracketed leaves).
  { intros k. change (map leaf_slot_hash) with (fmap (M := list) leaf_slot_hash).
    by rewrite sort_by_key_perm. }
  setoid_rewrite Hk. split; (intros [(l & ? & ?)|(k & ? & ? & H)]; [left; by exists l|right; exists k]).
  - tauto.
  - split_and!; [done|done|apply not_elem_of_nil|done].
Qed.

(** ** Positions *)

Lemma partition_point_sorted {A} (key : A -> Z) l i x :
  StronglySorted (key_lt key) l -> l !! i = Some x ->
  partition_point (fun y => key y <? key x) l = i.
Proof.
  intros Hs; revert i; induction Hs as [|y l Hs IH Hy]; intros i Hi; [done|].
  destruct i as [|i]; simpl in *.
  - injection Hi as ->. by rewrite Z.ltb_irrefl.
  - assert (Hlt : key y < key x).
    { rewrite Forall_forall in Hy. apply Hy. by eapply list_elem_of_lookup_2. }
    rewrite (proj2 (Z.ltb_lt _ _)) by done. f_equal. by apply IH.
Qed.

Section Positions.
Context (leaves : list CapLeaf) (tombs : list Z) (depth : nat) (t : CanonicalCapTree).
Hypothesis Ht : new_with_tombstones leaves tombs depth = Some t.

Lemma sorted_leaves_lookup i e :
  keyed_leaves leaves tombs !! i = Some e -> sorted_leaves t !! i = Some e.1.
Proof.
  intros He. rewrite (new_sorted_leaves _ _ _ _ Ht).
  change (map fst) with (fmap (M := list) (@fst CapLeaf digest8)).
  by rewrite list_lookup_fmap, He.
Qed.

Lemma position_of_entry i e :
  keyed_leaves leaves tombs !! i = Some e -> position_of t (entry_key e) = Some i.
Proof.
  intros He. pose proof (sorted_leaves_lookup i e He) as Hl.
  assert (Hp : partition_point (fun l => leaf_slot_hash l <? entry_key e) (sorted_leaves t) = i).
  { apply (partition_point_sorted leaf_slot_hash _ i e.1); [|done].
    rewrite (new_sorted_leaves _ _ _ _ Ht). pose proof (keyed_sorted leaves tombs) as Hs.
    clear -Hs. induction Hs as [|y l Hs IH Hy]; simpl; [constructor|constructor; [done|]].
    apply Forall_map. exact Hy. }
  unfold position_of. rewrite Hp, Hl. unfold entry_key. by rewrite Z.eqb_refl.
Qed.

Lemma position_of_Some k i :
  position_of t k = Some i -> exists e, keyed_leaves leaves tombs !! i = Some e /\ entry_key e = k.
Proof.
  unfold position_of. set (n := partition_point _ _).
  destruct (sorted_leaves t !! n) as [l|] eqn:E; [|done].
  destruct (Z.eqb_spec (leaf_slot_hash l) k) as [Hk|]; [|done]. intros [= <-].
  rewrite (new_sorted_leaves _ _ _ _ Ht) in E.
  change (map fst) with (fmap (M := list) (@fst CapLeaf digest8)) in E.
  rewrite list_lookup_fmap in E. destruct (keyed_leaves leaves tombs !! n) as [e|]; [|done].
  exists e. split; [done|]. by injection E as <-.
Qed.

Lemma position_of_elem e :
  e ∈ keyed_leaves leaves tombs ->
  exists i, position_of t (entry_key e) = Some i /\ keyed_leaves leaves tombs !! i = Some e.
Proof.
  intros He. apply list_elem_of_lookup in He as (i & Hi). exists i.
  split; [by apply position_of_entry|done].
Qed.

Lemma position_fits i e : keyed_leaves leaves tombs !! i = Some e -> (i < 2 ^ depth)%nat.
Proof.
  intros Hi%lookup_lt_Some. pose proof (new_fits _ _ _ _ Ht). lia.
Qed.

Lemma leaf_at_entry i e :
  keyed_leaves leaves tombs !! i = Some e ->
  leaf_at (map snd (keyed_leaves leaves tombs)) i = e.2.
Proof.
  intros He. unfold leaf_at.
  change (map snd) with (fmap (M := list) (@snd CapLeaf digest8)).
  by rewrite list_lookup_fmap, He.
Qed.

(** The path of a stored leaf folds that leaf's digest to the root. *)
Lemma stored_path i e :
  keyed_leaves leaves tombs !! i = Some e ->
  exists sibs dirs, prove_membership t i = Some (sibs, dirs) /\ length sibs = length dirs /\
    length sibs = depth /\ fold_path e.2 sibs dirs = tree_root t.
Proof.
  intros He.
  destruct (fold_path_update _ _ _ _ i e.2 Ht (position_fits i e He)) as (sibs & dirs & Hp & Hl & Hd & Hf).
  exists sibs, dirs. split_and!; [done|done|done|].
  rewrite Hf, (tree_root_dense _ _ _ _ Ht). apply dense_ext. intros j. unfold update_at.
  destruct (decide (j = i)) as [->|]; [|done]. symmetry. by apply leaf_at_entry.
Qed.

(** ** Replacing one entry in place *)

Definition replace_entry (e' e : entry) : entry := if entry_key e =? entry_key e' then e' else e.

Lemma replace_entry_key e' e : entry_key (replace_entry e' e) = entry_key e.
Proof. unfold replace_entry. by destruct (Z.eqb_spec (entry_key e) (entry_key e')). Qed.

Lemma replaced_leaf_at e' i e j :
  keyed_leaves leaves tombs !! i = Some e -> entry_key e = entry_key e' ->
  leaf_at (map snd (map (replace_entry e') (keyed_leaves leaves tombs))) j =
  update_at (leaf_at (map snd (keyed_leaves leaves tombs))) i e'.2 j.
Proof.
  intros Hi Hk. unfold leaf_at, update_at.
  change (map snd) with (fmap (M := list) (@snd CapLeaf digest8)).
  change (map (replace_entry e')) with (fmap (M := list) (replace_entry e')).
  rewrite !list_lookup_fmap. destruct (decide (j = i)) as [->|Hne].
  - rewrite Hi. simpl. unfold replace_entry. by rewrite Hk, Z.eqb_refl.
  - destruct (keyed_leaves leaves tombs !! j) as [ej|] eqn:Ej; [|done]. simpl.
    unfold replace_entry. destruct (Z.eqb_spec (entry_key ej) (entry_key e')) as [E|]; [|done].
    destruct Hne. eapply NoDup_lookup; [apply (keyed_nodup leaves tombs)|by rewrite list_lookup_fmap, Ej|].
    rewrite list_lookup_fmap, Hi. simpl. by rewrite E, Hk.
Qed.

Lemma replaced_root leaves' tombs' e' i e :
  keyed_leaves leaves' tombs' = map (replace_entry e') (keyed_leaves leaves tombs) ->
  keyed_leaves leaves tombs !! i = Some e -> entry_key e = entry_key e' ->
  exists t' sibs dirs,
    new_with_tombstones leaves' tombs' depth = Some t' /\
    prove_membership t i = Some (sibs, dirs) /\ length sibs = length dirs /\
    fold_path e'.2 sibs dirs = tree_root t'.
Proof.
  intros Hk Hi He.
  destruct (fold_path_update _ _ _ _ i e'.2 Ht (position_fits i e Hi)) as (sibs & dirs & Hp & Hl & _ & Hf).
  assert (Ht' : exists t', new_with_tombstones leaves' tombs' depth = Some t').
  { pose proof (new_fits _ _ _ _ Ht) as Hn. unfold new_with_tombstones. rewrite Hk, length_map.
    rewrite (proj2 (Nat.leb_le _ _) Hn). simpl. eauto. }
  destruct Ht' as [t' Ht']. exists t', sibs, dirs. split_and!; [done|done|done|].
  rewrite Hf, (tree_root_dense _ _ _ _ Ht'), Hk. apply dense_ext. intros j.
  symmetry. by eapply replaced_leaf_at.
Qed.

End Positions.

(** A tree over entries that are the images of another tree's entries. *)
Lemma keyed_map g leaves tombs leaves' tombs' :
  (forall e, entry_key (g e) = entry_key e) ->
  (forall e, e ∈ entries leaves' tombs' <-> exists e0, e0 ∈ entries leaves tombs /\ e = g e0) ->
  keyed_leaves leaves' tombs' = map g (keyed_leaves leaves tombs).
Proof.
  intros Hg He. rewrite !keyed_leaves_entries, <-(sort_by_key_map entry_key entry_key g) by done.
  apply sort_by_key_unique; [apply entries_nodup|].
  assert (Hnd : NoDup (entry_key <$> map g (entries leaves tombs))).
  { change (map g) with (fmap (M := list) g). rewrite <-list_fmap_compose.
    rewrite (list_fmap_ext _ entry_key); [apply entries_nodup|]. intros ? e _. apply Hg. }
  apply NoDup_Permutation.
  - eapply NoDup_fmap_1, entries_nodup.
  - eapply NoDup_fmap_1, Hnd.
  - intros e. rewrite He, list_elem_of_fmap. naive_solver.
Qed.

(** ** The three in-place updates *)

Lemma elem_of_bracketed l leaves :
  l ∈ bracketed leaves <->
  l ∈ leaves \/ l = sentinel_leaf SENTINEL_MIN \/ l = sentinel_leaf SENTINEL_MAX.
Proof. unfold bracketed. rewrite elem_of_app, !elem_of_cons, elem_of_nil. tauto. Qed.

Lemma distinct_not_sentinel leaves l :
  distinct_keys leaves -> l ∈ leaves ->
  leaf_slot_hash l <> SENTINEL_MIN /\ leaf_slot_hash l <> SENTINEL_MAX.
Proof.
  unfold distinct_keys, bracketed. rewrite fmap_app. intros (_ & Hd & _)%NoDup_app Hl.
  specialize (Hd (leaf_slot_hash l) ltac:(by apply list_elem_of_fmap_2)).
  simpl in Hd. rewrite !not_elem_of_cons in Hd. tauto.
Qed.

Lemma distinct_key_unique leaves x y :
  distinct_keys leaves -> x ∈ bracketed leaves -> y ∈ bracketed leaves ->
  leaf_slot_hash x = leaf_slot_hash y -> x = y.
Proof. intros Hd. by apply NoDup_keys_inj. Qed.

Definition drop_key (k : Z) (leaves : list CapLeaf) : list CapLeaf :=
  retain (fun l => negb (leaf_slot_hash l =? k)) leaves.

Definition swap_leaf (granted : CapLeaf) (l : CapLeaf) : CapLeaf :=
  if leaf_slot_hash l =? leaf_slot_hash granted then granted else l.

Lemma elem_of_drop_key k leaves l : l ∈ drop_key k leaves <-> l ∈ leaves /\ leaf_slot_hash l <> k.
Proof. unfold drop_key. by rewrite elem_of_retain, negb_true_iff, Z.eqb_neq. Qed.

Lemma NoDup_keys_retain {A} (key : A -> Z) p l : NoDup (key <$> l) -> NoDup (key <$> retain p l).
Proof.
  induction l as [|c l IH]; simpl; [done|]. intros [Hn Hd]%NoDup_cons.
  destruct (p c); [|by apply IH]. simpl. constructor; [|by apply IH].
  intros (y & E & [Hy _]%elem_of_retain)%list_elem_of_fmap. apply Hn. rewrite E.
  by apply list_elem_of_fmap_2.
Qed.

Lemma drop_key_bracketed k leaves :
  k <> SENTINEL_MIN -> k <> SENTINEL_MAX ->
  bracketed (drop_key k leaves) = drop_key k (bracketed leaves).
Proof.
  intros H1 H2. unfold bracketed, drop_key, retain. rewrite List.filter_app. f_equal.
  cbn [List.filter sentinel_leaf leaf_slot_hash].
  rewrite (proj2 (Z.eqb_neq SENTINEL_MIN k)), (proj2 (Z.eqb_neq SENTINEL_MAX k)) by done. done.
Qed.

Section Revoked.
Context (leaves : list CapLeaf) (ts ts' : list Z) (l : CapLeaf).
Hypothesis Hd : distinct_keys leaves.
Hypothesis Hl : l ∈ leaves.
Hypothesis Hts : forall x, x ∈ ts' <-> x = leaf_slot_hash l \/ x ∈ ts.

Lemma keyed_revoked :
  keyed_leaves (drop_key (leaf_slot_hash l) leaves) ts' =
  map (replace_entry (ghost_entry (leaf_slot_hash l))) (keyed_leaves leaves ts).
Proof using Hd Hl Hts.
  destruct (distinct_not_sentinel leaves l Hd Hl) as [Hmin Hmax]. set (k := leaf_slot_hash l) in *.
  assert (Hlb : l ∈ bracketed leaves) by (apply elem_of_bracketed; by left).
  apply keyed_map; [apply replace_entry_key|]. intros e.
  assert (Hd' : distinct_keys (drop_key k leaves)).
  { unfold distinct_keys. rewrite drop_key_bracketed by done. by apply NoDup_keys_retain. }
  setoid_rewrite elem_of_entries; [|done..]. rewrite drop_key_bracketed by done.
  assert (Hk : forall x, x ∈ leaf_slot_hash <$> drop_key k (bracketed leaves) <->
                         (x ∈ leaf_slot_hash <$> bracketed leaves) /\ x <> k).
  { intros x. rewrite !list_elem_of_fmap. setoid_rewrite elem_of_drop_key. naive_solver. }
  setoid_rewrite Hk. setoid_rewrite elem_of_drop_key. setoid_rewrite Hts.
  assert (Hlive : forall x, replace_entry (ghost_entry k) (live_entry x) =
            if leaf_slot_hash x =? k then ghost_entry k else live_entry x) by done.
  assert (Hghost : forall x, replace_entry (ghost_entry k) (ghost_entry x) = ghost_entry x).
  { intros x. unfold replace_entry, entry_key. simpl. by destruct (Z.eqb_spec x k) as [->|]. }
  split.
  - intros [(x & [Hx Hne] & ->)|(x & Hx & Hn & ->)].
    + exists (live_entry x). split; [left; by exists x|].
      rewrite Hlive, (proj2 (Z.eqb_neq _ _)) by done. done.
    + destruct (decide (x = k)) as [->|Hne].
      * exists (live_entry l). split; [left; by exists l|]. by rewrite Hlive, Z.eqb_refl.
      * exists (ghost_entry x). rewrite Hghost. split; [|done]. right. exists x.
        destruct Hx as [?|Hx]; [done|]. split_and!; [done| |done]. tauto.
  - intros (e0 & [(x & Hx & ->)|(x & Hx & Hn & ->)] & ->).
    + rewrite Hlive. destruct (Z.eqb_spec (leaf_slot_hash x) k) as [E|E].
      * right. exists k. split_and!; [by left|tauto|done].
      * left. by exists x.
    + rewrite Hghost. right. exists x. split_and!; [by right|tauto|done].
Qed.

End Revoked.

(** Installing [granted] at a key the tree already has a position for. *)
Lemma keyed_swapped leaves ts granted :
  distinct_keys leaves -> leaf_slot_hash granted ∈ leaf_slot_hash <$> leaves ->
  keyed_leaves (map (swap_leaf granted) leaves) ts =
  map (replace_entry (live_entry granted)) (keyed_leaves leaves ts).
Proof.
  intros Hd Hg. set (k := leaf_slot_hash granted) in *.
  apply list_elem_of_fmap in Hg as (h & Hh & Hin).
  destruct (distinct_not_sentinel leaves h Hd Hin) as [Hmin Hmax]. rewrite <-Hh in Hmin, Hmax.
  assert (Hkey : forall x, leaf_slot_hash (swap_leaf granted x) = leaf_slot_hash x).
  { intros x. unfold swap_leaf. by destruct (Z.eqb_spec (leaf_slot_hash x) (leaf_slot_hash granted)). }
  assert (Hb : bracketed (map (swap_leaf granted) leaves) = map (swap_leaf granted) (bracketed leaves)).
  { unfold bracketed. rewrite map_app. f_equal. unfold swap_leaf.
    cbn [map sentinel_leaf leaf_slot_hash]. fold k.
    rewrite (proj2 (Z.eqb_neq SENTINEL_MIN k)), (proj2 (Z.eqb_neq SENTINEL_MAX k)) by done. done. }
  assert (Hks : leaf_slot_hash <$> map (swap_leaf granted) (bracketed leaves) =
                leaf_slot_hash <$> bracketed leaves).
  { change (map (swap_leaf granted)) with (fmap (M := list) (swap_leaf granted)).
    rewrite <-list_fmap_compose. apply list_fmap_ext. intros ? x _. apply Hkey. }
  apply keyed_map; [apply replace_entry_key|]. intros e.
  assert (Hd' : distinct_keys (map (swap_leaf granted) leaves))
    by (unfold distinct_keys; by rewrite Hb, Hks).
  setoid_rewrite elem_of_entries; [|done..].
  rewrite Hb, Hks.
  assert (Hlive : forall x, live_entry (swap_leaf granted x) =
            replace_entry (live_entry granted) (live_entry x)).
  { intros x. unfold swap_leaf, replace_entry, entry_key. simpl. by destruct (_ =? _). }
  assert (Hghost : forall x, x ∉ leaf_slot_hash <$> bracketed leaves ->
            replace_entry (live_entry granted) (ghost_entry x) = ghost_entry x).
  { intros x Hx. unfold replace_entry. rewrite (proj2 (Z.eqb_neq _ _)); [done|].
    unfold entry_key. simpl. fold k. intros ->. apply Hx. rewrite Hh.
    apply list_elem_of_fmap_2, elem_of_bracketed. by left. }
  split.
  - intros [(y & Hy & ->)|(x & Hx & Hn & ->)].
    + apply list_elem_of_fmap in Hy as (x & -> & Hx). exists (live_entry x).
      split; [left; by exists x|]. apply Hlive.
    + exists (ghost_entry x). rewrite Hghost by done. split; [right; by exists x|done].
  - intros (e0 & [(x & Hx & ->)|(x & Hx & Hn & ->)] & ->).
    + left. exists (swap_leaf granted x). split; [by apply list_elem_of_fmap_2|by rewrite Hlive].
    + rewrite Hghost by done. right. by exists x.
Qed.

(** ** Witnesses built from a tree *)

Lemma digest_eqb_refl d : digest_eqb d d = true.
Proof. induction d as [|x d IH]; simpl; [done|]. unfold bb_eqb. by rewrite Z.eqb_refl. Qed.

Lemma live_in_tree leaves ts l :
  distinct_keys leaves -> l ∈ leaves -> live_entry l ∈ keyed_leaves leaves ts.
Proof.
  intros Hd Hl. rewrite keyed_leaves_entries, elem_of_sort_by_key, elem_of_entries by done.
  left. exists l. split; [|done]. apply elem_of_bracketed. by left.
Qed.

(** How many positions a tree takes: at most one per leaf and tombstone, and
    the two sentinels. *)
Lemma dedup_by_key_length {A} (key : A -> Z) l : (length (dedup_by_key key l) <= length l)%nat.
Proof.
  destruct l as [|x l]; [done|]. simpl. pose proof (sublist_length _ _ (dedup_after_sublist key x l)). lia.
Qed.

Lemma ghosts_length live seen ts : (length (ghosts live seen ts) <= length ts)%nat.
Proof.
  revert seen; induction ts as [|k ts IH]; intros seen; simpl; [done|].
  destruct (_ || _); simpl; [specialize (IH seen)|specialize (IH (k :: seen))]; lia.
Qed.

Lemma keyed_length leaves ts : (length (keyed_leaves leaves ts) <= length leaves + length ts + 2)%nat.
Proof.
  rewrite keyed_leaves_entries, sort_by_key_perm. unfold entries. rewrite length_app, length_map.
  pose proof (dedup_by_key_length leaf_slot_hash (sort_by_key leaf_slot_hash (bracketed leaves))) as H1.
  pose proof (Permutation_length (sort_by_key_perm leaf_slot_hash (bracketed leaves))) as H2.
  unfold bracketed in H2 at 2. rewrite length_app in H2. simpl (length [_; _]) in H2.
  pose proof (ghosts_length (map leaf_slot_hash (dedup_by_key leaf_slot_hash
    (sort_by_key leaf_slot_hash (bracketed leaves)))) [] ts). lia.
Qed.

Lemma new_total leaves ts depth :
  (length leaves + length ts + 2 <= 2 ^ depth)%nat ->
  exists t, new_with_tombstones leaves ts depth = Some t.
Proof.
  intros H. unfold new_with_tombstones. pose proof (keyed_length leaves ts).
  rewrite (proj2 (Nat.leb_le _ _)) by lia. simpl. eauto.
Qed.

Lemma dense_canonical lf k i :
  (forall j, Forall canonical (lf j)) -> Forall canonical (dense lf k i).
Proof.
  intros H. revert i; induction k as [|k IH]; intros i; cbn [dense]; [done|].
  by apply node_canonical.
Qed.

Lemma elem_of_dedup {A} (key : A -> Z) x l : x ∈ dedup_by_key key l -> x ∈ l.
Proof.
  destruct l as [|y l]; [done|]. simpl. intros [->|Hx]%elem_of_cons; [left|right].
  eapply elem_of_sublist; [exact Hx|apply dedup_after_sublist].
Qed.

Lemma keyed_canonical leaves ts e :
  Forall leaf_ok leaves -> e ∈ keyed_leaves leaves ts -> Forall canonical e.2.
Proof.
  intros Hl. rewrite keyed_leaves_entries, elem_of_sort_by_key. unfold entries.
  rewrite elem_of_app, elem_of_ghosts. intros [He|(k & _ & _ & _ & ->)].
  - apply list_elem_of_fmap in He as (l & -> & Hin). apply leaf_digest_canonical.
    apply elem_of_dedup, elem_of_sort_by_key, elem_of_bracketed in Hin.
    rewrite Forall_forall in Hl.
    destruct Hin as [?|[->| ->]]; [by apply Hl|..]; split_and!; by vm_compute.
  - apply Forall_replicate, canonical_0.
Qed.

Lemma root_canonical leaves ts depth t :
  new_with_tombstones leaves ts (S depth) = Some t -> Forall leaf_ok leaves ->
  length (tree_root t) = 8%nat /\ Forall canonical (tree_root t).
Proof.
  intros Ht Hl. rewrite (tree_root_dense _ _ _ _ Ht). cbn [dense].
  apply node_canonical; apply dense_canonical; intros j; unfold leaf_at;
    change (map snd) with (fmap (M := list) (@snd CapLeaf digest8));
    rewrite list_lookup_fmap; destruct (keyed_leaves leaves ts !! j) as [e|] eqn:E; simpl;
    try apply Forall_replicate, canonical_0;
    eapply keyed_canonical; try done; by eapply list_elem_of_lookup_2.
Qed.

(** Opening a live leaf and folding the zero digest up its path. *)
Lemma zero_fold_rebuild leaves ts ts' depth t l :
  new_with_tombstones leaves ts depth = Some t -> distinct_keys leaves -> l ∈ leaves ->
  (forall x, x ∈ ts' <-> x = leaf_slot_hash l \/ x ∈ ts) ->
  exists w t',
    revocation_witness t (leaf_slot_hash l) = Some w /\
    aw_held w = l /\ aw_old_root w = tree_root t /\
    new_with_tombstones (drop_key (leaf_slot_hash l) leaves) ts' depth = Some t' /\
    aw_new_root w = tree_root t'.
Proof.
  intros Ht Hd Hl Hts. pose proof (live_in_tree leaves ts l Hd Hl) as Hin.
  destruct (position_of_elem _ _ _ _ Ht _ Hin) as (i & Hpos & Hi).
  destruct (replaced_root _ _ _ _ Ht _ _ _ i _ (keyed_revoked leaves ts ts' l Hd Hl Hts) Hi eq_refl)
    as (t' & sibs & dirs & Ht' & Hp & _ & Hf).
  exists (mkAttW l (sentinel_leaf 0) sibs dirs (tree_root t) (tree_root t')), t'.
  unfold revocation_witness.
  change (leaf_slot_hash l) with (entry_key (live_entry l)) at 1. rewrite Hpos. simpl.
  rewrite (sorted_leaves_lookup _ _ _ _ Ht i _ Hi). simpl. rewrite Hp. simpl.
  change (fold_path CAP_ZERO8 sibs dirs) with (fold_path (ghost_entry (leaf_slot_hash l)).2 sibs dirs).
  by rewrite Hf.
Qed.

(** ** Properties *)

(** C31: the sparse tree is the dense one.  Whatever leaves and tombstones it
    is built from, every node of every level, reconstructed from the stored
    prefixes, is the node of the full binary tree whose bottom level is padded
    with zero digests. *)
Theorem sparse_tree_is_dense leaves tombs depth t :
  new_with_tombstones leaves tombs depth = Some t ->
  forall k i, (k <= depth)%nat ->
  tree_node t k i = dense (leaf_at (map snd (keyed_leaves leaves tombs))) k i.
Proof. intros Ht k i. by apply tree_node_dense. Qed.

Definition w_leaf (k a : Z) : CapLeaf := mkLeaf k 11 a 1 0 NONE_SENTINEL NONE_SENTINEL.

Lemma w_tree_exists : exists t, new_with_tombstones [w_leaf 40 1; w_leaf 20 2] [30] 3 = Some t.
Proof. apply new_total. simpl. lia. Qed.

Lemma sparse_tree_is_dense_witness :
  exists t, new_with_tombstones [w_leaf 40 1; w_leaf 20 2] [30] 3 = Some t /\
    tree_node t 2 1 = dense (leaf_at (map snd (keyed_leaves [w_leaf 40 1; w_leaf 20 2] [30]))) 2 1.
Proof.
  destruct w_tree_exists as [t Ht]. exists t. split; [exact Ht|].
  apply (sparse_tree_is_dense _ _ _ _ Ht 2 1). lia.
Defined.

(** A membership witness exists for every live leaf, opens that very leaf
    with one sibling per level, and recomposes the tree's root. *)
Theorem membership_witness_recomposes leaves tombs depth t l :
  new_with_tombstones leaves tombs depth = Some t -> distinct_keys leaves -> l ∈ leaves ->
  exists w, membership_witness t (leaf_slot_hash l) = Some w /\
    mw_leaf w = l /\ mw_root w = tree_root t /\ length (mw_siblings w) = depth /\
    recomposes w = true.
Proof.
  intros Ht Hd Hl. pose proof (live_in_tree leaves tombs l Hd Hl) as Hin.
  destruct (position_of_elem _ _ _ _ Ht _ Hin) as (i & Hpos & Hi).
  destruct (stored_path _ _ _ _ Ht i _ Hi) as (sibs & dirs & Hp & Hlen & Hdep & Hf).
  exists (mkMemW l sibs dirs (tree_root t)). unfold membership_witness.
  change (leaf_slot_hash l) with (entry_key (live_entry l)). rewrite Hpos. simpl.
  rewrite (sorted_leaves_lookup _ _ _ _ Ht i _ Hi). simpl. rewrite Hp. simpl.
  split_and!; [done|done|done|done|].
  unfold recomposes, recompose_membership. cbn [mw_leaf mw_siblings mw_directions mw_root].
  rewrite (proj2 (Nat.eqb_eq _ _) Hlen). simpl in Hf. rewrite Hf. apply digest_eqb_refl.
Qed.

Lemma w_distinct : distinct_keys [w_leaf 40 1; w_leaf 20 2].
Proof. unfold distinct_keys. apply (bool_decide_unpack _). reflexivity. Qed.

Lemma membership_witness_recomposes_witness :
  exists t w, membership_witness t 20 = Some w /\ mw_leaf w = w_leaf 20 2 /\ recomposes w = true.
Proof.
  destruct w_tree_exists as [t Ht].
  destruct (membership_witness_recomposes _ _ _ t (w_leaf 20 2) Ht w_distinct
              ltac:(right; left)) as (w & Hw & Hl & _ & _ & Hr).
  exists t, w. split_and!; [exact Hw|exact Hl|exact Hr].
Defined.

(** Revocation by zero fold is revocation by tombstone.  Opening a live
    leaf and folding the zero digest up its path gives the root of the tree
    rebuilt without the leaf and with its key tombstoned; the rebuilt tree
    always fits where the old one did. *)
Theorem revocation_witness_is_rebuild leaves ts ts' depth t l :
  new_with_tombstones leaves ts depth = Some t -> distinct_keys leaves -> l ∈ leaves ->
  (forall x, x ∈ ts' <-> x = leaf_slot_hash l \/ x ∈ ts) ->
  exists w t',
    revocation_witness t (leaf_slot_hash l) = Some w /\
    aw_held w = l /\ aw_old_root w = tree_root t /\
    new_with_tombstones (drop_key (leaf_slot_hash l) leaves) ts' depth = Some t' /\
    aw_new_root w = tree_root t'.
Proof. apply zero_fold_rebuild. Qed.

Lemma revocation_witness_is_rebuild_witness :
  exists t w t', revocation_witness t 20 = Some w /\
    new_with_tombstones [w_leaf 40 1] [20; 30] 3 = Some t' /\ aw_new_root w = tree_root t'.
Proof.
  destruct w_tree_exists as [t Ht].
  destruct (revocation_witness_is_rebuild _ _ [20; 30] _ t (w_leaf 20 2) Ht w_distinct
              ltac:(right; left)) as (w & t' & Hw & _ & _ & Ht' & Hr).
  - intros x. simpl. rewrite !elem_of_cons. tauto.
  - exists t, w, t'. split_and!; [exact Hw|exact Ht'|exact Hr].
Defined.

(** Attenuation in place.  The witness that swaps a live leaf for a
    granted leaf at the same key has as its new root the root of the tree
    rebuilt with that leaf replaced. *)
Theorem attenuation_witness_is_rebuild leaves ts depth t l granted :
  new_with_tombstones leaves ts depth = Some t -> distinct_keys leaves -> l ∈ leaves ->
  leaf_slot_hash granted = leaf_slot_hash l ->
  exists w t',
    attenuation_witness t granted = Some w /\
    aw_held w = l /\ aw_old_root w = tree_root t /\
    new_with_tombstones (map (swap_leaf granted) leaves) ts depth = Some t' /\
    aw_new_root w = tree_root t'.
Proof.
  intros Ht Hd Hl Hg. pose proof (live_in_tree leaves ts l Hd Hl) as Hin.
  destruct (position_of_elem _ _ _ _ Ht _ Hin) as (i & Hpos & Hi).
  assert (Hk : leaf_slot_hash granted ∈ leaf_slot_hash <$> leaves).
  { rewrite Hg. by apply list_elem_of_fmap_2. }
  destruct (replaced_root _ _ _ _ Ht _ _ _ i _ (keyed_swapped leaves ts granted Hd Hk) Hi (eq_sym Hg))
    as (t' & sibs & dirs & Ht' & Hp & _ & Hf).
  exists (mkAttW l granted sibs dirs (tree_root t) (tree_root t')), t'.
  unfold attenuation_witness. rewrite Hg.
  change (leaf_slot_hash l) with (entry_key (live_entry l)). rewrite Hpos. simpl.
  rewrite (sorted_leaves_lookup _ _ _ _ Ht i _ Hi). simpl. rewrite Hp. simpl.
  simpl in Hf. by rewrite Hf.
Qed.

Lemma attenuation_witness_is_rebuild_witness :
  exists t w t', attenuation_witness t (w_leaf 20 5) = Some w /\
    new_with_tombstones [w_leaf 40 1; w_leaf 20 5] [30] 3 = Some t' /\ aw_new_root w = tree_root t'.
Proof.
  destruct w_tree_exists as [t Ht].
  destruct (attenuation_witness_is_rebuild _ _ _ t (w_leaf 20 2) (w_leaf 20 5) Ht w_distinct
              ltac:(right; left) eq_refl) as (w & t' & Hw & _ & _ & Ht' & Hr).
  exists t, w, t'. split_and!; [exact Hw|exact Ht'|exact Hr].
Defined.

(** A tombstone has a position, so [attenuation_witness] and
    [revocation_witness] answer for a revoked key as well: they return a
    witness whose held leaf is the ghost's sentinel leaf, never [None]. *)
Theorem tombstone_still_opens leaves ts depth t k granted :
  new_with_tombstones leaves ts depth = Some t -> distinct_keys leaves ->
  k ∈ ts -> k ∉ leaf_slot_hash <$> bracketed leaves -> leaf_slot_hash granted = k ->
  (exists w, attenuation_witness t granted = Some w /\ aw_held w = sentinel_leaf k) /\
  (exists w, revocation_witness t k = Some w /\ aw_held w = sentinel_leaf k /\
     aw_new_root w = tree_root t).
Proof.
  intros Ht Hd Hk Hn Hg.
  assert (Hin : ghost_entry k ∈ keyed_leaves leaves ts).
  { rewrite keyed_leaves_entries, elem_of_sort_by_key, elem_of_entries by done.
    right. by exists k. }
  destruct (position_of_elem _ _ _ _ Ht _ Hin) as (i & Hpos & Hi).
  destruct (stored_path _ _ _ _ Ht i _ Hi) as (sibs & dirs & Hp & _ & _ & Hf).
  change (entry_key (ghost_entry k)) with k in Hpos.
  pose proof (sorted_leaves_lookup _ _ _ _ Ht i _ Hi) as Hs. simpl in Hs.
  unfold attenuation_witness, revocation_witness. rewrite Hg, Hpos. simpl. rewrite Hs. simpl.
  rewrite Hp. simpl. split; [by eexists|]. eexists. split_and!; [done|done|]. exact Hf.
Qed.

Lemma tombstone_still_opens_witness :
  exists t w, revocation_witness t 30 = Some w /\ aw_held w = sentinel_leaf 30.
Proof.
  destruct w_tree_exists as [t Ht].
  destruct (tombstone_still_opens _ _ _ t 30 (w_leaf 30 1) Ht w_distinct) as (_ & w & Hw & Hh & _).
  - left.
  - simpl. rewrite !elem_of_cons, elem_of_nil. unfold SENTINEL_MIN, SENTINEL_MAX. lia.
  - reflexivity.
  - exists t, w. split; [exact Hw|exact Hh].
Defined.
