(* ===== verification/Heap.v ===== *)
(** * The heap tree

    Models the 8-felt half of [circuit/src/heap_root.rs]: the indexed-Merkle
    leaf with its pointer to the next address, the sorted tree, its membership
    paths and update and insert witnesses, and the in-place value update a
    cell's cache performs.  The sparse fold is the one [CapRoot] models: both
    trees commit through the same node compression.  [None] is a failed
    [assert!] on the tree's capacity. *)

From stdpp Require Import base decidable option list sorting.
From Stdlib Require Import ZArith Lia.
From S2P Require Import Prelude BabyBear Poseidon2 CapRoot.

Open Scope Z_scope.

Definition HEAP_DIGEST_W : nat := 8.
Definition HEAP_ZERO8 : digest8 := replicate HEAP_DIGEST_W 0.
Definition HEAP_TREE_DEPTH : nat := 16.

Definition heap_node8 (l r : digest8) : digest8 :=
  chip_absorb_all_lanes CHIP_NODE8_ARITY (l ++ r).

Fixpoint heap_empty_subtree_root_8 (level : nat) : digest8 :=
  match level with
  | O => HEAP_ZERO8
  | S k => let e := heap_empty_subtree_root_8 k in heap_node8 e e
  end.

Definition heap_addr (coll key : Z) : Z := hash_many [coll; key].

Record HeapLeaf : Type := mkHeapLeaf {
  hl_addr : Z;
  hl_value : Z;
  hl_next_addr : Z;
}.

Definition heap_entry (addr value : Z) : HeapLeaf := mkHeapLeaf addr value SENTINEL_MAX.

Definition digest8_of (l : HeapLeaf) : digest8 :=
  chip_absorb_all_lanes 3 [hl_addr l; hl_value l; hl_next_addr l].

Definition min_sentinel_leaf : HeapLeaf := mkHeapLeaf SENTINEL_MIN 0 SENTINEL_MAX.

Fixpoint relink_next_addrs (leaves : list HeapLeaf) : list HeapLeaf :=
  match leaves with
  | [] => []
  | l :: rest =>
      mkHeapLeaf (hl_addr l) (hl_value l)
        (match rest with n :: _ => hl_addr n | [] => SENTINEL_MAX end)
      :: relink_next_addrs rest
  end.

(** Sorted, deduplicated, relinked: what both builders do first. *)
Definition linked_leaves (leaves : list HeapLeaf) : list HeapLeaf :=
  relink_next_addrs (dedup_by_key hl_addr (sort_by_key hl_addr (leaves ++ [min_sentinel_leaf]))).

Fixpoint fold_levels (level remaining : nat) (cur : list digest8) : list digest8 :=
  match remaining with
  | O => cur
  | S n => fold_levels (S level) n (fold_level (heap_empty_subtree_root_8 level) cur)
  end.

Definition heap_root_8_circuit (leaves : list HeapLeaf) : option digest8 :=
  let leaves := linked_leaves leaves in
  if negb (length leaves <=? 2 ^ HEAP_TREE_DEPTH)%nat then None
  else fold_levels 0 HEAP_TREE_DEPTH (map digest8_of leaves) !! 0%nat.

Record CanonicalHeapTree8 : Type := mkHeapTree {
  h8_levels : list (list digest8);
  h8_sorted_leaves : list HeapLeaf;
  h8_depth : nat;
  h8_next_free_index : nat;
}.

Definition heap_tree_new (leaves : list HeapLeaf) (depth : nat) : option CanonicalHeapTree8 :=
  let leaves := linked_leaves leaves in
  if negb (length leaves <=? 2 ^ depth)%nat then None
  else Some (mkHeapTree (build_levels 0 depth (map digest8_of leaves)) leaves depth (length leaves)).

Definition node8 (levels : list (list digest8)) (level idx : nat) : digest8 :=
  default (heap_empty_subtree_root_8 level) (default [] (levels !! level) !! idx).

Definition root8 (t : CanonicalHeapTree8) : digest8 := node8 (h8_levels t) (h8_depth t) 0.

(** [binary_search_by(|l| l.addr.cmp(&key)).ok()] on strictly sorted leaves. *)
Definition heap_position_of (t : CanonicalHeapTree8) (key : Z) : option nat :=
  let i := partition_point (fun l => canonical_val (hl_addr l) <? canonical_val key)
             (h8_sorted_leaves t) in
  match h8_sorted_leaves t !! i with
  | Some l => if canonical_val (hl_addr l) =? canonical_val key then Some i else None
  | None => None
  end.

Fixpoint heap_path_from (levels : list (list digest8)) (level remaining idx : nat)
    : list (digest8 * Z) :=
  match remaining with
  | O => []
  | S n =>
      (node8 levels level (Nat.lxor idx 1), Z.of_nat (Nat.land idx 1))
      :: heap_path_from levels (S level) n (Nat.shiftr idx 1)
  end.

Definition heap_prove_membership (t : CanonicalHeapTree8) (position : nat)
    : option (list digest8 * list Z) :=
  if (2 ^ h8_depth t <=? position)%nat then None
  else let path := heap_path_from (h8_levels t) 0 (h8_depth t) position in
       Some (map fst path, map snd path).

Definition recompose_membership_8 (leaf : digest8) (siblings : list digest8)
    (directions : list Z) : digest8 :=
  foldl (fun cur step => if step.2 =? 0 then heap_node8 cur step.1 else heap_node8 step.1 cur)
    leaf (zip siblings directions).

Record HeapUpdateWitness8 : Type := mkHeapUpdW {
  hu_old_leaf : HeapLeaf;
  hu_new_leaf : HeapLeaf;
  hu_siblings : list digest8;
  hu_directions : list Z;
  hu_old_root : digest8;
  hu_new_root : digest8;
}.

Definition heap_update_witness (t : CanonicalHeapTree8) (new_leaf : HeapLeaf)
    : option HeapUpdateWitness8 :=
  pos ← heap_position_of t (hl_addr new_leaf);
  old_leaf ← h8_sorted_leaves t !! pos;
  let new_leaf := mkHeapLeaf (hl_addr new_leaf) (hl_value new_leaf) (hl_next_addr old_leaf) in
  path ← heap_prove_membership t pos;
  let '(siblings, directions) := path in
  Some (mkHeapUpdW old_leaf new_leaf siblings directions (root8 t)
          (recompose_membership_8 (digest8_of new_leaf) siblings directions)).

Record HeapInsertWitness8 : Type := mkHeapInsW {
  hi_new_leaf : HeapLeaf;
  hi_siblings : list digest8;
  hi_directions : list Z;
  hi_old_root : digest8;
  hi_new_root : digest8;
}.

Definition heap_insert_witness (t : CanonicalHeapTree8) (new_leaf : HeapLeaf)
    : option HeapInsertWitness8 :=
  let key := hl_addr new_leaf in
  if bb_eqb key SENTINEL_MIN || (SENTINEL_MAX <=? key) then None
  else match heap_position_of t key with
  | Some _ => None
  | None =>
      let pos := partition_point (fun l => canonical_val (hl_addr l) <=? canonical_val key)
                   (h8_sorted_leaves t) in
      if (pos =? length (h8_sorted_leaves t))%nat then None
      else
        let new_real :=
          retain (fun l => negb (bb_eqb (hl_addr l) SENTINEL_MIN) && negb (bb_eqb (hl_addr l) SENTINEL_MAX))
            (take pos (h8_sorted_leaves t) ++ [new_leaf] ++ drop pos (h8_sorted_leaves t)) in
        new_tree ← heap_tree_new new_real (h8_depth t);
        new_pos ← heap_position_of new_tree key;
        leaf ← h8_sorted_leaves new_tree !! new_pos;
        path ← heap_prove_membership new_tree new_pos;
        let '(siblings, directions) := path in
        Some (mkHeapInsW leaf siblings directions (root8 t) (root8 new_tree))
  end.

(** [levels[level][idx] = cur]. *)
Definition set_level (levels : list (list digest8)) (level idx : nat) (cur : digest8)
    : list (list digest8) :=
  alter (fun row => <[idx := cur]> row) level levels.

(** The climbing loop of [apply_value_update]. *)
Fixpoint update_path (levels : list (list digest8)) (level remaining idx : nat) (cur : digest8)
    : list (list digest8) * digest8 :=
  match remaining with
  | O => (levels, cur)
  | S n =>
      let '(l, r) :=
        if (Nat.land idx 1 =? 0)%nat then (cur, node8 levels level (idx + 1))
        else (node8 levels level (idx - 1), cur) in
      let cur := heap_node8 l r in
      let idx := Nat.shiftr idx 1 in
      update_path (set_level levels (S level) idx cur) (S level) n idx cur
  end.

Definition set_value (v : Z) (l : HeapLeaf) : HeapLeaf :=
  mkHeapLeaf (hl_addr l) v (hl_next_addr l).

Definition apply_value_update (t : CanonicalHeapTree8) (addr value : Z)
    : option (CanonicalHeapTree8 * digest8) :=
  pos ← heap_position_of t addr;
  leaf ← set_value value <$> h8_sorted_leaves t !! pos;
  let sorted := <[pos := leaf]> (h8_sorted_leaves t) in
  let cur := digest8_of leaf in
  let '(levels, root) := update_path (set_level (h8_levels t) 0 pos cur) 0 (h8_depth t) pos cur in
  Some (mkHeapTree levels sorted (h8_depth t) (h8_next_free_index t), root).

(** ** The node compression is the capability tree's *)

Lemma heap_node8_eq l r : heap_node8 l r = cap_node8 l r.
Proof. unfold heap_node8. exact (eq_sym (cap_node8_def l r)). Qed.

Lemma heap_empty_eq level : heap_empty_subtree_root_8 level = cap_empty_subtree_root level.
Proof. 
  induction level as [|k IH]; [reflexivity|].
  cbn [heap_empty_subtree_root_8 cap_empty_subtree_root]. rewrite IH. apply heap_node8_eq.
Qed.

Lemma heap_addr_canonical coll key : is_u32 coll -> is_u32 key -> canonical (heap_addr coll key).
Proof. intros. apply hash_many_canonical. repeat (constructor; [done|]). constructor. Qed.

#[global] Opaque heap_node8 digest8_of heap_addr.

(** ** The stored levels denote the dense tree *)

Lemma node8_dense ds depth k i :
  (k <= depth)%nat -> node8 (build_levels 0 depth ds) k i = dense (leaf_at ds) k i.
Proof.
  intros Hk. unfold node8. rewrite heap_empty_eq.
  apply (build_levels_dense (leaf_at ds) depth 0); [|done]. done.
Qed.

Lemma fold_levels_build level n prev :
  fold_levels level n prev = default [] (build_levels level n prev !! n).
Proof.
  revert level prev; induction n as [|n IH]; intros level prev; [done|].
  cbn [fold_levels build_levels lookup list_lookup]. rewrite heap_empty_eq. apply IH.
Qed.

Lemma fold_level_length e prev : length (fold_level e prev) = ((length prev + 1) / 2)%nat.
Proof.
  induction prev as [prev IH] using (induction_ltof1 _ (@length digest8)); unfold ltof in IH.
  destruct prev as [|a [|b prev]]; [done|done|].
  cbn [fold_level length]. rewrite IH by (simpl; lia).
  replace (S (S (length prev)) + 1)%nat with (length prev + 1 + 1 * 2)%nat by lia.
  rewrite Nat.div_add by lia. lia.
Qed.

Lemma fold_level_nonempty e prev : prev <> [] -> fold_level e prev <> [].
Proof. by destruct prev as [|a [|b prev]]. Qed.

Lemma fold_levels_nonempty level n prev : prev <> [] -> fold_levels level n prev <> [].
Proof.
  revert level prev; induction n as [|n IH]; intros level prev Hp; [done|].
  cbn [fold_levels]. by apply IH, fold_level_nonempty.
Qed.

Lemma relink_length l : length (relink_next_addrs l) = length l.
Proof. induction l as [|x l IH]; simpl; [done|]. by rewrite IH. Qed.

Lemma linked_nonempty leaves : linked_leaves leaves <> [].
Proof.
  assert (Hs : sort_by_key hl_addr (leaves ++ [min_sentinel_leaf]) <> []).
  { intros E. pose proof (sort_by_key_perm hl_addr (leaves ++ [min_sentinel_leaf])) as Hp.
    rewrite E in Hp. apply Permutation_nil_l in Hp. by destruct leaves. }
  unfold linked_leaves. intros E. apply (f_equal length) in E. rewrite relink_length in E.
  by destruct (sort_by_key hl_addr (leaves ++ [min_sentinel_leaf])).
Qed.

Lemma root8_levels ds ls depth n :
  ds <> [] ->
  fold_levels 0 depth ds !! 0%nat = Some (root8 (mkHeapTree (build_levels 0 depth ds) ls depth n)).
Proof.
  intros Hne. unfold root8, node8. cbn [h8_levels h8_depth]. rewrite <-fold_levels_build.
  pose proof (fold_levels_nonempty 0 depth ds Hne). by destruct (fold_levels 0 depth ds).
Qed.

Lemma heap_tree_new_inv leaves depth t :
  heap_tree_new leaves depth = Some t ->
  (length (linked_leaves leaves) <= 2 ^ depth)%nat /\
  t = mkHeapTree (build_levels 0 depth (map digest8_of (linked_leaves leaves)))
        (linked_leaves leaves) depth (length (linked_leaves leaves)).
Proof.
  unfold heap_tree_new. destruct (Nat.leb_spec (length (linked_leaves leaves)) (2 ^ depth)); [|done].
  by intros [= <-].
Qed.

(** The tree's root is the root the free function folds. *)
Lemma root8_circuit leaves t :
  heap_tree_new leaves HEAP_TREE_DEPTH = Some t -> heap_root_8_circuit leaves = Some (root8 t).
Proof.
  intros [Hle ->]%heap_tree_new_inv. unfold heap_root_8_circuit.
  rewrite (proj2 (Nat.leb_le _ _) Hle). cbn [negb]. apply root8_levels.
  intros E%map_eq_nil. by apply linked_nonempty in E.
Qed.

Lemma heap_tree_circuit_none leaves :
  heap_tree_new leaves HEAP_TREE_DEPTH = None -> heap_root_8_circuit leaves = None.
Proof. unfold heap_tree_new, heap_root_8_circuit. by destruct (negb _). Qed.

(** ** Updating one leaf in place *)

(** The parent an updated child gives. *)
Definition new_parent (e : digest8) (prev : list digest8) (i : nat) (d : digest8) : digest8 :=
  if (Nat.land i 1 =? 0)%nat then cap_node8 d (default e (prev !! (i + 1)%nat))
  else cap_node8 (default e (prev !! (i - 1)%nat)) d.

Lemma land1_SS i : Nat.land (S (S i)) 1 = Nat.land i 1.
Proof.
  change 1%nat with (Nat.ones 1). rewrite !Nat.land_ones. change (2 ^ 1)%nat with 2%nat.
  replace (S (S i)) with (i + 1 * 2)%nat by lia. by rewrite Nat.Div0.mod_add.
Qed.

Lemma fold_level_insert e prev i d :
  (i < length prev)%nat ->
  fold_level e (<[i := d]> prev) = <[(i / 2)%nat := new_parent e prev i d]> (fold_level e prev).
Proof.
  revert i; induction prev as [prev IH] using (induction_ltof1 _ (@length digest8)); unfold ltof in IH.
  intros i Hi. destruct prev as [|a [|b prev]]; [simpl in Hi; lia| |].
  - destruct i as [|i]; [reflexivity|simpl in Hi; lia].
  - destruct i as [|[|i]]; [reflexivity|reflexivity|].
    replace (S (S i) / 2)%nat with (S (i / 2))
      by (replace (S (S i)) with (i + 1 * 2)%nat by lia; rewrite Nat.div_add by lia; lia).
    cbn [insert list_insert fold_level]. f_equal. simpl in Hi.
    rewrite IH by (simpl; lia). f_equal.
    unfold new_parent. rewrite land1_SS. destruct (Nat.eqb_spec (Nat.land i 1) 0) as [|Ho].
    + reflexivity.
    + destruct i as [|i]; [done|]. replace (S (S (S i)) - 1)%nat with (S (S i)) by lia.
      replace (S i - 1)%nat with i by lia. reflexivity.
Qed.

(** Rebuilding over an updated leaf is writing the updated path. *)
Definition write_path (level n : nat) (prev : list digest8) (i : nat) (d : digest8) :=
  build_levels level n (<[i := d]> prev).

Lemma shiftr1 i : Nat.shiftr i 1 = (i / 2)%nat.
Proof. by rewrite Nat.shiftr_div_pow2. Qed.

Lemma build_levels_head level n prev : exists rest, build_levels level n prev = prev :: rest.
Proof. destruct n; cbn [build_levels]; eauto. Qed.

Lemma set_level_app below row rest level idx d :
  length below = level -> set_level (below ++ row :: rest) level idx d = below ++ (<[idx := d]> row) :: rest.
Proof.
  intros <-. unfold set_level. induction below as [|b below IH]; simpl; [done|]. f_equal. exact IH.
Qed.

Lemma node8_row below row rest level idx :
  length below = level ->
  node8 (below ++ row :: rest) level idx = default (heap_empty_subtree_root_8 level) (row !! idx).
Proof. intros <-. unfold node8. by rewrite list_lookup_middle. Qed.

Lemma update_path_build below level n prev i d :
  length below = level -> (i < length prev)%nat ->
  exists c,
    update_path (below ++ (<[i := d]> prev) :: drop 1 (build_levels level n prev)) level n i d =
      (below ++ build_levels level n (<[i := d]> prev), c) /\
    default [] (build_levels level n (<[i := d]> prev) !! n) !! (i / 2 ^ n)%nat = Some c.
Proof.
  revert below level prev i d; induction n as [|n IH]; intros below level prev i d Hb Hi.
  - exists d. rewrite Nat.pow_0_r, Nat.div_1_r. split; [done|].
    change (default [] (build_levels level 0 (<[i := d]> prev) !! 0%nat)) with (<[i := d]> prev).
    by apply list_lookup_insert_eq.
  - cbn [update_path build_levels].
    set (e := cap_empty_subtree_root level). set (up := fold_level e prev).
    destruct (build_levels_head (S level) n up) as [rest Hrest].
    set (lv := below ++ (<[i := d]> prev) :: drop 1 (prev :: build_levels (S level) n up)).
    assert (Hlr : (let '(l, r) := if (Nat.land i 1 =? 0)%nat then (d, node8 lv level (i + 1))
                                  else (node8 lv level (i - 1), d) in heap_node8 l r) =
                  new_parent e prev i d).
    { unfold lv. rewrite !node8_row by done. unfold new_parent. rewrite heap_empty_eq. fold e.
      destruct (lxor1_cases i) as [(-> & _ & _)|(Hl & _ & Hi2)]; simpl.
      - rewrite heap_node8_eq, list_lookup_insert_ne by lia. reflexivity.
      - rewrite Hl. simpl. rewrite heap_node8_eq, list_lookup_insert_ne by lia. reflexivity. }
    destruct (if (Nat.land i 1 =? 0)%nat then _ else _) as [l r]. rewrite Hlr, shiftr1.
    assert (Hlen : (i / 2 < length up)%nat).
    { unfold up. rewrite fold_level_length.
      pose proof (Nat.div_mod_eq i 2). pose proof (Nat.div_mod_eq (length prev + 1) 2).
      pose proof (Nat.mod_upper_bound i 2 ltac:(lia)).
      pose proof (Nat.mod_upper_bound (length prev + 1) 2 ltac:(lia)). lia. }
    destruct (IH (below ++ [<[i := d]> prev]) (S level) up (i / 2)%nat (new_parent e prev i d))
      as (c & Hc & Hrow); [rewrite length_app; simpl; lia|done|].
    exists c. rewrite Hrest in Hc. cbn [drop] in Hc. rewrite drop_0 in Hc.
    unfold lv. cbn [drop]. rewrite Hrest.
    replace (below ++ (<[i := d]> prev) :: up :: rest)
      with ((below ++ [<[i := d]> prev]) ++ up :: rest) by (by rewrite <-app_assoc).
    rewrite set_level_app by (rewrite length_app; simpl; lia). rewrite Hc.
    rewrite (fold_level_insert e prev i d Hi), <-app_assoc. split; [done|].
    cbn [lookup list_lookup]. rewrite Nat.pow_succ_r', <-Nat.Div0.div_div. exact Hrow.
Qed.

(** ** The in-place update is the rebuild *)

Definition update_leaf (addr value : Z) (l : HeapLeaf) : HeapLeaf :=
  if hl_addr l =? addr then set_value value l else l.

Lemma update_leaf_addr addr value l : hl_addr (update_leaf addr value l) = hl_addr l.
Proof. unfold update_leaf. by destruct (_ =? _). Qed.

Lemma dedup_after_map {A} (key : A -> Z) (g : A -> A) x l :
  (forall y, key (g y) = key y) -> dedup_after key (g x) (map g l) = map g (dedup_after key x l).
Proof.
  intros Hg. revert x; induction l as [|y l IH]; intros x; simpl; [done|].
  rewrite !Hg. destruct (_ =? _); simpl; by rewrite IH.
Qed.

Lemma dedup_by_key_map {A} (key : A -> Z) (g : A -> A) l :
  (forall y, key (g y) = key y) -> dedup_by_key key (map g l) = map g (dedup_by_key key l).
Proof. intros Hg. destruct l as [|x l]; simpl; [done|]. by rewrite dedup_after_map. Qed.

Lemma relink_update addr value l :
  relink_next_addrs (map (update_leaf addr value) l) =
  map (update_leaf addr value) (relink_next_addrs l).
Proof.
  induction l as [|x l IH]; [done|]. cbn [map relink_next_addrs]. rewrite IH. f_equal.
  assert (Hn : match map (update_leaf addr value) l with n :: _ => hl_addr n | [] => SENTINEL_MAX end =
               match l with n :: _ => hl_addr n | [] => SENTINEL_MAX end).
  { destruct l; [done|]. apply update_leaf_addr. }
  rewrite Hn. unfold update_leaf. cbn [hl_addr]. by destruct (hl_addr x =? addr).
Qed.

Lemma linked_update addr value leaves :
  addr <> SENTINEL_MIN ->
  linked_leaves (map (update_leaf addr value) leaves) =
  map (update_leaf addr value) (linked_leaves leaves).
Proof.
  intros Hne. unfold linked_leaves.
  replace (map (update_leaf addr value) leaves ++ [min_sentinel_leaf])
    with (map (update_leaf addr value) (leaves ++ [min_sentinel_leaf])).
  - rewrite (sort_by_key_map hl_addr) by apply update_leaf_addr.
    rewrite dedup_by_key_map by apply update_leaf_addr. apply relink_update.
  - rewrite map_app. f_equal. cbn [map]. unfold update_leaf. cbn [min_sentinel_leaf hl_addr].
    by rewrite (proj2 (Z.eqb_neq SENTINEL_MIN addr)) by done.
Qed.

Lemma relink_addrs l : hl_addr <$> relink_next_addrs l = hl_addr <$> l.
Proof. induction l as [|x l IH]; [done|]. cbn [relink_next_addrs]. rewrite !fmap_cons. by rewrite IH. Qed.

Lemma sorted_keys_fmap {A} (key : A -> Z) (l : list A) :
  StronglySorted (key_lt key) l <-> StronglySorted Z.lt (key <$> l).
Proof.
  induction l as [|x l IH]; [split; constructor|]. rewrite fmap_cons. split; intros Hs.
  - inversion Hs as [|?? H1 H2]; subst. constructor; [by apply IH|].
    exact (proj2 (Forall_fmap key _ l) H2).
  - inversion Hs as [|?? H1 H2]; subst. constructor; [by apply IH|].
    exact (proj1 (Forall_fmap key _ l) H2).
Qed.

Lemma linked_sorted leaves : StronglySorted (key_lt hl_addr) (linked_leaves leaves).
Proof.
  apply (proj2 (sorted_keys_fmap hl_addr _)). unfold linked_leaves. rewrite relink_addrs.
  apply (proj1 (sorted_keys_fmap hl_addr _)).
  apply dedup_by_key_sorted, sort_by_key_sorted.
Qed.

(** Every address of the input has one leaf. *)
Lemma dedup_after_keys {A} (key : A -> Z) p l x :
  x ∈ key <$> l -> x = key p \/ x ∈ key <$> dedup_after key p l.
Proof.
  revert p; induction l as [|y l IH]; intros p; [by intros ?%elem_of_nil|].
  rewrite fmap_cons, elem_of_cons. cbn [dedup_after].
  destruct (Z.eqb_spec (key y) (key p)) as [E|]; [intros [->|Hx]; [by left|by apply IH]|].
  rewrite fmap_cons, elem_of_cons. intros [->|Hx]; [right; by left|].
  right. destruct (IH y Hx) as [->|?]; [by left|by right].
Qed.

Lemma elem_of_linked_addrs leaves a :
  a ∈ hl_addr <$> linked_leaves leaves <-> a = SENTINEL_MIN \/ a ∈ hl_addr <$> leaves.
Proof.
  unfold linked_leaves. rewrite relink_addrs.
  assert (Hd : forall l, a ∈ hl_addr <$> dedup_by_key hl_addr l <-> a ∈ hl_addr <$> l).
  { intros [|x l]; [done|]. cbn [dedup_by_key]. rewrite !fmap_cons, !elem_of_cons. split.
    - intros [->|(y & -> & Hy)%list_elem_of_fmap]; [by left|right].
      apply list_elem_of_fmap_2. eapply elem_of_sublist; [exact Hy|apply dedup_after_sublist].
    - intros [->|Hx]; [by left|]. by apply dedup_after_keys. }
  rewrite Hd, sort_by_key_perm, fmap_app, elem_of_app. simpl. rewrite list_elem_of_singleton. tauto.
Qed.

Lemma canonical_val_id v : canonical v -> canonical_val v = v.
Proof.
  intros [_ Hlt]. unfold canonical_val. by rewrite (proj2 (Z.leb_gt _ _) Hlt).
Qed.

Lemma partition_point_ext {A} (p q : A -> bool) l :
  (forall x, x ∈ l -> p x = q x) -> partition_point p l = partition_point q l.
Proof.
  induction l as [|x l IH]; intros H; simpl; [done|]. rewrite (H x) by left.
  destruct (q x); [|done]. f_equal. apply IH. intros. apply H. by right.
Qed.

Section HeapTree.
Context (leaves : list HeapLeaf) (depth : nat) (t : CanonicalHeapTree8).
Hypothesis Ht : heap_tree_new leaves depth = Some t.
Hypothesis Hcan : Forall (fun l => canonical (hl_addr l)) leaves.

Lemma linked_canonical l : l ∈ linked_leaves leaves -> canonical (hl_addr l).
Proof using Hcan.
  intros Hl. assert (Ha : hl_addr l ∈ hl_addr <$> linked_leaves leaves) by (by apply list_elem_of_fmap_2).
  apply elem_of_linked_addrs in Ha as [->|(x & -> & Hx)%list_elem_of_fmap]; [apply canonical_0|].
  rewrite Forall_forall in Hcan. by apply Hcan.
Qed.

Lemma heap_position_lookup i l :
  linked_leaves leaves !! i = Some l -> heap_position_of t (hl_addr l) = Some i.
Proof using Ht Hcan.
  intros Hl. destruct (heap_tree_new_inv _ _ _ Ht) as [_ ->]. unfold heap_position_of.
  cbn [h8_sorted_leaves].
  assert (Hc : forall x, x ∈ linked_leaves leaves -> canonical_val (hl_addr x) = hl_addr x).
  { intros x Hx. by apply canonical_val_id, linked_canonical. }
  assert (Hl' : l ∈ linked_leaves leaves) by (by eapply list_elem_of_lookup_2).
  rewrite (partition_point_ext _ (fun x => hl_addr x <? hl_addr l)).
  - rewrite (partition_point_sorted hl_addr _ i l); [|apply linked_sorted|done].
    by rewrite Hl, Z.eqb_refl.
  - intros x Hx. by rewrite !Hc.
Qed.

Lemma heap_position_exists a :
  a ∈ hl_addr <$> leaves ->
  exists i l, linked_leaves leaves !! i = Some l /\ hl_addr l = a /\ heap_position_of t a = Some i.
Proof using Ht Hcan.
  intros Ha. assert (Hin : a ∈ hl_addr <$> linked_leaves leaves) by (apply elem_of_linked_addrs; by right).
  apply list_elem_of_fmap in Hin as (l & -> & Hl). apply list_elem_of_lookup in Hl as (i & Hi).
  exists i, l. split_and!; [done|done|by apply heap_position_lookup].
Qed.

Lemma map_update_insert a v i l :
  linked_leaves leaves !! i = Some l -> hl_addr l = a ->
  map (update_leaf a v) (linked_leaves leaves) = <[i := set_value v l]> (linked_leaves leaves).
Proof.
  intros Hi Ha. pose proof (sorted_lt_NoDup _ _ (linked_sorted leaves)) as Hnd.
  apply list_eq. intros j. change (map (update_leaf a v)) with (fmap (M := list) (update_leaf a v)).
  rewrite list_lookup_fmap. destruct (decide (j = i)) as [->|Hne].
  - rewrite Hi, list_lookup_insert_eq by (by eapply lookup_lt_Some). simpl.
    unfold update_leaf. by rewrite Ha, Z.eqb_refl.
  - rewrite list_lookup_insert_ne by done.
    destruct (linked_leaves leaves !! j) as [x|] eqn:Ej; [|done]. simpl. f_equal.
    unfold update_leaf. destruct (Z.eqb_spec (hl_addr x) a) as [E|]; [|done].
    destruct Hne. eapply NoDup_lookup; [exact Hnd|by rewrite list_lookup_fmap, Ej|].
    rewrite list_lookup_fmap, Hi. simpl. by rewrite E, Ha.
Qed.

(** Writing one value in place gives exactly the tree rebuilt over the updated
    leaves: levels, leaves and root. *)
Lemma apply_value_update_rebuild a v :
  a <> SENTINEL_MIN -> a ∈ hl_addr <$> leaves ->
  exists t',
    heap_tree_new (map (update_leaf a v) leaves) depth = Some t' /\
    apply_value_update t a v = Some (t', root8 t').
Proof using Ht Hcan.
  intros Hne Ha. destruct (heap_position_exists a Ha) as (i & l & Hi & Hla & Hpos).
  unfold apply_value_update. rewrite Hpos. cbn [mbind option_bind].
  destruct (heap_tree_new_inv _ _ _ Ht) as [Hfit Ht']. rewrite Ht'.
  cbn [h8_sorted_leaves h8_levels h8_depth h8_next_free_index]. rewrite Hi. cbn [fmap option_fmap option_map mbind option_bind].
  cbv zeta.
  set (ds := map digest8_of (linked_leaves leaves)). set (d := digest8_of (set_value v l)).
  assert (Hids : (i < length ds)%nat).
  { unfold ds. rewrite length_map. by eapply lookup_lt_Some. }
  assert (Hset : set_level (build_levels 0 depth ds) 0 i d =
                 [] ++ (<[i := d]> ds) :: drop 1 (build_levels 0 depth ds)).
  { destruct (build_levels_head 0 depth ds) as [rest ->].
    exact (set_level_app [] ds rest 0 i d eq_refl). }
  rewrite Hset. destruct (update_path_build [] 0 depth ds i d eq_refl Hids) as (c & -> & Hc).
  assert (Hds : <[i := d]> ds = map digest8_of (map (update_leaf a v) (linked_leaves leaves))).
  { rewrite (map_update_insert a v i l Hi Hla). unfold ds, d.
    change (map digest8_of) with (fmap (M := list) digest8_of). by rewrite list_fmap_insert. }
  rewrite Hds, <-linked_update in Hc by done. rewrite Hds, <-linked_update by done.
  rewrite <-(map_update_insert a v i l Hi Hla), <-linked_update by done.
  assert (Hl : length (linked_leaves (map (update_leaf a v) leaves)) = length (linked_leaves leaves))
    by (rewrite linked_update by done; apply length_map).
  eexists. unfold heap_tree_new. rewrite Hl, (proj2 (Nat.leb_le _ _) Hfit). cbn [negb].
  split; [reflexivity|]. cbn [app]. f_equal. f_equal.
  unfold root8, node8. cbn [h8_levels h8_depth].
  rewrite Nat.div_small in Hc; [by rewrite Hc|]. unfold ds in Hids. rewrite length_map in Hids. lia.
Qed.

End HeapTree.

(** ** Colliding addresses

    Of two leaves with one address, only the first survives the build. *)

Lemma dedup_after_dup {A} (key : A -> Z) p x y l :
  key x = key y ->
  dedup_after key p (insert_by_key key x (insert_by_key key y l)) =
  dedup_after key p (insert_by_key key x l).
Proof.
  intros E. revert p; induction l as [|s l IH]; intros p; cbn [insert_by_key].
  - rewrite E, Z.leb_refl. cbn [dedup_after]. rewrite <-E.
    destruct (Z.eqb_spec (key x) (key p)); [done|]. by rewrite Z.eqb_refl.
  - rewrite <-E. destruct (Z.leb_spec (key x) (key s)).
    + cbn [insert_by_key]. rewrite E, Z.leb_refl. cbn [dedup_after]. rewrite <-E.
      destruct (Z.eqb_spec (key x) (key p)); [done|]. by rewrite Z.eqb_refl.
    + cbn [insert_by_key]. rewrite (proj2 (Z.leb_gt (key x) (key s))) by lia.
      cbn [dedup_after]. by rewrite !IH.
Qed.

Lemma dedup_by_key_dup {A} (key : A -> Z) x y l :
  key x = key y ->
  dedup_by_key key (insert_by_key key x (insert_by_key key y l)) =
  dedup_by_key key (insert_by_key key x l).
Proof.
  intros E. destruct l as [|s l]; cbn [insert_by_key].
  - rewrite E, Z.leb_refl. cbn [dedup_by_key dedup_after]. by rewrite <-E, Z.eqb_refl.
  - rewrite <-E. destruct (Z.leb_spec (key x) (key s)).
    + cbn [insert_by_key]. rewrite E, Z.leb_refl. cbn [dedup_by_key dedup_after].
      by rewrite <-E, Z.eqb_refl.
    + cbn [insert_by_key]. rewrite (proj2 (Z.leb_gt (key x) (key s))) by lia.
      cbn [dedup_by_key]. f_equal. by apply dedup_after_dup.
Qed.

Lemma linked_dup x y l :
  hl_addr x = hl_addr y -> linked_leaves (x :: y :: l) = linked_leaves (x :: l).
Proof.
  intros E. unfold linked_leaves, sort_by_key. cbn [app foldr]. by rewrite dedup_by_key_dup.
Qed.

Lemma heap_root_dup x y l :
  hl_addr x = hl_addr y -> heap_root_8_circuit (x :: y :: l) = heap_root_8_circuit (x :: l).
Proof. intros E. unfold heap_root_8_circuit. by rewrite linked_dup. Qed.

(** ** Properties *)

(** A value written at a present address through the cached tree, which
    recomputes one leaf-to-root path, leaves exactly the tree that rebuilding
    over the updated leaves gives: every stored level, the sorted leaves, the
    free index and the root; and the root is the one the free function folds. *)
Theorem heap_update_is_rebuild leaves t a v :
  heap_tree_new leaves HEAP_TREE_DEPTH = Some t ->
  Forall (fun l => canonical (hl_addr l)) leaves ->
  a <> SENTINEL_MIN -> a ∈ hl_addr <$> leaves ->
  exists t',
    apply_value_update t a v = Some (t', root8 t') /\
    heap_tree_new (map (update_leaf a v) leaves) HEAP_TREE_DEPTH = Some t' /\
    heap_root_8_circuit (map (update_leaf a v) leaves) = Some (root8 t').
Proof.
  intros Ht Hcan Hne Ha.
  destruct (apply_value_update_rebuild leaves _ t Ht Hcan a v Hne Ha) as (t' & Ht' & Hu).
  exists t'. split_and!; [done|done|]. by apply root8_circuit.
Qed.

Lemma heap_tree_total leaves depth :
  (length leaves + 1 <= 2 ^ depth)%nat -> exists t, heap_tree_new leaves depth = Some t.
Proof.
  intros Hl. unfold heap_tree_new, linked_leaves. rewrite relink_length.
  pose proof (dedup_by_key_length hl_addr (sort_by_key hl_addr (leaves ++ [min_sentinel_leaf]))) as H1.
  pose proof (Permutation_length (sort_by_key_perm hl_addr (leaves ++ [min_sentinel_leaf]))) as H2.
  rewrite length_app in H2. simpl in H2.
  rewrite (proj2 (Nat.leb_le _ _)) by lia. cbn [negb]. by eexists.
Qed.

Lemma heap_update_is_rebuild_witness :
  exists t t', heap_tree_new [heap_entry 5 1; heap_entry 9 2] HEAP_TREE_DEPTH = Some t /\
    apply_value_update t 9 7 = Some (t', root8 t').
Proof.
  destruct (heap_tree_total [heap_entry 5 1; heap_entry 9 2] HEAP_TREE_DEPTH) as [t Ht].
  - simpl length. change (2 ^ HEAP_TREE_DEPTH)%nat with (Z.to_nat 65536). lia.
  - destruct (heap_update_is_rebuild _ t 9 7 Ht) as (t' & Hu & _).
    + repeat constructor; by unfold_P.
    + done.
    + right. left.
    + exists t, t'. split; [exact Ht|exact Hu].
Defined.

Lemma partition_point_all {A} (p : A -> bool) l :
  (forall x, x ∈ l -> p x = true) -> partition_point p l = length l.
Proof.
  induction l as [|x l IH]; intros H; simpl; [done|]. rewrite (H x) by left.
  f_equal. apply IH. intros. apply H. by right.
Qed.

(** The insert witness cannot append.  With no leaf for the upper
    sentinel in the list, an address above every present one has no successor,
    so [insert_witness] refuses it although it is fresh and below the upper
    sentinel; in particular it refuses every address on the empty heap. *)
Theorem insert_witness_refuses_new_maximum leaves depth t new_leaf :
  heap_tree_new leaves depth = Some t ->
  Forall (fun l => canonical (hl_addr l) /\ hl_addr l < hl_addr new_leaf) leaves ->
  canonical (hl_addr new_leaf) ->
  heap_insert_witness t new_leaf = None.
Proof.
  intros Ht Hall Hk. unfold heap_insert_witness. cbv zeta.
  destruct (bb_eqb _ _ || _) eqn:E0; [done|].
  destruct (heap_position_of t (hl_addr new_leaf)); [done|].
  destruct (heap_tree_new_inv _ _ _ Ht) as [_ ->]. cbn [h8_sorted_leaves].
  assert (Hne : hl_addr new_leaf <> SENTINEL_MIN).
  { intros E. apply orb_false_iff in E0 as [E0 _]. unfold bb_eqb in E0. by rewrite E, Z.eqb_refl in E0. }
  rewrite partition_point_all; [by rewrite Nat.eqb_refl|].
  intros x Hx. assert (Hcan : Forall (fun l => canonical (hl_addr l)) leaves).
  { eapply Forall_impl; [exact Hall|]. by intros ? [? _]. }
  rewrite !canonical_val_id; [|done|by eapply linked_canonical]. apply Z.leb_le.
  assert (Ha : hl_addr x ∈ hl_addr <$> linked_leaves leaves) by (by apply list_elem_of_fmap_2).
  apply elem_of_linked_addrs in Ha as [->|(y & -> & Hy)%list_elem_of_fmap].
  - unfold canonical, SENTINEL_MIN in *. lia.
  - rewrite Forall_forall in Hall. destruct (Hall y Hy). lia.
Qed.

Lemma insert_witness_refuses_new_maximum_witness :
  exists t, heap_tree_new [] 3 = Some t /\ heap_insert_witness t (heap_entry 12345 1) = None.
Proof.
  destruct (heap_tree_total [] 3) as [t Ht]; [simpl; lia|].
  exists t. split; [exact Ht|].
  apply (insert_witness_refuses_new_maximum [] 3 t (heap_entry 12345 1) Ht).
  - constructor.
  - by unfold_P.
Defined.
