(* ===== verification/State.v ===== *)
(** * Cell state

    Models [cell/src/state.rs]: the sixteen public fields with their visibility
    and commitments, the overflow field map and its committed root, the
    kernel's side-table roots, the heap with its incremental tree cache, the
    sealed counters, and the signed balance with its verbs and boundary
    encoding.  A method that can hit the tree builder's capacity assertion
    returns [option]; a [bool] result is kept beside the new state. *)

From stdpp Require Import base decidable option list sorting strings.
From Stdlib Require Import ZArith Lia.
From S2P Require Import Prelude BabyBear Poseidon2 CapRoot Heap.

Open Scope Z_scope.

Abbreviation FieldElement := (list Z).

Definition FIELD_ZERO : FieldElement := zero32.
Definition STATE_SLOTS : nat := 16.
Definition REFUSAL_AUDIT_EXT_KEY : Z := 0x0000000100000000.
Definition N_SYSTEM_ROOTS : nat := 8.

Inductive FieldVisibility : Type := Public | Committed | SelectivelyDisclosable.

#[global] Instance FieldVisibility_eq_dec : EqDecision FieldVisibility.
Proof. solve_decision. Defined.

Inductive PublicFieldView : Type :=
| ViewRevealed (v : FieldElement)
| ViewCommitted (h : bytes).

(** The heap's [BTreeMap<(u32, u32), _>] orders pairs lexicographically. *)
Definition heap_key_ord (k : Z * Z) : Z := k.1 * 2 ^ 32 + k.2.

Record CellState : Type := mkState {
  fields : list FieldElement;
  field_visibility : list FieldVisibility;
  commitments : list (option bytes);
  nonce : Z;
  balance : Z;
  proved_state : bool;
  delegation_epoch : Z;
  committed_height : Z;
  swiss_table_root : bytes;
  refcount_table_root : bytes;
  fields_root : digest8;
  fields_map : list (Z * FieldElement);
  system_roots : list FieldElement;
  heap_root : digest8;
  heap_map : list ((Z * Z) * FieldElement);
  heap_tree_cache : option CanonicalHeapTree8;
}.

(** ** Committed roots *)

Definition default_system_roots : list FieldElement := replicate N_SYSTEM_ROOTS FIELD_ZERO.

Definition SYSTEM_ROOTS_CONTEXT : string := "dregg-cell:system-roots v1".

Section SystemRoots.
Context `{HB : Blake3}.

Definition empty_system_roots_digest : bytes :=
  blake3_derive_key SYSTEM_ROOTS_CONTEXT
    (le_bytes 8 (Z.of_nat N_SYSTEM_ROOTS) ++ concat default_system_roots).

Definition compute_system_roots_digest (roots : list FieldElement) : bytes :=
  if bool_decide (roots = default_system_roots) then empty_system_roots_digest
  else blake3_derive_key SYSTEM_ROOTS_CONTEXT
         (le_bytes 8 (Z.of_nat N_SYSTEM_ROOTS) ++ concat roots).

End SystemRoots.

Definition FIELDS_KEY_TAG : Z := 0x0F1E1D50.

Definition field_key_hash (key : Z) : Z :=
  hash_many [bb_new FIELDS_KEY_TAG; bb_new (key mod 2 ^ 32); bb_new (Z.shiftr key 32)].

Definition fields_root_leaves (map_ : list (Z * FieldElement)) : list HeapLeaf :=
  let leaves := map (fun e => heap_entry (field_key_hash e.1) (fold_bytes32 e.2)) map_ in
  let audit_addr := field_key_hash REFUSAL_AUDIT_EXT_KEY in
  if any (fun l => bb_eqb (hl_addr l) audit_addr) leaves then leaves
  else leaves ++ [heap_entry audit_addr 0].

Definition compute_canonical_fields_root_8 (map_ : list (Z * FieldElement)) : option digest8 :=
  heap_root_8_circuit (fields_root_leaves map_).

Definition empty_fields_root : option digest8 := compute_canonical_fields_root_8 [].

Definition heap_leaf (coll key : Z) (value : FieldElement) : HeapLeaf :=
  heap_entry (heap_addr (bb_new coll) (bb_new key)) (fold_bytes32 value).

Definition heap_leaves (map_ : list ((Z * Z) * FieldElement)) : list HeapLeaf :=
  map (fun e => heap_leaf e.1.1 e.1.2 e.2) map_.

Definition compute_canonical_heap_root_8 (map_ : list ((Z * Z) * FieldElement)) : option digest8 :=
  heap_root_8_circuit (heap_leaves map_).

Definition empty_heap_root : option digest8 := compute_canonical_heap_root_8 [].

(** ** Construction *)

Definition state_new_at (b : Z) (froot hroot : digest8) : CellState := {|
  fields := replicate STATE_SLOTS FIELD_ZERO;
  field_visibility := replicate STATE_SLOTS Public;
  commitments := replicate STATE_SLOTS None;
  nonce := 0;
  balance := b;
  proved_state := false;
  delegation_epoch := 0;
  committed_height := 0;
  swiss_table_root := zero32;
  refcount_table_root := zero32;
  fields_root := froot;
  fields_map := [];
  system_roots := default_system_roots;
  heap_root := hroot;
  heap_map := [];
  heap_tree_cache := None;
|}.

(** [CellState::new]. *)
Definition state_new (b : Z) : option CellState :=
  froot ← empty_fields_root;
  hroot ← empty_heap_root;
  Some (state_new_at b froot hroot).

(** ** Sealed scalars *)

Definition with_balance (s : CellState) (b : Z) : CellState :=
  mkState (fields s) (field_visibility s) (commitments s) (nonce s) b (proved_state s)
    (delegation_epoch s) (committed_height s) (swiss_table_root s) (refcount_table_root s)
    (fields_root s) (fields_map s) (system_roots s) (heap_root s) (heap_map s) (heap_tree_cache s).

Definition with_nonce (s : CellState) (n : Z) : CellState :=
  mkState (fields s) (field_visibility s) (commitments s) n (balance s) (proved_state s)
    (delegation_epoch s) (committed_height s) (swiss_table_root s) (refcount_table_root s)
    (fields_root s) (fields_map s) (system_roots s) (heap_root s) (heap_map s) (heap_tree_cache s).

Definition with_epoch (s : CellState) (e : Z) : CellState :=
  mkState (fields s) (field_visibility s) (commitments s) (nonce s) (balance s) (proved_state s)
    e (committed_height s) (swiss_table_root s) (refcount_table_root s)
    (fields_root s) (fields_map s) (system_roots s) (heap_root s) (heap_map s) (heap_tree_cache s).

Definition with_fields (s : CellState) (fs : list FieldElement) (vs : list FieldVisibility)
    (cs : list (option bytes)) : CellState :=
  mkState fs vs cs (nonce s) (balance s) (proved_state s)
    (delegation_epoch s) (committed_height s) (swiss_table_root s) (refcount_table_root s)
    (fields_root s) (fields_map s) (system_roots s) (heap_root s) (heap_map s) (heap_tree_cache s).

Definition with_fields_map (s : CellState) (m : list (Z * FieldElement)) (r : digest8) : CellState :=
  mkState (fields s) (field_visibility s) (commitments s) (nonce s) (balance s) (proved_state s)
    (delegation_epoch s) (committed_height s) (swiss_table_root s) (refcount_table_root s)
    r m (system_roots s) (heap_root s) (heap_map s) (heap_tree_cache s).

Definition with_system_roots (s : CellState) (rs : list FieldElement) : CellState :=
  mkState (fields s) (field_visibility s) (commitments s) (nonce s) (balance s) (proved_state s)
    (delegation_epoch s) (committed_height s) (swiss_table_root s) (refcount_table_root s)
    (fields_root s) (fields_map s) rs (heap_root s) (heap_map s) (heap_tree_cache s).

Definition with_heap (s : CellState) (m : list ((Z * Z) * FieldElement)) (r : digest8)
    (c : option CanonicalHeapTree8) : CellState :=
  mkState (fields s) (field_visibility s) (commitments s) (nonce s) (balance s) (proved_state s)
    (delegation_epoch s) (committed_height s) (swiss_table_root s) (refcount_table_root s)
    (fields_root s) (fields_map s) (system_roots s) r m c.

(** ** Balance verbs *)

Definition credit_balance (s : CellState) (amount : Z) : CellState * bool :=
  match i64_try_from amount with
  | None => (s, false)
  | Some amt =>
      match checked_add_i64 (balance s) amt with
      | Some new => (with_balance s new, true)
      | None => (s, false)
      end
  end.

Definition debit_balance (s : CellState) (amount : Z) : CellState * bool :=
  match i64_try_from amount with
  | None => (s, false)
  | Some amt =>
      if amt <=? balance s then (with_balance s (balance s - amt), true) else (s, false)
  end.

Definition well_debit_balance (s : CellState) (amount : Z) : CellState * bool :=
  match i64_try_from amount with
  | None => (s, false)
  | Some amt =>
      match checked_sub_i64 (balance s) amt with
      | Some new => (with_balance s new, true)
      | None => (s, false)
      end
  end.

Definition apply_balance_change (s : CellState) (delta : Z) : CellState * bool :=
  match checked_add_i64 (balance s) delta with
  | Some new_bal =>
      if (0 <=? delta) || (0 <=? new_bal) then (with_balance s new_bal, true) else (s, false)
  | None => (s, false)
  end.

Definition apply_balance_change_well (s : CellState) (delta : Z) : CellState * bool :=
  match checked_add_i64 (balance s) delta with
  | Some new_bal => (with_balance s new_bal, true)
  | None => (s, false)
  end.

(** ** Counters *)

Definition increment_nonce (s : CellState) : CellState * bool :=
  match checked_add_u64 (nonce s) 1 with
  | Some n => (with_nonce s n, true)
  | None => (s, false)
  end.

Definition bump_delegation_epoch (s : CellState) : CellState * bool :=
  match checked_add_u64 (delegation_epoch s) 1 with
  | Some e => (with_epoch s e, true)
  | None => (s, false)
  end.

(** ** Fields *)

Definition set_system_root (s : CellState) (index : nat) (value : FieldElement)
    : CellState * bool :=
  if (index <? N_SYSTEM_ROOTS)%nat
  then (with_system_roots s (<[index := value]> (system_roots s)), true)
  else (s, false).

Section Fields.
Context `{HB : Blake3}.

Definition compute_commitment (value : FieldElement) (n : Z) : bytes :=
  blake3_hash (value ++ le_bytes 8 n).

Definition set_field_visibility (s : CellState) (index : nat) (visibility : FieldVisibility)
    (commitment_nonce : Z) : CellState * bool :=
  if (STATE_SLOTS <=? index)%nat then (s, false)
  else
    let c := match visibility with
             | Public => None
             | _ => Some (compute_commitment (nth index (fields s) FIELD_ZERO) commitment_nonce)
             end in
    (with_fields s (fields s) (<[index := visibility]> (field_visibility s))
       (<[index := c]> (commitments s)), true).

End Fields.

Definition get_field_public (s : CellState) (index : nat) : option PublicFieldView :=
  if (STATE_SLOTS <=? index)%nat then None
  else match nth index (field_visibility s) Public with
       | Public => Some (ViewRevealed (nth index (fields s) FIELD_ZERO))
       | _ => match nth index (commitments s) None with
              | Some hash => Some (ViewCommitted hash)
              | None => Some (ViewCommitted zero32)
              end
       end.

Definition get_field (s : CellState) (index : nat) : option FieldElement := fields s !! index.

Definition set_field (s : CellState) (index : nat) (value : FieldElement) : CellState * bool :=
  if (index <? STATE_SLOTS)%nat
  then (with_fields s (<[index := value]> (fields s)) (field_visibility s)
          (match nth index (commitments s) None with
           | Some _ => <[index := None]> (commitments s)
           | None => commitments s
           end), true)
  else (s, false).

(** [key as usize]: the target's pointer width decides how much of the [u64]
    key survives. *)
Definition as_usize (usize_bits : Z) (key : Z) : Z := key mod 2 ^ usize_bits.

Definition get_field_ext (usize_bits : Z) (s : CellState) (key : Z) : option FieldElement :=
  let k := as_usize usize_bits key in
  if k <? Z.of_nat STATE_SLOTS then Some (nth (Z.to_nat k) (fields s) FIELD_ZERO)
  else bt_get id key (fields_map s).

Definition set_field_ext (usize_bits : Z) (s : CellState) (key : Z) (value : FieldElement)
    : option (CellState * bool) :=
  let k := as_usize usize_bits key in
  if k <? Z.of_nat STATE_SLOTS then Some (set_field s (Z.to_nat k) value)
  else
    let m := bt_insert id key value (fields_map s) in
    r ← compute_canonical_fields_root_8 m;
    Some (with_fields_map s m r, true).

Definition reseal_fields_root (s : CellState) : option CellState :=
  r ← compute_canonical_fields_root_8 (fields_map s);
  Some (with_fields_map s (fields_map s) r).

Definition fields_root_membership (s : CellState) (key : Z) : option FieldElement :=
  v ← bt_get id key (fields_map s);
  r ← compute_canonical_fields_root_8 (fields_map s);
  if digest_eqb r (fields_root s) then Some v else None.

(** ** Heap *)

Definition get_heap (s : CellState) (coll key : Z) : option FieldElement :=
  bt_get heap_key_ord (coll, key) (heap_map s).

Definition rebuild_heap_cache (s : CellState) : option CellState :=
  tree ← heap_tree_new (heap_leaves (heap_map s)) HEAP_TREE_DEPTH;
  Some (with_heap s (heap_map s) (root8 tree) (Some tree)).

Definition set_heap (s : CellState) (coll key : Z) (value : FieldElement)
    : option (CellState * bool) :=
  let existed := bt_contains heap_key_ord (coll, key) (heap_map s) in
  let s1 := with_heap s (bt_insert heap_key_ord (coll, key) value (heap_map s))
              (heap_root s) (heap_tree_cache s) in
  let rebuilt := s2 ← rebuild_heap_cache s1; Some (s2, true) in
  if existed then
    let addr := heap_addr (bb_new coll) (bb_new key) in
    let vfelt := fold_bytes32 value in
    match heap_tree_cache s1 with
    | Some tree =>
        match apply_value_update tree addr vfelt with
        | Some (tree', root) => Some (with_heap s1 (heap_map s1) root (Some tree'), true)
        | None => rebuilt
        end
    | None => rebuilt
    end
  else rebuilt.

Definition remove_heap (s : CellState) (coll key : Z) : option (CellState * bool) :=
  let removed := bt_contains heap_key_ord (coll, key) (heap_map s) in
  let s1 := with_heap s (bt_remove heap_key_ord (coll, key) (heap_map s))
              (heap_root s) (heap_tree_cache s) in
  if removed then s2 ← rebuild_heap_cache s1; Some (s2, true)
  else Some (s1, false).

Definition reseal_heap_root (s : CellState) : option CellState := rebuild_heap_cache s.

Definition heap_root_membership (s : CellState) (coll key : Z) : option FieldElement :=
  v ← get_heap s coll key;
  r ← compute_canonical_heap_root_8 (heap_map s);
  if digest_eqb r (heap_root s) then Some v else None.

(** ** The boundary encoding of a signed balance *)

Definition balance_biased (b : Z) : Z := Z.lxor (as_u64 b) (Z.shiftl 1 63).

Definition balance_from_biased (biased : Z) : Z := as_i64 (Z.lxor biased (Z.shiftl 1 63)).

Definition balance_limbs (b : Z) : Z * Z :=
  let b := balance_biased b in (Z.land b 0xFFFFFFFF, Z.shiftr b 32).

Definition encode_balance_le (b : Z) : bytes := le_bytes 8 (balance_biased b).

Definition decode_balance_le (bs : bytes) : Z := balance_from_biased (of_le_bytes bs).

Lemma field_key_hash_alias k :
  k mod 2 ^ 32 + BABYBEAR_P < 2 ^ 32 -> field_key_hash (k + BABYBEAR_P) = field_key_hash k.
Proof.
  intros Hk. pose proof (Z.mod_pos_bound k (2 ^ 32) ltac:(lia)) as Hm.
  assert (Hp : 0 < BABYBEAR_P) by (rewrite P_val; lia).
  pose proof (Z.div_mod k (2 ^ 32) ltac:(lia)) as Hd.
  unfold field_key_hash. rewrite !Z.shiftr_div_pow2 by lia.
  assert (Hq : (k + BABYBEAR_P) / 2 ^ 32 = k / 2 ^ 32).
  { symmetry. apply (Z.div_unique _ _ _ (k mod 2 ^ 32 + BABYBEAR_P)); lia. }
  assert (Hr : (k + BABYBEAR_P) mod 2 ^ 32 = k mod 2 ^ 32 + BABYBEAR_P).
  { symmetry. apply (Z.mod_unique _ _ (k / 2 ^ 32)); lia. }
  rewrite Hq, Hr. do 3 f_equal. unfold bb_new.
  by rewrite <-(Z_mod_plus_full (k mod 2 ^ 32) 1), Z.mul_1_l.
Qed.

#[global] Opaque field_key_hash fold_bytes32.

(** ** Balance *)

Inductive bal_op : Type :=
| BCredit (amount : Z)
| BDebit (amount : Z)
| BWellDebit (amount : Z)
| BChange (delta : Z)
| BChangeWell (delta : Z).

Definition run_bal (s : CellState) (op : bal_op) : CellState * bool :=
  match op with
  | BCredit a => credit_balance s a
  | BDebit a => debit_balance s a
  | BWellDebit a => well_debit_balance s a
  | BChange d => apply_balance_change s d
  | BChangeWell d => apply_balance_change_well s d
  end.

(** The specification: the signed change a verb asks for, the arguments its
    type admits, and when it is refused. *)
Definition bal_delta (op : bal_op) : Z :=
  match op with
  | BCredit a => a
  | BDebit a | BWellDebit a => - a
  | BChange d | BChangeWell d => d
  end.

Definition bal_arg_ok (op : bal_op) : Prop :=
  match op with
  | BCredit a | BDebit a | BWellDebit a => is_u64 a
  | BChange d | BChangeWell d => is_i64 d
  end.

Definition ordinary (op : bal_op) : Prop :=
  match op with BWellDebit _ | BChangeWell _ => False | _ => True end.

Definition admitted (b : Z) (op : bal_op) : Prop :=
  is_i64 (b + bal_delta op) /\ (match op with BCredit a | BDebit a | BWellDebit a => a <= i64_max | _ => True end) /\
  (match op with
   | BDebit _ => 0 <= b + bal_delta op
   | BChange d => 0 <= d \/ 0 <= b + d
   | _ => True
   end).

Lemma run_bal_spec s op :
  is_i64 (balance s) -> bal_arg_ok op ->
  (admitted (balance s) op /\ run_bal s op = (with_balance s (balance s + bal_delta op), true)) \/
  (~ admitted (balance s) op /\ run_bal s op = (s, false)).
Proof.
  intros Hb Ha. unfold admitted.
  destruct op as [a|a|a|d|d]; cbn [run_bal bal_delta bal_arg_ok] in *.
  1-3: unfold credit_balance, debit_balance, well_debit_balance;
    destruct (i64_try_from a) as [amt|] eqn:E;
    [apply i64_try_from_spec in E as [-> Hle]|
     right; split; [|done]; unfold i64_try_from in E; destruct (Z.leb_spec a i64_max); [done|lia]].
  - destruct (checked_add_i64 (balance s) a) as [n|] eqn:E.
    + apply checked_add_i64_spec in E as [-> ?]. by left.
    + apply checked_add_i64_None in E. right. split; [tauto|done].
  - destruct (Z.leb_spec a (balance s)).
    + left. replace (balance s + - a) with (balance s - a) by lia. split; [|done].
      unfold is_u64, is_i64, i64_min, i64_max in *. lia.
    + right. split; [lia|done].
  - destruct (checked_sub_i64 (balance s) a) as [n|] eqn:E.
    + apply checked_sub_i64_spec in E as [-> ?]. left.
      by replace (balance s + - a) with (balance s - a) by lia.
    + right. split; [|done]. unfold checked_sub_i64 in E.
      replace (balance s + - a) with (balance s - a) by lia. rewrite <-in_i64_spec.
      destruct (in_i64 _); [done|]. by intros [? _].
  - unfold apply_balance_change. destruct (checked_add_i64 (balance s) d) as [n|] eqn:E.
    + apply checked_add_i64_spec in E as [-> ?].
      destruct (Z.leb_spec 0 d), (Z.leb_spec 0 (balance s + d)); simpl;
        [left|left|left|right]; (split; [|done]); intuition lia.
    + apply checked_add_i64_None in E. right. split; [tauto|done].
  - unfold apply_balance_change_well. destruct (checked_add_i64 (balance s) d) as [n|] eqn:E.
    + apply checked_add_i64_spec in E as [-> ?]. by left.
    + apply checked_add_i64_None in E. right. split; [tauto|done].
Qed.

(** A run of verbs, failures included: each failed verb leaves the state. *)
Definition run_bals (s : CellState) (ops : list bal_op) : CellState :=
  foldl (fun s op => (run_bal s op).1) s ops.

(** ** The biased encoding *)

Lemma lxor_pow63 a : 0 <= a < 2 ^ 63 -> Z.lxor a (2 ^ 63) = a + 2 ^ 63.
Proof.
  intros Ha. symmetry. apply Z.add_nocarry_lxor. apply Z.bits_inj'. intros n Hn.
  rewrite Z.land_spec, Z.bits_0, Z.pow2_bits_eqb by lia.
  destruct (Z.eqb_spec 63 n) as [<-|]; [|by rewrite andb_false_r]. rewrite andb_true_r.
  destruct (decide (a = 0)) as [->|]; [apply Z.bits_0|].
  apply Z.bits_above_log2; [lia|]. apply Z.log2_lt_pow2; lia.
Qed.

Lemma balance_biased_add b : is_i64 b -> balance_biased b = b + 2 ^ 63.
Proof.
  unfold is_i64, i64_min, i64_max. intros Hb. unfold balance_biased, as_u64.
  rewrite Z.shiftl_1_l. destruct (Z.le_gt_cases 0 b).
  - rewrite Z.mod_small by lia. apply lxor_pow63. lia.
  - replace (b mod 2 ^ 64) with ((b + 2 ^ 63) + 2 ^ 63).
    + rewrite <-(lxor_pow63 (b + 2 ^ 63)), Z.lxor_assoc, Z.lxor_nilpotent, Z.lxor_0_r by lia. done.
    + rewrite <-(Z_mod_plus_full b 1), Z.mod_small; lia.
Qed.

Lemma balance_from_biased_sub x : is_u64 x -> balance_from_biased x = x - 2 ^ 63.
Proof.
  unfold is_u64, u64_max. intros Hx. unfold balance_from_biased, as_i64, i64_max.
  rewrite Z.shiftl_1_l. destruct (Z.lt_ge_cases x (2 ^ 63)).
  - rewrite lxor_pow63 by lia. rewrite (proj2 (Z.leb_gt _ _)) by lia. lia.
  - replace x with ((x - 2 ^ 63) + 2 ^ 63) at 1 by lia.
    replace x with ((x - 2 ^ 63) + 2 ^ 63) at 2 by lia.
    rewrite <-(lxor_pow63 (x - 2 ^ 63)), Z.lxor_assoc, Z.lxor_nilpotent, Z.lxor_0_r by lia.
    rewrite (proj2 (Z.leb_le _ _)) by lia. done.
Qed.

(** ** Heap coherence *)

Definition heap_addr_of (k : Z * Z) : Z := heap_addr (bb_new k.1) (bb_new k.2).

Lemma heap_leaf_addr e : hl_addr (heap_leaf e.1.1 e.1.2 e.2) = heap_addr_of (e : (Z * Z) * FieldElement).1.
Proof. done. Qed.

(** The addresses of the heap's keys do not collide, nor hit the sentinel. *)
Definition heap_addrs_distinct (m : list ((Z * Z) * FieldElement)) : Prop :=
  NoDup (heap_addr_of <$> m.*1) /\ SENTINEL_MIN ∉ heap_addr_of <$> m.*1.

(** The stored root is the root of the map, and the cache, when present, is
    the tree of the map. *)
Record heap_ok (s : CellState) : Prop := {
  heap_sorted : bt_ok heap_key_ord (heap_map s);
  heap_root_ok : compute_canonical_heap_root_8 (heap_map s) = Some (heap_root s);
  heap_cache_ok : forall t, heap_tree_cache s = Some t ->
    heap_tree_new (heap_leaves (heap_map s)) HEAP_TREE_DEPTH = Some t;
  heap_keys_u32 : Forall (fun k => is_u32 k.1 /\ is_u32 k.2) (heap_map s).*1;
}.

Lemma heap_addr_of_canonical k : canonical (heap_addr_of k).
Proof. apply heap_addr_canonical; auto with dregg. Qed.

Lemma heap_leaves_canonical m : Forall (fun l => canonical (hl_addr l)) (heap_leaves m).
Proof.
  apply Forall_forall. intros l (e & -> & _)%list_elem_of_fmap. apply heap_addr_of_canonical.
Qed.

Lemma rebuild_ok s s' :
  bt_ok heap_key_ord (heap_map s) -> Forall (fun k => is_u32 k.1 /\ is_u32 k.2) (heap_map s).*1 ->
  rebuild_heap_cache s = Some s' -> heap_ok s' /\ heap_map s' = heap_map s.
Proof.
  intros Hs Hk. unfold rebuild_heap_cache.
  destruct (heap_tree_new _ _) as [t|] eqn:Et; [|done]. intros [= <-]. split; [|done].
  split; cbn [heap_map heap_root heap_tree_cache with_heap].
  - done.
  - by apply root8_circuit.
  - by intros ? [= <-].
  - done.
Qed.

Lemma heap_key_ord_inj a b :
  is_u32 a.1 -> is_u32 a.2 -> is_u32 b.1 -> is_u32 b.2 ->
  heap_key_ord a = heap_key_ord b -> a = b.
Proof.
  destruct a as [a1 a2], b as [b1 b2]. unfold heap_key_ord, is_u32, u32_max. simpl. intros.
  assert (a1 = b1) as -> by lia. assert (a2 = b2) as -> by lia. done.
Qed.

Lemma bt_insert_keys k v (m : list ((Z * Z) * FieldElement)) j :
  j ∈ (bt_insert heap_key_ord k v m).*1 -> j = k \/ j ∈ m.*1.
Proof.
  intros (e & -> & He)%list_elem_of_fmap.
  apply elem_of_bt_insert in He as [->|He]; [by left|right]. by apply list_elem_of_fmap_2.
Qed.

(** Overwriting the value of a present key rewrites one leaf. *)
Lemma heap_leaves_overwrite coll key v m :
  bt_ok heap_key_ord m -> heap_addrs_distinct m ->
  Forall (fun k => is_u32 k.1 /\ is_u32 k.2) m.*1 -> is_u32 coll -> is_u32 key ->
  bt_contains heap_key_ord (coll, key) m = true ->
  heap_leaves (bt_insert heap_key_ord (coll, key) v m) =
  map (update_leaf (heap_addr_of (coll, key)) (fold_bytes32 v)) (heap_leaves m) /\
  heap_addr_of (coll, key) ∈ hl_addr <$> heap_leaves m /\
  heap_addr_of (coll, key) <> SENTINEL_MIN.
Proof.
  intros Hs [Hd Hmin] Hu Hc Hk Hin.
  assert (Hpres : exists w, ((coll, key), w) ∈ m).
  { unfold bt_contains in Hin. destruct (bt_get _ _ m) as [w|] eqn:E; [|done].
    apply bt_get_elem in E as (k' & Ek & Hm). exists w.
    rewrite Forall_forall in Hu. assert (Hk' : k' ∈ m.*1) by (by apply (list_elem_of_fmap_2 fst) in Hm).
    destruct (Hu _ Hk'). apply heap_key_ord_inj in Ek as ->; done. }
  destruct Hpres as [w Hw].
  assert (Hkey : (coll, key) ∈ m.*1) by (by apply (list_elem_of_fmap_2 fst) in Hw).
  split_and!.
  - rewrite bt_insert_present by done.
    unfold heap_leaves. rewrite !map_map. apply map_ext_in. intros e He%list_elem_of_In.
    assert (He1 : e.1 ∈ m.*1) by (by apply list_elem_of_fmap_2).
    unfold update_leaf. rewrite heap_leaf_addr.
    destruct (Z.eqb_spec (heap_key_ord e.1) (heap_key_ord (coll, key))) as [E|E].
    + rewrite Forall_forall in Hu. destruct (Hu _ He1). apply heap_key_ord_inj in E; [|done..].
      rewrite E, Z.eqb_refl. destruct e as [[c k] x]. simpl in *. injection E as -> ->. done.
    + destruct (Z.eqb_spec (heap_addr_of e.1) (heap_addr_of (coll, key))) as [Ea|]; [|done].
      destruct E. f_equal. by apply (NoDup_keys_inj heap_addr_of m.*1).
  - apply list_elem_of_fmap. exists (heap_leaf coll key w). split; [done|].
    apply (list_elem_of_fmap_2 (fun e : (Z * Z) * FieldElement => heap_leaf e.1.1 e.1.2 e.2)) in Hw. exact Hw.
  - intros E. apply Hmin. rewrite <-E. by apply list_elem_of_fmap_2.
Qed.

Lemma heap_fits m :
  Z.of_nat (length m) < 65535 -> exists t, heap_tree_new (heap_leaves m) HEAP_TREE_DEPTH = Some t.
Proof.
  intros Hl. apply heap_tree_total. unfold heap_leaves. rewrite length_map.
  change (2 ^ HEAP_TREE_DEPTH)%nat with (Z.to_nat 65536). lia.
Qed.

Lemma get_after_insert coll key (v : FieldElement) m c k :
  is_u32 coll -> is_u32 key -> is_u32 c -> is_u32 k ->
  bt_get heap_key_ord (c, k) (bt_insert heap_key_ord (coll, key) v m) =
  if decide ((c, k) = (coll, key)) then Some v else bt_get heap_key_ord (c, k) m.
Proof.
  intros. rewrite bt_get_insert. destruct (Z.eqb_spec (heap_key_ord (c, k)) (heap_key_ord (coll, key))) as [E|E].
  - apply heap_key_ord_inj in E; [|done..]. by rewrite decide_True.
  - rewrite decide_False; [done|]. congruence.
Qed.

(** A write at a present key goes through the cached tree. *)
Lemma set_heap_incremental s coll key v t t' :
  heap_tree_cache s = Some t -> bt_contains heap_key_ord (coll, key) (heap_map s) = true ->
  apply_value_update t (heap_addr_of (coll, key)) (fold_bytes32 v) = Some (t', root8 t') ->
  set_heap s coll key v =
  Some (with_heap s (bt_insert heap_key_ord (coll, key) v (heap_map s)) (root8 t') (Some t'), true).
Proof.
  intros Hc Hin Hup. unfold set_heap. cbv zeta. rewrite Hin. cbn [heap_tree_cache with_heap].
  rewrite Hc. unfold heap_addr_of in Hup. cbn [fst snd] in Hup. by rewrite Hup.
Qed.

Lemma set_heap_coherent s coll key v :
  heap_ok s -> heap_addrs_distinct (heap_map s) -> is_u32 coll -> is_u32 key ->
  Z.of_nat (length (heap_map s)) < 65534 ->
  exists s', set_heap s coll key v = Some (s', true) /\ heap_ok s' /\
    heap_map s' = bt_insert heap_key_ord (coll, key) v (heap_map s).
Proof.
  intros [Hs Hr Hc Hu] Hd Hcu Hku Hlen.
  set (m := bt_insert heap_key_ord (coll, key) v (heap_map s)).
  set (s1 := with_heap s m (heap_root s) (heap_tree_cache s)).
  assert (Hm : bt_ok heap_key_ord m) by (by apply bt_insert_ok).
  assert (Hmu : Forall (fun k => is_u32 k.1 /\ is_u32 k.2) m.*1).
  { apply Forall_forall. intros j [->|Hj]%bt_insert_keys; [done|]. rewrite Forall_forall in Hu. by apply Hu. }
  assert (Hreb : exists s', (s2 ← rebuild_heap_cache s1; Some (s2, true)) = Some (s', true) /\
                  heap_ok s' /\ heap_map s' = m).
  { destruct (heap_fits m) as [t Ht]; [pose proof (bt_insert_length heap_key_ord (coll, key) v (heap_map s)) as Hle; fold m in Hle; lia|].
    destruct (rebuild_heap_cache s1) as [s2|] eqn:E.
    - exists s2. split; [done|]. by apply (rebuild_ok s1).
    - unfold rebuild_heap_cache, s1 in E. cbn [heap_map with_heap] in E. by rewrite Ht in E. }
  destruct (bt_contains heap_key_ord (coll, key) (heap_map s)) eqn:Ein;
    [|unfold set_heap; cbv zeta; rewrite Ein; exact Hreb].
  destruct (heap_tree_cache s) as [tree|] eqn:Ecache;
    [|unfold set_heap; cbv zeta; rewrite Ein; cbn [heap_tree_cache with_heap]; rewrite Ecache; exact Hreb].
  destruct (heap_leaves_overwrite coll key v (heap_map s) Hs Hd Hu Hcu Hku Ein) as (Hlv & Hina & Hne).
  destruct (apply_value_update_rebuild _ _ tree (Hc tree eq_refl) (heap_leaves_canonical _)
              (heap_addr_of (coll, key)) (fold_bytes32 v) Hne Hina) as (t' & Ht' & Hup).
  eexists. split; [by apply (set_heap_incremental s coll key v tree t')|].
  rewrite <-Hlv in Ht'. fold m in Ht'. split; [|done].
  split; cbn [heap_map heap_root heap_tree_cache with_heap]; [done| |by intros ? [= <-]|done].
  by apply root8_circuit.
Qed.

Lemma heap_membership_ok s coll key :
  heap_ok s -> heap_root_membership s coll key = get_heap s coll key.
Proof.
  intros [_ Hr _ _]. unfold heap_root_membership. destruct (get_heap s coll key); [|done].
  cbn [mbind option_bind]. rewrite Hr. cbn [mbind option_bind]. by rewrite digest_eqb_refl.
Qed.

Lemma remove_heap_coherent s coll key :
  heap_ok s -> Z.of_nat (length (heap_map s)) < 65535 ->
  exists s', remove_heap s coll key = Some (s', bt_contains heap_key_ord (coll, key) (heap_map s)) /\
    heap_ok s' /\ heap_map s' = bt_remove heap_key_ord (coll, key) (heap_map s).
Proof.
  intros Hok Hlen. pose proof Hok as [Hs Hr Hc Hu]. unfold remove_heap. cbv zeta.
  destruct (bt_contains heap_key_ord (coll, key) (heap_map s)) eqn:Ein.
  - set (m := bt_remove heap_key_ord (coll, key) (heap_map s)).
    set (s1 := with_heap s m (heap_root s) (heap_tree_cache s)).
    assert (Hmu : Forall (fun k => is_u32 k.1 /\ is_u32 k.2) m.*1).
    { rewrite Forall_forall in Hu |- *. intros j (e & -> & He)%list_elem_of_fmap.
      apply Hu. apply list_elem_of_fmap_2. by eapply elem_of_bt_remove. }
    destruct (heap_fits m) as [t Ht].
    { pose proof (bt_remove_length heap_key_ord (coll, key) (heap_map s)) as Hle. fold m in Hle. lia. }
    destruct (rebuild_heap_cache s1) as [s2|] eqn:E.
    + exists s2. split; [done|]. apply (rebuild_ok s1); [by apply bt_remove_ok|done|done].
    + unfold rebuild_heap_cache, s1 in E. cbn [heap_map with_heap] in E. by rewrite Ht in E.
  - rewrite bt_remove_absent by done. exists s. split; [by destruct s|]. done.
Qed.

(** ** The committed field map *)

Record fields_ok (s : CellState) : Prop := {
  fields_sorted : bt_ok id (fields_map s);
  fields_root_ok : compute_canonical_fields_root_8 (fields_map s) = Some (fields_root s);
}.

Lemma heap_root_total leaves :
  Z.of_nat (length leaves) < 65536 -> exists r, heap_root_8_circuit leaves = Some r.
Proof.
  intros Hl. destruct (heap_tree_total leaves HEAP_TREE_DEPTH) as [t Ht].
  - change (2 ^ HEAP_TREE_DEPTH)%nat with (Z.to_nat 65536). lia.
  - exists (root8 t). by apply root8_circuit.
Qed.

Lemma fields_root_total m :
  Z.of_nat (length m) < 65535 -> exists r, compute_canonical_fields_root_8 m = Some r.
Proof.
  intros Hl. apply heap_root_total. unfold fields_root_leaves.
  destruct (any _ _); rewrite ?length_app, length_map; simpl length; lia.
Qed.

Lemma set_field_ext_map w s key v :
  Z.of_nat STATE_SLOTS <= as_usize w key -> fields_ok s ->
  Z.of_nat (length (fields_map s)) < 65534 ->
  exists r, let s' := with_fields_map s (bt_insert id key v (fields_map s)) r in
    set_field_ext w s key v = Some (s', true) /\ fields_ok s'.
Proof.
  intros Hk [Hs Hr] Hl. unfold set_field_ext. rewrite (proj2 (Z.ltb_ge _ _)) by done.
  destruct (fields_root_total (bt_insert id key v (fields_map s))) as [r Er].
  { pose proof (bt_insert_length id key v (fields_map s)). lia. }
  exists r. cbv zeta. rewrite Er. split; [done|]. split; [by apply bt_insert_ok|done].
Qed.

Lemma fields_membership_ok s key :
  fields_ok s -> fields_root_membership s key = bt_get id key (fields_map s).
Proof.
  intros [_ Hr]. unfold fields_root_membership. destruct (bt_get id key (fields_map s)); [|done].
  cbn [mbind option_bind]. rewrite Hr. cbn [mbind option_bind]. by rewrite digest_eqb_refl.
Qed.

Lemma fields_leaves_alias k v1 v2 rest :
  field_key_hash (k + BABYBEAR_P) = field_key_hash k ->
  compute_canonical_fields_root_8 ((k, v1) :: (k + BABYBEAR_P, v2) :: rest) =
  compute_canonical_fields_root_8 ((k, v1) :: rest).
Proof.
  intros E. unfold compute_canonical_fields_root_8, fields_root_leaves. cbn [map fst snd].
  rewrite E. cbn [any existsb hl_addr heap_entry].
  destruct (bb_eqb (field_key_hash k) (field_key_hash REFUSAL_AUDIT_EXT_KEY)).
  - cbn [orb]. by apply heap_root_dup.
  - cbn [orb]. destruct (existsb _ _); cbn [app]; by apply heap_root_dup.
Qed.

(** ** Aliasing heap addresses *)

Lemma heap_addr_of_alias c k : heap_addr_of (c + BABYBEAR_P, k) = heap_addr_of (c, k).
Proof.
  unfold heap_addr_of. cbn [fst snd]. f_equal. unfold bb_new.
  by rewrite <-(Z_mod_plus_full c 1), Z.mul_1_l.
Qed.

(** ** Properties *)

(** C32: the signed-balance verbs.  Each verb is accepted exactly when its
    amount fits an [i64], the result does not overflow, and, for the ordinary
    debit verbs, the result is not below zero; accepted, it changes the balance
    by the requested amount and nothing else; refused, it changes nothing.  So
    no run of ordinary verbs, whatever their outcomes, overdraws a cell. *)
Theorem balance_verbs_exact s op ops :
  is_i64 (balance s) -> bal_arg_ok op -> Forall bal_arg_ok ops -> Forall ordinary ops ->
  ((run_bal s op).2 = true <-> admitted (balance s) op) /\
  (run_bal s op).1 = (if (run_bal s op).2 then with_balance s (balance s + bal_delta op) else s) /\
  (0 <= balance s -> 0 <= balance (run_bals s ops) <= i64_max).
Proof.
  intros Hb Ha Hargs Hord. split_and!.
  - destruct (run_bal_spec s op Hb Ha) as [[? ->]|[? ->]]; naive_solver.
  - destruct (run_bal_spec s op Hb Ha) as [[? ->]|[? ->]]; done.
  - revert s Hb; induction ops as [|o ops IH]; intros s Hb H0; simpl.
    + unfold is_i64 in Hb. lia.
    + apply Forall_cons in Hargs as [Ho Hargs]. apply Forall_cons in Hord as [Hoo Hord].
      destruct (run_bal_spec s o Hb Ho) as [[Had ->]|[_ ->]]; cbn [fst]; [|by apply IH].
      destruct Had as (Hi & _ & Hpos). apply IH; [done|done|exact Hi|]. cbn [balance with_balance].
      destruct o; simpl in *; unfold is_u64 in *; try lia; done.
Qed.

(** The boundary encoding of a balance keeps the order, as unsigned
    integers, and decodes to what was encoded; its two limbs are [u32]s that
    recompose it. *)
Theorem balance_encoding_order a b :
  is_i64 a -> is_i64 b ->
  (a < b <-> balance_biased a < balance_biased b) /\
  is_u64 (balance_biased a) /\
  balance_from_biased (balance_biased a) = a /\
  decode_balance_le (encode_balance_le a) = a /\
  (balance_limbs a).1 + 2 ^ 32 * (balance_limbs a).2 = balance_biased a /\
  is_u32 (balance_limbs a).1 /\ is_u32 (balance_limbs a).2.
Proof.
  intros Ha Hb. rewrite (balance_biased_add a), (balance_biased_add b) by done.
  assert (Hu : is_u64 (a + 2 ^ 63)) by (unfold is_u64, is_i64, u64_max, i64_min, i64_max in *; lia).
  split_and!.
  - lia.
  - done.
  - rewrite balance_from_biased_sub by done. lia.
  - unfold decode_balance_le, encode_balance_le. rewrite of_le_bytes_le_bytes, balance_biased_add by done.
    rewrite Z.mod_small by (unfold is_u64, u64_max in Hu; simpl; lia).
    rewrite balance_from_biased_sub by done. lia.
  - unfold balance_limbs. rewrite balance_biased_add by done. simpl fst; simpl snd.
    change 4294967295 with (Z.ones 32). rewrite Z.land_ones, Z.shiftr_div_pow2 by lia.
    pose proof (Z.div_mod (a + 2 ^ 63) (2 ^ 32) ltac:(lia)). lia.
  - unfold balance_limbs. rewrite balance_biased_add by done. simpl fst.
    change 4294967295 with (Z.ones 32). rewrite Z.land_ones by lia.
    pose proof (Z.mod_pos_bound (a + 2 ^ 63) (2 ^ 32) ltac:(lia)). unfold is_u32, u32_max. lia.
  - unfold balance_limbs. rewrite balance_biased_add by done. simpl snd.
    rewrite Z.shiftr_div_pow2 by lia. unfold is_u32, u32_max, is_u64, u64_max in *.
    split; [apply Z.div_pos; lia|].
    assert ((a + 2 ^ 63) / 2 ^ 32 < 2 ^ 32) by (apply Z.div_lt_upper_bound; lia). lia.
Qed.

(** A field that is not public is never revealed.  Its public view is the
    stored commitment or the stale sentinel, and does not depend on the value;
    after [set_field] it is the sentinel until the holder commits again, and
    committing with [set_field_visibility] publishes the hash of the value and
    the nonce. *)
Theorem nonpublic_field_not_revealed `{HB : Blake3} s i v vis n :
  (i < STATE_SLOTS)%nat -> length (field_visibility s) = STATE_SLOTS ->
  length (commitments s) = STATE_SLOTS -> length (fields s) = STATE_SLOTS ->
  nth i (field_visibility s) Public <> Public -> vis <> Public ->
  (exists h, get_field_public s i = Some (ViewCommitted h)) /\
  (forall fs, get_field_public (with_fields s fs (field_visibility s) (commitments s)) i =
              get_field_public s i) /\
  get_field_public (set_field s i v).1 i = Some (ViewCommitted zero32) /\
  get_field_public (set_field_visibility (set_field s i v).1 i vis n).1 i =
    Some (ViewCommitted (compute_commitment v n)).
Proof.
  intros Hi Hlv Hlc Hlf Hnp Hv.
  assert (Hlt : (STATE_SLOTS <=? i)%nat = false) by (apply Nat.leb_gt; lia).
  assert (Hlt' : (i <? STATE_SLOTS)%nat = true) by (apply Nat.ltb_lt; lia).
  assert (Hnth : forall {A} (l : list A) (x d : A), length l = STATE_SLOTS -> nth i (<[i := x]> l) d = x).
  { intros A l x d Hl. apply nth_lookup_Some. apply list_lookup_insert_eq. lia. }
  unfold get_field_public, set_field, set_field_visibility. rewrite Hlt, Hlt'. cbn [fst].
  split_and!.
  - destruct (nth i (field_visibility s) Public); [done|..]; destruct (nth i (commitments s) None); eauto.
  - intros fs. cbn [field_visibility commitments with_fields].
    by destruct (nth i (field_visibility s) Public).
  - cbn [field_visibility commitments with_fields].
    destruct (nth i (commitments s) None) eqn:E; [rewrite Hnth by done|rewrite E];
      by destruct (nth i (field_visibility s) Public).
  - cbn [field_visibility commitments fields with_fields]. rewrite !Hnth.
    + by destruct vis.
    + by destruct (nth i (commitments s) None); rewrite ?length_insert.
    + by rewrite ?length_insert.
    + by rewrite ?length_insert.
Qed.

(** An overflow key (at or above the sixteen slots) written on a 64-bit
    target changes nothing but the map and its root; the root is the root of
    the new map; the write is what every later read of the key returns, with
    its membership check, and every other key reads as before. *)
Theorem field_map_write s key v :
  fields_ok s -> length (fields s) = STATE_SLOTS ->
  Z.of_nat STATE_SLOTS <= key -> is_u64 key -> Z.of_nat (length (fields_map s)) < 65534 ->
  exists s', set_field_ext 64 s key v = Some (s', true) /\ fields_ok s' /\
    s' = with_fields_map s (fields_map s') (fields_root s') /\
    fields_root_membership s' key = Some v /\
    (forall j, is_u64 j ->
       get_field_ext 64 s' j = if decide (j = key) then Some v else get_field_ext 64 s j).
Proof.
  intros Hok Hlf Hk Hu Hl.
  assert (Hid : forall j, is_u64 j -> as_usize 64 j = j).
  { intros j Hj. unfold as_usize, is_u64, u64_max in *. apply Z.mod_small. lia. }
  destruct (set_field_ext_map 64 s key v) as (r & Hset & Hok'); [by rewrite Hid|done|done|].
  cbv zeta in Hset, Hok'. eexists. split; [exact Hset|]. split; [exact Hok'|]. split_and!.
  - done.
  - rewrite fields_membership_ok by done. cbn [fields_map with_fields_map].
    rewrite bt_get_insert. by rewrite Z.eqb_refl.
  - intros j Hj. unfold get_field_ext. rewrite Hid by done. cbn [fields fields_map with_fields_map].
    rewrite bt_get_insert. unfold id. destruct (decide (j = key)) as [->|Hne].
    + rewrite (proj2 (Z.ltb_ge _ _)) by done. by rewrite Z.eqb_refl.
    + by rewrite (proj2 (Z.eqb_neq j key)).
Qed.

(** Where [usize] has 32 bits, the reserved refusal-audit key [2^32] is cast to
    slot 0: writing it overwrites the first public field and leaves the
    committed map and root alone, and reading it returns the first field. *)
Theorem audit_key_aliases_slot_zero s v :
  set_field_ext 32 s REFUSAL_AUDIT_EXT_KEY v = Some (set_field s 0 v) /\
  fields_root (set_field s 0 v).1 = fields_root s /\
  fields_map (set_field s 0 v).1 = fields_map s /\
  get_field_ext 32 s REFUSAL_AUDIT_EXT_KEY = Some (nth 0 (fields s) FIELD_ZERO).
Proof. done. Qed.

(** Two keys [k] and [k + p] whose low limbs agree modulo the field
    modulus have one sort key, so the committed root does not bind the second
    entry: whatever its value, the root is the root without it, and the
    membership check still vouches for the value. *)
Theorem fields_root_misses_alias k v1 v2 rest s :
  k mod 2 ^ 32 + BABYBEAR_P < 2 ^ 32 ->
  let m := (k, v1) :: (k + BABYBEAR_P, v2) :: rest in
  compute_canonical_fields_root_8 m = compute_canonical_fields_root_8 ((k, v1) :: rest) /\
  (forall r, compute_canonical_fields_root_8 ((k, v1) :: rest) = Some r ->
     fields_root_membership (with_fields_map s m r) (k + BABYBEAR_P) = Some v2).
Proof.
  intros Hk m.
  assert (E : compute_canonical_fields_root_8 m = compute_canonical_fields_root_8 ((k, v1) :: rest))
    by (by apply fields_leaves_alias, field_key_hash_alias).
  split; [exact E|]. intros r Hr. unfold fields_root_membership. cbn [fields_map with_fields_map fields_root].
  rewrite E, Hr. unfold m. cbn [bt_get]. unfold id at 1 2. cbn beta.
  assert (BABYBEAR_P > 0) by (rewrite P_val; lia).
  rewrite (proj2 (Z.eqb_neq _ _)) by lia. unfold id. rewrite Z.eqb_refl.
  cbn [mbind option_bind]. by rewrite digest_eqb_refl.
Qed.

(** The heap stays coherent.  A write or a removal on a coherent heap
    succeeds and leaves a coherent heap, whether it took the incremental path
    or a rebuild: the stored root is the root of the map, and the cache is the
    tree of the map.  A read returns the last value written at its key, none
    after a removal, and the membership check agrees with the read. *)
Theorem heap_writes_coherent s coll key v :
  heap_ok s -> heap_addrs_distinct (heap_map s) -> is_u32 coll -> is_u32 key ->
  Z.of_nat (length (heap_map s)) < 65534 ->
  exists s1 s2 b, set_heap s coll key v = Some (s1, true) /\ remove_heap s coll key = Some (s2, b) /\
    heap_ok s1 /\ heap_ok s2 /\ (b = true <-> get_heap s coll key <> None) /\
    (forall c k, is_u32 c -> is_u32 k ->
       heap_root_membership s1 c k =
         (if decide ((c, k) = (coll, key)) then Some v else get_heap s c k) /\
       heap_root_membership s2 c k =
         (if decide ((c, k) = (coll, key)) then None else get_heap s c k)).
Proof.
  intros Hok Hd Hc Hk Hl.
  destruct (set_heap_coherent s coll key v Hok Hd Hc Hk Hl) as (s1 & E1 & Hok1 & Hm1).
  destruct (remove_heap_coherent s coll key Hok) as (s2 & E2 & Hok2 & Hm2); [lia|].
  exists s1, s2. eexists. split_and!; [done|done|done|done| |].
  - unfold bt_contains, get_heap. by destruct (bt_get _ _ _); naive_solver.
  - intros c k Hcu Hku. rewrite !heap_membership_ok by done. unfold get_heap. rewrite Hm1, Hm2.
    split; [by apply get_after_insert|]. rewrite bt_get_remove.
    destruct (Z.eqb_spec (heap_key_ord (c, k)) (heap_key_ord (coll, key))) as [E|E].
    + apply heap_key_ord_inj in E; [|done..]. by rewrite decide_True.
    + rewrite decide_False; [done|]. congruence.
Qed.

(** Collections [c] and [c + p] have one heap address, which breaks the
    coherence of the writes.  Starting from the coherent heap holding both, an
    overwrite of the second takes the incremental path and stores the root of
    a heap whose first entry has the new value, while the root of the map the
    cell holds is still the root with the old one. *)
Theorem heap_alias_desynchronises s c k v1 v2 v3 :
  is_u32 c -> is_u32 (c + BABYBEAR_P) -> is_u32 k ->
  heap_map s = [((c, k), v1); ((c + BABYBEAR_P, k), v2)] ->
  heap_addr_of (c, k) <> SENTINEL_MIN ->
  exists s0 s', reseal_heap_root s = Some s0 /\ heap_ok s0 /\
    set_heap s0 (c + BABYBEAR_P) k v3 = Some (s', true) /\
    get_heap s' c k = Some v1 /\
    Some (heap_root s') = compute_canonical_heap_root_8 [((c, k), v3)] /\
    compute_canonical_heap_root_8 (heap_map s') = compute_canonical_heap_root_8 [((c, k), v1)].
Proof.
  intros Hc HcP Hk Hm Hne. assert (Hp : BABYBEAR_P > 0) by (rewrite P_val; lia).
  destruct (heap_fits (heap_map s)) as [t Ht]; [rewrite Hm; simpl length; lia|].
  assert (Hlt : heap_key_ord (c, k) < heap_key_ord (c + BABYBEAR_P, k)) by (unfold heap_key_ord; simpl; lia).
  exists (with_heap s (heap_map s) (root8 t) (Some t)).
  assert (Hre : reseal_heap_root s = Some (with_heap s (heap_map s) (root8 t) (Some t))).
  { unfold reseal_heap_root, rebuild_heap_cache. by rewrite Ht. }
  destruct (rebuild_ok s (with_heap s (heap_map s) (root8 t) (Some t))) as [Hok _]; [| |exact Hre|].
  { rewrite Hm. repeat constructor. exact Hlt. }
  { rewrite Hm. simpl. by apply Forall_cons; split; [|apply Forall_singleton]. }
  destruct (apply_value_update_rebuild _ _ t Ht (heap_leaves_canonical _)
              (heap_addr_of (c + BABYBEAR_P, k)) (fold_bytes32 v3)) as (t' & Ht' & Hup).
  { by rewrite heap_addr_of_alias. }
  { rewrite Hm. right. left. }
  assert (Hset : set_heap (with_heap s (heap_map s) (root8 t) (Some t)) (c + BABYBEAR_P) k v3 =
    Some (with_heap s [((c, k), v1); ((c + BABYBEAR_P, k), v3)] (root8 t') (Some t'), true)).
  { rewrite (set_heap_incremental _ _ _ _ t t'); [|done| |exact Hup];
      cbn [heap_map with_heap]; rewrite Hm; unfold bt_contains; cbn [bt_get bt_insert];
      rewrite (proj2 (Z.eqb_neq _ _)) by lia.
    - by rewrite (proj2 (Z.ltb_ge _ _)), Z.ltb_irrefl, Z.eqb_refl by lia.
    - by rewrite Z.eqb_refl. }
  eexists. split; [exact Hre|]. split; [exact Hok|]. split; [exact Hset|]. split_and!.
  - unfold get_heap. cbn [heap_map with_heap bt_get]. by rewrite Z.eqb_refl.
  - cbn [heap_root with_heap]. rewrite <-(root8_circuit _ _ Ht'), Hm.
    unfold compute_canonical_heap_root_8, heap_leaves. cbn [map fst snd].
    unfold update_leaf. cbn [hl_addr heap_leaf heap_entry].
    change (heap_addr (bb_new c) (bb_new k)) with (heap_addr_of (c, k)).
    change (heap_addr (bb_new (c + BABYBEAR_P)) (bb_new k)) with (heap_addr_of (c + BABYBEAR_P, k)).
    rewrite heap_addr_of_alias, Z.eqb_refl. apply heap_root_dup. symmetry. apply heap_addr_of_alias.
  - cbn [heap_map with_heap]. unfold compute_canonical_heap_root_8, heap_leaves. cbn [map fst snd].
    apply heap_root_dup. symmetry. apply heap_addr_of_alias.
Qed.

(** ** Witnesses *)

Definition sample_state : CellState := state_new_at 100 CAP_ZERO8 CAP_ZERO8.

Lemma balance_verbs_exact_witness :
  (run_bal sample_state (BDebit 30)).1 = with_balance sample_state 70 /\
  0 <= balance (run_bals sample_state [BDebit 30; BDebit 80; BCredit 5]) <= i64_max.
Proof.
  destruct (balance_verbs_exact sample_state (BDebit 30) [BDebit 30; BDebit 80; BCredit 5])
    as (_ & H1 & H2).
  - by unfold is_i64.
  - by unfold bal_arg_ok, is_u64.
  - by repeat (apply Forall_cons; split); unfold bal_arg_ok, is_u64.
  - by repeat (apply Forall_cons; split).
  - split; [exact H1|apply H2; simpl; lia].
Defined.

Lemma balance_encoding_order_witness :
  balance_biased (-5) < balance_biased 3 /\ decode_balance_le (encode_balance_le (-5)) = -5.
Proof.
  destruct (balance_encoding_order (-5) 3) as (H1 & _ & _ & H2 & _);
    [by unfold is_i64|by unfold is_i64|].
  split; [apply H1; lia|exact H2].
Defined.

Lemma field_map_write_witness :
  exists s s', set_field_ext 64 s 77 [1] = Some (s', true) /\ fields_root_membership s' 77 = Some [1].
Proof.
  destruct (fields_root_total []) as [r Hr]; [simpl length; lia|].
  destruct (field_map_write (with_fields_map sample_state [] r) 77 [1]) as (s' & H1 & _ & _ & H2 & _).
  - split; [constructor|exact Hr].
  - reflexivity.
  - unfold STATE_SLOTS. lia.
  - unfold is_u64, u64_max; lia.
  - simpl length. lia.
  - exists (with_fields_map sample_state [] r), s'. split; [exact H1|exact H2].
Defined.

Lemma fields_root_misses_alias_witness :
  compute_canonical_fields_root_8 [(16, [1]); (16 + BABYBEAR_P, [2])] =
  compute_canonical_fields_root_8 [(16, [1])].
Proof.
  destruct (fields_root_misses_alias 16 [1] [2] [] sample_state) as [H _]; [|exact H].
  rewrite P_val. done.
Defined.

Lemma heap_addr_of_min_ne : heap_addr_of (7, 3) <> SENTINEL_MIN.
Proof. vm_compute. discriminate. Qed.

Lemma heap_writes_coherent_witness :
  exists s s', set_heap s 7 3 [9] = Some (s', true) /\ heap_root_membership s' 7 3 = Some [9].
Proof.
  destruct (heap_fits [((7, 3), [1])]) as [t Ht]; [simpl length; lia|].
  set (s := with_heap sample_state [((7, 3), [1])] (root8 t) (Some t)).
  destruct (heap_writes_coherent s 7 3 [9]) as (s1 & s2 & b & H1 & _ & _ & _ & _ & H2).
  - split.
    + repeat constructor.
    + apply root8_circuit. exact Ht.
    + intros ? [= <-]. exact Ht.
    + apply Forall_singleton. unfold is_u32, u32_max. simpl. lia.
  - split; [apply NoDup_singleton|]. apply not_elem_of_cons. split; [|apply not_elem_of_nil].
    intros E. apply heap_addr_of_min_ne. symmetry. exact E.
  - unfold is_u32, u32_max; lia.
  - unfold is_u32, u32_max; lia.
  - simpl length. lia.
  - exists s, s1. split; [exact H1|]. destruct (H2 7 3) as [H _]; [unfold is_u32, u32_max; lia|unfold is_u32, u32_max; lia|].
    exact H.
Defined.

Lemma heap_alias_desynchronises_witness :
  exists s0 s', set_heap s0 (7 + BABYBEAR_P) 3 [9] = Some (s', true) /\
    get_heap s' 7 3 = Some [1] /\ Some (heap_root s') = compute_canonical_heap_root_8 [((7, 3), [9])].
Proof.
  destruct (heap_alias_desynchronises
              (with_heap sample_state [((7, 3), [1]); ((7 + BABYBEAR_P, 3), [2])] CAP_ZERO8 None)
              7 3 [1] [2] [9]) as (s0 & s' & _ & _ & H1 & H2 & H3 & _).
  - unfold is_u32, u32_max; lia.
  - rewrite P_val. unfold is_u32, u32_max; lia.
  - unfold is_u32, u32_max; lia.
  - reflexivity.
  - apply heap_addr_of_min_ne.
  - exists s0, s'. split; [exact H1|]. split; [exact H2|exact H3].
Defined.

#[local] Existing Instance model_blake3.

Lemma nonpublic_field_not_revealed_witness :
  get_field_public
    (set_field (set_field_visibility sample_state 2 Committed 11).1 2 [5]).1 2 =
  Some (ViewCommitted zero32).
Proof.
  destruct (nonpublic_field_not_revealed (set_field_visibility sample_state 2 Committed 11).1
              2 [5] Committed 12) as (_ & _ & H & _).
  - unfold STATE_SLOTS. lia.
  - reflexivity.
  - reflexivity.
  - reflexivity.
  - discriminate.
  - discriminate.
  - exact H.
Defined.
