(* ===== verification/Permissions.v ===== *)
(** * Authorization requirements and per-action permissions

    Models [cell/src/permissions.rs]: the [AuthRequired] lattice, the eight
    per-action slots of [Permissions] and the stock permission tables.  The
    order [is_narrower_or_equal] that every attenuation check of the kernel
    uses is proved to be exactly inclusion of the credentials a requirement
    accepts. *)

From stdpp Require Import base decidable option list gmap strings.
From Stdlib Require Import ZArith Lia.
From S2P Require Import Prelude.

(** ** Data *)

Inductive AuthRequired : Type :=
| AR_None
| AR_Signature
| AR_Proof
| AR_Either
| AR_Impossible
| AR_Custom (vk_hash : bytes).

Inductive AuthKind : Type := AK_Signature | AK_Proof.

Inductive Action : Type :=
| Action_Send | Action_Receive | Action_SetState | Action_SetPermissions
| Action_SetVerificationKey | Action_IncrementNonce | Action_Delegate
| Action_Access.

#[global] Instance AuthRequired_eq_dec : EqDecision AuthRequired.
Proof. solve_decision. Defined.
#[global] Instance AuthKind_eq_dec : EqDecision AuthKind.
Proof. solve_decision. Defined.
#[global] Instance Action_eq_dec : EqDecision Action.
Proof. solve_decision. Defined.

(** ** [AuthRequired] *)

Definition is_satisfied_by (self : AuthRequired) (provided : AuthKind) : bool :=
  match self with
  | AR_None => true
  | AR_Signature => match provided with AK_Signature => true | AK_Proof => false end
  | AR_Proof => match provided with AK_Proof => true | AK_Signature => false end
  | AR_Either => match provided with AK_Signature | AK_Proof => true end
  | AR_Impossible => false
  | AR_Custom _ => false
  end.

(** The arms are tried in the source's order: the first that matches decides. *)
Definition is_narrower_or_equal (self other : AuthRequired) : bool :=
  match self, other with
  | AR_Impossible, _ => true
  | _, AR_Impossible => false
  | _, AR_None => true
  | AR_None, _ => false
  | AR_Proof, AR_Either => true
  | AR_Signature, AR_Either => true
  | AR_Custom a, AR_Custom b => bool_decide (a = b)
  | AR_Custom _, _ | _, AR_Custom _ => false
  | a, b => bool_decide (a = b)
  end.

(** [capability.rs] names the same check [is_attenuation]. *)
Definition is_attenuation (held granted : AuthRequired) : bool :=
  is_narrower_or_equal granted held.

(** ** [Permissions] *)

Record Permissions : Type := mkPermissions {
  send : AuthRequired;
  receive : AuthRequired;
  set_state : AuthRequired;
  set_permissions : AuthRequired;
  set_verification_key : AuthRequired;
  increment_nonce_perm : AuthRequired;
  delegate_perm : AuthRequired;
  access : AuthRequired;
}.

#[global] Instance Permissions_eq_dec : EqDecision Permissions.
Proof. solve_decision. Defined.

Definition default_user : Permissions := {|
  send := AR_Signature;
  receive := AR_None;
  set_state := AR_Signature;
  set_permissions := AR_Signature;
  set_verification_key := AR_Signature;
  increment_nonce_perm := AR_Signature;
  delegate_perm := AR_Signature;
  access := AR_None;
|}.

Definition sovereign_default : Permissions := {|
  send := AR_Signature;
  receive := AR_None;
  set_state := AR_Signature;
  set_permissions := AR_Signature;
  set_verification_key := AR_Proof;
  increment_nonce_perm := AR_Signature;
  delegate_perm := AR_Signature;
  access := AR_None;
|}.

Definition zkapp : Permissions := {|
  send := AR_Proof;
  receive := AR_None;
  set_state := AR_Proof;
  set_permissions := AR_Proof;
  set_verification_key := AR_Proof;
  increment_nonce_perm := AR_Proof;
  delegate_perm := AR_Proof;
  access := AR_Proof;
|}.

Definition frozen : Permissions := {|
  send := AR_Impossible;
  receive := AR_Impossible;
  set_state := AR_Impossible;
  set_permissions := AR_Impossible;
  set_verification_key := AR_Impossible;
  increment_nonce_perm := AR_Impossible;
  delegate_perm := AR_Impossible;
  access := AR_Impossible;
|}.

Definition enveloped_worker (owner_vk_hash : bytes) : Permissions := {|
  send := AR_Signature;
  receive := AR_None;
  set_state := AR_Signature;
  set_permissions := AR_Custom owner_vk_hash;
  set_verification_key := AR_Custom owner_vk_hash;
  increment_nonce_perm := AR_Signature;
  delegate_perm := AR_Custom owner_vk_hash;
  access := AR_None;
|}.

Definition for_action (self : Permissions) (action : Action) : AuthRequired :=
  match action with
  | Action_Send => send self
  | Action_Receive => receive self
  | Action_SetState => set_state self
  | Action_SetPermissions => set_permissions self
  | Action_SetVerificationKey => set_verification_key self
  | Action_IncrementNonce => increment_nonce_perm self
  | Action_Delegate => delegate_perm self
  | Action_Access => access self
  end.

Definition check (self : Permissions) (action : Action) (auth : AuthKind) : bool :=
  is_satisfied_by (for_action self action) auth.

(** ** The specification: a requirement is a set of credentials

    A turn presents a signature, a proof, or a custom predicate witness bound
    to a verification key; [accepts] is the set a requirement lets through.
    [None] lets everything through, [Custom] only its own key. *)

Inductive credential : Type :=
| ByKind (k : AuthKind)
| ByCustom (vk_hash : bytes).

Definition accepts (r : AuthRequired) (c : credential) : Prop :=
  match r, c with
  | AR_Custom v, ByCustom w => v = w
  | AR_None, ByCustom _ => True
  | _, ByCustom _ => False
  | _, ByKind k => is_satisfied_by r k = true
  end.

Lemma is_narrower_or_equal_sound a b c :
  is_narrower_or_equal a b = true -> accepts a c -> accepts b c.
Proof.
  destruct a, b, c as [[]|]; simpl; try done.
  all: intros H%bool_decide_eq_true; congruence.
Qed.

Lemma is_narrower_or_equal_refl a : is_narrower_or_equal a a = true.
Proof. destruct a; simpl; rewrite ?bool_decide_eq_true; done. Qed.

Lemma is_narrower_or_equal_trans a b c :
  is_narrower_or_equal a b = true -> is_narrower_or_equal b c = true ->
  is_narrower_or_equal a c = true.
Proof.
  destruct a, b, c; simpl; try done; rewrite ?bool_decide_eq_true; congruence.
Qed.

Lemma is_narrower_or_equal_antisym a b :
  is_narrower_or_equal a b = true -> is_narrower_or_equal b a = true -> a = b.
Proof.
  destruct a, b; simpl; try done; rewrite ?bool_decide_eq_true; congruence.
Qed.

#[export] Hint Resolve is_narrower_or_equal_refl is_narrower_or_equal_trans
  is_narrower_or_equal_sound : dregg.

(** The accepted credentials determine the order: a requirement that is not
    narrower accepts a credential the other refuses. *)
Lemma is_narrower_or_equal_complete a b :
  (forall c, accepts a c -> accepts b c) -> is_narrower_or_equal a b = true.
Proof.
  intros H.
  pose proof (H (ByKind AK_Signature)) as Hs. pose proof (H (ByKind AK_Proof)) as Hp.
  destruct a as [| | | | |v], b as [| | | | |w]; simpl in *;
    rewrite ?bool_decide_eq_true; try done; try tauto.
  - pose proof (H (ByCustom [])). simpl in *. tauto.
  - pose proof (H (ByCustom v)). simpl in *. tauto.
  - pose proof (H (ByCustom v)). simpl in *. tauto.
  - pose proof (H (ByCustom v)). simpl in *. tauto.
  - pose proof (H (ByCustom v)). simpl in *. tauto.
  - pose proof (H (ByCustom v) eq_refl) as Hv. simpl in Hv. by subst w.
Qed.

(** ** Properties *)

(** [AuthRequired::is_narrower_or_equal] is exactly inclusion of accepted
    credentials: [a] is narrower than or equal to [b] if and only if every
    credential [a] accepts is accepted by [b].  So a check with it can neither
    let authority widen nor refuse a genuine narrowing, different [Custom]
    keys included. *)
Theorem narrower_iff_accepts_subset a b :
  is_narrower_or_equal a b = true <-> (forall c, accepts a c -> accepts b c).
Proof.
  split; [|apply is_narrower_or_equal_complete].
  intros H c. by apply is_narrower_or_equal_sound.
Qed.

(** The owner-signed envelope.  Whatever signature or proof a host
    presents, [enveloped_worker] lets it send, write state and bump the nonce
    with a signature, receive and access freely, and nothing else: the three
    authority-widening actions are closed to every [AuthKind]. *)
Theorem enveloped_worker_gate vk act auth :
  check (enveloped_worker vk) act auth = true <->
  (act ∈ [Action_Receive; Action_Access]) \/
  (act ∈ [Action_Send; Action_SetState; Action_IncrementNonce] /\ auth = AK_Signature).
Proof.
  rewrite !elem_of_cons, !elem_of_nil.
  destruct act, auth; unfold check; simpl; split; intros; naive_solver.
Qed.
