(* ===== verification/Facet.v ===== *)
(** * Faceted capabilities

    Models [cell/src/facet.rs]: the effect-kind bit mask a capability carries,
    the mask checks, and the extended facets whose constraints bound amounts,
    targets, rates and budgets. *)

From stdpp Require Import base decidable option list gmap strings.
From Stdlib Require Import ZArith Lia.
From S2P Require Import Prelude.

Open Scope Z_scope.

(** ** Effect kind bits ([EffectMask = u32]) *)

Definition EFFECT_SET_FIELD : Z := Z.shiftl 1 0.
Definition EFFECT_TRANSFER : Z := Z.shiftl 1 1.
Definition EFFECT_GRANT_CAPABILITY : Z := Z.shiftl 1 2.
Definition EFFECT_REVOKE_CAPABILITY : Z := Z.shiftl 1 3.
Definition EFFECT_EMIT_EVENT : Z := Z.shiftl 1 4.
Definition EFFECT_INCREMENT_NONCE : Z := Z.shiftl 1 5.
Definition EFFECT_CREATE_CELL : Z := Z.shiftl 1 6.
Definition EFFECT_SET_PERMISSIONS : Z := Z.shiftl 1 7.
Definition EFFECT_SET_VERIFICATION_KEY : Z := Z.shiftl 1 8.
Definition EFFECT_NOTE_SPEND : Z := Z.shiftl 1 9.
Definition EFFECT_NOTE_CREATE : Z := Z.shiftl 1 10.
Definition EFFECT_SEAL_OPS : Z := Z.shiftl 1 11.
Definition EFFECT_BRIDGE_OPS : Z := Z.shiftl 1 12.
Definition EFFECT_INTRODUCE : Z := Z.shiftl 1 13.
Definition EFFECT_OBLIGATION_OPS : Z := Z.shiftl 1 14.
Definition EFFECT_ESCROW_OPS : Z := Z.shiftl 1 15.
Definition EFFECT_DELEGATION_OPS : Z := Z.shiftl 1 16.
Definition EFFECT_SOVEREIGN_OPS : Z := Z.shiftl 1 17.
Definition EFFECT_QUEUE_OPS : Z := Z.shiftl 1 18.
Definition EFFECT_CAPTP_OPS : Z := Z.shiftl 1 19.
Definition EFFECT_REFUSAL : Z := Z.shiftl 1 20.
Definition EFFECT_LIFECYCLE_OPS : Z := Z.shiftl 1 21.
Definition EFFECT_BURN : Z := Z.shiftl 1 22.
Definition EFFECT_ATTENUATE_CAPABILITY : Z := Z.shiftl 1 23.
Definition EFFECT_SET_PROGRAM : Z := Z.shiftl 1 24.
Definition EFFECT_REACTIVE_OPS : Z := Z.shiftl 1 25.
Definition EFFECT_MINT : Z := Z.shiftl 1 26.
Definition EFFECT_ALL : Z := 0xFFFFFFFF.

(** ** Predefined facets *)

Definition FACET_READ_ONLY : Z := EFFECT_EMIT_EVENT.
Definition FACET_TRANSFER_ONLY : Z := EFFECT_TRANSFER.
Definition FACET_STATE_WRITER : Z := Z.lor EFFECT_SET_FIELD EFFECT_EMIT_EVENT.
Definition FACET_ADMIN : Z := Z.lor EFFECT_SET_PERMISSIONS EFFECT_SET_VERIFICATION_KEY.
Definition FACET_DELEGATOR : Z :=
  Z.lor (Z.lor EFFECT_GRANT_CAPABILITY EFFECT_REVOKE_CAPABILITY) EFFECT_INTRODUCE.

(** ** Mask checks *)

Definition is_facet_attenuation (parent_mask child_mask : Z) : bool :=
  Z.land child_mask parent_mask =? child_mask.

Definition is_effect_permitted (mask : option Z) (effect_bit : Z) : bool :=
  match mask with
  | None => true
  | Some m => if m =? 0 then false else negb (Z.land effect_bit m =? 0)
  end.

(** One [if mask & BIT != 0 { names.push(NAME) }] of [describe_mask]. *)
Definition push_if (mask bit : Z) (name : string) (names : list string) : list string :=
  if negb (Z.land mask bit =? 0) then names ++ [name] else names.

Definition describe_mask (mask : Z) : list string :=
  let names := [] in
  let names := push_if mask EFFECT_SET_FIELD "SetField" names in
  let names := push_if mask EFFECT_TRANSFER "Transfer" names in
  let names := push_if mask EFFECT_GRANT_CAPABILITY "GrantCapability" names in
  let names := push_if mask EFFECT_REVOKE_CAPABILITY "RevokeCapability" names in
  let names := push_if mask EFFECT_EMIT_EVENT "EmitEvent" names in
  let names := push_if mask EFFECT_INCREMENT_NONCE "IncrementNonce" names in
  let names := push_if mask EFFECT_CREATE_CELL "CreateCell" names in
  let names := push_if mask EFFECT_SET_PERMISSIONS "SetPermissions" names in
  let names := push_if mask EFFECT_SET_VERIFICATION_KEY "SetVerificationKey" names in
  let names := push_if mask EFFECT_SET_PROGRAM "SetProgram" names in
  let names := push_if mask EFFECT_NOTE_SPEND "NoteSpend" names in
  let names := push_if mask EFFECT_NOTE_CREATE "NoteCreate" names in
  let names := push_if mask EFFECT_SEAL_OPS "SealOps" names in
  let names := push_if mask EFFECT_BRIDGE_OPS "BridgeOps" names in
  let names := push_if mask EFFECT_INTRODUCE "Introduce" names in
  let names := push_if mask EFFECT_OBLIGATION_OPS "ObligationOps" names in
  let names := push_if mask EFFECT_ESCROW_OPS "EscrowOps" names in
  let names := push_if mask EFFECT_DELEGATION_OPS "DelegationOps" names in
  let names := push_if mask EFFECT_SOVEREIGN_OPS "SovereignOps" names in
  let names := push_if mask EFFECT_BURN "Burn" names in
  let names := push_if mask EFFECT_MINT "Mint" names in
  names.

(** ** Extended facets *)

(** [FacetConstraint]; a [CellId] is its 32 bytes. *)
Inductive FacetConstraint : Type :=
| MaxTransferAmount (max : Z)
| AllowedTargets (targets : list bytes)
| RateLimit (max_per_epoch current_epoch_count : Z)
| Budget (remaining : Z).

Record ExtendedFacet : Type := mkExtendedFacet {
  effect_mask : Z;
  constraints : list FacetConstraint;
}.

Record EffectContext : Type := mkEffectContext {
  transfer_amount : option Z;
  target_cell : option bytes;
  ctx_effect_bit : Z;
}.

Inductive FacetViolation : Type :=
| EffectTypeNotPermitted (effect_bit mask : Z)
| TransferAmountExceeded (amount max : Z)
| TargetNotAllowed (target : bytes)
| RateLimitExceeded (max current : Z)
| BudgetExhausted (requested remaining : Z).

#[global] Instance FacetConstraint_eq_dec : EqDecision FacetConstraint.
Proof. solve_decision. Defined.
#[global] Instance FacetViolation_eq_dec : EqDecision FacetViolation.
Proof. solve_decision. Defined.

(** [targets.contains(t)]. *)
Definition contains_target (targets : list bytes) (t : bytes) : bool :=
  any (fun x => bool_decide (x = t)) targets.

Definition constraint_check (self : FacetConstraint) (context : EffectContext)
    : result unit FacetViolation :=
  match self with
  | MaxTransferAmount max =>
      match transfer_amount context with
      | Some amount =>
          if max <? amount then Err (TransferAmountExceeded amount max) else Ok tt
      | None => Ok tt
      end
  | AllowedTargets targets =>
      match target_cell context with
      | Some target =>
          if negb (contains_target targets target)
          then Err (TargetNotAllowed target) else Ok tt
      | None => Ok tt
      end
  | RateLimit max_per_epoch current_epoch_count =>
      if max_per_epoch <=? current_epoch_count
      then Err (RateLimitExceeded max_per_epoch current_epoch_count) else Ok tt
  | Budget remaining =>
      let amount := default 0 (transfer_amount context) in
      if remaining <? amount then Err (BudgetExhausted amount remaining) else Ok tt
  end.

Definition is_at_least_as_tight (self other : FacetConstraint) : bool :=
  match self, other with
  | MaxTransferAmount a, MaxTransferAmount b => a <=? b
  | AllowedTargets a, AllowedTargets b => forallb (contains_target b) a
  | RateLimit a _, RateLimit b _ => a <=? b
  | Budget a, Budget b => a <=? b
  | _, _ => false
  end.

Definition from_mask (mask : Z) : ExtendedFacet :=
  {| effect_mask := mask; constraints := [] |}.

Definition check_effect (self : ExtendedFacet) (effect_bit : Z) (context : EffectContext)
    : result unit FacetViolation :=
  if negb (is_effect_permitted (Some (effect_mask self)) effect_bit)
  then Err (EffectTypeNotPermitted effect_bit (effect_mask self))
  else try_fold (fun _ c => constraint_check c context) tt (constraints self).

Definition is_attenuation_of (self parent : ExtendedFacet) : bool :=
  if negb (is_facet_attenuation (effect_mask parent) (effect_mask self)) then false
  else forallb
         (fun parent_constraint =>
            any (fun c => is_at_least_as_tight c parent_constraint) (constraints self))
         (constraints parent).

(** ** [FacetBuilder]: the mask under construction *)

Definition builder_new : Z := 0.
Definition allow_set_field (m : Z) : Z := Z.lor m EFFECT_SET_FIELD.
Definition allow_transfer (m : Z) : Z := Z.lor m EFFECT_TRANSFER.
Definition allow_grant_capability (m : Z) : Z := Z.lor m EFFECT_GRANT_CAPABILITY.
Definition allow_revoke_capability (m : Z) : Z := Z.lor m EFFECT_REVOKE_CAPABILITY.
Definition allow_emit_event (m : Z) : Z := Z.lor m EFFECT_EMIT_EVENT.
Definition allow_increment_nonce (m : Z) : Z := Z.lor m EFFECT_INCREMENT_NONCE.
Definition allow_create_cell (m : Z) : Z := Z.lor m EFFECT_CREATE_CELL.
Definition allow_set_permissions (m : Z) : Z := Z.lor m EFFECT_SET_PERMISSIONS.
Definition allow_set_verification_key (m : Z) : Z := Z.lor m EFFECT_SET_VERIFICATION_KEY.

(** ** Lemmas *)

Lemma is_facet_attenuation_bits p c :
  is_facet_attenuation p c = true <-> forall i, Z.testbit c i = true -> Z.testbit p i = true.
Proof.
  unfold is_facet_attenuation. rewrite Z.eqb_eq. split.
  - intros H i Hc. rewrite <-H, Z.land_spec in Hc. by apply andb_true_iff in Hc as [??].
  - intros H. apply Z.bits_inj. intros i. rewrite Z.land_spec.
    specialize (H i). destruct (Z.testbit c i); simpl; auto.
Qed.

Lemma land_nonzero_bits a b :
  Z.land a b <> 0 <-> exists i, Z.testbit a i = true /\ Z.testbit b i = true.
Proof.
  split.
  - intros H. destruct (Z_lt_le_dec (Z.land a b) 0) as [Hneg|Hpos].
    + apply Z.bits_iff_neg_ex in Hneg as [k Hk].
      specialize (Hk (Z.succ (Z.max 0 k)) ltac:(lia)).
      rewrite Z.land_spec, andb_true_iff in Hk. eauto.
    + exists (Z.log2 (Z.land a b)). rewrite <-andb_true_iff, <-Z.land_spec.
      apply Z.bit_log2. lia.
  - intros (i & Ha & Hb) H. apply (f_equal (fun z => Z.testbit z i)) in H.
    by rewrite Z.land_spec, Ha, Hb, Z.bits_0 in H.
Qed.

Lemma is_effect_permitted_Some m bit :
  is_effect_permitted (Some m) bit = true <-> Z.land bit m <> 0.
Proof.
  simpl. destruct (Z.eqb_spec m 0) as [->|Hm].
  - rewrite Z.land_0_r. done.
  - rewrite negb_true_iff, Z.eqb_neq. done.
Qed.

Lemma is_effect_permitted_mono p c bit :
  is_facet_attenuation p c = true ->
  is_effect_permitted (Some c) bit = true -> is_effect_permitted (Some p) bit = true.
Proof.
  rewrite is_facet_attenuation_bits, !is_effect_permitted_Some, !land_nonzero_bits.
  intros H (i & ? & ?). eauto.
Qed.

Lemma contains_target_true ts t : contains_target ts t = true <-> t ∈ ts.
Proof.
  unfold contains_target. rewrite any_true. split.
  - intros (x & Hx & Heq%bool_decide_eq_true). by subst.
  - intros Ht. exists t. by rewrite bool_decide_eq_true.
Qed.

(** A check loop succeeds exactly when every constraint passes. *)
Lemma try_fold_check_ok {X E} (f : X -> result unit E) l :
  try_fold (fun _ x => f x) tt l = Ok tt <-> Forall (fun x => f x = Ok tt) l.
Proof.
  induction l as [|x l IH]; simpl; [by split|].
  rewrite Forall_cons. destruct (f x) as [[]|e]; [|by split; [|intros []]].
  rewrite IH. naive_solver.
Qed.

Definition rate_open (c : FacetConstraint) : Prop :=
  match c with RateLimit max current => current < max | _ => True end.

Lemma tighter_check c p ctx :
  is_at_least_as_tight c p = true -> rate_open p ->
  constraint_check c ctx = Ok tt -> constraint_check p ctx = Ok tt.
Proof.
  destruct c, p; simpl; try done; intros Htight Hrate Hc; repeat case_match; try done;
    rewrite ?Z.ltb_lt, ?Z.ltb_ge, ?Z.leb_le in *; try lia.
  rewrite negb_true_iff, negb_false_iff in *.
  rewrite forallb_forall in Htight.
  rewrite contains_target_true in *. rewrite <-not_true_iff_false in *.
  rewrite contains_target_true in *. exfalso.
  match goal with H : ~ ?x ∈ ?l |- _ => apply H end.
  rewrite <-contains_target_true. apply Htight. by apply list_elem_of_In.
Qed.

(** ** Properties *)

(** [is_facet_attenuation(parent, child)] holds exactly when every effect
    bit the child mask permits is permitted by the parent mask, the zero mask
    denying everything on both sides: delegation of a facet can only narrow
    what [is_effect_permitted] lets through, and every narrowing is allowed. *)
Theorem facet_attenuation_iff_permits parent child :
  is_facet_attenuation parent child = true <->
  (forall bit, is_effect_permitted (Some child) bit = true ->
               is_effect_permitted (Some parent) bit = true).
Proof.
  split; [intros H bit; by apply is_effect_permitted_mono|].
  rewrite is_facet_attenuation_bits. intros H i Hi.
  destruct (Z_lt_le_dec i 0) as [|Hpos]; [by rewrite Z.testbit_neg_r in Hi by lia|].
  specialize (H (2 ^ i)). rewrite !is_effect_permitted_Some, !land_nonzero_bits in H.
  destruct H as (j & Hj & Hp); [exists i; by rewrite Z.pow2_bits_true|].
  destruct (decide (i = j)) as [->|]; [done|].
  by rewrite Z.pow2_bits_false in Hj.
Qed.

(** An extended facet accepted by [is_attenuation_of] admits no effect its
    parent refuses: if the child's [check_effect] succeeds then so does the
    parent's, for every effect bit and context, as long as no rate limit of
    the parent is already exhausted. *)
Theorem extended_attenuation_sound child parent bit ctx :
  is_attenuation_of child parent = true ->
  Forall rate_open (constraints parent) ->
  check_effect child bit ctx = Ok tt -> check_effect parent bit ctx = Ok tt.
Proof.
  unfold is_attenuation_of, check_effect. intros Hatt Hrate Hchild.
  destruct (is_facet_attenuation _ _) eqn:Hmask; simpl in Hatt; [|done].
  destruct (is_effect_permitted (Some (effect_mask child)) bit) eqn:Hbit; simpl in Hchild; [|done].
  rewrite (is_effect_permitted_mono _ _ _ Hmask Hbit). simpl.
  rewrite try_fold_check_ok in *. rewrite Forall_forall in *. intros p Hp.
  rewrite forallb_forall in Hatt.
  destruct (proj1 (any_true _ _) (Hatt p (proj1 (list_elem_of_In _ _) Hp))) as (c & Hc & Htight).
  eapply tighter_check; eauto.
Qed.

Definition w_parent := mkExtendedFacet FACET_STATE_WRITER [MaxTransferAmount 10; RateLimit 5 1].
Definition w_child := mkExtendedFacet EFFECT_SET_FIELD [RateLimit 3 0; MaxTransferAmount 7].
Definition w_ctx := mkEffectContext (Some 6) None EFFECT_SET_FIELD.

Lemma extended_attenuation_sound_witness :
  check_effect w_parent EFFECT_SET_FIELD w_ctx = Ok tt.
Proof.
  apply (extended_attenuation_sound w_child w_parent); [reflexivity| |reflexivity].
  repeat constructor; simpl; lia.
Defined.

(** The hypothesis on rate limits in the previous property cannot be
    dropped: [is_at_least_as_tight] compares only [max_per_epoch], so a child
    with a fresh counter counts as an attenuation of a parent whose epoch
    quota is used up, and lets through the effect the parent refuses. *)
Theorem rate_limit_attenuation_resets_quota max bit ctx :
  0 < max -> is_effect_permitted (Some EFFECT_ALL) bit = true ->
  let parent := mkExtendedFacet EFFECT_ALL [RateLimit max max] in
  let child := mkExtendedFacet EFFECT_ALL [RateLimit max 0] in
  is_attenuation_of child parent = true /\
  check_effect child bit ctx = Ok tt /\
  check_effect parent bit ctx = Err (RateLimitExceeded max max).
Proof.
  intros Hmax Hbit parent child. unfold is_attenuation_of, check_effect.
  cbn [parent child effect_mask constraints].
  rewrite Hbit. cbn -[EFFECT_ALL]. rewrite !Z.leb_refl.
  destruct (Z.leb_spec max 0); [lia|]. done.
Qed.

Lemma rate_limit_attenuation_resets_quota_witness :
  check_effect (mkExtendedFacet EFFECT_ALL [RateLimit 5 5]) EFFECT_TRANSFER w_ctx
  = Err (RateLimitExceeded 5 5).
Proof. apply (rate_limit_attenuation_resets_quota 5 EFFECT_TRANSFER w_ctx); [lia|reflexivity]. Defined.
