(* ===== verification/Derivation.v ===== *)
(** * Capability provenance and the derivation tree

    Models [cell/src/derivation.rs].  A capability's identity is a hash that
    chains the capability it was derived from ([cap_provenance]); revocation
    keys ([cred_nul], [chan_nul]) are derived from it; and the off-ledger
    Capability Derivation Tree records which slot came from which.

    The loops that walk the tree are [while let] loops over parent pointers,
    so they are written with fuel: [None] is "still running".  The theorems
    say which fuel is enough, and when none is. *)

From stdpp Require Import base decidable option list gmap strings relations.
From Stdlib Require Import ZArith Lia.
From S2P Require Import Prelude.

Open Scope Z_scope.

(** ** Provenance hashes *)

Section Provenance.
Context `{Blake3}.

Definition mint_provenance : bytes :=
  blake3_hash (str_bytes "dregg-cap-mint-root-v1").

Definition cap_provenance (target : bytes) (slot : Z)
    (parent_provenance created_by_turn : bytes) : bytes :=
  blake3_hash
    (str_bytes "dregg-cap-provenance-v1" ++ target ++ le_bytes 4 slot
       ++ parent_provenance ++ created_by_turn).

Definition cred_nul (provenance : bytes) : bytes :=
  blake3_hash (str_bytes "dregg-cred-revocation-v1" ++ provenance).

Definition chan_nul (channel_id : bytes) : bytes :=
  blake3_hash (str_bytes "dregg-chan-revocation-v1" ++ channel_id).

End Provenance.

(** ** Edges and nodes *)

Inductive DerivationType : Type :=
| DT_Grant | DT_Introduce | DT_Delegate | DT_Unseal | DT_Attenuate.

#[global] Instance DerivationType_eq_dec : EqDecision DerivationType.
Proof. solve_decision. Defined.

Record DerivationEdge : Type := mkEdge {
  source_cell : bytes;
  source_slot : Z;
  derivation_type : DerivationType;
  edge_parent_provenance : bytes;
}.

Definition derivation_type_tag (e : DerivationEdge) : Z :=
  match derivation_type e with
  | DT_Grant => 0
  | DT_Introduce => 1
  | DT_Delegate => 2
  | DT_Unseal => 3
  | DT_Attenuate => 4
  end.

Record DerivationNode : Type := mkNode {
  node_cell : bytes;
  node_slot : Z;
  node_parent : option DerivationEdge;
  created_at : Z;
  created_by_turn : bytes;
}.

(** A node is keyed by its [(cell, slot)] pair. *)
Abbreviation cdt_key := (bytes * Z)%type.

Definition node_key (n : DerivationNode) : cdt_key := (node_cell n, node_slot n).

Definition parent_key (n : DerivationNode) : option cdt_key :=
  (fun edge => (source_cell edge, source_slot edge)) <$> node_parent n.

Record DerivationRecord : Type := mkRecord {
  rec_target_cell : bytes;
  rec_target_slot : Z;
  rec_edge : DerivationEdge;
  rec_created_at : Z;
}.

Section Hashes.
Context `{Blake3}.

Definition edge_hash (e : DerivationEdge) : bytes :=
  blake3_hash
    (str_bytes "dregg-derivation-edge-v1" ++ source_cell e ++ le_bytes 4 (source_slot e)
       ++ [derivation_type_tag e] ++ edge_parent_provenance e).

Definition node_hash (n : DerivationNode) : bytes :=
  let parent_provenance :=
    match node_parent n with
    | Some edge => edge_parent_provenance edge
    | None => mint_provenance
    end in
  cap_provenance (node_cell n) (node_slot n) parent_provenance (created_by_turn n).

Definition record_hash (r : DerivationRecord) : bytes :=
  blake3_hash
    (str_bytes "dregg-derivation-record-v1" ++ rec_target_cell r ++ le_bytes 4 (rec_target_slot r)
       ++ edge_hash (rec_edge r) ++ le_bytes 8 (rec_created_at r)).

Definition to_node (r : DerivationRecord) (turn_hash : bytes) : DerivationNode := {|
  node_cell := rec_target_cell r;
  node_slot := rec_target_slot r;
  node_parent := Some (rec_edge r);
  created_at := rec_created_at r;
  created_by_turn := turn_hash;
|}.

Definition revocation_hash (cell : bytes) (slot : Z) : bytes :=
  blake3_derive_key "dregg-cdt-revocation-v1" (cell ++ le_bytes 4 slot).

End Hashes.

(** ** The tree *)

Record DerivationTree : Type := mkTree {
  nodes : gmap cdt_key DerivationNode;
  children : gmap cdt_key (list cdt_key);
}.

Definition tree_new : DerivationTree := mkTree ∅ ∅.

(** [self.children.entry(k).or_default().push(c)]. *)
Definition push_child (ch : gmap cdt_key (list cdt_key)) (k c : cdt_key)
    : gmap cdt_key (list cdt_key) :=
  <[k := default [] (ch !! k) ++ [c]]> ch.

(** If a node is replaced, it is taken out of its old parent's list first. *)
Definition drop_from_old_parent (t : DerivationTree) (key : cdt_key)
    : gmap cdt_key (list cdt_key) :=
  match t.(nodes) !! key with
  | Some old_node =>
      match parent_key old_node with
      | Some old_parent_key =>
          match t.(children) !! old_parent_key with
          | Some cs =>
              <[old_parent_key := retain (fun k => negb (bool_decide (k = key))) cs]>
                t.(children)
          | None => t.(children)
          end
      | None => t.(children)
      end
  | None => t.(children)
  end.

Definition record_derivation (t : DerivationTree) (node : DerivationNode) : DerivationTree :=
  let key := node_key node in
  let ch := drop_from_old_parent t key in
  let ch' := match parent_key node with
             | Some pk => push_child ch pk key
             | None => ch
             end in
  {| nodes := <[key := node]> t.(nodes); children := ch' |}.

(** One step up the tree: [self.nodes.get(&key).and_then(|n| n.parent_key())]. *)
Definition up (t : DerivationTree) (k : cdt_key) : option cdt_key :=
  n ← t.(nodes) !! k; parent_key n.

Fixpoint ancestors_loop (fuel : nat) (t : DerivationTree) (start : cdt_key)
    (cur : option cdt_key) (acc : list DerivationNode) : option (list DerivationNode) :=
  match fuel with
  | O => None
  | S fuel' =>
      match cur with
      | None => Some acc
      | Some key =>
          match t.(nodes) !! key with
          | Some node =>
              let acc' := if bool_decide (key = start) then acc else acc ++ [node] in
              ancestors_loop fuel' t start (parent_key node) acc'
          | None => Some acc
          end
      end
  end.

Definition ancestors (fuel : nat) (t : DerivationTree) (cell : bytes) (slot : Z) :=
  ancestors_loop fuel t (cell, slot) (Some (cell, slot)) [].

Fixpoint path_loop (fuel : nat) (t : DerivationTree)
    (cur : option cdt_key) (acc : list DerivationNode) : option (list DerivationNode) :=
  match fuel with
  | O => None
  | S fuel' =>
      match cur with
      | None => Some acc
      | Some key =>
          match t.(nodes) !! key with
          | Some node => path_loop fuel' t (parent_key node) (acc ++ [node])
          | None => Some acc
          end
      end
  end.

Definition derivation_path (fuel : nat) (t : DerivationTree) (cell : bytes) (slot : Z) :=
  path_loop fuel t (Some (cell, slot)) [].

Fixpoint descendant_loop (fuel : nat) (t : DerivationTree) (ancestor_key : cdt_key)
    (cur : option cdt_key) : option bool :=
  match fuel with
  | O => None
  | S fuel' =>
      match cur with
      | None => Some false
      | Some key =>
          if bool_decide (key = ancestor_key) then Some true
          else descendant_loop fuel' t ancestor_key (up t key)
      end
  end.

Definition is_descendant_of (fuel : nat) (t : DerivationTree) (child ancestor : cdt_key) :=
  descendant_loop fuel t ancestor (Some child).

Fixpoint revoked_loop (fuel : nat) (t : DerivationTree) (revocation_set : gset cdt_key)
    (cur : option cdt_key) : option bool :=
  match fuel with
  | O => None
  | S fuel' =>
      match cur with
      | None => Some false
      | Some key =>
          if bool_decide (key ∈ revocation_set) then Some true
          else revoked_loop fuel' t revocation_set (up t key)
      end
  end.

Definition has_revoked_ancestor (fuel : nat) (t : DerivationTree) (cell : bytes) (slot : Z)
    (revocation_set : gset cdt_key) : option bool :=
  let start_key := (cell, slot) in
  if bool_decide (start_key ∈ revocation_set) then Some true
  else revoked_loop fuel t revocation_set (up t start_key).

(** Breadth-first: pop a key, append its recorded children, queue them. *)
Definition expand (t : DerivationTree) (key : cdt_key) : list (cdt_key * DerivationNode) :=
  omap (fun ck => (fun n => (ck, n)) <$> t.(nodes) !! ck)
       (default [] (t.(children) !! key)).

Fixpoint bfs_loop (fuel : nat) (t : DerivationTree) (queue : list cdt_key)
    (acc : list DerivationNode) : option (list DerivationNode) :=
  match queue with
  | [] => Some acc
  | key :: rest =>
      match fuel with
      | O => None
      | S fuel' =>
          let kids := expand t key in
          bfs_loop fuel' t (rest ++ kids.*1) (acc ++ kids.*2)
      end
  end.

Definition descendants (fuel : nat) (t : DerivationTree) (cell : bytes) (slot : Z) :=
  bfs_loop fuel t [(cell, slot)] [].

Definition path_commitment `{Blake3} (fuel : nat) (t : DerivationTree) (cell : bytes) (slot : Z)
    : option bytes :=
  path ← derivation_path fuel t cell slot;
  Some (match path with
        | [] => zero32
        | _ => foldl (fun acc node => blake3_derive_key "dregg-cdt-path-v1" (node_hash node ++ acc))
                     zero32 (rev path)
        end).

(** ** Provenance: lemmas *)

Section ProvenanceFacts.
Context `{Hcr : Blake3CR}.

(** The four absorbed parts have fixed widths, so the preimage splits. *)
Lemma cap_provenance_inj t1 s1 p1 c1 t2 s2 p2 c2 :
  length t1 = length t2 -> length p1 = length p2 -> is_u32 s1 -> is_u32 s2 ->
  cap_provenance t1 s1 p1 c1 = cap_provenance t2 s2 p2 c2 ->
  t1 = t2 /\ s1 = s2 /\ p1 = p2 /\ c1 = c2.
Proof.
  intros Ht Hp Hs1 Hs2 Heq%blake3_hash_inj.
  apply (app_inv_head (str_bytes _)) in Heq.
  apply app_inj_1 in Heq as [-> Heq]; [|done].
  apply app_inj_1 in Heq as [Hs Heq]; [|by rewrite !length_le_bytes].
  apply app_inj_1 in Heq as [-> ->]; [|done].
  apply le_bytes4_inj in Hs; by auto.
Qed.

Lemma length_cap_provenance t s p c : length (cap_provenance t s p c) = 32%nat.
Proof. apply length_blake3_hash. Qed.

Lemma length_mint_provenance : length mint_provenance = 32%nat.
Proof. apply length_blake3_hash. Qed.

Lemma cred_nul_inj p q : cred_nul p = cred_nul q -> p = q.
Proof. intros Heq%blake3_hash_inj. by apply app_inv_head in Heq. Qed.

Lemma cred_chan_disjoint p c : cred_nul p <> chan_nul c.
Proof. intros Heq%blake3_hash_inj. by apply app_inj_1 in Heq as [? _]. Qed.

End ProvenanceFacts.

(** ** Tree walks: lemmas *)

(** [parent_of t k p]: the recorded node at [k] was derived from [p]. *)
Definition parent_of (t : DerivationTree) (k p : cdt_key) : Prop := up t k = Some p.

(** The sequence of keys a walk from [cur] visits. *)
Fixpoint walk (fuel : nat) (t : DerivationTree) (cur : option cdt_key) : option (list cdt_key) :=
  match fuel with
  | O => None
  | S fuel' =>
      match cur with
      | None => Some []
      | Some k => cons k <$> walk fuel' t (up t k)
      end
  end.

Lemma walk_reach fuel t k l :
  walk fuel t (Some k) = Some l -> forall k', k' ∈ l <-> rtc (parent_of t) k k'.
Proof.
  revert k l; induction fuel as [|fuel IH]; intros k l; simpl; [done|].
  destruct (walk fuel t (up t k)) as [l0|] eqn:Hw; simpl; [|done].
  intros [= <-] k'. rewrite elem_of_cons. split.
  - intros [->|Hin]; [done|]. destruct (up t k) as [p|] eqn:Hp.
    + apply rtc_l with p; [done|]. by eapply IH.
    + destruct fuel; simpl in Hw; [done|]. injection Hw as <-. by apply elem_of_nil in Hin.
  - intros Hr. inversion Hr as [|? p ? Hp Hr']; subst; [by left|]. right.
    unfold parent_of in Hp. rewrite Hp in Hw. by eapply IH.
Qed.

Lemma up_in_nodes t k p : up t k = Some p -> k ∈ dom (nodes t).
Proof.
  unfold up. intros H. apply elem_of_dom. destruct (nodes t !! k); [by eexists|done].
Qed.

(** Each visited key that has a parent is a key of the node map and is not
    visited twice when the chain has no cycle, so the map's size bounds the
    walk. *)
Lemma walk_terminates_aux (t : DerivationTree) (k0 : cdt_key) (fuel : nat) (seen : gset cdt_key) (k : cdt_key) :
  (forall x, rtc (parent_of t) k0 x -> ~ tc (parent_of t) x x) ->
  rtc (parent_of t) k0 k ->
  seen ⊆ dom (nodes t) ->
  (forall x, x ∈ seen -> rtc (parent_of t) k0 x /\ tc (parent_of t) x k) ->
  (size (dom (nodes t) ∖ seen) + 2 <= fuel)%nat ->
  is_Some (walk fuel t (Some k)).
Proof.
  intros Hac. revert seen k; induction fuel as [|fuel IH]; intros seen k Hk Hsub Hseen Hf; [lia|].
  simpl. destruct (up t k) as [p|] eqn:Hp.
  - assert (k ∉ seen) as Hns.
    { intros Hin. destruct (Hseen _ Hin). eapply Hac; eauto. }
    pose proof (up_in_nodes _ _ _ Hp) as Hdom.
    assert (is_Some (walk fuel t (Some p))) as [l ->]; [|by eexists].
    apply (IH ({[k]} ∪ seen)).
    + eapply rtc_r; eauto.
    + set_solver.
    + intros x [->%elem_of_singleton|Hx]%elem_of_union.
      * split; [done|]. by apply tc_once.
      * destruct (Hseen _ Hx). split; [done|]. eapply tc_r; eauto.
    + assert (size (dom (nodes t) ∖ seen) =
              S (size (dom (nodes t) ∖ ({[k]} ∪ seen)))) as Hs; [|lia].
      replace (dom (nodes t) ∖ seen) with ({[k]} ∪ (dom (nodes t) ∖ ({[k]} ∪ seen))).
      * rewrite size_union by set_solver. by rewrite size_singleton.
      * apply set_eq. intros x. destruct (decide (x = k)) as [->|]; set_solver.
  - destruct fuel as [|fuel]; [lia|]. simpl. by eexists.
Qed.

Definition acyclic_from (t : DerivationTree) (k : cdt_key) : Prop :=
  forall x, rtc (parent_of t) k x -> ~ tc (parent_of t) x x.

Definition walk_fuel (t : DerivationTree) : nat := size (dom (nodes t)) + 2.

Lemma walk_terminates t k fuel :
  acyclic_from t k -> (walk_fuel t <= fuel)%nat -> exists l, walk fuel t (Some k) = Some l.
Proof.
  unfold walk_fuel. intros Hac Hf. destruct (walk_terminates_aux t k fuel ∅ k) as [l Hl].
  - exact Hac.
  - done.
  - set_solver.
  - set_solver.
  - rewrite difference_empty_L. lia.
  - by exists l.
Qed.

Lemma revoked_loop_walk fuel t rs cur l :
  walk fuel t cur = Some l ->
  revoked_loop fuel t rs cur = Some (any (fun k => bool_decide (k ∈ rs)) l).
Proof.
  revert cur l; induction fuel as [|fuel IH]; intros cur l; simpl; [done|].
  destruct cur as [k|]; [|by intros [= <-]].
  destruct (walk fuel t (up t k)) as [l0|] eqn:Hw; simpl; [|done]. intros [= <-].
  simpl. destruct (bool_decide (k ∈ rs)); simpl; [done|]. by apply IH.
Qed.

Lemma descendant_loop_walk fuel t a cur l :
  walk fuel t cur = Some l ->
  descendant_loop fuel t a cur = Some (any (fun k => bool_decide (k = a)) l).
Proof.
  revert cur l; induction fuel as [|fuel IH]; intros cur l; simpl; [done|].
  destruct cur as [k|]; [|by intros [= <-]].
  destruct (walk fuel t (up t k)) as [l0|] eqn:Hw; simpl; [|done]. intros [= <-].
  simpl. destruct (bool_decide (k = a)); simpl; [done|]. by apply IH.
Qed.

Lemma path_loop_walk fuel t cur acc l :
  walk fuel t cur = Some l ->
  path_loop fuel t cur acc = Some (acc ++ omap (fun k => nodes t !! k) l).
Proof.
  revert cur acc l; induction fuel as [|fuel IH]; intros cur acc l; simpl; [done|].
  destruct cur as [k|]; [|by intros [= <-]; rewrite app_nil_r].
  destruct (walk fuel t (up t k)) as [l0|] eqn:Hw; simpl; [|done]. intros [= <-].
  simpl. unfold up in Hw. destruct (nodes t !! k) as [n|] eqn:Hn; simpl in Hw.
  - rewrite (IH _ _ _ Hw). by rewrite <-app_assoc.
  - destruct fuel; simpl in Hw; [done|]. injection Hw as <-. by rewrite app_nil_r.
Qed.

(** ** The children index *)

(** The index lists, for every key, exactly the recorded nodes derived from
    it, once each; nodes are filed under their own key. *)
Record tree_ok (t : DerivationTree) : Prop := {
  ok_keys : forall k n, nodes t !! k = Some n -> node_key n = k;
  ok_children : forall p k, k ∈ default [] (children t !! p) <-> parent_of t k p;
  ok_nodup : forall p, NoDup (default [] (children t !! p));
}.

Lemma tree_new_ok : tree_ok tree_new.
Proof.
  split; intros *; simpl; rewrite ?lookup_empty; simpl; [done| |constructor].
  unfold parent_of, up. simpl. rewrite lookup_empty. split; [by intros ?%elem_of_nil|done].
Qed.

Lemma drop_from_old_parent_spec t key p k :
  tree_ok t ->
  k ∈ default [] (drop_from_old_parent t key !! p) <-> parent_of t k p /\ k <> key.
Proof.
  intros Hok. unfold drop_from_old_parent.
  destruct (nodes t !! key) as [old|] eqn:Hold; [destruct (parent_key old) as [op|] eqn:Hop|].
  - assert (parent_of t key op) as Hpar by (unfold parent_of, up; by rewrite Hold).
    destruct (children t !! op) as [cs|] eqn:Hcs.
    + rewrite lookup_insert. case_decide as Heq; [subst p|].
      * simpl. rewrite elem_of_retain, negb_true_iff, bool_decide_eq_false.
        by rewrite <-(ok_children t Hok op k), Hcs.
      * rewrite (ok_children t Hok). split; [|by intros []]. intros Hk. split; [done|].
        intros ->. unfold parent_of in *. congruence.
    + exfalso. apply (ok_children t Hok) in Hpar. rewrite Hcs in Hpar. by apply elem_of_nil in Hpar.
  - rewrite (ok_children t Hok). split; [|by intros []]. intros Hk. split; [done|].
    intros ->. unfold parent_of, up in Hk. rewrite Hold in Hk. simpl in Hk. congruence.
  - rewrite (ok_children t Hok). split; [|by intros []]. intros Hk. split; [done|].
    intros ->. unfold parent_of, up in Hk. by rewrite Hold in Hk.
Qed.

Lemma NoDup_retain {A} (p : A -> bool) l : NoDup l -> NoDup (retain p l).
Proof.
  induction 1 as [|a l Ha Hl IH]; simpl; [constructor|].
  destruct (p a); [|done]. constructor; [|done]. by intros [? _]%elem_of_retain.
Qed.

Lemma drop_from_old_parent_nodup t key p :
  tree_ok t -> NoDup (default [] (drop_from_old_parent t key !! p)).
Proof.
  intros Hok. unfold drop_from_old_parent. repeat case_match; try apply (ok_nodup t Hok).
  rewrite lookup_insert. case_decide; [|apply (ok_nodup t Hok)]. subst. simpl.
  apply NoDup_retain. pose proof (ok_nodup t Hok p) as Hnd.
  match goal with H : children t !! p = Some _ |- _ => by rewrite H in Hnd end.
Qed.

Lemma up_record t node k :
  up (record_derivation t node) k =
  if bool_decide (k = node_key node) then parent_key node else up t k.
Proof.
  unfold up, record_derivation. cbn [nodes]. rewrite lookup_insert.
  case_decide as H; case_bool_decide as H'; subst; done.
Qed.

Lemma push_child_spec ch pk key p k :
  k ∈ default [] (push_child ch pk key !! p) <->
  k ∈ default [] (ch !! p) \/ (p = pk /\ k = key).
Proof.
  unfold push_child. rewrite lookup_insert. case_decide; subst; simpl; [|naive_solver].
  rewrite elem_of_app, list_elem_of_singleton. naive_solver.
Qed.

Lemma record_derivation_ok t node : tree_ok t -> tree_ok (record_derivation t node).
Proof.
  intros Hok. split.
  - intros k n. unfold record_derivation. cbn [nodes]. rewrite lookup_insert.
    case_decide; [intros [= <-]; done|]. apply (ok_keys t Hok).
  - intros p k. unfold parent_of. rewrite up_record. unfold record_derivation. cbn [children].
    case_bool_decide as Hk.
    + subst k. destruct (parent_key node) as [pk|].
      * rewrite push_child_spec, (drop_from_old_parent_spec t _ _ _ Hok). naive_solver.
      * rewrite (drop_from_old_parent_spec t _ _ _ Hok). naive_solver.
    + destruct (parent_key node) as [pk|].
      * rewrite push_child_spec, (drop_from_old_parent_spec t _ _ _ Hok). naive_solver.
      * rewrite (drop_from_old_parent_spec t _ _ _ Hok). naive_solver.
  - intros p. unfold record_derivation. cbn [children].
    destruct (parent_key node) as [pk|]; [|by apply drop_from_old_parent_nodup].
    unfold push_child. rewrite lookup_insert. case_decide; [subst pk|by apply drop_from_old_parent_nodup].
    simpl. apply NoDup_app. split; [by apply drop_from_old_parent_nodup|]. split.
    + intros x Hx ->%list_elem_of_singleton.
      apply (drop_from_old_parent_spec t _ _ _ Hok) in Hx as [_ ?]. done.
    + apply NoDup_singleton.
Qed.

#[export] Hint Resolve tree_new_ok record_derivation_ok : dregg.

(** ** Breadth-first search: lemmas *)

Section Bfs.
Context (t : DerivationTree) (Hok : tree_ok t).
Context (Hac : forall k, ~ tc (parent_of t) k k).

Abbreviation kids_of key := (default [] (children t !! key)).
Abbreviation node_at := (fun k => nodes t !! k).

Lemma expand_keys key : (expand t key).*1 = kids_of key.
Proof.
  unfold expand.
  assert (forall k, k ∈ kids_of key -> is_Some (nodes t !! k)) as Hin.
  { intros k Hk%(ok_children t Hok). apply up_in_nodes in Hk. by apply elem_of_dom. }
  induction (kids_of key) as [|k l IH]; [done|]. simpl.
  destruct (Hin k) as [n Hn]; [by left|]. rewrite Hn. simpl. f_equal.
  apply IH. intros k' Hk'. apply Hin. by right.
Qed.

Lemma expand_nodes key : (expand t key).*2 = omap node_at (kids_of key).
Proof.
  unfold expand. induction (kids_of key) as [|k l IH]; [done|]. simpl.
  destruct (nodes t !! k); simpl; [f_equal|]; exact IH.
Qed.

(** The loop invariant: [popped ++ queue] lists the keys met so far, once
    each, all descending from the start and closed under the children of the
    popped ones. *)
Record bfs_inv (s : cdt_key) (popped queue : list cdt_key) : Prop := {
  bi_nodup : NoDup (popped ++ queue);
  bi_start : s ∈ popped ++ queue;
  bi_parent : forall x, x ∈ popped ++ queue -> x = s \/ exists p, p ∈ popped /\ parent_of t x p;
  bi_closed : forall p x, p ∈ popped -> parent_of t x p -> x ∈ popped ++ queue;
  bi_reach : forall x, x ∈ popped ++ queue -> rtc (parent_of t) x s;
}.

Lemma bfs_inv_step s popped key rest :
  bfs_inv s popped (key :: rest) -> bfs_inv s (popped ++ [key]) (rest ++ kids_of key).
Proof.
  intros Hi.
  assert (forall l, (popped ++ [key]) ++ rest ++ l = (popped ++ key :: rest) ++ l) as Hre.
  { intros l. by rewrite <-!app_assoc. }
  assert (forall x, x ∈ kids_of key -> x ∉ popped ++ key :: rest) as Hfresh.
  { intros x Hx%(ok_children t Hok) Hin.
    destruct (bi_parent _ _ _ Hi x Hin) as [->|(p & Hp & Hxp)].
    - apply (Hac key). assert (rtc (parent_of t) key s) as Hr.
      { apply (bi_reach _ _ _ Hi). set_solver. }
      eapply tc_rtc_l; [exact Hr|]. by apply tc_once.
    - assert (p = key) as -> by (unfold parent_of in *; congruence).
      pose proof (bi_nodup _ _ _ Hi) as Hnd. apply NoDup_app in Hnd as (_ & Hdis & _).
      apply (Hdis key); [done|]. left. }
  split.
  - rewrite Hre. apply NoDup_app. split; [apply (bi_nodup _ _ _ Hi)|]. split.
    + intros x Hx Hk. by apply (Hfresh x).
    + apply (ok_nodup t Hok).
  - rewrite Hre. apply elem_of_app. left. apply (bi_start _ _ _ Hi).
  - intros x. rewrite Hre, elem_of_app. intros [Hx|Hx].
    + destruct (bi_parent _ _ _ Hi x Hx) as [->|(p & Hp & Hxp)]; [by left|]. right.
      exists p. split; [|done]. apply elem_of_app. by left.
    + right. exists key. split; [set_solver|]. by apply (ok_children t Hok).
  - intros p x [Hp| ->%list_elem_of_singleton]%elem_of_app Hx; rewrite Hre, elem_of_app.
    + left. by apply (bi_closed _ _ _ Hi p).
    + right. by apply (ok_children t Hok).
  - intros x. rewrite Hre, elem_of_app. intros [Hx|Hx]; [by apply (bi_reach _ _ _ Hi)|].
    apply rtc_l with key; [by apply (ok_children t Hok)|].
    apply (bi_reach _ _ _ Hi). set_solver.
Qed.

Lemma bfs_inv_bound s popped queue :
  bfs_inv s popped queue -> (length (popped ++ queue) <= S (size (dom (nodes t))))%nat.
Proof.
  intros Hi.
  transitivity (size ({[s]} ∪ dom (nodes t) : gset cdt_key)).
  - rewrite <-(size_list_to_set (C := gset cdt_key)) by apply (bi_nodup _ _ _ Hi).
    apply subseteq_size. intros x Hx%elem_of_list_to_set.
    destruct (bi_parent _ _ _ Hi x Hx) as [->|(p & _ & Hp)]; [set_solver|].
    apply up_in_nodes in Hp. set_solver.
  - rewrite size_union_alt, size_singleton.
    assert (size (dom (nodes t) ∖ {[s]}) <= size (dom (nodes t)))%nat; [|lia].
    apply subseteq_size. set_solver.
Qed.

Lemma bfs_loop_spec s fuel popped queue tl :
  bfs_inv s popped queue -> popped ++ queue = s :: tl ->
  (S (size (dom (nodes t))) <= fuel + length popped)%nat ->
  exists tl', bfs_loop fuel t queue (omap node_at tl) = Some (omap node_at tl')
    /\ bfs_inv s (s :: tl') [].
Proof.
  revert popped queue tl; induction fuel as [|fuel IH]; intros popped queue tl Hi Hseen Hf.
  - pose proof (bfs_inv_bound _ _ _ Hi) as Hb. rewrite length_app in Hb.
    destruct queue as [|key rest]; simpl in Hb; [|lia].
    exists tl. split; [done|]. rewrite app_nil_r in Hseen. by rewrite <-Hseen.
  - destruct queue as [|key rest].
    + exists tl. split; [done|]. rewrite app_nil_r in Hseen. by rewrite <-Hseen.
    + simpl. rewrite expand_keys, expand_nodes, <-omap_app.
      apply (IH (popped ++ [key])); [by apply bfs_inv_step| |].
      * rewrite <-app_assoc. simpl.
        change (key :: rest ++ kids_of key) with ((key :: rest) ++ kids_of key).
        by rewrite app_assoc, Hseen.
      * rewrite length_app. simpl. lia.
Qed.

Lemma bfs_inv_final s tl x :
  bfs_inv s (s :: tl) [] -> x ∈ s :: tl <-> rtc (parent_of t) x s.
Proof.
  intros Hi. split.
  - intros Hx. apply (bi_reach _ _ _ Hi). by rewrite app_nil_r.
  - intros Hr. induction Hr as [|x y z Hxy _ IH].
    + left.
    + pose proof (bi_closed _ _ _ Hi y x (IH Hi) Hxy) as Hc. by rewrite app_nil_r in Hc.
Qed.

End Bfs.

Lemma is_descendant_of_spec t k a fuel :
  acyclic_from t k -> (walk_fuel t <= fuel)%nat ->
  exists b, is_descendant_of fuel t k a = Some b /\ (b = true <-> rtc (parent_of t) k a).
Proof.
  intros Hac Hf. destruct (walk_terminates t k fuel Hac Hf) as [l Hl].
  exists (any (fun x => bool_decide (x = a)) l). split; [by apply descendant_loop_walk|].
  rewrite any_true, <-(walk_reach _ _ _ _ Hl). setoid_rewrite bool_decide_eq_true. naive_solver.
Qed.

(** A key on a cycle stays on it going up. *)
Lemma cycle_up t k : tc (parent_of t) k k -> exists p, up t k = Some p /\ tc (parent_of t) p p.
Proof.
  intros Hc. inversion Hc as [? ? H|? p ? H H']; subst.
  - by exists k.
  - exists p. split; [exact H|]. eapply tc_rtc_l; [by apply tc_rtc|]. by apply tc_once.
Qed.

Lemma revoked_loop_cycle t rs fuel k :
  tc (parent_of t) k k -> (forall x, rtc (parent_of t) k x -> x ∉ rs) ->
  revoked_loop fuel t rs (Some k) = None.
Proof.
  revert k; induction fuel as [|fuel IH]; intros k Hc Hrs; simpl; [done|].
  rewrite bool_decide_eq_false_2 by (by apply Hrs).
  destruct (cycle_up _ _ Hc) as (p & Hp & Hpp). rewrite Hp. apply IH; [done|].
  intros x Hx. apply Hrs. by apply rtc_l with p.
Qed.

Lemma ancestors_loop_cycle t start fuel k acc :
  tc (parent_of t) k k -> ancestors_loop fuel t start (Some k) acc = None.
Proof.
  revert k acc; induction fuel as [|fuel IH]; intros k acc Hc; simpl; [done|].
  destruct (cycle_up _ _ Hc) as (p & Hp & Hpp). unfold up in Hp.
  destruct (nodes t !! k) as [n|]; simpl in Hp; [|done]. rewrite Hp. by apply IH.
Qed.

(** ** Properties *)

(** Revocation keys do not collide.  For capabilities with 32-byte targets
    and parent provenances and [u32] slots, two capability instances share a
    [cred_nul] only if target, slot, parent provenance and creating turn are
    all the same: a capability granted again in another turn is not born
    revoked, and revoking one instance names no other.  Individual keys never
    coincide with channel keys. *)
Theorem revocation_keys_collision_free `{Hcr : Blake3CR} t1 s1 p1 c1 t2 s2 p2 c2 ch :
  length t1 = 32%nat -> length t2 = 32%nat -> length p1 = 32%nat -> length p2 = 32%nat ->
  is_u32 s1 -> is_u32 s2 ->
  (cred_nul (cap_provenance t1 s1 p1 c1) = cred_nul (cap_provenance t2 s2 p2 c2) ->
   (t1, s1, p1, c1) = (t2, s2, p2, c2)) /\
  cred_nul p1 <> chan_nul ch.
Proof.
  intros Ht1 Ht2 Hp1 Hp2 Hs1 Hs2. split; [|apply cred_chan_disjoint].
  intros Heq%cred_nul_inj.
  apply cap_provenance_inj in Heq as (-> & -> & -> & ->); by rewrite ?Ht1, ?Hp1.
Qed.

(** A second grant of the same slot in another turn has another key. *)
Lemma revocation_keys_collision_free_witness :
  @cred_nul model_blake3 (@cap_provenance model_blake3 (fill32 1) 0 (fill32 7) (fill32 8)) <>
  @cred_nul model_blake3 (@cap_provenance model_blake3 (fill32 1) 0 (fill32 7) (fill32 9)).
Proof.
  intros Heq.
  pose proof (@revocation_keys_collision_free model_blake3 model_blake3_cr
    (fill32 1) 0 (fill32 7) (fill32 8) (fill32 1) 0 (fill32 7) (fill32 9) []
    eq_refl eq_refl eq_refl eq_refl) as [H _]; [unfold is_u32, u32_max; lia..|].
  specialize (H Heq). discriminate H.
Defined.

(** [has_revoked_ancestor] decides transitive revocation.  When the chain
    above a capability has no cycle, the walk returns within [size + 2] steps,
    and its answer is [true] exactly when the capability or one of its
    recorded ancestors is in the revocation set. *)
Theorem has_revoked_ancestor_correct t cell slot rs fuel :
  acyclic_from t (cell, slot) -> (walk_fuel t <= fuel)%nat ->
  exists b, has_revoked_ancestor fuel t cell slot rs = Some b /\
    (b = true <-> exists k, rtc (parent_of t) (cell, slot) k /\ k ∈ rs).
Proof.
  intros Hac Hf. destruct (walk_terminates t (cell, slot) (S fuel) Hac) as [l Hl]; [lia|].
  exists (any (fun k => bool_decide (k ∈ rs)) l). split.
  - unfold has_revoked_ancestor. pose proof (revoked_loop_walk _ _ rs _ _ Hl) as Hr.
    simpl in Hr. by case_bool_decide.
  - rewrite any_true. setoid_rewrite bool_decide_eq_true.
    setoid_rewrite (walk_reach _ _ _ _ Hl). done.
Qed.

Definition w_root : DerivationNode := mkNode (fill32 1) 0 None 5 (fill32 9).
Definition w_kid : DerivationNode :=
  mkNode (fill32 2) 3 (Some (mkEdge (fill32 1) 0 DT_Grant zero32)) 6 (fill32 9).
Definition w_tree : DerivationTree := record_derivation (record_derivation tree_new w_root) w_kid.

Lemma w_tree_edge k p : parent_of w_tree k p -> k = (fill32 2, 3) /\ p = (fill32 1, 0).
Proof.
  unfold parent_of, w_tree. rewrite !up_record.
  repeat case_bool_decide; subst; simpl.
  - intros [= <-]. done.
  - done.
  - unfold up. simpl. by rewrite lookup_empty.
Qed.

Lemma w_tree_acyclic k : ~ tc (parent_of w_tree) k k.
Proof.
  intros Hc. destruct (cycle_up _ _ Hc) as (p & Hp & Hpp).
  destruct (cycle_up _ _ Hpp) as (q & Hq & _).
  apply w_tree_edge in Hp as [_ ->]. by apply w_tree_edge in Hq as [? _].
Qed.

(** In a two-node tree, revoking the root revokes the capability granted from
    it. *)
Lemma has_revoked_ancestor_correct_witness :
  has_revoked_ancestor 4 w_tree (fill32 2) 3 {[ (fill32 1, 0) ]} = Some true.
Proof.
  destruct (has_revoked_ancestor_correct w_tree (fill32 2) 3 {[ (fill32 1, 0) ]} 4) as (b & Hb & Hiff).
  - intros x _. apply w_tree_acyclic.
  - vm_compute. lia.
  - rewrite Hb. f_equal. apply Hiff. exists (fill32 1, 0). split; [|set_solver].
    apply rtc_once. vm_compute. reflexivity.
Defined.

(** The tree walks need not return.  [record_derivation] replaces a node
    without looking at the chain above it, so recording [b] as derived from
    [a] and then [a] as derived from [b], the slot-reuse the data structure
    allows, closes a cycle; from then on [has_revoked_ancestor] and
    [ancestors] run forever on that capability, whatever the fuel. *)
Theorem regrant_cycle_never_returns t na nb fuel :
  parent_key nb = Some (node_key na) -> parent_key na = Some (node_key nb) ->
  let t' := record_derivation (record_derivation t nb) na in
  has_revoked_ancestor fuel t' (node_cell na) (node_slot na) ∅ = None /\
  ancestors fuel t' (node_cell na) (node_slot na) = None.
Proof.
  intros Hb Ha t'.
  assert (parent_of t' (node_key na) (node_key nb)) as H1.
  { unfold parent_of, t'. rewrite up_record. by rewrite bool_decide_eq_true_2. }
  assert (tc (parent_of t') (node_key na) (node_key na)) as Hc.
  { destruct (decide (node_key nb = node_key na)) as [Heq|Hne].
    - apply tc_once. by rewrite Heq in H1.
    - apply tc_l with (node_key nb); [done|]. apply tc_once. unfold parent_of, t'.
      rewrite !up_record. rewrite bool_decide_eq_false_2 by done.
      by rewrite bool_decide_eq_true_2. }
  split.
  - unfold has_revoked_ancestor. rewrite bool_decide_eq_false_2 by set_solver.
    destruct (cycle_up _ _ Hc) as (p & Hp & Hpp).
    change (node_cell na, node_slot na) with (node_key na). rewrite Hp.
    apply revoked_loop_cycle; [done|set_solver].
  - by apply ancestors_loop_cycle.
Qed.

Definition w_root' : DerivationNode :=
  mkNode (fill32 1) 0 (Some (mkEdge (fill32 2) 3 DT_Grant zero32)) 7 (fill32 10).

Lemma regrant_cycle_never_returns_witness :
  has_revoked_ancestor 1000 (record_derivation w_tree w_root') (fill32 1) 0 ∅ = None.
Proof.
  apply (regrant_cycle_never_returns (record_derivation tree_new w_root) w_root' w_kid 1000);
    reflexivity.
Defined.

(** For a tree built by any sequence of [record_derivation] calls and free
    of cycles, the breadth-first [descendants] terminates within one pop per
    node and lists, once each, exactly the recorded nodes from which the
    upward walk [is_descendant_of] reaches the start: the children index and
    the parent pointers never disagree. *)
Theorem descendants_agree_with_ancestry ns cell slot :
  let t := foldl record_derivation tree_new ns in
  (forall k, ~ tc (parent_of t) k k) ->
  exists r, descendants (S (size (dom (nodes t)))) t cell slot = Some r /\ NoDup r /\
    forall n, n ∈ r <-> nodes t !! node_key n = Some n /\ node_key n <> (cell, slot) /\
      is_descendant_of (walk_fuel t) t (node_key n) (cell, slot) = Some true.
Proof.
  intros t Hac.
  assert (tree_ok t) as Hok.
  { subst t. clear Hac. pose proof tree_new_ok as Hnew. revert Hnew. generalize tree_new.
    induction ns as [|n ns IH]; simpl; eauto with dregg. }
  destruct (bfs_loop_spec t Hok Hac (cell, slot) (S (size (dom (nodes t)))) [] [(cell, slot)] [])
    as (tl & Hrun & Hi); [|done|simpl; lia|].
  { split; simpl.
    - apply NoDup_singleton.
    - by left.
    - set_solver.
    - set_solver.
    - by intros x ->%list_elem_of_singleton. }
  exists (omap (fun k => nodes t !! k) tl). split; [exact Hrun|].
  pose proof (bi_nodup _ _ _ _ Hi) as Hnd. rewrite app_nil_r in Hnd.
  apply NoDup_cons in Hnd as [Hs Hnd]. split.
  - clear Hi Hrun Hs. induction Hnd as [|k l Hk Hl IH]; simpl; [constructor|].
    destruct (nodes t !! k) as [n|] eqn:Hn; [|done]. constructor; [|done].
    intros (k' & Hk' & Hn')%list_elem_of_omap.
    apply (ok_keys t Hok) in Hn, Hn'. congruence.
  - intros n. rewrite list_elem_of_omap.
    destruct (is_descendant_of_spec t (node_key n) (cell, slot) (walk_fuel t)) as (b & Hb & Hiff);
      [by intros x _|done|]. rewrite Hb.
    rewrite <-(bfs_inv_final t _ _ _ Hi), elem_of_cons in Hiff. split.
    + intros (k & Hk & Hn). pose proof (ok_keys t Hok _ _ Hn) as Hkey. subst k.
      split; [done|]. split; [by intros Heq; rewrite Heq in Hk|]. f_equal. apply Hiff. by right.
    + intros (Hn & Hne & [= ->]). exists (node_key n). split; [|done].
      destruct (proj1 Hiff eq_refl) as [?|?]; [done|done].
Qed.

Lemma descendants_agree_with_ancestry_witness :
  exists r, descendants 3 w_tree (fill32 1) 0 = Some r /\ NoDup r /\
    forall n, n ∈ r <-> nodes w_tree !! node_key n = Some n /\ node_key n <> (fill32 1, 0) /\
      is_descendant_of 4 w_tree (node_key n) (fill32 1, 0) = Some true.
Proof. apply (descendants_agree_with_ancestry [w_root; w_kid]), w_tree_acyclic. Defined.
