(* ===== verification/Capability.v ===== *)
(** * The c-list

    Models [cell/src/capability.rs]: capability references, the slot-numbered
    set a cell holds ([CapabilitySet]), granting, attenuation, tombstoning
    revocation, restore, reconstruction, and the cached commitment root.

    Every mutating method takes [&mut self] and may report failure with
    [None]; it is modelled as a function returning the new set together with
    the result, so the state after a failed call is explicit too. *)

From stdpp Require Import base decidable option list gmap strings relations sorting.
From Stdlib Require Import ZArith Lia.
From S2P Require Import Prelude BabyBear Poseidon2 CapRoot Permissions Facet Derivation.

Open Scope Z_scope.

(** ** Data *)

Record CapabilityRef : Type := mkCap {
  cap_target : bytes;
  cap_slot : Z;
  cap_permissions : AuthRequired;
  cap_breadstuff : option bytes;
  cap_expires_at : option Z;
  cap_allowed_effects : option Z;
  cap_stored_epoch : option Z;
  cap_prov : bytes;
}.

Record AttenuatedCap : Type := mkAtt {
  att_target : bytes;
  att_permissions : AuthRequired;
  att_breadstuff : option bytes;
  att_expires_at : option Z;
  att_allowed_effects : option Z;
  att_stored_epoch : option Z;
  att_parent_provenance : bytes;
}.

#[global] Instance CapabilityRef_eq_dec : EqDecision CapabilityRef.
Proof. solve_decision. Defined.

(** [CapRootCache]: an [Option<u32>] packed in a [u64], present flag in bit 32. *)
Definition CACHE_PRESENT : Z := Z.shiftl 1 32.

Definition cache_load (packed : Z) : option Z :=
  if negb (Z.land packed CACHE_PRESENT =? 0)
  then Some (Z.land packed 0xFFFFFFFF) else None.

Definition cache_store (value : option Z) : Z :=
  match value with
  | Some v => Z.lor CACHE_PRESENT v
  | None => 0
  end.

Record CapabilitySet : Type := mkCset {
  refs : list CapabilityRef;
  next_slot : Z;
  cap_root_cache : Z;
  tombstones : list Z;
}.

(** ** The commitment of a c-list

    From [commitment.rs]: a reference as a leaf of the canonical capability
    tree, and the root over the live leaves and the tombstoned slots.  [None] is
    the tree builder's failed assertion. *)

Definition auth_byte (auth : AuthRequired) : Z :=
  match auth with
  | AR_None => 0
  | AR_Signature => 1
  | AR_Proof => 2
  | AR_Either => 3
  | AR_Impossible => 4
  | AR_Custom _ => 5
  end.

Definition auth_required_to_tag (auth : AuthRequired) : Z :=
  let tier := bb_new (auth_byte auth) in
  match auth with
  | AR_Custom vk_hash => hash_many (tier :: encode_hash vk_hash)
  | _ => tier
  end.

Definition cap_ref_to_leaf (cap : CapabilityRef) : CapLeaf :=
  let '(mask_lo, mask_hi) := split_effect_mask (default EFFECT_ALL (cap_allowed_effects cap)) in
  mkLeaf (slot_hash (cap_slot cap)) (fold_bytes32 (cap_target cap))
    (auth_required_to_tag (cap_permissions cap)) mask_lo mask_hi
    (encode_expiry (cap_expires_at cap)) (encode_breadstuff (cap_breadstuff cap)).

Definition cap_tree (s : CapabilitySet) : option CanonicalCapTree :=
  new_with_tombstones (map cap_ref_to_leaf (refs s)) (map slot_hash (tombstones s)) CAP_TREE_DEPTH.

Definition compute_canonical_capability_root_8 (s : CapabilitySet) : option digest8 :=
  compute_capability_root_with_tombstones
    (map cap_ref_to_leaf (refs s)) (map slot_hash (tombstones s)).

(** Each lane's four little-endian bytes, in lane order. *)
Definition digest8_to_bytes32 (digest : digest8) : bytes := concat (map (le_bytes 4) digest).

Definition capability_ref_leaf_commitment (cap : CapabilityRef) : bytes :=
  digest8_to_bytes32 (leaf_digest (cap_ref_to_leaf cap)).

#[global] Opaque capability_ref_leaf_commitment.

Definition compute_canonical_capability_root_wide (s : CapabilitySet) : option bytes :=
  digest8_to_bytes32 <$> compute_canonical_capability_root_8 s.

Definition NO_TURN_CONTEXT : bytes := zero32.

Section Clist.
Context `{HB : Blake3}.

Definition cap_cred_nul (c : CapabilityRef) : bytes := cred_nul (cap_prov c).

(** ** Construction and the root cache *)

Definition cset_new : CapabilitySet := mkCset [] 0 0 [].

Definition invalidate_cap_root_cache (s : CapabilitySet) : CapabilitySet :=
  mkCset (refs s) (next_slot s) (cache_store None) (tombstones s).

Definition cached_cap_root (s : CapabilitySet) : option Z := cache_load (cap_root_cache s).

Definition store_cap_root (s : CapabilitySet) (felt : Z) : CapabilitySet :=
  mkCset (refs s) (next_slot s) (cache_store (Some felt)) (tombstones s).

(** Lane 0 of the root, through the cache. *)
Definition compute_canonical_capability_root_felt (s : CapabilitySet) : option (Z * CapabilitySet) :=
  match cached_cap_root s with
  | Some cached => Some (cached, s)
  | None =>
      root8 ← compute_canonical_capability_root_8 s;
      let root0 := lane root8 0 in
      Some (root0, store_cap_root s root0)
  end.

(** ** Granting

    The common shape of every [grant*]: dirty the cache, take [next_slot],
    refuse if the counter would overflow, append. *)
Definition append_ref (s : CapabilitySet) (mk : Z -> CapabilityRef) : CapabilitySet * option Z :=
  let s := invalidate_cap_root_cache s in
  let slot := next_slot s in
  match checked_add_u32 slot 1 with
  | None => (s, None)
  | Some next =>
      (mkCset (refs s ++ [mk slot]) next (cap_root_cache s) (tombstones s), Some slot)
  end.

Definition grant_with_breadstuff (s : CapabilitySet) (target : bytes)
    (permissions : AuthRequired) (breadstuff : option bytes) : CapabilitySet * option Z :=
  append_ref s (fun slot =>
    mkCap target slot permissions breadstuff None None None
      (cap_provenance target slot mint_provenance NO_TURN_CONTEXT)).

Definition grant (s : CapabilitySet) (target : bytes) (permissions : AuthRequired)
    : CapabilitySet * option Z :=
  grant_with_breadstuff s target permissions None.

Definition grant_with_expiry (s : CapabilitySet) (target : bytes)
    (permissions : AuthRequired) (expires_at : Z) : CapabilitySet * option Z :=
  append_ref s (fun slot =>
    mkCap target slot permissions None (Some expires_at) None None
      (cap_provenance target slot mint_provenance NO_TURN_CONTEXT)).

Definition grant_full (s : CapabilitySet) (target : bytes) (permissions : AuthRequired)
    (breadstuff : option bytes) (expires_at : option Z) : CapabilitySet * option Z :=
  append_ref s (fun slot =>
    mkCap target slot permissions breadstuff expires_at None None
      (cap_provenance target slot mint_provenance NO_TURN_CONTEXT)).

Definition grant_ref_provenanced (s : CapabilitySet) (cap : CapabilityRef)
    (created_by_turn : bytes) : CapabilitySet * option Z :=
  append_ref s (fun slot =>
    mkCap (cap_target cap) slot (cap_permissions cap) (cap_breadstuff cap)
      (cap_expires_at cap) (cap_allowed_effects cap) (cap_stored_epoch cap)
      (cap_provenance (cap_target cap) slot (cap_prov cap) created_by_turn)).

Definition grant_ref (s : CapabilitySet) (cap : CapabilityRef) : CapabilitySet * option Z :=
  append_ref s (fun slot =>
    mkCap (cap_target cap) slot (cap_permissions cap) (cap_breadstuff cap)
      (cap_expires_at cap) (cap_allowed_effects cap) (cap_stored_epoch cap)
      (cap_provenance (cap_target cap) slot (cap_prov cap) NO_TURN_CONTEXT)).

Definition grant_snapshot (s : CapabilitySet) (target : bytes) (permissions : AuthRequired)
    (breadstuff : option bytes) (stored_epoch : Z) : CapabilitySet * option Z :=
  append_ref s (fun slot =>
    mkCap target slot permissions breadstuff None None (Some stored_epoch)
      (cap_provenance target slot mint_provenance NO_TURN_CONTEXT)).

Definition grant_faceted (s : CapabilitySet) (target : bytes) (permissions : AuthRequired)
    (effect_mask : Z) : CapabilitySet * option Z :=
  append_ref s (fun slot =>
    mkCap target slot permissions None None (Some effect_mask) None
      (cap_provenance target slot mint_provenance NO_TURN_CONTEXT)).

Definition grant_provenanced (s : CapabilitySet) (target : bytes) (permissions : AuthRequired)
    (breadstuff : option bytes) (expires_at allowed_effects stored_epoch : option Z)
    (parent_provenance created_by_turn : bytes) : CapabilitySet * option Z :=
  append_ref s (fun slot =>
    mkCap target slot permissions breadstuff expires_at allowed_effects stored_epoch
      (cap_provenance target slot parent_provenance created_by_turn)).

(** ** Revocation *)

(** [if let Err(pos) = v.binary_search(&slot) { v.insert(pos, slot) }] on the
    sorted tombstone vector. *)
Fixpoint tomb_insert (slot : Z) (l : list Z) : list Z :=
  match l with
  | [] => [slot]
  | x :: l' =>
      if slot <? x then slot :: x :: l'
      else if slot =? x then x :: l'
      else x :: tomb_insert slot l'
  end.

Definition revoke (s : CapabilitySet) (slot : Z) : CapabilitySet * bool :=
  let s := invalidate_cap_root_cache s in
  let before := length (refs s) in
  let kept := retain (fun r => negb (cap_slot r =? slot)) (refs s) in
  let removed := (length kept <? before)%nat in
  let ts := if removed then tomb_insert slot (tombstones s) else tombstones s in
  (mkCset kept (next_slot s) (cap_root_cache s) ts, removed).

(** ** Queries *)

Definition lookup_cap (s : CapabilitySet) (slot : Z) : option CapabilityRef :=
  ffind (fun r => cap_slot r =? slot) (refs s).

Definition not_expired (r : CapabilityRef) (current_height : Z) : bool :=
  match cap_expires_at r with None => true | Some exp => current_height <=? exp end.

Definition points_at (target : bytes) (r : CapabilityRef) : bool :=
  bool_decide (cap_target r = target) && negb (bool_decide (cap_permissions r = AR_Impossible)).

Definition has_access (s : CapabilitySet) (target : bytes) : bool :=
  any (points_at target) (refs s).

Definition has_access_at (s : CapabilitySet) (target : bytes) (current_height : Z) : bool :=
  any (fun r => points_at target r && not_expired r current_height) (refs s).

Definition permits_effect_at (s : CapabilitySet) (target : bytes) (current_height effect_bit : Z)
    : bool :=
  any (fun r => points_at target r && not_expired r current_height
                && is_effect_permitted (cap_allowed_effects r) effect_bit) (refs s).

Definition effect_mask_union_for (s : CapabilitySet) (target : bytes) : Z :=
  foldl (fun acc r => Z.lor acc (default EFFECT_ALL (cap_allowed_effects r))) 0
        (retain (points_at target) (refs s)).

Definition capabilities_for (s : CapabilitySet) (target : bytes) : list CapabilityRef :=
  retain (fun r => bool_decide (cap_target r = target)) (refs s).

Definition lookup_by_target (s : CapabilitySet) (target : bytes) : option CapabilityRef :=
  ffind (fun r => bool_decide (cap_target r = target)) (refs s).

(** ** Attenuation *)

Definition attenuate (s : CapabilitySet) (slot : Z) (narrower : AuthRequired)
    : option AttenuatedCap :=
  existing ← lookup_cap s slot;
  if negb (is_narrower_or_equal narrower (cap_permissions existing)) then None
  else Some (mkAtt (cap_target existing) narrower (cap_breadstuff existing)
               (cap_expires_at existing) (cap_allowed_effects existing)
               (cap_stored_epoch existing) (cap_prov existing)).

Definition attenuate_faceted (s : CapabilitySet) (slot : Z) (narrower : AuthRequired)
    (effect_mask : Z) : option AttenuatedCap :=
  existing ← lookup_cap s slot;
  if negb (is_narrower_or_equal narrower (cap_permissions existing)) then None
  else
    let parent_mask := default EFFECT_ALL (cap_allowed_effects existing) in
    if negb (is_facet_attenuation parent_mask effect_mask) then None
    else Some (mkAtt (cap_target existing) narrower (cap_breadstuff existing)
                 (cap_expires_at existing) (Some effect_mask)
                 (cap_stored_epoch existing) (cap_prov existing)).

(** The first pass of [attenuate_in_place]: the new mask and expiry, or a
    refusal. *)
Definition narrow_effects (existing : CapabilityRef) (narrower_effects : option Z)
    : option (option Z) :=
  match narrower_effects with
  | Some new_mask =>
      let parent_mask := default EFFECT_ALL (cap_allowed_effects existing) in
      if negb (is_facet_attenuation parent_mask new_mask) then None else Some (Some new_mask)
  | None => Some (cap_allowed_effects existing)
  end.

Definition narrow_expiry (existing : CapabilityRef) (narrower_expiry : option Z)
    : option (option Z) :=
  match cap_expires_at existing, narrower_expiry with
  | Some e, Some n => if e <? n then None else Some (Some n)
  | None, Some n => Some (Some n)
  | existing_exp, None => Some existing_exp
  end.

Definition narrow_ref (r : CapabilityRef) (narrower : AuthRequired) (new_effects new_expiry : option Z)
    : CapabilityRef :=
  mkCap (cap_target r) (cap_slot r) narrower (cap_breadstuff r) new_expiry new_effects
    (cap_stored_epoch r) (cap_prov r).

(** [iter_mut().find(p)] followed by a write through the reference. *)
Fixpoint update_first {A} (p : A -> bool) (f : A -> A) (l : list A) : list A :=
  match l with
  | [] => []
  | x :: l' => if p x then f x :: l' else x :: update_first p f l'
  end.

Definition attenuate_in_place (s : CapabilitySet) (slot : Z) (narrower : AuthRequired)
    (narrower_effects narrower_expiry : option Z) : CapabilitySet * option bytes :=
  match lookup_cap s slot with
  | None => (s, None)
  | Some existing =>
      if negb (is_narrower_or_equal narrower (cap_permissions existing)) then (s, None)
      else match narrow_effects existing narrower_effects with
           | None => (s, None)
           | Some new_effects =>
               match narrow_expiry existing narrower_expiry with
               | None => (s, None)
               | Some new_expiry =>
                   let s := invalidate_cap_root_cache s in
                   let upd r := narrow_ref r narrower new_effects new_expiry in
                   (mkCset (update_first (fun r => cap_slot r =? slot) upd (refs s))
                      (next_slot s) (cap_root_cache s) (tombstones s),
                    Some (capability_ref_leaf_commitment (upd existing)))
               end
           end
  end.

Definition att_ref (cap : AttenuatedCap) (created_by_turn : bytes) (slot : Z) : CapabilityRef :=
  mkCap (att_target cap) slot (att_permissions cap) (att_breadstuff cap)
    (att_expires_at cap) (att_allowed_effects cap) (att_stored_epoch cap)
    (cap_provenance (att_target cap) slot (att_parent_provenance cap) created_by_turn).

Definition insert_attenuated_provenanced (s : CapabilitySet) (cap : AttenuatedCap)
    (created_by_turn : bytes) : CapabilitySet * option Z :=
  append_ref s (att_ref cap created_by_turn).

Definition insert_attenuated (s : CapabilitySet) (cap : AttenuatedCap) : CapabilitySet * option Z :=
  insert_attenuated_provenanced s cap NO_TURN_CONTEXT.

(** ** Rollback and reconstruction *)

Definition restore (s : CapabilitySet) (cap : CapabilityRef) : CapabilitySet :=
  let s := invalidate_cap_root_cache s in
  let ts := retain (fun t => negb (t =? cap_slot cap)) (tombstones s) in
  let rs := if any (fun r => cap_slot r =? cap_slot cap) (refs s)
            then refs s else refs s ++ [cap] in
  mkCset rs (next_slot s) (cap_root_cache s) ts.

(** [iter_mut]: the caller writes each reference through [f]. *)
Definition iter_mut (s : CapabilitySet) (f : CapabilityRef -> CapabilityRef) : CapabilitySet :=
  let s := invalidate_cap_root_cache s in
  mkCset (map f (refs s)) (next_slot s) (cap_root_cache s) (tombstones s).

(** [iter().max()]. *)
Definition max_opt (l : list Z) : option Z :=
  foldr (fun z acc => Some (match acc with Some m => Z.max z m | None => z end)) None l.

Definition reconstruct (live : list CapabilityRef) (tombs : list Z) : CapabilitySet :=
  let rs := sort_by_key cap_slot live in
  let ts := dedup_by_key id (sort_by_key id tombs) in
  let max_live := max_opt (map cap_slot rs) in
  let max_tomb := max_opt ts in
  let next := match max_opt (option_list max_live ++ option_list max_tomb) with
              | Some m => saturating_add_u32 m 1
              | None => 0
              end in
  mkCset rs next (cache_store None) ts.

(** ** Histories

    The calls a cell's owner, the executor and its journal make on a c-list.
    [restore] is the journal's inverse of a revocation, so it is only called on
    a tombstoned slot; the journal's [iter_mut] restores the authority fields of
    a reference and leaves its slot alone. *)

Inductive clist_op : Type :=
| OpGrantBreadstuff (target : bytes) (p : AuthRequired) (b : option bytes)
| OpGrantExpiry (target : bytes) (p : AuthRequired) (exp : Z)
| OpGrantFull (target : bytes) (p : AuthRequired) (b : option bytes) (exp : option Z)
| OpGrantRefProvenanced (cap : CapabilityRef) (turn : bytes)
| OpGrantRef (cap : CapabilityRef)
| OpGrantSnapshot (target : bytes) (p : AuthRequired) (b : option bytes) (epoch : Z)
| OpGrantFaceted (target : bytes) (p : AuthRequired) (mask : Z)
| OpGrantProvenanced (target : bytes) (p : AuthRequired) (b : option bytes)
    (exp eff epoch : option Z) (parent turn : bytes)
| OpInsertAttenuated (cap : AttenuatedCap) (turn : bytes)
| OpRevoke (slot : Z)
| OpAttenuateInPlace (slot : Z) (p : AuthRequired) (eff exp : option Z)
| OpRestore (cap : CapabilityRef)
| OpIterMut (f : CapabilityRef -> CapabilityRef)
| OpReadRoot.

Definition apply_op (s : CapabilitySet) (o : clist_op) : CapabilitySet :=
  match o with
  | OpGrantBreadstuff t p b => (grant_with_breadstuff s t p b).1
  | OpGrantExpiry t p e => (grant_with_expiry s t p e).1
  | OpGrantFull t p b e => (grant_full s t p b e).1
  | OpGrantRefProvenanced c t => (grant_ref_provenanced s c t).1
  | OpGrantRef c => (grant_ref s c).1
  | OpGrantSnapshot t p b e => (grant_snapshot s t p b e).1
  | OpGrantFaceted t p m => (grant_faceted s t p m).1
  | OpGrantProvenanced t p b e f ep pa tu => (grant_provenanced s t p b e f ep pa tu).1
  | OpInsertAttenuated c t => (insert_attenuated_provenanced s c t).1
  | OpRevoke slot => (revoke s slot).1
  | OpAttenuateInPlace slot p e x => (attenuate_in_place s slot p e x).1
  | OpRestore c => restore s c
  | OpIterMut f => iter_mut s f
  | OpReadRoot => from_option snd s (compute_canonical_capability_root_felt s)
  end.

Definition op_allowed (s : CapabilitySet) (o : clist_op) : Prop :=
  match o with
  | OpRestore c => cap_slot c ∈ tombstones s
  | OpIterMut f => forall r, cap_slot (f r) = cap_slot r
  | _ => True
  end.

Inductive clist_step : CapabilitySet -> CapabilitySet -> Prop :=
| clist_step_op s o : op_allowed s o -> clist_step s (apply_op s o).

Definition reachable (s : CapabilitySet) : Prop := rtc clist_step cset_new s.

(** The same without the journal's inverse: what a cell does going forward. *)
Inductive forward_step : CapabilitySet -> CapabilitySet -> Prop :=
| forward_step_op s o :
    op_allowed s o -> (forall c, o <> OpRestore c) -> forward_step s (apply_op s o).

(** ** The invariant *)

Definition slots (s : CapabilitySet) : list Z := cap_slot <$> refs s.

(** Slots are handed out densely from zero and each is live or tombstoned,
    never both, never twice. *)
Record clist_ok (s : CapabilitySet) : Prop := {
  ok_nodup : NoDup (slots s);
  ok_sorted : StronglySorted Z.lt (tombstones s);
  ok_dense : forall z, 0 <= z < next_slot s <-> z ∈ slots s \/ z ∈ tombstones s;
  ok_disjoint : forall z, z ∈ slots s -> z ∉ tombstones s;
  ok_next : is_u32 (next_slot s);
}.

(** The root lane a fresh computation would return. *)
Definition fresh_root (s : CapabilitySet) : option Z :=
  (fun root8 => lane root8 0) <$> compute_canonical_capability_root_8 s.

Definition cache_ok (s : CapabilitySet) : Prop :=
  forall v, cached_cap_root s = Some v -> fresh_root s = Some v.

End Clist.

(** ** The packed cache *)

Lemma cache_load_store v : is_u32 v -> cache_load (cache_store (Some v)) = Some v.
Proof.
  intros Hv. unfold cache_load, cache_store, CACHE_PRESENT.
  assert (Hp : Z.land (Z.lor (Z.shiftl 1 32) v) (Z.shiftl 1 32) = Z.shiftl 1 32).
  { apply Z.bits_inj'. intros n _. rewrite Z.land_spec, Z.lor_spec. by destruct (Z.testbit (Z.shiftl 1 32) n), (Z.testbit v n). }
  rewrite Hp. simpl. f_equal. rewrite Z.land_lor_distr_l.
  change (Z.land (Z.pow_pos 2 32) 4294967295) with 0. rewrite Z.lor_0_l.
  change 4294967295 with (Z.ones 32). rewrite Z.land_ones by lia.
  apply Z.mod_small. unfold is_u32, u32_max in Hv. lia.
Qed.

Lemma cache_load_none : cache_load (cache_store None) = None.
Proof. done. Qed.

(** ** The tombstone vector *)

Lemma elem_of_tomb_insert z x l : x ∈ tomb_insert z l <-> x = z \/ x ∈ l.
Proof.
  induction l as [|y l IH]; simpl.
  - rewrite list_elem_of_singleton, elem_of_nil. tauto.
  - destruct (z <? y) eqn:?; [|destruct (Z.eqb_spec z y) as [->|]].
    + rewrite (elem_of_cons (y :: l) x z). done.
    + rewrite elem_of_cons. tauto.
    + rewrite !elem_of_cons, IH. tauto.
Qed.

Lemma tomb_insert_sorted z l : StronglySorted Z.lt l -> StronglySorted Z.lt (tomb_insert z l).
Proof.
  induction 1 as [|y l Hs IH Hy]; simpl; [by repeat constructor|].
  destruct (Z.ltb_spec z y); [|destruct (Z.eqb_spec z y) as [->|]].
  - repeat constructor; [done|done|lia|]. eapply Forall_impl; [exact Hy|simpl; lia].
  - by constructor.
  - constructor; [done|]. apply Forall_forall. intros x Hx%elem_of_tomb_insert.
    rewrite Forall_forall in Hy. destruct Hx as [->|Hx]; [lia|by apply Hy].
Qed.

Lemma retain_sorted p l : StronglySorted Z.lt l -> StronglySorted Z.lt (retain p l).
Proof.
  induction 1 as [|y l Hs IH Hy]; simpl; [constructor|].
  destruct (p y); [|done]. constructor; [done|]. apply Forall_forall.
  intros x [Hx _]%elem_of_retain. rewrite Forall_forall in Hy. by apply Hy.
Qed.

Lemma sorted_lt_unique l1 l2 :
  StronglySorted Z.lt l1 -> StronglySorted Z.lt l2 -> (forall x, x ∈ l1 <-> x ∈ l2) -> l1 = l2.
Proof.
  intros H1 H2 Heq. assert (AntiSymm eq Z.lt) by (intros ???; lia).
  apply (StronglySorted_unique Z.lt); [done|done|].
  assert (HN : forall l, StronglySorted Z.lt l -> NoDup l).
  { induction 1 as [|y l Hs IH Hy]; constructor; [|done].
    intros Hin. rewrite Forall_forall in Hy. specialize (Hy _ Hin). lia. }
  by apply NoDup_Permutation; [apply HN|apply HN|].
Qed.

(** ** Slots of a list of references *)

Lemma elem_of_slots_retain (p : Z -> bool) l z :
  z ∈ cap_slot <$> retain (fun r => p (cap_slot r)) l <-> z ∈ cap_slot <$> l /\ p z = true.
Proof.
  rewrite !list_elem_of_fmap. setoid_rewrite elem_of_retain. naive_solver.
Qed.

Lemma NoDup_slots_retain p l : NoDup (cap_slot <$> l) -> NoDup (cap_slot <$> retain p l).
Proof.
  induction l as [|c l IH]; simpl; [done|]. intros [Hn Hd]%NoDup_cons.
  destruct (p c); [|by apply IH]. simpl. constructor; [|by apply IH].
  intros Hin. apply Hn. revert Hin. rewrite !list_elem_of_fmap.
  intros (y & ? & Hy%elem_of_retain). exists y. tauto.
Qed.

Lemma length_retain_lt {A} (p : A -> bool) l :
  (length (retain p l) <? length l)%nat = any (fun x => negb (p x)) l.
Proof.
  assert (Hle : forall l, (length (retain p l) <= length l)%nat) by apply filter_length_le.
  induction l as [|x l IH]; simpl; [done|]. destruct (p x); simpl; [exact IH|].
  apply Nat.ltb_lt, Nat.lt_succ_r, Hle.
Qed.

Lemma any_slot_eq l z : any (fun r => cap_slot r =? z) l = bool_decide (z ∈ cap_slot <$> l).
Proof.
  apply eq_true_iff_eq. rewrite any_true, bool_decide_eq_true, list_elem_of_fmap.
  setoid_rewrite Z.eqb_eq. naive_solver.
Qed.

Lemma update_first_slots p f l :
  (forall r, cap_slot (f r) = cap_slot r) -> cap_slot <$> update_first p f l = cap_slot <$> l.
Proof. intros Hf. induction l as [|x l IH]; simpl; [done|]. destruct (p x); simpl; f_equal; auto. Qed.

Lemma lookup_cap_iff l z r :
  NoDup (cap_slot <$> l) ->
  ffind (fun r => cap_slot r =? z) l = Some r <-> r ∈ l /\ cap_slot r = z.
Proof.
  intros Hnd. split; [by intros [? ?%Z.eqb_eq]%ffind_some|].
  induction l as [|x l IH]; intros [Hin Hz]; [by apply elem_of_nil in Hin|].
  apply NoDup_cons in Hnd as [Hx Hnd]. simpl.
  apply elem_of_cons in Hin as [->|Hin]; [by rewrite Hz, Z.eqb_refl|].
  destruct (Z.eqb_spec (cap_slot x) z) as [E|].
  - destruct Hx. rewrite E, <-Hz. by apply list_elem_of_fmap_2.
  - by apply IH.
Qed.

#[export] Hint Resolve tomb_insert_sorted retain_sorted NoDup_slots_retain : dregg.

(** ** Every operation preserves the invariant *)

Section Invariant.
Context `{HB : Blake3}.

Lemma cap_ref_to_leaf_ok c : leaf_ok (cap_ref_to_leaf c).
Proof.
  assert (Hh : forall l, Forall canonical l -> is_u32 (hash_many l)).
  { intros l Hl. apply canonical_u32, hash_many_canonical.
    eapply Forall_impl; [exact Hl|auto with dregg]. }
  assert (He : forall b, Forall canonical (encode_hash b)).
  { intros b. apply Forall_forall. intros x (c' & -> & _)%list_elem_of_fmap. auto with dregg. }
  assert (Hn : forall v, is_u32 (bb_new v)) by auto with dregg.
  assert (Hs : is_u32 NONE_SENTINEL) by (by unfold is_u32, u32_max, NONE_SENTINEL, SENTINEL_MAX).
  unfold cap_ref_to_leaf, leaf_ok. simpl. split_and!; try apply Hn.
  - apply canonical_u32, slot_hash_canonical.
  - by apply Hh.
  - unfold auth_required_to_tag. destruct (cap_permissions c); try apply Hn.
    apply Hh. constructor; [auto with dregg|done].
  - destruct (cap_expires_at c); [|done]. apply Hh. repeat (constructor; [auto with dregg|]). constructor.
  - destruct (cap_breadstuff c); [by apply Hh|done].
Qed.

Lemma fresh_root_u32 s v : fresh_root s = Some v -> is_u32 v.
Proof.
  unfold fresh_root, compute_canonical_capability_root_8, compute_capability_root_with_tombstones.
  destruct (new_with_tombstones _ _ _) as [t|] eqn:Ht; [|done]. intros [= <-].
  apply canonical_u32, lane_canonical. eapply (root_canonical _ _ 15 t); [exact Ht|].
  apply Forall_forall. intros l (c & -> & _)%list_elem_of_fmap. apply cap_ref_to_leaf_ok.
Qed.

(** What [append_ref] does on both branches. *)
Lemma append_ref_spec s mk :
  (append_ref s mk).2 = (if next_slot s <? u32_max then Some (next_slot s) else None) /\
  tombstones (append_ref s mk).1 = tombstones s /\
  cached_cap_root (append_ref s mk).1 = None /\
  refs (append_ref s mk).1 =
    (if next_slot s <? u32_max then refs s ++ [mk (next_slot s)] else refs s) /\
  next_slot (append_ref s mk).1 =
    (if next_slot s <? u32_max then next_slot s + 1 else next_slot s).
Proof.
  unfold append_ref. simpl.
  destruct (checked_add_u32 (next_slot s) 1) as [n|] eqn:E.
  - apply checked_add_u32_spec in E as [-> Hle].
    rewrite (proj2 (Z.ltb_lt _ _)) by lia. done.
  - destruct (Z.ltb_spec (next_slot s) u32_max); [|done].
    unfold checked_add_u32 in E. destruct (Z.leb_spec (next_slot s + 1) u32_max); [done|lia].
Qed.

Lemma append_ref_ok s mk :
  (forall z, cap_slot (mk z) = z) -> clist_ok s -> clist_ok (append_ref s mk).1.
Proof.
  intros Hmk [Hnd Hso Hde Hdi Hnx].
  destruct (append_ref_spec s mk) as (_ & Ht & _ & Hr & Hn).
  destruct (Z.ltb_spec (next_slot s) u32_max);
    [|by split; unfold slots; rewrite ?Hr, ?Hn, ?Ht].
  assert (Hfresh : (next_slot s ∉ slots s) /\ (next_slot s ∉ tombstones s)).
  { split; intros Hin; destruct (Hde (next_slot s)) as [_ Hb];
      (enough (0 <= next_slot s < next_slot s) by lia); tauto. }
  assert (Hsl : slots (append_ref s mk).1 = slots s ++ [next_slot s]).
  { unfold slots. by rewrite Hr, fmap_app, list_fmap_singleton, Hmk. }
  destruct Hnx. split; rewrite ?Hn, ?Ht, ?Hsl; [|done| | |split; lia].
  - apply NoDup_app. split_and!; [done| |apply NoDup_singleton].
    intros z Hz ->%list_elem_of_singleton. tauto.
  - intros z. rewrite elem_of_app, list_elem_of_singleton. specialize (Hde z).
    destruct (decide (z = next_slot s)) as [->|]; [split; [tauto|lia]|].
    split; [intros ?; assert (0 <= z < next_slot s) by lia; tauto|].
    intros ?. assert (0 <= z < next_slot s) by tauto. lia.
  - intros z [Hz| ->%list_elem_of_singleton]%elem_of_app; [by apply Hdi|tauto].
Qed.

Lemma revoke_spec s z :
  (revoke s z).2 = bool_decide (z ∈ slots s) /\
  next_slot (revoke s z).1 = next_slot s /\
  cached_cap_root (revoke s z).1 = None /\
  refs (revoke s z).1 = retain (fun r => negb (cap_slot r =? z)) (refs s) /\
  tombstones (revoke s z).1 =
    (if bool_decide (z ∈ slots s) then tomb_insert z (tombstones s) else tombstones s).
Proof.
  unfold revoke. cbn [fst snd refs tombstones next_slot invalidate_cap_root_cache].
  rewrite length_retain_lt.
  assert (Hany : any (fun x => negb (negb (cap_slot x =? z))) (refs s) = bool_decide (z ∈ slots s)).
  { unfold slots. rewrite <-any_slot_eq. unfold any.
    induction (refs s) as [|c l IH]; simpl; [done|]. by rewrite negb_involutive, IH. }
  by rewrite Hany.
Qed.

Lemma elem_of_slots_revoke s z x : x ∈ slots (revoke s z).1 <-> x ∈ slots s /\ x <> z.
Proof.
  unfold slots. destruct (revoke_spec s z) as (_ & _ & _ & -> & _).
  rewrite (elem_of_slots_retain (fun x => negb (x =? z))).
  rewrite negb_true_iff, Z.eqb_neq. done.
Qed.

Lemma revoke_ok s z : clist_ok s -> clist_ok (revoke s z).1.
Proof.
  intros [Hnd Hso Hde Hdi Hnx].
  destruct (revoke_spec s z) as (_ & Hn & _ & Hr & Ht).
  split; rewrite ?Hn; [| | | |done].
  - unfold slots. rewrite Hr. by apply NoDup_slots_retain.
  - rewrite Ht. case_bool_decide; auto with dregg.
  - intros x. rewrite Hde, elem_of_slots_revoke, Ht.
    case_bool_decide; [rewrite elem_of_tomb_insert|];
      destruct (decide (x = z)) as [->|]; tauto.
  - intros x [Hx Hne]%elem_of_slots_revoke. rewrite Ht.
    case_bool_decide; [rewrite elem_of_tomb_insert|]; naive_solver.
Qed.

(** Operations that rewrite references without touching slots or tombstones. *)
Lemma same_slots_ok s s' :
  slots s' = slots s -> next_slot s' = next_slot s -> tombstones s' = tombstones s ->
  clist_ok s -> clist_ok s'.
Proof. intros Hs Hn Ht []. split; by rewrite ?Hs, ?Hn, ?Ht. Qed.

Lemma restore_ok s c : cap_slot c ∈ tombstones s -> clist_ok s -> clist_ok (restore s c).
Proof.
  intros Hin [Hnd Hso Hde Hdi Hnx].
  assert (Hn : cap_slot c ∉ slots s) by (intros ?; by eapply Hdi).
  assert (Hs : slots (restore s c) = slots s ++ [cap_slot c]).
  { unfold restore, slots in *. cbn [refs invalidate_cap_root_cache].
    rewrite any_slot_eq, bool_decide_false by done. by rewrite fmap_app. }
  assert (Ht : forall x, x ∈ tombstones (restore s c) <-> x ∈ tombstones s /\ x <> cap_slot c).
  { intros x. unfold restore. cbn [tombstones invalidate_cap_root_cache].
    rewrite elem_of_retain, negb_true_iff, Z.eqb_neq. done. }
  split; rewrite ?Hs; [| | | |done].
  - apply NoDup_app. split_and!; [done| |apply NoDup_singleton].
    by intros z Hz ->%list_elem_of_singleton.
  - by apply retain_sorted.
  - intros x. change (next_slot (restore s c)) with (next_slot s).
    rewrite Hde, Ht, elem_of_app, list_elem_of_singleton.
    destruct (decide (x = cap_slot c)) as [->|]; tauto.
  - intros x. rewrite Ht, elem_of_app, list_elem_of_singleton. naive_solver.
Qed.

Lemma attenuate_in_place_slots s z p e x :
  slots (attenuate_in_place s z p e x).1 = slots s /\
  next_slot (attenuate_in_place s z p e x).1 = next_slot s /\
  tombstones (attenuate_in_place s z p e x).1 = tombstones s.
Proof.
  unfold attenuate_in_place. repeat case_match; try done.
  split_and!; [|done|done]. by apply update_first_slots.
Qed.

Lemma read_root_same s :
  let s' := from_option snd s (compute_canonical_capability_root_felt s) in
  refs s' = refs s /\ next_slot s' = next_slot s /\ tombstones s' = tombstones s.
Proof.
  unfold compute_canonical_capability_root_felt. destruct (cached_cap_root s); [done|].
  by destruct (compute_canonical_capability_root_8 s).
Qed.

Lemma apply_op_ok s o : op_allowed s o -> clist_ok s -> clist_ok (apply_op s o).
Proof.
  intros Ha Hok. destruct o; simpl in *; try by apply append_ref_ok.
  - by apply revoke_ok.
  - destruct (attenuate_in_place_slots s slot p eff exp) as (?&?&?). by eapply same_slots_ok.
  - by apply restore_ok.
  - apply (same_slots_ok s); [|done..]. unfold slots. simpl.
    rewrite <-list_fmap_compose. apply list_fmap_ext. intros ? r _. apply Ha.
  - destruct (read_root_same s) as (Hr&?&?). apply (same_slots_ok s); [|done..].
    unfold slots. by rewrite Hr.
Qed.

(** ** The cache is never stale *)

Lemma dirty_cache_ok s : cached_cap_root s = None -> cache_ok s.
Proof. intros E v. by rewrite E. Qed.

Lemma apply_op_cache_ok s o : cache_ok s -> cache_ok (apply_op s o).
Proof.
  intros Hc.
  destruct o as [| | | | | | | | |z|z p e x| | |]; simpl;
    try (apply dirty_cache_ok; apply append_ref_spec);
    try by apply dirty_cache_ok.
  - unfold attenuate_in_place. by repeat case_match.
  - intros v. unfold compute_canonical_capability_root_felt.
    destruct (cached_cap_root s) as [c|] eqn:E; simpl; [intros Hv; by apply Hc|].
    destruct (compute_canonical_capability_root_8 s) as [r|] eqn:Er; simpl; [|by rewrite E].
    assert (Hf : fresh_root s = Some (lane r 0)) by (unfold fresh_root; by rewrite Er).
    unfold cached_cap_root, store_cap_root. cbn [cap_root_cache].
    rewrite cache_load_store by (by eapply fresh_root_u32). intros [= <-]. exact Hf.
Qed.

Lemma cset_new_ok : clist_ok cset_new /\ cache_ok cset_new.
Proof.
  split; [|done]. split; [constructor|constructor| | |by unfold is_u32, u32_max].
  - intros z. simpl. rewrite !elem_of_nil. lia.
  - intros z Hz. by apply elem_of_nil in Hz.
Qed.

Lemma steps_ok s s' :
  rtc clist_step s s' -> clist_ok s /\ cache_ok s -> clist_ok s' /\ cache_ok s'.
Proof.
  induction 1 as [|s1 s2 s3 [s o Ha] _ IH]; [done|]. intros [??]. apply IH.
  split; [by apply apply_op_ok|by apply apply_op_cache_ok].
Qed.

Lemma reachable_ok s : reachable s -> clist_ok s /\ cache_ok s.
Proof. intros Hr. by eapply steps_ok, cset_new_ok. Qed.

(** ** Slots are for life *)

Lemma forward_step_step s s' : forward_step s s' -> clist_step s s'.
Proof. by intros [? ? ? _]. Qed.

Lemma append_ref_tombs s mk z : z ∈ tombstones s -> z ∈ tombstones (append_ref s mk).1.
Proof. by rewrite (proj1 (proj2 (append_ref_spec s mk))). Qed.

Lemma forward_tombstones s s' :
  forward_step s s' -> clist_ok s -> forall z, z ∈ tombstones s -> z ∈ tombstones s'.
Proof.
  intros [s0 o Ha Hf] Hok z Hz.
  destruct o as [| | | | | | | | |z'|z' p e x|c| |]; cbn [apply_op];
    try (by apply append_ref_tombs); try done.
  - destruct (revoke_spec s0 z') as (_&_&_&_& ->). case_bool_decide; [|done].
    apply elem_of_tomb_insert. by right.
  - by rewrite (proj2 (proj2 (attenuate_in_place_slots s0 z' p e x))).
  - by destruct (Hf c).
  - by rewrite (proj2 (proj2 (read_root_same s0))).
Qed.

Lemma forward_tombstones_steps s s' z :
  rtc forward_step s s' -> clist_ok s /\ cache_ok s -> z ∈ tombstones s -> z ∈ tombstones s'.
Proof.
  induction 1 as [|s1 s2 s3 Hs _ IH]; [done|]. intros Hok Hz. apply IH.
  - eapply steps_ok; [|exact Hok]. by apply rtc_once, forward_step_step.
  - eapply forward_tombstones; [done|apply Hok|done].
Qed.

Lemma lookup_cap_None_iff s z : lookup_cap s z = None <-> z ∉ slots s.
Proof.
  unfold lookup_cap, slots. split.
  - intros Hn Hin. apply list_elem_of_fmap in Hin as (r & -> & Hr).
    pose proof (ffind_none _ _ Hn r Hr) as Hf. simpl in Hf. by rewrite Z.eqb_refl in Hf.
  - intros Hn. destruct (ffind _ _) as [r|] eqn:E; [|done].
    apply ffind_some in E as [Hr <-%Z.eqb_eq]. destruct Hn. by apply list_elem_of_fmap_2.
Qed.

(** ** Attenuation *)

(** What a reference lets its holder do: act on the target, with credential
    [c], at height [h], with the effect [bit]. *)
Definition confers (r : CapabilityRef) (t : bytes) (c : credential) (h bit : Z) : Prop :=
  cap_target r = t /\ accepts (cap_permissions r) c /\ not_expired r h = true /\
  is_effect_permitted (cap_allowed_effects r) bit = true.

Definition no_wider (child parent : CapabilityRef) : Prop :=
  forall t c h bit, confers child t c h bit -> confers parent t c h bit.

Lemma no_wider_fields child parent :
  cap_target child = cap_target parent ->
  is_narrower_or_equal (cap_permissions child) (cap_permissions parent) = true ->
  (forall h, not_expired child h = true -> not_expired parent h = true) ->
  (forall b, is_effect_permitted (cap_allowed_effects child) b = true ->
             is_effect_permitted (cap_allowed_effects parent) b = true) ->
  no_wider child parent.
Proof.
  intros Ht Hp Hh Hb t c h bit (?&?&?&?). split_and!; [congruence| |by apply Hh|by apply Hb].
  by eapply is_narrower_or_equal_sound.
Qed.

(** A mask accepted against [default EFFECT_ALL parent] permits no more. *)
Lemma masked_no_wider p m b :
  is_facet_attenuation (default EFFECT_ALL p) m = true ->
  is_effect_permitted (Some m) b = true -> is_effect_permitted p b = true.
Proof.
  destruct p as [p|]; simpl; [|done]. apply is_effect_permitted_mono.
Qed.

Lemma narrow_effects_sound r e e' b :
  narrow_effects r e = Some e' ->
  is_effect_permitted e' b = true -> is_effect_permitted (cap_allowed_effects r) b = true.
Proof.
  unfold narrow_effects. destruct e as [m|]; [|by intros [= <-]].
  destruct (is_facet_attenuation _ m) eqn:E; [|done]. intros [= <-]. by apply masked_no_wider.
Qed.

Lemma narrow_expiry_sound r x x' h :
  narrow_expiry r x = Some x' ->
  match x' with None => true | Some exp => h <=? exp end = true -> not_expired r h = true.
Proof.
  unfold narrow_expiry, not_expired. destruct (cap_expires_at r) as [e|], x as [n|]; try done.
  - destruct (Z.ltb_spec e n); [done|]. intros [= <-]. rewrite !Z.leb_le. lia.
  - by intros [= <-].
Qed.

Lemma lookup_update_first l z f :
  (forall r, cap_slot (f r) = cap_slot r) -> forall w,
  ffind (fun r => cap_slot r =? w) (update_first (fun r => cap_slot r =? z) f l) =
  if w =? z then f <$> ffind (fun r => cap_slot r =? z) l
  else ffind (fun r => cap_slot r =? w) l.
Proof.
  intros Hf w. induction l as [|x l IH]; simpl; [by destruct (w =? z)|].
  destruct (Z.eqb_spec (cap_slot x) z) as [<-|Hz]; simpl; rewrite ?Hf;
    destruct (Z.eqb_spec (cap_slot x) w) as [<-|Hw]; rewrite ?Z.eqb_refl; try done.
  - by rewrite (proj2 (Z.eqb_neq _ _)) by congruence.
  - by rewrite (proj2 (Z.eqb_neq _ _)) by congruence.
Qed.

(** What both attenuation functions return. *)
Lemma attenuated_from s slot narrower att :
  (attenuate s slot narrower = Some att \/
   exists mask, attenuate_faceted s slot narrower mask = Some att) ->
  exists parent, lookup_cap s slot = Some parent /\
    att_target att = cap_target parent /\ att_parent_provenance att = cap_prov parent /\
    is_narrower_or_equal (att_permissions att) (cap_permissions parent) = true /\
    att_expires_at att = cap_expires_at parent /\
    forall b, is_effect_permitted (att_allowed_effects att) b = true ->
              is_effect_permitted (cap_allowed_effects parent) b = true.
Proof.
  intros [Ha|[mask Ha]]; unfold attenuate, attenuate_faceted in Ha;
    destruct (lookup_cap s slot) as [parent|]; try done; exists parent; simpl in Ha;
    destruct (is_narrower_or_equal narrower (cap_permissions parent)) eqn:En; try done; simpl in Ha.
  - injection Ha as <-. done.
  - destruct (is_facet_attenuation _ mask) eqn:Ef; [|done]. injection Ha as <-.
    split_and!; try done. intros b. by apply masked_no_wider.
Qed.

Lemma append_ref_lookup s mk k w :
  clist_ok s -> (forall z, cap_slot (mk z) = z) -> (append_ref s mk).2 = Some k ->
  lookup_cap (append_ref s mk).1 w = if w =? k then Some (mk k) else lookup_cap s w.
Proof.
  intros Hok Hmk. destruct (append_ref_spec s mk) as (-> & _ & _ & Hr & _).
  case_match; [|done]. intros [= <-]. unfold lookup_cap. rewrite Hr, ffind_app.
  destruct (Z.eqb_spec w (next_slot s)) as [->|Hw].
  - assert (Hn : next_slot s ∉ slots s).
    { intros Hin. assert (0 <= next_slot s < next_slot s) by (apply (ok_dense s Hok); by left). lia. }
    apply lookup_cap_None_iff in Hn. unfold lookup_cap in Hn. rewrite Hn. simpl.
    by rewrite Hmk, Z.eqb_refl.
  - destruct (ffind _ (refs s)); [done|]. simpl.
    by rewrite Hmk, (proj2 (Z.eqb_neq _ _)) by done.
Qed.

End Invariant.

(** ** Counting slots *)

Section Slots.
Context `{HB : Blake3}.

Lemma clist_slots_perm s :
  clist_ok s -> slots s ++ tombstones s ≡ₚ seqZ 0 (next_slot s).
Proof.
  intros [Hnd Hso Hde Hdi Hnx]. apply NoDup_Permutation.
  - apply NoDup_app. split_and!; [done|done|].
    apply (sorted_lt_NoDup id) in Hso. by rewrite list_fmap_id in Hso.
  - apply NoDup_seqZ.
  - intros z. rewrite elem_of_app, elem_of_seqZ, <-Hde. lia.
Qed.

(** Live and tombstoned slots together are as many as the grants ever made. *)
Lemma clist_count s :
  clist_ok s -> Z.of_nat (length (refs s) + length (tombstones s)) = next_slot s.
Proof.
  intros Hok. pose proof (Permutation_length (clist_slots_perm s Hok)) as Hl.
  unfold slots in Hl. rewrite length_app, length_fmap, length_seqZ in Hl.
  destruct (ok_next _ Hok). lia.
Qed.

Lemma cap_tree_total s :
  clist_ok s -> next_slot s <= 65534 -> exists t, cap_tree s = Some t.
Proof.
  intros Hok Hn. pose proof (clist_count s Hok). apply new_total. rewrite !length_map.
  change (2 ^ CAP_TREE_DEPTH)%nat with (Z.to_nat 65536). lia.
Qed.

Lemma root_8_tree s t :
  cap_tree s = Some t -> compute_canonical_capability_root_8 s = Some (tree_root t).
Proof.
  intros Ht. unfold compute_canonical_capability_root_8, compute_capability_root_with_tombstones.
  unfold cap_tree in Ht. by rewrite Ht.
Qed.

(** ** Equal c-lists up to the order of references *)

Record clist_equiv (s1 s2 : CapabilitySet) : Prop := {
  equiv_refs : refs s1 ≡ₚ refs s2;
  equiv_next : next_slot s1 = next_slot s2;
  equiv_tombs : tombstones s1 = tombstones s2;
}.

#[export] Instance clist_equiv_equivalence : Equivalence clist_equiv.
Proof.
  split.
  - done.
  - intros ?? []. by split.
  - intros ??? [] []. split; [by etrans|congruence|congruence].
Qed.

#[export] Instance any_proper {A} (p : A -> bool) : Proper ((≡ₚ) ==> (=)) (any p).
Proof.
  intros l1 l2 Hp. apply eq_true_iff_eq. rewrite !any_true. by setoid_rewrite Hp.
Qed.

#[export] Instance has_access_at_proper :
  Proper (clist_equiv ==> (=) ==> (=) ==> (=)) has_access_at.
Proof. intros s1 s2 [Hr _ _] ? t -> ? h ->. unfold has_access_at. by rewrite Hr. Qed.

#[export] Instance permits_effect_at_proper :
  Proper (clist_equiv ==> (=) ==> (=) ==> (=) ==> (=)) permits_effect_at.
Proof. intros s1 s2 [Hr _ _] ? t -> ? h -> ? b ->. unfold permits_effect_at. by rewrite Hr. Qed.

(** The slots of [s] have distinct keys in the capability tree: the hash the
    key is taken from does not collide on them, nor with the sentinels. *)
Definition keys_distinct (s : CapabilitySet) : Prop :=
  distinct_keys (map cap_ref_to_leaf (refs s)).

Lemma leaf_key c : leaf_slot_hash (cap_ref_to_leaf c) = slot_hash (cap_slot c).
Proof. done. Qed.

Lemma keys_distinct_inj s c1 c2 :
  keys_distinct s -> c1 ∈ refs s -> c2 ∈ refs s ->
  slot_hash (cap_slot c1) = slot_hash (cap_slot c2) -> c1 = c2.
Proof.
  unfold keys_distinct, distinct_keys, bracketed. rewrite fmap_app.
  intros [Hnd _]%NoDup_app. change (map cap_ref_to_leaf) with (fmap (M := list) cap_ref_to_leaf) in Hnd.
  rewrite <-list_fmap_compose in Hnd. by apply (NoDup_keys_inj (leaf_slot_hash ∘ cap_ref_to_leaf)).
Qed.

Lemma retain_leaves s z c :
  keys_distinct s -> c ∈ refs s -> cap_slot c = z ->
  map cap_ref_to_leaf (retain (fun r => negb (cap_slot r =? z)) (refs s)) =
  drop_key (slot_hash z) (map cap_ref_to_leaf (refs s)).
Proof.
  intros Hd Hc Hz.
  assert (Hgen : forall l, (forall r, r ∈ l -> r ∈ refs s) ->
    map cap_ref_to_leaf (retain (fun r => negb (cap_slot r =? z)) l) =
    drop_key (slot_hash z) (map cap_ref_to_leaf l)); [|by apply Hgen].
  unfold drop_key, retain. induction l as [|r l IH]; intros Hsub; [done|].
  cbn [List.filter map]. rewrite leaf_key.
  assert (Hr : (cap_slot r =? z) = (slot_hash (cap_slot r) =? slot_hash z)).
  { apply eq_true_iff_eq. rewrite !Z.eqb_eq. split; [by intros ->|]. intros E.
    rewrite <-Hz in E. apply (keys_distinct_inj s) in E; [by subst|done|by apply Hsub; left|done]. }
  rewrite Hr, <-IH by (intros x Hx; apply Hsub; by right).
  destruct (slot_hash (cap_slot r) =? slot_hash z); cbn [negb map]; reflexivity.
Qed.

Lemma keyed_perm leaves leaves' ts :
  distinct_keys leaves -> leaves ≡ₚ leaves' -> keyed_leaves leaves' ts = keyed_leaves leaves ts.
Proof.
  intros Hd Hp. assert (Hb : bracketed leaves ≡ₚ bracketed leaves') by (unfold bracketed; by rewrite Hp).
  assert (Hd' : distinct_keys leaves') by (unfold distinct_keys; by rewrite <-Hb).
  rewrite <-(map_id (keyed_leaves leaves ts)). apply (keyed_map id); [done|].
  intros e. setoid_rewrite elem_of_entries; [|done..]. setoid_rewrite Hb. unfold id. naive_solver.
Qed.

(** The root only depends on the set of references. *)
Lemma root_8_equiv s1 s2 :
  keys_distinct s1 -> clist_equiv s1 s2 ->
  compute_canonical_capability_root_8 s1 = compute_canonical_capability_root_8 s2.
Proof.
  intros Hd [Hr _ Ht].
  unfold compute_canonical_capability_root_8, compute_capability_root_with_tombstones.
  unfold new_with_tombstones. rewrite Ht.
  rewrite (keyed_perm _ (map cap_ref_to_leaf (refs s2)) _ Hd); [done|].
  by apply Permutation_map.
Qed.

Lemma restore_revoke_equiv s z c :
  clist_ok s -> lookup_cap s z = Some c -> clist_equiv (restore (revoke s z).1 c) s.
Proof.
  intros Hok Hl. pose proof (ok_nodup s Hok) as Hnd.
  apply lookup_cap_iff in Hl as [Hin Hz]; [|done].
  assert (Hzs : z ∈ slots s) by (rewrite <-Hz; by apply list_elem_of_fmap_2).
  destruct (revoke_spec s z) as (_ & Hn & _ & Hr & Ht). rewrite bool_decide_true in Ht by done.
  split.
  - unfold restore. cbn [refs invalidate_cap_root_cache].
    rewrite any_slot_eq, bool_decide_false.
    + rewrite Hr. clear -Hnd Hin Hz. unfold slots in Hnd.
      induction (refs s) as [|x l IH]; [by apply elem_of_nil in Hin|].
      apply NoDup_cons in Hnd as [Hx Hnd]. simpl.
      apply elem_of_cons in Hin as [->|Hin].
      * rewrite Hz, Z.eqb_refl. simpl. rewrite retain_all; [by rewrite Permutation_app_comm|].
        intros y Hy. rewrite negb_true_iff, Z.eqb_neq. intros E. apply Hx.
        rewrite <-Hz, <-E || rewrite Hz, <-E. by apply list_elem_of_fmap_2.
      * destruct (Z.eqb_spec (cap_slot x) z) as [E|]; simpl; [|by rewrite IH].
        destruct Hx. rewrite E, <-Hz. by apply list_elem_of_fmap_2.
    + change (cap_slot <$> refs (revoke s z).1) with (slots (revoke s z).1).
      rewrite elem_of_slots_revoke. by intros [_ []].
  - exact Hn.
  - unfold restore. cbn [tombstones invalidate_cap_root_cache]. rewrite Ht, Hz.
    apply sorted_lt_unique; [by apply retain_sorted, tomb_insert_sorted, Hok|apply Hok|].
    intros x. rewrite elem_of_retain, elem_of_tomb_insert, negb_true_iff, Z.eqb_neq.
    pose proof (ok_disjoint s Hok z Hzs). destruct (decide (x = z)) as [->|]; tauto.
Qed.

End Slots.

(** ** Reconstruction *)

Section Reconstruct.
Context `{HB : Blake3}.

Lemma max_opt_spec l :
  match max_opt l with
  | Some m => m ∈ l /\ forall x, x ∈ l -> x <= m
  | None => l = []
  end.
Proof.
  induction l as [|z l IH]; simpl; [done|].
  destruct (max_opt l) as [m|]; simpl.
  - destruct IH as [Hin Hle]. split.
    + destruct (Z.max_spec z m) as [[_ ->]|[_ ->]]; [by right|left].
    + intros x [->|Hx]%elem_of_cons; [lia|]. specialize (Hle x Hx). lia.
  - subst l. split; [left|]. intros x Hx%list_elem_of_singleton. lia.
Qed.

Lemma max_opt_unique l m :
  m ∈ l -> (forall x, x ∈ l -> x <= m) -> max_opt l = Some m.
Proof.
  intros Hin Hle. pose proof (max_opt_spec l) as Hs. destruct (max_opt l) as [m'|].
  - destruct Hs as [Hin' Hle']. f_equal. specialize (Hle _ Hin'). specialize (Hle' _ Hin). lia.
  - subst l. by apply elem_of_nil in Hin.
Qed.

(** The maximum of the two maxima is the maximum of both lists. *)
Lemma max_opt_app l1 l2 :
  max_opt (option_list (max_opt l1) ++ option_list (max_opt l2)) = max_opt (l1 ++ l2).
Proof.
  pose proof (max_opt_spec (l1 ++ l2)) as Hs.
  pose proof (max_opt_spec l1) as H1. pose proof (max_opt_spec l2) as H2.
  destruct (max_opt (l1 ++ l2)) as [m|].
  - destruct Hs as [Hin Hle]. apply max_opt_unique.
    + apply elem_of_app in Hin as [Hin|Hin].
      * destruct (max_opt l1) as [m1|]; [|subst; by apply elem_of_nil in Hin]. destruct H1 as [Hi1 Hl1].
        assert (m1 = m) as -> by (specialize (Hl1 _ Hin); specialize (Hle m1 ltac:(apply elem_of_app; by left)); lia).
        left.
      * destruct (max_opt l2) as [m2|]; [|subst; by apply elem_of_nil in Hin]. destruct H2 as [Hi2 Hl2].
        assert (m2 = m) as -> by (specialize (Hl2 _ Hin); specialize (Hle m2 ltac:(apply elem_of_app; by right)); lia).
        apply elem_of_app. right. left.
    + intros x [Hx|Hx]%elem_of_app; apply Hle, elem_of_app.
      * left. destruct (max_opt l1); [|by apply elem_of_nil in Hx].
        apply list_elem_of_singleton in Hx as ->. apply H1.
      * right. destruct (max_opt l2); [|by apply elem_of_nil in Hx].
        apply list_elem_of_singleton in Hx as ->. apply H2.
  - apply app_nil in Hs as [-> ->]. done.
Qed.

Lemma reconstruct_ok s :
  clist_ok s ->
  clist_equiv (reconstruct (refs s) (tombstones s)) s /\
  StronglySorted (key_lt cap_slot) (refs (reconstruct (refs s) (tombstones s))).
Proof.
  intros Hok. pose proof (ok_nodup s Hok) as Hnd.
  assert (Hts : dedup_by_key id (sort_by_key id (tombstones s)) = tombstones s).
  { rewrite (sort_by_key_id id) by apply Hok. apply dedup_by_key_nodup.
    apply (sorted_lt_NoDup id), Hok. }
  split; [split|].
  - apply sort_by_key_perm.
  - unfold reconstruct. cbn [next_slot]. rewrite Hts, max_opt_app.
    assert (Hmem : forall x, x ∈ map cap_slot (sort_by_key cap_slot (refs s)) ++ tombstones s <->
                             0 <= x < next_slot s).
    { intros x. rewrite (ok_dense s Hok), elem_of_app. unfold slots.
      change (map cap_slot) with (fmap (M := list) cap_slot). by rewrite sort_by_key_perm. }
    destruct (ok_next s Hok) as [Hge Hle]. destruct (decide (next_slot s = 0)) as [E|E].
    + destruct (max_opt _) as [m|] eqn:Em; [|done].
      pose proof (max_opt_spec (map cap_slot (sort_by_key cap_slot (refs s)) ++ tombstones s)) as Hs.
      rewrite Em in Hs. destruct Hs as [Hin%Hmem _]. lia.
    + rewrite (max_opt_unique _ (next_slot s - 1)).
      * unfold saturating_add_u32. lia.
      * apply Hmem. lia.
      * intros x Hx%Hmem. lia.
  - exact Hts.
  - apply sorted_NoDup_lt; [apply sort_by_key_sorted|]. cbn [refs reconstruct].
    by rewrite sort_by_key_perm.
Qed.

(** Going forward, references stay in slot order: grants append the largest
    slot, everything else edits in place or deletes. *)
Definition in_slot_order (s : CapabilitySet) : Prop := StronglySorted Z.lt (slots s).

Lemma sorted_snoc l z :
  StronglySorted Z.lt l -> (forall x, x ∈ l -> x < z) -> StronglySorted Z.lt (l ++ [z]).
Proof.
  induction 1 as [|y l Hs IH Hy]; intros Hz; simpl; [by repeat constructor|].
  constructor; [apply IH; intros; apply Hz; by right|].
  apply Forall_app. split; [done|]. repeat constructor. apply Hz. left.
Qed.

Lemma append_in_order s mk :
  (forall z, cap_slot (mk z) = z) -> clist_ok s -> in_slot_order s ->
  in_slot_order (append_ref s mk).1.
Proof.
  intros Hmk Hok Hs. unfold in_slot_order, slots in *.
  destruct (append_ref_spec s mk) as (_ & _ & _ & -> & _). case_match; [|done].
  rewrite fmap_app. simpl. rewrite Hmk. apply sorted_snoc; [done|].
  intros x Hx. apply (proj2 (ok_dense s Hok x)). by left.
Qed.

Lemma slots_retain_sorted p (l : list CapabilityRef) :
  StronglySorted Z.lt (cap_slot <$> l) -> StronglySorted Z.lt (cap_slot <$> retain p l).
Proof.
  induction l as [|c l IH]; simpl; [done|]. intros Hs. inversion Hs as [|?? Hs' Hc]; subst.
  destruct (p c); [|by apply IH]. simpl. constructor; [by apply IH|].
  apply Forall_forall. intros z (y & -> & [Hy _]%elem_of_retain)%list_elem_of_fmap.
  rewrite Forall_forall in Hc. apply Hc. by apply list_elem_of_fmap_2.
Qed.

Lemma forward_in_order s s' :
  forward_step s s' -> clist_ok s -> in_slot_order s -> in_slot_order s'.
Proof.
  intros [s0 o Ha Hf] Hok Hs.
  destruct o as [| | | | | | | | |z|z p e x|c|f|]; cbn [apply_op];
    try (by apply append_in_order); unfold in_slot_order.
  - unfold slots. destruct (revoke_spec s0 z) as (_&_&_& -> & _). by apply slots_retain_sorted.
  - by rewrite (proj1 (attenuate_in_place_slots s0 z p e x)).
  - by destruct (Hf c).
  - unfold slots, iter_mut. cbn [refs].
    change (map f) with (fmap (M := list) f). rewrite <-list_fmap_compose.
    erewrite list_fmap_ext; [exact Hs|]. intros ? r _. apply Ha.
  - destruct (read_root_same s0) as (Hr & _). unfold slots. by rewrite Hr.
Qed.

Lemma forward_ok s :
  rtc forward_step cset_new s -> (clist_ok s /\ cache_ok s) /\ in_slot_order s.
Proof.
  intros Hr. assert (Hgen : forall s0 s1, rtc forward_step s0 s1 ->
    (clist_ok s0 /\ cache_ok s0) /\ in_slot_order s0 -> (clist_ok s1 /\ cache_ok s1) /\ in_slot_order s1).
  { clear. induction 1 as [|s1 s2 s3 Hs _ IH]; [done|]. intros [Hok Ho]. apply IH. split.
    - eapply steps_ok; [|exact Hok]. by apply rtc_once, forward_step_step.
    - eapply forward_in_order; [done|apply Hok|done]. }
  apply (Hgen _ _ Hr). split; [apply cset_new_ok|constructor].
Qed.

Lemma sorted_slots_keys (l : list CapabilityRef) :
  StronglySorted Z.lt (cap_slot <$> l) -> StronglySorted (key_lt cap_slot) l.
Proof.
  induction l as [|c l IH]; simpl; [constructor|]. intros Hs. inversion Hs as [|?? Hs' Hc]; subst.
  constructor; [by apply IH|]. exact (proj1 (Forall_fmap cap_slot _ l) Hc).
Qed.

End Reconstruct.

(** ** Properties *)

(** Every c-list built from the empty one by grants, revocations,
    attenuations, journal restores and root reads is well formed: slots are
    distinct, tombstones strictly ascending, no slot is both live and
    tombstoned, and the slots ever handed out are exactly those below
    [next_slot]. *)
Theorem clist_invariant `{HB : Blake3} s : reachable s -> clist_ok s.
Proof. intros Hr. by apply reachable_ok. Qed.

(** The cached capability root is never stale: reading it, through the
    cache or not, returns lane 0 of a fresh fold of the current references and
    tombstones; and the fold cannot fail its capacity assertion before 65534
    grants have been made over the cell's life. *)
Theorem cap_root_cache_coherent `{HB : Blake3} s :
  reachable s ->
  fst <$> compute_canonical_capability_root_felt s = fresh_root s /\
  (next_slot s <= 65534 -> is_Some (fresh_root s)).
Proof.
  intros [Hok Hc]%reachable_ok. split.
  - unfold compute_canonical_capability_root_felt. destruct (cached_cap_root s) as [v|] eqn:E.
    + symmetry. by apply Hc.
    + unfold fresh_root. by destruct (compute_canonical_capability_root_8 s).
  - intros Hn. destruct (cap_tree_total s Hok Hn) as [t Ht]. unfold fresh_root.
    rewrite (root_8_tree s t Ht). by eexists.
Qed.

(** A revoked slot is gone for good.  After a successful revocation,
    whatever the cell then does going forward, the slot is never live again and
    no grant is given its number. *)
Theorem revocation_is_permanent `{HB : Blake3} s z s' :
  reachable s -> (revoke s z).2 = true -> rtc forward_step (revoke s z).1 s' ->
  lookup_cap s' z = None /\
  forall mk slot, (append_ref s' mk).2 = Some slot -> slot <> z /\ slot ∉ slots s'.
Proof.
  intros Hr Hrev Hsteps. pose proof (reachable_ok s Hr) as Hok.
  assert (Hok1 : clist_ok (revoke s z).1 /\ cache_ok (revoke s z).1).
  { eapply steps_ok; [|exact Hok]. apply rtc_once. by apply (clist_step_op s (OpRevoke z)). }
  assert (Hz : z ∈ tombstones (revoke s z).1).
  { destruct (revoke_spec s z) as (E & _ & _ & _ & ->). rewrite <-E, Hrev.
    apply elem_of_tomb_insert. by left. }
  assert (Hz' : z ∈ tombstones s') by (by eapply forward_tombstones_steps).
  assert (Hok' : clist_ok s').
  { eapply steps_ok; [|exact Hok1]. eapply rtc_subrel; [|exact Hsteps]. apply forward_step_step. }
  split.
  - apply lookup_cap_None_iff. intros Hin. by eapply (ok_disjoint s' Hok').
  - intros mk slot. destruct (append_ref_spec s' mk) as (-> & _). case_match; [|done].
    intros [= <-]. split; [intros E|intros Hin].
    + assert (0 <= z < next_slot s') by (apply (ok_dense s' Hok'); by right). lia.
    + assert (0 <= next_slot s' < next_slot s') by (apply (ok_dense s' Hok'); by left). lia.
Qed.

(** Delegation never widens.  A capability produced by [attenuate] or
    [attenuate_faceted] from the parent's slot and inserted into the child's
    c-list confers only what the parent's reference confers (credential, height
    and effect), is found at the slot returned, chains the parent's provenance,
    and leaves the child's other slots alone. *)
Theorem delegation_never_widens `{HB : Blake3} s slot narrower att child turn k :
  reachable child ->
  (attenuate s slot narrower = Some att \/
   exists mask, attenuate_faceted s slot narrower mask = Some att) ->
  (insert_attenuated_provenanced child att turn).2 = Some k ->
  exists parent cap,
    lookup_cap s slot = Some parent /\
    lookup_cap (insert_attenuated_provenanced child att turn).1 k = Some cap /\
    no_wider cap parent /\
    cap_prov cap = cap_provenance (cap_target parent) k (cap_prov parent) turn /\
    forall w, w <> k ->
      lookup_cap (insert_attenuated_provenanced child att turn).1 w = lookup_cap child w.
Proof.
  intros [Hok _]%reachable_ok Hatt Hk.
  destruct (attenuated_from s slot narrower att Hatt) as (parent & Hlp & Ht & Hpp & Hn & He & Hb).
  pose proof (append_ref_lookup child (att_ref att turn) k) as Hlook.
  exists parent, (att_ref att turn k). unfold insert_attenuated_provenanced in *.
  split_and!; [done| | | |].
  - by rewrite Hlook, Z.eqb_refl.
  - apply no_wider_fields; simpl; [done|done| |done]. intros h. unfold not_expired. simpl. by rewrite He.
  - simpl. by rewrite Ht, Hpp.
  - intros w Hw. by rewrite Hlook, (proj2 (Z.eqb_neq _ _)).
Qed.

(** The request [attenuate_in_place] accepts: a narrower requirement, a
    submask, an expiry no later. *)
Definition narrows (r : CapabilityRef) (p : AuthRequired) (eff exp : option Z) : Prop :=
  is_narrower_or_equal p (cap_permissions r) = true /\
  (forall m, eff = Some m -> is_facet_attenuation (default EFFECT_ALL (cap_allowed_effects r)) m = true) /\
  (forall n e, exp = Some n -> cap_expires_at r = Some e -> n <= e).

Lemma narrow_checks old p eff exp :
  narrows old p eff exp <->
  is_narrower_or_equal p (cap_permissions old) = true /\
  is_Some (narrow_effects old eff) /\ is_Some (narrow_expiry old exp).
Proof.
  unfold narrows, narrow_effects, narrow_expiry. split.
  - intros (Hp & Hm & Hx). split_and!; [done| |].
    + destruct eff as [m|]; [|done]. by rewrite (Hm m eq_refl).
    + destruct (cap_expires_at old) as [e|], exp as [n|]; try done.
      specialize (Hx n e eq_refl eq_refl). by rewrite (proj2 (Z.ltb_ge _ _)) by lia.
  - intros (Hp & Hm & Hx). split_and!; [done| |].
    + intros m ->. destruct (is_facet_attenuation _ m); [done|by destruct Hm].
    + intros n e -> Eo. rewrite Eo in Hx. destruct (Z.ltb_spec e n); [by destruct Hx|lia].
Qed.

(** In-place attenuation.  It is refused exactly when the slot is empty
    or the request does not narrow, and then nothing changes; when accepted the
    slot keeps its identity and breadstuff, confers no more than before, and
    every other slot is untouched. *)
Theorem attenuate_in_place_spec `{HB : Blake3} s z p eff exp :
  let s' := (attenuate_in_place s z p eff exp).1 in
  let res := (attenuate_in_place s z p eff exp).2 in
  (is_Some res <-> exists old, lookup_cap s z = Some old /\ narrows old p eff exp) /\
  (res = None -> s' = s) /\
  (is_Some res -> exists old new,
     lookup_cap s z = Some old /\ lookup_cap s' z = Some new /\ no_wider new old /\
     cap_prov new = cap_prov old /\ cap_breadstuff new = cap_breadstuff old /\
     cap_permissions new = p /\ res = Some (capability_ref_leaf_commitment new) /\
     forall w, w <> z -> lookup_cap s' w = lookup_cap s w).
Proof.
  unfold attenuate_in_place. destruct (lookup_cap s z) as [old|] eqn:El.
  2:{ split_and!; [|done|by intros []]. split; [by intros []|by intros (?&?&_)]. }
  pose proof (narrow_checks old p eff exp) as Hchk.
  assert (Href : ~ narrows old p eff exp ->
    (is_Some (@None bytes) <-> exists old', Some old = Some old' /\ narrows old' p eff exp) /\
    (@None bytes = None -> s = s)).
  { intros Hno. split; [|done]. split; [by intros []|]. by intros (? & [= <-] & ?). }
  destruct (is_narrower_or_equal p (cap_permissions old)) eqn:En; simpl.
  2:{ destruct Href as [H1 H2]; [naive_solver|]. split_and!; [exact H1|exact H2|by intros []]. }
  destruct (narrow_effects old eff) as [eff'|] eqn:Ee; simpl.
  2:{ destruct Href as [H1 H2]; [intros (_ & [? ?] & _)%Hchk; done|].
      split_and!; [exact H1|exact H2|by intros []]. }
  destruct (narrow_expiry old exp) as [exp'|] eqn:Ex; simpl.
  2:{ destruct Href as [H1 H2]; [intros (_ & _ & [? ?])%Hchk; done|].
      split_and!; [exact H1|exact H2|by intros []]. }
  split_and!; [|done|].
  - split; [|by eexists]. intros _. exists old. split; [done|]. apply Hchk. by split_and!.
  - intros _. exists old, (narrow_ref old p eff' exp').
    pose proof (lookup_update_first (refs s) z (fun r => narrow_ref r p eff' exp')
                  (fun r => eq_refl)) as Hu.
    pose proof (Hu z) as Hz. unfold lookup_cap in El. rewrite Z.eqb_refl, El in Hz.
    split_and!; [reflexivity|exact Hz| |reflexivity..|].
    + apply no_wider_fields; simpl; [done|done| |].
      * intros h. by eapply narrow_expiry_sound.
      * intros b. by eapply narrow_effects_sound.
    + intros w Hw. specialize (Hu w). rewrite (proj2 (Z.eqb_neq _ _) Hw) in Hu. exact Hu.
Qed.

(** Revoking in the c-list is the zero fold of the tree.  When the slot
    keys do not collide, [revoke] moves the canonical root from the old root of
    the revocation witness, opened at that very capability's leaf, to its new
    root. *)
Theorem revoke_root_is_zero_fold `{HB : Blake3} s z c t :
  clist_ok s -> keys_distinct s -> lookup_cap s z = Some c -> cap_tree s = Some t ->
  exists w,
    revocation_witness t (slot_hash z) = Some w /\ aw_held w = cap_ref_to_leaf c /\
    compute_canonical_capability_root_8 s = Some (aw_old_root w) /\
    compute_canonical_capability_root_8 (revoke s z).1 = Some (aw_new_root w).
Proof.
  intros Hok Hd Hl Ht. apply lookup_cap_iff in Hl as [Hin Hz]; [|apply Hok].
  assert (Hzs : z ∈ slots s) by (rewrite <-Hz; by apply list_elem_of_fmap_2).
  destruct (revoke_spec s z) as (_ & _ & _ & Hr & Htb). rewrite bool_decide_true in Htb by done.
  destruct (zero_fold_rebuild (map cap_ref_to_leaf (refs s)) (map slot_hash (tombstones s))
              (map slot_hash (tombstones (revoke s z).1)) CAP_TREE_DEPTH t (cap_ref_to_leaf c))
    as (w & t' & Hw & Hh & Ho & Ht' & Hn); [done|done|by apply list_elem_of_fmap_2| |].
  - intros x. rewrite Htb, leaf_key, Hz.
    change (map slot_hash) with (fmap (M := list) slot_hash).
    rewrite !list_elem_of_fmap. setoid_rewrite elem_of_tomb_insert. naive_solver.
  - exists w. rewrite leaf_key, Hz in Hw, Ht'. split_and!; [done|done| |].
    + rewrite (root_8_tree s t Ht). by rewrite Ho.
    + rewrite (root_8_tree _ t'); [by rewrite Hn|].
      unfold cap_tree. rewrite Hr, (retain_leaves s z c) by done. exact Ht'.
Qed.

(** [restore] undoes [revoke].  Restoring the revoked reference gives back
    the original c-list up to the order of its references: the same slots,
    tombstones and counter, the same answers to every access check, and the
    same canonical root when the slot keys do not collide. *)
Theorem restore_undoes_revoke `{HB : Blake3} s z c :
  clist_ok s -> lookup_cap s z = Some c ->
  let s' := restore (revoke s z).1 c in
  clist_equiv s' s /\
  (forall t h b, has_access_at s' t h = has_access_at s t h /\
                 permits_effect_at s' t h b = permits_effect_at s t h b) /\
  (keys_distinct s ->
   compute_canonical_capability_root_8 s' = compute_canonical_capability_root_8 s).
Proof.
  intros Hok Hl s'. pose proof (restore_revoke_equiv s z c Hok Hl) as He. fold s' in He.
  split_and!; [done| |].
  - intros t h b. by rewrite He.
  - intros Hd. symmetry. by apply root_8_equiv.
Qed.

(** Reconstruction from the two projected planes.  For any well-formed
    c-list, [reconstruct] of its references and tombstones gives the same
    references (in slot order), tombstones and counter; for one that never went
    through a [restore] it gives the c-list itself, with the cache cleared. *)
Theorem reconstruct_roundtrip `{HB : Blake3} s :
  reachable s ->
  clist_equiv (reconstruct (refs s) (tombstones s)) s /\
  (rtc forward_step cset_new s ->
   reconstruct (refs s) (tombstones s) = invalidate_cap_root_cache s).
Proof.
  intros [Hok _]%reachable_ok. destruct (reconstruct_ok s Hok) as [He _]. split; [done|].
  intros [_ Ho]%forward_ok. destruct He as [_ Hn Ht].
  unfold reconstruct in *. cbn [next_slot tombstones] in *. rewrite Hn, Ht.
  unfold invalidate_cap_root_cache. f_equal. apply sort_by_key_id. by apply sorted_slots_keys.
Qed.

(** The journal's [restore] puts a revoked reference back at the end of
    the vector, so a rolled-back revocation can change which capability
    [lookup_by_target] returns: when another reference has the same target, it
    is no longer the restored one, even if it was before. *)
Theorem restore_moves_to_back `{HB : Blake3} s z c other :
  clist_ok s -> lookup_cap s z = Some c ->
  other ∈ refs s -> cap_slot other <> z -> cap_target other = cap_target c ->
  refs (restore (revoke s z).1 c) = retain (fun r => negb (cap_slot r =? z)) (refs s) ++ [c] /\
  lookup_by_target (restore (revoke s z).1 c) (cap_target c) <> Some c.
Proof.
  intros Hok Hl Ho Hne Ht. apply lookup_cap_iff in Hl as [Hin Hz]; [|apply Hok].
  destruct (revoke_spec s z) as (_ & _ & _ & Hr & _).
  assert (Hrefs : refs (restore (revoke s z).1 c) =
                  retain (fun r => negb (cap_slot r =? z)) (refs s) ++ [c]).
  { unfold restore. cbn [refs invalidate_cap_root_cache].
    rewrite any_slot_eq, bool_decide_false; [by rewrite Hr|].
    change (cap_slot <$> refs (revoke s z).1) with (slots (revoke s z).1).
    rewrite elem_of_slots_revoke. by intros [_ []]. }
  split; [done|]. unfold lookup_by_target. rewrite Hrefs, ffind_app.
  destruct (ffind _ (retain _ _)) as [r|] eqn:E.
  - apply ffind_some in E as [[_ Hrz]%elem_of_retain _]. intros [= ->].
    rewrite Hz, Z.eqb_refl in Hrz. done.
  - pose proof (ffind_none _ _ E other) as Hf. simpl in Hf. rewrite bool_decide_true in Hf by done.
    exfalso. cut (true = false); [done|]. apply Hf, elem_of_retain. split; [done|].
    by rewrite negb_true_iff, Z.eqb_neq.
Qed.

(** ** Concrete c-lists

    The theorems applied to a small c-list under the model hash: three grants,
    two of them to one cell, the first revoked. *)

#[local] Existing Instance model_blake3.

Lemma reach_op s o : op_allowed s o -> reachable s -> reachable (apply_op s o).
Proof. intros Ha Hr. eapply rtc_r; [exact Hr|by constructor]. Qed.

Definition w_ops3 : list clist_op :=
  [OpGrantBreadstuff (fill32 1) AR_Either None; OpGrantFaceted (fill32 1) AR_Signature 3;
   OpGrantExpiry (fill32 2) AR_Proof 90].

Definition w_clist : CapabilitySet := foldl apply_op cset_new w_ops3.

Lemma w_forward : rtc forward_step cset_new w_clist.
Proof.
  unfold w_clist, w_ops3. cbn [foldl].
  do 3 (eapply rtc_r; [|by constructor]). apply rtc_refl.
Qed.

Lemma w_reachable : reachable w_clist.
Proof. eapply rtc_subrel; [|exact w_forward]. apply forward_step_step. Qed.

Lemma w_clist_ok : clist_ok w_clist.
Proof. apply reachable_ok, w_reachable. Qed.

Lemma clist_invariant_witness : reachable w_clist /\ clist_ok w_clist.
Proof. split; [exact w_reachable|]. exact (clist_invariant w_clist w_reachable). Defined.

Lemma cap_root_cache_coherent_witness :
  fst <$> compute_canonical_capability_root_felt w_clist = fresh_root w_clist /\
  is_Some (fresh_root w_clist).
Proof.
  destruct (cap_root_cache_coherent w_clist w_reachable) as [H1 H2]. split; [exact H1|].
  apply H2. by vm_compute.
Defined.

Lemma revocation_is_permanent_witness :
  lookup_cap (revoke w_clist 0).1 0 = None.
Proof.
  exact (proj1 (revocation_is_permanent w_clist 0 (revoke w_clist 0).1 w_reachable
                  eq_refl (rtc_refl _ _))).
Defined.

Definition w_att : AttenuatedCap :=
  mkAtt (fill32 1) AR_Proof None None (Some 2) None
    (cap_provenance (fill32 1) 0 mint_provenance NO_TURN_CONTEXT).

Lemma delegation_never_widens_witness :
  exists parent cap, lookup_cap w_clist 0 = Some parent /\
    lookup_cap (insert_attenuated_provenanced w_clist w_att (fill32 9)).1 3 = Some cap /\
    no_wider cap parent.
Proof.
  destruct (delegation_never_widens w_clist 0 AR_Proof w_att w_clist (fill32 9) 3 w_reachable
              (or_intror (ex_intro _ 2 eq_refl)) eq_refl) as (p & c & Hp & Hc & Hw & _).
  exists p, c. split_and!; [exact Hp|exact Hc|exact Hw].
Defined.

Lemma restore_moves_to_back_witness :
  cap_slot <$> lookup_by_target w_clist (fill32 1) = Some 0 /\
  exists c, lookup_cap w_clist 0 = Some c /\
    lookup_by_target (restore (revoke w_clist 0).1 c) (cap_target c) <> Some c.
Proof.
  split; [reflexivity|]. eexists. split; [reflexivity|].
  refine (proj2 (restore_moves_to_back w_clist 0 _ _ w_clist_ok eq_refl _ _ _)).
  - right. left.
  - done.
  - reflexivity.
Defined.

Lemma restore_undoes_revoke_witness :
  exists c, lookup_cap w_clist 0 = Some c /\ clist_equiv (restore (revoke w_clist 0).1 c) w_clist.
Proof.
  eexists. split; [reflexivity|].
  exact (proj1 (restore_undoes_revoke w_clist 0 _ w_clist_ok eq_refl)).
Defined.

Lemma reconstruct_roundtrip_witness :
  reconstruct (refs w_clist) (tombstones w_clist) = invalidate_cap_root_cache w_clist.
Proof. exact (proj2 (reconstruct_roundtrip w_clist w_reachable) w_forward). Defined.

(** Two slots whose keys are computed, to meet the collision hypothesis. *)
Lemma w_keys_distinct : keys_distinct w_clist.
Proof.
  unfold keys_distinct, distinct_keys. apply (bool_decide_unpack _). vm_compute. exact I.
Qed.

Lemma revoke_root_is_zero_fold_witness :
  exists t w, cap_tree w_clist = Some t /\ revocation_witness t (slot_hash 0) = Some w /\
    compute_canonical_capability_root_8 (revoke w_clist 0).1 = Some (aw_new_root w).
Proof.
  destruct (cap_tree_total w_clist w_clist_ok ltac:(by vm_compute)) as [t Ht].
  destruct (revoke_root_is_zero_fold w_clist 0 _ t w_clist_ok w_keys_distinct eq_refl Ht)
    as (w & Hw & _ & _ & Hn).
  exists t, w. split_and!; [exact Ht|exact Hw|exact Hn].
Defined.
