(* ===== verification/Lifecycle.v ===== *)
(** * Cell lifecycle

    Models [cell/src/lifecycle.rs]: the five lifecycle states, the death
    certificate and the archival attestation with their hashes, and, from
    [commitment.rs], the bytes a lifecycle contributes to a cell's commitment.
    The transitions are methods of [Cell] and are in [Cell.v]. *)

From stdpp Require Import base decidable option list strings.
From Stdlib Require Import ZArith Lia.
From S2P Require Import Prelude.

Open Scope Z_scope.

Abbreviation CellId := bytes.

Inductive CellLifecycle : Type :=
| Live
| Sealed (reason_hash : bytes) (sealed_at : Z)
| Migrated (to : CellId) (attestation : bytes) (migrated_at : Z)
| Destroyed (death_certificate_hash : bytes) (destroyed_at : Z)
| Archived (checkpoint_hash : bytes) (archived_through : Z).

#[global] Instance CellLifecycle_eq_dec : EqDecision CellLifecycle.
Proof. solve_decision. Defined.

Definition discriminant (l : CellLifecycle) : Z :=
  match l with
  | Live => 0
  | Sealed _ _ => 1
  | Migrated _ _ _ => 2
  | Destroyed _ _ => 3
  | Archived _ _ => 4
  end.

Definition accepts_effects (l : CellLifecycle) : bool :=
  match l with Live | Archived _ _ => true | _ => false end.

Definition is_terminal (l : CellLifecycle) : bool :=
  match l with Destroyed _ _ | Migrated _ _ _ => true | _ => false end.

Definition is_sealed (l : CellLifecycle) : bool :=
  match l with Sealed _ _ => true | _ => false end.

Definition is_destroyed (l : CellLifecycle) : bool :=
  match l with Destroyed _ _ => true | _ => false end.

Definition is_live (l : CellLifecycle) : bool :=
  match l with Live => true | _ => false end.

Inductive DeathReason : Type :=
| Voluntary
| Forced
| ReasonMigrated
| Custom (reason_hash : bytes).

#[global] Instance DeathReason_eq_dec : EqDecision DeathReason.
Proof. solve_decision. Defined.

Record DeathCertificate : Type := mkCertificate {
  dc_cell_id : CellId;
  dc_last_receipt_hash : bytes;
  dc_final_state_commitment : bytes;
  dc_destroyed_at_height : Z;
  dc_reason : DeathReason;
}.

Record ArchivalAttestation : Type := mkAttestation {
  aa_cell_id : CellId;
  aa_start_height : Z;
  aa_end_height : Z;
  aa_blob_hash : bytes;
  aa_terminal_commitment : bytes;
  aa_terminal_receipt_hash : bytes;
}.

Inductive LifecycleTransitionError : Type :=
| Terminal
| AlreadySealed
| NotSealed
| CertificateMismatch
| InvalidAttestation (why : string)
| ArchiveNotMonotone
| SealedCannotArchive.

#[global] Instance LifecycleTransitionError_eq_dec : EqDecision LifecycleTransitionError.
Proof. solve_decision. Defined.

Definition reason_bytes (r : DeathReason) : bytes :=
  match r with
  | Voluntary => [0]
  | Forced => [1]
  | ReasonMigrated => [2]
  | Custom reason_hash => 3 :: reason_hash
  end.

Definition validate (a : ArchivalAttestation) : result unit string :=
  if aa_end_height a <? aa_start_height a then Err "archive_start_height > archive_end_height"%string
  else if bool_decide (aa_blob_hash a = zero32) then Err "archive_blob_hash is zero"%string
  else if bool_decide (aa_terminal_receipt_hash a = zero32)
       then Err "archive_terminal_receipt_hash is zero"%string
  else Ok tt.

Section Hashes.
Context `{HB : Blake3}.

Definition certificate_hash (d : DeathCertificate) : bytes :=
  blake3_derive_key "dregg-cell:death-certificate v1"
    (dc_cell_id d ++ dc_last_receipt_hash d ++ dc_final_state_commitment d
       ++ le_bytes 8 (dc_destroyed_at_height d) ++ reason_bytes (dc_reason d)).

Definition checkpoint_hash (a : ArchivalAttestation) : bytes :=
  blake3_derive_key "dregg-cell:archival-attestation v1"
    (aa_cell_id a ++ le_bytes 8 (aa_start_height a) ++ le_bytes 8 (aa_end_height a)
       ++ aa_blob_hash a ++ aa_terminal_commitment a ++ aa_terminal_receipt_hash a).

End Hashes.

(** [hash_lifecycle_into]: the discriminant, then the variant's payload. *)
Definition lifecycle_bytes (lc : CellLifecycle) : bytes :=
  discriminant lc ::
  match lc with
  | Live => []
  | Sealed reason_hash sealed_at => reason_hash ++ le_bytes 8 sealed_at
  | Migrated to attestation migrated_at => to ++ attestation ++ le_bytes 8 migrated_at
  | Destroyed h at_ => h ++ le_bytes 8 at_
  | Archived h through => h ++ le_bytes 8 through
  end.

(** The widths the Rust types fix. *)
Definition lifecycle_wf (lc : CellLifecycle) : Prop :=
  match lc with
  | Live => True
  | Sealed h n | Destroyed h n | Archived h n => length h = 32%nat /\ is_u64 n
  | Migrated t a n => length t = 32%nat /\ length a = 32%nat /\ is_u64 n
  end.

Definition certificate_wf (d : DeathCertificate) : Prop :=
  length (dc_cell_id d) = 32%nat /\ length (dc_last_receipt_hash d) = 32%nat /\
  length (dc_final_state_commitment d) = 32%nat /\ is_u64 (dc_destroyed_at_height d).

Definition attestation_wf (a : ArchivalAttestation) : Prop :=
  length (aa_cell_id a) = 32%nat /\ is_u64 (aa_start_height a) /\ is_u64 (aa_end_height a) /\
  length (aa_blob_hash a) = 32%nat /\ length (aa_terminal_commitment a) = 32%nat.

Lemma lifecycle_bytes_inj l1 l2 :
  lifecycle_wf l1 -> lifecycle_wf l2 -> lifecycle_bytes l1 = lifecycle_bytes l2 -> l1 = l2.
Proof.
  unfold lifecycle_bytes. destruct l1, l2; simpl; try done; intros H1 H2 [= E];
    destruct_and?; repeat (apply app_inj_1 in E as [-> E]; [|congruence]);
    apply le_bytes8_inj in E as ->; done.
Qed.

Lemma reason_bytes_inj r1 r2 : reason_bytes r1 = reason_bytes r2 -> r1 = r2.
Proof. destruct r1, r2; simpl; congruence. Qed.

Section HashFacts.
Context `{Hcr : Blake3CR}.

Lemma certificate_hash_inj d1 d2 :
  certificate_wf d1 -> certificate_wf d2 -> certificate_hash d1 = certificate_hash d2 -> d1 = d2.
Proof.
  intros (?&?&?&?) (?&?&?&?) [_ E]%blake3_derive_key_inj.
  apply app_inj_1 in E as [E1 E]; [|congruence].
  apply app_inj_1 in E as [E2 E]; [|congruence].
  apply app_inj_1 in E as [E3 E]; [|congruence].
  apply app_inj_1 in E as [E4 E5]; [|by rewrite !length_le_bytes].
  apply le_bytes8_inj in E4; [|done..]. apply reason_bytes_inj in E5.
  destruct d1, d2; simpl in *; congruence.
Qed.

Lemma checkpoint_hash_inj a1 a2 :
  attestation_wf a1 -> attestation_wf a2 -> checkpoint_hash a1 = checkpoint_hash a2 -> a1 = a2.
Proof.
  intros (?&?&?&?&?) (?&?&?&?&?) [_ E]%blake3_derive_key_inj.
  apply app_inj_1 in E as [E1 E]; [|congruence].
  apply app_inj_1 in E as [E2 E]; [|by rewrite !length_le_bytes].
  apply app_inj_1 in E as [E3 E]; [|by rewrite !length_le_bytes].
  apply app_inj_1 in E as [E4 E]; [|congruence].
  apply app_inj_1 in E as [E5 E6]; [|congruence].
  apply le_bytes8_inj in E2; [|done..]. apply le_bytes8_inj in E3; [|done..].
  destruct a1, a2; simpl in *; congruence.
Qed.

End HashFacts.

#[export] Hint Resolve lifecycle_bytes_inj : dregg.
