(* ===== verification/Cell.v ===== *)
(** * Cells

    Models [cell/src/cell.rs] (the cell, its constructors, the leaf-digest
    cache, the lifecycle transitions), [cell/src/delegation.rs] (delegation
    snapshots), [CellId::derive_raw] of [types/src/lib.rs], and the canonical
    state commitment of [cell/src/commitment.rs].  A program's constraints are
    kept abstract: the commitment only sees their serialisation. *)

From stdpp Require Import base decidable option list strings relations.
From Stdlib Require Import ZArith Lia.
From S2P Require Import Prelude BabyBear Poseidon2 CapRoot Heap State Permissions Facet.
From S2P Require Import Derivation Capability Lifecycle.

Open Scope Z_scope.

(** ** Programs

    [postcard] is a crate the repository does not vendor; the constraint and
    case types are those of [cell/src/program], which the cell only stores. *)

Class ProgramCodec := {
  StateConstraint : Type;
  TransitionCase : Type;
  postcard_constraints : list StateConstraint -> option bytes;
  postcard_cases : list TransitionCase -> option bytes;
}.

(** Serialisation succeeds and is decodable, so it is injective. *)
Class ProgramCodecOk (C : ProgramCodec) : Prop := {
  postcard_constraints_inj : forall x y b,
    postcard_constraints x = Some b -> postcard_constraints y = Some b -> x = y;
  postcard_constraints_some : forall x, is_Some (postcard_constraints x);
  postcard_cases_inj : forall x y b,
    postcard_cases x = Some b -> postcard_cases y = Some b -> x = y;
  postcard_cases_some : forall x, is_Some (postcard_cases x);
}.

Definition model_codec : ProgramCodec := {|
  StateConstraint := Z;
  TransitionCase := Z;
  postcard_constraints := Some;
  postcard_cases := Some;
|}.

Lemma model_codec_ok : ProgramCodecOk model_codec.
Proof. split; simpl; [congruence|eauto|congruence|eauto]. Qed.

Inductive CellProgram `{ProgramCodec} : Type :=
| ProgNone
| ProgPredicate (constraints : list StateConstraint)
| ProgCircuit (circuit_hash : bytes)
| ProgCases (cases : list TransitionCase).

Arguments ProgNone {_}.
Arguments ProgPredicate {_} _.
Arguments ProgCircuit {_} _.
Arguments ProgCases {_} _.

(** ** Delegation snapshots *)

Record DelegatedRef : Type := mkDelegated {
  d_source : CellId;
  d_child : CellId;
  d_snapshot : list CapabilityRef;
  d_epoch : Z;
  d_refreshed_at : Z;
  d_max_staleness : Z;
  d_clist_commitment : bytes;
  d_parent_signature : bytes;
}.

Definition is_stale (d : DelegatedRef) (now : Z) : bool :=
  if d_max_staleness d =? 0 then true
  else d_max_staleness d <? saturating_sub now (d_refreshed_at d).

Definition has_capability (d : DelegatedRef) (target : CellId) : bool :=
  any (points_at target) (d_snapshot d).

Definition deleg_capabilities_for (d : DelegatedRef) (target : CellId) : list CapabilityRef :=
  retain (points_at target) (d_snapshot d).

(** ** The cell *)

Inductive CellMode : Type := Hosted | Sovereign.

#[global] Instance CellMode_eq_dec : EqDecision CellMode.
Proof. solve_decision. Defined.

Record VerificationKey : Type := mkVk { vk_hash : bytes; vk_data : bytes }.

Record VerificationKeyIntegrityError : Type := mkVkErr { vke_expected : bytes; vke_got : bytes }.

Record Cell `{ProgramCodec} : Type := mkCell {
  c_id : CellId;
  c_public_key : bytes;
  c_state : CellState;
  c_permissions : Permissions;
  c_verification_key : option VerificationKey;
  c_delegate : option CellId;
  c_delegation : option DelegatedRef;
  c_token_id : bytes;
  c_capabilities : CapabilitySet;
  c_program : CellProgram;
  c_mode : CellMode;
  c_lifecycle : CellLifecycle;
  c_leaf_cache : option bytes;
}.

Record CellConfig `{ProgramCodec} : Type := mkConfig {
  cfg_mode : CellMode;
  cfg_balance : Z;
  cfg_permissions : option Permissions;
  cfg_program : option CellProgram;
  cfg_verification_key : option VerificationKey;
}.

Arguments mkCell {_} _ _ _ _ _ _ _ _ _ _ _ _ _.
Arguments c_id {_} _.
Arguments c_public_key {_} _.
Arguments c_state {_} _.
Arguments c_permissions {_} _.
Arguments c_verification_key {_} _.
Arguments c_delegate {_} _.
Arguments c_delegation {_} _.
Arguments c_token_id {_} _.
Arguments c_capabilities {_} _.
Arguments c_program {_} _.
Arguments c_mode {_} _.
Arguments c_lifecycle {_} _.
Arguments c_leaf_cache {_} _.
Arguments mkConfig {_} _ _ _ _ _.
Arguments cfg_mode {_} _.
Arguments cfg_balance {_} _.
Arguments cfg_permissions {_} _.
Arguments cfg_program {_} _.
Arguments cfg_verification_key {_} _.

Section Cells.
Context `{HB : Blake3} `{HC : ProgramCodec}.

Definition derive_raw (public_key token_id : bytes) : CellId :=
  blake3_derive_key "dregg-cell-id-v1" (public_key ++ token_id).

Definition compute_clist_commitment (serialized_clist : bytes) : bytes :=
  blake3_derive_key "dregg-delegation-clist-commitment-v1" serialized_clist.

Definition signing_message (clist_commitment : bytes) (delegation_epoch : Z)
    (child_cell_id : CellId) : bytes :=
  blake3_derive_key "dregg-delegation-sig-v1"
    (clist_commitment ++ le_bytes 8 delegation_epoch ++ child_cell_id).

Definition vk_new (data : bytes) : VerificationKey := mkVk (blake3_hash data) data.

Definition vk_from_parts (hash data : bytes) : VerificationKey := mkVk hash data.

Definition vk_from_parts_checked (hash data : bytes)
    : result VerificationKey VerificationKeyIntegrityError :=
  let expected := blake3_hash data in
  if negb (bool_decide (expected = hash)) then Err (mkVkErr expected hash)
  else Ok (mkVk hash data).

(** The struct literal every constructor fills. *)
Definition cell_literal (id public_key token_id : bytes) (st : CellState) (mode : CellMode) : Cell :=
  mkCell id public_key st default_user None None None token_id cset_new ProgNone mode Live None.

Definition cell_new (public_key token_id : bytes) : option Cell :=
  st ← state_new 0;
  Some (cell_literal (derive_raw public_key token_id) public_key token_id st Sovereign).

Definition new_hosted (public_key token_id : bytes) : option Cell :=
  st ← state_new 0;
  Some (cell_literal (derive_raw public_key token_id) public_key token_id st Hosted).

Definition cell_with_balance (public_key token_id : bytes) (b : Z) : option Cell :=
  st ← state_new b;
  Some (cell_literal (derive_raw public_key token_id) public_key token_id st Hosted).

Definition remote_stub_with_id_pk_balance (id : CellId) (public_key : bytes) (b : Z) : option Cell :=
  st ← state_new b;
  Some (cell_literal id public_key zero32 st Hosted).

Definition remote_stub_with_id_and_balance (id : CellId) (b : Z) : option Cell :=
  remote_stub_with_id_pk_balance id zero32 b.

Definition remote_stub_with_id (id : CellId) : option Cell := remote_stub_with_id_and_balance id 0.

Definition config_default : CellConfig := mkConfig Sovereign 0 None None None.

Definition from_config (public_key token_id : bytes) (config : CellConfig) : option Cell :=
  st ← state_new (cfg_balance config);
  Some (mkCell (derive_raw public_key token_id) public_key st
          (default default_user (cfg_permissions config)) (cfg_verification_key config)
          None None token_id cset_new (default ProgNone (cfg_program config))
          (cfg_mode config) Live None).

Definition spawn_child (self : Cell) (child_public_key child_token_id : bytes) : option Cell :=
  st ← state_new 0;
  Some (mkCell (derive_raw child_public_key child_token_id) child_public_key st default_user
          None (Some (c_id self)) None child_token_id cset_new ProgNone Hosted Live None).

Definition verify_id_integrity (self : Cell) : bool :=
  bool_decide (c_id self = derive_raw (c_public_key self) (c_token_id self)).

(** ** Updates *)

Definition with_state (c : Cell) (s : CellState) : Cell :=
  mkCell (c_id c) (c_public_key c) s (c_permissions c) (c_verification_key c) (c_delegate c)
    (c_delegation c) (c_token_id c) (c_capabilities c) (c_program c) (c_mode c) (c_lifecycle c)
    (c_leaf_cache c).

Definition with_permissions (c : Cell) (p : Permissions) : Cell :=
  mkCell (c_id c) (c_public_key c) (c_state c) p (c_verification_key c) (c_delegate c)
    (c_delegation c) (c_token_id c) (c_capabilities c) (c_program c) (c_mode c) (c_lifecycle c)
    (c_leaf_cache c).

Definition with_capabilities (c : Cell) (s : CapabilitySet) : Cell :=
  mkCell (c_id c) (c_public_key c) (c_state c) (c_permissions c) (c_verification_key c)
    (c_delegate c) (c_delegation c) (c_token_id c) s (c_program c) (c_mode c) (c_lifecycle c)
    (c_leaf_cache c).

Definition with_lifecycle (c : Cell) (l : CellLifecycle) : Cell :=
  mkCell (c_id c) (c_public_key c) (c_state c) (c_permissions c) (c_verification_key c)
    (c_delegate c) (c_delegation c) (c_token_id c) (c_capabilities c) (c_program c) (c_mode c) l
    (c_leaf_cache c).

Definition with_mode (c : Cell) (m : CellMode) : Cell :=
  mkCell (c_id c) (c_public_key c) (c_state c) (c_permissions c) (c_verification_key c)
    (c_delegate c) (c_delegation c) (c_token_id c) (c_capabilities c) (c_program c) m
    (c_lifecycle c) (c_leaf_cache c).

Definition with_leaf_cache (c : Cell) (d : option bytes) : Cell :=
  mkCell (c_id c) (c_public_key c) (c_state c) (c_permissions c) (c_verification_key c)
    (c_delegate c) (c_delegation c) (c_token_id c) (c_capabilities c) (c_program c) (c_mode c)
    (c_lifecycle c) d.

(** ** Lifecycle transitions *)

Definition seal (self : Cell) (reason_hash : bytes) (sealed_at : Z)
    : result Cell LifecycleTransitionError :=
  match c_lifecycle self with
  | Live | Archived _ _ => Ok (with_lifecycle self (Sealed reason_hash sealed_at))
  | Sealed _ _ => Err AlreadySealed
  | Destroyed _ _ | Migrated _ _ _ => Err Terminal
  end.

Definition unseal (self : Cell) : result Cell LifecycleTransitionError :=
  if is_sealed (c_lifecycle self) then Ok (with_lifecycle self Live) else Err NotSealed.

Definition destroy (self : Cell) (certificate : DeathCertificate)
    : result Cell LifecycleTransitionError :=
  if is_terminal (c_lifecycle self) then Err Terminal
  else if negb (bool_decide (dc_cell_id certificate = c_id self)) then Err CertificateMismatch
  else Ok (with_lifecycle self
             (Destroyed (certificate_hash certificate) (dc_destroyed_at_height certificate))).

Definition archive (self : Cell) (a : ArchivalAttestation)
    : result Cell LifecycleTransitionError :=
  if is_terminal (c_lifecycle self) then Err Terminal
  else if is_sealed (c_lifecycle self) then Err SealedCannotArchive
  else if negb (bool_decide (aa_cell_id a = c_id self)) then Err CertificateMismatch
  else match validate a with
       | Err why => Err (InvalidAttestation why)
       | Ok _ =>
           let done_ := Ok (with_lifecycle self (Archived (checkpoint_hash a) (aa_end_height a))) in
           match c_lifecycle self with
           | Archived _ archived_through =>
               if aa_end_height a <=? archived_through then Err ArchiveNotMonotone else done_
           | _ => done_
           end
       end.

(** ** The canonical state commitment *)

Definition hash_auth_required (auth : AuthRequired) : bytes :=
  auth_byte auth :: match auth with AR_Custom vk => vk | _ => [] end.

Definition visibility_byte (v : FieldVisibility) : Z :=
  match v with Public => 0 | Committed => 1 | SelectivelyDisclosable => 2 end.

(** [Some] is the byte 1 and the payload, [None] the byte 0. *)
Definition opt_bytes {A} (enc : A -> bytes) (o : option A) : bytes :=
  match o with Some x => 1 :: enc x | None => [0] end.

Definition system_roots_digest (s : CellState) : bytes :=
  compute_system_roots_digest (system_roots s).

Definition hash_cell_state (s : CellState) : bytes :=
  le_bytes 8 (nonce s) ++ encode_balance_le (balance s) ++ concat (fields s)
  ++ map visibility_byte (field_visibility s)
  ++ concat (map (opt_bytes id) (commitments s))
  ++ [if proved_state s then 1 else 0] ++ le_bytes 8 (delegation_epoch s)
  ++ le_bytes 8 (committed_height s) ++ swiss_table_root s ++ refcount_table_root s
  ++ digest8_to_bytes32 (fields_root s) ++ system_roots_digest s
  ++ digest8_to_bytes32 (heap_root s).

Definition hash_permissions (p : Permissions) : bytes :=
  hash_auth_required (send p) ++ hash_auth_required (receive p)
  ++ hash_auth_required (set_state p) ++ hash_auth_required (set_permissions p)
  ++ hash_auth_required (set_verification_key p) ++ hash_auth_required (increment_nonce_perm p)
  ++ hash_auth_required (delegate_perm p) ++ hash_auth_required (access p).

Definition hash_capability_ref (c : CapabilityRef) : bytes :=
  cap_target c ++ le_bytes 4 (cap_slot c) ++ hash_auth_required (cap_permissions c)
  ++ opt_bytes id (cap_breadstuff c) ++ opt_bytes (le_bytes 8) (cap_expires_at c)
  ++ opt_bytes (le_bytes 4) (cap_allowed_effects c).

Definition hash_delegation (d : DelegatedRef) : bytes :=
  d_source d ++ le_bytes 8 (d_epoch d) ++ le_bytes 8 (d_refreshed_at d)
  ++ le_bytes 8 (d_max_staleness d) ++ le_bytes 8 (Z.of_nat (length (d_snapshot d)))
  ++ concat (map hash_capability_ref (d_snapshot d)).

Definition sized (b : bytes) : bytes := le_bytes 8 (Z.of_nat (length b)) ++ b.

Definition hash_program (p : CellProgram) : bytes :=
  match p with
  | ProgNone => [0]
  | ProgPredicate constraints => 1 :: sized (default [] (postcard_constraints constraints))
  | ProgCircuit circuit_hash => 2 :: circuit_hash
  | ProgCases cases => 3 :: sized (default [] (postcard_cases cases))
  end.

Definition CANONICAL_COMMITMENT_CONTEXT : string := "dregg-cell:canonical-state-commitment v9".

(** The bytes absorbed, given the encoded capability root. *)
Definition commitment_preimage (cap_root : bytes) (c : Cell) : bytes :=
  c_id c ++ c_public_key c ++ c_token_id c
  ++ [match c_mode c with Hosted => 0 | Sovereign => 1 end]
  ++ hash_cell_state (c_state c) ++ hash_permissions (c_permissions c)
  ++ opt_bytes vk_hash (c_verification_key c) ++ cap_root
  ++ opt_bytes id (c_delegate c) ++ opt_bytes hash_delegation (c_delegation c)
  ++ hash_program (c_program c) ++ lifecycle_bytes (c_lifecycle c).

(** [None] is the capability tree builder's failed capacity assertion. *)
Definition compute_canonical_state_commitment (c : Cell) : option bytes :=
  cap_root ← compute_canonical_capability_root_wide (c_capabilities c);
  Some (blake3_derive_key CANONICAL_COMMITMENT_CONTEXT (commitment_preimage cap_root c)).

Definition state_commitment (c : Cell) : option bytes := compute_canonical_state_commitment c.

Definition invalidate_leaf_cache (c : Cell) : Cell := with_leaf_cache c None.

(** The digest, with the cell whose cache it filled. *)
Definition cached_leaf_digest (c : Cell) : option (bytes * Cell) :=
  match c_leaf_cache c with
  | Some d => Some (d, c)
  | None =>
      d ← compute_canonical_state_commitment c;
      Some (d, with_leaf_cache c (Some d))
  end.

End Cells.

(** ** Prefix codes

    An encoder is a prefix code when what follows an encoding can be split off
    it: the two values then agree on [view], the part of them it encodes. *)

Definition prefix_code {A B} (wf : A -> Prop) (view : A -> B) (enc : A -> bytes) : Prop :=
  forall a b x y, wf a -> wf b -> enc a ++ x = enc b ++ y -> view a = view b /\ x = y.

Lemma pc_fixed n : prefix_code (fun b => length b = n) id id.
Proof. intros a b x y Ha Hb E. unfold id in *. apply app_inj_1 in E; [done|congruence]. Qed.

Lemma pc_le8 : prefix_code is_u64 id (le_bytes 8).
Proof.
  intros a b x y Ha Hb E. apply app_inj_1 in E as [E ->]; [|by rewrite !length_le_bytes].
  split; [|done]. by apply le_bytes8_inj.
Qed.

Lemma pc_le4 : prefix_code is_u32 id (le_bytes 4).
Proof.
  intros a b x y Ha Hb E. apply app_inj_1 in E as [E ->]; [|by rewrite !length_le_bytes].
  split; [|done]. by apply le_bytes4_inj.
Qed.

Lemma pc_opt {A B} (wf : A -> Prop) (view : A -> B) enc :
  prefix_code wf view enc ->
  prefix_code (from_option wf True) (fmap (M := option) view) (opt_bytes enc).
Proof.
  intros H [a|] [b|] x y Ha Hb; cbn [opt_bytes app]; [|done|done|by intros [= ->]].
  intros [= E]. destruct (H a b x y Ha Hb E) as [Hv ->]. split; [|done]. cbn. by rewrite Hv.
Qed.

Lemma pc_list {A B} (wf : A -> Prop) (view : A -> B) enc n :
  prefix_code wf view enc ->
  prefix_code (fun l => length l = n /\ Forall wf l) (map view) (fun l => concat (map enc l)).
Proof.
  intros H. induction n as [|n IH]; intros [|a l] [|b k] x y [Hl Hwl] [Hk Hwk] E; try done.
  cbn [map concat] in *. rewrite <-!app_assoc in E.
  apply Forall_cons in Hwl as [Ha Hwl]. apply Forall_cons in Hwk as [Hb Hwk].
  destruct (H _ _ _ _ Ha Hb E) as [-> E'].
  destruct (IH l k x y) as [-> ->]; [|by split; [injection Hk|]|done|done].
  by split; [injection Hl|].
Qed.

Definition auth_wf (a : AuthRequired) : Prop :=
  match a with AR_Custom vk => length vk = 32%nat | _ => True end.

Lemma pc_auth : prefix_code auth_wf id hash_auth_required.
Proof.
  intros a b x y Ha Hb. unfold hash_auth_required, id.
  destruct a, b; simpl in *; try done; intros [= E]; [done..|].
  apply app_inj_1 in E as [-> ->]; [done|congruence].
Qed.

Lemma pc_sized : prefix_code (fun b => Z.of_nat (length b) <= u64_max) id sized.
Proof.
  intros a b x y Ha Hb E. unfold sized in E. rewrite <-!app_assoc in E.
  apply pc_le8 in E as [El E]; [|unfold is_u64; lia..].
  unfold id in El. apply app_inj_1 in E; [done|lia].
Qed.

(** ** What the commitment binds *)

Definition digest8_wf (d : digest8) : Prop := length d = 8%nat /\ Forall is_u32 d.

Record state_wf (s : CellState) : Prop := {
  swf_nonce : is_u64 (nonce s);
  swf_balance : is_i64 (balance s);
  swf_fields : length (fields s) = STATE_SLOTS /\ Forall (fun f => length f = 32%nat) (fields s);
  swf_visibility : length (field_visibility s) = STATE_SLOTS;
  swf_commitments : length (commitments s) = STATE_SLOTS /\
    Forall (from_option (fun h : bytes => length h = 32%nat) True) (commitments s);
  swf_epoch : is_u64 (delegation_epoch s);
  swf_height : is_u64 (committed_height s);
  swf_swiss : length (swiss_table_root s) = 32%nat;
  swf_refcount : length (refcount_table_root s) = 32%nat;
  swf_fields_root : digest8_wf (fields_root s);
  swf_system : length (system_roots s) = N_SYSTEM_ROOTS /\
    Forall (fun f => length f = 32%nat) (system_roots s);
  swf_heap_root : digest8_wf (heap_root s);
}.

Definition state_view (s : CellState) :=
  (nonce s, balance s, fields s, field_visibility s, commitments s, proved_state s,
   (delegation_epoch s, committed_height s, swiss_table_root s, refcount_table_root s,
    fields_root s, system_roots s, heap_root s)).

Lemma pc_digest8 : prefix_code digest8_wf id digest8_to_bytes32.
Proof.
  intros a b x y Ha Hb E. destruct (pc_list _ _ _ 8 pc_le4 _ _ _ _ Ha Hb E) as [Hv ->].
  split; [|done]. unfold id in *. by rewrite !map_id in Hv.
Qed.

Lemma pc_blocks n :
  prefix_code (fun l => length l = n /\ Forall (fun f : bytes => length f = 32%nat) l) id (@concat Z).
Proof.
  intros a b x y Ha Hb E. destruct (pc_list _ _ _ n (pc_fixed 32) _ _ x y Ha Hb) as [Hv ->].
  - by rewrite !map_id.
  - split; [|done]. unfold id in *. by rewrite !map_id in Hv.
Qed.

#[global] Instance visibility_byte_inj : Inj (=) (=) visibility_byte.
Proof. intros [] []; done. Qed.

Section CommitmentFacts.
Context `{Hcr : Blake3CR}.

Lemma system_roots_digest_eq roots :
  compute_system_roots_digest roots =
  blake3_derive_key SYSTEM_ROOTS_CONTEXT (le_bytes 8 (Z.of_nat N_SYSTEM_ROOTS) ++ concat roots).
Proof.
  unfold compute_system_roots_digest. case_bool_decide as E; [by subst roots|done].
Qed.

Lemma pc_state : prefix_code state_wf state_view hash_cell_state.
Proof.
  intros s t x y [] [] E. unfold hash_cell_state in E. rewrite <-!app_assoc in E.
  apply pc_le8 in E as [E1 E]; [|done..].
  unfold encode_balance_le in E. rewrite !balance_biased_add in E by done.
  apply pc_le8 in E as [E2 E];
    [|unfold is_u64, u64_max, is_i64, i64_min, i64_max in *; lia..].
  apply (pc_blocks STATE_SLOTS) in E as [E3 E]; [|done..].
  apply app_inj_1 in E as [E4 E]; [|rewrite !length_map; congruence].
  apply (pc_list _ _ _ STATE_SLOTS (pc_opt _ _ _ (pc_fixed 32))) in E as [E5 E]; [|done..].
  apply app_inj_1 in E as [E6 E]; [|done].
  apply pc_le8 in E as [E7 E]; [|done..]. apply pc_le8 in E as [E8 E]; [|done..].
  apply (pc_fixed 32) in E as [E9 E]; [|done..]. apply (pc_fixed 32) in E as [E10 E]; [|done..].
  apply pc_digest8 in E as [E11 E]; [|done..].
  unfold system_roots_digest in E. rewrite !system_roots_digest_eq in E.
  apply (pc_fixed 32) in E as [E12 E]; [|by rewrite length_blake3_derive_key..].
  apply pc_digest8 in E as [E13 E]; [|done..].
  unfold id in *. apply blake3_derive_key_inj in E12 as [_ E12]. apply app_inv_head in E12.
  apply (f_equal (fun l => l ++ [])) in E12. apply (pc_blocks N_SYSTEM_ROOTS) in E12 as [E12 _]; [|done..].
  apply (inj (fmap visibility_byte)) in E4.
  rewrite !(map_ext _ id (fun o => option_fmap_id o)), !map_id in E5.
  split; [|done]. unfold state_view.
  assert (proved_state s = proved_state t) as -> by (by destruct (proved_state s), (proved_state t)).
  assert (balance s = balance t) as -> by (unfold id in E2; lia).
  unfold id in *. by rewrite E1, E3, E4, E5, E7, E8, E9, E10, E11, E12, E13.
Qed.


Record permissions_wf (p : Permissions) : Prop := {
  pwf_all : Forall auth_wf [send p; receive p; set_state p; set_permissions p;
                            set_verification_key p; increment_nonce_perm p; delegate_perm p; access p];
}.

Lemma pc_permissions : prefix_code permissions_wf id hash_permissions.
Proof.
  intros p q x y [Hp] [Hq] E. unfold hash_permissions in E. rewrite <-!app_assoc in E.
  rewrite !Forall_cons in Hp, Hq. destruct_and!.
  do 8 (apply pc_auth in E as [? E]; [|done..]).
  split; [|done]. destruct p, q; unfold id in *; simpl in *; congruence.
Qed.

(** A snapshot entry is bound but for its stored epoch and its provenance. *)
Definition cap_view (c : CapabilityRef) :=
  (cap_target c, cap_slot c, cap_permissions c, cap_breadstuff c, cap_expires_at c,
   cap_allowed_effects c).

Record cap_wf (c : CapabilityRef) : Prop := {
  cwf_target : length (cap_target c) = 32%nat;
  cwf_slot : is_u32 (cap_slot c);
  cwf_permissions : auth_wf (cap_permissions c);
  cwf_breadstuff : from_option (fun b : bytes => length b = 32%nat) True (cap_breadstuff c);
  cwf_expiry : from_option is_u64 True (cap_expires_at c);
  cwf_effects : from_option is_u32 True (cap_allowed_effects c);
}.

Lemma pc_cap_ref : prefix_code cap_wf cap_view hash_capability_ref.
Proof.
  intros a b x y [] [] E. unfold hash_capability_ref in E. rewrite <-!app_assoc in E.
  apply (pc_fixed 32) in E as [E1 E]; [|done..]. apply pc_le4 in E as [E2 E]; [|done..].
  apply pc_auth in E as [E3 E]; [|done..].
  apply (pc_opt _ _ _ (pc_fixed 32)) in E as [E4 E]; [|done..].
  apply (pc_opt _ _ _ pc_le8) in E as [E5 E]; [|done..].
  apply (pc_opt _ _ _ pc_le4) in E as [E6 E]; [|done..].
  rewrite !option_fmap_id in *. split; [|done]. unfold cap_view, id in *. congruence.
Qed.

Definition delegation_view (d : DelegatedRef) :=
  (d_source d, d_epoch d, d_refreshed_at d, d_max_staleness d, map cap_view (d_snapshot d)).

Record delegation_wf (d : DelegatedRef) : Prop := {
  dwf_source : length (d_source d) = 32%nat;
  dwf_epoch : is_u64 (d_epoch d);
  dwf_refreshed : is_u64 (d_refreshed_at d);
  dwf_staleness : is_u64 (d_max_staleness d);
  dwf_count : Z.of_nat (length (d_snapshot d)) <= u64_max;
  dwf_snapshot : Forall cap_wf (d_snapshot d);
}.

Lemma pc_delegation : prefix_code delegation_wf delegation_view hash_delegation.
Proof.
  intros a b x y [] [] E. unfold hash_delegation in E. rewrite <-!app_assoc in E.
  apply (pc_fixed 32) in E as [E1 E]; [|done..]. apply pc_le8 in E as [E2 E]; [|done..].
  apply pc_le8 in E as [E3 E]; [|done..]. apply pc_le8 in E as [E4 E]; [|done..].
  apply pc_le8 in E as [E5 E]; [|unfold is_u64; lia..]. unfold id in E5. apply Nat2Z.inj in E5.
  apply (pc_list _ _ _ (length (d_snapshot b)) pc_cap_ref) in E as [E6 E]; [|done..].
  split; [|done]. unfold delegation_view, id in *. congruence.
Qed.

Section Bind.
Context `{Hok : ProgramCodecOk}.

Definition program_wf (p : CellProgram) : Prop :=
  match p with
  | ProgNone => True
  | ProgPredicate cs =>
      from_option (fun b : bytes => Z.of_nat (length b) <= u64_max) True (postcard_constraints cs)
  | ProgCircuit h => length h = 32%nat
  | ProgCases cs =>
      from_option (fun b : bytes => Z.of_nat (length b) <= u64_max) True (postcard_cases cs)
  end.

Lemma pc_program : prefix_code program_wf id hash_program.
Proof.
  intros p q x y Hp Hq. unfold hash_program, id.
  destruct p as [|cs|h|cs], q as [|cs'|h'|cs']; cbn [app]; try done.
  - by intros [= ->].
  - intros E. apply (app_inj_1 [_] [_]) in E as [_ E]; [|done]. simpl in Hp, Hq.
    destruct (postcard_constraints_some cs) as [b Eb], (postcard_constraints_some cs') as [b' Eb'].
    rewrite Eb, Eb' in *. simpl in *. apply pc_sized in E as [E ->]; [|done..]. unfold id in E. subst b'.
    split; [|done]. f_equal. by apply (postcard_constraints_inj _ _ b).
  - intros [= E]. apply app_inj_1 in E as [-> ->]; [done|]. simpl in *. congruence.
  - intros E. apply (app_inj_1 [_] [_]) in E as [_ E]; [|done]. simpl in Hp, Hq.
    destruct (postcard_cases_some cs) as [b Eb], (postcard_cases_some cs') as [b' Eb'].
    rewrite Eb, Eb' in *. simpl in *. apply pc_sized in E as [E ->]; [|done..]. unfold id in E. subst b'.
    split; [|done]. f_equal. by apply (postcard_cases_inj _ _ b).
Qed.

(** Everything of a cell the commitment depends on. *)
Definition cell_view (c : Cell) :=
  (c_id c, c_public_key c, c_token_id c, c_mode c, state_view (c_state c), c_permissions c,
   (vk_hash <$> c_verification_key c,
    compute_canonical_capability_root_wide (c_capabilities c), c_delegate c,
    delegation_view <$> c_delegation c, c_program c, c_lifecycle c)).

Record cell_wf (c : Cell) : Prop := {
  cwf_id : length (c_id c) = 32%nat;
  cwf_pk : length (c_public_key c) = 32%nat;
  cwf_token : length (c_token_id c) = 32%nat;
  cwf_state : state_wf (c_state c);
  cwf_perms : permissions_wf (c_permissions c);
  cwf_vk : from_option (fun v => length (vk_hash v) = 32%nat) True (c_verification_key c);
  cwf_delegate : from_option (fun d : CellId => length d = 32%nat) True (c_delegate c);
  cwf_delegation : from_option delegation_wf True (c_delegation c);
  cwf_program : program_wf (c_program c);
  cwf_lifecycle : lifecycle_wf (c_lifecycle c);
}.

Lemma pc_vk : prefix_code (fun v => length (vk_hash v) = 32%nat) vk_hash vk_hash.
Proof. intros a b x y Ha Hb E. by apply (pc_fixed 32) in E. Qed.

Lemma length_digest8_bytes d : length d = 8%nat -> length (digest8_to_bytes32 d) = 32%nat.
Proof.
  intros Hd. do 8 (destruct d as [|? d]; [done|]). destruct d; [|done].
  unfold digest8_to_bytes32. cbn [map concat]. by rewrite !length_app, !length_le_bytes.
Qed.

Lemma length_cap_root_wide s r :
  compute_canonical_capability_root_wide s = Some r -> length r = 32%nat.
Proof.
  unfold compute_canonical_capability_root_wide, compute_canonical_capability_root_8,
    compute_capability_root_with_tombstones.
  destruct (new_with_tombstones _ _ _) as [t|] eqn:Et; [|done]. cbn. intros [= <-].
  apply length_digest8_bytes. eapply (root_canonical _ _ 15 t); [exact Et|].
  apply Forall_forall. intros l (c & -> & _)%list_elem_of_fmap. apply cap_ref_to_leaf_ok.
Qed.

Lemma commitment_preimage_inj r1 r2 c1 c2 :
  cell_wf c1 -> cell_wf c2 ->
  compute_canonical_capability_root_wide (c_capabilities c1) = Some r1 ->
  compute_canonical_capability_root_wide (c_capabilities c2) = Some r2 ->
  commitment_preimage r1 c1 = commitment_preimage r2 c2 -> cell_view c1 = cell_view c2.
Proof.
  intros [] [] Er1 Er2 E. pose proof (length_cap_root_wide _ _ Er1) as Hr1.
  pose proof (length_cap_root_wide _ _ Er2) as Hr2. unfold commitment_preimage in E.
  apply (pc_fixed 32) in E as [E1 E]; [|done..]. apply (pc_fixed 32) in E as [E2 E]; [|done..].
  apply (pc_fixed 32) in E as [E3 E]; [|done..]. apply app_inj_1 in E as [E4 E]; [|done].
  apply pc_state in E as [E5 E]; [|done..]. apply pc_permissions in E as [E6 E]; [|done..].
  apply (pc_opt _ _ _ pc_vk) in E as [E7 E]; [|done..].
  apply (pc_fixed 32) in E as [E8 E]; [|done..].
  apply (pc_opt _ _ _ (pc_fixed 32)) in E as [E9 E]; [|done..].
  apply (pc_opt _ _ _ pc_delegation) in E as [E10 E]; [|done..].
  apply pc_program in E as [E11 E]; [|done..].
  apply lifecycle_bytes_inj in E as E12; [|done..].
  assert (c_mode c1 = c_mode c2) as Em by (by destruct (c_mode c1), (c_mode c2)).
  rewrite !option_fmap_id in E9. unfold cell_view, id in *.
  by rewrite E1, E2, E3, Em, E5, E6, E7, Er1, Er2, E8, E9, E10, E11, E12.
Qed.

Lemma commitment_inj c1 c2 d :
  cell_wf c1 -> cell_wf c2 ->
  compute_canonical_state_commitment c1 = Some d -> compute_canonical_state_commitment c2 = Some d ->
  cell_view c1 = cell_view c2.
Proof.
  intros H1 H2 E1 E2. unfold compute_canonical_state_commitment in E1, E2.
  destruct (compute_canonical_capability_root_wide (c_capabilities c1)) as [r1|] eqn:Er1; [|done].
  destruct (compute_canonical_capability_root_wide (c_capabilities c2)) as [r2|] eqn:Er2; [|done].
  injection E1 as E1. injection E2 as E2. rewrite <-E2 in E1.
  apply blake3_derive_key_inj in E1 as [_ E1]. by eapply commitment_preimage_inj.
Qed.

Lemma length_commitment c d : compute_canonical_state_commitment c = Some d -> length d = 32%nat.
Proof.
  unfold compute_canonical_state_commitment.
  destruct (compute_canonical_capability_root_wide (c_capabilities c)) as [r|]; [|done].
  intros [= <-]. apply length_blake3_derive_key.
Qed.

Lemma hash_cell_state_view s t : state_view s = state_view t -> hash_cell_state s = hash_cell_state t.
Proof.
  unfold state_view. intros [= E1 E2 E3 E4 E5 E6 E7 E8 E9 E10 E11 E12 E13].
  unfold hash_cell_state, system_roots_digest.
  by rewrite E1, E2, E3, E4, E5, E6, E7, E8, E9, E10, E11, E12, E13.
Qed.

Lemma hash_delegation_view a b :
  delegation_view a = delegation_view b -> hash_delegation a = hash_delegation b.
Proof.
  unfold delegation_view. intros [= E1 E2 E3 E4 E5]. unfold hash_delegation.
  assert (length (d_snapshot a) = length (d_snapshot b)) as ->
    by (apply (f_equal length) in E5; by rewrite !length_map in E5).
  rewrite E1, E2, E3, E4. do 5 f_equal.
  set (h := fun v : CellId * Z * AuthRequired * option bytes * option Z * option Z =>
    let '(t, s, p, br, ex, ef) := v in
    t ++ le_bytes 4 s ++ hash_auth_required p ++ opt_bytes id br ++ opt_bytes (le_bytes 8) ex
      ++ opt_bytes (le_bytes 4) ef).
  assert (Hh : forall l, map hash_capability_ref l = map h (map cap_view l))
    by (intros l; rewrite map_map; by apply map_ext).
  by rewrite !Hh, E5.
Qed.

Lemma commitment_of_view c1 c2 :
  cell_view c1 = cell_view c2 ->
  compute_canonical_state_commitment c1 = compute_canonical_state_commitment c2.
Proof.
  intros E. unfold cell_view in E. repeat setoid_rewrite pair_equal_spec in E. destruct_and!.
  unfold compute_canonical_state_commitment, commitment_preimage.
  rewrite (hash_cell_state_view (c_state c1) (c_state c2)) by (unfold state_view; congruence).
  assert (Hvk : opt_bytes vk_hash (c_verification_key c1) = opt_bytes vk_hash (c_verification_key c2)).
  { destruct (c_verification_key c1), (c_verification_key c2); simplify_eq/=; congruence. }
  assert (Hd : opt_bytes hash_delegation (c_delegation c1) = opt_bytes hash_delegation (c_delegation c2)).
  { destruct (c_delegation c1), (c_delegation c2); simpl in *; try done.
    f_equal. apply hash_delegation_view. congruence. }
  rewrite Hvk, Hd. clear Hvk Hd.
  repeat match goal with H : ?f c1 = ?f c2 |- _ => rewrite H; clear H end.
  by match goal with H : compute_canonical_capability_root_wide _ = _ |- _ => rewrite H end.
Qed.

End Bind.

End CommitmentFacts.

(** ** Lifecycle steps *)

Section LifecycleSteps.
Context `{HB : Blake3} `{HC : ProgramCodec}.

Inductive lifecycle_op : Type :=
| OpSeal (reason_hash : bytes) (sealed_at : Z)
| OpUnseal
| OpDestroy (certificate : DeathCertificate)
| OpArchive (attestation : ArchivalAttestation).

Definition run_lifecycle (c : Cell) (o : lifecycle_op) : result Cell LifecycleTransitionError :=
  match o with
  | OpSeal r h => seal c r h
  | OpUnseal => unseal c
  | OpDestroy d => destroy c d
  | OpArchive a => archive c a
  end.

Inductive lifecycle_step : Cell -> Cell -> Prop :=
| LifecycleStep c o c' : run_lifecycle c o = Ok c' -> lifecycle_step c c'.

(** What a lifecycle state records about how it was entered. *)
Definition lifecycle_evidence (id : CellId) (l : CellLifecycle) : Prop :=
  match l with
  | Live | Sealed _ _ => True
  | Migrated _ _ _ => False
  | Destroyed h n =>
      exists d, dc_cell_id d = id /\ h = certificate_hash d /\ n = dc_destroyed_at_height d
  | Archived h n =>
      exists a, aa_cell_id a = id /\ validate a = Ok tt /\ h = checkpoint_hash a /\ n = aa_end_height a
  end.

Lemma run_lifecycle_frame c o c' :
  run_lifecycle c o = Ok c' -> c' = with_lifecycle c (c_lifecycle c').
Proof.
  destruct o; simpl; unfold seal, unseal, destroy, archive;
    repeat case_match; intros [= <-]; by destruct c.
Qed.

Lemma run_lifecycle_evidence c o c' :
  run_lifecycle c o = Ok c' -> lifecycle_evidence (c_id c) (c_lifecycle c').
Proof.
  destruct o as [| |d|a]; simpl; unfold seal, unseal, destroy, archive.
  - case_match; intros [= <-]; done.
  - case_match; intros [= <-]; done.
  - repeat case_match; intros [= <-]; simpl.
    exists d. split_and!; [|done..].
    match goal with H : negb _ = false |- _ => by apply negb_false_iff, bool_decide_eq_true in H end.
  - destruct (is_terminal _); [done|]. destruct (is_sealed _); [done|].
    destruct (bool_decide _) eqn:Eb; [|done]. simpl.
    destruct (validate a) as [[]|] eqn:Ev; [|done].
    intros E.
    assert (c' = with_lifecycle c (Archived (checkpoint_hash a) (aa_end_height a))) as ->
      by (repeat case_match; by simplify_eq).
    exists a. split_and!; [|done..]. by apply bool_decide_eq_true in Eb.
Qed.

Lemma run_lifecycle_terminal c o :
  is_terminal (c_lifecycle c) = true -> exists e, run_lifecycle c o = Err e.
Proof.
  intros Ht. destruct o; simpl; unfold seal, unseal, destroy, archive; rewrite ?Ht; [|eauto..];
    destruct (c_lifecycle c); simpl in *; eauto; done.
Qed.

(** The lifecycle state machine.  Whatever the sequence of seals,
    unseals, archivals and destructions, accepted or not, applied to a live
    cell: nothing but the lifecycle changes; a destroyed cell records the hash
    of a certificate that names it, an archived one the checkpoint of a valid
    attestation that names it, and no operation here marks a cell migrated; and
    from a terminal state every operation is an error. *)
Theorem lifecycle_machine c c' :
  c_lifecycle c = Live -> rtc lifecycle_step c c' ->
  c' = with_lifecycle c (c_lifecycle c') /\
  lifecycle_evidence (c_id c) (c_lifecycle c') /\
  (is_terminal (c_lifecycle c') = true -> forall o, exists e, run_lifecycle c' o = Err e).
Proof.
  intros Hl Hr.
  enough (c' = with_lifecycle c (c_lifecycle c') /\ lifecycle_evidence (c_id c) (c_lifecycle c'))
    as [H1 H2] by (split_and!; [done..|intros; by apply run_lifecycle_terminal]).
  revert c' Hr. apply (rtc_ind_r (fun c' => c' = with_lifecycle c (c_lifecycle c') /\
    lifecycle_evidence (c_id c) (c_lifecycle c'))).
  - rewrite Hl. split; [|done]. rewrite <-Hl. by destruct c.
  - intros ? ? _ [c1 o c2 Ho] [IH1 IH2]. assert (Hid : c_id c1 = c_id c) by (by rewrite IH1).
    pose proof (run_lifecycle_frame _ _ _ Ho) as Hf.
    split; [|rewrite <-Hid; by eapply run_lifecycle_evidence].
    rewrite Hf, IH1. by destruct c.
Qed.

(** Archival is monotone only while the cell is not sealed.  On an
    archived cell a cutover at or below the recorded one is refused; but
    sealing and unsealing forgets the record, after which any valid cutover,
    however low, is accepted. *)
Theorem archive_monotone_until_sealed c h t r n a :
  c_lifecycle c = Archived h t -> aa_cell_id a = c_id c -> validate a = Ok tt ->
  (archive c a = if aa_end_height a <=? t then Err ArchiveNotMonotone
                 else Ok (with_lifecycle c (Archived (checkpoint_hash a) (aa_end_height a)))) /\
  (let? c1 := seal c r n in let? c2 := unseal c1 in archive c2 a) =
    Ok (with_lifecycle c (Archived (checkpoint_hash a) (aa_end_height a))).
Proof.
  intros Hl Hid Hv. unfold seal, unseal, archive. rewrite Hl. cbn [is_terminal is_sealed].
  rewrite bool_decide_eq_true_2 by done. cbn [negb]. rewrite Hv. split; [done|].
  cbn [c_lifecycle with_lifecycle is_terminal is_sealed c_id].
  rewrite bool_decide_eq_true_2 by done. cbn [negb]. by destruct c.
Qed.

End LifecycleSteps.

(** C29: what the canonical commitment binds.  For two well-formed cells it is equal
    exactly when they agree on identity, mode, every committed part of the
    state, permissions, key hash, capability root, delegation snapshot (but for
    the stored epochs and provenances of its entries, the child, the c-list
    commitment and the signature), program and lifecycle. *)
Theorem commitment_binds_cell `{Hcr : Blake3CR} `{Hok : ProgramCodecOk} c1 c2 d1 d2 :
  cell_wf c1 -> cell_wf c2 ->
  compute_canonical_state_commitment c1 = Some d1 ->
  compute_canonical_state_commitment c2 = Some d2 ->
  (d1 = d2 <-> cell_view c1 = cell_view c2).
Proof.
  intros H1 H2 E1 E2. split.
  - intros <-. by apply (commitment_inj c1 c2 d1).
  - intros E%commitment_of_view. congruence.
Qed.

(** ** Witnesses *)

#[local] Existing Instance model_blake3.
#[local] Existing Instance model_codec.
#[local] Existing Instance model_blake3_cr.
#[local] Existing Instance model_codec_ok.

Definition w_cell : Cell :=
  cell_literal (fill32 7) (fill32 1) (fill32 2) (state_new_at 5 HEAP_ZERO8 HEAP_ZERO8) Hosted.

Definition w_attestation (n : Z) : ArchivalAttestation :=
  mkAttestation (fill32 7) 0 n (fill32 3) (fill32 4) (fill32 5).

Definition w_certificate : DeathCertificate :=
  mkCertificate (fill32 7) (fill32 3) (fill32 4) 30 Voluntary.

Lemma lifecycle_machine_witness :
  exists c', rtc lifecycle_step w_cell c' /\ is_terminal (c_lifecycle c') = true /\
    run_lifecycle c' OpUnseal = Err NotSealed /\
    exists e, run_lifecycle c' (OpDestroy w_certificate) = Err e.
Proof.
  set (c1 := with_lifecycle w_cell (Sealed (fill32 9) 20)).
  set (c2 := with_lifecycle w_cell (Destroyed (certificate_hash w_certificate) 30)).
  assert (Hr : rtc lifecycle_step w_cell c2).
  { apply rtc_l with c1; [by apply (LifecycleStep _ (OpSeal (fill32 9) 20))|].
    apply rtc_once. by apply (LifecycleStep _ (OpDestroy w_certificate)). }
  destruct (lifecycle_machine w_cell c2 eq_refl Hr) as (_ & _ & H).
  exists c2. split_and!; [exact Hr|reflexivity|reflexivity|]. apply H. reflexivity.
Defined.

Lemma archive_monotone_until_sealed_witness :
  let c := with_lifecycle w_cell (Archived (fill32 8) 50) in
  archive c (w_attestation 40) = Err ArchiveNotMonotone /\
  exists c', (let? c1 := seal c (fill32 9) 60 in let? c2 := unseal c1 in archive c2 (w_attestation 40)) = Ok c'.
Proof.
  intros c.
  destruct (archive_monotone_until_sealed c (fill32 8) 50 (fill32 9) 60 (w_attestation 40)) as [H1 H2];
    [reflexivity..|].
  split; [exact H1|]. eexists. exact H2.
Defined.

Lemma state_new_at_wf b : is_i64 b -> state_wf (state_new_at b HEAP_ZERO8 HEAP_ZERO8).
Proof.
  intros Hb. split; cbn; unfold digest8_wf; try (unfold is_u64, u64_max; lia); try done.
  - split; [done|]. by repeat constructor.
  - split; [done|]. by repeat constructor.
  - split; [done|]. by repeat constructor.
  - split; [done|]. by repeat constructor.
  - split; [done|]. by repeat constructor.
Qed.

Lemma w_cell_wf l : lifecycle_wf l -> cell_wf (with_lifecycle w_cell l).
Proof.
  intros Hl. split; cbn; try done.
  - by apply state_new_at_wf.
  - split. by repeat constructor.
Qed.

(** A cell with no capabilities has a commitment. *)
Lemma account_commits c :
  c_capabilities c = cset_new -> is_Some (compute_canonical_state_commitment c).
Proof.
  intros Hc. unfold compute_canonical_state_commitment. rewrite Hc.
  unfold compute_canonical_capability_root_wide.
  destruct (new_total [] [] CAP_TREE_DEPTH) as [t Ht].
  - change (2 ^ CAP_TREE_DEPTH)%nat with (Z.to_nat 65536). simpl length. lia.
  - rewrite (root_8_tree cset_new t Ht). cbn. eexists. reflexivity.
Qed.

Lemma commitment_binds_cell_witness :
  exists d1 d2, compute_canonical_state_commitment w_cell = Some d1 /\
    compute_canonical_state_commitment (with_lifecycle w_cell (Sealed (fill32 9) 20)) = Some d2 /\
    d1 <> d2.
Proof.
  destruct (account_commits (with_lifecycle w_cell Live) eq_refl) as [d1 H1].
  destruct (account_commits (with_lifecycle w_cell (Sealed (fill32 9) 20)) eq_refl) as [d2 H2].
  exists d1, d2. split; [exact H1|]. split; [exact H2|].
  assert (Hu : is_u64 20) by (unfold is_u64, u64_max; lia).
  pose proof (commitment_binds_cell (with_lifecycle w_cell Live)
    (with_lifecycle w_cell (Sealed (fill32 9) 20)) d1 d2
    (w_cell_wf Live I)
    (w_cell_wf (Sealed (fill32 9) 20) (conj eq_refl Hu))
    H1 H2) as [H _].
  intros E. specialize (H E). apply (f_equal (fun v => v.2.2)) in H. discriminate.
Defined.
