(* ===== verification/Migration.v ===== *)
(** * Migration artifacts

    Models [cell/src/migration.rs]: the voucher a source mints, the receipt a
    destination returns, their hashes, and the two methods of a cell.  The
    ledger's three steps are in [Ledger.v]. *)

From stdpp Require Import base decidable option list strings.
From Stdlib Require Import ZArith Lia.
From S2P Require Import Prelude Lifecycle Cell.

Open Scope Z_scope.

Abbreviation FederationId := bytes.

Record MigrationVoucher : Type := mkVoucher {
  mv_cell_id : CellId;
  mv_state_commitment : bytes;
  mv_from : FederationId;
  mv_to : FederationId;
  mv_target_mode : CellMode;
  mv_prepared_at : Z;
}.

Record MigrationReceipt : Type := mkReceipt {
  mr_cell_id : CellId;
  mr_voucher_hash : bytes;
  mr_accepted_by : FederationId;
  mr_accepted_at : Z;
}.

Record MigrationLock : Type := mkLock { ml_voucher : MigrationVoucher }.

Inductive MigrationError : Type :=
| NotMigratable
| DestinationOccupied (id : CellId)
| StateMismatch
| WrongDestination
| ReceiptMismatch
| SourceNotFound (id : CellId)
| IdentityBroken (id : CellId).

#[global] Instance MigrationError_eq_dec : EqDecision MigrationError.
Proof. solve_decision. Defined.

Section Migration.
Context `{HB : Blake3} `{HC : ProgramCodec}.

Definition voucher_hash (v : MigrationVoucher) : bytes :=
  blake3_derive_key "dregg-cell:migration-voucher v1"
    (mv_cell_id v ++ mv_state_commitment v ++ mv_from v ++ mv_to v
       ++ [match mv_target_mode v with Hosted => 0 | Sovereign => 1 end]
       ++ le_bytes 8 (mv_prepared_at v)).

Definition receipt_attestation (r : MigrationReceipt) : bytes :=
  blake3_derive_key "dregg-cell:migration-receipt v1"
    (mr_cell_id r ++ mr_voucher_hash r ++ mr_accepted_by r ++ le_bytes 8 (mr_accepted_at r)).

(** [Cell::migration_voucher]; the outer [option] is the commitment's
    capacity assertion. *)
Definition migration_voucher (self : Cell) (from to : FederationId) (target_mode : CellMode)
    (prepared_at : Z) : option (result MigrationVoucher MigrationError) :=
  if is_terminal (c_lifecycle self) then Some (Err NotMigratable)
  else if negb (verify_id_integrity self) then Some (Err (IdentityBroken (c_id self)))
  else
    h ← state_commitment self;
    Some (Ok (mkVoucher (c_id self) h from to target_mode prepared_at)).

(** [Cell::migrate_commit]. *)
Definition cell_migrate_commit (self : Cell) (voucher : MigrationVoucher) (receipt : MigrationReceipt)
    : result Cell MigrationError :=
  if is_terminal (c_lifecycle self) then Err NotMigratable
  else if negb (bool_decide (mr_cell_id receipt = c_id self))
       || negb (bool_decide (mv_cell_id voucher = c_id self))
       || negb (bool_decide (mr_voucher_hash receipt = voucher_hash voucher))
  then Err ReceiptMismatch
  else Ok (with_lifecycle self
             (Migrated (c_id self) (receipt_attestation receipt) (mr_accepted_at receipt))).

End Migration.

(** The widths the Rust types fix. *)
Definition voucher_wf (v : MigrationVoucher) : Prop :=
  length (mv_cell_id v) = 32%nat /\ length (mv_state_commitment v) = 32%nat /\
  length (mv_from v) = 32%nat /\ length (mv_to v) = 32%nat /\ is_u64 (mv_prepared_at v).

Lemma voucher_hash_inj `{Hcr : Blake3CR} v w :
  voucher_wf v -> voucher_wf w -> voucher_hash v = voucher_hash w -> v = w.
Proof.
  intros (?&?&?&?&?) (?&?&?&?&?) [_ E]%blake3_derive_key_inj.
  apply (pc_fixed 32) in E as [E1 E]; [|done..]. apply (pc_fixed 32) in E as [E2 E]; [|done..].
  apply (pc_fixed 32) in E as [E3 E]; [|done..]. apply (pc_fixed 32) in E as [E4 E]; [|done..].
  apply app_inj_1 in E as [E5 E6]; [|done]. apply le_bytes8_inj in E6; [|done..].
  destruct v as [??????], w as [??????]. unfold id in *. simpl in *. subst. f_equal.
  by repeat case_match.
Qed.
