(* ===== verification/Merkle.v ===== *)
(** * The ledger's Merkle tree

    Models the tree code of [cell/src/ledger.rs]: the bottom-up build of
    [rebuild_tree], the leaf-to-root recomputation of [update_leaf], the path
    extraction of [membership_proof] and [extract_path], and
    [MembershipProof::verify].  The leaves are 32-byte digests; the leaf row is
    padded with zero digests to a power of two, so every row above it has an
    even number of nodes or one. *)

From stdpp Require Import base decidable option list strings.
From Stdlib Require Import ZArith Lia.
From S2P Require Import Prelude.

Open Scope Z_scope.

Abbreviation digest := bytes.

Inductive Side : Type := SideLeft | SideRight.

#[global] Instance Side_eq_dec : EqDecision Side.
Proof. solve_decision. Defined.

Section Merkle.
Context `{HB : Blake3}.

Definition merkle_node (l r : digest) : digest := blake3_hash (l ++ r).

(** One pass of [for chunk in current.chunks(2)]. *)
Fixpoint pair_level (current : list digest) : list digest :=
  match current with
  | l :: r :: rest => merkle_node l r :: pair_level rest
  | _ => []
  end.

(** The [loop] that pushes levels until one node is left; [None] is out of
    fuel. *)
Fixpoint levels_loop (fuel : nat) (current : list digest) : option (list (list digest)) :=
  if (length current =? 1)%nat then Some [current]
  else match fuel with
       | O => None
       | S fuel' => cons current <$> levels_loop fuel' (pair_level current)
       end.

Definition next_power_of_two (n : nat) : nat := (2 ^ Nat.log2_up n)%nat.

(** [Vec::resize] to a larger size. *)
Definition resize_to (n : nat) (l : list digest) : list digest :=
  l ++ replicate (n - length l) zero32.

(** The stored levels for a non-empty list of leaves. *)
Definition build_tree (leaves : list digest) : option (list (list digest)) :=
  if (length leaves =? 1)%nat then Some [leaves]
  else levels_loop (Nat.log2_up (length leaves)) (resize_to (next_power_of_two (length leaves)) leaves).

Definition tree_top (levels : list (list digest)) : digest :=
  nth 0 (default [] (last levels)) zero32.

Definition node_at (levels : list (list digest)) (level idx : nat) : digest :=
  default zero32 (default [] (levels !! level) !! idx).

Definition set_node (levels : list (list digest)) (level idx : nat) (d : digest) : list (list digest) :=
  alter (fun row => <[idx := d]> row) level levels.

(** [for level in 0..tree_levels.len() - 1] of [update_leaf]. *)
Fixpoint update_up (levels : list (list digest)) (level remaining pos : nat) : list (list digest) :=
  match remaining with
  | O => levels
  | S remaining' =>
      let parent := (pos / 2)%nat in
      let left_child := (2 * (pos / 2))%nat in
      let h := merkle_node (node_at levels level left_child) (node_at levels level (left_child + 1)) in
      update_up (set_node levels (S level) parent h) (S level) remaining' parent
  end.

Definition update_tree (levels : list (list digest)) (pos : nat) (leaf : digest) : list (list digest) :=
  update_up (set_node levels 0 pos leaf) 0 (length levels - 1) pos.

(** The sibling hashes and sides from a leaf to the root. *)
Fixpoint path_up (levels : list (list digest)) (level remaining idx : nat) : list (digest * Side) :=
  match remaining with
  | O => []
  | S remaining' =>
      let even := (idx mod 2 =? 0)%nat in
      let sibling_idx := if even then (idx + 1)%nat else (idx - 1)%nat in
      (node_at levels level sibling_idx, if even then SideRight else SideLeft)
        :: path_up levels (S level) remaining' (idx / 2)
  end.

Definition tree_path (levels : list (list digest)) (pos : nat) : list (digest * Side) :=
  if (length levels <=? 1)%nat then [] else path_up levels 0 (length levels - 1) pos.

Definition verify_step (current : digest) (step : digest * Side) : digest :=
  match step.2 with
  | SideLeft => merkle_node step.1 current
  | SideRight => merkle_node current step.1
  end.

Definition verify_path (leaf_hash : digest) (path : list (digest * Side)) (root : digest) : bool :=
  bool_decide (foldl verify_step leaf_hash path = root).

Definition compute_empty_root : digest := blake3_hash (str_bytes "dregg-cell:empty-ledger").

(** ** The reference: a complete binary tree *)

Fixpoint rows (k : nat) (current : list digest) : list (list digest) :=
  match k with
  | O => [current]
  | S k' => current :: rows k' (pair_level current)
  end.

Fixpoint reference_root (k : nat) (current : list digest) : digest :=
  match k with
  | O => nth 0 current zero32
  | S k' => reference_root k' (pair_level current)
  end.

Lemma pair_level_length current : length (pair_level current) = (length current / 2)%nat.
Proof.
  remember (length current) as n eqn:En. revert current En.
  induction n as [n IH] using lt_wf_ind. intros [|a [|b l]] ->; [done|done|].
  cbn [pair_level length]. rewrite (IH (length l)); [|simpl; lia|done].
  replace (S (S (length l))) with (length l + 1 * 2)%nat by lia. rewrite Nat.div_add by lia. lia.
Qed.

Lemma pair_level_lookup current i :
  pair_level current !! i =
  match current !! (2 * i)%nat, current !! (2 * i + 1)%nat with
  | Some l, Some r => Some (merkle_node l r)
  | _, _ => None
  end.
Proof.
  revert current; induction i as [|i IH]; intros current.
  - by destruct current as [|a [|b l]].
  - replace (2 * S i)%nat with (S (S (2 * i))) by lia.
    destruct current as [|a [|b l]]; [done..|]. exact (IH l).
Qed.

Lemma rows_length k current : length (rows k current) = S k.
Proof. revert current; induction k as [|k IH]; intros; simpl; [done|]. by rewrite IH. Qed.

Lemma rows_top k current : tree_top (rows k current) = reference_root k current.
Proof.
  revert current; induction k as [|k IH]; intros current; [done|]. cbn [rows reference_root].
  rewrite <-IH. unfold tree_top. by destruct (rows k (pair_level current)) eqn:E; [destruct k|].
Qed.

Lemma pow_half k n : n = (2 ^ S k)%nat -> (n / 2)%nat = (2 ^ k)%nat.
Proof. intros ->. rewrite Nat.pow_succ_r', Nat.mul_comm, Nat.div_mul; lia. Qed.

Lemma levels_loop_rows k current :
  length current = (2 ^ k)%nat -> levels_loop k current = Some (rows k current).
Proof.
  revert current; induction k as [|k IH]; intros current Hl; cbn [levels_loop rows].
  - by rewrite Hl.
  - assert (2 ^ S k <> 1)%nat by (rewrite Nat.pow_succ_r'; lia).
    rewrite Hl, (proj2 (Nat.eqb_neq _ _)) by done. rewrite IH; [done|].
    rewrite pair_level_length. by apply pow_half.
Qed.

(** The padded leaf row and its height. *)
Definition padded (leaves : list digest) : list digest :=
  resize_to (next_power_of_two (length leaves)) leaves.

Definition height (leaves : list digest) : nat := Nat.log2_up (length leaves).

Lemma padded_length leaves : leaves <> [] -> length (padded leaves) = (2 ^ height leaves)%nat.
Proof.
  intros Hne. unfold padded, resize_to, next_power_of_two, height.
  rewrite length_app, length_replicate.
  assert (1 <= length leaves)%nat by (destruct leaves; simpl; [done|lia]).
  pose proof (Nat.log2_log2_up_spec (length leaves)). lia.
Qed.

Lemma build_tree_rows leaves :
  leaves <> [] -> build_tree leaves = Some (rows (height leaves) (padded leaves)).
Proof.
  intros Hne. unfold build_tree. destruct (Nat.eqb_spec (length leaves) 1) as [E|E].
  - unfold height, padded, next_power_of_two, resize_to. rewrite E. cbn. by rewrite app_nil_r.
  - apply levels_loop_rows. by apply padded_length.
Qed.

(** ** One leaf changed *)

Lemma div2_cases i : (i = 2 * (i / 2) \/ i = 2 * (i / 2) + 1)%nat.
Proof. pose proof (Nat.div_mod_eq i 2). pose proof (Nat.mod_upper_bound i 2). lia. Qed.

Lemma pair_level_insert current pos d :
  pair_level (<[pos := d]> current) =
  <[(pos / 2)%nat := merkle_node (default zero32 (<[pos := d]> current !! (2 * (pos / 2))%nat))
                                 (default zero32 (<[pos := d]> current !! (2 * (pos / 2) + 1)%nat))]>
    (pair_level current).
Proof.
  apply list_eq. intros i. rewrite pair_level_lookup.
  destruct (decide (i = (pos / 2)%nat)) as [->|Hi].
  - destruct (decide (pos / 2 < length (pair_level current))%nat) as [Hlt|Hge].
    + rewrite list_lookup_insert_eq by done. rewrite pair_level_length in Hlt.
      assert (Hr : (2 * (pos / 2) + 1 < length current)%nat).
      { pose proof (Nat.div_mod_eq (length current) 2). lia. }
      destruct (lookup_lt_is_Some_2 (<[pos := d]> current) (2 * (pos / 2))) as [l ->];
        [rewrite length_insert; lia|].
      destruct (lookup_lt_is_Some_2 (<[pos := d]> current) (2 * (pos / 2) + 1)) as [r ->];
        [rewrite length_insert; lia|]. done.
    + rewrite (list_insert_ge (pair_level current)) by lia.
      rewrite (lookup_ge_None_2 (pair_level current)) by lia.
      rewrite pair_level_length in Hge.
      destruct (<[pos := d]> current !! (2 * (pos / 2))%nat); [|done].
      rewrite lookup_ge_None_2; [done|]. rewrite length_insert.
      pose proof (Nat.div_mod_eq (length current) 2). pose proof (Nat.mod_upper_bound (length current) 2). lia.
  - rewrite (list_lookup_insert_ne (pair_level current)) by done. rewrite pair_level_lookup.
    pose proof (div2_cases pos).
    rewrite !(list_lookup_insert_ne current pos) by lia. done.
Qed.

Lemma node_at_row below row rest idx :
  node_at (below ++ row :: rest) (length below) idx = default zero32 (row !! idx).
Proof. unfold node_at. by rewrite list_lookup_middle. Qed.

Lemma set_node_row below row rest idx d :
  set_node (below ++ row :: rest) (length below) idx d = below ++ (<[idx := d]> row) :: rest.
Proof.
  unfold set_node. induction below as [|r below IH]; [done|]. cbn. f_equal. exact IH.
Qed.

Lemma update_up_rows below k current pos d :
  update_up (below ++ (<[pos := d]> current) :: tail (rows k current)) (length below) k pos =
  below ++ rows k (<[pos := d]> current).
Proof.
  revert below current pos d; induction k as [|k IH]; intros below current pos d; [done|].
  cbn [rows tail update_up]. rewrite !node_at_row.
  assert (Hrows : exists rest, rows k (pair_level current) = pair_level current :: rest /\
                    rest = tail (rows k (pair_level current))) by (destruct k; eauto).
  destruct Hrows as (rest & Hr & Ht). rewrite Hr.
  replace (below ++ <[pos := d]> current :: pair_level current :: rest)
    with ((below ++ [<[pos := d]> current]) ++ pair_level current :: rest)
    by (by rewrite <-app_assoc).
  assert (Hl : S (length below) = length (below ++ [<[pos := d]> current]))
    by (rewrite length_app; simpl; lia).
  rewrite Hl, set_node_row, Ht, IH, <-pair_level_insert, <-app_assoc. done.
Qed.

(** Recomputing one leaf's path gives the tree rebuilt over the changed row. *)
Lemma update_tree_rows k current pos d :
  update_tree (rows k current) pos d = rows k (<[pos := d]> current).
Proof.
  unfold update_tree. rewrite rows_length. replace (S k - 1)%nat with k by lia.
  assert (Hs : set_node (rows k current) 0 pos d = [] ++ (<[pos := d]> current) :: tail (rows k current)).
  { destruct k; [done|]. exact (set_node_row [] current _ pos d). }
  rewrite Hs. exact (update_up_rows [] k current pos d).
Qed.

(** ** Paths *)

Lemma path_up_verifies below k current pos leaf :
  length current = (2 ^ k)%nat -> current !! pos = Some leaf ->
  foldl verify_step leaf (path_up (below ++ rows k current) (length below) k pos) =
  reference_root k current.
Proof.
  revert below current pos leaf; induction k as [|k IH]; intros below current pos leaf Hl Hp.
  - cbn. pose proof (lookup_lt_Some _ _ _ Hp). cbn in Hl. assert (pos = 0%nat) as -> by lia.
    by apply nth_lookup_Some with (d := zero32) in Hp.
  - cbn [rows reference_root path_up foldl]. rewrite node_at_row.
    assert (Hhalf : length (pair_level current) = (2 ^ k)%nat)
      by (rewrite pair_level_length; by apply pow_half).
    replace (below ++ current :: rows k (pair_level current))
      with ((below ++ [current]) ++ rows k (pair_level current)) by (by rewrite <-app_assoc).
    replace (S (length below)) with (length (below ++ [current])) by (rewrite length_app; simpl; lia).
    apply IH; [done|]. rewrite pair_level_lookup. pose proof (lookup_lt_Some _ _ _ Hp) as Hlt.
    rewrite Nat.pow_succ_r' in Hl. pose proof (Nat.div_mod_eq pos 2) as Hdm.
    pose proof (Nat.mod_upper_bound pos 2 ltac:(lia)) as Hub. unfold verify_step. cbn [fst snd].
    destruct (Nat.eqb_spec (pos mod 2) 0) as [E|E]; cbn [fst snd].
    + replace (2 * (pos / 2))%nat with pos by lia. rewrite Hp.
      destruct (lookup_lt_is_Some_2 current (pos + 1)) as [r ->]; [lia|]. done.
    + replace (2 * (pos / 2) + 1)%nat with pos by lia. rewrite Hp.
      replace (2 * (pos / 2))%nat with (pos - 1)%nat by lia.
      destruct (lookup_lt_is_Some_2 current (pos - 1)) as [r ->]; [lia|]. done.
Qed.

Lemma tree_path_verifies k current pos leaf :
  length current = (2 ^ k)%nat -> current !! pos = Some leaf ->
  verify_path leaf (tree_path (rows k current) pos) (reference_root k current) = true.
Proof.
  intros Hl Hp. apply bool_decide_eq_true. unfold tree_path. rewrite rows_length.
  destruct k as [|k].
  - cbn. pose proof (lookup_lt_Some _ _ _ Hp). cbn in Hl. assert (pos = 0%nat) as -> by lia.
    symmetry. by apply nth_lookup_Some.
  - cbn [Nat.leb]. replace (S (S k) - 1)%nat with (S k) by lia.
    exact (path_up_verifies [] (S k) current pos leaf Hl Hp).
Qed.

End Merkle.
