(* ===== verification/Ledger.v ===== *)
(** * The ledger

    Models [cell/src/ledger.rs]: the map of hosted cells, the sovereign side
    tables, the lazily maintained Merkle tree over the cells' leaf digests, the
    public-key index, the per-turn restore point, the atomic application of
    deltas, and the three steps of a cross-federation migration.  A method
    returns its result with the ledger it leaves; an outer [option] is the
    capability tree's capacity assertion, reached through a commitment.  The
    witness-update channels ([witness_subscribers]) are not modelled. *)

From stdpp Require Import base decidable option list gmap sorting strings.
From Stdlib Require Import ZArith Lia.
From S2P Require Import Prelude BabyBear Poseidon2 CapRoot Heap State Permissions Facet.
From S2P Require Import Derivation Capability Lifecycle Cell Migration Merkle.

Open Scope Z_scope.

(** ** Data *)

Record CellStateDelta : Type := mkDelta {
  field_updates : list (nat * FieldElement);
  nonce_increment : bool;
  balance_change : Z;
  permission_changes : option Permissions;
  capability_grants : list CapabilityRef;
  capability_revocations : list Z;
}.

Definition delta_empty : CellStateDelta := mkDelta [] false 0 None [] [].

Record LedgerDelta `{ProgramCodec} : Type := mkLedgerDelta {
  created : list Cell;
  updated : list (CellId * CellStateDelta);
  computron_transfers : list (CellId * CellId * Z);
  removed : list CellId;
}.

Arguments mkLedgerDelta {_} _ _ _ _.
Arguments created {_} _.
Arguments updated {_} _.
Arguments computron_transfers {_} _.
Arguments removed {_} _.

Record MembershipProof : Type := mkProof {
  mp_cell_id : CellId;
  mp_leaf_hash : digest;
  mp_path : list (digest * Side);
  mp_root : digest;
}.

Inductive LedgerError : Type :=
| CellAlreadyExists (id : CellId)
| CellNotFound (id : CellId)
| InvalidFieldIndex (cell_id : CellId) (index : nat)
| InsufficientBalance (cell_id : CellId) (available required : Z)
| BalanceOverflow (cell_id : CellId)
| TransferSourceNotFound (id : CellId)
| TransferDestNotFound (id : CellId)
| SovereignWitnessRequired (id : CellId)
| SovereignCommitmentMismatch (cell_id : CellId) (expected got : bytes)
| SovereignAlreadyExists (id : CellId)
| NotSovereign (id : CellId)
| InvalidDelta (what : string) (id : CellId).

Record SovereignRegistration : Type := mkRegistration {
  sr_commitment : bytes;
  sr_registered_at : Z;
  sr_ttl_blocks : Z;
  sr_last_activity : Z;
  sr_verification_key_hash : option bytes;
  sr_max_custom_effects : option Z;
  sr_owner_public_key : option bytes;
}.

Inductive Pending : Type :=
| Clean
| Values (ids : gset CellId)
| Structural.

Definition touch_value (p : Pending) (id : CellId) : Pending :=
  match p with
  | Clean => Values {[id]}
  | Values s => Values ({[id]} ∪ s)
  | Structural => Structural
  end.

Definition touch_structural (p : Pending) : Pending := Structural.

Record RestorePoint `{ProgramCodec} : Type := mkRestorePoint {
  rp_cells : gmap CellId (option Cell);
  rp_sovereign_commitments : gmap CellId bytes;
  rp_sovereign_registrations : gmap CellId SovereignRegistration;
  rp_witness_sequence : gmap CellId Z;
  rp_migration_locks : gmap CellId MigrationLock;
}.

Arguments mkRestorePoint {_} _ _ _ _ _.
Arguments rp_cells {_} _.
Arguments rp_sovereign_commitments {_} _.
Arguments rp_sovereign_registrations {_} _.
Arguments rp_witness_sequence {_} _.
Arguments rp_migration_locks {_} _.

Record Ledger `{ProgramCodec} : Type := mkLedger {
  cells : gmap CellId Cell;
  sovereign_commitments : gmap CellId bytes;
  sovereign_registrations : gmap CellId SovereignRegistration;
  leaf_positions : gmap CellId nat;
  tree_levels : list (list digest);
  l_root : digest;
  pending : Pending;
  witness_sequence : gmap CellId Z;
  migration_locks : gmap CellId MigrationLock;
  pubkey_index : gmap bytes (list CellId);
  restore_point : option RestorePoint;
}.

Arguments mkLedger {_} _ _ _ _ _ _ _ _ _ _ _.
Arguments cells {_} _.
Arguments sovereign_commitments {_} _.
Arguments sovereign_registrations {_} _.
Arguments leaf_positions {_} _.
Arguments tree_levels {_} _.
Arguments l_root {_} _.
Arguments pending {_} _.
Arguments witness_sequence {_} _.
Arguments migration_locks {_} _.
Arguments pubkey_index {_} _.
Arguments restore_point {_} _.

(** ** The order of cell ids: their bytes, lexicographically *)

Fixpoint lex_leb (a b : bytes) : bool :=
  match a, b with
  | [], _ => true
  | _ :: _, [] => false
  | x :: a', y :: b' => if x <? y then true else if x =? y then lex_leb a' b' else false
  end.

Definition lex_le (a b : bytes) : Prop := lex_leb a b = true.

#[global] Instance lex_le_dec a b : Decision (lex_le a b).
Proof. unfold lex_le. apply _. Defined.

Section LedgerOps.
Context `{HB : Blake3} `{HC : ProgramCodec}.

(** ** Field updates *)

Definition with_cells (L : Ledger) (m : gmap CellId Cell) : Ledger :=
  mkLedger m (sovereign_commitments L) (sovereign_registrations L) (leaf_positions L)
    (tree_levels L) (l_root L) (pending L) (witness_sequence L) (migration_locks L)
    (pubkey_index L) (restore_point L).

Definition with_sovereign (L : Ledger) (m : gmap CellId bytes) : Ledger :=
  mkLedger (cells L) m (sovereign_registrations L) (leaf_positions L)
    (tree_levels L) (l_root L) (pending L) (witness_sequence L) (migration_locks L)
    (pubkey_index L) (restore_point L).

Definition with_registrations (L : Ledger) (m : gmap CellId SovereignRegistration) : Ledger :=
  mkLedger (cells L) (sovereign_commitments L) m (leaf_positions L)
    (tree_levels L) (l_root L) (pending L) (witness_sequence L) (migration_locks L)
    (pubkey_index L) (restore_point L).

Definition with_tree (L : Ledger) (m : gmap CellId Cell) (pos : gmap CellId nat)
    (levels : list (list digest)) (r : digest) (p : Pending) : Ledger :=
  mkLedger m (sovereign_commitments L) (sovereign_registrations L) pos levels r p
    (witness_sequence L) (migration_locks L) (pubkey_index L) (restore_point L).

Definition with_pending (L : Ledger) (p : Pending) : Ledger :=
  mkLedger (cells L) (sovereign_commitments L) (sovereign_registrations L) (leaf_positions L)
    (tree_levels L) (l_root L) p (witness_sequence L) (migration_locks L)
    (pubkey_index L) (restore_point L).

Definition with_sequence (L : Ledger) (m : gmap CellId Z) : Ledger :=
  mkLedger (cells L) (sovereign_commitments L) (sovereign_registrations L) (leaf_positions L)
    (tree_levels L) (l_root L) (pending L) m (migration_locks L)
    (pubkey_index L) (restore_point L).

Definition with_locks (L : Ledger) (m : gmap CellId MigrationLock) : Ledger :=
  mkLedger (cells L) (sovereign_commitments L) (sovereign_registrations L) (leaf_positions L)
    (tree_levels L) (l_root L) (pending L) (witness_sequence L) m
    (pubkey_index L) (restore_point L).

Definition with_index (L : Ledger) (m : gmap bytes (list CellId)) : Ledger :=
  mkLedger (cells L) (sovereign_commitments L) (sovereign_registrations L) (leaf_positions L)
    (tree_levels L) (l_root L) (pending L) (witness_sequence L) (migration_locks L)
    m (restore_point L).

Definition with_restore (L : Ledger) (rp : option RestorePoint) : Ledger :=
  mkLedger (cells L) (sovereign_commitments L) (sovereign_registrations L) (leaf_positions L)
    (tree_levels L) (l_root L) (pending L) (witness_sequence L) (migration_locks L)
    (pubkey_index L) rp.

(** ** Construction, lookup and the restore point's journal *)

Definition ledger_new : Ledger :=
  mkLedger ∅ ∅ ∅ ∅ [] compute_empty_root Clean ∅ ∅ ∅ None.

Definition get (L : Ledger) (id : CellId) : option Cell := cells L !! id.

Definition index_add (idx : gmap bytes (list CellId)) (public_key : bytes) (id : CellId)
    : gmap bytes (list CellId) :=
  <[public_key := default [] (idx !! public_key) ++ [id]]> idx.

Definition index_remove (idx : gmap bytes (list CellId)) (public_key : bytes) (id : CellId)
    : gmap bytes (list CellId) :=
  match idx !! public_key with
  | Some ids =>
      match retain (fun c => negb (bool_decide (c = id))) ids with
      | [] => delete public_key idx
      | ids' => <[public_key := ids']> idx
      end
  | None => idx
  end.

Definition cell_by_pubkey (L : Ledger) (public_key : bytes) : option Cell :=
  ids ← pubkey_index L !! public_key;
  id ← head ids;
  cells L !! id.

Definition journal_cell (L : Ledger) (id : CellId) : Ledger :=
  match restore_point L with
  | Some rp =>
      match rp_cells rp !! id with
      | Some _ => L
      | None =>
          with_restore L (Some (mkRestorePoint (<[id := cells L !! id]> (rp_cells rp))
            (rp_sovereign_commitments rp) (rp_sovereign_registrations rp)
            (rp_witness_sequence rp) (rp_migration_locks rp)))
      end
  | None => L
  end.

Definition begin_restore_point (L : Ledger) : Ledger :=
  with_restore L (Some (mkRestorePoint ∅ (sovereign_commitments L) (sovereign_registrations L)
    (witness_sequence L) (migration_locks L))).

Definition commit_restore_point (L : Ledger) : Ledger := with_restore L None.

(** ** Cells *)

(** [get_mut]: the caller's writes through the reference are [f]. *)
Definition get_mut (L : Ledger) (id : CellId) (f : Cell -> Cell) : Ledger :=
  let L := journal_cell L id in
  match cells L !! id with
  | Some cell =>
      with_pending (with_cells L (<[id := f (invalidate_leaf_cache cell)]> (cells L)))
        (touch_value (pending L) id)
  | None => L
  end.

Definition update_with {R} (L : Ledger) (id : CellId) (f : Cell -> Cell * R)
    : Ledger * result R LedgerError :=
  let L := journal_cell L id in
  match cells L !! id with
  | None => (L, Err (CellNotFound id))
  | Some snapshot =>
      let '(cell, r) := f (invalidate_leaf_cache snapshot) in
      if negb (verify_id_integrity cell)
      then (with_cells L (<[id := snapshot]> (cells L)),
            Err (InvalidDelta "cell id integrity broken" id))
      else (with_pending (with_cells L (<[id := cell]> (cells L))) (touch_value (pending L) id), Ok r)
  end.

(** The shared tail of [create_cell] and [insert_cell]. *)
Definition add_cell (L : Ledger) (id : CellId) (cell : Cell) : Ledger :=
  let L := journal_cell L id in
  let L := with_cells L (<[id := cell]> (cells L)) in
  let L := with_index L (index_add (pubkey_index L) (c_public_key cell) id) in
  with_pending L (touch_structural (pending L)).

Definition create_cell (L : Ledger) (public_key token_id : bytes) : option (Ledger * CellId) :=
  cell ← new_hosted public_key token_id;
  Some (add_cell L (c_id cell) cell, c_id cell).

Definition insert_cell (L : Ledger) (cell : Cell) : Ledger * result CellId LedgerError :=
  let id := c_id cell in
  match cells L !! id with
  | Some _ => (L, Err (CellAlreadyExists id))
  | None => (add_cell L id (invalidate_leaf_cache cell), Ok id)
  end.

Definition remove (L : Ledger) (id : CellId) : Ledger * option Cell :=
  let L := journal_cell L id in
  match cells L !! id with
  | Some cell =>
      let L := with_cells L (delete id (cells L)) in
      let L := with_index L (index_remove (pubkey_index L) (c_public_key cell) id) in
      (with_pending L (touch_structural (pending L)), Some cell)
  | None => (L, None)
  end.

(** One entry of the journal put back. *)
Definition restore_entry (L : Ledger) (e : CellId * option Cell) : Ledger :=
  let L := (remove L e.1).1 in
  match e.2 with
  | Some cell => (insert_cell L cell).1
  | None => L
  end.

(** The journal is a [HashMap]; [order] is the order its entries come in. *)
Definition rollback_restore_point (order : list (CellId * option Cell)) (L : Ledger) : Ledger :=
  match restore_point L with
  | None => L
  | Some rp =>
      let L := with_restore L None in
      let L := with_sovereign L (rp_sovereign_commitments rp) in
      let L := with_registrations L (rp_sovereign_registrations rp) in
      let L := with_sequence L (rp_witness_sequence rp) in
      let L := with_locks L (rp_migration_locks rp) in
      foldl restore_entry L order
  end.

Definition pre_turn_touched_ledger (order : list (CellId * option Cell)) (L : Ledger) : Ledger :=
  match restore_point L with
  | None => ledger_new
  | Some _ =>
      foldl (fun pre e => match e.2 with Some cell => (insert_cell pre cell).1 | None => pre end)
        ledger_new order
  end.

(** ** Deltas *)

Abbreviation running := (gmap CellId Z).

Definition lookup_either (L : Ledger) (created_cells : gmap CellId Cell) (id : CellId) : option Cell :=
  match cells L !! id with Some c => Some c | None => created_cells !! id end.

(** The lazily initialised running balance. *)
Definition get_running (L : Ledger) (created_cells : gmap CellId Cell) (rb : running) (id : CellId)
    : running * option Z :=
  match rb !! id with
  | Some b => (rb, Some b)
  | None =>
      match lookup_either L created_cells id with
      | Some cell => (<[id := balance (c_state cell)]> rb, Some (balance (c_state cell)))
      | None => (rb, None)
      end
  end.

Definition check_created (L : Ledger) (acc : gmap CellId Cell) (cell : Cell)
    : result (gmap CellId Cell) LedgerError :=
  match cells L !! c_id cell with
  | Some _ => Err (CellAlreadyExists (c_id cell))
  | None => Ok (<[c_id cell := cell]> acc)
  end.

Definition check_update (L : Ledger) (cc : gmap CellId Cell) (rb : running)
    (u : CellId * CellStateDelta) : result running LedgerError :=
  let '(cell_id, d) := u in
  let? cell := ok_or (lookup_either L cc cell_id) (CellNotFound cell_id) in
  match ffind (fun x => (STATE_SLOTS <=? x.1)%nat) (field_updates d) with
  | Some (index, _) => Err (InvalidFieldIndex cell_id index)
  | None =>
      let '(rb, b) := get_running L cc rb cell_id in
      let bal := default (balance (c_state cell)) b in
      let? new_balance := ok_or (checked_add_i64 bal (balance_change d)) (BalanceOverflow cell_id) in
      if (balance_change d <? 0) && (new_balance <? 0)
      then Err (InsufficientBalance cell_id bal (Z.abs (balance_change d)))
      else Ok (<[cell_id := new_balance]> rb)
  end.

Definition check_transfer (L : Ledger) (cc : gmap CellId Cell) (rb : running)
    (t : CellId * CellId * Z) : result running LedgerError :=
  let '(from_id, to_id, amount) := t in
  let? amt := ok_or (i64_try_from amount) (BalanceOverflow from_id) in
  let '(rb, fb) := get_running L cc rb from_id in
  let? from_balance := ok_or fb (TransferSourceNotFound from_id) in
  if from_balance <? amt then Err (InsufficientBalance from_id from_balance amount)
  else
    let rb := <[from_id := from_balance - amt]> rb in
    let '(rb, tb) := get_running L cc rb to_id in
    let? to_balance := ok_or tb (TransferDestNotFound to_id) in
    let? new_to := ok_or (checked_add_i64 to_balance amt) (BalanceOverflow to_id) in
    Ok (<[to_id := new_to]> rb).

Definition validate_delta (L : Ledger) (d : LedgerDelta) : result unit LedgerError :=
  let? cc := try_fold (check_created L) ∅ (created d) in
  let? rb := try_fold (check_update L cc) ∅ (updated d) in
  let? _ := try_fold (check_transfer L cc) rb (computron_transfers d) in
  Ok tt.

(** A computation that mutates in place and may stop with an error. *)
Fixpoint run_until {S X E} (f : S -> X -> S * option E) (s : S) (l : list X) : S * option E :=
  match l with
  | [] => (s, None)
  | x :: l' =>
      let '(s', e) := f s x in
      match e with
      | Some e => (s', Some e)
      | None => run_until f s' l'
      end
  end.

Definition apply_field_update (cell_id : CellId) (cell : Cell) (u : nat * FieldElement)
    : Cell * option LedgerError :=
  if (STATE_SLOTS <=? u.1)%nat then (cell, Some (InvalidFieldIndex cell_id u.1))
  else
    let s := c_state cell in
    (with_state cell (with_fields s (<[u.1 := u.2]> (fields s)) (field_visibility s) (commitments s)),
     None).

Definition apply_cell_delta (cell : Cell) (d : CellStateDelta) (cell_id : CellId)
    : Cell * option LedgerError :=
  let cell := invalidate_leaf_cache cell in
  match run_until (apply_field_update cell_id) cell (field_updates d) with
  | (cell, Some e) => (cell, Some e)
  | (cell, None) =>
      let '(s, ok) := if nonce_increment d then increment_nonce (c_state cell) else (c_state cell, true) in
      if negb ok then (cell, Some (InvalidDelta "nonce overflow" cell_id))
      else
        let '(s, ok) := apply_balance_change s (balance_change d) in
        let cell := with_state cell s in
        if negb ok then
          (cell, Some (if balance_change d <? 0
                       then InsufficientBalance cell_id (balance s) (Z.abs (balance_change d))
                       else BalanceOverflow cell_id))
        else
          let cell := match permission_changes d with
                      | Some p => with_permissions cell p
                      | None => cell
                      end in
          let caps := foldl (fun s r => (grant_full s (cap_target r) (cap_permissions r)
                                           (cap_breadstuff r) (cap_expires_at r)).1)
                        (c_capabilities cell) (capability_grants d) in
          let caps := foldl (fun s slot => (revoke s slot).1) caps (capability_revocations d) in
          (with_capabilities cell caps, None)
  end.

(** The ledger under a delta, with the undo journal of [apply_delta]. *)
Abbreviation undo_log := (gmap CellId (option Cell)).

Definition undo_record (undo : undo_log) (id : CellId) (prior : option Cell) : undo_log :=
  match undo !! id with Some _ => undo | None => <[id := prior]> undo end.

Definition apply_created (s : Ledger * undo_log) (cell : Cell) : (Ledger * undo_log) * option LedgerError :=
  let '(L, undo) := s in
  let undo := undo_record undo (c_id cell) None in
  let L := with_cells L (<[c_id cell := cell]> (cells L)) in
  ((with_index L (index_add (pubkey_index L) (c_public_key cell) (c_id cell)), undo), None).

Definition apply_update (s : Ledger * undo_log) (u : CellId * CellStateDelta)
    : (Ledger * undo_log) * option LedgerError :=
  let '(L, undo) := s in
  let '(cell_id, d) := u in
  let undo := undo_record undo cell_id (cells L !! cell_id) in
  match cells L !! cell_id with
  | None => ((L, undo), Some (CellNotFound cell_id))
  | Some cell =>
      let '(cell, e) := apply_cell_delta cell d cell_id in
      ((with_cells L (<[cell_id := cell]> (cells L)), undo), e)
  end.

Definition set_cell_balance (cell : Cell) (b : Z) : Cell :=
  with_state (invalidate_leaf_cache cell) (with_balance (c_state cell) b).

Definition apply_transfer (s : Ledger * undo_log) (t : CellId * CellId * Z)
    : (Ledger * undo_log) * option LedgerError :=
  let '(L, undo) := s in
  let '(from_id, to_id, amount) := t in
  match i64_try_from amount with
  | None => (s, Some (BalanceOverflow from_id))
  | Some amt =>
      let undo := undo_record undo from_id (cells L !! from_id) in
      match cells L !! from_id with
      | None => ((L, undo), Some (TransferSourceNotFound from_id))
      | Some from_cell =>
          if balance (c_state from_cell) <? amt
          then ((L, undo), Some (InsufficientBalance from_id (balance (c_state from_cell)) amount))
          else
            let from_balance := balance (c_state from_cell) - amt in
            let L := with_cells L (<[from_id := set_cell_balance from_cell from_balance]> (cells L)) in
            let undo := undo_record undo to_id (cells L !! to_id) in
            match cells L !! to_id with
            | None => ((L, undo), Some (TransferDestNotFound to_id))
            | Some to_cell =>
                match checked_add_i64 (balance (c_state to_cell)) amt with
                | None =>
                    ((with_cells L (<[to_id := invalidate_leaf_cache to_cell]> (cells L)), undo),
                     Some (BalanceOverflow to_id))
                | Some b =>
                    ((with_cells L (<[to_id := set_cell_balance to_cell b]> (cells L)), undo), None)
                end
            end
      end
  end.

Definition apply_removed (s : Ledger * undo_log) (id : CellId) : Ledger * undo_log :=
  let '(L, undo) := s in
  let undo := undo_record undo id (cells L !! id) in
  match cells L !! id with
  | Some cell =>
      (with_index (with_cells L (delete id (cells L)))
         (index_remove (pubkey_index L) (c_public_key cell) id), undo)
  | None => (L, undo)
  end.

Definition apply_delta_in_place (L : Ledger) (d : LedgerDelta)
    : (Ledger * undo_log) * option LedgerError :=
  match run_until apply_created (L, ∅) (created d) with
  | (s, Some e) => (s, Some e)
  | (s, None) =>
      match run_until apply_update s (updated d) with
      | (s, Some e) => (s, Some e)
      | (s, None) =>
          match run_until apply_transfer s (computron_transfers d) with
          | (s, Some e) => (s, Some e)
          | (s, None) => (foldl apply_removed s (removed d), None)
          end
      end
  end.

Definition undo_entry (L : Ledger) (e : CellId * option Cell) : Ledger :=
  match e.2 with
  | None =>
      match cells L !! e.1 with
      | Some cell =>
          with_index (with_cells L (delete e.1 (cells L)))
            (index_remove (pubkey_index L) (c_public_key cell) e.1)
      | None => L
      end
  | Some cell => with_cells L (<[e.1 := cell]> (cells L))
  end.

Definition rollback_delta_from_undo (L : Ledger) (undo : undo_log) : Ledger :=
  foldl undo_entry L (map_to_list undo).

Definition touch_values (p : Pending) (ids : list CellId) : Pending := foldl touch_value p ids.

Definition apply_delta (L : Ledger) (d : LedgerDelta) : Ledger * result unit LedgerError :=
  match validate_delta L d with
  | Err e => (L, Err e)
  | Ok _ =>
      match apply_delta_in_place L d with
      | ((L', undo), Some e) => (rollback_delta_from_undo L' undo, Err e)
      | ((L', _), None) =>
          (with_pending L'
             (if negb (match created d with [] => true | _ => false end) ||
                 negb (match removed d with [] => true | _ => false end)
              then touch_structural (pending L')
              else touch_values (touch_values (pending L') (map fst (updated d)))
                     (concat (map (fun t => [t.1.1; t.1.2]) (computron_transfers d)))),
           Ok tt)
      end
  end.

(** ** The lazy Merkle tree *)

Definition sorted_ids (m : gmap CellId Cell) : list CellId := merge_sort lex_le (map_to_list m).*1.

(** Every cell's leaf digest in order, filling the caches. *)
Fixpoint hash_all (ids : list CellId) (m : gmap CellId Cell)
    : option (list digest * gmap CellId Cell) :=
  match ids with
  | [] => Some ([], m)
  | id :: ids' =>
      cell ← m !! id;
      '(d, cell') ← cached_leaf_digest cell;
      '(ds, m') ← hash_all ids' (<[id := cell']> m);
      Some (d :: ds, m')
  end.

Definition rebuild_tree (L : Ledger) : option Ledger :=
  let ids := sorted_ids (cells L) in
  match ids with
  | [] => Some (with_tree L (cells L) ∅ [] compute_empty_root Clean)
  | _ =>
      '(leaves, m) ← hash_all ids (cells L);
      levels ← build_tree leaves;
      Some (with_tree L m (list_to_map (imap (fun i id => (id, i)) ids)) levels (tree_top levels) Clean)
  end.

Definition update_leaf (L : Ledger) (cell_id : CellId) : option Ledger :=
  match leaf_positions L !! cell_id with
  | None => Some L
  | Some pos =>
      match cells L !! cell_id with
      | None => Some L
      | Some cell =>
          '(leaf_hash, cell') ← cached_leaf_digest cell;
          let levels := update_tree (tree_levels L) pos leaf_hash in
          Some (with_tree L (<[cell_id := cell']> (cells L)) (leaf_positions L) levels
                  (tree_top levels) (pending L))
      end
  end.

Fixpoint update_leaves (L : Ledger) (ids : list CellId) : option Ledger :=
  match ids with
  | [] => Some L
  | id :: ids' => L' ← update_leaf L id; update_leaves L' ids'
  end.

Definition materialize (L : Ledger) : option Ledger :=
  let p := pending L in
  let L := with_pending L Clean in
  match p with
  | Clean => Some L
  | Structural => rebuild_tree L
  | Values ids =>
      match tree_levels L with
      | [] => rebuild_tree L
      | _ => update_leaves L (elements ids)
      end
  end.

Definition root (L : Ledger) : option (digest * Ledger) :=
  L' ← materialize L; Some (l_root L', L').

Definition root_cached (L : Ledger) : digest := l_root L.

Definition membership_proof (L : Ledger) (id : CellId) : option (option MembershipProof * Ledger) :=
  match cells L !! id with
  | None => Some (None, L)
  | Some _ =>
      L ← materialize L;
      cell ← cells L !! id;
      '(leaf_hash, cell') ← cached_leaf_digest cell;
      let L := with_cells L (<[id := cell']> (cells L)) in
      match leaf_positions L !! id with
      | None => Some (None, L)
      | Some pos =>
          Some (Some (mkProof id leaf_hash (tree_path (tree_levels L) pos) (l_root L)), L)
      end
  end.

Definition verify (p : MembershipProof) : bool :=
  verify_path (mp_leaf_hash p) (mp_path p) (mp_root p).

Definition extract_path (L : Ledger) (cell_id : CellId) : list digest :=
  match leaf_positions L !! cell_id with
  | None => []
  | Some pos => (tree_path (tree_levels L) pos).*1
  end.

(** ** Sovereign cells *)

Definition register_sovereign_cell (L : Ledger) (id : CellId) (initial_commitment : bytes)
    : Ledger * result unit LedgerError :=
  if bool_decide (is_Some (cells L !! id)) || bool_decide (is_Some (sovereign_commitments L !! id))
  then (L, Err (SovereignAlreadyExists id))
  else (with_sovereign L (<[id := initial_commitment]> (sovereign_commitments L)), Ok tt).

Definition update_sovereign_commitment (L : Ledger) (id : CellId) (new_commitment : bytes)
    : Ledger * result unit LedgerError :=
  match sovereign_commitments L !! id with
  | None => (L, Err (NotSovereign id))
  | Some _ => (with_sovereign L (<[id := new_commitment]> (sovereign_commitments L)), Ok tt)
  end.

Definition is_sovereign (L : Ledger) (id : CellId) : bool :=
  bool_decide (is_Some (sovereign_commitments L !! id)).

Definition last_sovereign_witness_sequence (L : Ledger) (id : CellId) : Z :=
  default 0 (witness_sequence L !! id).

Definition bump_sovereign_witness_sequence (L : Ledger) (id : CellId) (sequence : Z) : Ledger :=
  with_sequence L (<[id := sequence]> (witness_sequence L)).

Definition make_sovereign (L : Ledger) (id : CellId) : option (Ledger * result Cell LedgerError) :=
  match remove L id with
  | (L, None) => Some (L, Err (CellNotFound id))
  | (L, Some cell) =>
      commitment ← state_commitment cell;
      Some (with_sovereign L (<[id := commitment]> (sovereign_commitments L)), Ok cell)
  end.

Definition undo_make_sovereign (L : Ledger) (cell : Cell) : Ledger :=
  let L := with_sovereign L (delete (c_id cell) (sovereign_commitments L)) in
  (insert_cell L cell).1.

Definition register_sovereign_cell_with_vk (L : Ledger) (id : CellId) (commitment : bytes)
    (current_height ttl_blocks : Z) (verification_key_hash : option bytes)
    : Ledger * result unit LedgerError :=
  if bool_decide (is_Some (cells L !! id)) || bool_decide (is_Some (sovereign_commitments L !! id))
     || bool_decide (is_Some (sovereign_registrations L !! id))
  then (L, Err (SovereignAlreadyExists id))
  else
    (with_registrations L
       (<[id := mkRegistration commitment current_height ttl_blocks current_height
                  verification_key_hash None None]> (sovereign_registrations L)), Ok tt).

Definition register_sovereign_cell_ephemeral (L : Ledger) (id : CellId) (commitment : bytes)
    (current_height ttl_blocks : Z) : Ledger * result unit LedgerError :=
  register_sovereign_cell_with_vk L id commitment current_height ttl_blocks None.

Definition deregister_sovereign_cell (L : Ledger) (id : CellId) : Ledger * result unit LedgerError :=
  match sovereign_registrations L !! id with
  | Some _ => (with_registrations L (delete id (sovereign_registrations L)), Ok tt)
  | None =>
      match sovereign_commitments L !! id with
      | Some _ => (with_sovereign L (delete id (sovereign_commitments L)), Ok tt)
      | None => (L, Err (NotSovereign id))
      end
  end.

Definition update_sovereign_registration_commitment (L : Ledger) (id : CellId)
    (old_commitment new_commitment : bytes) (current_height : Z) : Ledger * result unit LedgerError :=
  match sovereign_registrations L !! id with
  | Some reg =>
      if negb (bool_decide (sr_commitment reg = old_commitment))
      then (L, Err (SovereignCommitmentMismatch id (sr_commitment reg) old_commitment))
      else
        (with_registrations L
           (<[id := mkRegistration new_commitment (sr_registered_at reg) (sr_ttl_blocks reg)
                      current_height (sr_verification_key_hash reg) (sr_max_custom_effects reg)
                      (sr_owner_public_key reg)]> (sovereign_registrations L)), Ok tt)
  | None => (L, Err (NotSovereign id))
  end.

Definition registration_live (current_height : Z) (reg : SovereignRegistration) : Prop :=
  saturating_sub current_height (sr_last_activity reg) <= sr_ttl_blocks reg.

#[global] Instance registration_live_dec h reg : Decision (registration_live h reg).
Proof. unfold registration_live. apply _. Defined.

Definition expire_sovereign_registrations (L : Ledger) (current_height : Z) : Ledger * nat :=
  let before := size (sovereign_registrations L) in
  let kept := filter (fun e => registration_live current_height e.2) (sovereign_registrations L) in
  (with_registrations L kept, (before - size kept)%nat).

(** ** Migration *)

Definition is_migration_locked (L : Ledger) (id : CellId) : bool :=
  bool_decide (is_Some (migration_locks L !! id)).

Definition migration_voucher_for (L : Ledger) (id : CellId) : option MigrationVoucher :=
  ml_voucher <$> migration_locks L !! id.

Definition migrate_prepare (L : Ledger) (id : CellId) (from to : FederationId)
    (target_mode : CellMode) (prepared_at : Z)
    : option (Ledger * result MigrationVoucher MigrationError) :=
  match migration_locks L !! id with
  | Some _ => Some (L, Err NotMigratable)
  | None =>
      match cells L !! id with
      | None => Some (L, Err (SourceNotFound id))
      | Some cell =>
          r ← migration_voucher cell from to target_mode prepared_at;
          match r with
          | Err e => Some (L, Err e)
          | Ok voucher =>
              Some (with_locks L (<[id := mkLock voucher]> (migration_locks L)), Ok voucher)
          end
      end
  end.

Definition migrate_accept (L : Ledger) (voucher : MigrationVoucher) (cell : Cell)
    (this_federation : FederationId) (accepted_at : Z)
    : option (Ledger * result MigrationReceipt MigrationError) :=
  if negb (bool_decide (mv_to voucher = this_federation)) then Some (L, Err WrongDestination)
  else if negb (bool_decide (c_id cell = mv_cell_id voucher)) then Some (L, Err StateMismatch)
  else if negb (verify_id_integrity cell) then Some (L, Err (IdentityBroken (c_id cell)))
  else
    h ← state_commitment cell;
    if negb (bool_decide (h = mv_state_commitment voucher)) then Some (L, Err StateMismatch)
    else
      let id := c_id cell in
      if bool_decide (is_Some (cells L !! id)) || bool_decide (is_Some (sovereign_commitments L !! id))
         || bool_decide (is_Some (sovereign_registrations L !! id))
      then Some (L, Err (DestinationOccupied id))
      else
        let receipt := mkReceipt id (voucher_hash voucher) this_federation accepted_at in
        match mv_target_mode voucher with
        | Hosted =>
            let installed := with_lifecycle (with_mode (invalidate_leaf_cache cell) Hosted) Live in
            let L := with_cells L (<[id := installed]> (cells L)) in
            let L := with_index L (index_add (pubkey_index L) (c_public_key installed) id) in
            Some (with_pending L (touch_structural (pending L)), Ok receipt)
        | Sovereign =>
            Some (with_sovereign L (<[id := mv_state_commitment voucher]> (sovereign_commitments L)),
                  Ok receipt)
        end.

Definition migrate_commit (L : Ledger) (id : CellId) (receipt : MigrationReceipt)
    : Ledger * result unit MigrationError :=
  match migration_locks L !! id with
  | None => (L, Err ReceiptMismatch)
  | Some lock =>
      match cells L !! id with
      | None => (L, Err (SourceNotFound id))
      | Some cell =>
          let cell := invalidate_leaf_cache cell in
          match cell_migrate_commit cell (ml_voucher lock) receipt with
          | Err e => (with_cells L (<[id := cell]> (cells L)), Err e)
          | Ok cell =>
              let L := with_cells L (<[id := cell]> (cells L)) in
              let L := with_locks L (delete id (migration_locks L)) in
              (with_pending L (touch_value (pending L) id), Ok tt)
          end
      end
  end.

End LedgerOps.

(** ** Sovereign history *)

Record SovereignHistory : Type := mkHistory {
  genesis_commitment : bytes;
  current_commitment : bytes;
  step_count : Z;
  accumulated_hash : bytes;
  ivc_proof : option bytes;
}.

Section History.
Context `{HB : Blake3}.

Definition history_new (genesis : bytes) : SovereignHistory :=
  mkHistory genesis genesis 0 (blake3_hash genesis) None.

(** [self.step_count += 1] overflows at [u64::MAX]: a panic in a debug build,
    the wrapped counter otherwise. *)
Definition record_step (h : SovereignHistory) (new_commitment effects_hash : bytes) : SovereignHistory :=
  let n := as_u64 (step_count h + 1) in
  mkHistory (genesis_commitment h) new_commitment n
    (blake3_hash (accumulated_hash h ++ effects_hash ++ le_bytes 8 n)) None.

Definition attach_ivc_proof (h : SovereignHistory) (proof : bytes) : SovereignHistory :=
  mkHistory (genesis_commitment h) (current_commitment h) (step_count h) (accumulated_hash h) (Some proof).

Definition has_ivc_proof (h : SovereignHistory) : bool := bool_decide (is_Some (ivc_proof h)).

End History.
