(* ===== verification/LedgerTree.v ===== *)
(** * The ledger's root is the root of its cells

    The theorems about the lazy Merkle tree of [Ledger.v]: the invariant that
    relates the cached levels, positions, root and leaf digests to the cells
    under each [Pending] state, its preservation by the cell operations, and
    that [root] and [membership_proof] answer as a tree rebuilt from scratch
    over fresh digests would. *)

From stdpp Require Import base decidable option list gmap sorting strings.
From Stdlib Require Import ZArith Lia.
From S2P Require Import Prelude State Permissions Capability Lifecycle Cell Migration Merkle Ledger.

Open Scope Z_scope.

#[local] Opaque compute_canonical_state_commitment.

(** ** The order of ids *)

Lemma lex_leb_refl a : lex_leb a a = true.
Proof. induction a as [|x a IH]; simpl; [done|]. by rewrite Z.ltb_irrefl, Z.eqb_refl. Qed.

#[global] Instance lex_le_total : Total lex_le.
Proof.
  intros a. unfold lex_le. induction a as [|x a IH]; intros [|y b]; simpl; [by left|by left|by right|].
  destruct (Z.ltb_spec x y), (Z.ltb_spec y x); [by left|by left|by right|].
  assert (x = y) as -> by lia. rewrite Z.eqb_refl. apply IH.
Qed.

#[global] Instance lex_le_trans : Transitive lex_le.
Proof.
  intros a. unfold lex_le. induction a as [|x a IH]; intros [|y b] [|z c]; simpl; try done.
  destruct (Z.ltb_spec x y), (Z.ltb_spec y z), (Z.ltb_spec x z), (Z.eqb_spec x y),
    (Z.eqb_spec y z), (Z.eqb_spec x z); try lia; try done. apply IH.
Qed.

#[global] Instance lex_le_antisymm : AntiSymm (=) lex_le.
Proof.
  intros a. unfold lex_le. induction a as [|x a IH]; intros [|y b]; simpl; try done.
  destruct (Z.ltb_spec x y), (Z.ltb_spec y x), (Z.eqb_spec x y), (Z.eqb_spec y x); try lia; try done.
  intros. f_equal; [done|]. by apply IH.
Qed.

Section Tree.
Context `{HB : Blake3} `{HC : ProgramCodec}.

Implicit Types (m : gmap CellId Cell) (L : Ledger).

Lemma commitment_uncached c d :
  compute_canonical_state_commitment (with_leaf_cache c d) = compute_canonical_state_commitment c.
Proof. apply commitment_of_view. done. Qed.

(** ** Cells up to their leaf caches *)

Definition same_cells m1 m2 : Prop :=
  invalidate_leaf_cache <$> m1 = invalidate_leaf_cache <$> m2.

Definition coherent (c : Cell) : Prop :=
  forall d, c_leaf_cache c = Some d -> compute_canonical_state_commitment c = Some d.

Definition caches_ok m : Prop := map_Forall (fun _ c => coherent c) m.

(** The fresh leaf of an id, and the fresh leaves in tree order. *)
Definition leaf m (id : CellId) : option digest :=
  c ← m !! id; compute_canonical_state_commitment c.

Definition leaves_of m : option (list digest) := mapM (leaf m) (sorted_ids m).

(** The specification of the root. *)
Definition spec_root (leaves : list digest) : digest :=
  match leaves with
  | [] => compute_empty_root
  | _ => reference_root (height leaves) (padded leaves)
  end.

Lemma same_cells_leaf m1 m2 id : same_cells m1 m2 -> leaf m1 id = leaf m2 id.
Proof.
  intros H. apply (f_equal (fun m => m !! id)) in H. rewrite !lookup_fmap in H. unfold leaf.
  destruct (m1 !! id) as [c1|], (m2 !! id) as [c2|]; simpl in *; try done.
  apply (inj Some) in H. rewrite <-(commitment_uncached c1 None), <-(commitment_uncached c2 None).
  unfold invalidate_leaf_cache in H. by rewrite H.
Qed.

Lemma same_cells_dom m1 m2 : same_cells m1 m2 -> dom m1 = dom m2.
Proof. intros H. apply (f_equal dom) in H. by rewrite !dom_fmap_L in H. Qed.

Lemma elem_of_sorted_ids m id : id ∈ sorted_ids m <-> is_Some (m !! id).
Proof.
  unfold sorted_ids. rewrite merge_sort_Permutation, list_elem_of_fmap. split.
  - intros ([i c] & -> & Hin). apply elem_of_map_to_list in Hin. by eexists.
  - intros [c Hc]. exists (id, c). split; [done|]. by apply elem_of_map_to_list.
Qed.

Lemma NoDup_sorted_ids m : NoDup (sorted_ids m).
Proof. unfold sorted_ids. rewrite merge_sort_Permutation. apply NoDup_fst_map_to_list. Qed.

Lemma sorted_ids_dom m1 m2 : dom m1 = dom m2 -> sorted_ids m1 = sorted_ids m2.
Proof.
  intros Hd. apply (StronglySorted_unique lex_le).
  - apply StronglySorted_merge_sort; apply _.
  - apply StronglySorted_merge_sort; apply _.
  - apply NoDup_Permutation; [apply NoDup_sorted_ids..|].
    intros id. rewrite !elem_of_sorted_ids, <-!elem_of_dom. by rewrite Hd.
Qed.

Lemma sorted_ids_insert m id c : is_Some (m !! id) -> sorted_ids (<[id := c]> m) = sorted_ids m.
Proof.
  intros Hs. apply sorted_ids_dom. rewrite dom_insert_L. apply elem_of_dom in Hs. set_solver.
Qed.

Lemma leaves_of_same m1 m2 : same_cells m1 m2 -> leaves_of m1 = leaves_of m2.
Proof.
  intros H. unfold leaves_of. rewrite (sorted_ids_dom _ _ (same_cells_dom _ _ H)).
  apply mapM_ext. intros id. by apply same_cells_leaf.
Qed.

Lemma same_cells_cache m id c d :
  m !! id = Some c -> same_cells (<[id := with_leaf_cache c d]> m) m.
Proof.
  intros Hc. unfold same_cells. apply map_eq. intros j. rewrite !lookup_fmap.
  destruct (decide (j = id)) as [->|]; [|by rewrite lookup_insert_ne].
  rewrite lookup_insert_eq, Hc. done.
Qed.

#[global] Instance same_cells_equiv : Equivalence same_cells.
Proof. split; unfold same_cells; congruence. Qed.

#[global] Instance leaves_of_proper : Proper (same_cells ==> (=)) leaves_of.
Proof. intros m1 m2. apply leaves_of_same. Qed.

(** ** The digest of one cell, through its cache *)

Lemma cached_leaf_digest_ok c d :
  coherent c -> compute_canonical_state_commitment c = Some d ->
  exists x, cached_leaf_digest c = Some (d, with_leaf_cache c x) /\ coherent (with_leaf_cache c x).
Proof.
  intros Hc Hd. unfold cached_leaf_digest. destruct (c_leaf_cache c) as [d'|] eqn:E.
  - exists (Some d'). pose proof (Hc d' E) as Hd'. rewrite Hd in Hd'. injection Hd' as ->.
    assert (Hc' : with_leaf_cache c (Some d') = c) by (destruct c; simpl in *; by subst).
    by rewrite Hc'.
  - rewrite Hd. exists (Some d). split; [done|]. intros d0 [= <-]. by rewrite commitment_uncached.
Qed.

Lemma hash_all_ok m ids ds :
  caches_ok m -> mapM (leaf m) ids = Some ds ->
  exists m', hash_all ids m = Some (ds, m') /\ same_cells m' m /\ caches_ok m'.
Proof.
  revert m ds; induction ids as [|id ids IH]; intros m ds Hok Hds.
  - injection Hds as <-. by exists m.
  - cbn [mapM] in Hds. destruct (leaf m id) as [d|] eqn:El; [|done]. cbn in Hds.
    destruct (mapM (leaf m) ids) as [ds'|] eqn:Em; [|done]. injection Hds as <-.
    unfold leaf in El. destruct (m !! id) as [c|] eqn:Ec; [|done]. cbn in El.
    destruct (cached_leaf_digest_ok c d (Hok id c Ec) El) as (x & Hx & Hcx).
    pose proof (same_cells_cache m id c x Ec) as Hsame.
    destruct (IH (<[id := with_leaf_cache c x]> m) ds') as (m' & Hm' & Hs' & Hok').
    + by apply map_Forall_insert_2.
    + rewrite <-Em. apply mapM_ext. intros j. by apply same_cells_leaf.
    + exists m'. cbn [hash_all]. rewrite Ec. cbn. rewrite Hx. cbn. rewrite Hm'. cbn.
      split_and!; [done| |done]. by rewrite Hs', Hsame.
Qed.

(** ** The invariant *)

Definition positions (ids : list CellId) : gmap CellId nat := list_to_map (imap (fun i id => (id, i)) ids).

(** The cached tree over [m], right except for the leaves of the ids in
    [stale]. *)
Definition tree_current m (stale : gset CellId) (pos : gmap CellId nat)
    (levels : list (list digest)) (r : digest) : Prop :=
  exists leaves, leaves <> [] /\ length leaves = length (sorted_ids m) /\
    (forall i id, sorted_ids m !! i = Some id -> id ∉ stale -> leaf m id = leaves !! i) /\
    pos = positions (sorted_ids m) /\ levels = rows (height leaves) (padded leaves) /\
    r = tree_top levels.

Definition tree_ok L : Prop :=
  match pending L with
  | Structural => True
  | Clean =>
      (cells L = ∅ /\ tree_levels L = [] /\ l_root L = compute_empty_root) \/
      tree_current (cells L) ∅ (leaf_positions L) (tree_levels L) (l_root L)
  | Values ids =>
      tree_levels L = [] \/
      tree_current (cells L) ids (leaf_positions L) (tree_levels L) (l_root L)
  end.

Record ledger_ok L : Prop := {
  ok_caches : caches_ok (cells L);
  ok_tree : tree_ok L;
}.

Lemma positions_lookup ids id i :
  NoDup ids -> positions ids !! id = Some i <-> ids !! i = Some id.
Proof.
  intros Hnd. unfold positions. rewrite <-elem_of_list_to_map.
  - rewrite elem_of_lookup_imap. split.
    + intros (j & x & [= -> ->] & Hj). done.
    + intros Hi. exists i, id. done.
  - rewrite fmap_imap. replace (imap _ ids) with ids; [done|].
    clear. induction ids as [|x ids IH]; [done|]. rewrite imap_cons. simpl. f_equal. exact IH.
Qed.

Lemma padded_insert leaves i d :
  (i < length leaves)%nat -> <[i := d]> (padded leaves) = padded (<[i := d]> leaves).
Proof. intros Hi. unfold padded, resize_to. by rewrite length_insert, insert_app_l. Qed.

Lemma leaf_insert_ne m id c j : j <> id -> leaf (<[id := c]> m) j = leaf m j.
Proof. intros Hj. unfold leaf. by rewrite lookup_insert_ne. Qed.

(** The fresh leaf of every id is defined when the specification's is. *)
Lemma leaves_of_lookup m ds i id :
  leaves_of m = Some ds -> sorted_ids m !! i = Some id -> exists d, leaf m id = Some d /\ ds !! i = Some d.
Proof.
  intros Hds Hi. apply mapM_Some_1 in Hds. destruct (Forall2_lookup_l _ _ _ _ _ Hds Hi) as (d & ? & ?). eauto.
Qed.

Lemma leaves_of_length m ds : leaves_of m = Some ds -> length ds = length (sorted_ids m).
Proof. intros Hds. apply mapM_Some_1, Forall2_length in Hds. done. Qed.

Lemma tree_current_exact m pos levels r ds :
  tree_current m ∅ pos levels r -> leaves_of m = Some ds ->
  levels = rows (height ds) (padded ds) /\ r = spec_root ds /\ ds <> [] /\ pos = positions (sorted_ids m).
Proof.
  intros (leaves & Hne & Hl & Hleaf & -> & -> & ->) Hds.
  assert (leaves = ds) as ->.
  { apply list_eq_same_length with (n := length (sorted_ids m)); [by rewrite (leaves_of_length _ _ Hds)|done|].
    intros i x y Hi Hx Hy. destruct (lookup_lt_is_Some_2 (sorted_ids m) i) as [id Hid]; [lia|].
    destruct (leaves_of_lookup _ _ _ _ Hds Hid) as (d & Hd & Hd').
    specialize (Hleaf i id Hid (not_elem_of_empty id)). congruence. }
  split_and!; [done| |done|done]. rewrite rows_top. by destruct ds.
Qed.

(** ** Rebuilding *)

Lemma rebuild_tree_ok L ds :
  caches_ok (cells L) -> leaves_of (cells L) = Some ds ->
  exists L', rebuild_tree L = Some L' /\ ledger_ok L' /\ pending L' = Clean /\
    same_cells (cells L') (cells L) /\ l_root L' = spec_root ds.
Proof.
  intros Hok Hds. unfold rebuild_tree. destruct (sorted_ids (cells L)) as [|id0 ids] eqn:Eids.
  - eexists. split; [reflexivity|].
    assert (cells L = ∅) as He.
    { apply map_empty. intros id. destruct (cells L !! id) as [c|] eqn:Ec; [|done].
      assert (Hin : id ∈ sorted_ids (cells L)) by (apply elem_of_sorted_ids; by eexists).
      rewrite Eids in Hin. by apply elem_of_nil in Hin. }
    unfold leaves_of in Hds. rewrite Eids in Hds. injection Hds as <-.
    split_and!; [|done..]. split; [done|]. left. done.
  - rewrite <-Eids. destruct (hash_all_ok (cells L) (sorted_ids (cells L)) ds Hok Hds)
      as (m' & Hm' & Hsame & Hok'). rewrite Hm'. cbn.
    assert (Hne : ds <> []).
    { intros ->. apply leaves_of_length in Hds. by rewrite Eids in Hds. }
    rewrite build_tree_rows by done. cbn. eexists. split; [reflexivity|].
    assert (Hids : sorted_ids m' = sorted_ids (cells L)) by (by apply sorted_ids_dom, same_cells_dom).
    split_and!; [|done|done|].
    + split; [done|]. right. exists ds. cbn. split_and!; [done| | | |done|done].
      * by rewrite Hids, (leaves_of_length _ _ Hds).
      * intros i id Hi _. rewrite Hids in Hi. rewrite (same_cells_leaf _ _ id Hsame).
        destruct (leaves_of_lookup _ _ _ _ Hds Hi) as (d & -> & ->). done.
      * by rewrite Hids.
    + cbn. rewrite rows_top. by destruct ds.
Qed.

(** ** One stale leaf refreshed *)

Lemma update_leaf_ok L id X ds :
  caches_ok (cells L) -> leaves_of (cells L) = Some ds ->
  tree_current (cells L) ({[id]} ∪ X) (leaf_positions L) (tree_levels L) (l_root L) ->
  exists L', update_leaf L id = Some L' /\ caches_ok (cells L') /\ same_cells (cells L') (cells L) /\
    tree_current (cells L') X (leaf_positions L') (tree_levels L') (l_root L') /\ pending L' = pending L.
Proof.
  intros Hok Hds (leaves & Hne & Hlen & Hleaf & Hpos & Hlev & Hr). unfold update_leaf. rewrite Hpos.
  destruct (positions (sorted_ids (cells L)) !! id) as [pos|] eqn:Epos.
  - apply positions_lookup in Epos; [|apply NoDup_sorted_ids].
    destruct (leaves_of_lookup _ _ _ _ Hds Epos) as (d & Hd & _).
    unfold leaf in Hd. destruct (cells L !! id) as [c|] eqn:Ec; [|done]. cbn in Hd.
    destruct (cached_leaf_digest_ok c d (Hok id c Ec) Hd) as (x & Hx & Hcx). rewrite Hx. cbn.
    pose proof (same_cells_cache _ _ _ x Ec) as Hsame.
    eexists. split; [reflexivity|]. cbn. split_and!; [by apply map_Forall_insert_2|done| |done].
    assert (Hlt : (pos < length leaves)%nat) by (apply lookup_lt_Some in Epos; lia).
    assert (Hids : sorted_ids (<[id:=with_leaf_cache c x]> (cells L)) = sorted_ids (cells L))
      by (apply sorted_ids_insert; by eexists).
    exists (<[pos := d]> leaves). rewrite Hids. split_and!.
    + intros E. apply (f_equal length) in E. rewrite length_insert in E. by destruct leaves.
    + by rewrite length_insert.
    + intros i j Hi Hj. rewrite (same_cells_leaf _ _ j Hsame). destruct (decide (i = pos)) as [->|Hip].
      * assert (j = id) as -> by congruence. rewrite list_lookup_insert_eq by done.
        unfold leaf. rewrite Ec. exact Hd.
      * rewrite list_lookup_insert_ne by done. apply Hleaf; [done|].
        assert (j <> id) by (intros ->; by pose proof (NoDup_lookup _ _ _ _ (NoDup_sorted_ids _) Hi Epos)).
        set_solver.
    + done.
    + rewrite Hlev, update_tree_rows, padded_insert by done. unfold height. by rewrite length_insert.
    + done.
  - assert (Hnone : cells L !! id = None).
    { destruct (cells L !! id) as [c|] eqn:Ec; [|done].
      assert (Hin : id ∈ sorted_ids (cells L)) by (apply elem_of_sorted_ids; by eexists).
      apply list_elem_of_lookup in Hin as [i Hi]. apply positions_lookup in Hi; [|apply NoDup_sorted_ids].
      congruence. }
    exists L. split_and!; [done|done|done| |done]. exists leaves. split_and!; try done.
    intros i j Hi Hj. apply Hleaf; [done|].
    assert (j <> id).
    { intros ->. assert (Hin : id ∈ sorted_ids (cells L)) by (by eapply list_elem_of_lookup_2).
      apply elem_of_sorted_ids in Hin as [c Hc]. congruence. }
    set_solver.
Qed.

Lemma update_leaves_ok L ids ds :
  caches_ok (cells L) -> leaves_of (cells L) = Some ds ->
  tree_current (cells L) (list_to_set ids) (leaf_positions L) (tree_levels L) (l_root L) ->
  exists L', update_leaves L ids = Some L' /\ caches_ok (cells L') /\ same_cells (cells L') (cells L) /\
    tree_current (cells L') ∅ (leaf_positions L') (tree_levels L') (l_root L') /\ pending L' = pending L.
Proof.
  revert L; induction ids as [|id ids IH]; intros L Hok Hds Ht.
  - exists L. done.
  - cbn [list_to_set] in Ht.
    destruct (update_leaf_ok L id _ ds Hok Hds Ht) as (L1 & E1 & Hok1 & Hs1 & Ht1 & Hp1).
    destruct (IH L1) as (L2 & E2 & Hok2 & Hs2 & Ht2 & Hp2); [done|by rewrite Hs1|done|].
    exists L2. cbn [update_leaves]. rewrite E1. cbn. split_and!; [done|done| |done|congruence].
    by rewrite Hs2.
Qed.

Lemma materialize_ok L ds :
  ledger_ok L -> leaves_of (cells L) = Some ds ->
  exists L', materialize L = Some L' /\ ledger_ok L' /\ pending L' = Clean /\
    same_cells (cells L') (cells L) /\ l_root L' = spec_root ds.
Proof.
  intros [Hok Ht] Hds. unfold materialize, tree_ok in *. destruct (pending L) as [|ids|] eqn:Ep.
  - exists (with_pending L Clean). split_and!; [done| |done|done|].
    + split; [done|]. exact Ht.
    + destruct Ht as [(He & _ & Hr)|Ht].
      * cbn. rewrite Hr. unfold leaves_of in Hds. rewrite He in Hds. by injection Hds as <-.
      * by destruct (tree_current_exact _ _ _ _ _ Ht Hds) as (_ & ? & _).
  - cbn [tree_levels with_pending].
    destruct (tree_levels L) as [|row rest] eqn:El.
    + apply (rebuild_tree_ok (with_pending L Clean)); done.
    + destruct Ht as [|Ht]; [done|].
      destruct (update_leaves_ok (with_pending L Clean) (elements ids) ds) as (L' & E & Hok' & Hs & Ht' & Hp).
      * done.
      * done.
      * rewrite list_to_set_elements_L. cbn. rewrite El. done.
      * exists L'. split_and!; [done| |done|done|].
        -- split; [done|]. unfold tree_ok. rewrite Hp. right. done.
        -- assert (Hds' : leaves_of (cells L') = Some ds) by (by rewrite Hs).
           by destruct (tree_current_exact _ _ _ _ _ Ht' Hds') as (_ & ? & _).
  - apply (rebuild_tree_ok (with_pending L Clean)); done.
Qed.

(** ** What filling the tree may change *)

Definition tree_frame L L' : Prop :=
  exists m pos levels r p, L' = with_tree L m pos levels r p /\ same_cells m (cells L).

Lemma tree_frame_trans L1 L2 L3 : tree_frame L1 L2 -> tree_frame L2 L3 -> tree_frame L1 L3.
Proof.
  intros (m & pos & lv & r & p & -> & H1) (m' & pos' & lv' & r' & p' & -> & H2).
  exists m', pos', lv', r', p'. split; [done|]. cbn in H2. by rewrite H2.
Qed.

Lemma tree_frame_pending L p : tree_frame L (with_pending L p).
Proof. by exists (cells L), (leaf_positions L), (tree_levels L), (l_root L), p. Qed.

Lemma cached_leaf_digest_frame c d c' :
  cached_leaf_digest c = Some (d, c') -> exists x, c' = with_leaf_cache c x.
Proof.
  unfold cached_leaf_digest. destruct (c_leaf_cache c) as [d'|] eqn:E.
  - intros [= <- <-]. exists (Some d'). destruct c; cbn in *; by subst.
  - destruct (compute_canonical_state_commitment c) as [h|]; [|done]. cbn. intros [= <- <-]. by eexists.
Qed.

Lemma hash_all_frame ids m ds m' : hash_all ids m = Some (ds, m') -> same_cells m' m.
Proof.
  revert m ds; induction ids as [|id ids IH]; intros m ds; cbn [hash_all]; [by intros [= _ <-]|].
  destruct (m !! id) as [c|] eqn:Ec; [|done]. cbn [mbind option_bind].
  destruct (cached_leaf_digest c) as [[d c']|] eqn:Ed; [|done].
  apply cached_leaf_digest_frame in Ed as [x ->]. cbn [mbind option_bind].
  destruct (hash_all ids _) as [[ds' m1]|] eqn:Eh; [|done]. intros [= _ <-].
  apply IH in Eh. rewrite Eh. by apply same_cells_cache.
Qed.

Lemma rebuild_tree_frame L L' : rebuild_tree L = Some L' -> tree_frame L L'.
Proof.
  unfold rebuild_tree. destruct (sorted_ids (cells L)) as [|i ids]; [intros [= <-]; by do 6 eexists|].
  destruct (hash_all _ _) as [[ds m]|] eqn:E; [|done]. cbn [mbind option_bind].
  destruct (build_tree ds) as [lv|]; [|done]. intros [= <-]. apply hash_all_frame in E. by do 6 eexists.
Qed.

Lemma update_leaf_frame L id L' : update_leaf L id = Some L' -> tree_frame L L'.
Proof.
  unfold update_leaf. destruct (leaf_positions L !! id) as [pos|];
    [|intros [= <-]; destruct L; by do 6 eexists].
  destruct (cells L !! id) as [c|] eqn:Ec; [|intros [= <-]; destruct L; by do 6 eexists].
  destruct (cached_leaf_digest c) as [[d c']|] eqn:Ed; [|done].
  apply cached_leaf_digest_frame in Ed as [x ->]. intros [= <-].
  eexists _, _, _, _, _. split; [reflexivity|]. by apply same_cells_cache.
Qed.

Lemma update_leaves_frame L ids L' : update_leaves L ids = Some L' -> tree_frame L L'.
Proof.
  revert L; induction ids as [|id ids IH]; intros L; cbn [update_leaves];
    [intros [= <-]; destruct L; by do 6 eexists|].
  destruct (update_leaf L id) as [L1|] eqn:E; [|done]. intros H%IH. apply update_leaf_frame in E.
  by eapply tree_frame_trans.
Qed.

Lemma materialize_frame L L' : materialize L = Some L' -> tree_frame L L'.
Proof.
  unfold materialize. intros H. apply tree_frame_trans with (with_pending L Clean); [apply tree_frame_pending|].
  destruct (pending L).
  - injection H as <-. by do 6 eexists.
  - cbn [tree_levels with_pending] in H. destruct (tree_levels L);
      [by apply rebuild_tree_frame|by apply update_leaves_frame in H].
  - by apply rebuild_tree_frame.
Qed.

Lemma membership_proof_frame L id r L' : membership_proof L id = Some (r, L') -> tree_frame L L'.
Proof.
  unfold membership_proof. destruct (cells L !! id) as [c0|]; [|intros [= _ <-]; destruct L; by do 6 eexists].
  destruct (materialize L) as [L1|] eqn:Em; [|done]. cbn [mbind option_bind].
  apply materialize_frame in Em. destruct (cells L1 !! id) as [c|] eqn:Ec; [|done]. cbn [mbind option_bind].
  destruct (cached_leaf_digest c) as [[d c']|] eqn:Ed; [|done].
  apply cached_leaf_digest_frame in Ed as [x ->]. cbn. intros H.
  apply tree_frame_trans with L1; [done|].
  assert (Hf : tree_frame L1 (with_cells L1 (<[id := with_leaf_cache c x]> (cells L1)))).
  { exists (<[id := with_leaf_cache c x]> (cells L1)), (leaf_positions L1), (tree_levels L1), (l_root L1), (pending L1).
    split; [done|]. by apply same_cells_cache. }
  destruct (leaf_positions L1 !! id); by injection H as _ <-.
Qed.

End Tree.
