(* ===== verification/LedgerDelta.v ===== *)
(** * Deltas: atomicity, conservation, validation

    The theorems about [Ledger::apply_delta]: an error leaves the ledger
    exactly as it was; an accepted delta of updates and transfers changes the
    total supply by the sum of its balance changes and overdraws no cell; and
    the validator's running balances are the balances the in-place application
    meets, so that after it only a nonce overflow can still fail. *)

From stdpp Require Import base decidable option list gmap sorting strings.
From Stdlib Require Import ZArith Lia.
From S2P Require Import Prelude State Permissions Capability Lifecycle Cell Migration Merkle Ledger.

Open Scope Z_scope.

(** ** The public-key index, as the lists it holds *)

Definition iview (idx : gmap bytes (list CellId)) (pk : bytes) : list CellId := default [] (idx !! pk).

Definition no_empty (idx : gmap bytes (list CellId)) : Prop := forall pk, idx !! pk <> Some [].

Lemma iview_ext i1 i2 :
  no_empty i1 -> no_empty i2 -> (forall pk, iview i1 pk = iview i2 pk) -> i1 = i2.
Proof.
  intros H1 H2 Hv. apply map_eq. intros pk. specialize (Hv pk). unfold iview in Hv.
  specialize (H1 pk). specialize (H2 pk).
  destruct (i1 !! pk), (i2 !! pk); simpl in *; congruence.
Qed.

Lemma iview_add idx pk id pk' :
  iview (index_add idx pk id) pk' = iview idx pk' ++ (if decide (pk' = pk) then [id] else []).
Proof.
  unfold iview, index_add. destruct (decide (pk' = pk)) as [->|].
  - by rewrite lookup_insert_eq.
  - by rewrite lookup_insert_ne, app_nil_r.
Qed.

Lemma no_empty_add idx pk id : no_empty idx -> no_empty (index_add idx pk id).
Proof.
  intros H pk'. unfold index_add. destruct (decide (pk' = pk)) as [->|].
  - rewrite lookup_insert_eq. intros [= E]. by destruct (default [] (idx !! pk)).
  - by rewrite lookup_insert_ne.
Qed.

Definition drop_id (id : CellId) (l : list CellId) : list CellId :=
  retain (fun c => negb (bool_decide (c = id))) l.

Lemma elem_of_drop_id id l x : x ∈ drop_id id l <-> x ∈ l /\ x <> id.
Proof.
  unfold drop_id. rewrite elem_of_retain, negb_true_iff, bool_decide_eq_false. done.
Qed.

Lemma drop_id_notin id l : id ∉ l -> drop_id id l = l.
Proof.
  induction l as [|x l IH]; [done|]. rewrite not_elem_of_cons. intros [Hx Hl].
  unfold drop_id, retain in *. cbn. rewrite bool_decide_eq_false_2 by done. simpl. f_equal. by apply IH.
Qed.

Lemma drop_id_app id l1 l2 : drop_id id (l1 ++ l2) = drop_id id l1 ++ drop_id id l2.
Proof. apply List.filter_app. Qed.

Lemma iview_remove idx pk id pk' :
  iview (index_remove idx pk id) pk' = if decide (pk' = pk) then drop_id id (iview idx pk) else iview idx pk'.
Proof.
  unfold iview, index_remove. destruct (idx !! pk) as [ids|] eqn:E.
  - fold (drop_id id ids). destruct (drop_id id ids) as [|x l] eqn:Ed; destruct (decide (pk' = pk)) as [->|].
    + rewrite lookup_delete_eq. simpl. by rewrite Ed.
    + by rewrite lookup_delete_ne.
    + rewrite lookup_insert_eq. simpl. by rewrite Ed.
    + by rewrite lookup_insert_ne.
  - destruct (decide (pk' = pk)) as [->|]; [|done]. by rewrite E.
Qed.

Lemma no_empty_remove idx pk id : no_empty idx -> no_empty (index_remove idx pk id).
Proof.
  intros H pk'. unfold index_remove. destruct (idx !! pk) as [ids|] eqn:E; [|apply H].
  destruct (retain _ ids) as [|x l]; destruct (decide (pk' = pk)) as [->|].
  - by rewrite lookup_delete_eq.
  - rewrite lookup_delete_ne by done. apply H.
  - by rewrite lookup_insert_eq.
  - rewrite lookup_insert_ne by done. apply H.
Qed.

Section Delta.
Context `{HB : Blake3} `{HC : ProgramCodec}.

Implicit Types (L : Ledger) (m : gmap CellId Cell).

(** Every id of the index is a hosted cell, and no list is empty. *)
Record index_ok L : Prop := {
  index_no_empty : no_empty (pubkey_index L);
  index_hosted : forall pk id, id ∈ iview (pubkey_index L) pk -> is_Some (cells L !! id);
}.

(** ** What one step of a delta does to one cell *)

Lemma apply_cell_delta_pk c d id : c_public_key (apply_cell_delta c d id).1 = c_public_key c.
Proof.
  assert (Hf : forall us c, c_public_key (run_until (apply_field_update id) c us).1 = c_public_key c).
  { induction us as [|u us IH]; intros c0; [done|]. cbn [run_until]. unfold apply_field_update at 1.
    destruct (_ <=? _)%nat; [done|]. by rewrite IH. }
  unfold apply_cell_delta. pose proof (Hf (field_updates d) (invalidate_leaf_cache c)) as Hu.
  destruct (run_until _ _ _) as [c1 [e|]]; cbn [fst] in *; [exact Hu|].
  destruct (if nonce_increment d then _ else _) as [s ok]. destruct ok; [|exact Hu]. cbn [negb].
  destruct (apply_balance_change s (balance_change d)) as [s' ok']. destruct ok'; [|exact Hu]. cbn [negb].
  destruct (permission_changes d); exact Hu.
Qed.

(** ** The undo journal *)

(** The ledger and journal reached from [L0] after creating [cs]. *)
Record undo_inv L0 (cs : list Cell) L (undo : gmap CellId (option Cell)) : Prop := {
  ui_frame : L = with_index (with_cells L0 (cells L)) (pubkey_index L);
  ui_prior : forall id p, undo !! id = Some p -> p = cells L0 !! id;
  ui_untouched : forall id, undo !! id = None -> cells L !! id = cells L0 !! id;
  ui_no_empty : no_empty (pubkey_index L);
  ui_index : forall pk, iview (pubkey_index L) pk =
    iview (pubkey_index L0) pk ++ (c_id <$> filter (fun c => c_public_key c = pk) cs);
  ui_created : Forall (fun c => undo !! c_id c = Some None /\
    exists c', cells L !! c_id c = Some c' /\ c_public_key c' = c_public_key c) cs;
  ui_new : forall id c', cells L !! id = Some c' -> cells L0 !! id = None ->
    exists c, c ∈ cs /\ c_id c = id /\ c_public_key c = c_public_key c';
}.

Lemma undo_record_lookup undo id p j :
  undo_record undo id p !! j =
  if decide (j = id) then Some (default p (undo !! id)) else undo !! j.
Proof.
  unfold undo_record. destruct (undo !! id) as [q|] eqn:E; destruct (decide (j = id)) as [->|].
  - exact E.
  - done.
  - by rewrite lookup_insert_eq.
  - by rewrite lookup_insert_ne.
Qed.

(** Replacing a present cell by one with the same key, after recording it. *)
Lemma undo_inv_set L0 cs L undo id c c' :
  undo_inv L0 cs L undo -> cells L !! id = Some c -> c_public_key c' = c_public_key c ->
  undo_inv L0 cs (with_cells L (<[id := c']> (cells L))) (undo_record undo id (cells L !! id)).
Proof.
  intros [Hf Hp Hu Hne Hi Hc Hn] Hid Hpk. split; cbn [cells with_cells pubkey_index].
  - rewrite Hf. by destruct L.
  - intros j p. rewrite undo_record_lookup. destruct (decide (j = id)) as [->|]; [|by apply Hp].
    intros [= <-]. destruct (undo !! id) eqn:E; simpl; [by apply Hp|by apply Hu].
  - intros j. rewrite undo_record_lookup. destruct (decide (j = id)) as [->|]; [done|].
    rewrite lookup_insert_ne by done. apply Hu.
  - done.
  - done.
  - eapply Forall_impl; [exact Hc|]. intros x (Hx & x' & Hx' & Hxp). rewrite undo_record_lookup.
    destruct (decide (c_id x = id)) as [Ex|].
    + split; [by rewrite <-Ex, Hx|]. exists c'. rewrite Ex, lookup_insert_eq. split; [done|]. congruence.
    + split; [done|]. exists x'. by rewrite lookup_insert_ne.
  - intros j x. destruct (decide (j = id)) as [->|].
    + rewrite lookup_insert_eq. intros [= <-] H0. destruct (Hn id c Hid H0) as (y & ? & ? & ?).
      exists y. split_and!; [done..|congruence].
    + rewrite lookup_insert_ne by done. apply Hn.
Qed.

Lemma undo_inv_record L0 cs L undo id :
  undo_inv L0 cs L undo -> undo_inv L0 cs L (undo_record undo id (cells L !! id)).
Proof.
  intros [Hf Hp Hu Hne Hi Hc Hn]. split; [done| | |done|done| |done].
  - intros j p. rewrite undo_record_lookup. destruct (decide (j = id)) as [->|]; [|by apply Hp].
    intros [= <-]. destruct (undo !! id) eqn:E; simpl; [by apply Hp|by apply Hu].
  - intros j. rewrite undo_record_lookup. destruct (decide (j = id)) as [->|]; [done|apply Hu].
  - eapply Forall_impl; [exact Hc|]. intros x (Hx & Hx'). rewrite undo_record_lookup.
    destruct (decide (c_id x = id)) as [Ex|]; [|done]. split; [by rewrite <-Ex, Hx|done].
Qed.

Lemma undo_inv_update L0 cs L undo u :
  undo_inv L0 cs L undo ->
  let '((L', undo'), _) := apply_update (L, undo) u in undo_inv L0 cs L' undo'.
Proof.
  intros H. destruct u as [id d]. unfold apply_update. destruct (cells L !! id) as [c|] eqn:E.
  - destruct (apply_cell_delta c d id) as [c' e] eqn:Ed. rewrite <-E. eapply undo_inv_set; [done|done|].
    by rewrite <-(apply_cell_delta_pk c d id), Ed.
  - rewrite <-E. by apply undo_inv_record.
Qed.

Lemma undo_inv_transfer L0 cs L undo t :
  undo_inv L0 cs L undo ->
  let '((L', undo'), _) := apply_transfer (L, undo) t in undo_inv L0 cs L' undo'.
Proof.
  intros H. destruct t as [[from to] amount]. unfold apply_transfer.
  destruct (i64_try_from amount) as [amt|]; [|done].
  destruct (cells L !! from) as [fc|] eqn:Ef; [|rewrite <-Ef; by apply undo_inv_record].
  destruct (_ <? _); [rewrite <-Ef; by apply undo_inv_record|]. rewrite <-Ef.
  set (L1 := with_cells L _).
  assert (H1 : undo_inv L0 cs L1 (undo_record undo from (cells L !! from))) by (by eapply undo_inv_set).
  destruct (cells L1 !! to) as [tc|] eqn:Et; [|rewrite <-Et; by apply undo_inv_record].
  rewrite <-Et. destruct (checked_add_i64 _ _); by eapply undo_inv_set.
Qed.

Lemma undo_inv_created L0 cs L undo c :
  cells L0 !! c_id c = None -> c_id c ∉ c_id <$> cs ->
  undo_inv L0 cs L undo ->
  let '((L', undo'), _) := apply_created (L, undo) c in undo_inv L0 (cs ++ [c]) L' undo'.
Proof.
  intros H0 Hnew [Hf Hp Hu Hne Hi Hc Hn]. cbn.
  assert (Hold : undo !! c_id c = None \/ undo !! c_id c = Some None).
  { destruct (undo !! c_id c) as [p|] eqn:E; [|by left]. right. by rewrite (Hp _ _ E), H0. }
  split; cbn [cells with_cells pubkey_index with_index].
  - rewrite Hf. by destruct L.
  - intros j p. rewrite undo_record_lookup. destruct (decide (j = c_id c)) as [->|]; [|by apply Hp].
    destruct Hold as [-> | ->]; by intros [= <-].
  - intros j. rewrite undo_record_lookup. destruct (decide (j = c_id c)) as [->|]; [done|].
    rewrite lookup_insert_ne by done. apply Hu.
  - by apply no_empty_add.
  - intros pk. rewrite iview_add, Hi, filter_app, fmap_app, app_assoc. f_equal.
    rewrite filter_cons, filter_nil. destruct (decide (pk = c_public_key c)) as [->|].
    + by rewrite decide_True.
    + by rewrite decide_False by done.
  - apply Forall_app. split.
    + rewrite Forall_forall in Hc |- *. intros x Hx. destruct (Hc x Hx) as (Hux & x' & Hx' & Hpx).
      assert (c_id x <> c_id c) by (intros E; apply Hnew; rewrite <-E; by apply list_elem_of_fmap_2).
      rewrite undo_record_lookup, decide_False by done. split; [done|].
      exists x'. by rewrite lookup_insert_ne.
    + apply Forall_singleton. rewrite undo_record_lookup, decide_True by done. split.
      * by destruct Hold as [-> | ->].
      * exists c. by rewrite lookup_insert_eq.
  - intros j x. destruct (decide (j = c_id c)) as [->|].
    + rewrite lookup_insert_eq. intros [= <-] _. exists c. split; [|done]. apply elem_of_app. right. by left.
    + rewrite lookup_insert_ne by done. intros Hx Hx0. destruct (Hn j x Hx Hx0) as (y & ? & ?).
      exists y. split; [|done]. apply elem_of_app. by left.
Qed.

(** ** Rolling back *)

Record rollback_inv L0 (cs : list Cell) L (l : list (CellId * option Cell)) : Prop := {
  ri_frame : L = with_index (with_cells L0 (cells L)) (pubkey_index L);
  ri_done : forall id, id ∉ l.*1 -> cells L !! id = cells L0 !! id;
  ri_prior : forall id p, (id, p) ∈ l -> p = cells L0 !! id;
  ri_no_empty : no_empty (pubkey_index L);
  ri_index : forall pk, iview (pubkey_index L) pk = iview (pubkey_index L0) pk ++
    (c_id <$> filter (fun c => c_public_key c = pk /\ c_id c ∈ l.*1) cs);
  ri_created : forall c, c ∈ cs -> c_id c ∈ l.*1 ->
    exists c', cells L !! c_id c = Some c' /\ c_public_key c' = c_public_key c;
  ri_new : forall id c', cells L !! id = Some c' -> cells L0 !! id = None ->
    exists c, c ∈ cs /\ c_id c = id /\ c_public_key c = c_public_key c';
}.

(** Removing one created id from the index view. *)
Lemma drop_created (cs : list Cell) (c : Cell) (l : list CellId) pk :
  NoDup (c_id <$> cs) -> c_id c ∉ l ->
  drop_id (c_id c) (c_id <$> filter (fun x => c_public_key x = pk /\ c_id x ∈ c_id c :: l) cs) =
  c_id <$> filter (fun x => c_public_key x = pk /\ c_id x ∈ l) cs.
Proof.
  intros Hnd Hl. induction cs as [|x cs IH]; [done|]. cbn [fmap list_fmap] in Hnd.
  apply NoDup_cons in Hnd as [Hx Hnd]. rewrite !filter_cons.
  destruct (decide (c_public_key x = pk /\ c_id x ∈ c_id c :: l)) as [[Hpk Hin]|Hno].
  - rewrite fmap_cons. unfold drop_id, retain in *. cbn [List.filter].
    destruct (decide (c_id x = c_id c)) as [E|E].
    + rewrite bool_decide_eq_true_2 by done. cbn [negb]. rewrite decide_False by (rewrite E; tauto).
      by apply IH.
    + rewrite bool_decide_eq_false_2 by done. cbn [negb].
      apply elem_of_cons in Hin as [|Hin]; [done|]. rewrite decide_True by done.
      rewrite fmap_cons. f_equal. by apply IH.
  - rewrite decide_False by (rewrite elem_of_cons in Hno; tauto). by apply IH.
Qed.

Lemma filter_ext_cells (P Q : Cell -> Prop) `{!forall c, Decision (P c), !forall c, Decision (Q c)}
    (cs : list Cell) :
  (forall c, c ∈ cs -> P c <-> Q c) -> filter P cs = filter Q cs.
Proof.
  induction cs as [|x cs IH]; intros Hpq; [done|]. rewrite !filter_cons.
  rewrite (decide_ext (P x) (Q x)) by (apply Hpq; left).
  rewrite IH by (intros c Hc; apply Hpq; by right). done.
Qed.

(** A prior image put back: the index does not change. *)
Lemma rollback_step_prior L0 cs L id c0 l :
  id ∉ l.*1 -> (forall c, c ∈ cs -> cells L0 !! c_id c = None) ->
  rollback_inv L0 cs L ((id, Some c0) :: l) ->
  rollback_inv L0 cs (with_cells L (<[id := c0]> (cells L))) l.
Proof.
  intros Hidl Hfresh [Hf Hd Hp Hne Hi Hc Hn]. pose proof (Hp id _ (list_elem_of_here _ _)) as Ep.
  split; cbn [cells with_cells pubkey_index].
  - rewrite Hf. by destruct L.
  - intros j Hj. destruct (decide (j = id)) as [->|].
    + by rewrite lookup_insert_eq.
    + rewrite lookup_insert_ne by done. apply Hd. cbn. rewrite elem_of_cons. tauto.
  - intros j q Hq. apply Hp. by right.
  - done.
  - intros pk. rewrite Hi. do 2 f_equal. apply filter_ext_cells. intros c Hcs. cbn.
    rewrite elem_of_cons. split; [|tauto]. intros [? [E|?]]; [|done].
    rewrite <-E in Ep. by rewrite (Hfresh c Hcs) in Ep.
  - intros c Hcs Hin. rewrite lookup_insert_ne by (intros E; by rewrite E in Hidl).
    apply Hc; [done|]. cbn. by right.
  - intros j x. destruct (decide (j = id)) as [->|].
    + intros _ E. by rewrite E in Ep.
    + rewrite lookup_insert_ne by done. apply Hn.
Qed.

(** A created cell dropped, with its index entry. *)
Lemma rollback_step_created L0 cs L id c' l :
  index_ok L0 -> NoDup (c_id <$> cs) -> id ∉ l.*1 -> cells L !! id = Some c' ->
  rollback_inv L0 cs L ((id, None) :: l) ->
  rollback_inv L0 cs (with_index (with_cells L (delete id (cells L)))
    (index_remove (pubkey_index L) (c_public_key c') id)) l.
Proof.
  intros [Hine Hih] Hnd Hidl Ec [Hf Hd Hp Hne Hi Hc Hn]. pose proof (Hp id _ (list_elem_of_here _ _)) as Ep.
  destruct (Hn id c' Ec (eq_sym Ep)) as (c & Hcs & Hcid & Hpk).
  split; cbn [cells with_cells pubkey_index with_index].
  - rewrite Hf. by destruct L.
  - intros j Hj. destruct (decide (j = id)) as [->|].
    + by rewrite lookup_delete_eq.
    + rewrite lookup_delete_ne by done. apply Hd. cbn. rewrite elem_of_cons. tauto.
  - intros j q Hq. apply Hp. by right.
  - by apply no_empty_remove.
  - intros pk. rewrite iview_remove. destruct (decide (pk = c_public_key c')) as [->|Hpk'].
    + rewrite Hi, drop_id_app. f_equal.
      { apply drop_id_notin. intros Hin. destruct (Hih _ _ Hin). congruence. }
      cbn. rewrite <-Hcid. apply drop_created; [done|]. by rewrite Hcid.
    + rewrite Hi. do 2 f_equal. apply filter_ext_cells. intros x Hx. cbn. rewrite elem_of_cons.
      split; [|tauto]. intros [Hxp [E|?]]; [|done].
      assert (x = c) as -> by (apply (NoDup_fmap_elem_inj c_id cs); [done..|congruence]). congruence.
  - intros x Hx Hin. rewrite lookup_delete_ne by (intros E; by rewrite E in Hidl).
    apply Hc; [done|]. cbn. by right.
  - intros j x. destruct (decide (j = id)) as [->|]; [by rewrite lookup_delete_eq|].
    rewrite lookup_delete_ne by done. apply Hn.
Qed.

Lemma rollback_step L0 cs L id p l :
  index_ok L0 -> NoDup (c_id <$> cs) -> NoDup (id :: l.*1) ->
  (forall c, c ∈ cs -> cells L0 !! c_id c = None) ->
  rollback_inv L0 cs L ((id, p) :: l) -> rollback_inv L0 cs (undo_entry L (id, p)) l.
Proof.
  intros Hio Hnd Hl Hfresh Hinv. apply NoDup_cons in Hl as [Hidl Hl]. unfold undo_entry. cbn [fst snd].
  destruct p as [c0|]; [by apply rollback_step_prior|].
  destruct (cells L !! id) as [c'|] eqn:Ec; [by apply rollback_step_created|].
  destruct Hinv as [Hf Hd Hp Hne Hi Hc Hn]. pose proof (Hp id _ (list_elem_of_here _ _)) as Ep.
  split; [done| |by intros j q Hq; apply Hp; right|done| | |done].
  - intros j Hj. destruct (decide (j = id)) as [->|]; [congruence|].
    apply Hd. cbn. rewrite elem_of_cons. tauto.
  - intros pk. rewrite Hi. do 2 f_equal. apply filter_ext_cells. intros x Hx. cbn. rewrite elem_of_cons.
    split; [|tauto]. intros [Hxp [E|?]]; [|done].
    destruct (Hc x Hx) as (x' & Hx' & _); [cbn; rewrite E; by left|]. congruence.
  - intros x Hx Hin. apply Hc; [done|]. cbn. by right.
Qed.

Lemma rollback_all L0 cs L l :
  index_ok L0 -> NoDup (c_id <$> cs) -> NoDup l.*1 -> (forall c, c ∈ cs -> cells L0 !! c_id c = None) ->
  rollback_inv L0 cs L l -> foldl undo_entry L l = L0.
Proof.
  intros Hio Hnd Hl Hfresh. revert L; induction l as [|[id p] l IH]; intros L Hinv.
  - destruct Hinv as [Hf Hd _ Hne Hi _ _]. cbn.
    assert (cells L = cells L0) as Ec by (apply map_eq; intros id; apply Hd, not_elem_of_nil).
    assert (pubkey_index L = pubkey_index L0) as Ei.
    { apply iview_ext; [done|apply Hio|]. intros pk. rewrite Hi.
      rewrite (filter_ext_cells _ (fun _ => False)) by (intros; cbn; rewrite elem_of_nil; tauto).
      assert (Hnil : filter (fun _ : Cell => False) cs = []) by (clear; induction cs as [|x cs IH]; [done|]; rewrite filter_cons_False; tauto).
      by rewrite Hnil, app_nil_r. }
    rewrite Hf, Ec, Ei. by destruct L0.
  - cbn [foldl]. apply IH; [by apply NoDup_cons in Hl as [_ ?]|]. by apply rollback_step.
Qed.

Lemma undo_rolls_back L0 cs L undo :
  index_ok L0 -> NoDup (c_id <$> cs) -> (forall c, c ∈ cs -> cells L0 !! c_id c = None) ->
  undo_inv L0 cs L undo -> rollback_delta_from_undo L undo = L0.
Proof.
  intros Hio Hnd Hfresh [Hf Hp Hu Hne Hi Hc Hn]. apply (rollback_all L0 cs); [done|done|apply NoDup_fst_map_to_list|done|].
  assert (Hin : forall id, id ∈ (map_to_list undo).*1 <-> is_Some (undo !! id)).
  { intros id. rewrite list_elem_of_fmap. split.
    - intros ([j q] & -> & Hq). apply elem_of_map_to_list in Hq. by eexists.
    - intros [q Hq]. exists (id, q). split; [done|]. by apply elem_of_map_to_list. }
  rewrite Forall_forall in Hc. split; [done| | |done| | |done].
  - intros id Hid. apply Hu. rewrite Hin in Hid. by apply eq_None_not_Some.
  - intros id p Hq. apply elem_of_map_to_list in Hq. by apply Hp.
  - intros pk. rewrite Hi. do 2 f_equal. apply filter_ext_cells. intros c Hcs.
    rewrite Hin. destruct (Hc c Hcs) as [-> _]. split; [|tauto]. intros ->. split; [done|by eexists].
  - intros c Hcs _. by destruct (Hc c Hcs) as [_ ?].
Qed.

(** ** The whole application *)

Lemma run_until_inv {S X E} (f : S -> X -> S * option E) (P : S -> Prop) s l :
  (forall s x, P s -> P (f s x).1) -> P s -> P (run_until f s l).1.
Proof.
  intros Hf. revert s; induction l as [|x l IH]; intros s Hs; [done|]. cbn [run_until].
  specialize (Hf s x Hs). destruct (f s x) as [s' [e|]]; [done|]. by apply IH.
Qed.

Lemma check_created_fresh L acc cs cc :
  try_fold (check_created L) acc cs = Ok cc -> forall c, c ∈ cs -> cells L !! c_id c = None.
Proof.
  revert acc; induction cs as [|x cs IH]; intros acc; cbn [try_fold]; [by intros _ c ?%elem_of_nil|].
  unfold check_created at 1. destruct (cells L !! c_id x) eqn:E; [done|]. cbn. intros H c.
  rewrite elem_of_cons. intros [->|Hc]; [done|]. by eapply IH.
Qed.

Lemma validate_fresh L d : validate_delta L d = Ok tt -> forall c, c ∈ created d -> cells L !! c_id c = None.
Proof.
  unfold validate_delta. destruct (try_fold (check_created L) ∅ (created d)) as [cc|] eqn:E; [|done].
  intros _. by eapply check_created_fresh.
Qed.

Lemma undo_inv_start L : index_ok L -> undo_inv L [] L ∅.
Proof.
  intros [Hne _]. split; try done.
  - by destruct L.
  - intros pk. by rewrite app_nil_r.
  - intros id c' H1 H2. congruence.
Qed.

Lemma undo_inv_all_created L0 cs0 cs L undo :
  (forall c, c ∈ cs0 ++ cs -> cells L0 !! c_id c = None) -> NoDup (c_id <$> cs0 ++ cs) ->
  undo_inv L0 cs0 L undo ->
  exists L' undo', run_until apply_created (L, undo) cs = ((L', undo'), None) /\
    undo_inv L0 (cs0 ++ cs) L' undo'.
Proof.
  revert cs0 L undo; induction cs as [|c cs IH]; intros cs0 L undo Hfresh Hnd Hinv.
  - rewrite app_nil_r. by exists L, undo.
  - cbn [run_until]. pose proof (undo_inv_created L0 cs0 L undo c) as Hstep.
    unfold apply_created in *. cbn beta iota in *.
    destruct (IH (cs0 ++ [c]) (with_index (with_cells L (<[c_id c:=c]> (cells L)))
       (index_add (pubkey_index L) (c_public_key c) (c_id c))) (undo_record undo (c_id c) None))
      as (L' & undo' & Hr & Hinv').
    + by rewrite <-app_assoc.
    + by rewrite <-app_assoc.
    + apply Hstep; [apply Hfresh; rewrite elem_of_app; right; left| |done].
      rewrite fmap_app, fmap_cons in Hnd. apply NoDup_app in Hnd as (_ & Hnd & _).
      intros Hin. apply (Hnd _ Hin). left.
    + exists L', undo'. rewrite <-app_assoc in Hinv'. done.
Qed.

(** Whatever error stops it, the journal is right. *)
Lemma in_place_undo L d L' undo e :
  index_ok L -> validate_delta L d = Ok tt -> NoDup (c_id <$> created d) ->
  apply_delta_in_place L d = ((L', undo), Some e) -> undo_inv L (created d) L' undo.
Proof.
  intros Hio Hv Hnd. unfold apply_delta_in_place.
  destruct (undo_inv_all_created L [] (created d) L ∅) as (L1 & u1 & -> & H1);
    [by apply validate_fresh|done|by apply undo_inv_start|]. cbn [app] in H1.
  pose proof (run_until_inv apply_update (fun s => undo_inv L (created d) s.1 s.2) (L1, u1) (updated d)) as H2.
  destruct (run_until apply_update (L1, u1) (updated d)) as [[L2 u2] [e2|]]; cbn [fst snd] in H2.
  - intros [= <- <- _]. apply H2; [|done]. intros [L3 u3] u H3. pose proof (undo_inv_update L (created d) L3 u3 u H3) as H4.
    by destruct (apply_update (L3, u3) u) as [[??] ?].
  - pose proof (run_until_inv apply_transfer (fun s => undo_inv L (created d) s.1 s.2) (L2, u2) (computron_transfers d)) as H5.
    destruct (run_until apply_transfer (L2, u2) (computron_transfers d)) as [[L3 u3] [e3|]]; [|done].
    cbn [fst snd] in H5. intros [= <- <- _]. apply H5.
    + intros [L4 u4] u H6. pose proof (undo_inv_transfer L (created d) L4 u4 u H6) as H7.
      by destruct (apply_transfer (L4, u4) u) as [[??] ?].
    + apply H2; [|done]. intros [L4 u4] u H3. pose proof (undo_inv_update L (created d) L4 u4 u H3) as H4.
      by destruct (apply_update (L4, u4) u) as [[??] ?].
Qed.

Lemma apply_delta_error L d e :
  index_ok L -> NoDup (c_id <$> created d) -> (apply_delta L d).2 = Err e -> (apply_delta L d).1 = L.
Proof.
  intros Hio Hnd. unfold apply_delta. destruct (validate_delta L d) as [[]|e0] eqn:Ev; [|done].
  destruct (apply_delta_in_place L d) as [[L' undo] [e1|]] eqn:Ea; [|done]. intros _.
  apply (undo_rolls_back L (created d)); [done|done|by apply validate_fresh|]. by eapply in_place_undo.
Qed.

(** ** The supply *)

Definition cell_balance (c : Cell) : Z := balance (c_state c).

Definition supply m : Z := map_fold (fun _ c acc => cell_balance c + acc) 0 m.

Lemma supply_insert m id c c' :
  m !! id = Some c -> supply (<[id := c']> m) = supply m - cell_balance c + cell_balance c'.
Proof.
  intros Hc. unfold supply.
  rewrite (map_fold_delete_L _ _ id c m) by (auto with lia).
  rewrite <-insert_delete_eq, map_fold_insert_L; [lia|intros; lia|apply lookup_delete_eq].
Qed.

Lemma supply_fresh m id c : m !! id = None -> supply (<[id := c]> m) = cell_balance c + supply m.
Proof. intros Hn. unfold supply. rewrite map_fold_insert_L; [done|intros; lia|done]. Qed.

(** The supply of the cells in some set of ids and of the others. *)
Lemma supply_split (ids : list CellId) m :
  supply m = supply (filter (fun e => e.1 ∈ ids) m) + supply (filter (fun e => e.1 ∉ ids) m).
Proof.
  induction m as [|id c m Hn IH] using map_ind; [by rewrite !map_filter_empty|].
  rewrite supply_fresh by done. destruct (decide (id ∈ ids)) as [Hin|Hout].
  - rewrite (map_filter_insert_True (fun e : CellId * Cell => e.1 ∈ ids)) by done.
    rewrite (map_filter_insert_False (fun e : CellId * Cell => e.1 ∉ ids)) by (by intros []).
    rewrite (delete_id m) by done. rewrite supply_fresh; [lia|]. apply map_lookup_filter_None. by left.
  - rewrite (map_filter_insert_False (fun e : CellId * Cell => e.1 ∈ ids)) by done.
    rewrite (map_filter_insert_True (fun e : CellId * Cell => e.1 ∉ ids)) by done.
    rewrite (delete_id m) by done. rewrite supply_fresh; [lia|]. apply map_lookup_filter_None. by left.
Qed.

(** Every accepted step of a delta, seen as a change of one balance. *)
Lemma run_until_fields id us c c' :
  run_until (apply_field_update id) c us = (c', None) -> cell_balance c' = cell_balance c /\
  nonce (c_state c') = nonce (c_state c).
Proof.
  revert c; induction us as [|u us IH]; intros c; cbn [run_until]; [by intros [= <-]|].
  unfold apply_field_update at 1. destruct (_ <=? _)%nat; [done|]. intros H. apply IH in H as [-> ->]. done.
Qed.

Lemma nonce_step_balance (inc : bool) s0 s ok :
  (if inc then increment_nonce s0 else (s0, true)) = (s, ok) -> balance s = balance s0.
Proof.
  destruct inc; [|by intros [= <- _]]. unfold increment_nonce.
  destruct (checked_add_u64 _ _); by intros [= <- _].
Qed.

Lemma apply_cell_delta_ok c d id c' :
  apply_cell_delta c d id = (c', None) ->
  cell_balance c' = cell_balance c + balance_change d /\
  is_i64 (cell_balance c') /\ (0 <= balance_change d \/ 0 <= cell_balance c').
Proof.
  unfold apply_cell_delta. destruct (run_until _ _ _) as [c1 [e|]] eqn:Er; [done|].
  apply run_until_fields in Er as [Hb _].
  destruct (if nonce_increment d then _ else _) as [s ok] eqn:En. destruct ok; [|done]. cbn [negb].
  pose proof (nonce_step_balance _ _ _ _ En) as Hs.
  unfold apply_balance_change. destruct (checked_add_i64 (balance s) (balance_change d)) as [nb|] eqn:Ea; [|done].
  apply checked_add_i64_spec in Ea as [-> Hi].
  destruct ((0 <=? balance_change d) || (0 <=? balance s + balance_change d)) eqn:Eo; [|done]. cbn [negb].
  intros E. injection E as <-. rewrite orb_true_iff, !Z.leb_le in Eo.
  unfold cell_balance in *. cbn in Hb.
  assert (Hfin : balance (c_state match permission_changes d with
    | Some p => with_permissions (with_state c1 (with_balance s (balance s + balance_change d))) p
    | None => with_state c1 (with_balance s (balance s + balance_change d)) end) = balance s + balance_change d)
    by (by destruct (permission_changes d)).
  cbn [c_state with_capabilities]. rewrite Hfin, Hs, Hb. rewrite Hs, Hb in Hi, Eo. done.
Qed.

Definition nonneg m : Prop := map_Forall (fun _ c => 0 <= cell_balance c) m.

Lemma apply_update_ok L undo u L' undo' :
  apply_update (L, undo) u = ((L', undo'), None) ->
  supply (cells L') = supply (cells L) + balance_change u.2 /\
  (nonneg (cells L) -> nonneg (cells L')) /\ dom (cells L') = dom (cells L).
Proof.
  destruct u as [id d]. unfold apply_update. destruct (cells L !! id) as [c|] eqn:Ec; [|done].
  destruct (apply_cell_delta c d id) as [c' e] eqn:Ed. intros [= <- <- ->]. cbn [cells with_cells snd].
  apply apply_cell_delta_ok in Ed as (Hb & _ & Hn). split_and!.
  - rewrite (supply_insert _ _ c) by done. lia.
  - intros H. apply map_Forall_insert_2; [|done]. specialize (H id c Ec). cbn in H. lia.
  - rewrite dom_insert_L. assert (id ∈ dom (cells L)) by (by eapply elem_of_dom_2). set_solver.
Qed.

Lemma apply_transfer_ok L undo t L' undo' :
  is_u64 t.2 -> apply_transfer (L, undo) t = ((L', undo'), None) ->
  supply (cells L') = supply (cells L) /\ (nonneg (cells L) -> nonneg (cells L')) /\
  dom (cells L') = dom (cells L).
Proof.
  destruct t as [[from to] amount]. cbn [snd]. intros Hu. unfold apply_transfer.
  destruct (i64_try_from amount) as [amt|] eqn:Ea; [|done]. apply i64_try_from_spec in Ea as [-> _].
  destruct (cells L !! from) as [fc|] eqn:Ef; [|done].
  destruct (Z.ltb_spec (balance (c_state fc)) amount) as [|Hle]; [done|].
  set (m1 := <[from := set_cell_balance fc (balance (c_state fc) - amount)]> (cells L)).
  cbn [cells with_cells]. destruct (m1 !! to) as [tc|] eqn:Et; [|done].
  destruct (checked_add_i64 _ _) as [b|] eqn:Eb; [|done]. apply checked_add_i64_spec in Eb as [-> _].
  intros [= <- <-]. cbn [cells with_cells].
  assert (H1 : supply m1 = supply (cells L) - amount).
  { unfold m1. rewrite (supply_insert _ _ fc) by done. unfold cell_balance. cbn. lia. }
  split_and!.
  - rewrite (supply_insert m1 to tc) by done. unfold cell_balance. cbn. lia.
  - intros H. assert (Hm1 : nonneg m1).
    { apply map_Forall_insert_2; [|done]. unfold cell_balance. cbn. lia. }
    apply map_Forall_insert_2; [|done]. specialize (Hm1 to tc Et).
    unfold cell_balance in *. cbn in *. unfold is_u64 in Hu. lia.
  - rewrite dom_insert_L. assert (to ∈ dom m1) by (by eapply elem_of_dom_2).
    unfold m1 in *. rewrite dom_insert_L in *. assert (from ∈ dom (cells L)) by (by eapply elem_of_dom_2). set_solver.
Qed.

Definition sum_changes (us : list (CellId * CellStateDelta)) : Z :=
  foldr (fun u acc => balance_change u.2 + acc) 0 us.

Lemma run_updates_ok us s s' :
  run_until apply_update s us = (s', None) ->
  supply (cells s'.1) = supply (cells s.1) + sum_changes us /\
  (nonneg (cells s.1) -> nonneg (cells s'.1)) /\ dom (cells s'.1) = dom (cells s.1).
Proof.
  revert s; induction us as [|u us IH]; intros [L undo]; cbn [run_until sum_changes foldr].
  - intros [= <-]. split_and!; [lia|done|done].
  - destruct (apply_update (L, undo) u) as [[L1 undo1] [e|]] eqn:E; [done|].
    apply apply_update_ok in E as (Hs & Hn & Hd). intros (Hs' & Hn' & Hd')%IH. cbn [fst] in *.
    split_and!; [unfold sum_changes in *; lia|tauto|congruence].
Qed.

Lemma run_transfers_ok ts s s' :
  Forall (fun t => is_u64 t.2) ts -> run_until apply_transfer s ts = (s', None) ->
  supply (cells s'.1) = supply (cells s.1) /\
  (nonneg (cells s.1) -> nonneg (cells s'.1)) /\ dom (cells s'.1) = dom (cells s.1).
Proof.
  revert s; induction ts as [|t ts IH]; intros [L undo] Hu; cbn [run_until].
  - by intros [= <-].
  - apply Forall_cons in Hu as [Ht Hu].
    destruct (apply_transfer (L, undo) t) as [[L1 undo1] [e|]] eqn:E; [done|].
    apply apply_transfer_ok in E as (Hs & Hn & Hd); [|done]. intros (Hs' & Hn' & Hd')%IH; [|done].
    cbn [fst] in *. split_and!; [lia|tauto|congruence].
Qed.

Lemma run_transfers_dom s ts s' e :
  run_until apply_transfer s ts = (s', e) -> dom (cells s'.1) = dom (cells s.1).
Proof.
  revert s; induction ts as [|t ts IH]; intros [L undo]; cbn [run_until]; [by intros [= <- _]|].
  assert (Hstep : dom (cells (apply_transfer (L, undo) t).1.1) = dom (cells L)).
  { destruct t as [[from to] amount]. unfold apply_transfer.
    destruct (i64_try_from amount); [|done]. destruct (cells L !! from) as [fc|] eqn:Ef; [|done].
    destruct (_ <? _); [done|]. set (L1 := with_cells L _).
    assert (H1 : dom (cells L1) = dom (cells L))
      by (cbn; rewrite dom_insert_L; apply elem_of_dom_2 in Ef; set_solver).
    destruct (cells L1 !! to) as [tc|] eqn:Et; [|done]. apply elem_of_dom_2 in Et.
    destruct (checked_add_i64 _ _); cbn [fst cells with_cells]; rewrite dom_insert_L; set_solver. }
  destruct (apply_transfer (L, undo) t) as [[L1 u1] [e1|]]; [by intros [= <- _]|].
  intros H%IH. cbn [fst] in *. congruence.
Qed.

(** *** Creations and removals *)

Definition sum_balances (cs : list Cell) : Z := foldr (fun c acc => cell_balance c + acc) 0 cs.

Lemma run_created_ok cs : forall s s', NoDup (c_id <$> cs) -> (forall c, c ∈ cs -> cells s.1 !! c_id c = None) ->
  run_until apply_created s cs = (s', None) ->
  supply (cells s'.1) = supply (cells s.1) + sum_balances cs /\
  dom (cells s'.1) = dom (cells s.1) ∪ list_to_set (c_id <$> cs) /\
  (nonneg (cells s.1) -> Forall (fun c => 0 <= cell_balance c) cs -> nonneg (cells s'.1)).
Proof.
  induction cs as [|c cs IH]; intros [L undo] s' Hnd Hfr; cbn [run_until sum_balances foldr].
  { intros [= <-]. split_and!; [lia|set_solver|done]. }
  rewrite fmap_cons in Hnd. apply NoDup_cons in Hnd as [Hc Hnd]. cbn [apply_created]. intros H.
  apply IH in H as (Hs & Hd & Hn); [|done|].
  - cbn [fst cells with_cells with_index] in *. rewrite supply_fresh in Hs by (apply Hfr; left). split_and!.
    + unfold sum_balances in *. lia.
    + rewrite Hd, dom_insert_L. set_solver.
    + intros Hm [Hb Hbs]%Forall_cons. apply Hn; [|done]. by apply map_Forall_insert_2.
  - intros c1 Hc1. cbn [fst cells with_cells with_index]. rewrite lookup_insert_ne; [apply Hfr; by right|].
    intros E. apply Hc. rewrite E. by apply list_elem_of_fmap_2.
Qed.

Lemma removed_cells ids : forall s, cells (foldl apply_removed s ids).1 = filter (fun e => e.1 ∉ ids) (cells s.1).
Proof.
  induction ids as [|id ids IH]; intros [L undo]; cbn [foldl fst].
  { symmetry. apply map_filter_id. intros i c _. apply not_elem_of_nil. }
  rewrite IH. assert (Hc : cells (apply_removed (L, undo) id).1 = delete id (cells L)).
  { unfold apply_removed. destruct (cells L !! id) eqn:E; cbn [fst]; [done|]. by rewrite delete_id. }
  rewrite Hc. apply map_eq. intros i. apply option_eq. intros c. rewrite !map_lookup_filter_Some. cbn.
  rewrite lookup_delete_Some, not_elem_of_cons. naive_solver.
Qed.

(** ** The validator's running balances are the real ones *)

Definition tracks L (cc : gmap CellId Cell) (rb : gmap CellId Z) L' : Prop :=
  forall id, match lookup_either L cc id with
             | Some c => exists c', cells L' !! id = Some c' /\
                           cell_balance c' = default (cell_balance c) (rb !! id)
             | None => cells L' !! id = None /\ rb !! id = None
             end.

Lemma get_running_tracks L cc rb L' id rb' b :
  tracks L cc rb L' -> get_running L cc rb id = (rb', b) ->
  tracks L cc rb' L' /\ b = cell_balance <$> cells L' !! id.
Proof.
  intros H. unfold get_running. pose proof (H id) as Hid.
  destruct (rb !! id) as [b0|] eqn:Er.
  - intros [= <- <-]. split; [done|]. destruct (lookup_either L cc id); [|by destruct Hid].
    destruct Hid as (c' & -> & Hb). cbn in *. congruence.
  - destruct (lookup_either L cc id) as [c|] eqn:El.
    + intros [= <- <-]. destruct Hid as (c' & Hc' & Hb). cbn in Hb. rewrite Hc'. cbn. split.
      * intros j. specialize (H j). destruct (decide (j = id)) as [->|].
        -- rewrite El in *. exists c'. rewrite lookup_insert_eq. done.
        -- by rewrite lookup_insert_ne.
      * unfold cell_balance in *. congruence.
    + intros [= <- <-]. destruct Hid as [-> _]. done.
Qed.

(** A step that sets one balance, in the validator and in the ledger. *)
Lemma tracks_set L cc rb L' id c' b :
  tracks L cc rb L' -> is_Some (cells L' !! id) -> cell_balance c' = b ->
  tracks L cc (<[id := b]> rb) (with_cells L' (<[id := c']> (cells L'))).
Proof.
  intros H [x Hx] Hb j. specialize (H j). cbn [cells with_cells]. destruct (decide (j = id)) as [->|].
  - rewrite !lookup_insert_eq. destruct (lookup_either L cc id); [|destruct H; congruence].
    exists c'. done.
  - by rewrite !lookup_insert_ne.
Qed.

Lemma run_fields_valid id us c :
  ffind (fun x => (STATE_SLOTS <=? x.1)%nat) us = None ->
  exists c', run_until (apply_field_update id) c us = (c', None).
Proof.
  revert c; induction us as [|u us IH]; intros c; [by eexists|]. unfold ffind. cbn [List.find].
  destruct (STATE_SLOTS <=? u.1)%nat eqn:E; [done|]. intros H. cbn [run_until].
  unfold apply_field_update at 1. rewrite E. by apply IH.
Qed.

Lemma check_update_sound L cc rb rb' L' undo u :
  tracks L cc rb L' -> check_update L cc rb u = Ok rb' ->
  (exists L'' undo'', apply_update (L', undo) u = ((L'', undo''), None) /\ tracks L cc rb' L'') \/
  (exists s id, apply_update (L', undo) u = (s, Some (InvalidDelta "nonce overflow" id))).
Proof.
  intros Ht. destruct u as [id d]. unfold check_update, apply_update.
  destruct (lookup_either L cc id) as [c0|] eqn:El; [|done]. cbn [ok_or].
  destruct (ffind _ (field_updates d)) as [[i ?]|] eqn:Ef; [done|].
  destruct (get_running L cc rb id) as [rb1 b] eqn:Eg.
  destruct (get_running_tracks _ _ _ _ _ _ _ Ht Eg) as [Ht1 ->].
  pose proof (Ht1 id) as Hid. rewrite El in Hid. destruct Hid as (c & Hc & _). rewrite Hc.
  cbn [fmap option_fmap option_map from_option Datatypes.id].
  destruct (checked_add_i64 (cell_balance c) (balance_change d)) as [nb|] eqn:Ea; [|done]. cbn [ok_or].
  destruct ((balance_change d <? 0) && (nb <? 0)) eqn:Eb; [done|]. intros [= <-].
  pose proof Ea as Ea'. apply checked_add_i64_spec in Ea' as [-> Hi].
  destruct (apply_cell_delta c d id) as [c' e] eqn:Ed.
  unfold apply_cell_delta in Ed.
  destruct (run_fields_valid id (field_updates d) (invalidate_leaf_cache c) Ef) as [c1 Er].
  rewrite Er in Ed. apply run_until_fields in Er as [Hb1 _].
  destruct (if nonce_increment d then _ else _) as [s ok] eqn:En. destruct ok; cbn [negb] in Ed.
  - left. assert (Hs : balance s = cell_balance c).
    { rewrite (nonce_step_balance _ _ _ _ En). exact Hb1. }
    unfold apply_balance_change in Ed. rewrite Hs, Ea in Ed.
    assert (Hok : (0 <=? balance_change d) || (0 <=? cell_balance c + balance_change d) = true).
    { rewrite andb_false_iff, !Z.ltb_ge in Eb. rewrite orb_true_iff, !Z.leb_le. lia. }
    rewrite Hok in Ed. cbn [negb] in Ed. injection Ed as <- <-. eexists _, _. split; [reflexivity|].
    apply tracks_set; [done|by eexists|]. unfold cell_balance. by destruct (permission_changes d).
  - right. injection Ed as <- <-. eexists _, _. reflexivity.
Qed.

Lemma check_transfer_sound L cc rb rb' L' undo t :
  tracks L cc rb L' -> check_transfer L cc rb t = Ok rb' ->
  exists L'' undo'', apply_transfer (L', undo) t = ((L'', undo''), None) /\ tracks L cc rb' L''.
Proof.
  intros Ht. destruct t as [[from to] amount]. unfold check_transfer, apply_transfer.
  destruct (i64_try_from amount) as [amt|]; [|done]. cbn [ok_or].
  destruct (get_running L cc rb from) as [rb1 fb] eqn:E1.
  destruct (get_running_tracks _ _ _ _ _ _ _ Ht E1) as [Ht1 ->].
  destruct (cells L' !! from) as [fc|] eqn:Ef; [|done]. cbn [fmap option_fmap option_map ok_or].
  change (balance (c_state fc)) with (cell_balance fc).
  destruct (Z.ltb_spec (cell_balance fc) amt); [done|].
  set (fc' := set_cell_balance fc (cell_balance fc - amt)).
  set (L1 := with_cells L' (<[from := fc']> (cells L'))).
  assert (Ht2 : tracks L cc (<[from := cell_balance fc - amt]> rb1) L1)
    by (apply tracks_set; [done|by eexists|done]).
  destruct (get_running L cc (<[from := cell_balance fc - amt]> rb1) to) as [rb2 tb] eqn:E2.
  destruct (get_running_tracks _ _ _ _ _ _ _ Ht2 E2) as [Ht3 ->].
  destruct (cells L1 !! to) as [tc|] eqn:Et; [|done]. cbn [fmap option_fmap option_map ok_or].
  change (balance (c_state tc)) with (cell_balance tc).
  destruct (checked_add_i64 (cell_balance tc) amt) as [b|]; [|done]. cbn [ok_or]. intros [= <-].
  eexists _, _. split; [reflexivity|]. apply tracks_set; [done|by eexists|done].
Qed.

Lemma created_tracks L cs cc0 cc L' undo :
  try_fold (check_created L) cc0 cs = Ok cc ->
  (forall id, cells L' !! id = lookup_either L cc0 id) ->
  exists L'' undo'', run_until apply_created (L', undo) cs = ((L'', undo''), None) /\
    (forall id, cells L'' !! id = lookup_either L cc id).
Proof.
  revert cc0 L' undo; induction cs as [|c cs IH]; intros cc0 L' undo.
  - intros [= ->] H. by exists L', undo.
  - cbn [try_fold run_until]. unfold check_created at 1. destruct (cells L !! c_id c) eqn:Ec; [done|]. cbn.
    intros Hcc H. eapply IH; [exact Hcc|]. intros id. cbn [cells with_index with_cells]. unfold lookup_either.
    destruct (decide (id = c_id c)) as [->|].
    + by rewrite Ec, !lookup_insert_eq.
    + rewrite !lookup_insert_ne by done. rewrite H. unfold lookup_either. by destruct (cells L !! id).
Qed.

Lemma checked_updates_apply L cc us rb rb' L' undo :
  tracks L cc rb L' -> try_fold (check_update L cc) rb us = Ok rb' ->
  (exists L'' undo'', run_until apply_update (L', undo) us = ((L'', undo''), None) /\ tracks L cc rb' L'') \/
  (exists s id, run_until apply_update (L', undo) us = (s, Some (InvalidDelta "nonce overflow" id))).
Proof.
  revert rb L' undo; induction us as [|u us IH]; intros rb L' undo Ht; cbn [try_fold run_until].
  - intros [= ->]. left. by exists L', undo.
  - destruct (check_update L cc rb u) as [rb1|] eqn:Ec; [|done]. cbn match beta. intros Hus.
    destruct (check_update_sound _ _ _ _ _ undo _ Ht Ec) as [(L1 & u1 & -> & Ht1)|(s & id & ->)];
      [by eapply IH|right; by exists s, id].
Qed.

Lemma checked_transfers_apply L cc ts rb rb' L' undo :
  tracks L cc rb L' -> try_fold (check_transfer L cc) rb ts = Ok rb' ->
  exists s, run_until apply_transfer (L', undo) ts = (s, None).
Proof.
  revert rb L' undo; induction ts as [|t ts IH]; intros rb L' undo Ht; cbn [try_fold run_until].
  - by eexists.
  - destruct (check_transfer L cc rb t) as [rb1|] eqn:Ec; [|done]. cbn match beta. intros Hts.
    destruct (check_transfer_sound _ _ _ _ _ undo _ Ht Ec) as (L1 & u1 & -> & Ht1). by eapply IH.
Qed.

(** ** Properties *)


(** C28: conservation.  Up to its removals, which come last, an accepted delta
    hosts the cells of before and the created ones and changes the total supply by
    exactly the balances of the created cells and the sum of its declared balance
    changes: transfers move value and never make or destroy it, a transfer from a
    cell to itself included; and if no cell was overdrawn before and none is
    created overdrawn, none is after.  The removals then take out exactly the
    removed cells, with the balances they have come to hold.  (The created ids of a
    delta are distinct, and the amounts of its transfers are unsigned.) *)
Theorem apply_delta_conserves L d :
  NoDup (c_id <$> created d) -> Forall (fun t => is_u64 t.2) (computron_transfers d) ->
  (apply_delta L d).2 = Ok tt ->
  exists before,
    dom before = dom (cells L) ∪ list_to_set (c_id <$> created d) /\
    supply before = supply (cells L) + sum_balances (created d) + sum_changes (updated d) /\
    cells (apply_delta L d).1 = filter (fun e => e.1 ∉ removed d) before /\
    supply (cells (apply_delta L d).1) = supply before - supply (filter (fun e => e.1 ∈ removed d) before) /\
    (nonneg (cells L) -> Forall (fun c => 0 <= cell_balance c) (created d) ->
     nonneg before /\ nonneg (cells (apply_delta L d).1)).
Proof.
  intros Hnd Hu. unfold apply_delta. destruct (validate_delta L d) as [[]|] eqn:Ev; [|done].
  unfold apply_delta_in_place.
  destruct (run_until apply_created (L, ∅) (created d)) as [s0 [e|]] eqn:E0; [by destruct s0|].
  apply run_created_ok in E0 as (C1 & C2 & C3); [|done|by apply validate_fresh].
  destruct (run_until apply_update s0 (updated d)) as [s1 [e|]] eqn:E1; [by destruct s1|].
  apply run_updates_ok in E1 as (H1 & H2 & H3).
  destruct (run_until apply_transfer s1 (computron_transfers d)) as [s2 [e|]] eqn:E2; [by destruct s2|].
  apply run_transfers_ok in E2 as (H4 & H5 & H6); [|done]. intros _. exists (cells s2.1).
  pose proof (removed_cells (removed d) s2) as Hrem. destruct (foldl apply_removed s2 (removed d)) as [L3 u3].
  cbn [fst] in *. cbn [cells with_pending fst]. pose proof (supply_split (removed d) (cells s2.1)) as Hsplit.
  split_and!; [congruence|lia|done|rewrite Hrem; lia|]. intros Hn Hcr.
  assert (Hn2 : nonneg (cells s2.1)) by auto. split; [done|]. rewrite Hrem.
  intros i c [Hi _]%map_lookup_filter_Some. by apply (Hn2 i).
Qed.

(** The validator is complete but for nonces.  Once [validate_delta] has
    accepted a delta, every field index, every balance change and every
    transfer goes through, whatever the order in which cells are created,
    updated and charged: the only failure left is a nonce at its maximum, which
    the validator does not look at. *)
Theorem validated_delta_applies L d :
  validate_delta L d = Ok tt ->
  (apply_delta L d).2 = Ok tt \/
  exists id, (apply_delta L d).2 = Err (InvalidDelta "nonce overflow" id).
Proof.
  intros Hv. unfold apply_delta. rewrite Hv. unfold validate_delta in Hv.
  destruct (try_fold (check_created L) ∅ (created d)) as [cc|] eqn:E1; [|done]. cbn in Hv.
  destruct (try_fold (check_update L cc) ∅ (updated d)) as [rb|] eqn:E2; [|done]. cbn in Hv.
  destruct (try_fold (check_transfer L cc) rb (computron_transfers d)) as [rb2|] eqn:E3; [|done].
  unfold apply_delta_in_place.
  destruct (created_tracks L (created d) ∅ cc L ∅ E1) as (L1 & u1 & -> & H1).
  { intros id. unfold lookup_either. by destruct (cells L !! id). }
  assert (Ht : tracks L cc ∅ L1).
  { intros id. rewrite H1. destruct (lookup_either L cc id) as [c|]; [|done]. exists c. done. }
  destruct (checked_updates_apply L cc (updated d) ∅ rb L1 u1 Ht E2) as [(L2 & u2 & -> & Ht2)|(s & id & ->)].
  - destruct (checked_transfers_apply L cc _ rb rb2 L2 u2 Ht2 E3) as [s ->].
    destruct (foldl apply_removed s (removed d)). by left.
  - destruct s. right. by exists id.
Qed.

End Delta.

(** ** Witnesses *)

#[local] Existing Instance model_blake3.
#[local] Existing Instance model_codec.

Definition w_account (id : CellId) (b n : Z) : Cell :=
  cell_literal id (fill32 1) (fill32 2) (with_nonce (state_new_at b Heap.HEAP_ZERO8 Heap.HEAP_ZERO8) n) Hosted.

Definition w_alice : CellId := fill32 10.
Definition w_bob : CellId := fill32 11.

Definition w_ledger (n : Z) : Ledger :=
  with_cells ledger_new {[ w_alice := w_account w_alice 100 n; w_bob := w_account w_bob 5 0 ]}.

(** Pay 30 from one cell to the other and bump the payer's nonce. *)
Definition w_delta : LedgerDelta :=
  mkLedgerDelta [] [(w_alice, mkDelta [] true 0 None [] [])] [(w_alice, w_bob, 30)] [].

Lemma w_index_ok n : index_ok (w_ledger n).
Proof. split; [done|]. intros pk id H. by apply elem_of_nil in H. Qed.


(** The same payment, with a cell created and the payee removed. *)
Definition w_carol : CellId := fill32 12.

Definition w_churn : LedgerDelta :=
  mkLedgerDelta [w_account w_carol 7 0] [(w_alice, mkDelta [] true 0 None [] [])] [(w_alice, w_bob, 30)] [w_bob].

Lemma apply_delta_conserves_witness :
  (apply_delta (w_ledger 0) w_churn).2 = Ok tt /\
  supply (cells (apply_delta (w_ledger 0) w_churn).1) = 112 - 35.
Proof.
  assert (H : (apply_delta (w_ledger 0) w_churn).2 = Ok tt) by (vm_compute; reflexivity).
  split; [exact H|].
  destruct (apply_delta_conserves (w_ledger 0) w_churn) as (before & Hd & Hs & Hc & Hr & _).
  - apply NoDup_singleton.
  - apply Forall_singleton. unfold is_u64, u64_max. simpl. lia.
  - exact H.
  - vm_compute. reflexivity.
Defined.

Lemma validated_delta_applies_witness :
  validate_delta (w_ledger u64_max) w_delta = Ok tt /\
  exists id, (apply_delta (w_ledger u64_max) w_delta).2 = Err (InvalidDelta "nonce overflow" id).
Proof.
  assert (H : validate_delta (w_ledger u64_max) w_delta = Ok tt) by (vm_compute; reflexivity).
  split; [exact H|]. destruct (validated_delta_applies _ _ H) as [E|E]; [|exact E].
  exfalso. revert E. vm_compute. discriminate.
Defined.
