(* ===== verification/LedgerRoot.v ===== *)
(** * Every operation keeps the root right

    The operations of the ledger as one step function, the preservation of the
    tree invariant of [LedgerTree.v] by each of them, and the resulting
    theorems: after any history, [root] and [membership_proof] answer for the
    cells the ledger holds; and the one entry point that does not clear a leaf
    cache. *)

From stdpp Require Import base decidable option list gmap sorting strings.
From Stdlib Require Import ZArith Lia.
From S2P Require Import Prelude State Permissions Capability Lifecycle Cell Migration Merkle.
From S2P Require Import Ledger LedgerTree LedgerDelta.

Open Scope Z_scope.

#[local] Opaque compute_canonical_state_commitment.

Section Root.
Context `{HB : Blake3} `{HC : ProgramCodec}.

Implicit Types (m : gmap CellId Cell) (L : Ledger).

(** ** Value changes *)

Lemma touch_values_spec p ids :
  touch_values p ids =
  match p, ids with
  | p, [] => p
  | Clean, _ => Values (list_to_set ids)
  | Values s, _ => Values (list_to_set ids ∪ s)
  | Structural, _ => Structural
  end.
Proof.
  unfold touch_values. revert p; induction ids as [|id ids IH]; intros p; cbn [foldl]; [by destruct p|].
  rewrite IH. destruct p as [|s|]; cbn [touch_value].
  - destruct ids; f_equal; cbn; set_solver.
  - destruct ids; f_equal; cbn; set_solver.
  - by destruct ids.
Qed.

Lemma tree_current_change m m' X Y pos levels r :
  dom m' = dom m -> (forall j, j ∉ Y -> m' !! j = m !! j) ->
  tree_current m X pos levels r -> tree_current m' (Y ∪ X) pos levels r.
Proof.
  intros Hd Hs (leaves & Hne & Hl & Hleaf & Hpos & Hlev & Hr).
  rewrite <-(sorted_ids_dom _ _ Hd) in Hl, Hleaf, Hpos. exists leaves. split_and!; try done.
  intros i id Hi Hid. unfold leaf. rewrite Hs by set_solver. apply Hleaf; set_solver.
Qed.

(** Changing the values at [ids] and recording them keeps the invariant. *)
Lemma tree_ok_touch L m' ids :
  tree_ok L -> dom m' = dom (cells L) -> (forall j, j ∉ ids -> m' !! j = cells L !! j) ->
  tree_ok (with_pending (with_cells L m') (touch_values (pending L) ids)).
Proof.
  intros Ht Hd Hs. unfold tree_ok in *. cbn [pending with_pending]. rewrite touch_values_spec.
  destruct ids as [|id ids].
  - assert (m' = cells L) as -> by (apply map_eq; intros j; apply Hs, not_elem_of_nil). by destruct (pending L).
  - assert (Hs' : forall j, j ∉ (list_to_set (id :: ids) : gset CellId) -> m' !! j = cells L !! j).
    { intros j Hj. apply Hs. by rewrite elem_of_list_to_set in Hj. }
    destruct (pending L) as [|X|]; [| |done].
    + destruct Ht as [(_ & ? & _)|Ht]; [by left|right].
      cbn [cells with_pending with_cells leaf_positions tree_levels l_root].
      replace (list_to_set (id :: ids)) with (list_to_set (id :: ids) ∪ (∅ : gset CellId)) by set_solver.
      by apply (tree_current_change (cells L)).
    + destruct Ht as [?|Ht]; [by left|right]. by apply (tree_current_change (cells L)).
Qed.

Lemma tree_ok_same L m' : tree_ok L -> same_cells m' (cells L) -> tree_ok (with_cells L m').
Proof.
  intros Ht Hs. pose proof (same_cells_dom _ _ Hs) as Hd. unfold tree_ok in *. cbn.
  assert (Hc : forall X pos levels r, tree_current (cells L) X pos levels r -> tree_current m' X pos levels r).
  { intros X pos levels r (leaves & Hne & Hl & Hleaf & Hpos & Hlev & Hr).
    rewrite <-(sorted_ids_dom _ _ Hd) in Hl, Hleaf, Hpos. exists leaves. split_and!; try done.
    intros i id Hi Hid. rewrite (same_cells_leaf _ _ id Hs). by apply Hleaf. }
  destruct (pending L); [|destruct Ht as [?|Ht]; [by left|right; by apply Hc]|done].
  destruct Ht as [(He & ? & ?)|Ht]; [left|right; by apply Hc]. split_and!; [|done..].
  apply dom_empty_inv_L. by rewrite Hd, He, dom_empty_L.
Qed.

(** ** Operations *)

Inductive ledger_op : Type :=
| OGetMut (id : CellId) (f : Cell -> Cell)
| OUpdateWith (id : CellId) (f : Cell -> Cell)
| OCreate (public_key token_id : bytes)
| OInsert (cell : Cell)
| ORemove (id : CellId)
| ODelta (d : LedgerDelta)
| OMakeSovereign (id : CellId)
| OUndoMakeSovereign (cell : Cell)
| ORegister (id : CellId) (commitment : bytes)
| ORegisterVk (id : CellId) (commitment : bytes) (height ttl : Z) (vk : option bytes)
| OUpdateSovereign (id : CellId) (commitment : bytes)
| OUpdateRegistration (id : CellId) (old new_ : bytes) (height : Z)
| OBump (id : CellId) (sequence : Z)
| ODeregister (id : CellId)
| OExpire (height : Z)
| OPrepare (id : CellId) (from to : FederationId) (mode : CellMode) (at_ : Z)
| OAccept (v : MigrationVoucher) (cell : Cell) (here : FederationId) (at_ : Z)
| OCommit (id : CellId) (r : MigrationReceipt)
| OBegin
| OCommitTurn
| ORollback (order : list (CellId * option Cell))
| ORoot
| OProof (id : CellId).

(** [None] is a panic: a c-list too large for the capability tree. *)
Definition run_op L (o : ledger_op) : option Ledger :=
  match o with
  | OGetMut id f => Some (get_mut L id f)
  | OUpdateWith id f => Some (update_with L id (fun c => (f c, tt))).1
  | OCreate pk tok => fst <$> create_cell L pk tok
  | OInsert c => Some (insert_cell L c).1
  | ORemove id => Some (remove L id).1
  | ODelta d => Some (apply_delta L d).1
  | OMakeSovereign id => fst <$> make_sovereign L id
  | OUndoMakeSovereign c => Some (undo_make_sovereign L c)
  | ORegister id h => Some (register_sovereign_cell L id h).1
  | ORegisterVk id h height ttl vk => Some (register_sovereign_cell_with_vk L id h height ttl vk).1
  | OUpdateSovereign id h => Some (update_sovereign_commitment L id h).1
  | OUpdateRegistration id old new_ height =>
      Some (update_sovereign_registration_commitment L id old new_ height).1
  | OBump id n => Some (bump_sovereign_witness_sequence L id n)
  | ODeregister id => Some (deregister_sovereign_cell L id).1
  | OExpire h => Some (expire_sovereign_registrations L h).1
  | OPrepare id from to mode at_ => fst <$> migrate_prepare L id from to mode at_
  | OAccept v c here at_ => fst <$> migrate_accept L v c here at_
  | OCommit id r => Some (migrate_commit L id r).1
  | OBegin => Some (begin_restore_point L)
  | OCommitTurn => Some (commit_restore_point L)
  | ORollback order => Some (rollback_restore_point order L)
  | ORoot => snd <$> root L
  | OProof id => snd <$> membership_proof L id
  end.

(** A closure writes the fields of the cell it is handed that are public: the
    leaf cache, the public key and the id are private to the crate (assigning a
    whole other cell through the reference is what this leaves out).  A cell is
    created under a fresh id, the created cells of a delta are distinct and
    carry no stale digest, and the root is asked for only while every c-list
    fits its tree. *)
Definition op_honest L (o : ledger_op) : Prop :=
  match o with
  | OGetMut _ f | OUpdateWith _ f => forall c, c_leaf_cache c = None ->
      c_leaf_cache (f c) = None /\ c_public_key (f c) = c_public_key c /\ c_id (f c) = c_id c
  | OCreate pk tok => cells L !! derive_raw pk tok = None
  | ODelta d => Forall coherent (created d) /\ NoDup (c_id <$> created d)
  | ORoot | OProof _ => is_Some (leaves_of (cells L))
  | _ => True
  end.

Lemma coherent_none c : c_leaf_cache c = None -> coherent c.
Proof. intros H d Hd. congruence. Qed.

Lemma journal_same L id :
  cells (journal_cell L id) = cells L /\ pending (journal_cell L id) = pending L /\
  (tree_ok L -> tree_ok (journal_cell L id)).
Proof. unfold journal_cell. repeat case_match; done. Qed.

Lemma journal_ok L id : ledger_ok L -> ledger_ok (journal_cell L id).
Proof.
  intros [Hc Ht]. destruct (journal_same L id) as (Ec & _ & Hj). split; [by rewrite Ec|by apply Hj].
Qed.

(** A value written at a present id. *)
Lemma set_value_ok L id c c' :
  ledger_ok L -> cells L !! id = Some c -> coherent c' ->
  ledger_ok (with_pending (with_cells L (<[id := c']> (cells L))) (touch_value (pending L) id)).
Proof.
  intros [Hc Ht] Hid Hc'. split.
  - by apply map_Forall_insert_2.
  - apply (tree_ok_touch L (<[id := c']> (cells L)) [id]); [done| |].
    + rewrite dom_insert_L. apply elem_of_dom_2 in Hid. set_solver.
    + intros j Hj. apply lookup_insert_ne. set_solver.
Qed.

Lemma structural_ok L : caches_ok (cells L) -> pending L = Structural -> ledger_ok L.
Proof. intros Hc Hp. split; [done|]. unfold tree_ok. by rewrite Hp. Qed.

Lemma add_cell_ok L id c : ledger_ok L -> coherent c -> ledger_ok (add_cell L id c).
Proof.
  intros [Hc _] Hcoh. apply structural_ok; [|done]. cbn.
  destruct (journal_same L id) as (-> & _). by apply map_Forall_insert_2.
Qed.

Lemma insert_cell_ok L c : ledger_ok L -> ledger_ok (insert_cell L c).1.
Proof.
  intros H. unfold insert_cell. destruct (cells L !! c_id c); [done|].
  apply add_cell_ok; [done|]. by apply coherent_none.
Qed.

Lemma remove_ok L id : ledger_ok L -> ledger_ok (remove L id).1.
Proof.
  intros H. unfold remove. pose proof (journal_ok L id H) as Hj.
  destruct (cells (journal_cell L id) !! id); [|done]. apply structural_ok; [|done]. cbn.
  apply map_Forall_delete. apply Hj.
Qed.

(** Operations that leave cells, tree and pending work alone. *)
Lemma frame_ok L L' :
  cells L' = cells L -> pending L' = pending L -> leaf_positions L' = leaf_positions L ->
  tree_levels L' = tree_levels L -> l_root L' = l_root L -> ledger_ok L -> ledger_ok L'.
Proof.
  intros E1 E2 E3 E4 E5 [Hc Ht]. split; [by rewrite E1|]. unfold tree_ok in *.
  by rewrite E1, E2, E3, E4, E5.
Qed.

Lemma restore_entry_ok L e : ledger_ok L -> ledger_ok (restore_entry L e).
Proof.
  intros H. unfold restore_entry. pose proof (remove_ok L e.1 H) as Hr.
  destruct (e.2); [by apply insert_cell_ok|done].
Qed.

Lemma rollback_ok order L : ledger_ok L -> ledger_ok (rollback_restore_point order L).
Proof.
  intros H. unfold rollback_restore_point. destruct (restore_point L) as [rp|]; [|done].
  set (L1 := with_locks _ _).
  assert (H1 : ledger_ok L1) by (by apply (frame_ok L)). clearbody L1. revert L1 H1.
  induction order as [|e order IH]; intros L1 H1; [done|]. cbn [foldl]. apply IH. by apply restore_entry_ok.
Qed.

(** ** Deltas *)

(** What an accepted step changes: cells at [ids], which it leaves uncached. *)
Record touches L L' (ids : list CellId) : Prop := {
  to_frame : L' = with_index (with_cells L (cells L')) (pubkey_index L');
  to_same : forall j, j ∉ ids -> cells L' !! j = cells L !! j;
  to_uncached : forall j c, j ∈ ids -> cells L' !! j = Some c -> c_leaf_cache c = None;
}.

Lemma touches_refl L : touches L L [].
Proof. split; [by destruct L|done|]. intros j c Hj. by apply elem_of_nil in Hj. Qed.

Lemma touches_trans L1 L2 L3 ids1 ids2 :
  touches L1 L2 ids1 -> touches L2 L3 ids2 -> touches L1 L3 (ids1 ++ ids2).
Proof.
  intros [F1 S1 U1] [F2 S2 U2]. split.
  - rewrite F2, F1. by destruct L3.
  - intros j Hj. rewrite not_elem_of_app in Hj. rewrite S2, S1 by tauto. done.
  - intros j c Hj Hc. destruct (decide (j ∈ ids2)) as [?|Hn]; [by eapply U2|].
    rewrite S2 in Hc by done. apply elem_of_app in Hj as [?|?]; [by eapply U1|done].
Qed.

Lemma touches_set L id c : c_leaf_cache c = None -> touches L (with_cells L (<[id := c]> (cells L))) [id].
Proof.
  intros Hc. split; cbn.
  - by destruct L.
  - intros j Hj. apply lookup_insert_ne. set_solver.
  - intros j x ->%list_elem_of_singleton. rewrite lookup_insert_eq. by intros [= <-].
Qed.

Lemma fields_uncached id us c :
  c_leaf_cache (run_until (apply_field_update id) c us).1 = c_leaf_cache c.
Proof.
  revert c; induction us as [|u us IH]; intros c; [done|]. cbn [run_until]. unfold apply_field_update at 1.
  destruct (_ <=? _)%nat; [done|]. by rewrite IH.
Qed.

Lemma apply_cell_delta_uncached c d id : c_leaf_cache (apply_cell_delta c d id).1 = None.
Proof.
  unfold apply_cell_delta. pose proof (fields_uncached id (field_updates d) (invalidate_leaf_cache c)) as Hu.
  destruct (run_until _ _ _) as [c1 [e|]]; cbn [fst] in *; [exact Hu|].
  destruct (if nonce_increment d then _ else _) as [s ok]. destruct ok; [|exact Hu]. cbn [negb].
  destruct (apply_balance_change s (balance_change d)) as [s' ok']. destruct ok'; [|exact Hu]. cbn [negb].
  destruct (permission_changes d); exact Hu.
Qed.

Lemma apply_update_touches L undo u L' undo' e :
  apply_update (L, undo) u = ((L', undo'), e) -> touches L L' [u.1].
Proof.
  destruct u as [id d]. unfold apply_update. destruct (cells L !! id) as [c|] eqn:Ec.
  - pose proof (apply_cell_delta_uncached c d id) as Hu.
    destruct (apply_cell_delta c d id) as [c' e']. intros [= <- <- _]. by apply touches_set.
  - intros [= <- <- _]. split; [by destruct L|done|].
    intros j c ->%list_elem_of_singleton Hc. cbn in Hc. congruence.
Qed.

Lemma apply_transfer_touches L undo t L' undo' :
  apply_transfer (L, undo) t = ((L', undo'), None) -> touches L L' [t.1.1; t.1.2].
Proof.
  destruct t as [[from to] amount]. unfold apply_transfer.
  destruct (i64_try_from amount) as [amt|]; [|done].
  destruct (cells L !! from) as [fc|]; [|done]. destruct (_ <? _); [done|].
  set (L1 := with_cells L _). destruct (cells L1 !! to) as [tc|]; [|done].
  destruct (checked_add_i64 _ _) as [b|]; [|done]. intros [= <- _].
  apply (touches_trans L L1 _ [from] [to]); by apply touches_set.
Qed.

Lemma run_updates_touch us L undo L' undo' :
  run_until apply_update (L, undo) us = ((L', undo'), None) -> touches L L' (map fst us).
Proof.
  revert L undo; induction us as [|u us IH]; intros L undo; cbn [run_until].
  - intros [= <- _]. apply touches_refl.
  - destruct (apply_update (L, undo) u) as [[L1 u1] [e|]] eqn:E; [done|]. intros H%IH.
    apply apply_update_touches in E. exact (touches_trans _ _ _ _ _ E H).
Qed.

Lemma run_transfers_touch ts L undo L' undo' :
  run_until apply_transfer (L, undo) ts = ((L', undo'), None) ->
  touches L L' (concat (map (fun t => [t.1.1; t.1.2]) ts)).
Proof.
  revert L undo; induction ts as [|t ts IH]; intros L undo; cbn [run_until].
  - intros [= <- _]. apply touches_refl.
  - destruct (apply_transfer (L, undo) t) as [[L1 u1] [e|]] eqn:E; [done|]. intros H%IH.
    apply apply_transfer_touches in E. exact (touches_trans _ _ _ _ _ E H).
Qed.

Lemma touches_caches L L' ids : touches L L' ids -> caches_ok (cells L) -> caches_ok (cells L').
Proof.
  intros [_ Hs Hu] Hok j c Hc. destruct (decide (j ∈ ids)) as [Hj|Hj].
  - apply coherent_none. by eapply Hu.
  - rewrite Hs in Hc by done. by apply (Hok j).
Qed.

Lemma run_created_caches cs L undo L' undo' :
  Forall coherent cs -> caches_ok (cells L) ->
  run_until apply_created (L, undo) cs = ((L', undo'), None) -> caches_ok (cells L').
Proof.
  revert L undo; induction cs as [|c cs IH]; intros L undo Hcs Hok; cbn [run_until].
  - by intros [= <- _].
  - apply Forall_cons in Hcs as [Hc Hcs]. apply IH; [done|]. cbn. by apply map_Forall_insert_2.
Qed.

Lemma removed_caches ids s :
  caches_ok (cells s.1) -> caches_ok (cells (foldl apply_removed s ids).1).
Proof.
  revert s; induction ids as [|id ids IH]; intros [L undo] Hok; [done|]. cbn [foldl]. apply IH.
  unfold apply_removed. destruct (cells L !! id); [|done]. cbn. by apply map_Forall_delete.
Qed.

Lemma touch_values_app p l1 l2 : touch_values (touch_values p l1) l2 = touch_values p (l1 ++ l2).
Proof. unfold touch_values. by rewrite foldl_app. Qed.

Lemma apply_delta_ok L d :
  ledger_ok L -> index_ok L -> Forall coherent (created d) -> NoDup (c_id <$> created d) ->
  ledger_ok (apply_delta L d).1.
Proof.
  intros [Hc Ht] Hio Hcoh Hnd.
  destruct ((apply_delta L d).2) as [[]|e] eqn:Eres; [|by rewrite (apply_delta_error L d e)].
  unfold apply_delta in *. destruct (validate_delta L d) as [[]|]; [|done].
  unfold apply_delta_in_place in *.
  destruct (run_until apply_created (L, ∅) (created d)) as [[L1 u1] [e|]] eqn:E1; [done|].
  destruct (run_until apply_update (L1, u1) (updated d)) as [[L2 u2] [e|]] eqn:E2; [done|].
  destruct (run_until apply_transfer (L2, u2) (computron_transfers d)) as [[L3 u3] [e|]] eqn:E3; [done|].
  pose proof (touches_trans _ _ _ _ _ (run_updates_touch _ _ _ _ _ E2) (run_transfers_touch _ _ _ _ _ E3)) as Hto.
  pose proof (run_created_caches _ _ _ _ _ Hcoh Hc E1) as Hc1.
  pose proof (touches_caches _ _ _ Hto Hc1) as Hc3.
  destruct (created d) as [|c0 cs] eqn:Ecr, (removed d) as [|r0 rs] eqn:Erm; cbn [negb orb].
  - injection E1 as <- <-. cbn [foldl fst]. rewrite touch_values_app. destruct Hto as [Hf Hs Hu].
    split; [done|].
    assert (Hd : dom (cells L3) = dom (cells L)).
    { apply run_updates_ok in E2 as (_ & _ & D2). cbn [fst] in D2.
      pose proof (run_transfers_dom _ _ _ _ E3) as D3. cbn [fst] in D3. congruence. }
    assert (Hp : pending L3 = pending L) by (by rewrite Hf). rewrite Hp.
    pose proof (tree_ok_touch L (cells L3) _ Ht Hd Hs) as Hok. rewrite Hf. exact Hok.
  - pose proof (removed_caches (r0 :: rs) (L3, u3) Hc3) as Hc4.
    destruct (foldl apply_removed (L3, u3) (r0 :: rs)) as [L4 u4]. by apply structural_ok.
  - by apply structural_ok.
  - pose proof (removed_caches (r0 :: rs) (L3, u3) Hc3) as Hc4.
    destruct (foldl apply_removed (L3, u3) (r0 :: rs)) as [L4 u4]. by apply structural_ok.
Qed.

(** ** The public-key index is exact *)

Record index_exact (idx : gmap bytes (list CellId)) m : Prop := {
  ie_no_empty : no_empty idx;
  ie_iff : forall pk id, id ∈ iview idx pk <-> exists c, m !! id = Some c /\ c_public_key c = pk;
}.

Lemma index_exact_ok L : index_exact (pubkey_index L) (cells L) -> index_ok L.
Proof. intros [Hne Hi]. split; [done|]. intros pk id (c & -> & _)%Hi. by eexists. Qed.

Lemma index_exact_add idx m id c :
  m !! id = None -> index_exact idx m -> index_exact (index_add idx (c_public_key c) id) (<[id := c]> m).
Proof.
  intros Hid [Hne Hi]. split; [by apply no_empty_add|]. intros pk j.
  rewrite iview_add, elem_of_app, Hi. destruct (decide (j = id)) as [->|Hj].
  - rewrite lookup_insert_eq, Hid. split.
    + intros [(? & ? & _)|Hin]; [done|]. case_decide; [|by apply elem_of_nil in Hin]. by exists c.
    + intros (x & [= <-] & <-). right. rewrite decide_True by done. left.
  - rewrite lookup_insert_ne by done. split; [|by left].
    intros [?|Hin]; [done|]. case_decide; set_solver.
Qed.

Lemma index_exact_set idx m id c c' :
  m !! id = Some c -> c_public_key c' = c_public_key c -> index_exact idx m ->
  index_exact idx (<[id := c']> m).
Proof.
  intros Hid Hpk [Hne Hi]. split; [done|]. intros pk j. rewrite Hi. destruct (decide (j = id)) as [->|Hj].
  - rewrite lookup_insert_eq, Hid. split; intros (x & [= <-] & <-); [exists c'|exists c]; done.
  - by rewrite lookup_insert_ne.
Qed.

Lemma index_exact_del idx m id c :
  m !! id = Some c -> index_exact idx m ->
  index_exact (index_remove idx (c_public_key c) id) (delete id m).
Proof.
  intros Hid [Hne Hi]. split; [by apply no_empty_remove|]. intros pk j. rewrite iview_remove.
  destruct (decide (pk = c_public_key c)) as [->|Hpk]; rewrite ?elem_of_drop_id, Hi;
    destruct (decide (j = id)) as [->|Hj]; rewrite ?lookup_delete_eq, ?lookup_delete_ne by done.
  - split; [tauto|by intros (? & ? & _)].
  - tauto.
  - split; [|by intros (? & ? & _)]. intros (x & Hx & <-). rewrite Hid in Hx. by injection Hx as ->.
  - done.
Qed.

Lemma journal_index L id : pubkey_index (journal_cell L id) = pubkey_index L.
Proof. unfold journal_cell. repeat case_match; done. Qed.

Lemma add_cell_index L id c :
  cells L !! id = None -> index_exact (pubkey_index L) (cells L) ->
  index_exact (pubkey_index (add_cell L id c)) (cells (add_cell L id c)).
Proof.
  intros Hid H. unfold add_cell. cbn. destruct (journal_same L id) as (-> & _).
  rewrite journal_index. by apply index_exact_add.
Qed.

Lemma insert_cell_index L c :
  index_exact (pubkey_index L) (cells L) ->
  index_exact (pubkey_index (insert_cell L c).1) (cells (insert_cell L c).1).
Proof.
  intros H. unfold insert_cell. destruct (cells L !! c_id c) eqn:E; [done|].
  by apply (add_cell_index L (c_id c) (invalidate_leaf_cache c)).
Qed.

Lemma remove_index L id :
  index_exact (pubkey_index L) (cells L) ->
  index_exact (pubkey_index (remove L id).1) (cells (remove L id).1).
Proof.
  intros H. unfold remove. destruct (journal_same L id) as (Ec & _). pose proof (journal_index L id) as Ei.
  destruct (cells (journal_cell L id) !! id) as [c|] eqn:E; cbn; rewrite ?Ec, ?Ei; [|done].
  rewrite Ec in E. by apply index_exact_del.
Qed.

Lemma restore_index order L :
  index_exact (pubkey_index L) (cells L) ->
  index_exact (pubkey_index (foldl restore_entry L order)) (cells (foldl restore_entry L order)).
Proof.
  revert L; induction order as [|e order IH]; intros L H; [done|]. cbn [foldl]. apply IH.
  unfold restore_entry. pose proof (remove_index L e.1 H). destruct (e.2); [by apply insert_cell_index|done].
Qed.

Lemma run_created_index cs L undo L' undo' :
  (forall c, c ∈ cs -> cells L !! c_id c = None) -> NoDup (c_id <$> cs) ->
  index_exact (pubkey_index L) (cells L) ->
  run_until apply_created (L, undo) cs = ((L', undo'), None) -> index_exact (pubkey_index L') (cells L').
Proof.
  revert L undo; induction cs as [|c cs IH]; intros L undo Hf Hnd H; cbn [run_until]; [by intros [= <- _]|].
  cbn [fmap list_fmap] in Hnd. apply NoDup_cons in Hnd as [Hc Hnd]. apply IH; [|done|].
  - intros x Hx. cbn. rewrite lookup_insert_ne; [apply Hf; by right|].
    intros E. apply Hc. rewrite E. by apply list_elem_of_fmap_2.
  - cbn. apply index_exact_add; [|done]. apply Hf. left.
Qed.

Lemma run_steps_index {X}
    (f : Ledger * gmap CellId (option Cell) -> X -> (Ledger * gmap CellId (option Cell)) * option LedgerError)
    xs s :
  (forall s x, index_exact (pubkey_index s.1) (cells s.1) ->
     index_exact (pubkey_index (f s x).1.1) (cells (f s x).1.1)) ->
  index_exact (pubkey_index s.1) (cells s.1) ->
  index_exact (pubkey_index (run_until f s xs).1.1) (cells (run_until f s xs).1.1).
Proof. intros Hf. apply (run_until_inv f (fun s => index_exact (pubkey_index s.1) (cells s.1))). done. Qed.

Lemma apply_update_index s u :
  index_exact (pubkey_index s.1) (cells s.1) ->
  index_exact (pubkey_index (apply_update s u).1.1) (cells (apply_update s u).1.1).
Proof.
  destruct s as [L undo], u as [id d]. intros H. unfold apply_update.
  destruct (cells L !! id) as [c|] eqn:E; [|done]. pose proof (apply_cell_delta_pk c d id) as Hp.
  destruct (apply_cell_delta c d id) as [c' e]. cbn in *. by eapply index_exact_set.
Qed.

Lemma apply_transfer_index s t :
  index_exact (pubkey_index s.1) (cells s.1) ->
  index_exact (pubkey_index (apply_transfer s t).1.1) (cells (apply_transfer s t).1.1).
Proof.
  destruct s as [L undo], t as [[from to] amount]. intros H. unfold apply_transfer.
  destruct (i64_try_from amount) as [amt|]; [|done].
  destruct (cells L !! from) as [fc|] eqn:Ef; [|done]. destruct (_ <? _); [done|].
  set (L1 := with_cells L _).
  assert (H1 : index_exact (pubkey_index L1) (cells L1)) by (by apply (index_exact_set _ _ from fc)).
  destruct (cells L1 !! to) as [tc|] eqn:Et; [|done].
  destruct (checked_add_i64 _ _); by apply (index_exact_set _ _ to tc).
Qed.

Lemma removed_index ids s :
  index_exact (pubkey_index s.1) (cells s.1) ->
  index_exact (pubkey_index (foldl apply_removed s ids).1) (cells (foldl apply_removed s ids).1).
Proof.
  revert s; induction ids as [|id ids IH]; intros [L undo] H; [done|]. cbn [foldl]. apply IH.
  unfold apply_removed. destruct (cells L !! id) as [c|] eqn:E; [|done]. cbn. by apply index_exact_del.
Qed.

Lemma apply_delta_index L d :
  index_exact (pubkey_index L) (cells L) -> NoDup (c_id <$> created d) ->
  index_exact (pubkey_index (apply_delta L d).1) (cells (apply_delta L d).1).
Proof.
  intros H Hnd.
  destruct ((apply_delta L d).2) as [[]|e] eqn:Eres;
    [|by rewrite (apply_delta_error L d e (index_exact_ok L H) Hnd Eres)].
  unfold apply_delta in *. destruct (validate_delta L d) as [[]|] eqn:Ev; [|done].
  unfold apply_delta_in_place in *.
  destruct (run_until apply_created (L, ∅) (created d)) as [[L1 u1] [e|]] eqn:E1; [done|].
  pose proof (run_created_index _ _ _ _ _ (validate_fresh L d Ev) Hnd H E1) as H1.
  pose proof (run_steps_index apply_update (updated d) (L1, u1) apply_update_index H1) as H2.
  destruct (run_until apply_update (L1, u1) (updated d)) as [[L2 u2] [e|]]; [done|].
  pose proof (run_steps_index apply_transfer (computron_transfers d) (L2, u2) apply_transfer_index H2) as H3.
  destruct (run_until apply_transfer (L2, u2) (computron_transfers d)) as [[L3 u3] [e|]]; [done|].
  pose proof (removed_index (removed d) (L3, u3) H3) as H4.
  destruct (foldl apply_removed (L3, u3) (removed d)) as [L4 u4]. exact H4.
Qed.

(** ** Every operation keeps the invariants *)

Record ledger_inv L : Prop := {
  inv_ok : ledger_ok L;
  inv_index : index_exact (pubkey_index L) (cells L);
}.

Lemma frame_inv L L' :
  cells L' = cells L -> pending L' = pending L -> leaf_positions L' = leaf_positions L ->
  tree_levels L' = tree_levels L -> l_root L' = l_root L -> pubkey_index L' = pubkey_index L ->
  ledger_inv L -> ledger_inv L'.
Proof. intros E1 E2 E3 E4 E5 E6 [Ho Hi]. split; [by apply (frame_ok L)|by rewrite E1, E6]. Qed.

Lemma same_cells_index idx m m' : same_cells m' m -> index_exact idx m -> index_exact idx m'.
Proof.
  intros Hs [Hne Hi]. split; [done|]. intros pk id. rewrite Hi.
  apply (f_equal (fun m => m !! id)) in Hs. rewrite !lookup_fmap in Hs.
  destruct (m' !! id) as [c'|], (m !! id) as [c|]; simpl in Hs; try done.
  apply (inj Some) in Hs. apply (f_equal c_public_key) in Hs. cbn in Hs.
  split; intros (x & [= <-] & <-); [exists c'|exists c]; done.
Qed.

Lemma get_mut_inv L id f :
  op_honest L (OGetMut id f) -> ledger_inv L -> ledger_inv (get_mut L id f).
Proof.
  intros Hf [Ho Hi]. unfold get_mut. pose proof (journal_ok L id Ho) as Hj.
  destruct (journal_same L id) as (Ec & _). pose proof (journal_index L id) as Ei.
  destruct (cells (journal_cell L id) !! id) as [c|] eqn:E; [|split; [done|by rewrite Ec, Ei]].
  destruct (Hf (invalidate_leaf_cache c) eq_refl) as (Hu & Hp & _). split.
  - apply (set_value_ok _ _ c); [done|done|by apply coherent_none].
  - cbn. rewrite Ei, Ec. rewrite Ec in E. by apply (index_exact_set _ _ id c).
Qed.

Lemma update_with_inv L id f :
  op_honest L (OUpdateWith id f) -> ledger_inv L ->
  ledger_inv (update_with L id (fun c => (f c, tt))).1.
Proof.
  intros Hf [Ho Hi]. unfold update_with. pose proof (journal_ok L id Ho) as Hj.
  destruct (journal_same L id) as (Ec & _). pose proof (journal_index L id) as Ei.
  destruct (cells (journal_cell L id) !! id) as [c|] eqn:E; [|split; [done|cbn [fst]; by rewrite Ec, Ei]].
  destruct (negb _); cbn [fst].
  - rewrite insert_id by done. split; [by destruct (journal_cell L id)|]. cbn. by rewrite Ec, Ei.
  - destruct (Hf (invalidate_leaf_cache c) eq_refl) as (Hu & Hp & _). split.
    + apply (set_value_ok _ _ c); [done|done|by apply coherent_none].
    + cbn. rewrite Ei, Ec. rewrite Ec in E. by apply (index_exact_set _ _ id c).
Qed.

Lemma migrate_accept_inv L v c here at_ L' :
  ledger_inv L -> fst <$> migrate_accept L v c here at_ = Some L' -> ledger_inv L'.
Proof.
  intros H. unfold migrate_accept.
  destruct (negb _); [by intros [= <-]|]. destruct (negb _); [by intros [= <-]|].
  destruct (negb _); [by intros [= <-]|]. destruct (state_commitment c) as [h|]; [|done]. cbn [mbind option_bind].
  destruct (negb _); [by intros [= <-]|].
  destruct (bool_decide (is_Some (cells L !! c_id c))) eqn:Eb; cbn [orb]; [by intros [= <-]|].
  destruct (_ || _); [by intros [= <-]|]. destruct (mv_target_mode v); intros [= <-].
  - destruct H as [[Hc _] Hi]. split.
    + apply structural_ok; [|done]. apply map_Forall_insert_2; [by apply coherent_none|done].
    + apply (index_exact_add _ _ _ (with_lifecycle (with_mode (invalidate_leaf_cache c) Hosted) Live)); [|done].
      apply eq_None_not_Some. by apply bool_decide_eq_false in Eb.
  - by apply (frame_inv L).
Qed.

Lemma migrate_commit_inv L id r : ledger_inv L -> ledger_inv (migrate_commit L id r).1.
Proof.
  intros [Ho Hi]. unfold migrate_commit. destruct (migration_locks L !! id) as [lock|]; [|done].
  destruct (cells L !! id) as [c|] eqn:E; [|done].
  destruct (cell_migrate_commit _ _ _) as [c'|e] eqn:Em; cbn [fst].
  - assert (Hc' : c_leaf_cache c' = None /\ c_public_key c' = c_public_key c).
    { unfold cell_migrate_commit in Em. repeat case_match; try done. by injection Em as <-. }
    destruct Hc' as [Hu Hp].
    pose proof (set_value_ok L id c c' Ho E (coherent_none c' Hu)) as Hs. split.
    + by apply (frame_ok (with_pending (with_cells L (<[id := c']> (cells L))) (touch_value (pending L) id))).
    + by apply (index_exact_set _ _ id c).
  - assert (Hs : same_cells (<[id := invalidate_leaf_cache c]> (cells L)) (cells L)) by (by apply same_cells_cache).
    split; [split|].
    + apply map_Forall_insert_2; [by apply coherent_none|apply Ho].
    + apply tree_ok_same; [apply Ho|done].
    + by apply (same_cells_index _ (cells L)).
Qed.

Lemma materialize_inv L ds :
  ledger_inv L -> leaves_of (cells L) = Some ds ->
  exists L', materialize L = Some L' /\ ledger_inv L' /\ pending L' = Clean /\
    same_cells (cells L') (cells L) /\ l_root L' = spec_root ds.
Proof.
  intros [Ho Hi] Hds. destruct (materialize_ok L ds Ho Hds) as (L1 & E & Ho1 & Hp & Hs & Hr).
  exists L1. split_and!; try done. split; [done|].
  apply materialize_frame in E as (m & pos & lv & r & p & -> & _). by apply (same_cells_index _ (cells L)).
Qed.

(** The whole answer of [membership_proof] for a hosted cell. *)
Lemma membership_proof_ok L id c ds :
  ledger_inv L -> leaves_of (cells L) = Some ds -> cells L !! id = Some c ->
  exists h path L', membership_proof L id = Some (Some (mkProof id h path (spec_root ds)), L') /\
    compute_canonical_state_commitment c = Some h /\ verify_path h path (spec_root ds) = true /\
    ledger_inv L' /\ same_cells (cells L') (cells L).
Proof.
  intros H Hds Hc. unfold membership_proof. rewrite Hc.
  destruct (materialize_inv L ds H Hds) as (L1 & -> & [[Hok1 Ht1] Hi1] & Hp1 & Hs1 & Hr1).
  cbn [mbind option_bind].
  assert (Hds1 : leaves_of (cells L1) = Some ds) by (by rewrite Hs1).
  assert (Hd : id ∈ sorted_ids (cells L1)).
  { apply elem_of_sorted_ids, elem_of_dom. rewrite (same_cells_dom _ _ Hs1). by apply elem_of_dom_2 in Hc. }
  apply list_elem_of_lookup in Hd as [pos Hpos].
  destruct (leaves_of_lookup _ _ _ _ Hds1 Hpos) as (h & Hh & Hdp).
  pose proof (same_cells_leaf _ _ id Hs1) as Hl. unfold leaf in Hh, Hl. rewrite Hh, Hc in Hl.
  destruct (cells L1 !! id) as [c1|] eqn:Ec1; [|done]. cbn [mbind option_bind] in *.
  destruct (cached_leaf_digest_ok c1 h (Hok1 id c1 Ec1) Hh) as (x & -> & Hcx). cbn.
  pose proof (same_cells_cache _ _ _ x Ec1) as Hs2.
  pose proof Ht1 as Ht. unfold tree_ok in Ht. rewrite Hp1 in Ht.
  destruct Ht as [(He & _)|Ht]; [by rewrite He, lookup_empty in Ec1|].
  destruct (tree_current_exact _ _ _ _ _ Ht Hds1) as (Hlev & _ & Hne & Hps). rewrite Hps.
  rewrite (proj2 (positions_lookup _ _ _ (NoDup_sorted_ids _)) Hpos), Hr1.
  eexists _, _, _. split; [reflexivity|]. split_and!; [done| |split; [split|]|].
  - rewrite Hlev. unfold spec_root. destruct ds as [|d0 ds']; [done|].
    apply tree_path_verifies; [by apply padded_length|]. unfold padded, resize_to.
    by apply lookup_app_l_Some.
  - by apply map_Forall_insert_2.
  - by apply (tree_ok_same L1).
  - by apply (same_cells_index _ (cells L1)).
  - cbn. by rewrite Hs2.
Qed.

Lemma make_sovereign_inv L id L' :
  ledger_inv L -> fst <$> make_sovereign L id = Some L' -> ledger_inv L'.
Proof.
  intros [Ho Hi]. unfold make_sovereign. pose proof (remove_ok L id Ho) as Hr.
  pose proof (remove_index L id Hi) as Hx. destruct (remove L id) as [L1 [c|]]; cbn in *.
  - destruct (state_commitment c) as [h|]; [|done]. intros [= <-]. by apply (frame_inv L1).
  - by intros [= <-].
Qed.

Lemma run_op_inv L o L' :
  op_honest L o -> ledger_inv L -> run_op L o = Some L' -> ledger_inv L'.
Proof.
  intros Hh H. destruct o as [id f|id f|pk tok|c|id|d|id|c|id h|id h height ttl vk|id h|id old new_ height|id n|id|h|id from to mode at_|v c here at_|id r| | |order| |id];
    cbn [run_op].
  - intros [= <-]. by apply get_mut_inv.
  - intros [= <-]. by apply update_with_inv.
  - destruct (create_cell L pk tok) as [[L1 i]|] eqn:E; [|done]. intros [= <-]. unfold create_cell in E.
    destruct (new_hosted pk tok) as [c|] eqn:En; [|done]. injection E as <- <-.
    assert (Hn : c_leaf_cache c = None /\ c_id c = derive_raw pk tok).
    { unfold new_hosted in En. destruct (state_new 0); [|done]. by injection En as <-. }
    destruct Hn as [Hn Hid], H as [Ho Hi]. split.
    + apply add_cell_ok; [done|by apply coherent_none].
    + apply add_cell_index; [by rewrite Hid|done].
  - intros [= <-]. split; [by apply insert_cell_ok, H|by apply insert_cell_index, H].
  - intros [= <-]. split; [by apply remove_ok, H|by apply remove_index, H].
  - intros [= <-]. destruct Hh, H as [Ho Hi]. split.
    + apply apply_delta_ok; try done. by apply index_exact_ok.
    + by apply apply_delta_index.
  - by apply make_sovereign_inv.
  - intros [= <-]. unfold undo_make_sovereign. set (L1 := with_sovereign L _).
    assert (H1 : ledger_inv L1) by (by apply (frame_inv L)).
    split; [by apply insert_cell_ok, H1|by apply insert_cell_index, H1].
  - intros [= <-]. unfold register_sovereign_cell. case_match; [done|by apply (frame_inv L)].
  - intros [= <-]. unfold register_sovereign_cell_with_vk. case_match; [done|by apply (frame_inv L)].
  - intros [= <-]. unfold update_sovereign_commitment. case_match; by apply (frame_inv L).
  - intros [= <-]. unfold update_sovereign_registration_commitment. repeat case_match; by apply (frame_inv L).
  - intros [= <-]. by apply (frame_inv L).
  - intros [= <-]. unfold deregister_sovereign_cell. repeat case_match; by apply (frame_inv L).
  - intros [= <-]. by apply (frame_inv L).
  - unfold migrate_prepare. destruct (migration_locks L !! id); [by intros [= <-]|].
    destruct (cells L !! id) as [c|]; [|by intros [= <-]].
    destruct (migration_voucher c from to mode at_) as [[v|e]|]; [| |done]; intros [= <-]; [|done].
    by apply (frame_inv L).
  - by apply migrate_accept_inv.
  - intros [= <-]. by apply migrate_commit_inv.
  - intros [= <-]. by apply (frame_inv L).
  - intros [= <-]. by apply (frame_inv L).
  - intros [= <-]. destruct H as [Ho Hi]. split; [by apply rollback_ok|].
    unfold rollback_restore_point. destruct (restore_point L); [|done]. by apply restore_index.
  - destruct Hh as [ds Hds]. destruct (materialize_inv L ds H Hds) as (L1 & E & H1 & _).
    unfold root. rewrite E. by intros [= <-].
  - destruct Hh as [ds Hds]. destruct (cells L !! id) as [c|] eqn:E.
    + destruct (membership_proof_ok L id c ds H Hds E) as (h & p & L1 & -> & _ & _ & H1 & _). by intros [= <-].
    + unfold membership_proof. rewrite E. by intros [= <-].
Qed.

(** ** Histories *)

Definition ledger_step L L' : Prop := exists o, op_honest L o /\ run_op L o = Some L'.

Definition reachable L : Prop := rtc ledger_step ledger_new L.

Lemma ledger_new_inv : ledger_inv ledger_new.
Proof.
  split; [split|split].
  - apply map_Forall_empty.
  - by left.
  - done.
  - intros pk id. split; [by intros ?%elem_of_nil|]. intros (c & Hc & _). cbn in Hc. by rewrite lookup_empty in Hc.
Qed.

Lemma reachable_inv L : reachable L -> ledger_inv L.
Proof.
  apply (rtc_ind_r ledger_inv ledger_new).
  - apply ledger_new_inv.
  - intros L1 L2 _ (o & Hh & Ho) H1. by eapply run_op_inv.
Qed.

(** ** Properties *)

(** C26: after any history, whatever mixture of value changes, structural
    changes, deltas, migrations and rollbacks, and however the root was asked
    for in between, [root] answers the Merkle root computed afresh from the
    canonical commitments of the cells the ledger holds, in the order of their
    ids; it changes no cell (but its digest cache), and asking again costs
    nothing and answers the same.  The operations are those of [op_honest]:
    closures keep the id and key of the cell they are given and cache no digest
    in it, cells are created under free ids, and deltas create distinct cells
    whose cached digest, if any, is their own. *)
Theorem root_is_fresh L ds :
  reachable L -> leaves_of (cells L) = Some ds ->
  exists L', root L = Some (spec_root ds, L') /\ same_cells (cells L') (cells L) /\
    root L' = Some (spec_root ds, L') /\ root_cached L' = spec_root ds.
Proof.
  intros H%reachable_inv Hds. destruct (materialize_inv L ds H Hds) as (L1 & E & H1 & Hp & Hs & Hr).
  exists L1. unfold root, root_cached. rewrite E. cbn. rewrite Hr. split_and!; [done|done| |done].
  unfold materialize. rewrite Hp. cbn. rewrite Hr. f_equal. f_equal. destruct L1. cbn in *. by subst.
Qed.

(** After any history, a membership proof is produced for exactly the
    hosted cells; its leaf is the cell's canonical commitment, its root is the
    fresh root, and it verifies. *)
Theorem membership_proof_correct L id ds :
  reachable L -> leaves_of (cells L) = Some ds ->
  match cells L !! id with
  | None => membership_proof L id = Some (None, L)
  | Some c =>
      exists p L', membership_proof L id = Some (Some p, L') /\ mp_cell_id p = id /\
        compute_canonical_state_commitment c = Some (mp_leaf_hash p) /\ mp_root p = spec_root ds /\
        verify p = true
  end.
Proof.
  intros H%reachable_inv Hds. destruct (cells L !! id) as [c|] eqn:E.
  - destruct (membership_proof_ok L id c ds H Hds E) as (h & path & L1 & Hm & Hh & Hv & _).
    eexists _, _. split; [exact Hm|]. done.
  - unfold membership_proof. by rewrite E.
Qed.

(** After any history, looking a cell up by public key finds a hosted
    cell with that key, and finds none only when there is none. *)
Theorem cell_by_pubkey_correct L pk :
  reachable L ->
  match cell_by_pubkey L pk with
  | Some c => exists id, cells L !! id = Some c /\ c_public_key c = pk
  | None => forall id c, cells L !! id = Some c -> c_public_key c <> pk
  end.
Proof.
  intros [_ [Hne Hi]]%reachable_inv. unfold cell_by_pubkey.
  destruct (pubkey_index L !! pk) as [[|id ids]|] eqn:E; cbn [mbind option_bind head].
  - by destruct (Hne pk).
  - assert (Hin : id ∈ iview (pubkey_index L) pk) by (unfold iview; rewrite E; left).
    apply Hi in Hin as (c & Hc & Hpk). rewrite Hc. by exists id.
  - intros id c Hc Hpk. assert (Hin : id ∈ iview (pubkey_index L) pk) by (apply Hi; by exists c).
    unfold iview in Hin. rewrite E in Hin. by apply elem_of_nil in Hin.
Qed.

(** One cell's tree. *)
Lemma sorted_ids_singleton id c : sorted_ids {[id := c]} = [id].
Proof. unfold sorted_ids. rewrite map_to_list_singleton. done. Qed.

Lemma rebuild_singleton L c d :
  cells L = {[c_id c := c]} -> c_leaf_cache c = Some d -> exists L', rebuild_tree L = Some L' /\ l_root L' = d.
Proof.
  intros Hc Hd. unfold rebuild_tree. rewrite Hc, sorted_ids_singleton. cbn [hash_all].
  rewrite lookup_singleton_eq. cbn [mbind option_bind]. unfold cached_leaf_digest. rewrite Hd.
  cbn. eexists. split; reflexivity.
Qed.

(** A delta's created cells keep the leaf digest they arrive with.  A cell
    cloned out of a ledger and then changed carries a stale digest; inserted
    with [insert_cell] it is committed to afresh, but created through
    [apply_delta] it makes the ledger's root its stale digest, whatever it
    says. *)
Theorem created_cell_keeps_stale_digest c d h :
  c_leaf_cache c = Some d -> compute_canonical_state_commitment c = Some h ->
  fst <$> root (insert_cell ledger_new c).1 = Some h /\
  fst <$> root (apply_delta ledger_new (mkLedgerDelta [c] [] [] [])).1 = Some d.
Proof.
  intros Hd Hh. split.
  - set (L := (insert_cell ledger_new c).1).
    assert (HL : cells L = {[c_id c := invalidate_leaf_cache c]}) by reflexivity.
    assert (Hds : leaves_of (cells L) = Some [h]).
    { rewrite HL. unfold leaves_of. rewrite sorted_ids_singleton. cbn [mapM]. unfold leaf.
      rewrite lookup_singleton_eq. cbn [mbind option_bind]. unfold invalidate_leaf_cache.
      by rewrite commitment_uncached, Hh. }
    destruct (materialize_ok L [h]) as (L1 & E & _ & _ & _ & Hr); [|done|].
    { apply insert_cell_ok, inv_ok, ledger_new_inv. }
    unfold root. rewrite E. cbn. by rewrite Hr.
  - set (L := (apply_delta _ _).1).
    destruct (rebuild_singleton (with_pending L Clean) c d) as (L1 & E & Hr); [reflexivity|done|].
    unfold root. change (materialize L) with (rebuild_tree (with_pending L Clean)). rewrite E. cbn. by rewrite Hr.
Qed.

End Root.

(** ** Witnesses *)

#[local] Existing Instance model_blake3.
#[local] Existing Instance model_codec.

(** A cell is inserted, a delta pays it, its nonce is bumped in place, and the
    root is asked for in between. *)
Definition w_history_cell : Cell := w_account w_alice 100 0.

Definition w_pay : LedgerDelta :=
  mkLedgerDelta [] [(w_alice, mkDelta [] true 5 None [] [])] [(w_alice, w_alice, 30)] [].

Definition w_hosted : Ledger := (apply_delta (insert_cell ledger_new w_history_cell).1 w_pay).1.

Lemma w_hosted_reachable : reachable w_hosted.
Proof.
  apply rtc_l with (insert_cell ledger_new w_history_cell).1; [by exists (OInsert w_history_cell)|].
  apply rtc_once. exists (ODelta w_pay). split; [|reflexivity]. split; [constructor|apply NoDup_nil_2].
Qed.

Lemma w_hosted_leaves : exists d, leaves_of (cells w_hosted) = Some [d].
Proof.
  assert (Hl : exists c, cells w_hosted = {[w_alice := c]} /\ c_capabilities c = cset_new)
    by (eexists; vm_compute; split_and!; reflexivity).
  destruct Hl as (c & -> & Hc). destruct (account_commits c Hc) as [d Hd].
  exists d. unfold leaves_of. rewrite sorted_ids_singleton. cbn [mapM]. unfold leaf.
  rewrite lookup_singleton_eq. cbn [mbind option_bind]. by rewrite Hd.
Qed.

Lemma root_is_fresh_witness :
  exists d L', leaves_of (cells w_hosted) = Some [d] /\ root w_hosted = Some (d, L').
Proof.
  destruct w_hosted_leaves as [d Hd].
  destruct (root_is_fresh w_hosted [d] w_hosted_reachable Hd) as (L' & H & _).
  exists d, L'. split; [exact Hd|exact H].
Defined.

Lemma membership_proof_correct_witness :
  exists p L', membership_proof w_hosted w_alice = Some (Some p, L') /\ verify p = true /\
    membership_proof w_hosted w_bob = Some (None, w_hosted).
Proof.
  destruct w_hosted_leaves as [d Hd].
  pose proof (membership_proof_correct w_hosted w_alice [d] w_hosted_reachable Hd) as H1.
  pose proof (membership_proof_correct w_hosted w_bob [d] w_hosted_reachable Hd) as H2.
  assert (E1 : is_Some (cells w_hosted !! w_alice)) by (vm_compute; eexists; reflexivity).
  assert (E2 : cells w_hosted !! w_bob = None) by (vm_compute; reflexivity).
  destruct E1 as [c Ec]. rewrite Ec in H1. rewrite E2 in H2. destruct H1 as (p & L' & Hp & _ & _ & _ & Hv).
  exists p, L'. split; [exact Hp|]. split; [exact Hv|exact H2].
Defined.

Lemma cell_by_pubkey_correct_witness :
  exists c, cell_by_pubkey w_hosted (fill32 1) = Some c /\ c_public_key c = fill32 1.
Proof.
  pose proof (cell_by_pubkey_correct w_hosted (fill32 1) w_hosted_reachable) as H.
  assert (E : is_Some (cell_by_pubkey w_hosted (fill32 1))) by (vm_compute; eexists; reflexivity).
  destruct E as [c Ec]. rewrite Ec in H. destruct H as (id & _ & Hp). exists c. split; [exact Ec|exact Hp].
Defined.

Lemma created_cell_keeps_stale_digest_witness :
  fst <$> root (apply_delta ledger_new
    (mkLedgerDelta [with_leaf_cache w_history_cell (Some (fill32 77))] [] [] [])).1 = Some (fill32 77).
Proof.
  destruct (account_commits (with_leaf_cache w_history_cell (Some (fill32 77))) eq_refl) as [h Hh].
  destruct (created_cell_keeps_stale_digest (with_leaf_cache w_history_cell (Some (fill32 77)))
    (fill32 77) h eq_refl Hh) as [_ H]. exact H.
Defined.
