(* ===== verification/LedgerRestore.v ===== *)
(** * The per-turn restore point

    [begin_restore_point], a turn of journalled operations, and
    [rollback_restore_point] of [cell/src/ledger.rs]: what a rollback gives
    back, and which mutations the journal does not see. *)

From stdpp Require Import base decidable option list gmap relations strings.
From Stdlib Require Import ZArith Lia.
From S2P Require Import Prelude State Permissions Capability Lifecycle Cell Migration Merkle.
From S2P Require Import Ledger LedgerTree LedgerDelta LedgerRoot.

Open Scope Z_scope.

#[local] Opaque compute_canonical_state_commitment.

Section Restore.
Context `{HB : Blake3} `{HC : ProgramCodec}.

Implicit Types (m : gmap CellId Cell) (L : Ledger) (o : option Cell).

(** A cell is stored under its own id. *)
Definition keyed m : Prop := map_Forall (fun id c => c_id c = id) m.

(** The operations a turn makes that record the cells they touch. *)
Definition journaled (op : ledger_op) : bool :=
  match op with
  | ODelta _ | OAccept _ _ _ _ | OCommit _ _ | OBegin | OCommitTurn | ORollback _ => false
  | _ => true
  end.

Definition turn_step L L' : Prop :=
  exists op, journaled op = true /\ op_honest L op /\ run_op L op = Some L'.

(** A cell up to its leaf cache. *)
Definition image o : option Cell := invalidate_leaf_cache <$> o.

Lemma image_same m1 m2 : same_cells m1 m2 <-> forall id, image (m1 !! id) = image (m2 !! id).
Proof.
  unfold same_cells, image. split.
  - intros H id. apply (f_equal (fun m => m !! id)) in H. by rewrite !lookup_fmap in H.
  - intros H. apply map_eq. intros id. rewrite !lookup_fmap. apply H.
Qed.

(** ** The journal during a turn *)

Record journal_inv L0 L rp : Prop := {
  ji_armed : restore_point L = Some rp;
  ji_keyed : keyed (cells L);
  ji_sides : rp_sovereign_commitments rp = sovereign_commitments L0 /\
    rp_sovereign_registrations rp = sovereign_registrations L0 /\
    rp_witness_sequence rp = witness_sequence L0 /\ rp_migration_locks rp = migration_locks L0;
  ji_prior : forall id prior, rp_cells rp !! id = Some prior ->
    image prior = image (cells L0 !! id) /\ forall c, prior = Some c -> c_id c = id;
  ji_untouched : forall id, rp_cells rp !! id = None -> image (cells L !! id) = image (cells L0 !! id);
}.

Definition in_turn L0 L : Prop := exists rp, journal_inv L0 L rp.

(** The id has its prior image in the journal. *)
Definition recorded L id : Prop := exists rp, restore_point L = Some rp /\ is_Some (rp_cells rp !! id).

Lemma begin_in_turn L0 : keyed (cells L0) -> in_turn L0 (begin_restore_point L0).
Proof.
  intros Hk. eexists. split; [done|done|done| |]; cbn.
  - intros id prior H. by rewrite lookup_empty in H.
  - done.
Qed.

Lemma journal_records L0 L id :
  in_turn L0 L -> in_turn L0 (journal_cell L id) /\ recorded (journal_cell L id) id.
Proof.
  intros [rp [Ha Hk Hs Hp Hu]]. unfold journal_cell. rewrite Ha.
  destruct (rp_cells rp !! id) as [prior|] eqn:E; [split; [by exists rp|by exists rp]|]. split.
  - eexists. split; [reflexivity|done|done| |]; cbn.
    + intros j prior. destruct (decide (j = id)) as [->|Hj].
      * rewrite lookup_insert_eq. intros [= <-]. split; [by apply Hu|]. intros c Hc. by apply Hk.
      * rewrite lookup_insert_ne by done. apply Hp.
    + intros j. destruct (decide (j = id)) as [->|Hj]; [by rewrite lookup_insert_eq|].
      rewrite lookup_insert_ne by done. apply Hu.
  - eexists. split; [reflexivity|]. cbn. rewrite lookup_insert_eq. by eexists.
Qed.

(** A change at a recorded id, or of caches, keeps the journal right. *)
Lemma in_turn_change L0 L L' id :
  in_turn L0 L -> recorded L id -> restore_point L' = restore_point L -> keyed (cells L') ->
  (forall j, j <> id -> cells L' !! j = cells L !! j) -> in_turn L0 L'.
Proof.
  intros [rp [Ha Hk Hs Hp Hu]] (rp' & Ha' & Hr) Hre Hk' Hj. rewrite Ha in Ha'. injection Ha' as <-.
  exists rp. split; [by rewrite Hre|done|done|done|]. intros j Hn. rewrite Hj; [by apply Hu|].
  intros ->. rewrite Hn in Hr. by destruct Hr.
Qed.

Lemma in_turn_same L0 L L' :
  in_turn L0 L -> restore_point L' = restore_point L -> same_cells (cells L') (cells L) -> in_turn L0 L'.
Proof.
  intros [rp [Ha Hk Hs Hp Hu]] Hre Hsame. rewrite image_same in Hsame. exists rp.
  split; [by rewrite Hre| |done|done|].
  - intros id c Hc. specialize (Hsame id). rewrite Hc in Hsame. unfold image in Hsame. cbn in Hsame.
    destruct (cells L !! id) as [c'|] eqn:E; [|done]. apply (inj Some) in Hsame.
    apply (f_equal c_id) in Hsame. cbn in Hsame. rewrite Hsame. by apply Hk.
  - intros id Hn. rewrite Hsame. by apply Hu.
Qed.

Lemma in_turn_frame L0 L L' :
  restore_point L' = restore_point L -> cells L' = cells L -> in_turn L0 L -> in_turn L0 L'.
Proof. intros H1 H2 H. apply (in_turn_same L0 L); [done|done|by rewrite H2]. Qed.

Lemma in_turn_keyed L0 L : in_turn L0 L -> keyed (cells L).
Proof. by intros [rp []]. Qed.

(** ** Each operation of a turn *)

Lemma add_cell_turn L0 L c : in_turn L0 L -> in_turn L0 (add_cell L (c_id c) c).
Proof.
  intros H. destruct (journal_records L0 L (c_id c) H) as [H1 Hr].
  eapply (in_turn_change L0 _ _ (c_id c) H1 Hr); [done| |]; cbn.
  - apply map_Forall_insert_2; [done|]. by apply (in_turn_keyed L0).
  - intros j Hj. by rewrite lookup_insert_ne.
Qed.

Lemma insert_cell_turn L0 L c : in_turn L0 L -> in_turn L0 (insert_cell L c).1.
Proof.
  intros H. unfold insert_cell. destruct (cells L !! c_id c); [done|].
  by apply (add_cell_turn L0 L (invalidate_leaf_cache c)).
Qed.

Lemma remove_turn L0 L id : in_turn L0 L -> in_turn L0 (remove L id).1.
Proof.
  intros H. destruct (journal_records L0 L id H) as [H1 Hr]. unfold remove.
  destruct (cells (journal_cell L id) !! id); [|done].
  eapply (in_turn_change L0 _ _ id H1 Hr); [done| |]; cbn.
  - apply map_Forall_delete. by apply (in_turn_keyed L0).
  - intros j Hj. by rewrite lookup_delete_ne.
Qed.

(** The tail shared by [get_mut] and [update_with]. *)
Lemma set_value_turn L0 L id c c' L' :
  in_turn L0 L -> recorded L id -> cells L !! id = Some c -> c_id c' = c_id c ->
  restore_point L' = restore_point L -> cells L' = <[id := c']> (cells L) -> in_turn L0 L'.
Proof.
  intros H Hr Hc Hid Hre Hcells. pose proof (in_turn_keyed L0 L H) as Hk.
  eapply (in_turn_change L0 _ _ id H Hr); [done| |]; rewrite Hcells.
  - apply map_Forall_insert_2; [|done]. rewrite Hid. by apply Hk.
  - intros j Hj. by rewrite lookup_insert_ne.
Qed.

Lemma get_mut_turn L0 L id f :
  op_honest L (OGetMut id f) -> in_turn L0 L -> in_turn L0 (get_mut L id f).
Proof.
  intros Hf H. destruct (journal_records L0 L id H) as [H1 Hr]. unfold get_mut.
  destruct (cells (journal_cell L id) !! id) as [c|] eqn:E; [|done].
  eapply (set_value_turn L0 _ id c _ _ H1 Hr E); [|reflexivity|reflexivity].
  by destruct (Hf (invalidate_leaf_cache c) eq_refl) as (_ & _ & ->).
Qed.

Lemma update_with_turn L0 L id f :
  op_honest L (OUpdateWith id f) -> in_turn L0 L ->
  in_turn L0 (update_with L id (fun c => (f c, tt))).1.
Proof.
  intros Hf H. destruct (journal_records L0 L id H) as [H1 Hr]. unfold update_with.
  destruct (cells (journal_cell L id) !! id) as [c|] eqn:E; [|done].
  destruct (negb _); (eapply (set_value_turn L0 _ id c _ _ H1 Hr E); [|reflexivity|reflexivity]); [done|].
  by destruct (Hf (invalidate_leaf_cache c) eq_refl) as (_ & _ & ->).
Qed.

Lemma tree_frame_turn L0 L L' : tree_frame L L' -> in_turn L0 L -> in_turn L0 L'.
Proof. intros (m & pos & lv & r & p & -> & Hs) H. by apply (in_turn_same L0 L). Qed.

Lemma turn_step_keeps L0 L L' : turn_step L L' -> in_turn L0 L -> in_turn L0 L'.
Proof.
  intros (op & Hj & Hh & Ho) H.
  destruct op as [id f|id f|pk tok|c|id|d|id|c|id h|id h height ttl vk|id h|id old new_ height|id n|id|h
    |id from to mode at_|v c here at_|id r| | |order| |id]; cbn [run_op] in Ho; try discriminate Hj.
  - injection Ho as <-. by apply get_mut_turn.
  - injection Ho as <-. by apply update_with_turn.
  - unfold create_cell in Ho. destruct (new_hosted pk tok) as [c|]; [|done]. injection Ho as <-.
    by apply add_cell_turn.
  - injection Ho as <-. by apply insert_cell_turn.
  - injection Ho as <-. by apply remove_turn.
  - unfold make_sovereign in Ho. pose proof (remove_turn L0 L id H) as Hr.
    destruct (remove L id) as [L1 [c|]]; [|by injection Ho as <-].
    destruct (state_commitment c) as [h|]; [|done]. injection Ho as <-. by apply (in_turn_frame L0 L1).
  - injection Ho as <-. unfold undo_make_sovereign. apply insert_cell_turn. by apply (in_turn_frame L0 L).
  - injection Ho as <-. unfold register_sovereign_cell. case_match; [done|by apply (in_turn_frame L0 L)].
  - injection Ho as <-. unfold register_sovereign_cell_with_vk. case_match; [done|by apply (in_turn_frame L0 L)].
  - injection Ho as <-. unfold update_sovereign_commitment. case_match; by apply (in_turn_frame L0 L).
  - injection Ho as <-. unfold update_sovereign_registration_commitment.
    repeat case_match; by apply (in_turn_frame L0 L).
  - injection Ho as <-. by apply (in_turn_frame L0 L).
  - injection Ho as <-. unfold deregister_sovereign_cell. repeat case_match; by apply (in_turn_frame L0 L).
  - injection Ho as <-. by apply (in_turn_frame L0 L).
  - unfold migrate_prepare in Ho. destruct (migration_locks L !! id); [by injection Ho as <-|].
    destruct (cells L !! id) as [c|]; [|by injection Ho as <-].
    destruct (migration_voucher c from to mode at_) as [[v|e]|]; [| |done]; injection Ho as <-; [|done].
    by apply (in_turn_frame L0 L).
  - unfold root in Ho. destruct (materialize L) as [L1|] eqn:E; [|done]. injection Ho as <-.
    apply materialize_frame in E. by apply (tree_frame_turn L0 L).
  - destruct (membership_proof L id) as [[r L1]|] eqn:E; [|done]. injection Ho as <-.
    apply membership_proof_frame in E. by apply (tree_frame_turn L0 L).
Qed.

Lemma turn_keeps L0 L1 L : rtc turn_step L1 L -> in_turn L0 L1 -> in_turn L0 L.
Proof. induction 1; [done|]. intros. by eauto using turn_step_keeps. Qed.

(** ** The rollback *)

Lemma restore_entry_cells L id prior :
  restore_point L = None -> (forall c, prior = Some c -> c_id c = id) ->
  restore_point (restore_entry L (id, prior)) = None /\
  (forall j, cells (restore_entry L (id, prior)) !! j = if decide (j = id) then image prior else cells L !! j) /\
  sovereign_commitments (restore_entry L (id, prior)) = sovereign_commitments L /\
  sovereign_registrations (restore_entry L (id, prior)) = sovereign_registrations L /\
  witness_sequence (restore_entry L (id, prior)) = witness_sequence L /\
  migration_locks (restore_entry L (id, prior)) = migration_locks L.
Proof.
  intros Hr Hid. unfold restore_entry, remove, insert_cell, add_cell, journal_cell. cbn [fst snd]. rewrite Hr.
  assert (Hdel : forall j, (delete id (cells L)) !! j = if decide (j = id) then None else cells L !! j).
  { intros j. case_decide; subst; [by rewrite lookup_delete_eq|by rewrite lookup_delete_ne]. }
  destruct (cells L !! id) as [c0|] eqn:E, prior as [c|]; cbn; rewrite ?Hr; cbn;
    try (specialize (Hid c eq_refl); subst id); rewrite ?E, ?lookup_delete_eq; cbn; rewrite ?Hr;
    (split_and!; [done| |done..]); intros j; cbn; rewrite ?Hdel.
  - case_decide; subst; [by rewrite lookup_insert_eq|]. rewrite lookup_insert_ne by done. by rewrite Hdel, decide_False.
  - done.
  - case_decide; subst; [by rewrite lookup_insert_eq|]. by rewrite lookup_insert_ne.
  - by case_decide; subst.
Qed.

Lemma restore_all order L :
  restore_point L = None -> NoDup order.*1 ->
  (forall id c, (id, Some c) ∈ order -> c_id c = id) ->
  let L' := foldl restore_entry L order in
  restore_point L' = None /\
  (forall j, cells L' !! j =
     match (list_to_map order : gmap CellId (option Cell)) !! j with
     | Some prior => image prior
     | None => cells L !! j
     end) /\
  sovereign_commitments L' = sovereign_commitments L /\
  sovereign_registrations L' = sovereign_registrations L /\
  witness_sequence L' = witness_sequence L /\ migration_locks L' = migration_locks L.
Proof.
  revert L; induction order as [|[id prior] order IH]; intros L Hr Hnd Hid; [done|].
  cbn [fmap list_fmap fst] in Hnd. apply NoDup_cons in Hnd as [Hn Hnd].
  destruct (restore_entry_cells L id prior Hr) as (Hr1 & Hc1 & S1 & S2 & S3 & S4).
  { intros c ->. apply Hid. left. }
  destruct (IH (restore_entry L (id, prior)) Hr1 Hnd) as (Hr2 & Hc2 & T1 & T2 & T3 & T4).
  { intros i c Hin. apply Hid. by right. }
  cbn [foldl]. split_and!; [done| |congruence..]. intros j. rewrite Hc2. cbn [list_to_map foldr fst snd].
  destruct (decide (j = id)) as [->|Hj].
  - rewrite lookup_insert_eq, not_elem_of_list_to_map_1 by done. by rewrite Hc1, decide_True.
  - rewrite lookup_insert_ne by done. case_match; [done|]. by rewrite Hc1, decide_False.
Qed.

Definition journal_entries L : list (CellId * option Cell) :=
  match restore_point L with Some rp => map_to_list (rp_cells rp) | None => [] end.

Lemma rollback_spec L0 L order :
  keyed (cells L0) -> rtc turn_step (begin_restore_point L0) L -> order ≡ₚ journal_entries L ->
  let L' := rollback_restore_point order L in
  same_cells (cells L') (cells L0) /\ restore_point L' = None /\
  sovereign_commitments L' = sovereign_commitments L0 /\
  sovereign_registrations L' = sovereign_registrations L0 /\
  witness_sequence L' = witness_sequence L0 /\ migration_locks L' = migration_locks L0.
Proof.
  intros Hk Ht Ho. pose proof (turn_keeps L0 _ L Ht (begin_in_turn L0 Hk)) as [rp [Ha _ Hs Hp Hu]].
  unfold journal_entries in Ho. rewrite Ha in Ho.
  assert (Hmap : (list_to_map order : gmap CellId (option Cell)) = rp_cells rp)
    by (symmetry; by apply list_to_map_flip).
  unfold rollback_restore_point. rewrite Ha. set (L1 := with_locks _ _).
  destruct (restore_all order L1) as (Hr & Hc & T1 & T2 & T3 & T4).
  - done.
  - rewrite Ho. apply NoDup_fst_map_to_list.
  - intros id c Hin. rewrite Ho in Hin. apply elem_of_map_to_list in Hin. by apply (Hp id (Some c) Hin).
  - destruct Hs as (S1 & S2 & S3 & S4).
    split_and!; [|exact Hr|by rewrite T1|by rewrite T2|by rewrite T3|by rewrite T4].
    apply image_same. intros id. rewrite Hc, Hmap. destruct (rp_cells rp !! id) as [prior|] eqn:E.
    + destruct (Hp id prior E) as [Hi _]. rewrite <-Hi. unfold image. by destruct prior.
    + by apply Hu.
Qed.

(** ** Cells are always stored under their ids *)

Lemma add_cell_keyed L c : keyed (cells L) -> keyed (cells (add_cell L (c_id c) c)).
Proof.
  intros H. cbn. destruct (journal_same L (c_id c)) as (-> & _). by apply map_Forall_insert_2.
Qed.

Lemma insert_cell_keyed L c : keyed (cells L) -> keyed (cells (insert_cell L c).1).
Proof.
  intros H. unfold insert_cell. destruct (cells L !! c_id c); [done|].
  by apply (add_cell_keyed L (invalidate_leaf_cache c)).
Qed.

Lemma remove_keyed L id : keyed (cells L) -> keyed (cells (remove L id).1).
Proof.
  intros H. unfold remove. destruct (journal_same L id) as (E & _).
  destruct (cells (journal_cell L id) !! id); cbn; rewrite E; [by apply map_Forall_delete|done].
Qed.

Lemma restore_keyed order L : keyed (cells L) -> keyed (cells (foldl restore_entry L order)).
Proof.
  revert L; induction order as [|e order IH]; intros L H; [done|]. cbn [foldl]. apply IH.
  unfold restore_entry. pose proof (remove_keyed L e.1 H). destruct (e.2); [by apply insert_cell_keyed|done].
Qed.

(** A value written at a present id keeps the keys when it keeps the id. *)
Lemma set_keyed m id c c' : m !! id = Some c -> c_id c' = c_id c -> keyed m -> keyed (<[id := c']> m).
Proof. intros Hc Hid Hk. apply map_Forall_insert_2; [|done]. rewrite Hid. by apply Hk. Qed.

Lemma fields_id id us c : c_id (run_until (apply_field_update id) c us).1 = c_id c.
Proof.
  revert c; induction us as [|u us IH]; intros c; [done|]. cbn [run_until]. unfold apply_field_update at 1.
  destruct (_ <=? _)%nat; [done|]. by rewrite IH.
Qed.

Lemma apply_cell_delta_id c d id : c_id (apply_cell_delta c d id).1 = c_id c.
Proof.
  unfold apply_cell_delta. pose proof (fields_id id (field_updates d) (invalidate_leaf_cache c)) as Hu.
  destruct (run_until _ _ _) as [c1 [e|]]; cbn [fst] in *; [exact Hu|].
  destruct (if nonce_increment d then _ else _) as [s ok]. destruct ok; [|exact Hu]. cbn [negb].
  destruct (apply_balance_change s (balance_change d)) as [s' ok']. destruct ok'; [|exact Hu]. cbn [negb].
  destruct (permission_changes d); exact Hu.
Qed.

Lemma apply_created_keyed s c : keyed (cells s.1) -> keyed (cells (apply_created s c).1.1).
Proof. destruct s as [L undo]. intros H. cbn. by apply map_Forall_insert_2. Qed.

Lemma apply_update_keyed s u : keyed (cells s.1) -> keyed (cells (apply_update s u).1.1).
Proof.
  destruct s as [L undo], u as [id d]. intros H. unfold apply_update.
  destruct (cells L !! id) as [c|] eqn:E; [|done]. pose proof (apply_cell_delta_id c d id) as Hp.
  destruct (apply_cell_delta c d id) as [c' e]. cbn in *. by apply (set_keyed _ _ c).
Qed.

Lemma apply_transfer_keyed s t : keyed (cells s.1) -> keyed (cells (apply_transfer s t).1.1).
Proof.
  destruct s as [L undo], t as [[from to] amount]. intros H. unfold apply_transfer.
  destruct (i64_try_from amount) as [amt|]; [|done].
  destruct (cells L !! from) as [fc|] eqn:Ef; [|done]. destruct (_ <? _); [done|].
  set (L1 := with_cells L _).
  assert (H1 : keyed (cells L1)) by (by apply (set_keyed _ from fc)).
  destruct (cells L1 !! to) as [tc|] eqn:Et; [|done].
  destruct (checked_add_i64 _ _); by apply (set_keyed _ to tc).
Qed.

Lemma removed_keyed ids s : keyed (cells s.1) -> keyed (cells (foldl apply_removed s ids).1).
Proof.
  revert s; induction ids as [|id ids IH]; intros [L undo] H; [done|]. cbn [foldl]. apply IH.
  unfold apply_removed. destruct (cells L !! id) as [c|]; [|done]. by apply map_Forall_delete.
Qed.

Lemma apply_delta_keyed L d :
  index_ok L -> NoDup (c_id <$> created d) -> keyed (cells L) -> keyed (cells (apply_delta L d).1).
Proof.
  intros Hio Hnd H.
  destruct ((apply_delta L d).2) as [[]|e] eqn:Eres; [|by rewrite (apply_delta_error L d e Hio Hnd Eres)].
  unfold apply_delta in *. destruct (validate_delta L d) as [[]|]; [|done].
  unfold apply_delta_in_place in *.
  pose proof (run_until_inv apply_created (fun s => keyed (cells s.1)) (L, ∅) (created d) apply_created_keyed H) as H1.
  destruct (run_until apply_created (L, ∅) (created d)) as [s1 [e|]]; [by destruct s1|].
  pose proof (run_until_inv apply_update (fun s => keyed (cells s.1)) s1 (updated d) apply_update_keyed H1) as H2.
  destruct (run_until apply_update s1 (updated d)) as [s2 [e|]]; [by destruct s2|].
  pose proof (run_until_inv apply_transfer (fun s => keyed (cells s.1)) s2 (computron_transfers d)
    apply_transfer_keyed H2) as H3.
  destruct (run_until apply_transfer s2 (computron_transfers d)) as [s3 [e|]]; [by destruct s3|].
  pose proof (removed_keyed (removed d) s3 H3) as H4.
  by destruct (foldl apply_removed s3 (removed d)) as [L4 u4].
Qed.

Lemma closure_keyed L id f :
  op_honest L (OGetMut id f) -> keyed (cells L) -> keyed (cells (get_mut L id f)).
Proof.
  intros Hf H. unfold get_mut. destruct (journal_same L id) as (E & _).
  destruct (cells (journal_cell L id) !! id) as [c|] eqn:Ec; cbn; rewrite E in *; [|done].
  apply (set_keyed _ _ c); [done| |done]. by destruct (Hf (invalidate_leaf_cache c) eq_refl) as (_ & _ & ->).
Qed.

Lemma update_with_keyed L id f :
  op_honest L (OUpdateWith id f) -> keyed (cells L) ->
  keyed (cells (update_with L id (fun c => (f c, tt))).1).
Proof.
  intros Hf H. unfold update_with. destruct (journal_same L id) as (E & _).
  destruct (cells (journal_cell L id) !! id) as [c|] eqn:Ec; [|cbn; by rewrite E].
  destruct (negb _); cbn; rewrite E in *; apply (set_keyed _ _ c); try done.
  by destruct (Hf (invalidate_leaf_cache c) eq_refl) as (_ & _ & ->).
Qed.

Lemma tree_frame_keyed L L' : tree_frame L L' -> keyed (cells L) -> keyed (cells L').
Proof.
  intros (m & pos & lv & r & p & -> & Hs) Hk id c Hc. cbn in Hc. rewrite image_same in Hs.
  specialize (Hs id). rewrite Hc in Hs. unfold image in Hs. cbn in Hs.
  destruct (cells L !! id) as [c'|] eqn:E; [|done]. apply (inj Some), (f_equal c_id) in Hs. cbn in Hs.
  rewrite Hs. by apply Hk.
Qed.

Lemma migrate_accept_keyed L v c here at_ L' :
  keyed (cells L) -> fst <$> migrate_accept L v c here at_ = Some L' -> keyed (cells L').
Proof.
  intros H. unfold migrate_accept.
  destruct (negb _); [by intros [= <-]|]. destruct (negb _); [by intros [= <-]|].
  destruct (negb _); [by intros [= <-]|]. destruct (state_commitment c) as [h|]; [|done]. cbn [mbind option_bind].
  destruct (negb _); [by intros [= <-]|]. destruct (_ || _); [by intros [= <-]|].
  destruct (mv_target_mode v); intros [= <-]; [|done]. by apply map_Forall_insert_2.
Qed.

Lemma migrate_commit_keyed L id r : keyed (cells L) -> keyed (cells (migrate_commit L id r).1).
Proof.
  intros H. unfold migrate_commit. destruct (migration_locks L !! id) as [lock|]; [|done].
  destruct (cells L !! id) as [c|] eqn:E; [|done].
  destruct (cell_migrate_commit _ _ _) as [c'|e] eqn:Em; cbn; apply (set_keyed _ _ c); try done.
  unfold cell_migrate_commit in Em. repeat case_match; try done. by injection Em as <-.
Qed.

Lemma run_op_keyed L op L' :
  ledger_inv L -> op_honest L op -> keyed (cells L) -> run_op L op = Some L' -> keyed (cells L').
Proof.
  intros Hinv Hh H.
  destruct op as [id f|id f|pk tok|c|id|d|id|c|id h|id h height ttl vk|id h|id old new_ height|id n|id|h
    |id from to mode at_|v c here at_|id r| | |order| |id]; cbn [run_op].
  - intros [= <-]. by apply closure_keyed.
  - intros [= <-]. by apply update_with_keyed.
  - unfold create_cell. destruct (new_hosted pk tok) as [c|]; [|done]. intros [= <-]. by apply add_cell_keyed.
  - intros [= <-]. by apply insert_cell_keyed.
  - intros [= <-]. by apply remove_keyed.
  - intros [= <-]. apply apply_delta_keyed; [apply index_exact_ok, Hinv|apply Hh|done].
  - unfold make_sovereign. pose proof (remove_keyed L id H) as Hr.
    destruct (remove L id) as [L1 [c|]]; [|by intros [= <-]].
    destruct (state_commitment c) as [h|]; [|done]. by intros [= <-].
  - intros [= <-]. by apply insert_cell_keyed.
  - intros [= <-]. unfold register_sovereign_cell. by case_match.
  - intros [= <-]. unfold register_sovereign_cell_with_vk. by case_match.
  - intros [= <-]. unfold update_sovereign_commitment. by case_match.
  - intros [= <-]. unfold update_sovereign_registration_commitment. by repeat case_match.
  - by intros [= <-].
  - intros [= <-]. unfold deregister_sovereign_cell. by repeat case_match.
  - by intros [= <-].
  - unfold migrate_prepare. destruct (migration_locks L !! id); [by intros [= <-]|].
    destruct (cells L !! id) as [c|]; [|by intros [= <-]].
    destruct (migration_voucher c from to mode at_) as [[v|e]|]; [| |done]; by intros [= <-].
  - by apply migrate_accept_keyed.
  - intros [= <-]. by apply migrate_commit_keyed.
  - by intros [= <-].
  - by intros [= <-].
  - intros [= <-]. unfold rollback_restore_point. destruct (restore_point L); [|done]. by apply restore_keyed.
  - unfold root. destruct (materialize L) as [L1|] eqn:E; [|done]. intros [= <-].
    apply materialize_frame in E. by apply (tree_frame_keyed L).
  - destruct (membership_proof L id) as [[r L1]|] eqn:E; [|done]. intros [= <-].
    apply membership_proof_frame in E. by apply (tree_frame_keyed L).
Qed.

Lemma reachable_keyed L : reachable L -> keyed (cells L).
Proof.
  intros H. cut (ledger_inv L /\ keyed (cells L)); [tauto|]. revert L H.
  apply (rtc_ind_r (fun L => ledger_inv L /\ keyed (cells L)) ledger_new).
  - split; [apply ledger_new_inv|apply map_Forall_empty].
  - intros L1 L2 _ (o & Hh & Ho) [H1 H2]. split; [by eapply run_op_inv|by eapply run_op_keyed].
Qed.

(** The operations of a turn are operations. *)
Lemma turn_reachable L1 L : rtc turn_step L1 L -> reachable L1 -> reachable L.
Proof.
  induction 1 as [|L1 L2 L (op & _ & Hh & Ho) _ IH]; [done|]. intros H1. apply IH.
  eapply rtc_r; [exact H1|]. by exists op.
Qed.

(** ** Deltas and the journal *)

Lemma apply_delta_restore_point L d :
  (apply_delta L d).2 = Ok tt -> restore_point (apply_delta L d).1 = restore_point L.
Proof.
  set (P := fun s : Ledger * gmap CellId (option Cell) => restore_point s.1 = restore_point L).
  assert (Hc : forall s x, P s -> P (apply_created s x).1) by (by intros [??] ?).
  assert (Hu : forall s x, P s -> P (apply_update s x).1).
  { intros [L1 u1] [id ud] H. unfold apply_update. destruct (cells L1 !! id) as [c|]; [|done].
    by destruct (apply_cell_delta c ud id). }
  assert (Ht : forall s x, P s -> P (apply_transfer s x).1).
  { intros [L1 u1] [[from to] amount] H. unfold apply_transfer. by repeat case_match. }
  assert (Hr : forall ids s, P s -> P (foldl apply_removed s ids)).
  { induction ids as [|id ids IH]; intros [L1 u1] H; [done|]. cbn [foldl]. apply IH.
    unfold apply_removed. by case_match. }
  unfold apply_delta. destruct (validate_delta L d) as [[]|]; [|done]. unfold apply_delta_in_place.
  pose proof (run_until_inv apply_created P (L, ∅) (created d) Hc eq_refl) as H1.
  destruct (run_until apply_created (L, ∅) (created d)) as [s1 [e|]]; [by destruct s1|].
  pose proof (run_until_inv apply_update P s1 (updated d) Hu H1) as H2.
  destruct (run_until apply_update s1 (updated d)) as [s2 [e|]]; [by destruct s2|].
  pose proof (run_until_inv apply_transfer P s2 (computron_transfers d) Ht H2) as H3.
  destruct (run_until apply_transfer s2 (computron_transfers d)) as [s3 [e|]]; [by destruct s3|].
  pose proof (Hr (removed d) s3 H3) as H4.
  by destruct (foldl apply_removed s3 (removed d)) as [L4 u4].
Qed.

(** ** Properties *)

(** Rollback.  Arm the journal on any ledger a history leads to, run any
    sequence of journalled operations (closures, creations, removals, sovereign
    and migration bookkeeping, root computations in between), and roll back,
    the journal's entries coming in any order: every cell is back to its value
    at the start (created ones are gone, removed ones are back), the four side
    tables are the ones of the start, the journal is disarmed, and the next
    root is the root of the start. *)
Theorem rollback_restores L0 L order :
  reachable L0 -> rtc turn_step (begin_restore_point L0) L -> order ≡ₚ journal_entries L ->
  let L' := rollback_restore_point order L in
  same_cells (cells L') (cells L0) /\ restore_point L' = None /\
  sovereign_commitments L' = sovereign_commitments L0 /\
  sovereign_registrations L' = sovereign_registrations L0 /\
  witness_sequence L' = witness_sequence L0 /\ migration_locks L' = migration_locks L0 /\
  forall ds, leaves_of (cells L0) = Some ds -> fst <$> root L' = Some (spec_root ds).
Proof.
  intros Hr0 Ht Ho. destruct (rollback_spec L0 L order (reachable_keyed L0 Hr0) Ht Ho)
    as (Hc & Hr & S1 & S2 & S3 & S4). split_and!; [done..|]. intros ds Hds.
  assert (Hb : reachable (begin_restore_point L0)).
  { eapply rtc_r; [exact Hr0|]. by exists OBegin. }
  pose proof (turn_reachable _ _ Ht Hb) as HL.
  assert (Hinv : ledger_inv (rollback_restore_point order L)).
  { apply (run_op_inv L (ORollback order)); [done|by apply reachable_inv|done]. }
  destruct (materialize_inv _ ds Hinv) as (L2 & E & _ & _ & _ & Hroot); [by rewrite Hc|].
  unfold root. rewrite E. cbn. by rewrite Hroot.
Qed.

(** What the journal does not see.  An accepted [apply_delta] inside a
    turn records nothing in the armed journal, so the rollback of that turn
    keeps every cell as the delta left it. *)
Theorem rollback_keeps_delta L0 d :
  (apply_delta (begin_restore_point L0) d).2 = Ok tt ->
  let L := (apply_delta (begin_restore_point L0) d).1 in
  journal_entries L = [] /\ cells (rollback_restore_point (journal_entries L) L) = cells L.
Proof.
  intros H L. pose proof (apply_delta_restore_point _ _ H) as Hrp. fold L in Hrp.
  assert (He : journal_entries L = []) by (unfold journal_entries; by rewrite Hrp).
  split; [done|]. rewrite He. unfold rollback_restore_point. by rewrite Hrp.
Qed.

(** [update_with] checks that the id of the cell it is left with is derived
    from that cell's own key and token, not that it is the id it was asked for:
    a closure that assigns another sound cell through the reference is
    accepted, and the ledger holds that cell under the old id. *)
Theorem update_with_accepts_foreign_cell L id c b :
  cells L !! id = Some c -> verify_id_integrity b = true ->
  (update_with L id (fun _ => (b, tt))).2 = Ok tt /\
  cells (update_with L id (fun _ => (b, tt))).1 !! id = Some b.
Proof.
  intros Hc Hb. unfold update_with. destruct (journal_same L id) as (E & _). rewrite E, Hc, Hb. cbn.
  by rewrite lookup_insert_eq.
Qed.

End Restore.

(** ** Witnesses *)

#[local] Existing Instance model_blake3.
#[local] Existing Instance model_codec.

(** A turn on the ledger of [w_hosted]: the cell's balance is written in place,
    another cell is inserted, the first is removed. *)
Definition w_set (c : Cell) : Cell := with_state c (with_balance (c_state c) 1).

Definition w_turn : Ledger :=
  (remove (insert_cell (get_mut (begin_restore_point w_hosted) w_alice w_set) (w_account w_bob 5 0)).1
     w_alice).1.

Lemma rollback_restores_witness :
  same_cells (cells (rollback_restore_point (journal_entries w_turn) w_turn)) (cells w_hosted) /\
  cells w_turn !! w_alice = None /\
  is_Some (cells w_turn !! w_bob).
Proof.
  split; [|split; [vm_compute; reflexivity|vm_compute; eexists; reflexivity]].
  apply (rollback_restores w_hosted w_turn); [exact w_hosted_reachable| |reflexivity].
  apply rtc_l with (get_mut (begin_restore_point w_hosted) w_alice w_set).
  { exists (OGetMut w_alice w_set). split; [reflexivity|split; [|reflexivity]].
    intros c Hc. split; [exact Hc|split; reflexivity]. }
  apply rtc_l with (insert_cell (get_mut (begin_restore_point w_hosted) w_alice w_set) (w_account w_bob 5 0)).1.
  { exists (OInsert (w_account w_bob 5 0)). split; [reflexivity|split; [exact I|reflexivity]]. }
  apply rtc_once. exists (ORemove w_alice). split; [reflexivity|split; [exact I|reflexivity]].
Defined.

Lemma rollback_keeps_delta_witness :
  let L := (apply_delta (begin_restore_point (w_ledger 0)) w_delta).1 in
  cell_balance <$> cells (rollback_restore_point (journal_entries L) L) !! w_bob = Some 35 /\
  cell_balance <$> cells (w_ledger 0) !! w_bob = Some 5.
Proof.
  intros L. split; [|vm_compute; reflexivity].
  destruct (rollback_keeps_delta (w_ledger 0) w_delta) as [_ H]; [vm_compute; reflexivity|].
  fold L in H. rewrite H. vm_compute. reflexivity.
Defined.
