(* ===== verification/Handoff.v ===== *)
(** * A migration between two ledgers

    The three steps of [cell/src/migration.rs] and [cell/src/ledger.rs]
    (prepare at the source, accept at the destination, commit at the source)
    composed across two ledgers: what the move carries over, what a commit
    needs, that a destination installs a cell once, and what the lock taken at
    prepare does not prevent. *)

From stdpp Require Import base decidable option list gmap strings.
From Stdlib Require Import ZArith Lia.
From S2P Require Import Prelude State Permissions Capability Lifecycle Cell Migration Merkle.
From S2P Require Import Ledger LedgerTree LedgerDelta.

Open Scope Z_scope.

#[local] Opaque compute_canonical_state_commitment.

Section Handoff.
Context `{HB : Blake3} `{HC : ProgramCodec}.

Implicit Types (S D L : Ledger).

(** ** The three steps inverted *)

Lemma migrate_prepare_ok S id from to mode t S1 v :
  migrate_prepare S id from to mode t = Some (S1, Ok v) ->
  exists c, migration_locks S !! id = None /\ cells S !! id = Some c /\
    is_terminal (c_lifecycle c) = false /\ verify_id_integrity c = true /\
    (exists h, state_commitment c = Some h /\ v = mkVoucher (c_id c) h from to mode t) /\
    S1 = with_locks S (<[id := mkLock v]> (migration_locks S)).
Proof.
  unfold migrate_prepare. destruct (migration_locks S !! id); [done|].
  destruct (cells S !! id) as [c|]; [|done]. unfold migration_voucher.
  destruct (is_terminal (c_lifecycle c)) eqn:Et; [done|].
  destruct (verify_id_integrity c) eqn:Ei; [|done]. cbn [negb].
  destruct (state_commitment c) as [h|] eqn:Eh; [|done]. intros [= <- <-].
  exists c. split_and!; try done. by exists h.
Qed.

(** The ledger an accepted voucher gives. *)
Definition installed (D : Ledger) (v : MigrationVoucher) (c : Cell) : Ledger :=
  match mv_target_mode v with
  | Hosted =>
      let c1 := with_lifecycle (with_mode (invalidate_leaf_cache c) Hosted) Live in
      with_pending (with_index (with_cells D (<[c_id c := c1]> (cells D)))
        (index_add (pubkey_index D) (c_public_key c) (c_id c))) Structural
  | Sovereign => with_sovereign D (<[c_id c := mv_state_commitment v]> (sovereign_commitments D))
  end.

Lemma migrate_accept_ok D v c here t D1 r :
  migrate_accept D v c here t = Some (D1, Ok r) <->
  mv_to v = here /\ c_id c = mv_cell_id v /\ verify_id_integrity c = true /\
  state_commitment c = Some (mv_state_commitment v) /\
  cells D !! c_id c = None /\ sovereign_commitments D !! c_id c = None /\
  sovereign_registrations D !! c_id c = None /\
  D1 = installed D v c /\ r = mkReceipt (c_id c) (voucher_hash v) here t.
Proof.
  unfold migrate_accept, installed. split.
  - destruct (bool_decide_reflect (mv_to v = here)) as [Hto|]; [|done]. cbn [negb].
    destruct (bool_decide_reflect (c_id c = mv_cell_id v)) as [Hid|]; [|done]. cbn [negb].
    destruct (verify_id_integrity c); [|done]. cbn [negb].
    destruct (state_commitment c) as [h|]; [|done]. cbn [mbind option_bind].
    destruct (bool_decide_reflect (h = mv_state_commitment v)) as [->|]; [|done]. cbn [negb].
    destruct (cells D !! c_id c); [done|]. destruct (sovereign_commitments D !! c_id c); [done|].
    destruct (sovereign_registrations D !! c_id c); [done|]. cbn.
    destruct (mv_target_mode v); intros [= <- <-]; split_and!; done.
  - intros (Hto & Hid & Hi & Hh & H1 & H2 & H3 & -> & ->).
    rewrite (bool_decide_eq_true_2 _ Hto), (bool_decide_eq_true_2 _ Hid), Hi, Hh. cbn [negb mbind option_bind].
    rewrite bool_decide_eq_true_2 by done. rewrite H1, H2, H3. cbn. by destruct (mv_target_mode v).
Qed.

Lemma migrate_commit_ok S id r S1 :
  migrate_commit S id r = (S1, Ok tt) <->
  exists lock c, migration_locks S !! id = Some lock /\ cells S !! id = Some c /\
    is_terminal (c_lifecycle c) = false /\ mr_cell_id r = c_id c /\
    mv_cell_id (ml_voucher lock) = c_id c /\ mr_voucher_hash r = voucher_hash (ml_voucher lock) /\
    S1 = with_pending (with_locks (with_cells S
           (<[id := with_lifecycle (invalidate_leaf_cache c)
                      (Migrated (c_id c) (receipt_attestation r) (mr_accepted_at r))]> (cells S)))
           (delete id (migration_locks S))) (touch_value (pending S) id).
Proof.
  unfold migrate_commit. split.
  - destruct (migration_locks S !! id) as [lock|] eqn:El; [|done].
    destruct (cells S !! id) as [c|] eqn:Ec; [|done]. unfold cell_migrate_commit. cbn [c_lifecycle c_id invalidate_leaf_cache with_leaf_cache].
    destruct (is_terminal (c_lifecycle c)) eqn:Et; [done|].
    destruct (bool_decide_reflect (mr_cell_id r = c_id c)) as [H1|]; [|done].
    destruct (bool_decide_reflect (mv_cell_id (ml_voucher lock) = c_id c)) as [H2|]; [|done].
    destruct (bool_decide_reflect (mr_voucher_hash r = voucher_hash (ml_voucher lock))) as [H3|]; [|done].
    cbn [negb orb]. intros [= <-]. exists lock, c. split_and!; done.
  - intros (lock & c & El & Ec & Et & H1 & H2 & H3 & ->). rewrite El, Ec. unfold cell_migrate_commit.
    cbn [c_lifecycle c_id invalidate_leaf_cache with_leaf_cache]. rewrite Et.
    by rewrite !bool_decide_eq_true_2 by done.
Qed.

(** A refused voucher changes nothing. *)
Lemma migrate_accept_err D v c here t D1 e : migrate_accept D v c here t = Some (D1, Err e) -> D1 = D.
Proof.
  unfold migrate_accept. intros H. destruct (state_commitment c); cbn in H; repeat case_match; try done;
    by injection H as <- _.
Qed.

(** ** One destination over time *)

Definition accept_step D D' : Prop := exists v c here t res, migrate_accept D v c here t = Some (D', res).

Definition occupied D (id : CellId) : Prop :=
  is_Some (cells D !! id) \/ is_Some (sovereign_commitments D !! id) \/
  is_Some (sovereign_registrations D !! id).

Lemma installed_occupied D v c : occupied (installed D v c) (c_id c).
Proof.
  unfold occupied, installed. destruct (mv_target_mode v); cbn; rewrite lookup_insert_eq; eauto.
Qed.

Lemma accept_step_occupied D D' id : accept_step D D' -> occupied D id -> occupied D' id.
Proof.
  intros (v & c & here & t & [r|e] & H) Ho; [|apply migrate_accept_err in H; by subst].
  apply migrate_accept_ok in H as (_ & _ & _ & _ & _ & _ & _ & -> & _).
  unfold occupied, installed in *. destruct (mv_target_mode v); cbn; destruct Ho as [H|[H|H]];
    rewrite ?lookup_insert_is_Some'; eauto.
Qed.

(** ** Properties *)

(** The handoff completes.  Once a cell is prepared, a destination that
    holds no trace of its id accepts it and the source's commit of the
    returned receipt is accepted; the source's copy is then a tombstone that
    accepts no effect, its lock is gone, and the destination holds the cell,
    live, with its balance, fields and capabilities (or its commitment, for a
    sovereign move). *)
Theorem handoff_completes S D id from to mode t t2 S1 v c :
  migrate_prepare S id from to mode t = Some (S1, Ok v) -> cells S !! id = Some c ->
  ~ occupied D (c_id c) ->
  exists D1 r S2, migrate_accept D v c to t2 = Some (D1, Ok r) /\ migrate_commit S1 id r = (S2, Ok tt) /\
    (exists c2, cells S2 !! id = Some c2 /\ is_terminal (c_lifecycle c2) = true /\
       accepts_effects (c_lifecycle c2) = false) /\
    is_migration_locked S2 id = false /\
    match mode with
    | Hosted => exists c1, cells D1 !! c_id c = Some c1 /\ accepts_effects (c_lifecycle c1) = true /\
        c_state c1 = c_state c /\ c_capabilities c1 = c_capabilities c /\ c_permissions c1 = c_permissions c
    | Sovereign => sovereign_commitments D1 !! c_id c = state_commitment c
    end.
Proof.
  intros Hp Hc Ho. apply migrate_prepare_ok in Hp as (c' & Hl & Hc' & Ht & Hi & (h & Hh & ->) & ->).
  rewrite Hc in Hc'. injection Hc' as <-. set (v := mkVoucher _ _ _ _ _ _).
  set (r := mkReceipt (c_id c) (voucher_hash v) to t2).
  exists (installed D v c), r. eexists. split; [|split].
  - apply migrate_accept_ok. unfold occupied in Ho. rewrite <-!not_eq_None_Some in Ho.
    split_and!; try done; apply dec_stable; tauto.
  - apply migrate_commit_ok. exists (mkLock v), c. cbn [migration_locks with_locks cells].
    rewrite lookup_insert_eq. split_and!; done.
  - cbn [cells with_pending with_locks with_cells]. split_and!.
    + eexists. rewrite lookup_insert_eq. split_and!; done.
    + unfold is_migration_locked. cbn. rewrite lookup_delete_eq. done.
    + unfold installed. cbn [mv_target_mode v mv_state_commitment]. destruct mode.
      * eexists. cbn. rewrite lookup_insert_eq. split_and!; done.
      * cbn. by rewrite lookup_insert_eq.
Qed.

(** C30: what arrives is what was prepared.  Whatever cell the courier
    presents with the voucher, the destination accepts it only at the federation
    the voucher names and only if it agrees with the cell the source locked on
    everything the canonical commitment binds: no value, authority or program
    is conjured in transit.  (Digests do not collide.) *)
Theorem handoff_carries_prepared_cell `{Hcr : !Blake3CR HB} `{Hok : !ProgramCodecOk HC}
    S D id from to mode t t2 S1 v c c' here D1 r :
  cell_wf c -> cell_wf c' -> cells S !! id = Some c ->
  migrate_prepare S id from to mode t = Some (S1, Ok v) ->
  migrate_accept D v c' here t2 = Some (D1, Ok r) ->
  here = to /\ cell_view c' = cell_view c.
Proof.
  intros Hwf Hwf' Hc Hp Ha. apply migrate_prepare_ok in Hp as (c0 & _ & Hc0 & _ & _ & (h & Hh & ->) & _).
  rewrite Hc in Hc0. injection Hc0 as <-. apply migrate_accept_ok in Ha as (<- & _ & _ & Hh' & _).
  split; [done|]. exact (commitment_inj c' c h Hwf' Hwf Hh' Hh).
Qed.

(** A commit consumes the receipt of this very handoff.  If a receipt
    issued by some destination for some voucher is accepted by the source, that
    voucher is the one the source's lock holds, so the cell was accepted at the
    federation, in the mode and at the state the source had prepared it for.
    (Digests do not collide.) *)
Theorem commit_matches_acceptance `{Hcr : !Blake3CR HB} S D id S1 v c here t D1 r lock :
  migration_locks S !! id = Some lock -> voucher_wf v -> voucher_wf (ml_voucher lock) ->
  migrate_accept D v c here t = Some (D1, Ok r) -> migrate_commit S id r = (S1, Ok tt) ->
  v = ml_voucher lock /\ here = mv_to (ml_voucher lock) /\ occupied D1 (mv_cell_id (ml_voucher lock)).
Proof.
  intros Hl Hv Hlv Ha Hc. apply migrate_accept_ok in Ha as (<- & Hid & _ & _ & _ & _ & _ & -> & ->).
  apply migrate_commit_ok in Hc as (lock' & c' & Hl' & _ & _ & _ & _ & Hh & _).
  rewrite Hl in Hl'. injection Hl' as <-. cbn in Hh. apply voucher_hash_inj in Hh; [|done..].
  subst v. split_and!; [done|done|]. rewrite <-Hid. apply installed_occupied.
Qed.

(** A destination installs a cell once: after an acceptance, and after any
    further acceptances and refusals, every voucher for a cell of that id is
    refused, and the refusal changes nothing. *)
Theorem accept_at_most_once D v c here t D1 r D2 v' c' here' t' D3 res :
  migrate_accept D v c here t = Some (D1, Ok r) -> rtc accept_step D1 D2 -> c_id c' = c_id c ->
  migrate_accept D2 v' c' here' t' = Some (D3, res) -> D3 = D2 /\ exists e, res = Err e.
Proof.
  intros Ha Hs Hid H3. apply migrate_accept_ok in Ha as (_ & _ & _ & _ & _ & _ & _ & -> & _).
  assert (Ho : occupied D2 (c_id c)).
  { revert Hs. apply (rtc_ind_r (fun D2 => occupied D2 (c_id c))); [apply installed_occupied|].
    intros D4 D5 _ Hstep Ho. by apply (accept_step_occupied D4). }
  destruct res as [r'|e]; [|split; [by apply migrate_accept_err in H3|by eexists]].
  apply migrate_accept_ok in H3 as (_ & _ & _ & _ & E1 & E2 & E3 & _). rewrite Hid in *.
  destruct Ho as [[? Ho]|[[? Ho]|[? Ho]]]; congruence.
Qed.

(** The delta that pays [amount] and does nothing else. *)
Definition payment (from_id to_id : CellId) (amount : Z) : LedgerDelta :=
  mkLedgerDelta [] [] [(from_id, to_id, amount)] [].

Lemma payment_applies L id other amount c o :
  cells L !! id = Some c -> cells L !! other = Some o -> other <> id ->
  0 < amount <= cell_balance c -> is_i64 (cell_balance c) -> is_i64 (cell_balance o + amount) ->
  apply_delta L (payment id other amount) =
    (with_pending (with_cells L
       (<[other := set_cell_balance o (cell_balance o + amount)]>
          (<[id := set_cell_balance c (cell_balance c - amount)]> (cells L))))
       (touch_values (pending L) [id; other]), Ok tt).
Proof.
  intros Hc Ho Hne Ham Hb Hob.
  assert (Ei : i64_try_from amount = Some amount) by (apply i64_try_from_spec; unfold is_i64 in Hb; lia).
  assert (Ea : checked_add_i64 (cell_balance o) amount = Some (cell_balance o + amount))
    by (by apply checked_add_i64_spec).
  assert (El : (cell_balance c <? amount) = false) by lia. unfold cell_balance in *.
  assert (Hv : validate_delta L (payment id other amount) = Ok tt).
  { unfold validate_delta. cbn [created updated computron_transfers payment try_fold].
    unfold check_transfer. rewrite Ei. cbn [ok_or]. unfold get_running, lookup_either.
    rewrite lookup_empty, Hc. cbn [ok_or]. rewrite El.
    rewrite !lookup_insert_ne, lookup_empty, Ho by done. cbn [ok_or]. by rewrite Ea. }
  unfold apply_delta. rewrite Hv. unfold apply_delta_in_place.
  cbn [created updated computron_transfers removed payment run_until]. unfold apply_transfer. rewrite Ei, Hc, El.
  cbn [cells with_cells]. rewrite lookup_insert_ne, Ho, Ea by done. done.
Qed.

(** The lock does not lock.  Between prepare and commit the source's copy
    of the cell still pays: a delta spends the prepared balance at the source,
    the destination still accepts the cell with its whole balance, and the
    source's commit still goes through.  The amount then exists twice. *)
Theorem prepared_cell_still_spends S D id from to t t2 S1 v c other o amount :
  migrate_prepare S id from to Hosted t = Some (S1, Ok v) -> cells S !! id = Some c ->
  ~ occupied D (c_id c) -> cells S !! other = Some o -> other <> id ->
  0 < amount <= cell_balance c -> is_i64 (cell_balance c) -> is_i64 (cell_balance o + amount) ->
  exists S2 D1 r S3,
    apply_delta S1 (payment id other amount) = (S2, Ok tt) /\
    migrate_accept D v c to t2 = Some (D1, Ok r) /\ migrate_commit S2 id r = (S3, Ok tt) /\
    cell_balance <$> cells D1 !! c_id c = Some (cell_balance c) /\
    cell_balance <$> cells S3 !! other = Some (cell_balance o + amount).
Proof.
  intros Hp Hc Ho Hoth Hne Ham Hb Hob.
  apply migrate_prepare_ok in Hp as (c' & Hl & Hc' & Ht & Hi & (h & Hh & ->) & ->).
  rewrite Hc in Hc'. injection Hc' as <-. set (v := mkVoucher _ _ _ _ _ _).
  set (S1 := with_locks _ _).
  eexists _, (installed D v c), (mkReceipt (c_id c) (voucher_hash v) to t2), _.
  split; [by apply payment_applies|]. split_and!.
  - apply migrate_accept_ok. unfold occupied in Ho. rewrite <-!not_eq_None_Some in Ho.
    split_and!; try done; apply dec_stable; tauto.
  - apply migrate_commit_ok. exists (mkLock v), (set_cell_balance c (cell_balance c - amount)).
    cbn. rewrite lookup_insert_eq, (lookup_insert_ne _ other), lookup_insert_eq by done. split_and!; done.
  - cbn. by rewrite lookup_insert_eq.
  - cbn. by rewrite lookup_insert_ne, lookup_insert_eq by done.
Qed.

End Handoff.

(** ** Witnesses *)

#[local] Existing Instance model_blake3.
#[local] Existing Instance model_blake3_cr.
#[local] Existing Instance model_codec.
#[local] Existing Instance model_codec_ok.

Definition w_id : CellId := derive_raw (fill32 1) (fill32 2).
Definition w_mover : Cell := w_account w_id 100 0.
Definition w_source : Ledger :=
  with_cells ledger_new {[ w_id := w_mover; w_bob := w_account w_bob 5 0 ]}.
Definition w_home : FederationId := fill32 20.
Definition w_away : FederationId := fill32 21.

Lemma w_prepared mode :
  exists h, state_commitment w_mover = Some h /\
    migrate_prepare w_source w_id w_home w_away mode 10 =
      Some (with_locks w_source {[ w_id := mkLock (mkVoucher w_id h w_home w_away mode 10) ]},
            Ok (mkVoucher w_id h w_home w_away mode 10)).
Proof.
  destruct (account_commits w_mover eq_refl) as [h Hh]. exists h. split; [exact Hh|].
  unfold migrate_prepare, migration_voucher.
  assert (Hc : cells w_source !! w_id = Some w_mover) by (apply lookup_insert_eq).
  assert (Hl : migration_locks w_source !! w_id = None) by reflexivity.
  rewrite Hl, Hc. cbn [is_terminal c_lifecycle w_mover w_account cell_literal].
  assert (Hi : verify_id_integrity w_mover = true) by (by apply bool_decide_eq_true_2). rewrite Hi.
  cbn [negb]. unfold state_commitment in *. rewrite Hh. done.
Qed.

Lemma w_unoccupied c : ~ occupied ledger_new (c_id c).
Proof. intros [[? H]|[[? H]|[? H]]]; cbn in H; by rewrite lookup_empty in H. Qed.

Lemma handoff_completes_witness :
  exists S1 v D1 r S2,
    migrate_prepare w_source w_id w_home w_away Hosted 10 = Some (S1, Ok v) /\
    migrate_accept ledger_new v w_mover w_away 20 = Some (D1, Ok r) /\
    migrate_commit S1 w_id r = (S2, Ok tt).
Proof.
  destruct (w_prepared Hosted) as (h & _ & Hp).
  destruct (handoff_completes w_source ledger_new w_id w_home w_away Hosted 10 20 _ _ w_mover Hp
    (lookup_insert_eq _ _ _) (w_unoccupied w_mover)) as (D1 & r & S2 & Ha & Hc & _).
  eexists _, _, D1, r, S2. split; [exact Hp|]. split; [exact Ha|exact Hc].
Defined.

Lemma w_mover_wf : cell_wf w_mover.
Proof.
  split; cbn; try done.
  - by apply state_new_at_wf.
  - split. by repeat constructor.
Qed.

(** The acceptance every later witness starts from. *)
Lemma w_accepted mode h :
  state_commitment w_mover = Some h ->
  migrate_accept ledger_new (mkVoucher w_id h w_home w_away mode 10) w_mover w_away 20 =
    Some (installed ledger_new (mkVoucher w_id h w_home w_away mode 10) w_mover,
          Ok (mkReceipt w_id (voucher_hash (mkVoucher w_id h w_home w_away mode 10)) w_away 20)).
Proof.
  intros Hh. apply migrate_accept_ok. split_and!; try done.
Qed.

Lemma handoff_carries_prepared_cell_witness :
  exists S1 v D1 r, migrate_prepare w_source w_id w_home w_away Hosted 10 = Some (S1, Ok v) /\
    migrate_accept ledger_new v w_mover w_away 20 = Some (D1, Ok r) /\
    w_away = w_away /\ cell_view w_mover = cell_view w_mover.
Proof.
  destruct (w_prepared Hosted) as (h & Hh & Hp). pose proof (w_accepted Hosted h Hh) as Ha.
  eexists _, _, _, _. split; [exact Hp|]. split; [exact Ha|].
  exact (handoff_carries_prepared_cell w_source ledger_new w_id w_home w_away Hosted 10 20 _ _ w_mover w_mover
    w_away _ _ w_mover_wf w_mover_wf (lookup_insert_eq _ _ _) Hp Ha).
Defined.

Lemma w_voucher_wf mode h :
  state_commitment w_mover = Some h -> voucher_wf (mkVoucher w_id h w_home w_away mode 10).
Proof.
  intros Hh. split_and!; cbn; try done. by apply length_commitment in Hh.
Qed.

Lemma commit_matches_acceptance_witness :
  exists S1 v D1 r S2, migrate_prepare w_source w_id w_home w_away Hosted 10 = Some (S1, Ok v) /\
    migrate_accept ledger_new v w_mover w_away 20 = Some (D1, Ok r) /\
    migrate_commit S1 w_id r = (S2, Ok tt) /\ occupied D1 w_id.
Proof.
  destruct (w_prepared Hosted) as (h & Hh & Hp). pose proof (w_accepted Hosted h Hh) as Ha.
  set (v := mkVoucher w_id h w_home w_away Hosted 10) in *.
  set (r := mkReceipt w_id (voucher_hash v) w_away 20) in *.
  set (S1 := with_locks w_source {[ w_id := mkLock v ]}) in *.
  assert (Hc : exists S2, migrate_commit S1 w_id r = (S2, Ok tt)).
  { eexists. apply migrate_commit_ok. exists (mkLock v), w_mover.
    split; [apply lookup_insert_eq|]. split; [apply lookup_insert_eq|]. split_and!; reflexivity. }
  destruct Hc as [S2 Hc].
  destruct (commit_matches_acceptance S1 ledger_new w_id S2 v w_mover w_away 20 _ r (mkLock v)
    (lookup_insert_eq _ _ _) (w_voucher_wf Hosted h Hh) (w_voucher_wf Hosted h Hh) Ha Hc) as (_ & _ & Ho).
  eexists _, _, _, _, S2. split; [exact Hp|]. split; [exact Ha|]. split; [exact Hc|exact Ho].
Defined.

Lemma accept_at_most_once_witness :
  exists v D1 r, migrate_accept ledger_new v w_mover w_away 20 = Some (D1, Ok r) /\
    forall D3 res, migrate_accept D1 v w_mover w_away 30 = Some (D3, res) -> D3 = D1 /\ exists e, res = Err e.
Proof.
  destruct (w_prepared Hosted) as (h & Hh & _). pose proof (w_accepted Hosted h Hh) as Ha.
  eexists _, _, _. split; [exact Ha|]. intros D3 res H3.
  exact (accept_at_most_once _ _ _ _ _ _ _ _ _ _ _ _ _ _ Ha (rtc_refl _ _) eq_refl H3).
Defined.

Lemma prepared_cell_still_spends_witness :
  exists D1 S3, cell_balance <$> cells D1 !! w_id = Some 100 /\ cell_balance <$> cells S3 !! w_bob = Some 105.
Proof.
  destruct (w_prepared Hosted) as (h & Hh & Hp).
  destruct (prepared_cell_still_spends w_source ledger_new w_id w_home w_away 10 20 _ _ w_mover w_bob
    (w_account w_bob 5 0) 100 Hp) as (S2 & D1 & r & S3 & _ & _ & _ & H1 & H2).
  - apply lookup_insert_eq.
  - apply w_unoccupied.
  - vm_compute. reflexivity.
  - vm_compute. discriminate.
  - change (cell_balance w_mover) with 100. lia.
  - change (cell_balance w_mover) with 100. unfold is_i64, i64_min, i64_max. lia.
  - change (cell_balance (w_account w_bob 5 0)) with 5. unfold is_i64, i64_min, i64_max. lia.
  - exists D1, S3. split; [exact H1|exact H2].
Defined.
