(* ===== verification/Regex.v ===== *)
(** * Byte classes and byte regexes (dfa/src/derivative.rs)

    The symbolic-derivative front end of the automata crate: byte classes in
    canonical form, regexes with intersection and complement built by smart
    constructors, nullability, derivatives, the streaming matcher and the
    partition of the alphabet into derivative classes.

    A byte is a [nat]; a word is a list of them.  [re_lang] is the language of a
    regex, given independently of derivatives; the theorems say that the
    matcher decides it and that a byte class is determined by the bytes it
    accepts.  The compiler of this file's regexes is in Automata.v. *)

From S2P Require Import Prelude.
From stdpp Require Import sorting.
From Stdlib Require Import Lia.

#[local] Open Scope nat_scope.

(** ** Byte classes *)

Abbreviation word := (list nat).
Abbreviation ranges := (list (nat * nat)).

(** A union of inclusive ranges. *)
Record ByteClass := { bc_ranges : ranges }.

#[global] Instance ByteClass_eq_dec : EqDecision ByteClass.
Proof. solve_decision. Defined.

Definition bc_empty : ByteClass := {| bc_ranges := [] |}.
Definition bc_full : ByteClass := {| bc_ranges := [(0, 255)] |}.

Definition bc_range (low high : nat) : ByteClass :=
  if high <? low then bc_empty else {| bc_ranges := [(low, high)] |}.

Definition bc_byte (b : nat) : ByteClass := bc_range b b.

Definition bc_is_empty (c : ByteClass) : bool :=
  match bc_ranges c with [] => true | _ => false end.

Definition in_range (b : nat) (r : nat * nat) : bool := (r.1 <=? b) && (b <=? r.2).

Definition bc_contains (c : ByteClass) (b : nat) : bool := any (in_range b) (bc_ranges c).

(** The order of [sort_unstable] on pairs. *)
Definition range_le (r s : nat * nat) : Prop := r.1 < s.1 \/ (r.1 = s.1 /\ r.2 <= s.2).

#[global] Instance range_le_dec r s : Decision (range_le r s).
Proof. unfold range_le. apply _. Defined.

(** The merging loop of [normalize]; [merged] is the vector in reverse, so that
    [last_mut] is its head. *)
Fixpoint merge_ranges (merged rs : ranges) : ranges :=
  match rs with
  | [] => rev merged
  | (lo, hi) :: rs' =>
    match merged with
    | (l0, h0) :: m =>
      if (lo <=? h0) || ((h0 <? 255) && (h0 + 1 =? lo))
      then merge_ranges ((l0, if h0 <? hi then hi else h0) :: m) rs'
      else merge_ranges ((lo, hi) :: merged) rs'
    | [] => merge_ranges [(lo, hi)] rs'
    end
  end.

Definition bc_normalize (rs : ranges) : ByteClass :=
  let rs := retain (fun r => r.1 <=? r.2) rs in
  {| bc_ranges := merge_ranges [] (merge_sort range_le rs) |}.

Definition bc_from_ranges (rs : ranges) : ByteClass := bc_normalize rs.

(** The loop of [complement]: [cursor] is a [u16]. *)
Fixpoint complement_from (cursor : nat) (rs : ranges) : ranges :=
  match rs with
  | [] => if cursor <=? 255 then [(cursor, 255)] else []
  | (lo, hi) :: rs' =>
    if cursor <? lo
    then (cursor, lo - 1) :: complement_from (hi + 1) rs'
    else complement_from (hi + 1) rs'
  end.

Definition bc_complement (c : ByteClass) : ByteClass :=
  {| bc_ranges := complement_from 0 (bc_ranges c) |}.

(** *** Regexes *)

Inductive Re :=
| ReEmpty
| ReEpsilon
| ReSym (class : ByteClass)
| ReCat (l r : Re)
| ReAlt (l r : Re)
| ReInter (l r : Re)
| ReNeg (r : Re)
| ReStar (r : Re).

#[global] Instance Re_eq_dec : EqDecision Re.
Proof. solve_decision. Defined.

(** The derived [Ord]: vectors of pairs lexicographically, then the variants in
    declaration order and their fields from left to right. *)
Definition then_cmp (c d : comparison) : comparison :=
  match c with Eq => d | _ => c end.

Fixpoint ranges_cmp (a b : ranges) : comparison :=
  match a, b with
  | [], [] => Eq
  | [], _ => Lt
  | _, [] => Gt
  | (l1, h1) :: a', (l2, h2) :: b' =>
    then_cmp (l1 ?= l2) (then_cmp (h1 ?= h2) (ranges_cmp a' b'))
  end.

Definition re_variant (r : Re) : nat :=
  match r with
  | ReEmpty => 0 | ReEpsilon => 1 | ReSym _ => 2 | ReCat _ _ => 3
  | ReAlt _ _ => 4 | ReInter _ _ => 5 | ReNeg _ => 6 | ReStar _ => 7
  end.

Fixpoint re_cmp (a b : Re) : comparison :=
  match a, b with
  | ReSym c, ReSym d => ranges_cmp (bc_ranges c) (bc_ranges d)
  | ReCat l1 r1, ReCat l2 r2
  | ReAlt l1 r1, ReAlt l2 r2
  | ReInter l1 r1, ReInter l2 r2 => then_cmp (re_cmp l1 l2) (re_cmp r1 r2)
  | ReNeg r1, ReNeg r2
  | ReStar r1, ReStar r2 => re_cmp r1 r2
  | _, _ => re_variant a ?= re_variant b
  end.

Definition re_le (a b : Re) : bool :=
  match re_cmp a b with Gt => false | _ => true end.

(** *** Smart constructors *)

Definition re_sym (class : ByteClass) : Re :=
  if bc_is_empty class then ReEmpty else ReSym class.

Definition re_range (low high : nat) : Re := re_sym (bc_range low high).
Definition re_byte (b : nat) : Re := re_sym (bc_byte b).
Definition re_any_byte : Re := re_sym bc_full.

Definition re_then (l r : Re) : Re :=
  match l, r with
  | ReEmpty, _ | _, ReEmpty => ReEmpty
  | ReEpsilon, r => r
  | l, ReEpsilon => l
  | l, r => ReCat l r
  end.

Definition re_or (l r : Re) : Re :=
  match l, r with
  | ReEmpty, r => r
  | l, ReEmpty => l
  | l, r =>
    if decide (l = r) then l
    else if re_le l r then ReAlt l r else ReAlt r l
  end.

Definition re_and (l r : Re) : Re :=
  match l, r with
  | ReEmpty, _ | _, ReEmpty => ReEmpty
  | l, r =>
    if decide (l = r) then l
    else if re_le l r then ReInter l r else ReInter r l
  end.

Definition re_not (r : Re) : Re :=
  match r with ReNeg inner => inner | r => ReNeg r end.

Definition re_star (r : Re) : Re :=
  match r with
  | ReEmpty | ReEpsilon => ReEpsilon
  | ReStar _ => r
  | r => ReStar r
  end.

Definition re_word (w : word) : Re :=
  foldl (fun re b => re_then re (re_byte b)) ReEpsilon w.

Definition re_prefix_of (r : Re) : Re := re_then r (re_star re_any_byte).

(** *** Nullability, derivatives, matching *)

Fixpoint re_nullable (r : Re) : bool :=
  match r with
  | ReEmpty => false
  | ReEpsilon => true
  | ReSym _ => false
  | ReCat l r => re_nullable l && re_nullable r
  | ReAlt l r => re_nullable l || re_nullable r
  | ReInter l r => re_nullable l && re_nullable r
  | ReNeg r => negb (re_nullable r)
  | ReStar _ => true
  end.

Fixpoint re_derive (r : Re) (b : nat) : Re :=
  match r with
  | ReEmpty | ReEpsilon => ReEmpty
  | ReSym class => if bc_contains class b then ReEpsilon else ReEmpty
  | ReCat l r =>
    let dl := re_then (re_derive l b) r in
    if re_nullable l then re_or dl (re_derive r b) else dl
  | ReAlt l r => re_or (re_derive l b) (re_derive r b)
  | ReInter l r => re_and (re_derive l b) (re_derive r b)
  | ReNeg r => re_not (re_derive r b)
  | ReStar r' => re_then (re_derive r' b) r
  end.

Fixpoint re_matches (cur : Re) (w : word) : bool :=
  match w with
  | [] => re_nullable cur
  | b :: w' =>
    match re_derive cur b with
    | ReEmpty => false
    | cur' => re_matches cur' w'
    end
  end.

(** *** Derivative classes *)

(** [BTreeSet<u16>::insert] on the ascending list of the set. *)
Fixpoint nset_insert (x : nat) (l : list nat) : list nat :=
  match l with
  | [] => [x]
  | y :: l' =>
    if x <? y then x :: l else if x =? y then l else y :: nset_insert x l'
  end.

Fixpoint re_collect_cuts (r : Re) (cuts : list nat) : list nat :=
  match r with
  | ReEmpty | ReEpsilon => cuts
  | ReSym class =>
    foldl (fun cs '(lo, hi) => nset_insert (hi + 1) (nset_insert lo cs)) cuts (bc_ranges class)
  | ReCat l r | ReAlt l r | ReInter l r => re_collect_cuts r (re_collect_cuts l cuts)
  | ReNeg r | ReStar r => re_collect_cuts r cuts
  end.

(** The loop over [sorted.windows(2)]. *)
Fixpoint cut_windows (sorted : list nat) : ranges :=
  match sorted with
  | lo :: ((h :: _) as rest) =>
    let hi := h - 1 in
    if (lo <=? hi) && (lo <=? 255)
    then (lo, Nat.min hi 255) :: cut_windows rest
    else cut_windows rest
  | _ => []
  end.

Definition re_derivative_classes (r : Re) : ranges :=
  cut_windows (re_collect_cuts r (nset_insert 256 (nset_insert 0 []))).

(** ** Specification *)

(** The bytes of a list of ranges, and the canonical form the type maintains:
    ascending, disjoint, separated by a gap, within the alphabet. *)
Fixpoint canonical_from (c : nat) (rs : ranges) : Prop :=
  match rs with
  | [] => True
  | (lo, hi) :: rs' => c <= lo /\ lo <= hi /\ hi <= 255 /\ canonical_from (hi + 2) rs'
  end.

Definition bc_ok (c : ByteClass) : Prop := canonical_from 0 (bc_ranges c).

(** The language of a regex. *)
Fixpoint re_lang (r : Re) (w : word) : Prop :=
  match r with
  | ReEmpty => False
  | ReEpsilon => w = []
  | ReSym class => exists b, w = [b] /\ bc_contains class b = true
  | ReCat l r => exists u v, w = u ++ v /\ re_lang l u /\ re_lang r v
  | ReAlt l r => re_lang l w \/ re_lang r w
  | ReInter l r => re_lang l w /\ re_lang r w
  | ReNeg r => ~ re_lang r w
  | ReStar r => exists ws, w = concat ws /\ Forall (re_lang r) ws
  end.

(** Every class of the regex is canonical. *)
Fixpoint re_ok (r : Re) : Prop :=
  match r with
  | ReEmpty | ReEpsilon => True
  | ReSym class => bc_ok class
  | ReCat l r | ReAlt l r | ReInter l r => re_ok l /\ re_ok r
  | ReNeg r | ReStar r => re_ok r
  end.

(** ** Byte classes: lemmas *)

Lemma in_range_spec b r : in_range b r = true <-> r.1 <= b <= r.2.
Proof. unfold in_range. rewrite andb_true_iff, !Nat.leb_le. done. Qed.

Lemma bc_contains_spec c b :
  bc_contains c b = true <-> exists r, r ∈ bc_ranges c /\ r.1 <= b <= r.2.
Proof.
  unfold bc_contains. rewrite any_true. by setoid_rewrite in_range_spec.
Qed.

Lemma contains_cons r rs b :
  bc_contains {| bc_ranges := r :: rs |} b = true <->
  r.1 <= b <= r.2 \/ bc_contains {| bc_ranges := rs |} b = true.
Proof.
  unfold bc_contains, any. simpl. by rewrite orb_true_iff, in_range_spec.
Qed.

Lemma canonical_from_weaken c d rs : d <= c -> canonical_from c rs -> canonical_from d rs.
Proof. destruct rs as [|[lo hi] rs]; simpl; [done|]. intuition lia. Qed.

Lemma canonical_from_above c rs b :
  canonical_from c rs -> bc_contains {| bc_ranges := rs |} b = true -> c <= b <= 255.
Proof.
  revert c; induction rs as [|[lo hi] rs IH]; intros c; [done|].
  cbn [canonical_from]. intros (? & ? & ? & Hrs). rewrite contains_cons. simpl.
  intros [?|Hb]; [lia|]. specialize (IH _ Hrs Hb). lia.
Qed.

(** A canonical list is determined by the bytes it covers. *)
Lemma canonical_unique c rs1 rs2 :
  canonical_from c rs1 -> canonical_from c rs2 ->
  (forall b, bc_contains {| bc_ranges := rs1 |} b = true <->
             bc_contains {| bc_ranges := rs2 |} b = true) ->
  rs1 = rs2.
Proof.
  revert c rs2; induction rs1 as [|[l1 h1] rs1 IH]; intros c [|[l2 h2] rs2] H1 H2 Heq.
  - done.
  - simpl in H2. specialize (Heq l2). rewrite contains_cons in Heq. simpl in Heq.
    destruct Heq as [_ Heq]. by discriminate Heq; left; lia.
  - simpl in H1. specialize (Heq l1). rewrite contains_cons in Heq. simpl in Heq.
    destruct Heq as [Heq _]. by discriminate Heq; left; lia.
  - simpl in H1, H2. destruct H1 as (Hc1 & Hl1 & Hh1 & Hr1), H2 as (Hc2 & Hl2 & Hh2 & Hr2).
    assert (Hspec : forall b, (l1 <= b <= h1 \/ bc_contains {| bc_ranges := rs1 |} b = true) <->
                         (l2 <= b <= h2 \/ bc_contains {| bc_ranges := rs2 |} b = true)).
    { intros b. pose proof (Heq b) as Hb. by rewrite !contains_cons in Hb. }
    assert (Habove : forall b, (bc_contains {| bc_ranges := rs1 |} b = true -> h1 + 2 <= b) /\
                          (bc_contains {| bc_ranges := rs2 |} b = true -> h2 + 2 <= b)).
    { intros b. split; intros Hb; eapply canonical_from_above in Hb; eauto; lia. }
    assert (l1 = l2) as ->.
    { pose proof (Hspec l1) as [[?|?] _]; [lia| |]; pose proof (Hspec l2) as [_ [?|?]];
        repeat match goal with H : bc_contains _ _ = true |- _ => apply Habove in H end; lia. }
    assert (h1 = h2) as ->.
    { pose proof (Hspec h1) as [[?|?] _]; [lia| |]; pose proof (Hspec h2) as [_ [?|?]];
        repeat match goal with H : bc_contains _ _ = true |- _ => apply Habove in H end;
        try lia.
      - destruct (decide (h1 < h2)); [|lia]. destruct (Hspec (S h1)) as [_ [?|Hc]]; [lia|lia|].
        apply Habove in Hc. lia.
      - destruct (decide (h2 < h1)); [|lia]. destruct (Hspec (S h2)) as [[?|Hc] _]; [lia|lia|].
        apply Habove in Hc. lia. }
    f_equal. eapply IH; [exact Hr1|exact Hr2|]. intros b.
    destruct (Hspec b) as [Hb1 Hb2], (Habove b) as [Ha1 Ha2]. split; intros Hb.
    + destruct Hb1 as [?|?]; [by right| |done]. specialize (Ha1 Hb). lia.
    + destruct Hb2 as [?|?]; [by right| |done]. specialize (Ha2 Hb). lia.
Qed.

(** The bytes a list of ranges covers. *)
Definition covers (rs : ranges) (b : nat) : Prop := exists r, r ∈ rs /\ r.1 <= b <= r.2.

Lemma covers_contains rs b : bc_contains {| bc_ranges := rs |} b = true <-> covers rs b.
Proof. apply bc_contains_spec. Qed.

Lemma covers_nil b : ~ covers [] b.
Proof. intros (r & Hr & _). by apply elem_of_nil in Hr. Qed.

Lemma covers_cons r rs b : covers (r :: rs) b <-> r.1 <= b <= r.2 \/ covers rs b.
Proof. unfold covers. setoid_rewrite elem_of_cons. naive_solver. Qed.

Lemma covers_rev rs b : covers (rev rs) b <-> covers rs b.
Proof. unfold covers. setoid_rewrite list_elem_of_In. by setoid_rewrite <-in_rev. Qed.

(** [canonical_from] seen from its last range, the end the loops work at. *)
Fixpoint canonical_rev (rs : ranges) : Prop :=
  match rs with
  | [] => True
  | (lo, hi) :: rs' =>
    lo <= hi /\ hi <= 255 /\ canonical_rev rs' /\
    match rs' with (_, h0) :: _ => h0 + 2 <= lo | [] => True end
  end.

Lemma canonical_from_snoc c rs lo hi :
  canonical_from c rs -> (forall r, r ∈ rs -> r.2 + 2 <= lo) -> c <= lo -> lo <= hi -> hi <= 255 ->
  canonical_from c (rs ++ [(lo, hi)]).
Proof.
  revert c; induction rs as [|[l h] rs IH]; intros c; simpl; [lia|].
  intros (? & ? & ? & Hrs) Hlast ???. repeat split; [lia..|].
  apply IH; [done| | |lia|lia].
  - intros r Hr. apply Hlast. by right.
  - apply (Hlast (l, h)). left.
Qed.

Lemma canonical_rev_below rs r :
  canonical_rev rs -> r ∈ rs -> match rs with (_, h0) :: _ => r.2 <= h0 | [] => False end.
Proof.
  revert r; induction rs as [|[l h] rs IH]; intros r; [by rewrite elem_of_nil|].
  simpl. intros (? & ? & Hrs & Hgap). rewrite elem_of_cons. intros [->|Hr]; [done|].
  specialize (IH _ Hrs Hr). destruct rs as [|[l1 h1] rs]; [done|]. simpl in Hrs. lia.
Qed.

Lemma canonical_rev_spec rs : canonical_rev rs -> canonical_from 0 (rev rs).
Proof.
  induction rs as [|[l h] rs IH]; simpl; [done|].
  intros (? & ? & Hrs & Hgap). apply canonical_from_snoc; [by apply IH| |lia..].
  intros r Hr. rewrite list_elem_of_In, <-in_rev, <-list_elem_of_In in Hr.
  pose proof (canonical_rev_below _ _ Hrs Hr). destruct rs as [|[l1 h1] rs]; [done|]. lia.
Qed.

Definition byte_range_ok (r : nat * nat) : Prop := r.1 <= r.2 /\ r.2 <= 255.

Lemma merge_ranges_spec rs merged :
  StronglySorted range_le rs -> Forall byte_range_ok rs -> canonical_rev merged ->
  match merged with (l0, _) :: _ => Forall (fun r => l0 <= r.1) rs | [] => True end ->
  canonical_from 0 (merge_ranges merged rs) /\
  (forall b, covers (merge_ranges merged rs) b <-> covers merged b \/ covers rs b).
Proof.
  revert merged; induction rs as [|[lo hi] rs IH]; intros merged Hs Hok Hm Hl.
  - simpl. split; [by apply canonical_rev_spec|].
    intros b. rewrite covers_rev. pose proof (covers_nil b). tauto.
  - inversion Hs as [|?? Hs' Hle]; subst. inversion Hok as [|?? [Hlh Hhi] Hok']; subst.
    simpl in Hlh, Hhi.
    assert (Hlow : Forall (fun r => lo <= r.1) rs).
    { eapply Forall_impl; [exact Hle|]. unfold range_le; simpl. intros; lia. }
    destruct merged as [|[l0 h0] m]; simpl.
    { destruct (IH [(lo, hi)]) as [Hc Hcov]; [done..|simpl; lia|done|].
      split; [done|]. intros b. rewrite Hcov, !covers_cons. pose proof (covers_nil b). tauto. }
    simpl in Hm. destruct Hm as (Hlh0 & Hh0 & Hm & Hgap).
    inversion Hl as [|?? Hl0 Hl']; subst. simpl in Hl0.
    destruct ((lo <=? h0) || (h0 <? 255) && (h0 + 1 =? lo)) eqn:Etest.
    + rewrite orb_true_iff, andb_true_iff, Nat.leb_le, Nat.ltb_lt, Nat.eqb_eq in Etest.
      destruct (IH ((l0, if h0 <? hi then hi else h0) :: m)) as [Hc Hcov]; [done..| |done|].
      { simpl. destruct (Nat.ltb_spec h0 hi); repeat split; try done; lia. }
      split; [done|]. intros b. rewrite Hcov, !covers_cons; simpl.
      destruct (Nat.ltb_spec h0 hi); intuition lia.
    + rewrite orb_false_iff, andb_false_iff, Nat.leb_gt, Nat.ltb_ge, Nat.eqb_neq in Etest.
      destruct (IH ((lo, hi) :: (l0, h0) :: m)) as [Hc Hcov]; [done..| |done|].
      { simpl. repeat split; try done; lia. }
      split; [done|]. intros b. rewrite Hcov, !covers_cons. simpl. tauto.
Qed.

#[local] Instance range_le_total : Total range_le.
Proof. intros [a b] [c d]. unfold range_le; simpl. lia. Qed.
#[local] Instance range_le_trans : Transitive range_le.
Proof. intros [a b] [c d] [e f]. unfold range_le; simpl. lia. Qed.

Lemma bc_normalize_spec rs :
  Forall (fun r => r.2 <= 255) rs ->
  bc_ok (bc_normalize rs) /\
  (forall b, bc_contains (bc_normalize rs) b = true <-> covers rs b).
Proof.
  intros Hrs. unfold bc_ok, bc_normalize. simpl. setoid_rewrite covers_contains.
  set (rs' := retain _ _).
  assert (Hmem : forall r, r ∈ merge_sort range_le rs' <-> r ∈ rs /\ r.1 <= r.2).
  { intros r. rewrite merge_sort_Permutation. subst rs'.
    by rewrite elem_of_retain, Nat.leb_le. }
  destruct (merge_ranges_spec (merge_sort range_le rs') []) as [Hc Hcov].
  - apply StronglySorted_merge_sort; apply _.
  - apply Forall_forall. intros r Hr. apply Hmem in Hr as [Hr Hle].
    rewrite Forall_forall in Hrs. split; [done|by apply Hrs].
  - done.
  - done.
  - split; [done|]. intros b. rewrite Hcov. unfold covers.
    setoid_rewrite Hmem. split.
    + intros [(r & Hr & _)|(r & [Hr _] & Hb)]; [by apply elem_of_nil in Hr|by exists r].
    + intros (r & Hr & Hb). right. exists r. repeat split; try done; lia.
Qed.

Lemma complement_from_spec c rs :
  canonical_from c rs -> c <= 257 ->
  canonical_from c (complement_from c rs) /\
  (forall b, b <= 255 -> covers (complement_from c rs) b <-> c <= b /\ ~ covers rs b).
Proof.
  revert c; induction rs as [|[lo hi] rs IH]; intros c Hc H257; simpl in *.
  - destruct (Nat.leb_spec c 255); simpl; (split; [repeat split; lia|]).
    + intros b Hb. rewrite covers_cons. simpl. pose proof (covers_nil b). intuition lia.
    + intros b Hb. pose proof (covers_nil b). split; [done|lia].
  - destruct Hc as (Hclo & Hlh & Hh & Hrs).
    destruct (IH (hi + 1)) as [Hcan Hcov]; [by eapply canonical_from_weaken; [|exact Hrs]; lia|lia|].
    assert (Hcov' : forall b, covers rs b -> hi + 2 <= b).
    { intros b Hb. apply covers_contains in Hb. apply (canonical_from_above _ _ _ Hrs) in Hb. lia. }
    assert (Hcan' : canonical_from (hi + 1) (complement_from (hi + 1) rs)) by done.
    destruct (Nat.ltb_spec c lo); simpl.
    + split; [repeat split; try lia|].
      { replace (lo - 1 + 2) with (lo + 1) by lia. eapply canonical_from_weaken; [|exact Hcan]. lia. }
      intros b Hb. rewrite !covers_cons, Hcov by done. simpl. specialize (Hcov' b).
      destruct (decide (b < lo)); intuition lia.
    + split; [eapply canonical_from_weaken; [|exact Hcan]; lia|].
      intros b Hb. rewrite !covers_cons, Hcov by done. simpl. specialize (Hcov' b). intuition lia.
Qed.

(** ** Regexes: lemmas *)

(** The derivative without normalisation.  It is the textbook one, serves to
    decide the language, and is what the smart constructors must agree with. *)
Fixpoint raw_derive (r : Re) (b : nat) : Re :=
  match r with
  | ReEmpty | ReEpsilon => ReEmpty
  | ReSym class => if bc_contains class b then ReEpsilon else ReEmpty
  | ReCat l r =>
    if re_nullable l then ReAlt (ReCat (raw_derive l b) r) (raw_derive r b)
    else ReCat (raw_derive l b) r
  | ReAlt l r => ReAlt (raw_derive l b) (raw_derive r b)
  | ReInter l r => ReInter (raw_derive l b) (raw_derive r b)
  | ReNeg r => ReNeg (raw_derive r b)
  | ReStar r' => ReCat (raw_derive r' b) r
  end.

Lemma re_nullable_lang r : re_nullable r = true <-> re_lang r [].
Proof.
  induction r as [| |c|l IHl r IHr|l IHl r IHr|l IHl r IHr|r IHr|r IHr]; simpl.
  - done.
  - done.
  - split; [done|]. by intros (b & ? & _).
  - rewrite andb_true_iff, IHl, IHr. split.
    + intros [? ?]. by exists [], [].
    + intros (u & v & E & ? & ?). symmetry in E. by apply app_nil in E as [-> ->].
  - by rewrite orb_true_iff, IHl, IHr.
  - by rewrite andb_true_iff, IHl, IHr.
  - rewrite <-IHr. destruct (re_nullable r); naive_solver.
  - split; [|done]. intros _. by exists [].
Qed.

(** The first factor of a star that is not empty. *)
Lemma star_cons (P : word -> Prop) b w :
  (exists ws, b :: w = concat ws /\ Forall P ws) <->
  (exists u v, w = u ++ v /\ P (b :: u) /\ exists ws, v = concat ws /\ Forall P ws).
Proof.
  split.
  - intros (ws & E & Hws). induction Hws as [|x ws Hx Hws IH]; [done|].
    destruct x as [|c x]; [by apply IH|]. simpl in E. injection E as -> ->.
    exists x, (concat ws). split; [done|]. split; [done|]. by exists ws.
  - intros (u & v & -> & Hu & ws & -> & Hws). exists ((b :: u) :: ws).
    split; [done|]. by constructor.
Qed.

Lemma cat_cons (P Q : word -> Prop) b w :
  (exists u v, b :: w = u ++ v /\ P u /\ Q v) <->
  (exists u v, w = u ++ v /\ P (b :: u) /\ Q v) \/ (P [] /\ Q (b :: w)).
Proof.
  split.
  - intros ([|c u] & v & E & Hu & Hv).
    + right. simpl in E. by subst v.
    + injection E as -> ->. left. by exists u, v.
  - intros [(u & v & -> & Hu & Hv)|[Hu Hv]].
    + by exists (b :: u), v.
    + by exists [], (b :: w).
Qed.

Lemma raw_derive_lang r b w : re_lang (raw_derive r b) w <-> re_lang r (b :: w).
Proof.
  revert w; induction r as [| |c|l IHl r IHr|l IHl r IHr|l IHl r IHr|r IHr|r IHr]; intros w; simpl.
  - done.
  - split; [done|]. by intros ?.
  - destruct (bc_contains c b) eqn:E; simpl; split.
    + intros ->. by exists b.
    + by intros (b' & [= -> ->] & _).
    + done.
    + intros (b' & [= -> ->] & ?). congruence.
  - rewrite cat_cons. pose proof (re_nullable_lang l) as Hn.
    destruct (re_nullable l); simpl; setoid_rewrite IHl; rewrite ?IHr.
    + intuition.
    + assert (~ re_lang l []) by (rewrite <-Hn; done). tauto.
  - by rewrite IHl, IHr.
  - by rewrite IHl, IHr.
  - by rewrite IHr.
  - rewrite star_cons. by setoid_rewrite IHr.
Qed.

Lemma re_lang_decided r w : re_nullable (foldl raw_derive r w) = true <-> re_lang r w.
Proof.
  revert r; induction w as [|b w IH]; intros r; simpl; [apply re_nullable_lang|].
  by rewrite IH, raw_derive_lang.
Qed.

#[global] Instance re_lang_dec r w : Decision (re_lang r w).
Proof.
  destruct (re_nullable (foldl raw_derive r w)) eqn:E; [left|right].
  - by apply re_lang_decided.
  - rewrite <-re_lang_decided. congruence.
Defined.

(** The smart constructors denote the constructors they normalise. *)
Lemma re_then_lang l r w : re_lang (re_then l r) w <-> re_lang (ReCat l r) w.
Proof.
  assert (Hl : re_lang (ReCat ReEpsilon r) w <-> re_lang r w).
  { simpl. split; [by intros (u & v & -> & -> & ?)|]. intros ?. by exists [], w. }
  assert (Hr : re_lang (ReCat l ReEpsilon) w <-> re_lang l w).
  { simpl. split; [intros (u & v & -> & ? & ->); by rewrite app_nil_r|].
    intros ?. exists w, []. by rewrite app_nil_r. }
  assert (H0 : ~ re_lang (ReCat ReEmpty r) w) by (simpl; naive_solver).
  assert (H1 : ~ re_lang (ReCat l ReEmpty) w) by (simpl; naive_solver).
  destruct l, r; simpl re_then; try reflexivity; try (by rewrite ?Hl, ?Hr); by simpl re_lang at 1.
Qed.

Lemma re_or_lang l r w : re_lang (re_or l r) w <-> re_lang l w \/ re_lang r w.
Proof.
  assert (Hgen : re_lang (if decide (l = r) then l
    else if re_le l r then ReAlt l r else ReAlt r l) w <-> re_lang l w \/ re_lang r w).
  { case_decide as E; [rewrite E; tauto|]. destruct (re_le l r); simpl; tauto. }
  destruct l, r; simpl re_or; try exact Hgen; clear Hgen; simpl; tauto.
Qed.

Lemma re_and_lang l r w : re_lang (re_and l r) w <-> re_lang l w /\ re_lang r w.
Proof.
  assert (Hgen : re_lang (if decide (l = r) then l
    else if re_le l r then ReInter l r else ReInter r l) w <-> re_lang l w /\ re_lang r w).
  { case_decide as E; [rewrite E; tauto|]. destruct (re_le l r); simpl; tauto. }
  destruct l, r; simpl re_and; try exact Hgen; clear Hgen; simpl; tauto.
Qed.

Lemma re_not_lang r w : re_lang (re_not r) w <-> ~ re_lang r w.
Proof.
  destruct r; try reflexivity. simpl. destruct (decide (re_lang r w)); tauto.
Qed.

Lemma star_star (P : word -> Prop) ws :
  Forall (fun u => exists vs, u = concat vs /\ Forall P vs) ws ->
  exists vs, concat ws = concat vs /\ Forall P vs.
Proof.
  induction 1 as [|u ws (vs & -> & Hvs) _ (vs' & E & Hvs')]; [by exists []|].
  exists (vs ++ vs'). rewrite concat_app. simpl. rewrite E. split; [done|].
  by apply Forall_app.
Qed.

Lemma re_star_lang r w : re_lang (re_star r) w <-> re_lang (ReStar r) w.
Proof.
  assert (Heps : forall P : word -> Prop, (forall u, P u -> u = []) ->
    (w = [] <-> exists ws, w = concat ws /\ Forall P ws)).
  { intros P HP. split; [intros ->; by exists []|]. intros (ws & -> & Hws).
    induction Hws as [|u ws Hu Hws IH]; simpl; [done|]. by rewrite (HP _ Hu), IH. }
  destruct r; simpl re_star; try reflexivity.
  - simpl. apply Heps. done.
  - simpl. by apply Heps.
  - split; [intros H|]; simpl in *.
    + destruct H as (ws & -> & Hws). exists [concat ws]. simpl. rewrite app_nil_r.
      split; [done|]. constructor; [|done]. by exists ws.
    + intros (ws & -> & Hws). by apply star_star.
Qed.

Lemma re_sym_lang c w : re_lang (re_sym c) w <-> exists b, w = [b] /\ bc_contains c b = true.
Proof.
  unfold re_sym, bc_is_empty. destruct c as [[|r rs]]; simpl; [|done].
  split; [done|]. by intros (b & _ & ?).
Qed.

Lemma re_derive_lang r b w : re_lang (re_derive r b) w <-> re_lang r (b :: w).
Proof.
  rewrite <-raw_derive_lang.
  revert w; induction r as [| |c|l IHl r IHr|l IHl r IHr|l IHl r IHr|r IHr|r IHr]; intros w;
    cbn [re_derive raw_derive]; try reflexivity.
  - assert (Hd : forall w, re_lang (re_then (re_derive l b) r) w <-> re_lang (ReCat (raw_derive l b) r) w).
    { intros w'. rewrite re_then_lang. simpl. by setoid_rewrite IHl. }
    destruct (re_nullable l); [|apply Hd]. rewrite re_or_lang, Hd, IHr. done.
  - rewrite re_or_lang, IHl, IHr. done.
  - rewrite re_and_lang, IHl, IHr. done.
  - rewrite re_not_lang, IHr. done.
  - rewrite re_then_lang. simpl. by setoid_rewrite IHr.
Qed.

(** ** Derivative classes: lemmas *)

Lemma elem_of_nset_insert x y l : y ∈ nset_insert x l <-> y = x \/ y ∈ l.
Proof.
  induction l as [|z l IH]; simpl; [by rewrite list_elem_of_singleton, elem_of_nil; naive_solver|].
  destruct (Nat.ltb_spec x z); [by rewrite elem_of_cons|].
  destruct (Nat.eqb_spec x z); [subst; rewrite elem_of_cons; naive_solver|].
  rewrite !elem_of_cons, IH. naive_solver.
Qed.

Lemma nset_insert_sorted x l : StronglySorted lt l -> StronglySorted lt (nset_insert x l).
Proof.
  induction 1 as [|z l Hl IH Hz]; simpl; [repeat constructor|].
  destruct (Nat.ltb_spec x z).
  - constructor; [by constructor|]. constructor; [done|].
    eapply Forall_impl; [exact Hz|]. simpl; intros; lia.
  - destruct (Nat.eqb_spec x z); [by constructor|]. constructor; [done|].
    apply Forall_forall. intros y Hy. apply elem_of_nset_insert in Hy as [->|Hy]; [lia|].
    by rewrite Forall_forall in Hz; apply Hz.
Qed.

Lemma insert_cuts_spec (rs : ranges) cuts :
  let cuts' := foldl (fun cs '(lo, hi) => nset_insert (hi + 1) (nset_insert lo cs)) cuts rs in
  (StronglySorted lt cuts -> StronglySorted lt cuts') /\
  (forall c, c ∈ cuts' <-> c ∈ cuts \/ exists r, r ∈ rs /\ (c = r.1 \/ c = r.2 + 1)).
Proof.
  revert cuts; induction rs as [|[lo hi] rs IH]; intros cuts; simpl.
  - split; [done|]. intros c. split; [by left|]. intros [?|(r & Hr & _)]; [done|].
    by apply elem_of_nil in Hr.
  - destruct (IH (nset_insert (hi + 1) (nset_insert lo cuts))) as [Hs Hm]. split.
    + intros ?. by apply Hs, nset_insert_sorted, nset_insert_sorted.
    + intros c. rewrite Hm, !elem_of_nset_insert. setoid_rewrite elem_of_cons. split.
      * intros [[->|[->|?]]|(r & ? & ?)].
        -- right. exists (lo, hi). simpl. auto.
        -- right. exists (lo, hi). simpl. auto.
        -- by left.
        -- right. exists r. auto.
      * intros [?|(r & [->|?] & Hc)]; [by auto| |by eauto]. simpl in Hc. naive_solver.
Qed.

Lemma collect_cuts_mono r cuts c : c ∈ cuts -> c ∈ re_collect_cuts r cuts.
Proof.
  revert cuts; induction r; intros cuts Hc; simpl; auto.
  pose proof (insert_cuts_spec (bc_ranges class) cuts) as [_ Hm]. apply Hm. by left.
Qed.

Lemma collect_cuts_sorted r cuts : StronglySorted lt cuts -> StronglySorted lt (re_collect_cuts r cuts).
Proof.
  revert cuts; induction r; intros cuts Hc; simpl; auto.
  by apply insert_cuts_spec.
Qed.

(** Where no boundary lies between two bytes, the derivatives agree. *)
Lemma derive_const_between r cuts lo b :
  lo <= b -> (forall c, c ∈ re_collect_cuts r cuts -> ~ (lo < c <= b)) ->
  re_derive r b = re_derive r lo.
Proof.
  intros Hlo.
  revert cuts; induction r as [| |c|l IHl r IHr|l IHl r IHr|l IHl r IHr|r IHr|r IHr];
    intros cuts Hcut; cbn [re_derive]; try done; simpl in Hcut.
  2-4: rewrite (IHr _ Hcut), (IHl cuts) by (intros; by apply Hcut, collect_cuts_mono); done.
  2-3: by rewrite (IHr _ Hcut).
  assert (bc_contains c b = bc_contains c lo) as ->; [|done].
  apply eq_true_iff_eq. rewrite !bc_contains_spec.
  assert (Hr : forall r, r ∈ bc_ranges c -> ~ (lo < r.1 <= b) /\ ~ (lo < r.2 + 1 <= b)).
  { intros r Hr. pose proof (insert_cuts_spec (bc_ranges c) cuts) as [_ Hm].
    split; apply Hcut, Hm; right; exists r; auto. }
  split; intros (r & Hin & Hb); exists r; (split; [done|]); specialize (Hr r Hin); lia.
Qed.

Lemma cut_windows_elem s lo hi :
  StronglySorted lt s -> (lo, hi) ∈ cut_windows s ->
  lo ∈ s /\ lo <= hi <= 255 /\ (forall c, c ∈ s -> ~ (lo < c <= hi)).
Proof.
  intros Hs; revert lo hi; induction Hs as [|x s Hs IH Hx]; intros lo hi; simpl;
    [by rewrite elem_of_nil|].
  destruct s as [|h s]; [by rewrite elem_of_nil|].
  inversion Hx as [|?? Hxh Hxs]; subst.
  assert (Hrest : (lo, hi) ∈ cut_windows (h :: s) ->
    lo ∈ x :: h :: s /\ lo <= hi <= 255 /\ (forall c, c ∈ x :: h :: s -> ~ (lo < c <= hi))).
  { intros Hin. apply IH in Hin as (Hlo & Hle & Hc). split; [by right|]. split; [done|].
    intros c Hin'. apply elem_of_cons in Hin' as [->|Hin']; [|by apply Hc].
    rewrite Forall_forall in Hx. specialize (Hx _ Hlo). lia. }
  destruct ((x <=? h - 1) && (x <=? 255)) eqn:Etest; [|exact Hrest].
  rewrite elem_of_cons. intros [[= -> ->]|Hin]; [|by apply Hrest].
  rewrite andb_true_iff, !Nat.leb_le in Etest. split; [left|]. split; [lia|].
  intros c Hin. apply elem_of_cons in Hin as [->|Hin]; [lia|].
  apply elem_of_cons in Hin as [->|Hin]; [lia|].
  inversion Hs as [|?? _ Hh]; subst. rewrite Forall_forall in Hh. specialize (Hh _ Hin). lia.
Qed.

Lemma cut_windows_cover s x b :
  StronglySorted lt (x :: s) -> x <= b <= 255 -> 256 ∈ x :: s ->
  exists r, r ∈ cut_windows (x :: s) /\ r.1 <= b <= r.2.
Proof.
  revert x; induction s as [|h s IH]; intros x Hs Hb H256.
  - apply list_elem_of_singleton in H256. lia.
  - inversion Hs as [|?? Hs' Hx]; subst. inversion Hx as [|?? Hxh _]; subst.
    cbn [cut_windows]. destruct (decide (b < h)) as [Hlt|Hge].
    + exists (x, Nat.min (h - 1) 255).
      replace ((x <=? h - 1) && (x <=? 255)) with true.
      2: { symmetry. rewrite andb_true_iff, !Nat.leb_le. lia. }
      split; [left|]. simpl. lia.
    + destruct (IH h) as (r & Hr & Hrb); [done|lia| |].
      { apply elem_of_cons in H256 as [?|?]; [lia|done]. }
      exists r. split; [|done]. destruct (_ && _); [by right|done].
Qed.

Lemma initial_cuts_spec r :
  let s := re_collect_cuts r (nset_insert 256 (nset_insert 0 [])) in
  StronglySorted lt s /\ 0 ∈ s /\ 256 ∈ s.
Proof.
  simpl. split; [|split].
  - apply collect_cuts_sorted. repeat constructor.
  - apply collect_cuts_mono. left.
  - apply collect_cuts_mono. right. left.
Qed.

Lemma derivative_classes_cover r b :
  b <= 255 -> exists c, c ∈ re_derivative_classes r /\ c.1 <= b <= c.2.
Proof.
  intros Hb. unfold re_derivative_classes. pose proof (initial_cuts_spec r) as (Hs & H0 & H256).
  simpl in Hs, H0, H256 |- *. destruct (re_collect_cuts _ _) as [|x s]; [by apply elem_of_nil in H0|].
  apply cut_windows_cover; [done| |done].
  inversion Hs as [|?? _ Hx]; subst. apply elem_of_cons in H0 as [<-|H0]; [lia|].
  rewrite Forall_forall in Hx. specialize (Hx _ H0). lia.
Qed.

Lemma derivative_classes_const r lo hi b :
  (lo, hi) ∈ re_derivative_classes r -> lo <= b <= hi ->
  hi <= 255 /\ re_derive r b = re_derive r lo.
Proof.
  intros Hin Hb. unfold re_derivative_classes in Hin.
  pose proof (initial_cuts_spec r) as (Hs & _ & _).
  apply cut_windows_elem in Hin as (_ & Hle & Hcut); [|done]. split; [lia|].
  eapply derive_const_between; [lia|]. intros c Hc ?. apply (Hcut c Hc). lia.
Qed.

(** The language restricted to what is used of it: the empty language has no
    word, so stopping at [ReEmpty] loses nothing. *)
Lemma re_matches_lang r w : re_matches r w = true <-> re_lang r w.
Proof.
  revert r; induction w as [|b w IH]; intros r; simpl; [apply re_nullable_lang|].
  rewrite <-re_derive_lang, <-IH. destruct (re_derive r b); try done.
  destruct w; done.
Qed.

(** ** Theorems *)

(** Regexes whose classes are canonical stay so under derivatives. *)
Lemma re_then_ok l r : re_ok l -> re_ok r -> re_ok (re_then l r).
Proof. destruct l, r; simpl; tauto. Qed.
Lemma re_or_ok l r : re_ok l -> re_ok r -> re_ok (re_or l r).
Proof.
  intros Hl Hr. unfold re_or. destruct l, r; try done; case_decide; try done;
    destruct (re_le _ _); simpl in *; tauto.
Qed.
Lemma re_and_ok l r : re_ok l -> re_ok r -> re_ok (re_and l r).
Proof.
  intros Hl Hr. unfold re_and. destruct l, r; try done; case_decide; try done;
    destruct (re_le _ _); simpl in *; tauto.
Qed.
Lemma re_not_ok r : re_ok r -> re_ok (re_not r).
Proof. destruct r; simpl; tauto. Qed.

Create HintDb regex.
#[export] Hint Resolve re_then_ok re_or_ok re_and_ok re_not_ok : regex.

Lemma re_derive_ok r b : re_ok r -> re_ok (re_derive r b).
Proof.
  induction r; cbn [re_derive re_ok]; intros Hr; try done; try (destruct Hr);
    repeat case_match; auto 6 with regex; done.
Qed.

(** C40: a byte class is canonical by construction, so equality of classes is
    equality of the sets of bytes they accept: [from_ranges] turns any list of
    byte ranges into a canonical class that accepts exactly the bytes of the
    list, [complement] turns a canonical class into the canonical class of the
    other bytes, two canonical classes are equal exactly when they accept the
    same bytes, and derivatives only ever hold canonical classes. *)
Theorem byte_class_canonical (rs : ranges) (c d : ByteClass) (r : Re) (b : nat) :
  Forall (fun p => p.2 <= 255) rs -> bc_ok c -> bc_ok d -> re_ok r ->
  bc_ok (bc_from_ranges rs) /\
  bc_contains (bc_from_ranges rs) b = any (in_range b) rs /\
  bc_ok (bc_complement c) /\
  (b <= 255 -> bc_contains (bc_complement c) b = negb (bc_contains c b)) /\
  (c = d <-> forall x, bc_contains c x = bc_contains d x) /\
  re_ok (re_derive r b).
Proof.
  intros Hrs Hc Hd Hr. pose proof (bc_normalize_spec rs Hrs) as [Hok Hcov].
  assert (Hcc : canonical_from 0 (bc_ranges c)) by done.
  pose proof (complement_from_spec 0 (bc_ranges c) Hcc ltac:(lia)) as [Hok' Hcov'].
  split_and!; [done| |done| | |by apply re_derive_ok].
  - apply eq_true_iff_eq. unfold bc_from_ranges. rewrite Hcov, any_true. unfold covers.
    by setoid_rewrite in_range_spec.
  - intros Hb. apply eq_true_iff_eq. unfold bc_complement. rewrite negb_true_iff.
    rewrite covers_contains, Hcov' by done. rewrite <-covers_contains.
    destruct c as [crs]. simpl. rewrite not_true_iff_false. split; [tauto|]. intros; split; [lia|done].
  - split; [by intros ->|]. intros Heq. destruct c as [crs], d as [drs].
    f_equal. eapply canonical_unique; [exact Hc|exact Hd|]. intros x. by rewrite Heq.
Qed.

Lemma byte_class_canonical_witness :
  bc_contains (bc_from_ranges [(5, 9); (1, 3); (4, 6); (9, 2)]) 4 = true /\
  bc_contains (bc_complement (bc_range 4 9)) 4 = false.
Proof.
  pose proof (byte_class_canonical [(5, 9); (1, 3); (4, 6); (9, 2)] (bc_range 4 9) bc_full
    (re_byte 4) 4) as H.
  destruct H as (_ & -> & _ & Hc & _).
  - repeat constructor; simpl; lia.
  - unfold bc_ok; simpl; lia.
  - unfold bc_ok; simpl; lia.
  - simpl. unfold bc_ok; simpl; lia.
  - split; [reflexivity|]. rewrite Hc; [reflexivity|lia].
Defined.

(** The streaming matcher decides the language: iterating the normalised
    derivative and stopping early at the empty regex accepts exactly the words
    of the regex, intersection and complement included. *)
Theorem derivative_matcher_decides r w :
  re_matches r w = true <-> re_lang r w.
Proof. apply re_matches_lang. Qed.
