(* ===== verification/Automata.v ===== *)
(** * Automata and their construction (dfa/src/compiler.rs, derivative.rs)

    The flat-table automaton of compiler.rs with its four ways of running it,
    and the worklist that builds one, shared by every construction of the
    crate: allocate the dead state 0 and the start state 1, then pop a state,
    compute the key of its successor for each byte (or class of bytes), give a
    new key the next identifier, and fill the row.  [re_compile] is the
    derivative compiler; the eager constructions are in Nfa.v and the router's
    product in Router.v.

    A row is described by its [cells], triples of the first and last byte of a
    stretch of the row and the key reached there ([None] for a cell set to the
    dead state without consulting the map).  [None] of a construction is a
    panic (an index outside a table) or exhausted fuel; the theorems show which
    inputs need how much.  State identifiers are [nat]: the code's [u32] wraps
    only on a table of 2^32 rows. *)

From S2P Require Import Prelude.
From S2P Require Import Regex.
From stdpp Require Import list sorting.
From Stdlib Require Import Lia.

#[local] Open Scope nat_scope.

(** ** The automaton *)

Definition DEAD_STATE : nat := 0.

(** [accepting] is the ascending list of a [BTreeSet]. *)
Record Dfa := {
  dfa_num_states : nat;
  dfa_transitions : list nat;
  dfa_start : nat;
  dfa_accepting : list nat;
}.

Definition nmem (x : nat) (l : list nat) : bool := any (Nat.eqb x) l.

Fixpoint dfa_matches_from (d : Dfa) (state : nat) (input : word) : bool :=
  match input with
  | [] => nmem state (dfa_accepting d)
  | byte :: rest =>
    match dfa_transitions d !! (state * 256 + byte) with
    | None => false
    | Some next => if next =? DEAD_STATE then false else dfa_matches_from d next rest
    end
  end.

Definition dfa_matches (d : Dfa) (input : word) : bool :=
  dfa_matches_from d (dfa_start d) input.

Fixpoint dfa_run_from (d : Dfa) (state : nat) (input : word) : nat :=
  match input with
  | [] => state
  | byte :: rest =>
    match dfa_transitions d !! (state * 256 + byte) with
    | None => DEAD_STATE
    | Some next => if next =? DEAD_STATE then DEAD_STATE else dfa_run_from d next rest
    end
  end.

Definition dfa_run (d : Dfa) (input : word) : nat := dfa_run_from d (dfa_start d) input.

(** [i] is the position in the input, [longest] the best accept so far. *)
Fixpoint longest_match_from (d : Dfa) (state i : nat) (longest : option nat) (input : word)
  : nat * option nat :=
  match input with
  | [] => (state, longest)
  | byte :: rest =>
    match dfa_transitions d !! (state * 256 + byte) with
    | None => (DEAD_STATE, longest)
    | Some next =>
      if next =? DEAD_STATE then (DEAD_STATE, longest)
      else longest_match_from d next (i + 1)
             (if nmem next (dfa_accepting d) then Some (i + 1) else longest) rest
    end
  end.

Definition dfa_run_with_longest_match (d : Dfa) (input : word) : nat * option nat :=
  let longest := if nmem (dfa_start d) (dfa_accepting d) then Some 0 else None in
  longest_match_from d (dfa_start d) 0 longest input.

Record Transition := { tr_state : nat; tr_byte : nat; tr_next : nat }.

Fixpoint dfa_trace_from (d : Dfa) (state : nat) (input : word) : list Transition :=
  match input with
  | [] => []
  | byte :: rest =>
    let next := default DEAD_STATE (dfa_transitions d !! (state * 256 + byte)) in
    {| tr_state := state; tr_byte := byte; tr_next := next |} :: dfa_trace_from d next rest
  end.

Definition dfa_trace (d : Dfa) (input : word) : list Transition :=
  dfa_trace_from d (dfa_start d) input.

Definition dfa_table_size_bytes (d : Dfa) : nat := length (dfa_transitions d) * 4.

(** ** The worklist *)

(** [map.get(&k)]; an insertion is pushed at the front and shadows. *)
Fixpoint assoc_get {K V} `{EqDecision K} (k : K) (m : list (K * V)) : option V :=
  match m with
  | [] => None
  | (k', v) :: m' => if decide (k' = k) then Some v else assoc_get k m'
  end.

(** A cell of a row: first byte, last byte, key reached. *)
Definition cell K : Type := nat * nat * option K.

(** The variables of a construction.  [b_tags] holds what is recorded for an
    accepting state, in the order of allocation. *)
Record Builder (K T : Type) := {
  b_order : list K;
  b_map : list (K * nat);
  b_trans : list nat;
  b_tags : list (nat * T);
  b_work : list nat;
}.
Arguments b_order {K T} _.
Arguments b_map {K T} _.
Arguments b_trans {K T} _.
Arguments b_tags {K T} _.
Arguments b_work {K T} _.

Definition tag_entry {T} (id : nat) (o : option T) : list (nat * T) :=
  match o with Some t => [(id, t)] | None => [] end.

(** [repeat_n(DEAD_STATE, 256)]: the row a new state starts with. *)
Definition dead_row : list nat := replicate 256 DEAD_STATE.
Arguments dead_row : simpl never.

(** The loop [for b in lo..=hi { transitions[base + b] = id }]. *)
Definition fill_row (tr : list nat) (base lo hi id : nat) : list nat :=
  foldl (fun tr b => <[base + b := id]> tr) tr (seq lo (hi + 1 - lo)).

Section Worklist.
Context {K T : Type} `{EqDecision K}.
Context (cells : K -> option (list (cell K))) (tag : K -> option T).

Definition builder_init (dead start : K) : Builder K T := {|
  b_order := [dead; start];
  b_map := [(start, 1); (dead, DEAD_STATE)];
  b_trans := dead_row ++ dead_row;
  b_tags := tag_entry 1 (tag start);
  b_work := [1];
|}.

(** Look the key up, or allocate a state for it. *)
Definition builder_intern (k : K) (st : Builder K T) : Builder K T * nat :=
  match assoc_get k (b_map st) with
  | Some id => (st, id)
  | None =>
    let id := length (b_order st) in
    ({| b_order := b_order st ++ [k];
        b_map := (k, id) :: b_map st;
        b_trans := b_trans st ++ dead_row;
        b_tags := b_tags st ++ tag_entry id (tag k);
        b_work := b_work st ++ [id] |}, id)
  end.

Definition builder_cell (cur : nat) (st : Builder K T) (c : cell K) : Builder K T :=
  let '(lo, hi, next) := c in
  let '(st, id) :=
    match next with
    | None => (st, DEAD_STATE)
    | Some k => builder_intern k st
    end in
  {| b_order := b_order st;
     b_map := b_map st;
     b_trans := fill_row (b_trans st) (cur * 256) lo hi id;
     b_tags := b_tags st;
     b_work := b_work st |}.

Definition builder_pop (st : Builder K T) (w : list nat) : Builder K T :=
  {| b_order := b_order st; b_map := b_map st; b_trans := b_trans st;
     b_tags := b_tags st; b_work := w |}.

(** [while let Some(cur) = worklist.pop_front() { ... }] *)
Fixpoint explore (fuel : nat) (st : Builder K T) : option (Builder K T) :=
  match b_work st with
  | [] => Some st
  | cur :: w =>
    match fuel with
    | O => None
    | S fuel' =>
      match b_order st !! cur ≫= cells with
      | None => None
      | Some cs => explore fuel' (foldl (builder_cell cur) (builder_pop st w) cs)
      end
    end
  end.
End Worklist.

(** [low..=high], and the loop over every byte that asks for each successor. *)
Definition byte_seq (low high : nat) : list nat := seq low (high + 1 - low).
Definition all_bytes : list nat := byte_seq 0 255.

Definition row_cells {K} (next : nat -> option (option K)) : option (list (cell K)) :=
  mapM (fun b => k ← next b; Some (b, b, k)) all_bytes.

(** The automaton a finished builder describes. *)
Definition builder_dfa {K T} (st : Builder K T) : Dfa := {|
  dfa_num_states := length (b_order st);
  dfa_transitions := b_trans st;
  dfa_start := 1;
  dfa_accepting := (b_tags st).*1;
|}.

(** ** The derivative compiler *)

Definition re_cells (language_empty : bool) (r : Re) : option (list (cell Re)) :=
  match r with
  | ReEmpty => Some []
  | _ => if language_empty then Some []
         else Some ((fun '(lo, hi) => (lo, hi, Some (re_derive r lo))) <$> re_derivative_classes r)
  end.

Definition re_tag (r : Re) : option unit := if re_nullable r then Some tt else None.

(** [Re::compile].  On the empty language the start state is a placeholder that
    is neither expanded nor accepting. *)
Definition re_compile (fuel : nat) (r : Re) : option Dfa :=
  let language_empty := bool_decide (r = ReEmpty) in
  let st :=
    if language_empty then
      {| b_order := [ReEmpty; ReStar ReEmpty];
         b_map := [(ReEmpty, 1); (ReEmpty, DEAD_STATE)];
         b_trans := dead_row ++ dead_row;
         b_tags := [];
         b_work := [1] |}
    else builder_init re_tag ReEmpty r in
  st' ← explore (re_cells language_empty) re_tag fuel st;
  Some (builder_dfa st').

(** ** The worklist: lemmas *)

Lemma nmem_spec x l : nmem x l = true <-> x ∈ l.
Proof.
  unfold nmem. rewrite any_true. setoid_rewrite Nat.eqb_eq. naive_solver.
Qed.

Lemma length_dead_row : length dead_row = 256.
Proof. apply length_replicate. Qed.

Lemma length_fill_row tr base lo hi id : length (fill_row tr base lo hi id) = length tr.
Proof.
  unfold fill_row. revert tr. induction (seq _ _) as [|b l IH]; intros tr; simpl; [done|].
  by rewrite IH, length_insert.
Qed.

Lemma fill_row_lookup tr base lo hi id j :
  base + hi < length tr ->
  fill_row tr base lo hi id !! j =
    if decide (base + lo <= j <= base + hi) then Some id else tr !! j.
Proof.
  intros Hlen. unfold fill_row.
  assert (Hgen : forall n lo tr, base + (lo + n) <= length tr ->
    foldl (fun tr b => <[base + b := id]> tr) tr (seq lo n) !! j =
    if decide (base + lo <= j < base + (lo + n)) then Some id else tr !! j).
  { clear. induction n as [|n IH]; intros lo tr Hlen; simpl.
    - by rewrite decide_False by lia.
    - rewrite IH by (rewrite length_insert; lia). case_decide; case_decide; try lia; [done| |].
      + replace j with (base + lo) by lia. apply list_lookup_insert_eq. lia.
      + by rewrite list_lookup_insert_ne by lia. }
  destruct (decide (lo <= hi)).
  - rewrite Hgen by lia. repeat case_decide; try done; lia.
  - replace (hi + 1 - lo) with 0 by lia. simpl. by rewrite decide_False by lia.
Qed.

(** What a construction is of: an abstract transition function on keys, where
    [None] is the dead key.  The reachable keys are [good]; the row of a good
    key covers the alphabet and agrees with the function. *)
Section WorklistProofs.
Context {K T : Type} `{EqDecision K}.
Context (cells : K -> option (list (cell K))) (tag : K -> option T).
Context (dead start : K) (step : K -> nat -> option K) (good : K -> Prop).

Definition resolve (next : option K) : option K :=
  k ← next; if decide (k = dead) then None else Some k.

Record row_ok (k : K) (cs : list (cell K)) : Prop := {
  row_cover : forall b, b <= 255 -> exists lo hi next, (lo, hi, next) ∈ cs /\ lo <= b <= hi;
  row_step : forall lo hi next b, (lo, hi, next) ∈ cs -> lo <= b <= hi -> resolve next = step k b;
  row_width : forall lo hi next, (lo, hi, next) ∈ cs -> hi <= 255;
  row_good : forall lo hi k', (lo, hi, Some k') ∈ cs -> k' <> dead -> good k';
  row_dead : forall lo hi next, (lo, hi, next) ∈ cs -> start <> dead \/ next <> Some dead;
}.

Context (good_start : good start).
Context (good_row : forall k, good k -> exists cs, cells k = Some cs /\ row_ok k cs).

(** State [j] of the table stands for the key [o]. *)
Definition stands_for (order : list K) (o : option K) (j : nat) : Prop :=
  match o with
  | None => j = DEAD_STATE
  | Some k => 1 <= j /\ order !! j = Some k
  end.

(** The bookkeeping: the map is the inverse of the numbering, tags follow the
    keys, and the worklist is the tail of the numbering from [p] on. *)
Record core_ok (p : nat) (st : Builder K T) : Prop := {
  co_start : b_order st !! 1 = Some start;
  co_map : forall k i, assoc_get k (b_map st) = Some i ->
    (i = 0 /\ k = dead /\ start <> dead) \/ (1 <= i /\ b_order st !! i = Some k);
  co_map_inv : forall i k, 1 <= i -> b_order st !! i = Some k -> assoc_get k (b_map st) = Some i;
  co_dead : start <> dead -> assoc_get dead (b_map st) = Some 0;
  co_good : forall i k, 1 <= i -> b_order st !! i = Some k -> good k;
  co_len : length (b_trans st) = 256 * length (b_order st);
  co_tags : forall i t, (i, t) ∈ b_tags st <->
    1 <= i /\ exists k, b_order st !! i = Some k /\ tag k = Some t;
  co_sorted : StronglySorted lt (b_tags st).*1;
  co_bounds : 1 <= p <= length (b_order st);
  co_work : b_work st = seq p (length (b_order st) - p);
}.

Definition row_done (st : Builder K T) (i b : nat) : Prop :=
  exists k j, b_order st !! i = Some k /\ b_trans st !! (i * 256 + b) = Some j /\
    stands_for (b_order st) (step k b) j.

Definition rows_done (p : nat) (st : Builder K T) : Prop :=
  (forall b, b <= 255 -> b_trans st !! b = Some DEAD_STATE) /\
  (forall i b, 1 <= i < p -> b <= 255 -> row_done st i b).

(** Every row but [cur] is as it was. *)
Definition keeps_rows (cur : nat) (st st' : Builder K T) : Prop :=
  forall i b j, i <> cur -> b <= 255 ->
    b_trans st !! (i * 256 + b) = Some j -> b_trans st' !! (i * 256 + b) = Some j.

(** One state is an extension of another: same numbering, longer. *)
Definition extends (st st' : Builder K T) : Prop := b_order st `prefix_of` b_order st'.

Lemma extends_refl st : extends st st.
Proof. exists []. by rewrite app_nil_r. Qed.

Lemma stands_for_mono order order' o j :
  order `prefix_of` order' -> stands_for order o j -> stands_for order' o j.
Proof.
  intros [l ->]. destruct o as [k|]; simpl; [|done]. intros [? ?]. split; [done|].
  by apply lookup_app_l_Some.
Qed.

Lemma row_done_mono st st' i b :
  extends st st' ->
  (forall j, b_trans st !! (i * 256 + b) = Some j -> b_trans st' !! (i * 256 + b) = Some j) ->
  row_done st i b -> row_done st' i b.
Proof.
  intros Hext Htr (k & j & Hk & Hj & Hst). exists k, j. split; [|split; [by apply Htr|]].
  - destruct Hext as [l ->]. by apply lookup_app_l_Some.
  - by eapply stands_for_mono.
Qed.

Lemma builder_init_ok : core_ok 1 (builder_init tag dead start).
Proof.
  split; simpl; try done.
  - intros k i. case_decide; [intros [= <-]; right; subst; auto|].
    case_decide; [|done]. intros [= <-]. left. subst. auto.
  - intros i k Hi Hk. destruct i as [|[|i]]; [lia| |done].
    simpl in Hk. injection Hk as ->. by rewrite decide_True.
  - intros Hne. rewrite decide_False by done. by rewrite decide_True.
  - intros i k Hi Hk. destruct i as [|[|i]]; [lia| |done]. simpl in Hk. by injection Hk as <-.
  - intros i t. unfold tag_entry. destruct (tag start) as [t0|] eqn:E.
    + rewrite list_elem_of_singleton. split.
      * intros [= -> ->]. split; [lia|]. by exists start.
      * intros (Hi & k & Hk & Ht). destruct i as [|[|i]]; [lia| |done].
        simpl in Hk. injection Hk as <-. congruence.
    + rewrite elem_of_nil. split; [done|]. intros (Hi & k & Hk & Ht).
      destruct i as [|[|i]]; [lia| |done]. simpl in Hk. injection Hk as <-. congruence.
  - unfold tag_entry. destruct (tag start); repeat constructor.
  - lia.
Qed.

Lemma builder_intern_ok p k st st' id :
  core_ok p st -> (k <> dead -> good k) -> start <> dead \/ k <> dead ->
  builder_intern tag k st = (st', id) ->
  core_ok p st' /\ extends st st' /\ stands_for (b_order st') (resolve (Some k)) id /\
  b_trans st `prefix_of` b_trans st'.
Proof.
  intros Hc Hg Hd. unfold builder_intern, resolve, extends. cbn [mbind option_bind].
  destruct (assoc_get k (b_map st)) as [i|] eqn:Emap.
  - intros [= <- <-]. split; [done|]. split; [done|]. split; [|done].
    destruct (co_map p st Hc _ _ Emap) as [(-> & -> & Hne)|[Hi Hk]].
    + by rewrite decide_True.
    + case_decide as E; [|done]. exfalso. subst k.
      destruct Hd as [Hd|Hd]; [|done]. rewrite (co_dead p st Hc Hd) in Emap.
      injection Emap as <-. lia.
  - intros [= <- <-].
    assert (Hkd : k <> dead).
    { intros ->. destruct Hd as [Hd|Hd]; [|done]. by rewrite (co_dead p st Hc Hd) in Emap. }
    pose proof (co_bounds p st Hc) as Hp. pose proof (co_len p st Hc) as Hlen.
    set (n := length (b_order st)) in *.
    assert (Hlook : forall i k', (b_order st ++ [k]) !! i = Some k' ->
      b_order st !! i = Some k' \/ (i = n /\ k' = k)).
    { intros i k' Hi. apply lookup_app_Some in Hi as [?|[Hge Hi]]; [by left|].
      right. fold n in Hge, Hi. apply list_lookup_singleton_Some in Hi as [Hi <-]. split; [lia|done]. }
    assert (Hnew : (b_order st ++ [k]) !! n = Some k).
    { apply lookup_app_Some. right. split; [done|]. fold n. by rewrite Nat.sub_diag. }
    split; [|split; [by eexists|split; [|by eexists]]].
    2: { rewrite decide_False by done. simpl. split; [lia|done]. }
    split; cbn [b_order b_map b_trans b_tags b_work assoc_get].
    + by apply lookup_app_l_Some, (co_start p st Hc).
    + intros k' i. case_decide as E; [intros [= <-]; subst; right; split; [lia|done]|].
      intros Hi. destruct (co_map p st Hc _ _ Hi) as [?|[? ?]]; [by left|].
      right. split; [done|]. by apply lookup_app_l_Some.
    + intros i k' Hi Hk. apply Hlook in Hk as [Hk|[-> ->]].
      * case_decide as E; [|by apply (co_map_inv p st Hc)]. subst k'.
        apply (co_map_inv p st Hc) in Hk; [|done]. congruence.
      * by rewrite decide_True.
    + intros Hne. rewrite decide_False by done. by apply (co_dead p st Hc).
    + intros i k' Hi Hk. apply Hlook in Hk as [Hk|[-> ->]]; [by eapply (co_good p st Hc)|by apply Hg].
    + rewrite !length_app, length_dead_row, Hlen. simpl. fold n. lia.
    + intros i t. rewrite elem_of_app, (co_tags p st Hc). split.
      * intros [(? & k' & ? & ?)|Ht].
        -- split; [done|]. exists k'. split; [by apply lookup_app_l_Some|done].
        -- unfold tag_entry in Ht. destruct (tag k) as [t0|] eqn:Et; [|by apply elem_of_nil in Ht].
           apply list_elem_of_singleton in Ht as [= -> ->]. split; [lia|]. by exists k.
      * intros (Hi & k' & Hk & Ht). apply Hlook in Hk as [Hk|[-> ->]]; [left; eauto|].
        right. unfold tag_entry. rewrite Ht. by apply list_elem_of_singleton.
    + rewrite fmap_app. unfold tag_entry.
      destruct (tag k); [|by rewrite app_nil_r; apply (co_sorted p st Hc)].
      apply StronglySorted_app_2; [|apply (co_sorted p st Hc)|repeat constructor].
      intros x y Hx Hy. apply list_elem_of_fmap in Hx as ([x' t'] & -> & Hx).
      apply (co_tags p st Hc) in Hx as (_ & k' & Hk' & _). apply lookup_lt_Some in Hk'.
      apply list_elem_of_singleton in Hy. simpl in *. lia.
    + rewrite length_app. simpl. fold n. lia.
    + rewrite (co_work p st Hc), length_app. simpl. fold n.
      replace (n + 1 - p) with (S (n - p)) by lia. rewrite seq_S. f_equal. f_equal. lia.
Qed.

(** Filling part of the row [cur] keeps the bookkeeping and every other row. *)
Lemma builder_cell_ok p cur k cs c st :
  row_ok k cs -> c ∈ cs -> core_ok p st -> cur < length (b_order st) ->
  let st' := builder_cell tag cur st c in
  core_ok p st' /\ extends st st' /\
  keeps_rows cur st st' /\
  (forall b, b <= 255 -> b_order st !! cur = Some k ->
     row_done st cur b \/ c.1.1 <= b <= c.1.2 -> row_done st' cur b).
Proof.
  intros Hrow Hin Hc Hcur. destruct c as [[lo hi] next]. simpl.
  set (res := match next with None => (st, DEAD_STATE) | Some k => builder_intern tag k st end).
  destruct res as [st1 id] eqn:Eres.
  assert (H1 : core_ok p st1 /\ extends st st1 /\ stands_for (b_order st1) (resolve next) id /\
    b_trans st `prefix_of` b_trans st1).
  { subst res. destruct next as [k'|].
    - eapply builder_intern_ok; [exact Hc| | |exact Eres].
      + by eapply row_good.
      + destruct (row_dead _ _ Hrow _ _ _ Hin) as [?|Hne]; [by left|]. right. congruence.
    - injection Eres as <- <-. split; [exact Hc|]. split; [apply extends_refl|]. split; [done|]. by exists []; rewrite app_nil_r. }
  clear res Eres. destruct H1 as (Hc1 & Hext & Hid & Htr).
  pose proof (row_width _ _ Hrow _ _ _ Hin) as Hhi.
  assert (Hcur1 : cur < length (b_order st1)).
  { destruct Hext as [l ->]. rewrite length_app. lia. }
  assert (Hlen : cur * 256 + hi < length (b_trans st1)).
  { rewrite (co_len _ _ Hc1). nia. }
  assert (Hkeep : forall i b, row_done st i b -> row_done st1 i b).
  { intros i b. apply row_done_mono; [done|]. intros j Hj.
    destruct Htr as [l ->]. by apply lookup_app_l_Some. }
  split; [|split; [done|split]].
  - destruct Hc1. split; simpl; try done. by rewrite length_fill_row.
  - intros i b j Hi Hb Hj. simpl. rewrite fill_row_lookup by done.
    rewrite decide_False; [destruct Htr as [l ->]; by apply lookup_app_l_Some|].
    intros ?. apply Hi. nia.
  - intros b Hb Hk Hor. unfold row_done. simpl. rewrite fill_row_lookup by done.
    assert (Hk1 : b_order st1 !! cur = Some k).
    { destruct Hext as [l ->]. by apply lookup_app_l_Some. }
    case_decide as Hin'.
    + exists k, id. split; [done|]. split; [done|].
      by rewrite <-(row_step _ _ Hrow lo hi next b) by (done || lia).
    + destruct Hor as [Hdone|?]; [|lia].
      apply Hkeep in Hdone as (k0 & j & ? & ? & ?). by exists k0, j.
Qed.

Lemma builder_row_ok p cur k cs seen st :
  row_ok k cs -> seen ⊆ cs -> core_ok p st -> b_order st !! cur = Some k ->
  let st' := foldl (builder_cell tag cur) st seen in
  core_ok p st' /\ extends st st' /\
  keeps_rows cur st st' /\
  (forall b, b <= 255 -> row_done st cur b \/ (exists c, c ∈ seen /\ c.1.1 <= b <= c.1.2) ->
     row_done st' cur b).
Proof.
  intros Hrow. revert st; induction seen as [|c seen IH]; intros st Hsub Hc Hcur; simpl.
  - split; [done|]. split; [apply extends_refl|]. split; [by intros i b j|].
    intros b _ [?|(c & Hin & _)]; [done|]. by apply elem_of_nil in Hin.
  - destruct (builder_cell_ok p cur k cs c st) as (Hc1 & Hext & Hother & Hrow1); [done| |done| |].
    { apply Hsub. left. }
    { by apply lookup_lt_Some in Hcur. }
    destruct (IH (builder_cell tag cur st c)) as (Hc2 & Hext2 & Hother2 & Hrow2).
    { intros x Hx. apply Hsub. by right. }
    { done. }
    { destruct Hext as [l ->]. by apply lookup_app_l_Some. }
    split; [done|]. split; [unfold extends in *; by etrans|].
    split; [by intros i b j Hi Hb Hj; apply Hother2, Hother|].
    intros b Hb Hor. apply Hrow2; [done|].
    destruct Hor as [?|(c' & Hin & Hcov)]; [left; by apply Hrow1; auto|].
    apply elem_of_cons in Hin as [->|Hin]; [left; by apply Hrow1; auto|right; eauto].
Qed.

(** One turn of the loop: the next row is complete. *)
Lemma builder_turn_ok p st w k cs :
  core_ok p st -> rows_done p st -> b_work st = p :: w ->
  b_order st !! p = Some k -> row_ok k cs ->
  let st' := foldl (builder_cell tag p) (builder_pop st w) cs in
  core_ok (S p) st' /\ rows_done (S p) st' /\ extends st st'.
Proof.
  intros Hc Hrows Hw Hk Hrow.
  assert (Hc0 : core_ok (S p) (builder_pop st w)).
  { pose proof (lookup_lt_Some _ _ _ Hk) as Hp. pose proof (co_work _ _ Hc) as Hwk.
    destruct Hc. split; simpl; try done; [lia|].
    rewrite Hw in Hwk. replace (length (b_order st) - p) with (S (length (b_order st) - S p)) in Hwk by lia.
    simpl in Hwk. congruence. }
  destruct (builder_row_ok (S p) p k cs cs (builder_pop st w)) as (Hc1 & Hext & Hother & Hrow1); [done..|].
  pose proof (co_bounds _ _ Hc) as Hp.
  split; [done|]. split; [split|done].
  { intros b Hb. apply (Hother 0 b); [lia|done|]. by apply Hrows. }
  intros i b Hi Hb. destruct (decide (i = p)) as [->|Hne].
  - apply Hrow1; [done|]. right.
    destruct (row_cover _ _ Hrow b Hb) as (lo & hi & next & Hin & Hcov). by exists (lo, hi, next).
  - eapply row_done_mono; [exact Hext| |apply Hrows; [|exact Hb]; lia].
    intros j Hj. by apply Hother.
Qed.

Definition finished (st : Builder K T) : Prop :=
  core_ok (length (b_order st)) st /\ rows_done (length (b_order st)) st.

Lemma work_cases p st :
  core_ok p st ->
  (b_work st = [] /\ p = length (b_order st)) \/
  (exists k, b_work st = p :: seq (S p) (length (b_order st) - S p) /\ b_order st !! p = Some k /\ good k).
Proof.
  intros Hc. pose proof (co_bounds _ _ Hc). rewrite (co_work _ _ Hc).
  destruct (decide (p = length (b_order st))) as [E|E].
  - left. split; [|done]. by replace (length (b_order st) - p) with 0 by lia.
  - right. destruct (lookup_lt_is_Some_2 (b_order st) p) as [k Hk]; [lia|].
    exists k. split; [|split; [done|by eapply (co_good _ _ Hc); [|exact Hk]; lia]].
    by replace (length (b_order st) - p) with (S (length (b_order st) - S p)) by lia.
Qed.

Lemma explore_finished fuel p st st' :
  core_ok p st -> rows_done p st -> explore cells tag fuel st = Some st' -> finished st'.
Proof.
  revert p st; induction fuel as [|fuel IH]; intros p st Hc Hrows;
    (destruct (work_cases p st Hc) as [[Hw Hp]|(k & Hw & Hk & Hg)]; simpl; rewrite Hw).
  - intros [= <-]. by subst p.
  - done.
  - intros [= <-]. by subst p.
  - rewrite Hk. simpl. destruct (good_row k Hg) as (cs & -> & Hrow).
    destruct (builder_turn_ok p st _ k cs Hc Hrows Hw Hk Hrow) as (Hc' & Hrows' & _).
    by apply IH with (p := S p).
Qed.

(** If the good keys all come from one list, its length is enough fuel. *)
Lemma explore_returns (L : list K) fuel p st :
  (forall k, good k -> k ∈ L) ->
  core_ok p st -> rows_done p st -> length L + 1 - p <= fuel ->
  is_Some (explore cells tag fuel st).
Proof.
  intros HL. revert p st; induction fuel as [|fuel IH]; intros p st Hc Hrows Hfuel;
    (destruct (work_cases p st Hc) as [[Hw Hp]|(k & Hw & Hk & Hg)]; simpl; rewrite Hw;
     [by eexists|]).
  - exfalso. assert (Hnd : NoDup (drop 1 (b_order st))).
    { apply NoDup_alt. intros i j x Hi Hj. rewrite !lookup_drop in *.
      apply (co_map_inv _ _ Hc) in Hi; [|lia]. apply (co_map_inv _ _ Hc) in Hj; [|lia].
      rewrite Hi in Hj. injection Hj as Hj. lia. }
    assert (Hincl : drop 1 (b_order st) ⊆ L).
    { intros x Hx. apply list_elem_of_lookup in Hx as [i Hi]. rewrite lookup_drop in Hi.
      apply HL. eapply (co_good _ _ Hc); [|exact Hi]. lia. }
    apply NoDup_submseteq in Hincl; [|done]. apply submseteq_length in Hincl.
    rewrite length_drop in Hincl. apply lookup_lt_Some in Hk. lia.
  - rewrite Hk. simpl. destruct (good_row k Hg) as (cs & -> & Hrow).
    destruct (builder_turn_ok p st _ k cs Hc Hrows Hw Hk Hrow) as (Hc' & Hrows' & _).
    apply IH with (p := S p); [done..|lia].
Qed.

Lemma builder_init_rows : rows_done 1 (builder_init tag dead start).
Proof.
  split; [|lia]. intros b Hb. apply (lookup_app_l_Some dead_row), lookup_replicate_2. lia.
Qed.

(** The run of the abstract function. *)
Fixpoint key_run (k : K) (w : word) : option K :=
  match w with
  | [] => Some k
  | b :: w' => match step k b with Some k' => key_run k' w' | None => None end
  end.

Lemma key_run_app k u v :
  key_run k (u ++ v) = (k' ← key_run k u; key_run k' v).
Proof.
  revert k; induction u as [|b u IH]; intros k; simpl; [done|].
  destruct (step k b); simpl; [apply IH|done].
Qed.

Section Finished.
Context (st : Builder K T) (Hfin : finished st).

Lemma finished_step i k b :
  b <= 255 -> 1 <= i -> b_order st !! i = Some k ->
  exists j, b_trans st !! (i * 256 + b) = Some j /\ stands_for (b_order st) (step k b) j.
Proof.
  intros Hb Hi Hk. destruct Hfin as [_ [_ Hrows]].
  destruct (Hrows i b) as (k' & j & Hk' & Hj & Hst); [|done|].
  - split; [done|]. by apply lookup_lt_Some in Hk.
  - rewrite Hk in Hk'. injection Hk' as <-. by exists j.
Qed.

(** The table runs as the abstract function does. *)
Lemma finished_run w i k :
  Forall (fun b => b <= 255) w -> 1 <= i -> b_order st !! i = Some k ->
  stands_for (b_order st) (key_run k w) (dfa_run_from (builder_dfa st) i w).
Proof.
  intros Hw; revert i k; induction Hw as [|b w Hb Hw IH]; intros i k Hi Hk; simpl; [done|].
  destruct (finished_step i k b Hb Hi Hk) as (j & -> & Hst).
  destruct (step k b) as [k'|]; simpl in Hst.
  - destruct Hst as [Hj Hk']. destruct (Nat.eqb_spec j DEAD_STATE) as [E|E].
    + unfold DEAD_STATE in E. lia.
    + by apply IH.
  - by rewrite Hst.
Qed.

Lemma accepting_spec i k :
  1 <= i -> b_order st !! i = Some k ->
  (nmem i (dfa_accepting (builder_dfa st)) = true <-> is_Some (tag k)).
Proof.
  intros Hi Hk. rewrite nmem_spec. simpl. rewrite list_elem_of_fmap. destruct Hfin as [Hc _]. split.
  - intros ([i' t] & -> & Ht). apply (co_tags _ _ Hc) in Ht as (_ & k' & Hk' & Ht).
    simpl in Hk. rewrite Hk in Hk'. injection Hk' as ->. by exists t.
  - intros [t Ht]. exists (i, t). split; [done|]. apply (co_tags _ _ Hc). eauto.
Qed.

Lemma finished_start : b_order st !! 1 = Some start.
Proof. destruct Hfin as [Hc _]. apply (co_start _ _ Hc). Qed.
End Finished.
End WorklistProofs.

(** ** Well-formed automata *)

(** What every construction of the crate establishes and every consumer of a
    table relies on: the table is rectangular and its entries are states, the
    dead state is absorbing and never accepts, and the start state is not it. *)
Record dfa_ok (d : Dfa) : Prop := {
  ok_len : length (dfa_transitions d) = 256 * dfa_num_states d;
  ok_start : 1 <= dfa_start d < dfa_num_states d;
  ok_target : forall i j, dfa_transitions d !! i = Some j -> j < dfa_num_states d;
  ok_accepting : forall s, s ∈ dfa_accepting d -> 1 <= s < dfa_num_states d;
  ok_sorted : StronglySorted lt (dfa_accepting d);
  ok_dead : forall b, b <= 255 -> dfa_transitions d !! b = Some DEAD_STATE;
}.

Abbreviation is_word w := (Forall (fun b => b <= 255) w).

(** In a table whose dead state does not accept, matching is running. *)
Lemma matches_is_run d s w :
  (forall t, t ∈ dfa_accepting d -> 1 <= t) ->
  dfa_matches_from d s w = nmem (dfa_run_from d s w) (dfa_accepting d).
Proof.
  intros Hacc.
  assert (Hdead : nmem DEAD_STATE (dfa_accepting d) = false).
  { apply not_true_iff_false. rewrite nmem_spec. intros H. apply Hacc in H. unfold DEAD_STATE in H. lia. }
  revert s; induction w as [|b w IH]; intros s; simpl; [done|].
  destruct (_ !! _) as [j|]; [|done]. by destruct (j =? DEAD_STATE).
Qed.

Lemma dfa_run_app d s u v :
  dfa_run_from d s (u ++ v) =
    match u with
    | [] => dfa_run_from d s v
    | _ => let t := dfa_run_from d s u in
           if t =? DEAD_STATE then DEAD_STATE else dfa_run_from d t v
    end.
Proof.
  revert s; induction u as [|b u IH]; intros s; [done|]. simpl.
  destruct (_ !! _) as [j|]; [|done]. destruct (Nat.eqb_spec j DEAD_STATE) as [->|Hj]; [done|].
  rewrite IH. destruct u as [|c u]; [|done]. simpl.
  by destruct (Nat.eqb_spec j DEAD_STATE).
Qed.

Section Built.
Context {K T : Type} `{EqDecision K}.
Context (tag : K -> option T) (dead start : K) (step : K -> nat -> option K) (good : K -> Prop).
Context (st : Builder K T) (Hfin : finished tag dead start step good st).

Lemma stands_for_lt o j :
  stands_for (b_order st) o j -> j < length (b_order st).
Proof.
  pose proof (lookup_lt_Some _ _ _ (finished_start _ _ _ _ _ st Hfin)) as Hlt.
  destruct o; simpl; [|unfold DEAD_STATE; lia]. intros [_ ?]. by eapply lookup_lt_Some.
Qed.

Lemma built_ok : dfa_ok (builder_dfa st).
Proof.
  pose proof Hfin as [Hc [H0 Hrows]].
  pose proof (lookup_lt_Some _ _ _ (finished_start _ _ _ _ _ st Hfin)) as Hlt.
  split; simpl; [apply (co_len _ _ _ _ _ _ Hc)|lia| | |apply (co_sorted _ _ _ _ _ _ Hc)|done].
  - intros i j Hij. pose proof (lookup_lt_Some _ _ _ Hij) as Hi.
    rewrite (co_len _ _ _ _ _ _ Hc) in Hi.
    pose proof (Nat.div_mod_eq i 256) as Hdm. pose proof (Nat.mod_upper_bound i 256 ltac:(lia)) as Hm.
    set (q := i / 256) in *. set (b := i mod 256) in *. destruct (decide (q = 0)) as [Hq|Hq].
    + rewrite Hq in Hdm. replace i with b in Hij by lia. rewrite H0 in Hij by lia.
      injection Hij as <-. unfold DEAD_STATE. lia.
    + destruct (Hrows q b) as (k & j' & _ & Hj' & Hst); [lia|lia|].
      replace (q * 256 + b) with i in Hj' by lia. rewrite Hij in Hj'. injection Hj' as <-.
      by eapply stands_for_lt.
  - intros s Hs. apply list_elem_of_fmap in Hs as ([i t] & -> & Hs).
    apply (co_tags _ _ _ _ _ _ Hc) in Hs as (Hi & k & Hk & _). split; [done|].
    by eapply lookup_lt_Some.
Qed.

Lemma built_run w :
  is_word w -> stands_for (b_order st) (key_run step start w) (dfa_run (builder_dfa st) w).
Proof.
  intros Hw. eapply finished_run; [exact Hfin|exact Hw|simpl; lia|].
  by eapply finished_start.
Qed.

Lemma built_matches w :
  is_word w ->
  (dfa_matches (builder_dfa st) w = true <->
   exists k, key_run step start w = Some k /\ is_Some (tag k)).
Proof.
  intros Hw. unfold dfa_matches.
  rewrite matches_is_run by (intros t Ht; by apply (ok_accepting _ built_ok)).
  pose proof (built_run w Hw) as Hst. unfold dfa_run in Hst.
  destruct (key_run step start w) as [k|]; simpl in Hst.
  - destruct Hst as [Hj Hk]. rewrite (accepting_spec _ _ _ _ _ st Hfin _ k) by done. naive_solver.
  - simpl in *. rewrite Hst. split; [|naive_solver]. rewrite nmem_spec.
    intros Hd. apply (ok_accepting _ built_ok) in Hd. unfold DEAD_STATE in Hd. lia.
Qed.
End Built.

(** The keys a finished table numbers are closed under the transitions. *)
Lemma built_closed {K T} `{EqDecision K} (tag : K -> option T) dead start step good st k b k' :
  finished tag dead start step good st -> b <= 255 ->
  k ∈ drop 1 (b_order st) -> step k b = Some k' -> k' ∈ drop 1 (b_order st).
Proof.
  intros Hfin Hb Hk Hs. apply list_elem_of_lookup in Hk as [i Hi]. rewrite lookup_drop in Hi.
  destruct (finished_step _ _ _ _ _ st Hfin (1 + i) k b Hb ltac:(lia) Hi) as (j & _ & Hst).
  rewrite Hs in Hst. destruct Hst as [Hj Hk']. apply list_elem_of_lookup. exists (j - 1).
  rewrite lookup_drop. by replace (1 + (j - 1)) with j by lia.
Qed.

(** A whole construction, from the initial builder. *)
Lemma explore_init_finished {K T} `{EqDecision K} cells (tag : K -> option T) dead start step good fuel st :
  good start -> (forall k, good k -> exists cs, cells k = Some cs /\ row_ok dead start step good k cs) ->
  explore cells tag fuel (builder_init tag dead start) = Some st ->
  finished tag dead start step good st.
Proof.
  intros Hs Hrow. eapply explore_finished; [done|by apply builder_init_ok|by apply builder_init_rows].
Qed.

Lemma explore_init_returns {K T} `{EqDecision K} cells (tag : K -> option T) dead start step good L fuel :
  good start -> (forall k, good k -> exists cs, cells k = Some cs /\ row_ok dead start step good k cs) ->
  (forall k, good k -> k ∈ L) -> length L <= fuel ->
  is_Some (explore cells tag fuel (builder_init tag dead start)).
Proof.
  intros Hs Hrow HL Hfuel.
  eapply (explore_returns _ _ dead start step good Hrow L fuel 1);
    [done|by apply builder_init_ok|by apply builder_init_rows|lia].
Qed.

(** More fuel does not change a result. *)
Lemma explore_mono {K T} `{EqDecision K} cells (tag : K -> option T) fuel fuel' st st' :
  fuel <= fuel' -> explore cells tag fuel st = Some st' -> explore cells tag fuel' st = Some st'.
Proof.
  revert fuel' st; induction fuel as [|fuel IH]; intros fuel' st Hle; simpl.
  - destruct fuel'; simpl; by destruct (b_work st).
  - destruct fuel' as [|fuel']; [lia|]. simpl. destruct (b_work st) as [|cur w]; [done|].
    destruct (_ ≫= _); [|done]. apply IH. lia.
Qed.

(** ** Rows read byte by byte *)

Lemma elem_of_byte_seq lo hi b : b ∈ byte_seq lo hi <-> lo <= b <= hi.
Proof. unfold byte_seq. rewrite elem_of_seq. lia. Qed.

Lemma mapM_cells {K} (f : nat -> option (option K)) :
  (forall b, b <= 255 -> is_Some (f b)) ->
  exists cs, row_cells f = Some cs /\
    (forall lo hi next, (lo, hi, next) ∈ cs <-> lo = hi /\ lo <= 255 /\ f lo = Some next).
Proof.
  intros Hf. unfold row_cells, all_bytes.
  assert (Hgen : forall l, (forall b, b ∈ l -> b <= 255) ->
    exists cs, mapM (fun b => k ← f b; Some (b, b, k)) l = Some cs /\
    (forall lo hi next, (lo, hi, next) ∈ cs <-> lo = hi /\ lo ∈ l /\ f lo = Some next)).
  { induction l as [|b l IH]; intros Hl; cbn [mapM].
    - exists []. split; [done|]. setoid_rewrite elem_of_nil. naive_solver.
    - destruct IH as (cs & Hcs & Hin); [intros c Hc; apply Hl; by right|].
      destruct (Hf b) as [x Hx]; [apply Hl; left|].
      exists ((b, b, x) :: cs). split; [by rewrite Hx; cbn; rewrite Hcs|].
      intros lo hi next. rewrite !elem_of_cons, Hin. naive_solver. }
  destruct (Hgen (byte_seq 0 255)) as (cs & Hcs & Hin).
  - intros b Hb. apply elem_of_byte_seq in Hb. lia.
  - exists cs. split; [exact Hcs|]. intros lo hi next. rewrite Hin, elem_of_byte_seq.
    split; intros (-> & ? & ?); (split; [done|]); (split; [lia|done]).
Qed.

(** A row read byte by byte is a row of the step function it computes. *)
Lemma byte_row_ok {K} `{EqDecision K} (dead start : K) step (good : K -> Prop) k (f : nat -> option (option K)) :
  (forall b, b <= 255 -> f b = Some (step k b)) ->
  (forall b k', b <= 255 -> step k b = Some k' -> good k' /\ k' <> dead) ->
  exists cs, row_cells f = Some cs /\
    row_ok dead start step good k cs.
Proof.
  intros Hf Hg. destruct (mapM_cells f) as (cs & Hcs & Hin); [intros b Hb; rewrite Hf by done; eauto|].
  exists cs. split; [exact Hcs|].
  assert (Hin' : forall lo hi next, (lo, hi, next) ∈ cs <-> lo = hi /\ lo <= 255 /\ next = step k lo).
  { intros lo hi next. rewrite Hin. split; intros (-> & Hb & Hn); (split; [done|]); (split; [done|]);
      rewrite Hf in *; congruence. }
  split; setoid_rewrite Hin'.
  - intros b Hb. exists b, b, (step k b). split; [done|lia].
  - intros lo hi next b (-> & Hb & ->) Hbb. replace b with hi by lia. unfold resolve.
    destruct (step k hi) as [k'|] eqn:Es; simpl; [|done]. rewrite decide_False; [done|]. by eapply Hg.
  - intros lo hi next (-> & Hb & _). done.
  - intros lo hi k' (-> & Hb & Hk') _. by eapply Hg.
  - intros lo hi next (-> & Hb & ->). right. intros Hd. by eapply Hg in Hd as [_ ?].
Qed.

(** ** The derivative compiler: lemmas *)

Definition re_step (r : Re) (b : nat) : option Re :=
  let d := re_derive r b in if decide (d = ReEmpty) then None else Some d.

Lemma re_row_ok (P : Re -> Prop) start r :
  start <> ReEmpty -> r <> ReEmpty ->
  (forall b, b <= 255 -> re_derive r b <> ReEmpty -> P (re_derive r b)) ->
  exists cs, re_cells false r = Some cs /\ row_ok ReEmpty start re_step P r cs.
Proof.
  intros Hstart Hr HP.
  exists ((fun '(lo, hi) => (lo, hi, Some (re_derive r lo))) <$> re_derivative_classes r).
  split; [by destruct r|].
  assert (Hin : forall lo hi next,
    (lo, hi, next) ∈ ((fun '(lo, hi) => (lo, hi, Some (re_derive r lo))) <$> re_derivative_classes r) <->
    (lo, hi) ∈ re_derivative_classes r /\ next = Some (re_derive r lo)).
  { intros lo hi next. rewrite list_elem_of_fmap. split.
    - by intros ([lo' hi'] & [= -> -> ->] & ?).
    - intros [? ->]. by exists (lo, hi). }
  assert (Hle : forall lo hi, (lo, hi) ∈ re_derivative_classes r -> lo <= hi <= 255).
  { intros lo hi H. pose proof (initial_cuts_spec r) as (Hs & _ & _).
    by apply cut_windows_elem in H as (_ & ? & _). }
  split; setoid_rewrite Hin.
  - intros b Hb. destruct (derivative_classes_cover r b Hb) as ([lo hi] & Hc & ?). eauto 6.
  - intros lo hi next b [Hc ->] Hb. unfold re_step. simpl.
    by destruct (derivative_classes_const r lo hi b Hc Hb) as [_ ->].
  - intros lo hi next [Hc _]. apply Hle in Hc. lia.
  - intros lo hi k' [Hc [= ->]] Hne. apply HP; [|done]. apply Hle in Hc. lia.
  - by left.
Qed.

Lemma re_run_matches r w :
  (exists k, key_run re_step r w = Some k /\ is_Some (re_tag k)) <-> re_matches r w = true.
Proof.
  revert r; induction w as [|b w IH]; intros r; simpl.
  - unfold re_tag. split.
    + intros (k & [= <-] & [u Hu]). by destruct (re_nullable r).
    + intros Hn. exists r. rewrite Hn. eauto.
  - unfold re_step at 1. destruct (decide (re_derive r b = ReEmpty)) as [->|Hne].
    { split; [|done]. by intros (k & ? & _). }
    rewrite IH. by destruct (re_derive r b).
Qed.

Lemma no_accept_no_match d s w : dfa_accepting d = [] -> dfa_matches_from d s w = false.
Proof.
  intros Hacc. revert s; induction w as [|b w IH]; intros s; simpl; [by rewrite Hacc|].
  destruct (_ !! _) as [j|]; [|done]. by destruct (j =? DEAD_STATE).
Qed.

Lemma re_compile_empty fuel d :
  re_compile fuel ReEmpty = Some d ->
  dfa_ok d /\ forall w, dfa_matches d w = false.
Proof.
  unfold re_compile. rewrite bool_decide_eq_true_2 by done.
  destruct fuel as [|fuel]; [done|].
  assert (Hrun : explore (re_cells true) re_tag (S fuel)
    {| b_order := [ReEmpty; ReStar ReEmpty]; b_map := [(ReEmpty, 1); (ReEmpty, DEAD_STATE)];
       b_trans := dead_row ++ dead_row; b_tags := []; b_work := [1] |} =
    Some {| b_order := [ReEmpty; ReStar ReEmpty]; b_map := [(ReEmpty, 1); (ReEmpty, DEAD_STATE)];
       b_trans := dead_row ++ dead_row; b_tags := []; b_work := [] |}).
  { by destruct fuel. }
  rewrite Hrun. intros Hd.
  change (Some {| dfa_num_states := 2; dfa_transitions := dead_row ++ dead_row; dfa_start := 1;
                  dfa_accepting := [] |} = Some d) in Hd.
  apply (inj Some) in Hd as <-. clear Hrun. split.
  - split; cbn [dfa_num_states dfa_transitions dfa_start dfa_accepting].
    + reflexivity.
    + simpl. lia.
    + intros i j Hij. unfold dead_row in Hij. rewrite <-replicate_add in Hij.
      apply lookup_replicate in Hij as [-> _]. simpl. unfold DEAD_STATE. lia.
    + intros s Hs. by apply elem_of_nil in Hs.
    + constructor.
    + intros b Hb. apply (lookup_app_l_Some dead_row), lookup_replicate_2. lia.
  - intros w. by apply no_accept_no_match.
Qed.

Lemma re_compile_finished fuel r d :
  r <> ReEmpty -> re_compile fuel r = Some d ->
  exists st, finished re_tag ReEmpty r re_step (fun k => k <> ReEmpty) st /\ d = builder_dfa st.
Proof.
  intros Hr. unfold re_compile. rewrite bool_decide_eq_false_2 by done.
  destruct (explore _ _ _ _) as [st|] eqn:E; [|done]. intros [= <-]. exists st. split; [|done].
  eapply explore_init_finished; [done| |exact E].
  intros k Hk. apply re_row_ok; done.
Qed.

Lemma re_compile_spec fuel r d :
  re_compile fuel r = Some d ->
  dfa_ok d /\ forall w, is_word w -> dfa_matches d w = re_matches r w.
Proof.
  intros Hd. destruct (decide (r = ReEmpty)) as [->|Hr].
  - apply re_compile_empty in Hd as [Hok Hd]. split; [done|]. intros w Hw. rewrite Hd.
    symmetry. apply not_true_iff_false. rewrite re_matches_lang. simpl. tauto.
  - apply re_compile_finished in Hd as (st & Hfin & ->); [|done]. split; [by eapply built_ok|].
    intros w Hw. apply eq_true_iff_eq. rewrite (built_matches _ _ _ _ _ st Hfin w Hw).
    apply re_run_matches.
Qed.

(** A set of regexes closed under derivatives. *)
Definition derivative_closed (L : list Re) : Prop :=
  forall r b, r ∈ L -> b <= 255 -> re_derive r b ∈ L.

Lemma re_compile_returns L r fuel :
  r ∈ L -> derivative_closed L -> length L + 1 <= fuel -> is_Some (re_compile fuel r).
Proof.
  intros Hr HL Hfuel. unfold re_compile. destruct (decide (r = ReEmpty)) as [->|Hne].
  - rewrite bool_decide_eq_true_2 by done. destruct fuel as [|[|fuel]]; [lia| |]; simpl; by eexists.
  - rewrite bool_decide_eq_false_2 by done.
    edestruct (explore_init_returns (re_cells false) re_tag ReEmpty r re_step
      (fun k => k <> ReEmpty /\ k ∈ L) L fuel) as [st ->]; [done| |naive_solver|lia|by eexists].
    intros k [Hk HkL]. apply re_row_ok; [done..|]. intros b Hb Hd. split; [done|]. by apply HL.
Qed.

Lemma re_compile_closed fuel r d :
  re_compile fuel r = Some d -> exists L, r ∈ L /\ derivative_closed L.
Proof.
  intros Hd. destruct (decide (r = ReEmpty)) as [->|Hr].
  - exists [ReEmpty]. split; [left|]. intros r b Hr _. apply list_elem_of_singleton in Hr as ->. left.
  - apply re_compile_finished in Hd as (st & Hfin & _); [|done].
    exists (ReEmpty :: drop 1 (b_order st)). split.
    + right. apply list_elem_of_lookup. exists 0. rewrite lookup_drop.
      by eapply finished_start.
    + intros k b Hk Hb. apply elem_of_cons in Hk as [->|Hk]; [left|].
      destruct (decide (re_derive k b = ReEmpty)) as [->|Hne]; [left|]. right.
      eapply built_closed; [exact Hfin|exact Hb|exact Hk|]. unfold re_step. simpl.
      by rewrite decide_False.
Qed.

(** ** Where derivatives grow without bound

    The constructor [or] merges equal and commuted operands but does not
    reassociate, so the residuals of [any* any*] pile up one copy of [any*] per
    byte. *)

Definition any_star : Re := re_star re_any_byte.

Fixpoint residual (n : nat) : Re :=
  match n with
  | O => ReCat any_star any_star
  | S n' => ReAlt (residual n') any_star
  end.

Lemma any_star_derive b : b <= 255 -> re_derive any_star b = any_star.
Proof.
  intros Hb. unfold any_star. simpl.
  replace (bc_contains bc_full b) with true; [done|]. symmetry. apply bc_contains_spec.
  exists (0, 255). split; [left|simpl; lia].
Qed.

Lemma residual_cat n : exists l r, residual n = ReCat l r \/ residual n = ReAlt l r.
Proof. destruct n; simpl; eauto. Qed.

Lemma residual_or n : re_or (residual n) any_star = residual (S n).
Proof. destruct (residual_cat n) as (l & r & [E|E]); simpl; rewrite E; reflexivity. Qed.

Lemma residual_derive n b : b <= 255 -> re_derive (residual n) b = residual (S n).
Proof.
  intros Hb. induction n as [|n IH].
  - cbn [residual re_derive]. rewrite !any_star_derive by done. reflexivity.
  - cbn [residual re_derive] in *. rewrite IH, any_star_derive by done. apply (residual_or (S n)).
Qed.

Lemma residual_neg_derive n b : b <= 255 -> re_derive (ReNeg (residual n)) b = ReNeg (residual (S n)).
Proof. intros Hb. cbn [re_derive]. rewrite residual_derive by done. reflexivity. Qed.

Fixpoint re_size (r : Re) : nat :=
  match r with
  | ReCat l r | ReAlt l r | ReInter l r => S (re_size l + re_size r)
  | ReNeg r | ReStar r => S (re_size r)
  | _ => 1
  end.

Lemma residual_size_mono m n : m < n -> re_size (residual m) < re_size (residual n).
Proof. induction 1; simpl; lia. Qed.

Lemma residual_inj m n : residual m = residual n -> m = n.
Proof.
  intros E. destruct (lt_eq_lt_dec m n) as [[H|H]|H]; [|done|];
    apply residual_size_mono in H; rewrite E in H; lia.
Qed.

(** No finite set closed under derivatives holds an endless chain of distinct
    residuals. *)
Lemma chain_not_closed (f : nat -> Re) (L : list Re) :
  (forall n, re_derive (f n) 0 = f (S n)) -> (forall m n, f m = f n -> m = n) ->
  derivative_closed L -> f 0 ∉ L.
Proof.
  intros Hstep Hinj HL H0.
  assert (Hall : forall n, f n ∈ L).
  { induction n as [|n IH]; [done|]. rewrite <-Hstep. apply HL; [done|lia]. }
  assert (Hnd : NoDup (f <$> seq 0 (S (length L)))).
  { apply NoDup_fmap; [intros m n; apply Hinj|apply NoDup_seq]. }
  assert (Hsub : f <$> seq 0 (S (length L)) ⊆ L).
  { intros x Hx. apply list_elem_of_fmap in Hx as (n & -> & _). apply Hall. }
  apply NoDup_submseteq, submseteq_length in Hsub; [|done].
  rewrite length_fmap, length_seq in Hsub. lia.
Qed.

(** A residual that is reached on some input makes the compiler run forever. *)
Lemma closed_derives L r w :
  derivative_closed L -> r ∈ L -> is_word w -> foldl re_derive r w ∈ L.
Proof.
  intros HL Hr Hw. revert r Hr; induction Hw as [|b w Hb Hw IH]; intros r Hr; simpl; [done|].
  apply IH. by apply HL.
Qed.

Lemma re_compile_diverges r w :
  is_word w -> foldl re_derive r w = ReNeg (residual 0) -> forall fuel, re_compile fuel r = None.
Proof.
  intros Hw Hr fuel. destruct (re_compile fuel r) as [d|] eqn:E; [exfalso|done].
  apply re_compile_closed in E as (L & HrL & HL).
  apply (chain_not_closed (fun n => ReNeg (residual n)) L).
  - intros n. by apply residual_neg_derive; lia.
  - intros m n [= ?]. by apply residual_inj.
  - done.
  - rewrite <-Hr. by apply closed_derives.
Qed.

(** ** Theorems *)

(** C36: the table the derivative compiler emits refines the regex: it is
    well formed (rectangular, entries in range, an absorbing dead state that
    does not accept) and on every byte string the table accepts exactly the
    words of the regex's language, complement and intersection included. *)
Theorem derivative_compiler_refines (fuel : nat) (r : Re) (d : Dfa) :
  re_compile fuel r = Some d ->
  dfa_ok d /\ (forall w, is_word w -> dfa_matches d w = true <-> re_lang r w).
Proof.
  intros Hd. apply re_compile_spec in Hd as [Hok Hm]. split; [done|].
  intros w Hw. rewrite Hm by done. apply re_matches_lang.
Qed.

Lemma derivative_compiler_refines_witness :
  exists d, re_compile 8 (re_not (re_word [104; 105])) = Some d /\
    dfa_ok d /\
    (dfa_matches d [104] = true <-> re_lang (re_not (re_word [104; 105])) [104]) /\
    dfa_matches d [104; 105] = false.
Proof.
  destruct (re_compile 8 (re_not (re_word [104; 105]))) as [d|] eqn:E;
    [|by vm_compute in E].
  exists d. split; [done|]. destruct (derivative_compiler_refines _ _ _ E) as [Hok Hm].
  split; [done|]. split; [apply Hm; repeat constructor; lia|].
  apply not_true_iff_false. rewrite Hm by (repeat constructor; lia).
  rewrite <-re_matches_lang. by vm_compute.
Defined.

(** C37: the derivative compiler returns exactly on the regexes that have
    finitely many residuals: some amount of fuel suffices if and only if the
    regex belongs to a finite set closed under derivatives by bytes. *)
Theorem derivative_compiler_terminates_iff (r : Re) :
  (exists fuel, is_Some (re_compile fuel r)) <-> (exists L, r ∈ L /\ derivative_closed L).
Proof.
  split.
  - intros (fuel & d & Hd). by eapply re_compile_closed.
  - intros (L & Hr & HL). exists (length L + 1). by eapply re_compile_returns.
Qed.
