(* ===== verification/Nfa.v ===== *)
(** * Patterns and the eager compiler (dfa/src/compiler.rs)

    Thompson automata with their combinators, the subset construction, the
    product of two automata, the way back from a table to an automaton, and the
    two compilers of a [Pattern]: the eager one, and the lowering to a regex
    taken when the pattern contains a complement.

    An automaton's edges are labelled by [Some b] for a byte and [None] for an
    epsilon move.  [None] of a construction is a panic or exhausted fuel.  The
    correctness of these definitions is in NfaProofs.v and PatternProofs.v. *)

From S2P Require Import Prelude.
From S2P Require Import Regex Automata.
From stdpp Require Import list gmap sorting.
From Stdlib Require Import Lia.

#[local] Open Scope nat_scope.

(** ** Thompson automata *)

Record NfaState := {
  ns_bytes : gmap nat (list nat);
  ns_epsilon : list nat;
}.

Record Nfa := {
  nfa_states : list NfaState;
  nfa_start : nat;
  nfa_accept : nat;
}.

Definition empty_state : NfaState := {| ns_bytes := ∅; ns_epsilon := [] |}.

(** [states[s].epsilon.push(t)] *)
Definition push_eps (s t : nat) (states : list NfaState) : list NfaState :=
  alter (fun q => {| ns_bytes := ns_bytes q; ns_epsilon := ns_epsilon q ++ [t] |}) s states.

(** [states[s].byte_transitions.entry(b).or_default().push(t)] *)
Definition push_byte (s b t : nat) (states : list NfaState) : list NfaState :=
  alter (fun q => {| ns_bytes := <[b := default [] (ns_bytes q !! b) ++ [t]]> (ns_bytes q);
                     ns_epsilon := ns_epsilon q |}) s states.

(** [new_state]: the identifier is the old length. *)
Definition new_state (states : list NfaState) : list NfaState * nat :=
  (states ++ [empty_state], length states).

(** Two fresh states, the first the start and the second the accept. *)
Definition two_states : list NfaState * nat * nat :=
  let '(sts, s) := new_state [] in
  let '(sts, a) := new_state sts in
  (sts, s, a).

Definition nfa_empty : Nfa :=
  let '(sts, s, a) := two_states in
  {| nfa_states := push_eps s a sts; nfa_start := s; nfa_accept := a |}.

(** One byte out of a list: the loops of [single_byte], [byte_range] and the
    [Bit] pattern, which differ in the bytes they run over. *)
Definition nfa_of_bytes (bs : list nat) : Nfa :=
  let '(sts, s, a) := two_states in
  {| nfa_states := foldl (fun sts b => push_byte s b a sts) sts bs;
     nfa_start := s; nfa_accept := a |}.

Definition nfa_single_byte (b : nat) : Nfa := nfa_of_bytes [b].

Definition nfa_byte_range (low high : nat) : Nfa := nfa_of_bytes (byte_seq low high).

Definition shift_state (offset : nat) (q : NfaState) : NfaState := {|
  ns_bytes := fmap (M := gmap nat) (fmap (fun t => t + offset)) (ns_bytes q);
  ns_epsilon := (fun t => t + offset) <$> ns_epsilon q;
|}.

Definition nfa_concat (self other : Nfa) : Nfa :=
  let offset := length (nfa_states self) in
  let other_states := shift_state offset <$> nfa_states other in
  let other_start := nfa_start other + offset in
  let other_accept := nfa_accept other + offset in
  {| nfa_states := push_eps (nfa_accept self) other_start (nfa_states self) ++ other_states;
     nfa_start := nfa_start self;
     nfa_accept := other_accept |}.

Definition nfa_union (self other : Nfa) : Nfa :=
  let offset := length (nfa_states self) in
  let other_states := shift_state offset <$> nfa_states other in
  let other_start := nfa_start other + offset in
  let other_accept := nfa_accept other + offset in
  let sts := nfa_states self ++ other_states in
  let '(sts, new_start) := new_state sts in
  let '(sts, new_accept) := new_state sts in
  let sts := push_eps new_start (nfa_start self) sts in
  let sts := push_eps new_start other_start sts in
  let sts := push_eps (nfa_accept self) new_accept sts in
  let sts := push_eps other_accept new_accept sts in
  {| nfa_states := sts; nfa_start := new_start; nfa_accept := new_accept |}.

Definition nfa_star (self : Nfa) : Nfa :=
  let '(sts, new_start) := new_state (nfa_states self) in
  let '(sts, new_accept) := new_state sts in
  let sts := push_eps new_start (nfa_start self) sts in
  let sts := push_eps new_start new_accept sts in
  let sts := push_eps (nfa_accept self) (nfa_start self) sts in
  let sts := push_eps (nfa_accept self) new_accept sts in
  {| nfa_states := sts; nfa_start := new_start; nfa_accept := new_accept |}.

(** ** Subset construction

    A [BTreeSet] of states is its ascending list. *)

(** The inner loop: push every epsilon successor that was not in the closure. *)
Definition closure_push (acc : list nat * list nat) (e : nat) : list nat * list nat :=
  let '(closure, stack) := acc in
  if nmem e closure then (closure, stack) else (nset_insert e closure, e :: stack).

(** [stack] has its top first. *)
Fixpoint closure_loop (states : list NfaState) (fuel : nat) (closure stack : list nat)
  : option (list nat) :=
  match stack with
  | [] => Some closure
  | s :: rest =>
    match fuel with
    | O => None
    | S fuel' =>
      match states !! s with
      | None => None
      | Some q =>
        let '(closure, stack) := foldl closure_push (closure, rest) (ns_epsilon q) in
        closure_loop states fuel' closure stack
      end
    end
  end.

(** Every state enters the stack at most once, so as many turns as there are
    states are enough. *)
Definition nfa_epsilon_closure (n : Nfa) (states : list nat) : option (list nat) :=
  closure_loop (nfa_states n) (length (nfa_states n)) states (rev states).

(** The set of byte successors of a set of states. *)
Definition byte_targets (n : Nfa) (b : nat) (nfa_set : list nat) : option (list nat) :=
  foldl (fun acc s =>
    next ← acc;
    q ← nfa_states n !! s;
    Some (match ns_bytes q !! b with
          | Some targets => foldl (fun l t => nset_insert t l) next targets
          | None => next
          end)) (Some []) nfa_set.

Definition subset_next (n : Nfa) (nfa_set : list nat) (b : nat) : option (option (list nat)) :=
  next ← byte_targets n b nfa_set;
  closure ← nfa_epsilon_closure n next;
  Some (match closure with [] => None | _ => Some closure end).

Definition subset_cells (n : Nfa) (nfa_set : list nat) : option (list (cell (list nat))) :=
  row_cells (subset_next n nfa_set).

Definition subset_tag (n : Nfa) (nfa_set : list nat) : option unit :=
  if nmem (nfa_accept n) nfa_set then Some tt else None.

Definition nfa_determinize (fuel : nat) (n : Nfa) : option Dfa :=
  start_set ← nfa_epsilon_closure n (nset_insert (nfa_start n) []);
  st ← explore (subset_cells n) (subset_tag n) fuel (builder_init (subset_tag n) [] start_set);
  Some (builder_dfa st).

(** ** Product of two automata *)

(** A component's successor: the dead state stays dead. *)
Definition product_next (d : Dfa) (s b : nat) : option nat :=
  if s =? DEAD_STATE then Some DEAD_STATE else dfa_transitions d !! (s * 256 + b).

Definition product_pair (a b : Dfa) (pair : nat * nat) (byte : nat) : option (option (nat * nat)) :=
  na ← product_next a pair.1 byte;
  nb ← product_next b pair.2 byte;
  Some (if (na =? DEAD_STATE) || (nb =? DEAD_STATE) then None else Some (na, nb)).

Definition product_cells (a b : Dfa) (pair : nat * nat) : option (list (cell (nat * nat))) :=
  row_cells (product_pair a b pair).

Definition product_tag (a b : Dfa) (pair : nat * nat) : option unit :=
  if nmem pair.1 (dfa_accepting a) && nmem pair.2 (dfa_accepting b) then Some tt else None.

Definition dfa_intersection (fuel : nat) (a b : Dfa) : option Dfa :=
  st ← explore (product_cells a b) (product_tag a b) fuel
         (builder_init (product_tag a b) (DEAD_STATE, DEAD_STATE) (dfa_start a, dfa_start b));
  Some (builder_dfa st).

(** ** Back to an automaton *)

(** The byte edges of one state of the table. *)
Definition dfa_row_state (d : Dfa) (s : nat) : option NfaState :=
  foldl (fun acc b =>
    q ← acc;
    next ← dfa_transitions d !! (s * 256 + b);
    Some (if next =? DEAD_STATE then q
          else {| ns_bytes := <[b := default [] (ns_bytes q !! b) ++ [next]]> (ns_bytes q);
                  ns_epsilon := ns_epsilon q |})) (Some empty_state) all_bytes.

Definition dfa_to_nfa (d : Dfa) : option Nfa :=
  states ← mapM (dfa_row_state d) (seq 0 (dfa_num_states d));
  let '(states, new_accept) := new_state states in
  Some {| nfa_states := foldl (fun sts acc => push_eps acc new_accept sts) states (dfa_accepting d);
          nfa_start := dfa_start d;
          nfa_accept := new_accept |}.

(** ** Patterns *)

Inductive Pattern :=
| PWord (w : word)
| PRange (low high : nat)
| PAnyByte
| PBit (offset_byte bit_pos : nat) (value : bool)
| PSeq (parts : list Pattern)
| PAll (parts : list Pattern)
| PAny (parts : list Pattern)
| POffset (skip : nat) (inner : Pattern)
| PRepeat (inner : Pattern) (count : nat)
| PBytesAt (off : nat) (data : word)
| PPrefixOf (inner : Pattern)
| PNot (inner : Pattern).

(** [(byte >> bit_pos) & 1 == 1] on a [u8]: the shift amount is taken modulo
    the width (a build with overflow checks panics on an amount above 7). *)
Definition bit_set (b bit_pos : nat) : bool := Nat.testbit b (bit_pos mod 8).

(** The bytes the [Bit] pattern accepts. *)
Definition bit_bytes (bit_pos : nat) (value : bool) : list nat :=
  retain (fun b => Bool.eqb (bit_set b bit_pos) value) all_bytes.

Fixpoint needs_derivative (p : Pattern) : bool :=
  match p with
  | PNot _ => true
  | PSeq parts | PAll parts | PAny parts => existsb needs_derivative parts
  | POffset _ inner | PRepeat inner _ | PPrefixOf inner => needs_derivative inner
  | _ => false
  end.

(** [skip] arbitrary bytes. *)
Definition re_skip (n : nat) : Re :=
  Nat.iter n (fun re => re_then re re_any_byte) ReEpsilon.

Fixpoint to_re (p : Pattern) : Re :=
  match p with
  | PWord w => re_word w
  | PRange low high => re_range low high
  | PAnyByte => re_any_byte
  | PBit offset_byte bit_pos value =>
    let accepted := (fun b => (b, b)) <$> bit_bytes bit_pos value in
    re_then (re_skip offset_byte) (re_sym (bc_from_ranges accepted))
  | PSeq parts => foldl (fun re p => re_then re (to_re p)) ReEpsilon parts
  | PAny parts => foldl (fun re p => re_or re (to_re p)) ReEmpty parts
  | PAll parts =>
    match parts with
    | [] => ReEpsilon
    | first :: rest => foldl (fun re p => re_and re (to_re p)) (to_re first) rest
    end
  | POffset skip inner => re_then (re_skip skip) (to_re inner)
  | PRepeat inner count => Nat.iter count (fun re => re_then re (to_re inner)) ReEpsilon
  | PBytesAt off data => re_then (re_skip off) (re_word data)
  | PPrefixOf inner => re_prefix_of (to_re inner)
  | PNot inner => re_not (to_re inner)
  end.

(** [w[0]] and the loop over [&w[1..]]. *)
Definition nfa_word (w : word) : Nfa :=
  match w with
  | [] => nfa_empty
  | b :: w' => foldl (fun nfa b => nfa_concat nfa (nfa_single_byte b)) (nfa_single_byte b) w'
  end.

(** A chain of [n] arbitrary bytes. *)
Definition nfa_skip (n : nat) : Nfa :=
  match n with
  | O => nfa_empty
  | S n' => Nat.iter n' (fun chain => nfa_concat chain (nfa_byte_range 0 255)) (nfa_byte_range 0 255)
  end.

(** [Pattern::compile], given the automaton of the pattern. *)
Definition compile_with (fuel : nat) (p : Pattern) (nfa : option Nfa) : option Dfa :=
  if needs_derivative p then re_compile fuel (to_re p)
  else n ← nfa; nfa_determinize fuel n.

(** Fold a binary combinator over the automata of the parts. *)
Definition fold_parts (f : Nfa -> Nfa -> Nfa) (parts : list (option Nfa)) : option Nfa :=
  match parts with
  | [] => Some nfa_empty
  | first :: rest =>
    foldl (fun acc p => n ← acc; m ← p; Some (f n m)) first rest
  end.

Fixpoint pattern_to_nfa (fuel : nat) (p : Pattern) : option Nfa :=
  match p with
  | PWord w => Some (nfa_word w)
  | PRange low high => Some (nfa_byte_range low high)
  | PAnyByte => Some (nfa_byte_range 0 255)
  | PBit offset_byte bit_pos value =>
    let bit_nfa := nfa_of_bytes (bit_bytes bit_pos value) in
    Some (if 0 <? offset_byte then nfa_concat (nfa_skip offset_byte) bit_nfa else bit_nfa)
  | PSeq parts => fold_parts nfa_concat (map (pattern_to_nfa fuel) parts)
  | PAny parts => fold_parts nfa_union (map (pattern_to_nfa fuel) parts)
  | PAll parts =>
    match map (fun p => compile_with fuel p (pattern_to_nfa fuel p)) parts with
    | [] => Some nfa_empty
    | first :: rest =>
      result ← foldl (fun acc d => a ← acc; b ← d; dfa_intersection fuel a b) first rest;
      dfa_to_nfa result
    end
  | POffset skip inner =>
    n ← pattern_to_nfa fuel inner; Some (nfa_concat (nfa_skip skip) n)
  | PRepeat inner count =>
    match count with
    | O => Some nfa_empty
    | S count' =>
      n ← pattern_to_nfa fuel inner;
      Some (Nat.iter count' (fun nfa => nfa_concat nfa n) n)
    end
  | PBytesAt off data => Some (nfa_concat (nfa_skip off) (nfa_word data))
  | PPrefixOf inner =>
    n ← pattern_to_nfa fuel inner;
    Some (nfa_concat n (nfa_star (nfa_byte_range 0 255)))
  | PNot _ => None
  end.

Definition pattern_compile (fuel : nat) (p : Pattern) : option Dfa :=
  compile_with fuel p (pattern_to_nfa fuel p).
