(* ===== verification/NfaProofs.v ===== *)
(** * Thompson automata and the subset construction: proofs

    The language of an automaton is the set of labels of its paths from the
    start to the accept state.  Every combinator of Nfa.v denotes the operation
    it is named after, the epsilon closure is reachability, and the subset
    construction and the product return, on every well-formed input, a
    well-formed table of the right language. *)

From S2P Require Import Prelude.
From S2P Require Import Regex Automata Nfa.
From stdpp Require Import list gmap sorting.
From Stdlib Require Import Lia.

#[local] Open Scope nat_scope.

(** ** Edges and paths *)

Definition edge (sts : list NfaState) (s : nat) (l : option nat) (t : nat) : Prop :=
  exists q, sts !! s = Some q /\
    match l with
    | None => t ∈ ns_epsilon q
    | Some b => exists ts, ns_bytes q !! b = Some ts /\ t ∈ ts
    end.

(** A label in front of a word. *)
Definition lcons (l : option nat) (w : word) : word :=
  match l with Some b => b :: w | None => w end.

Inductive path (E : nat -> option nat -> nat -> Prop) : nat -> word -> nat -> Prop :=
| path_nil s : path E s [] s
| path_step s l t w u : E s l t -> path E t w u -> path E s (lcons l w) u.

Definition nfa_lang (n : Nfa) (w : word) : Prop :=
  path (edge (nfa_states n)) (nfa_start n) w (nfa_accept n).

Record nfa_ok (n : Nfa) : Prop := {
  nok_start : nfa_start n < length (nfa_states n);
  nok_accept : nfa_accept n < length (nfa_states n);
  nok_target : forall s l t, edge (nfa_states n) s l t -> t < length (nfa_states n);
}.

Lemma lcons_app l u v : lcons l (u ++ v) = lcons l u ++ v.
Proof. by destruct l. Qed.

Section Path.
Context (E : nat -> option nat -> nat -> Prop).

Lemma path_app s u t v r : path E s u t -> path E t v r -> path E s (u ++ v) r.
Proof.
  induction 1 as [|s l t' w u' Hst Hp IH]; intros Hv; [done|].
  rewrite <-lcons_app. econstructor; eauto.
Qed.

Lemma path_one s l t : E s l t -> path E s (lcons l []) t.
Proof. intros. econstructor; [done|constructor]. Qed.

Lemma path_eps s t w u : E s None t -> path E t w u -> path E s w u.
Proof. intros H1 H2. apply (path_step E s None t w u H1 H2). Qed.

Lemma path_byte s b t w u : E s (Some b) t -> path E t w u -> path E s (b :: w) u.
Proof. intros H1 H2. apply (path_step E s (Some b) t w u H1 H2). Qed.

Lemma path_map (F : nat -> option nat -> nat -> Prop) (f : nat -> nat) s w t :
  (forall s l t, E s l t -> F (f s) l (f t)) -> path E s w t -> path F (f s) w (f t).
Proof. intros Hf. induction 1; econstructor; eauto. Qed.

(** The first byte of a path: epsilon moves, then the byte, then the rest. *)
Lemma path_cons_inv s b w u :
  path E s (b :: w) u ->
  exists t t', path E s [] t /\ E t (Some b) t' /\ path E t' w u.
Proof.
  intros Hp. remember (b :: w) as bw eqn:Ew. induction Hp as [|s l t v u Hst Hp IH]; [done|].
  destruct l as [c|]; simpl in Ew.
  - injection Ew as -> ->. exists s, t. split; [constructor|]. done.
  - destruct (IH Ew) as (r & r' & ? & ? & ?). exists r, r'. split; [by eapply path_eps|done].
Qed.

Lemma path_nil_inv s u :
  path E s [] u -> s = u \/ exists t, E s None t /\ path E t [] u.
Proof.
  intros Hp. remember [] as w eqn:Ew. destruct Hp as [|s l t v u Hst Hp]; [by left|].
  destruct l; simpl in Ew; [done|]. right. subst v. eauto.
Qed.
End Path.

Lemma path_ext (E F : nat -> option nat -> nat -> Prop) s w t :
  (forall s l t, E s l t -> F s l t) -> path E s w t -> path F s w t.
Proof. intros H. apply (path_map E F id); done. Qed.

(** ** Edges of the list operations *)

Lemma length_push_eps s t sts : length (push_eps s t sts) = length sts.
Proof. apply length_alter. Qed.
Lemma length_push_byte s b t sts : length (push_byte s b t sts) = length sts.
Proof. apply length_alter. Qed.

Lemma edge_push_eps s0 t0 sts s l t :
  s0 < length sts ->
  (edge (push_eps s0 t0 sts) s l t <-> edge sts s l t \/ (s = s0 /\ l = None /\ t = t0)).
Proof.
  intros Hs0. unfold edge, push_eps. destruct (decide (s = s0)) as [->|Hne].
  - rewrite list_lookup_alter_eq. destruct (lookup_lt_is_Some_2 sts s0 Hs0) as [q ->]. simpl.
    split.
    + intros (q' & [= <-] & Hl). destruct l as [b|]; simpl in Hl; [eauto|].
      apply elem_of_app in Hl as [?|Hl]; [eauto|]. apply list_elem_of_singleton in Hl. eauto.
    + intros [(q' & [= <-] & Hl)|(_ & -> & ->)]; eexists; (split; [done|]); simpl.
      * destruct l; [done|]. apply elem_of_app. by left.
      * apply elem_of_app. right. by apply list_elem_of_singleton.
  - rewrite list_lookup_alter_ne by done. naive_solver.
Qed.

Lemma push_target_spec q b0 t0 b t :
  (exists ts, (<[b0 := default [] (ns_bytes q !! b0) ++ [t0]]> (ns_bytes q) : gmap nat (list nat)) !! b = Some ts /\ t ∈ ts) <->
  (exists ts, ns_bytes q !! b = Some ts /\ t ∈ ts) \/ (b = b0 /\ t = t0).
Proof.
  destruct (decide (b = b0)) as [->|Hb].
  - rewrite lookup_insert_eq. destruct (ns_bytes q !! b0) as [ts|]; simpl; split.
    + intros (? & [= <-] & Ht). apply elem_of_app in Ht as [?|Ht]; [eauto|].
      apply list_elem_of_singleton in Ht. auto.
    + intros [(? & [= <-] & Ht)|[_ ->]]; eexists; (split; [done|]); apply elem_of_app; [by left|].
      right. by apply list_elem_of_singleton.
    + intros (? & [= <-] & Ht). apply list_elem_of_singleton in Ht. auto.
    + intros [(? & ? & _)|[_ ->]]; [done|]. eexists. split; [done|]. by apply list_elem_of_singleton.
  - rewrite lookup_insert_ne by done. naive_solver.
Qed.

Lemma edge_push_byte s0 b0 t0 sts s l t :
  s0 < length sts ->
  (edge (push_byte s0 b0 t0 sts) s l t <-> edge sts s l t \/ (s = s0 /\ l = Some b0 /\ t = t0)).
Proof.
  intros Hs0. unfold edge, push_byte. destruct (decide (s = s0)) as [->|Hne].
  2: { rewrite list_lookup_alter_ne by done. naive_solver. }
  rewrite list_lookup_alter_eq. destruct (lookup_lt_is_Some_2 sts s0 Hs0) as [q ->]. simpl.
  pose proof (fun b => push_target_spec q b0 t0 b t) as Hb.
  destruct l as [b|].
  - split.
    + intros (q' & [= <-] & Hl). simpl in Hl. apply Hb in Hl as [?|[-> ->]]; eauto.
    + intros Hor. eexists. split; [done|]. simpl. apply Hb.
      destruct Hor as [(q' & [= <-] & Hl)|(_ & [= ->] & ->)]; auto.
  - split.
    + intros (q' & [= <-] & Hl). simpl in Hl. eauto.
    + intros [(q' & [= <-] & Hl)|(_ & [=] & _)]. eauto.
Qed.

Lemma edge_empty_state s l t sts n :
  sts !! s = None \/ sts !! s = Some empty_state -> n = s -> ~ edge sts n l t.
Proof.
  intros [H|H] -> (q & Hq & Hl); rewrite H in Hq; [done|]. injection Hq as <-.
  destruct l; simpl in Hl.
  - destruct Hl as (ts & Hts & _). by rewrite lookup_empty in Hts.
  - by apply elem_of_nil in Hl.
Qed.

Lemma edge_new sts s l t : edge (sts ++ [empty_state]) s l t <-> edge sts s l t.
Proof.
  unfold edge. split.
  - intros (q & Hq & Hl). apply lookup_app_Some in Hq as [?|[_ Hq]]; [eauto|exfalso].
    apply list_lookup_singleton_Some in Hq as [_ <-].
    destruct l; simpl in Hl; [|by apply elem_of_nil in Hl].
    destruct Hl as (ts & Hts & _). by rewrite lookup_empty in Hts.
  - intros (q & Hq & Hl). exists q. split; [by apply lookup_app_l_Some|done].
Qed.

Lemma edge_shift off q l t :
  match l with
  | None => t ∈ ns_epsilon (shift_state off q)
  | Some b => exists ts, ns_bytes (shift_state off q) !! b = Some ts /\ t ∈ ts
  end <->
  exists t', t = t' + off /\
    match l with None => t' ∈ ns_epsilon q | Some b => exists ts, ns_bytes q !! b = Some ts /\ t' ∈ ts end.
Proof.
  destruct l as [b|]; simpl.
  - rewrite lookup_fmap. destruct (ns_bytes q !! b) as [ts|]; simpl; [|naive_solver]. split.
    + intros (? & [= <-] & Ht). apply list_elem_of_fmap in Ht as (t' & -> & ?). eauto.
    + intros (t' & -> & ? & [= <-] & ?). eexists. split; [done|]. apply list_elem_of_fmap. eauto.
  - rewrite list_elem_of_fmap. naive_solver.
Qed.

Lemma edge_extend A B s l t :
  edge (A ++ (shift_state (length A) <$> B)) s l t <->
  edge A s l t \/ exists s' t', s = s' + length A /\ t = t' + length A /\ edge B s' l t'.
Proof.
  unfold edge. split.
  - intros (q & Hq & Hl). apply lookup_app_Some in Hq as [?|[Hge Hq]]; [eauto|].
    rewrite list_lookup_fmap in Hq. destruct (B !! (s - length A)) as [q'|] eqn:Eq; [|done].
    injection Hq as <-. apply edge_shift in Hl as (t' & -> & Hl).
    right. exists (s - length A), t'. split; [lia|]. eauto.
  - intros [(q & Hq & Hl)|(s' & t' & -> & -> & q & Hq & Hl)].
    + exists q. split; [by apply lookup_app_l_Some|done].
    + exists (shift_state (length A) q). split.
      * rewrite lookup_app_r by lia. rewrite list_lookup_fmap.
        replace (s' + length A - length A) with s' by lia. by rewrite Hq.
      * apply edge_shift. eauto.
Qed.

Lemma edge_source sts s l t : edge sts s l t -> s < length sts.
Proof. intros (q & Hq & _). by eapply lookup_lt_Some. Qed.

(** ** Combinators *)

Section Combinators.
Context (A B : Nfa) (HA : nfa_ok A) (HB : nfa_ok B).
Let off := length (nfa_states A).
Ltac off_lia := unfold off in *; lia.

Lemma edge_concat s l t :
  edge (nfa_states (nfa_concat A B)) s l t <->
  edge (nfa_states A) s l t \/ (s = nfa_accept A /\ l = None /\ t = nfa_start B + off) \/
  (exists s' t', s = s' + off /\ t = t' + off /\ edge (nfa_states B) s' l t').
Proof.
  simpl. rewrite <-(length_push_eps (nfa_accept A) (nfa_start B + length (nfa_states A))) at 2.
  rewrite edge_extend, edge_push_eps by apply (nok_accept A HA).
  rewrite length_push_eps. fold off. tauto.
Qed.

Lemma concat_ok : nfa_ok (nfa_concat A B).
Proof.
  assert (Hlen : length (nfa_states (nfa_concat A B)) = off + length (nfa_states B)).
  { simpl. by rewrite length_app, length_push_eps, length_fmap. }
  pose proof (nok_start A HA). pose proof (nok_start B HB). pose proof (nok_accept B HB).
  split; rewrite ?Hlen; simpl; [off_lia..|].
  intros s l t. rewrite edge_concat. intros [He|[(_ & _ & ->)|(s' & t' & _ & -> & He)]]; [|off_lia|].
  - apply (nok_target A HA) in He. off_lia.
  - apply (nok_target B HB) in He. off_lia.
Qed.

Lemma concat_path_inv s w u :
  path (edge (nfa_states (nfa_concat A B))) s w u -> u = nfa_accept B + off ->
  (forall s', s = s' + off -> path (edge (nfa_states B)) s' w (nfa_accept B)) /\
  (s < off -> exists w1 w2, w = w1 ++ w2 /\ path (edge (nfa_states A)) s w1 (nfa_accept A) /\ nfa_lang B w2).
Proof.
  induction 1 as [s|s l t w u Hst Hp IH]; intros ->.
  - split; [intros s' E; replace s' with (nfa_accept B) by lia; constructor|]. lia.
  - destruct (IH eq_refl) as [IHB IHA]. clear IH. apply edge_concat in Hst as [He|[(-> & -> & ->)|(s1 & t1 & -> & -> & He)]].
    + pose proof (edge_source _ _ _ _ He). pose proof (nok_target A HA _ _ _ He) as Ht. split; [off_lia|]. intros _.
      destruct (IHA Ht) as (w1 & w2 & -> & H1 & H2). exists (lcons l w1), w2.
      split; [apply lcons_app|]. split; [by econstructor|done].
    + pose proof (nok_accept A HA). split; [off_lia|]. intros _. exists [], w.
      split; [done|]. split; [constructor|]. by apply IHB.
    + split; [|off_lia]. intros s' E. replace s' with s1 by lia.
      econstructor; [done|]. by apply IHB.
Qed.

(** A path that ends in the first automaton never left it. *)
Lemma concat_path_left s w u :
  path (edge (nfa_states (nfa_concat A B))) s w u -> u < off ->
  s < off /\ path (edge (nfa_states A)) s w u.
Proof.
  induction 1 as [s|s l t w u Hst Hp IH]; intros Hu; [split; [done|constructor]|].
  destruct (IH Hu) as [Ht Hpt]. apply edge_concat in Hst as [He|[(_ & _ & ->)|(s1 & t1 & _ & -> & _)]]; [|lia|lia].
  split; [by apply edge_source in He|]. by econstructor.
Qed.

Lemma concat_lang w :
  nfa_lang (nfa_concat A B) w <-> exists u v, w = u ++ v /\ nfa_lang A u /\ nfa_lang B v.
Proof.
  split.
  - intros Hp. apply concat_path_inv in Hp as [_ HpA]; [|done]. apply HpA, (nok_start A HA).
  - intros (u & v & -> & Hu & Hv). unfold nfa_lang. simpl nfa_start. simpl nfa_accept.
    eapply path_app; [|eapply path_eps; [|eapply (path_map _ _ (fun s => s + off)); [|exact Hv]]].
    + eapply path_ext; [|exact Hu]. intros. apply edge_concat. by left.
    + apply edge_concat. auto.
    + intros. apply edge_concat. eauto 8.
Qed.

(** [new_start] and [new_accept] of [union]. *)
Let off2 := off + length (nfa_states B).
Ltac off_lia ::= unfold off2, off in *; lia.

Lemma edge_union s l t :
  edge (nfa_states (nfa_union A B)) s l t <->
  edge (nfa_states A) s l t \/
  (exists s' t', s = s' + off /\ t = t' + off /\ edge (nfa_states B) s' l t') \/
  (s = off2 /\ l = None /\ (t = nfa_start A \/ t = nfa_start B + off)) \/
  ((s = nfa_accept A \/ s = nfa_accept B + off) /\ l = None /\ t = off2 + 1).
Proof.
  pose proof (nok_accept A HA). pose proof (nok_accept B HB).
  set (base := nfa_states A ++ (shift_state (length (nfa_states A)) <$> nfa_states B)).
  assert (Hl1 : length base = off2) by (unfold base; by rewrite length_app, length_fmap).
  assert (Hl2 : length (base ++ [empty_state]) = off2 + 1) by (by rewrite length_app, Hl1).
  unfold nfa_union, new_state. cbn [nfa_states]. fold base. rewrite Hl1, Hl2.
  rewrite !edge_push_eps, !edge_new; rewrite ?length_push_eps, ?length_app, ?Hl1; cbn [length];
    try off_lia.
  unfold base. rewrite edge_extend.
  fold off. naive_solver.
Qed.

Lemma length_union : length (nfa_states (nfa_union A B)) = off2 + 2.
Proof.
  unfold nfa_union, new_state. cbn [nfa_states].
  rewrite !length_push_eps, !length_app, length_fmap. cbn [length]. off_lia.
Qed.

Lemma union_start : nfa_start (nfa_union A B) = off2.
Proof. simpl. by rewrite length_app, length_fmap. Qed.
Lemma union_accept : nfa_accept (nfa_union A B) = off2 + 1.
Proof. simpl. by rewrite !length_app, length_fmap. Qed.

Lemma union_ok : nfa_ok (nfa_union A B).
Proof.
  pose proof (nok_start A HA). pose proof (nok_start B HB).
  split; rewrite ?length_union, ?union_start, ?union_accept; [lia..|].
  intros s l t. rewrite edge_union.
  intros [He|[(s' & t' & _ & -> & He)|[(_ & _ & [->| ->])|(_ & _ & ->)]]]; try (off_lia).
  - apply (nok_target A HA) in He. off_lia.
  - apply (nok_target B HB) in He. off_lia.
Qed.

Lemma union_path_inv s w u :
  path (edge (nfa_states (nfa_union A B))) s w u -> u = off2 + 1 ->
  (s < off -> path (edge (nfa_states A)) s w (nfa_accept A)) /\
  (forall s', s = s' + off -> s' < length (nfa_states B) ->
     path (edge (nfa_states B)) s' w (nfa_accept B)) /\
  (s = off2 -> nfa_lang A w \/ nfa_lang B w) /\
  (s = off2 + 1 -> w = []).
Proof.
  pose proof (nok_start A HA). pose proof (nok_start B HB).
  pose proof (nok_accept A HA) as HaA. pose proof (nok_accept B HB) as HaB.
  induction 1 as [s|s l t w u Hst Hp IH]; intros ->.
  - split_and!; [off_lia|intros; off_lia|lia|done].
  - destruct (IH eq_refl) as (IHA & IHB & IHs & IHa). clear IH.
    apply edge_union in Hst as [He|[(s1 & t1 & -> & -> & He)|[(-> & -> & Ht)|(Hs & -> & ->)]]].
    + pose proof (edge_source _ _ _ _ He). pose proof (nok_target A HA _ _ _ He) as Ht.
      split_and!; try (off_lia). intros _. econstructor; [done|]. by apply IHA.
    + pose proof (edge_source _ _ _ _ He). pose proof (nok_target B HB _ _ _ He) as Ht.
      split_and!; try (off_lia). intros s' E _. replace s' with s1 by lia.
      econstructor; [done|]. by apply IHB.
    + split_and!; try (off_lia). intros _.
      destruct Ht as [->| ->]; [left; by apply IHA|right; by apply IHB].
    + rewrite (IHa eq_refl). split_and!; try (off_lia).
      * intros ?. destruct Hs as [->| ->]; [constructor|off_lia].
      * intros s' E ?. destruct Hs as [->| ->]; [off_lia|].
        replace s' with (nfa_accept B) by lia. constructor.
Qed.

Lemma union_lang w : nfa_lang (nfa_union A B) w <-> nfa_lang A w \/ nfa_lang B w.
Proof.
  unfold nfa_lang at 1. rewrite union_start, union_accept. split.
  - intros Hp. by apply union_path_inv in Hp as (_ & _ & Hs & _); [apply Hs|].
  - intros [Hp|Hp].
    + apply (path_eps _ _ (nfa_start A)); [apply edge_union; right; right; left; eauto|].
      rewrite <-(app_nil_r w). eapply path_app.
      * eapply path_ext; [|exact Hp]. intros. apply edge_union. by left.
      * eapply path_eps; [apply edge_union; right; right; right; eauto|]. constructor.
    + apply (path_eps _ _ (nfa_start B + off)); [apply edge_union; right; right; left; eauto|].
      rewrite <-(app_nil_r w). eapply path_app.
      * eapply (path_map _ _ (fun s => s + off)); [|exact Hp].
        intros. apply edge_union. right. left. eauto 6.
      * eapply path_eps; [apply edge_union; right; right; right; eauto|]. constructor.
Qed.

End Combinators.

Section Star.
Context (A : Nfa) (HA : nfa_ok A).
Let off := length (nfa_states A).
Ltac off_lia := unfold off in *; lia.

Lemma edge_star s l t :
  edge (nfa_states (nfa_star A)) s l t <->
  edge (nfa_states A) s l t \/
  ((s = off \/ s = nfa_accept A) /\ l = None /\ (t = nfa_start A \/ t = off + 1)).
Proof.
  pose proof (nok_accept A HA).
  unfold nfa_star, new_state. cbn [nfa_states].
  rewrite !edge_push_eps, !edge_new; rewrite ?length_push_eps, ?length_app; cbn [length];
    try (off_lia). fold off. naive_solver.
Qed.

Lemma star_ok : nfa_ok (nfa_star A).
Proof.
  assert (Hlen : length (nfa_states (nfa_star A)) = off + 2).
  { unfold nfa_star, new_state. cbn [nfa_states]. rewrite !length_push_eps, !length_app.
    cbn [length]. off_lia. }
  pose proof (nok_start A HA).
  split; rewrite ?Hlen; [simpl; off_lia|simpl; rewrite length_app; simpl; off_lia|].
  intros s l t. rewrite edge_star. intros [He|(_ & _ & [->| ->])]; try (off_lia).
  apply (nok_target A HA) in He. off_lia.
Qed.

Lemma star_path_inv s w u :
  path (edge (nfa_states (nfa_star A))) s w u -> u = off + 1 ->
  (s < off -> exists w1 ws, w = w1 ++ concat ws /\
     path (edge (nfa_states A)) s w1 (nfa_accept A) /\ Forall (nfa_lang A) ws) /\
  (s = off -> exists ws, w = concat ws /\ Forall (nfa_lang A) ws) /\
  (s = off + 1 -> w = []).
Proof.
  pose proof (nok_start A HA) as Hs. pose proof (nok_accept A HA) as Ha.
  induction 1 as [s|s l t w u Hst Hp IH]; intros ->.
  - split_and!; [lia|lia|done].
  - destruct (IH eq_refl) as (IHA & IHs & IHa). clear IH.
    apply edge_star in Hst as [He|(Hor & -> & Ht)].
    + pose proof (edge_source _ _ _ _ He). pose proof (nok_target A HA _ _ _ He) as Ht.
      split_and!; try (off_lia). intros _. destruct (IHA Ht) as (w1 & ws & -> & H1 & Hws).
      exists (lcons l w1), ws. split; [apply lcons_app|]. split; [by econstructor|done].
    + assert (Hws : exists ws, w = concat ws /\ Forall (nfa_lang A) ws).
      { destruct Ht as [->| ->]; [|exists []; by rewrite IHa].
        destruct (IHA Hs) as (w1 & ws & -> & H1 & Hws). exists (w1 :: ws). split; [done|]. by constructor. }
      split_and!; [|done|destruct Hor; off_lia].
      intros ?. destruct Hor as [->| ->]; [lia|]. destruct Hws as (ws & -> & Hws).
      exists [], ws. split; [done|]. split; [constructor|done].
Qed.

Lemma star_lang w :
  nfa_lang (nfa_star A) w <-> exists ws, w = concat ws /\ Forall (nfa_lang A) ws.
Proof.
  unfold nfa_lang at 1. simpl nfa_start. simpl nfa_accept. rewrite length_app. simpl length. split.
  - intros Hp. apply star_path_inv in Hp as (_ & Hs & _); [|done]. by apply Hs.
  - intros (ws & -> & Hws). fold off.
    assert (Hacc : forall s, s = off \/ s = nfa_accept A ->
      path (edge (nfa_states (nfa_star A))) s (concat ws) (off + 1)).
    { induction Hws as [|u ws Hu Hws IH]; intros s Hs; simpl.
      - apply (path_eps _ _ (off + 1)); [apply edge_star; right; eauto|constructor].
      - apply (path_eps _ _ (nfa_start A)); [apply edge_star; right; eauto|].
        eapply path_app; [|by apply IH; right]. eapply path_ext; [|exact Hu].
        intros. apply edge_star. by left. }
    apply Hacc. by left.
Qed.
End Star.

(** ** Base automata *)

Lemma edge_two_states s l t : ~ edge [empty_state; empty_state] s l t.
Proof.
  change [empty_state; empty_state] with (([] ++ [empty_state]) ++ [empty_state]).
  rewrite !edge_new. intros (q & Hq & _). by rewrite lookup_nil in Hq.
Qed.

Lemma edge_nfa_empty s l t : edge (nfa_states nfa_empty) s l t <-> s = 0 /\ l = None /\ t = 1.
Proof.
  change (nfa_states nfa_empty) with (push_eps 0 1 [empty_state; empty_state]).
  rewrite edge_push_eps by (simpl; lia). pose proof (edge_two_states s l t). tauto.
Qed.

Lemma nfa_empty_ok : nfa_ok nfa_empty.
Proof.
  split; [simpl; lia|simpl; lia|]. intros s l t. rewrite edge_nfa_empty. intros (_ & _ & ->). simpl. lia.
Qed.

Lemma nfa_empty_lang w : nfa_lang nfa_empty w <-> w = [].
Proof.
  unfold nfa_lang. simpl nfa_start. simpl nfa_accept. split.
  - intros Hp. inversion Hp as [|? l t w' u He Hp']; subst.
    apply edge_nfa_empty in He as (_ & -> & ->). inversion Hp' as [|? l t w'' u He _]; [done|]; subst.
    apply edge_nfa_empty in He as [? _]. done.
  - intros ->. eapply path_eps; [by apply edge_nfa_empty|constructor].
Qed.

Lemma edge_of_bytes bs s l t :
  edge (nfa_states (nfa_of_bytes bs)) s l t <-> s = 0 /\ t = 1 /\ exists b, b ∈ bs /\ l = Some b.
Proof.
  change (nfa_states (nfa_of_bytes bs)) with
    (foldl (fun sts b => push_byte 0 b 1 sts) [empty_state; empty_state] bs).
  assert (Hgen : forall sts, 0 < length sts ->
    (edge (foldl (fun sts b => push_byte 0 b 1 sts) sts bs) s l t <->
     edge sts s l t \/ s = 0 /\ t = 1 /\ exists b, b ∈ bs /\ l = Some b)).
  { induction bs as [|b bs IH]; intros sts Hlen; simpl.
    - setoid_rewrite elem_of_nil. naive_solver.
    - rewrite IH by (by rewrite length_push_byte). rewrite edge_push_byte by done.
      setoid_rewrite elem_of_cons. naive_solver. }
  rewrite Hgen by (simpl; lia). pose proof (edge_two_states s l t). tauto.
Qed.

Lemma length_of_bytes bs : length (nfa_states (nfa_of_bytes bs)) = 2.
Proof.
  simpl. generalize [empty_state; empty_state] (eq_refl : length [empty_state; empty_state] = 2).
  induction bs as [|b bs IH]; intros sts Hl; simpl; [done|]. apply IH. by rewrite length_push_byte.
Qed.

Lemma of_bytes_ok bs : nfa_ok (nfa_of_bytes bs).
Proof.
  split; rewrite length_of_bytes; [simpl; lia..|].
  intros s l t. rewrite edge_of_bytes. intros (_ & -> & _). lia.
Qed.

Lemma of_bytes_lang bs w : nfa_lang (nfa_of_bytes bs) w <-> exists b, b ∈ bs /\ w = [b].
Proof.
  unfold nfa_lang. simpl nfa_start. simpl nfa_accept. split.
  - intros Hp. inversion Hp as [|? l t w' u He Hp']; subst.
    apply edge_of_bytes in He as (_ & -> & b & Hb & ->).
    inversion Hp' as [|? l t w'' u He _]; [by eauto|]; subst.
    apply edge_of_bytes in He as [? _]. done.
  - intros (b & Hb & ->). eapply path_byte; [apply edge_of_bytes; eauto 6|constructor].
Qed.

(** ** Epsilon closure *)

Lemma closure_push_fold es C S C' S' :
  foldl closure_push (C, S) es = (C', S') -> StronglySorted lt C ->
  StronglySorted lt C' /\ (forall x, x ∈ C' <-> x ∈ C \/ x ∈ es) /\
  (forall x, x ∈ S' <-> x ∈ S \/ (x ∈ es /\ x ∉ C)) /\
  length C' + length S = length C + length S'.
Proof.
  revert C S; induction es as [|e es IH]; intros C S; simpl.
  - intros [= <- <-] HC. setoid_rewrite elem_of_nil. split_and!; [done|naive_solver..|lia].
  - destruct (nmem e C) eqn:Ee.
    + apply nmem_spec in Ee. intros Hf HC. destruct (IH _ _ Hf HC) as (H1 & H2 & H3 & H4).
      setoid_rewrite H2. setoid_rewrite H3. setoid_rewrite elem_of_cons. split_and!; [done|naive_solver..|done].
    + assert (He : e ∉ C) by (rewrite <-nmem_spec; congruence). intros Hf HC.
      destruct (IH _ _ Hf (nset_insert_sorted e C HC)) as (H1 & H2 & H3 & H4).
      setoid_rewrite H2. setoid_rewrite H3. setoid_rewrite elem_of_cons.
      setoid_rewrite elem_of_nset_insert. split_and!; [done|naive_solver| |].
      * intros x. destruct (decide (x = e)); naive_solver.
      * assert (length (nset_insert e C) = Datatypes.S (length C)) as Hlen; [|simpl in H4; lia].
        clear -He. induction C as [|c C IH]; simpl; [done|]. rewrite elem_of_cons in He.
        destruct (e <? c); [done|]. destruct (Nat.eqb_spec e c); [naive_solver|]. simpl. rewrite IH; naive_solver.
Qed.

Lemma sorted_bounded_length (l : list nat) n :
  StronglySorted lt l -> (forall x, x ∈ l -> x < n) -> length l <= n.
Proof.
  intros Hs Hb. assert (Hnd : NoDup l).
  { clear Hb. induction Hs as [|x l Hs IH Hx]; constructor; [|done].
    rewrite Forall_forall in Hx. intros Hin. specialize (Hx _ Hin). lia. }
  assert (Hsub : l ⊆ seq 0 n) by (intros x Hx; apply elem_of_seq; specialize (Hb x Hx); lia).
  apply NoDup_submseteq, submseteq_length in Hsub; [|done]. by rewrite length_seq in Hsub.
Qed.

(** What a closure computed from [C] is: closed under epsilon moves and
    reachable by them. *)
Record closure_of (sts : list NfaState) (C C' : list nat) : Prop := {
  cl_sorted : StronglySorted lt C';
  cl_incl : forall x, x ∈ C -> x ∈ C';
  cl_closed : forall x t, x ∈ C' -> edge sts x None t -> t ∈ C';
  cl_reach : forall t, t ∈ C' -> exists s, s ∈ C /\ path (edge sts) s [] t;
}.

Section Closure.
Context (sts : list NfaState).
Context (Hwf : forall s l t, edge sts s l t -> t < length sts).

Lemma closure_loop_spec fuel C S :
  StronglySorted lt C -> (forall x, x ∈ C -> x < length sts) -> (forall x, x ∈ S -> x ∈ C) ->
  (forall x t, x ∈ C -> x ∉ S -> edge sts x None t -> t ∈ C) ->
  length sts + length S <= fuel + length C ->
  exists C', closure_loop sts fuel C S = Some C' /\ closure_of sts C C'.
Proof.
  revert C S; induction fuel as [|fuel IH]; intros C S HC Hlt HS Hclosed Hfuel;
    (destruct S as [|s S]; simpl;
     [exists C; split; [done|]; split; [done|done| |]; [intros x t Hx; apply Hclosed; [done|apply not_elem_of_nil]|intros t Ht; exists t; split; [done|constructor]]|]).
  - pose proof (sorted_bounded_length C (length sts) HC Hlt). simpl in Hfuel. lia.
  - destruct (lookup_lt_is_Some_2 sts s) as [q Hq]; [apply Hlt, HS; left|]. rewrite Hq.
    destruct (foldl closure_push (C, S) (ns_epsilon q)) as [C1 S1] eqn:Ef.
    destruct (closure_push_fold _ _ _ _ _ Ef HC) as (HC1 & Hin1 & HinS & Hlen).
    assert (Hedge : forall t, edge sts s None t <-> t ∈ ns_epsilon q).
    { intros t. unfold edge. rewrite Hq. naive_solver. }
    destruct (IH C1 S1) as (C' & HC' & [Hs' Hi' Hc' Hr']); [done| | | | |].
    + intros x Hx. apply Hin1 in Hx as [Hx|Hx]; [by apply Hlt|]. by eapply Hwf, Hedge.
    + intros x Hx. apply HinS in Hx as [Hx|[Hx _]]; apply Hin1; [left; apply HS; by right|by right].
    + intros x t Hx HxS He. apply Hin1. rewrite HinS in HxS.
      destruct (decide (x = s)) as [->|Hne]; [right; by apply Hedge|]. left.
      apply Hin1 in Hx as [Hx|Hx].
      * apply (Hclosed x t Hx); [|done]. rewrite elem_of_cons. naive_solver.
      * destruct (decide (x ∈ C)); [|naive_solver].
        apply (Hclosed x t); [done| |done]. rewrite elem_of_cons. naive_solver.
    + simpl in Hfuel. lia.
    + exists C'. split; [done|]. split; [done| |done|].
      * intros x Hx. apply Hi', Hin1. by left.
      * intros t Ht. destruct (Hr' t Ht) as (r & Hr & Hp). apply Hin1 in Hr as [Hr|Hr]; [eauto|].
        exists s. split; [apply HS; left|]. eapply path_eps; [by apply Hedge|done].
Qed.

Lemma closure_of_path C C' t :
  closure_of sts C C' -> (t ∈ C' <-> exists s, s ∈ C /\ path (edge sts) s [] t).
Proof.
  intros [Hs Hi Hc Hr]. split; [apply Hr|]. intros (s & Hs' & Hp). apply Hi in Hs'. clear Hr.
  remember [] as w eqn:Ew. revert Hs' Ew. induction Hp as [|s l t w u He Hp IH]; [done|].
  intros Hs' Ew. destruct l; simpl in Ew; [done|]. apply IH; [by eapply Hc|done].
Qed.
End Closure.

Lemma epsilon_closure_spec n C :
  nfa_ok n -> StronglySorted lt C -> (forall x, x ∈ C -> x < length (nfa_states n)) ->
  exists C', nfa_epsilon_closure n C = Some C' /\ closure_of (nfa_states n) C C'.
Proof.
  intros Hn HC Hlt. apply closure_loop_spec; [apply (nok_target n Hn)|done|done| | |].
  - intros x. rewrite list_elem_of_In, <-in_rev, <-list_elem_of_In. done.
  - intros x t Hx Hnx. exfalso. apply Hnx. rewrite list_elem_of_In, <-in_rev, <-list_elem_of_In. done.
  - rewrite length_rev. lia.
Qed.

(** ** Subset construction *)

Lemma insert_all_spec ts next :
  StronglySorted lt next ->
  StronglySorted lt (foldl (fun l t => nset_insert t l) next ts) /\
  (forall x, x ∈ foldl (fun l t => nset_insert t l) next ts <-> x ∈ next \/ x ∈ ts).
Proof.
  revert next; induction ts as [|t ts IH]; intros next Hn; simpl.
  - setoid_rewrite elem_of_nil. naive_solver.
  - destruct (IH (nset_insert t next) (nset_insert_sorted t next Hn)) as [H1 H2].
    split; [done|]. intros x. rewrite H2, elem_of_nset_insert, elem_of_cons. tauto.
Qed.

Lemma byte_targets_spec n b X :
  (forall x, x ∈ X -> x < length (nfa_states n)) ->
  exists Y, byte_targets n b X = Some Y /\ StronglySorted lt Y /\
    (forall t, t ∈ Y <-> exists s, s ∈ X /\ edge (nfa_states n) s (Some b) t).
Proof.
  unfold byte_targets.
  assert (Hgen : forall next, StronglySorted lt next -> (forall x, x ∈ X -> x < length (nfa_states n)) ->
    exists Y, foldl (fun acc s =>
      next ← acc; q ← nfa_states n !! s;
      Some (match ns_bytes q !! b with
            | Some targets => foldl (fun l t => nset_insert t l) next targets
            | None => next end)) (Some next) X = Some Y /\ StronglySorted lt Y /\
    (forall t, t ∈ Y <-> t ∈ next \/ exists s, s ∈ X /\ edge (nfa_states n) s (Some b) t)).
  { induction X as [|s X IH]; intros next Hn Hlt; cbn [foldl].
    - exists next. setoid_rewrite elem_of_nil. split_and!; [done..|naive_solver].
    - destruct (lookup_lt_is_Some_2 (nfa_states n) s) as [q Hq]; [apply Hlt; left|].
      cbn [mbind option_bind]. rewrite Hq. cbn [mbind option_bind].
      set (next' := match ns_bytes q !! b with Some ts => _ | None => _ end).
      assert (Hn' : StronglySorted lt next' /\
        forall x, x ∈ next' <-> x ∈ next \/ edge (nfa_states n) s (Some b) x).
      { unfold next', edge. rewrite Hq. destruct (ns_bytes q !! b) as [ts|] eqn:Eb.
        - destruct (insert_all_spec ts next Hn) as [H1 H2]. split; [done|]. intros x. rewrite H2.
          split; [intros [?|?]; eauto 7|]. intros [?|(q' & [= <-] & ts' & Hts & ?)]; [by left|].
          right. congruence.
        - split; [done|]. intros x. split; [by left|].
          intros [?|(q' & [= <-] & ts' & Hts & ?)]; [done|congruence]. }
      destruct Hn' as [Hs' Hin']. destruct (IH next' Hs') as (Y & HY & HsY & HinY).
      { intros x Hx. apply Hlt. by right. }
      exists Y. split; [exact HY|]. split; [done|]. intros t. rewrite HinY, Hin'.
      setoid_rewrite elem_of_cons. naive_solver. }
  intros Hlt. destruct (Hgen [] ltac:(constructor) Hlt) as (Y & HY & HsY & HinY).
  exists Y. split; [exact HY|]. split; [done|]. intros t. rewrite HinY, elem_of_nil. tauto.
Qed.


(** The ascending lists over the first [m] numbers from [a]. *)
Fixpoint sublists (l : list nat) : list (list nat) :=
  match l with
  | [] => [[]]
  | x :: l' => sublists l' ++ (cons x <$> sublists l')
  end.

Lemma length_sublists l : length (sublists l) = 2 ^ length l.
Proof.
  induction l as [|x l IH]; simpl; [done|]. rewrite length_app, length_fmap, IH. simpl. lia.
Qed.

Lemma sorted_in_sublists a m X :
  StronglySorted lt X -> (forall x, x ∈ X -> a <= x < a + m) -> X ∈ sublists (seq a m).
Proof.
  revert a X; induction m as [|m IH]; intros a X HX Hb; simpl.
  - destruct X as [|x X]; [left|]. specialize (Hb x ltac:(left)). lia.
  - rewrite elem_of_app. destruct HX as [|x X HX Hx].
    + left. apply IH; [constructor|]. intros x Hx. by apply elem_of_nil in Hx.
    + assert (Hgt : forall y, y ∈ X -> x < y) by (by apply Forall_forall).
      destruct (decide (x = a)) as [->|Hne].
      * right. apply list_elem_of_fmap. exists X. split; [done|]. apply IH; [done|].
        intros y Hy. specialize (Hgt y Hy). specialize (Hb y ltac:(by right)). lia.
      * left. apply IH; [by constructor|]. intros y Hy. pose proof (Hb x ltac:(left)).
        specialize (Hb y Hy). apply elem_of_cons in Hy as [->|Hy]; [lia|]. specialize (Hgt y Hy). lia.
Qed.

Section Subset.
Context (n : Nfa) (Hn : nfa_ok n).

Record subset_good (X : list nat) : Prop := {
  sg_sorted : StronglySorted lt X;
  sg_bound : forall x, x ∈ X -> x < length (nfa_states n);
  sg_closed : forall x t, x ∈ X -> path (edge (nfa_states n)) x [] t -> t ∈ X;
  sg_nonempty : X <> [];
}.

Definition subset_step (X : list nat) (b : nat) : option (list nat) :=
  default None (subset_next n X b).

Lemma path_bound s w t :
  s < length (nfa_states n) -> path (edge (nfa_states n)) s w t -> t < length (nfa_states n).
Proof. intros Hs Hp. pose proof (nok_target n Hn). induction Hp; eauto. Qed.

Lemma closure_good C C' :
  (forall x, x ∈ C -> x < length (nfa_states n)) ->
  closure_of (nfa_states n) C C' -> C' <> [] -> subset_good C'.
Proof.
  intros Hb Hcl Hne. split; [apply (cl_sorted _ _ _ Hcl)| | |done].
  - intros x Hx. apply (cl_reach _ _ _ Hcl) in Hx as (s & Hs & Hp). eapply path_bound; eauto.
  - intros x t Hx Hp. apply (closure_of_path _ _ _ _ Hcl) in Hx as (s & Hs & Hp').
    apply (closure_of_path _ _ _ _ Hcl). exists s. split; [done|]. by apply (path_app _ s [] x [] t).
Qed.

Lemma subset_next_spec X b :
  subset_good X ->
  subset_next n X b = Some (subset_step X b) /\
  match subset_step X b with
  | Some Y => subset_good Y /\
      (forall t, t ∈ Y <-> exists s u, s ∈ X /\ edge (nfa_states n) s (Some b) u /\
                                path (edge (nfa_states n)) u [] t)
  | None => forall s u, s ∈ X -> ~ edge (nfa_states n) s (Some b) u
  end.
Proof.
  intros HX. unfold subset_step, subset_next.
  destruct (byte_targets_spec n b X (sg_bound X HX)) as (Y & -> & HsY & HY). simpl.
  assert (HbY : forall x, x ∈ Y -> x < length (nfa_states n)).
  { intros x Hx. apply HY in Hx as (s & _ & He). by eapply (nok_target n Hn). }
  destruct (epsilon_closure_spec n Y Hn HsY HbY) as (C & -> & Hcl). simpl. split; [done|].
  destruct C as [|c C].
  - intros s u Hs He. assert (Hu : u ∈ Y) by (apply HY; eauto).
    apply (cl_incl _ _ _ Hcl) in Hu. by apply elem_of_nil in Hu.
  - split; [by eapply closure_good|]. intros t. rewrite (closure_of_path _ _ _ t Hcl).
    setoid_rewrite HY. naive_solver.
Qed.

Lemma subset_run X w :
  subset_good X ->
  match key_run subset_step X w with
  | Some Y => forall t, t ∈ Y <-> exists s, s ∈ X /\ path (edge (nfa_states n)) s w t
  | None => forall s t, s ∈ X -> ~ path (edge (nfa_states n)) s w t
  end.
Proof.
  revert X; induction w as [|b w IH]; intros X HX; simpl.
  - intros t. split; [intros ?; exists t; split; [done|constructor]|].
    intros (s & Hs & Hp). by eapply (sg_closed X HX).
  - destruct (subset_next_spec X b HX) as [_ Hstep]. destruct (subset_step X b) as [Y|].
    + destruct Hstep as [HY Hin].
      assert (Hfirst : forall t, (exists s, s ∈ Y /\ path (edge (nfa_states n)) s w t) <->
        exists s, s ∈ X /\ path (edge (nfa_states n)) s (b :: w) t).
      { intros t. split.
        - intros (s & Hs & Hp). apply Hin in Hs as (s0 & u & Hs0 & He & Hu). exists s0. split; [done|].
          eapply path_byte; [done|]. by apply (path_app _ u [] s w t).
        - intros (s & Hs & Hp). apply path_cons_inv in Hp as (r & r' & Hr & He & Hp).
          exists r'. split; [|done]. apply Hin. exists r, r'.
          split; [by eapply (sg_closed X HX)|]. split; [done|constructor]. }
      specialize (IH Y HY). destruct (key_run subset_step Y w) as [Z|].
      * intros t. by rewrite IH.
      * intros s t Hs Hp. destruct (Hfirst t) as [_ Hf]. destruct Hf as (s' & Hs' & Hp'); [eauto|].
        by apply (IH s' t).
    + intros s t Hs Hp. apply path_cons_inv in Hp as (r & r' & Hr & He & _).
      apply (Hstep r r'); [|done]. by eapply (sg_closed X HX).
Qed.

Lemma subset_row_ok start X :
  subset_good X -> exists cs, subset_cells n X = Some cs /\
    row_ok [] start subset_step subset_good X cs.
Proof.
  intros HX. apply byte_row_ok.
  - intros b _. by destruct (subset_next_spec X b HX).
  - intros b Y _ HY. destruct (subset_next_spec X b HX) as [_ Hs]. rewrite HY in Hs.
    destruct Hs as [Hg _]. split; [done|]. apply (sg_nonempty Y Hg).
Qed.

Lemma start_closure :
  exists X, nfa_epsilon_closure n (nset_insert (nfa_start n) []) = Some X /\ subset_good X /\
    forall t, t ∈ X <-> path (edge (nfa_states n)) (nfa_start n) [] t.
Proof.
  assert (Hb : forall x, x ∈ nset_insert (nfa_start n) [] -> x < length (nfa_states n)).
  { intros x Hx. apply list_elem_of_singleton in Hx as ->. apply (nok_start n Hn). }
  destruct (epsilon_closure_spec n (nset_insert (nfa_start n) [])) as (X & HX & Hcl);
    [done|repeat constructor|done|].
  exists X. split; [done|]. assert (Hin : nfa_start n ∈ X) by (apply (cl_incl _ _ _ Hcl); left).
  split.
  - eapply closure_good; [exact Hb|exact Hcl|]. intros ->. by apply elem_of_nil in Hin.
  - intros t. rewrite (closure_of_path _ _ _ t Hcl). split.
    + intros (s & Hs & Hp). by apply list_elem_of_singleton in Hs as ->.
    + intros Hp. exists (nfa_start n). split; [left|done].
Qed.

(** The subset construction returns within [2^n] turns, a well-formed table
    of the automaton's language. *)
Lemma determinize_spec fuel :
  2 ^ length (nfa_states n) <= fuel ->
  exists d, nfa_determinize fuel n = Some d /\ dfa_ok d /\
    (forall w, is_word w -> dfa_matches d w = true <-> nfa_lang n w).
Proof.
  intros Hfuel. unfold nfa_determinize.
  destruct start_closure as (X & -> & HX & HinX). cbn [mbind option_bind].
  assert (Hrow : forall k, subset_good k -> exists cs, subset_cells n k = Some cs /\
    row_ok [] X subset_step subset_good k cs) by (intros; by apply subset_row_ok).
  edestruct (explore_init_returns (subset_cells n) (subset_tag n) [] X subset_step subset_good
    (sublists (seq 0 (length (nfa_states n)))) fuel) as [st Hst]; [done|done| | |].
  { intros k Hk. apply sorted_in_sublists; [apply (sg_sorted k Hk)|].
    intros x Hx. apply (sg_bound k Hk) in Hx. lia. }
  { by rewrite length_sublists, length_seq. }
  rewrite Hst. cbn [mbind option_bind]. exists (builder_dfa st). split; [done|].
  pose proof (explore_init_finished _ _ _ _ _ _ _ _ HX Hrow Hst) as Hfin.
  split; [by eapply built_ok|]. intros w Hw. rewrite (built_matches _ _ _ _ _ st Hfin w Hw).
  pose proof (subset_run X w HX) as Hrun. unfold subset_tag, nfa_lang.
  assert (Hstart : nfa_start n ∈ X) by (apply HinX; constructor).
  destruct (key_run subset_step X w) as [Y|].
  - split.
    + intros (Y' & [= <-] & [u Hu]). destruct (nmem (nfa_accept n) Y) eqn:Ea; [|done].
      apply nmem_spec, Hrun in Ea as (s & Hs & Hp). apply HinX in Hs.
      by apply (path_app _ _ [] s w).
    + intros Hp. exists Y. split; [done|].
      assert (nmem (nfa_accept n) Y = true) as -> by (apply nmem_spec, Hrun; eauto). eauto.
  - split; [by intros (Y & ? & _)|]. intros Hp. exfalso. by eapply Hrun.
Qed.

(** Two words that end in the same live state of the table reach the same
    states of the automaton. *)
Lemma determinize_states fuel d u v :
  nfa_determinize fuel n = Some d -> is_word u -> is_word v ->
  dfa_run d u = dfa_run d v -> dfa_run d u <> DEAD_STATE ->
  forall t, path (edge (nfa_states n)) (nfa_start n) u t <-> path (edge (nfa_states n)) (nfa_start n) v t.
Proof.
  unfold nfa_determinize. destruct start_closure as (X & -> & HX & HinX). cbn [mbind option_bind].
  assert (Hrow : forall k, subset_good k -> exists cs, subset_cells n k = Some cs /\
    row_ok [] X subset_step subset_good k cs) by (intros; by apply subset_row_ok).
  destruct (explore _ _ _ _) as [st|] eqn:Hst; [|done]. intros [= <-] Hu Hv Heq Hlive.
  pose proof (explore_init_finished _ _ _ _ _ _ _ _ HX Hrow Hst) as Hfin.
  assert (Hreach : forall w, is_word w -> dfa_run (builder_dfa st) w <> DEAD_STATE ->
    exists Y, b_order st !! dfa_run (builder_dfa st) w = Some Y /\
      forall t, t ∈ Y <-> path (edge (nfa_states n)) (nfa_start n) w t).
  { intros w Hw Hne. pose proof (built_run _ _ _ _ _ st Hfin w Hw) as Hs.
    pose proof (subset_run X w HX) as Hr. destruct (key_run subset_step X w) as [Y|]; [|done].
    destruct Hs as [_ Hs]. exists Y. split; [done|]. intros t. rewrite Hr. split.
    - intros (s & Hs' & Hp). apply HinX in Hs'. by apply (path_app _ _ [] s w).
    - intros Hp. exists (nfa_start n). split; [apply HinX; constructor|done]. }
  destruct (Hreach u Hu Hlive) as (Y & HY & HinY). rewrite Heq in HY, Hlive.
  destruct (Hreach v Hv Hlive) as (Z & HZ & HinZ). rewrite HY in HZ. injection HZ as <-.
  intros t. by rewrite <-HinY, <-HinZ.
Qed.
End Subset.

(** ** Product *)

Section Product.
Context (a b : Dfa) (Ha : dfa_ok a) (Hb : dfa_ok b).

Definition pair_good (p : nat * nat) : Prop :=
  1 <= p.1 < dfa_num_states a /\ 1 <= p.2 < dfa_num_states b.

Definition pair_step (p : nat * nat) (byte : nat) : option (nat * nat) :=
  default None (product_pair a b p byte).

Lemma table_entry d s byte :
  dfa_ok d -> s < dfa_num_states d -> byte <= 255 ->
  exists t, dfa_transitions d !! (s * 256 + byte) = Some t /\ t < dfa_num_states d.
Proof.
  intros Hd Hs Hbyte. destruct (lookup_lt_is_Some_2 (dfa_transitions d) (s * 256 + byte)) as [t Ht].
  - rewrite (ok_len d Hd). nia.
  - exists t. split; [done|]. by eapply (ok_target d Hd).
Qed.

Lemma product_next_entry d s byte :
  1 <= s -> product_next d s byte = dfa_transitions d !! (s * 256 + byte).
Proof.
  intros Hs. unfold product_next. destruct (Nat.eqb_spec s DEAD_STATE) as [E|E]; [|done].
  unfold DEAD_STATE in E. lia.
Qed.

Lemma product_pair_spec p byte :
  pair_good p -> byte <= 255 ->
  exists na nb, dfa_transitions a !! (p.1 * 256 + byte) = Some na /\
    dfa_transitions b !! (p.2 * 256 + byte) = Some nb /\
    product_pair a b p byte = Some (pair_step p byte) /\
    pair_step p byte = (if (na =? DEAD_STATE) || (nb =? DEAD_STATE) then None else Some (na, nb)) /\
    na < dfa_num_states a /\ nb < dfa_num_states b.
Proof.
  intros [H1 H2] Hbyte. destruct (table_entry a p.1 byte) as (na & Hna & Hla); [done|lia|done|].
  destruct (table_entry b p.2 byte) as (nb & Hnb & Hlb); [done|lia|done|].
  exists na, nb. unfold pair_step, product_pair. rewrite !product_next_entry by lia.
  rewrite Hna, Hnb. simpl. done.
Qed.

Lemma pair_step_good p byte q :
  pair_good p -> byte <= 255 -> pair_step p byte = Some q -> pair_good q /\ q <> (DEAD_STATE, DEAD_STATE).
Proof.
  intros Hp Hbyte. destruct (product_pair_spec p byte Hp Hbyte) as (na & nb & _ & _ & _ & -> & Hla & Hlb).
  destruct ((na =? DEAD_STATE) || (nb =? DEAD_STATE)) eqn:E; [done|]. intros [= <-].
  rewrite orb_false_iff, !Nat.eqb_neq in E. unfold DEAD_STATE in *. unfold pair_good. simpl.
  split; [lia|]. intros [= -> ->]. lia.
Qed.

Lemma pair_run p w :
  pair_good p -> is_word w ->
  match key_run pair_step p w with
  | Some q => pair_good q /\ dfa_run_from a p.1 w = q.1 /\ dfa_run_from b p.2 w = q.2
  | None => dfa_run_from a p.1 w = DEAD_STATE \/ dfa_run_from b p.2 w = DEAD_STATE
  end.
Proof.
  intros Hp Hw. revert p Hp; induction Hw as [|byte w Hbyte Hw IH]; intros p Hp; simpl; [done|].
  pose proof (pair_step_good p byte) as Hgood.
  destruct (product_pair_spec p byte Hp Hbyte) as (na & nb & -> & -> & _ & Hstep & _ & _).
  rewrite Hstep in Hgood |- *.
  destruct (Nat.eqb_spec na DEAD_STATE); [by left|]. destruct (Nat.eqb_spec nb DEAD_STATE); [by right|].
  simpl in *. apply (IH (na, nb)). by apply (Hgood (na, nb)).
Qed.

Lemma intersection_spec fuel :
  dfa_num_states a * dfa_num_states b <= fuel ->
  exists d, dfa_intersection fuel a b = Some d /\ dfa_ok d /\
    (forall w, is_word w -> dfa_matches d w = dfa_matches a w && dfa_matches b w).
Proof.
  intros Hfuel. unfold dfa_intersection.
  assert (Hstart : pair_good (dfa_start a, dfa_start b)).
  { split; simpl; [apply (ok_start a Ha)|apply (ok_start b Hb)]. }
  assert (Hrow : forall p, pair_good p -> exists cs, product_cells a b p = Some cs /\
    row_ok (DEAD_STATE, DEAD_STATE) (dfa_start a, dfa_start b) pair_step pair_good p cs).
  { intros p Hp. apply byte_row_ok.
    - intros byte Hbyte. by destruct (product_pair_spec p byte Hp Hbyte) as (? & ? & _ & _ & -> & _).
    - intros byte q Hbyte. by apply pair_step_good. }
  edestruct (explore_init_returns (product_cells a b) (product_tag a b) (DEAD_STATE, DEAD_STATE)
    (dfa_start a, dfa_start b) pair_step pair_good
    (list_prod (seq 0 (dfa_num_states a)) (seq 0 (dfa_num_states b))) fuel) as [st Hst]; [done|done| | |].
  { intros [x y] [Hx Hy]. rewrite list_elem_of_In, in_prod_iff, <-!list_elem_of_In, !elem_of_seq.
    simpl in *. lia. }
  { rewrite length_prod, !length_seq. done. }
  rewrite Hst. cbn [mbind option_bind]. exists (builder_dfa st). split; [done|].
  pose proof (explore_init_finished _ _ _ _ _ _ _ _ Hstart Hrow Hst) as Hfin.
  split; [by eapply built_ok|]. intros w Hw. apply eq_true_iff_eq.
  rewrite (built_matches _ _ _ _ _ st Hfin w Hw). unfold dfa_matches.
  rewrite !matches_is_run by (intros t Ht; apply ok_accepting in Ht; [lia|done]).
  pose proof (pair_run _ w Hstart Hw) as Hrun. simpl in Hrun. unfold product_tag.
  destruct (key_run pair_step _ w) as [q|].
  - destruct Hrun as (_ & -> & ->). split.
    + intros (q' & [= <-] & [u Hu]). by destruct (_ && _).
    + intros E. exists q. rewrite E. eauto.
  - split; [by intros (q & ? & _)|]. rewrite andb_true_iff, !nmem_spec. intros [H1 H2].
    apply ok_accepting in H1; [|done]. apply ok_accepting in H2; [|done].
    unfold DEAD_STATE in Hrun. lia.
Qed.
End Product.

(** ** Back to an automaton *)

Section Back.
Context (d : Dfa) (Hd : dfa_ok d).

Lemma dfa_row_state_spec s :
  s < dfa_num_states d ->
  exists q, dfa_row_state d s = Some q /\ ns_epsilon q = [] /\
    (forall b t, (exists ts, ns_bytes q !! b = Some ts /\ t ∈ ts) <->
      b <= 255 /\ dfa_transitions d !! (s * 256 + b) = Some t /\ t <> DEAD_STATE).
Proof.
  intros Hs. unfold dfa_row_state.
  assert (Hgen : forall l q, (forall b, b ∈ l -> b <= 255) ->
    exists q', foldl (fun acc b =>
      q ← acc; next ← dfa_transitions d !! (s * 256 + b);
      Some (if next =? DEAD_STATE then q
            else {| ns_bytes := <[b := default [] (ns_bytes q !! b) ++ [next]]> (ns_bytes q);
                    ns_epsilon := ns_epsilon q |})) (Some q) l = Some q' /\
      ns_epsilon q' = ns_epsilon q /\
      (forall b t, (exists ts, ns_bytes q' !! b = Some ts /\ t ∈ ts) <->
        (exists ts, ns_bytes q !! b = Some ts /\ t ∈ ts) \/
        (b ∈ l /\ dfa_transitions d !! (s * 256 + b) = Some t /\ t <> DEAD_STATE))).
  { induction l as [|b0 l IH]; intros q Hl; cbn [foldl].
    - exists q. setoid_rewrite elem_of_nil. naive_solver.
    - destruct (table_entry d s b0) as (next & Hnext & _); [done|done|apply Hl; left|].
      cbn [mbind option_bind]. rewrite Hnext. cbn [mbind option_bind].
      set (q1 := if next =? DEAD_STATE then q else _).
      destruct (IH q1) as (q' & Hq' & Heps & Hb); [intros b Hb; apply Hl; by right|].
      exists q'. split; [exact Hq'|].
      assert (Hq1 : ns_epsilon q1 = ns_epsilon q /\ forall b t,
        (exists ts, ns_bytes q1 !! b = Some ts /\ t ∈ ts) <->
        (exists ts, ns_bytes q !! b = Some ts /\ t ∈ ts) \/ (b = b0 /\ t = next /\ next <> DEAD_STATE)).
      { unfold q1. destruct (Nat.eqb_spec next DEAD_STATE); [naive_solver|]. simpl.
        split; [done|]. intros b t. rewrite push_target_spec. naive_solver. }
      destruct Hq1 as [He1 Hb1]. split; [by rewrite Heps|]. intros b t. rewrite Hb, Hb1, elem_of_cons.
      split; [naive_solver|]. intros [?|([->|?] & Ht & ?)]; [by auto| |by auto].
      left. right. split; [done|]. rewrite Hnext in Ht. injection Ht as <-. done. }
  destruct (Hgen all_bytes empty_state) as (q & Hq & Heps & Hb).
  { intros b Hb. apply elem_of_byte_seq in Hb. lia. }
  exists q. split; [exact Hq|]. split; [done|]. intros b t. rewrite Hb. unfold all_bytes.
  rewrite elem_of_byte_seq. split.
  - intros [(ts & Hts & _)|(? & ?)]; [simpl in Hts; by rewrite lookup_empty in Hts|]. split; [lia|done].
  - intros (? & ?). right. split; [lia|done].
Qed.

Lemma row_states_spec :
  exists sts, mapM (dfa_row_state d) (seq 0 (dfa_num_states d)) = Some sts /\
    length sts = dfa_num_states d /\
    (forall s l t, edge sts s l t <-> exists b, l = Some b /\ s < dfa_num_states d /\ b <= 255 /\
       dfa_transitions d !! (s * 256 + b) = Some t /\ t <> DEAD_STATE).
Proof.
  destruct (mapM (dfa_row_state d) (seq 0 (dfa_num_states d))) as [sts|] eqn:Em.
  2: { apply mapM_None_1 in Em. apply Exists_exists in Em as (s & Hs & Hn).
       apply elem_of_seq in Hs. destruct (dfa_row_state_spec s) as (q & Hq & _); [lia|congruence]. }
  exists sts. split; [done|]. apply mapM_Some_1 in Em.
  assert (Hlen : length sts = dfa_num_states d).
  { apply Forall2_length in Em. by rewrite length_seq in Em. }
  split; [done|].
  assert (Hlook : forall s q, sts !! s = Some q -> dfa_row_state d s = Some q /\ s < dfa_num_states d).
  { intros s q Hq. pose proof (lookup_lt_Some _ _ _ Hq) as Hs. rewrite Hlen in Hs.
    assert (Hseq : seq 0 (dfa_num_states d) !! s = Some s) by (by apply lookup_seq_lt).
    split; [|done]. exact (Forall2_lookup_lr _ _ _ _ _ _ Em Hseq Hq). }
  intros s l t. unfold edge. split.
  - intros (q & Hq & Hl). apply Hlook in Hq as [Hq Hs].
    destruct (dfa_row_state_spec s Hs) as (q' & Hq' & Heps & Hb). rewrite Hq in Hq'. injection Hq' as <-.
    destruct l as [b|]; [|rewrite Heps in Hl; by apply elem_of_nil in Hl].
    apply Hb in Hl. naive_solver.
  - intros (b & -> & Hs & Hrest). destruct (lookup_lt_is_Some_2 sts s) as [q Hq]; [lia|].
    exists q. split; [done|]. apply Hlook in Hq as [Hq _].
    destruct (dfa_row_state_spec s Hs) as (q' & Hq' & _ & Hb). rewrite Hq in Hq'. injection Hq' as <-.
    by apply Hb.
Qed.

Lemma edge_push_accepts t0 (accs : list nat) sts s l t :
  (forall x, x ∈ accs -> x < length sts) ->
  (edge (foldl (fun sts acc => push_eps acc t0 sts) sts accs) s l t <->
   edge sts s l t \/ (s ∈ accs /\ l = None /\ t = t0)) /\
  length (foldl (fun sts acc => push_eps acc t0 sts) sts accs) = length sts.
Proof.
  revert sts; induction accs as [|x accs IH]; intros sts Hlt; simpl.
  - rewrite elem_of_nil. naive_solver.
  - destruct (IH (push_eps x t0 sts)) as [H1 H2].
    { intros y Hy. rewrite length_push_eps. apply Hlt. by right. }
    rewrite H2, length_push_eps. split; [|done]. rewrite H1, edge_push_eps by (apply Hlt; left).
    rewrite elem_of_cons. naive_solver.
Qed.

Lemma dfa_to_nfa_spec :
  exists n, dfa_to_nfa d = Some n /\ nfa_ok n /\
    (forall w, is_word w -> nfa_lang n w <-> dfa_matches d w = true).
Proof.
  unfold dfa_to_nfa. destruct row_states_spec as (sts & -> & Hlen & Hedge). cbn [mbind option_bind new_state].
  set (N := dfa_num_states d) in *. rewrite Hlen.
  assert (Hacc : forall x, x ∈ dfa_accepting d -> x < length (sts ++ [empty_state])).
  { intros x Hx. apply (ok_accepting d Hd) in Hx. rewrite length_app, Hlen. simpl. lia. }
  set (sts' := foldl _ _ _).
  assert (Hedge' : forall s l t, edge sts' s l t <->
    edge sts s l t \/ (s ∈ dfa_accepting d /\ l = None /\ t = N)).
  { intros s l t. unfold sts'. destruct (edge_push_accepts N (dfa_accepting d) (sts ++ [empty_state]) s l t) as [-> _]; [done|].
    by rewrite edge_new. }
  assert (Hlen' : length sts' = N + 1).
  { unfold sts'. destruct (edge_push_accepts N (dfa_accepting d) (sts ++ [empty_state]) 0 None 0) as [_ ->]; [done|].
    rewrite length_app, Hlen. done. }
  assert (HN : N = dfa_num_states d) by done. clearbody sts' N.
  eexists. split; [done|]. split.
  - split; cbn [nfa_states nfa_start nfa_accept]; rewrite Hlen'; [pose proof (ok_start d Hd); lia|lia|].
    intros s l t. rewrite Hedge', Hedge. intros [(b & _ & _ & _ & Ht & _)|(_ & _ & ->)]; [|lia].
    apply (ok_target d Hd) in Ht. lia.
  - intros w Hw. unfold nfa_lang, dfa_matches. cbn [nfa_states nfa_start nfa_accept].
    pose proof (ok_start d Hd) as Hs. generalize dependent (dfa_start d).
    assert (Hfinal : forall s u, s = N -> path (edge sts') s u N -> u = []).
    { intros s u Es Hp. inversion Hp as [|? l t u' ? He]; [done|]; subst.
      apply Hedge' in He as [He|(Hin & _)]; [apply Hedge in He as (? & _ & ? & _); lia|].
      apply (ok_accepting d Hd) in Hin. lia. }
    assert (Hinv : forall s b u, path (edge sts') s (b :: u) N ->
      exists t, edge sts s (Some b) t /\ path (edge sts') t u N).
    { intros s b u Hp. remember (b :: u) as bu eqn:Eu. remember N as M eqn:EM in Hp. destruct Hp as [|s l t v u' He Hp]; [done|].
      subst u'. apply Hedge' in He as [He|(_ & -> & ->)].
      - apply Hedge in He as Hl. destruct Hl as (c & -> & _). simpl in Eu. injection Eu as -> ->. eauto.
      - simpl in Eu. subst v. by apply (Hfinal _ _ eq_refl) in Hp. }
    induction Hw as [|b w Hb Hw IH]; intros s Hs; simpl.
    + rewrite nmem_spec. split.
      * intros Hp. apply path_nil_inv in Hp as [->|(t & He & _)]; [lia|].
        apply Hedge' in He as [He|(Hin & _)]; [|done]. by apply Hedge in He as (? & ? & _).
      * intros Hin. apply (path_eps _ _ N); [apply Hedge'; by right|constructor].
    + destruct (table_entry d s b Hd) as (next & Hnext & Hlt); [lia|done|]. rewrite Hnext.
      assert (He : forall t, edge sts s (Some b) t <-> t = next /\ next <> DEAD_STATE).
      { intros t. rewrite Hedge. split; [intros (? & [= <-] & _ & _ & ? & ?); naive_solver|].
        intros [-> ?]. exists b. split_and!; try done; lia. }
      destruct (Nat.eqb_spec next DEAD_STATE) as [E|E].
      * split; [|done]. intros Hp. by apply Hinv in Hp as (t & [_ ?]%He & _).
      * rewrite <-IH by (unfold DEAD_STATE in E; lia). split.
        -- intros Hp. by apply Hinv in Hp as (t & [-> _]%He & ?).
        -- intros Hp. eapply path_byte; [|exact Hp]. apply Hedge'. left. by apply He.
Qed.
End Back.
