(* ===== verification/PatternProofs.v ===== *)
(** * The two compilers of a pattern: proofs

    [pat_lang] is the language of a pattern as its documentation gives it.  The
    lowering to a regex denotes it; the eager compiler returns, on every
    pattern it is used for, a well-formed table of it; and where the two
    disagree, or one of them never returns, a theorem says so. *)

From S2P Require Import Prelude.
From S2P Require Import Regex Automata Nfa NfaProofs.
From stdpp Require Import list gmap sorting.
From Stdlib Require Import Lia.

#[local] Open Scope nat_scope.

(** ** Languages *)

Definition lang_eps (w : word) : Prop := w = [].

Definition lang_cat (P Q : word -> Prop) (w : word) : Prop :=
  exists u v, w = u ++ v /\ P u /\ Q v.

(** One byte of a set. *)
Definition lang_byte (P : nat -> Prop) (w : word) : Prop := exists b, w = [b] /\ P b.

(** [n] arbitrary bytes; any number of them. *)
Definition lang_skip (n : nat) (w : word) : Prop := length w = n /\ is_word w.

Fixpoint pat_lang (p : Pattern) (w : word) : Prop :=
  match p with
  | PWord u => w = u
  | PRange low high => lang_byte (fun b => low <= b <= high) w
  | PAnyByte => lang_byte (fun b => b <= 255) w
  | PBit offset_byte bit_pos value =>
    lang_cat (lang_skip offset_byte)
      (lang_byte (fun b => b <= 255 /\ bit_set b bit_pos = value)) w
  | PSeq parts => foldr (fun p => lang_cat (pat_lang p)) lang_eps parts w
  | PAll parts =>
    match parts with
    | [] => w = []
    | _ => foldr (fun p acc => pat_lang p w /\ acc) True parts
    end
  | PAny parts => foldr (fun p acc => pat_lang p w \/ acc) False parts
  | POffset skip inner => lang_cat (lang_skip skip) (pat_lang inner) w
  | PRepeat inner count => Nat.iter count (lang_cat (pat_lang inner)) lang_eps w
  | PBytesAt off data => lang_cat (lang_skip off) (fun v => v = data) w
  | PPrefixOf inner => lang_cat (pat_lang inner) (fun v => is_word v) w
  | PNot inner => ~ pat_lang inner w
  end.

(** The language of the eager compiler, for which an alternation over no parts is
    the empty word. *)
Fixpoint eager_lang (p : Pattern) (w : word) : Prop :=
  match p with
  | PSeq parts => foldr (fun p => lang_cat (eager_lang p)) lang_eps parts w
  | PAll parts =>
    match parts with
    | [] => w = []
    | _ => foldr (fun p acc => eager_lang p w /\ acc) True parts
    end
  | PAny parts =>
    match parts with
    | [] => w = []
    | _ => foldr (fun p acc => eager_lang p w \/ acc) False parts
    end
  | POffset skip inner => lang_cat (lang_skip skip) (eager_lang inner) w
  | PRepeat inner count => Nat.iter count (lang_cat (eager_lang inner)) lang_eps w
  | PPrefixOf inner => lang_cat (eager_lang inner) (fun v => is_word v) w
  | PNot inner => ~ eager_lang inner w
  | _ => pat_lang p w
  end.

(** Induction over a pattern and the patterns in its lists. *)
Section PatternInd.
Context (P : Pattern -> Prop).
Context (Hword : forall w, P (PWord w)) (Hrange : forall l h, P (PRange l h)) (Hany1 : P PAnyByte)
  (Hbit : forall o b v, P (PBit o b v))
  (Hseq : forall ps, Forall P ps -> P (PSeq ps)) (Hall : forall ps, Forall P ps -> P (PAll ps))
  (Hany : forall ps, Forall P ps -> P (PAny ps))
  (Hoff : forall n p, P p -> P (POffset n p)) (Hrep : forall p n, P p -> P (PRepeat p n))
  (Hat : forall n w, P (PBytesAt n w)) (Hpre : forall p, P p -> P (PPrefixOf p))
  (Hnot : forall p, P p -> P (PNot p)).

Fixpoint pattern_ind' (p : Pattern) : P p :=
  let go := fix go (ps : list Pattern) : Forall P ps :=
    match ps with
    | [] => List.Forall_nil P
    | p :: ps' => List.Forall_cons P p ps' (pattern_ind' p) (go ps')
    end in
  match p with
  | PWord w => Hword w
  | PRange l h => Hrange l h
  | PAnyByte => Hany1
  | PBit o b v => Hbit o b v
  | PSeq ps => Hseq ps (go ps)
  | PAll ps => Hall ps (go ps)
  | PAny ps => Hany ps (go ps)
  | POffset n p => Hoff n p (pattern_ind' p)
  | PRepeat p n => Hrep p n (pattern_ind' p)
  | PBytesAt n w => Hat n w
  | PPrefixOf p => Hpre p (pattern_ind' p)
  | PNot p => Hnot p (pattern_ind' p)
  end.
End PatternInd.

Section Languages.
Implicit Types P Q R : word -> Prop.

Lemma lang_cat_ext P P' Q Q' w :
  (forall u, P u <-> P' u) -> (forall u, Q u <-> Q' u) -> (lang_cat P Q w <-> lang_cat P' Q' w).
Proof. intros HP HQ. unfold lang_cat. by setoid_rewrite HP; setoid_rewrite HQ. Qed.

(** On words of bytes the factors may be replaced by languages that agree on
    words of bytes. *)
Lemma lang_cat_word P P' Q Q' w :
  is_word w -> (forall u, is_word u -> P u <-> P' u) -> (forall u, is_word u -> Q u <-> Q' u) ->
  (lang_cat P Q w <-> lang_cat P' Q' w).
Proof.
  intros Hw HP HQ. unfold lang_cat. split; intros (u & v & -> & Hu & Hv);
    apply Forall_app in Hw as [Hwu Hwv]; exists u, v; (split; [done|]);
    (split; [by apply HP|by apply HQ]).
Qed.

Lemma lang_cat_assoc P Q R w : lang_cat (lang_cat P Q) R w <-> lang_cat P (lang_cat Q R) w.
Proof.
  unfold lang_cat. split.
  - intros (? & z & -> & (x & y & -> & ? & ?) & ?). exists x, (y ++ z). rewrite app_assoc. eauto 8.
  - intros (x & ? & -> & ? & (y & z & -> & ? & ?)). exists (x ++ y), z. rewrite app_assoc. eauto 8.
Qed.

Lemma lang_cat_eps_l Q w : lang_cat lang_eps Q w <-> Q w.
Proof.
  split; [by intros (u & v & -> & -> & ?)|]. intros ?. by exists [], w.
Qed.

Lemma lang_cat_eps_r P w : lang_cat P lang_eps w <-> P w.
Proof.
  split; [intros (u & v & -> & ? & ->); by rewrite app_nil_r|].
  intros ?. exists w, []. by rewrite app_nil_r.
Qed.

(** Powers grow on either side. *)
Lemma lang_iter_snoc P n w :
  Nat.iter (S n) (lang_cat P) lang_eps w <-> lang_cat (Nat.iter n (lang_cat P) lang_eps) P w.
Proof.
  revert w; induction n as [|n IH]; intros w.
  - simpl. by rewrite lang_cat_eps_l, lang_cat_eps_r.
  - cbn [Nat.iter nat_rect] in *. rewrite lang_cat_assoc. apply lang_cat_ext; [done|]. apply IH.
Qed.

Lemma lang_skip_S n w :
  lang_cat (lang_skip n) (lang_byte (fun b => b <= 255)) w <-> lang_skip (S n) w.
Proof.
  unfold lang_skip. split.
  - intros (u & v & -> & [<- Hu] & b & -> & Hb). rewrite length_app. simpl.
    split; [lia|]. apply Forall_app. split; [done|]. by constructor; [|constructor].
  - intros [Hl Hw]. induction w as [|b u _] using rev_ind; [done|].
    rewrite length_app in Hl. simpl in Hl. apply Forall_app in Hw as [Hu Hb].
    inversion Hb; subst. exists u, [b]. split; [done|]. split; [split; [lia|done]|]. by exists b.
Qed.

Lemma lang_skip_0 w : lang_skip 0 w <-> lang_eps w.
Proof.
  unfold lang_skip, lang_eps. split; [intros [? _]; by apply nil_length_inv|].
  intros ->. split; [done|constructor].
Qed.
End Languages.

(** ** The lowering to a regex *)

Lemma re_then_cat l r w : re_lang (re_then l r) w <-> lang_cat (re_lang l) (re_lang r) w.
Proof. apply re_then_lang. Qed.

Lemma re_byte_lang b w : re_lang (re_byte b) w <-> w = [b].
Proof.
  unfold re_byte, bc_byte, bc_range. rewrite Nat.ltb_irrefl, re_sym_lang.
  setoid_rewrite bc_contains_spec. split.
  - intros (c & -> & r & Hr & Hc). apply list_elem_of_singleton in Hr as ->. simpl in Hc. f_equal. lia.
  - intros ->. exists b. split; [done|]. exists (b, b). split; [left|simpl; lia].
Qed.

Lemma re_range_lang l h w : re_lang (re_range l h) w <-> lang_byte (fun b => l <= b <= h) w.
Proof.
  unfold re_range, bc_range, lang_byte. rewrite re_sym_lang. destruct (Nat.ltb_spec h l).
  - split; [by intros (b & _ & ?)|]. intros (b & _ & ?). lia.
  - setoid_rewrite bc_contains_spec. split.
    + intros (b & -> & r & Hr & Hb). apply list_elem_of_singleton in Hr as ->. eauto.
    + intros (b & -> & Hb). exists b. split; [done|]. exists (l, h). split; [left|done].
Qed.

Lemma re_any_byte_lang w : re_lang re_any_byte w <-> lang_byte (fun b => b <= 255) w.
Proof.
  change re_any_byte with (re_range 0 255). rewrite re_range_lang. unfold lang_byte.
  split; intros (b & -> & ?); exists b; (split; [done|lia]).
Qed.

Lemma re_word_lang u w : re_lang (re_word u) w <-> w = u.
Proof.
  unfold re_word.
  assert (Hgen : forall re, re_lang (foldl (fun re b => re_then re (re_byte b)) re u) w <->
    lang_cat (re_lang re) (fun v => v = u) w).
  { induction u as [|b u IH]; intros re; simpl.
    - symmetry. apply lang_cat_eps_r.
    - rewrite IH. rewrite (lang_cat_ext _ (lang_cat (re_lang re) (fun v => v = [b])) _ (fun v => v = u)).
      + rewrite lang_cat_assoc. apply lang_cat_ext; [done|]. intros v. unfold lang_cat. split.
        * by intros (? & ? & -> & -> & ->).
        * intros ->. by exists [b], u.
      + intros v. rewrite re_then_cat. apply lang_cat_ext; [done|]. intros x. apply re_byte_lang.
      + done. }
  rewrite Hgen. apply (lang_cat_eps_l (fun v => v = u)).
Qed.

Lemma re_skip_lang n w : re_lang (re_skip n) w <-> lang_skip n w.
Proof.
  revert w; induction n as [|n IH]; intros w.
  - by rewrite lang_skip_0.
  - rewrite <-lang_skip_S. unfold re_skip. cbn [Nat.iter nat_rect]. rewrite re_then_cat.
    apply lang_cat_ext; [apply IH|apply re_any_byte_lang].
Qed.

Lemma any_star_lang w : re_lang (re_star re_any_byte) w <-> is_word w.
Proof.
  rewrite re_star_lang. cbn [re_lang]. split.
  - intros (ws & -> & Hws). induction Hws as [|u ws Hu Hws IH]; simpl; [constructor|].
    apply re_any_byte_lang in Hu as (b & -> & Hb). simpl. by constructor.
  - intros Hw. exists ((fun b => [b]) <$> w). split.
    + induction w as [|b w IH]; simpl; [done|]. inversion Hw; subst. f_equal. by apply IH.
    + apply Forall_fmap. eapply Forall_impl; [exact Hw|]. intros b Hb. apply re_any_byte_lang. by exists b.
Qed.

Lemma elem_of_bit_bytes pos v b : b ∈ bit_bytes pos v <-> b <= 255 /\ bit_set b pos = v.
Proof.
  unfold bit_bytes, all_bytes. rewrite elem_of_retain, elem_of_byte_seq, Bool.eqb_true_iff. intuition lia.
Qed.

Lemma re_bit_lang pos v w :
  re_lang (re_sym (bc_from_ranges ((fun b => (b, b)) <$> bit_bytes pos v))) w <->
  lang_byte (fun b => b <= 255 /\ bit_set b pos = v) w.
Proof.
  rewrite re_sym_lang. unfold lang_byte.
  assert (Hb : forall b, bc_contains (bc_from_ranges ((fun b => (b, b)) <$> bit_bytes pos v)) b = true <->
    b <= 255 /\ bit_set b pos = v).
  { intros b. rewrite <-elem_of_bit_bytes. unfold bc_from_ranges.
    destruct (bc_normalize_spec ((fun b => (b, b)) <$> bit_bytes pos v)) as [_ ->].
    - apply Forall_fmap, Forall_forall. intros c Hc. by apply elem_of_bit_bytes in Hc as [? _].
    - unfold covers. split.
      + intros (r & Hr & Hb). apply list_elem_of_fmap in Hr as (c & -> & Hc). simpl in Hb.
        by replace b with c by lia.
      + intros Hb. exists (b, b). split; [apply list_elem_of_fmap; eauto|simpl; lia]. }
  by setoid_rewrite Hb.
Qed.

Lemma to_re_lang p w : re_lang (to_re p) w <-> pat_lang p w.
Proof.
  revert w. induction p as [u|l h| |o b v|ps IH|ps IH|ps IH|n p IH|p n IH|n u|p IH|p IH] using pattern_ind';
    intros w; cbn [to_re pat_lang].
  - apply re_word_lang.
  - apply re_range_lang.
  - apply re_any_byte_lang.
  - rewrite re_then_cat. apply lang_cat_ext; [apply re_skip_lang|apply re_bit_lang].
  - assert (Hgen : forall re, re_lang (foldl (fun re p => re_then re (to_re p)) re ps) w <->
      lang_cat (re_lang re) (foldr (fun p => lang_cat (pat_lang p)) lang_eps ps) w).
    { clear -IH. induction IH as [|p ps Hp _ IH]; intros re; simpl; [by rewrite lang_cat_eps_r|].
      rewrite IH, <-lang_cat_assoc. apply lang_cat_ext; [|done]. intros u. rewrite re_then_cat.
      by apply lang_cat_ext. }
    rewrite Hgen. apply lang_cat_eps_l.
  - destruct ps as [|p0 ps]; [done|]. inversion IH as [|?? Hp0 Hps]; subst.
    assert (Hgen : forall re, re_lang (foldl (fun re p => re_and re (to_re p)) re ps) w <->
      re_lang re w /\ foldr (fun p acc => pat_lang p w /\ acc) True ps).
    { clear -Hps. induction Hps as [|p ps Hp _ IH]; intros re; simpl; [tauto|].
      rewrite IH, re_and_lang, Hp. tauto. }
    rewrite Hgen, Hp0. done.
  - assert (Hgen : forall re, re_lang (foldl (fun re p => re_or re (to_re p)) re ps) w <->
      re_lang re w \/ foldr (fun p acc => pat_lang p w \/ acc) False ps).
    { clear -IH. induction IH as [|p ps Hp _ IH]; intros re; simpl; [tauto|].
      rewrite IH, re_or_lang, Hp. tauto. }
    rewrite Hgen. simpl. tauto.
  - rewrite re_then_cat. apply lang_cat_ext; [apply re_skip_lang|apply IH].
  - revert w. induction n as [|n IHn]; intros w; [done|]. rewrite lang_iter_snoc.
    cbn [Nat.iter nat_rect]. rewrite re_then_cat. by apply lang_cat_ext.
  - rewrite re_then_cat. apply lang_cat_ext; [apply re_skip_lang|intros; apply re_word_lang].
  - unfold re_prefix_of. rewrite re_then_cat. apply lang_cat_ext; [apply IH|apply any_star_lang].
  - by rewrite re_not_lang, IH.
Qed.

(** ** More fuel does not change a result *)

Lemma re_compile_mono fuel fuel' r d :
  fuel <= fuel' -> re_compile fuel r = Some d -> re_compile fuel' r = Some d.
Proof.
  intros Hle. unfold re_compile. destruct (explore _ _ fuel _) as [st|] eqn:E; [|done].
  by rewrite (explore_mono _ _ _ _ _ _ Hle E).
Qed.

Lemma determinize_mono fuel fuel' n d :
  fuel <= fuel' -> nfa_determinize fuel n = Some d -> nfa_determinize fuel' n = Some d.
Proof.
  intros Hle. unfold nfa_determinize. destruct (nfa_epsilon_closure _ _); simpl; [|done].
  destruct (explore _ _ fuel _) as [st|] eqn:E; [|done].
  by rewrite (explore_mono _ _ _ _ _ _ Hle E).
Qed.

Lemma intersection_mono fuel fuel' a b d :
  fuel <= fuel' -> dfa_intersection fuel a b = Some d -> dfa_intersection fuel' a b = Some d.
Proof.
  intros Hle. unfold dfa_intersection. destruct (explore _ _ fuel _) as [st|] eqn:E; [|done].
  by rewrite (explore_mono _ _ _ _ _ _ Hle E).
Qed.

Lemma intersections_mono fuel fuel' ds (acc acc' : option Dfa) d :
  fuel <= fuel' -> (forall x, acc = Some x -> acc' = Some x) ->
  foldl (fun acc d => a ← acc; b ← d; dfa_intersection fuel a b) acc ds = Some d ->
  foldl (fun acc d => a ← acc; b ← d; dfa_intersection fuel' a b) acc' ds = Some d.
Proof.
  intros Hle. revert acc acc'; induction ds as [|x ds IH]; intros acc acc' Hacc; simpl; [apply Hacc|].
  apply IH. intros y. destruct acc as [a|]; simpl; [|done]. rewrite (Hacc a eq_refl). simpl.
  destruct x as [x|]; simpl; [|done]. by apply intersection_mono.
Qed.

(** A computation whose result is eventually [x], whatever the fuel. *)
Definition eventually {A} (f : nat -> option A) (x : A) : Prop :=
  exists F, forall fuel, F <= fuel -> f fuel = Some x.

Lemma eventually_mono {A} (f : nat -> option A) x F :
  (forall fuel fuel', fuel <= fuel' -> f fuel = Some x -> f fuel' = Some x) ->
  f F = Some x -> eventually f x.
Proof. intros Hm HF. exists F. intros fuel Hle. by eapply Hm. Qed.

Lemma eventually_bind {A B} (f : nat -> option A) (g : nat -> A -> option B) x y :
  eventually f x -> eventually (fun fuel => g fuel x) y ->
  eventually (fun fuel => f fuel ≫= g fuel) y.
Proof.
  intros [F HF] [G HG]. exists (Nat.max F G). intros fuel Hle. rewrite HF by lia. simpl. apply HG. lia.
Qed.

(** Eventual results of a list of computations. *)
Lemma eventually_list {A B} (f : nat -> A -> option B) (P : A -> B -> Prop) (l : list A) :
  Forall (fun a => exists b, P a b /\ eventually (fun fuel => f fuel a) b) l ->
  exists bs, Forall2 P l bs /\ exists F, forall fuel, F <= fuel -> map (f fuel) l = Some <$> bs.
Proof.
  induction 1 as [|a l (b & HP & F1 & HF1) _ (bs & HPs & F2 & HF2)].
  - exists []. split; [constructor|]. by exists 0.
  - exists (b :: bs). split; [by constructor|]. exists (Nat.max F1 F2). intros fuel Hle.
    cbn [map]. rewrite HF1, HF2 by lia. done.
Qed.

(** ** The eager compiler *)

(** No [Any] of nothing. *)
Fixpoint no_empty_any (p : Pattern) : bool :=
  match p with
  | PAny parts => match parts with [] => false | _ => forallb no_empty_any parts end
  | PSeq parts | PAll parts => forallb no_empty_any parts
  | POffset _ inner | PRepeat inner _ | PPrefixOf inner | PNot inner => no_empty_any inner
  | _ => true
  end.

(** An automaton of a language of words. *)
Record recognises (L : word -> Prop) (n : Nfa) : Prop := {
  rc_ok : nfa_ok n;
  rc_lang : forall w, is_word w -> nfa_lang n w <-> L w;
}.

Lemma recognises_ext L M n :
  (forall w, is_word w -> L w <-> M w) -> recognises L n -> recognises M n.
Proof. intros H [Hok Hl]. split; [done|]. intros w Hw. by rewrite Hl, H. Qed.

Lemma recognises_eps : recognises lang_eps nfa_empty.
Proof. split; [apply nfa_empty_ok|]. intros. apply nfa_empty_lang. Qed.

Lemma recognises_bytes bs : recognises (lang_byte (fun b => b ∈ bs)) (nfa_of_bytes bs).
Proof.
  split; [apply of_bytes_ok|]. intros w _. rewrite of_bytes_lang. unfold lang_byte. naive_solver.
Qed.

Lemma recognises_range l h : recognises (lang_byte (fun b => l <= b <= h)) (nfa_byte_range l h).
Proof.
  eapply recognises_ext; [|apply recognises_bytes]. intros w _. unfold lang_byte.
  by setoid_rewrite elem_of_byte_seq.
Qed.

Lemma recognises_any : recognises (lang_byte (fun b => b <= 255)) (nfa_byte_range 0 255).
Proof.
  eapply recognises_ext; [|apply recognises_range]. intros w _. unfold lang_byte.
  split; intros (b & -> & ?); exists b; (split; [done|lia]).
Qed.

Lemma recognises_cat L M a b :
  recognises L a -> recognises M b -> recognises (lang_cat L M) (nfa_concat a b).
Proof.
  intros [Ha HLa] [Hb HLb]. split; [by apply concat_ok|]. intros w Hw.
  rewrite concat_lang by done. by apply lang_cat_word.
Qed.

Lemma recognises_union L M a b :
  recognises L a -> recognises M b -> recognises (fun w => L w \/ M w) (nfa_union a b).
Proof.
  intros [Ha HLa] [Hb HLb]. split; [by apply union_ok|]. intros w Hw.
  rewrite union_lang by done. by rewrite HLa, HLb.
Qed.

Lemma recognises_any_star : recognises (fun w => is_word w) (nfa_star (nfa_byte_range 0 255)).
Proof.
  destruct recognises_any as [Hok Hl]. split; [by apply star_ok|]. intros w Hw.
  rewrite star_lang by done. split; [done|]. intros _. exists ((fun b => [b]) <$> w). split.
  - clear. induction w as [|b w IH]; simpl; [done|]. by f_equal.
  - apply Forall_fmap. eapply Forall_impl; [exact Hw|]. intros b Hb. apply Hl; [by constructor; [|constructor]|].
    by exists b.
Qed.

Lemma recognises_skip n : recognises (lang_skip n) (nfa_skip n).
Proof.
  destruct n as [|n].
  - eapply recognises_ext; [|apply recognises_eps]. intros. by rewrite lang_skip_0.
  - cbn [nfa_skip]. induction n as [|n IH]; cbn [Nat.iter nat_rect].
    + eapply recognises_ext; [|apply recognises_any]. intros w _. rewrite <-lang_skip_S.
      rewrite (lang_cat_ext _ lang_eps _ (lang_byte (fun b => b <= 255))); [by rewrite lang_cat_eps_l|apply lang_skip_0|done].
    + eapply recognises_ext; [|apply (recognises_cat _ _ _ _ IH recognises_any)].
      intros w _. apply lang_skip_S.
Qed.

Lemma recognises_word u : recognises (fun w => w = u) (nfa_word u).
Proof.
  assert (Hone : forall b, recognises (fun w => w = [b]) (nfa_single_byte b)).
  { intros b. eapply recognises_ext; [|apply recognises_bytes]. intros w _. unfold lang_byte.
    setoid_rewrite list_elem_of_singleton. naive_solver. }
  destruct u as [|b u]; [apply recognises_eps|]. cbn [nfa_word].
  assert (Hgen : forall x n, recognises (fun w => w = x) n ->
    recognises (fun w => w = x ++ u) (foldl (fun nfa b => nfa_concat nfa (nfa_single_byte b)) n u)).
  { clear b. induction u as [|b u IH]; intros x n Hn; simpl; [by rewrite app_nil_r|].
    replace (x ++ b :: u) with ((x ++ [b]) ++ u) by (by rewrite <-app_assoc). apply IH.
    eapply recognises_ext; [|apply (recognises_cat _ _ _ _ Hn (Hone b))].
    intros w _. unfold lang_cat. naive_solver. }
  apply (Hgen [b]), Hone.
Qed.

(** A table of a language of words. *)
Record tabulates (L : word -> Prop) (d : Dfa) : Prop := {
  tb_ok : dfa_ok d;
  tb_matches : forall w, is_word w -> dfa_matches d w = true <-> L w;
}.

Lemma determinize_eventually L n :
  recognises L n -> exists d, tabulates L d /\ eventually (fun fuel => nfa_determinize fuel n) d.
Proof.
  intros [Hok Hl]. destruct (determinize_spec n Hok _ (le_n _)) as (d & Hd & Hdok & Hm).
  exists d. split; [split; [done|]; intros w Hw; by rewrite Hm, Hl|].
  eapply eventually_mono; [|exact Hd]. intros fuel fuel'. apply determinize_mono.
Qed.

Lemma to_nfa_recognises L d :
  tabulates L d -> exists n, dfa_to_nfa d = Some n /\ recognises L n.
Proof.
  intros [Hok Hm]. destruct (dfa_to_nfa_spec d Hok) as (n & Hn & Hnok & Hl).
  exists n. split; [done|]. split; [done|]. intros w Hw. by rewrite Hl, Hm.
Qed.

Lemma intersections_eventually L d0 (Ls : list (word -> Prop)) ds :
  tabulates L d0 -> Forall2 tabulates Ls ds ->
  exists d, tabulates (fun w => L w /\ foldr (fun (M : word -> Prop) acc => M w /\ acc) True Ls) d /\
    eventually (fun fuel => foldl (fun acc d => a ← acc; b ← d; dfa_intersection fuel a b)
      (Some d0) (Some <$> ds)) d.
Proof.
  intros Hd0 Hds. revert L d0 Hd0; induction Hds as [|M d1 Ls ds Hd1 _ IH]; intros L d0 Hd0.
  - exists d0. split; [|by exists 0]. destruct Hd0 as [? Hm]. split; [done|]. intros w Hw. simpl.
    rewrite Hm by done. tauto.
  - destruct Hd0 as [Hok0 Hm0], Hd1 as [Hok1 Hm1].
    destruct (intersection_spec d0 d1 Hok0 Hok1 _ (le_n _)) as (d & Hd & Hdok & Hm).
    destruct (IH (fun w => L w /\ M w) d) as (r & [Hrok Hr] & F & HF).
    { split; [done|]. intros w Hw. by rewrite Hm, andb_true_iff, Hm0, Hm1. }
    exists r. split; [split; [done|]; intros w Hw; rewrite Hr by done; simpl; tauto|].
    exists (Nat.max F (dfa_num_states d0 * dfa_num_states d1)). intros fuel Hle. simpl.
    rewrite (intersection_mono (dfa_num_states d0 * dfa_num_states d1) fuel d0 d1 d) by (done || lia).
    apply HF. lia.
Qed.

Lemma fold_parts_some f n ns : fold_parts f (Some <$> n :: ns) = Some (foldl f n ns).
Proof.
  simpl. revert n; induction ns as [|m ns IH]; intros n; simpl; [done|]. apply IH.
Qed.

Lemma recognises_seq L n ps ns :
  recognises L n -> Forall2 (fun p => recognises (eager_lang p)) ps ns ->
  recognises (lang_cat L (foldr (fun p => lang_cat (eager_lang p)) lang_eps ps)) (foldl nfa_concat n ns).
Proof.
  intros Hn Hns. revert L n Hn; induction Hns as [|p m ps ns Hm _ IH]; intros L n Hn; simpl.
  - eapply recognises_ext; [|exact Hn]. intros w _. by rewrite lang_cat_eps_r.
  - eapply recognises_ext; [|apply (IH _ _ (recognises_cat _ _ _ _ Hn Hm))].
    intros w _. apply lang_cat_assoc.
Qed.

Lemma recognises_unions L n ps ns :
  recognises L n -> Forall2 (fun p => recognises (eager_lang p)) ps ns ->
  recognises (fun w => L w \/ foldr (fun p acc => eager_lang p w \/ acc) False ps) (foldl nfa_union n ns).
Proof.
  intros Hn Hns. revert L n Hn; induction Hns as [|p m ps ns Hm _ IH]; intros L n Hn; simpl.
  - eapply recognises_ext; [|exact Hn]. intros w _. tauto.
  - eapply recognises_ext; [|apply (IH _ _ (recognises_union _ _ _ _ Hn Hm))].
    intros w _. simpl. tauto.
Qed.

Lemma recognises_repeat L n count :
  recognises L n ->
  recognises (Nat.iter (S count) (lang_cat L) lang_eps) (Nat.iter count (fun nfa => nfa_concat nfa n) n).
Proof.
  intros Hn. induction count as [|c IH].
  - eapply recognises_ext; [|exact Hn]. intros w _. simpl. by rewrite lang_cat_eps_r.
  - eapply recognises_ext; [|apply (recognises_cat _ _ _ _ IH Hn)].
    intros w _. symmetry. apply lang_iter_snoc.
Qed.

(** What the induction on patterns shows: the automaton of the pattern is
    eventually built, and is an automaton of its language. *)
Definition eager (p : Pattern) : Prop :=
  needs_derivative p = false ->
  exists n, recognises (eager_lang p) n /\ eventually (fun fuel => pattern_to_nfa fuel p) n.

Lemma eager_parts ps :
  Forall eager ps -> existsb needs_derivative ps = false ->
  Forall (fun p => exists n, recognises (eager_lang p) n /\
                     eventually (fun fuel => pattern_to_nfa fuel p) n) ps.
Proof.
  induction 1 as [|p ps Hp _ IH]; [constructor|]. simpl.
  rewrite orb_false_iff. intros [? ?]. constructor; [by apply Hp|by apply IH].
Qed.

Lemma compile_eventually p n :
  needs_derivative p = false -> recognises (eager_lang p) n ->
  eventually (fun fuel => pattern_to_nfa fuel p) n ->
  exists d, tabulates (eager_lang p) d /\ eventually (fun fuel => pattern_compile fuel p) d.
Proof.
  intros Hnd Hn Hev. destruct (determinize_eventually _ _ Hn) as (d & Hd & Hdev).
  exists d. split; [done|].
  destruct (eventually_bind _ (fun fuel n => nfa_determinize fuel n) _ _ Hev Hdev) as [F HF].
  exists F. intros fuel Hle. unfold pattern_compile, compile_with. rewrite Hnd. by apply HF.
Qed.

Lemma eager_all ps : Forall eager ps -> eager (PAll ps).
Proof.
  intros IH Hnd. simpl in Hnd. destruct ps as [|p0 ps].
  { exists nfa_empty. split; [apply recognises_eps|]. by exists 0. }
  pose proof (eager_parts _ IH Hnd) as Hparts.
  assert (Hc : Forall (fun p => exists d, tabulates (eager_lang p) d /\
     eventually (fun fuel => compile_with fuel p (pattern_to_nfa fuel p)) d) (p0 :: ps)).
  { apply Forall_forall. intros p Hp. rewrite Forall_forall in Hparts.
    destruct (Hparts p Hp) as (n & Hn & Hev). apply (compile_eventually p n); [|done..].
    apply not_true_iff_false. intros Hx. apply not_true_iff_false in Hnd. apply Hnd.
    apply existsb_exists. exists p. by rewrite <-list_elem_of_In. }
  apply eventually_list in Hc as (ds & Hds & F & HF).
  apply Forall2_cons_inv_l in Hds as (d0 & ds' & Hd0 & Hds & ->).
  destruct (intersections_eventually _ _ (eager_lang <$> ps) ds' Hd0) as (r & Hr & G & HG).
  { by apply Forall2_fmap_l. }
  destruct (to_nfa_recognises _ _ Hr) as (n & Hn & Hrec). exists n. split.
  - eapply recognises_ext; [|exact Hrec]. intros w _. cbn [eager_lang]. simpl.
    rewrite foldr_fmap. done.
  - exists (Nat.max F G). intros fuel Hle. cbn [pattern_to_nfa]. rewrite HF by lia.
    cbn [fmap list_fmap]. rewrite HG by lia. simpl. by rewrite Hn.
Qed.

Lemma pattern_to_nfa_eager p : eager p.
Proof.
  induction p as [u|l h| |o b v|ps IH|ps IH|ps IH|n p IH|p n IH|n u|p IH|p IH] using pattern_ind';
    [| | | |intros Hnd; simpl in Hnd|by apply eager_all|intros Hnd; simpl in Hnd
     |intros Hnd; destruct (IH Hnd) as (m & Hm & F & HF)
     |intros Hnd; destruct (IH Hnd) as (m & Hm & F & HF)|
     |intros Hnd; destruct (IH Hnd) as (m & Hm & F & HF)|done].
  - intros _. eexists. split; [apply recognises_word|by exists 0].
  - intros _. eexists. split; [apply recognises_range|by exists 0].
  - intros _. eexists. split; [apply recognises_any|by exists 0].
  - intros _. eexists. split; [|by exists 0].
    assert (Hbit : recognises (lang_byte (fun x => x <= 255 /\ bit_set x b = v)) (nfa_of_bytes (bit_bytes b v))).
    { eapply recognises_ext; [|apply recognises_bytes]. intros w _. unfold lang_byte.
      by setoid_rewrite elem_of_bit_bytes. }
    destruct o as [|o]; simpl.
    + eapply recognises_ext; [|exact Hbit]. intros w _.
      rewrite (lang_cat_ext _ lang_eps _ (lang_byte (fun x => x <= 255 /\ bit_set x b = v)));
        [by rewrite lang_cat_eps_l|apply lang_skip_0|done].
    + apply (recognises_cat _ _ _ _ (recognises_skip (S o)) Hbit).
  - apply (eager_parts _ IH), eventually_list in Hnd as (ns & Hns & F & HF).
    destruct Hns as [|p n ps ns Hn Hns].
    + exists nfa_empty. split; [apply recognises_eps|]. by exists 0.
    + exists (foldl nfa_concat n ns). split; [by apply recognises_seq|].
      exists F. intros fuel Hle. cbn [pattern_to_nfa]. rewrite HF by done. apply fold_parts_some.
  - destruct ps as [|p0 ps]; [exists nfa_empty; split; [apply recognises_eps|by exists 0]|].
    apply (eager_parts _ IH), eventually_list in Hnd as (ns & Hns & F & HF).
    apply Forall2_cons_inv_l in Hns as (n & ns' & Hn & Hns & ->).
    exists (foldl nfa_union n ns'). split; [by apply recognises_unions|].
    exists F. intros fuel Hle. cbn [pattern_to_nfa]. rewrite HF by done. apply fold_parts_some.
  - exists (nfa_concat (nfa_skip n) m). split; [apply (recognises_cat _ _ _ _ (recognises_skip n) Hm)|].
    exists F. intros fuel Hle. cbn [pattern_to_nfa]. by rewrite HF by done.
  - destruct n as [|n]; [exists nfa_empty; split; [apply recognises_eps|by exists 0]|].
    eexists. split; [apply (recognises_repeat _ _ n Hm)|].
    exists F. intros fuel Hle. cbn [pattern_to_nfa]. by rewrite HF by done.
  - intros _. eexists. split; [apply (recognises_cat _ _ _ _ (recognises_skip n) (recognises_word u))|by exists 0].
  - eexists. split; [apply (recognises_cat _ _ _ _ Hm recognises_any_star)|].
    exists F. intros fuel Hle. cbn [pattern_to_nfa]. by rewrite HF by done.
Qed.

(** Where every alternation has a part, the two languages are one. *)
Lemma eager_lang_pat p : no_empty_any p = true -> forall w, eager_lang p w <-> pat_lang p w.
Proof.
  induction p as [u|l h| |o b v|ps IH|ps IH|ps IH|n p IH|p n IH|n u|p IH|p IH] using pattern_ind';
    intros Hne; cbn [eager_lang pat_lang no_empty_any] in *; intros w; try done.
  - revert w Hne. induction IH as [|p ps Hp _ IH]; intros w; cbn [foldr forallb]; [done|].
    intros [H1 H2]%andb_true_iff. apply lang_cat_ext; [by apply Hp|intros v; by apply IH].
  - destruct ps as [|p0 ps]; [done|]. revert Hne.
    induction IH as [|p ps' Hp _ IH]; cbn [foldr forallb]; [done|].
    intros [H1 H2]%andb_true_iff. by rewrite (Hp H1 w), (IH H2).
  - destruct ps as [|p0 ps]; [done|]. revert Hne.
    induction IH as [|p ps' Hp _ IH]; cbn [foldr forallb]; [done|].
    intros [H1 H2]%andb_true_iff. by rewrite (Hp H1 w), (IH H2).
  - apply lang_cat_ext; [done|by apply IH].
  - revert w. induction n as [|n IHn]; intros w; cbn [Nat.iter]; [done|]. apply lang_cat_ext; [by apply IH|done].
  - apply lang_cat_ext; [by apply IH|done].
  - by rewrite (IH Hne w).
Qed.

(** ** Deny filters *)

Lemma re_word_snoc w c : re_word (w ++ [c]) = re_then (re_word w) (re_byte c).
Proof. unfold re_word. by rewrite foldl_app. Qed.

Lemma re_byte_sym c : re_byte c = ReSym {| bc_ranges := [(c, c)] |}.
Proof. unfold re_byte, bc_byte, bc_range. by rewrite Nat.ltb_irrefl. Qed.

Lemma re_byte_derive b c : re_derive (re_byte c) b = if b =? c then ReEpsilon else ReEmpty.
Proof.
  rewrite re_byte_sym. cbn [re_derive].
  assert (bc_contains {| bc_ranges := [(c, c)] |} b = (b =? c)) as ->; [|done].
  apply eq_true_iff_eq. rewrite contains_cons, Nat.eqb_eq. simpl. split; [|lia].
  intros [?|?]; [lia|done].
Qed.

(** The word regex of a non-empty word is neither empty nor nullable, and its
    derivative drops the first byte or is empty. *)
Lemma re_word_cons_shape c w :
  re_nullable (re_word (c :: w)) = false /\
  (forall r, r <> ReEmpty -> r <> ReEpsilon -> re_then (re_word (c :: w)) r = ReCat (re_word (c :: w)) r) /\
  (forall b, re_derive (re_word (c :: w)) b = if b =? c then re_word w else ReEmpty).
Proof.
  induction w as [|d w (Hn & Hcat & Hd)] using rev_ind.
  - assert (re_word [c] = re_byte c) as -> by (cbn; by rewrite re_byte_sym). split_and!.
    + by rewrite re_byte_sym.
    + intros r ??. rewrite re_byte_sym. by destruct r.
    + intros b. apply re_byte_derive.
  - change (c :: w ++ [d]) with ((c :: w) ++ [d]). rewrite !re_word_snoc.
    rewrite Hcat by (by rewrite re_byte_sym). split_and!.
    + simpl. by rewrite Hn.
    + intros r ??. by destruct r.
    + intros b. cbn [re_derive]. rewrite Hn, Hd. by destruct (b =? c).
Qed.

Lemma any_star_shape : any_star <> ReEmpty /\ any_star <> ReEpsilon.
Proof. done. Qed.

Lemma re_prefix_word_derive c w b :
  re_derive (re_prefix_of (re_word (c :: w))) b =
    if b =? c then re_prefix_of (re_word w) else ReEmpty.
Proof.
  destruct (re_word_cons_shape c w) as (Hn & Hcat & Hd).
  unfold re_prefix_of. rewrite Hcat by done. cbn [re_derive]. rewrite Hn, Hd. by destruct (b =? c).
Qed.

(** The residuals of a deny filter on a prefix. *)
Fixpoint deny_residuals (w : word) : list Re :=
  match w with
  | [] => [re_not any_star; re_not ReEmpty]
  | _ :: w' => re_not (re_prefix_of (re_word w)) :: deny_residuals w'
  end.

Lemma deny_residuals_head w : re_not (re_prefix_of (re_word w)) ∈ deny_residuals w.
Proof. destruct w; left. Qed.

Lemma deny_residuals_dead w : re_not ReEmpty ∈ deny_residuals w.
Proof. induction w; simpl; [right; left|by right]. Qed.

Lemma prefix_word_not_neg c w : re_not (re_prefix_of (re_word (c :: w))) = ReNeg (re_prefix_of (re_word (c :: w))).
Proof.
  destruct (re_word_cons_shape c w) as (_ & Hcat & _). unfold re_prefix_of. by rewrite Hcat.
Qed.

Lemma deny_residuals_closed w : derivative_closed (deny_residuals w).
Proof.
  induction w as [|c w IH]; intros r b Hr Hb.
  - simpl in Hr. apply elem_of_cons in Hr as [->|Hr].
    + unfold any_star. change (re_not (re_star re_any_byte)) with (ReNeg any_star).
      cbn [re_derive]. rewrite any_star_derive by done. left.
    + apply list_elem_of_singleton in Hr as ->. right. left.
  - simpl in Hr. apply elem_of_cons in Hr as [->|Hr]; [|right; by apply IH].
    right. rewrite prefix_word_not_neg. cbn [re_derive]. rewrite re_prefix_word_derive.
    destruct (b =? c); [apply deny_residuals_head|apply deny_residuals_dead].
Qed.

Lemma length_deny_residuals w : length (deny_residuals w) = length w + 2.
Proof. induction w; simpl; [done|]. lia. Qed.

Lemma deny_prefix_compile_returns w fuel :
  length w + 3 <= fuel -> is_Some (pattern_compile fuel (PNot (PPrefixOf (PWord w)))).
Proof.
  intros Hf. unfold pattern_compile, compile_with. cbn [needs_derivative to_re].
  eapply re_compile_returns; [apply deny_residuals_head|apply deny_residuals_closed|].
  rewrite length_deny_residuals. lia.
Qed.

(** The nested prefix reaches the residuals that grow without bound. *)
Lemma nested_prefix_derive w :
  foldl re_derive (re_not (re_prefix_of (re_prefix_of (re_word w)))) w = ReNeg (residual 0).
Proof.
  induction w as [|c w IH]; [reflexivity|]. cbn [foldl].
  destruct (re_word_cons_shape c w) as (Hn & Hcat & Hd).
  assert (Hp : re_prefix_of (re_word (c :: w)) = ReCat (re_word (c :: w)) any_star) by (by apply Hcat).
  assert (Hpn : re_nullable (re_prefix_of (re_word (c :: w))) = false) by (rewrite Hp; simpl; by rewrite Hn).
  assert (Hpp : re_prefix_of (re_prefix_of (re_word (c :: w))) =
    ReCat (re_prefix_of (re_word (c :: w))) any_star) by (rewrite Hp; reflexivity).
  rewrite Hpp. cbn [re_not re_derive]. rewrite Hpn, re_prefix_word_derive, Nat.eqb_refl.
  exact IH.
Qed.

(** ** Theorems *)

(** C38: the eager compiler refines the language of the pattern: on every
    pattern that is sent to it (no complement) the Thompson automaton, its subset
    construction and the products inside it return, without reaching the
    unreachable arm or an index out of range, one well-formed table that accepts
    exactly the byte strings of the pattern, an alternation over no parts taken as
    the empty word; where every alternation has a part, that is what the pattern
    denotes under the derivative compiler too. *)
Theorem eager_compiler_refines (p : Pattern) :
  needs_derivative p = false ->
  exists d fuel0, (forall fuel, fuel0 <= fuel -> pattern_compile fuel p = Some d) /\
    dfa_ok d /\ (forall w, is_word w -> dfa_matches d w = true <-> eager_lang p w) /\
    (no_empty_any p = true -> forall w, is_word w -> dfa_matches d w = true <-> pat_lang p w).
Proof.
  intros Hnd. destruct (pattern_to_nfa_eager p Hnd) as (n & Hn & Hev).
  destruct (compile_eventually p n Hnd Hn Hev) as (d & [Hok Hm] & F & HF).
  exists d, F. split_and!; [done|done|done|]. intros Hne w Hw. by rewrite (Hm w Hw), eager_lang_pat.
Qed.

Lemma eager_compiler_refines_witness :
  exists d fuel0, (forall fuel, fuel0 <= fuel ->
      pattern_compile fuel (PAll [PPrefixOf (PWord [104]); PSeq [PAnyByte; PRange 97 122]]) = Some d) /\
    dfa_ok d /\ dfa_matches d [104; 105] = true.
Proof.
  destruct (eager_compiler_refines (PAll [PPrefixOf (PWord [104]); PSeq [PAnyByte; PRange 97 122]])
    eq_refl) as (d & F & HF & Hok & _ & Hm).
  exists d, F. split; [exact HF|]. split; [exact Hok|]. apply Hm; [reflexivity|repeat constructor; lia|].
  rewrite <-to_re_lang, <-re_matches_lang. vm_compute. reflexivity.
Defined.

(** A pattern with a complement compiles through the derivative front end
    to a table of the same language: whenever the compiler returns, the table
    is well formed and accepts exactly the byte strings the pattern denotes. *)
Theorem deny_compiler_refines (fuel : nat) (p : Pattern) (d : Dfa) :
  needs_derivative p = true -> pattern_compile fuel p = Some d ->
  dfa_ok d /\ (forall w, is_word w -> dfa_matches d w = true <-> pat_lang p w).
Proof.
  intros Hnd. unfold pattern_compile, compile_with. rewrite Hnd. intros Hd.
  apply re_compile_spec in Hd as [Hok Hm]. split; [done|]. intros w Hw.
  by rewrite Hm, re_matches_lang, to_re_lang.
Qed.

Lemma deny_compiler_refines_witness :
  exists d, pattern_compile 8 (PNot (PPrefixOf (PWord [47; 120]))) = Some d /\
    dfa_ok d /\ (dfa_matches d [47; 120; 1] = true <-> pat_lang (PNot (PPrefixOf (PWord [47; 120]))) [47; 120; 1]).
Proof.
  destruct (pattern_compile 8 (PNot (PPrefixOf (PWord [47; 120])))) as [d|] eqn:E; [|by vm_compute in E].
  exists d. split; [done|].
  destruct (deny_compiler_refines 8 (PNot (PPrefixOf (PWord [47; 120]))) d eq_refl E) as [Hok Hm].
  split; [exact Hok|]. apply Hm. repeat constructor; lia.
Defined.

(** The deny filter on a namespace always compiles: the complement of a
    literal prefix has at most two residuals more than the prefix has bytes, so
    the compiler returns, and its table accepts exactly the byte strings that
    do not start with the prefix. *)
Theorem deny_prefix_compiles (w : word) (fuel : nat) :
  length w + 3 <= fuel ->
  exists d, pattern_compile fuel (PNot (PPrefixOf (PWord w))) = Some d /\ dfa_ok d /\
    (forall v, is_word v -> dfa_matches d v = true <-> ~ w `prefix_of` v).
Proof.
  intros Hf. destruct (deny_prefix_compile_returns w fuel Hf) as [d Hd]. exists d. split; [exact Hd|].
  unfold pattern_compile, compile_with in Hd. cbn [needs_derivative] in Hd.
  apply re_compile_spec in Hd as [Hok Hm]. split; [done|]. intros v Hv.
  rewrite Hm, re_matches_lang, to_re_lang by done. cbn [pat_lang]. unfold lang_cat.
  split; intros Hn Hp; apply Hn.
  - destruct Hp as [k ->]. apply Forall_app in Hv as [_ Hk]. by exists w, k.
  - destruct Hp as (u & k & -> & -> & _). by exists k.
Qed.

Lemma deny_prefix_compiles_witness :
  exists d, pattern_compile 8 (PNot (PPrefixOf (PWord [47; 120]))) = Some d /\
    dfa_matches d [47; 121] = true.
Proof.
  destruct (deny_prefix_compiles [47; 120] 8) as (d & Hd & _ & Hm); [simpl; lia|].
  exists d. split; [exact Hd|]. apply Hm; [repeat constructor; lia|]. by intros [k ?].
Defined.

(** The deny filter on a prefix of a prefix never compiles: although the
    pattern denotes the same language as the single prefix, the derivative
    compiler runs forever on it, whatever the literal, because alternation is
    not reassociated and every byte adds a residual. *)
Theorem nested_prefix_deny_diverges (w : word) :
  is_word w -> forall fuel, pattern_compile fuel (PNot (PPrefixOf (PPrefixOf (PWord w)))) = None.
Proof.
  intros Hw fuel. unfold pattern_compile, compile_with. cbn [needs_derivative to_re].
  apply (re_compile_diverges _ w Hw). apply nested_prefix_derive.
Qed.

Lemma nested_prefix_deny_diverges_witness :
  forall fuel, pattern_compile fuel (PNot (PPrefixOf (PPrefixOf (PWord [47])))) = None.
Proof. apply (nested_prefix_deny_diverges [47]). repeat constructor; lia. Defined.

(** The two compilers disagree on an alternation over nothing: the eager
    one makes it the automaton of the empty word, the derivative one the empty
    regex, so negating [Any([])] twice changes what it accepts. *)
Theorem empty_any_depends_on_path :
  (exists d, pattern_compile 4 (PAny []) = Some d /\ dfa_matches d [] = true) /\
  (exists d, pattern_compile 4 (PNot (PNot (PAny []))) = Some d /\
     forall w, is_word w -> dfa_matches d w = false).
Proof.
  split.
  - destruct (pattern_compile 4 (PAny [])) as [d|] eqn:E; [|by vm_compute in E].
    exists d. split; [done|]. vm_compute in E. injection E as <-. reflexivity.
  - destruct (pattern_compile 4 (PNot (PNot (PAny [])))) as [d|] eqn:E; [|by vm_compute in E].
    exists d. split; [done|]. change (re_compile 4 ReEmpty = Some d) in E.
    apply re_compile_empty in E as [_ Hd]. intros w _. apply Hd.
Qed.
