(* ===== verification/Elimination.v ===== *)
(** * From a table back to a regex (dfa/src/derivative.rs, [Re::from_dfa])

    State elimination on the matrix of edge regexes, with a fresh source and a
    fresh sink.  A matrix is a list of rows; an index outside it is a panic of
    the code and an [ReEmpty] here, and no index of a well-formed table is.
    The theorem says that the recovered regex has the language of the table. *)

From S2P Require Import Prelude.
From S2P Require Import Regex Automata Nfa NfaProofs PatternProofs.
From stdpp Require Import list sorting.
From Stdlib Require Import Lia.

#[local] Open Scope nat_scope.

(** ** The matrix *)

Abbreviation matrix := (list (list Re)).

Definition mget (g : matrix) (i j : nat) : Re :=
  match g !! i with Some row => default ReEmpty (row !! j) | None => ReEmpty end.

Definition mset (g : matrix) (i j : nat) (r : Re) : matrix := alter (<[j := r]>) i g.

(** ** Grouping the bytes of a row by target *)

(** [entry.last_mut()]: extend the last run if the byte continues it. *)
Definition extend_run (rs : ranges) (b : nat) : ranges :=
  match last rs with
  | Some (lo, hi) => if hi + 1 =? b then removelast rs ++ [(lo, b)] else rs ++ [(b, b)]
  | None => [(b, b)]
  end.

(** [by_target.entry(next).or_default()] in a [BTreeMap], as an ascending list. *)
Fixpoint target_entry (t b : nat) (m : list (nat * ranges)) : list (nat * ranges) :=
  match m with
  | [] => [(t, [(b, b)])]
  | (k, rs) :: m' =>
    if t <? k then (t, [(b, b)]) :: m
    else if t =? k then (k, extend_run rs b) :: m'
    else (k, rs) :: target_entry t b m'
  end.

Definition by_target (d : Dfa) (s : nat) : list (nat * ranges) :=
  foldl (fun m b =>
    match dfa_transitions d !! (s * 256 + b) with
    | Some next => if next =? DEAD_STATE then m else target_entry next b m
    | None => m
    end) [] all_bytes.

(** The edges out of one state. *)
Definition row_edges (d : Dfa) (g : matrix) (s : nat) : matrix :=
  if s =? DEAD_STATE then g
  else foldl (fun g '(target, rs) =>
         mset g s target (re_or (mget g s target) (re_sym (bc_from_ranges rs)))) g (by_target d s).

(** ** Elimination *)

(** The body for one [k], with [eliminated] the states up to [k]. *)
Definition eliminate_cell (k : nat) (loop_re : Re) (i : nat) (g : matrix) (j : nat) : matrix :=
  if (j <=? k) || bool_decide (mget g k j = ReEmpty) then g
  else
    let through := re_then (re_then (mget g i k) loop_re) (mget g k j) in
    mset g i j (re_or (mget g i j) through).

Definition eliminate_row (total k : nat) (loop_re : Re) (g : matrix) (i : nat) : matrix :=
  if (i <=? k) || bool_decide (mget g i k = ReEmpty) then g
  else foldl (eliminate_cell k loop_re i) g (seq 0 total).

Definition eliminate_state (total : nat) (g : matrix) (k : nat) : matrix :=
  let loop_re := re_star (mget g k k) in
  foldl (eliminate_row total k loop_re) g (seq 0 total).

Definition from_dfa (d : Dfa) : Re :=
  let n := dfa_num_states d in
  let src := n in
  let sink := n + 1 in
  let total := n + 2 in
  let g := replicate total (replicate total ReEmpty) in
  let g := foldl (row_edges d) g (seq 0 n) in
  let g := mset g src (dfa_start d) ReEpsilon in
  let g := foldl (fun g acc => mset g acc sink (re_or (mget g acc sink) ReEpsilon)) g (dfa_accepting d) in
  let g := foldl (eliminate_state total) g (seq 0 n) in
  mget g src sink.

(** ** Matrix lemmas *)

Definition square (total : nat) (g : matrix) : Prop :=
  length g = total /\ Forall (fun row => length row = total) g.

Lemma mset_square total g i j r : square total g -> square total (mset g i j r).
Proof.
  intros [Hl Hr]. unfold mset. split; [by rewrite length_alter|].
  apply Forall_alter; [done|]. intros row _ Hlen. by rewrite length_insert.
Qed.

Lemma mget_mset total g i j r x y :
  square total g -> i < total -> j < total ->
  mget (mset g i j r) x y = if decide (x = i /\ y = j) then r else mget g x y.
Proof.
  intros [Hl Hr] Hi Hj. unfold mget, mset. destruct (decide (x = i)) as [->|Hne].
  - rewrite list_lookup_alter_eq. destruct (lookup_lt_is_Some_2 g i) as [row Hrow]; [lia|].
    rewrite Hrow. simpl. assert (Hlen : length row = total).
    { rewrite Forall_lookup in Hr. by eapply Hr. }
    destruct (decide (y = j)) as [->|Hy].
    + rewrite list_lookup_insert_eq by lia. by rewrite decide_True.
    + rewrite list_lookup_insert_ne by done. by rewrite decide_False by naive_solver.
  - rewrite list_lookup_alter_ne by done. by rewrite decide_False by naive_solver.
Qed.

Lemma mget_out total g x y : square total g -> total <= y -> mget g x y = ReEmpty.
Proof.
  intros [_ Hr] Hy. unfold mget. destruct (g !! x) as [row|] eqn:E; [|done].
  rewrite Forall_lookup in Hr. specialize (Hr _ _ E). simpl in Hr. by rewrite lookup_ge_None_2 by lia.
Qed.

Lemma replicate_square total : square total (replicate total (replicate total ReEmpty)).
Proof.
  split; [apply length_replicate|]. apply Forall_replicate, length_replicate.
Qed.

Lemma mget_replicate total i j : mget (replicate total (replicate total ReEmpty)) i j = ReEmpty.
Proof.
  unfold mget. destruct (_ !! i) as [row|] eqn:E; [|done].
  apply lookup_replicate in E as [-> _]. destruct (_ !! j) as [r|] eqn:E'; [|done].
  by apply lookup_replicate in E' as [-> _].
Qed.

(** The matrix after eliminating [k], entry by entry. *)
Lemma eliminate_row_spec total k loop_re g i :
  square total g -> k < total -> i < total ->
  square total (eliminate_row total k loop_re g i) /\
  (forall x y, mget (eliminate_row total k loop_re g i) x y =
    if decide (x = i /\ k < i /\ k < y < total /\ mget g i k <> ReEmpty /\ mget g k y <> ReEmpty)
    then re_or (mget g i y) (re_then (re_then (mget g i k) loop_re) (mget g k y))
    else mget g x y).
Proof.
  intros Hg Hk Hi. unfold eliminate_row. destruct (Nat.leb_spec i k) as [Hle|Hlt].
  { simpl. split; [done|]. intros x y. rewrite decide_False by lia. done. }
  simpl. case_bool_decide as Eik.
  { split; [done|]. intros x y. rewrite decide_False by naive_solver. done. }
  assert (Hgen : forall m a g', square total g' -> a + m <= total ->
    (forall x y, y >= a -> mget g' x y = mget g x y) -> (forall y, mget g' k y = mget g k y) ->
    mget g' i k = mget g i k ->
    square total (foldl (eliminate_cell k loop_re i) g' (seq a m)) /\
    (forall x y, mget (foldl (eliminate_cell k loop_re i) g' (seq a m)) x y =
      if decide (x = i /\ a <= y < a + m /\ k < y /\ mget g k y <> ReEmpty)
      then re_or (mget g i y) (re_then (re_then (mget g i k) loop_re) (mget g k y))
      else mget g' x y)).
  { induction m as [|m IH]; intros a g' Hg' Ham Hsame Hrow Hcol; cbn [seq foldl].
    { split; [done|]. intros x y. by rewrite decide_False by lia. }
    set (g1 := eliminate_cell k loop_re i g' a).
    assert (Hg1 : square total g1 /\ forall x y, mget g1 x y =
      if decide (x = i /\ y = a /\ k < a /\ mget g k a <> ReEmpty)
      then re_or (mget g i a) (re_then (re_then (mget g i k) loop_re) (mget g k a))
      else mget g' x y).
    { unfold g1, eliminate_cell. rewrite !Hrow, Hcol. destruct (Nat.leb_spec a k); simpl.
      - split; [done|]. intros x y. by rewrite decide_False by lia.
      - case_bool_decide as Ea.
        + split; [done|]. intros x y. by rewrite decide_False by naive_solver.
        + split; [by apply mset_square|]. intros x y. rewrite (mget_mset total) by (done || lia).
          rewrite Hsame by lia. repeat case_decide; naive_solver. }
    destruct Hg1 as [Hsq1 Hg1]. destruct (IH (S a) g1) as [Hsq Hget]; [done|lia| | | |].
    - intros x y Hy. rewrite Hg1, decide_False by lia. apply Hsame. lia.
    - intros y. rewrite Hg1, decide_False by lia. apply Hrow.
    - rewrite Hg1, decide_False by lia. apply Hcol.
    - split; [done|]. intros x y. rewrite Hget, Hg1.
      destruct (decide (y = a)) as [->|Hy]; repeat case_decide; naive_solver lia. }
  destruct (Hgen total 0 g) as [Hsq Hget]; [done|lia|done..|].
  split; [done|]. intros x y. rewrite Hget. repeat case_decide; naive_solver lia.
Qed.

Lemma eliminate_state_spec total k g :
  square total g -> k < total ->
  square total (eliminate_state total g k) /\
  (forall x y, mget (eliminate_state total g k) x y =
    if decide (k < x < total /\ k < y < total /\ mget g x k <> ReEmpty /\ mget g k y <> ReEmpty)
    then re_or (mget g x y) (re_then (re_then (mget g x k) (re_star (mget g k k))) (mget g k y))
    else mget g x y).
Proof.
  intros Hg Hk. unfold eliminate_state. set (loop_re := re_star (mget g k k)). clearbody loop_re.
  assert (Hgen : forall m a g', square total g' -> a + m <= total ->
    (forall x y, x >= a -> mget g' x y = mget g x y) -> (forall y, mget g' k y = mget g k y) ->
    square total (foldl (eliminate_row total k loop_re) g' (seq a m)) /\
    (forall x y, mget (foldl (eliminate_row total k loop_re) g' (seq a m)) x y =
      if decide (a <= x < a + m /\ k < x /\ k < y < total /\ mget g x k <> ReEmpty /\ mget g k y <> ReEmpty)
      then re_or (mget g x y) (re_then (re_then (mget g x k) loop_re) (mget g k y))
      else mget g' x y)).
  { induction m as [|m IH]; intros a g' Hg' Ham Hsame Hrow; cbn [seq foldl].
    { split; [done|]. intros x y. by rewrite decide_False by lia. }
    destruct (eliminate_row_spec total k loop_re g' a Hg' Hk) as [Hsq1 Hg1]; [lia|].
    set (g1 := eliminate_row total k loop_re g' a) in *. clearbody g1.
    assert (Hg1' : forall x y, mget g1 x y =
      if decide (x = a /\ k < a /\ k < y < total /\ mget g a k <> ReEmpty /\ mget g k y <> ReEmpty)
      then re_or (mget g a y) (re_then (re_then (mget g a k) loop_re) (mget g k y))
      else mget g' x y).
    { intros x y. rewrite Hg1, !Hrow. by rewrite !(Hsame a) by lia. }
    destruct (IH (S a) g1) as [Hsq Hget]; [done|lia| | |].
    - intros x y Hx. rewrite Hg1', decide_False by lia. apply Hsame. lia.
    - intros y. rewrite Hg1', decide_False by lia. apply Hrow.
    - split; [done|]. intros x y. rewrite Hget, Hg1'.
      destruct (decide (x = a)) as [->|Hx]; repeat case_decide; naive_solver lia. }
  destruct (Hgen total 0 g) as [Hsq Hget]; [done|lia|done..|].
  split; [done|]. intros x y. rewrite Hget. repeat case_decide; naive_solver lia.
Qed.

(** ** Paths in a matrix *)

(** A word along a path whose inner states are at least [k]. *)
Inductive mpath (g : matrix) (k : nat) : nat -> word -> nat -> Prop :=
| mpath_edge i w j : re_lang (mget g i j) w -> mpath g k i w j
| mpath_step i u m v j : re_lang (mget g i m) u -> k <= m -> mpath g k m v j -> mpath g k i (u ++ v) j.

Lemma mpath_trans g k i u m v j : mpath g k i u m -> k <= m -> mpath g k m v j -> mpath g k i (u ++ v) j.
Proof.
  induction 1 as [i u m Hu|i u m' v' m Hu Hm' Hp IH]; intros Hm Hv; [by eapply mpath_step|].
  rewrite <-app_assoc. eapply mpath_step; [done..|]. by apply IH.
Qed.

Lemma mpath_word g k i u v j : u = v -> mpath g k i u j -> mpath g k i v j.
Proof. by intros ->. Qed.

Section Eliminate.
Context (total k : nat) (g : matrix) (Hg : square total g) (Hk : k < total).
Let g' := eliminate_state total g k.

(** An entry of the new matrix is the old edge or the way through [k]. *)
Lemma new_edge x y w :
  k < x < total -> k < y < total ->
  (re_lang (mget g' x y) w <->
   re_lang (mget g x y) w \/
   exists a b c, w = a ++ b ++ c /\ re_lang (mget g x k) a /\
     re_lang (ReStar (mget g k k)) b /\ re_lang (mget g k y) c).
Proof.
  intros Hx Hy. unfold g'. destruct (eliminate_state_spec total k g Hg Hk) as [_ ->].
  case_decide as Hd.
  - rewrite re_or_lang, !re_then_lang. cbn [re_lang]. setoid_rewrite re_then_lang. cbn [re_lang].
    setoid_rewrite re_star_lang. split; (intros [?|Hw]; [by left|right]).
    + destruct Hw as (? & c & -> & (a & b & -> & ? & ?) & ?). exists a, b, c. by rewrite <-app_assoc.
    + destruct Hw as (a & b & c & -> & ? & ? & ?). exists (a ++ b), c. rewrite <-app_assoc. eauto 8.
  - split; [by left|]. intros [?|(a & b & c & -> & Ha & _ & Hc)]; [done|]. exfalso. apply Hd.
    split_and!; try lia; intros E; [rewrite E in Ha|rewrite E in Hc]; done.
Qed.

Lemma star_mpath u v j :
  re_lang (ReStar (mget g k k)) u -> mpath g k k v j -> mpath g k k (u ++ v) j.
Proof.
  intros (ws & -> & Hws) Hv. induction Hws as [|x ws Hx _ IH]; simpl; [done|].
  rewrite <-app_assoc. by eapply mpath_step.
Qed.

Lemma eliminate_sound i w j :
  mpath g' (S k) i w j -> k < i < total -> k < j < total -> mpath g k i w j.
Proof.
  intros Hp Hi Hj. pose proof (proj1 (eliminate_state_spec total k g Hg Hk)) as Hg'. induction Hp as [i w j He|i u m v j He Hm Hp IH].
  - apply new_edge in He as [He|(a & b & c & -> & Ha & Hb & Hc)]; [by constructor| |done..].
    eapply mpath_step; [exact Ha|lia|]. apply star_mpath; [done|]. by constructor.
  - destruct (decide (m < total)) as [Hmt|Hmt]; [|exfalso; revert He; unfold g'; rewrite (mget_out total) by (done || lia); done].
    specialize (IH ltac:(lia) Hj).
    apply new_edge in He as [He|(a & b & c & -> & Ha & Hb & Hc)]; [| |done|lia].
    + eapply mpath_step; [exact He|lia|done].
    + rewrite <-!app_assoc. eapply mpath_step; [exact Ha|lia|]. apply star_mpath; [done|].
      eapply mpath_step; [exact Hc|lia|done].
Qed.

(** A path of the old matrix: from a later state it is a path of the new one;
    from [k] it loops there and then leaves. *)
Lemma eliminate_complete i w j :
  mpath g k i w j -> k < j < total ->
  (k < i < total -> mpath g' (S k) i w j) /\
  (i = k -> exists u v, w = u ++ v /\ re_lang (ReStar (mget g k k)) u /\
     (re_lang (mget g k j) v \/
      exists m x y, v = x ++ y /\ k < m < total /\ re_lang (mget g k m) x /\ mpath g' (S k) m y j)).
Proof.
  intros Hp Hj. induction Hp as [i w j He|i u m v j He Hm Hp IH].
  - split.
    + intros Hi. apply mpath_edge, new_edge; [done..|]. by left.
    + intros ->. exists [], w. split; [done|]. split; [by exists []|by left].
  - destruct (decide (m < total)) as [Hmt|Hmt]; [|exfalso; revert He; rewrite (mget_out total) by (done || lia); done].
    destruct (IH Hj) as [IHlater IHk]. clear IH. split.
    + intros Hi. destruct (decide (m = k)) as [->|Hne].
      * destruct (IHk eq_refl) as (a & b & -> & Ha & Hb). destruct Hb as [Hb|(m & x & y & -> & Hm' & Hx & Hy)].
        -- apply mpath_edge, new_edge; [done..|]. right. exists u, a, b. done.
        -- apply (mpath_word _ _ _ ((u ++ a ++ x) ++ y)); [by rewrite <-!app_assoc|].
           apply (mpath_step _ _ _ _ m); [|lia|exact Hy]. apply new_edge; [done..|]. right. exists u, a, x. done.
      * apply (mpath_step _ _ _ _ m); [|lia|apply IHlater; lia]. apply new_edge; [done|lia|]. by left.
    + intros ->. destruct (decide (m = k)) as [->|Hne].
      * destruct (IHk eq_refl) as (a & b & -> & (ws & -> & Hws) & Hb). exists (u ++ concat ws), b.
        split; [by rewrite app_assoc|]. split; [|done]. exists (u :: ws). split; [done|]. by constructor.
      * exists [], (u ++ v). split; [done|]. split; [by exists []|]. right. exists m, u, v.
        split; [done|]. split; [lia|]. split; [done|]. apply IHlater. lia.
Qed.
End Eliminate.

Lemma eliminate_all total n g :
  square total g -> n <= total ->
  let g' := foldl (eliminate_state total) g (seq 0 n) in
  square total g' /\
  (forall i w j, n <= i < total -> n <= j < total -> mpath g' n i w j <-> mpath g 0 i w j).
Proof.
  intros Hg. induction n as [|n IH]; intros Hn; [done|].
  rewrite seq_S, foldl_app. cbn [foldl]. destruct IH as [Hsq Hp]; [lia|]. simpl in Hsq, Hp.
  set (gn := foldl (eliminate_state total) g (seq 0 n)) in *. clearbody gn.
  split; [by apply eliminate_state_spec|]. intros i w j Hi Hj. rewrite <-Hp by lia. split.
  - intros H. eapply eliminate_sound; [exact Hsq|lia|exact H|lia|lia].
  - intros H. eapply (eliminate_complete total n gn Hsq ltac:(lia)); [exact H|lia|lia].
Qed.

(** ** The initial matrix *)

Definition covers_target (m : list (nat * ranges)) (t b : nat) : Prop :=
  exists rs, (t, rs) ∈ m /\ covers rs b.

Lemma covers_app rs1 rs2 b : covers (rs1 ++ rs2) b <-> covers rs1 b \/ covers rs2 b.
Proof. unfold covers. setoid_rewrite elem_of_app. naive_solver. Qed.

Lemma covers_one lo hi b : covers [(lo, hi)] b <-> lo <= b <= hi.
Proof. rewrite covers_cons. pose proof (covers_nil b). simpl. tauto. Qed.

Lemma extend_run_spec rs b :
  Forall byte_range_ok rs -> b <= 255 ->
  Forall byte_range_ok (extend_run rs b) /\
  (forall x, covers (extend_run rs b) x <-> covers rs x \/ x = b).
Proof.
  intros Hrs Hb. unfold extend_run. destruct (last rs) as [[lo hi]|] eqn:El.
  - apply last_Some in El as [rs' ->]. apply Forall_app in Hrs as [Hrs' Hl].
    inversion Hl as [|?? [Hlo Hhi] _]; subst. simpl in Hlo, Hhi. destruct (Nat.eqb_spec (hi + 1) b).
    + rewrite removelast_last. split.
      * apply Forall_app. split; [done|]. constructor; [|constructor]. unfold byte_range_ok. simpl. lia.
      * intros x. rewrite !covers_app, !covers_one. intuition lia.
    + split.
      * apply Forall_app. split; [by apply Forall_app|]. constructor; [|constructor]. unfold byte_range_ok. simpl. lia.
      * intros x. rewrite !covers_app, !covers_one. intuition lia.
  - apply last_None in El as ->. split; [constructor; [|constructor]; unfold byte_range_ok; simpl; lia|].
    intros x. rewrite covers_one. pose proof (covers_nil x). intuition lia.
Qed.

Definition targets_ok (m : list (nat * ranges)) : Prop :=
  Forall (fun e => e.2 <> [] /\ Forall byte_range_ok e.2) m.

Lemma extend_run_nonempty rs b : extend_run rs b <> [].
Proof.
  unfold extend_run. destruct (last rs) as [[lo hi]|]; [|done].
  destruct (_ =? _); by intros [_ ?]%app_nil.
Qed.

Lemma covers_target_cons k rs m t x :
  covers_target ((k, rs) :: m) t x <-> (t = k /\ covers rs x) \/ covers_target m t x.
Proof. unfold covers_target. setoid_rewrite elem_of_cons. naive_solver. Qed.

Lemma target_entry_spec t b m :
  targets_ok m -> b <= 255 ->
  targets_ok (target_entry t b m) /\
  (forall t' x, covers_target (target_entry t b m) t' x <-> covers_target m t' x \/ (t' = t /\ x = b)).
Proof.
  intros Hm Hb. assert (Hnew : Forall byte_range_ok [(b, b)]).
  { constructor; [|constructor]. unfold byte_range_ok. simpl. lia. }
  induction Hm as [|[k rs] m [Hne0 Hrs] Hm IH]; simpl.
  - split; [by constructor; [|constructor]|]. intros t' x. rewrite covers_target_cons, covers_one.
    unfold covers_target. setoid_rewrite elem_of_nil. naive_solver lia.
  - destruct (Nat.ltb_spec t k).
    + split; [by constructor; [|constructor]|]. intros t' x. rewrite (covers_target_cons t), covers_one. intuition lia.
    + destruct (Nat.eqb_spec t k) as [->|Hne].
      * destruct (extend_run_spec rs b Hrs Hb) as [Hok Hcov].
        split; [constructor; [split; [apply extend_run_nonempty|done]|done]|].
        intros t' x. rewrite !covers_target_cons, Hcov. intuition.
      * destruct IH as [Hok Hcov]. split; [by constructor|]. intros t' x.
        rewrite !covers_target_cons, Hcov. tauto.
Qed.

Lemma by_target_spec d s :
  targets_ok (by_target d s) /\
  (forall t b, covers_target (by_target d s) t b <->
     b <= 255 /\ dfa_transitions d !! (s * 256 + b) = Some t /\ t <> DEAD_STATE).
Proof.
  unfold by_target.
  assert (Hgen : forall l m, targets_ok m -> (forall b, b ∈ l -> b <= 255) ->
    let m' := foldl (fun m b => match dfa_transitions d !! (s * 256 + b) with
      | Some next => if next =? DEAD_STATE then m else target_entry next b m
      | None => m end) m l in
    targets_ok m' /\ (forall t b, covers_target m' t b <-> covers_target m t b \/
      (b ∈ l /\ dfa_transitions d !! (s * 256 + b) = Some t /\ t <> DEAD_STATE))).
  { induction l as [|b l IH]; intros m Hm Hl; simpl.
    - split; [done|]. setoid_rewrite elem_of_nil. tauto.
    - set (m1 := match dfa_transitions d !! (s * 256 + b) with Some _ => _ | None => _ end).
      assert (H1 : targets_ok m1 /\ forall t x, covers_target m1 t x <-> covers_target m t x \/
        (x = b /\ dfa_transitions d !! (s * 256 + b) = Some t /\ t <> DEAD_STATE)).
      { unfold m1. destruct (dfa_transitions d !! (s * 256 + b)) as [next|]; [|naive_solver].
        destruct (Nat.eqb_spec next DEAD_STATE); [naive_solver|].
        destruct (target_entry_spec next b m Hm) as [Hok Hc]; [apply Hl; left|].
        split; [done|]. intros t x. rewrite Hc. naive_solver. }
      destruct H1 as [Hok1 Hc1]. destruct (IH m1 Hok1) as [Hok Hc]; [intros x Hx; apply Hl; by right|].
      split; [done|]. intros t x. rewrite Hc, Hc1, elem_of_cons. naive_solver. }
  destruct (Hgen all_bytes []) as [Hok Hc]; [constructor| |].
  { intros b Hb. apply elem_of_byte_seq in Hb. lia. }
  split; [done|]. intros t b. rewrite Hc. unfold covers_target, all_bytes.
  setoid_rewrite elem_of_nil. rewrite elem_of_byte_seq. split.
  - intros [(? & [] & _)|(? & ?)]. split; [lia|done].
  - intros (? & ?). right. split; [lia|done].
Qed.

Section Recovery.
Context (d : Dfa) (Hd : dfa_ok d).
Let n := dfa_num_states d.
Let total := n + 2.

(** The byte edges of the table. *)
Definition table_edge (s t : nat) (w : word) : Prop :=
  s <> DEAD_STATE /\ exists b, w = [b] /\ b <= 255 /\
    dfa_transitions d !! (s * 256 + b) = Some t /\ t <> DEAD_STATE.

Lemma row_edges_spec g s :
  square total g -> s < n ->
  square total (row_edges d g s) /\
  (forall x y w, re_lang (mget (row_edges d g s) x y) w <->
     re_lang (mget g x y) w \/ (x = s /\ table_edge s y w)).
Proof.
  intros Hg Hs. unfold row_edges, table_edge. destruct (Nat.eqb_spec s DEAD_STATE) as [->|Hne].
  { split; [done|]. naive_solver. }
  destruct (by_target_spec d s) as [Hok Hcov].
  assert (Hbound : forall t rs, (t, rs) ∈ by_target d s -> t < total).
  { intros t rs Hin. unfold targets_ok in Hok. rewrite Forall_forall in Hok.
    destruct (Hok _ Hin) as [Hrs Hr]. simpl in Hrs, Hr. destruct rs as [|r rs]; [done|].
    inversion Hr as [|?? [Hle _] _]; subst.
    assert (Hc : covers_target (by_target d s) t r.1).
    { exists (r :: rs). split; [done|]. apply covers_cons. left. lia. }
    apply Hcov in Hc as (_ & Ht & _). apply (ok_target d Hd) in Ht. unfold total, n. lia. }
  assert (Hgen : forall m g, square total g -> targets_ok m -> m ⊆ by_target d s ->
    let g' := foldl (fun g '(target, rs) =>
      mset g s target (re_or (mget g s target) (re_sym (bc_from_ranges rs)))) g m in
    square total g' /\
    (forall x y w, re_lang (mget g' x y) w <->
       re_lang (mget g x y) w \/ (x = s /\ exists b, w = [b] /\ covers_target m y b))).
  { clear Hg. induction m as [|[t rs] m IH]; intros g0 Hg0 Hm Hsub; cbn [foldl].
    - split; [done|]. unfold covers_target. setoid_rewrite elem_of_nil. naive_solver.
    - inversion Hm as [|?? [_ Hrs] Hm']; subst. simpl in Hrs.
      set (g1 := mset g0 s t _).
      assert (Hg1 : square total g1 /\ forall x y w, re_lang (mget g1 x y) w <->
        re_lang (mget g0 x y) w \/ (x = s /\ y = t /\ exists b, w = [b] /\ covers rs b)).
      { assert (Ht : t < total) by (apply (Hbound t rs), Hsub; left).
        split; [by apply mset_square|]. intros x y w. unfold g1.
        rewrite (mget_mset total) by (done || unfold total; lia).
        case_decide as Exy; [|naive_solver]. destruct Exy as [-> ->].
        rewrite re_or_lang, re_sym_lang. unfold bc_from_ranges.
        destruct (bc_normalize_spec rs) as [_ Hn].
        { eapply Forall_impl; [exact Hrs|]. by intros r [_ ?]. }
        setoid_rewrite Hn. naive_solver. }
      destruct Hg1 as [Hsq1 Hg1]. destruct (IH g1 Hsq1 Hm') as [Hsq Hget].
      { intros e He. apply Hsub. by right. }
      split; [done|]. intros x y w. rewrite Hget, Hg1. setoid_rewrite covers_target_cons. split.
      + intros [[?|(-> & -> & b & -> & ?)]|(-> & b & -> & ?)]; [by left|right..]; split; eauto.
      + intros [?|(-> & b & -> & [[-> ?]|?])]; [left; by left|left; right|right]; eauto 6. }
  destruct (Hgen (by_target d s) g Hg Hok) as [Hsq Hget]; [done|].
  split; [done|]. intros x y w. rewrite Hget. setoid_rewrite Hcov. split.
  - intros [?|(-> & b & ?)]; [by left|right]. split; [done|]. split; [done|]. by exists b.
  - intros [?|(-> & _ & b & ?)]; [by left|right]. split; [done|]. by exists b.
Qed.

Lemma rows_spec m g :
  square total g -> m <= n ->
  let g' := foldl (row_edges d) g (seq 0 m) in
  square total g' /\
  (forall x y w, re_lang (mget g' x y) w <-> re_lang (mget g x y) w \/ (x < m /\ table_edge x y w)).
Proof.
  intros Hg. induction m as [|m IH]; intros Hm.
  { split; [done|]. intros x y w. simpl. intuition lia. }
  rewrite seq_S, foldl_app. cbn [foldl]. destruct IH as [Hsq Hget]; [lia|]. simpl in Hsq, Hget.
  destruct (row_edges_spec (foldl (row_edges d) g (seq 0 m)) (0 + m) Hsq) as [Hsq' Hget']; [lia|].
  split; [done|]. intros x y w. rewrite Hget', Hget. split.
  - intros [[?|[? ?]]|[-> ?]]; [by left|right..]; (split; [lia|done]).
  - intros [?|[Hx ?]]; [left; by left|]. destruct (decide (x = m)) as [->|Hne]; [by right|].
    left. right. split; [lia|done].
Qed.

Lemma accept_edges_spec (accs : list nat) g :
  square total g -> (forall a, a ∈ accs -> a < n) ->
  let g' := foldl (fun g acc => mset g acc (n + 1) (re_or (mget g acc (n + 1)) ReEpsilon)) g accs in
  square total g' /\
  (forall x y w, re_lang (mget g' x y) w <->
     re_lang (mget g x y) w \/ (x ∈ accs /\ y = n + 1 /\ w = [])).
Proof.
  revert g; induction accs as [|a accs IH]; intros g Hg Hacc; cbn [foldl].
  { split; [done|]. intros x y w. rewrite elem_of_nil. tauto. }
  assert (Ha : a < n) by (apply Hacc; left).
  destruct (IH (mset g a (n + 1) (re_or (mget g a (n + 1)) ReEpsilon))) as [Hsq Hget].
  { by apply mset_square. }
  { intros x Hx. apply Hacc. by right. }
  split; [done|]. intros x y w. rewrite Hget, (mget_mset total) by (done || unfold total; lia).
  rewrite elem_of_cons. case_decide as E.
  - destruct E as [-> ->]. rewrite re_or_lang. simpl. tauto.
  - split; [tauto|]. intros [?|([->|?] & -> & ->)]; [by left|exfalso; by apply E|]. by right.
Qed.

(** The edges of the initial matrix: bytes, the source into the start, and
    the accepting states into the sink. *)
Definition initial_edge (x y : nat) (w : word) : Prop :=
  (x < n /\ table_edge x y w) \/ (x = n /\ y = dfa_start d /\ w = []) \/
  (x ∈ dfa_accepting d /\ y = n + 1 /\ w = []).

Definition initial_matrix : matrix :=
  let g := replicate total (replicate total ReEmpty) in
  let g := foldl (row_edges d) g (seq 0 n) in
  let g := mset g n (dfa_start d) ReEpsilon in
  foldl (fun g acc => mset g acc (n + 1) (re_or (mget g acc (n + 1)) ReEpsilon)) g (dfa_accepting d).

Lemma initial_matrix_spec :
  square total initial_matrix /\
  (forall x y w, re_lang (mget initial_matrix x y) w <-> initial_edge x y w).
Proof.
  unfold initial_matrix, initial_edge.
  destruct (rows_spec n _ (replicate_square total) (le_n n)) as [Hsq Hget]. simpl in Hsq, Hget.
  set (g1 := foldl (row_edges d) _ _) in *. clearbody g1.
  pose proof (ok_start d Hd) as Hstart. fold n in Hstart.
  destruct (accept_edges_spec (dfa_accepting d) (mset g1 n (dfa_start d) ReEpsilon)) as [Hsq' Hget'].
  { by apply mset_square. }
  { intros a Ha. by apply (ok_accepting d Hd) in Ha as [_ ?]. }
  split; [done|]. intros x y w. rewrite Hget', (mget_mset total) by (done || unfold total; lia).
  case_decide as E.
  - destruct E as [-> ->]. simpl. split; [intros [->|?]; auto|].
    intros [[? _]|[(_ & _ & ->)|?]]; [lia|by left|by right].
  - rewrite Hget, mget_replicate. simpl. split.
    + intros [[[]|?]|?]; auto.
    + intros [?|[(-> & -> & _)|?]]; [auto|exfalso; by apply E|auto].
Qed.

Lemma source_not_accepting : n ∉ dfa_accepting d.
Proof. intros H. apply (ok_accepting d Hd) in H. fold n in H. lia. Qed.

(** No path leads into the source or out of the sink. *)
Lemma no_path_to_source i w j : mpath initial_matrix 0 i w j -> j <> n.
Proof.
  induction 1 as [i w j He|]; [|done]. intros Ej.
  apply initial_matrix_spec in He as [(_ & _ & b & _ & _ & Ht & _)|[(_ & Hy & _)|(_ & Hy & _)]].
  - apply (ok_target d Hd) in Ht. fold n in Ht. lia.
  - pose proof (ok_start d Hd) as Hs. fold n in Hs. lia.
  - lia.
Qed.

Lemma sink_edge y w : ~ re_lang (mget initial_matrix (n + 1) y) w.
Proof.
  intros He. apply initial_matrix_spec in He as [(? & _)|[(? & _)|(Ha & _)]]; [lia|lia|].
  apply (ok_accepting d Hd) in Ha. fold n in Ha. lia.
Qed.

Lemma no_path_from_sink w j : ~ mpath initial_matrix 0 (n + 1) w j.
Proof. intros Hp. inversion Hp; subst; by eapply sink_edge. Qed.

(** From a live state, the paths into the sink are the accepting runs. *)
Lemma state_path i w j :
  mpath initial_matrix 0 i w j -> j = n + 1 -> 1 <= i < n ->
  is_word w /\ dfa_matches_from d i w = true.
Proof.
  induction 1 as [i w j He|i u m v j He _ Hp IH]; intros -> Hi.
  - apply initial_matrix_spec in He as [(_ & _ & b & _ & _ & Ht & _)|[(-> & _)|(Ha & _ & ->)]]; [|lia|].
    + apply (ok_target d Hd) in Ht. fold n in Ht. lia.
    + split; [constructor|]. simpl. by apply nmem_spec.
  - apply initial_matrix_spec in He as [(_ & _ & b & -> & Hb & Ht & Hm)|[(-> & _)|(_ & -> & _)]]; [|lia|].
    + pose proof (ok_target d Hd _ _ Ht) as Hlt. unfold DEAD_STATE in Hm.
      destruct (IH eq_refl ltac:(unfold n; lia)) as [Hw Hmat]. simpl. split; [by constructor|].
      rewrite Ht. by destruct (Nat.eqb_spec m DEAD_STATE).
    + by apply no_path_from_sink in Hp.
Qed.

Lemma state_path_complete i w :
  1 <= i < n -> is_word w -> dfa_matches_from d i w = true -> mpath initial_matrix 0 i w (n + 1).
Proof.
  intros Hi Hw. revert i Hi; induction Hw as [|b w Hb Hw IH]; intros i Hi; simpl.
  - intros Ha. apply mpath_edge, initial_matrix_spec. right. right. by apply nmem_spec in Ha.
  - destruct (_ !! _) as [t|] eqn:Et; [|done]. destruct (Nat.eqb_spec t DEAD_STATE) as [|Ht]; [done|].
    intros Hm. pose proof (ok_target d Hd _ _ Et) as Hlt. unfold DEAD_STATE in Ht.
    apply (mpath_step _ _ _ [b] t); [|lia|apply IH; [unfold n; lia|done]].
    apply initial_matrix_spec. left. split; [lia|]. split; [unfold DEAD_STATE; lia|]. by exists b.
Qed.

Lemma source_path w :
  mpath initial_matrix 0 n w (n + 1) <-> is_word w /\ dfa_matches d w = true.
Proof.
  pose proof (ok_start d Hd) as Hs. fold n in Hs.
  assert (Hfirst : forall y u, re_lang (mget initial_matrix n y) u <-> y = dfa_start d /\ u = []).
  { intros y u. destruct initial_matrix_spec as [_ ->]. unfold initial_edge.
    pose proof source_not_accepting. split; [intros [[? _]|[?|[? _]]]; [lia|tauto|done]|tauto]. }
  split.
  - intros Hp. inversion Hp as [? ? ? He|? u m v ? He _ Hp']; subst; apply Hfirst in He as [E ->]; [lia|].
    subst m. by eapply state_path.
  - intros [Hw Hm]. apply (mpath_step _ _ _ [] (dfa_start d)); [by apply Hfirst|lia|].
    by apply state_path_complete.
Qed.

Lemma from_dfa_lang w : re_lang (from_dfa d) w <-> is_word w /\ dfa_matches d w = true.
Proof.
  rewrite <-source_path. unfold from_dfa. fold n. fold total.
  change (foldl _ (mset _ _ _ _) (dfa_accepting d)) with initial_matrix.
  destruct initial_matrix_spec as [Hsq _].
  destruct (eliminate_all total n initial_matrix Hsq ltac:(unfold total; lia)) as [Hsq' Hp].
  simpl in Hsq', Hp. set (g := foldl (eliminate_state total) initial_matrix (seq 0 n)) in *. clearbody g.
  rewrite <-Hp by (unfold total; lia). split; [by constructor|].
  intros H. inversion H as [? ? ? He|? u m v ? He Hm Hp']; subst; [done|exfalso].
  destruct (decide (m < total)) as [Hmt|Hmt].
  - destruct (decide (m = n)) as [->|Hne].
    + apply (no_path_to_source n u n); [|done]. apply Hp; [unfold total; lia..|]. by constructor.
    + apply Hp in Hp'; [|unfold total in *; lia..]. replace m with (n + 1) in Hp' by (unfold total in *; lia).
      by apply no_path_from_sink in Hp'.
  - revert He. by rewrite (mget_out total) by (done || lia).
Qed.
End Recovery.

(** ** Theorem *)

(** C39: the regex recovered from a table by state elimination has the
    table's language: on every well-formed table it matches exactly the byte
    strings the table accepts, so a filter added as a compiled table and one
    added as a regex constrain the same messages. *)
Theorem recovered_regex_equivalent (d : Dfa) (w : word) :
  dfa_ok d -> is_word w -> re_matches (from_dfa d) w = dfa_matches d w.
Proof.
  intros Hd Hw. apply eq_true_iff_eq. rewrite re_matches_lang, from_dfa_lang by done. tauto.
Qed.

Lemma recovered_regex_equivalent_witness :
  exists d, re_compile 8 (re_word [104; 105]) = Some d /\ re_matches (from_dfa d) [104; 105] = true.
Proof.
  destruct (re_compile 8 (re_word [104; 105])) as [d|] eqn:E; [|by vm_compute in E].
  exists d. split; [done|]. pose proof (re_compile_spec _ _ _ E) as [Hok Hm].
  rewrite (recovered_regex_equivalent d [104; 105]); [|done|repeat constructor; lia].
  rewrite Hm by (repeat constructor; lia). reflexivity.
Defined.
