(* ===== verification/Filter.v ===== *)
(** * Topic filters and the revocable filter tree (dfa/src/filter.rs)

    [TopicFilter] wraps a compiled pattern; [FilterTree] is a vector of nodes,
    each with a regex, its children and an active flag, whose combined filter
    is the intersection of the active part reached from the root.  A panic (a
    parent or node out of range) is [None].

    The theorems: every tree built by the operations is a tree, so the
    recursion returns; the combined table accepts exactly the messages that
    every live node accepts; revoking a node removes it and what hangs below it
    from the constraint and nothing else. *)

From S2P Require Import Prelude.
From S2P Require Import Regex Automata Nfa NfaProofs PatternProofs Elimination.
From stdpp Require Import list.
From Stdlib Require Import Lia.

#[local] Open Scope nat_scope.

(** ** Topic filters *)

Record TopicFilter := { tf_pattern : Pattern; tf_compiled : Dfa }.

Definition tf_from_pattern (fuel : nat) (p : Pattern) : option TopicFilter :=
  d ← pattern_compile fuel p; Some {| tf_pattern := p; tf_compiled := d |}.

Definition tf_exact (fuel : nat) (topic : word) : option TopicFilter :=
  tf_from_pattern fuel (PWord topic).

Definition tf_first_byte_range (fuel low high tail_len : nat) : option TopicFilter :=
  tf_from_pattern fuel (PSeq (PRange low high :: replicate tail_len PAnyByte)).

Definition tf_prefix (fuel : nat) (prefix : word) : option TopicFilter :=
  tf_from_pattern fuel (PPrefixOf (PWord prefix)).

Definition tf_matches (f : TopicFilter) (message : word) : bool :=
  dfa_matches (tf_compiled f) message.

Definition tf_matches_prefix_bytes (f : TopicFilter) (message : word) (len : nat) : bool :=
  if length message <? len then false else dfa_matches (tf_compiled f) (take len message).

(** ** The filter tree *)

Record FilterNode := {
  fn_re : Re;
  fn_children : list nat;
  fn_active : bool;
}.

Record FilterTree := { ft_nodes : list FilterNode; ft_root : nat }.

Definition accept_all_re : Re := re_star re_any_byte.

Definition ft_new : FilterTree := {|
  ft_nodes := [{| fn_re := accept_all_re; fn_children := []; fn_active := true |}];
  ft_root := 0;
|}.

Definition push_child (idx : nat) (nd : FilterNode) : FilterNode :=
  {| fn_re := fn_re nd; fn_children := fn_children nd ++ [idx]; fn_active := fn_active nd |}.

Definition deactivate (nd : FilterNode) : FilterNode :=
  {| fn_re := fn_re nd; fn_children := fn_children nd; fn_active := false |}.

Definition ft_add_node (t : FilterTree) (parent : nat) (re : Re) : option (FilterTree * nat) :=
  let idx := length (ft_nodes t) in
  let nodes := ft_nodes t ++ [{| fn_re := re; fn_children := []; fn_active := true |}] in
  if parent <? length nodes
  then Some ({| ft_nodes := alter (push_child idx) parent nodes; ft_root := ft_root t |}, idx)
  else None.

Definition ft_add_filter (t : FilterTree) (parent : nat) (d : Dfa) : option (FilterTree * nat) :=
  ft_add_node t parent (from_dfa d).

Definition ft_add_pattern (t : FilterTree) (parent : nat) (p : Pattern) : option (FilterTree * nat) :=
  ft_add_node t parent (to_re p).

Definition ft_add_re (t : FilterTree) (parent : nat) (re : Re) : option (FilterTree * nat) :=
  ft_add_node t parent re.

Definition ft_revoke (t : FilterTree) (node_idx : nat) : option FilterTree :=
  if node_idx <? length (ft_nodes t)
  then Some {| ft_nodes := alter deactivate node_idx (ft_nodes t); ft_root := ft_root t |}
  else None.

Fixpoint ft_combined_re (fuel : nat) (t : FilterTree) (node_idx : nat) : option Re :=
  match fuel with
  | O => None
  | S fuel' =>
    node ← ft_nodes t !! node_idx;
    if negb (fn_active node) then Some accept_all_re
    else foldl (fun acc child =>
           combined ← acc; r ← ft_combined_re fuel' t child; Some (re_and combined r))
           (Some (fn_re node)) (fn_children node)
  end.

(** The recursion is at most as deep as the tree has nodes; [fuel] is for the
    derivative compiler. *)
Definition ft_compile_combined (fuel : nat) (t : FilterTree) : option Dfa :=
  r ← ft_combined_re (length (ft_nodes t)) t (ft_root t); re_compile fuel r.

(** ** Specification *)

(** [live_from t i j]: node [j] is reached from node [i] through active nodes,
    both ends included. *)
Inductive live_from (t : FilterTree) (i : nat) : nat -> Prop :=
| live_here nd : ft_nodes t !! i = Some nd -> fn_active nd = true -> live_from t i i
| live_child k nk c nc :
    live_from t i k -> ft_nodes t !! k = Some nk -> c ∈ fn_children nk ->
    ft_nodes t !! c = Some nc -> fn_active nc = true -> live_from t i c.

(** The constraint of a subtree: every live node accepts the message. *)
Definition live_accept (t : FilterTree) (i : nat) (w : word) : Prop :=
  forall j nd, live_from t i j -> ft_nodes t !! j = Some nd -> re_lang (fn_re nd) w.

Definition is_child (t : FilterTree) (i c : nat) : Prop :=
  exists nd, ft_nodes t !! i = Some nd /\ c ∈ fn_children nd.

(** Children come after their parent and have one.  A node that was added
    under its own index is its own child, and nothing else leads to it. *)
Record tree_ok (t : FilterTree) : Prop := {
  to_root : ft_root t = 0 /\ 0 < length (ft_nodes t);
  to_bound : forall i c, is_child t i c -> i <= c < length (ft_nodes t);
  to_parent : forall i j c, is_child t i c -> is_child t j c -> i = j;
  to_root_top : forall i, ~ is_child t i 0;
}.

(** The operations on a tree, and the trees they build. *)
Inductive tree_step : FilterTree -> FilterTree -> Prop :=
| step_add_filter t parent d t' idx : ft_add_filter t parent d = Some (t', idx) -> tree_step t t'
| step_add_pattern t parent p t' idx : ft_add_pattern t parent p = Some (t', idx) -> tree_step t t'
| step_add_re t parent re t' idx : ft_add_re t parent re = Some (t', idx) -> tree_step t t'
| step_revoke t i t' : ft_revoke t i = Some t' -> tree_step t t'.

Inductive built_tree : FilterTree -> Prop :=
| built_new : built_tree ft_new
| built_step t t' : built_tree t -> tree_step t t' -> built_tree t'.

(** ** The tree invariant *)

Lemma lookup_push_child idx parent (nodes : list FilterNode) (i : nat) nd :
  alter (push_child idx) parent nodes !! i = Some nd ->
  exists nd0, nodes !! i = Some nd0 /\ fn_re nd = fn_re nd0 /\ fn_active nd = fn_active nd0 /\
    fn_children nd = (if decide (i = parent) then fn_children nd0 ++ [idx] else fn_children nd0).
Proof.
  intros Hnd. destruct (decide (i = parent)) as [->|Hne].
  - rewrite list_lookup_alter_eq in Hnd. destruct (nodes !! parent) as [nd0|]; [|done].
    injection Hnd as <-. by exists nd0.
  - rewrite list_lookup_alter_ne in Hnd by done. by exists nd.
Qed.

(** Adding a node adds one parent link and nothing else. *)
Lemma add_node_child t parent re t' idx :
  tree_ok t -> ft_add_node t parent re = Some (t', idx) ->
  idx = length (ft_nodes t) /\ length (ft_nodes t') = S (length (ft_nodes t)) /\
  ft_root t' = ft_root t /\ parent <= idx /\
  (forall i c, is_child t' i c -> is_child t i c \/ (i = parent /\ c = idx)).
Proof.
  intros Ht. unfold ft_add_node. rewrite length_app. simpl.
  destruct (Nat.ltb_spec parent (length (ft_nodes t) + 1)) as [Hp|]; [|done]. intros [= <- <-]. simpl.
  rewrite length_alter, length_app. simpl. split_and!; [done|lia|done|lia|].
  intros i c (nd & Hnd & Hc). simpl in Hnd. apply lookup_push_child in Hnd as (nd0 & Hnd0 & _ & _ & Hch).
  rewrite Hch in Hc. apply lookup_app_Some in Hnd0 as [Hnd0|[Hi Hnd0]].
  - destruct (decide (i = parent)) as [->|Hne]; [|left; by exists nd0].
    apply elem_of_app in Hc as [Hc|Hc]; [left; by exists nd0|].
    apply list_elem_of_singleton in Hc. by right.
  - apply list_lookup_singleton_Some in Hnd0 as [Hi' <-]. simpl in Hc.
    destruct (decide (i = parent)) as [->|Hne]; [|by apply elem_of_nil in Hc].
    apply list_elem_of_singleton in Hc. by right.
Qed.

Lemma add_node_ok t parent re t' idx :
  tree_ok t -> ft_add_node t parent re = Some (t', idx) -> tree_ok t'.
Proof.
  intros Ht Hadd. destruct (add_node_child t parent re t' idx Ht Hadd) as (-> & Hlen & Hroot & Hle & Hch).
  destruct Ht as [[Hr0 Hlen0] Hb Hp Htop]. split.
  - rewrite Hroot, Hlen. split; [done|lia].
  - intros i c [Hc|[-> ->]]%Hch; [|lia]. apply Hb in Hc. lia.
  - intros i j c Hi Hj. apply Hch in Hi as [Hi|[-> ->]]; apply Hch in Hj as [Hj|[-> Ej]].
    + by eapply Hp.
    + subst c. apply Hb in Hi. lia.
    + apply Hb in Hj. lia.
    + done.
  - intros i [Hc|[-> E]]%Hch; [by eapply Htop|]. lia.
Qed.

Lemma revoke_nodes t x t' :
  ft_revoke t x = Some t' ->
  ft_root t' = ft_root t /\ length (ft_nodes t') = length (ft_nodes t) /\
  (forall i nd', ft_nodes t' !! i = Some nd' ->
     exists nd, ft_nodes t !! i = Some nd /\ fn_re nd' = fn_re nd /\ fn_children nd' = fn_children nd /\
       fn_active nd' = (if decide (i = x) then false else fn_active nd)) /\
  (forall i nd, ft_nodes t !! i = Some nd ->
     exists nd', ft_nodes t' !! i = Some nd' /\ fn_re nd' = fn_re nd /\ fn_children nd' = fn_children nd /\
       fn_active nd' = (if decide (i = x) then false else fn_active nd)).
Proof.
  unfold ft_revoke. destruct (_ <? _); [|done]. intros [= <-]. simpl. rewrite length_alter.
  split; [done|]. split; [done|]. split.
  - intros i nd'. destruct (decide (i = x)) as [->|Hne].
    + rewrite list_lookup_alter_eq. destruct (ft_nodes t !! x) as [nd|]; [|done]. intros [= <-]. by exists nd.
    + rewrite list_lookup_alter_ne by done. intros ?. by exists nd'.
  - intros i nd Hnd. destruct (decide (i = x)) as [->|Hne].
    + rewrite list_lookup_alter_eq, Hnd. by eexists.
    + rewrite list_lookup_alter_ne by done. by exists nd.
Qed.

Lemma ft_revoke_ok t x t' : tree_ok t -> ft_revoke t x = Some t' -> tree_ok t'.
Proof.
  intros [Hroot0 Hb Hp Htop] Hrev. destruct (revoke_nodes t x t' Hrev) as (Hroot & Hlen & Hback & _).
  assert (Hch : forall i c, is_child t' i c -> is_child t i c).
  { intros i c (nd' & Hnd' & Hc). apply Hback in Hnd' as (nd & Hnd & _ & Hcs & _). rewrite Hcs in Hc. by exists nd. }
  split.
  - by rewrite Hroot, Hlen.
  - intros i c Hc%Hch. rewrite Hlen. by apply Hb.
  - intros i j c Hi%Hch Hj%Hch. by eapply Hp.
  - intros i Hc%Hch. by eapply Htop.
Qed.

Lemma new_ok : tree_ok ft_new.
Proof.
  assert (Hno : forall i c, ~ is_child ft_new i c).
  { intros i c (nd & Hnd & Hc). apply list_lookup_singleton_Some in Hnd as [_ <-].
    simpl in Hc. by apply elem_of_nil in Hc. }
  split; [simpl; lia|..]; repeat intro; exfalso; eapply Hno; eassumption.
Qed.

Lemma built_tree_ok t : built_tree t -> tree_ok t.
Proof.
  induction 1 as [|t t' _ IH Hstep]; [apply new_ok|].
  destruct Hstep as [? ? ? ? ? H|? ? ? ? ? H|? ? ? ? ? H|? ? ? H];
    [by apply (add_node_ok _ _ _ _ _ IH H)..|by apply (ft_revoke_ok _ _ _ IH H)].
Qed.

(** ** The combined filter *)

Lemma live_from_active t i j : live_from t i j -> exists nd, ft_nodes t !! i = Some nd /\ fn_active nd = true.
Proof. induction 1; eauto. Qed.

Lemma live_from_cons t i nd c j :
  ft_nodes t !! i = Some nd -> fn_active nd = true -> c ∈ fn_children nd ->
  live_from t c j -> live_from t i j.
Proof.
  intros Hnd Ha Hc. induction 1 as [nc Hnc Hac|k nk c' nc' _ IH Hk Hc' Hnc' Hac'].
  - eapply live_child; [by eapply live_here|done..].
  - eapply live_child; [exact IH|done..].
Qed.

Lemma live_from_inv t i j :
  live_from t i j -> j = i \/ exists nd c, ft_nodes t !! i = Some nd /\ c ∈ fn_children nd /\ live_from t c j.
Proof.
  induction 1 as [nd Hnd Ha|k nk c nc Hp IH Hk Hc Hnc Ha]; [by left|right].
  destruct IH as [->|(nd & c' & Hnd & Hc' & Hl)].
  - exists nk, c. split; [done|]. split; [done|]. by eapply live_here.
  - exists nd, c'. split; [done|]. split; [done|]. by eapply live_child.
Qed.

Lemma live_accept_step t i nd w :
  ft_nodes t !! i = Some nd -> fn_active nd = true ->
  (live_accept t i w <-> re_lang (fn_re nd) w /\ forall c, c ∈ fn_children nd -> live_accept t c w).
Proof.
  intros Hnd Ha. unfold live_accept. split.
  - intros H. split; [by eapply H; [eapply live_here|]|]. intros c Hc j nj Hl Hj.
    eapply H; [by eapply live_from_cons|done].
  - intros [Hre Hch] j nj Hl Hj. apply live_from_inv in Hl as [->|(nd' & c & Hnd' & Hc & Hl)].
    + rewrite Hnd in Hj. by injection Hj as <-.
    + rewrite Hnd in Hnd'. injection Hnd' as <-. by eapply Hch.
Qed.

(** A node that is not its own child; so are those below it. *)
Lemma child_clean t i c : tree_ok t -> is_child t i c -> i <> c -> ~ is_child t c c.
Proof. intros Ht Hc Hne Hcc. apply Hne. by eapply (to_parent t Ht). Qed.

Lemma combined_re_spec t fuel i :
  tree_ok t -> i < length (ft_nodes t) -> ~ is_child t i i -> length (ft_nodes t) - i <= fuel ->
  exists r, ft_combined_re fuel t i = Some r /\
    (forall w, is_word w -> re_lang r w <-> live_accept t i w).
Proof.
  intros Ht. revert i; induction fuel as [|fuel IH]; intros i Hi Hself Hfuel; [lia|]. simpl.
  destruct (lookup_lt_is_Some_2 _ _ Hi) as [nd Hnd]. rewrite Hnd. simpl.
  destruct (fn_active nd) eqn:Ea; simpl.
  2: { exists accept_all_re. split; [done|]. intros w Hw. unfold accept_all_re. rewrite any_star_lang.
       split; [|done]. intros _ j nj Hl _. apply live_from_active in Hl as (nd' & Hnd' & ?). congruence. }
  assert (Hch : forall c, c ∈ fn_children nd -> i < c < length (ft_nodes t) /\ ~ is_child t c c).
  { intros c Hc. assert (Hic : is_child t i c) by (by exists nd). pose proof (to_bound t Ht _ _ Hic) as Hb.
    assert (i <> c) by (intros ->; by apply Hself). split; [lia|]. by eapply child_clean. }
  assert (Hgen : forall cs r0, cs ⊆ fn_children nd ->
    exists r, foldl (fun acc child => combined ← acc; r ← ft_combined_re fuel t child; Some (re_and combined r))
      (Some r0) cs = Some r /\
      (forall w, is_word w -> re_lang r w <-> re_lang r0 w /\ forall c, c ∈ cs -> live_accept t c w)).
  { induction cs as [|c cs IHcs]; intros r0 Hsub; simpl.
    - exists r0. split; [done|]. intros w _. setoid_rewrite elem_of_nil. naive_solver.
    - destruct (Hch c) as [Hc Hcc]; [apply Hsub; left|].
      destruct (IH c) as (rc & -> & Hrc); [lia|done|lia|]. simpl.
      destruct (IHcs (re_and r0 rc)) as (r & Hr & Hrl); [intros x Hx; apply Hsub; by right|].
      exists r. split; [exact Hr|]. intros w Hw. rewrite Hrl, re_and_lang, Hrc by done.
      setoid_rewrite elem_of_cons. naive_solver. }
  destruct (Hgen (fn_children nd) (fn_re nd)) as (r & Hr & Hrl); [done|].
  exists r. split; [exact Hr|]. intros w Hw. rewrite Hrl by done. symmetry. by apply live_accept_step.
Qed.

Lemma combined_root t :
  tree_ok t -> exists r, ft_combined_re (length (ft_nodes t)) t (ft_root t) = Some r /\
    (forall w, is_word w -> re_lang r w <-> live_accept t (ft_root t) w).
Proof.
  intros Ht. destruct (to_root t Ht) as [Hr Hl]. rewrite Hr.
  apply combined_re_spec; [done..|apply (to_root_top t Ht)|lia].
Qed.

(** ** Revocation *)

Lemma revoke_live t x t' j :
  tree_ok t -> ft_revoke t x = Some t' ->
  (live_from t' (ft_root t') j <-> live_from t (ft_root t) j /\ ~ live_from t x j).
Proof.
  intros Ht Hrev. destruct (revoke_nodes t x t' Hrev) as (Hroot & _ & Hback & Hfwd).
  rewrite Hroot. set (r := ft_root t).
  assert (Hx : forall nd', ft_nodes t' !! x = Some nd' -> fn_active nd' = false).
  { intros nd' H. apply Hback in H as (nd & _ & _ & _ & ->). by rewrite decide_True. }
  assert (Hact : forall i nd', ft_nodes t' !! i = Some nd' -> fn_active nd' = true ->
    i <> x /\ exists nd, ft_nodes t !! i = Some nd /\ fn_active nd = true /\ fn_children nd' = fn_children nd).
  { intros i nd' H Ha. assert (i <> x) as Hne by (intros ->; rewrite (Hx _ H) in Ha; done). split; [done|].
    apply Hback in H as (nd & ? & _ & ? & E). rewrite decide_False in E by done. exists nd. by rewrite <-E. }
  split.
  - intros Hl. split.
    + induction Hl as [nd' Hnd' Ha|k nk c nc _ IH Hk Hc Hnc Ha].
      * apply Hact in Hnd' as (_ & nd & ? & ? & _); [|done]. by eapply live_here.
      * apply Hact in Hnc as (_ & ndc & ? & ? & _); [|done]. apply Hback in Hk as (ndk & ? & _ & Hcs & _).
        rewrite Hcs in Hc. by eapply live_child.
    + induction Hl as [nd' Hnd' Ha|k nk c nc _ IH Hk Hc Hnc Ha]; intros Hlx; inversion Hlx; subst.
      * by rewrite (Hx _ Hnd') in Ha.
      * apply (to_root_top t Ht k). destruct (to_root t Ht) as [Hr _]. unfold r in *. rewrite Hr in *. by exists nk.
      * by rewrite (Hx _ Hnc) in Ha.
      * apply IH. apply Hback in Hk as (ndk & Hndk & _ & Hcs & _). rewrite Hcs in Hc.
        by rewrite (to_parent t Ht k k0 c) by (by eexists).
  - intros [Hl Hnx]. assert (Hor : live_from t' r j \/ live_from t x j); [|tauto]. clear Hnx.
    induction Hl as [nd Hnd Ha|k nk c nc _ IH Hk Hc Hnc Ha].
    + destruct (decide (r = x)) as [E|Hne]; [right; subst x; by eapply live_here|left].
      apply Hfwd in Hnd as (nd' & ? & _ & _ & E). rewrite decide_False in E by done. eapply live_here; [done|congruence].
    + destruct IH as [IH|IH]; [|right; by eapply live_child].
      destruct (decide (c = x)) as [->|Hne]; [right; by eapply live_here|left].
      apply Hfwd in Hk as (nk' & ? & _ & Hcs & _). apply Hfwd in Hnc as (nc' & ? & _ & _ & E).
      rewrite decide_False in E by done. eapply live_child; [exact IH|done|by rewrite Hcs|done|congruence].
Qed.

(** ** Topic filters: lemmas *)

Lemma from_pattern_eventually p :
  needs_derivative p = false -> no_empty_any p = true ->
  exists f fuel0, (forall fuel, fuel0 <= fuel -> tf_from_pattern fuel p = Some f) /\
    (forall m, is_word m -> tf_matches f m = true <-> pat_lang p m).
Proof.
  intros Hnd Hne. destruct (pattern_to_nfa_eager p Hnd) as (n & Hn & Hev).
  destruct (compile_eventually p n Hnd Hn Hev) as (d & [Hok Hm] & F & HF).
  exists {| tf_pattern := p; tf_compiled := d |}, F. split; [|intros m Hw; by rewrite <-(eager_lang_pat p Hne), (Hm m Hw)].
  intros fuel Hle. unfold tf_from_pattern. by rewrite HF.
Qed.

Lemma any_bytes_lang k w :
  foldr (fun p => lang_cat (pat_lang p)) lang_eps (replicate k PAnyByte) w <-> length w = k /\ is_word w.
Proof.
  revert w; induction k as [|k IH]; intros w; simpl.
  - unfold lang_eps. split; [intros ->; by split|]. intros [? _]. by apply nil_length_inv.
  - unfold lang_cat, lang_byte. setoid_rewrite IH. split.
    + intros (u & v & -> & (b & -> & Hb) & <- & Hv). split; [done|]. by constructor.
    + intros [Hl Hw]. destruct w as [|b w]; [done|]. inversion Hw; subst. simpl in Hl.
      exists [b], w. split; [done|]. split; [by exists b|]. split; [lia|done].
Qed.

(** ** Theorems *)

(** The combined filter of a revocable tree is the conjunction of its
    live nodes: for every tree the operations can build, folding the active
    part into one regex returns, and the table compiled from it, when the
    compiler returns, is well formed and accepts a message exactly when every
    node reached from the root through active nodes accepts it. *)
Theorem filter_tree_refines (t : FilterTree) (fuel : nat) :
  built_tree t ->
  is_Some (ft_combined_re (length (ft_nodes t)) t (ft_root t)) /\
  (forall d, ft_compile_combined fuel t = Some d ->
     dfa_ok d /\
     forall w, is_word w -> dfa_matches d w = true <->
       (forall j nd, live_from t (ft_root t) j -> ft_nodes t !! j = Some nd -> re_lang (fn_re nd) w)).
Proof.
  intros Ht%built_tree_ok. destruct (combined_root t Ht) as (r & Hr & Hl). split; [by rewrite Hr|].
  intros d. unfold ft_compile_combined. rewrite Hr. simpl. intros Hd.
  apply re_compile_spec in Hd as [Hok Hm]. split; [done|]. intros w Hw.
  rewrite Hm, re_matches_lang, Hl by done. done.
Qed.

(** A tree with a prefix filter, for the concrete instances. *)
Definition sample_tree : FilterTree := {|
  ft_nodes := [{| fn_re := accept_all_re; fn_children := [1]; fn_active := true |};
               {| fn_re := to_re (PPrefixOf (PWord [47])); fn_children := []; fn_active := true |}];
  ft_root := 0;
|}.

Lemma sample_tree_built : built_tree sample_tree.
Proof.
  eapply built_step; [apply built_new|].
  by apply (step_add_pattern ft_new 0 (PPrefixOf (PWord [47])) sample_tree 1).
Qed.

Lemma filter_tree_refines_witness :
  exists d, ft_compile_combined 8 sample_tree = Some d /\ dfa_ok d.
Proof.
  destruct (filter_tree_refines sample_tree 8 sample_tree_built) as [_ H].
  destruct (ft_compile_combined 8 sample_tree) as [d|] eqn:E; [|by vm_compute in E].
  exists d. split; [done|]. by apply H.
Defined.

(** Revoking a node lifts exactly the constraints that hung on it: after
    the revocation the combined table accepts a message exactly when every
    node that was live before, and was not reached through the revoked one,
    accepts it; so a revocation never makes the filter reject more. *)
Theorem filter_revocation_exact (t t' : FilterTree) (x fuel : nat) (d' : Dfa) :
  built_tree t -> ft_revoke t x = Some t' -> ft_compile_combined fuel t' = Some d' ->
  (forall w, is_word w -> dfa_matches d' w = true <->
     (forall j nd, live_from t (ft_root t) j -> ~ live_from t x j ->
        ft_nodes t !! j = Some nd -> re_lang (fn_re nd) w)) /\
  (forall g d w, is_word w -> ft_compile_combined g t = Some d ->
     dfa_matches d w = true -> dfa_matches d' w = true).
Proof.
  intros Hb Hrev Hd'. pose proof (built_tree_ok t Hb) as Ht. pose proof (ft_revoke_ok t x t' Ht Hrev) as Ht'.
  destruct (combined_root t Ht) as (r & Hr & Hl). destruct (combined_root t' Ht') as (r' & Hr' & Hl').
  destruct (revoke_nodes t x t' Hrev) as (_ & _ & Hback & Hfwd).
  assert (Hafter : forall w, is_word w -> dfa_matches d' w = true <->
     (forall j nd, live_from t (ft_root t) j -> ~ live_from t x j ->
        ft_nodes t !! j = Some nd -> re_lang (fn_re nd) w)).
  { intros w Hw. unfold ft_compile_combined in Hd'. rewrite Hr' in Hd'. simpl in Hd'.
    apply re_compile_spec in Hd' as [_ Hm]. rewrite Hm, re_matches_lang, Hl' by done. unfold live_accept. split.
    - intros H j nd Hj Hnx Hnd. apply Hfwd in Hnd as (nd' & Hnd' & <- & _). apply (H j); [|done].
      by apply (revoke_live t x t').
    - intros H j nd' Hj Hnd'. apply Hback in Hnd' as (nd & Hnd & -> & _).
      apply (revoke_live t x t' j Ht Hrev) in Hj as [Hj Hnx]. by apply (H j). }
  split; [done|]. intros g d w Hw Hd Hm. apply Hafter; [done|].
  unfold ft_compile_combined in Hd. rewrite Hr in Hd. simpl in Hd.
  apply re_compile_spec in Hd as [_ Hmd]. rewrite Hmd, re_matches_lang, Hl in Hm by done.
  intros j nd Hj _ Hnd. by apply (Hm j).
Qed.

Lemma filter_revocation_exact_witness :
  exists t' d', ft_revoke sample_tree 1 = Some t' /\ ft_compile_combined 8 t' = Some d' /\
    (forall g d w, is_word w -> ft_compile_combined g sample_tree = Some d ->
       dfa_matches d w = true -> dfa_matches d' w = true).
Proof.
  destruct (ft_revoke sample_tree 1) as [t'|] eqn:Et; [|by vm_compute in Et].
  destruct (ft_compile_combined 8 t') as [d'|] eqn:Ed.
  2: { injection Et as <-. by vm_compute in Ed. }
  exists t', d'. split; [done|]. split; [done|].
  exact (proj2 (filter_revocation_exact sample_tree t' 1 8 d' sample_tree_built Et Ed)).
Defined.

(** The topic filters accept what their names say: [exact] the topic and
    nothing else, [prefix] the messages that start with the prefix, and
    [first_byte_range] the messages of one byte more than the tail whose first
    byte is in the range; each is built by some amount of fuel and any more. *)
Theorem topic_filters_exact (topic : word) (low high tail_len : nat) :
  exists e p r fuel0,
    (forall fuel, fuel0 <= fuel ->
       tf_exact fuel topic = Some e /\ tf_prefix fuel topic = Some p /\
       tf_first_byte_range fuel low high tail_len = Some r) /\
    (forall m, is_word m ->
       (tf_matches e m = true <-> m = topic) /\
       (tf_matches p m = true <-> topic `prefix_of` m) /\
       (tf_matches r m = true <->
          length m = S tail_len /\ exists b, head m = Some b /\ low <= b <= high)).
Proof.
  destruct (from_pattern_eventually (PWord topic)) as (e & F1 & He & Hem); [done..|].
  destruct (from_pattern_eventually (PPrefixOf (PWord topic))) as (p & F2 & Hp & Hpm); [done..|].
  assert (Hrep : forall f k, f PAnyByte = false -> existsb f (replicate k PAnyByte) = false).
  { intros f k Hf. induction k; simpl; [done|]. by rewrite Hf. }
  assert (Hrep' : forall f k, f PAnyByte = true -> forallb f (replicate k PAnyByte) = true).
  { intros f k Hf. induction k; simpl; [done|]. by rewrite Hf. }
  destruct (from_pattern_eventually (PSeq (PRange low high :: replicate tail_len PAnyByte)))
    as (r & F3 & Hr & Hrm); [by apply (Hrep needs_derivative)|by apply (Hrep' no_empty_any)|].
  exists e, p, r, (Nat.max F1 (Nat.max F2 F3)). split.
  { intros fuel Hle. split_and!; [apply He|apply Hp|apply Hr]; lia. }
  intros m Hm. rewrite (Hem m Hm), (Hpm m Hm), (Hrm m Hm). cbn [pat_lang foldr]. split_and!; [done|..].
  - unfold lang_cat. split; [intros (u & v & -> & -> & _); by exists v|].
    intros [v ->]. apply Forall_app in Hm as [_ Hv]. by exists topic, v.
  - unfold lang_cat, lang_byte. setoid_rewrite any_bytes_lang. split.
    + intros (u & v & -> & (b & -> & Hb) & <- & _). split; [done|]. by exists b.
    + intros (Hl & b & Hb & Hrange). destruct m as [|b' m]; [done|]. injection Hb as ->.
      inversion Hm; subst. exists [b], m. split; [done|]. split; [by exists b|]. by injection Hl.
Qed.
