(* ===== verification/Router.v ===== *)
(** * Routing (dfa/src/router.rs)

    Route tables built from patterns and URL-style routes by a tagged product
    of the routes' automata, the live router with its longest-match walk, the
    registry of userspace kinds, and the governed router that swaps tables.

    The postcard encodings of the two maps a table's commitment covers, and the
    threshold verifier, are code outside this crate: they are the interfaces
    [RouteCodec] and the argument [verify] of the governed router.  A map of
    state identifiers is an ascending association list. *)

From S2P Require Import Prelude.
From S2P Require Import Regex Automata Nfa NfaProofs PatternProofs.
From stdpp Require Import list sorting strings.
From Stdlib Require Import ZArith Lia.

#[local] Open Scope nat_scope.

(** ** Targets and registry *)

Record UserspaceTarget := { ut_kind : string; ut_payload : word }.

Inductive RouteTarget :=
| Handler (name : string)
| Federation (group_id : bytes)
| Drop
| Userspace (u : UserspaceTarget).

#[global] Instance UserspaceTarget_eq_dec : EqDecision UserspaceTarget.
Proof. solve_decision. Defined.
#[global] Instance RouteTarget_eq_dec : EqDecision RouteTarget.
Proof. solve_decision. Defined.

(** A [BTreeSet<String>]: the ascending list of its elements. *)
Definition KindRegistry : Type := list string.

Fixpoint sset_insert (k : string) (l : list string) : list string :=
  match l with
  | [] => [k]
  | y :: l' =>
    match String.compare k y with
    | Lt => k :: l
    | Eq => l
    | Gt => y :: sset_insert k l'
    end
  end.

Definition kinds_register (kind : string) (r : KindRegistry) : KindRegistry := sset_insert kind r.

Definition kinds_contains (r : KindRegistry) (kind : string) : bool := any (String.eqb kind) r.

(** ** Tables *)

Record RouteTable := {
  rt_commitment : bytes;
  rt_num_states : nat;
  rt_transitions : list nat;
  rt_accept_map : list (nat * RouteTarget);
  rt_prefix_lens : list (nat * nat);
  rt_start : nat;
}.

(** The set of offending kinds of a table. *)
Definition unknown_kinds (r : KindRegistry) (t : RouteTable) : list string :=
  foldl (fun bad '(_, tgt) =>
    match tgt with
    | Userspace u => if kinds_contains r (ut_kind u) then bad else sset_insert (ut_kind u) bad
    | _ => bad
    end) [] (rt_accept_map t).

Definition validate_table (r : KindRegistry) (t : RouteTable) : result unit (list string) :=
  match unknown_kinds r t with [] => Ok tt | bad => Err bad end.

(** postcard's encodings of the two maps. *)
Class RouteCodec := {
  encode_accept_map : list (nat * RouteTarget) -> bytes;
  encode_prefix_lens : list (nat * nat) -> bytes;
}.

Section Commitment.
Context `{Blake3, RouteCodec}.

Definition compute_commitment (transitions : list nat) (accept_map : list (nat * RouteTarget))
    (prefix_lens : list (nat * nat)) : bytes :=
  let encoded := encode_accept_map accept_map in
  let plens := encode_prefix_lens prefix_lens in
  blake3_derive_key "dregg-dfa-route-table-v1"
    (concat (map (fun t => le_bytes 4 (Z.of_nat t)) transitions)
     ++ le_bytes 8 (Z.of_nat (length encoded)) ++ encoded
     ++ le_bytes 8 (Z.of_nat (length plens)) ++ plens).

Definition table_from_dfa (d : Dfa) (accept_map : list (nat * RouteTarget)) : RouteTable := {|
  rt_commitment := compute_commitment (dfa_transitions d) accept_map [];
  rt_num_states := dfa_num_states d;
  rt_transitions := dfa_transitions d;
  rt_accept_map := accept_map;
  rt_prefix_lens := [];
  rt_start := dfa_start d;
|}.

Definition recompute_commitment (t : RouteTable) : RouteTable := {|
  rt_commitment := compute_commitment (rt_transitions t) (rt_accept_map t) (rt_prefix_lens t);
  rt_num_states := rt_num_states t;
  rt_transitions := rt_transitions t;
  rt_accept_map := rt_accept_map t;
  rt_prefix_lens := rt_prefix_lens t;
  rt_start := rt_start t;
|}.
End Commitment.

(** ** The builder *)

Record RouteItem := {
  ri_dfa : Dfa;
  ri_target : RouteTarget;
  ri_declared : option nat;
}.

(** A trailing [*] (byte 42) marks a prefix route. *)
Definition parse_url_style (bytes : word) : word * bool :=
  match last bytes with
  | Some b => if b =? 42 then (removelast bytes, true) else (bytes, false)
  | None => (bytes, false)
  end.

(** [RouteTableBuilder::route]: the item it pushes. *)
Definition route_item (fuel : nat) (pattern : word) (target : RouteTarget) : option RouteItem :=
  let '(literal, is_prefix) := parse_url_style pattern in
  d ← (if is_prefix then
         dfa ← pattern_compile fuel (PPrefixOf (PWord literal));
         let boundary := dfa_run dfa literal in
         Some {| dfa_num_states := dfa_num_states dfa;
                 dfa_transitions := dfa_transitions dfa;
                 dfa_start := dfa_start dfa;
                 dfa_accepting := if boundary =? DEAD_STATE then [] else [boundary] |}
       else pattern_compile fuel (PWord literal));
  Some {| ri_dfa := d; ri_target := target; ri_declared := Some (length literal) |}.

(** The items of a list of URL-style routes, in the order they are added. *)
Definition route_items (fuel : nat) (routes : list (word * RouteTarget)) : option (list RouteItem) :=
  mapM (fun '(pattern, target) => route_item fuel pattern target) routes.

(** [RouteTableBuilder::route_pattern]. *)
Definition route_pattern_item (fuel : nat) (p : Pattern) (target : RouteTarget) : option RouteItem :=
  d ← pattern_compile fuel p;
  Some {| ri_dfa := d; ri_target := target; ri_declared := None |}.

(** The declared prefix length as an [isize]. *)
Definition declared_len (it : RouteItem) : Z :=
  match ri_declared it with Some l => Z.of_nat l | None => (-1)%Z end.

(** One turn of the selection loop. *)
Definition winning_turn (best : option (nat * Z)) (entry : nat * (RouteItem * nat)) : option (nat * Z) :=
  let '(i, (item, s)) := entry in
  if (s =? DEAD_STATE) || negb (nmem s (dfa_accepting (ri_dfa item))) then best
  else
    match best with
    | None => Some (i, declared_len item)
    | Some (_, prev_len) =>
      if (prev_len <? declared_len item)%Z then Some (i, declared_len item) else best
    end.

Definition winning_component (items : list RouteItem) (key : list nat) : option nat :=
  fst <$> foldl winning_turn None (zip (seq 0 (length items)) (zip items key)).

(** The key reached from a composite key on a byte. *)
Definition compose_next_key (items : list RouteItem) (key : list nat) (b : nat) : option (list nat) :=
  mapM (fun '(item, s) =>
    if s =? DEAD_STATE then Some DEAD_STATE else dfa_transitions (ri_dfa item) !! (s * 256 + b))
    (zip items key).

Definition compose_next (items : list RouteItem) (key : list nat) (b : nat) : option (option (list nat)) :=
  next_key ← compose_next_key items key b;
  Some (if forallb (fun s => s =? DEAD_STATE) next_key then None else Some next_key).

Definition compose_cells (items : list RouteItem) (key : list nat) : option (list (cell (list nat))) :=
  row_cells (compose_next items key).

(** [compose_tagged_union]; the maps are the tags with the winner's target and
    declared length. *)
Definition compose_tagged_union (fuel : nat) (items : list RouteItem)
  : option (Dfa * list (nat * RouteTarget) * list (nat * nat)) :=
  let dead_key := replicate (length items) DEAD_STATE in
  let start_key := (fun r => dfa_start (ri_dfa r)) <$> items in
  st ← explore (compose_cells items) (winning_component items) fuel
         (builder_init (winning_component items) dead_key start_key);
  let accept_map := omap (fun '(id, idx) =>
    it ← items !! idx; Some (id, ri_target it)) (b_tags st) in
  let prefix_lens := omap (fun '(id, idx) =>
    it ← items !! idx; len ← ri_declared it; Some (id, len)) (b_tags st) in
  Some (builder_dfa st, accept_map, prefix_lens).

(** [RouteTableBuilder::compile]. *)
Definition table_compile `{Blake3, RouteCodec} (fuel : nat) (items : list RouteItem) : option RouteTable :=
  match items with
  | [] =>
    Some (table_from_dfa {| dfa_num_states := 1; dfa_transitions := dead_row;
                            dfa_start := 0; dfa_accepting := [] |} [])
  | _ =>
    '(dfa, accept_map, prefix_lens) ← compose_tagged_union fuel items;
    let table := table_from_dfa dfa accept_map in
    Some {| rt_commitment := rt_commitment table;
            rt_num_states := rt_num_states table;
            rt_transitions := rt_transitions table;
            rt_accept_map := rt_accept_map table;
            rt_prefix_lens := prefix_lens;
            rt_start := rt_start table |}
  end.

(** ** The live router *)

Record Classification := {
  cl_target : RouteTarget;
  cl_matched_prefix : word;
  cl_remainder : word;
}.

(** The walk of [classify_inner]: the last accepting state met and where. *)
Fixpoint classify_walk (t : RouteTable) (state i : nat) (last_accept : option (nat * nat)) (input : word)
  : option (nat * nat) :=
  match input with
  | [] => last_accept
  | byte :: rest =>
    match rt_transitions t !! (state * 256 + byte) with
    | None => last_accept
    | Some next =>
      if next =? DEAD_STATE then last_accept
      else classify_walk t next (i + 1)
             (match assoc_get next (rt_accept_map t) with
              | Some _ => Some (next, i + 1)
              | None => last_accept
              end) rest
    end
  end.

Definition classify (t : RouteTable) (input : word) : option Classification :=
  let state := rt_start t in
  let last_accept :=
    match assoc_get state (rt_accept_map t) with Some _ => Some (state, 0) | None => None end in
  '(accept_state, walked_len) ← classify_walk t state 0 last_accept input;
  target ← assoc_get accept_state (rt_accept_map t);
  let prefix_len :=
    Nat.min (default walked_len (assoc_get accept_state (rt_prefix_lens t))) (length input) in
  Some {| cl_target := target;
          cl_matched_prefix := take prefix_len input;
          cl_remainder := drop prefix_len input |}.

Definition as_dfa (t : RouteTable) : Dfa := {|
  dfa_num_states := rt_num_states t;
  dfa_transitions := rt_transitions t;
  dfa_start := rt_start t;
  dfa_accepting := (rt_accept_map t).*1;
|}.

Inductive DispatchDecision :=
| DHandler (name : string)
| DFederation (group_id : bytes)
| DUserspace (u : UserspaceTarget)
| DDrop
| DUnrouted.

Definition decision_from_target (t : option RouteTarget) : DispatchDecision :=
  match t with
  | Some (Handler s) => DHandler s
  | Some (Federation g) => DFederation g
  | Some (Userspace u) => DUserspace u
  | Some Drop => DDrop
  | None => DUnrouted
  end.

(** ** The governed router *)

(** [ThresholdVerifier::verify]: old commitment, new commitment, proof. *)
Definition Verifier : Type := bytes -> bytes -> bytes -> result unit string.

Definition stub_verifier : Verifier := fun _ _ proof_data =>
  match proof_data with
  | [] => Err "empty proof_data (StubVerifier rejects empty proofs)"%string
  | _ => Ok tt
  end.

Record GovernanceProof := {
  gp_expected_old_commitment : bytes;
  gp_proof_data : bytes;
}.

Record GovernedRouter := {
  gr_current : RouteTable;
  gr_commitment : bytes;
  gr_registry : KindRegistry;
  gr_verifier : Verifier;
}.

Inductive RouteUpdateError :=
| CommitmentMismatch (expected actual : bytes)
| ThresholdVerificationFailed (msg : string)
| UnknownUserspaceKinds (kinds : list string).

Definition governed_with_verifier (t : RouteTable) (v : Verifier) : GovernedRouter :=
  {| gr_current := t; gr_commitment := rt_commitment t; gr_registry := []; gr_verifier := v |}.

Definition governed_new (t : RouteTable) : GovernedRouter := governed_with_verifier t stub_verifier.

Definition set_kind_registry (r : KindRegistry) (g : GovernedRouter) : GovernedRouter :=
  {| gr_current := gr_current g; gr_commitment := gr_commitment g; gr_registry := r;
     gr_verifier := gr_verifier g |}.

(** The router afterwards, with the result. *)
Definition update_routes (g : GovernedRouter) (new_table : RouteTable) (proof : GovernanceProof)
  : GovernedRouter * result unit RouteUpdateError :=
  if negb (bool_decide (gp_expected_old_commitment proof = gr_commitment g)) then
    (g, Err (CommitmentMismatch (gp_expected_old_commitment proof) (gr_commitment g)))
  else
    match gr_verifier g (gr_commitment g) (rt_commitment new_table) (gp_proof_data proof) with
    | Err msg => (g, Err (ThresholdVerificationFailed msg))
    | Ok _ =>
      match validate_table (gr_registry g) new_table with
      | Err unknown => (g, Err (UnknownUserspaceKinds unknown))
      | Ok _ =>
        ({| gr_current := new_table; gr_commitment := rt_commitment new_table;
            gr_registry := gr_registry g; gr_verifier := gr_verifier g |}, Ok tt)
      end
    end.

(** ** Composite keys *)

(** Item [it] accepts the word [u] read from the start. *)
Definition item_accepts (u : word) (it : RouteItem) : Prop := dfa_matches (ri_dfa it) u = true.

Definition items_ok (items : list RouteItem) : Prop := Forall (fun it => dfa_ok (ri_dfa it)) items.

(** A component's state after a word, the dead state being absorbing. *)
Definition comp_run (it : RouteItem) (s : nat) (w : word) : nat :=
  if s =? DEAD_STATE then DEAD_STATE else dfa_run_from (ri_dfa it) s w.

Definition states_at (items : list RouteItem) (w : word) : list nat :=
  (fun it => dfa_run (ri_dfa it) w) <$> items.

Definition comp_bound (it : RouteItem) (s : nat) : Prop := s < dfa_num_states (ri_dfa it).

Definition dead_keys (key : list nat) : bool := forallb (fun s => s =? DEAD_STATE) key.

Record key_good (items : list RouteItem) (key : list nat) : Prop := {
  kg_bound : Forall2 comp_bound items key;
  kg_alive : dead_keys key = false;
}.

Definition compose_step (items : list RouteItem) (key : list nat) (b : nat) : option (list nat) :=
  default None (compose_next items key b).

Lemma dead_keys_spec key : dead_keys key = true <-> Forall (fun s => s = DEAD_STATE) key.
Proof.
  unfold dead_keys. rewrite forallb_forall, Forall_forall.
  setoid_rewrite list_elem_of_In. by setoid_rewrite Nat.eqb_eq.
Qed.

Lemma dead_key_dead n : dead_keys (replicate n DEAD_STATE) = true.
Proof. apply dead_keys_spec, Forall_replicate. done. Qed.

Lemma compose_next_key_spec items key b :
  items_ok items -> Forall2 comp_bound items key -> b <= 255 ->
  exists next, compose_next_key items key b = Some next /\ Forall2 comp_bound items next /\
    (forall w, is_word w -> zip_with (fun it s => comp_run it s w) items next =
                       zip_with (fun it s => comp_run it s (b :: w)) items key).
Proof.
  intros Hok Hb Hbyte. unfold compose_next_key. induction Hb as [|it s items key Hs _ IH].
  { exists []. split; [done|]. split; [constructor|done]. }
  inversion Hok as [|?? Hit Hok']; subst. destruct (IH Hok') as (next & Hnext & Hb' & Hrun).
  assert (Hone : exists t, (if s =? DEAD_STATE then Some DEAD_STATE
      else dfa_transitions (ri_dfa it) !! (s * 256 + b)) = Some t /\ comp_bound it t /\
      (forall w, comp_run it t w = comp_run it s (b :: w))).
  { unfold comp_bound, comp_run in *. destruct (Nat.eqb_spec s DEAD_STATE) as [E|E].
    - exists DEAD_STATE. split; [done|]. pose proof (ok_start _ Hit). unfold DEAD_STATE. split; [lia|done].
    - destruct (table_entry (ri_dfa it) s b Hit Hs Hbyte) as (t & Ht & Hlt). exists t.
      split; [done|]. split; [done|]. intros w. cbn [dfa_run_from]. by rewrite Ht. }
  destruct Hone as (t & Ht & Htb & Htr). exists (t :: next).
  split; [cbn [zip zip_with mapM]; rewrite Ht; cbn; by rewrite Hnext|].
  split; [by constructor|]. intros w Hw. simpl. rewrite Htr. f_equal. by apply Hrun.
Qed.

Lemma compose_step_spec items key b :
  items_ok items -> Forall2 comp_bound items key -> b <= 255 ->
  exists next, compose_next items key b = Some (compose_step items key b) /\
    compose_step items key b = (if dead_keys next then None else Some next) /\
    Forall2 comp_bound items next /\
    (forall w, is_word w -> zip_with (fun it s => comp_run it s w) items next =
                       zip_with (fun it s => comp_run it s (b :: w)) items key).
Proof.
  intros Hok Hb Hbyte. destruct (compose_next_key_spec items key b Hok Hb Hbyte) as (next & Hn & Hnb & Hr).
  exists next. unfold compose_step, compose_next. rewrite Hn. simpl. done.
Qed.

Lemma dead_run items key w :
  Forall (fun s => s = DEAD_STATE) key -> length items = length key ->
  Forall (fun s => s = DEAD_STATE) (zip_with (fun it s => comp_run it s w) items key).
Proof.
  intros Hd. revert items; induction Hd as [|s key -> _ IH]; intros [|it items] Hl; simpl; try done.
  constructor; [done|]. apply IH. by injection Hl.
Qed.

Lemma compose_run items key w :
  items_ok items -> Forall2 comp_bound items key -> is_word w ->
  match key_run (compose_step items) key w with
  | Some k => k = zip_with (fun it s => comp_run it s w) items key /\ Forall2 comp_bound items k
  | None => Forall (fun s => s = DEAD_STATE) (zip_with (fun it s => comp_run it s w) items key)
  end.
Proof.
  intros Hok Hb Hw. revert key Hb; induction Hw as [|b w Hbyte Hw IH]; intros key Hb; cbn [key_run].
  - split; [|done]. clear Hok. induction Hb as [|it s items key _ _ IH]; simpl; [done|]. f_equal; [|done].
    unfold comp_run. by destruct (Nat.eqb_spec s DEAD_STATE) as [->|].
  - destruct (compose_step_spec items key b Hok Hb Hbyte) as (next & _ & -> & Hnb & Hrun).
    rewrite <-Hrun by done. destruct (dead_keys next) eqn:Ed; [|by apply IH].
    apply dead_run; [by apply dead_keys_spec|by eapply Forall2_length].
Qed.

Definition start_key (items : list RouteItem) : list nat := (fun r => dfa_start (ri_dfa r)) <$> items.

Lemma start_key_good items : items_ok items -> items <> [] -> key_good items (start_key items).
Proof.
  intros Hok Hne. split.
  - clear Hne. induction Hok as [|it items Hit _ IH]; simpl; constructor; [|done].
    unfold comp_bound. apply (ok_start _ Hit).
  - destruct items as [|it items]; [done|]. inversion Hok as [|?? Hit _]; subst. simpl.
    pose proof (ok_start _ Hit). destruct (Nat.eqb_spec (dfa_start (ri_dfa it)) DEAD_STATE) as [E|]; [|done].
    unfold DEAD_STATE in E. lia.
Qed.

Lemma states_at_start items w :
  items_ok items -> zip_with (fun it s => comp_run it s w) items (start_key items) = states_at items w.
Proof.
  induction 1 as [|it items Hit _ IH]; simpl; [done|]. f_equal; [|done]. unfold comp_run.
  pose proof (ok_start _ Hit). destruct (Nat.eqb_spec (dfa_start (ri_dfa it)) DEAD_STATE) as [E|]; [|done].
  unfold DEAD_STATE in E. lia.
Qed.

Lemma compose_row_ok items start key :
  items_ok items -> key_good items key ->
  exists cs, compose_cells items key = Some cs /\
    row_ok (replicate (length items) DEAD_STATE) start (compose_step items) (key_good items) key cs.
Proof.
  intros Hok [Hb Ha]. apply byte_row_ok.
  - intros b Hbyte. by destruct (compose_step_spec items key b Hok Hb Hbyte) as (? & -> & _).
  - intros b key' Hbyte. destruct (compose_step_spec items key b Hok Hb Hbyte) as (next & _ & -> & Hnb & _).
    destruct (dead_keys next) eqn:Ed; [done|]. intros [= <-]. split; [done|].
    intros ->. by rewrite dead_key_dead in Ed.
Qed.

(** ** The winner *)

(** Component [i] accepts in the composite state [key]. *)
Definition comp_accepts (items : list RouteItem) (key : list nat) (i : nat) : Prop :=
  exists it s, items !! i = Some it /\ key !! i = Some s /\ s <> DEAD_STATE /\
    s ∈ dfa_accepting (ri_dfa it).

(** [i] is the accepting component with the longest declared prefix, the
    earliest of those that tie; [P] says which components accept. *)
Definition wins (items : list RouteItem) (P : nat -> Prop) (i : nat) (it : RouteItem) : Prop :=
  items !! i = Some it /\ P i /\
  (forall j jt, items !! j = Some jt -> P j ->
     (declared_len jt < declared_len it)%Z \/ (declared_len jt = declared_len it /\ i <= j)).

Lemma winning_fold items key n best :
  length items = length key ->
  (forall i l, best = Some (i, l) -> i < n /\ exists it, l = declared_len it /\
     wins items (fun j => comp_accepts items key j /\ j < n) i it) ->
  (best = None -> forall j, comp_accepts items key j -> n <= j) ->
  match foldl winning_turn best (drop n (zip (seq 0 (length items)) (zip items key))) with
  | Some (i, l) => exists it, l = declared_len it /\ wins items (comp_accepts items key) i it
  | None => forall j, ~ comp_accepts items key j
  end.
Proof.
  intros Hlen. set (entries := zip (seq 0 (length items)) (zip items key)).
  assert (Hent : forall m, m < length items -> exists it s, entries !! m = Some (m, (it, s)) /\
    items !! m = Some it /\ key !! m = Some s).
  { intros m Hm. destruct (lookup_lt_is_Some_2 items m Hm) as [it Hit].
    destruct (lookup_lt_is_Some_2 key m) as [s Hs]; [lia|]. exists it, s. split; [|done].
    unfold entries. apply lookup_zip_with_Some. exists m, (it, s). split; [done|].
    split; [by apply lookup_seq_lt|]. apply lookup_zip_with_Some. eauto. }
  assert (Hlent : length entries = length items).
  { unfold entries. rewrite !length_zip_with, length_seq. lia. }
  remember (length items - n) as k eqn:Ek. revert n best Ek.
  induction k as [|k IH]; intros n best Ek Hbest Hnone.
  - rewrite drop_ge by lia. simpl.
    assert (Hlt : forall j, comp_accepts items key j -> j < length items).
    { intros j (it & s & Hit & _). by eapply lookup_lt_Some. }
    destruct best as [[i l]|].
    + destruct (Hbest i l eq_refl) as (_ & it & -> & Hit & [Ha _] & Hw). exists it. split; [done|].
      split; [done|]. split; [done|]. intros j jt Hj Haj. apply Hw; [done|]. split; [done|].
      apply Hlt in Haj. lia.
    + intros j Hj. specialize (Hnone eq_refl j Hj). apply Hlt in Hj. lia.
  - destruct (Hent n) as (it & s & Hn & Hit & Hs); [lia|].
    rewrite (drop_S _ _ _ Hn). cbn [foldl].
    assert (Hacc : comp_accepts items key n <-> s <> DEAD_STATE /\ s ∈ dfa_accepting (ri_dfa it)).
    { unfold comp_accepts. rewrite Hit, Hs. naive_solver. }
    assert (Hcase : (comp_accepts items key n /\ winning_turn best (n, (it, s)) =
        match best with None => Some (n, declared_len it)
        | Some (_, prev) => if (prev <? declared_len it)%Z then Some (n, declared_len it) else best end) \/
      (~ comp_accepts items key n /\ winning_turn best (n, (it, s)) = best)).
    { unfold winning_turn. rewrite Hacc. destruct (Nat.eqb_spec s DEAD_STATE); simpl; [right; naive_solver|].
      destruct (nmem s (dfa_accepting (ri_dfa it))) eqn:Em; simpl; [left|right].
      - apply nmem_spec in Em. done.
      - split; [|done]. intros [_ Hin]. apply nmem_spec in Hin. congruence. }
    assert (Hstep : forall j, comp_accepts items key j -> j < S n -> j < n \/ j = n) by (intros; lia).
    destruct Hcase as [[Ha ->]|[Ha ->]].
    + assert (Hnew : (forall j jt, items !! j = Some jt -> comp_accepts items key j /\ j < n ->
          (declared_len jt < declared_len it)%Z) ->
        wins items (fun j => comp_accepts items key j /\ j < S n) n it).
      { intros Hsmaller. split; [done|]. split; [split; [done|lia]|]. intros j jt Hj [Haj Hlt].
        destruct (Hstep j Haj Hlt) as [?| ->]; [left; by eapply Hsmaller|]. right.
        rewrite Hit in Hj. injection Hj as <-. done. }
      destruct best as [[i0 l0]|].
      * destruct (Hbest i0 l0 eq_refl) as (Hi0 & it0 & -> & Hit0 & [Ha0 _] & Hw0).
        destruct (Z.ltb_spec (declared_len it0) (declared_len it)) as [Hlt|Hge].
        -- apply IH; [lia| |done]. intros i l [= <- <-]. split; [lia|]. exists it. split; [done|].
           apply Hnew. intros j jt Hj Haj. destruct (Hw0 j jt Hj Haj) as [?|[? _]]; lia.
        -- apply IH; [lia| |done]. intros i l [= <- <-]. split; [lia|]. exists it0. split; [done|].
           split; [done|]. split; [split; [done|lia]|]. intros j jt Hj [Haj Hlt].
           destruct (Hstep j Haj Hlt) as [?| ->]; [by apply Hw0|].
           rewrite Hit in Hj. injection Hj as <-. destruct (Z.lt_total (declared_len it) (declared_len it0)) as [?|[?|?]]; [by left|right; split; [done|lia]|lia].
      * apply IH; [lia| |done]. intros i l [= <- <-]. split; [lia|]. exists it. split; [done|].
        apply Hnew. intros j jt Hj [Haj Hlt]. specialize (Hnone eq_refl j Haj). lia.
    + apply IH; [lia| |].
      * intros i l E. destruct (Hbest i l E) as (Hi & itb & -> & Hitb & [Hab _] & Hw). split; [lia|].
        exists itb. split; [done|]. split; [done|]. split; [split; [done|lia]|]. intros j jt Hj [Haj Hlt].
        destruct (Hstep j Haj Hlt) as [?| ->]; [by apply Hw|done].
      * intros E j Haj. specialize (Hnone E j Haj). destruct (decide (j = n)) as [->|]; [done|lia].
Qed.

Lemma winning_component_spec items key :
  length items = length key ->
  match winning_component items key with
  | Some i => exists it, wins items (comp_accepts items key) i it
  | None => forall j, ~ comp_accepts items key j
  end.
Proof.
  intros Hlen. pose proof (winning_fold items key 0 None Hlen ltac:(done) ltac:(intros; lia)) as H.
  unfold winning_component. rewrite drop_0 in H.
  destruct (foldl winning_turn None _) as [[i l]|]; simpl; [|done].
  destruct H as (it & _ & ?). by exists it.
Qed.

(** In the composite state after a word, the accepting components are the items
    that accept the word. *)
Lemma comp_accepts_states items u i :
  items_ok items ->
  (comp_accepts items (states_at items u) i <-> exists it, items !! i = Some it /\ item_accepts u it).
Proof.
  intros Hok. unfold comp_accepts, states_at, item_accepts. rewrite list_lookup_fmap.
  assert (Hm : forall it, items !! i = Some it ->
    (dfa_matches (ri_dfa it) u = true <-> dfa_run (ri_dfa it) u ∈ dfa_accepting (ri_dfa it))).
  { intros it Hit. unfold items_ok in Hok. rewrite Forall_lookup in Hok. specialize (Hok _ _ Hit). unfold dfa_matches.
    rewrite matches_is_run by (intros t Ht; apply (ok_accepting _ Hok) in Ht; lia). apply nmem_spec. }
  split.
  - intros (it & s & Hit & Hs & _ & Ha). exists it. split; [done|]. rewrite Hit in Hs. injection Hs as <-.
    by apply Hm.
  - intros (it & Hit & Ha). apply (Hm it Hit) in Ha. exists it, (dfa_run (ri_dfa it) u).
    rewrite Hit. split_and!; [done|done| |done]. unfold items_ok in Hok. rewrite Forall_lookup in Hok. specialize (Hok _ _ Hit).
    intros E. rewrite E in Ha. apply (ok_accepting _ Hok) in Ha. unfold DEAD_STATE in Ha. lia.
Qed.

(** ** The maps of a composed table *)

Lemma assoc_get_omap {V W} (f : V -> option W) (l : list (nat * V)) id :
  NoDup l.*1 ->
  assoc_get id (omap (fun '(i, v) => w ← f v; Some (i, w)) l) = (v ← assoc_get id l; f v).
Proof.
  induction l as [|[i v] l IH]; [done|]. rewrite fmap_cons, NoDup_cons. intros [Hi Hnd].
  specialize (IH Hnd). cbn [omap list_omap assoc_get]. destruct (decide (i = id)) as [->|Hne].
  - simpl. destruct (f v) as [w|]; simpl; [by rewrite decide_True|]. rewrite IH.
    destruct (assoc_get id l) as [v'|] eqn:E; [|done]. exfalso. apply Hi.
    clear -E. induction l as [|[k w] l IH]; [done|]. simpl in E. rewrite fmap_cons. case_decide; [subst; left|].
    right. by apply IH.
  - destruct (f v); simpl; [by rewrite decide_False|done].
Qed.

Lemma omap_pointwise {V W} (f g : V -> option W) (l : list V) :
  (forall x, f x = g x) -> omap f l = omap g l.
Proof. intros Hfg. induction l as [|x l IH]; [done|]. cbn [omap list_omap]. by rewrite Hfg, IH. Qed.

Lemma assoc_get_elem {V} (l : list (nat * V)) id v :
  NoDup l.*1 -> (assoc_get id l = Some v <-> (id, v) ∈ l).
Proof.
  induction l as [|[k w] l IH]; [intros _; by rewrite elem_of_nil|].
  rewrite fmap_cons, NoDup_cons. intros [Hk Hnd]. simpl. rewrite elem_of_cons. case_decide as E.
  - subst. split; [intros [= ->]; by left|]. intros [[= ->]|Hin]; [done|]. exfalso. apply Hk.
    apply list_elem_of_fmap. by exists (id, v).
  - rewrite IH by done. naive_solver.
Qed.

Lemma sorted_lt_nodup (l : list nat) : StronglySorted lt l -> NoDup l.
Proof.
  induction 1 as [|x l Hl IH Hx]; constructor; [|done]. rewrite Forall_forall in Hx.
  intros Hin. specialize (Hx _ Hin). lia.
Qed.

(** What a compiled table records for the state of a composite key. *)
Record composed (items : list RouteItem) (st : Builder (list nat) nat) (t : RouteTable) : Prop := {
  cp_fin : finished (winning_component items) (replicate (length items) DEAD_STATE)
             (start_key items) (compose_step items) (key_good items) st;
  cp_trans : rt_transitions t = b_trans st;
  cp_start : rt_start t = 1;
  cp_accept : forall id, assoc_get id (rt_accept_map t) =
    (idx ← assoc_get id (b_tags st); it ← items !! idx; Some (ri_target it));
  cp_lens : forall id, assoc_get id (rt_prefix_lens t) =
    (idx ← assoc_get id (b_tags st); it ← items !! idx; ri_declared it);
}.

Section Compiled.
Context `{Blake3, RouteCodec}.

Lemma table_compile_composed fuel items t :
  items_ok items -> items <> [] -> table_compile fuel items = Some t -> exists st, composed items st t.
Proof.
  intros Hok Hne. destruct items as [|it0 items0] eqn:Eitems; [done|]. rewrite <-Eitems in *. clear it0 items0 Eitems.
  replace (table_compile fuel items) with (
    '(dfa, accept_map, prefix_lens) ← compose_tagged_union fuel items;
    let table := table_from_dfa dfa accept_map in
    Some {| rt_commitment := rt_commitment table; rt_num_states := rt_num_states table;
            rt_transitions := rt_transitions table; rt_accept_map := rt_accept_map table;
            rt_prefix_lens := prefix_lens; rt_start := rt_start table |}) by (by destruct items).
  unfold compose_tagged_union. fold (start_key items).
  destruct (explore _ _ _ _) as [st|] eqn:Est; [|done]. cbn [mbind option_bind]. intros [= <-].
  assert (Hfin : finished (winning_component items) (replicate (length items) DEAD_STATE)
    (start_key items) (compose_step items) (key_good items) st).
  { eapply explore_init_finished; [by apply start_key_good| |exact Est].
    intros k Hk. by apply compose_row_ok. }
  assert (Hnd : NoDup (b_tags st).*1).
  { apply sorted_lt_nodup. destruct Hfin as [Hc _]. apply (co_sorted _ _ _ _ _ _ Hc). }
  exists st. split; [done|done|done| |]; intros id; cbn [rt_accept_map rt_prefix_lens table_from_dfa].
  - rewrite <-(assoc_get_omap (fun idx => it ← items !! idx; Some (ri_target it))) by done.
    f_equal. apply omap_pointwise. intros [i v]. simpl. by destruct (items !! v).
  - rewrite <-(assoc_get_omap (fun idx => it ← items !! idx; ri_declared it)) by done.
    f_equal. apply omap_pointwise. intros [i v]. simpl. by destruct (items !! v).
Qed.
End Compiled.

(** ** The walk *)

Lemma take_min {A} n (l : list A) : take (Nat.min n (length l)) l = take n l.
Proof.
  destruct (Nat.le_ge_cases n (length l)); [by rewrite Nat.min_l|].
  rewrite Nat.min_r by done. by rewrite !take_ge by lia.
Qed.

Section Walk.
Context (items : list RouteItem) (st : Builder (list nat) nat) (t : RouteTable).
Context (Hok : items_ok items) (Ht : composed items st t).

Lemma winner_lookup key i :
  length items = length key -> winning_component items key = Some i -> is_Some (items !! i).
Proof.
  intros Hlen Hw. pose proof (winning_component_spec items key Hlen) as H. rewrite Hw in H.
  destruct H as (it & Hit & _). eauto.
Qed.

Lemma key_length j k : 1 <= j -> b_order st !! j = Some k -> length items = length k.
Proof.
  intros Hj Hk. destruct (cp_fin _ _ _ Ht) as [Hc _]. apply (co_good _ _ _ _ _ _ Hc) in Hk; [|done].
  apply Forall2_length with (1 := kg_bound _ _ Hk).
Qed.

Lemma tag_lookup j k : 1 <= j -> b_order st !! j = Some k ->
  assoc_get j (b_tags st) = winning_component items k.
Proof.
  intros Hj Hk. destruct (cp_fin _ _ _ Ht) as [Hc _].
  assert (Hnd : NoDup (b_tags st).*1) by (apply sorted_lt_nodup, (co_sorted _ _ _ _ _ _ Hc)).
  apply option_eq. intros i. rewrite assoc_get_elem by done. rewrite (co_tags _ _ _ _ _ _ Hc).
  rewrite Hk. naive_solver.
Qed.

Lemma accept_lookup j k :
  1 <= j -> b_order st !! j = Some k ->
  match winning_component items k with
  | Some i => exists it, items !! i = Some it /\ assoc_get j (rt_accept_map t) = Some (ri_target it) /\
                assoc_get j (rt_prefix_lens t) = ri_declared it
  | None => assoc_get j (rt_accept_map t) = None
  end.
Proof.
  intros Hj Hk. pose proof (winner_lookup k) as Hw.
  rewrite (cp_accept _ _ _ Ht), (cp_lens _ _ _ Ht), (tag_lookup j k Hj Hk).
  destruct (winning_component items k) as [i|]; [|done].
  destruct (Hw i (key_length j k Hj Hk) eq_refl) as [it Hit]. exists it. simpl. by rewrite Hit.
Qed.

Lemma walk_spec input j k i last_accept :
  is_word input -> 1 <= j -> b_order st !! j = Some k ->
  let r := classify_walk t j i last_accept input in
  (exists v rest k' j', input = v ++ rest /\ v <> [] /\ key_run (compose_step items) k v = Some k' /\
     is_Some (winning_component items k') /\ 1 <= j' /\ b_order st !! j' = Some k' /\
     r = Some (j', i + length v) /\
     (forall v' rest' k'', input = v' ++ rest' -> length v < length v' ->
        key_run (compose_step items) k v' = Some k'' -> winning_component items k'' = None)) \/
  (r = last_accept /\
     (forall v' rest' k'', input = v' ++ rest' -> v' <> [] ->
        key_run (compose_step items) k v' = Some k'' -> winning_component items k'' = None)).
Proof.
  intros Hw. revert j k i last_accept; induction Hw as [|b input Hb Hw IH]; intros j k i last_accept Hj Hk; simpl.
  { right. split; [done|]. intros v' rest' k'' E Hne. symmetry in E. apply app_nil in E as [-> _]. done. }
  destruct (finished_step _ _ _ _ _ st (cp_fin _ _ _ Ht) j k b Hb Hj Hk) as (j1 & Hj1 & Hst).
  rewrite (cp_trans _ _ _ Ht), Hj1.
  assert (Hcons : forall v' rest', b :: input = v' ++ rest' -> v' <> [] ->
    exists v1, v' = b :: v1 /\ input = v1 ++ rest').
  { intros [|c v'] rest' E Hne; [done|]. injection E as -> ->. eauto. }
  destruct (compose_step items k b) as [k1|] eqn:Es; simpl in Hst.
  - destruct Hst as [Hj1' Hk1]. destruct (Nat.eqb_spec j1 DEAD_STATE) as [E|_]; [unfold DEAD_STATE in E; lia|].
    destruct (IH j1 k1 (i + 1) (match assoc_get j1 (rt_accept_map t) with
      Some _ => Some (j1, i + 1) | None => last_accept end) Hj1' Hk1)
      as [(v & rest & k' & j' & -> & Hv & Hrun & Hwin & Hj' & Hk' & Hr & Hmax)|[Hr Hnone]].
    + left. exists (b :: v), rest, k', j'. split_and!;
        [done|done|by simpl; rewrite Es|done|done|done|rewrite Hr; do 2 f_equal; simpl; lia|].
      intros v' rest' k'' E Hlt Hrun'. destruct (Hcons v' rest' E) as (v1 & -> & E1); [intros ->; simpl in Hlt; lia|].
        simpl in Hrun'. rewrite Es in Hrun'. eapply Hmax; [exact E1| |exact Hrun']. simpl in Hlt. lia.
    + pose proof (accept_lookup j1 k1 Hj1' Hk1) as Hacc.
      destruct (winning_component items k1) as [idx|] eqn:Ew.
      * destruct Hacc as (it & _ & Hget & _). rewrite Hget in Hr |- *. left. exists [b], input, k1, j1.
        split_and!; [done|done|by simpl; rewrite Es|by rewrite Ew|done|done|exact Hr|].
        intros v' rest' k'' E Hlt Hrun'. destruct (Hcons v' rest' E) as (v1 & -> & E1); [intros ->; simpl in Hlt; lia|].
        simpl in Hrun', Hlt. rewrite Es in Hrun'. eapply Hnone; [exact E1| |exact Hrun']. intros ->. simpl in Hlt. lia.
      * rewrite Hacc in Hr |- *. right. split; [done|]. intros v' rest' k'' E Hne Hrun'.
        destruct (Hcons v' rest' E Hne) as (v1 & -> & E1). simpl in Hrun'. rewrite Es in Hrun'.
        destruct v1 as [|c v1]; [simpl in Hrun'; congruence|]. by eapply Hnone.
  - rewrite Hst, Nat.eqb_refl. right. split; [done|]. intros v' rest' k'' E Hne Hrun'.
    destruct (Hcons v' rest' E Hne) as (v1 & -> & _). simpl in Hrun'. by rewrite Es in Hrun'.
Qed.

(** What the product says of a prefix of the input. *)
Lemma prefix_key u :
  items <> [] -> is_word u ->
  match key_run (compose_step items) (start_key items) u with
  | Some k => k = states_at items u
  | None => forall it, it ∈ items -> ~ item_accepts u it
  end.
Proof.
  intros Hne Hu. pose proof (compose_run items (start_key items) u Hok (kg_bound _ _ (start_key_good items Hok Hne)) Hu) as Hr.
  rewrite states_at_start in Hr by done. destruct (key_run _ _ u) as [k|]; [by destruct Hr|].
  intros it Hin Ha. apply list_elem_of_lookup in Hin as [i Hi].
  assert (Hc : comp_accepts items (states_at items u) i) by (apply comp_accepts_states; eauto).
  destruct Hc as (it' & s & _ & Hs & Hsd & _). rewrite Forall_lookup in Hr. by apply Hr in Hs.
Qed.

Lemma no_winner u :
  (winning_component items (states_at items u) = None <-> forall it, it ∈ items -> ~ item_accepts u it).
Proof.
  pose proof (winning_component_spec items (states_at items u)) as Hw.
  unfold states_at in Hw at 1. rewrite length_fmap in Hw. specialize (Hw eq_refl). split.
  - intros E it Hin Ha. rewrite E in Hw. apply list_elem_of_lookup in Hin as [i Hi].
    apply (Hw i), comp_accepts_states; eauto.
  - intros Hno. destruct (winning_component _ _) as [i|]; [|done].
    destruct Hw as (it & Hit & Ha & _). apply comp_accepts_states in Ha as (it' & Hit' & Ha); [|done].
    exfalso. eapply Hno; [|exact Ha]. by eapply list_elem_of_lookup_2.
Qed.

Lemma winner_wins u i :
  winning_component items (states_at items u) = Some i ->
  exists it, wins items (fun j => exists jt, items !! j = Some jt /\ item_accepts u jt) i it.
Proof.
  intros Hw. pose proof (winning_component_spec items (states_at items u)) as H.
  unfold states_at in H at 1. rewrite length_fmap, Hw in H. destruct (H eq_refl) as (it & Hit & Ha & Hbest). exists it.
  split; [done|]. split; [by apply comp_accepts_states|]. intros j jt Hj Haj.
  apply Hbest; [done|]. by apply comp_accepts_states.
Qed.

(** The longest prefix at which some item accepts, and who wins there. *)
Record longest (input u : word) (i : nat) (it : RouteItem) : Prop := {
  lg_prefix : u `prefix_of` input;
  lg_wins : wins items (fun j => exists jt, items !! j = Some jt /\ item_accepts u jt) i it;
  lg_max : forall v jt, v `prefix_of` input -> length u < length v -> jt ∈ items -> ~ item_accepts v jt;
}.

Lemma classify_spec input :
  items <> [] -> is_word input ->
  match classify t input with
  | None => forall u it, u `prefix_of` input -> it ∈ items -> ~ item_accepts u it
  | Some c => exists u i it, longest input u i it /\ cl_target c = ri_target it /\
      cl_matched_prefix c = take (default (length u) (ri_declared it)) input /\
      cl_matched_prefix c ++ cl_remainder c = input
  end.
Proof.
  intros Hne Hw. pose proof (finished_start _ _ _ _ _ st (cp_fin _ _ _ Ht)) as Hs1.
  unfold classify. rewrite (cp_start _ _ _ Ht).
  assert (Hpre : forall u, u `prefix_of` input -> is_word u).
  { intros u [r ->]. by apply Forall_app in Hw as [? _]. }
  assert (Hno : forall u, u `prefix_of` input ->
    (forall k, key_run (compose_step items) (start_key items) u = Some k -> winning_component items k = None) ->
    forall it, it ∈ items -> ~ item_accepts u it).
  { intros u Hu Hk. pose proof (prefix_key u Hne (Hpre u Hu)) as Hp.
    destruct (key_run _ _ u) as [k|]; [|done]. subst k. apply no_winner. by apply Hk. }
  assert (Hyes : forall u k j, u `prefix_of` input -> key_run (compose_step items) (start_key items) u = Some k ->
    is_Some (winning_component items k) -> 1 <= j -> b_order st !! j = Some k ->
    (forall v jt, v `prefix_of` input -> length u < length v -> jt ∈ items -> ~ item_accepts v jt) ->
    exists i it, longest input u i it /\ assoc_get j (rt_accept_map t) = Some (ri_target it) /\
      assoc_get j (rt_prefix_lens t) = ri_declared it).
  { intros u k j Hu Hk [i Hi] Hj Hjk Hmax. pose proof (prefix_key u Hne (Hpre u Hu)) as Hp. rewrite Hk in Hp. subst k.
    pose proof (accept_lookup j _ Hj Hjk) as Hacc. rewrite Hi in Hacc. destruct Hacc as (it & Hit & Hget & Hlen).
    destruct (winner_wins u i Hi) as (it' & Hwin). exists i, it. split; [|done].
    assert (it' = it) as -> by (destruct Hwin as (Hx & _); rewrite Hit in Hx; congruence). done. }
  destruct (walk_spec input 1 (start_key items) 0
    (match assoc_get 1 (rt_accept_map t) with Some _ => Some (1, 0) | None => None end) Hw (le_n 1) Hs1)
    as [(v & rest & k' & j' & -> & Hv & Hrun & Hwin & Hj' & Hk' & -> & Hmax)|[-> Hnone]].
  - destruct (Hyes v k' j') as (i & it & Hlg & Hget & Hlen); [by eexists|done..| |].
    { intros u jt Hu Hlt Hjt. apply (Hno u Hu); [|done]. intros k Hk. destruct Hu as [r Hr]. by eapply Hmax. }
    simpl. rewrite Hget. simpl. exists v, i, it. split; [done|]. split; [done|]. rewrite Hlen.
    split; [apply take_min|apply take_drop].
  - assert (Hlater : forall v jt, v `prefix_of` input -> length (@nil nat) < length v -> jt ∈ items -> ~ item_accepts v jt).
    { intros v jt Hv Hlt. apply (Hno v Hv). intros k Hk. destruct Hv as [r Hr].
      eapply Hnone; [exact Hr| |exact Hk]. intros ->. simpl in Hlt. lia. }
    pose proof (accept_lookup 1 _ (le_n 1) Hs1) as Hacc.
    destruct (winning_component items (start_key items)) as [i0|] eqn:Ew.
    + destruct (Hyes [] (start_key items) 1) as (i & it & Hlg & Hget & Hlen); [apply prefix_nil|done|by rewrite Ew|lia|done|done|].
      rewrite Hget. simpl. rewrite Hget. simpl. exists [], i, it. split; [done|]. split; [done|]. rewrite Hlen.
      split; [apply take_min|apply take_drop].
    + rewrite Hacc. simpl. intros u it Hu Hin. destruct u as [|c u].
      * apply (Hno [] Hu); [|done]. intros k [= <-]. done.
      * apply Hlater; [done|simpl; lia|done].
Qed.
End Walk.

(** ** Construction *)

(** Every composite key. *)
Definition all_keys (items : list RouteItem) : list (list nat) :=
  foldr (fun it acc => s ← seq 0 (dfa_num_states (ri_dfa it)); cons s <$> acc) [[]] items.

Lemma elem_of_all_keys items key : Forall2 comp_bound items key -> key ∈ all_keys items.
Proof.
  induction 1 as [|it s items key Hs _ IH]; simpl; [left|].
  apply list_elem_of_bind. exists s. split; [|apply elem_of_seq; unfold comp_bound in Hs; lia].
  apply list_elem_of_fmap. by exists key.
Qed.

Lemma table_compile_returns `{Blake3, RouteCodec} items :
  items_ok items ->
  exists t fuel0, forall fuel, fuel0 <= fuel -> table_compile fuel items = Some t.
Proof.
  intros Hok. destruct (decide (items = [])) as [->|Hne]; [by eexists _, 0|].
  destruct (explore_init_returns (compose_cells items) (winning_component items)
    (replicate (length items) DEAD_STATE) (start_key items) (compose_step items) (key_good items)
    (all_keys items) (length (all_keys items))) as [st Hst].
  - by apply start_key_good.
  - intros k Hk. by apply compose_row_ok.
  - intros k Hk. apply elem_of_all_keys, (kg_bound _ _ Hk).
  - done.
  - destruct (table_compile (length (all_keys items)) items) as [t|] eqn:Et.
    + exists t, (length (all_keys items)). intros fuel Hle. rewrite <-Et.
      destruct items as [|it items]; [done|]. unfold table_compile, compose_tagged_union.
      fold (start_key (it :: items)). by rewrite Hst, (explore_mono _ _ _ _ _ _ Hle Hst).
    + exfalso. destruct items as [|it items]; [done|]. unfold table_compile, compose_tagged_union in Et.
      fold (start_key (it :: items)) in Et. by rewrite Hst in Et.
Qed.

(** ** URL-style routes *)

(** The literal part of a route. *)
Definition literal (pattern : word) : word := (parse_url_style pattern).1.

Lemma literal_word pattern : is_word pattern -> is_word (literal pattern).
Proof.
  unfold literal, parse_url_style. intros Hp. destruct (last pattern) as [b|] eqn:El; [|done].
  assert (Hr : is_word (removelast pattern)).
  { apply last_Some in El as [l ->]. rewrite removelast_last. by apply Forall_app in Hp as [? _]. }
  by destruct (b =? 42).
Qed.

(** A table whose accepting set is cut down to one live state. *)
Lemma single_accept_ok d s :
  dfa_ok d -> 1 <= s < dfa_num_states d ->
  dfa_ok {| dfa_num_states := dfa_num_states d; dfa_transitions := dfa_transitions d;
            dfa_start := dfa_start d; dfa_accepting := [s] |}.
Proof.
  intros [H1 H2 H3 H4 H5 H6] Hs. split; simpl; try done.
  - intros x Hx. by apply list_elem_of_singleton in Hx as ->.
  - repeat constructor.
Qed.

Lemma dfa_run_ext d d' s w :
  dfa_transitions d = dfa_transitions d' -> dfa_run_from d s w = dfa_run_from d' s w.
Proof.
  intros E. revert s; induction w as [|b w IH]; intros s; simpl; [done|]. rewrite E.
  destruct (_ !! _) as [t|]; [|done]. by destruct (t =? DEAD_STATE).
Qed.

(** The state at the end of the literal is reached by the literal alone. *)
Lemma boundary_unique lit d u :
  is_word lit -> is_word u ->
  nfa_determinize (2 ^ length (nfa_states (nfa_concat (nfa_word lit) (nfa_star (nfa_byte_range 0 255)))))
    (nfa_concat (nfa_word lit) (nfa_star (nfa_byte_range 0 255))) = Some d ->
  dfa_run d lit <> DEAD_STATE -> dfa_run d u = dfa_run d lit -> u = lit.
Proof.
  intros Hlit Hu Hd Hlive Heq. set (A := nfa_word lit) in *. set (B := nfa_star (nfa_byte_range 0 255)) in *.
  destruct (recognises_word lit) as [HA HlA]. destruct recognises_any_star as [HB _]. fold A in HA, HlA. fold B in HB.
  pose proof (determinize_states (nfa_concat A B) (concat_ok A B HA HB) _ d u lit Hd Hu Hlit Heq ltac:(congruence)
    (nfa_accept A)) as Hreach.
  assert (HlitA : path (edge (nfa_states A)) (nfa_start A) lit (nfa_accept A)) by (by apply HlA).
  destruct Hreach as [_ Hreach].
  assert (Hp : path (edge (nfa_states (nfa_concat A B))) (nfa_start (nfa_concat A B)) u (nfa_accept A)).
  { apply Hreach. eapply path_ext; [|exact HlitA]. intros. apply edge_concat; [done|]. by left. }
  apply concat_path_left in Hp as [_ Hp]; [|done|apply (nok_accept A HA)]. by apply HlA.
Qed.

Lemma route_item_eventually pattern target :
  is_word pattern ->
  exists it fuel0, (forall fuel, fuel0 <= fuel -> route_item fuel pattern target = Some it) /\
    dfa_ok (ri_dfa it) /\ ri_target it = target /\ ri_declared it = Some (length (literal pattern)) /\
    (forall u, is_word u -> item_accepts u it <-> u = literal pattern).
Proof.
  intros Hw. pose proof (literal_word pattern Hw) as Hlit. unfold literal, route_item in *.
  destruct (parse_url_style pattern) as [lit is_prefix]. simpl in *. destruct is_prefix.
  - set (n := nfa_concat (nfa_word lit) (nfa_star (nfa_byte_range 0 255))).
    assert (Hn : recognises (pat_lang (PPrefixOf (PWord lit))) n).
    { apply (recognises_cat _ _ _ _ (recognises_word lit) recognises_any_star). }
    destruct (determinize_spec n (rc_ok _ _ Hn) _ (le_n _)) as (d & Hd & Hok & Hm).
    assert (Hmat : dfa_matches d lit = true).
    { apply Hm; [done|]. apply (rc_lang _ _ Hn); [done|]. exists lit, []. rewrite app_nil_r. by repeat split. }
    set (s := dfa_run d lit). assert (Hs : 1 <= s < dfa_num_states d).
    { unfold dfa_matches in Hmat. rewrite matches_is_run in Hmat by (intros t Ht; apply (ok_accepting d Hok) in Ht; lia).
      apply nmem_spec in Hmat. by apply (ok_accepting d Hok). }
    assert (Hsd : s <> DEAD_STATE) by (unfold DEAD_STATE; lia).
    eexists {| ri_dfa := {| dfa_num_states := dfa_num_states d; dfa_transitions := dfa_transitions d;
      dfa_start := dfa_start d; dfa_accepting := [s] |}; ri_target := target; ri_declared := Some (length lit) |}, _.
    split_and!; [|by apply single_accept_ok|done|done|].
    + intros fuel Hle. unfold pattern_compile, compile_with. cbn [needs_derivative pattern_to_nfa mbind option_bind].
      fold n. rewrite (determinize_mono _ _ _ _ Hle Hd). simpl. fold s.
      destruct (Nat.eqb_spec s DEAD_STATE); [done|]. done.
    + intros u Hu. unfold item_accepts, dfa_matches.
      rewrite matches_is_run by (simpl; intros t Ht; apply list_elem_of_singleton in Ht; lia).
      rewrite nmem_spec. simpl. rewrite list_elem_of_singleton.
      rewrite (dfa_run_ext _ d) by done. fold (dfa_run d u). split; [|by intros ->].
      intros E. by eapply boundary_unique.
  - destruct (pattern_to_nfa_eager (PWord lit) eq_refl) as (n & Hn & Hev).
    destruct (compile_eventually (PWord lit) n eq_refl Hn Hev) as (d & [Hok Hm] & F & HF).
    exists {| ri_dfa := d; ri_target := target; ri_declared := Some (length lit) |}, F.
    split_and!; [|done|done|done|done]. intros fuel Hle. by rewrite HF.
Qed.

Lemma route_items_eventually routes :
  Forall (fun r => is_word r.1) routes ->
  exists items fuel0, (forall fuel, fuel0 <= fuel -> route_items fuel routes = Some items) /\
    Forall2 (fun r it => dfa_ok (ri_dfa it) /\ ri_target it = r.2 /\
      ri_declared it = Some (length (literal r.1)) /\
      (forall u, is_word u -> item_accepts u it <-> u = literal r.1)) routes items.
Proof.
  induction 1 as [|[p tg] routes Hp _ (items & F & HF & Hall)]; [exists [], 0; by repeat constructor|].
  destruct (route_item_eventually p tg Hp) as (it & G & HG & Hit). exists (it :: items), (Nat.max F G).
  split; [|by constructor]. intros fuel Hle. unfold route_items in *. cbn [mapM].
  rewrite HG by lia. cbn. by rewrite HF by lia.
Qed.

(** ** Registry and governance: lemmas *)

Lemma elem_of_sset_insert k x l : x ∈ sset_insert k l <-> x = k \/ x ∈ l.
Proof.
  induction l as [|y l IH]; simpl; [by rewrite list_elem_of_singleton, elem_of_nil; naive_solver|].
  destruct (String.compare k y) eqn:E; [|by rewrite elem_of_cons|rewrite !elem_of_cons, IH; naive_solver].
  apply String.compare_eq_iff in E as ->. rewrite elem_of_cons. naive_solver.
Qed.

Lemma kinds_contains_spec r k : kinds_contains r k = true <-> k ∈ r.
Proof.
  unfold kinds_contains. rewrite any_true. setoid_rewrite String.eqb_eq. naive_solver.
Qed.

Lemma unknown_kinds_spec r t k :
  k ∈ unknown_kinds r t <->
  (k ∉ r) /\ exists id u, (id, Userspace u) ∈ rt_accept_map t /\ ut_kind u = k.
Proof.
  unfold unknown_kinds.
  assert (Hgen : forall l bad, k ∈ foldl (fun bad '(_, tgt) =>
    match tgt with
    | Userspace u => if kinds_contains r (ut_kind u) then bad else sset_insert (ut_kind u) bad
    | _ => bad end) bad l <->
    k ∈ bad \/ ((k ∉ r) /\ exists (id : nat) u, (id, Userspace u) ∈ l /\ ut_kind u = k)).
  { induction l as [|[id tgt] l IH]; intros bad; simpl.
    - setoid_rewrite elem_of_nil. naive_solver.
    - rewrite IH. setoid_rewrite elem_of_cons. destruct tgt as [nm|g| |u]; [naive_solver..|].
      destruct (kinds_contains r (ut_kind u)) eqn:Ek.
      + apply kinds_contains_spec in Ek. naive_solver.
      + assert (ut_kind u ∉ r) by (rewrite <-kinds_contains_spec; congruence).
        rewrite elem_of_sset_insert. naive_solver. }
  rewrite Hgen, elem_of_nil. naive_solver.
Qed.

Lemma validate_table_ok r t :
  validate_table r t = Ok tt <->
  (forall id u, (id, Userspace u) ∈ rt_accept_map t -> ut_kind u ∈ r).
Proof.
  unfold validate_table. pose proof (unknown_kinds_spec r t) as Hu.
  destruct (unknown_kinds r t) as [|k bad]; split; try done.
  - intros _ id u Hin. destruct (decide (ut_kind u ∈ r)) as [|Hno]; [done|].
    exfalso. eapply not_elem_of_nil. apply (Hu (ut_kind u)). split; [done|]. eauto.
  - intros Hall. exfalso. destruct (Hu k) as [Hk _]. destruct Hk as (Hno & id & u & Hin & <-); [left|].
    apply Hno. by eapply Hall.
Qed.

(** The histories of a governed router. *)
Inductive governed_reach : GovernedRouter -> Prop :=
| greach_new t v : governed_reach (governed_with_verifier t v)
| greach_registry g r : governed_reach g -> governed_reach (set_kind_registry r g)
| greach_update g t p : governed_reach g -> governed_reach (update_routes g t p).1.

(** A concrete encoding of the maps and a concrete table, for the instances. *)
Definition encode_target (t : RouteTarget) : list Z :=
  match t with
  | Handler s => 0%Z :: Z.of_nat (String.length s) :: str_bytes s
  | Federation g => 1%Z :: Z.of_nat (length g) :: g
  | Drop => [2%Z]
  | Userspace u => 3%Z :: Z.of_nat (String.length (ut_kind u)) :: str_bytes (ut_kind u)
      ++ Z.of_nat (length (ut_payload u)) :: map Z.of_nat (ut_payload u)
  end.

Definition model_codec : RouteCodec := {|
  encode_accept_map := fun m => concat (map (fun '(i, t) => Z.of_nat i :: encode_target t) m);
  encode_prefix_lens := fun m => concat (map (fun '(i, l) => [Z.of_nat i; Z.of_nat l]) m);
|}.

(** "/a/*" to one handler and "/a/b" to another. *)
Definition sample_routes : list (word * RouteTarget) :=
  [([47; 97; 47; 42], Handler "prefix"); ([47; 97; 47; 98], Handler "exact")].

(** ** Theorems *)

Section Theorems.
Context `{Blake3, RouteCodec}.

(** Routing is longest match.  For a table compiled from any routes with
    well-formed automata, the classification of a message is the route that
    accepts its longest accepted prefix, the one with the longest declared
    prefix among those, and the earliest added among ties; the matched prefix
    is the declared one (or the accepted one) and, with the remainder, is the
    message; there is no classification exactly when no route accepts any
    prefix; and the table is built by some amount of fuel. *)
Theorem router_longest_match (items : list RouteItem) :
  items_ok items -> items <> [] ->
  exists t fuel0, (forall fuel, fuel0 <= fuel -> table_compile fuel items = Some t) /\
  (forall input, is_word input ->
     match classify t input with
     | None => forall u it, u `prefix_of` input -> it ∈ items -> ~ item_accepts u it
     | Some c => exists u i it, longest items input u i it /\ cl_target c = ri_target it /\
         cl_matched_prefix c = take (default (length u) (ri_declared it)) input /\
         cl_matched_prefix c ++ cl_remainder c = input
     end).
Proof.
  intros Hok Hne. destruct (table_compile_returns items Hok) as (t & F & HF). exists t, F.
  split; [done|]. intros input Hw.
  destruct (table_compile_composed F items t Hok Hne (HF F (le_n F))) as [st Hst].
  by apply (classify_spec items st t).
Qed.

(** A table of URL-style routes dispatches a path to the route with the
    longest literal that is a prefix of the path, the earliest added among
    equal literals, with that literal as matched prefix; and to none exactly
    when no literal is a prefix of the path.  An exact route takes part like
    a prefix route: its literal need not be the whole path. *)
Theorem url_routes_longest_literal (routes : list (word * RouteTarget)) :
  Forall (fun r => is_word r.1) routes -> routes <> [] ->
  exists items t fuel0,
    (forall fuel, fuel0 <= fuel ->
       route_items fuel routes = Some items /\ table_compile fuel items = Some t) /\
    (forall path, is_word path ->
       match classify t path with
       | None => forall r, r ∈ routes -> ~ (literal r.1 `prefix_of` path)
       | Some c => exists i r, routes !! i = Some r /\ literal r.1 `prefix_of` path /\
           (forall j s, routes !! j = Some s -> literal s.1 `prefix_of` path ->
              length (literal s.1) < length (literal r.1) \/
              (length (literal s.1) = length (literal r.1) /\ i <= j)) /\
           cl_target c = r.2 /\ cl_matched_prefix c = literal r.1 /\
           path = literal r.1 ++ cl_remainder c
       end).
Proof.
  intros Hwr Hne. destruct (route_items_eventually routes Hwr) as (items & F & HF & Hall).
  assert (Hok : items_ok items).
  { unfold items_ok. clear -Hall. induction Hall; constructor; naive_solver. }
  assert (Hne' : items <> []) by (intros ->; by inversion Hall; subst).
  destruct (table_compile_returns items Hok) as (t & G & HG).
  destruct (table_compile_composed G items t Hok Hne' (HG G (le_n G))) as [st Hst].
  exists items, t, (Nat.max F G). split; [intros fuel Hle; split; [apply HF|apply HG]; lia|].
  intros path Hw. pose proof (classify_spec items st t Hok Hst path Hne' Hw) as Hc.
  assert (Hpw : forall u, u `prefix_of` path -> is_word u).
  { intros u [k ->]. by apply Forall_app in Hw as [? _]. }
  assert (Hlook : forall j s, routes !! j = Some s -> exists jt, items !! j = Some jt /\ ri_target jt = s.2 /\
    ri_declared jt = Some (length (literal s.1)) /\ (forall u, is_word u -> item_accepts u jt <-> u = literal s.1)).
  { intros j s Hs. destruct (Forall2_lookup_l _ _ _ _ _ Hall Hs) as (jt & Hjt & _ & ?). by exists jt. }
  destruct (classify t path) as [c|].
  - destruct Hc as (u & i & it & [Hu (Hit & (it' & Hit' & Ha) & Hbest) Hmax] & Htg & Hmp & Happ).
    rewrite Hit in Hit'. injection Hit' as <-.
    destruct (Forall2_lookup_r _ _ _ _ _ Hall Hit) as (r & Hr & _ & Htgt & Hdec & Hacc).
    apply Hacc in Ha as ->; [|by apply Hpw]. exists i, r. rewrite Hdec in Hmp. simpl in Hmp.
    assert (Hm : cl_matched_prefix c = literal r.1).
    { rewrite Hmp. destruct Hu as [k ->]. by rewrite take_app_length. }
    split; [done|]. split; [done|]. split; [|split_and!; [by rewrite Htg|done|by rewrite <-Hm]].
    intros j s Hs Hpre. destruct (Hlook j s Hs) as (jt & Hjt & _ & Hdj & Haj).
    assert (Hja : item_accepts (literal s.1) jt) by (apply Haj; [by apply Hpw|done]).
    destruct (Nat.lt_trichotomy (length (literal s.1)) (length (literal r.1))) as [?|[E|Hgt]]; [by left| |].
    + right. split; [done|]. assert (Heq : literal s.1 = literal r.1).
      { destruct Hu as [k1 E1], Hpre as [k2 E2]. rewrite E1 in E2. by apply app_inj_1 in E2 as [? _]. }
      destruct (Hbest j jt Hjt) as [Hlt|[_ ?]]; [exists jt; by rewrite <-Heq| |done].
      unfold declared_len in Hlt. rewrite Hdec, Hdj, E in Hlt. lia.
    + exfalso. eapply (Hmax (literal s.1) jt); [done|done| |done]. by eapply list_elem_of_lookup_2.
  - intros r Hr Hpre. apply list_elem_of_lookup in Hr as [j Hj]. destruct (Hlook j r Hj) as (jt & Hjt & _ & _ & Haj).
    eapply (Hc (literal r.1) jt); [done|by eapply list_elem_of_lookup_2|]. apply Haj; [by apply Hpw|done].
Qed.

(** The commitment of a compiled table does not cover its declared
    prefix lengths: it is the commitment of the same table without them, and
    under injective encodings and hash it differs from the one the
    documentation describes, which recomputing gives, whenever a URL-style
    route gave the table a prefix length. *)
Theorem commitment_omits_prefix_lens (fuel : nat) (items : list RouteItem) (t : RouteTable) :
  Blake3CR _ -> (forall a b, encode_prefix_lens a = encode_prefix_lens b -> a = b) ->
  table_compile fuel items = Some t ->
  rt_commitment t = compute_commitment (rt_transitions t) (rt_accept_map t) [] /\
  (rt_prefix_lens t <> [] -> rt_commitment (recompute_commitment t) <> rt_commitment t).
Proof.
  intros HCR Hinj Hc. assert (Hcom : rt_commitment t = compute_commitment (rt_transitions t) (rt_accept_map t) []).
  { destruct items as [|it items]; [by injection Hc as <-|]. unfold table_compile in Hc.
    destruct (compose_tagged_union fuel (it :: items)) as [[[d am] pl]|]; [|done]. by injection Hc as <-. }
  split; [done|]. intros Hpl E. rewrite Hcom in E. simpl in E. unfold compute_commitment in E.
  apply blake3_derive_key_inj in E as [_ E]. apply app_inv_head in E. apply app_inv_head in E.
  apply app_inv_head in E. apply app_inj_1 in E as [_ E]; [|by rewrite !length_le_bytes].
  by apply Hinj in E.
Qed.
End Theorems.

Lemma router_longest_match_witness :
  exists d t fuel0, re_compile 8 (re_word [104]) = Some d /\
    (forall fuel, fuel0 <= fuel ->
       @table_compile model_blake3 model_codec fuel
         [{| ri_dfa := d; ri_target := Drop; ri_declared := None |}] = Some t).
Proof.
  destruct (re_compile 8 (re_word [104])) as [d|] eqn:E; [|by vm_compute in E].
  pose proof (re_compile_spec _ _ _ E) as [Hok _].
  destruct (@router_longest_match model_blake3 model_codec
    [{| ri_dfa := d; ri_target := Drop; ri_declared := None |}]) as (t & F & HF & _);
    [by constructor; [|constructor]|done|].
  by exists d, t, F.
Defined.

Lemma url_routes_longest_literal_witness :
  exists items t fuel0, (forall fuel, fuel0 <= fuel ->
    route_items fuel sample_routes = Some items /\
    @table_compile model_blake3 model_codec fuel items = Some t) /\
    cl_target <$> classify t [47; 97; 47; 98; 99] = Some (Handler "exact").
Proof.
  destruct (@url_routes_longest_literal model_blake3 model_codec sample_routes) as (items & t & F & HF & Hc);
    [repeat constructor; simpl; lia|done|].
  exists items, t, F. split; [exact HF|].
  specialize (Hc [47; 97; 47; 98; 99] ltac:(repeat constructor; lia)).
  destruct (classify t [47; 97; 47; 98; 99]) as [c|]; simpl.
  - destruct Hc as (i & r & Hr & _ & Hbest & -> & _). f_equal.
    destruct (Hbest 1 ([47; 97; 47; 98], Handler "exact")) as [Hlt|[Hle _]]; [done|by exists [99]| |].
    + destruct i as [|[|i]]; [|by injection Hr as <-|by destruct i].
      injection Hr as <-. simpl in Hlt. lia.
    + destruct i as [|[|i]]; [|by injection Hr as <-|by destruct i].
      injection Hr as <-. simpl in Hle. lia.
  - exfalso. apply (Hc ([47; 97; 47; 98], Handler "exact")); [right; left|by exists [99]].
Defined.

(** The items compile to a table with a declared prefix length. *)
Definition has_prefix_len (fuel : nat) (items : list RouteItem) : bool :=
  match items with
  | [] => false
  | _ => match compose_tagged_union fuel items with Some (_, _, _ :: _) => true | _ => false end
  end.

Lemma has_prefix_len_compiles `{Blake3, RouteCodec} fuel items :
  has_prefix_len fuel items = true ->
  exists t, table_compile fuel items = Some t /\ rt_prefix_lens t <> [].
Proof.
  unfold has_prefix_len, table_compile. destruct items as [|it items]; [done|].
  destruct (compose_tagged_union fuel (it :: items)) as [[[d am] [|pl pls]]|]; [done| |done].
  intros _. by eexists.
Qed.

Lemma model_codec_prefix_inj a b :
  @encode_prefix_lens model_codec a = @encode_prefix_lens model_codec b -> a = b.
Proof.
  revert b; induction a as [|[i l] a IH]; intros [|[i' l'] b]; simpl; try done.
  intros [= E1 E2 E3]. f_equal; [f_equal; lia|]. by apply IH.
Qed.

Lemma commitment_omits_prefix_lens_witness :
  exists items t, route_items 32 [([47; 42], Drop)] = Some items /\
    @table_compile model_blake3 model_codec 32 items = Some t /\
    rt_commitment (@recompute_commitment model_blake3 model_codec t) <> rt_commitment t.
Proof.
  assert (Hrun : (has_prefix_len 32 <$> route_items 32 [([47; 42], Drop)]) = Some true)
    by (vm_compute; reflexivity).
  apply fmap_Some in Hrun as (items & Hi & Hc). symmetry in Hc.
  apply (@has_prefix_len_compiles model_blake3 model_codec) in Hc as (t & Ht & Hpl).
  exists items, t. split; [exact Hi|]. split; [exact Ht|].
  apply (@commitment_omits_prefix_lens model_blake3 model_codec 32 items t model_blake3_cr); [|exact Ht|exact Hpl].
  exact model_codec_prefix_inj.
Defined.

(** A governed router swaps its table atomically and only under its three
    checks: an update succeeds exactly when the expected commitment is the
    current one, the verifier accepts the pair of commitments and every
    userspace kind of the new table is registered, and then installs the table
    and its commitment; a refused update says which check failed first and
    changes nothing; and in every history the recorded commitment is the one
    its table carries. *)
Theorem governed_update_exact (g : GovernedRouter) (t : RouteTable) (p : GovernanceProof) :
  governed_reach g ->
  gr_commitment g = rt_commitment (gr_current g) /\
  ((update_routes g t p).2 = Ok tt <->
     gp_expected_old_commitment p = gr_commitment g /\
     is_ok (gr_verifier g (gr_commitment g) (rt_commitment t) (gp_proof_data p)) = true /\
     (forall id u, (id, Userspace u) ∈ rt_accept_map t -> ut_kind u ∈ gr_registry g)) /\
  ((update_routes g t p).2 = Ok tt -> gr_current (update_routes g t p).1 = t /\
     gr_commitment (update_routes g t p).1 = rt_commitment t) /\
  (forall e, (update_routes g t p).2 = Err e -> (update_routes g t p).1 = g) /\
  (forall kinds, (update_routes g t p).2 = Err (UnknownUserspaceKinds kinds) ->
     forall k, k ∈ kinds <-> (k ∉ gr_registry g) /\
       exists id u, (id, Userspace u) ∈ rt_accept_map t /\ ut_kind u = k).
Proof.
  intros Hg. split.
  { induction Hg as [| |g t' p' _ IH]; [done|done|]. unfold update_routes.
    destruct (negb _); [done|]. destruct (gr_verifier g _ _ _); [|done]. by destruct (validate_table _ _). }
  clear Hg. pose proof (validate_table_ok (gr_registry g) t) as Hv.
  unfold update_routes. case_bool_decide as Ec; simpl; [|split_and!; [naive_solver|done|naive_solver|done]].
  destruct (gr_verifier g _ _ _) as [[]|msg] eqn:Ever; simpl.
  2: { split_and!; [naive_solver|done|naive_solver|done]. }
  destruct (validate_table (gr_registry g) t) as [[]|unknown] eqn:Eval; simpl.
  - split_and!; [|done|done|done]. split; [|done]. intros _. split; [done|]. split; [done|]. by apply Hv.
  - split_and!; [|done|done|].
    + split; [done|]. intros (_ & _ & Hall). apply Hv in Hall. done.
    + intros kinds [= <-] k. rewrite <-unknown_kinds_spec. unfold validate_table in Eval.
      destruct (unknown_kinds (gr_registry g) t); [done|]. by injection Eval as <-.
Qed.

(** A table of one route, for the instances. *)
Definition sample_table : RouteTable := {|
  rt_commitment := fill32 7; rt_num_states := 1; rt_transitions := dead_row;
  rt_accept_map := []; rt_prefix_lens := []; rt_start := 0;
|}.

Lemma governed_update_exact_witness :
  (update_routes (governed_new sample_table) sample_table
     {| gp_expected_old_commitment := fill32 7; gp_proof_data := [1%Z] |}).2 = Ok tt.
Proof.
  apply (governed_update_exact (governed_new sample_table) sample_table
    {| gp_expected_old_commitment := fill32 7; gp_proof_data := [1%Z] |}); [apply greach_new|].
  split; [reflexivity|]. split; [reflexivity|]. intros id u Hin. by apply elem_of_nil in Hin.
Defined.

(** The governance check binds the commitment a table carries, not the
    table: wherever an update with one table is accepted, the same proof
    installs any other table that carries the same commitment and uses
    registered kinds, whatever its transitions and targets. *)
Theorem governance_trusts_carried_commitment (g : GovernedRouter) (t t' : RouteTable) (p : GovernanceProof) :
  (update_routes g t p).2 = Ok tt -> rt_commitment t' = rt_commitment t ->
  (forall id u, (id, Userspace u) ∈ rt_accept_map t' -> ut_kind u ∈ gr_registry g) ->
  (update_routes g t' p).2 = Ok tt /\ gr_current (update_routes g t' p).1 = t'.
Proof.
  intros Hok Hc Hk. apply validate_table_ok in Hk. unfold update_routes in *. rewrite Hc, Hk.
  destruct (negb _); [done|]. destruct (gr_verifier g _ _ _); [|done].
  by destruct (validate_table (gr_registry g) t).
Qed.

Lemma governance_trusts_carried_commitment_witness :
  (update_routes (governed_new sample_table)
     {| rt_commitment := fill32 7; rt_num_states := 1; rt_transitions := dead_row;
        rt_accept_map := [(0, Drop)]; rt_prefix_lens := []; rt_start := 0 |}
     {| gp_expected_old_commitment := fill32 7; gp_proof_data := [1%Z] |}).2 = Ok tt.
Proof.
  apply (governance_trusts_carried_commitment (governed_new sample_table) sample_table
    {| rt_commitment := fill32 7; rt_num_states := 1; rt_transitions := dead_row;
       rt_accept_map := [(0, Drop)]; rt_prefix_lens := []; rt_start := 0 |}
    {| gp_expected_old_commitment := fill32 7; gp_proof_data := [1%Z] |}); [reflexivity|reflexivity|].
  intros id u Hin. by apply list_elem_of_singleton in Hin.
Defined.
