(* ===== verification/Air.v ===== *)
(** * Execution traces of automata (dfa/src/air.rs, cell/src/predicate.rs)

    Generation and checking of the trace of a run, the self-contained trace
    that travels as a proof, its verification, and the verifier the cell side
    registers for the automaton predicate.

    postcard's encoding of a trace is the interface [TraceCodec].  The theorems:
    the trace checker accepts exactly the accepting run; honest proofs verify;
    and, because verification never compares the table inside the proof with
    the commitment it is meant to be of, a proof can be made for every
    commitment and every input. *)

From S2P Require Import Prelude.
From S2P Require Import Regex Automata Nfa NfaProofs Router.
From stdpp Require Import countable.
From stdpp Require Import list sorting strings.
From Stdlib Require Import ZArith Lia.

#[local] Open Scope nat_scope.

(** ** Traces *)

Record AirTraceRow := { ar_step : nat; ar_state : nat; ar_byte : nat; ar_next : nat }.

Definition generate_air_trace (d : Dfa) (input : word) : list AirTraceRow :=
  imap (fun i t => {| ar_step := i; ar_state := tr_state t; ar_byte := tr_byte t; ar_next := tr_next t |})
    (dfa_trace d input).

Inductive DfaError :=
| Decode (msg : string)
| CommitmentMismatchErr
| TraceInvalid (why : string)
| NotAccepting
| InputMismatch.

(** The loop over the rows, shared by both checkers: the byte, the bounds, the
    transition, then continuity with the next row. *)
Fixpoint check_rows (transitions : list nat) (input : word) (rows : list AirTraceRow)
  : result unit DfaError :=
  match rows, input with
  | [], _ => Ok tt
  | _ :: _, [] => Err (TraceInvalid "row byte does not match input")
  | row :: rest, b :: input' =>
    if negb (ar_byte row =? b) then Err (TraceInvalid "row byte does not match input")
    else
      match transitions !! (ar_state row * 256 + ar_byte row) with
      | None => Err (TraceInvalid "row index out of transition table")
      | Some expected_next =>
        if negb (ar_next row =? expected_next)
        then Err (TraceInvalid "row next_state does not match transitions table")
        else
          match rest with
          | next_row :: _ =>
            if negb (ar_state next_row =? ar_next row)
            then Err (TraceInvalid "trace continuity broken")
            else check_rows transitions input' rest
          | [] => Ok tt
          end
      end
  end.

Definition verify_air_trace (d : Dfa) (input : word) (trace : list AirTraceRow) : bool :=
  if negb (length trace =? length input) then false
  else
    match trace with
    | [] => nmem (dfa_start d) (dfa_accepting d)
    | first :: _ =>
      if negb (ar_state first =? dfa_start d) then false
      else
        match check_rows (dfa_transitions d) input trace with
        | Err _ => false
        | Ok _ =>
          match last trace with
          | Some r => nmem (ar_next r) (dfa_accepting d)
          | None => false
          end
        end
    end.

(** ** Self-contained proofs *)

Record AirTrace := {
  at_router_root : bytes;
  at_transitions : list nat;
  at_num_states : nat;
  at_start : nat;
  at_accepting : list nat;
  at_input : word;
  at_trace : list AirTraceRow;
}.

Definition at_final_state (a : AirTrace) : nat :=
  match last (at_trace a) with Some r => ar_next r | None => at_start a end.

Definition at_accepts (a : AirTrace) : bool := nmem (at_final_state a) (at_accepting a).

(** postcard on [AirTrace]; [to_proof_bytes] and [from_proof_bytes]. *)
Class TraceCodec := {
  to_proof_bytes : AirTrace -> bytes;
  decode_trace : bytes -> result AirTrace string;
}.

Definition from_proof_bytes `{TraceCodec} (b : bytes) : result AirTrace DfaError :=
  match decode_trace b with Ok a => Ok a | Err e => Err (Decode e) end.

Definition compile_to_air (t : RouteTable) (input : word) : AirTrace :=
  let d := as_dfa t in
  let '(_, longest) := dfa_run_with_longest_match d input in
  let trace_len := Nat.min (default (length input) longest) (length input) in
  let truncated := take trace_len input in
  {| at_router_root := rt_commitment t;
     at_transitions := dfa_transitions d;
     at_num_states := dfa_num_states d;
     at_start := dfa_start d;
     at_accepting := dfa_accepting d;
     at_input := truncated;
     at_trace := generate_air_trace d truncated |}.

Definition verify_acceptance `{TraceCodec} (router_root : bytes) (input : word) (proof : bytes)
  : result bool DfaError :=
  let? air := from_proof_bytes proof in
  if negb (bool_decide (at_router_root air = router_root)) then Err CommitmentMismatchErr
  else if negb (bool_decide (at_input air `prefix_of` input)) then Err InputMismatch
  else if negb (length (at_trace air) =? length (at_input air))
  then Err (TraceInvalid "trace length must equal input length")
  else if match at_trace air with
          | first :: _ => negb (ar_state first =? at_start air)
          | [] => false
          end
  then Err (TraceInvalid "first row state must be DFA start")
  else
    let? _ := check_rows (at_transitions air) (at_input air) (at_trace air) in
    if negb (at_accepts air) then Ok false else Ok true.

(** ** The registered verifier *)

Inductive PredicateInput :=
| PISlot (s : word)
| PIBytes (b : word)
| PIPublicInput (felts : list Z)
| PISender (s : word)
| PISigningMessage (b : word)
| PIAuthContext (signing_message : word) (cell_pre_state : list word).

Inductive WitnessedPredicateError :=
| Rejected (kind_name : string) (why : option DfaError)
| InputShapeMismatch (kind_name expected actual : string).

Definition dfa_input_bytes (i : PredicateInput) : result word WitnessedPredicateError :=
  match i with
  | PIBytes b => Ok b
  | PISlot s => Ok s
  | PISender s => Ok s
  | PISigningMessage b => Ok b
  | PIAuthContext m _ => Ok m
  | PIPublicInput _ =>
    Err (InputShapeMismatch "dfa-acceptance" "byte-bearing input (Bytes/Slot/Sender/SigningMessage)"
           "PublicInput (felt array, not a DFA byte input)")
  end.

(** The reason of a rejection is the error, or nothing for a trace that does
    not accept; the code formats both into a string. *)
Definition dfa_acceptance_verify `{TraceCodec} (commitment : bytes) (i : PredicateInput) (proof : bytes)
  : result unit WitnessedPredicateError :=
  let? input_bytes := dfa_input_bytes i in
  match verify_acceptance commitment input_bytes proof with
  | Ok true => Ok tt
  | Ok false => Err (Rejected "dfa-acceptance" None)
  | Err e => Err (Rejected "dfa-acceptance" (Some e))
  end.

(** ** Rows and runs *)

(** A row without its step number, which no check reads. *)
Definition row_of (t : Transition) : nat * nat * nat := (tr_state t, tr_byte t, tr_next t).
Definition bare (r : AirTraceRow) : nat * nat * nat := (ar_state r, ar_byte r, ar_next r).

Lemma length_dfa_trace d s w : length (dfa_trace_from d s w) = length w.
Proof. revert s; induction w as [|b w IH]; intros s; simpl; [done|]. by rewrite IH. Qed.

Lemma bare_generate d w : bare <$> generate_air_trace d w = row_of <$> dfa_trace d w.
Proof.
  unfold generate_air_trace. rewrite fmap_imap. rewrite <-imap_const. apply imap_ext. by intros.
Qed.

(** The state a run of the table ends in, dead state included. *)
Fixpoint trace_end (d : Dfa) (s : nat) (w : word) : nat :=
  match w with
  | [] => s
  | b :: w' => trace_end d (default DEAD_STATE (dfa_transitions d !! (s * 256 + b))) w'
  end.

Lemma trace_end_dead d w : dfa_ok d -> is_word w -> trace_end d DEAD_STATE w = DEAD_STATE.
Proof.
  intros Hd Hw. induction Hw as [|b w Hb Hw IH]; simpl; [done|].
  change (DEAD_STATE * 256 + b) with b. rewrite (ok_dead d Hd) by done. apply IH.
Qed.

Lemma trace_end_run d s w : dfa_ok d -> is_word w -> trace_end d s w = dfa_run_from d s w.
Proof.
  intros Hd Hw. revert s; induction Hw as [|b w Hb Hw IH]; intros s; simpl; [done|].
  destruct (_ !! _) as [t|]; simpl; [|by apply trace_end_dead].
  destruct (Nat.eqb_spec t DEAD_STATE) as [->|]; [by apply trace_end_dead|apply IH].
Qed.

Lemma last_trace d s w :
  w <> [] -> exists t, last (dfa_trace_from d s w) = Some t /\ tr_next t = trace_end d s w.
Proof.
  revert s; induction w as [|b w IH]; intros s; [done|]. intros _. cbn [dfa_trace_from trace_end].
  destruct w as [|c w]; [by eexists|]. rewrite last_cons.
  destruct (IH (default DEAD_STATE (dfa_transitions d !! (s * 256 + b)))) as (t & -> & Ht); [done|].
  by exists t.
Qed.

(** The row checks accept exactly the rows of the run. *)
Lemma check_rows_spec d s w rows :
  dfa_ok d -> is_word w -> s < dfa_num_states d -> length rows = length w ->
  match rows with r :: _ => ar_state r = s | [] => True end ->
  (check_rows (dfa_transitions d) w rows = Ok tt <-> bare <$> rows = row_of <$> dfa_trace_from d s w).
Proof.
  intros Hd Hw. revert s rows; induction Hw as [|b w Hb Hw IH]; intros s rows Hs Hlen Hfirst;
    destruct rows as [|r rows]; try done.
  destruct (table_entry d s b Hd Hs Hb) as (t & Ht & Hlt).
  cbn [check_rows dfa_trace_from fmap list_fmap]. rewrite Hfirst. unfold bare at 1, row_of at 1. simpl.
  destruct (Nat.eqb_spec (ar_byte r) b) as [->|Hne]; simpl; [|by split; [|intros [= ? ? ?]]].
  rewrite Ht. simpl. destruct (Nat.eqb_spec (ar_next r) t) as [Hnext|Hne]; simpl; [|by split; [|intros [= ? ? ?]]].
  rewrite Hnext, Hfirst. injection Hlen as Hlen.
  assert (Htail : match rows with
     | next_row :: _ => if negb (ar_state next_row =? t) then Err (TraceInvalid "trace continuity broken")
                        else check_rows (dfa_transitions d) w rows
     | [] => Ok tt end = Ok tt <-> bare <$> rows = row_of <$> dfa_trace_from d t w).
  { destruct rows as [|r' rows]; [by destruct w|].
    destruct (Nat.eqb_spec (ar_state r') t) as [E|E]; simpl.
    - by apply IH.
    - split; [done|]. destruct w; [done|]. simpl. intros [= ? ? ? ?]. done. }
  rewrite Htail. split; [by intros ->|]. by intros [= ->].
Qed.

Lemma run_bound d s w : dfa_ok d -> s < dfa_num_states d -> dfa_run_from d s w < dfa_num_states d.
Proof.
  intros Hd. pose proof (ok_start d Hd) as Hst. revert s; induction w as [|b w IH]; intros s Hs; simpl; [done|].
  destruct (_ !! _) as [t|] eqn:E; [|unfold DEAD_STATE; lia].
  destruct (Nat.eqb_spec t DEAD_STATE); [unfold DEAD_STATE; lia|]. apply IH. by eapply (ok_target d Hd).
Qed.

Lemma matches_run d w :
  dfa_ok d -> dfa_matches d w = nmem (dfa_run d w) (dfa_accepting d).
Proof.
  intros Hd. apply matches_is_run. intros t Ht. apply (ok_accepting d Hd) in Ht. lia.
Qed.

(** ** Longest match *)

Lemma longest_match_spec d s i best w :
  (forall t, t ∈ dfa_accepting d -> 1 <= t) ->
  let r := (longest_match_from d s i best w).2 in
  (exists v, v `prefix_of` w /\ v <> [] /\ nmem (dfa_run_from d s v) (dfa_accepting d) = true /\
     r = Some (i + length v)) \/
  (r = best /\ forall v, v `prefix_of` w -> v <> [] -> nmem (dfa_run_from d s v) (dfa_accepting d) = false).
Proof.
  intros Hacc. assert (Hdead : nmem DEAD_STATE (dfa_accepting d) = false).
  { apply not_true_iff_false. rewrite nmem_spec. intros H. apply Hacc in H. unfold DEAD_STATE in H. lia. }
  assert (Hcons : forall b (w v : word), v `prefix_of` b :: w -> v <> [] -> exists v', v = b :: v' /\ v' `prefix_of` w).
  { intros b w' [|c v] [k E] Hne; [done|]. injection E as -> ->. exists v. split; [done|]. by eexists. }
  revert s i best; induction w as [|b w IH]; intros s i best; simpl.
  - right. split; [done|]. intros v Hv Hne. by apply prefix_nil_inv in Hv.
  - destruct (dfa_transitions d !! (s * 256 + b)) as [t|] eqn:Et.
    2: { right. split; [done|]. intros v Hv Hne. destruct (Hcons b w v Hv Hne) as (v' & -> & _). simpl. by rewrite Et. }
    destruct (Nat.eqb_spec t DEAD_STATE) as [Htd|Htd].
    { right. split; [done|]. intros v Hv Hne. destruct (Hcons b w v Hv Hne) as (v' & -> & _). simpl. rewrite Et.
      by destruct (Nat.eqb_spec t DEAD_STATE). }
    assert (Hrun : forall v, dfa_run_from d s (b :: v) = dfa_run_from d t v).
    { intros v. simpl. rewrite Et. by destruct (Nat.eqb_spec t DEAD_STATE). }
    destruct (IH t (i + 1) (if nmem t (dfa_accepting d) then Some (i + 1) else best))
      as [(v & Hv & Hne & Ha & Hr)|[Hr Hno]].
    + left. exists (b :: v). split; [by apply prefix_cons|]. split; [done|]. rewrite Hrun. split; [done|].
      rewrite Hr. f_equal. simpl. lia.
    + destruct (nmem t (dfa_accepting d)) eqn:Ea.
      * left. exists [b]. split; [by exists w|]. split; [done|]. rewrite Hrun. split; [done|]. by rewrite Hr.
      * right. split; [done|]. intros v Hv Hne. destruct (Hcons b w v Hv Hne) as (v' & -> & Hv'). rewrite Hrun.
        destruct v' as [|c v']; [done|]. by apply Hno.
Qed.

(** The length the trace is cut at: an accepted prefix, if there is one. *)
Lemma longest_prefix d w :
  dfa_ok d ->
  match (dfa_run_with_longest_match d w).2 with
  | Some l => l <= length w /\ dfa_matches d (take l w) = true
  | None => forall u, u `prefix_of` w -> dfa_matches d u = false
  end.
Proof.
  intros Hd. assert (Hacc : forall t, t ∈ dfa_accepting d -> 1 <= t).
  { intros t Ht. apply (ok_accepting d Hd) in Ht. lia. }
  unfold dfa_run_with_longest_match.
  destruct (longest_match_spec d (dfa_start d) 0
    (if nmem (dfa_start d) (dfa_accepting d) then Some 0 else None) w Hacc) as [(v & [k ->] & _ & Ha & ->)|[-> Hno]].
  - simpl. rewrite length_app, take_app_length. split; [lia|]. by rewrite matches_run.
  - destruct (nmem (dfa_start d) (dfa_accepting d)) eqn:Es.
    + split; [lia|]. done.
    + intros [|b u] Hu; [done|]. rewrite matches_run by done. by apply Hno.
Qed.

Lemma length_generate d w : length (generate_air_trace d w) = length w.
Proof. unfold generate_air_trace. rewrite length_imap. apply length_dfa_trace. Qed.

Lemma generate_first d w :
  match generate_air_trace d w with r :: _ => ar_state r = dfa_start d | [] => True end.
Proof. by destruct w. Qed.

Lemma generate_checks d w :
  dfa_ok d -> is_word w -> check_rows (dfa_transitions d) w (generate_air_trace d w) = Ok tt.
Proof.
  intros Hd Hw. apply (check_rows_spec d (dfa_start d)); [done|done|apply (ok_start d Hd)| | |].
  - apply length_generate.
  - apply generate_first.
  - apply bare_generate.
Qed.

Lemma last_bare (rows : list AirTraceRow) r' :
  last (bare <$> rows) = Some r' -> exists r, last rows = Some r /\ bare r = r'.
Proof. rewrite fmap_last. intros H. apply fmap_Some in H as (r & ? & ->). by exists r. Qed.

(** The final row of a trace of the run. *)
Lemma final_of_run d rows w :
  dfa_ok d -> is_word w -> w <> [] -> bare <$> rows = row_of <$> dfa_trace d w ->
  exists r, last rows = Some r /\ ar_next r = dfa_run d w.
Proof.
  intros Hd Hw Hne E. destruct (last_trace d (dfa_start d) w Hne) as (t & Ht & Hn).
  destruct (last_bare rows (row_of t)) as (r & Hr & Hb).
  { rewrite E, fmap_last. unfold dfa_trace. by rewrite Ht. }
  exists r. split; [done|]. injection Hb as _ _ ->. rewrite Hn. by apply trace_end_run.
Qed.

(** A concrete codec: a trace as nested pairs, and those as one number. *)
Definition row_tuple (r : AirTraceRow) : nat * nat * nat * nat :=
  (ar_step r, ar_state r, ar_byte r, ar_next r).
Definition tuple_row (x : nat * nat * nat * nat) : AirTraceRow :=
  let '(a, b, c, d) := x in {| ar_step := a; ar_state := b; ar_byte := c; ar_next := d |}.

Definition trace_tuple (a : AirTrace) :=
  (at_router_root a, at_transitions a, at_num_states a, at_start a, at_accepting a, at_input a,
   row_tuple <$> at_trace a).
Definition tuple_trace (x : bytes * list nat * nat * nat * list nat * word * list (nat * nat * nat * nat)) : AirTrace :=
  let '(a, b, c, d, e, f, g) := x in
  {| at_router_root := a; at_transitions := b; at_num_states := c; at_start := d; at_accepting := e;
     at_input := f; at_trace := tuple_row <$> g |}.

Definition model_trace_codec : TraceCodec := {|
  to_proof_bytes := fun a => [Zpos (encode (trace_tuple a))];
  decode_trace := fun b =>
    match b with
    | [Zpos p] => match decode p with Some x => Ok (tuple_trace x) | None => Err "bad code"%string end
    | _ => Err "bad shape"%string
    end;
|}.

Lemma model_trace_roundtrip a :
  @decode_trace model_trace_codec (@to_proof_bytes model_trace_codec a) = Ok a.
Proof.
  simpl. rewrite decode_encode. f_equal. destruct a as [r tr ns s acc i rows]. unfold trace_tuple, tuple_trace. simpl.
  f_equal. rewrite <-list_fmap_compose. rewrite <-(list_fmap_id rows) at 2. apply list_fmap_ext. by intros ? [].
Qed.

(** A proof with an empty table and an empty trace that claims any root. *)
Definition forged_trace (root : bytes) : AirTrace := {|
  at_router_root := root; at_transitions := []; at_num_states := 0; at_start := 1;
  at_accepting := [1]; at_input := []; at_trace := [] |}.

(** ** Theorems *)

(** The out-of-circuit trace checker accepts exactly the accepting run: a
    trace passes for a well-formed table and an input if and only if its rows
    are the rows of the table's own run on that input and the table accepts
    it.  So there is at most one passing trace up to the step numbers, and a
    rejected input has none. *)
Theorem air_trace_verifier_exact (d : Dfa) (input : word) (trace : list AirTraceRow) :
  dfa_ok d -> is_word input ->
  (verify_air_trace d input trace = true <->
   bare <$> trace = row_of <$> dfa_trace d input /\ dfa_matches d input = true).
Proof.
  intros Hd Hw. unfold verify_air_trace.
  destruct (Nat.eqb_spec (length trace) (length input)) as [Hlen|Hlen]; simpl.
  2: { split; [done|]. intros [E _]. apply (f_equal length) in E. rewrite !length_fmap in E.
       unfold dfa_trace in E. rewrite length_dfa_trace in E. done. }
  destruct trace as [|first rest].
  { destruct input as [|b input]; [|done]. split; [by intros|]. by intros [_ ?]. }
  destruct (Nat.eqb_spec (ar_state first) (dfa_start d)) as [Hs|Hs]; simpl negb; cbn iota.
  2: { split; [done|]. intros [E _]. destruct input as [|b input]; [done|]. by injection E as ? _. }
  assert (Hne : input <> []) by (intros ->; done).
  pose proof (check_rows_spec d (dfa_start d) input (first :: rest) Hd Hw
    (proj2 (ok_start d Hd)) Hlen Hs) as Hspec. fold (dfa_trace d input) in Hspec.
  destruct (check_rows _ _ _) as [[]|e].
  - destruct Hspec as [Hrows _]. specialize (Hrows eq_refl).
    destruct (final_of_run d _ input Hd Hw Hne Hrows) as (r & -> & ->). rewrite matches_run by done. tauto.
  - split; [done|]. intros [E _]. by apply Hspec in E.
Qed.

Section AcceptanceTheorems.
Context `{TraceCodec}.
Context (roundtrip : forall a, decode_trace (to_proof_bytes a) = Ok a).

(** Honest proofs verify: the proof compiled from a table and an input is
    always accepted as a proof about that table's commitment and that input,
    and it answers true exactly when the table accepts some prefix of the
    input, the longest-match rule of the router. *)
Theorem honest_acceptance_verifies (t : RouteTable) (input : word) :
  dfa_ok (as_dfa t) -> is_word input ->
  exists b, verify_acceptance (rt_commitment t) input (to_proof_bytes (compile_to_air t input)) = Ok b /\
    (b = true <-> exists u, u `prefix_of` input /\ dfa_matches (as_dfa t) u = true).
Proof.
  intros Hd Hw. set (d := as_dfa t) in *. pose proof (longest_prefix d input Hd) as Hlong.
  unfold compile_to_air. fold d. destruct (dfa_run_with_longest_match d input) as [f longest]. simpl in Hlong.
  set (l := Nat.min (default (length input) longest) (length input)). set (u := take l input).
  assert (Hu : is_word u) by (by apply Forall_take).
  assert (Hpre : u `prefix_of` input) by (exists (drop l input); unfold u; by rewrite take_drop).
  unfold verify_acceptance, from_proof_bytes. rewrite roundtrip. cbn [at_router_root at_input at_trace at_start at_transitions].
  rewrite !bool_decide_eq_true_2 by done. cbn [negb].
  rewrite length_generate, Nat.eqb_refl. cbn [negb].
  assert (Hfirst : (match generate_air_trace d u with r :: _ => negb (ar_state r =? dfa_start d) | [] => false end) = false).
  { pose proof (generate_first d u) as Hf. destruct (generate_air_trace d u); [done|]. by rewrite Hf, Nat.eqb_refl. }
  rewrite Hfirst, generate_checks by done.
  exists (dfa_matches d u). split.
  - assert (Hacc : forall root ns, at_accepts {| at_router_root := root; at_transitions := dfa_transitions d;
      at_num_states := ns; at_start := dfa_start d; at_accepting := dfa_accepting d; at_input := u;
      at_trace := generate_air_trace d u |} = dfa_matches d u).
    { intros root ns. unfold at_accepts, at_final_state. cbn [at_trace at_start at_accepting].
      rewrite matches_run by done. destruct u as [|b u'] eqn:Eu; [done|]. rewrite <-Eu in *.
      destruct (final_of_run d (generate_air_trace d u) u Hd Hu) as (r & -> & ->); [by rewrite Eu|apply bare_generate|done]. }
    rewrite Hacc. by destruct (dfa_matches d u).
  - split; [by eauto|]. intros (v & Hv & Hm). destruct longest as [k|].
    + destruct Hlong as [Hk Hmk]. unfold u, l. simpl. by rewrite Nat.min_l.
    + by rewrite (Hlong v Hv) in Hm.
Qed.

(** Acceptance proofs can be forged for every commitment and every input:
    the verifier compares only the root the proof carries, never the table
    inside it, so a proof with an empty table and an empty trace verifies for
    any root and any input, and the registered predicate verifier accepts it
    on every byte-bearing input. *)
Theorem acceptance_proof_forgeable (root : bytes) (input : word) (i : PredicateInput) :
  verify_acceptance root input (to_proof_bytes (forged_trace root)) = Ok true /\
  (dfa_input_bytes i = Ok input -> dfa_acceptance_verify root i (to_proof_bytes (forged_trace root)) = Ok tt).
Proof.
  assert (Hv : verify_acceptance root input (to_proof_bytes (forged_trace root)) = Ok true).
  { unfold verify_acceptance, from_proof_bytes. rewrite roundtrip. simpl.
    by rewrite bool_decide_eq_true_2. }
  split; [done|]. intros Hi. unfold dfa_acceptance_verify. by rewrite Hi, Hv.
Qed.
End AcceptanceTheorems.

(** A table with one live accepting state, for the instances. *)
Definition one_state_table : RouteTable := {|
  rt_commitment := fill32 9; rt_num_states := 2; rt_transitions := dead_row ++ dead_row;
  rt_accept_map := [(1, Drop)]; rt_prefix_lens := []; rt_start := 1;
|}.

Lemma one_state_ok : dfa_ok (as_dfa one_state_table).
Proof.
  assert (Hz : forall i j, (dead_row ++ dead_row) !! i = Some j -> j = DEAD_STATE).
  { intros i j Hij. unfold dead_row in Hij. rewrite <-replicate_add in Hij. by apply lookup_replicate in Hij as [-> _]. }
  split; cbn [as_dfa one_state_table dfa_num_states dfa_transitions dfa_start dfa_accepting
    rt_num_states rt_transitions rt_start rt_accept_map].
  - reflexivity.
  - lia.
  - intros i j Hij. rewrite (Hz _ _ Hij). unfold DEAD_STATE. lia.
  - intros s Hs. apply list_elem_of_singleton in Hs as ->. simpl. lia.
  - repeat constructor.
  - intros b Hb. apply (lookup_app_l_Some dead_row), lookup_replicate_2. lia.
Qed.

Lemma air_trace_verifier_exact_witness :
  verify_air_trace (as_dfa one_state_table) [] [] = true /\
  ~ verify_air_trace (as_dfa one_state_table) [5] [] = true.
Proof.
  split.
  - apply (air_trace_verifier_exact (as_dfa one_state_table) [] []); [apply one_state_ok|constructor|].
    split; reflexivity.
  - rewrite (air_trace_verifier_exact (as_dfa one_state_table) [5] []);
      [intros [E _]; discriminate E|apply one_state_ok|repeat constructor; lia].
Defined.

Lemma honest_acceptance_verifies_witness :
  exists b, @verify_acceptance model_trace_codec (fill32 9) [5]
    (@to_proof_bytes model_trace_codec (compile_to_air one_state_table [5])) = Ok b.
Proof.
  destruct (@honest_acceptance_verifies model_trace_codec model_trace_roundtrip one_state_table [5])
    as (b & Hb & _); [apply one_state_ok|repeat constructor; lia|].
  exists b. exact Hb.
Defined.

Lemma acceptance_proof_forgeable_witness :
  @verify_acceptance model_trace_codec (fill32 1) [1; 2; 3]
    (@to_proof_bytes model_trace_codec (forged_trace (fill32 1))) = Ok true.
Proof.
  exact (proj1 (@acceptance_proof_forgeable model_trace_codec model_trace_roundtrip
    (fill32 1) [1; 2; 3] (PIBytes [1; 2; 3]))).
Defined.
