(* ===== verification/Aafi.v ===== *)
(** * Inserting at the free index

    Models the append-at-free-index half of [circuit/src/heap_root.rs]: the
    insert witness that edits one pointer in place and appends the new leaf,
    the fold of an append-ordered row of leaves, the paths in it, and the walk
    of the pointers that recovers the sorted order.  [None] is the method's own
    [None]; the sorted tree the witness starts from is the one of [Heap]. *)

From stdpp Require Import base decidable option list sorting.
From Stdlib Require Import ZArith Lia.
From S2P Require Import Prelude BabyBear Poseidon2 CapRoot Heap.

Open Scope Z_scope.

(** ** The model *)

(** [fold_append_order_8]: the rows are folded in the order they are given.  The
    debug assertion that one digest is left holds while the rows fit the depth
    ([fold_leaves_one]); past it a debug build panics, and this is what a release
    build does. *)
Definition fold_append_order_8 (leaves : list HeapLeaf) (depth : nat) : option digest8 :=
  match leaves with
  | [] => Some (heap_empty_subtree_root_8 depth)
  | _ => fold_levels 0 depth (map digest8_of leaves) !! 0%nat
  end.

(** [fold_append_order_membership_8]. *)
Definition fold_append_order_membership_8 (leaves : list HeapLeaf) (position depth : nat)
    : list digest8 * list Z :=
  let levels := build_levels 0 depth (map digest8_of leaves) in
  let path := heap_path_from levels 0 depth position in
  (map fst path, map snd path).

Record AafiInsertWitness8 : Type := mkAafi {
  aw_free_index : nat;
  aw_low_position : nat;
  aw_low_leaf_old : HeapLeaf;
  aw_low_leaf_new : HeapLeaf;
  aw_new_leaf : HeapLeaf;
  aw_append_order_after : list HeapLeaf;
  aw_low_siblings : list digest8;
  aw_low_directions : list Z;
  aw_old_root : digest8;
  aw_new_root : digest8;
}.

(** [low.addr < k && k < low.next_addr]. *)
Definition brackets (low : HeapLeaf) (k : Z) : bool := (hl_addr low <? k) && (k <? hl_next_addr low).

Definition insert_witness_aafi (t : CanonicalHeapTree8) (new_leaf : HeapLeaf)
    : option AafiInsertWitness8 :=
  let key := hl_addr new_leaf in
  if bb_eqb key SENTINEL_MIN || (SENTINEL_MAX <=? key) then None
  else match heap_position_of t key with
  | Some _ => None
  | None =>
      let pred := partition_point (fun l => hl_addr l <? key) (h8_sorted_leaves t) in
      if (pred =? 0)%nat then None
      else
        let low_position := (pred - 1)%nat in
        low_leaf_old ← h8_sorted_leaves t !! low_position;
        if negb (brackets low_leaf_old key) then None
        else
          let low_leaf_new := mkHeapLeaf (hl_addr low_leaf_old) (hl_value low_leaf_old) key in
          let appended := mkHeapLeaf key (hl_value new_leaf) (hl_next_addr low_leaf_old) in
          let after := <[low_position := low_leaf_new]> (h8_sorted_leaves t) ++ [appended] in
          path ← heap_prove_membership t low_position;
          new_root ← fold_append_order_8 after (h8_depth t);
          Some (mkAafi (h8_next_free_index t) low_position low_leaf_old low_leaf_new appended
                  after path.1 path.2 (root8 t) new_root)
  end.

(** The [HashMap] collected from the leaves by address: of two leaves with one
    address the later stays. *)
Definition by_addr (leaves : list HeapLeaf) (k : Z) : option HeapLeaf :=
  ffind (fun l => hl_addr l =? k) (rev leaves).

(** The loop of [linked_chain_sorted].  [room] is how many leaves may still be
    pushed before the cycle guard returns. *)
Fixpoint chain_walk (leaves : list HeapLeaf) (room : nat) (cur : HeapLeaf) : option (list HeapLeaf) :=
  match room with
  | O => None
  | S room' =>
      if hl_next_addr cur =? SENTINEL_MAX then Some [cur]
      else next ← by_addr leaves (hl_next_addr cur); (cons cur) <$> chain_walk leaves room' next
  end.

Definition linked_chain_sorted (w : AafiInsertWitness8) : option (list HeapLeaf) :=
  let leaves := aw_append_order_after w in
  cur ← by_addr leaves SENTINEL_MIN; chain_walk leaves (length leaves) cur.

Definition new_leaf_membership (w : AafiInsertWitness8) (depth : nat) : list digest8 * list Z :=
  fold_append_order_membership_8 (aw_append_order_after w) (aw_free_index w) depth.

(** ** Paths in a folded row *)

Lemma heap_path_step d s b :
  (if b =? 0 then heap_node8 d s else heap_node8 s d) = path_step d (s, b).
Proof.
  unfold path_step. cbn [fst snd]. destruct (b =? 0); rewrite heap_node8_eq; reflexivity.
Qed.

Lemma recompose_fold_path d sibs dirs : recompose_membership_8 d sibs dirs = fold_path d sibs dirs.
Proof.
  unfold recompose_membership_8, fold_path. revert d.
  induction (zip sibs dirs) as [|[s b] l IH]; intros d; cbn [foldl]; [reflexivity|].
  rewrite IH. cbn [fst snd]. rewrite heap_path_step. reflexivity.
Qed.

Lemma heap_path_fold ds depth p d n level :
  (level + n <= depth)%nat ->
  foldl path_step (dense (update_at (leaf_at ds) p d) level (p / 2 ^ level))
    (heap_path_from (build_levels 0 depth ds) level n (p / 2 ^ level)) =
  dense (update_at (leaf_at ds) p d) (level + n) (p / 2 ^ (level + n)).
Proof.
  revert level; induction n as [|n IH]; intros level Hn; [by rewrite Nat.add_0_r|].
  cbn [heap_path_from foldl]. rewrite node8_dense by lia. rewrite path_step_up.
  replace (Nat.shiftr (p / 2 ^ level) 1) with (p / 2 ^ S level)%nat.
  - rewrite IH by lia. by replace (S level + n)%nat with (level + S n)%nat by lia.
  - rewrite Nat.shiftr_div_pow2, Nat.Div0.div_div, Nat.pow_succ_r'. f_equal. simpl. lia.
Qed.

(** Any digest folded up the path of a position gives the root of the row with
    that digest there; a stored digest gives the root of the row. *)
Lemma heap_path_update ds depth p d :
  (p < length ds)%nat -> (p < 2 ^ depth)%nat ->
  let path := heap_path_from (build_levels 0 depth ds) 0 depth p in
  recompose_membership_8 d (map fst path) (map snd path) =
  node8 (build_levels 0 depth (<[p := d]> ds)) depth 0.
Proof.
  intros Hd Hp path. rewrite recompose_fold_path. unfold fold_path, path.
  rewrite zip_fst_snd, node8_dense by done.
  pose proof (heap_path_fold ds depth p d depth 0 ltac:(lia)) as Hf.
  rewrite Nat.pow_0_r, Nat.div_1_r, Nat.add_0_l, (Nat.div_small p) in Hf by done.
  cbn [dense] in Hf. unfold update_at at 1 in Hf. rewrite decide_True in Hf by done. rewrite Hf.
  apply dense_ext. intros j. unfold update_at, leaf_at. destruct (decide (j = p)) as [->|].
  - by rewrite list_lookup_insert_eq.
  - by rewrite list_lookup_insert_ne.
Qed.

Lemma heap_path_opens ds depth p d :
  ds !! p = Some d -> (p < 2 ^ depth)%nat ->
  let path := heap_path_from (build_levels 0 depth ds) 0 depth p in
  recompose_membership_8 d (map fst path) (map snd path) = node8 (build_levels 0 depth ds) depth 0.
Proof.
  intros Hd Hp path. unfold path. rewrite heap_path_update; [|by eapply lookup_lt_Some|done].
  by rewrite list_insert_id.
Qed.

Lemma fold_append_order_root leaves depth :
  leaves <> [] ->
  fold_append_order_8 leaves depth =
  Some (node8 (build_levels 0 depth (map digest8_of leaves)) depth 0).
Proof.
  intros Hne. destruct leaves as [|l leaves]; [done|]. unfold fold_append_order_8.
  exact (root8_levels (map digest8_of (l :: leaves)) [] depth 0 ltac:(done)).
Qed.

(** ** A fresh leaf among the linked ones *)

Lemma insert_by_key_comm {A} (key : A -> Z) x n l :
  key x <> key n -> insert_by_key key x (insert_by_key key n l) = insert_by_key key n (insert_by_key key x l).
Proof.
  intros Hne. induction l as [|y l IH]; cbn [insert_by_key].
  - destruct (Z.leb_spec (key x) (key n)), (Z.leb_spec (key n) (key x)); try lia; done.
  - destruct (Z.leb_spec (key n) (key y)), (Z.leb_spec (key x) (key y)); cbn [insert_by_key];
      repeat match goal with |- context [?a <=? ?b] => destruct (Z.leb_spec a b) end; try lia; try done.
    by rewrite IH.
Qed.

Lemma sort_by_key_fresh {A} (key : A -> Z) n l r :
  key n ∉ key <$> l ->
  sort_by_key key (l ++ n :: r) = insert_by_key key n (sort_by_key key (l ++ r)).
Proof.
  intros Hn. induction l as [|x l IH]; [done|].
  rewrite fmap_cons, not_elem_of_cons in Hn. destruct Hn as [Hx Hn].
  change (insert_by_key key x (sort_by_key key (l ++ n :: r)) =
          insert_by_key key n (insert_by_key key x (sort_by_key key (l ++ r)))).
  rewrite IH by done. by apply insert_by_key_comm.
Qed.

Lemma dedup_after_insert {A} (key : A -> Z) p n l :
  key p < key n -> key n ∉ key <$> l ->
  dedup_after key p (insert_by_key key n l) = insert_by_key key n (dedup_after key p l).
Proof.
  revert p; induction l as [|y l IH]; intros p Hp Hn; cbn [insert_by_key dedup_after].
  - by rewrite (proj2 (Z.eqb_neq _ _)) by lia.
  - rewrite fmap_cons, not_elem_of_cons in Hn. destruct Hn as [Hy Hn].
    destruct (Z.leb_spec (key n) (key y)); cbn [dedup_after].
    + rewrite (proj2 (Z.eqb_neq (key n) (key p))), (proj2 (Z.eqb_neq (key y) (key n))),
        (proj2 (Z.eqb_neq (key y) (key p))) by lia.
      cbn [insert_by_key]. by rewrite (proj2 (Z.leb_le _ _)).
    + destruct (Z.eqb_spec (key y) (key p)); [by apply IH|].
      cbn [insert_by_key]. rewrite (proj2 (Z.leb_gt _ _)) by done. by rewrite IH by (done || lia).
Qed.

(** The pointers of a prefix depend only on the address that follows it. *)
Lemma relink_app b x r :
  relink_next_addrs (b ++ x :: r) =
  take (length b) (relink_next_addrs (b ++ [x])) ++ relink_next_addrs (x :: r).
Proof.
  induction b as [|y b IH]; [done|].
  cbn [app relink_next_addrs length take]. rewrite IH. f_equal. f_equal.
  by destruct b.
Qed.

Lemma relink_head x r :
  relink_next_addrs (x :: r) =
  mkHeapLeaf (hl_addr x) (hl_value x) (match r with n :: _ => hl_addr n | [] => SENTINEL_MAX end)
  :: relink_next_addrs r.
Proof. done. Qed.

(** An ascending row splits around a key it does not hold. *)
Lemma insert_split {A} (key : A -> Z) n l :
  StronglySorted (key_lt key) l -> key n ∉ key <$> l ->
  exists b1 b2, l = b1 ++ b2 /\ insert_by_key key n l = b1 ++ n :: b2 /\
    Forall (fun y => key y < key n) b1 /\ Forall (fun y => key n < key y) b2.
Proof.
  induction 1 as [|y l Hs IH Hy]; intros Hn; cbn [insert_by_key]; [by exists [], []|].
  rewrite fmap_cons, not_elem_of_cons in Hn. destruct Hn as [Hne Hn].
  destruct (Z.leb_spec (key n) (key y)).
  - exists [], (y :: l). split_and!; [done|done|constructor|]. constructor; [lia|].
    eapply Forall_impl; [exact Hy|]. unfold key_lt. intros z. simpl. lia.
  - destruct (IH Hn) as (b1 & b2 & -> & -> & H1 & H2).
    exists (y :: b1), b2. split_and!; [done|done|by constructor|done].
Qed.

(** ** Walking the pointers *)

Lemma by_addr_unique ls x : NoDup (hl_addr <$> ls) -> x ∈ ls -> by_addr ls (hl_addr x) = Some x.
Proof.
  intros Hnd Hx. unfold by_addr.
  assert (Hr : forall y, y ∈ rev ls <-> y ∈ ls)
    by (intros y; rewrite !list_elem_of_In; symmetry; apply in_rev).
  destruct (ffind _ (rev ls)) as [y|] eqn:E.
  - apply ffind_some in E as [Hy Hk]. apply Z.eqb_eq in Hk. f_equal.
    apply (NoDup_fmap_elem_inj hl_addr ls); [done|by apply Hr|done|done].
  - pose proof (ffind_none _ _ E x (proj2 (Hr x) Hx)) as Hk. simpl in Hk. by rewrite Z.eqb_refl in Hk.
Qed.

Lemma chain_walk_linked ls x r room :
  NoDup (hl_addr <$> ls) -> (forall y, y ∈ relink_next_addrs (x :: r) -> y ∈ ls) ->
  Forall (fun y => hl_addr y < SENTINEL_MAX) r -> (length (x :: r) <= room)%nat ->
  chain_walk ls room
    (mkHeapLeaf (hl_addr x) (hl_value x) (match r with n :: _ => hl_addr n | [] => SENTINEL_MAX end)) =
  Some (relink_next_addrs (x :: r)).
Proof.
  intros Hnd. revert x room; induction r as [|y r IH]; intros x room Hin Hlt Hroom;
    (destruct room as [|room]; [simpl in Hroom; lia|]); cbn [chain_walk hl_next_addr].
  - by rewrite Z.eqb_refl.
  - apply Forall_cons in Hlt as [Hy Hlt]. rewrite (proj2 (Z.eqb_neq _ _)) by lia.
    set (y' := mkHeapLeaf (hl_addr y) (hl_value y) (match r with n :: _ => hl_addr n | [] => SENTINEL_MAX end)).
    change (hl_addr y) with (hl_addr y'). rewrite by_addr_unique; [|done|].
    + cbn [mbind option_bind]. unfold y'. rewrite IH; [done| |done|simpl in *; lia].
      intros z Hz. apply Hin. cbn [relink_next_addrs]. by right.
    + apply Hin. cbn [relink_next_addrs]. right. left.
Qed.

(** ** The insert and the rebuilt tree *)

Definition in_key_range (k : Z) : Prop := SENTINEL_MIN < k < SENTINEL_MAX.

Lemma in_key_range_canonical k : in_key_range k -> canonical k.
Proof. unfold in_key_range, canonical, SENTINEL_MIN, SENTINEL_MAX. unfold_P. lia. Qed.

Definition unlinked (leaves : list HeapLeaf) : list HeapLeaf :=
  dedup_by_key hl_addr (sort_by_key hl_addr (leaves ++ [min_sentinel_leaf])).

Lemma unlinked_sorted leaves : StronglySorted (key_lt hl_addr) (unlinked leaves).
Proof. apply dedup_by_key_sorted, sort_by_key_sorted. Qed.

Lemma unlinked_addrs leaves a : a ∈ hl_addr <$> unlinked leaves <-> a = SENTINEL_MIN \/ a ∈ hl_addr <$> leaves.
Proof. rewrite <-elem_of_linked_addrs. unfold linked_leaves. by rewrite relink_addrs. Qed.

Section Insert.
Context (leaves : list HeapLeaf) (nl : HeapLeaf).
Hypothesis Hrange : Forall (fun l => in_key_range (hl_addr l)) leaves.
Hypothesis Hkey : in_key_range (hl_addr nl).
Hypothesis Hfresh : hl_addr nl ∉ hl_addr <$> leaves.

Lemma min_below a : a ∈ hl_addr <$> unlinked leaves -> SENTINEL_MIN <= a < SENTINEL_MAX.
Proof using Hrange.
  intros [->|(l & -> & Hl)%list_elem_of_fmap]%unlinked_addrs; [done|].
  rewrite Forall_forall in Hrange. specialize (Hrange l Hl). unfold in_key_range in Hrange. lia.
Qed.

Lemma fresh_unlinked : hl_addr nl ∉ hl_addr <$> unlinked leaves.
Proof using Hkey Hfresh.
  intros [E|?]%unlinked_addrs; [|done]. unfold in_key_range in Hkey. lia.
Qed.

(** The sorted, deduplicated row with the new leaf is the old one with the leaf
    inserted. *)
Lemma unlinked_insert : unlinked (leaves ++ [nl]) = insert_by_key hl_addr nl (unlinked leaves).
Proof using Hrange Hkey Hfresh.
  unfold unlinked. rewrite <-app_assoc. cbn [app]. rewrite sort_by_key_fresh by done.
  pose proof fresh_unlinked as Hf. unfold unlinked in Hf.
  pose proof (sort_by_key_sorted hl_addr (leaves ++ [min_sentinel_leaf])) as Hs.
  assert (Hmin : min_sentinel_leaf ∈ sort_by_key hl_addr (leaves ++ [min_sentinel_leaf])).
  { apply elem_of_sort_by_key, elem_of_app. right. left. }
  assert (Hn : hl_addr nl ∉ hl_addr <$> sort_by_key hl_addr (leaves ++ [min_sentinel_leaf])).
  { rewrite sort_by_key_perm, fmap_app, elem_of_app. intros [?|Hm]; [done|].
    apply list_elem_of_singleton in Hm. unfold in_key_range in Hkey. simpl in Hm. lia. }
  destruct (sort_by_key hl_addr (leaves ++ [min_sentinel_leaf])) as [|x l]; [by apply elem_of_nil in Hmin|].
  assert (Hx : hl_addr x < hl_addr nl).
  { inversion Hs as [|?? _ Hall]; subst. unfold in_key_range in Hkey.
    apply elem_of_cons in Hmin as [<-|Hm]; [simpl; lia|].
    rewrite Forall_forall in Hall. specialize (Hall _ Hm). unfold key_le in Hall. simpl in Hall. lia. }
  rewrite fmap_cons, not_elem_of_cons in Hn. destruct Hn as [_ Hn].
  cbn [insert_by_key dedup_by_key]. rewrite (proj2 (Z.leb_gt _ _)) by done.
  cbn [dedup_by_key]. by rewrite dedup_after_insert.
Qed.

(** Where the new leaf goes: the row up to and with the leaf below it, and the
    row above it. *)
Lemma insert_position :
  exists c low b2,
    unlinked leaves = c ++ low :: b2 /\ unlinked (leaves ++ [nl]) = c ++ low :: nl :: b2 /\
    Forall (fun y => hl_addr y < hl_addr nl) (c ++ [low]) /\ Forall (fun y => hl_addr nl < hl_addr y) b2.
Proof using Hrange Hkey Hfresh.
  destruct (insert_split hl_addr nl (unlinked leaves) (unlinked_sorted leaves) fresh_unlinked)
    as (b1 & b2 & E & E' & H1 & H2).
  destruct b1 as [|low c] using rev_ind.
  - assert (Hm : SENTINEL_MIN ∈ hl_addr <$> unlinked leaves) by (apply unlinked_addrs; by left).
    rewrite E in Hm. apply list_elem_of_fmap in Hm as (y & Ey & Hy).
    rewrite Forall_forall in H2. specialize (H2 y Hy). simpl in H2. unfold in_key_range in Hkey. lia.
  - exists c, low, b2. rewrite unlinked_insert, E', E, <-!app_assoc. split_and!; [done|done| |done].
    exact H1.
Qed.
End Insert.

Lemma partition_point_app {A} (p : A -> bool) l1 l2 :
  Forall (fun x => p x = true) l1 -> Forall (fun x => p x = false) l2 ->
  partition_point p (l1 ++ l2) = length l1.
Proof.
  intros H1 H2. induction H1 as [|x l1 Hx H1 IH]; cbn [app partition_point length].
  - destruct H2 as [|y l2 Hy]; cbn [partition_point]; [done|]. by rewrite Hy.
  - by rewrite Hx, IH.
Qed.

Lemma Forall_relink (P : Z -> Prop) l :
  Forall (fun y => P (hl_addr y)) l -> Forall (fun y => P (hl_addr y)) (relink_next_addrs l).
Proof.
  intros H. apply (proj1 (Forall_fmap hl_addr P _)). rewrite relink_addrs. by apply Forall_fmap.
Qed.

(** What the witness is, in terms of the two linked rows. *)
Record aafi_layout (leaves : list HeapLeaf) (nl : HeapLeaf) (t : CanonicalHeapTree8)
    (w : AafiInsertWitness8) (c b : list HeapLeaf) : Prop := {
  al_old : h8_sorted_leaves t = c ++ aw_low_leaf_old w :: b;
  al_linked : linked_leaves (leaves ++ [nl]) = c ++ aw_low_leaf_new w :: aw_new_leaf w :: b;
  al_after : aw_append_order_after w = c ++ aw_low_leaf_new w :: b ++ [aw_new_leaf w];
  al_low : aw_low_position w = length c;
  al_free : aw_free_index w = length (h8_sorted_leaves t);
  al_key : hl_addr (aw_new_leaf w) = hl_addr nl /\ hl_value (aw_new_leaf w) = hl_value nl;
  al_roots : aw_old_root w = root8 t /\
    fold_append_order_8 (aw_append_order_after w) (h8_depth t) = Some (aw_new_root w);
  al_path : heap_prove_membership t (length c) = Some (aw_low_siblings w, aw_low_directions w);
}.

Section Witness.
Context (leaves : list HeapLeaf) (depth : nat) (t : CanonicalHeapTree8) (nl : HeapLeaf).
Hypothesis Ht : heap_tree_new leaves depth = Some t.
Hypothesis Hrange : Forall (fun l => in_key_range (hl_addr l)) leaves.

Lemma leaves_canonical : Forall (fun l => canonical (hl_addr l)) leaves.
Proof using Hrange. eapply Forall_impl; [exact Hrange|]. intros l. apply in_key_range_canonical. Qed.

Lemma position_fresh :
  in_key_range (hl_addr nl) -> hl_addr nl ∉ hl_addr <$> leaves -> heap_position_of t (hl_addr nl) = None.
Proof using Ht Hrange.
  intros Hk Hf. unfold heap_position_of. destruct (_ !! _) as [l|] eqn:E; [|done].
  destruct (heap_tree_new_inv _ _ _ Ht) as [_ Et]. rewrite Et in E. cbn [h8_sorted_leaves] in E.
  apply list_elem_of_lookup_2 in E.
  rewrite (canonical_val_id _ (linked_canonical leaves leaves_canonical l E)),
    (canonical_val_id _ (in_key_range_canonical _ Hk)).
  destruct (Z.eqb_spec (hl_addr l) (hl_addr nl)) as [Ea|]; [|done].
  assert (Hin : hl_addr nl ∈ hl_addr <$> linked_leaves leaves) by (rewrite <-Ea; by apply list_elem_of_fmap_2).
  apply elem_of_linked_addrs in Hin as [Em|]; [|done]. unfold in_key_range in Hk. lia.
Qed.

Lemma key_guard : in_key_range (hl_addr nl) -> bb_eqb (hl_addr nl) SENTINEL_MIN || (SENTINEL_MAX <=? hl_addr nl) = false.
Proof.
  intros Hk. unfold bb_eqb. rewrite !canonical_val_id; [|apply canonical_0|by apply in_key_range_canonical].
  unfold in_key_range in Hk. rewrite (proj2 (Z.eqb_neq _ _)), (proj2 (Z.leb_gt _ _)) by lia. done.
Qed.

(** The two linked rows: the old one, and the one with the new leaf. *)
Lemma linked_split :
  in_key_range (hl_addr nl) -> hl_addr nl ∉ hl_addr <$> leaves ->
  exists c low nxt b,
    linked_leaves leaves = c ++ mkHeapLeaf (hl_addr low) (hl_value low) nxt :: b /\
    linked_leaves (leaves ++ [nl]) =
      c ++ mkHeapLeaf (hl_addr low) (hl_value low) (hl_addr nl) ::
      mkHeapLeaf (hl_addr nl) (hl_value nl) nxt :: b /\
    Forall (fun y => hl_addr y < hl_addr nl) (c ++ [low]) /\ hl_addr nl < nxt /\
    Forall (fun y => hl_addr nl < hl_addr y) b.
Proof using Hrange.
  intros Hk Hf. destruct (insert_position leaves nl Hrange Hk Hf) as (c & low & b & E & E' & H1 & H2).
  exists (take (length c) (relink_next_addrs (c ++ [low]))), low,
    (match b with n :: _ => hl_addr n | [] => SENTINEL_MAX end), (relink_next_addrs b).
  unfold linked_leaves. fold (unlinked leaves). fold (unlinked (leaves ++ [nl])).
  rewrite E, E', (relink_app c low b), (relink_app c low (nl :: b)).
  rewrite (relink_head low b), (relink_head low (nl :: b)), (relink_head nl b). split_and!; [done|done| | |].
  - apply Forall_app in H1 as [H1 Hlow]. apply Forall_app. split; [|done].
    apply Forall_take, (Forall_relink (fun a => a < hl_addr nl)). apply Forall_app. by split.
  - unfold in_key_range in Hk. destruct H2 as [|y b Hy]; [lia|simpl in Hy; lia].
  - by apply (Forall_relink (fun a => hl_addr nl < a)).
Qed.

Lemma low_position c old b :
  linked_leaves leaves = c ++ old :: b -> Forall (fun y => hl_addr y < hl_addr nl) (c ++ [old]) ->
  Forall (fun y => hl_addr nl < hl_addr y) b ->
  partition_point (fun l => hl_addr l <? hl_addr nl) (linked_leaves leaves) = S (length c).
Proof.
  intros -> H1 H2. replace (c ++ old :: b) with ((c ++ [old]) ++ b) by (by rewrite <-app_assoc).
  rewrite partition_point_app; [rewrite length_app; simpl; lia| |].
  - eapply Forall_impl; [exact H1|]. intros y. simpl. intros. apply Z.ltb_lt. lia.
  - eapply Forall_impl; [exact H2|]. intros y. simpl. intros. apply Z.ltb_ge. lia.
Qed.

Lemma insert_witness_aafi_layout :
  in_key_range (hl_addr nl) -> hl_addr nl ∉ hl_addr <$> leaves ->
  exists w c b, insert_witness_aafi t nl = Some w /\ aafi_layout leaves nl t w c b.
Proof using Ht Hrange.
  intros Hk Hf. destruct (linked_split Hk Hf) as (c & low & nxt & b & Hold & Hnew & H1 & Hnxt & H2).
  destruct (heap_tree_new_inv _ _ _ Ht) as [Hfit Et].
  set (old := mkHeapLeaf (hl_addr low) (hl_value low) nxt) in *.
  set (lnew := mkHeapLeaf (hl_addr low) (hl_value low) (hl_addr nl)) in *.
  set (apd := mkHeapLeaf (hl_addr nl) (hl_value nl) nxt) in *.
  assert (Hlow : Forall (fun y => hl_addr y < hl_addr nl) [low]) by (by apply Forall_app in H1 as [_ ?]).
  rewrite Forall_singleton in Hlow.
  assert (Hpp : partition_point (fun l => hl_addr l <? hl_addr nl) (h8_sorted_leaves t) = S (length c)).
  { rewrite Et. apply (low_position c old b Hold); [|done].
    apply Forall_app in H1 as [H1 _]. apply Forall_app. split; [done|by apply Forall_singleton]. }
  assert (Hlk : h8_sorted_leaves t = c ++ old :: b) by (by rewrite Et).
  assert (Hbr : brackets old (hl_addr nl) = true) by (apply andb_true_iff; by rewrite !Z.ltb_lt).
  assert (Hpm : exists p, heap_prove_membership t (length c) = Some p).
  { unfold heap_prove_membership. destruct (Nat.leb_spec (2 ^ h8_depth t) (length c)) as [Hle|]; [|eauto].
    rewrite Et in Hle. cbn [h8_depth] in Hle. rewrite Hold, length_app in Hfit. simpl in Hfit. lia. }
  destruct Hpm as [[sibs dirs] Hpm].
  assert (Hfo : exists r, fold_append_order_8 (c ++ lnew :: b ++ [apd]) (h8_depth t) = Some r).
  { eexists. apply fold_append_order_root. by destruct c. }
  destruct Hfo as [r Hfo].
  exists (mkAafi (h8_next_free_index t) (length c) old lnew apd (c ++ lnew :: b ++ [apd]) sibs dirs (root8 t) r), c, b.
  split; [|split; cbn; try done; by rewrite Et].
  unfold insert_witness_aafi. rewrite (key_guard Hk), (position_fresh Hk Hf). cbv zeta.
  rewrite Hpp. cbn [Nat.eqb]. replace (S (length c) - 1)%nat with (length c) by lia.
  rewrite Hlk, list_lookup_middle by done. cbn [mbind option_bind]. rewrite Hbr. cbn [negb].
  rewrite Hpm. cbn [mbind option_bind].
  replace (<[length c := mkHeapLeaf (hl_addr old) (hl_value old) (hl_addr nl)]> (c ++ old :: b))
    with (c ++ lnew :: b) by (by rewrite insert_app_r_alt, Nat.sub_diag by lia).
  rewrite <-app_assoc. cbn [app].
  change (mkHeapLeaf (hl_addr nl) (hl_value nl) (hl_next_addr old)) with apd. by rewrite Hfo.
Qed.
End Witness.

(** The row of unlinked leaves starts with the sentinel. *)
Lemma unlinked_head leaves :
  Forall (fun l => in_key_range (hl_addr l)) leaves ->
  exists x r, unlinked leaves = x :: r /\ hl_addr x = SENTINEL_MIN /\
    Forall (fun y => hl_addr y < SENTINEL_MAX) r.
Proof.
  intros Hrange.
  assert (Hm : SENTINEL_MIN ∈ hl_addr <$> unlinked leaves) by (apply unlinked_addrs; by left).
  pose proof (unlinked_sorted leaves) as Hs.
  assert (Hb : forall a, a ∈ hl_addr <$> unlinked leaves -> SENTINEL_MIN <= a < SENTINEL_MAX)
    by (by apply min_below).
  destruct (unlinked leaves) as [|x r]; [by apply elem_of_nil in Hm|].
  exists x, r. inversion Hs as [|?? _ Hx]; subst. split_and!; [done| |].
  - apply list_elem_of_fmap in Hm as (y & Ey & Hy). apply elem_of_cons in Hy as [->|Hy]; [done|].
    rewrite Forall_forall in Hx. specialize (Hx y Hy). unfold key_lt in Hx.
    specialize (Hb (hl_addr x) ltac:(rewrite fmap_cons; left)). lia.
  - apply Forall_forall. intros y Hy. apply Hb. rewrite fmap_cons. right. by apply list_elem_of_fmap_2.
Qed.

(** Following the pointers of the appended row gives the sorted row. *)
Lemma chain_of_layout leaves nl t w c b :
  Forall (fun l => in_key_range (hl_addr l)) (leaves ++ [nl]) -> aafi_layout leaves nl t w c b ->
  linked_chain_sorted w = Some (linked_leaves (leaves ++ [nl])).
Proof.
  intros Hrange Hw. destruct (unlinked_head _ Hrange) as (x & r & E & Hx & Hr).
  assert (Hp : aw_append_order_after w ≡ₚ linked_leaves (leaves ++ [nl])).
  { rewrite (al_after _ _ _ _ _ _ Hw), (al_linked _ _ _ _ _ _ Hw).
    do 2 f_equiv. rewrite Permutation_app_comm. done. }
  assert (Hnd : NoDup (hl_addr <$> aw_append_order_after w)).
  { rewrite Hp. apply sorted_lt_NoDup, linked_sorted. }
  assert (Hl : linked_leaves (leaves ++ [nl]) = relink_next_addrs (x :: r)).
  { unfold linked_leaves. fold (unlinked (leaves ++ [nl])). by rewrite E. }
  unfold linked_chain_sorted. rewrite Hl in Hp.
  set (x' := mkHeapLeaf (hl_addr x) (hl_value x) (match r with n :: _ => hl_addr n | [] => SENTINEL_MAX end)).
  assert (Hx' : by_addr (aw_append_order_after w) SENTINEL_MIN = Some x').
  { rewrite <-Hx. change (hl_addr x) with (hl_addr x'). apply by_addr_unique; [done|].
    rewrite Hp, relink_head. left. }
  rewrite Hx'. cbn [mbind option_bind]. unfold x'. rewrite chain_walk_linked; [by rewrite Hl|done| |done|].
  - intros y. by rewrite Hp.
  - rewrite (Permutation_length Hp), relink_length. done.
Qed.

(** What the insert witness refuses. *)
Lemma insert_witness_aafi_guards leaves depth t nl w :
  heap_tree_new leaves depth = Some t -> Forall (fun l => in_key_range (hl_addr l)) leaves ->
  0 <= hl_addr nl -> insert_witness_aafi t nl = Some w ->
  in_key_range (hl_addr nl) /\ hl_addr nl ∉ hl_addr <$> leaves.
Proof.
  intros Ht Hrange H0. unfold insert_witness_aafi. cbv zeta.
  destruct (bb_eqb _ _ || _) eqn:G; [done|]. apply orb_false_iff in G as [G1 G2].
  apply Z.leb_gt in G2. unfold bb_eqb in G1.
  assert (Hc : canonical (hl_addr nl)) by (unfold canonical, SENTINEL_MAX in *; unfold_P; lia).
  rewrite !canonical_val_id in G1; [|apply canonical_0|done]. apply Z.eqb_neq in G1.
  destruct (heap_position_of t (hl_addr nl)) eqn:Hpos; [done|]. intros _.
  split; [unfold in_key_range, SENTINEL_MIN in *; lia|]. intros Hin.
  destruct (heap_position_exists leaves depth t Ht (leaves_canonical _ Hrange) _ Hin) as (? & ? & _ & _ & ?).
  congruence.
Qed.

Lemma layout_free leaves nl t w c b :
  aafi_layout leaves nl t w c b -> aw_append_order_after w !! aw_free_index w = Some (aw_new_leaf w).
Proof.
  intros Hw. rewrite (al_free _ _ _ _ _ _ Hw), (al_old _ _ _ _ _ _ Hw), (al_after _ _ _ _ _ _ Hw).
  rewrite app_comm_cons, app_assoc. apply list_lookup_middle. by rewrite !length_app.
Qed.

(** The three openings of a witness. *)
Lemma layout_openings leaves depth t nl w c b :
  heap_tree_new leaves depth = Some t -> aafi_layout leaves nl t w c b ->
  recompose_membership_8 (digest8_of (aw_low_leaf_old w)) (aw_low_siblings w) (aw_low_directions w) =
    root8 t /\
  Some (recompose_membership_8 (digest8_of (aw_low_leaf_new w)) (aw_low_siblings w) (aw_low_directions w)) =
    fold_append_order_8 (c ++ aw_low_leaf_new w :: b) depth /\
  ((aw_free_index w < 2 ^ depth)%nat ->
     recompose_membership_8 (digest8_of (aw_new_leaf w)) (new_leaf_membership w depth).1
       (new_leaf_membership w depth).2 = aw_new_root w).
Proof.
  intros Ht Hw. destruct (heap_tree_new_inv _ _ _ Ht) as [Hfit Et].
  pose proof (al_old _ _ _ _ _ _ Hw) as Hold. pose proof (al_path _ _ _ _ _ _ Hw) as Hpm.
  rewrite Et in Hold, Hpm. cbn [h8_sorted_leaves] in Hold.
  set (ds := map digest8_of (linked_leaves leaves)) in *.
  assert (Hds : ds = map digest8_of c ++ digest8_of (aw_low_leaf_old w) :: map digest8_of b).
  { unfold ds. by rewrite Hold, map_app. }
  assert (Hlt : (length c < 2 ^ depth)%nat) by (rewrite Hold, length_app in Hfit; simpl in Hfit; lia).
  unfold heap_prove_membership in Hpm. cbn [h8_depth h8_levels] in Hpm.
  rewrite (proj2 (Nat.leb_gt _ _)) in Hpm by done. injection Hpm as <- <-.
  assert (Hc : length c = length (map digest8_of c)) by (by rewrite length_map).
  assert (Hlk : ds !! length c = Some (digest8_of (aw_low_leaf_old w))).
  { rewrite Hds, Hc. by apply list_lookup_middle. }
  split_and!.
  - rewrite heap_path_opens by done. unfold root8. by rewrite Et.
  - rewrite heap_path_update by (done || by eapply lookup_lt_Some).
    rewrite fold_append_order_root by (by destruct c).
    assert (Hins : <[length c := digest8_of (aw_low_leaf_new w)]> ds =
                   map digest8_of (c ++ aw_low_leaf_new w :: b)).
    { rewrite Hds, Hc, insert_app_r_alt, Nat.sub_diag, map_app by lia. reflexivity. }
    rewrite Hins. reflexivity.
  - intros Hfree. unfold new_leaf_membership, fold_append_order_membership_8. cbn [fst snd].
    destruct (al_roots _ _ _ _ _ _ Hw) as [_ Hr]. rewrite Et in Hr. cbn [h8_depth] in Hr.
    rewrite fold_append_order_root in Hr by (rewrite (al_after _ _ _ _ _ _ Hw); by destruct c).
    injection Hr as <-. apply heap_path_opens; [|done].
    change (map digest8_of) with (fmap (M := list) digest8_of). rewrite list_lookup_fmap.
    rewrite (layout_free _ _ _ _ _ _ Hw). reflexivity.
Qed.

(** ** Property *)

(** While the rows fit, the fold ends with one digest: the assertion holds. *)
Lemma length_fold_level e n ds : (length ds <= 2 * n)%nat -> (length (fold_level e ds) <= n)%nat.
Proof.
  revert ds. induction n as [|n IH]; intros ds; [destruct ds; cbn; lia|].
  destruct ds as [|l [|r ds]]; cbn [fold_level length]; [lia|lia|]. intros H. specialize (IH ds). lia.
Qed.

Lemma fold_leaves_one n : forall level ds, ds <> [] -> (length ds <= 2 ^ n)%nat -> length (fold_levels level n ds) = 1%nat.
Proof.
  induction n as [|n IH]; intros level ds Hne Hl; cbn [fold_levels].
  { destruct ds as [|d [|]]; [done|done|cbn in Hl; lia]. }
  apply IH; [by apply fold_level_nonempty|]. apply length_fold_level. by rewrite <-Nat.pow_succ_r'.
Qed.

(** C35: the append-at-free-index insert is the sorted insert.  On a tree over
    addresses strictly between the sentinels that has room for one more leaf, a
    witness exists exactly for an address between the sentinels that the tree does
    not hold; the pointers of the row it leaves, followed from the lower sentinel,
    give the sorted row of the tree rebuilt with the new leaf; only the leaf below
    the new one changes in place, and the new leaf stands at the free index; the
    low leaf opens against the old root, with the new pointer it recomposes over
    the same path to the root of the row with only the pointer edited, and the new
    leaf opens at the free index against the new root; and the assertion of the
    fold behind the new root holds. *)
Theorem aafi_insert_is_sorted_insert leaves depth t nl :
  heap_tree_new leaves depth = Some t -> (h8_next_free_index t < 2 ^ depth)%nat ->
  Forall (fun l => in_key_range (hl_addr l)) leaves -> 0 <= hl_addr nl ->
  (is_Some (insert_witness_aafi t nl) <-> in_key_range (hl_addr nl) /\ hl_addr nl ∉ hl_addr <$> leaves) /\
  (forall w, insert_witness_aafi t nl = Some w ->
     linked_chain_sorted w = Some (linked_leaves (leaves ++ [nl])) /\
     aw_append_order_after w =
       <[aw_low_position w := aw_low_leaf_new w]> (h8_sorted_leaves t) ++ [aw_new_leaf w] /\
     aw_append_order_after w !! aw_free_index w = Some (aw_new_leaf w) /\
     recompose_membership_8 (digest8_of (aw_low_leaf_old w)) (aw_low_siblings w) (aw_low_directions w) =
       root8 t /\
     Some (recompose_membership_8 (digest8_of (aw_low_leaf_new w)) (aw_low_siblings w) (aw_low_directions w)) =
       fold_append_order_8 (<[aw_low_position w := aw_low_leaf_new w]> (h8_sorted_leaves t)) depth /\
     recompose_membership_8 (digest8_of (aw_new_leaf w)) (new_leaf_membership w depth).1
       (new_leaf_membership w depth).2 = aw_new_root w /\
     length (fold_levels 0 depth (map digest8_of (aw_append_order_after w))) = 1%nat).
Proof.
  intros Ht Hroom Hrange H0.
  assert (Hiff : is_Some (insert_witness_aafi t nl) <->
                 in_key_range (hl_addr nl) /\ hl_addr nl ∉ hl_addr <$> leaves).
  { split.
    - intros [w Hw]. by eapply insert_witness_aafi_guards.
    - intros [Hk Hf]. destruct (insert_witness_aafi_layout leaves depth t nl Ht Hrange Hk Hf) as (w & ? & ? & Hw & _).
      by exists w. }
  split; [done|]. intros w Hw. destruct (proj1 Hiff ltac:(by eexists)) as [Hk Hf].
  destruct (insert_witness_aafi_layout leaves depth t nl Ht Hrange Hk Hf) as (w' & c & b & Hw' & Hl).
  assert (w' = w) as -> by congruence.
  destruct (layout_openings _ _ _ _ _ _ _ Ht Hl) as (Hlow & Hmid & Hnew).
  assert (Hins : <[aw_low_position w := aw_low_leaf_new w]> (h8_sorted_leaves t) = c ++ aw_low_leaf_new w :: b).
  { rewrite (al_low _ _ _ _ _ _ Hl), (al_old _ _ _ _ _ _ Hl).
    by rewrite insert_app_r_alt, Nat.sub_diag by lia. }
  assert (Hfree : aw_free_index w = h8_next_free_index t).
  { rewrite (al_free _ _ _ _ _ _ Hl). by destruct (heap_tree_new_inv _ _ _ Ht) as [_ ->]. }
  rewrite Hins. split_and!; [|by rewrite (al_after _ _ _ _ _ _ Hl), <-app_assoc| |done|done|apply Hnew; lia|].
  - eapply chain_of_layout; [|done]. apply Forall_app. by split; [|apply Forall_singleton].
  - by eapply layout_free.
  - apply fold_leaves_one; rewrite (al_after _ _ _ _ _ _ Hl); [by destruct c|].
    rewrite (al_free _ _ _ _ _ _ Hl), (al_old _ _ _ _ _ _ Hl) in Hfree.
    rewrite length_map. rewrite length_app in Hfree |- *. cbn [length] in *. rewrite length_app. cbn [length]. lia.
Qed.

Lemma aafi_insert_is_sorted_insert_witness :
  exists t w, heap_tree_new [heap_entry 5 1; heap_entry 9 2] 4 = Some t /\
    insert_witness_aafi t (heap_entry 7 3) = Some w /\
    linked_chain_sorted w = Some (linked_leaves [heap_entry 5 1; heap_entry 9 2; heap_entry 7 3]).
Proof.
  destruct (heap_tree_total [heap_entry 5 1; heap_entry 9 2] 4) as [t Ht]; [simpl; lia|].
  destruct (aafi_insert_is_sorted_insert [heap_entry 5 1; heap_entry 9 2] 4 t (heap_entry 7 3) Ht) as [Hiff Hall].
  - destruct (heap_tree_new_inv _ _ _ Ht) as [_ ->]. cbn. lia.
  - repeat constructor.
  - done.
  - destruct (proj2 Hiff) as [w Hw].
    + split; [done|]. simpl. rewrite !elem_of_cons, elem_of_nil. lia.
    + exists t, w. split; [exact Ht|]. split; [exact Hw|]. apply (Hall w Hw).
Defined.

Lemma dense_prefix lf lf' k i :
  (forall j, (j < 2 ^ k * (i + 1))%nat -> lf j = lf' j) -> dense lf k i = dense lf' k i.
Proof.
  revert i; induction k as [|k IH]; intros i H; cbn [dense].
  - apply H. rewrite Nat.pow_0_r. lia.
  - rewrite Nat.pow_succ_r' in H. rewrite (IH (2 * i)%nat), (IH (2 * i + 1)%nat); [reflexivity| |].
    + intros j Hj. apply H. nia.
    + intros j Hj. apply H. nia.
Qed.

Lemma leaf_at_snoc l x j :
  (j < length l)%nat -> leaf_at (map digest8_of (l ++ [x])) j = leaf_at (map digest8_of l) j.
Proof.
  intros Hj. unfold leaf_at. rewrite map_app, lookup_app_l by (by rewrite length_map). reflexivity.
Qed.

(** The capacity of the tree is not checked: when the free index is past the
    last position, the witness exists and its new root is the root of the row
    without the new leaf. *)
Theorem aafi_full_tree_forgets leaves depth t nl w :
  heap_tree_new leaves depth = Some t ->
  Forall (fun l => in_key_range (hl_addr l)) leaves -> 0 <= hl_addr nl ->
  insert_witness_aafi t nl = Some w -> aw_free_index w = (2 ^ depth)%nat ->
  fold_append_order_8 (<[aw_low_position w := aw_low_leaf_new w]> (h8_sorted_leaves t)) depth =
    Some (aw_new_root w).
Proof.
  intros Ht Hrange H0 Hw Hfull.
  destruct (insert_witness_aafi_guards _ _ _ _ _ Ht Hrange H0 Hw) as [Hk Hf].
  destruct (insert_witness_aafi_layout leaves depth t nl Ht Hrange Hk Hf) as (w' & c & b & Hw' & Hl).
  assert (w' = w) as -> by congruence.
  rewrite (al_low _ _ _ _ _ _ Hl), (al_old _ _ _ _ _ _ Hl), insert_app_r_alt, Nat.sub_diag by lia.
  cbn [insert list_insert]. destruct (al_roots _ _ _ _ _ _ Hl) as [_ <-].
  destruct (heap_tree_new_inv _ _ _ Ht) as [_ Et].
  replace (h8_depth t) with depth by (by rewrite Et).
  rewrite (al_after _ _ _ _ _ _ Hl), app_comm_cons, app_assoc.
  rewrite !fold_append_order_root by (by destruct c).
  rewrite !node8_dense by done. f_equal. apply dense_prefix. intros j Hj.
  symmetry. apply leaf_at_snoc.
  rewrite (al_free _ _ _ _ _ _ Hl), (al_old _ _ _ _ _ _ Hl) in Hfull.
  rewrite length_app in Hfull |- *. simpl in *. lia.
Qed.

Lemma aafi_full_tree_forgets_witness :
  exists t w, heap_tree_new [heap_entry 5 1] 1 = Some t /\
    insert_witness_aafi t (heap_entry 7 3) = Some w /\
    fold_append_order_8 (<[aw_low_position w := aw_low_leaf_new w]> (h8_sorted_leaves t)) 1 =
      Some (aw_new_root w).
Proof.
  destruct (heap_tree_total [heap_entry 5 1] 1) as [t Ht]; [simpl; lia|].
  assert (Hr : Forall (fun l => in_key_range (hl_addr l)) [heap_entry 5 1]) by (repeat constructor).
  destruct (insert_witness_aafi_layout [heap_entry 5 1] 1 t (heap_entry 7 3) Ht Hr) as (w & c & b & Hw & Hl).
  - done.
  - simpl. rewrite list_elem_of_singleton. done.
  - exists t, w. split; [exact Ht|]. split; [exact Hw|].
    apply (aafi_full_tree_forgets [heap_entry 5 1] 1 t (heap_entry 7 3) w Ht Hr).
    + done.
    + exact Hw.
    + rewrite (al_free _ _ _ _ _ _ Hl). destruct (heap_tree_new_inv _ _ _ Ht) as [_ ->]. reflexivity.
Defined.
