(* ===== verification/Notes.v ===== *)
(** * Notes and the append-only accumulators

    Models [cell/src/note.rs], [nullifier_set.rs], [commitment_set.rs] and
    [revoked_set.rs]: the note with its Poseidon2 commitment and nullifier, and
    the three accumulators the source writes out with one body each (spent
    nullifiers, created commitments, revoked credentials), which are one
    structure here, parametrised by the error of a duplicate.  The byte-Merkle
    non-membership proofs of the nullifier set are in [Nullifier].

    A [BTreeMap] with 32-byte keys is the ascending list of its entries; the
    order of two 32-byte arrays is the order of the big-endian integers they
    spell.  [None] is a panic: an arithmetic overflow or the capacity assertion
    of the heap tree. *)

From stdpp Require Import base decidable option list sorting strings.
From Stdlib Require Import ZArith Lia.
From S2P Require Import Prelude BabyBear Poseidon2 CapRoot Heap Aafi.

Open Scope Z_scope.

(** ** Notes *)

Inductive NoteError : Type :=
| DoubleSpend (nullifier : bytes)
| DuplicateCommitment (commitment : bytes)
| AlreadyRevoked (credential_nullifier : bytes)
| ConservationViolation (asset_type input_total output_total : Z).

Record Note : Type := mkNote {
  n_owner : bytes;
  n_fields : list Z;
  n_randomness : bytes;
  n_creation_nonce : bytes;
}.

Record PositionedNote : Type := mkPositioned {
  pn_note : Note;
  pn_commitment : bytes;
  pn_tree_position : Z;
}.

(** The eight little-endian limbs of a 32-byte value, each reduced modulo p. *)
Definition bytes32_to_limbs (b : bytes) : list Z :=
  map (fun chunk => bb_new (of_le_bytes chunk mod BABYBEAR_P)) (chunks4 8 b).

Definition u64_to_limbs (v : Z) : list Z :=
  [bb_new ((v mod 2 ^ 32) mod BABYBEAR_P); bb_new ((Z.shiftr v 32 mod 2 ^ 32) mod BABYBEAR_P)].

(** [felt_to_bytes32] of [commitment.rs]. *)
Definition felt_to_bytes32 (felt : Z) : bytes := le_bytes 4 felt ++ replicate 28 0.

Definition note_field (n : Note) (i : nat) : Z := default 0 (n_fields n !! i).

Definition with_randomness `{Blake3} (owner : bytes) (fields : list Z) (randomness : bytes) : Note :=
  mkNote owner fields randomness
    (blake3_derive_key "dregg-note creation-nonce v1" (owner ++ randomness)).

Definition with_nonce (owner : bytes) (fields : list Z) (randomness creation_nonce : bytes) : Note :=
  mkNote owner fields randomness creation_nonce.

Definition poseidon2_commitment (n : Note) : Z :=
  hash_many (bytes32_to_limbs (n_owner n) ++ u64_to_limbs (note_field n 1) ++
             u64_to_limbs (note_field n 0) ++ bytes32_to_limbs (n_creation_nonce n) ++
             bytes32_to_limbs (n_randomness n)).

Definition note_commitment (n : Note) : bytes := felt_to_bytes32 (poseidon2_commitment n).

Definition nullifier (n : Note) (spending_key : bytes) : bytes :=
  felt_to_bytes32 (hash_many ([poseidon2_commitment n] ++ bytes32_to_limbs spending_key ++
                              bytes32_to_limbs (n_creation_nonce n))).

Definition is_fungible (n : Note) : bool :=
  negb (note_field n 0 =? 0) && negb (note_field n 1 =? 0).

Definition note_value (n : Note) : Z := note_field n 1.
Definition note_asset_type (n : Note) : Z := note_field n 0.

Definition positioned (n : Note) (tree_position : Z) : PositionedNote :=
  mkPositioned n (note_commitment n) tree_position.

(** ** The felt encodings of the circuit's helpers *)

Definition bytes32_to_8_limbs (b : bytes) : list Z :=
  map (fun chunk => bb_new (of_le_bytes chunk mod BABYBEAR_P)) (chunks4 8 b).

(** Low thirty bits, and [(val >> 30) as u32]. *)
Definition split_u64 (val : Z) : Z * Z :=
  (bb_new (Z.land val 1073741823), bb_new (Z.shiftr val 30 mod 2 ^ 32)).

Definition MIX : Z := 1339268235 mod BABYBEAR_P.

Definition fold_bytes32_to_bb (b : bytes) : Z :=
  foldr (fun limb acc => bb_add (bb_mul acc (bb_new MIX)) limb) 0 (bytes32_to_8_limbs b).

(** ** The accumulators *)

(** The order of 32-byte keys. *)
Definition key_ord (k : bytes) : Z := foldl (fun acc b => acc * 256 + b) 0 k.

Record AppendRecord : Type := mkRecord { rec_value : Z; rec_seq : Z }.

Record AppendSet : Type := mkSet {
  as_map : list (bytes * AppendRecord);
  as_next_seq : Z;
}.

Definition NullifierSet : Type := AppendSet.
Definition CommitmentSet : Type := AppendSet.
Definition RevokedSet : Type := AppendSet.

Definition as_new : AppendSet := mkSet [] 0.
Definition as_len (s : AppendSet) : nat := length (as_map s).
Definition as_is_empty (s : AppendSet) : bool := match as_map s with [] => true | _ => false end.
Definition as_contains (s : AppendSet) (k : bytes) : bool := bt_contains key_ord k (as_map s).
Definition value_of (s : AppendSet) (k : bytes) : option Z := rec_value <$> bt_get key_ord k (as_map s).
Definition seq_of (s : AppendSet) (k : bytes) : option Z := rec_seq <$> bt_get key_ord k (as_map s).
Definition as_iter (s : AppendSet) : list bytes := (as_map s).*1.
Definition iter_with_values (s : AppendSet) : list (bytes * Z) :=
  map (fun e => (e.1, rec_value e.2)) (as_map s).

(** [insert], with the error a duplicate gives. *)
Definition as_insert (dup : bytes -> NoteError) (s : AppendSet) (k : bytes) (value : Z)
    : option (AppendSet * result unit NoteError) :=
  if as_contains s k then Some (s, Err (dup k))
  else
    next ← checked_add_u64 (as_next_seq s) 1;
    Some (mkSet (bt_insert key_ord k (mkRecord value (as_next_seq s)) (as_map s)) next, Ok tt).

Definition nullifier_insert := as_insert DoubleSpend.
Definition commitment_insert := as_insert DuplicateCommitment.
Definition revoked_insert := as_insert AlreadyRevoked.

(** A durable record [(key, value, seq)], and its sort key [(seq, key)]. *)
Abbreviation durable := (bytes * Z * Z)%type.

Definition append_key (r : durable) : Z := r.2 * 2 ^ 256 + key_ord r.1.1.

Definition as_records (s : AppendSet) : list durable :=
  map (fun e => (e.1, rec_value e.2, rec_seq e.2)) (as_map s).

Definition iter_in_append_order (s : AppendSet) : list durable := sort_by_key append_key (as_records s).

(** One iteration of the loop of [from_records]; the outer [None] is the
    overflow of [seq + 1]. *)
Definition load_record (dup : bytes -> NoteError) (acc : option (result AppendSet NoteError)) (r : durable)
    : option (result AppendSet NoteError) :=
  res ← acc;
  match res with
  | Err e => Some (Err e)
  | Ok s =>
      let '(k, value, seq) := r in
      if as_contains s k then Some (Err (dup k))
      else
        next ← checked_add_u64 seq 1;
        Some (Ok (mkSet (bt_insert key_ord k (mkRecord value seq) (as_map s)) (Z.max (as_next_seq s) next)))
  end.

Definition from_records (dup : bytes -> NoteError) (records : list durable)
    : option (result AppendSet NoteError) :=
  foldl (load_record dup) (Some (Ok as_new)) (sort_by_key append_key records).

Definition nullifier_from_records := from_records DoubleSpend.
Definition commitment_from_records := from_records DuplicateCommitment.
Definition revoked_from_records := from_records AlreadyRevoked.

(** [values().map(|r| r.seq + 1).max().unwrap_or(0)]: a recorded [seq] was
    below some [next_seq], so the successor fits. *)
Definition max_next (m : list (bytes * AppendRecord)) : Z :=
  foldr (fun e acc => Z.max (rec_seq e.2 + 1) acc) 0 m.

Definition as_remove (s : AppendSet) (k : bytes) : AppendSet * bool :=
  if as_contains s k then
    let m := bt_remove key_ord k (as_map s) in (mkSet m (max_next m), true)
  else (s, false).

(** ** The committed roots *)

Definition accumulator_leaf (k : bytes) (value : Z) : HeapLeaf :=
  heap_entry (fold_bytes32_to_bb k) (split_u64 value).1.

Definition as_root8 (s : AppendSet) : option digest8 :=
  root8 <$> heap_tree_new (map (fun e => accumulator_leaf e.1 (rec_value e.2)) (as_map s)) HEAP_TREE_DEPTH.

Definition aafi_leaves (s : AppendSet) : list HeapLeaf :=
  map (fun r => accumulator_leaf r.1.1 r.1.2) (iter_in_append_order s).

Definition aafi_next_free_index (s : AppendSet) : nat := (length (as_map s) + 1)%nat.

(** ** Keys *)

Definition key32 (k : bytes) : Prop := length k = 32%nat /\ Forall (fun b => 0 <= b < 256) k.

Lemma key_ord_acc a k : foldl (fun acc b => acc * 256 + b) a k = a * 256 ^ Z.of_nat (length k) + key_ord k.
Proof.
  unfold key_ord. revert a; induction k as [|b k IH]; intros a; [cbn; lia|].
  cbn [foldl]. rewrite IH, (IH (0 * 256 + b)). cbn [length].
  rewrite Nat2Z.inj_succ, Z.pow_succ_r by lia. lia.
Qed.

Lemma key_ord_cons b k : key_ord (b :: k) = b * 256 ^ Z.of_nat (length k) + key_ord k.
Proof. unfold key_ord at 1. cbn [foldl]. by rewrite key_ord_acc. Qed.

Lemma key_ord_bounds k : Forall (fun b => 0 <= b < 256) k -> 0 <= key_ord k < 256 ^ Z.of_nat (length k).
Proof.
  induction 1 as [|b k Hb Hk IH]; [cbn; lia|]. rewrite key_ord_cons. cbn [length].
  rewrite Nat2Z.inj_succ, Z.pow_succ_r by lia. nia.
Qed.

Lemma key_ord_inj_len k j :
  length k = length j -> Forall (fun b => 0 <= b < 256) k -> Forall (fun b => 0 <= b < 256) j ->
  key_ord k = key_ord j -> k = j.
Proof.
  revert j; induction k as [|b k IH]; intros [|c j] Hl Hk Hj E; try done.
  apply Forall_cons in Hk as [Hb Hk]. apply Forall_cons in Hj as [Hc Hj]. simpl in Hl.
  rewrite !key_ord_cons in E. replace (length j) with (length k) in E by lia.
  pose proof (key_ord_bounds k Hk) as B1. pose proof (key_ord_bounds j Hj) as B2.
  replace (length j) with (length k) in B2 by lia.
  assert (b = c) as -> by nia. f_equal. apply IH; [lia|done|done|nia].
Qed.

Lemma key_ord_inj k j : key32 k -> key32 j -> key_ord k = key_ord j -> k = j.
Proof. intros [Hk Bk] [Hj Bj]. apply key_ord_inj_len; [congruence|done|done]. Qed.

Lemma key_ord_eqb k j : key32 k -> key32 j -> (key_ord k =? key_ord j) = bool_decide (k = j).
Proof.
  intros Hk Hj. destruct (Z.eqb_spec (key_ord k) (key_ord j)) as [E|E].
  - by rewrite bool_decide_eq_true_2 by (by apply key_ord_inj).
  - rewrite bool_decide_eq_false_2; [done|]. congruence.
Qed.

Lemma key_ord_range k : key32 k -> 0 <= key_ord k < 2 ^ 256.
Proof. intros [Hl Hb]. pose proof (key_ord_bounds k Hb) as B. by rewrite Hl in B. Qed.

(** ** Sorted lists *)

Lemma retain_strongly_sorted {A} (R : A -> A -> Prop) (p : A -> bool) l :
  StronglySorted R l -> StronglySorted R (retain p l).
Proof.
  induction 1 as [|x l Hs IH Hx]; cbn; [constructor|]. fold (retain p l). destruct (p x); [|done].
  constructor; [done|]. apply Forall_forall. intros y [Hy _]%elem_of_retain.
  rewrite Forall_forall in Hx. by apply Hx.
Qed.

Lemma retain_perm {A} (p : A -> bool) (l1 l2 : list A) : l1 ≡ₚ l2 -> retain p l1 ≡ₚ retain p l2.
Proof.
  unfold retain. induction 1; simpl; repeat case_match; try done.
  - by constructor.
  - by constructor.
  - by etrans.
Qed.

Lemma retain_map {A B} (f : A -> B) (p : B -> bool) l : retain p (map f l) = map f (retain (fun x => p (f x)) l).
Proof. unfold retain. induction l as [|x l IH]; simpl; [done|]. destruct (p (f x)); simpl; by rewrite IH. Qed.

Lemma NoDup_retain_fmap {A B} (f : A -> B) p (l : list A) : NoDup (f <$> l) -> NoDup (f <$> retain p l).
Proof.
  induction l as [|x l IH]; [done|]. rewrite fmap_cons, NoDup_cons. intros [Hn Hnd].
  cbn. fold (retain p l). destruct (p x); [|by apply IH]. cbn. apply NoDup_cons. split; [|by apply IH].
  intros (y & E & Hy)%list_elem_of_fmap. apply Hn. rewrite E. apply list_elem_of_fmap_2.
  by apply elem_of_retain in Hy as [? _].
Qed.

Lemma sorted_lt_le {A} (key : A -> Z) l : StronglySorted (key_lt key) l -> StronglySorted (key_le key) l.
Proof.
  induction 1 as [|x l Hs IH Hx]; constructor; [done|]. eapply Forall_impl; [exact Hx|].
  unfold key_lt, key_le. intros y. lia.
Qed.

Lemma sorted_le_snoc {A} (key : A -> Z) l x :
  StronglySorted (key_le key) l -> Forall (fun y => key y <= key x) l -> StronglySorted (key_le key) (l ++ [x]).
Proof.
  induction 1 as [|y l Hs IH Hy]; intros Hx; cbn; [by repeat constructor|].
  apply Forall_cons in Hx as [Hyx Hx]. constructor; [by apply IH|].
  apply Forall_app. split; [done|]. by repeat constructor.
Qed.

Lemma bt_insert_fresh_perm {V} k (v : V) m :
  bt_contains key_ord k m = false -> bt_insert key_ord k v m ≡ₚ (k, v) :: m.
Proof.
  unfold bt_contains. induction m as [|[j w] m IH]; cbn [bt_get bt_insert]; [done|].
  destruct (Z.eqb_spec (key_ord k) (key_ord j)); [done|]. intros H.
  destruct (key_ord k <? key_ord j); [done|]. rewrite IH by done. constructor.
Qed.

(** ** The invariant *)

Record set_ok (s : AppendSet) : Prop := {
  so_map : bt_ok key_ord (as_map s);
  so_keys : Forall (fun e => key32 e.1) (as_map s);
  so_seqs : NoDup ((fun e => rec_seq e.2) <$> as_map s);
  so_low : Forall (fun e => 0 <= rec_seq e.2) (as_map s);
  so_next : as_next_seq s = max_next (as_map s);
  so_u64 : as_next_seq s <= u64_max;
}.

(** What a set stands for: the keys with their values, in the order of
    appending. *)
Definition log (s : AppendSet) : list (bytes * Z) := map fst (iter_in_append_order s).

Lemma max_next_nonneg m : 0 <= max_next m.
Proof. induction m as [|e m IH]; cbn; [done|]. fold (max_next m). lia. Qed.

Lemma max_next_above m : Forall (fun e => rec_seq e.2 < max_next m) m.
Proof.
  induction m as [|e m IH]; [constructor|]. cbn. fold (max_next m). constructor; [lia|].
  eapply Forall_impl; [exact IH|]. intros x. simpl. lia.
Qed.

Lemma max_next_perm m1 m2 : m1 ≡ₚ m2 -> max_next m1 = max_next m2.
Proof. induction 1; cbn in *; fold max_next in *; unfold max_next in *; lia. Qed.

Lemma max_next_least m n : 0 <= n -> Forall (fun e => rec_seq e.2 < n) m -> max_next m <= n.
Proof.
  intros Hn. induction 1 as [|e m He Hm IH]; cbn; [done|]. fold (max_next m). lia.
Qed.

Lemma as_new_ok : set_ok as_new.
Proof. split; cbn; try done; constructor. Qed.

Lemma as_records_elem s r :
  r ∈ as_records s <-> exists k x, (k, x) ∈ as_map s /\ r = (k, rec_value x, rec_seq x).
Proof.
  unfold as_records. change (map ?f ?l) with (f <$> l). rewrite list_elem_of_fmap. split.
  - intros ([k x] & -> & H). by exists k, x.
  - intros (k & x & H & ->). by exists (k, x).
Qed.

Section Ok.
Context (s : AppendSet).
Hypothesis Hs : set_ok s.

Lemma record_key32 r : r ∈ as_records s -> key32 r.1.1.
Proof using Hs.
  intros (k & x & Hin & ->)%as_records_elem. pose proof (so_keys _ Hs) as H. rewrite Forall_forall in H.
  exact (H _ Hin).
Qed.

Lemma append_keys_nodup : NoDup (append_key <$> as_records s).
Proof using Hs.
  apply NoDup_fmap_2_strong.
  - intros r1 r2 H1 H2 E. pose proof (key_ord_range _ (record_key32 _ H1)) as B1.
    pose proof (key_ord_range _ (record_key32 _ H2)) as B2. unfold append_key in E.
    apply as_records_elem in H1 as (k1 & x1 & H1 & ->). apply as_records_elem in H2 as (k2 & x2 & H2 & ->).
    cbn [fst snd] in *. assert (Hseq : rec_seq x1 = rec_seq x2) by nia.
    assert (Heq : (k1, x1) = (k2, x2)); [|by injection Heq as -> ->].
    exact (NoDup_fmap_elem_inj (fun e => rec_seq e.2) (as_map s) _ _ (so_seqs _ Hs) H1 H2 Hseq).
  - unfold as_records. change (map ?f ?l) with (f <$> l).
    pose proof (so_seqs _ Hs) as Hnd. change (fun e : bytes * AppendRecord => rec_seq e.2) with
      (snd ∘ (fun e : bytes * AppendRecord => (e.1, rec_value e.2, rec_seq e.2))) in Hnd.
    rewrite list_fmap_compose in Hnd. by apply NoDup_fmap_1 in Hnd.
Qed.

Lemma append_order_unique l :
  as_records s ≡ₚ l -> StronglySorted (key_le append_key) l -> iter_in_append_order s = l.
Proof using Hs.
  intros Hp Hl. unfold iter_in_append_order. apply (sorted_key_unique append_key).
  - rewrite sort_by_key_perm. apply append_keys_nodup.
  - by rewrite sort_by_key_perm.
  - apply sort_by_key_sorted.
  - done.
Qed.

Lemma map_get k v : key32 k -> bt_get key_ord k (as_map s) = Some v <-> (k, v) ∈ as_map s.
Proof using Hs.
  intros Hk. split.
  - intros (j & Ej & Hin)%bt_get_elem. pose proof (so_keys _ Hs) as H. rewrite Forall_forall in H.
    pose proof (H _ Hin) as Hj. by rewrite (key_ord_inj k j Hk Hj (eq_sym Ej)).
  - pose proof (so_map _ Hs) as Hm. unfold bt_ok in Hm. revert Hm. clear Hs.
    induction (as_map s) as [|[j w] m IH]; [by intros _ ?%elem_of_nil|].
    intros Hm [E|Hin]%elem_of_cons; cbn [bt_get].
    + injection E as -> ->. by rewrite Z.eqb_refl.
    + inversion Hm as [|?? Hm' Hall]; subst. rewrite Forall_forall in Hall. specialize (Hall _ Hin).
      unfold key_lt, bt_key in Hall. simpl in Hall. rewrite (proj2 (Z.eqb_neq _ _)) by lia. by apply IH.
Qed.

Lemma as_contains_spec k : key32 k -> as_contains s k = true <-> k ∈ as_iter s.
Proof using Hs.
  intros Hk. unfold as_contains, bt_contains, as_iter. rewrite list_elem_of_fmap. split.
  - destruct (bt_get key_ord k (as_map s)) as [v|] eqn:E; [|done]. intros _.
    apply map_get in E; [|done]. by exists (k, v).
  - intros ([j v] & -> & Hin). cbn [fst] in *. apply map_get in Hin; [|done]. by rewrite Hin.
Qed.

Lemma log_elem k v : (k, v) ∈ log s <-> exists x, (k, x) ∈ as_map s /\ rec_value x = v.
Proof.
  unfold log, iter_in_append_order. change (map fst ?l) with (fst <$> l).
  rewrite list_elem_of_fmap. setoid_rewrite elem_of_sort_by_key. setoid_rewrite as_records_elem. split.
  - intros (r & E & j & x & Hin & ->). injection E as -> ->. by exists x.
  - intros (x & Hin & <-). exists (k, rec_value x, rec_seq x). split; [done|]. by exists k, x.
Qed.

Lemma log_keys_perm : (log s).*1 ≡ₚ as_iter s.
Proof.
  unfold log, iter_in_append_order, as_iter. change (map fst ?l) with (fst <$> l). rewrite sort_by_key_perm.
  unfold as_records. change (map ?f ?l) with (f <$> l). by rewrite <-!list_fmap_compose.
Qed.

Lemma as_iter_nodup : NoDup (as_iter s).
Proof using Hs.
  pose proof (sorted_lt_NoDup _ _ (so_map _ Hs)) as Hnd. unfold as_iter.
  change (bt_key key_ord) with (key_ord ∘ (fst : bytes * AppendRecord -> bytes)) in Hnd.
  rewrite list_fmap_compose in Hnd. by apply NoDup_fmap_1 in Hnd.
Qed.
End Ok.

(** ** Steps *)

Section Steps.
Context (dup : bytes -> NoteError) (s : AppendSet).
Hypothesis Hs : set_ok s.

Lemma insert_fresh k v :
  as_contains s k = false -> as_next_seq s < u64_max ->
  as_insert dup s k v =
    Some (mkSet (bt_insert key_ord k (mkRecord v (as_next_seq s)) (as_map s)) (as_next_seq s + 1), Ok tt).
Proof.
  intros Hc Hn. unfold as_insert. rewrite Hc. unfold checked_add_u64.
  by rewrite (proj2 (Z.leb_le _ _)) by lia.
Qed.

Definition pushed (k : bytes) (v : Z) : AppendSet :=
  mkSet (bt_insert key_ord k (mkRecord v (as_next_seq s)) (as_map s)) (as_next_seq s + 1).

Lemma pushed_perm k v :
  as_contains s k = false -> as_map (pushed k v) ≡ₚ (k, mkRecord v (as_next_seq s)) :: as_map s.
Proof. apply bt_insert_fresh_perm. Qed.

Lemma pushed_ok k v :
  key32 k -> as_contains s k = false -> as_next_seq s < u64_max -> set_ok (pushed k v).
Proof using Hs.
  intros Hk Hc Hn. pose proof (pushed_perm k v Hc) as Hp.
  pose proof (max_next_above (as_map s)) as Hab. rewrite <-(so_next _ Hs) in Hab.
  pose proof (max_next_nonneg (as_map s)) as H0. rewrite <-(so_next _ Hs) in H0. split.
  - apply bt_insert_ok, (so_map _ Hs).
  - rewrite Hp. constructor; [done|apply (so_keys _ Hs)].
  - rewrite Hp. cbn. apply NoDup_cons. split; [|apply (so_seqs _ Hs)].
    intros (e & E & He)%list_elem_of_fmap. rewrite Forall_forall in Hab. specialize (Hab e He). simpl in *. lia.
  - rewrite Hp. constructor; [done|apply (so_low _ Hs)].
  - rewrite (max_next_perm _ _ Hp). cbn. fold (max_next (as_map s)). rewrite <-(so_next _ Hs). lia.
  - cbn. lia.
Qed.

Lemma pushed_order k v :
  key32 k -> as_contains s k = false -> as_next_seq s < u64_max ->
  iter_in_append_order (pushed k v) = iter_in_append_order s ++ [(k, v, as_next_seq s)].
Proof using Hs.
  intros Hk Hc Hn. apply append_order_unique; [by apply pushed_ok| |].
  - unfold iter_in_append_order. rewrite sort_by_key_perm. unfold as_records.
    change (map ?f ?l) with (f <$> l). rewrite (pushed_perm k v Hc), fmap_cons. cbn.
    apply Permutation_cons_append.
  - apply sorted_le_snoc; [apply sort_by_key_sorted|]. apply Forall_forall. intros r Hr.
    apply elem_of_sort_by_key in Hr. pose proof (record_key32 s Hs r Hr) as Hk'.
    apply as_records_elem in Hr as (j & x & Hin & ->). unfold append_key. cbn [fst snd].
    pose proof (max_next_above (as_map s)) as Hab. rewrite <-(so_next _ Hs), Forall_forall in Hab.
    specialize (Hab _ Hin). cbn in Hab, Hk'.
    pose proof (key_ord_range _ Hk). pose proof (key_ord_range _ Hk'). nia.
Qed.

Definition popped (k : bytes) : AppendSet :=
  mkSet (bt_remove key_ord k (as_map s)) (max_next (bt_remove key_ord k (as_map s))).

Lemma popped_ok k : set_ok (popped k).
Proof using Hs.
  split; cbn.
  - apply bt_remove_ok, (so_map _ Hs).
  - apply Forall_forall. intros e He%elem_of_bt_remove. pose proof (so_keys _ Hs) as H.
    rewrite Forall_forall in H. by apply H.
  - apply NoDup_retain_fmap, (so_seqs _ Hs).
  - apply Forall_forall. intros e He%elem_of_bt_remove. pose proof (so_low _ Hs) as H.
    rewrite Forall_forall in H. by apply H.
  - done.
  - pose proof (so_u64 _ Hs) as Hu. rewrite (so_next _ Hs) in Hu.
    assert (max_next (bt_remove key_ord k (as_map s)) <= max_next (as_map s)); [|lia].
    apply max_next_least; [apply max_next_nonneg|]. apply Forall_forall. intros e He%elem_of_bt_remove.
    pose proof (max_next_above (as_map s)) as H. rewrite Forall_forall in H. by apply H.
Qed.

Lemma popped_order k :
  iter_in_append_order (popped k) =
  retain (fun r => negb (key_ord r.1.1 =? key_ord k)) (iter_in_append_order s).
Proof using Hs.
  apply append_order_unique; [apply popped_ok| |apply retain_strongly_sorted, sort_by_key_sorted].
  unfold iter_in_append_order. rewrite (retain_perm _ _ _ (sort_by_key_perm _ _)).
  unfold as_records, popped, bt_remove. cbn [as_map]. by rewrite retain_map.
Qed.
End Steps.

(** The histories of a set: the executor inserts, and the journal removes. *)
Inductive set_reach (dup : bytes -> NoteError) : AppendSet -> Prop :=
| reach_new : set_reach dup as_new
| reach_insert s k v s' r : set_reach dup s -> key32 k -> as_insert dup s k v = Some (s', r) -> set_reach dup s'
| reach_remove s k : set_reach dup s -> key32 k -> set_reach dup (as_remove s k).1.

Lemma insert_inv dup s k v s' r :
  as_insert dup s k v = Some (s', r) ->
  (as_contains s k = true /\ s' = s /\ r = Err (dup k)) \/
  (as_contains s k = false /\ s' = pushed s k v /\ r = Ok tt /\ as_next_seq s < u64_max).
Proof.
  unfold as_insert. destruct (as_contains s k); [intros [= <- <-]; by left|].
  destruct (checked_add_u64 (as_next_seq s) 1) as [n|] eqn:E; [|done].
  apply checked_add_u64_spec in E as [-> Hle]. intros [= <- <-]. right. split_and!; [done|done|done|lia].
Qed.

Lemma reach_ok dup s : set_reach dup s -> set_ok s.
Proof.
  induction 1 as [|s k v s' r Hr IH Hk Hi|s k Hr IH Hk]; [apply as_new_ok| |].
  - apply insert_inv in Hi as [(_ & -> & _)|(Hc & -> & _ & Hn)]; [done|by apply pushed_ok].
  - unfold as_remove. destruct (as_contains s k); [|done]. by apply popped_ok.
Qed.

(** ** Loading records *)

Definition entry_of (r : durable) : bytes * AppendRecord := (r.1.1, mkRecord r.1.2 r.2).

Lemma entries_of_records s : map entry_of (as_records s) = as_map s.
Proof.
  unfold as_records. rewrite map_map. rewrite <-(map_id (as_map s)) at 2. apply map_ext.
  by intros [k [v q]].
Qed.

(** A set under construction. *)
Record loading_ok (s : AppendSet) : Prop := {
  lo_map : bt_ok key_ord (as_map s);
  lo_keys : Forall (fun e => key32 e.1) (as_map s);
  lo_next : as_next_seq s = max_next (as_map s);
}.

Definition record_ok (r : durable) : Prop := key32 r.1.1 /\ r.2 < u64_max.

Lemma not_contains s k :
  loading_ok s -> key32 k -> (as_contains s k = false <-> k ∉ as_iter s).
Proof.
  intros Hs Hk. unfold as_contains, bt_contains, as_iter. split.
  - destruct (bt_get key_ord k (as_map s)) eqn:E; [done|]. intros _ ([j x] & -> & Hin)%list_elem_of_fmap.
    cbn [fst] in *. revert E. clear Hs Hk. induction (as_map s) as [|[j' x'] m IH]; [by apply elem_of_nil in Hin|].
    cbn [bt_get]. destruct (Z.eqb_spec (key_ord j) (key_ord j')); [done|].
    apply elem_of_cons in Hin as [E|Hin]; [congruence|by apply IH].
  - intros Hn. destruct (bt_get key_ord k (as_map s)) as [x|] eqn:E; [|done]. exfalso. apply Hn.
    apply bt_get_elem in E as (j & Ej & Hin). pose proof (lo_keys _ Hs) as H. rewrite Forall_forall in H.
    pose proof (H _ Hin) as Hj. rewrite (key_ord_inj k j Hk Hj (eq_sym Ej)).
    by apply (list_elem_of_fmap_2 fst _ (j, x)).
Qed.

Lemma load_step dup s r :
  loading_ok s -> record_ok r -> r.1.1 ∉ as_iter s ->
  exists s', load_record dup (Some (Ok s)) r = Some (Ok s') /\ loading_ok s' /\
    as_map s' ≡ₚ entry_of r :: as_map s.
Proof.
  intros Hs [Hk Hq] Hn. destruct r as [[k v] q]. cbn [fst snd] in *.
  apply (not_contains s k Hs Hk) in Hn as Hc. unfold load_record. cbn [mbind option_bind]. rewrite Hc.
  unfold checked_add_u64. rewrite (proj2 (Z.leb_le _ _)) by lia. cbn [mbind option_bind].
  eexists. split; [done|].
  pose proof (bt_insert_fresh_perm k (mkRecord v q) (as_map s) Hc) as Hp. split; [|done].
  split; cbn [as_map as_next_seq].
  - apply bt_insert_ok, (lo_map _ Hs).
  - rewrite Hp. constructor; [done|apply (lo_keys _ Hs)].
  - rewrite (max_next_perm _ _ Hp). cbn. fold (max_next (as_map s)). rewrite <-(lo_next _ Hs). lia.
Qed.

Lemma load_error dup e l : foldl (load_record dup) (Some (Err e)) l = Some (Err e).
Proof. by induction l. Qed.

(** Records with distinct keys load, in any order; the first repeated key is
    the error. *)
Lemma load_all dup l s :
  loading_ok s -> Forall record_ok l ->
  (NoDup (as_iter s ++ ((fun r => r.1.1) <$> l)) /\
     exists s', foldl (load_record dup) (Some (Ok s)) l = Some (Ok s') /\ loading_ok s' /\
       as_map s' ≡ₚ map entry_of l ++ as_map s) \/
  (~ NoDup (as_iter s ++ ((fun r => r.1.1) <$> l)) /\
     exists k, foldl (load_record dup) (Some (Ok s)) l = Some (Err (dup k))).
Proof.
  revert s; induction l as [|r l IH]; intros s Hs Hl.
  - left. split; [|by exists s]. cbn. rewrite app_nil_r.
    pose proof (sorted_lt_NoDup _ _ (lo_map _ Hs)) as Hnd.
    change (bt_key key_ord) with (key_ord ∘ (fst : bytes * AppendRecord -> bytes)) in Hnd.
    rewrite list_fmap_compose in Hnd. by apply NoDup_fmap_1 in Hnd.
  - apply Forall_cons in Hl as [Hr Hl]. destruct (decide (r.1.1 ∈ as_iter s)) as [Hin|Hn].
    + right. split.
      * intros Hnd. apply NoDup_app in Hnd as (_ & Hd & _). apply (Hd _ Hin). rewrite fmap_cons. left.
      * exists r.1.1. cbn [foldl]. destruct r as [[k v] q]. cbn [fst] in *. unfold load_record at 2.
        cbn [mbind option_bind]. destruct (as_contains s k) eqn:Hc; [apply load_error|].
        apply not_contains in Hc; [done|done|apply Hr].
    + destruct (load_step dup s r Hs Hr Hn) as (s1 & E1 & Hs1 & Hp1). cbn [foldl]. rewrite E1.
      assert (Hperm : as_iter s1 ++ ((fun r => r.1.1) <$> l) ≡ₚ as_iter s ++ ((fun r => r.1.1) <$> r :: l)).
      { unfold as_iter. rewrite Hp1, !fmap_cons. cbn. by rewrite <-Permutation_middle. }
      destruct (IH s1 Hs1 Hl) as [(Hnd & s' & E' & Hs' & Hp')|(Hnd & k & E')].
      * left. split; [by rewrite <-Hperm|]. exists s'. split_and!; [done|done|].
        rewrite Hp', Hp1. cbn [map app]. by rewrite <-Permutation_middle.
      * right. split; [by rewrite <-Hperm|]. by exists k.
Qed.

Lemma as_new_loading : loading_ok as_new.
Proof. split; cbn; try done; constructor. Qed.

Lemma bt_remove_insert_fresh {V} k (v : V) m :
  bt_contains key_ord k m = false -> bt_remove key_ord k (bt_insert key_ord k v m) = m.
Proof.
  unfold bt_contains, bt_remove, retain.
  induction m as [|[j w] m IH]; cbn [bt_get bt_insert List.filter fst]; [by rewrite Z.eqb_refl|].
  destruct (Z.eqb_spec (key_ord k) (key_ord j)) as [E|E]; [done|]. intros Hc.
  assert (Hj : negb (key_ord j =? key_ord k) = true) by (by rewrite (proj2 (Z.eqb_neq _ _)) by congruence).
  destruct (key_ord k <? key_ord j); cbn [List.filter fst]; rewrite Hj, ?Z.eqb_refl; cbn [negb].
  - f_equal. exact (bt_remove_absent key_ord k m Hc).
  - by rewrite IH.
Qed.

(** ** Properties *)

(** C33: an accumulator refines an append-only log.  In every history of inserts and
    rollbacks, the set stands for a log of keys with their values, each key at
    most once: membership and values are those of the log, and the leaves for
    the append-ordered tree are the log in order; an insert of a logged key is
    refused with the set unchanged, so neither the value nor the order of the
    first insert is lost; an insert of a new key appends it, and removing it
    again gives back the very set before; and a removal takes the key out of
    the log and keeps the order of the rest. *)
Theorem accumulator_refines_log (dup : bytes -> NoteError) (s : AppendSet) (k : bytes) (v : Z) :
  set_reach dup s -> key32 k ->
  NoDup (log s).*1 /\ as_len s = length (log s) /\
  (as_contains s k = true <-> k ∈ (log s).*1) /\
  (forall x, value_of s k = Some x <-> (k, x) ∈ log s) /\
  aafi_leaves s = map (fun e => accumulator_leaf e.1 e.2) (log s) /\
  (k ∈ (log s).*1 -> as_insert dup s k v = Some (s, Err (dup k))) /\
  (k ∉ (log s).*1 -> as_next_seq s < u64_max ->
     exists s', as_insert dup s k v = Some (s', Ok tt) /\ log s' = log s ++ [(k, v)] /\
       as_remove s' k = (s, true)) /\
  log (as_remove s k).1 = retain (fun e => negb (bool_decide (e.1 = k))) (log s).
Proof.
  intros Hr Hk. pose proof (reach_ok dup s Hr) as Hs.
  assert (Hc : as_contains s k = true <-> k ∈ (log s).*1)
    by (rewrite (log_keys_perm s); by apply as_contains_spec).
  split_and!; [rewrite (log_keys_perm s); by apply as_iter_nodup| |done| | | | |].
  - unfold as_len. transitivity (length (as_iter s)); [unfold as_iter; by rewrite length_fmap|].
    by rewrite <-(log_keys_perm s), length_fmap.
  - intros x. rewrite log_elem. unfold value_of. rewrite fmap_Some. split.
    + intros (y & Hy & ->). apply map_get in Hy; [by exists y|done|done].
    + intros (y & Hy & <-). apply map_get in Hy; [by exists y|done|done].
  - unfold aafi_leaves, log. by rewrite map_map.
  - intros Hin%Hc. unfold as_insert. by rewrite Hin.
  - intros Hin Hn. assert (Hf : as_contains s k = false) by (destruct (as_contains s k); naive_solver).
    exists (pushed s k v). split; [by apply insert_fresh|]. split.
    + unfold log. rewrite pushed_order by done. by rewrite map_app.
    + unfold as_remove, as_contains, bt_contains, pushed. cbn [as_map].
      rewrite bt_get_insert, Z.eqb_refl, bt_remove_insert_fresh by done.
      rewrite <-(so_next _ Hs). by destruct s.
  - assert (Hret : log (popped s k) = retain (fun e => negb (bool_decide (e.1 = k))) (log s)).
    { unfold log. rewrite popped_order, retain_map by done. f_equal. apply filter_ext_in.
      intros r Hin. apply list_elem_of_In, elem_of_sort_by_key in Hin.
      by rewrite key_ord_eqb by (done || by apply (record_key32 s)). }
    unfold as_remove. destruct (as_contains s k) eqn:E; [exact Hret|]. cbn [fst]. symmetry.
    apply retain_all. intros [j x] Hin. apply negb_true_iff, bool_decide_eq_false. cbn. intros ->.
    assert (Hk' : k ∈ (log s).*1) by (by apply (list_elem_of_fmap_2 fst _ (k, x))).
    apply Hc in Hk'. congruence.
Qed.

Definition sample_key (b : Z) : bytes := fill32 b.

Lemma sample_key32 b : 0 <= b < 256 -> key32 (sample_key b).
Proof. intros Hb. split; [done|]. apply Forall_replicate. done. Qed.

(** A set of two keys, appended in descending order. *)
Definition sample_set : AppendSet :=
  mkSet [(sample_key 3, mkRecord 30 1); (sample_key 9, mkRecord 90 0)] 2.

Lemma sample_reach dup : set_reach dup sample_set.
Proof.
  assert (H9 : key32 (sample_key 9)) by (by apply sample_key32).
  assert (H3 : key32 (sample_key 3)) by (by apply sample_key32).
  eapply (reach_insert dup (mkSet [(sample_key 9, mkRecord 90 0)] 1) (sample_key 3) 30 _ (Ok tt)).
  - eapply (reach_insert dup as_new (sample_key 9) 90 _ (Ok tt)); [apply reach_new|done|reflexivity].
  - done.
  - reflexivity.
Qed.

Lemma accumulator_refines_log_witness :
  set_reach DoubleSpend sample_set /\ key32 (sample_key 9) /\ key32 (sample_key 5) /\
  nullifier_insert sample_set (sample_key 9) 7 = Some (sample_set, Err (DoubleSpend (sample_key 9))) /\
  exists s', nullifier_insert sample_set (sample_key 5) 50 = Some (s', Ok tt) /\
    log s' = [(sample_key 9, 90); (sample_key 3, 30); (sample_key 5, 50)] /\
    as_remove s' (sample_key 5) = (sample_set, true).
Proof.
  pose proof (sample_reach DoubleSpend) as Hr.
  assert (H9 : key32 (sample_key 9)) by (by apply sample_key32).
  assert (H5 : key32 (sample_key 5)) by (by apply sample_key32).
  assert (Hlog : log sample_set = [(sample_key 9, 90); (sample_key 3, 30)]) by (vm_compute; reflexivity).
  split; [exact Hr|]. split; [exact H9|]. split; [exact H5|]. split.
  - destruct (accumulator_refines_log DoubleSpend sample_set (sample_key 9) 7 Hr H9)
      as (_ & _ & _ & _ & _ & Hdup & _). apply Hdup. rewrite Hlog. left.
  - destruct (accumulator_refines_log DoubleSpend sample_set (sample_key 5) 50 Hr H5)
      as (_ & _ & _ & _ & _ & _ & Hnew & _).
    destruct Hnew as (s' & Hi & Hl & Hd).
    + rewrite Hlog. simpl. rewrite !elem_of_cons, elem_of_nil. intros [E|[E|[]]]; discriminate E.
    + reflexivity.
    + exists s'. split; [exact Hi|]. split; [by rewrite Hl, Hlog|exact Hd].
Defined.

(** Durable records rebuild the set.  For every history, loading the exported
    records of a set, in whatever order the store gives them, returns the very
    set: keys, values, append sequence and cursor; and records in which a key
    repeats are refused with the error of a duplicate. *)
Theorem records_roundtrip (dup : bytes -> NoteError) (s : AppendSet) (records : list durable) :
  set_reach dup s ->
  (records ≡ₚ iter_in_append_order s -> from_records dup records = Some (Ok s)) /\
  (Forall record_ok records -> ~ NoDup ((fun r => r.1.1) <$> records) ->
     exists k, from_records dup records = Some (Err (dup k))).
Proof.
  intros Hr. pose proof (reach_ok dup s Hr) as Hs. unfold from_records. split.
  - intros Hp. assert (Hpr : sort_by_key append_key records ≡ₚ as_records s).
    { rewrite sort_by_key_perm, Hp. unfold iter_in_append_order. apply sort_by_key_perm. }
    assert (Hro : Forall record_ok (sort_by_key append_key records)).
    { rewrite Hpr. apply Forall_forall. intros r Hin. split; [by apply (record_key32 s)|].
      apply as_records_elem in Hin as (k & x & Hin & ->). cbn.
      pose proof (max_next_above (as_map s)) as Hab. rewrite Forall_forall in Hab.
      specialize (Hab _ Hin). pose proof (so_u64 _ Hs) as Hu. rewrite (so_next _ Hs) in Hu. simpl in Hab. lia. }
    destruct (load_all dup _ as_new as_new_loading Hro) as [(_ & s' & -> & Hs' & Hp')|(Hnd & _)].
    + do 2 f_equal. rewrite app_nil_r in Hp'. assert (Hm : as_map s' = as_map s).
      { apply (sorted_key_unique (bt_key key_ord)).
        - apply sorted_lt_NoDup, (lo_map _ Hs').
        - rewrite Hp'. change (map entry_of ?l) with (entry_of <$> l). rewrite Hpr.
          change (entry_of <$> ?l) with (map entry_of l). by rewrite entries_of_records.
        - apply sorted_lt_le, Hs'.
        - apply sorted_lt_le, Hs. }
      destruct s' as [m n], s as [m0 n0]. cbn in Hm. subst m0. f_equal.
      pose proof (lo_next _ Hs') as E1. pose proof (so_next _ Hs) as E2. cbn [as_map as_next_seq] in E1, E2.
      congruence.
    + destruct Hnd. cbn [as_new as_iter as_map fmap list_fmap app]. rewrite Hpr.
      change ((fun r : durable => r.1.1) <$> as_records s) with (map (fun r : durable => r.1.1) (as_records s)).
      unfold as_records. rewrite map_map. by apply as_iter_nodup.
  - intros Hro Hnd. rewrite <-(sort_by_key_perm append_key records) in Hro, Hnd.
    destruct (load_all dup _ as_new as_new_loading Hro) as [(Hnd' & _)|(_ & k & E)]; [done|by exists k].
Qed.

Lemma records_roundtrip_witness :
  set_reach DoubleSpend sample_set /\
  nullifier_from_records [(sample_key 3, 30, 1); (sample_key 9, 90, 0)] = Some (Ok sample_set) /\
  exists k, nullifier_from_records [(sample_key 3, 30, 1); (sample_key 3, 31, 0)] = Some (Err (DoubleSpend k)).
Proof.
  pose proof (sample_reach DoubleSpend) as Hr. split; [exact Hr|]. split.
  - apply (records_roundtrip DoubleSpend sample_set _ Hr).
    assert (E : iter_in_append_order sample_set = [(sample_key 9, 90, 0); (sample_key 3, 30, 1)])
      by (vm_compute; reflexivity).
    rewrite E. constructor.
  - apply (records_roundtrip DoubleSpend sample_set _ Hr).
    + assert (H3 : key32 (sample_key 3)) by (by apply sample_key32).
      constructor; [split; [exact H3|reflexivity]|]. constructor; [split; [exact H3|reflexivity]|constructor].
    + intros Hnd. apply NoDup_cons in Hnd as [Hn _]. apply Hn. left.
Defined.

Lemma iter_with_values_log s : iter_with_values s ≡ₚ log s.
Proof.
  unfold log, iter_in_append_order. change (map fst ?l) with (fst <$> l). rewrite sort_by_key_perm.
  unfold as_records, iter_with_values. change (map ?f ?l) with (f <$> l). by rewrite <-list_fmap_compose.
Qed.

Lemma iter_with_values_sorted s :
  set_ok s -> StronglySorted (key_lt (bt_key key_ord)) (iter_with_values s).
Proof.
  intros Hs. pose proof (so_map _ Hs) as Hm. unfold bt_ok in Hm.
  apply (proj2 (sorted_keys_fmap _ _)). apply (proj1 (sorted_keys_fmap _ _)) in Hm.
  unfold iter_with_values. change (map ?f ?l) with (f <$> l). by rewrite <-list_fmap_compose.
Qed.

Lemma as_root8_values s :
  as_root8 s = root8 <$> heap_tree_new (map (fun e => accumulator_leaf e.1 e.2) (iter_with_values s)) HEAP_TREE_DEPTH.
Proof. unfold as_root8, iter_with_values. by rewrite map_map. Qed.

(** A row of distinct addresses above the sentinel loses no leaf. *)
Lemma linked_length leaves :
  NoDup (hl_addr <$> leaves) -> SENTINEL_MIN ∉ hl_addr <$> leaves ->
  length (linked_leaves leaves) = (length leaves + 1)%nat.
Proof.
  intros Hnd Hmin. unfold linked_leaves. rewrite relink_length.
  rewrite dedup_by_key_nodup.
  - rewrite (Permutation_length (sort_by_key_perm _ _)), length_app. done.
  - rewrite sort_by_key_perm, fmap_app. apply NoDup_app. split; [done|]. split.
    + intros a Ha Hm. cbn in Hm. apply list_elem_of_singleton in Hm. by subst.
    + apply NoDup_singleton.
Qed.

(** The committed root does not see the order.  Two histories that logged the
    same pairs, in whatever order, hold the same keys with the same values and
    commit to the same root; and as long as the keys have distinct addresses
    above the lower sentinel, the cursor of the set is the free index of the
    tree behind that root. *)
Theorem root8_order_free (dup : bytes -> NoteError) (s1 s2 : AppendSet) (t : CanonicalHeapTree8) :
  set_reach dup s1 -> set_reach dup s2 -> log s1 ≡ₚ log s2 ->
  iter_with_values s1 = iter_with_values s2 /\ as_root8 s1 = as_root8 s2 /\
  (heap_tree_new (aafi_leaves s1) HEAP_TREE_DEPTH = Some t ->
   NoDup (hl_addr <$> aafi_leaves s1) -> SENTINEL_MIN ∉ hl_addr <$> aafi_leaves s1 ->
   aafi_next_free_index s1 = h8_next_free_index t).
Proof.
  intros H1 H2 Hp. pose proof (reach_ok _ _ H1) as Hs1. pose proof (reach_ok _ _ H2) as Hs2.
  assert (Hv : iter_with_values s1 = iter_with_values s2).
  { apply (sorted_key_unique (bt_key key_ord)).
    - by apply sorted_lt_NoDup, iter_with_values_sorted.
    - by rewrite !iter_with_values_log.
    - by apply sorted_lt_le, iter_with_values_sorted.
    - by apply sorted_lt_le, iter_with_values_sorted. }
  split_and!; [done|by rewrite !as_root8_values, Hv|].
  intros Ht Hnd Hmin. destruct (heap_tree_new_inv _ _ _ Ht) as [_ ->]. cbn [h8_next_free_index].
  rewrite linked_length by done. unfold aafi_next_free_index, aafi_leaves, iter_in_append_order.
  rewrite length_map, (Permutation_length (sort_by_key_perm _ _)). unfold as_records. by rewrite length_map.
Qed.

(** The same two keys, appended the other way round. *)
Definition sample_set_reversed : AppendSet :=
  mkSet [(sample_key 3, mkRecord 30 0); (sample_key 9, mkRecord 90 1)] 2.

Lemma root8_order_free_witness :
  set_reach DoubleSpend sample_set /\ set_reach DoubleSpend sample_set_reversed /\
  log sample_set <> log sample_set_reversed /\ as_root8 sample_set = as_root8 sample_set_reversed.
Proof.
  pose proof (sample_reach DoubleSpend) as H1.
  assert (H2 : set_reach DoubleSpend sample_set_reversed).
  { assert (H9 : key32 (sample_key 9)) by (by apply sample_key32).
    assert (H3 : key32 (sample_key 3)) by (by apply sample_key32).
    eapply (reach_insert DoubleSpend (mkSet [(sample_key 3, mkRecord 30 0)] 1) (sample_key 9) 90 _ (Ok tt));
      [|exact H9|reflexivity].
    eapply (reach_insert DoubleSpend as_new (sample_key 3) 30 _ (Ok tt)); [apply reach_new|exact H3|reflexivity]. }
  assert (E1 : log sample_set = [(sample_key 9, 90); (sample_key 3, 30)]) by (vm_compute; reflexivity).
  assert (E2 : log sample_set_reversed = [(sample_key 3, 30); (sample_key 9, 90)]) by (vm_compute; reflexivity).
  destruct (heap_tree_total (aafi_leaves sample_set) HEAP_TREE_DEPTH) as [t Ht].
  - unfold aafi_leaves. rewrite length_map. change (2 ^ HEAP_TREE_DEPTH)%nat with (Z.to_nat 65536).
    replace (length (iter_in_append_order sample_set)) with 2%nat by (vm_compute; reflexivity). lia.
  - split; [exact H1|]. split; [exact H2|]. split; [rewrite E1, E2; discriminate|].
    apply (root8_order_free DoubleSpend sample_set sample_set_reversed t H1 H2).
    rewrite E1, E2. constructor.
Defined.

(** ** Where the documentation says more *)

(** The commitment and the nullifier of a note leave its last six fields out:
    two notes that differ only there have the same commitment and, for every
    spending key, the same nullifier, so spending one spends the other. *)
Theorem note_identity_ignores_fields owner f g randomness nonce key :
  f !! 0%nat = g !! 0%nat -> f !! 1%nat = g !! 1%nat ->
  note_commitment (with_nonce owner f randomness nonce) = note_commitment (with_nonce owner g randomness nonce) /\
  nullifier (with_nonce owner f randomness nonce) key = nullifier (with_nonce owner g randomness nonce) key.
Proof.
  intros H0 H1.
  assert (E : poseidon2_commitment (with_nonce owner f randomness nonce) =
              poseidon2_commitment (with_nonce owner g randomness nonce)).
  { unfold poseidon2_commitment, note_field, with_nonce. cbn [n_fields n_owner n_creation_nonce n_randomness].
    by rewrite H0, H1. }
  unfold note_commitment, nullifier. rewrite E. done.
Qed.

(** Two keys whose first limbs differ by the field prime. *)
Definition alias_low : bytes := le_bytes 4 5 ++ replicate 28 0.
Definition alias_high : bytes := le_bytes 4 (BABYBEAR_P + 5) ++ replicate 28 0.

Lemma heap_tree_dup x y l depth :
  hl_addr x = hl_addr y -> heap_tree_new (x :: y :: l) depth = heap_tree_new (x :: l) depth.
Proof. intros E. unfold heap_tree_new. by rewrite linked_dup. Qed.

(** The committed root can miss an append: there are two distinct keys with one
    address, and appending the second after the first, whatever the values,
    leaves the root as it was; and a leaf only carries the low thirty bits of
    the value. *)
Theorem root8_misses_append (dup : bytes -> NoteError) :
  alias_low <> alias_high /\ key32 alias_low /\ key32 alias_high /\
  (forall v1 v2, exists s1 s2,
     as_insert dup as_new alias_low v1 = Some (s1, Ok tt) /\
     as_insert dup s1 alias_high v2 = Some (s2, Ok tt) /\ as_root8 s2 = as_root8 s1) /\
  (forall k v, 0 <= v -> accumulator_leaf k (v + 2 ^ 30) = accumulator_leaf k v).
Proof.
  assert (Hk : forall l, length l = 32%nat -> Forall (fun b => 0 <= b < 256) l -> key32 l) by (intros; by split).
  split_and!; [done|by apply Hk; [|repeat constructor]..| |].
  - intros v1 v2.
    exists (mkSet [(alias_low, mkRecord v1 0)] 1),
      (mkSet [(alias_low, mkRecord v1 0); (alias_high, mkRecord v2 1)] 2).
    split; [reflexivity|]. split; [reflexivity|]. unfold as_root8. cbn [map as_map fst snd rec_value].
    rewrite heap_tree_dup; [done|]. unfold accumulator_leaf. cbn [heap_entry hl_addr].
    by vm_compute.
  - intros k v Hv. unfold accumulator_leaf, split_u64. cbn [fst]. do 2 f_equal.
    change 1073741823 with (Z.ones 30). rewrite !Z.land_ones by lia.
    replace (v + 2 ^ 30) with (v + 1 * 2 ^ 30) by lia. by rewrite Z_mod_plus_full.
Qed.
