(* ===== verification/Nullifier.v ===== *)
(** * Proofs that a note is not spent

    Models the byte-Merkle half of [cell/src/nullifier_set.rs]: the tree over
    the sorted nullifiers, its membership paths, and the non-membership proofs
    made of two neighbours.  The set itself is the accumulator of [Notes]; an
    index in a proof is a [u64].  [None] is an index out of range, which is
    shown not to happen. *)

From stdpp Require Import base decidable option list sorting strings.
From Stdlib Require Import ZArith Lia.
From S2P Require Import Prelude BabyBear Poseidon2 CapRoot Heap Aafi Notes.

Open Scope Z_scope.

Record MerkleMembershipProof : Type := mkMember {
  mp_element : bytes;
  mp_index : Z;
  mp_siblings : list bytes;
}.

Record NonMembershipProof : Type := mkNonMember {
  nm_absent : bytes;
  nm_left_neighbor : option bytes;
  nm_right_neighbor : option bytes;
  nm_left_proof : option MerkleMembershipProof;
  nm_right_proof : option MerkleMembershipProof;
  nm_root : bytes;
}.

Section Model.
Context `{Blake3}.

Definition leaf_hash (data : bytes) : bytes := blake3_derive_key "dregg-nullifier-leaf v1" data.

Definition node_hash (l r : bytes) : bytes := blake3_derive_key "dregg-nullifier-node v1" (l ++ r).

(** One level up: pad to even length with the zero hash, then hash the chunks
    of two. *)
Definition pad_even (level : list bytes) : list bytes :=
  if Nat.even (length level) then level else level ++ [zero32].

Fixpoint pair_chunks (level : list bytes) : list bytes :=
  match level with
  | a :: b :: rest => node_hash a b :: pair_chunks rest
  | _ => []
  end.

Definition next_level (level : list bytes) : list bytes := pair_chunks (pad_even level).

(** [while current_level.len() > 1]; the length is enough fuel, since a level
    has fewer nodes than the one below it. *)
Fixpoint path_loop (fuel : nat) (level : list bytes) (idx : nat) : option (list bytes) :=
  if (length level <=? 1)%nat then Some []
  else match fuel with
  | O => None
  | S fuel' =>
      sibling ← pad_even level !! (if Nat.even idx then idx + 1 else idx - 1)%nat;
      (cons sibling) <$> path_loop fuel' (next_level level) (idx / 2)%nat
  end.

Definition merkle_path (leaves : list bytes) (index : nat) : option (list bytes) :=
  if (length leaves <=? 1)%nat then Some [] else path_loop (length leaves) leaves index.

Fixpoint root_loop (fuel : nat) (level : list bytes) : option bytes :=
  if (length level <=? 1)%nat then level !! 0%nat
  else match fuel with O => None | S fuel' => root_loop fuel' (next_level level) end.

Definition merkle_root_from_leaves (leaves : list bytes) : option bytes :=
  match leaves with [] => Some zero32 | _ => root_loop (length leaves) leaves end.

(** One sibling of a path. *)
Definition climb_step (acc : bytes * Z) (sibling : bytes) : bytes * Z :=
  (if Z.even acc.2 then node_hash acc.1 sibling else node_hash sibling acc.1, acc.2 / 2).

Definition climb (leaf : bytes) (idx : Z) (siblings : list bytes) : bytes * Z :=
  foldl climb_step (leaf, idx) siblings.

Definition verify_membership_proof (p : MerkleMembershipProof) (root : bytes) : bool :=
  bool_decide ((climb (leaf_hash (mp_element p)) (mp_index p) (mp_siblings p)).1 = root).

Definition nullifier_root (s : NullifierSet) : option bytes :=
  merkle_root_from_leaves (map leaf_hash (as_iter s)).

Definition prove_membership_from_sorted (sorted : list bytes) (index : nat)
    : option MerkleMembershipProof :=
  siblings ← merkle_path (map leaf_hash sorted) index;
  element ← sorted !! index;
  Some (mkMember element (Z.of_nat index) siblings).

(** The outer option is a panic; [Some None] is the method's own [None]. *)
Definition prove_non_membership (s : NullifierSet) (n : bytes) : option (option NonMembershipProof) :=
  if as_contains s n then Some None
  else
    let sorted := as_iter s in
    let idx := partition_point (fun k => key_ord k <? key_ord n) sorted in
    left ← (if (0 <? idx)%nat then Some <$> prove_membership_from_sorted sorted (idx - 1) else Some None);
    right ← (if (idx <? length sorted)%nat then Some <$> prove_membership_from_sorted sorted idx else Some None);
    root ← nullifier_root s;
    Some (Some (mkNonMember n
      (if (0 <? idx)%nat then sorted !! (idx - 1)%nat else None)
      (if (idx <? length sorted)%nat then sorted !! idx else None) left right root)).

(** The check of one neighbour. *)
Definition verify_neighbor (neighbor : option bytes) (proof : option MerkleMembershipProof) (root : bytes) : bool :=
  match neighbor with
  | None => true
  | Some n =>
      match proof with
      | None => false
      | Some p => bool_decide (mp_element p = n) && verify_membership_proof p root
      end
  end.

(** [left.index + 1] wraps, as in a build without overflow checks; no honest
    proof has that index. *)
Definition adjacent (left right : option MerkleMembershipProof) : bool :=
  match left, right with
  | Some l, Some r => mp_index r =? (mp_index l + 1) mod 2 ^ 64
  | _, _ => true
  end.

Definition verify_non_membership (p : NonMembershipProof) (root : bytes) : bool :=
  bool_decide (nm_root p = root) &&
  match nm_left_neighbor p with Some l => key_ord l <? key_ord (nm_absent p) | None => true end &&
  match nm_right_neighbor p with Some r => key_ord (nm_absent p) <? key_ord r | None => true end &&
  verify_neighbor (nm_left_neighbor p) (nm_left_proof p) root &&
  verify_neighbor (nm_right_neighbor p) (nm_right_proof p) root &&
  adjacent (nm_left_proof p) (nm_right_proof p).
End Model.

(** ** Levels *)

Section Levels.
Context `{Blake3}.

Lemma pad_even_length l : length (pad_even l) = (2 * ((length l + 1) / 2))%nat.
Proof.
  unfold pad_even. pose proof (Nat.div_mod_eq (length l + 1) 2) as Hdm.
  pose proof (Nat.mod_upper_bound (length l + 1) 2 ltac:(lia)) as Hub.
  destruct (Nat.even (length l)) eqn:E.
  - apply Nat.even_spec in E as [q Hq]. lia.
  - assert (Ho : Nat.odd (length l) = true) by (by rewrite <-Nat.negb_even, E).
    apply Nat.odd_spec in Ho as [q Hq]. rewrite length_app. cbn [length]. lia.
Qed.

Lemma pad_even_lookup l i c : pad_even l !! i = Some c -> l !! i = Some c \/ c = zero32.
Proof.
  unfold pad_even. destruct (Nat.even _); [by left|]. intros Hc.
  apply lookup_app_Some in Hc as [?|[_ Hc]]; [by left|]. apply list_lookup_singleton_Some in Hc as [_ <-].
  by right.
Qed.

Lemma pad_even_prefix l i c : l !! i = Some c -> pad_even l !! i = Some c.
Proof. unfold pad_even. destruct (Nat.even _); [done|]. apply lookup_app_l_Some. Qed.

Lemma pair_chunks_lookup l j d :
  pair_chunks l !! j = Some d <->
  exists a b, d = node_hash a b /\ l !! (2 * j)%nat = Some a /\ l !! (2 * j + 1)%nat = Some b.
Proof.
  revert j; induction l as [l IH] using (induction_ltof1 _ (@length bytes)); unfold ltof in IH. intros j.
  destruct l as [|a [|b rest]]; cbn [pair_chunks].
  - split; [done|]. by intros (? & ? & _ & ? & _).
  - split; [done|]. intros (x & y & _ & _ & Hy). destruct j; discriminate Hy.
  - destruct j as [|j].
    + cbn. split; [intros [= <-]; by exists a, b|]. intros (? & ? & -> & [= ->] & [= ->]). done.
    + replace (2 * S j)%nat with (S (S (2 * j))) by lia.
      change (S (S (2 * j)) + 1)%nat with (S (S (2 * j + 1))). cbn [lookup list_lookup].
      apply IH. simpl. lia.
Qed.

Lemma pair_chunks_length l : Nat.even (length l) = true -> length (pair_chunks l) = (length l / 2)%nat.
Proof.
  induction l as [l IH] using (induction_ltof1 _ (@length bytes)); unfold ltof in IH.
  destruct l as [|a [|b rest]]; cbn [pair_chunks length]; [done|done|]. intros He.
  rewrite IH by (simpl in *; (lia || done)).
  replace (S (S (length rest))) with (length rest + 1 * 2)%nat by lia. rewrite Nat.div_add by lia. lia.
Qed.

Lemma next_level_length l : length (next_level l) = ((length l + 1) / 2)%nat.
Proof.
  unfold next_level. rewrite pair_chunks_length, pad_even_length.
  - by rewrite Nat.mul_comm, Nat.div_mul by lia.
  - rewrite pad_even_length. apply Nat.even_spec. by eexists.
Qed.

Lemma next_level_shrinks l : (2 <= length l)%nat -> (1 <= length (next_level l) < length l)%nat.
Proof.
  intros Hl. rewrite next_level_length. pose proof (Nat.div_mod_eq (length l + 1) 2).
  pose proof (Nat.mod_upper_bound (length l + 1) 2 ltac:(lia)). lia.
Qed.

(** The levels above a row of leaves. *)
Definition level_at (leaves : list bytes) (h : nat) : list bytes := Nat.iter h next_level leaves.

Lemma level_at_S leaves h : level_at leaves (S h) = next_level (level_at leaves h).
Proof. done. Qed.

Lemma level_at_next leaves h : level_at (next_level leaves) h = level_at leaves (S h).
Proof. induction h as [|h IH]; [done|]. by rewrite !level_at_S, IH. Qed.

(** The fuel suffices: the root is the one node of some level, not higher than
    the width needs. *)
Lemma root_loop_top fuel l :
  (1 <= length l)%nat -> (length l <= fuel)%nat ->
  exists h x, root_loop fuel l = Some x /\ level_at l h = [x] /\ (h = 0 \/ 2 ^ (h - 1) < length l)%nat.
Proof.
  revert l; induction fuel as [|fuel IH]; intros l H1 Hf; [lia|]. cbn [root_loop].
  destruct (Nat.leb_spec (length l) 1) as [Hle|Hgt].
  - destruct l as [|x [|y l]]; [simpl in H1; lia| |simpl in Hle; lia].
    exists 0%nat, x. split_and!; [done|done|by left].
  - pose proof (next_level_shrinks l ltac:(lia)).
    destruct (IH (next_level l)) as (h & x & Hr & Hl & Hh); [lia|lia|].
    exists (S h), x. split_and!; [done|by rewrite <-level_at_next|right].
    rewrite next_level_length in Hh. pose proof (Nat.div_mod_eq (length l + 1) 2).
    replace (S h - 1)%nat with h by lia. destruct Hh as [->|Hh]; [simpl; lia|].
    destruct h as [|h]; [simpl; lia|]. replace (S h - 1)%nat with h in Hh by lia.
    rewrite Nat.pow_succ_r'. lia.
Qed.

Lemma merkle_root_top leaves :
  leaves <> [] ->
  exists h x, merkle_root_from_leaves leaves = Some x /\ level_at leaves h = [x] /\
    (h = 0 \/ 2 ^ (h - 1) < length leaves)%nat.
Proof.
  intros Hne. destruct leaves as [|l leaves]; [done|].
  apply root_loop_top; [simpl; lia|done].
Qed.

(** ** Honest paths *)

Lemma climb_cons leaf idx s sibs :
  climb leaf idx (s :: sibs) =
  climb (if Z.even idx then node_hash leaf s else node_hash s leaf) (idx / 2) sibs.
Proof. done. Qed.

Lemma parity_of_nat i : Z.even (Z.of_nat i) = Nat.even i.
Proof.
  destruct (Nat.Even_or_Odd i) as [[q ->]|[q ->]].
  - rewrite (proj2 (Nat.even_spec _)) by (by eexists). apply Z.even_spec. exists (Z.of_nat q). lia.
  - rewrite Nat.even_odd. rewrite <-Z.negb_odd. rewrite (proj2 (Z.odd_spec _)); [done|].
    exists (Z.of_nat q). lia.
Qed.

Lemma path_loop_climbs fuel l idx d :
  (length l <= fuel)%nat -> l !! idx = Some d ->
  exists sibs, path_loop fuel l idx = Some sibs /\ Some (climb d (Z.of_nat idx) sibs).1 = root_loop fuel l.
Proof.
  revert l idx d; induction fuel as [|fuel IH]; intros l idx d Hf Hd;
    pose proof (lookup_lt_Some _ _ _ Hd) as Hlt; [lia|].
  cbn [path_loop root_loop]. destruct (Nat.leb_spec (length l) 1) as [Hle|Hgt].
  - exists []. split; [done|]. assert (idx = 0%nat) as -> by lia. by rewrite Hd.
  - pose proof (next_level_shrinks l ltac:(lia)) as Hsh. pose proof (pad_even_prefix l idx d Hd) as Hp.
    pose proof (Nat.div_mod_eq idx 2) as Hdm. pose proof (Nat.mod_upper_bound idx 2 ltac:(lia)) as Hub.
    assert (Hlen : (idx / 2 < length (next_level l))%nat).
    { rewrite next_level_length. pose proof (Nat.div_mod_eq (length l + 1) 2).
      pose proof (Nat.mod_upper_bound (length l + 1) 2 ltac:(lia)). lia. }
    destruct (lookup_lt_is_Some_2 _ _ Hlen) as [x Hx]. pose proof Hx as Hx'.
    unfold next_level in Hx'. apply pair_chunks_lookup in Hx' as (a & b & -> & Ha & Hb).
    destruct (IH (next_level l) (idx / 2)%nat _ ltac:(lia) Hx) as (sibs & Hs & Hr).
    replace (Z.of_nat (idx / 2)) with (Z.of_nat idx / 2) in Hr by (rewrite Nat2Z.inj_div; done).
    destruct (Nat.Even_or_Odd idx) as [[q Hq]|[q Hq]].
    + assert (He : Nat.even idx = true) by (apply Nat.even_spec; by exists q). rewrite He.
      assert (idx / 2 = q)%nat as Hiq by lia. rewrite Hiq in *.
      replace (2 * q)%nat with idx in Ha by lia. replace (2 * q + 1)%nat with (idx + 1)%nat in Hb by lia.
      rewrite Hb. cbn [mbind option_bind]. rewrite Hs. cbn [fmap option_fmap option_map].
      exists (b :: sibs). split; [done|]. rewrite climb_cons, parity_of_nat, He.
      assert (a = d) as -> by congruence. done.
    + assert (He : Nat.even idx = false).
      { rewrite <-Nat.negb_odd. by rewrite (proj2 (Nat.odd_spec idx)) by (by exists q). }
      rewrite He. assert (idx / 2 = q)%nat as Hiq by lia. rewrite Hiq in *.
      replace (2 * q)%nat with (idx - 1)%nat in Ha by lia. replace (2 * q + 1)%nat with idx in Hb by lia.
      rewrite Ha. cbn [mbind option_bind]. rewrite Hs. cbn [fmap option_fmap option_map].
      exists (a :: sibs). split; [done|]. rewrite climb_cons, parity_of_nat, He.
      assert (b = d) as -> by congruence. done.
Qed.

Lemma merkle_path_climbs leaves idx d :
  leaves !! idx = Some d ->
  exists sibs, merkle_path leaves idx = Some sibs /\
    Some (climb d (Z.of_nat idx) sibs).1 = merkle_root_from_leaves leaves.
Proof.
  intros Hd. destruct (path_loop_climbs (length leaves) leaves idx d (Nat.le_refl _) Hd) as (sibs & Hs & Hr).
  exists sibs. split.
  - unfold merkle_path. destruct (Nat.leb_spec (length leaves) 1) as [Hle|]; [|done].
    destruct leaves as [|a [|b l]]; cbn in Hs; [done|done|simpl in Hle; lia].
  - rewrite Hr. by destruct leaves.
Qed.
End Levels.

(** ** Paths bind positions

    Under collision resistance, and as long as no message hashes to the zero
    block that pads the levels, whatever climbs to the root of a tree is the
    leaf at the position its index spells. *)

Section Binding.
Context `{HB : Blake3} (HCR : Blake3CR HB).
Hypothesis no_zero : forall c x, blake3_derive_key c x <> zero32.

Lemma node_hash_inj a b c d :
  length a = length c \/ length b = length d -> node_hash a b = node_hash c d -> a = c /\ b = d.
Proof using HCR.
  intros Hl E. apply blake3_derive_key_inj in E as [_ E].
  destruct Hl; [by apply app_inj_1|by apply app_inj_2].
Qed.

Lemma leaf_not_node x a b : leaf_hash x <> node_hash a b.
Proof using HCR. intros E. apply blake3_derive_key_inj in E as [E _]. discriminate E. Qed.

Definition is_digest (d : bytes) : Prop := exists c x, d = blake3_derive_key c x.

Lemma digest_length d : is_digest d -> length d = 32%nat.
Proof using HCR. intros (c & x & ->). apply length_blake3_derive_key. Qed.

Lemma climb_digest d idx sibs : is_digest d -> is_digest (climb d idx sibs).1.
Proof.
  revert d idx; induction sibs as [|s sibs IH]; intros d idx Hd; [done|]. rewrite climb_cons. apply IH.
  destruct (Z.even idx); by do 2 eexists.
Qed.

Lemma climb_snoc d idx sibs s :
  0 <= idx ->
  (climb d idx (sibs ++ [s])).1 =
    (if Z.even (idx / 2 ^ Z.of_nat (length sibs)) then node_hash (climb d idx sibs).1 s
     else node_hash s (climb d idx sibs).1).
Proof.
  intros H0. assert (Hidx : (climb d idx sibs).2 = idx / 2 ^ Z.of_nat (length sibs)).
  { revert d idx H0. clear. induction sibs as [|t sibs IH]; intros d idx H0.
    - cbn. by rewrite Z.div_1_r.
    - rewrite climb_cons, IH by (by apply Z.div_pos). cbn [length].
      rewrite Nat2Z.inj_succ, Z.pow_succ_r, Z.div_div by lia. done. }
  unfold climb in *. rewrite foldl_app. cbn [foldl]. unfold climb_step at 1. cbn [fst]. by rewrite Hidx.
Qed.

Lemma level_lengths keys h a : a ∈ level_at (map leaf_hash keys) h -> length a = 32%nat.
Proof using HCR.
  intros Ha. apply list_elem_of_lookup in Ha as (i & Hi). destruct h as [|h].
  - change (level_at (map leaf_hash keys) 0) with (leaf_hash <$> keys) in Hi.
    apply list_lookup_fmap_Some in Hi as (x & -> & _). apply length_blake3_derive_key.
  - rewrite level_at_S in Hi. apply pair_chunks_lookup in Hi as (x & y & -> & _).
    apply length_blake3_derive_key.
Qed.

Lemma bit_split x m : 0 <= x -> 0 <= m ->
  x mod 2 ^ (m + 1) = (if Z.even (x / 2 ^ m) then 0 else 1) * 2 ^ m + x mod 2 ^ m.
Proof.
  intros Hx Hm. rewrite Z.pow_add_r by lia. change (2 ^ 1) with 2.
  rewrite Z.rem_mul_r by lia. rewrite Z.mul_comm with (n := 2 ^ m).
  pose proof (Zmod_even (x / 2 ^ m)) as E. rewrite E. destruct (Z.even (x / 2 ^ m)); lia.
Qed.

Lemma padded_lengths keys h i y :
  pad_even (level_at (map leaf_hash keys) h) !! i = Some y -> length y = 32%nat.
Proof using HCR.
  intros Hy. apply pad_even_lookup in Hy as [Hy| ->]; [|done].
  eapply level_lengths, list_elem_of_lookup_2, Hy.
Qed.

(** The child a climb came from is a node of the level below. *)
Lemma child_of_node keys h j c s (left : bool) :
  is_digest c ->
  level_at (map leaf_hash keys) (S h) !! j = Some (if left then node_hash c s else node_hash s c) ->
  level_at (map leaf_hash keys) h !! (2 * j + if left then 0 else 1)%nat = Some c.
Proof using HCR no_zero.
  intros Hc Hj. rewrite level_at_S in Hj. apply pair_chunks_lookup in Hj as (a & b & E & Ha & Hb).
  assert (Hin : forall i, pad_even (level_at (map leaf_hash keys) h) !! i = Some c ->
                  level_at (map leaf_hash keys) h !! i = Some c).
  { intros i Hi. apply pad_even_lookup in Hi as [?|Hz]; [done|].
    destruct Hc as (cx & x & Ec). rewrite Ec in Hz. by apply no_zero in Hz. }
  destruct left; apply Hin.
  - rewrite Nat.add_0_r. apply node_hash_inj in E as [-> _]; [done|].
    left. rewrite (digest_length c Hc). symmetry. by eapply padded_lengths.
  - apply node_hash_inj in E as [_ ->]; [done|].
    right. rewrite (digest_length c Hc). symmetry. by eapply padded_lengths.
Qed.

(** What an accepted climb to a node of the tree says. *)
Lemma climb_binds keys e idx sibs h j :
  0 <= idx -> level_at (map leaf_hash keys) h !! j = Some (climb (leaf_hash e) idx sibs).1 ->
  length sibs = h /\
  keys !! Z.to_nat (Z.of_nat j * 2 ^ Z.of_nat h + idx mod 2 ^ Z.of_nat h) = Some e.
Proof using HCR no_zero.
  intros H0. revert h j. induction sibs as [|s sibs IH] using rev_ind; intros h j Hj.
  - destruct h as [|h].
    + split; [done|]. change (level_at (map leaf_hash keys) 0) with (leaf_hash <$> keys) in Hj.
      apply list_lookup_fmap_Some in Hj as (x & E & Hx). apply blake3_derive_key_inj in E as [_ <-].
      rewrite Z.pow_0_r, Z.mod_1_r, Z.mul_1_r, Z.add_0_r, Nat2Z.id. done.
    + rewrite level_at_S in Hj. apply pair_chunks_lookup in Hj as (a & b & E & _). by apply leaf_not_node in E.
  - rewrite climb_snoc in Hj by done. destruct h as [|h].
    + change (level_at (map leaf_hash keys) 0) with (leaf_hash <$> keys) in Hj.
      apply list_lookup_fmap_Some in Hj as (x & E & Hx).
      destruct (Z.even _); symmetry in E; by apply leaf_not_node in E.
    + apply child_of_node in Hj; [|apply climb_digest; by do 2 eexists].
      destruct (IH h _ Hj) as [<- Hk].
      split; [rewrite length_app; simpl; lia|]. rewrite <-Hk. do 2 f_equal.
      replace (Z.of_nat (S (length sibs))) with (Z.of_nat (length sibs) + 1) by lia.
      rewrite bit_split by lia. rewrite Z.pow_add_r by lia. change (2 ^ 1) with 2.
      destruct (Z.even _); lia.
Qed.

(** An accepted membership proof names the element at its index, counted modulo
    the width of the tree. *)
Lemma verified_member keys root h p :
  level_at (map leaf_hash keys) h = [root] -> 0 <= mp_index p -> verify_membership_proof p root = true ->
  keys !! Z.to_nat (mp_index p mod 2 ^ Z.of_nat h) = Some (mp_element p).
Proof using HCR no_zero.
  intros Htop H0 Hv. apply bool_decide_eq_true in Hv. rewrite <-Hv in Htop.
  destruct (climb_binds keys (mp_element p) (mp_index p) (mp_siblings p) h 0 H0) as [_ Hk].
  { by rewrite Htop. }
  by rewrite Z.mul_0_l, Z.add_0_l in Hk.
Qed.
End Binding.

(** ** Sorted keys *)

Lemma set_len_bound s : set_ok s -> Z.of_nat (as_len s) <= as_next_seq s.
Proof.
  intros Hs. unfold as_len. rewrite <-(length_fmap (fun e => rec_seq e.2) (as_map s)).
  pose proof (max_next_above (as_map s)) as Hab. rewrite <-(so_next _ Hs), Forall_forall in Hab.
  pose proof (so_low _ Hs) as Hlo. rewrite Forall_forall in Hlo.
  pose proof (max_next_nonneg (as_map s)) as H0. rewrite <-(so_next _ Hs) in H0.
  assert (Hsub : (fun e => rec_seq e.2) <$> as_map s ⊆+ seqZ 0 (as_next_seq s)).
  { apply NoDup_submseteq; [apply (so_seqs _ Hs)|]. intros q (e & -> & He)%list_elem_of_fmap.
    apply elem_of_seqZ. specialize (Hab e He). specialize (Hlo e He). simpl in *. lia. }
  apply submseteq_length in Hsub. rewrite length_seqZ in Hsub. lia.
Qed.

Lemma as_iter_sorted s : set_ok s -> StronglySorted (key_lt key_ord) (as_iter s).
Proof.
  intros Hs. pose proof (so_map _ Hs) as Hm. unfold bt_ok in Hm.
  apply (proj1 (sorted_keys_fmap _ _)) in Hm. apply (proj2 (sorted_keys_fmap _ _)).
  unfold as_iter. by rewrite <-list_fmap_compose.
Qed.

Lemma sorted_lookup_lt {A} (key : A -> Z) l i j x y :
  StronglySorted (key_lt key) l -> l !! i = Some x -> l !! j = Some y -> (i < j)%nat -> key x < key y.
Proof.
  intros Hs. revert i j. induction Hs as [|a l Hs IH Ha]; intros i j Hi Hj Hlt; [done|].
  destruct j as [|j]; [lia|]. destruct i as [|i]; cbn in Hi, Hj.
  - injection Hi as ->. rewrite Forall_forall in Ha. by apply Ha, (list_elem_of_lookup_2 _ j).
  - eapply IH; [done|done|lia].
Qed.

Lemma sorted_lookup_le {A} (key : A -> Z) l i j x y :
  StronglySorted (key_lt key) l -> l !! i = Some x -> l !! j = Some y -> (i <= j)%nat -> key x <= key y.
Proof.
  intros Hs Hi Hj Hle. destruct (decide (i = j)) as [->|]; [assert (x = y) as -> by congruence; lia|].
  pose proof (sorted_lookup_lt key l i j x y Hs Hi Hj ltac:(lia)). lia.
Qed.

(** The neighbours of an absent key in an ascending row. *)
Lemma partition_point_split l n :
  StronglySorted (key_lt key_ord) l -> Forall (fun k => key_ord k <> key_ord n) l ->
  let i := partition_point (fun k => key_ord k <? key_ord n) l in
  (i <= length l)%nat /\
  (forall j k, l !! j = Some k -> (j < i)%nat -> key_ord k < key_ord n) /\
  (forall j k, l !! j = Some k -> (i <= j)%nat -> key_ord n < key_ord k).
Proof.
  intros Hs Hne. cbv zeta. induction Hs as [|a l Hs IH Ha]; cbn [partition_point].
  - split_and!; [done|done|done].
  - apply Forall_cons in Hne as [Hna Hne]. destruct (IH Hne) as (H1 & H2 & H3).
    destruct (Z.ltb_spec (key_ord a) (key_ord n)).
    + split_and!; [simpl; lia| |].
      * intros [|j] k Hk Hj; cbn in Hk; [by injection Hk as ->|]. eapply H2; [done|lia].
      * intros [|j] k Hk Hj; [lia|]. eapply H3; [done|lia].
    + split_and!; [simpl; lia|intros; lia|]. intros [|j] k Hk _; cbn in Hk.
      * injection Hk as ->. lia.
      * rewrite Forall_forall in Ha. specialize (Ha k (list_elem_of_lookup_2 _ _ _ Hk)).
        unfold key_lt in Ha. lia.
Qed.

Lemma absent_ords s n :
  set_ok s -> key32 n -> as_contains s n = false -> Forall (fun k => key_ord k <> key_ord n) (as_iter s).
Proof.
  intros Hs Hn Hc. apply Forall_forall. intros k Hk E.
  assert (Hk32 : key32 k).
  { apply list_elem_of_fmap in Hk as (e & -> & He). pose proof (so_keys _ Hs) as H1.
    rewrite Forall_forall in H1. by apply H1. }
  rewrite (key_ord_inj k n Hk32 Hn E) in Hk. apply (as_contains_spec s Hs n Hn) in Hk. congruence.
Qed.

Lemma iter_fits s : set_ok s -> Z.of_nat (length (as_iter s)) < 2 ^ 64.
Proof.
  intros Hs. pose proof (set_len_bound s Hs) as Hlen. pose proof (so_u64 _ Hs) as Hu.
  unfold as_iter, as_len, u64_max in *. rewrite length_fmap. lia.
Qed.

Section Honest.
Context `{Blake3}.

Lemma prove_member_verifies sorted i k root :
  sorted !! i = Some k -> merkle_root_from_leaves (map leaf_hash sorted) = Some root ->
  exists p, prove_membership_from_sorted sorted i = Some p /\ mp_element p = k /\
    mp_index p = Z.of_nat i /\ verify_membership_proof p root = true.
Proof.
  intros Hi Hr. destruct (merkle_path_climbs (map leaf_hash sorted) i (leaf_hash k)) as (sibs & Hs & Hc).
  { change (map leaf_hash sorted) with (leaf_hash <$> sorted). by rewrite list_lookup_fmap, Hi. }
  unfold prove_membership_from_sorted. rewrite Hs, Hi. cbn [mbind option_bind].
  eexists. split_and!; [done|done|done|]. apply bool_decide_eq_true.
  cbn [mp_element mp_index mp_siblings]. congruence.
Qed.

Lemma nullifier_root_total s : exists root, nullifier_root s = Some root.
Proof.
  unfold nullifier_root. destruct (as_iter s) as [|k l]; [by exists zero32|].
  destruct (merkle_root_top (map leaf_hash (k :: l))) as (h & x & Hx & _); [done|]. by exists x.
Qed.

(** The proof the set gives for one side. *)
Lemma neighbor_verifies sorted root (present : bool) i :
  merkle_root_from_leaves (map leaf_hash sorted) = Some root ->
  (present = true -> exists k, sorted !! i = Some k) ->
  exists q, (if present then Some <$> prove_membership_from_sorted sorted i else Some None) = Some q /\
    verify_neighbor (if present then sorted !! i else None) q root = true /\
    (forall p, q = Some p -> present = true /\ mp_index p = Z.of_nat i).
Proof.
  intros Hr Hp. destruct present; [|by exists None].
  destruct (Hp eq_refl) as [k Hk]. destruct (prove_member_verifies sorted i k root Hk Hr) as (p & -> & E & Hi & Hv).
  exists (Some p). split; [done|]. split; [|by intros ? [= <-]]. rewrite Hk. cbn. rewrite Hv.
  by rewrite bool_decide_eq_true_2 by done.
Qed.
End Honest.

(** ** Properties *)

(** An unspent note has a proof.  For every history of the nullifier set and
    every nullifier, a spent one has no non-membership proof, and an unspent one
    has one, made without an index out of range, which the verifier accepts
    against the root of the set. *)
Theorem unspent_is_provable `{Blake3} (dup : bytes -> NoteError) (s : NullifierSet) (n : bytes) :
  set_reach dup s -> key32 n ->
  (as_contains s n = true -> prove_non_membership s n = Some None) /\
  (as_contains s n = false ->
     exists p root, prove_non_membership s n = Some (Some p) /\ nm_absent p = n /\
       nullifier_root s = Some root /\ verify_non_membership p root = true).
Proof.
  intros Hr Hn. pose proof (reach_ok _ _ Hr) as Hs. unfold prove_non_membership.
  split; intros Hc; rewrite Hc; [done|]. cbv zeta.
  destruct (nullifier_root_total s) as [root Hroot]. unfold nullifier_root in Hroot.
  destruct (partition_point_split (as_iter s) n (as_iter_sorted s Hs) (absent_ords s n Hs Hn Hc))
    as (Hle & Hlo & Hhi).
  pose proof (iter_fits s Hs) as Hfit. set (sorted := as_iter s) in *.
  set (i := partition_point _ sorted) in *.
  destruct (neighbor_verifies sorted root (0 <? i)%nat (i - 1) Hroot) as (ql & -> & Hl & Hli).
  { intros Hi%Nat.ltb_lt. apply lookup_lt_is_Some_2. lia. }
  destruct (neighbor_verifies sorted root (i <? length sorted)%nat i Hroot) as (qr & -> & Hr' & Hri).
  { intros Hi%Nat.ltb_lt. by apply lookup_lt_is_Some_2. }
  cbn [mbind option_bind]. unfold nullifier_root. fold sorted. rewrite Hroot. cbn [mbind option_bind].
  eexists _, root. split; [done|]. split; [done|]. split; [done|].
  unfold verify_non_membership. cbn [nm_root nm_left_neighbor nm_right_neighbor nm_absent nm_left_proof nm_right_proof].
  rewrite Hl, Hr', bool_decide_eq_true_2 by done. cbn [andb].
  assert (H1 : match (if (0 <? i)%nat then sorted !! (i - 1)%nat else None) with
               | Some l => key_ord l <? key_ord n | None => true end = true).
  { destruct (Nat.ltb_spec 0 i); [|done]. destruct (sorted !! (i - 1)%nat) as [k|] eqn:E; [|done].
    apply Z.ltb_lt. eapply Hlo; [done|lia]. }
  assert (H2 : match (if (i <? length sorted)%nat then sorted !! i else None) with
               | Some r => key_ord n <? key_ord r | None => true end = true).
  { destruct (i <? length sorted)%nat; [|done]. destruct (sorted !! i) as [k|] eqn:E; [|done].
    apply Z.ltb_lt. eapply Hhi; [done|lia]. }
  rewrite H1, H2. cbn [andb]. unfold adjacent. destruct ql as [pl|], qr as [pr|]; try done.
  destruct (Hli pl eq_refl) as [Hpos ->]. destruct (Hri pr eq_refl) as [_ ->].
  apply Nat.ltb_lt in Hpos. apply Z.eqb_eq.
  rewrite Z.mod_small; lia.
Qed.

Lemma unspent_is_provable_witness :
  set_reach DoubleSpend sample_set /\ key32 (sample_key 5) /\
  exists p root, prove_non_membership (H := model_blake3) sample_set (sample_key 5) = Some (Some p) /\
    nullifier_root (H := model_blake3) sample_set = Some root /\
    verify_non_membership (H := model_blake3) p root = true.
Proof.
  pose proof (sample_reach DoubleSpend) as Hr.
  assert (H5 : key32 (sample_key 5)) by (by apply sample_key32).
  split; [exact Hr|]. split; [exact H5|].
  destruct (unspent_is_provable (H := model_blake3) DoubleSpend sample_set (sample_key 5) Hr H5) as [_ Hp].
  destruct (Hp eq_refl) as (p & root & E1 & _ & E2 & E3).
  exists p, root. split; [exact E1|]. split; [exact E2|exact E3].
Defined.

(** Successive indices name successive positions, or the last and the first. *)
Lemma successive_positions i h :
  0 <= i < 2 ^ 64 -> 0 <= h <= 64 ->
  let a := i mod 2 ^ h in let b := ((i + 1) mod 2 ^ 64) mod 2 ^ h in b = a + 1 \/ b = 0.
Proof.
  intros Hi Hh a b. assert (Hdiv : (2 ^ h | 2 ^ 64)).
  { exists (2 ^ (64 - h)). rewrite <-Z.pow_add_r by lia. f_equal. lia. }
  assert (Hp : 0 < 2 ^ h) by (apply Z.pow_pos_nonneg; lia).
  assert (Hb : b = (i + 1) mod 2 ^ h).
  { unfold b. destruct Hdiv as [q Hq]. rewrite Hq.
    rewrite (Z.mod_eq (i + 1) (q * 2 ^ h)) by (rewrite <-Hq; lia).
    rewrite <-(Z_mod_plus_full (i + 1) (- (q * ((i + 1) / (q * 2 ^ h))))). f_equal. lia. }
  rewrite Hb. unfold a. pose proof (Z.mod_pos_bound i (2 ^ h) Hp) as Ha.
  destruct (decide (i mod 2 ^ h + 1 = 2 ^ h)) as [E|E].
  - right. rewrite <-(Zplus_mod_idemp_l i). rewrite E. by apply Z_mod_same_full.
  - left. rewrite <-(Zplus_mod_idemp_l i). apply Z.mod_small. lia.
Qed.

(** C34: a two-sided proof is sound.  Under collision resistance, and as long as no
    message hashes to the zero block, a proof that names both neighbours and is
    accepted against the root of the set shows that its nullifier is not in the
    set, whoever made it: the two elements stand at successive positions, and
    nothing lies between them. *)
Theorem two_sided_proof_sound `{HB : Blake3} (dup : bytes -> NoteError) (s : NullifierSet)
    (p : NonMembershipProof) (root l r : bytes) (pl pr : MerkleMembershipProof) :
  Blake3CR HB -> (forall c x, blake3_derive_key c x <> zero32) ->
  set_reach dup s -> key32 (nm_absent p) -> nullifier_root s = Some root ->
  nm_left_neighbor p = Some l -> nm_right_neighbor p = Some r ->
  nm_left_proof p = Some pl -> nm_right_proof p = Some pr -> is_u64 (mp_index pl) ->
  verify_non_membership p root = true -> as_contains s (nm_absent p) = false.
Proof.
  intros HCR Hz Hr Hk Hroot El Er Epl Epr Hidx Hv. pose proof (reach_ok _ _ Hr) as Hs.
  unfold verify_non_membership in Hv. rewrite El, Er, Epl, Epr in Hv. cbn [verify_neighbor adjacent] in Hv.
  rewrite !andb_true_iff, !bool_decide_eq_true, !Z.ltb_lt, Z.eqb_eq in Hv.
  destruct Hv as (((((_ & Hl) & Hrr) & Eel & Hvl) & Eer & Hvr) & Hadj).
  destruct (as_contains s (nm_absent p)) eqn:Hc; [|done]. exfalso.
  apply (as_contains_spec s Hs _ Hk) in Hc. apply list_elem_of_lookup in Hc as (m & Hm).
  unfold is_u64, u64_max in Hidx. unfold nullifier_root in Hroot.
  destruct (merkle_root_top (map leaf_hash (as_iter s))) as (h & x & Hx & Htop & Hh).
  { by destruct (as_iter s). }
  assert (x = root) as -> by congruence.
  assert (Hh64 : 0 <= Z.of_nat h <= 64).
  { split; [lia|]. destruct Hh as [->|Hh]; [lia|]. rewrite length_map in Hh. pose proof (iter_fits s Hs) as Hf.
    assert (2 ^ Z.of_nat (h - 1) < 2 ^ 64) as Hpow.
    { rewrite <-(Nat2Z.inj_pow 2). lia. }
    apply Z.pow_lt_mono_r_iff in Hpow; lia. }
  pose proof (verified_member HCR Hz (as_iter s) root h pl Htop ltac:(lia) Hvl) as Pl.
  assert (Hir : 0 <= mp_index pr) by (rewrite Hadj; by apply Z.mod_pos_bound).
  pose proof (verified_member HCR Hz (as_iter s) root h pr Htop Hir Hvr) as Pr.
  rewrite Eel in Pl. rewrite Eer in Pr. rewrite Hadj in Pr.
  pose proof (as_iter_sorted s Hs) as Hsort.
  pose proof (Z.mod_pos_bound (mp_index pl) (2 ^ Z.of_nat h) ltac:(apply Z.pow_pos_nonneg; lia)) as Ba.
  destruct (successive_positions (mp_index pl) (Z.of_nat h) ltac:(lia) Hh64) as [Eb|Eb]; rewrite Eb in Pr.
  - set (a := Z.to_nat (mp_index pl mod 2 ^ Z.of_nat h)) in *.
    replace (Z.to_nat (mp_index pl mod 2 ^ Z.of_nat h + 1)) with (S a) in Pr by (unfold a; lia).
    destruct (decide (m <= a)%nat) as [Hma|Hma].
    + pose proof (sorted_lookup_le key_ord _ _ _ _ _ Hsort Hm Pl Hma). lia.
    + pose proof (sorted_lookup_le key_ord _ _ _ _ _ Hsort Pr Hm ltac:(lia)). lia.
  - pose proof (sorted_lookup_le key_ord _ _ _ _ _ Hsort Pr Pl ltac:(lia)). lia.
Qed.

Lemma model_no_zero c x : blake3_derive_key (Blake3 := model_blake3) c x <> zero32.
Proof. cbn. unfold model_digest, zero32. discriminate. Qed.

Lemma two_sided_proof_sound_witness :
  set_reach DoubleSpend sample_set /\
  exists p root pl pr, nullifier_root (H := model_blake3) sample_set = Some root /\
    nm_left_neighbor p = Some (sample_key 3) /\ nm_right_neighbor p = Some (sample_key 9) /\
    nm_left_proof p = Some pl /\ nm_right_proof p = Some pr /\
    verify_non_membership (H := model_blake3) p root = true /\
    as_contains sample_set (nm_absent p) = false.
Proof.
  pose proof (sample_reach DoubleSpend) as Hr. split; [exact Hr|].
  destruct (nullifier_root_total (H := model_blake3) sample_set) as [root Hroot].
  destruct (prove_member_verifies (H := model_blake3) (as_iter sample_set) 0 (sample_key 3) root eq_refl Hroot)
    as (pl & _ & El & Il & Vl).
  destruct (prove_member_verifies (H := model_blake3) (as_iter sample_set) 1 (sample_key 9) root eq_refl Hroot)
    as (pr & _ & Er & Ir & Vr).
  set (p := mkNonMember (sample_key 5) (Some (sample_key 3)) (Some (sample_key 9)) (Some pl) (Some pr) root).
  assert (Hv : verify_non_membership (H := model_blake3) p root = true).
  { unfold verify_non_membership, p. cbn [nm_root nm_left_neighbor nm_right_neighbor nm_absent nm_left_proof nm_right_proof].
    cbn [verify_neighbor adjacent]. rewrite Vl, Vr, Il, Ir, !bool_decide_eq_true_2 by done. reflexivity. }
  exists p, root, pl, pr. repeat (split; [done|]).
  apply (two_sided_proof_sound (HB := model_blake3) DoubleSpend sample_set p root (sample_key 3) (sample_key 9) pl pr).
  - apply model_blake3_cr.
  - apply model_no_zero.
  - exact Hr.
  - by apply sample_key32.
  - exact Hroot.
  - reflexivity.
  - reflexivity.
  - reflexivity.
  - reflexivity.
  - rewrite Il. split; done.
  - exact Hv.
Defined.

(** ** Where the verifier is silent *)

Definition empty_proof (n root : bytes) : NonMembershipProof := mkNonMember n None None None None root.

(** A proof that names no neighbour is accepted for every nullifier and every
    root.  So the verifier alone does not show that a note is unspent: for a
    spent nullifier the set gives no proof, and yet one is accepted against the
    root of the set. *)
Theorem one_sided_proof_forgeable `{Blake3} (s : NullifierSet) (n root : bytes) :
  as_contains s n = true -> nullifier_root s = Some root ->
  prove_non_membership s n = Some None /\ verify_non_membership (empty_proof n root) root = true.
Proof.
  intros Hc _. split; [unfold prove_non_membership; by rewrite Hc|].
  unfold verify_non_membership, empty_proof. cbn. by rewrite bool_decide_eq_true_2.
Qed.

Lemma one_sided_proof_forgeable_witness :
  exists root, nullifier_root (H := model_blake3) sample_set = Some root /\
    as_contains sample_set (sample_key 9) = true /\
    verify_non_membership (H := model_blake3) (empty_proof (sample_key 9) root) root = true.
Proof.
  destruct (nullifier_root_total (H := model_blake3) sample_set) as [root Hroot].
  exists root. split; [exact Hroot|]. split; [reflexivity|].
  apply (one_sided_proof_forgeable (H := model_blake3) sample_set (sample_key 9) root eq_refl Hroot).
Defined.
