(* ===== verification/Channels.v ===== *)
(** * Revocation channels

    Models [cell/src/revocation_channel.rs]: circuit breakers that a revoker
    trips and that gate the exercise of capabilities. *)

From stdpp Require Import base decidable option list gmap strings relations.
From Stdlib Require Import ZArith Lia.
From S2P Require Import Prelude Derivation Lifecycle.

Open Scope Z_scope.

Abbreviation ChannelId := bytes.

Inductive ChannelState : Type :=
| Active
| Tripped (reason : bytes) (tripped_at : Z).

Definition is_active (s : ChannelState) : bool := match s with Active => true | Tripped _ _ => false end.
Definition is_tripped (s : ChannelState) : bool := match s with Active => false | Tripped _ _ => true end.

Record RevocationChannel : Type := mkChannel {
  channel_id : ChannelId;
  revoker : CellId;
  ch_state : ChannelState;
  subscribers : list CellId;
  created_at : Z;
}.

Inductive RevocationChannelError : Type :=
| NotAuthorized (caller revoker : CellId)
| AlreadyTripped (id : ChannelId)
| ChannelNotFound (id : ChannelId)
| ChannelAlreadyExists (id : ChannelId)
| ChannelTripped (id : ChannelId) (tripped_at : Z)
| StaleChannelCheck (id : ChannelId) (last_checked_at max_staleness now : Z).

Definition derive_channel_id `{Blake3} (revoker : CellId) (nonce : Z) : ChannelId :=
  blake3_hash (str_bytes "dregg-revocation-channel" ++ revoker ++ le_bytes 8 nonce).

Definition channel_new `{Blake3} (revoker : CellId) (nonce created_at : Z) : RevocationChannel :=
  mkChannel (derive_channel_id revoker nonce) revoker Active [] created_at.

Definition trip (c : RevocationChannel) (caller : CellId) (reason : bytes) (at_height : Z)
    : result RevocationChannel RevocationChannelError :=
  if negb (bool_decide (caller = revoker c)) then Err (NotAuthorized caller (revoker c))
  else if is_tripped (ch_state c) then Err (AlreadyTripped (channel_id c))
  else Ok (mkChannel (channel_id c) (revoker c) (Tripped reason at_height) (subscribers c) (created_at c)).

Definition subscribe (c : RevocationChannel) (cell : CellId) : RevocationChannel :=
  if bool_decide (cell ∈ subscribers c) then c
  else mkChannel (channel_id c) (revoker c) (ch_state c) (subscribers c ++ [cell]) (created_at c).

Definition unsubscribe (c : RevocationChannel) (cell : CellId) : RevocationChannel :=
  mkChannel (channel_id c) (revoker c) (ch_state c)
    (retain (fun s => negb (bool_decide (s = cell))) (subscribers c)) (created_at c).

(** ** The set *)

Abbreviation RevocationChannelSet := (gmap ChannelId RevocationChannel).

Definition register (s : RevocationChannelSet) (c : RevocationChannel)
    : RevocationChannelSet * result ChannelId RevocationChannelError :=
  match s !! channel_id c with
  | Some _ => (s, Err (ChannelAlreadyExists (channel_id c)))
  | None => (<[channel_id c := c]> s, Ok (channel_id c))
  end.

Definition is_channel_active (s : RevocationChannelSet) (id : ChannelId) : bool :=
  match s !! id with Some c => is_active (ch_state c) | None => false end.

Definition check_exercise_permitted (s : RevocationChannelSet) (id : ChannelId)
    (now last_checked_at max_staleness : Z) : result unit RevocationChannelError :=
  match s !! id with
  | None => Err (ChannelTripped id 0)
  | Some c =>
      match ch_state c with
      | Active =>
          let stale := Err (StaleChannelCheck id last_checked_at max_staleness now) in
          if max_staleness =? 0 then (if last_checked_at <? now then stale else Ok tt)
          else if max_staleness <? saturating_sub now last_checked_at then stale
          else Ok tt
      | Tripped _ tripped_at => Err (ChannelTripped id tripped_at)
      end
  end.

Definition trip_channel (s : RevocationChannelSet) (id : ChannelId) (caller : CellId)
    (reason : bytes) (at_height : Z) : RevocationChannelSet * result unit RevocationChannelError :=
  match s !! id with
  | None => (s, Err (ChannelNotFound id))
  | Some c =>
      match trip c caller reason at_height with
      | Ok c' => (<[id := c']> s, Ok tt)
      | Err e => (s, Err e)
      end
  end.

Definition subscribe_channel (s : RevocationChannelSet) (id : ChannelId) (cell : CellId)
    : RevocationChannelSet * result unit RevocationChannelError :=
  match s !! id with
  | None => (s, Err (ChannelNotFound id))
  | Some c => (<[id := subscribe c cell]> s, Ok tt)
  end.

Definition remove_channel (s : RevocationChannelSet) (id : ChannelId)
    : RevocationChannelSet * option RevocationChannel :=
  (delete id s, s !! id).

(** ** A trip is final, and only the revoker's *)

(** The calls a running system makes on the set, removal apart. *)
Inductive channel_step : RevocationChannelSet -> RevocationChannelSet -> Prop :=
| step_register s c : channel_step s (register s c).1
| step_trip s id caller reason h : channel_step s (trip_channel s id caller reason h).1
| step_subscribe s id cell : channel_step s (subscribe_channel s id cell).1.

Definition tripped_at_in (s : RevocationChannelSet) (id : ChannelId) (h : Z) : Prop :=
  exists c reason, s !! id = Some c /\ ch_state c = Tripped reason h.

Lemma tripped_step s s' id h : channel_step s s' -> tripped_at_in s id h -> tripped_at_in s' id h.
Proof.
  intros Hstep (c & r & Hc & Ht). unfold tripped_at_in.
  destruct Hstep as [s c'|s j caller reason k|s j cell];
    unfold register, trip_channel, subscribe_channel.
  - destruct (s !! channel_id c') eqn:E; cbn [fst]; [by exists c, r|].
    exists c, r. rewrite lookup_insert_ne by congruence. done.
  - destruct (s !! j) as [d|] eqn:E; cbn [fst]; [|by exists c, r].
    destruct (decide (j = id)) as [->|Hne].
    + simplify_eq. unfold trip. rewrite Ht. destruct (negb _); cbn [is_tripped fst]; by exists c, r.
    + destruct (trip d caller reason k); cbn [fst]; exists c, r; [by rewrite lookup_insert_ne|done].
  - destruct (s !! j) as [d|] eqn:E; cbn [fst]; [|by exists c, r].
    destruct (decide (j = id)) as [->|Hne].
    + simplify_eq. exists (subscribe c cell), r. rewrite lookup_insert_eq. split; [done|].
      unfold subscribe. by destruct (bool_decide _).
    + exists c, r. by rewrite lookup_insert_ne.
Qed.

(** A trip succeeds for the revoker of an active channel and nobody else, and
    from then on, whatever is registered, subscribed or tripped, every check of
    the channel reports the trip at its height, at any time and with any
    staleness allowance; no later trip moves that height. *)
Theorem trip_is_final (s s' : RevocationChannelSet) (id : ChannelId) (caller : CellId)
    (reason : bytes) (h now last stale : Z) :
  (trip_channel s id caller reason h).2 = Ok tt ->
  rtc channel_step (trip_channel s id caller reason h).1 s' ->
  (exists c, s !! id = Some c /\ revoker c = caller /\ is_active (ch_state c) = true) /\
  check_exercise_permitted s' id now last stale = Err (ChannelTripped id h) /\
  is_channel_active s' id = false.
Proof.
  unfold trip_channel. destruct (s !! id) as [c|] eqn:E; [|done]. unfold trip.
  destruct (bool_decide (caller = revoker c)) eqn:Hcr; [|done].
  apply bool_decide_eq_true in Hcr as ->. cbn [negb].
  destruct (ch_state c) as [|rs ta] eqn:Es; [|done]. cbn [is_tripped fst]. intros _ Hsteps.
  split; [exists c; by rewrite Es|].
  assert (Ht : tripped_at_in s' id h).
  { assert (H0 : tripped_at_in (<[id := mkChannel (channel_id c) (revoker c) (Tripped reason h)
        (subscribers c) (created_at c)]> s) id h) by (eexists _, reason; by rewrite lookup_insert_eq).
    revert H0. clear -Hsteps. induction Hsteps as [|x y z Hxy _ IH]; [done|].
    intros Hx. apply IH. by eapply tripped_step. }
  destruct Ht as (d & r & Hd & Hds). unfold check_exercise_permitted, is_channel_active.
  by rewrite Hd, Hds.
Qed.

#[local] Existing Instance model_blake3.

Definition w_channel : RevocationChannel := channel_new (fill32 1) 7 0.
Definition w_set : RevocationChannelSet := (register ∅ w_channel).1.
Definition w_tripped : RevocationChannelSet :=
  (trip_channel w_set (channel_id w_channel) (fill32 1) zero32 40).1.

Lemma trip_is_final_witness :
  (trip_channel w_set (channel_id w_channel) (fill32 1) zero32 40).2 = Ok tt /\
  check_exercise_permitted (subscribe_channel w_tripped (channel_id w_channel) (fill32 2)).1
    (channel_id w_channel) 41 41 1000 = Err (ChannelTripped (channel_id w_channel) 40).
Proof.
  split; [vm_compute; reflexivity|].
  eapply (trip_is_final w_set _ (channel_id w_channel) (fill32 1) zero32 40 41 41 1000).
  - vm_compute. reflexivity.
  - eapply rtc_once. apply step_subscribe.
Defined.
