(* ===== verification/Journal.v ===== *)
(** * The undo journal of a turn

    Models [turn/src/journal.rs]: the journal that records the previous value of
    everything a turn writes, the write set it yields, and the rollback that
    replays it in reverse; with [BridgedNullifierSet] of
    [cell-crypto/src/note_bridge.rs], one of the sets rollback touches.  The
    executor's state is the ledger, the four sets behind mutexes and the
    journal.  An outer [option] is a panic: the capacity assertion of a tree
    builder, or the [expect] of a fixed-slot entry without its value. *)

From stdpp Require Import base decidable option list gmap sorting strings.
From Stdlib Require Import ZArith Lia.
From S2P Require Import Prelude BabyBear Poseidon2 CapRoot Heap State Permissions Facet.
From S2P Require Import Derivation Capability Lifecycle Cell Migration Merkle Ledger Notes.

Open Scope Z_scope.

(** ** Bridged nullifiers: a sorted vector searched by bisection *)

Fixpoint bn_contains (s : list bytes) (n : bytes) : bool :=
  match s with
  | [] => false
  | x :: s' => bool_decide (x = n) || bn_contains s' n
  end.

Fixpoint bn_place (s : list bytes) (n : bytes) : list bytes :=
  match s with
  | [] => [n]
  | x :: s' => if lex_leb n x then n :: x :: s' else x :: bn_place s' n
  end.

(** The boolean is the absence of [AlreadyBridged]. *)
Definition bn_insert (s : list bytes) (n : bytes) : list bytes * bool :=
  if bn_contains s n then (s, false) else (bn_place s n, true).

Fixpoint bn_drop (s : list bytes) (n : bytes) : list bytes :=
  match s with
  | [] => []
  | x :: s' => if bool_decide (x = n) then s' else x :: bn_drop s' n
  end.

Definition bn_remove (s : list bytes) (n : bytes) : list bytes * bool :=
  if bn_contains s n then (bn_drop s n, true) else (s, false).

(** ** Entries *)

Inductive JournalEntry `{ProgramCodec} : Type :=
| JSetField (cell : CellId) (index : Z) (old_value : option FieldElement)
| JSetBalance (cell : CellId) (old_balance : Z)
| JSetNonce (cell : CellId) (old_nonce : Z)
| JGrantCapability (cell : CellId) (slot : Z)
| JRevokeCapability (cell : CellId) (old_cap : CapabilityRef)
| JCreateCell (cell : CellId)
| JMakeSovereign (cell : Cell)
| JSetProvedState (cell : CellId) (old_value : bool)
| JSetPermissions (cell : CellId) (old_permissions : Permissions)
| JSetVerificationKey (cell : CellId) (old_vk : option VerificationKey)
| JSetProgram (cell : CellId) (old_program : CellProgram)
| JSetDelegation (cell : CellId) (old_delegation : option DelegatedRef)
| JSetDelegationEpoch (cell : CellId) (old_epoch : Z)
| JSetCommittedHeight (cell : CellId) (old_height : Z)
| JNoteSpend
| JNoteCreate
| JEventEmitted (cell : CellId) (topic : bytes) (data : list FieldElement)
| JBridgedNullifierInserted (nullifier : bytes)
| JNoteNullifierInserted (nullifier : bytes)
| JNoteCommitmentInserted (commitment : bytes)
| JRevocationInserted (revocation_key : bytes)
| JSetLifecycle (cell : CellId) (old_lifecycle : CellLifecycle)
| JSetHeap (cell : CellId) (collection key : Z) (old_value : option FieldElement)
| JAttenuateCapability (cell : CellId) (slot : Z) (old_permissions : AuthRequired)
    (old_allowed_effects old_expires_at : option Z).

Record ExecState `{ProgramCodec} : Type := mkExec {
  x_ledger : Ledger;
  x_bridged : list bytes;
  x_nullifiers : AppendSet;
  x_commitments : AppendSet;
  x_revoked : AppendSet;
  x_journal : list JournalEntry;
}.

Arguments mkExec {_} _ _ _ _ _ _.
Arguments x_ledger {_} _.
Arguments x_bridged {_} _.
Arguments x_nullifiers {_} _.
Arguments x_commitments {_} _.
Arguments x_revoked {_} _.
Arguments x_journal {_} _.

(** ** Writes to a cell's fields *)

Definition with_proved_state (s : CellState) (b : bool) : CellState :=
  mkState (fields s) (field_visibility s) (commitments s) (nonce s) (balance s) b
    (delegation_epoch s) (committed_height s) (swiss_table_root s) (refcount_table_root s)
    (fields_root s) (fields_map s) (system_roots s) (heap_root s) (heap_map s) (heap_tree_cache s).

Definition with_committed_height (s : CellState) (h : Z) : CellState :=
  mkState (fields s) (field_visibility s) (commitments s) (nonce s) (balance s) (proved_state s)
    (delegation_epoch s) h (swiss_table_root s) (refcount_table_root s)
    (fields_root s) (fields_map s) (system_roots s) (heap_root s) (heap_map s) (heap_tree_cache s).

Section Journal.
Context `{HB : Blake3} `{HC : ProgramCodec}.

Definition with_verification_key (c : Cell) (vk : option VerificationKey) : Cell :=
  mkCell (c_id c) (c_public_key c) (c_state c) (c_permissions c) vk (c_delegate c)
    (c_delegation c) (c_token_id c) (c_capabilities c) (c_program c) (c_mode c) (c_lifecycle c)
    (c_leaf_cache c).

Definition with_program (c : Cell) (p : CellProgram) : Cell :=
  mkCell (c_id c) (c_public_key c) (c_state c) (c_permissions c) (c_verification_key c)
    (c_delegate c) (c_delegation c) (c_token_id c) (c_capabilities c) p (c_mode c) (c_lifecycle c)
    (c_leaf_cache c).

Definition with_delegation (c : Cell) (d : option DelegatedRef) : Cell :=
  mkCell (c_id c) (c_public_key c) (c_state c) (c_permissions c) (c_verification_key c)
    (c_delegate c) d (c_token_id c) (c_capabilities c) (c_program c) (c_mode c) (c_lifecycle c)
    (c_leaf_cache c).

Definition with_ledger (st : ExecState) (L : Ledger) : ExecState :=
  mkExec L (x_bridged st) (x_nullifiers st) (x_commitments st) (x_revoked st) (x_journal st).

Definition with_bridged (st : ExecState) (s : list bytes) : ExecState :=
  mkExec (x_ledger st) s (x_nullifiers st) (x_commitments st) (x_revoked st) (x_journal st).

Definition with_nullifiers (st : ExecState) (s : AppendSet) : ExecState :=
  mkExec (x_ledger st) (x_bridged st) s (x_commitments st) (x_revoked st) (x_journal st).

Definition with_commitments (st : ExecState) (s : AppendSet) : ExecState :=
  mkExec (x_ledger st) (x_bridged st) (x_nullifiers st) s (x_revoked st) (x_journal st).

Definition with_revoked (st : ExecState) (s : AppendSet) : ExecState :=
  mkExec (x_ledger st) (x_bridged st) (x_nullifiers st) (x_commitments st) s (x_journal st).

(** ** Recording *)

(** Every [record_*] pushes one entry. *)
Definition record (st : ExecState) (es : list JournalEntry) : ExecState :=
  mkExec (x_ledger st) (x_bridged st) (x_nullifiers st) (x_commitments st) (x_revoked st)
    (x_journal st ++ es).

(** The cell an entry names; the note-set entries name none. *)
Definition entry_cell (e : JournalEntry) : option CellId :=
  match e with
  | JSetField cell _ _ | JSetBalance cell _ | JSetNonce cell _ | JGrantCapability cell _
  | JRevokeCapability cell _ | JCreateCell cell | JSetProvedState cell _ | JSetPermissions cell _
  | JSetVerificationKey cell _ | JSetProgram cell _ | JSetDelegation cell _
  | JSetDelegationEpoch cell _ | JSetCommittedHeight cell _ | JEventEmitted cell _ _
  | JSetLifecycle cell _ | JSetHeap cell _ _ _ | JAttenuateCapability cell _ _ _ _ => Some cell
  | JMakeSovereign cell => Some (c_id cell)
  | JNoteSpend | JNoteCreate | JBridgedNullifierInserted _ | JNoteNullifierInserted _
  | JNoteCommitmentInserted _ | JRevocationInserted _ => None
  end.

Definition touch_cell (out : list CellId) (e : JournalEntry) : list CellId :=
  match entry_cell e with
  | Some cell => if bool_decide (cell ∈ out) then out else out ++ [cell]
  | None => out
  end.

(** The distinct cells the entries name, in the order of first touch. *)
Definition touched_cells (entries : list JournalEntry) : list CellId := foldl touch_cell [] entries.

(** ** Rollback *)

(** [usize] is taken at 64 bits. *)
Definition USIZE_BITS : Z := 64.

Definition undo_set_field (s : CellState) (index : Z) (old_value : option FieldElement)
    : option CellState :=
  if index <? Z.of_nat STATE_SLOTS then
    v ← old_value;
    Some (with_fields s (<[Z.to_nat index := v]> (fields s)) (field_visibility s) (commitments s))
  else match old_value with
       | Some v => fst <$> set_field_ext USIZE_BITS s (as_u64 index) v
       | None =>
           reseal_fields_root
             (with_fields_map s (bt_remove id (as_u64 index) (fields_map s)) (fields_root s))
       end.

(** [iter_mut().find(|r| r.slot == slot)] and the three writes. *)
Definition undo_attenuation (s : CapabilitySet) (slot : Z) (p : AuthRequired) (eff exp : option Z)
    : CapabilitySet :=
  let s := invalidate_cap_root_cache s in
  mkCset (update_first (fun r => cap_slot r =? slot) (fun r => narrow_ref r p eff exp) (refs s))
    (next_slot s) (cap_root_cache s) (tombstones s).

(** What the arm of an entry does to the cell it names. *)
Definition undo_cell (e : JournalEntry) (c : Cell) : option Cell :=
  let s := c_state c in
  match e with
  | JSetField _ index old_value => with_state c <$> undo_set_field s index old_value
  | JSetBalance _ b => Some (with_state c (with_balance s b))
  | JSetNonce _ n => Some (with_state c (State.with_nonce s n))
  | JGrantCapability _ slot => Some (with_capabilities c (revoke (c_capabilities c) slot).1)
  | JRevokeCapability _ old_cap => Some (with_capabilities c (restore (c_capabilities c) old_cap))
  | JSetProvedState _ b => Some (with_state c (with_proved_state s b))
  | JSetPermissions _ p => Some (with_permissions c p)
  | JSetVerificationKey _ vk => Some (with_verification_key c vk)
  | JSetProgram _ p => Some (with_program c p)
  | JSetDelegation _ d => Some (with_delegation c d)
  | JSetDelegationEpoch _ ep => Some (with_state c (with_epoch s ep))
  | JSetCommittedHeight _ h => Some (with_state c (with_committed_height s h))
  | JSetLifecycle _ l => Some (with_lifecycle c l)
  | JSetHeap _ coll key (Some v) => with_state c ∘ fst <$> set_heap s coll key v
  | JSetHeap _ coll key None => with_state c ∘ fst <$> remove_heap s coll key
  | JAttenuateCapability _ slot p eff exp =>
      Some (with_capabilities c (undo_attenuation (c_capabilities c) slot p eff exp))
  | _ => Some c
  end.

(** [if let Some(c) = ledger.get_mut(&cell) { .. }]. *)
Definition get_mut_with (L : Ledger) (id : CellId) (f : Cell -> option Cell) : option Ledger :=
  match cells L !! id with
  | Some c => c' ← f (invalidate_leaf_cache c); Some (get_mut L id (fun _ => c'))
  | None => Some (get_mut L id (fun c => c))
  end.

Definition rollback_entry (st : ExecState) (e : JournalEntry) : option ExecState :=
  let L := x_ledger st in
  match e with
  | JCreateCell cell => Some (with_ledger st (remove L cell).1)
  | JMakeSovereign cell => Some (with_ledger st (undo_make_sovereign L cell))
  | JBridgedNullifierInserted n => Some (with_bridged st (bn_remove (x_bridged st) n).1)
  | JNoteNullifierInserted n => Some (with_nullifiers st (as_remove (x_nullifiers st) n).1)
  | JNoteCommitmentInserted n => Some (with_commitments st (as_remove (x_commitments st) n).1)
  | JRevocationInserted n => Some (with_revoked st (as_remove (x_revoked st) n).1)
  | JNoteSpend | JNoteCreate | JEventEmitted _ _ _ => Some st
  | _ =>
      match entry_cell e with
      | Some cell => L' ← get_mut_with L cell (undo_cell e); Some (with_ledger st L')
      | None => Some st
      end
  end.

(** The entries from the last to the first; the journal is consumed. *)
Definition rollback_entries (entries : list JournalEntry) (st : ExecState) : option ExecState :=
  foldr (fun e acc => st ← acc; rollback_entry st e) (Some st) entries.

Definition rollback (st : ExecState) : option ExecState :=
  rollback_entries (x_journal st)
    (mkExec (x_ledger st) (x_bridged st) (x_nullifiers st) (x_commitments st) (x_revoked st) []).

End Journal.
