(* ===== verification/Executor.v ===== *)
(** * The turn executor: effects

    Models the effect handlers of [turn/src/executor/apply.rs] with the
    authority checks they share, [Effect::effect_kind_mask] of
    [turn/src/action.rs], the issuer wells of [turn/src/executor/mod.rs], and
    the writes an action makes beside its effects
    ([turn/src/executor/execute_tree.rs]).

    A handler is a computation on the executor's state that may stop with a
    [TurnError]; what it wrote before stopping stays, and the journal it leaves
    is what rollback replays.  The path of the action inside the call forest
    only decorates errors and is left out; a formatted reason keeps its fixed
    text.  An outer [None] is a panic.  The effects that verify proofs of the
    circuit crates or drive other registries ([BridgeMint],
    [ShieldedTransfer], [CreateCellFromFactory], [Promise], [Notify] and
    [React]) are not in the type. *)

From stdpp Require Import base decidable option list gmap sorting strings.
From Stdlib Require Import ZArith Lia.
From S2P Require Import Prelude BabyBear Poseidon2 CapRoot Heap State Permissions Facet.
From S2P Require Import Derivation Capability Lifecycle Cell Migration Merkle Ledger Notes.
From S2P Require Import Channels Journal.

Open Scope Z_scope.

(** ** Crates the executor calls

    Ristretto decompression, Bulletproof verification and the serialisation of
    a c-list. *)
Class TurnOracles := {
  valid_ristretto : bytes -> bool;
  verify_range : bytes -> bytes -> bool;
  postcard_clist : list CapabilityRef -> bytes;
}.

(** ** Data *)

Inductive TurnError : Type :=
| TE_CellNotFound (id : CellId)
| TE_InvalidEffect (reason : string)
| TE_BalanceOverflow (cell : CellId)
| TE_InsufficientBalance (cell : CellId) (required available : Z)
| TE_TransferDestNotFound (id : CellId)
| TE_CapabilityNotHeld (actor target : CellId)
| TE_FacetViolation (actor target : CellId) (cap_slot : Z) (attempted : string) (allowed_mask : Z)
| TE_PermissionDenied (cell : CellId) (action : string) (required : AuthRequired)
| TE_DelegationDenied (parent child_target : CellId)
| TE_CapabilitySlotOverflow (cell : CellId)
| TE_NonceOverflow (cell : CellId)
| TE_CreateCellNonZeroBalance (cell : CellId) (b : Z)
| TE_CellAlreadyExists (id : CellId)
| TE_CapabilityRevoked (actor : CellId) (channel : bytes) (tripped_at : Z)
| TE_CapabilityStale (actor grantor : CellId) (stored_epoch current_epoch : Z)
| TE_IntroductionDenied (introducer recipient target : CellId) (reason : string)
| TE_InvalidAuthorization (reason : string)
| TE_PreconditionFailed (description : string)
| TE_BalanceChangeUnderflow (cell : CellId) (current delta : Z)
| TE_CustomEffectRequiresProofCarryingTurn (cell : CellId)
| TE_BudgetExceeded (limit used : Z)
| TE_SovereignWitnessRequired (cell : CellId)
| TE_RefusalConflictsWithMutation (cell : CellId) (conflicting_effect : string)
| TE_InvalidWitnessIndex (cell : CellId) (index available : Z)
| TE_ProgramViolation (cell : CellId) (reason : string)
| TE_DelegationModeUnimplemented (parent child_target : CellId)
| TE_EmptyForest
| TE_Expired (valid_until now : Z)
| TE_DeadAgent
| TE_NonceReplay (expected got : Z)
| TE_CellFrozen (cell : CellId)
| TE_ReceiptChainMismatch (expected got : option bytes)
| TE_BudgetExhausted (silo_id requested remaining : Z)
| TE_SovereignCommitmentMismatch (cell : CellId) (expected got : bytes)
| TE_InvalidExecutionProof (reason : string)
| TE_NoteConservationViolation (asset_type inputs outputs : Z)
| TE_ExcessNotZero (excess : Z).

Inductive RefusalReason : Type :=
| Declined
| NoAuthority
| WindowExpired
| CustomReason (reason_hash : bytes).

(** The effects of the model.  BridgeMint, ShieldedTransfer,
    CreateCellFromFactory, Promise, Notify and React are not among them: their
    handlers rest on proof verifiers and on the registries of factories and of
    wakes.  A factory grants the references its parameters name. *)
Inductive Effect `{ProgramCodec} : Type :=
| EffSetField (cell : CellId) (index : Z) (value : FieldElement)
| EffTransfer (from to : CellId) (amount : Z)
| EffGrantCapability (from to : CellId) (cap : CapabilityRef)
| EffRevokeCapability (cell : CellId) (slot : Z)
| EffEmitEvent (cell : CellId) (topic : bytes) (data : list FieldElement)
| EffIncrementNonce (cell : CellId)
| EffCreateCell (public_key token_id : bytes) (b : Z)
| EffSetPermissions (cell : CellId) (new_permissions : Permissions)
| EffSetVerificationKey (cell : CellId) (new_vk : option VerificationKey)
| EffSetProgram (cell : CellId) (program : CellProgram)
| EffNoteSpend (nullifier note_tree_root : bytes) (value asset_type : Z) (spending_proof : bytes)
    (value_commitment : option bytes)
| EffNoteCreate (commitment : bytes) (value asset_type : Z) (encrypted_note : bytes)
    (value_commitment range_proof : option bytes)
| EffExerciseViaCapability (cap_slot : Z) (inner_effects : list Effect)
| EffPipelinedSend (source_turn : bytes) (output_slot : Z)
| EffIntroduce (introducer recipient target : CellId) (permissions : AuthRequired)
| EffSpawnWithDelegation (child_public_key child_token_id : bytes) (max_staleness : Z)
| EffRefreshDelegation (child : CellId) (snapshot : bytes)
| EffRevokeDelegation (child : CellId)
| EffMakeSovereign (cell : CellId)
| EffRefusal (cell : CellId) (offered_action_commitment : bytes) (refusal_reason : RefusalReason)
    (proof_witness_index : Z)
| EffCellSeal (target : CellId) (reason : bytes)
| EffCellUnseal (target : CellId)
| EffCellDestroy (target : CellId) (certificate : DeathCertificate)
| EffBurn (target : CellId) (slot amount : Z)
| EffMint (target : CellId) (slot amount : Z)
| EffAttenuateCapability (cell : CellId) (slot : Z) (narrower_permissions : AuthRequired)
    (narrower_effects narrower_expiry : option Z)
| EffReceiptArchive (prefix_end_height : Z) (checkpoint : ArchivalAttestation)
| EffCustom (cell : CellId).

(** The part of the executor's configuration the handlers read. *)
Record TurnExecutor : Type := mkExecutor {
  block_height : Z;
  current_timestamp : Z;
  max_introduction_lifetime : Z;
  proof_verifier : option (bytes -> string -> string -> bytes -> bool);
  revocation_channels : option RevocationChannelSet;
  issuer_wells : gmap bytes CellId;
  last_receipt_hash : gmap CellId bytes;
}.

(** ** Computations *)

Section Monad.
Context `{HC : ProgramCodec}.

Definition M (A : Type) : Type := ExecState -> option (ExecState * result A TurnError).

Definition ret {A} (a : A) : M A := fun st => Some (st, Ok a).
Definition throw {A} (e : TurnError) : M A := fun st => Some (st, Err e).

Definition bind {A B} (m : M A) (k : A -> M B) : M B := fun st =>
  '(st', r) ← m st;
  match r with
  | Ok a => k a st'
  | Err e => Some (st', Err e)
  end.

(** A read of the ledger that may refuse. *)
Definition reads {A} (f : Ledger -> result A TurnError) : M A := fun st =>
  Some (st, f (x_ledger st)).

Definition guard (b : bool) (e : TurnError) : M unit := if b then ret tt else throw e.

Definition note_entries (es : list JournalEntry) : M unit := fun st => Some (record st es, Ok tt).

(** [let c = ledger.get_mut(id).ok_or(missing)?] and the block that follows:
    it leaves the cell, the entries it recorded and its result. *)
Definition on_cell {A} (id : CellId) (missing : TurnError)
    (body : Cell -> option (Cell * list JournalEntry * result A TurnError)) : M A := fun st =>
  let L := x_ledger st in
  match cells L !! id with
  | None => Some (with_ledger st (get_mut L id (fun c => c)), Err missing)
  | Some c =>
      '(c', es, r) ← body (invalidate_leaf_cache c);
      Some (record (with_ledger st (get_mut L id (fun _ => c'))) es, r)
  end.

(** [ledger.insert_cell(cell)] and [record_create_cell]. *)
Definition create (cell : Cell) (exists_error : TurnError) : M unit := fun st =>
  match insert_cell (x_ledger st) cell with
  | (L, Ok id) => Some (record (with_ledger st L) [JCreateCell id], Ok tt)
  | (L, Err _) => Some (with_ledger st L, Err exists_error)
  end.

Fixpoint for_each {A} (f : A -> M unit) (l : list A) : M unit :=
  match l with
  | [] => ret tt
  | x :: l' => bind (f x) (fun _ => for_each f l')
  end.

(** A total constructor that may hit a capacity assertion. *)
Definition total {A} (o : option A) : M A := fun st => a ← o; Some (st, Ok a).

End Monad.

Declare Scope exec_scope.
Notation "'let!' x ':=' m 'in' k" := (bind m (fun y => match y with x => k end))
  (at level 10, x pattern, m at level 100, k at level 200) : exec_scope.
Notation "m ;;; k" := (bind m (fun _ => k)) (at level 100, right associativity) : exec_scope.
Open Scope exec_scope.

Section Executor.
Context `{HB : Blake3} `{HC : ProgramCodec} `{HO : TurnOracles}.
Context (ex : TurnExecutor).

Definition cell_or {A} (L : Ledger) (id : CellId) (e : TurnError) (k : Cell -> result A TurnError)
    : result A TurnError :=
  match get L id with Some c => k c | None => Err e end.

Definition invalid {A} (reason : string) : result A TurnError := Err (TE_InvalidEffect reason).

(** ** Authority *)

Definition has_access_including_delegation_at (c : Cell) (target : CellId) (h : Z) : bool :=
  bool_decide (c_id c = target) || has_access_at (c_capabilities c) target h
  || match c_delegation c with Some d => has_capability d target | None => false end.

Definition permits_effect_including_delegation_at (c : Cell) (target : CellId) (h bit : Z) : bool :=
  bool_decide (c_id c = target) || permits_effect_at (c_capabilities c) target h bit
  || match c_delegation c with
     | Some d =>
         any (fun cap => negb (bool_decide (cap_permissions cap = AR_Impossible))
                         && is_effect_permitted (cap_allowed_effects cap) bit)
           (deleg_capabilities_for d target)
     | None => false
     end.

Definition check_cross_cell_permission (L : Ledger) (actor target : CellId) (action : Action)
    (name : string) (bit : Z) : result unit TurnError :=
  let? _ :=
    if bool_decide (actor = target) then Ok tt
    else cell_or L actor (TE_CellNotFound actor) (fun a =>
      if negb (has_access_including_delegation_at a target (block_height ex))
      then Err (TE_CapabilityNotHeld actor target)
      else if negb (permits_effect_including_delegation_at a target (block_height ex) bit)
      then Err (TE_FacetViolation actor target 0 name (effect_mask_union_for (c_capabilities a) target))
      else Ok tt) in
  cell_or L target (TE_CellNotFound target) (fun c =>
    let required := for_action (c_permissions c) action in
    if bool_decide (required = AR_None) then Ok tt
    else Err (TE_PermissionDenied target name required)).

(** The cross-cell check every handler makes first when the cell it writes is
    not the action's target. *)
Definition cross_cell (action_target actor cell : CellId) (action : Action) (name : string) (bit : Z)
    : M unit :=
  if bool_decide (cell = action_target) then ret tt
  else reads (fun L => check_cross_cell_permission L actor cell action name bit).

Fixpoint walk_delegation_chain_for_capability (hops : nat) (L : Ledger) (current target : CellId)
    (h : Z) : option CellId :=
  match hops with
  | O => None
  | S hops' =>
      cell ← get L current;
      parent_id ← c_delegate cell;
      parent ← get L parent_id;
      if has_access_including_delegation_at parent target h then Some parent_id
      else walk_delegation_chain_for_capability hops' L parent_id target h
  end.

Definition MAX_HOPS : nat := 16.

(** ** Fields, nonce, permissions, key and program *)

Definition apply_set_field (action_target actor cell : CellId) (index : Z) (value : FieldElement)
    : M unit :=
  cross_cell action_target actor cell Action_SetState "SetState" EFFECT_SET_FIELD ;;;
  on_cell cell (TE_CellNotFound cell) (fun c =>
    let s := c_state c in
    if negb (is_live (c_lifecycle c))
    then Some (c, [], invalid "SetField target cell is not live (sealed/destroyed)")
    else if index <? Z.of_nat STATE_SLOTS then
      let i := Z.to_nat index in
      Some (with_state c (with_fields s (<[i := value]> (fields s)) (field_visibility s)
              (match nth i (commitments s) None with
               | Some _ => <[i := None]> (commitments s)
               | None => commitments s
               end)),
            [JSetField cell index (Some (nth i (fields s) FIELD_ZERO))], Ok tt)
    else
      let key := as_u64 index in
      let old_value := get_field_ext USIZE_BITS s key in
      '(s', _) ← set_field_ext USIZE_BITS s key value;
      Some (with_state c s', [JSetField cell index old_value], Ok tt)).

Definition apply_increment_nonce (action_target actor cell : CellId) : M unit :=
  cross_cell action_target actor cell Action_IncrementNonce "IncrementNonce" EFFECT_INCREMENT_NONCE ;;;
  on_cell cell (TE_CellNotFound cell) (fun c =>
    if negb (is_live (c_lifecycle c))
    then Some (c, [], invalid "IncrementNonce target cell is not live (sealed/destroyed)")
    else
      let '(s', ok) := increment_nonce (c_state c) in
      Some (with_state c s', [JSetNonce cell (nonce (c_state c))],
            if ok then Ok tt else Err (TE_NonceOverflow cell))).

Definition apply_set_permissions (action_target actor cell : CellId) (p : Permissions) : M unit :=
  cross_cell action_target actor cell Action_SetPermissions "SetPermissions" EFFECT_SET_PERMISSIONS ;;;
  on_cell cell (TE_CellNotFound cell) (fun c =>
    if negb (is_live (c_lifecycle c))
    then Some (c, [], invalid "SetPermissions target cell is not live (sealed/destroyed)")
    else Some (with_permissions c p, [JSetPermissions cell (c_permissions c)], Ok tt)).

Definition apply_set_verification_key (action_target actor cell : CellId)
    (new_vk : option VerificationKey) : M unit :=
  cross_cell action_target actor cell Action_SetVerificationKey "SetVerificationKey"
    EFFECT_SET_VERIFICATION_KEY ;;;
  guard (match new_vk with
         | Some vk => bool_decide (blake3_hash (vk_data vk) = vk_hash vk)
         | None => true
         end)
    (TE_InvalidEffect "SetVerificationKey: VerificationKey integrity invariant violated") ;;;
  on_cell cell (TE_CellNotFound cell) (fun c =>
    if negb (is_live (c_lifecycle c))
    then Some (c, [], invalid "SetVerificationKey target cell is not live (sealed/destroyed)")
    else Some (with_verification_key c new_vk, [JSetVerificationKey cell (c_verification_key c)], Ok tt)).

Definition apply_set_program (action_target actor cell : CellId) (program : CellProgram) : M unit :=
  cross_cell action_target actor cell Action_SetVerificationKey "SetProgram" EFFECT_SET_PROGRAM ;;;
  on_cell cell (TE_CellNotFound cell) (fun c =>
    if negb (is_live (c_lifecycle c))
    then Some (c, [], invalid "SetProgram target cell is not live (sealed/destroyed)")
    else Some (with_program c program, [JSetProgram cell (c_program c)], Ok tt)).

(** ** Balances *)

Definition apply_transfer (action_target actor from to : CellId) (amount : Z) : M unit :=
  guard (negb (bool_decide (from = to)))
    (TE_InvalidEffect "self-transfer rejected: src == dst") ;;;
  cross_cell action_target actor from Action_Send "Send" EFFECT_TRANSFER ;;;
  let! (old_from, old_to, amount_i) := reads (fun L =>
    cell_or L from (TE_CellNotFound from) (fun fc =>
      if negb (is_live (c_lifecycle fc))
      then invalid "Transfer source cell is not live (sealed/destroyed)"
      else
        let? amount_i := ok_or (i64_try_from amount) (TE_BalanceOverflow from) in
        let old_from := balance (c_state fc) in
        if old_from <? amount_i then Err (TE_InsufficientBalance from amount old_from)
        else cell_or L to (TE_TransferDestNotFound to) (fun tc =>
          if negb (is_live (c_lifecycle tc))
          then invalid "Transfer destination cell is not live (sealed/destroyed)"
          else
            let old_to := balance (c_state tc) in
            match checked_add_i64 old_to amount_i with
            | None => Err (TE_BalanceOverflow to)
            | Some _ => Ok (old_from, old_to, amount_i)
            end))) in
  note_entries [JSetBalance from old_from; JSetBalance to old_to] ;;;
  on_cell from (TE_CellNotFound from) (fun c =>
    Some (with_state c (with_balance (c_state c) (old_from - amount_i)), [], Ok tt)) ;;;
  on_cell to (TE_CellNotFound to) (fun c =>
    Some (with_state c (with_balance (c_state c) (old_to + amount_i)), [], Ok tt)).

Definition derive_issuer_well (token_id : bytes) : bytes * CellId :=
  let well_pubkey := blake3_derive_key "dregg-issuer-well-key-v1" token_id in
  (well_pubkey, derive_raw well_pubkey token_id).

Definition issuer_well_for (L : Ledger) (cell : CellId) : option CellId :=
  c ← get L cell;
  Some (default (derive_issuer_well (c_token_id c)).2 (issuer_wells ex !! c_token_id c)).

(** The asset of the target and its well. *)
Definition resolve_well (target : CellId) : M (bytes * CellId) :=
  reads (fun L =>
    cell_or L target (TE_CellNotFound target) (fun c =>
      match issuer_well_for L target with
      | Some w => Ok (c_token_id c, w)
      | None => Err (TE_CellNotFound target)
      end)).

(** The well is created on first use when it is the derived one. *)
Definition materialize_well (token_id : bytes) (well_id : CellId) (missing : string) : M unit :=
  let! hosted := reads (fun L => Ok (bool_decide (is_Some (get L well_id)))) in
  if hosted : bool then ret tt
  else
    let '(well_pubkey, derived_id) := derive_issuer_well token_id in
    guard (bool_decide (well_id = derived_id)) (TE_InvalidEffect missing) ;;;
    let! well_cell := total (cell_with_balance well_pubkey token_id 0) in
    create well_cell (TE_InvalidEffect "cell already exists").

Definition apply_burn (actor target : CellId) (slot amount : Z) : M unit :=
  guard (slot =? 0) (TE_InvalidEffect "Burn slot is not a burnable balance slot (only slot 0 supported)") ;;;
  (if bool_decide (actor = target) then ret tt
   else reads (fun L => check_cross_cell_permission L actor target Action_Send "Burn" EFFECT_BURN)) ;;;
  let! (token_id, well_id) := resolve_well target in
  on_cell target (TE_CellNotFound target) (fun c =>
    let bal := balance (c_state c) in
    let '(s', ok) := debit_balance (c_state c) amount in
    if negb ok then Some (with_state c s', [], Err (TE_InsufficientBalance target amount bal))
    else Some (with_state c s', [JSetBalance target bal], Ok tt)) ;;;
  materialize_well token_id well_id "registered issuer well for the burn target's asset not found" ;;;
  on_cell well_id (TE_InvalidEffect "issuer well for the burn target's asset not found") (fun c =>
    if negb (is_live (c_lifecycle c))
    then Some (c, [], invalid "issuer well for the burn target's asset is not live (sealed/destroyed)")
    else
      let well_bal := balance (c_state c) in
      let '(s', ok) := credit_balance (c_state c) amount in
      if negb ok then Some (with_state c s', [], invalid "issuer well balance overflow on burn credit")
      else Some (with_state c s', [JSetBalance well_id well_bal], Ok tt)).

Definition holds_mint_authority (L : Ledger) (actor well : CellId) : bool :=
  if bool_decide (actor = well) then false
  else match get L actor with
       | None => false
       | Some a =>
           any (fun c => bool_decide (cap_permissions c = AR_None) && not_expired c (block_height ex)
                         && is_effect_permitted (cap_allowed_effects c) EFFECT_MINT)
             (capabilities_for (c_capabilities a) well
              ++ match c_delegation a with Some d => deleg_capabilities_for d well | None => [] end)
       end.

Definition apply_mint (actor target : CellId) (slot amount : Z) : M unit :=
  guard (slot =? 0) (TE_InvalidEffect "Mint slot is not a mintable balance slot (only slot 0 supported)") ;;;
  let! (token_id, well_id) := resolve_well target in
  guard (negb (bool_decide (well_id = target)))
    (TE_InvalidEffect "Mint target must not be the asset's own issuer well") ;;;
  guard (negb (bool_decide (actor = target) || bool_decide (actor = well_id)))
    (TE_InvalidEffect "Mint is privileged: a cell cannot mint its own supply") ;;;
  materialize_well token_id well_id "registered issuer well for the mint target's asset not found" ;;;
  reads (fun L => if holds_mint_authority L actor well_id then Ok tt
                  else Err (TE_CapabilityNotHeld actor well_id)) ;;;
  reads (fun L =>
    cell_or L target (TE_CellNotFound target) (fun c =>
      if negb (is_live (c_lifecycle c))
      then invalid "Mint recipient cell is not live (sealed/destroyed)" else Ok tt)) ;;;
  reads (fun L =>
    cell_or L well_id (TE_InvalidEffect "issuer well for the mint target's asset not found") (fun c =>
      if negb (is_live (c_lifecycle c))
      then invalid "issuer well for the mint target's asset is not live (sealed/destroyed)" else Ok tt)) ;;;
  on_cell well_id (TE_CellNotFound well_id) (fun c =>
    let well_bal := balance (c_state c) in
    let '(s', ok) := well_debit_balance (c_state c) amount in
    if negb ok then Some (with_state c s', [], invalid "issuer well balance underflow on mint debit")
    else Some (with_state c s', [JSetBalance well_id well_bal], Ok tt)) ;;;
  on_cell target (TE_CellNotFound target) (fun c =>
    let recip_bal := balance (c_state c) in
    let '(s', ok) := credit_balance (c_state c) amount in
    if negb ok then Some (with_state c s', [], invalid "mint recipient balance overflow on credit")
    else Some (with_state c s', [JSetBalance target recip_bal], Ok tt)).

(** ** Capabilities *)

(** The expiry axis: [None] is unbounded. *)
Definition expiry_admits (held granted : option Z) : bool :=
  match held with
  | None => true
  | Some held_exp => match granted with None => false | Some g => negb (held_exp <? g) end
  end.

Definition check_grant (from_cell : Cell) (from to : CellId) (cap : CapabilityRef)
    : result unit TurnError :=
  if bool_decide (cap_target cap = from) then Ok tt
  else
    let? held := ok_or (lookup_by_target (c_capabilities from_cell) (cap_target cap))
                   (TE_CapabilityNotHeld from (cap_target cap)) in
    if negb (is_attenuation (cap_permissions held) (cap_permissions cap))
    then Err (TE_DelegationDenied from to)
    else if negb (is_facet_attenuation (default EFFECT_ALL (cap_allowed_effects held))
                    (default EFFECT_ALL (cap_allowed_effects cap)))
    then Err (TE_DelegationDenied from to)
    else if negb (expiry_admits (cap_expires_at held) (cap_expires_at cap))
    then Err (TE_DelegationDenied from to)
    else Ok tt.

(** The install: the slot the set hands out is journalled. *)
Definition install (to : CellId) (missing : TurnError)
    (grant_fn : CapabilitySet -> CapabilitySet * option Z) : M unit :=
  on_cell to missing (fun c =>
    match grant_fn (c_capabilities c) with
    | (s', Some slot) => Some (with_capabilities c s', [JGrantCapability to slot], Ok tt)
    | (s', None) => Some (with_capabilities c s', [], Err (TE_CapabilitySlotOverflow to))
    end).

Definition apply_grant_capability (action_target actor from to : CellId) (cap : CapabilityRef)
    (created_by_turn : bytes) : M unit :=
  cross_cell action_target actor from Action_Delegate "Delegate" EFFECT_GRANT_CAPABILITY ;;;
  reads (fun L => cell_or L from (TE_CellNotFound from) (fun fc => check_grant fc from to cap)) ;;;
  install to (TE_CellNotFound to) (fun s => grant_ref_provenanced s cap created_by_turn).

(** A key already present is a no-op; only a new one is journalled. *)
Definition insert_revocation (key : bytes) (height : Z) : M unit := fun st =>
  if as_contains (x_revoked st) key then Some (st, Ok tt)
  else
    '(s', r) ← revoked_insert (x_revoked st) key height;
    match r with
    | Ok _ => Some (record (with_revoked st s') [JRevocationInserted key], Ok tt)
    | Err _ => None
    end.

Definition apply_revocation_channel_trip (channel : bytes) (tripped_at : Z) : M unit :=
  insert_revocation (chan_nul channel) tripped_at.

Definition apply_revoke_capability (action_target actor cell : CellId) (slot : Z) : M unit :=
  cross_cell action_target actor cell Action_Delegate "Delegate" EFFECT_REVOKE_CAPABILITY ;;;
  let! key := on_cell cell (TE_CellNotFound cell) (fun c =>
    let old := lookup_cap (c_capabilities c) slot in
    Some (with_capabilities c (revoke (c_capabilities c) slot).1,
          match old with Some old_cap => [JRevokeCapability cell old_cap] | None => [] end,
          Ok (cap_cred_nul <$> old))) in
  match key : option bytes with
  | Some key => insert_revocation key (block_height ex)
  | None => ret tt
  end.

Definition apply_introduce (introducer recipient target : CellId) (permissions : AuthRequired)
    (created_by_turn : bytes) : M unit :=
  let denied := TE_IntroductionDenied introducer recipient target in
  let! parent_provenance := reads (fun L =>
    cell_or L introducer (TE_CellNotFound introducer) (fun ic =>
      if negb (has_access (c_capabilities ic) recipient)
      then Err (denied "introducer has no capability to recipient")
      else
        let? held := ok_or (lookup_by_target (c_capabilities ic) target)
                       (denied "introducer has no capability to target") in
        if negb (not_expired held (block_height ex))
        then Err (denied "introducer's capability to target has expired")
        else if negb (is_attenuation (cap_permissions held) permissions)
        then Err (denied "granted permissions exceed introducer's own (amplification denied)")
        else cell_or L target (TE_CellNotFound target) (fun tc =>
          if bool_decide (delegate_perm (c_permissions tc) = AR_Impossible)
          then Err (denied "target cell has delegate=Impossible (consent denied)")
          else cell_or L recipient (TE_CellNotFound recipient) (fun _ => Ok (cap_prov held))))) in
  let! expires_at := total (checked_add_u64 (block_height ex) (max_introduction_lifetime ex)) in
  install recipient (TE_CellNotFound recipient) (fun s =>
    grant_provenanced s target permissions None (Some expires_at) None None parent_provenance
      created_by_turn).

Definition apply_attenuate_capability (actor cell : CellId) (slot : Z) (p : AuthRequired)
    (eff exp : option Z) : M unit :=
  guard (bool_decide (cell = actor)) (TE_InvalidEffect "AttenuateCapability cell must match the actor") ;;;
  on_cell cell (TE_CellNotFound cell) (fun c =>
    match lookup_cap (c_capabilities c) slot with
    | None => Some (c, [], invalid "AttenuateCapability slot not present in c-list")
    | Some prior =>
        match attenuate_in_place (c_capabilities c) slot p eff exp with
        | (s', Some _) =>
            Some (with_capabilities c s',
                  [JAttenuateCapability cell slot (cap_permissions prior) (cap_allowed_effects prior)
                     (cap_expires_at prior)], Ok tt)
        | (s', None) =>
            Some (with_capabilities c s', [], invalid "AttenuateCapability rejected: not a monotone narrowing")
        end
    end).

(** ** Cells *)

Definition apply_create_cell (public_key token_id : bytes) (b : Z) : M unit :=
  let id := derive_raw public_key token_id in
  guard (b =? 0) (TE_CreateCellNonZeroBalance id b) ;;;
  let! new_cell := total (cell_with_balance public_key token_id 0) in
  create new_cell (TE_CellAlreadyExists id).

Definition zero64 : bytes := replicate 64 0.

Definition with_delegate (c : Cell) (d : option CellId) : Cell :=
  mkCell (c_id c) (c_public_key c) (c_state c) (c_permissions c) (c_verification_key c)
    d (c_delegation c) (c_token_id c) (c_capabilities c) (c_program c) (c_mode c) (c_lifecycle c)
    (c_leaf_cache c).

(** The snapshot a parent's c-list gives a child. *)
Definition snapshot_of (parent_id child_id : CellId) (parent : Cell) (max_staleness : Z)
    : DelegatedRef :=
  let snapshot := refs (c_capabilities parent) in
  mkDelegated parent_id child_id snapshot (delegation_epoch (c_state parent))
    (as_u64 (current_timestamp ex)) max_staleness
    (compute_clist_commitment (postcard_clist snapshot)) zero64.

Definition apply_spawn_with_delegation (action_target : CellId)
    (child_public_key child_token_id : bytes) (max_staleness : Z) : M unit :=
  let! parent := reads (fun L => ok_or (get L action_target) (TE_CellNotFound action_target)) in
  let child_id := derive_raw child_public_key child_token_id in
  let! child := total (cell_with_balance child_public_key child_token_id 0) in
  create (with_delegation (with_delegate child (Some action_target))
            (Some (snapshot_of action_target child_id parent max_staleness)))
    (TE_CellAlreadyExists child_id).

Definition apply_refresh_delegation (action_target child : CellId) (declared_snapshot : bytes)
    : M unit :=
  guard (bool_decide (child = action_target))
    (TE_InvalidEffect "RefreshDelegation child must equal the action target (self-refresh)") ;;;
  let! d := reads (fun L =>
    cell_or L action_target (TE_CellNotFound action_target) (fun cc =>
      match c_delegate cc with
      | None => Err (TE_InvalidAuthorization "cell has no delegate (parent) to refresh from")
      | Some parent_id =>
          let max_staleness := from_option d_max_staleness 0 (c_delegation cc) in
          cell_or L parent_id (TE_CellNotFound parent_id) (fun pc =>
            let d := snapshot_of parent_id action_target pc max_staleness in
            if negb (bool_decide (d_clist_commitment d = declared_snapshot))
            then invalid "RefreshDelegation snapshot does not match the parent's live c-list commitment (forged refresh)"
            else Ok d)
      end)) in
  on_cell action_target (TE_CellNotFound action_target) (fun c =>
    Some (with_delegation c (Some d), [JSetDelegation action_target (c_delegation c)], Ok tt)).

Definition apply_revoke_delegation (action_target child : CellId) : M unit :=
  reads (fun L =>
    cell_or L child (TE_CellNotFound child) (fun cc =>
      if bool_decide (c_delegate cc = Some action_target) then Ok tt
      else Err (TE_DelegationDenied action_target child))) ;;;
  let! hosted := reads (fun L => Ok (bool_decide (is_Some (get L action_target)))) in
  (if hosted : bool then ret tt else total None) ;;;
  on_cell action_target (TE_CellNotFound action_target) (fun c =>
    let '(s', ok) := bump_delegation_epoch (c_state c) in
    Some (with_state c s', [JSetDelegationEpoch action_target (delegation_epoch (c_state c))],
          if ok then Ok tt else Err (TE_NonceOverflow action_target))) ;;;
  on_cell child (TE_CellNotFound child) (fun c =>
    Some (with_delegation c None, [JSetDelegation child (c_delegation c)], Ok tt)).

Definition apply_make_sovereign (action_target cell : CellId) : M unit :=
  guard (bool_decide (cell = action_target))
    (TE_InvalidEffect "MakeSovereign cell must match action target") ;;;
  reads (fun L =>
    cell_or L cell (TE_CellNotFound cell) (fun c =>
      if negb (is_live (c_lifecycle c))
      then invalid "MakeSovereign target cell is not live (sealed/destroyed)" else Ok tt)) ;;;
  (fun st =>
     '(L, r) ← make_sovereign (x_ledger st) cell;
     match r with
     | Ok removed => Some (record (with_ledger st L) [JMakeSovereign removed], Ok tt)
     | Err _ => Some (with_ledger st L, invalid "MakeSovereign failed")
     end).

(** ** Lifecycle *)

(** A transition of the action's own target, its prior lifecycle journalled. *)
Definition transition (id : CellId) (f : Cell -> result Cell LifecycleTransitionError)
    (failed : string) : M unit :=
  on_cell id (TE_CellNotFound id) (fun c =>
    match f c with
    | Ok c' => Some (c', [JSetLifecycle id (c_lifecycle c)], Ok tt)
    | Err _ => Some (c, [], invalid failed)
    end).

Definition apply_cell_seal (action_target target : CellId) (reason : bytes) : M unit :=
  guard (bool_decide (target = action_target)) (TE_InvalidEffect "CellSeal target must match action target") ;;;
  transition target (fun c => seal c reason (block_height ex)) "CellSeal failed".

Definition apply_cell_unseal (action_target target : CellId) : M unit :=
  guard (bool_decide (target = action_target)) (TE_InvalidEffect "CellUnseal target must match action target") ;;;
  transition target unseal "CellUnseal failed".

Definition apply_cell_destroy (action_target target : CellId) (certificate : DeathCertificate) : M unit :=
  guard (bool_decide (target = action_target)) (TE_InvalidEffect "CellDestroy target must match action target") ;;;
  transition target (fun c => destroy c certificate) "CellDestroy failed".

Definition apply_receipt_archive (action_target : CellId) (prefix_end_height : Z)
    (checkpoint : ArchivalAttestation) : M unit :=
  guard (bool_decide (aa_cell_id checkpoint = action_target))
    (TE_InvalidEffect "ReceiptArchive checkpoint cell_id mismatches action target") ;;;
  guard (aa_end_height checkpoint =? prefix_end_height)
    (TE_InvalidEffect "ReceiptArchive prefix_end_height mismatches checkpoint.archive_end_height") ;;;
  guard (negb (block_height ex <? prefix_end_height))
    (TE_InvalidEffect "ReceiptArchive prefix_end_height exceeds current head height") ;;;
  guard (match last_receipt_hash ex !! action_target with
         | Some live_head => bool_decide (aa_terminal_receipt_hash checkpoint = live_head)
         | None => true
         end)
    (TE_InvalidEffect "ReceiptArchive archive_terminal_receipt_hash does not match live chain head") ;;;
  on_cell action_target (TE_CellNotFound action_target) (fun c =>
    if negb (is_live (c_lifecycle c))
    then Some (c, [], invalid "ReceiptArchive on a non-Live cell (lifecycle must be Live)")
    else match archive c checkpoint with
         | Ok c' => Some (c', [JSetLifecycle action_target (c_lifecycle c)], Ok tt)
         | Err _ => Some (c, [], invalid "ReceiptArchive failed")
         end).

(** ** Events, refusals and notes *)

Definition apply_emit_event (cell : CellId) (topic : bytes) (data : list FieldElement) : M unit :=
  reads (fun L =>
    cell_or L cell (TE_CellNotFound cell) (fun c =>
      if negb (accepts_effects (c_lifecycle c))
      then invalid "EmitEvent target cell does not accept effects (sealed/destroyed)" else Ok tt)) ;;;
  note_entries [JEventEmitted cell topic data].

Definition refusal_audit (offered : bytes) (reason : RefusalReason) : bytes :=
  blake3_derive_key "dregg-refusal-audit-v1"
    (offered ++ match reason with
                | Declined => [0]
                | NoAuthority => [1]
                | WindowExpired => [2]
                | CustomReason h => 3 :: h
                end).

Definition apply_refusal (action_target actor cell : CellId) (offered : bytes)
    (reason : RefusalReason) : M unit :=
  cross_cell action_target actor cell Action_SetState "Refusal" EFFECT_REFUSAL ;;;
  on_cell cell (TE_CellNotFound cell) (fun c =>
    if negb (is_live (c_lifecycle c))
    then Some (c, [], invalid "Refusal target cell is not live (sealed/destroyed)")
    else
      let e1 := JSetNonce cell (nonce (c_state c)) in
      let '(s1, ok) := increment_nonce (c_state c) in
      if negb ok then Some (with_state c s1, [e1], Err (TE_NonceOverflow cell))
      else
        let audit_key := REFUSAL_AUDIT_EXT_KEY in
        let old_audit := get_field_ext USIZE_BITS s1 audit_key in
        '(s2, _) ← set_field_ext USIZE_BITS s1 audit_key (refusal_audit offered reason);
        Some (with_state c s2, [e1; JSetField cell (as_usize USIZE_BITS audit_key) old_audit], Ok tt)).

Definition is_zero (b : bytes) : bool := forallb (Z.eqb 0) b.

Definition spend_public_inputs (nullifier note_tree_root : bytes) (value asset_type : Z) : bytes :=
  nullifier ++ note_tree_root ++ le_bytes 8 value ++ le_bytes 8 asset_type ++ zero32.

Definition apply_note_spend (nullifier note_tree_root spending_proof : bytes) (value asset_type : Z)
    (value_commitment : option bytes) : M unit :=
  guard (negb (is_zero nullifier)) (TE_InvalidEffect "null nullifier in NoteSpend") ;;;
  guard (negb (is_zero note_tree_root)) (TE_InvalidEffect "null note_tree_root in NoteSpend") ;;;
  guard (match spending_proof with [] => false | _ => true end)
    (TE_InvalidEffect "NoteSpend missing spending proof") ;;;
  (match proof_verifier ex with
   | None => throw (TE_InvalidEffect "no proof verifier configured for note spend verification")
   | Some verify =>
       guard (verify spending_proof "note-spend" "note-tree"
                (spend_public_inputs nullifier note_tree_root value asset_type))
         (TE_InvalidEffect "NoteSpend spending proof verification failed")
   end) ;;;
  (fun st =>
     if as_contains (x_nullifiers st) nullifier
     then Some (st, invalid "double-spend: nullifier already in note_nullifiers set")
     else
       '(s', r) ← nullifier_insert (x_nullifiers st) nullifier value;
       match r with
       | Ok _ => Some (record (with_nullifiers st s') [JNoteNullifierInserted nullifier; JNoteSpend], Ok tt)
       | Err _ => Some (with_nullifiers st s', invalid "double-spend: race on nullifier insert")
       end) ;;;
  guard (match value_commitment with Some vc => valid_ristretto vc | None => true end)
    (TE_InvalidEffect "NoteSpend value_commitment is not a valid Ristretto point").

Definition check_range (value_commitment range_proof : option bytes) : result unit TurnError :=
  match value_commitment, range_proof with
  | None, None => Ok tt
  | None, Some _ => invalid "NoteCreate has range_proof but no value_commitment"
  | Some vc, rp =>
      if negb (valid_ristretto vc) then invalid "NoteCreate value_commitment is not a valid Ristretto point"
      else match rp with
           | None => invalid "NoteCreate has value_commitment but no range_proof"
           | Some [] => invalid "NoteCreate range_proof is empty"
           | Some proof =>
               if verify_range vc proof then Ok tt
               else invalid "NoteCreate range proof verification failed"
           end
  end.

Definition apply_note_create (commitment : bytes) (value : Z) (value_commitment range_proof : option bytes)
    : M unit :=
  guard (negb (is_zero commitment)) (TE_InvalidEffect "null commitment in NoteCreate") ;;;
  reads (fun _ => check_range value_commitment range_proof) ;;;
  (fun st =>
     if as_contains (x_commitments st) commitment
     then Some (st, invalid "duplicate commitment: already in note_commitments set")
     else
       '(s', r) ← commitment_insert (x_commitments st) commitment value;
       match r with
       | Ok _ => Some (record (with_commitments st s') [JNoteCommitmentInserted commitment; JNoteCreate], Ok tt)
       | Err _ => Some (with_commitments st s', invalid "NoteCreate commitment insert failed")
       end).

(** ** Exercising a capability *)

Definition effect_kind_mask (e : Effect) : Z :=
  match e with
  | EffSetField _ _ _ => EFFECT_SET_FIELD
  | EffTransfer _ _ _ => EFFECT_TRANSFER
  | EffGrantCapability _ _ _ => EFFECT_GRANT_CAPABILITY
  | EffRevokeCapability _ _ => EFFECT_REVOKE_CAPABILITY
  | EffEmitEvent _ _ _ => EFFECT_EMIT_EVENT
  | EffIncrementNonce _ => EFFECT_INCREMENT_NONCE
  | EffCreateCell _ _ _ => EFFECT_CREATE_CELL
  | EffSetPermissions _ _ => EFFECT_SET_PERMISSIONS
  | EffSetVerificationKey _ _ => EFFECT_SET_VERIFICATION_KEY
  | EffSetProgram _ _ => EFFECT_SET_PROGRAM
  | EffNoteSpend _ _ _ _ _ _ => EFFECT_NOTE_SPEND
  | EffNoteCreate _ _ _ _ _ _ => EFFECT_NOTE_CREATE
  | EffIntroduce _ _ _ _ | EffPipelinedSend _ _ => EFFECT_INTRODUCE
  | EffSpawnWithDelegation _ _ _ | EffRefreshDelegation _ _ | EffRevokeDelegation _ =>
      EFFECT_DELEGATION_OPS
  | EffExerciseViaCapability _ _ => EFFECT_ALL
  | EffMakeSovereign _ | EffCustom _ => EFFECT_SOVEREIGN_OPS
  | EffRefusal _ _ _ _ => EFFECT_REFUSAL
  | EffCellSeal _ _ | EffCellUnseal _ | EffCellDestroy _ _ | EffReceiptArchive _ _ =>
      EFFECT_LIFECYCLE_OPS
  | EffBurn _ _ _ => EFFECT_BURN
  | EffMint _ _ _ => EFFECT_MINT
  | EffAttenuateCapability _ _ _ _ _ => EFFECT_ATTENUATE_CAPABILITY
  end.

(** The permission of the target an inner effect needs. *)
Definition required_perm_action (e : Effect) : option (Action * string) :=
  match e with
  | EffSetField _ _ _ => Some (Action_SetState, "SetState")
  | EffTransfer _ _ _ => Some (Action_Send, "Send")
  | EffIncrementNonce _ => Some (Action_IncrementNonce, "IncrementNonce")
  | EffGrantCapability _ _ _ | EffRevokeCapability _ _ => Some (Action_Delegate, "Delegate")
  | EffSetPermissions _ _ => Some (Action_SetPermissions, "SetPermissions")
  | EffSetVerificationKey _ _ => Some (Action_SetVerificationKey, "SetVerificationKey")
  | EffSetProgram _ _ => Some (Action_SetVerificationKey, "SetProgram")
  | _ => None
  end%string.

Definition check_inner (L : Ledger) (actor : CellId) (cap : CapabilityRef) (target_cell : Cell)
    (e : Effect) : result unit TurnError :=
  let cap_t := cap_target cap in
  let generic :=
    match required_perm_action e with
    | None => Ok tt
    | Some (action, name) =>
        let required := for_action (c_permissions target_cell) action in
        if bool_decide (required = AR_Impossible) then Err (TE_PermissionDenied cap_t name required)
        else if bool_decide (required = AR_None) then Ok tt
        else if is_narrower_or_equal (cap_permissions cap) required then Ok tt
        else Err (TE_PermissionDenied cap_t name required)
    end in
  match e with
  | EffTransfer from _ _ =>
      if bool_decide (from = cap_t) then generic
      else check_cross_cell_permission L actor from Action_Send
             "Send (Transfer.from via ExerciseViaCapability)" EFFECT_TRANSFER
  | _ => generic
  end.

Definition check_facet (actor : CellId) (cap : CapabilityRef) (cap_slot : Z) (e : Effect)
    : result unit TurnError :=
  if is_effect_permitted (cap_allowed_effects cap) (effect_kind_mask e) then Ok tt
  else Err (TE_FacetViolation actor (cap_target cap) cap_slot "inner effect"
              (default 0 (cap_allowed_effects cap))).

Definition channel_refuses (cap : CapabilityRef) : option bytes :=
  channels ← revocation_channels ex;
  breadstuff ← cap_breadstuff cap;
  match check_exercise_permitted channels breadstuff (block_height ex) (block_height ex)
          (max_introduction_lifetime ex) with
  | Ok _ => None
  | Err _ => if bool_decide (is_Some (channels !! breadstuff)) then Some breadstuff else None
  end.

(** Everything [ExerciseViaCapability] checks before it runs the inner
    effects; the result is the capability. *)
Definition check_exercise (L : Ledger) (actor : CellId) (cap_slot : Z) (inner : list Effect)
    : result CapabilityRef TurnError :=
  cell_or L actor (TE_CellNotFound actor) (fun a =>
    let? cap := ok_or (lookup_cap (c_capabilities a) cap_slot) (TE_CapabilityNotHeld actor zero32) in
    let cap_t := cap_target cap in
    if negb (not_expired cap (block_height ex)) then Err (TE_CapabilityNotHeld actor cap_t)
    else match channel_refuses cap with
    | Some ch => Err (TE_CapabilityRevoked actor ch (block_height ex))
    | None =>
        cell_or L cap_t (TE_CellNotFound cap_t) (fun target_cell =>
          let current_epoch := delegation_epoch (c_state target_cell) in
          let? _ := match cap_stored_epoch cap with
                    | Some stored => if stored <? current_epoch
                                     then Err (TE_CapabilityStale actor cap_t stored current_epoch)
                                     else Ok tt
                    | None => Ok tt
                    end in
          if bool_decide (cap_permissions cap = AR_Impossible)
          then Err (TE_PermissionDenied cap_t "ExerciseViaCapability" AR_Impossible)
          else
            let? _ := try_fold (fun _ e => check_inner L actor cap target_cell e) tt inner in
            let? _ := match cap_allowed_effects cap with
                      | None => Ok tt
                      | Some _ => try_fold (fun _ e => check_facet actor cap cap_slot e) tt inner
                      end in
            Ok cap)
    end).

(** ** The dispatch *)

Fixpoint apply_effect (created_by_turn : bytes) (e : Effect) (action_target actor : CellId) : M unit :=
  match e with
  | EffSetField cell index value => apply_set_field action_target actor cell index value
  | EffTransfer from to amount => apply_transfer action_target actor from to amount
  | EffGrantCapability from to cap => apply_grant_capability action_target actor from to cap created_by_turn
  | EffRevokeCapability cell slot => apply_revoke_capability action_target actor cell slot
  | EffEmitEvent cell topic data => apply_emit_event cell topic data
  | EffIncrementNonce cell => apply_increment_nonce action_target actor cell
  | EffCreateCell pk tok b => apply_create_cell pk tok b
  | EffSetPermissions cell p => apply_set_permissions action_target actor cell p
  | EffSetVerificationKey cell vk => apply_set_verification_key action_target actor cell vk
  | EffSetProgram cell p => apply_set_program action_target actor cell p
  | EffNoteSpend n r v a proof vc => apply_note_spend n r proof v a vc
  | EffNoteCreate c v _ _ vc rp => apply_note_create c v vc rp
  | EffExerciseViaCapability cap_slot inner =>
      let! cap := reads (fun L => check_exercise L actor cap_slot inner) in
      for_each (fun e' => apply_effect created_by_turn e' (cap_target cap) actor) inner
  | EffPipelinedSend _ _ =>
      throw (TE_PreconditionFailed "unresolved PipelinedSend; turn must be executed within a pipeline")
  | EffIntroduce i r t p => apply_introduce i r t p created_by_turn
  | EffSpawnWithDelegation pk tok stale => apply_spawn_with_delegation action_target pk tok stale
  | EffRefreshDelegation child snapshot => apply_refresh_delegation action_target child snapshot
  | EffRevokeDelegation child => apply_revoke_delegation action_target child
  | EffMakeSovereign cell => apply_make_sovereign action_target cell
  | EffRefusal cell offered reason _ => apply_refusal action_target actor cell offered reason
  | EffCellSeal target reason => apply_cell_seal action_target target reason
  | EffCellUnseal target => apply_cell_unseal action_target target
  | EffCellDestroy target cert => apply_cell_destroy action_target target cert
  | EffBurn target slot amount => apply_burn actor target slot amount
  | EffMint target slot amount => apply_mint actor target slot amount
  | EffAttenuateCapability cell slot p eff exp => apply_attenuate_capability actor cell slot p eff exp
  | EffReceiptArchive h checkpoint => apply_receipt_archive action_target h checkpoint
  | EffCustom cell => throw (TE_CustomEffectRequiresProofCarryingTurn cell)
  end.

(** ** What an action writes beside its effects

    From [execute_tree]: the delegation snapshot of a [SnapshotRefresh] child,
    the [proved_state] flag after the effects, the action's own balance change
    against the turn's excess, and the nonce of a target that changed. *)

Definition is_hosted (id : CellId) : M bool :=
  reads (fun L => Ok (bool_decide (is_Some (get L id)))).

(** [if let Some(c) = ledger.get_mut(id) { .. }]. *)
Definition if_hosted (id : CellId)
    (body : Cell -> option (Cell * list JournalEntry * result unit TurnError)) : M unit := fun st =>
  match cells (x_ledger st) !! id with
  | None => Some (with_ledger st (get_mut (x_ledger st) id (fun c => c)), Ok tt)
  | Some _ => on_cell id (TE_CellNotFound id) body st
  end.

Definition snapshot_refresh (parent_cell target : CellId) : M unit :=
  let! found := reads (fun L =>
    Ok (walk_delegation_chain_for_capability MAX_HOPS L parent_cell target (block_height ex))) in
  match found : option CellId with
  | None => throw (TE_CapabilityNotHeld parent_cell target)
  | Some ancestor_id =>
      let! ancestor := reads (fun L => ok_or (get L ancestor_id) (TE_CellNotFound ancestor_id)) in
      on_cell parent_cell (TE_CellNotFound parent_cell) (fun c =>
        match c_delegation c with
        | Some _ => Some (c, [], Ok tt)
        | None =>
            Some (with_delegation c
                    (Some (snapshot_of ancestor_id parent_cell ancestor (max_introduction_lifetime ex))),
                  [JSetDelegation parent_cell None], Ok tt)
        end) ;;;
      reads (fun L =>
        cell_or L parent_cell (TE_CellNotFound parent_cell) (fun c =>
          if has_access_including_delegation_at c target (block_height ex) then Ok tt
          else Err (TE_CapabilityNotHeld parent_cell target)))
  end.

Definition update_proved_state (cell_id : CellId) (value : bool) : M unit :=
  if_hosted cell_id (fun c =>
    if Bool.eqb (proved_state (c_state c)) value then Some (c, [], Ok tt)
    else Some (with_state c (with_proved_state (c_state c) value),
               [JSetProvedState cell_id (proved_state (c_state c))], Ok tt)).

(** The result is the new excess. *)
Definition action_balance_change (excess : Z) (target : CellId) (delta : Z) : M Z :=
  reads (fun L =>
    cell_or L target (TE_CellNotFound target) (fun c =>
      let current := balance (c_state c) in
      match checked_add_i64 current delta with
      | Some new_bal =>
          if (0 <=? delta) || (0 <=? new_bal) then Ok tt
          else Err (TE_BalanceChangeUnderflow target current delta)
      | None => Err (TE_BalanceOverflow target)
      end)) ;;;
  on_cell target (TE_CellNotFound target) (fun c =>
    let b := balance (c_state c) in
    Some (with_state c (with_balance (c_state c) (b + delta)), [JSetBalance target b], Ok tt)) ;;;
  reads (fun _ => ok_or (checked_sub_i64 excess delta) (TE_BalanceOverflow target)).

Definition bump_target_nonce (target : CellId) : M unit :=
  if_hosted target (fun c =>
    Some (with_state c (increment_nonce (c_state c)).1, [JSetNonce target (nonce (c_state c))], Ok tt)).

End Executor.
