(* ===== verification/Forest.v ===== *)
(** * Call forests

    Models [turn/src/forest.rs] with the parts of [Action], [Authorization] and
    [DelegationMode] of [turn/src/action.rs] that the executor reads: the trees
    of actions a turn is made of, their Merkle hashes (cached and recomputed),
    the depth-first iterators and the counts. *)

From stdpp Require Import base decidable option list gmap sorting strings.
From Stdlib Require Import ZArith Lia.
From S2P Require Import Prelude BabyBear Poseidon2 CapRoot Heap State Permissions Facet.
From S2P Require Import Derivation Capability Lifecycle Cell Migration Merkle Ledger Notes.
From S2P Require Import Channels Journal Executor.

Open Scope Z_scope.

(** ** Data *)

(** The variants; what they carry is read by the authorisation check alone. *)
Inductive Authorization : Type :=
| AuthSignature
| AuthProof
| AuthBreadstuff
| AuthBearer
| AuthUnchecked
| AuthCapTpDelivered
| AuthHybridSignature
| AuthCustom
| AuthOneOf (candidates : list Authorization)
| AuthStealth
| AuthToken.

Inductive DelegationMode : Type :=
| DelegNone
| DelegParentsOwn
| DelegInherit
| DelegSnapshotRefresh.

(** [a_rest] stands for the fields only the parameters of the model read: the
    method, the arguments, the preconditions, the commitment mode and what the
    authorisation carries. *)
Record TurnAction `{ProgramCodec} : Type := mkAction {
  a_target : CellId;
  a_authorization : Authorization;
  a_effects : list Effect;
  a_may_delegate : DelegationMode;
  a_balance_change : option Z;
  a_witness_blobs : list bytes;
  a_rest : bytes;
}.

Arguments mkAction {_} _ _ _ _ _ _ _.
Arguments a_target {_} _.
Arguments a_authorization {_} _.
Arguments a_effects {_} _.
Arguments a_may_delegate {_} _.
Arguments a_balance_change {_} _.
Arguments a_witness_blobs {_} _.
Arguments a_rest {_} _.

Inductive CallTree `{ProgramCodec} : Type :=
| mkTree (action : TurnAction) (children : list CallTree) (hash : bytes).

Record CallForest `{ProgramCodec} : Type := mkForest {
  roots : list CallTree;
  forest_hash : bytes;
}.

Arguments mkForest {_} _ _.
Arguments roots {_} _.
Arguments forest_hash {_} _.

(** A sovereign cell handed in with a turn, and the turn.  [t_rest] is what only
    the hash of a turn covers; turns with an execution proof or with binding
    proofs take another path and are not of this type. *)
Record SovereignCellWitness `{ProgramCodec} : Type := mkWitness {
  sw_cell_id : CellId;
  sw_old_commitment : bytes;
  sw_new_commitment : bytes;
  sw_effects_hash : bytes;
  sw_timestamp : Z;
  sw_sequence : Z;
  sw_signature : bytes;
  sw_cell_state : Cell;
  sw_transition_proof : option bytes;
}.

Arguments mkWitness {_} _ _ _ _ _ _ _ _ _.
Arguments sw_cell_id {_} _.
Arguments sw_old_commitment {_} _.
Arguments sw_new_commitment {_} _.
Arguments sw_effects_hash {_} _.
Arguments sw_timestamp {_} _.
Arguments sw_sequence {_} _.
Arguments sw_signature {_} _.
Arguments sw_cell_state {_} _.
Arguments sw_transition_proof {_} _.

Record Turn `{ProgramCodec} : Type := mkTurn {
  t_agent : CellId;
  t_nonce : Z;
  t_call_forest : CallForest;
  t_fee : Z;
  t_valid_until : option Z;
  t_previous_receipt_hash : option bytes;
  t_conservation_proof : option bytes;
  t_sovereign_witnesses : list (CellId * SovereignCellWitness);
  t_rest : bytes;
}.

Arguments mkTurn {_} _ _ _ _ _ _ _ _ _.
Arguments t_agent {_} _.
Arguments t_nonce {_} _.
Arguments t_call_forest {_} _.
Arguments t_fee {_} _.
Arguments t_valid_until {_} _.
Arguments t_previous_receipt_hash {_} _.
Arguments t_conservation_proof {_} _.
Arguments t_sovereign_witnesses {_} _.
Arguments t_rest {_} _.

Section Forest.
Context `{HB : Blake3} `{HC : ProgramCodec}.

Definition t_action (t : CallTree) : TurnAction := let 'mkTree a _ _ := t in a.
Definition t_children (t : CallTree) : list CallTree := let 'mkTree _ cs _ := t in cs.
Definition t_hash (t : CallTree) : bytes := let 'mkTree _ _ h := t in h.

(** Induction over the children. *)
Lemma tree_ind' (P : CallTree -> Prop) :
  (forall a cs h, Forall P cs -> P (mkTree a cs h)) -> forall t, P t.
Proof.
  intros H. fix IH 1. intros [a cs h]. apply H. induction cs as [|c cs IHcs]; constructor; [apply IH|exact IHcs].
Qed.

(** ** Trees *)

Definition tree_new (action : TurnAction) : CallTree := mkTree action [] zero32.

Definition add_child (t : CallTree) (action : TurnAction) : CallTree :=
  mkTree (t_action t) (t_children t ++ [tree_new action]) zero32.

Definition nat_max (l : list nat) : nat := foldr Nat.max O l.
Definition nat_sum (l : list nat) : nat := foldr Nat.add O l.

Fixpoint depth (t : CallTree) : nat :=
  match t with
  | mkTree _ [] _ => O
  | mkTree _ cs _ => S (nat_max (map depth cs))
  end.

Fixpoint action_count (t : CallTree) : nat :=
  let 'mkTree _ cs _ := t in S (nat_sum (map action_count cs)).

Fixpoint all_effects (t : CallTree) : list Effect :=
  let 'mkTree a cs _ := t in a_effects a ++ concat (map all_effects cs).

(** The stack of [CallTreeIter], its top first. *)
Definition iter_next (stack : list CallTree) : option (CallTree * list CallTree) :=
  match stack with
  | [] => None
  | node :: stack' => Some (node, t_children node ++ stack')
  end.

Fixpoint drain (fuel : nat) (stack : list CallTree) : option (list CallTree) :=
  match iter_next stack with
  | None => Some []
  | Some (node, stack') =>
      match fuel with
      | O => None
      | S fuel' => rest ← drain fuel' stack'; Some (node :: rest)
      end
  end.

Definition iter_dfs (t : CallTree) : option (list CallTree) := drain (action_count t) [t].

(** ** Hashes *)

Context (action_hash : TurnAction -> bytes).

Definition children_hash (hs : list bytes) : bytes :=
  match hs with [] => zero32 | _ => blake3_hash (concat hs) end.

(** [CallTree::compute_hash]: the children first, every node caches its hash. *)
Fixpoint compute_hash (t : CallTree) : CallTree :=
  let 'mkTree a cs _ := t in
  let cs' := map compute_hash cs in
  mkTree a cs' (blake3_hash (action_hash a ++ children_hash (map t_hash cs'))).

(** [CallForest::compute_tree_hash], from scratch. *)
Fixpoint compute_tree_hash (t : CallTree) : bytes :=
  let 'mkTree a cs _ := t in
  blake3_hash (action_hash a ++ children_hash (map compute_tree_hash cs)).

(** ** Forests *)

Definition forest_new : CallForest := mkForest [] zero32.

Definition add_root (f : CallForest) (action : TurnAction) : CallForest :=
  mkForest (roots f ++ [tree_new action]) zero32.

Definition hash_forest (f : CallForest) : CallForest :=
  let rs := map compute_hash (roots f) in
  mkForest rs (children_hash (map t_hash rs)).

Definition forest_compute_hash (f : CallForest) : bytes :=
  children_hash (map compute_tree_hash (roots f)).

Definition forest_action_count (f : CallForest) : nat := nat_sum (map action_count (roots f)).

Definition total_effects (f : CallForest) : list Effect := concat (map all_effects (roots f)).

Definition forest_is_empty (f : CallForest) : bool := match roots f with [] => true | _ => false end.

Definition max_depth (f : CallForest) : nat := nat_max (map depth (roots f)).

(** [ForestDfsIter]: the trees' iterators one after the other. *)
Fixpoint drain_roots (rs : list CallTree) : option (list CallTree) :=
  match rs with
  | [] => Some []
  | r :: rs' => l ← iter_dfs r; l' ← drain_roots rs'; Some (l ++ l')
  end.

Definition forest_iter_dfs (f : CallForest) : option (list CallTree) := drain_roots (roots f).

(** ** Traversals *)

(** Pre-order, the reference the iterator is compared with. *)
Fixpoint preorder (t : CallTree) : list CallTree :=
  let 'mkTree _ cs _ := t in t :: concat (map preorder cs).

Lemma preorder_length t : length (preorder t) = action_count t.
Proof.
  induction t as [a cs h IH] using tree_ind'. cbn. f_equal.
  induction IH as [|c cs Hc _ IHcs]; cbn; [done|]. by rewrite length_app, Hc, IHcs.
Qed.

Lemma preorder_effects t : concat (map (fun n => a_effects (t_action n)) (preorder t)) = all_effects t.
Proof.
  induction t as [a cs h IH] using tree_ind'. cbn. f_equal.
  induction IH as [|c cs Hc _ IHcs]; cbn; [done|]. by rewrite map_app, concat_app, Hc, IHcs.
Qed.

Lemma drain_spec n : forall stack, length (concat (map preorder stack)) = n ->
  drain n stack = Some (concat (map preorder stack)).
Proof.
  induction n as [|n IH]; intros stack Hn.
  - destruct stack as [|[a cs h] stack]; [done|discriminate Hn].
  - destruct stack as [|[a cs h] stack]; [discriminate Hn|].
    cbn [drain iter_next t_children]. assert (E : concat (map preorder (mkTree a cs h :: stack)) =
      mkTree a cs h :: concat (map preorder (cs ++ stack))).
    { cbn. by rewrite map_app, concat_app. }
    rewrite E in Hn. cbn in Hn. rewrite (IH (cs ++ stack)) by lia. cbn [mbind option_bind]. by rewrite <-E.
Qed.

Lemma iter_dfs_preorder t : iter_dfs t = Some (preorder t).
Proof.
  unfold iter_dfs. rewrite (drain_spec _ [t]); cbn; rewrite app_nil_r; [done|apply preorder_length].
Qed.

(** ** Hashes bind *)

(** What a hash can bind of a tree: the hashes of its actions, nested. *)
Inductive skeleton : Type := Skel (h : bytes) (cs : list skeleton).

Fixpoint skel (t : CallTree) : skeleton :=
  let 'mkTree a cs _ := t in Skel (action_hash a) (map skel cs).

Lemma compute_hash_tree t : t_hash (compute_hash t) = compute_tree_hash t.
Proof.
  induction t as [a cs h IH] using tree_ind'. cbn. do 3 f_equal.
  induction IH as [|c cs Hc _ IHcs]; cbn; [done|]. by rewrite Hc, IHcs.
Qed.

Context `{!Blake3CR HB}.
Hypothesis action_hash_len : forall a, length (action_hash a) = 32%nat.
Hypothesis no_zero_digest : forall x, blake3_hash x <> zero32.

Lemma concat32_inj (xs ys : list bytes) :
  Forall (fun x => length x = 32%nat) xs -> Forall (fun x => length x = 32%nat) ys ->
  concat xs = concat ys -> xs = ys.
Proof.
  intros Hx. revert ys. induction Hx as [|x xs Hx _ IH]; intros ys Hy E.
  - destruct Hy as [|y ys Hy _]; [done|]. destruct y; [done|discriminate E].
  - destruct Hy as [|y ys Hy Hys]; [destruct x; [done|discriminate E]|]. cbn in E.
    apply app_inj_1 in E as [-> E]; [|congruence]. f_equal. by apply IH.
Qed.

Lemma tree_hash_len t : length (compute_tree_hash t) = 32%nat.
Proof. destruct t. apply length_blake3_hash. Qed.

Lemma children_hash_inj (xs ys : list CallTree) :
  children_hash (map compute_tree_hash xs) = children_hash (map compute_tree_hash ys) ->
  map compute_tree_hash xs = map compute_tree_hash ys.
Proof.
  assert (Hl : forall zs, Forall (fun x : bytes => length x = 32%nat) (map compute_tree_hash zs)).
  { intros zs. induction zs; constructor; [apply tree_hash_len|done]. }
  unfold children_hash. intros E.
  destruct (map compute_tree_hash xs) as [|x xs'] eqn:Ex, (map compute_tree_hash ys) as [|y ys'] eqn:Ey; [done|..].
  - symmetry in E. by apply no_zero_digest in E.
  - by apply no_zero_digest in E.
  - apply blake3_hash_inj in E. apply concat32_inj in E; [done|by rewrite <-Ex|by rewrite <-Ey].
Qed.

Lemma tree_hash_binds t1 : forall t2, compute_tree_hash t1 = compute_tree_hash t2 -> skel t1 = skel t2.
Proof.
  induction t1 as [a cs h IH] using tree_ind'. intros [a' cs' h'] E. cbn in E.
  apply blake3_hash_inj in E. apply app_inj_1 in E as [Ea Ec]; [|by rewrite !action_hash_len].
  apply children_hash_inj in Ec. cbn. f_equal; [done|]. clear Ea h h'.
  revert cs' Ec. induction IH as [|c cs Hc _ IHcs]; intros [|c' cs'] Ec; try discriminate Ec; [done|].
  injection Ec as E1 E2. cbn. f_equal; [by apply Hc|by apply IHcs].
Qed.

(** The hash of a forest identifies it, up to the hashes of its actions: the
    cached and the recomputed hash agree, and two forests with one hash have
    the same trees of action hashes, nesting and order included, provided no
    message hashes to the zeros that stand for no children. *)
Theorem forest_hash_binds (f1 f2 : CallForest) :
  forest_hash (hash_forest f1) = forest_compute_hash f1 /\
  (forest_compute_hash f1 = forest_compute_hash f2 -> map skel (roots f1) = map skel (roots f2)).
Proof.
  split.
  - unfold hash_forest, forest_compute_hash. cbn. f_equal. rewrite map_map. apply map_ext, compute_hash_tree.
  - intros E%children_hash_inj. revert E. generalize (roots f2).
    induction (roots f1) as [|t ts IH]; intros [|t' ts'] E; try discriminate E; [done|].
    injection E as E1 E2. cbn. f_equal; [by apply tree_hash_binds|by apply IH].
Qed.

End Forest.

(** The iterator visits every action once, parents before children and left to
    right, and stops: as many nodes as [action_count], their effects in order
    being [total_effects]. *)
Theorem forest_iterator_preorder `{HC : ProgramCodec} (f : CallForest) :
  exists l, forest_iter_dfs f = Some l /\ l = concat (map preorder (roots f)) /\
    length l = forest_action_count f /\
    concat (map (fun t => a_effects (t_action t)) l) = total_effects f.
Proof.
  exists (concat (map preorder (roots f))). unfold forest_iter_dfs, forest_action_count, total_effects.
  induction (roots f) as [|t ts (IH1 & _ & IH2 & IH3)]; [done|]. cbn [drain_roots map concat].
  rewrite iter_dfs_preorder, IH1. split_and!; [done|done| |].
  - by rewrite length_app, IH2, preorder_length.
  - by rewrite map_app, concat_app, IH3, preorder_effects.
Qed.

(** ** Witnesses *)

#[local] Existing Instance model_blake3.
#[local] Existing Instance model_codec.
#[local] Existing Instance model_blake3_cr.

Definition w_action (n : Z) : TurnAction := mkAction (fill32 n) AuthUnchecked [] DelegNone None [] [].

Definition w_forest : CallForest :=
  mkForest [mkTree (w_action 1) [tree_new (w_action 2); tree_new (w_action 3)] zero32] zero32.

Lemma forest_hash_binds_witness :
  forest_compute_hash (fun a => blake3_hash (a_target a)) w_forest =
  forest_compute_hash (fun a => blake3_hash (a_target a)) (hash_forest (fun a => blake3_hash (a_target a)) w_forest) /\
  map (skel (fun a => blake3_hash (a_target a))) (roots w_forest) =
  map (skel (fun a => blake3_hash (a_target a))) (roots (hash_forest (fun a => blake3_hash (a_target a)) w_forest)).
Proof.
  assert (E : forest_compute_hash (fun a => blake3_hash (a_target a)) w_forest =
    forest_compute_hash (fun a => blake3_hash (a_target a))
      (hash_forest (fun a => blake3_hash (a_target a)) w_forest)) by reflexivity.
  split; [exact E|].
  apply (forest_hash_binds (fun a => blake3_hash (a_target a)) (fun a => length_blake3_hash _)); [|exact E].
  intros x. discriminate.
Defined.
