(* ===== verification/Metering.v ===== *)
(** * Metering and note conservation

    Models the cost tables of [turn/src/executor/costs.rs], [Effect::data_bytes]
    and [is_permission_effect] of [turn/src/action.rs], and of
    [turn/src/executor/finalize.rs] the cost of an effect and of a tree, the
    detection of the note mode and the note conservation check; with
    [estimate_cost] of [execute.rs] and [estimate_authorization_cost] of
    [executor/mod.rs].

    A cost is a [u64]; the products and sums the source does not saturate panic
    on overflow, which is an outer [None]. *)

From stdpp Require Import base decidable option list gmap sorting strings.
From Stdlib Require Import ZArith Lia.
From S2P Require Import Prelude BabyBear Poseidon2 CapRoot Heap State Permissions Facet.
From S2P Require Import Derivation Capability Lifecycle Cell Migration Merkle Ledger Notes.
From S2P Require Import Channels Journal Executor Forest.

Open Scope Z_scope.

(** [Iterator::sum], which panics past the width. *)
Definition checked_sum (l : list (option Z)) : option Z :=
  foldl (fun acc x => a ← acc; v ← x; checked_add_u64 a v) (Some 0) l.

Record ComputronCosts : Type := mkCosts {
  action_base : Z;
  effect_base : Z;
  transfer_cost : Z;
  create_cell_cost : Z;
  proof_verify : Z;
  signature_verify : Z;
  per_byte : Z;
}.

Definition default_costs : ComputronCosts := mkCosts 100 50 75 500 1000 200 1.
Definition zero_costs : ComputronCosts := mkCosts 0 0 0 0 0 0 0.

(** The length of a program in the wire encoding, a crate's. *)
Class ProgramSize `{ProgramCodec} := postcard_program_len : CellProgram -> Z.

Section Metering.
Context `{HB : Blake3} `{HC : ProgramCodec} `{HP : !ProgramSize}.

Definition blen (b : bytes) : Z := Z.of_nat (length b).
Definition opt_len (n : Z) {A} (o : option A) : Z := match o with Some _ => n | None => 0 end.

Fixpoint data_bytes (e : Effect) : Z :=
  match e with
  | EffSetField _ _ _ => 32 + 8 + 32
  | EffTransfer _ _ _ => 32 + 32 + 8
  | EffGrantCapability _ _ _ => 32 + 32 + 36
  | EffRevokeCapability _ _ => 32 + 4
  | EffEmitEvent _ _ data => 32 + 32 + Z.of_nat (length data) * 32
  | EffIncrementNonce _ => 32
  | EffCreateCell _ _ _ => 32 + 32 + 8
  | EffSetPermissions _ _ => 32 + 8 * 1
  | EffSetVerificationKey _ new_vk =>
      32 + match new_vk with Some vk => 1 + blen (vk_data vk) | None => 1 end
  | EffNoteSpend _ _ _ _ proof vc => 32 + 32 + 8 + 8 + blen proof + opt_len 32 vc
  | EffNoteCreate _ _ _ enc vc rp => 32 + 8 + 8 + blen enc + opt_len 32 vc + from_option blen 0 rp
  | EffPipelinedSend _ _ => 32 + 4 + 32
  | EffIntroduce _ _ _ _ => 97
  | EffSpawnWithDelegation _ _ _ => 32 + 32 + 8
  | EffRefreshDelegation _ _ => 32 + 32
  | EffRevokeDelegation _ => 32
  | EffExerciseViaCapability _ inner => 4 + foldr Z.add 0 (map data_bytes inner)
  | EffMakeSovereign _ => 32
  | EffRefusal _ _ reason _ => 32 + 32 + 1 + (match reason with CustomReason _ => 32 | _ => 0 end) + 4
  | EffCellSeal _ _ => 32 + 32
  | EffCellUnseal _ => 32
  | EffCellDestroy _ _ => 32 + 32
  | EffBurn _ _ _ => 32 + 4 + 8
  | EffMint _ _ _ => 32 + 4 + 8
  | EffAttenuateCapability _ _ _ _ _ => 32 + 4 + 1 + 4 + 8
  | EffReceiptArchive _ _ => 8 + 32
  | EffSetProgram _ program => 32 + postcard_program_len program
  | EffCustom _ => 32 + 32 + 32
  end.

(** Effects an action applies after all others. *)
Definition is_permission_effect (e : Effect) : bool :=
  match e with
  | EffSetPermissions _ _ | EffSetVerificationKey _ _ | EffSetProgram _ _ => true
  | _ => false
  end.

Context (costs : ComputronCosts).

Fixpoint compute_effect_cost (e : Effect) : option Z :=
  extra ← match e with
          | EffTransfer _ _ _ => Some (transfer_cost costs)
          | EffCreateCell _ _ _ | EffSpawnWithDelegation _ _ _ => Some (create_cell_cost costs)
          | EffSetField _ _ _ | EffRevokeCapability _ _ | EffIncrementNonce _ => Some 0
          | EffEmitEvent _ _ data =>
              n ← checked_mul_u64 (Z.of_nat (length data)) (per_byte costs);
              checked_mul_u64 n 32
          | EffGrantCapability _ _ _ | EffSetPermissions _ _ | EffSetVerificationKey _ _
          | EffSetProgram _ _ | EffNoteCreate _ _ _ _ _ _ | EffPipelinedSend _ _ | EffIntroduce _ _ _ _
          | EffRefreshDelegation _ _ | EffRevokeDelegation _ | EffMakeSovereign _
          | EffCellSeal _ _ | EffCellUnseal _ | EffCellDestroy _ _ | EffReceiptArchive _ _
          | EffAttenuateCapability _ _ _ _ _ => Some (effect_base costs)
          | EffNoteSpend _ _ _ _ _ _ | EffCustom _ => Some (proof_verify costs)
          | EffExerciseViaCapability _ inner => checked_sum (map compute_effect_cost inner)
          | EffRefusal _ _ _ _ => Some (saturating_add_u64 (effect_base costs) (proof_verify costs))
          | EffBurn _ _ _ | EffMint _ _ _ =>
              Some (saturating_add_u64 (effect_base costs) (transfer_cost costs))
          end;
  Some (saturating_add_u64 (saturating_add_u64 (effect_base costs) extra)
          (saturating_mul_u64 (data_bytes e) (per_byte costs))).

Fixpoint estimate_authorization_cost (a : Authorization) : Z :=
  match a with
  | AuthSignature | AuthBearer | AuthStealth => signature_verify costs
  | AuthProof | AuthCustom | AuthToken => proof_verify costs
  | AuthBreadstuff => signature_verify costs / 2
  | AuthUnchecked => 0
  | AuthCapTpDelivered | AuthHybridSignature => saturating_mul_u64 (signature_verify costs) 2
  | AuthOneOf candidates => foldr Z.max 0 (map estimate_authorization_cost candidates)
  end.

(** [total = total.saturating_add(cost?)] over a list. *)
Definition add_costs (total : Z) (l : list (option Z)) : option Z :=
  foldl (fun acc x => a ← acc; v ← x; Some (saturating_add_u64 a v)) (Some total) l.

Fixpoint estimate_tree_cost (t : CallTree) : option Z :=
  let 'mkTree a cs _ := t in
  total ← add_costs (saturating_add_u64 (action_base costs) (estimate_authorization_cost (a_authorization a)))
            (map compute_effect_cost (a_effects a));
  add_costs total (map estimate_tree_cost cs).

Definition estimate_cost (f : CallForest) : option Z := add_costs 0 (map estimate_tree_cost (roots f)).

(** ** Notes *)

Inductive NoteCommitmentMode : Type := NoteCleartext | NoteCommitted | NoteMixed | NoteEmpty.

(** The two flags: some note committed, some in the clear. *)
Fixpoint detect_commitment_mode_effect (e : Effect) (flags : bool * bool) : bool * bool :=
  match e with
  | EffNoteSpend _ _ _ _ _ vc | EffNoteCreate _ _ _ _ vc _ =>
      match vc with Some _ => (true, flags.2) | None => (flags.1, true) end
  | EffExerciseViaCapability _ inner => foldl (fun fl i => detect_commitment_mode_effect i fl) flags inner
  | _ => flags
  end.

Fixpoint detect_commitment_mode_tree (t : CallTree) (flags : bool * bool) : bool * bool :=
  let 'mkTree a cs _ := t in
  foldl (fun fl c => detect_commitment_mode_tree c fl)
    (foldl (fun fl e => detect_commitment_mode_effect e fl) flags (a_effects a)) cs.

Definition detect_commitment_mode (f : CallForest) : NoteCommitmentMode :=
  match foldl (fun fl t => detect_commitment_mode_tree t fl) (false, false) (roots f) with
  | (false, false) => NoteEmpty
  | (true, false) => NoteCommitted
  | (false, true) => NoteCleartext
  | (true, true) => NoteMixed
  end.

(** Per asset type, what was spent and what was created. *)
Definition NoteTotals : Type := gmap Z Z * gmap Z Z.

Definition NoteError : Type := Z * Z * Z.

Fixpoint collect_note_effects_from_effect (tot : NoteTotals) (e : Effect) : result NoteTotals NoteError :=
  match e with
  | EffNoteSpend _ _ value asset _ _ =>
      match checked_add_u64 (default 0 (tot.1 !! asset)) value with
      | Some v => Ok (<[asset := v]> tot.1, tot.2)
      | None => Err (asset, u64_max, 0)
      end
  | EffNoteCreate _ value asset _ _ _ =>
      match checked_add_u64 (default 0 (tot.2 !! asset)) value with
      | Some v => Ok (tot.1, <[asset := v]> tot.2)
      | None => Err (asset, 0, u64_max)
      end
  | EffExerciseViaCapability _ inner => try_fold collect_note_effects_from_effect tot inner
  | _ => Ok tot
  end.

Fixpoint collect_note_effects_tree (tot : NoteTotals) (t : CallTree) : result NoteTotals NoteError :=
  let 'mkTree a cs _ := t in
  let? tot' := try_fold collect_note_effects_from_effect tot (a_effects a) in
  try_fold collect_note_effects_tree tot' cs.

Definition collect_note_effects (f : CallForest) : result NoteTotals NoteError :=
  try_fold collect_note_effects_tree (∅, ∅) (roots f).

(** The two sides of an asset type agree. *)
Definition asset_balanced (tot : NoteTotals) (asset : Z) : bool :=
  default 0 (tot.1 !! asset) =? default 0 (tot.2 !! asset).

(** The committed path is the Pedersen check of the crypto crate. *)
Definition check_note_conservation (committed_ok : bool) (f : CallForest) : result unit NoteError :=
  match detect_commitment_mode f with
  | NoteCleartext =>
      let? tot := collect_note_effects f in
      match ffind (fun asset => negb (asset_balanced tot asset)) ((map_to_list tot.1).*1 ++ (map_to_list tot.2).*1) with
      | Some asset => Err (asset, default 0 (tot.1 !! asset), default 0 (tot.2 !! asset))
      | None => Ok tt
      end
  | NoteCommitted => if committed_ok then Ok tt else Err (0, 0, 0)
  | NoteMixed => Err (0, 0, 0)
  | NoteEmpty => Ok tt
  end.

End Metering.
