(* ===== verification/ExecuteTree.v ===== *)
(** * Executing a call tree

    Models [execute_tree] of [turn/src/executor/execute_tree.rs] and
    [collect_touched_cells] of [authorize.rs]: one action with its metering,
    reachability, structural checks, effects (the permission-changing ones
    last), proved-state, balance change, programs and nonce, then its children.

    The check of the preconditions, of the authorisation and of the program of a
    touched cell are parameters ([TurnChecks]); they read, and get the path of
    the action, so that a stateful check can answer differently at each action.
    The maps and sets the source iterates over in hash order are walked in the
    order of insertion. *)

From stdpp Require Import base decidable option list gmap sorting strings.
From Stdlib Require Import ZArith Lia.
From S2P Require Import Prelude BabyBear Poseidon2 CapRoot Heap State Permissions Facet.
From S2P Require Import Derivation Capability Lifecycle Cell Migration Merkle Ledger Notes.
From S2P Require Import Channels Journal Executor Forest Metering.

Open Scope Z_scope.

(** ** Checks made by code outside the model *)

Class TurnChecks `{ProgramCodec} := {
  check_preconditions : list nat -> TurnAction -> Cell -> result unit TurnError;
  verify_authorization : list nat -> TurnAction -> Cell -> Ledger -> CellId -> Z -> result unit TurnError;
  evaluate_program : list nat -> TurnAction -> CellId -> Ledger -> list (CellId * CellState) -> CellId -> result unit TurnError;
}.

(** ** Structure of an action *)

Section Shape.
Context `{HC : ProgramCodec}.

Definition push_cell (out : list CellId) (id : CellId) : list CellId :=
  if bool_decide (id ∈ out) then out else out ++ [id].

Fixpoint touch_effect (out : list CellId) (e : Effect) : list CellId :=
  match e with
  | EffTransfer from to _ => push_cell (push_cell out from) to
  | EffSetField cell _ _ => push_cell out cell
  | EffIncrementNonce cell => push_cell out cell
  | EffGrantCapability from to _ => push_cell (push_cell out from) to
  | EffIntroduce introducer recipient target _ =>
      push_cell (push_cell (push_cell out introducer) recipient) target
  | EffExerciseViaCapability _ inner => foldl touch_effect out inner
  | EffRevokeDelegation child => push_cell out child
  | _ => out
  end.

Definition collect_touched_cells (a : TurnAction) : list CellId :=
  foldl touch_effect [a_target a] (a_effects a).

(** The effect, beside a refusal on [ref_cell], that contradicts it. *)
Definition conflicts_with (ref_cell : CellId) (other : Effect) : option string :=
  let on (b : bool) (name : string) := if b then Some name else None in
  match other with
  | EffSetField cell _ _ => on (bool_decide (cell = ref_cell)) "SetField"
  | EffSetPermissions cell _ => on (bool_decide (cell = ref_cell)) "SetPermissions"
  | EffSetVerificationKey cell _ => on (bool_decide (cell = ref_cell)) "SetVerificationKey"
  | EffTransfer from to _ => on (bool_decide (from = ref_cell) || bool_decide (to = ref_cell)) "Transfer"
  | EffGrantCapability from to _ =>
      on (bool_decide (from = ref_cell) || bool_decide (to = ref_cell)) "GrantCapability"
  | EffRevokeCapability cell _ => on (bool_decide (cell = ref_cell)) "RevokeCapability"
  | EffIncrementNonce cell => on (bool_decide (cell = ref_cell)) "IncrementNonce"
  | EffRefusal cell _ _ _ => on (bool_decide (cell = ref_cell)) "Refusal"
  | _ => None
  end%string.

Fixpoint find_map {A B} (f : A -> option B) (l : list A) : option B :=
  match l with
  | [] => None
  | x :: l' => match f x with Some b => Some b | None => find_map f l' end
  end.

Definition refusal_conflict (effects : list Effect) : option (CellId * string) :=
  let indexed := imap pair effects in
  find_map (fun ie =>
    match ie.2 with
    | EffRefusal ref_cell _ _ _ =>
        find_map (fun jo => if bool_decide (jo.1 = ie.1) then None
                            else pair ref_cell <$> conflicts_with ref_cell jo.2) indexed
    | _ => None
    end) indexed.

(** The first refusal whose witness index is out of range. *)
Definition missing_witness (a : TurnAction) : option (CellId * Z) :=
  let n := Z.of_nat (length (a_witness_blobs a)) in
  find_map (fun e => match e with
                     | EffRefusal cell _ _ index => if n <=? index then Some (cell, index) else None
                     | _ => None
                     end) (a_effects a).

(** The fields the action sets, by cell. *)
Definition set_fields (effects : list Effect) : list (CellId * Z) :=
  omap (fun e => match e with EffSetField cell index _ => Some (cell, index) | _ => None end) effects.

Definition field_cells (effects : list Effect) : list CellId := foldl push_cell [] (set_fields effects).*1.

Definition field_count (effects : list Effect) (cell : CellId) : nat :=
  size (list_to_set (snd <$> filter (fun p => p.1 = cell) (set_fields effects)) : gset Z).

(** [CellState] equality: the heap-tree cache is not part of the state. *)
Definition state_view (s : CellState) :=
  (fields s, field_visibility s, commitments s, nonce s, balance s, proved_state s,
   (delegation_epoch s, committed_height s, swiss_table_root s, refcount_table_root s),
   (fields_root s, fields_map s, system_roots s, heap_root s, heap_map s)).

Definition state_eqb (a b : CellState) : bool := bool_decide (state_view a = state_view b).

Definition is_bearer (a : Authorization) : bool := match a with AuthBearer => true | _ => false end.
Definition is_proof (a : Authorization) : bool := match a with AuthProof => true | _ => false end.
Definition is_sovereign_registered (L : Ledger) (id : CellId) : bool :=
  bool_decide (is_Some (sovereign_registrations L !! id)).

End Shape.

Section Tree.
Context `{HB : Blake3} `{HC : ProgramCodec} `{HO : TurnOracles} `{HP : !ProgramSize} `{HK : !TurnChecks}.
Context (ex : TurnExecutor) (costs : ComputronCosts).
Open Scope exec_scope.

(** ** Metering *)

Definition meter (budget used cost : Z) : M Z :=
  let used' := saturating_add_u64 used cost in
  if budget <? used' then throw (TE_BudgetExceeded budget used') else ret used'.

(** ** Reaching the target *)

Definition check_target (target : CellId) : M unit :=
  reads (fun L =>
    match get L target with
    | Some _ => Ok tt
    | None => if is_sovereign L target then Err (TE_SovereignWitnessRequired target)
              else Err (TE_CellNotFound target)
    end).

Definition check_reach (a : TurnAction) (parent : CellId) (mode : DelegationMode) : M unit :=
  if bool_decide (a_target a = parent) || is_bearer (a_authorization a) then ret tt
  else
    let! has_capability := reads (fun L =>
      cell_or L parent (TE_CellNotFound parent) (fun p =>
        Ok (has_access_including_delegation_at p (a_target a) (block_height ex)))) in
    if has_capability : bool then ret tt
    else match mode with
         | DelegSnapshotRefresh => snapshot_refresh ex parent (a_target a)
         | _ => throw (TE_CapabilityNotHeld parent (a_target a))
         end.

(** ** The effects *)

Fixpoint apply_metered (budget : Z) (turn : bytes) (target actor : CellId) (effects : list Effect) (used : Z)
    : M Z :=
  match effects with
  | [] => ret used
  | e :: effects' =>
      let! cost := total (compute_effect_cost costs e) in
      let! used' := meter budget used cost in
      apply_effect ex turn e target actor ;;;
      apply_metered budget turn target actor effects' used'
  end.

Definition mark_proved (a : TurnAction) : M unit :=
  for_each (fun cell =>
    if is_proof (a_authorization a)
    then if (field_count (a_effects a) cell =? STATE_SLOTS)%nat then update_proved_state cell true else ret tt
    else update_proved_state cell false) (field_cells (a_effects a)).

Definition snapshot_states (L : Ledger) (ids : list CellId) : list (CellId * CellState) :=
  omap (fun id => c ← get L id; Some (id, c_state c)) ids.

Definition check_programs (path : list nat) (a : TurnAction) (parent : CellId) (old : list (CellId * CellState))
    : M unit :=
  let to_check := if bool_decide (a_target a ∈ old.*1) then old.*1 else old.*1 ++ [a_target a] in
  for_each (fun id => reads (fun L =>
    match get L id with
    | None => Ok tt
    | Some c =>
        match c_program c with
        | ProgNone | ProgCircuit _ => Ok tt
        | _ => evaluate_program path a parent L old id
        end
    end)) to_check.

(** The target's nonce advances when the executor keeps it and the action
    changed the state. *)
Definition bumps_nonce (a : TurnAction) (agent : CellId) (old : list (CellId * CellState)) (L : Ledger) : bool :=
  let explicit := existsb (fun e => match e with EffIncrementNonce cell => bool_decide (cell = a_target a) | _ => false end)
                    (a_effects a) in
  let sovereign := is_sovereign L (a_target a) || is_sovereign_registered L (a_target a) in
  if bool_decide (a_target a = agent) || sovereign || explicit then false
  else match get L (a_target a) with
       | None => false
       | Some c =>
           match c_program c with
           | ProgNone =>
               match ffind (fun p => bool_decide (p.1 = a_target a)) old with
               | Some (_, old_state) => negb (state_eqb old_state (c_state c))
               | None => true
               end
           | _ => false
           end
       end.

(** ** One action

    The pair is the computrons used and the excess. *)
Definition execute_action (a : TurnAction) (parent : CellId) (mode : DelegationMode) (budget : Z)
    (path : list nat) (turn_nonce : Z) (agent : CellId) (turn : bytes) (counters : Z * Z) : M (Z * Z) :=
  let '(used, excess) := counters in
  let! used := meter budget used (action_base costs) in
  check_target (a_target a) ;;;
  check_reach a parent mode ;;;
  reads (fun L => cell_or L (a_target a) (TE_CellNotFound (a_target a)) (fun c =>
    let? _ := check_preconditions path a c in
    verify_authorization path a c L parent turn_nonce)) ;;;
  (match refusal_conflict (a_effects a) with
   | Some (cell, name) => throw (TE_RefusalConflictsWithMutation cell name)
   | None => ret tt
   end) ;;;
  let! used := meter budget used (estimate_authorization_cost costs (a_authorization a)) in
  let! old := reads (fun L => Ok (snapshot_states L (collect_touched_cells a))) in
  (match missing_witness a with
   | Some (cell, index) =>
       throw (TE_InvalidWitnessIndex cell index (Z.of_nat (length (a_witness_blobs a))))
   | None => ret tt
   end) ;;;
  let! used := apply_metered budget turn (a_target a) parent
                 (List.filter (fun e => negb (is_permission_effect e)) (a_effects a)) used in
  let! used := apply_metered budget turn (a_target a) parent
                 (List.filter is_permission_effect (a_effects a)) used in
  mark_proved a ;;;
  let! excess := (match a_balance_change a with
                  | Some delta => action_balance_change excess (a_target a) delta
                  | None => ret excess
                  end) in
  check_programs path a parent old ;;;
  let! bump := reads (fun L => Ok (bumps_nonce a agent old L)) in
  (if bump : bool then bump_target_nonce (a_target a) else ret tt) ;;;
  ret (used, excess).

(** ** The tree *)

Definition child_delegation (mode : DelegationMode) : DelegationMode :=
  match mode with DelegSnapshotRefresh => DelegSnapshotRefresh | _ => DelegNone end.

Definition check_child (a child : TurnAction) : M unit :=
  if bool_decide (a_target child = a_target a) then ret tt
  else match a_may_delegate a with
       | DelegSnapshotRefresh => ret tt
       | DelegNone => throw (TE_DelegationDenied (a_target a) (a_target child))
       | DelegParentsOwn | DelegInherit =>
           throw (TE_DelegationModeUnimplemented (a_target a) (a_target child))
       end.

Fixpoint execute_tree (budget turn_nonce : Z) (agent : CellId) (turn : bytes) (t : CallTree)
    (parent : CellId) (mode : DelegationMode) (path : list nat) (counters : Z * Z) : M (Z * Z) :=
  let 'mkTree a children _ := t in
  let! counters := execute_action a parent mode budget path turn_nonce agent turn counters in
  (fix go (i : nat) (cs : list CallTree) (counters : Z * Z) : M (Z * Z) :=
     match cs with
     | [] => ret counters
     | child :: cs' =>
         check_child a (t_action child) ;;;
         let! counters := execute_tree budget turn_nonce agent turn child (a_target a)
                            (child_delegation (a_may_delegate a)) (path ++ [i]) counters in
         go (S i) cs' counters
     end) O children counters.

(** The roots, each run by the agent on its own authority. *)
Fixpoint execute_roots (budget turn_nonce : Z) (agent : CellId) (turn : bytes) (i : nat)
    (ts : list CallTree) (counters : Z * Z) : M (Z * Z) :=
  match ts with
  | [] => ret counters
  | t :: ts' =>
      let! counters := execute_tree budget turn_nonce agent turn t agent DelegParentsOwn [i] counters in
      execute_roots budget turn_nonce agent turn (S i) ts' counters
  end.

End Tree.
