(* ===== verification/Conflict.v ===== *)
(** * Conflict sets and access sets

    Models [turn/src/conflict.rs]: the Bloom filter over the cells a turn reads
    and writes, the overlap test, and the extraction of the two sets from a
    turn.  A filter is its 32 bytes.  Counting past [u16] panics. *)

From stdpp Require Import base decidable option list gmap sorting strings.
From Stdlib Require Import ZArith Lia.
From S2P Require Import Prelude BabyBear Poseidon2 CapRoot Heap State Permissions Facet.
From S2P Require Import Derivation Capability Lifecycle Cell Migration Merkle Ledger Notes.
From S2P Require Import Channels Journal Executor Forest.

Open Scope Z_scope.

Definition BLOOM_K : nat := 8.
Definition BLOOM_BITS : Z := 256.
Definition BLOOM_BYTES : nat := 32.

Record ConflictSet : Type := mkConflict {
  filter_bytes : bytes;
  cell_count : Z;
}.

Definition conflict_new : ConflictSet := mkConflict (replicate BLOOM_BYTES 0) 0.

Section Bloom.
Context `{HB : Blake3}.

Definition hash_positions (cell_id : CellId) : list Z :=
  let h := blake3_hash cell_id in
  map (fun i => of_le_bytes (take 4 (drop (i * 4) h)) mod BLOOM_BITS) (seq 0 BLOOM_K).

Definition set_bit (f : bytes) (pos : Z) : bytes :=
  alter (fun b => Z.lor b (Z.shiftl 1 (pos mod 8))) (Z.to_nat (pos / 8)) f.

Definition conflict_insert (cs : ConflictSet) (cell_id : CellId) : option ConflictSet :=
  let f := foldl set_bit (filter_bytes cs) (hash_positions cell_id) in
  if cell_count cs + 1 <=? 65535 then Some (mkConflict f (cell_count cs + 1)) else None.

Definition may_conflict_with (a b : ConflictSet) : bool :=
  existsb (fun i => negb (Z.land (nth i (filter_bytes a) 0) (nth i (filter_bytes b) 0) =? 0))
    (seq 0 BLOOM_BYTES).

Definition conflict_commitment (cs : ConflictSet) : bytes :=
  blake3_hash (str_bytes "dregg-conflict-set-v1" ++ filter_bytes cs ++ le_bytes 2 (cell_count cs)).

Definition insert_all (cs : option ConflictSet) (ids : list CellId) : option ConflictSet :=
  foldl (fun acc id => cs ← acc; conflict_insert cs id) cs ids.

Definition build_conflict_set (read_cells write_cells : list CellId) : option ConflictSet :=
  insert_all (insert_all (Some conflict_new) read_cells) write_cells.

End Bloom.

Section Access.
Context `{HB : Blake3} `{HC : ProgramCodec}.

(** What an effect adds to the read and write sets. *)
Definition effect_access (e : Effect) : list CellId * list CellId :=
  match e with
  | EffSetField cell _ _ => ([], [cell])
  | EffTransfer from to _ => ([], [from; to])
  | EffGrantCapability from to _ => ([from], [to])
  | EffRevokeCapability cell _ => ([], [cell])
  | EffIncrementNonce cell => ([], [cell])
  | EffCreateCell pk tok _ => ([], [derive_raw pk tok])
  | EffSetPermissions cell _ => ([], [cell])
  | EffSetVerificationKey cell _ => ([], [cell])
  | EffSetProgram cell _ => ([], [cell])
  | EffEmitEvent cell _ _ => ([cell], [])
  | EffExerciseViaCapability _ inner =>
      ([], concat (map (fun i => match i with
                                 | EffSetField cell _ _ => [cell]
                                 | EffTransfer from to _ => [from; to]
                                 | EffIncrementNonce cell => [cell]
                                 | _ => []
                                 end) inner))
  | EffCustom cell => ([], [cell])
  | _ => ([], [])
  end.

Fixpoint extract_tree_access (t : CallTree) : list CellId * list CellId :=
  let 'mkTree a cs _ := t in
  let es := map effect_access (a_effects a) in
  let sub := map extract_tree_access cs in
  (a_target a :: concat es.*1 ++ concat sub.*1,
   concat es.*2 ++ (match a_balance_change a with Some _ => [a_target a] | None => [] end) ++ concat sub.*2).

(** [sort_by_key] and [dedup]. *)
Fixpoint dedup (l : list CellId) : list CellId :=
  match l with
  | x :: ((y :: _) as l') => if bool_decide (x = y) then dedup l' else x :: dedup l'
  | _ => l
  end.

Definition extract_access_sets (turn : Turn) : list CellId * list CellId :=
  let sub := map extract_tree_access (roots (t_call_forest turn)) in
  (dedup (merge_sort lex_le (t_agent turn :: concat sub.*1)),
   dedup (merge_sort lex_le (t_agent turn :: concat sub.*2))).

Lemma elem_of_dedup_ids x l : x ∈ dedup l <-> x ∈ l.
Proof.
  induction l as [|y [|z l'] IH]; [done|done|]. cbn [dedup]. case_bool_decide as E.
  - subst. rewrite IH. set_solver.
  - rewrite elem_of_cons, IH, !elem_of_cons. tauto.
Qed.

Lemma elem_of_trees (sel : list CellId * list CellId -> list CellId) ts x :
  x ∈ concat (sel <$> map extract_tree_access ts) <-> exists t, t ∈ ts /\ x ∈ sel (extract_tree_access t).
Proof.
  induction ts as [|t ts IH]; cbn; [split; [by intros ?%elem_of_nil|by intros (? & ?%elem_of_nil & _)]|].
  rewrite elem_of_app, IH. set_solver.
Qed.

(** The sets are those of the trees and the agent: sorting and deduplication
    lose nothing. *)
Lemma elem_of_access turn x :
  (x ∈ (extract_access_sets turn).1 <->
     x = t_agent turn \/ exists t, t ∈ roots (t_call_forest turn) /\ x ∈ (extract_tree_access t).1) /\
  (x ∈ (extract_access_sets turn).2 <->
     x = t_agent turn \/ exists t, t ∈ roots (t_call_forest turn) /\ x ∈ (extract_tree_access t).2).
Proof.
  unfold extract_access_sets. cbn [fst snd].
  rewrite !elem_of_dedup_ids, !merge_sort_Permutation, !elem_of_cons, !elem_of_trees. done.
Qed.

End Access.

(** ** No false negatives *)

Section Overlap.
Context `{HB : Blake3}.

Definition has_bit (f : bytes) (pos : Z) : Prop :=
  Z.testbit (nth (Z.to_nat (pos / 8)) f 0) (pos mod 8) = true.

Lemma nth_alter (f : Z -> Z) i j (l : bytes) :
  (i < length l)%nat -> nth j (alter f i l) 0 = if (j =? i)%nat then f (nth j l 0) else nth j l 0.
Proof.
  intros Hi. rewrite !nth_lookup. destruct (Nat.eqb_spec j i) as [->|Hne].
  - rewrite list_lookup_alter_eq. destruct (lookup_lt_is_Some_2 l i Hi) as [b ->]. done.
  - by rewrite list_lookup_alter_ne.
Qed.

Lemma set_bit_length f pos : length (set_bit f pos) = length f.
Proof. apply length_alter. Qed.

Lemma set_bit_has f pos q :
  length f = BLOOM_BYTES -> 0 <= pos < BLOOM_BITS -> has_bit f q \/ q = pos -> has_bit (set_bit f pos) q.
Proof.
  intros Hl Hp Hq. unfold has_bit, set_bit. rewrite nth_alter.
  2:{ rewrite Hl. unfold BLOOM_BYTES, BLOOM_BITS in *.
      assert (pos / 8 < 32) by (apply Z.div_lt_upper_bound; lia). assert (0 <= pos / 8) by (apply Z.div_pos; lia). lia. }
  destruct (Nat.eqb_spec (Z.to_nat (q / 8)) (Z.to_nat (pos / 8))) as [E|Hne].
  - rewrite Z.lor_spec. apply orb_true_iff. destruct Hq as [Hq| ->]; [by left|right].
    rewrite Z.shiftl_1_l. apply Z.pow2_bits_true. by apply Z.mod_pos_bound.
  - destruct Hq as [Hq| ->]; [done|]. by destruct Hne.
Qed.

Lemma set_bits_has ps f q :
  length f = BLOOM_BYTES -> Forall (fun p => 0 <= p < BLOOM_BITS) ps -> has_bit f q \/ q ∈ ps ->
  length (foldl set_bit f ps) = BLOOM_BYTES /\ has_bit (foldl set_bit f ps) q.
Proof.
  intros Hl Hps. revert f Hl. induction Hps as [|p ps Hp _ IH]; intros f Hl Hq; cbn.
  - destruct Hq as [Hq|Hq]; [done|by apply elem_of_nil in Hq].
  - apply IH; [by rewrite set_bit_length|]. rewrite elem_of_cons in Hq.
    destruct Hq as [Hq|[Hq|Hq]]; [left; by apply set_bit_has; auto|left; by apply set_bit_has; auto|by right].
Qed.

Lemma positions_ok id : Forall (fun p => 0 <= p < BLOOM_BITS) (hash_positions id).
Proof. apply Forall_fmap, Forall_true. intros i. cbn. by apply Z.mod_pos_bound. Qed.

(** The first position of a cell: enough to see it in a filter. *)
Definition mark (id : CellId) : Z := of_le_bytes (take 4 (drop 0 (blake3_hash id))) mod BLOOM_BITS.

Lemma mark_position id : mark id ∈ hash_positions id.
Proof. unfold hash_positions. cbn. left. Qed.

Lemma inserted_marks ids : forall cs cs',
  length (filter_bytes cs) = BLOOM_BYTES -> insert_all (Some cs) ids = Some cs' ->
  length (filter_bytes cs') = BLOOM_BYTES /\
  forall id, id ∈ ids \/ has_bit (filter_bytes cs) (mark id) -> has_bit (filter_bytes cs') (mark id).
Proof.
  induction ids as [|x ids IH]; intros cs cs' Hl; cbn [insert_all foldl].
  - intros [= <-]. split; [done|]. intros id [H|H]; [by apply elem_of_nil in H|done].
  - intros E. assert (Ex : exists c1, conflict_insert cs x = Some c1).
    { cbn in E. destruct (conflict_insert cs x) as [c1|]; [by exists c1|].
      assert (Hn : forall l, foldl (fun acc id => cs ← acc; conflict_insert cs id) None l = None)
        by (induction l; cbn; auto). by rewrite Hn in E. }
    destruct Ex as (c1 & Ex). cbn in E. rewrite Ex in E.
    unfold conflict_insert in Ex. destruct (_ <=? 65535); [|done]. injection Ex as Ex.
    assert (Hf : filter_bytes c1 = foldl set_bit (filter_bytes cs) (hash_positions x)) by (by rewrite <-Ex).
    assert (H1 : length (filter_bytes c1) = BLOOM_BYTES).
    { rewrite Hf. apply (set_bits_has _ _ (mark x)); [done|apply positions_ok|right; apply mark_position]. }
    destruct (IH c1 cs' H1 E) as [Hl' Hm]. split; [done|]. intros id Hid. apply Hm.
    rewrite elem_of_cons in Hid. destruct Hid as [[->|Hid]|Hid]; [right| by left|right]; rewrite Hf;
      (apply set_bits_has; [done|apply positions_ok|]); [right; apply mark_position|by left].
Qed.

Lemma built_marks rs ws cs id :
  build_conflict_set rs ws = Some cs -> id ∈ rs \/ id ∈ ws -> has_bit (filter_bytes cs) (mark id).
Proof.
  unfold build_conflict_set. intros E Hid.
  destruct (insert_all (Some conflict_new) rs) as [c1|] eqn:E1.
  2:{ assert (Hn : forall l, insert_all None l = None) by (induction l; cbn; auto). by rewrite Hn in E. }
  destruct (inserted_marks rs conflict_new c1 eq_refl E1) as [L1 M1].
  destruct (inserted_marks ws c1 cs L1 E) as [L2 M2]. apply M2. destruct Hid as [Hid|Hid]; auto.
Qed.

Lemma marked_conflict a b id :
  has_bit (filter_bytes a) (mark id) -> has_bit (filter_bytes b) (mark id) -> may_conflict_with a b = true.
Proof.
  unfold has_bit. intros Ha Hb. apply existsb_exists. exists (Z.to_nat (mark id / 8)).
  assert (Hm : 0 <= mark id < BLOOM_BITS) by (by apply Z.mod_pos_bound). split.
  - apply in_seq. unfold BLOOM_BYTES, BLOOM_BITS in *.
    assert (mark id / 8 < 32) by (apply Z.div_lt_upper_bound; lia).
    assert (0 <= mark id / 8) by (apply Z.div_pos; lia). lia.
  - apply negb_true_iff, Z.eqb_neq. intros E.
    assert (Ht : Z.testbit (Z.land (nth (Z.to_nat (mark id / 8)) (filter_bytes a) 0)
      (nth (Z.to_nat (mark id / 8)) (filter_bytes b) 0)) (mark id mod 8) = true) by (by rewrite Z.land_spec, Ha, Hb).
    by rewrite E, Z.bits_0 in Ht.
Qed.

End Overlap.

(** ** Properties *)

Section Properties.
Context `{HB : Blake3} `{HC : ProgramCodec}.

(** The filter has no false negatives: when two turns name a common cell, in
    either of the sets extracted from them, their conflict sets overlap, so no
    scheduler that compares filters takes them to be independent. *)
Theorem conflict_filter_complete (t1 t2 : Turn) (cs1 cs2 : ConflictSet) (id : CellId) :
  build_conflict_set (extract_access_sets t1).1 (extract_access_sets t1).2 = Some cs1 ->
  build_conflict_set (extract_access_sets t2).1 (extract_access_sets t2).2 = Some cs2 ->
  id ∈ (extract_access_sets t1).1 ++ (extract_access_sets t1).2 ->
  id ∈ (extract_access_sets t2).1 ++ (extract_access_sets t2).2 ->
  may_conflict_with cs1 cs2 = true /\ may_conflict_with cs2 cs1 = true.
Proof.
  rewrite !elem_of_app. intros E1 E2 H1 H2.
  split; (eapply marked_conflict; eapply built_marks; [eassumption|eassumption|..]; eassumption).
Qed.

(** The recipient of an introduction, whose c-list the executor writes, is in
    neither set. *)
Lemma introduction_unnamed (t : Turn) (a : TurnAction) i r tgt p h fh :
  t_call_forest t = mkForest [mkTree a [] h] fh -> a_effects a = [EffIntroduce i r tgt p] ->
  r <> t_agent t -> r <> a_target a ->
  r ∉ (extract_access_sets t).1 /\ (a_balance_change a = None -> r ∉ (extract_access_sets t).2).
Proof.
  intros Ef Ea Hag Htg. destruct (elem_of_access t r) as [-> ->]. rewrite Ef. cbn [roots].
  split; [|intros Hb]; intros [H|(t' & Ht%list_elem_of_singleton & H)]; try done; subst t'; revert H;
    cbn; rewrite Ea; cbn; rewrite ?Hb; cbn; [rewrite list_elem_of_singleton; done|apply not_elem_of_nil].
Qed.

End Properties.

(** ** Witnesses *)

#[local] Existing Instance model_blake3.
#[local] Existing Instance model_codec.

Definition w_pay (agent to : CellId) : Turn :=
  mkTurn agent 0 (mkForest [tree_new (mkAction agent AuthUnchecked [EffTransfer agent to 3] DelegNone None [] [])] zero32)
    10 None None None [] [].

Lemma conflict_filter_complete_witness :
  exists cs1 cs2,
    build_conflict_set (extract_access_sets (w_pay (fill32 1) (fill32 3))).1
      (extract_access_sets (w_pay (fill32 1) (fill32 3))).2 = Some cs1 /\
    build_conflict_set (extract_access_sets (w_pay (fill32 2) (fill32 3))).1
      (extract_access_sets (w_pay (fill32 2) (fill32 3))).2 = Some cs2 /\
    may_conflict_with cs1 cs2 = true /\ may_conflict_with cs2 cs1 = true.
Proof.
  assert (H : exists cs1 cs2,
    build_conflict_set (extract_access_sets (w_pay (fill32 1) (fill32 3))).1
      (extract_access_sets (w_pay (fill32 1) (fill32 3))).2 = Some cs1 /\
    build_conflict_set (extract_access_sets (w_pay (fill32 2) (fill32 3))).1
      (extract_access_sets (w_pay (fill32 2) (fill32 3))).2 = Some cs2).
  { do 2 eexists. split; vm_compute; reflexivity. }
  destruct H as (cs1 & cs2 & H1 & H2).
  assert (Hid : forall n, fill32 3 ∈ (extract_access_sets (w_pay (fill32 n) (fill32 3))).1 ++
                          (extract_access_sets (w_pay (fill32 n) (fill32 3))).2).
  { intros n. apply elem_of_app. right. apply elem_of_access. right. eexists. split; [left|]. cbn. right. left. }
  destruct (conflict_filter_complete (w_pay (fill32 1) (fill32 3)) (w_pay (fill32 2) (fill32 3)) cs1 cs2 (fill32 3)
              H1 H2 (Hid 1) (Hid 2)) as [C1 C2].
  exists cs1, cs2. split_and!; assumption.
Defined.
