(* ===== verification/BudgetGate.v ===== *)
(** * The budget gate

    Models [turn/src/budget_gate.rs]: the slice of a silo's budget, the debit a
    turn makes before it runs, its refund when the turn fails and its commit. *)

From stdpp Require Import base decidable option list gmap sorting strings.
From Stdlib Require Import ZArith Lia.
From S2P Require Import Prelude.

Open Scope Z_scope.

Record BudgetSlice : Type := mkSlice {
  ceiling : Z;
  spent : Z;
  debits : list bytes;
  version : Z;
}.

Definition slice_new (c : Z) : BudgetSlice := mkSlice c 0 [] 0.
Definition slice_with_version (c v : Z) : BudgetSlice := mkSlice c 0 [] v.

Definition remaining (s : BudgetSlice) : Z := saturating_sub (ceiling s) (spent s).
Definition has_budget (s : BudgetSlice) : bool := 0 <? remaining s.

Definition slice_try_debit (s : BudgetSlice) (amount : Z) (digest : bytes) : BudgetSlice * result unit Z :=
  if remaining s <? amount then (s, Err (remaining s))
  else (mkSlice (ceiling s) (Z.min u64_max (spent s + amount)) (debits s ++ [digest]) (version s), Ok tt).

Definition slice_refund (s : BudgetSlice) (amount : Z) (digest : bytes) : BudgetSlice * bool :=
  match position_of_digest digest (debits s) with
  | Some pos => (mkSlice (ceiling s) (saturating_sub (spent s) amount) (swap_remove (debits s) pos) (version s), true)
  | None => (s, false)
  end.

Definition slice_commit_debit (s : BudgetSlice) (digest : bytes) : BudgetSlice := s.

Record BudgetGate : Type := mkGate {
  silo_id : Z;
  slice : BudgetSlice;
  expected_version : Z;
}.

Definition gate_new (silo : Z) (s : BudgetSlice) : BudgetGate := mkGate silo s (version s).

Section Gate.
Context `{HB : Blake3}.

Definition compute_debit_digest (turn_hash : bytes) : bytes :=
  blake3_derive_key "dregg-budget-gate debit-digest v1" turn_hash.

Definition try_debit (g : BudgetGate) (fee : Z) (turn_hash : bytes) : BudgetGate * result bytes Z :=
  if negb (version (slice g) =? expected_version g) then (g, Err 0)
  else
    let digest := compute_debit_digest turn_hash in
    match slice_try_debit (slice g) fee digest with
    | (s, Ok _) => (mkGate (silo_id g) s (expected_version g), Ok digest)
    | (s, Err rem) => (mkGate (silo_id g) s (expected_version g), Err rem)
    end.

Definition set_expected_version (g : BudgetGate) (v : Z) : BudgetGate := mkGate (silo_id g) (slice g) v.

Definition fast_unlock (g : BudgetGate) (fee : Z) (digest : bytes) : BudgetGate :=
  mkGate (silo_id g) (slice_refund (slice g) fee digest).1 (expected_version g).

Definition commit_debit (g : BudgetGate) (digest : bytes) : BudgetGate :=
  mkGate (silo_id g) (slice_commit_debit (slice g) digest) (expected_version g).

(** ** A debit and its refund *)

Definition slice_ok (s : BudgetSlice) : Prop := 0 <= spent s <= ceiling s /\ ceiling s <= u64_max.

Lemma refund_undoes_debit g fee h g' d :
  slice_ok (slice g) -> 0 <= fee -> try_debit g fee h = (g', Ok d) -> fast_unlock g' fee d = g.
Proof.
  intros [[H0 H1] H2] Hfee. unfold try_debit. destruct (negb _); [done|]. unfold slice_try_debit, remaining, saturating_sub.
  destruct (Z.ltb_spec (Z.max 0 (ceiling (slice g) - spent (slice g))) fee) as [|Hle]; [done|]. intros [= <- <-].
  unfold fast_unlock, slice_refund. cbn [slice debits spent ceiling version silo_id expected_version].
  destruct (position_first (compute_debit_digest h) (debits (slice g))) as (pos & E & _). rewrite E. cbn [fst].
  rewrite (swap_remove_last _ _ _ E). rewrite Z.min_r by lia. unfold saturating_sub. rewrite Z.max_r by lia.
  replace (spent (slice g) + fee - fee) with (spent (slice g)) by lia. by destruct g as [? [] ?].
Qed.

Lemma debit_within g fee h g' d :
  slice_ok (slice g) -> 0 <= fee -> try_debit g fee h = (g', Ok d) ->
  slice_ok (slice g') /\ spent (slice g') = spent (slice g) + fee.
Proof.
  intros [[H0 H1] H2] Hfee. unfold try_debit. destruct (negb _); [done|]. unfold slice_try_debit, remaining, saturating_sub.
  destruct (Z.ltb_spec (Z.max 0 (ceiling (slice g) - spent (slice g))) fee) as [|Hle]; [done|]. intros [= <- <-].
  unfold slice_ok. cbn. lia.
Qed.

End Gate.
