(* ===== verification/Execute.v ===== *)
(** * Executing a turn

    Models [execute_without_shadow], [distribute_fee_shares] and
    [validate_without_apply] of [turn/src/executor/execute.rs], for turns that
    carry neither an execution proof nor binding proofs: the admission checks,
    the budget gate, the fee and nonce charged before the forest runs, the
    injection of sovereign cells, the forest, the checks after it with the
    rollback they cause, and the commit with the height stamps and the
    distribution of the fee.

    Hashes of turns and receipts, public keys, signatures and the Pedersen check
    are parameters ([TurnCrypto]).  The receipt, the ledger delta and the roots
    that go into them are not built; the memory-trace hooks and the rate counters
    of programs are left out. *)

From stdpp Require Import base decidable option list gmap sorting strings.
From Stdlib Require Import ZArith Lia.
From S2P Require Import Prelude BabyBear Poseidon2 CapRoot Heap State Permissions Facet.
From S2P Require Import Derivation Capability Lifecycle Cell Migration Merkle Ledger Notes.
From S2P Require Import Channels Journal Executor Forest Metering Conflict BudgetGate ExecuteTree.

Open Scope Z_scope.

Class TurnCrypto `{ProgramCodec} := {
  turn_hash : Turn -> bytes;
  valid_public_key : bytes -> bool;
  witness_signature_ok : SovereignCellWitness -> bool;
  conservation_ok : Turn -> bool;
  receipt_hash : Turn -> Ledger -> Ledger -> Z -> bytes;
}.

Record NodeConfig : Type := mkConfig {
  cfg_costs : ComputronCosts;
  cfg_frozen : gset CellId;
  cfg_proposer : option CellId;
  cfg_treasury : option CellId;
  cfg_fee_well : option CellId;
}.

(** What outlives a turn: the ledger and note sets, the budget gate, the
    receipt-chain heads and the write set of the last committed turn. *)
Record Node `{ProgramCodec} : Type := mkNode {
  n_state : ExecState;
  n_gate : option BudgetGate;
  n_heads : gmap CellId bytes;
  n_write_set : list CellId;
}.

Arguments mkNode {_} _ _ _ _.
Arguments n_state {_} _.
Arguments n_gate {_} _.
Arguments n_heads {_} _.
Arguments n_write_set {_} _.

Inductive TurnResult : Type :=
| Committed (computrons_used : Z)
| Rejected (reason : TurnError).

Definition with_heads (ex : TurnExecutor) (heads : gmap CellId bytes) : TurnExecutor :=
  mkExecutor (block_height ex) (current_timestamp ex) (max_introduction_lifetime ex) (proof_verifier ex)
    (revocation_channels ex) (issuer_wells ex) heads.

Section Execute.
Context `{HB : Blake3} `{HC : ProgramCodec} `{HO : TurnOracles} `{HP : !ProgramSize} `{HK : !TurnChecks}
  `{HT : !TurnCrypto}.
Context (ex : TurnExecutor) (cfg : NodeConfig).

(** ** Admission *)

(** The checks [execute] and [validate_without_apply] share. *)
Definition admit_agent (turn : Turn) (L : Ledger) : result unit TurnError :=
  if forest_is_empty (t_call_forest turn) then Err TE_EmptyForest
  else
    let? _ := match t_valid_until turn with
              | Some v => if v <? current_timestamp ex then Err (TE_Expired v (current_timestamp ex)) else Ok tt
              | None => Ok tt
              end in
    match get L (t_agent turn) with
    | None => Err (TE_CellNotFound (t_agent turn))
    | Some c =>
        if is_terminal (c_lifecycle c) then Err TE_DeadAgent
        else if negb (nonce (c_state c) =? t_nonce turn)
        then Err (TE_NonceReplay (nonce (c_state c)) (t_nonce turn))
        else if (balance (c_state c) <? 0) || (balance (c_state c) <? t_fee turn)
        then Err (TE_InsufficientBalance (t_agent turn) (t_fee turn) (balance (c_state c)))
        else Ok tt
    end.

Definition check_not_frozen (cell : CellId) : result unit TurnError :=
  if bool_decide (cell ∈ cfg_frozen cfg) then Err (TE_CellFrozen cell) else Ok tt.

Definition check_previous_receipt_hash (heads : gmap CellId bytes) (agent : CellId) (claimed : option bytes)
    : result unit TurnError :=
  if bool_decide (heads !! agent = claimed) then Ok tt
  else Err (TE_ReceiptChainMismatch (heads !! agent) claimed).

Definition admission (turn : Turn) (node : Node) : result unit TurnError :=
  let? _ := admit_agent turn (x_ledger (n_state node)) in
  let? _ := check_not_frozen (t_agent turn) in
  let? _ := if bool_decide (cfg_frozen cfg = ∅) then Ok tt
            else try_fold (fun _ cell => check_not_frozen cell) tt (extract_access_sets turn).2 in
  check_previous_receipt_hash (n_heads node) (t_agent turn) (t_previous_receipt_hash turn).

Definition validate_without_apply (turn : Turn) (L : Ledger) : option (result unit TurnError) :=
  match admit_agent turn L with
  | Err e => Some (Err e)
  | Ok _ =>
      estimated ← estimate_cost (cfg_costs cfg) (t_call_forest turn);
      Some (if t_fee turn <? estimated then Err (TE_BudgetExceeded (t_fee turn) estimated) else Ok tt)
  end.

(** ** Phase 1: the fee and the nonce *)

Definition charge (turn : Turn) (L : Ledger) : option (Ledger * result unit TurnError) :=
  let agent := t_agent turn in
  c ← cells L !! agent;
  let c := invalidate_leaf_cache c in
  let '(s1, ok) := debit_balance (c_state c) (t_fee turn) in
  if negb ok
  then Some (get_mut L agent (fun _ => with_state c s1),
             Err (TE_InsufficientBalance agent (t_fee turn) (balance s1)))
  else
    let '(s2, ok') := increment_nonce s1 in
    Some (get_mut L agent (fun _ => with_state c s2), if ok' then Ok tt else Err (TE_NonceOverflow agent)).

(** ** Sovereign cells *)

Definition check_witness (L : Ledger) (cell_id : CellId) (w : SovereignCellWitness)
    : option (result unit TurnError) :=
  if negb (bool_decide (sw_cell_id w = cell_id))
  then Some (invalid "sovereign witness payload cell_id does not match map key")
  else match sovereign_commitments L !! cell_id with
  | None => Some (invalid "sovereign witness provided for non-sovereign cell")
  | Some stored =>
      if negb (bool_decide (sw_old_commitment w = stored))
      then Some (Err (TE_SovereignCommitmentMismatch cell_id stored (sw_old_commitment w)))
      else
        computed ← state_commitment (sw_cell_state w);
        if negb (bool_decide (computed = sw_old_commitment w))
        then Some (Err (TE_SovereignCommitmentMismatch cell_id (sw_old_commitment w) computed))
        else if negb (bool_decide (c_id (sw_cell_state w) = cell_id))
        then Some (invalid "sovereign witness cell ID mismatch")
        else if negb (valid_public_key (c_public_key (sw_cell_state w)))
        then Some (invalid "sovereign witness public key invalid")
        else if negb (witness_signature_ok w) then Some (invalid "sovereign witness signature invalid")
        else
          expected ← checked_add_u64 (last_sovereign_witness_sequence L cell_id) 1;
          Some (
            if negb (sw_sequence w =? expected) then invalid "sovereign witness sequence gap"
            else if is_zero (sw_new_commitment w)
            then invalid "sovereign witness has zero new_commitment placeholder"
            else if is_zero (sw_effects_hash w)
            then invalid "sovereign witness has zero effects_hash placeholder"
            else match sw_transition_proof w with
                 | Some _ => Err (TE_InvalidExecutionProof "sovereign witness carries a v1 transition_proof")
                 | None => Ok tt
                 end)
  end.

(** A hosted cell of that id is replaced. *)
Definition inject_cell (L : Ledger) (cell_id : CellId) (w : SovereignCellWitness)
    : Ledger * result unit TurnError :=
  match get L cell_id with
  | Some _ => (get_mut L cell_id (fun _ => sw_cell_state w), Ok tt)
  | None =>
      match insert_cell L (sw_cell_state w) with
      | (L', Ok _) => (L', Ok tt)
      | (L', Err _) => (L', invalid "failed to inject sovereign witness")
      end
  end.

(** The first failure ends the loop; what was injected before it stays. *)
Fixpoint inject_all (L : Ledger) (ws : list (CellId * SovereignCellWitness))
    : option (Ledger * result unit TurnError) :=
  match ws with
  | [] => Some (L, Ok tt)
  | (cell_id, w) :: ws' =>
      r ← check_witness L cell_id w;
      match r with
      | Err e => Some (L, Err e)
      | Ok _ =>
          match inject_cell L cell_id w with
          | (L', Ok _) => inject_all L' ws'
          | (L', Err e) => Some (L', Err e)
          end
      end
  end.

Fixpoint check_sovereigns (L : Ledger) (ws : list (CellId * SovereignCellWitness))
    : option (result unit TurnError) :=
  match ws with
  | [] => Some (Ok tt)
  | (cell_id, w) :: ws' =>
      match get L cell_id with
      | None => Some (invalid "sovereign witness cell missing after execution")
      | Some cell =>
          actual ← state_commitment cell;
          if bool_decide (actual = sw_new_commitment w) then check_sovereigns L ws'
          else Some (Err (TE_SovereignCommitmentMismatch cell_id (sw_new_commitment w) actual))
      end
  end.

Fixpoint commit_sovereigns (L : Ledger) (ws : list (CellId * SovereignCellWitness)) : option Ledger :=
  match ws with
  | [] => Some L
  | (cell_id, _) :: ws' =>
      match remove L cell_id with
      | (L', Some cell) =>
          com ← state_commitment cell;
          commit_sovereigns (update_sovereign_commitment L' cell_id com).1 ws'
      | (L', None) => commit_sovereigns L' ws'
      end
  end.

Definition bump_sequences (L : Ledger) (ws : list (CellId * SovereignCellWitness)) : Ledger :=
  foldl (fun L p => bump_sovereign_witness_sequence L p.1 (sw_sequence p.2)) L ws.

Definition remove_injected (L : Ledger) (ws : list (CellId * SovereignCellWitness)) : Ledger :=
  foldl (fun L p => (remove L p.1).1) L ws.

(** ** After the forest *)

Definition verdict (turn : Turn) (st : ExecState) (r : result (Z * Z) TurnError)
    : option (result Z TurnError) :=
  match r with
  | Err e => Some (Err e)
  | Ok (used, excess) =>
      if t_fee turn <? used then Some (Err (TE_BudgetExceeded (t_fee turn) used))
      else match check_note_conservation (conservation_ok turn) (t_call_forest turn) with
           | Err (asset, inputs, outputs) => Some (Err (TE_NoteConservationViolation asset inputs outputs))
           | Ok _ =>
               if negb (excess =? 0) then Some (Err (TE_ExcessNotZero excess))
               else
                 r ← check_sovereigns (x_ledger st) (t_sovereign_witnesses turn);
                 Some (match r with Ok _ => Ok used | Err e => Err e end)
           end
  end.

(** The entries whose cell gets the height stamp. *)
Definition height_cell (e : JournalEntry) : option CellId :=
  match e with
  | JSetField cell _ _ | JSetBalance cell _ | JSetNonce cell _ | JGrantCapability cell _
  | JRevokeCapability cell _ | JCreateCell cell | JSetProvedState cell _ | JSetPermissions cell _
  | JSetVerificationKey cell _ | JSetDelegation cell _ | JSetDelegationEpoch cell _
  | JSetCommittedHeight cell _ | JEventEmitted cell _ _ | JSetLifecycle cell _
  | JAttenuateCapability cell _ _ _ _ => Some cell
  | _ => None
  end.

Definition height_cells (es : list JournalEntry) : list CellId :=
  merge_sort lex_le (foldl push_cell [] (omap height_cell es)).

Definition stamp_height (cell_id : CellId) : M unit :=
  if_hosted cell_id (fun c =>
    let old := committed_height (c_state c) in
    if old =? block_height ex then Some (c, [], Ok tt)
    else Some (with_state c (with_committed_height (c_state c) (block_height ex)),
               [JSetCommittedHeight cell_id old], Ok tt)).

Definition credit_share (L : Ledger) (recipient : option CellId) (amount : Z) : Ledger * bool :=
  match recipient with
  | None => (L, false)
  | Some id =>
      match cells L !! id with
      | None => (get_mut L id (fun c => c), false)
      | Some c =>
          let c := invalidate_leaf_cache c in
          let '(s', ok) := credit_balance (c_state c) amount in
          (get_mut L id (fun _ => with_state c s'), ok)
      end
  end.

Definition distribute_fee_shares (L : Ledger) (proposer treasury fee_well : option CellId) (fee : Z)
    : option Ledger :=
  let proposer_share := fee / 2 in
  treasury_share ← (fun x => x / 10) <$> checked_mul_u64 fee 3;
  let '(L1, ok1) := credit_share L proposer proposer_share in
  let d1 := if ok1 : bool then proposer_share else 0 in
  let '(L2, ok2) := credit_share L1 treasury treasury_share in
  let d2 := if ok2 : bool then treasury_share else 0 in
  Some (credit_share L2 fee_well (fee - (d1 + d2))).1.

(** ** The turn *)

Definition refund (gate : option BudgetGate) (fee : Z) (digest : option bytes) : option BudgetGate :=
  match gate, digest with
  | Some g, Some d => Some (fast_unlock g fee d)
  | _, _ => gate
  end.

Definition open_gate (turn : Turn) (gate : option BudgetGate)
    : option BudgetGate * result (option bytes) TurnError :=
  match gate with
  | None => (None, Ok None)
  | Some g =>
      match try_debit g (t_fee turn) (turn_hash turn) with
      | (g', Ok d) => (Some g', Ok (Some d))
      | (g', Err rem) => (Some g', Err (TE_BudgetExhausted (silo_id g) (t_fee turn) rem))
      end
  end.

Definition at_ledger (st : ExecState) (L : Ledger) : ExecState :=
  mkExec L (x_bridged st) (x_nullifiers st) (x_commitments st) (x_revoked st) [].

Definition abort_turn (turn : Turn) (node : Node) (gate : option BudgetGate) (digest : option bytes)
    (st : ExecState) (e : TurnError) : option (Node * TurnResult) :=
  st' ← rollback st;
  Some (mkNode (at_ledger st' (remove_injected (x_ledger st') (t_sovereign_witnesses turn)))
          (refund gate (t_fee turn) digest) (n_heads node) (n_write_set node), Rejected e).

Definition commit_turn (turn : Turn) (node : Node) (gate : option BudgetGate) (digest : option bytes)
    (st : ExecState) (used : Z) : option (Node * TurnResult) :=
  let ws := t_sovereign_witnesses turn in
  L ← commit_sovereigns (x_ledger st) ws;
  let L := bump_sequences L ws in
  let gate := match gate, digest with Some g, Some d => Some (commit_debit g d) | _, _ => gate end in
  '(st, _) ← for_each stamp_height (height_cells (x_journal st)) (with_ledger st L);
  L ← distribute_fee_shares (x_ledger st) (cfg_proposer cfg) (cfg_treasury cfg) (cfg_fee_well cfg) (t_fee turn);
  let head := receipt_hash turn (x_ledger (n_state node)) L used in
  Some (mkNode (at_ledger st L) gate (<[t_agent turn := head]> (n_heads node)) (touched_cells (x_journal st)),
        Committed used).

Definition execute (turn : Turn) (node : Node) : option (Node * TurnResult) :=
  let st := n_state node in
  match admission turn node with
  | Err e => Some (node, Rejected e)
  | Ok _ =>
      match open_gate turn (n_gate node) with
      | (gate, Err e) => Some (mkNode st gate (n_heads node) (n_write_set node), Rejected e)
      | (gate, Ok digest) =>
          let stop L e := Some (mkNode (at_ledger st L) gate (n_heads node) (n_write_set node), Rejected e) in
          '(L, r) ← charge turn (x_ledger st);
          match r with
          | Err e => stop L e
          | Ok _ =>
              '(L, r) ← inject_all L (t_sovereign_witnesses turn);
              match r with
              | Err e => stop L e
              | Ok _ =>
                  '(st, r) ← execute_roots (with_heads ex (n_heads node)) (cfg_costs cfg) (t_fee turn)
                               (t_nonce turn) (t_agent turn) (turn_hash turn) 0
                               (roots (t_call_forest turn)) (0, 0) (at_ledger st L);
                  v ← verdict turn st r;
                  match v with
                  | Err e => abort_turn turn node gate digest st e
                  | Ok used => commit_turn turn node gate digest st used
                  end
              end
          end
      end
  end.

End Execute.
