(* ===== verification/TurnRollback.v ===== *)
(** * Rolling back a turn

    The journal of [turn/src/journal.rs] against the handlers of
    [turn/src/executor/apply.rs]: whatever an action did before it stopped,
    replaying its journal backwards gives every cell back, up to what rollback
    is seen to leave behind (field commitments that a write cleared, tombstones
    of slots granted and taken back, the order of references); and the journal
    names every cell the turn changed. *)

From stdpp Require Import base decidable option list gmap sorting strings relations.
From Stdlib Require Import ZArith Lia.
From S2P Require Import Prelude BabyBear Poseidon2 CapRoot Heap State Permissions Facet.
From S2P Require Import Derivation Capability Lifecycle Cell Migration Merkle Ledger Notes.
From S2P Require Import LedgerRestore Channels Journal Executor.

Open Scope Z_scope.

#[local] Opaque compute_canonical_fields_root_8.

(** ** What rollback restores *)

(** A c-list with the same references in some order; slots handed out since are
    tombstoned and not reused, and the slots are as orderly as before. *)
Record clist_restored (s0 s1 : CapabilitySet) : Prop := {
  cr_refs : refs s1 ≡ₚ refs s0;
  cr_next : next_slot s0 <= next_slot s1;
  cr_tombs : forall z, z ∈ tombstones s0 -> z ∈ tombstones s1;
  cr_extra : forall z, z ∈ tombstones s1 -> z ∈ tombstones s0 \/ next_slot s0 <= z;
  cr_ok : clist_ok s0 -> clist_ok s1;
}.

(** The same state, but a field commitment may have been cleared. *)
Record state_restored (s0 s1 : CellState) : Prop := {
  sr_rest : s1 = with_fields s0 (fields s0) (field_visibility s0) (commitments s1);
  sr_commitments : Forall2 (fun a b => b = a \/ b = None) (commitments s0) (commitments s1);
}.

Section Restored.
Context `{HB : Blake3} `{HC : ProgramCodec}.

Record cell_restored (c0 c1 : Cell) : Prop := {
  re_id : c_id c1 = c_id c0;
  re_pk : c_public_key c1 = c_public_key c0;
  re_state : state_restored (c_state c0) (c_state c1);
  re_permissions : c_permissions c1 = c_permissions c0;
  re_vk : c_verification_key c1 = c_verification_key c0;
  re_delegate : c_delegate c1 = c_delegate c0;
  re_delegation : c_delegation c1 = c_delegation c0;
  re_token : c_token_id c1 = c_token_id c0;
  re_clist : clist_restored (c_capabilities c0) (c_capabilities c1);
  re_program : c_program c1 = c_program c0;
  re_mode : c_mode c1 = c_mode c0;
  re_lifecycle : c_lifecycle c1 = c_lifecycle c0;
}.

(** The invariant of a cell the executor works on. *)
Record cell_ok (c : Cell) : Prop := {
  co_clist : clist_ok (c_capabilities c);
  co_fields : fields_ok (c_state c);
}.

(** Everything but the two caches. *)
Definition content (c : Cell) : Cell :=
  with_capabilities (with_leaf_cache c None) (invalidate_cap_root_cache (c_capabilities c)).

(** ** One write and its entries *)

Definition undo_all (es : list JournalEntry) (c : Cell) : option Cell :=
  foldr (fun e acc => c ← acc; undo_cell e c) (Some c) es.

(** The entries rollback hands to [undo_cell]. *)
Definition cell_entry (e : JournalEntry) : bool :=
  match e with
  | JCreateCell _ | JMakeSovereign _ | JEventEmitted _ _ _ => false
  | _ => match entry_cell e with Some _ => true | None => false end
  end.

Record write_ok (id : CellId) (c c' : Cell) (es : list JournalEntry) : Prop := {
  wo_id : c_id c' = c_id c;
  wo_names : Forall (fun e => cell_entry e = true /\ entry_cell e = Some id) es;
  wo_silent : es = [] -> content c' = content c;
  wo_ok : cell_ok c -> cell_ok c';
  wo_undo : cell_ok c -> forall c1, cell_restored c' c1 ->
              exists c2, undo_all es c1 = Some c2 /\ cell_restored c c2;
}.

Lemma clist_restored_refl s : clist_restored s s.
Proof. split; auto. lia. Qed.

Lemma state_restored_refl s : state_restored s s.
Proof. split; [by destruct s|]. induction (commitments s); constructor; auto. Qed.

Lemma cell_restored_refl c : cell_restored c c.
Proof. split; auto using clist_restored_refl, state_restored_refl. Qed.

Lemma content_fields c c' :
  content c' = content c ->
  c_id c' = c_id c /\ c_state c' = c_state c /\ refs (c_capabilities c') = refs (c_capabilities c) /\
  next_slot (c_capabilities c') = next_slot (c_capabilities c) /\
  tombstones (c_capabilities c') = tombstones (c_capabilities c).
Proof. unfold content. intros [=]. done. Qed.

(** A write that only refreshes the caches. *)
Lemma write_silent id c c' : content c' = content c -> write_ok id c c' [].
Proof.
  intros Hc. destruct (content_fields _ _ Hc) as (Hid & Hs & Hr & Hn & Ht).
  split; [done|constructor|done| |].
  - intros [Hk Hf]. split; [|by rewrite Hs].
    apply (same_slots_ok (c_capabilities c)); [|done..]. unfold slots. by rewrite Hr.
  - intros _ c1 []. exists c1. split; [done|].
    assert (Hcl : clist_restored (c_capabilities c) (c_capabilities c1)).
    { destruct re_clist0 as [? ? ? ? Hko]. rewrite Hr, Hn, Ht in *. split; try done. intros Hk. apply Hko.
      apply (same_slots_ok (c_capabilities c)); [|done..]. unfold slots. by rewrite Hr. }
    unfold content in Hc. injection Hc as ????????????. split; congruence.
Qed.

Lemma write_same id c : write_ok id c c [].
Proof. by apply write_silent. Qed.

Lemma write_app id c c' c'' es1 es2 :
  write_ok id c c' es1 -> write_ok id c' c'' es2 -> write_ok id c c'' (es1 ++ es2).
Proof.
  intros [I1 N1 S1 O1 U1] [I2 N2 S2 O2 U2]. split.
  - congruence.
  - by apply Forall_app.
  - intros [-> ->]%app_eq_nil. rewrite S2, S1 by done. done.
  - auto.
  - intros Hok c2 Hr. destruct (U2 (O1 Hok) c2 Hr) as (c1 & E2 & R1).
    destruct (U1 Hok c1 R1) as (c0 & E1 & R0). exists c0. split; [|done].
    unfold undo_all. rewrite foldr_app. fold (undo_all es2 c2). by rewrite E2.
Qed.

(** A single entry. *)
Lemma write_one id c c' e :
  c_id c' = c_id c -> cell_entry e = true -> entry_cell e = Some id ->
  (cell_ok c -> cell_ok c') ->
  (cell_ok c -> forall c1, cell_restored c' c1 ->
     exists c2, undo_cell e c1 = Some c2 /\ cell_restored c c2) ->
  write_ok id c c' [e].
Proof. intros Hi Hc He Ho Hu. split; [done|by constructor|done|done|]. intros Hk c1 Hr. cbn. by apply Hu. Qed.

(** A write of one scalar: the entry puts the old value back over whatever the
    restored cell holds. *)
Ltac scalar_write :=
  apply write_one;
  [done|done|done
  |intros [Hk Hf]; split; [exact Hk|destruct Hf; by split]
  |intros _ c1 [Hi Hp [Hs Hm] He Hv Hd Hg Ht Hc Hr Ho Hl]; cbn in *; eexists; split; [reflexivity|];
   split; cbn; try done; try (rewrite Hs; cbn; split; cbn; [reflexivity|done])].

Lemma write_balance id c b :
  write_ok id c (with_state c (with_balance (c_state c) b)) [JSetBalance id (balance (c_state c))].
Proof. scalar_write. Qed.

Lemma write_nonce id c n :
  write_ok id c (with_state c (State.with_nonce (c_state c) n)) [JSetNonce id (nonce (c_state c))].
Proof. scalar_write. Qed.

Lemma write_epoch id c n :
  write_ok id c (with_state c (with_epoch (c_state c) n))
    [JSetDelegationEpoch id (delegation_epoch (c_state c))].
Proof. scalar_write. Qed.

Lemma write_proved id c b :
  write_ok id c (with_state c (with_proved_state (c_state c) b))
    [JSetProvedState id (proved_state (c_state c))].
Proof. scalar_write. Qed.

Lemma write_permissions id c p :
  write_ok id c (with_permissions c p) [JSetPermissions id (c_permissions c)].
Proof. scalar_write. Qed.

Lemma write_vk id c v :
  write_ok id c (with_verification_key c v) [JSetVerificationKey id (c_verification_key c)].
Proof. scalar_write. Qed.

Lemma write_program id c p :
  write_ok id c (with_program c p) [JSetProgram id (c_program c)].
Proof. scalar_write. Qed.

Lemma write_delegation id c d :
  write_ok id c (with_delegation c d) [JSetDelegation id (c_delegation c)].
Proof. scalar_write. Qed.

Lemma write_lifecycle id c l :
  write_ok id c (with_lifecycle c l) [JSetLifecycle id (c_lifecycle c)].
Proof. scalar_write. Qed.

(** ** Fields *)

Lemma insert_back (l : list FieldElement) i v : <[i := nth i l FIELD_ZERO]> (<[i := v]> l) = l.
Proof.
  rewrite list_insert_insert_eq. destruct (nth_lookup_or_length l i FIELD_ZERO) as [Hi|Hi].
  - by apply list_insert_id.
  - by apply list_insert_ge.
Qed.

(** The commitment vector after a write of slot [i]. *)
Definition cleared (cs : list (option bytes)) (i : nat) : list (option bytes) :=
  match nth i cs None with Some _ => <[i := None]> cs | None => cs end.

Definition may_clear (a b : option bytes) : Prop := b = a \/ b = None.

Lemma may_clear_trans l1 l2 l3 :
  Forall2 may_clear l1 l2 -> Forall2 may_clear l2 l3 -> Forall2 may_clear l1 l3.
Proof.
  intros H12. revert l3. induction H12 as [|a b l1 l2 Hab _ IH]; intros l3 H23; inversion H23; subst;
    constructor; [|by apply IH]. unfold may_clear in *. naive_solver.
Qed.

Lemma cleared_clears l i : Forall2 may_clear l (cleared l i).
Proof.
  assert (Hr : Forall2 may_clear l l) by (induction l; constructor; auto; by left).
  unfold cleared. destruct (nth i l None) as [h|] eqn:E; [|done].
  destruct (nth_lookup_or_length l i None) as [Hi|Hi]; [|by rewrite list_insert_ge].
  rewrite <-(list_insert_id l i _ Hi) at 1. apply Forall2_insert; [done|]. by right.
Qed.

(** The common shape of the writes of a fixed slot. *)
Definition fixed_write (s : CellState) (i : nat) (v : FieldElement) : CellState :=
  with_fields s (<[i := v]> (fields s)) (field_visibility s) (cleared (commitments s) i).

Lemma set_field_fixed s i v : (i < STATE_SLOTS)%nat -> set_field s i v = (fixed_write s i v, true).
Proof. intros Hi. unfold set_field. by rewrite (proj2 (Nat.ltb_lt _ _)) by done. Qed.

Lemma fixed_write_fields_ok s i v : fields_ok s -> fields_ok (fixed_write s i v).
Proof. intros [Ho Hr]. by split. Qed.

(** Putting the old value back, with the commitments cleared or not. *)
Lemma fixed_undo s s1 i v cs :
  state_restored (fixed_write s i v) s1 -> Forall2 may_clear (commitments s1) cs ->
  state_restored s (with_fields s1 (<[i := nth i (fields s) FIELD_ZERO]> (fields s1)) (field_visibility s1) cs).
Proof.
  intros [Hs Hm] Hc. assert (Hf : fields s1 = <[i := v]> (fields s)) by (by rewrite Hs).
  rewrite Hf, insert_back. split; cbn.
  - rewrite Hs. destruct s. reflexivity.
  - eapply may_clear_trans; [apply cleared_clears|]. eapply may_clear_trans; [exact Hm|exact Hc].
Qed.

Lemma bt_insert_back k (v w : FieldElement) m :
  bt_ok id m -> bt_get id k m = Some w -> bt_insert id k w (bt_insert id k v m) = m.
Proof.
  unfold bt_ok. induction 1 as [|[j x] m Hs IH Hj]; cbn; [done|].
  destruct (Z.eqb_spec k j) as [->|Hne].
  - intros [= ->]. by rewrite Z.ltb_irrefl; cbn; rewrite Z.ltb_irrefl, Z.eqb_refl.
  - intros Hg. destruct (Z.ltb_spec k j) as [Hlt|Hge].
    + exfalso. apply bt_get_elem in Hg as (k' & E & Hin). rewrite Forall_forall in Hj.
      specialize (Hj _ Hin). unfold key_lt, bt_key in Hj. cbn in *. lia.
    + cbn. rewrite (proj2 (Z.ltb_ge _ _)) by done. rewrite (proj2 (Z.eqb_neq _ _)) by done. f_equal. by apply IH.
Qed.

Lemma bt_remove_fresh k (v : FieldElement) m :
  bt_get id k m = None -> bt_remove id k (bt_insert id k v m) = m.
Proof.
  unfold bt_remove, retain. induction m as [|[j w] m IH]; cbn; [by rewrite Z.eqb_refl|].
  destruct (Z.eqb_spec k j) as [E|E]; [done|]. intros Hc.
  assert (Hj : negb (j =? k) = true) by (by rewrite (proj2 (Z.eqb_neq _ _)) by congruence).
  destruct (k <? j); cbn; rewrite Hj, ?Z.eqb_refl; cbn.
  - f_equal. apply (bt_remove_absent id k m). unfold bt_contains. by rewrite Hc.
  - f_equal. by apply IH.
Qed.

Lemma write_state id c s' e :
  cell_entry e = true -> entry_cell e = Some id ->
  (fields_ok (c_state c) -> fields_ok s') ->
  (fields_ok (c_state c) -> forall c1, state_restored s' (c_state c1) ->
     exists s2, undo_cell e c1 = Some (with_state c1 s2) /\ state_restored (c_state c) s2) ->
  write_ok id c (with_state c s') [e].
Proof.
  intros Hc He Hf Hu. apply write_one; [done|done|done| |].
  - intros [Hk Ho]. split; [done|by apply Hf].
  - intros [_ Ho] c1 []. cbn in *. destruct (Hu Ho c1 re_state0) as (s2 & E & Hr).
    exists (with_state c1 s2). split; [done|]. by split.
Qed.

Lemma write_field_fixed id c index v :
  index < Z.of_nat STATE_SLOTS ->
  write_ok id c (with_state c (fixed_write (c_state c) (Z.to_nat index) v))
    [JSetField id index (Some (nth (Z.to_nat index) (fields (c_state c)) FIELD_ZERO))].
Proof.
  intros Hi. apply write_state; [done|done|apply fixed_write_fields_ok|].
  intros _ c1 Hr. cbn. unfold undo_set_field. rewrite (proj2 (Z.ltb_lt _ _)) by done. cbn.
  eexists. split; [reflexivity|]. eapply fixed_undo; [exact Hr|].
  clear. induction (commitments _); constructor; auto. by left.
Qed.

Lemma write_field_ext cid c index v s' b :
  Z.of_nat STATE_SLOTS <= index ->
  set_field_ext USIZE_BITS (c_state c) (as_u64 index) v = Some (s', b) ->
  write_ok cid c (with_state c s')
    [JSetField cid index (get_field_ext USIZE_BITS (c_state c) (as_u64 index))].
Proof.
  intros Hi Hset. unfold set_field_ext, get_field_ext in *.
  set (k := as_usize USIZE_BITS (as_u64 index)) in *.
  destruct (Z.ltb_spec k (Z.of_nat STATE_SLOTS)) as [Hk|Hk].
  - assert (Hn : (Z.to_nat k < STATE_SLOTS)%nat) by (unfold STATE_SLOTS in *; lia).
    rewrite set_field_fixed in Hset by done. injection Hset as <- _.
    apply write_state; [done|done|apply fixed_write_fields_ok|].
    intros _ c1 Hr. cbn. unfold undo_set_field, set_field_ext. fold k.
    rewrite (proj2 (Z.ltb_ge index _)) by done. rewrite (proj2 (Z.ltb_lt k _)) by done.
    rewrite set_field_fixed by done. eexists. split; [reflexivity|].
    eapply fixed_undo; [exact Hr|apply cleared_clears].
  - destruct (compute_canonical_fields_root_8 _) as [r|] eqn:Er in Hset; [|done].
    injection Hset as <- _. set (m := fields_map (c_state c)) in *.
    apply write_state; [done|done| |].
    { intros [Ho _]. split; [by apply bt_insert_ok|exact Er]. }
    intros [Ho Hroot] c1 [Hs Hm]. fold m in Ho, Hroot. cbn in Hm. cbn. unfold undo_set_field, set_field_ext. fold k.
    rewrite (proj2 (Z.ltb_ge index _)) by done.
    assert (Hfm : fields_map (c_state c1) = bt_insert id (as_u64 index) v m) by (by rewrite Hs).
    assert (Hres : state_restored (c_state c) (with_fields_map (c_state c1) m (fields_root (c_state c)))).
    { split; [|exact Hm]. rewrite Hs. unfold m. destruct (c_state c). reflexivity. }
    destruct (bt_get id (as_u64 index) m) as [old|] eqn:Eg.
    + rewrite (proj2 (Z.ltb_ge k _)) by done. rewrite Hfm, bt_insert_back by done.
      rewrite Hroot. eexists. by split; [reflexivity|].
    + unfold reseal_fields_root. cbn [fields_map with_fields_map]. rewrite Hfm, bt_remove_fresh by done.
      rewrite Hroot. eexists. by split; [reflexivity|].
Qed.

(** ** C-lists *)

Lemma write_clist id c k' e :
  cell_entry e = true -> entry_cell e = Some id ->
  (clist_ok (c_capabilities c) -> clist_ok k') ->
  (clist_ok (c_capabilities c) -> forall c1, clist_restored k' (c_capabilities c1) ->
     exists k2, undo_cell e c1 = Some (with_capabilities c1 k2) /\
       clist_restored (c_capabilities c) k2) ->
  write_ok id c (with_capabilities c k') [e].
Proof.
  intros Hc He Hf Hu. apply write_one; [done|done|done| |].
  - intros [Hk Ho]. split; [by apply Hf|done].
  - intros [Hk _] c1 []. cbn in *. destruct (Hu Hk c1 re_clist0) as (k2 & E & Hr).
    exists (with_capabilities c1 k2). split; [done|]. by split.
Qed.

Lemma retain_absent (l : list CapabilityRef) z :
  z ∉ cap_slot <$> l -> retain (fun r => negb (cap_slot r =? z)) l = l.
Proof.
  intros Hz. apply retain_all. intros r Hr. apply negb_true_iff, Z.eqb_neq. intros <-.
  by apply Hz, list_elem_of_fmap_2.
Qed.

(** Taking one reference out of a duplicate-free list and appending it. *)
Lemma retain_snoc_perm (l : list CapabilityRef) r :
  NoDup (cap_slot <$> l) -> r ∈ l ->
  retain (fun x => negb (cap_slot x =? cap_slot r)) l ++ [r] ≡ₚ l.
Proof.
  induction l as [|x l IH]; [by intros _ ?%elem_of_nil|].
  rewrite fmap_cons. intros [Hx Hnd]%NoDup_cons [->|Hin]%elem_of_cons; cbn.
  - rewrite Z.eqb_refl. cbn. fold (retain (fun y => negb (cap_slot y =? cap_slot x)) l).
    rewrite retain_absent by done. by rewrite Permutation_app_comm.
  - assert (Hne : cap_slot x <> cap_slot r) by (intros E; apply Hx; rewrite E; by apply list_elem_of_fmap_2).
    rewrite (proj2 (Z.eqb_neq _ _)) by done. cbn. constructor. by apply IH.
Qed.

Lemma next_fresh s : clist_ok s -> next_slot s ∉ slots s.
Proof.
  intros Hok Hin. assert (0 <= next_slot s < next_slot s) by (apply (ok_dense s Hok); by left). lia.
Qed.

Lemma write_grant id c mk slot k' :
  (forall z, cap_slot (mk z) = z) -> append_ref (c_capabilities c) mk = (k', Some slot) ->
  write_ok id c (with_capabilities c k') [JGrantCapability id slot].
Proof.
  intros Hmk Ha. set (s := c_capabilities c) in *.
  assert (Hk' : k' = (append_ref s mk).1) by (by rewrite Ha).
  assert (Hsl : (append_ref s mk).2 = Some slot) by (by rewrite Ha). clear Ha. subst k'.
  apply write_clist; [done|done|by apply append_ref_ok|].
  intros Hok c1 [Hr Hn Ht Hx Hko]. cbn [undo_cell]. eexists. split; [reflexivity|].
  destruct (append_ref_spec s mk) as (E & Et & _ & Er & En). rewrite Hsl in E.
  destruct (next_slot s <? u32_max); [|done]. injection E as ->. rewrite Er in Hr.
  rewrite En in Hn, Hx. rewrite Et in Ht, Hx.
  set (k1 := c_capabilities c1) in *.
  destruct (revoke_spec k1 (next_slot s)) as (_ & Rn & _ & Rr & Rt).
  assert (Hin : next_slot s ∈ slots k1).
  { unfold slots. rewrite Hr, fmap_app, elem_of_app. right. cbn. rewrite Hmk. by apply list_elem_of_singleton. }
  rewrite bool_decide_true in Rt by done. split.
  - rewrite Rr, (retain_perm _ _ _ Hr). unfold retain. rewrite List.filter_app. cbn.
    rewrite Hmk, Z.eqb_refl. cbn. rewrite app_nil_r.
    fold (retain (fun r => negb (cap_slot r =? next_slot s)) (refs s)).
    rewrite retain_absent; [done|by apply next_fresh].
  - rewrite Rn. fold s. lia.
  - intros z Hz. rewrite Rt, elem_of_tomb_insert. right. by apply Ht.
  - intros z. rewrite Rt, elem_of_tomb_insert. intros [->|Hz]; [right; fold s; lia|].
    destruct (Hx z Hz) as [Hz2|Hz2]; [by left|right]. cbn in Hz2. fold s. lia.
  - intros _. apply revoke_ok, Hko. by apply append_ref_ok.
Qed.

Lemma write_revoke id c slot old :
  lookup_cap (c_capabilities c) slot = Some old ->
  write_ok id c (with_capabilities c (revoke (c_capabilities c) slot).1) [JRevokeCapability id old].
Proof.
  intros Hl. apply write_clist; [done|done|apply revoke_ok|].
  set (s := c_capabilities c) in *. intros Hok c1 [Hr Hn Ht Hx Hko]. cbn [undo_cell]. eexists. split; [reflexivity|].
  apply lookup_cap_iff in Hl as [Hin <-]; [|apply (ok_nodup s Hok)].
  destruct (revoke_spec s (cap_slot old)) as (_ & Rn & _ & Rr & Rt).
  assert (Hsl : cap_slot old ∈ slots s) by (by apply list_elem_of_fmap_2).
  rewrite bool_decide_true in Rt by done. rewrite Rr in Hr. rewrite Rn in Hn, Hx.
  set (k1 := c_capabilities c1) in *.
  assert (Hno : cap_slot old ∉ slots k1).
  { unfold slots. rewrite Hr. rewrite (elem_of_slots_retain (fun x => negb (x =? cap_slot old))).
    rewrite Z.eqb_refl. cbn. naive_solver. }
  assert (Hback : clist_ok (restore k1 old)).
  { apply restore_ok; [apply Ht; rewrite Rt; apply elem_of_tomb_insert; by left|by apply Hko, revoke_ok]. }
  revert Hback. unfold restore. cbn [refs tombstones next_slot invalidate_cap_root_cache].
  rewrite any_slot_eq, bool_decide_false by done. intros Hback. split; cbn [refs next_slot tombstones].
  - rewrite Hr. apply retain_snoc_perm; [apply (ok_nodup s Hok)|done].
  - exact Hn.
  - intros z Hz. rewrite elem_of_retain, negb_true_iff, Z.eqb_neq. split.
    + apply Ht. rewrite Rt, elem_of_tomb_insert. by right.
    + intros ->. by apply (ok_disjoint s Hok (cap_slot old)).
  - intros z [Hz Hne%negb_true_iff%Z.eqb_neq]%elem_of_retain.
    destruct (Hx z Hz) as [Hz'|]; [|by right]. left. rewrite Rt, elem_of_tomb_insert in Hz'. tauto.
  - intros _. exact Hback.
Qed.

Lemma revoke_missing id c slot :
  lookup_cap (c_capabilities c) slot = None ->
  write_ok id c (with_capabilities c (revoke (c_capabilities c) slot).1) [].
Proof.
  intros Hl%lookup_cap_None_iff. apply write_silent.
  destruct (revoke_spec (c_capabilities c) slot) as (_ & Rn & _ & Rr & Rt).
  rewrite bool_decide_false in Rt by done. rewrite retain_absent in Rr by done.
  unfold content. change (c_capabilities (with_capabilities c ?k)) with k.
  replace (invalidate_cap_root_cache (revoke (c_capabilities c) slot).1)
    with (invalidate_cap_root_cache (c_capabilities c)); [reflexivity|].
  unfold invalidate_cap_root_cache. by rewrite Rn, Rr, Rt.
Qed.

Lemma update_first_map z f (l : list CapabilityRef) :
  NoDup (cap_slot <$> l) ->
  update_first (fun r => cap_slot r =? z) f l = map (fun r => if cap_slot r =? z then f r else r) l.
Proof.
  induction l as [|x l IH]; [done|]. rewrite fmap_cons. intros [Hx Hnd]%NoDup_cons. cbn.
  destruct (Z.eqb_spec (cap_slot x) z) as [<-|]; [|by rewrite IH]. f_equal.
  rewrite <-(map_id l) at 1. apply map_ext_in. intros r Hr%list_elem_of_In.
  rewrite (proj2 (Z.eqb_neq _ _)); [done|]. intros E. apply Hx. rewrite <-E. by apply list_elem_of_fmap_2.
Qed.

Lemma write_attenuate id c slot p eff exp prior k' h :
  lookup_cap (c_capabilities c) slot = Some prior ->
  attenuate_in_place (c_capabilities c) slot p eff exp = (k', Some h) ->
  write_ok id c (with_capabilities c k')
    [JAttenuateCapability id slot (cap_permissions prior) (cap_allowed_effects prior) (cap_expires_at prior)].
Proof.
  set (s := c_capabilities c) in *. intros Hl Ha.
  destruct (attenuate_in_place_slots s slot p eff exp) as (Sl & Sn & St). rewrite Ha in Sl, Sn, St.
  cbn [fst] in *. apply write_clist; [done|done|by apply same_slots_ok|].
  fold s. intros Hok c1 [Hr Hn Ht Hx Hko]. cbn [undo_cell]. eexists. split; [reflexivity|].
  pose proof (ok_nodup s Hok) as Hnd. pose proof Hl as Hl'. apply lookup_cap_iff in Hl as [Hin Hz]; [|done].
  assert (Hrefs : exists e x, refs k' = map (fun r => if cap_slot r =? slot then narrow_ref r p e x else r) (refs s)).
  { unfold attenuate_in_place in Ha. rewrite Hl' in Ha. destruct (negb _); [discriminate Ha|].
    destruct (narrow_effects prior eff) as [e|]; [|discriminate Ha].
    destruct (narrow_expiry prior exp) as [x|]; [|discriminate Ha].
    apply (f_equal fst) in Ha. cbn [fst] in Ha. subst k'. exists e, x.
    cbn [refs invalidate_cap_root_cache]. by apply update_first_map. }
  destruct Hrefs as (e & x & Hrefs). set (k1 := c_capabilities c1) in *.
  assert (Hnd1 : NoDup (cap_slot <$> refs k1)) by (rewrite Hr; fold (slots k'); by rewrite Sl).
  unfold undo_attenuation. cbn [refs next_slot tombstones invalidate_cap_root_cache].
  split; cbn [refs next_slot tombstones]; [|by rewrite <-Sn| | |].
  - rewrite update_first_map by done. change (map ?f (refs k1)) with (f <$> refs k1). rewrite Hr, Hrefs.
    change (?f <$> map ?g ?l) with (map f (map g l)). rewrite map_map.
    apply reflexive_eq. rewrite <-(map_id (refs s)) at 2. apply map_ext_in. intros r Hr'%list_elem_of_In.
    destruct (Z.eqb_spec (cap_slot r) slot) as [E|E]; cbn.
    + rewrite (proj2 (Z.eqb_eq _ _) E). assert (r = prior) as ->.
      { assert (lookup_cap s slot = Some r) by (by apply lookup_cap_iff). congruence. }
      by destruct prior.
    + by rewrite (proj2 (Z.eqb_neq _ _)).
  - intros z Hz'. apply Ht. by rewrite St.
  - intros z Hz'. rewrite <-St, <-Sn. by apply Hx.
  - intros _. apply (same_slots_ok (c_capabilities c1)); [|done..|].
    + unfold slots. cbn [refs invalidate_cap_root_cache]. rewrite update_first_map by done.
      change (cap_slot <$> map ?f ?l) with (map cap_slot (map f l)). rewrite map_map. apply map_ext. intros r.
      by destruct (cap_slot r =? slot).
    + apply Hko. by apply (same_slots_ok s).
Qed.

Lemma attenuate_refused id c slot p eff exp k' :
  attenuate_in_place (c_capabilities c) slot p eff exp = (k', None) ->
  write_ok id c (with_capabilities c k') [].
Proof.
  intros Ha. apply write_silent. enough (k' = c_capabilities c) as -> by (by destruct c).
  unfold attenuate_in_place in Ha. repeat case_match; apply (f_equal fst) in Ha as Hk;
    apply (f_equal snd) in Ha; cbn [fst snd] in *;
    first [discriminate Ha | exact (eq_sym Hk)].
Qed.

Lemma grant_refused id c mk k' :
  append_ref (c_capabilities c) mk = (k', None) -> write_ok id c (with_capabilities c k') [].
Proof.
  unfold append_ref. destruct (checked_add_u32 _ 1); [done|]. intros [= <-]. by apply write_silent.
Qed.

End Restored.

(** ** Sets *)

Definition seq_ok (s : AppendSet) : Prop := as_next_seq s = max_next (as_map s).

Lemma pop_push s k v :
  seq_ok s -> as_contains s k = false -> (as_remove (pushed s k v) k).1 = s.
Proof.
  intros Hs Hc. unfold as_remove, as_contains, bt_contains, pushed. cbn [as_map].
  rewrite bt_get_insert, Z.eqb_refl, bt_remove_insert_fresh by done. cbn. rewrite <-Hs. by destruct s.
Qed.

Lemma pushed_seq_ok s k v : seq_ok s -> as_contains s k = false -> seq_ok (pushed s k v).
Proof.
  intros Hs Hc. unfold seq_ok. rewrite (max_next_perm _ _ (pushed_perm s k v Hc)). cbn.
  fold (max_next (as_map s)). rewrite <-Hs. pose proof (max_next_nonneg (as_map s)).
  rewrite <-Hs in *. lia.
Qed.

Section Turns.
Context `{HB : Blake3} `{HC : ProgramCodec} `{HO : TurnOracles}.

(** ** The ledger's writes, as the map of cells sees them *)

Lemma cells_journal_cell L id : cells (journal_cell L id) = cells L.
Proof. unfold journal_cell. by repeat case_match. Qed.

Lemma cells_get_mut L id f :
  cells (get_mut L id f) =
    match cells L !! id with
    | Some c => <[id := f (invalidate_leaf_cache c)]> (cells L)
    | None => cells L
    end.
Proof.
  unfold get_mut. pose proof (cells_journal_cell L id) as Hj.
  rewrite Hj. by destruct (cells L !! id).
Qed.

Lemma sov_get_mut L id f : sovereign_commitments (get_mut L id f) = sovereign_commitments L.
Proof. unfold get_mut, journal_cell. by repeat case_match. Qed.

Lemma cells_add_cell L id c : cells (add_cell L id c) = <[id := c]> (cells L).
Proof. unfold add_cell, journal_cell. by repeat case_match. Qed.

Lemma sov_add_cell L id c : sovereign_commitments (add_cell L id c) = sovereign_commitments L.
Proof. unfold add_cell, journal_cell. by repeat case_match. Qed.

Lemma cells_remove L id : cells (remove L id).1 = delete id (cells L).
Proof.
  unfold remove. pose proof (cells_journal_cell L id) as Hj.
  rewrite Hj. destruct (cells L !! id) eqn:E; [done|]. cbn [fst]. by rewrite Hj, delete_id.
Qed.

Lemma sov_remove L id : sovereign_commitments (remove L id).1 = sovereign_commitments L.
Proof. unfold remove, journal_cell. by repeat case_match. Qed.

Lemma remove_some L id c : cells L !! id = Some c -> (remove L id).2 = Some c.
Proof.
  intros Hc. unfold remove. pose proof (cells_journal_cell L id) as Hj.
  by rewrite Hj, Hc.
Qed.

(** ** Steps *)

(** What one journalled write does to the executor's state. *)
Inductive jstep : ExecState -> ExecState -> Prop :=
| js_cell st id c c' es :
    cells (x_ledger st) !! id = Some c -> write_ok id (invalidate_leaf_cache c) c' es ->
    jstep st (record (with_ledger st (get_mut (x_ledger st) id (fun _ => c'))) es)
| js_touch st id :
    jstep st (with_ledger st (get_mut (x_ledger st) id (fun c => c)))
| js_create st cell :
    cells (x_ledger st) !! c_id cell = None -> cell_ok cell ->
    jstep st (record (with_ledger st (add_cell (x_ledger st) (c_id cell) (invalidate_leaf_cache cell)))
                [JCreateCell (c_id cell)])
| js_sovereign st id cell com :
    cells (x_ledger st) !! id = Some cell ->
    jstep st (record (with_ledger st
                (with_sovereign (remove (x_ledger st) id).1 (<[id := com]> (sovereign_commitments (x_ledger st)))))
                [JMakeSovereign cell])
| js_nullifier st k v :
    as_contains (x_nullifiers st) k = false ->
    jstep st (record (with_nullifiers st (pushed (x_nullifiers st) k v))
                [JNoteNullifierInserted k; JNoteSpend])
| js_commitment st k v :
    as_contains (x_commitments st) k = false ->
    jstep st (record (with_commitments st (pushed (x_commitments st) k v))
                [JNoteCommitmentInserted k; JNoteCreate])
| js_revoked st k v :
    as_contains (x_revoked st) k = false ->
    jstep st (record (with_revoked st (pushed (x_revoked st) k v)) [JRevocationInserted k])
| js_event st cell topic data : jstep st (record st [JEventEmitted cell topic data]).

Record st_ok (st : ExecState) : Prop := {
  so_keyed : keyed (cells (x_ledger st));
  so_cells : map_Forall (fun _ c => cell_ok c) (cells (x_ledger st));
  so_null : seq_ok (x_nullifiers st);
  so_com : seq_ok (x_commitments st);
  so_rev : seq_ok (x_revoked st);
}.

Lemma invalidate_ok c : cell_ok c -> cell_ok (invalidate_leaf_cache c).
Proof. intros []. by split. Qed.

Lemma insert_st_ok st L' id c :
  st_ok st -> cells L' = <[id := c]> (cells (x_ledger st)) -> c_id c = id -> cell_ok c ->
  keyed (cells L') /\ map_Forall (fun _ c => cell_ok c) (cells L').
Proof. intros [] -> Hid Hok. split; by apply map_Forall_insert_2. Qed.

Lemma jstep_ok st st' : jstep st st' -> st_ok st -> st_ok st'.
Proof.
  intros Hstep Hok. pose proof Hok as [Hk Hc Hn Hm Hr].
  destruct Hstep as [st id c c' es Hl Hw|st id|st cell Hl Hcell|st id cell com Hl|st k v Hf|st k v Hf|st k v Hf|];
    [| | | |split; cbn; try done; by apply pushed_seq_ok..|by split].
  - destruct (insert_st_ok st (get_mut (x_ledger st) id (fun _ => c')) id c' Hok) as [H1 H2].
    + by rewrite cells_get_mut, Hl.
    + etransitivity; [apply (wo_id _ _ _ _ Hw)|]. by apply (Hk id c).
    + eapply wo_ok; [exact Hw|]. apply invalidate_ok. by apply (Hc id c).
    + by split.
  - destruct (cells (x_ledger st) !! id) as [c|] eqn:E.
    + destruct (insert_st_ok st (get_mut (x_ledger st) id (fun c => c)) id (invalidate_leaf_cache c) Hok)
        as [H1 H2]; [by rewrite cells_get_mut, E|by apply (Hk id c)|apply invalidate_ok; by apply (Hc id c)|by split].
    + split; cbn; rewrite ?cells_get_mut, ?E; done.
  - destruct (insert_st_ok st (add_cell (x_ledger st) (c_id cell) (invalidate_leaf_cache cell)) (c_id cell)
      (invalidate_leaf_cache cell) Hok) as [H1 H2];
      [apply cells_add_cell|done|by apply invalidate_ok|by split].
  - split; cbn; try done; rewrite cells_remove; by apply map_Forall_delete.
Qed.

(** ** Undoing a step *)

(** The rolled-back state against the state a prefix of the journal led to;
    commitments of cells that prefix made sovereign are not compared yet. *)
Record st_restored (st st1 : ExecState) : Prop := {
  rs_cells : forall id, option_Forall2 cell_restored (cells (x_ledger st) !! id) (cells (x_ledger st1) !! id);
  rs_sov : forall id, (forall c, JMakeSovereign c ∈ x_journal st -> c_id c <> id) ->
             sovereign_commitments (x_ledger st1) !! id = sovereign_commitments (x_ledger st) !! id;
  rs_bridged : x_bridged st1 = x_bridged st;
  rs_null : x_nullifiers st1 = x_nullifiers st;
  rs_com : x_commitments st1 = x_commitments st;
  rs_rev : x_revoked st1 = x_revoked st;
}.

(** Restored cells are as well formed as they were. *)
Lemma cell_restored_ok c c1 : cell_restored c c1 -> cell_ok c -> cell_ok c1.
Proof.
  intros Hr [Hk [F1 F2]]. split; [exact (cr_ok _ _ (re_clist _ _ Hr) Hk)|].
  destruct (re_state _ _ Hr) as [Hs _]. split; rewrite Hs; cbn; done.
Qed.

Lemma restored_cells_ok m m1 : (forall id : CellId, option_Forall2 cell_restored (m !! id) (m1 !! id)) ->
  keyed m -> map_Forall (fun _ c => cell_ok c) m -> keyed m1 /\ map_Forall (fun _ c => cell_ok c) m1.
Proof.
  intros Hr Hk Hc. split; intros id c1 Hl; specialize (Hr id); rewrite Hl in Hr; inversion Hr as [c ? Hcr E|]; subst.
  - rewrite (re_id _ _ Hcr). by apply (Hk id c).
  - eapply cell_restored_ok; [exact Hcr|]. by apply (Hc id c).
Qed.

Lemma restored_invalidate_l c c1 : cell_restored (invalidate_leaf_cache c) c1 -> cell_restored c c1.
Proof. intros []. by split. Qed.

Lemma restored_invalidate_r c c1 : cell_restored c c1 -> cell_restored c (invalidate_leaf_cache c1).
Proof. intros []. by split. Qed.

Lemma undo_cell_invalidate e c :
  undo_cell e (invalidate_leaf_cache c) = invalidate_leaf_cache <$> undo_cell e c.
Proof.
  destruct e; try reflexivity; cbn.
  - by destruct (undo_set_field _ _ _).
  - destruct old_value; [by destruct (set_heap _ _ _ _)|by destruct (remove_heap _ _ _)].
Qed.

Lemma undo_all_invalidate es c :
  undo_all es (invalidate_leaf_cache c) = invalidate_leaf_cache <$> undo_all es c.
Proof.
  induction es as [|e es IH]; [done|]. cbn. fold (undo_all es (invalidate_leaf_cache c)) (undo_all es c).
  rewrite IH. destruct (undo_all es c) as [c'|]; [|done]. cbn. apply undo_cell_invalidate.
Qed.

(** Replaying the entries of one cell is undoing them on that cell. *)
Lemma rollback_cell_entries id es st1 c1 c2 :
  Forall (fun e => cell_entry e = true /\ entry_cell e = Some id) es ->
  cells (x_ledger st1) !! id = Some c1 -> undo_all es c1 = Some c2 ->
  exists L2 c2', rollback_entries es st1 = Some (with_ledger st1 L2) /\
    cells L2 = <[id := c2']> (cells (x_ledger st1)) /\
    sovereign_commitments L2 = sovereign_commitments (x_ledger st1) /\
    invalidate_leaf_cache c2' = invalidate_leaf_cache c2.
Proof.
  intros Hes Hc. revert c2. induction Hes as [|e es [He Hid] _ IH]; intros c2 Hu.
  - injection Hu as <-. exists (x_ledger st1), c1. split_and!; [by destruct st1| |done|done].
    symmetry. by apply insert_id.
  - cbn in Hu. fold (undo_all es c1) in Hu. destruct (undo_all es c1) as [cm|] eqn:Em; [|done].
    cbn in Hu. destruct (IH cm eq_refl) as (L2 & cm' & Er & Hcells & Hsov & Hinv).
    assert (Hu' : undo_cell e (invalidate_leaf_cache cm') = Some (invalidate_leaf_cache c2)).
    { rewrite Hinv, undo_cell_invalidate, Hu. done. }
    cbn. fold (rollback_entries es st1). rewrite Er. cbn.
    exists (get_mut L2 id (fun _ => invalidate_leaf_cache c2)), (invalidate_leaf_cache c2).
    split_and!; [|by rewrite cells_get_mut, Hcells, lookup_insert_eq, insert_insert_eq
      |by rewrite sov_get_mut|done].
    assert (Hg : get_mut_with L2 id (undo_cell e) = Some (get_mut L2 id (fun _ => invalidate_leaf_cache c2))).
    { unfold get_mut_with. by rewrite Hcells, lookup_insert_eq, Hu'. }
    destruct e; try discriminate He; cbn in Hid; injection Hid as ->;
      unfold rollback_entry; cbn [entry_cell x_ledger with_ledger]; rewrite Hg; reflexivity.
Qed.

(** The cells a piece of journal made sovereign. *)
Definition made_sovereign (es : list JournalEntry) (id : CellId) : Prop :=
  exists c, JMakeSovereign c ∈ es /\ c_id c = id.

Definition sov_preserved (es : list JournalEntry) (st st1 : ExecState) : Prop :=
  forall id, ~ made_sovereign es id ->
    sovereign_commitments (x_ledger st1) !! id = sovereign_commitments (x_ledger st) !! id.

(** No cell made sovereign had a commitment before. *)
Definition sov_fresh (es : list JournalEntry) (st : ExecState) : Prop :=
  forall id, made_sovereign es id -> ~ made_sovereign (x_journal st) id ->
    sovereign_commitments (x_ledger st) !! id = None.

Lemma made_sovereign_app es1 es2 id :
  made_sovereign (es1 ++ es2) id <-> made_sovereign es1 id \/ made_sovereign es2 id.
Proof. unfold made_sovereign. setoid_rewrite elem_of_app. naive_solver. Qed.

Lemma cell_entries_not_sovereign id es :
  Forall (fun e => cell_entry e = true /\ entry_cell e = Some id) es -> forall i, ~ made_sovereign es i.
Proof. intros Hes i (c & Hin & _). rewrite Forall_forall in Hes. by destruct (Hes _ Hin). Qed.

(** One step forward and its entries backwards. *)
Record undoable (st st' : ExecState) (es : list JournalEntry) : Prop := {
  ud_journal : x_journal st' = x_journal st ++ es;
  ud_sov : sov_preserved es st st';
  ud_undo : forall st1, st_restored st' st1 -> sov_fresh es st ->
              exists st2, rollback_entries es st1 = Some st2 /\ st_restored st st2;
}.

Lemma restored_cells st' st1 id :
  st_restored st' st1 ->
  option_Forall2 cell_restored (cells (x_ledger st') !! id) (cells (x_ledger st1) !! id).
Proof. intros []. auto. Qed.

(** A step that leaves the sovereign table alone. *)
Lemma restored_sov st st' st1 es :
  x_journal st' = x_journal st ++ es -> (forall i, ~ made_sovereign es i) ->
  sovereign_commitments (x_ledger st') = sovereign_commitments (x_ledger st) ->
  st_restored st' st1 ->
  forall id, (forall c, JMakeSovereign c ∈ x_journal st -> c_id c <> id) ->
    sovereign_commitments (x_ledger st1) !! id = sovereign_commitments (x_ledger st) !! id.
Proof.
  intros Hj Hes Hs [_ Hsov _ _ _ _] id Hid. rewrite <-Hs. apply Hsov. rewrite Hj.
  intros c [Hc|Hc]%elem_of_app; [by apply Hid|]. intros <-. eapply Hes. by exists c.
Qed.

Lemma undo_write st id c c' es :
  cells (x_ledger st) !! id = Some c -> write_ok id (invalidate_leaf_cache c) c' es -> st_ok st ->
  undoable st (record (with_ledger st (get_mut (x_ledger st) id (fun _ => c'))) es) es.
Proof.
  intros Hl Hw Hok. set (st' := record _ es). pose proof (wo_names _ _ _ _ Hw) as Hn.
  assert (Hcells : cells (x_ledger st') = <[id := c']> (cells (x_ledger st))) by (cbn; by rewrite cells_get_mut, Hl).
  assert (Hsov : sovereign_commitments (x_ledger st') = sovereign_commitments (x_ledger st)) by apply sov_get_mut.
  split; [done|by intros i _; rewrite Hsov|]. intros st1 Hr _.
  pose proof (restored_cells _ _ id Hr) as Hid. rewrite Hcells, lookup_insert_eq in Hid.
  inversion Hid as [? c1 Hc1 E1 E2|]; subst. symmetry in E2.
  destruct (wo_undo _ _ _ _ Hw) with (c1 := c1) as (c2 & Eu & Hres); [|done|].
  { apply invalidate_ok. by apply (so_cells st Hok id c). }
  destruct (rollback_cell_entries id es st1 c1 c2 Hn E2 Eu) as (L2 & c2' & Er & HcL & HsL & Hinv).
  exists (with_ledger st1 L2). split; [done|]. split; cbn; try apply Hr.
  - intros j. rewrite HcL. destruct (decide (j = id)) as [->|Hne].
    + rewrite Hl, lookup_insert_eq. constructor. apply restored_invalidate_l.
      apply restored_invalidate_r in Hres. rewrite <-Hinv in Hres. destruct Hres. by split.
    + rewrite lookup_insert_ne by done. pose proof (restored_cells _ _ j Hr) as Hj.
      by rewrite Hcells, lookup_insert_ne in Hj.
  - rewrite HsL. eapply (restored_sov st st'); [done|by eapply cell_entries_not_sovereign|done|done].
Qed.

Lemma undo_touch st id :
  undoable st (with_ledger st (get_mut (x_ledger st) id (fun c => c))) [].
Proof.
  set (st' := with_ledger _ _).
  assert (Hsov : sovereign_commitments (x_ledger st') = sovereign_commitments (x_ledger st)) by apply sov_get_mut.
  split; [by rewrite app_nil_r|by intros i _; rewrite Hsov|]. intros st1 Hr _. exists st1. split; [done|].
  split; try apply Hr.
  - intros j. pose proof (restored_cells _ _ j Hr) as Hj. unfold st' in Hj. cbn in Hj.
    rewrite cells_get_mut in Hj. destruct (cells (x_ledger st) !! id) as [c|] eqn:E; [|done].
    destruct (decide (j = id)) as [->|Hne]; [|by rewrite lookup_insert_ne in Hj].
    rewrite lookup_insert_eq in Hj. rewrite E. inversion Hj; subst. constructor.
    by apply restored_invalidate_l.
  - eapply (restored_sov st st' st1 []); [by rewrite app_nil_r| |done|done].
    intros i (c & Hin & _). by apply elem_of_nil in Hin.
Qed.

Lemma undo_create st cell :
  cells (x_ledger st) !! c_id cell = None ->
  undoable st (record (with_ledger st (add_cell (x_ledger st) (c_id cell) (invalidate_leaf_cache cell)))
                 [JCreateCell (c_id cell)]) [JCreateCell (c_id cell)].
Proof.
  intros Hl. set (st' := record _ _).
  assert (Hcells : cells (x_ledger st') = <[c_id cell := invalidate_leaf_cache cell]> (cells (x_ledger st)))
    by apply cells_add_cell.
  assert (Hsov : sovereign_commitments (x_ledger st') = sovereign_commitments (x_ledger st)) by apply sov_add_cell.
  split; [done|by intros i _; rewrite Hsov|]. intros st1 Hr _.
  exists (with_ledger st1 (remove (x_ledger st1) (c_id cell)).1). split; [done|].
  split; cbn; try apply Hr.
  - intros j. rewrite cells_remove. destruct (decide (j = c_id cell)) as [->|Hne].
    + rewrite Hl, lookup_delete_eq. constructor.
    + rewrite lookup_delete_ne by done. pose proof (restored_cells _ _ j Hr) as Hj.
      by rewrite Hcells, lookup_insert_ne in Hj.
  - rewrite sov_remove. eapply (restored_sov st st'); [done| |done|done].
    intros i (c & Hin%list_elem_of_singleton & _). done.
Qed.

Lemma undo_sovereign st id cell com :
  cells (x_ledger st) !! id = Some cell -> st_ok st ->
  undoable st (record (with_ledger st
     (with_sovereign (remove (x_ledger st) id).1 (<[id := com]> (sovereign_commitments (x_ledger st)))))
     [JMakeSovereign cell]) [JMakeSovereign cell].
Proof.
  intros Hl Hok. set (st' := record _ _). pose proof (so_keyed st Hok id cell Hl) as Hid. cbn in Hid.
  assert (Hcells : cells (x_ledger st') = delete id (cells (x_ledger st))) by apply cells_remove.
  assert (Hmade : made_sovereign [JMakeSovereign cell] id) by (exists cell; split; [left|done]).
  split; [done| |].
  { intros i Hi. unfold st'. cbn. rewrite lookup_insert_ne; [done|]. intros <-. done. }
  intros st1 Hr Hfresh. exists (with_ledger st1 (undo_make_sovereign (x_ledger st1) cell)). split; [done|].
  assert (Hnone : cells (x_ledger st1) !! id = None).
  { pose proof (restored_cells _ _ id Hr) as Hj.
    rewrite Hcells, lookup_delete_eq in Hj. by inversion Hj. }
  assert (Hund : undo_make_sovereign (x_ledger st1) cell =
    add_cell (with_sovereign (x_ledger st1) (delete id (sovereign_commitments (x_ledger st1)))) id
      (invalidate_leaf_cache cell)).
  { unfold undo_make_sovereign, insert_cell. cbn. by rewrite Hid, Hnone. }
  split; cbn; try apply Hr; rewrite Hund.
  - intros j. rewrite cells_add_cell. cbn. destruct (decide (j = id)) as [->|Hne].
    + rewrite Hl, lookup_insert_eq. constructor. apply restored_invalidate_r, cell_restored_refl.
    + rewrite lookup_insert_ne by done. pose proof (restored_cells _ _ j Hr) as Hj.
      by rewrite Hcells, lookup_delete_ne in Hj.
  - intros j Hj. rewrite sov_add_cell. cbn. destruct (decide (j = id)) as [->|Hne].
    + rewrite lookup_delete_eq. symmetry. apply Hfresh; [done|]. intros (c & Hc & E). by apply (Hj c).
    + rewrite lookup_delete_ne by done. rewrite (rs_sov _ _ Hr).
      * unfold st'. cbn. by rewrite lookup_insert_ne.
      * intros c [Hc|Hc%list_elem_of_singleton]%elem_of_app; [by apply Hj|].
        injection Hc as ->. congruence.
Qed.

(** A step on one of the sets: the entries take the key out again. *)
Ltac set_undo Hseq :=
  split;
  [done|by intros i _
  |intros st1 Hr _; destruct Hr as [Hc Hs Hb Hn Hm Hv]; cbn in *; eexists; split; [reflexivity|];
   split; cbn; try done;
   [intros j Hj; apply Hs; intros c [Hin|Hin]%elem_of_app; [by apply Hj|];
    rewrite ?elem_of_cons, ?elem_of_nil in Hin; naive_solver
   |rewrite ?Hn, ?Hm, ?Hv; by apply pop_push; [apply Hseq|]]].

Lemma jstep_undo st st' : jstep st st' -> st_ok st -> exists es, undoable st st' es.
Proof.
  intros Hstep Hok. destruct Hstep as [st id c c' es Hl Hw|st id|st cell Hl Hcell|st id cell com Hl|st k v Hf|st k v Hf|st k v Hf|].
  - exists es. by eapply undo_write.
  - exists []. apply undo_touch.
  - eexists. by apply undo_create.
  - eexists. by apply undo_sovereign.
  - exists [JNoteNullifierInserted k; JNoteSpend]. set_undo (so_null st Hok).
  - exists [JNoteCommitmentInserted k; JNoteCreate]. set_undo (so_com st Hok).
  - exists [JRevocationInserted k]. set_undo (so_rev st Hok).
  - exists [JEventEmitted cell topic data]. split; [done|by intros i _|].
    intros st1 [Hc Hs Hb Hn Hm Hv] _. exists st1. split; [done|]. split; cbn in *; try done.
    intros j Hj. apply Hs. intros c [Hin|Hin%list_elem_of_singleton]%elem_of_app; [by apply Hj|done].
Qed.

(** A whole run. *)
Lemma run_undo st st' :
  rtc jstep st st' -> st_ok st -> exists es, undoable st st' es.
Proof.
  induction 1 as [st|st stm st' Hstep _ IH]; intros Hok.
  - exists []. split; [by rewrite app_nil_r|done|]. intros st1 Hr _. by exists st1.
  - destruct (jstep_undo _ _ Hstep Hok) as [e1 [J1 S1 U1]].
    destruct (IH (jstep_ok _ _ Hstep Hok)) as [e2 [J2 S2 U2]].
    exists (e1 ++ e2). split.
    + by rewrite J2, J1, app_assoc.
    + intros i Hi. rewrite made_sovereign_app in Hi. rewrite S2, S1 by tauto. done.
    + intros st1 Hr Hf. destruct (U2 st1 Hr) as (st2 & E2 & R2).
      { intros i Hi Hn. rewrite J1, made_sovereign_app in Hn. rewrite S1 by tauto.
        apply Hf; [rewrite made_sovereign_app|]; tauto. }
      destruct (U1 st2 R2) as (st3 & E1 & R1).
      { intros i Hi Hn. apply Hf; [rewrite made_sovereign_app|]; tauto. }
      exists st3. split; [|done]. unfold rollback_entries. rewrite foldr_app.
      fold (rollback_entries e2 st1). by rewrite E2.
Qed.

End Turns.
