(* ===== verification/TurnTrace.v ===== *)
(** * Every run of the executor is a sequence of journalled writes

    The handlers of [turn/src/executor/apply.rs] and the walk of a call forest
    ([execute_tree.rs]), shown to be runs of the step relation of TurnRollback.v
    whether they succeed or stop half way; from that, rollback undoes a forest
    and the journal names all it touched. *)

From stdpp Require Import base decidable option list gmap sorting strings relations.
From Stdlib Require Import ZArith Lia.
From S2P Require Import Prelude BabyBear Poseidon2 CapRoot Heap State Permissions Facet.
From S2P Require Import Derivation Capability Lifecycle Cell Migration Merkle Ledger Notes.
From S2P Require Import LedgerRestore Channels Journal Executor Forest Metering ExecuteTree TurnRollback.

Open Scope Z_scope.

#[local] Opaque compute_canonical_fields_root_8.

(** ** Postconditions of computations *)

Section Post.
Context `{HB : Blake3} `{HC : ProgramCodec} `{HO : TurnOracles}.

(** [P] relates the states before and after, whatever the result. *)
Definition always {A} (P : relation ExecState) (m : M A) : Prop :=
  forall st st' r, m st = Some (st', r) -> P st st'.

Context (P : relation ExecState) `{!PreOrder P}.

Lemma always_ret {A} (a : A) : always P (ret a).
Proof. intros st st' r [= <- <-]. reflexivity. Qed.

Lemma always_throw {A} e : always P (throw (A := A) e).
Proof. intros st st' r [= <- <-]. reflexivity. Qed.

Lemma always_reads {A} (f : Ledger -> result A TurnError) : always P (reads f).
Proof. intros st st' r [= <- <-]. reflexivity. Qed.

Lemma always_total {A} (o : option A) : always P (total o).
Proof. intros st st' r. unfold total. destruct o; [|done]. intros [= <- <-]. reflexivity. Qed.

Lemma always_guard b e : always P (guard b e).
Proof. unfold guard. destruct b; [apply always_ret|apply always_throw]. Qed.

Lemma always_bind {A B} (m : M A) (k : A -> M B) :
  always P m -> (forall a, always P (k a)) -> always P (bind m k).
Proof.
  intros Hm Hk st st' r. unfold bind. destruct (m st) as [[st1 [a|e]]|] eqn:E; [| |done]; cbn.
  - intros H. transitivity st1; [by eapply Hm|by eapply Hk].
  - intros [= <- <-]. by eapply Hm.
Qed.

(** The continuation may use that the value comes out of a total function. *)
Lemma always_total_bind {A B} (o : option A) (k : A -> M B) :
  (forall a, o = Some a -> always P (k a)) -> always P (bind (total o) k).
Proof.
  intros Hk st st' r. unfold bind, total. destruct o as [a|]; [|done]. cbn. by apply Hk.
Qed.

Lemma always_for_each {A} (f : A -> M unit) (l : list A) :
  Forall (fun x => always P (f x)) l -> always P (for_each f l).
Proof.
  induction 1 as [|x l Hx _ IH]; [apply always_ret|]. by apply always_bind.
Qed.

End Post.

Section Traces.
Context `{HB : Blake3} `{HC : ProgramCodec} `{HO : TurnOracles}.
Context (ex : TurnExecutor).

Abbreviation traces := (always (rtc jstep)).

Definition body_ok {A} (id : CellId)
    (body : Cell -> option (Cell * list JournalEntry * result A TurnError)) : Prop :=
  forall c c' es r, body c = Some (c', es, r) -> write_ok id c c' es.

Lemma traces_on_cell {A} id e (body : Cell -> option (Cell * list JournalEntry * result A TurnError)) :
  body_ok id body -> traces (on_cell id e body).
Proof.
  intros Hb st st' r. unfold on_cell. destruct (cells (x_ledger st) !! id) as [c|] eqn:E.
  - destruct (body (invalidate_leaf_cache c)) as [[[c' es] r']|] eqn:Eb; [|done].
    intros [= <- <-]. apply rtc_once. eapply js_cell; [done|]. by eapply Hb.
  - intros [= <- <-]. apply rtc_once, js_touch.
Qed.

Lemma traces_if_hosted id (body : Cell -> option (Cell * list JournalEntry * result unit TurnError)) :
  body_ok id body -> traces (if_hosted id body).
Proof.
  intros Hb st st' r. unfold if_hosted. destruct (cells (x_ledger st) !! id) as [c|] eqn:E.
  - by apply traces_on_cell.
  - intros [= <- <-]. apply rtc_once, js_touch.
Qed.

Lemma traces_create cell e : cell_ok cell -> traces (create cell e).
Proof.
  intros Hok st st' r. unfold create, insert_cell.
  destruct (cells (x_ledger st) !! c_id cell) eqn:E.
  - intros [= <- <-]. replace (with_ledger st (x_ledger st)) with st by (by destruct st). reflexivity.
  - intros [= <- <-]. by apply rtc_once, js_create.
Qed.

Lemma new_cell_ok pk tok c : cell_with_balance pk tok 0 = Some c -> cell_ok c.
Proof.
  unfold cell_with_balance, state_new. destruct empty_fields_root as [fr|] eqn:Ef; [|done].
  destruct empty_heap_root; [|done]. intros [= <-]. split; [apply cset_new_ok|].
  split; [constructor|exact Ef].
Qed.

(** ** Handlers *)

(** Splits a computation along its combinators; the blocks that hold a cell
    remain. *)
Ltac trace :=
  repeat match goal with
    | |- always _ (ret _) => apply always_ret; apply _
    | |- always _ (throw _) => apply always_throw; apply _
    | |- always _ (reads _) => apply always_reads; apply _
    | |- always _ (guard _ _) => apply always_guard; apply _
    | |- always _ (bind (total _) _) => apply always_total_bind; intros ? ?
    | |- always _ (total _) => apply always_total; apply _
    | |- always _ (bind _ _) => apply always_bind; [apply _| |intros ?]
    | |- always _ (on_cell _ _ _) => apply traces_on_cell
    | |- always _ (if_hosted _ _) => apply traces_if_hosted
    | |- always _ (if ?b then _ else _) => destruct b
    | |- always _ (match ?x with _ => _ end) => destruct x
    end.

(** A block that first asks whether the cell is live. *)
Ltac live_block :=
  intros c c' es r; cbn zeta beta; destruct (negb (is_live _));
  [intros [= <- <- _]; apply write_same|].

Lemma traces_cross t a c act n b : traces (cross_cell ex t a c act n b).
Proof. unfold cross_cell. trace. Qed.

Lemma traces_set_field t a k i v : traces (apply_set_field ex t a k i v).
Proof.
  unfold apply_set_field. apply always_bind; [apply _|apply traces_cross|intros _]. trace. live_block.
  destruct (Z.ltb_spec i (Z.of_nat STATE_SLOTS)).
  - intros [= <- <- _]. by apply write_field_fixed.
  - destruct (set_field_ext _ _ _ _) as [[s' b]|] eqn:E; [|done]. intros [= <- <- _].
    by eapply write_field_ext.
Qed.

Lemma write_increment id c :
  write_ok id c (with_state c (increment_nonce (c_state c)).1) [JSetNonce id (nonce (c_state c))].
Proof.
  unfold increment_nonce. destruct (checked_add_u64 _ 1) as [n|]; cbn [fst]; [apply write_nonce|].
  replace (c_state c) with (State.with_nonce (c_state c) (nonce (c_state c))) at 1
    by (by destruct (c_state c)).
  apply write_nonce.
Qed.

Lemma write_bump id c :
  write_ok id c (with_state c (bump_delegation_epoch (c_state c)).1)
    [JSetDelegationEpoch id (delegation_epoch (c_state c))].
Proof.
  unfold bump_delegation_epoch. destruct (checked_add_u64 _ 1) as [n|]; cbn [fst]; [apply write_epoch|].
  replace (c_state c) with (with_epoch (c_state c) (delegation_epoch (c_state c))) at 1
    by (by destruct (c_state c)).
  apply write_epoch.
Qed.

Lemma traces_increment_nonce t a k : traces (apply_increment_nonce ex t a k).
Proof.
  unfold apply_increment_nonce. apply always_bind; [apply _|apply traces_cross|intros _]. trace. live_block.
  pose proof (write_increment k c) as Hw. destruct (increment_nonce (c_state c)) as [s' ok].
  intros [= <- <- _]. exact Hw.
Qed.

Lemma traces_set_permissions t a k p : traces (apply_set_permissions ex t a k p).
Proof.
  unfold apply_set_permissions. apply always_bind; [apply _|apply traces_cross|intros _]. trace. live_block.
  intros [= <- <- _]. apply write_permissions.
Qed.

Lemma traces_set_vk t a k vk : traces (apply_set_verification_key ex t a k vk).
Proof.
  unfold apply_set_verification_key. apply always_bind; [apply _|apply traces_cross|intros _]. trace.
  live_block. intros [= <- <- _]. apply write_vk.
Qed.

Lemma traces_set_program t a k p : traces (apply_set_program ex t a k p).
Proof.
  unfold apply_set_program. apply always_bind; [apply _|apply traces_cross|intros _]. trace.
  live_block. intros [= <- <- _]. apply write_program.
Qed.

(** A balance verb that refuses leaves the state alone; one that accepts
    journals the old balance. *)
Lemma write_verb id c (f : CellState -> CellState * bool) s' ok :
  (exists b, f (c_state c) = (with_balance (c_state c) b, true)) \/ f (c_state c) = (c_state c, false) ->
  f (c_state c) = (s', ok) ->
  write_ok id c (with_state c s') (if ok then [JSetBalance id (balance (c_state c))] else []).
Proof.
  intros [[b ->]| ->] [= <- <-]; [apply write_balance|].
  replace (with_state c (c_state c)) with c by (by destruct c). apply write_same.
Qed.

Lemma credit_cases s n :
  (exists b, credit_balance s n = (with_balance s b, true)) \/ credit_balance s n = (s, false).
Proof. unfold credit_balance. repeat case_match; eauto. Qed.

Lemma debit_cases s n :
  (exists b, debit_balance s n = (with_balance s b, true)) \/ debit_balance s n = (s, false).
Proof. unfold debit_balance. repeat case_match; eauto. Qed.

Lemma well_debit_cases s n :
  (exists b, well_debit_balance s n = (with_balance s b, true)) \/ well_debit_balance s n = (s, false).
Proof. unfold well_debit_balance. repeat case_match; eauto. Qed.

Ltac verb_block cases :=
  let E := fresh "E" in let Hw := fresh "Hw" in
  match goal with
  | |- context [let '(_, _) := ?f (c_state ?c) ?n in _] =>
      destruct (f (c_state c) n) as [s' ok] eqn:E;
      pose proof (fun id => write_verb id c (fun s => f s n) s' ok (cases (c_state c) n) E) as Hw;
      destruct ok; intros [= <- <- _]; exact (Hw _)
  end.

Lemma traces_materialize tok w e : traces (materialize_well tok w e).
Proof.
  unfold materialize_well. trace.
  match goal with H : _ = Some _ |- _ => exact (traces_create _ _ (new_cell_ok _ _ _ H)) end.
Qed.

Lemma traces_burn a t s n : traces (apply_burn ex a t s n).
Proof.
  unfold apply_burn, resolve_well. trace; try apply traces_materialize.
  - intros c c' es r. cbn zeta beta. verb_block debit_cases.
  - live_block. verb_block credit_cases.
Qed.

Lemma traces_mint a t s n : traces (apply_mint ex a t s n).
Proof.
  unfold apply_mint, resolve_well. trace; try apply traces_materialize.
  - intros c c' es r. cbn zeta beta. verb_block well_debit_cases.
  - intros c c' es r. cbn zeta beta. verb_block credit_cases.
Qed.

(** Both entries are recorded before either balance is written; the final state
    is that of two journalled writes. *)
Lemma traces_transfer t a f to n : traces (apply_transfer ex t a f to n).
Proof.
  unfold apply_transfer. destruct (decide (f = to)) as [->|Hne].
  { rewrite bool_decide_true by done. intros st st' r [= <- <-]. reflexivity. }
  apply always_bind; [apply _|trace|intros _].
  apply always_bind; [apply _|apply traces_cross|intros _].
  intros st st' r. unfold bind at 1, reads at 1.
  destruct (cell_or _ f _ _) as [[[old_f old_t] ni]|e] eqn:Er; cbn;
    [|intros [= <- <-]; reflexivity].
  unfold cell_or, get in Er. destruct (cells (x_ledger st) !! f) as [fc|] eqn:Ef; [|done].
  destruct (negb _); [done|]. destruct (i64_try_from n) as [amt|]; [|done]. cbn in Er.
  destruct (_ <? amt); [done|]. destruct (cells (x_ledger st) !! to) as [tc|] eqn:Et; [|done].
  destruct (negb _); [done|]. destruct (checked_add_i64 _ _); [|done]. injection Er as <- <- <-.
  unfold note_entries, bind, on_cell. cbn. rewrite Ef. cbn. rewrite cells_get_mut, Ef.
  rewrite lookup_insert_ne, Et by done. cbn. intros [= <- <-].
  eapply rtc_l; [eapply (js_cell st f fc); [done|]|].
  { apply (write_balance f (invalidate_leaf_cache fc) (balance (c_state fc) - amt)). }
  set (st1 := record _ _).
  assert (H1 : cells (x_ledger st1) !! to = Some tc).
  { cbn. by rewrite cells_get_mut, Ef, lookup_insert_ne. }
  pose proof (js_cell st1 to tc _ _ H1
    (write_balance to (invalidate_leaf_cache tc) (balance (c_state tc) + amt))) as H2.
  apply rtc_once. unfold record, with_ledger in *. cbn in *.
  rewrite <-app_assoc in H2. by rewrite !app_nil_r.
Qed.

Lemma traces_install to e f :
  (exists mk, (forall z, cap_slot (mk z) = z) /\ forall s, f s = append_ref s mk) -> traces (install to e f).
Proof.
  intros (mk & Hmk & Hf). unfold install. trace. intros c c' es r. rewrite Hf.
  destruct (append_ref (c_capabilities c) mk) as [k' [slot|]] eqn:E; intros [= <- <- _].
  - by eapply write_grant.
  - by eapply grant_refused.
Qed.

Lemma traces_grant t a f to cap turn : traces (apply_grant_capability ex t a f to cap turn).
Proof.
  unfold apply_grant_capability. apply always_bind; [apply _|apply traces_cross|intros _]. trace.
  apply traces_install. unfold grant_ref_provenanced. eexists. split; [|reflexivity]. done.
Qed.

Lemma traces_introduce i r t p turn : traces (apply_introduce ex i r t p turn).
Proof.
  unfold apply_introduce. cbv zeta. trace. apply traces_install. unfold grant_provenanced.
  eexists. split; [|reflexivity]. done.
Qed.

Lemma insert_pushed dup s k v s' r :
  as_contains s k = false -> as_insert dup s k v = Some (s', r) -> s' = pushed s k v /\ r = Ok tt.
Proof. intros Hc [(E & _)|(_ & -> & -> & _)]%insert_inv; [congruence|done]. Qed.

Lemma traces_insert_revocation k h : traces (insert_revocation k h).
Proof.
  intros st st' r. unfold insert_revocation. destruct (as_contains (x_revoked st) k) eqn:E.
  { intros [= <- <-]. reflexivity. }
  destruct (revoked_insert _ _ _) as [[s' q]|] eqn:Ei; [|done].
  apply insert_pushed in Ei as [-> ->]; [|done]. cbn. intros [= <- <-]. by apply rtc_once, js_revoked.
Qed.

Lemma traces_revoke t a k s : traces (apply_revoke_capability ex t a k s).
Proof.
  unfold apply_revoke_capability. apply always_bind; [apply _|apply traces_cross|intros _]. trace;
    [|apply traces_insert_revocation].
  intros c c' es r. cbn zeta beta. destruct (lookup_cap (c_capabilities c) s) as [old|] eqn:E;
    intros [= <- <- _]; [by apply write_revoke|by apply revoke_missing].
Qed.

Lemma traces_attenuate a k s p e x : traces (apply_attenuate_capability a k s p e x).
Proof.
  unfold apply_attenuate_capability. trace. intros c c' es r.
  destruct (lookup_cap (c_capabilities c) s) as [prior|] eqn:E; [|intros [= <- <- _]; apply write_same].
  destruct (attenuate_in_place _ _ _ _ _) as [k' [h|]] eqn:Ea; intros [= <- <- _].
  - by eapply write_attenuate.
  - by eapply attenuate_refused.
Qed.

Lemma traces_create_cell pk tok b : traces (apply_create_cell pk tok b).
Proof.
  unfold apply_create_cell. cbv zeta. trace.
  match goal with H : _ = Some _ |- _ => exact (traces_create _ _ (new_cell_ok _ _ _ H)) end.
Qed.

Lemma traces_spawn t pk tok st : traces (apply_spawn_with_delegation ex t pk tok st).
Proof.
  unfold apply_spawn_with_delegation. trace. cbv zeta. trace.
  match goal with H : _ = Some _ |- _ => apply new_cell_ok in H as [Hk Hf] end.
  apply traces_create. by split.
Qed.

Lemma traces_refresh t k s : traces (apply_refresh_delegation ex t k s).
Proof.
  unfold apply_refresh_delegation. trace. intros c c' es r [= <- <- _]. apply write_delegation.
Qed.

Lemma traces_revoke_delegation t k : traces (apply_revoke_delegation t k).
Proof.
  unfold apply_revoke_delegation. trace.
  - intros c c' es r. pose proof (write_bump t c) as Hw.
    destruct (bump_delegation_epoch (c_state c)) as [s' ok]. intros [= <- <- _]. exact Hw.
  - intros c c' es r [= <- <- _]. apply write_delegation.
Qed.

Lemma traces_make_sovereign t k : traces (apply_make_sovereign t k).
Proof.
  unfold apply_make_sovereign. trace. intros st st' r. unfold make_sovereign.
  pose proof (remove_some (x_ledger st) k) as Hr. pose proof (sov_remove (x_ledger st) k) as Hs.
  destruct (remove (x_ledger st) k) as [L' [cell|]] eqn:E; cbn in *.
  - destruct (state_commitment cell) as [com|]; [|done]. cbn. intros [= <- <-]. apply rtc_once.
    assert (Hc : cells (x_ledger st) !! k = Some cell).
    { unfold remove in E. assert (Hj : cells (journal_cell (x_ledger st) k) = cells (x_ledger st)).
      { unfold journal_cell. by repeat case_match. }
      rewrite Hj in E. destruct (cells (x_ledger st) !! k) as [c0|]; [|done]. by injection E as _ ->. }
    pose proof (js_sovereign st k cell com Hc) as H. rewrite E in H. cbn [fst] in H. by rewrite Hs.
  - intros [= <- <-]. destruct (cells (x_ledger st) !! k) as [c|] eqn:Ec; [by specialize (Hr c eq_refl)|].
    apply rtc_once. pose proof (js_touch st k) as H. unfold remove, get_mut in *.
    assert (Hj : cells (journal_cell (x_ledger st) k) = cells (x_ledger st)).
    { unfold journal_cell. by repeat case_match. }
    rewrite Hj, Ec in *. by injection E as <-.
Qed.


(** The four transitions only write the lifecycle. *)
Definition writes_lifecycle (f : Cell -> result Cell LifecycleTransitionError) : Prop :=
  forall c c', f c = Ok c' -> exists l, c' = with_lifecycle c l.

Lemma seal_writes r h : writes_lifecycle (fun c => seal c r h).
Proof. intros c c'. unfold seal. destruct (c_lifecycle c); intros [= <-]; eauto. Qed.

Lemma unseal_writes : writes_lifecycle unseal.
Proof. intros c c'. unfold unseal. destruct (is_sealed _); intros [= <-]; eauto. Qed.

Lemma destroy_writes d : writes_lifecycle (fun c => destroy c d).
Proof. intros c c'. unfold destroy. destruct (is_terminal _); [done|]. destruct (negb _); intros [= <-]; eauto. Qed.

Lemma archive_writes a : writes_lifecycle (fun c => archive c a).
Proof.
  intros c c'. unfold archive. destruct (is_terminal _); [done|]. destruct (is_sealed _); [done|].
  destruct (negb _); [done|]. destruct (validate a); [|done].
  destruct (c_lifecycle c); try (intros [= <-]; eauto; fail).
  destruct (_ <=? _); intros [= <-]; eauto.
Qed.

Lemma write_transition f id c c' :
  writes_lifecycle f -> f c = Ok c' -> write_ok id c c' [JSetLifecycle id (c_lifecycle c)].
Proof. intros Hf [l ->]%Hf. apply write_lifecycle. Qed.

Lemma traces_transition id f e : writes_lifecycle f -> traces (transition id f e).
Proof.
  intros Hf. unfold transition. trace. intros c c' es r. destruct (f c) as [c1|] eqn:E; intros [= <- <- _].
  - by eapply write_transition.
  - apply write_same.
Qed.

Lemma traces_archive t h a : traces (apply_receipt_archive ex t h a).
Proof.
  unfold apply_receipt_archive. trace. live_block.
  destruct (archive c a) as [c1|] eqn:E; intros [= <- <- _]; [|apply write_same].
  exact (write_transition _ _ _ _ (archive_writes a) E).
Qed.

Lemma traces_emit k topic data : traces (apply_emit_event k topic data).
Proof.
  unfold apply_emit_event. trace. intros st st' r [= <- <-]. apply rtc_once, js_event.
Qed.

Lemma traces_refusal t a k o q : traces (apply_refusal ex t a k o q).
Proof.
  unfold apply_refusal. apply always_bind; [apply _|apply traces_cross|intros _]. trace. live_block.
  pose proof (write_increment k c) as Hw. destruct (increment_nonce (c_state c)) as [s1 ok]. cbn [fst] in Hw.
  destruct ok; [|intros [= <- <- _]; exact Hw]. cbn [negb].
  destruct (set_field_ext _ s1 _ _) as [[s2 b]|] eqn:E; [|done]. intros [= <- <- _].
  eapply (write_app k c (with_state c s1) _ [_] [_]); [exact Hw|].
  apply (write_field_ext k (with_state c s1) (as_usize USIZE_BITS REFUSAL_AUDIT_EXT_KEY) _ s2 b) in E;
    [exact E|]. vm_compute. discriminate.
Qed.

Lemma traces_note_spend n r pf v a vc : traces (apply_note_spend ex n r pf v a vc).
Proof.
  unfold apply_note_spend. trace. intros st st' q.
  destruct (as_contains (x_nullifiers st) n) eqn:E; [intros [= <- <-]; reflexivity|].
  destruct (nullifier_insert _ _ _) as [[s' w]|] eqn:Ei; [|done].
  apply insert_pushed in Ei as [-> ->]; [|done]. cbn. intros [= <- <-]. by apply rtc_once, js_nullifier.
Qed.

Lemma traces_note_create k v vc rp : traces (apply_note_create k v vc rp).
Proof.
  unfold apply_note_create. trace. intros st st' q.
  destruct (as_contains (x_commitments st) k) eqn:E; [intros [= <- <-]; reflexivity|].
  destruct (commitment_insert _ _ _) as [[s' w]|] eqn:Ei; [|done].
  apply insert_pushed in Ei as [-> ->]; [|done]. cbn. intros [= <- <-]. by apply rtc_once, js_commitment.
Qed.

(** ** Effects, and the calls of a forest *)

(** Induction over the nesting of [ExerciseViaCapability]. *)
Lemma effect_ind' (Q : Effect -> Prop) :
  (forall slot inner, Forall Q inner -> Q (EffExerciseViaCapability slot inner)) ->
  (forall e, match e with EffExerciseViaCapability _ _ => True | _ => Q e end) -> forall e, Q e.
Proof.
  intros Hx Ho. fix IH 1. intros e.
  destruct e as [| | | | | | | | | | | |slot inner| | | | | | | | | | | | | | | ]; try match goal with |- Q ?e => exact (Ho e) end.
  apply Hx. induction inner as [|x inner IHl]; constructor; [apply IH|exact IHl].
Qed.

Hint Resolve traces_set_field traces_transfer traces_grant traces_revoke traces_emit
  traces_increment_nonce traces_create_cell traces_set_permissions traces_set_vk traces_set_program
  traces_note_spend traces_note_create traces_introduce traces_spawn traces_refresh
  traces_revoke_delegation traces_make_sovereign traces_refusal traces_burn traces_mint
  traces_attenuate traces_archive : dregg.

Lemma traces_effect turn e : forall target actor, traces (apply_effect ex turn e target actor).
Proof.
  revert e. apply (effect_ind' (fun e => forall target actor, traces (apply_effect ex turn e target actor))).
  - intros slot inner IH target actor. cbn. trace. apply always_for_each; [apply _|].
    eapply Forall_impl; [exact IH|]. auto.
  - intros e. destruct e; try done; intros target' actor; cbn; auto with dregg; try (trace; fail).
    all: unfold apply_cell_seal, apply_cell_unseal, apply_cell_destroy; trace; apply traces_transition;
      auto using seal_writes, unseal_writes, destroy_writes.
Qed.

Lemma traces_snapshot_refresh p t : traces (snapshot_refresh ex p t).
Proof.
  unfold snapshot_refresh. trace. intros c c' es r. destruct (c_delegation c) as [d|] eqn:E;
    intros [= <- <- _]; [apply write_same|]. rewrite <-E. apply write_delegation.
Qed.

Lemma traces_proved cell v : traces (update_proved_state cell v).
Proof.
  unfold update_proved_state. trace. intros c c' es r.
  destruct (Bool.eqb _ _); intros [= <- <- _]; [apply write_same|apply write_proved].
Qed.

Lemma traces_balance_change x t d : traces (action_balance_change x t d).
Proof. unfold action_balance_change. trace. intros c c' es r [= <- <- _]. apply write_balance. Qed.

Lemma traces_bump t : traces (bump_target_nonce t).
Proof. unfold bump_target_nonce. trace. intros c c' es r [= <- <- _]. apply write_increment. Qed.

End Traces.

(** ** A relation every write respects, lifted to forests *)

Section Lift.
Context `{HB : Blake3} `{HC : ProgramCodec} `{HO : TurnOracles} `{HP : !ProgramSize} `{HK : !TurnChecks}.
Context (ex : TurnExecutor) (costs : ComputronCosts) (P : relation ExecState) `{!PreOrder P}.

Hypothesis P_snapshot : forall p t, always P (snapshot_refresh ex p t).
Hypothesis P_proved : forall c v, always P (update_proved_state c v).
Hypothesis P_balance : forall x t d, always P (action_balance_change x t d).
Hypothesis P_bump : forall t, always P (bump_target_nonce t).

Definition effect_respects (e : Effect) : Prop :=
  forall turn target actor, always P (apply_effect ex turn e target actor).

Ltac lift :=
  repeat match goal with
    | |- always _ (ret _) => apply always_ret; apply _
    | |- always _ (throw _) => apply always_throw; apply _
    | |- always _ (reads _) => apply always_reads; apply _
    | |- always _ (total _) => apply always_total; apply _
    | |- always _ (bind _ _) => apply always_bind; [apply _| |intros ?]
    | |- always _ (if ?b then _ else _) => destruct b
    | |- always _ (let '(_, _) := ?x in _) => destruct x
    | |- always _ (match ?x with _ => _ end) => destruct x
    end.

Lemma lift_for_each {A} (f : A -> M unit) l : (forall x, always P (f x)) -> always P (for_each f l).
Proof. intros H. apply always_for_each; [apply _|]. by apply Forall_forall. Qed.

Lemma lift_meter b u c : always P (meter b u c).
Proof. unfold meter. lift. Qed.

Lemma lift_metered budget turn target actor es :
  Forall effect_respects es -> forall used, always P (apply_metered ex costs budget turn target actor es used).
Proof.
  induction 1 as [|e es He _ IH]; intros used; cbn [apply_metered]; lift; auto using lift_meter.
Qed.

Lemma lift_action a parent mode budget path n agent turn counters :
  Forall effect_respects (a_effects a) ->
  always P (execute_action ex costs a parent mode budget path n agent turn counters).
Proof.
  intros He. unfold execute_action, check_target, check_reach. destruct counters as [used excess].
  lift; auto using lift_meter.
  1, 2: apply lift_metered; rewrite Forall_forall in *; intros e Hin; apply He;
    apply list_elem_of_In in Hin; apply filter_In in Hin as [Hin _]; by apply list_elem_of_In.
  - unfold mark_proved. apply lift_for_each. intros c. lift; auto.
  - unfold check_programs. apply lift_for_each. intros c. lift.
Qed.

Lemma lift_tree budget n agent turn t : Forall effect_respects (all_effects t) ->
  forall parent mode path counters,
  always P (execute_tree ex costs budget n agent turn t parent mode path counters).
Proof.
  induction t as [a cs h IH] using tree_ind'. cbn [all_effects].
  rewrite Forall_app. intros [Ha Hcs] parent mode path counters. cbn [execute_tree].
  apply always_bind; [apply _|by apply lift_action|]. clear Ha counters. intros counters.
  generalize 0%nat. revert counters. induction IH as [|c cs Hc _ IHcs]; intros counters i; [lift|].
  cbn in Hcs. apply Forall_app in Hcs as [Hc1 Hcs]. unfold check_child. lift; auto.
Qed.

Lemma lift_roots budget n agent turn ts : Forall effect_respects (concat (map all_effects ts)) ->
  forall i counters, always P (execute_roots ex costs budget n agent turn i ts counters).
Proof.
  induction ts as [|t ts IH]; cbn; intros H i counters; [lift|]. apply Forall_app in H as [Ht Hts].
  apply always_bind; [apply _|by apply lift_tree|]. intros ?. by apply IH.
Qed.

End Lift.

Section Roots.
Context `{HB : Blake3} `{HC : ProgramCodec} `{HO : TurnOracles} `{HP : !ProgramSize} `{HK : !TurnChecks}.

Lemma traces_roots ex costs budget n agent turn i ts counters :
  always (rtc jstep) (execute_roots ex costs budget n agent turn i ts counters).
Proof.
  apply lift_roots; auto using traces_snapshot_refresh, traces_proved, traces_balance_change, traces_bump; [apply _|].
  apply Forall_forall. intros e _ tn tg ac. apply traces_effect.
Qed.

End Roots.

(** ** The write set *)

Section WriteSet.
Context `{HB : Blake3} `{HC : ProgramCodec} `{HO : TurnOracles} `{HP : !ProgramSize} `{HK : !TurnChecks}.

Lemma elem_of_touched es out id :
  id ∈ foldl touch_cell out es <-> id ∈ out \/ exists e, e ∈ es /\ entry_cell e = Some id.
Proof.
  revert out. induction es as [|e es IH]; intros out; cbn; [naive_solver set_solver|].
  rewrite IH. unfold touch_cell. destruct (entry_cell e) as [cid|] eqn:E.
  - case_bool_decide; set_solver.
  - set_solver.
Qed.

Lemma touched_nodup es out : NoDup out -> NoDup (foldl touch_cell out es).
Proof.
  revert out. induction es as [|e es IH]; intros out Hnd; cbn; [done|]. apply IH.
  unfold touch_cell. destruct (entry_cell e) as [cid|]; [|done]. case_bool_decide; [done|].
  apply NoDup_app. split_and!; [done| |apply NoDup_singleton].
  by intros x Hx ->%list_elem_of_singleton.
Qed.

(** One step changes only the cells its entries name. *)
Definition names_changes (st st' : ExecState) : Prop :=
  exists es, x_journal st' = x_journal st ++ es /\
    forall id, (forall e, e ∈ es -> entry_cell e <> Some id) ->
      content <$> cells (x_ledger st') !! id = content <$> cells (x_ledger st) !! id.

Lemma jstep_names st st' : jstep st st' -> st_ok st -> names_changes st st'.
Proof.
  intros Hstep Hok.
  destruct Hstep as [st cid c c' es Hl Hw|st cid|st cell Hl Hcell|st cid cell com Hl|st k v Hf|st k v Hf|st k v Hf|].
  - exists es. split; [done|]. intros id Hid. cbn. rewrite cells_get_mut, Hl.
    destruct (decide (id = cid)) as [->|Hne]; [|by rewrite lookup_insert_ne].
    rewrite lookup_insert_eq, Hl. cbn. f_equal. transitivity (content (invalidate_leaf_cache c)); [|done].
    apply (wo_silent _ _ _ _ Hw). destruct es as [|e es]; [done|]. exfalso.
    pose proof (wo_names _ _ _ _ Hw) as Hn. inversion Hn as [|? ? [_ He]]; subst.
    by apply (Hid e); [left|].
  - exists []. rewrite app_nil_r. split; [done|]. intros id _. cbn. rewrite cells_get_mut.
    destruct (cells (x_ledger st) !! cid) as [c|] eqn:E; [|done].
    destruct (decide (id = cid)) as [->|Hne]; [|by rewrite lookup_insert_ne].
    by rewrite lookup_insert_eq, E.
  - exists [JCreateCell (c_id cell)]. split; [done|]. intros id Hid.
    etransitivity; [apply (f_equal (fun m => content <$> m !! id)), cells_add_cell|].
    rewrite lookup_insert_ne; [done|]. intros <-. by apply (Hid (JCreateCell (c_id cell))); [left|].
  - exists [JMakeSovereign cell]. split; [done|]. intros id Hid.
    pose proof (so_keyed st Hok cid cell Hl) as Hk. cbn in Hk.
    etransitivity; [apply (f_equal (fun m => content <$> m !! id)), cells_remove|].
    rewrite lookup_delete_ne; [done|]. intros <-. apply (Hid (JMakeSovereign cell)); [left|].
    cbn. by rewrite Hk.
  - by eexists.
  - by eexists.
  - by eexists.
  - by eexists.
Qed.

Lemma run_names st st' : rtc jstep st st' -> st_ok st -> names_changes st st'.
Proof.
  induction 1 as [st|st stm st' Hstep _ IH]; intros Hok; [exists []; by rewrite app_nil_r|].
  destruct (jstep_names _ _ Hstep Hok) as (e1 & J1 & H1).
  destruct (IH (jstep_ok _ _ Hstep Hok)) as (e2 & J2 & H2).
  exists (e1 ++ e2). split; [by rewrite J2, J1, app_assoc|]. intros id Hid.
  rewrite H2, H1; [done|..]; intros e He; apply Hid, elem_of_app; auto.
Qed.

Lemma run_steps_ok st st' : rtc jstep st st' -> st_ok st -> st_ok st'.
Proof. induction 1; eauto using jstep_ok. Qed.

(** Replaying the journal of a run gives back the state it started from. *)
Lemma run_restores st0 st1 :
  rtc jstep st0 st1 -> st_ok st0 -> x_journal st0 = [] ->
  (forall c, JMakeSovereign c ∈ x_journal st1 -> sovereign_commitments (x_ledger st0) !! c_id c = None) ->
  exists st2, rollback st1 = Some st2 /\
    ((forall id, option_Forall2 cell_restored (cells (x_ledger st0) !! id) (cells (x_ledger st2) !! id)) /\
     sovereign_commitments (x_ledger st2) = sovereign_commitments (x_ledger st0) /\
     x_bridged st2 = x_bridged st0 /\ x_nullifiers st2 = x_nullifiers st0 /\
     x_commitments st2 = x_commitments st0 /\ x_revoked st2 = x_revoked st0).
Proof.
  intros Hrun Hok Hj Hsov.
  destruct (run_undo st0 st1 Hrun Hok) as [es [J S U]].
  rewrite Hj in J. cbn in J.
  set (st1' := mkExec (x_ledger st1) (x_bridged st1) (x_nullifiers st1) (x_commitments st1) (x_revoked st1) []).
  destruct (U st1') as (st2 & E & [Rc Rs Rb Rn Rm Rv]).
  { split; try done. intros id. destruct (cells (x_ledger st1) !! id) eqn:Ec; cbn; rewrite Ec;
      constructor. apply cell_restored_refl. }
  { intros id (c & Hc & <-) _. apply Hsov. by rewrite J. }
  exists st2. unfold rollback. fold st1'. rewrite J. split_and!; try done.
  apply map_eq. intros id. apply Rs. rewrite Hj. intros c Hc. by apply elem_of_nil in Hc.
Qed.

Lemma run_unnamed st0 st1 id :
  rtc jstep st0 st1 -> st_ok st0 -> id ∉ touched_cells (x_journal st1) ->
  content <$> cells (x_ledger st1) !! id = content <$> cells (x_ledger st0) !! id.
Proof.
  intros Hrun Hok Hid. destruct (run_names st0 st1 Hrun Hok) as (es & J & H).
  apply H. intros e He Hc. apply Hid. unfold touched_cells. rewrite elem_of_touched. right.
  exists e. split; [|done]. rewrite J. apply elem_of_app. by right.
Qed.

(** ** Properties *)

(** C7: rolling back a turn restores it.  Run any call forest (effects of every
    modelled kind, nested exercises included, snapshot refreshes, proved-state
    updates, balance changes and nonce bumps, children after parents), let it
    reach the end or stop at an error half way, and replay the journal it left
    backwards: the rollback completes, exactly the cells of before are hosted,
    and each is the cell it was (state, fields, field map and its root, balance,
    nonce, permissions, key, program, lifecycle, delegation), with the same
    capability references; the sovereign commitments and the nullifier,
    commitment and revocation sets are the very ones of before.  What may differ
    is what [cell_restored] allows: the order of the references, tombstones for
    slots granted and taken back, and field commitments the writes cleared.  No
    cell is made sovereign over a commitment that existed before, which the
    rollback would delete. *)
Theorem rollback_undoes_turn (ex : TurnExecutor) (costs : ComputronCosts) (budget turn_nonce : Z)
    (agent : CellId) (turn : bytes) (ts : list CallTree) (st0 st1 : ExecState) (r : result (Z * Z) TurnError) :
  st_ok st0 -> x_journal st0 = [] ->
  execute_roots ex costs budget turn_nonce agent turn 0 ts (0, 0) st0 = Some (st1, r) ->
  (forall c, JMakeSovereign c ∈ x_journal st1 -> sovereign_commitments (x_ledger st0) !! c_id c = None) ->
  exists st2, rollback st1 = Some st2 /\
    (forall id, option_Forall2 cell_restored (cells (x_ledger st0) !! id) (cells (x_ledger st2) !! id)) /\
    sovereign_commitments (x_ledger st2) = sovereign_commitments (x_ledger st0) /\
    x_bridged st2 = x_bridged st0 /\ x_nullifiers st2 = x_nullifiers st0 /\
    x_commitments st2 = x_commitments st0 /\ x_revoked st2 = x_revoked st0.
Proof.
  intros Hok Hj Hrun Hsov. destruct (run_restores st0 st1) as (st2 & E & Hr); try done.
  { by eapply traces_roots. }
  exists st2. split; [done|]. apply Hr.
Qed.

(** The journal is a complete write set.  After any call forest, run to the
    end or stopped, [touched_cells] lists without repetition every cell whose
    content changed: a cell it does not list is hosted as before and equal to
    what it was, the leaf and root caches apart. *)
Theorem journal_names_changes (ex : TurnExecutor) (costs : ComputronCosts) (budget turn_nonce : Z)
    (agent : CellId) (turn : bytes) (ts : list CallTree) (st0 st1 : ExecState) (r : result (Z * Z) TurnError)
    (id : CellId) :
  st_ok st0 -> execute_roots ex costs budget turn_nonce agent turn 0 ts (0, 0) st0 = Some (st1, r) ->
  NoDup (touched_cells (x_journal st1)) /\
  (id ∉ touched_cells (x_journal st1) ->
   content <$> cells (x_ledger st1) !! id = content <$> cells (x_ledger st0) !! id).
Proof.
  intros Hok Hrun. split; [by apply touched_nodup, NoDup_nil_2|]. intros Hid.
  apply (run_unnamed st0); [by eapply traces_roots|done..].
Qed.

End WriteSet.

(** ** Witnesses *)

#[local] Existing Instance model_blake3.
#[local] Existing Instance model_codec.

Definition model_oracles : TurnOracles := {|
  valid_ristretto _ := true;
  verify_range _ _ := true;
  postcard_clist l := concat (map cap_target l);
|}.

#[local] Existing Instance model_oracles.

(** A hosted cell whose empty field map has the root [root]. *)
Definition turn_cell (root : digest8) (id : CellId) (b : Z) (clist : CapabilitySet) : Cell :=
  mkCell id (fill32 1) (with_fields_map (state_new_at b HEAP_ZERO8 HEAP_ZERO8) [] root)
    default_user None None None (fill32 2) clist ProgNone Hosted Live None.

Definition turn_state (root : digest8) : ExecState :=
  mkExec (with_cells ledger_new {[ fill32 10 := turn_cell root (fill32 10) 100 cset_new;
                                   fill32 11 := turn_cell root (fill32 11) 5 cset_new ]})
    [] as_new as_new as_new [].

Definition turn_executor : TurnExecutor := mkExecutor 7 0 1000 None None ∅ ∅.

#[local] Instance model_size : ProgramSize := fun _ => 0.

(** Every check of an action passes. *)
Definition model_checks : TurnChecks := {|
  check_preconditions _ _ _ := Ok tt;
  verify_authorization _ _ _ _ _ _ := Ok tt;
  evaluate_program _ _ _ _ _ _ := Ok tt;
|}.

#[local] Existing Instance model_checks.

(** A write, a grant of oneself and a note; a child pays, then overdraws. *)
Definition turn_trees : list CallTree :=
  let act effects := mkAction (fill32 10) AuthUnchecked effects DelegNone None [] [] in
  [ mkTree (act [ EffSetField (fill32 10) 3 (fill32 9);
                  EffGrantCapability (fill32 10) (fill32 11)
                    (mkCap (fill32 10) 0 AR_None None None None None (fill32 0));
                  EffNoteCreate (fill32 8) 4 0 [] None None ])
      [ tree_new (act [ EffTransfer (fill32 10) (fill32 11) 30 ]);
        tree_new (act [ EffTransfer (fill32 10) (fill32 11) 1000 ]) ] zero32 ].

Lemma turn_state_ok root : compute_canonical_fields_root_8 [] = Some root -> st_ok (turn_state root).
Proof.
  intros Hr. assert (Hc : forall id b, cell_ok (turn_cell root id b cset_new)).
  { intros id b. split; [apply cset_new_ok|]. split; [constructor|exact Hr]. }
  split; try reflexivity.
  - apply map_Forall_insert_2; [reflexivity|]. apply map_Forall_singleton. reflexivity.
  - apply map_Forall_insert_2; [apply Hc|]. apply map_Forall_singleton. apply Hc.
Qed.

Definition run_trees (ts : list CallTree) : M (Z * Z) :=
  execute_roots turn_executor zero_costs 0 0 (fill32 10) (fill32 5) 0 ts (0, 0).

Lemma turn_stops root : exists st1 e, run_trees turn_trees (turn_state root) = Some (st1, Err e) /\
  e = TE_InsufficientBalance (fill32 10) 1000 70 /\
  touched_cells (x_journal st1) = [fill32 10; fill32 11] /\ length (x_journal st1) = 6%nat /\
  forallb (fun e => match e with JMakeSovereign _ => false | _ => true end) (x_journal st1) = true.
Proof. vm_compute. do 2 eexists. split_and!; reflexivity. Qed.

Lemma rollback_undoes_turn_witness :
  exists st0 st1 e st2, run_trees turn_trees st0 = Some (st1, Err e) /\
    length (x_journal st1) = 6%nat /\ rollback st1 = Some st2 /\
    (forall id, option_Forall2 cell_restored (cells (x_ledger st0) !! id) (cells (x_ledger st2) !! id)) /\
    x_commitments st2 = as_new.
Proof.
  destruct (fields_root_total []) as [root Hr]; [simpl length; lia|].
  destruct (turn_stops root) as (st1 & e & Hrun & _ & _ & Hlen & Hsov).
  destruct (rollback_undoes_turn turn_executor zero_costs 0 0 (fill32 10) (fill32 5) turn_trees
              (turn_state root) st1 (Err e) (turn_state_ok root Hr) eq_refl Hrun)
    as (st2 & Hrb & Hcells & _ & _ & _ & Hcom & _).
  { intros c Hc. rewrite forallb_forall in Hsov. apply list_elem_of_In, Hsov in Hc. discriminate Hc. }
  exists (turn_state root), st1, e, st2. split_and!; [exact Hrun|exact Hlen|exact Hrb|exact Hcells|exact Hcom].
Defined.

Lemma journal_names_changes_witness :
  exists st0 st1 r, run_trees turn_trees st0 = Some (st1, r) /\
    touched_cells (x_journal st1) = [fill32 10; fill32 11] /\
    NoDup (touched_cells (x_journal st1)) /\
    content <$> cells (x_ledger st1) !! fill32 12 = content <$> cells (x_ledger st0) !! fill32 12.
Proof.
  destruct (fields_root_total []) as [root Hr]; [simpl length; lia|].
  destruct (turn_stops root) as (st1 & e & Hrun & _ & Ht & _).
  destruct (journal_names_changes turn_executor zero_costs 0 0 (fill32 10) (fill32 5) turn_trees
              (turn_state root) st1 (Err e) (fill32 12) (turn_state_ok root Hr) Hrun) as [Hnd Hsame].
  exists (turn_state root), st1, (Err e). split_and!; [exact Hrun|exact Ht|exact Hnd|].
  apply Hsame. rewrite Ht, !not_elem_of_cons. split_and!; [discriminate|discriminate|apply not_elem_of_nil].
Defined.
