(* ===== verification/TurnSafety.v ===== *)
(** * What a turn can move and whom it can empower

    Over the forests [turn/src/executor/execute_tree.rs] walks: a run that
    succeeds conserves value against the turn's excess; and no run, however it
    ends, makes authority out of nothing, [Introduce] apart, which the last
    theorem shows to consult neither the actor nor the facets of the capability
    it passes on. *)

From stdpp Require Import base decidable option list gmap sorting strings relations.
From Stdlib Require Import ZArith Lia.
From S2P Require Import Prelude BabyBear Poseidon2 CapRoot Heap State Permissions Facet.
From S2P Require Import Derivation Capability Lifecycle Cell Migration Merkle Ledger Notes.
From S2P Require Import LedgerTree LedgerDelta LedgerRestore Channels Journal Executor Forest Metering.
From S2P Require Import ExecuteTree TurnRollback TurnTrace.

Open Scope Z_scope.

#[local] Opaque compute_canonical_fields_root_8.

(** ** Value *)

Section Value.
Context `{HB : Blake3} `{HC : ProgramCodec} `{HO : TurnOracles}.

(** The balances that left the ledger inside cells made sovereign. *)
Definition sov_value (es : list JournalEntry) : Z :=
  foldr (fun e acc => match e with JMakeSovereign c => cell_balance c | _ => 0 end + acc) 0 es.

Definition wealth (st : ExecState) : Z := supply (cells (x_ledger st)) + sov_value (x_journal st).

Lemma sov_value_app es1 es2 : sov_value (es1 ++ es2) = sov_value es1 + sov_value es2.
Proof. induction es1 as [|e es1 IH]; cbn; [done|]. fold (sov_value (es1 ++ es2)) (sov_value es1). lia. Qed.

Lemma supply_delete m id c : m !! id = Some c -> supply (delete id m) = supply m - cell_balance c.
Proof.
  intros Hc. rewrite <-(insert_delete_id m id c Hc) at 2.
  rewrite supply_fresh by apply lookup_delete_eq. lia.
Qed.

(** A successful run changes the wealth by [d]. *)
Definition shifts {A} (d : Z) (m : M A) : Prop :=
  forall st st' a, m st = Some (st', Ok a) -> wealth st' = wealth st + d.

Lemma shifts_ret {A} (a : A) : shifts 0 (ret a).
Proof. intros st st' b [= <- _]. lia. Qed.

Lemma shifts_throw {A} d e : shifts d (throw (A := A) e).
Proof. intros st st' b. discriminate. Qed.

Lemma shifts_reads {A} (f : Ledger -> result A TurnError) : shifts 0 (reads f).
Proof. intros st st' a [= <- _]. lia. Qed.

Lemma shifts_guard b e : shifts 0 (guard b e).
Proof. unfold guard. destruct b; [apply shifts_ret|apply shifts_throw]. Qed.

Lemma shifts_bind {A B} d1 d2 d (m : M A) (k : A -> M B) :
  shifts d1 m -> (forall a, shifts d2 (k a)) -> d = d1 + d2 -> shifts d (bind m k).
Proof.
  intros Hm Hk -> st st' b. unfold bind. destruct (m st) as [[st1 [a|e]]|] eqn:E; cbn; [|done|done].
  intros H. apply Hm in E. apply Hk in H. lia.
Qed.

Lemma shifts_total_bind {A B} d (o : option A) (k : A -> M B) :
  (forall a, o = Some a -> shifts d (k a)) -> shifts d (bind (total o) k).
Proof. intros Hk st st' r. unfold bind, total. destruct o as [a|]; [|done]. cbn. by apply Hk. Qed.

Lemma shifts_on_cell {A} d id e (body : Cell -> option (Cell * list JournalEntry * result A TurnError)) :
  (forall c c' es a, body c = Some (c', es, Ok a) ->
     cell_balance c' = cell_balance c + d /\ sov_value es = 0) ->
  shifts d (on_cell id e body).
Proof.
  intros Hb st st' a. unfold on_cell. destruct (cells (x_ledger st) !! id) as [c|] eqn:E; [|done].
  destruct (body (invalidate_leaf_cache c)) as [[[c' es] r]|] eqn:Eb; [|done].
  intros [= <- ->]. apply Hb in Eb as [Hbal Hsov]. unfold wealth. cbn.
  rewrite cells_get_mut, E, (supply_insert _ _ c), sov_value_app by done.
  change (cell_balance (invalidate_leaf_cache c)) with (cell_balance c) in Hbal. lia.
Qed.

Lemma shifts_create cell e : cell_balance cell = 0 -> shifts 0 (create cell e).
Proof.
  intros Hz st st' a. unfold create, insert_cell.
  destruct (cells (x_ledger st) !! c_id cell) eqn:E; [done|]. intros [= <- _]. unfold wealth.
  cbn [x_ledger x_journal record with_ledger]. rewrite cells_add_cell, supply_fresh, sov_value_app by done.
  change (cell_balance (invalidate_leaf_cache cell)) with (cell_balance cell). cbn. lia.
Qed.

Lemma shifts_for_each {A} (f : A -> M unit) (l : list A) :
  Forall (fun x => shifts 0 (f x)) l -> shifts 0 (for_each f l).
Proof. induction 1 as [|x l Hx _ IH]; [apply shifts_ret|]. by eapply shifts_bind. Qed.

Lemma shifts_if_hosted id (body : Cell -> option (Cell * list JournalEntry * result unit TurnError)) :
  (forall c c' es a, body c = Some (c', es, Ok a) ->
     cell_balance c' = cell_balance c /\ sov_value es = 0) ->
  shifts 0 (if_hosted id body).
Proof.
  intros Hb st st' a. unfold if_hosted. destruct (cells (x_ledger st) !! id) as [c|] eqn:E.
  - apply shifts_on_cell. intros c0 c' es a' H. apply Hb in H as [-> ->]. split; lia.
  - intros [= <- _]. unfold wealth. cbn [x_ledger x_journal with_ledger]. rewrite cells_get_mut, E. lia.
Qed.

(** Splits a computation that moves no value along its combinators. *)
Ltac shift :=
  repeat match goal with
    | |- shifts _ (ret _) => apply shifts_ret
    | |- shifts _ (throw _) => apply shifts_throw
    | |- shifts _ (reads _) => apply shifts_reads
    | |- shifts _ (guard _ _) => apply shifts_guard
    | |- shifts _ (bind (total _) _) => apply shifts_total_bind; intros ? ?
    | |- shifts _ (bind _ _) => eapply (shifts_bind 0 0); [|intros ?|reflexivity]
    | |- shifts _ (on_cell _ _ _) => apply shifts_on_cell; intros c c' es []; rewrite ?Z.add_0_r
    | |- shifts _ (if_hosted _ _) => apply shifts_if_hosted; intros c c' es []
    | |- shifts _ (if ?b then _ else _) => destruct b
    | |- shifts _ (match ?x with _ => _ end) => destruct x
    end.

(** A block that leaves the balance alone. *)
Ltac keeps :=
  cbn zeta beta; repeat case_match; intros; simplify_eq;
  rewrite ?Z.add_0_r; (split; [reflexivity|]); cbn; try reflexivity; repeat case_match; reflexivity.

Context (ex : TurnExecutor).

Lemma shifts_cross t a c act n b : shifts 0 (cross_cell ex t a c act n b).
Proof. unfold cross_cell. shift. Qed.

Lemma set_field_ext_balance w s k v s' b :
  set_field_ext w s k v = Some (s', b) -> balance s' = balance s.
Proof.
  unfold set_field_ext, set_field. destruct (_ <? _).
  - repeat case_match; by intros [= <- _].
  - destruct (compute_canonical_fields_root_8 _); [|done]. by intros [= <- _].
Qed.

Lemma increment_nonce_balance s : balance (increment_nonce s).1 = balance s.
Proof. unfold increment_nonce. by destruct (checked_add_u64 _ _). Qed.

Lemma bump_epoch_balance s : balance (bump_delegation_epoch s).1 = balance s.
Proof. unfold bump_delegation_epoch. by destruct (checked_add_u64 _ _). Qed.

Lemma shifts_set_field t a k i v : shifts 0 (apply_set_field ex t a k i v).
Proof.
  unfold apply_set_field. shift; try apply shifts_cross. cbn zeta. destruct (negb _); [discriminate|].
  destruct (_ <? _); [by intros [= <- <-]|].
  destruct (set_field_ext _ _ _ _) as [[s' b]|] eqn:E; [|discriminate]. intros [= <- <-].
  by apply set_field_ext_balance in E.
Qed.

Lemma shifts_increment_nonce t a k : shifts 0 (apply_increment_nonce ex t a k).
Proof.
  unfold apply_increment_nonce. shift; try apply shifts_cross. cbn zeta. destruct (negb _); [discriminate|].
  pose proof (increment_nonce_balance (c_state c)) as H. destruct (increment_nonce (c_state c)) as [s' []];
    intros; simplify_eq. done.
Qed.

Lemma shifts_set_permissions t a k p : shifts 0 (apply_set_permissions ex t a k p).
Proof. unfold apply_set_permissions. shift; try apply shifts_cross. keeps. Qed.

Lemma shifts_set_vk t a k p : shifts 0 (apply_set_verification_key ex t a k p).
Proof. unfold apply_set_verification_key. shift; try apply shifts_cross. keeps. Qed.

Lemma shifts_set_program t a k p : shifts 0 (apply_set_program ex t a k p).
Proof. unfold apply_set_program. shift; try apply shifts_cross. keeps. Qed.

(** *** The verbs that move value *)

Lemma shifts_transfer t a f to n : shifts 0 (apply_transfer ex t a f to n).
Proof.
  unfold apply_transfer. destruct (decide (f = to)) as [->|Hne].
  { rewrite bool_decide_true by done. intros st st' r. discriminate. }
  eapply (shifts_bind 0 0); [apply shifts_guard|intros _|reflexivity].
  eapply (shifts_bind 0 0); [apply shifts_cross|intros _|reflexivity].
  intros st st' r. unfold bind at 1, reads at 1.
  destruct (cell_or _ f _ _) as [[[old_f old_t] ni]|e] eqn:Er; cbn; [|discriminate].
  unfold cell_or, get in Er. destruct (cells (x_ledger st) !! f) as [fc|] eqn:Ef; [|discriminate].
  destruct (negb _); [discriminate|]. destruct (i64_try_from n) as [amt|]; [|discriminate]. cbn in Er.
  destruct (_ <? amt); [discriminate|].
  destruct (cells (x_ledger st) !! to) as [tc|] eqn:Et; [|discriminate].
  destruct (negb _); [discriminate|]. destruct (checked_add_i64 _ _); [|discriminate].
  injection Er as <- <- <-.
  unfold note_entries, bind, on_cell. cbn. rewrite Ef. cbn. rewrite cells_get_mut, Ef.
  rewrite lookup_insert_ne, Et by done. cbn. intros [= <- _]. unfold wealth. cbn [x_ledger x_journal with_ledger record].
  rewrite !cells_get_mut, Ef, lookup_insert_ne, Et by done.
  rewrite (supply_insert _ to tc) by (by rewrite lookup_insert_ne).
  rewrite (supply_insert _ f fc) by done. rewrite !sov_value_app. cbn. unfold cell_balance; cbn. lia.
Qed.

Lemma debit_moves s n s' : debit_balance s n = (s', true) -> balance s' = balance s - n.
Proof.
  unfold debit_balance. destruct (i64_try_from n) as [m|] eqn:E; [|done].
  apply i64_try_from_spec in E as [-> _]. destruct (_ <=? _); [|done]. by intros [= <-].
Qed.

Lemma credit_moves s n s' : credit_balance s n = (s', true) -> balance s' = balance s + n.
Proof.
  unfold credit_balance. destruct (i64_try_from n) as [m|] eqn:E; [|done].
  apply i64_try_from_spec in E as [-> _]. unfold checked_add_i64. destruct (in_i64 _); [|done].
  by intros [= <-].
Qed.

Lemma well_debit_moves s n s' : well_debit_balance s n = (s', true) -> balance s' = balance s - n.
Proof.
  unfold well_debit_balance. destruct (i64_try_from n) as [m|] eqn:E; [|done].
  apply i64_try_from_spec in E as [-> _]. unfold checked_sub_i64. destruct (in_i64 _); [|done].
  by intros [= <-].
Qed.

(** A block that applies one balance verb. *)
Ltac moves lem :=
  let E := fresh "E" in
  apply shifts_on_cell; intros c c' es []; cbn zeta;
  try (destruct (negb (is_live _)); [discriminate|]);
  match goal with
  | |- context [let '(_, _) := ?f (c_state c) ?n in _] =>
      destruct (f (c_state c) n) as [s' []] eqn:E; [|discriminate];
      intros [= <- <-]; apply lem in E; split; [exact E|reflexivity]
  end.

Lemma new_cell_empty pk tok c : cell_with_balance pk tok 0 = Some c -> cell_balance c = 0.
Proof.
  unfold cell_with_balance, state_new. destruct empty_fields_root as [fr|]; [|discriminate].
  destruct empty_heap_root; [|discriminate]. by intros [= <-].
Qed.

Lemma shifts_materialize tok w e : shifts 0 (materialize_well tok w e).
Proof.
  unfold materialize_well. shift. apply shifts_create.
  match goal with H : _ = Some _ |- _ => exact (new_cell_empty _ _ _ H) end.
Qed.

Lemma shifts_burn a t s n : shifts 0 (apply_burn ex a t s n).
Proof.
  unfold apply_burn, resolve_well. do 2 (eapply (shifts_bind 0 0); [shift|intros _|reflexivity]).
  eapply (shifts_bind 0 0); [shift|intros [tok w]|reflexivity].
  eapply (shifts_bind (- n) n); [moves debit_moves| |lia]. intros _.
  eapply (shifts_bind 0 n); [apply shifts_materialize| |lia]. intros _. moves credit_moves.
Qed.

Lemma shifts_mint a t s n : shifts 0 (apply_mint ex a t s n).
Proof.
  unfold apply_mint, resolve_well. eapply (shifts_bind 0 0); [shift|intros _|reflexivity].
  eapply (shifts_bind 0 0); [shift|intros [tok w]|reflexivity].
  do 2 (eapply (shifts_bind 0 0); [shift|intros _|reflexivity]).
  eapply (shifts_bind 0 0); [apply shifts_materialize|intros _|reflexivity].
  do 3 (eapply (shifts_bind 0 0); [shift|intros _|reflexivity]).
  eapply (shifts_bind (- n) n); [moves well_debit_moves| |lia]. intros _. moves credit_moves.
Qed.

(** *** The verbs that move none *)

Lemma shifts_install to e f : shifts 0 (install to e f).
Proof. unfold install. shift. destruct (f (c_capabilities c)) as [k [slot|]]; by intros [= <- <-]. Qed.

Lemma shifts_grant t a f to cap turn : shifts 0 (apply_grant_capability ex t a f to cap turn).
Proof. unfold apply_grant_capability. shift; [apply shifts_cross|apply shifts_install]. Qed.

Lemma shifts_introduce i r t p turn : shifts 0 (apply_introduce ex i r t p turn).
Proof. unfold apply_introduce. cbv zeta. shift. apply shifts_install. Qed.

Lemma shifts_insert_revocation k h : shifts 0 (insert_revocation k h).
Proof.
  intros st st' []. unfold insert_revocation. destruct (as_contains _ _); [intros [= <-]; lia|].
  destruct (revoked_insert _ _ _) as [[s' [?|?]]|]; [|discriminate|discriminate].
  intros [= <-]. unfold wealth. cbn [x_ledger x_journal record with_revoked]. rewrite sov_value_app. cbn. lia.
Qed.

Lemma shifts_revoke t a k s : shifts 0 (apply_revoke_capability ex t a k s).
Proof.
  unfold apply_revoke_capability. shift; try apply shifts_cross; try apply shifts_insert_revocation.
  all: cbn zeta; destruct (lookup_cap _ _) as [old|]; intros; simplify_eq; done.
Qed.

Lemma shifts_attenuate a k s p e x : shifts 0 (apply_attenuate_capability a k s p e x).
Proof.
  unfold apply_attenuate_capability. shift. destruct (lookup_cap _ _) as [prior|]; [|discriminate].
  destruct (attenuate_in_place _ _ _ _ _) as [k' [h|]]; [|discriminate]. by intros [= <- <-].
Qed.

Lemma shifts_create_cell pk tok b : shifts 0 (apply_create_cell pk tok b).
Proof.
  unfold apply_create_cell. cbv zeta. shift. apply shifts_create.
  match goal with H : _ = Some _ |- _ => exact (new_cell_empty _ _ _ H) end.
Qed.

Lemma shifts_spawn t pk tok st : shifts 0 (apply_spawn_with_delegation ex t pk tok st).
Proof.
  unfold apply_spawn_with_delegation. shift. cbv zeta. shift. apply shifts_create.
  match goal with H : _ = Some _ |- _ => exact (new_cell_empty _ _ _ H) end.
Qed.

Lemma shifts_refresh t k s : shifts 0 (apply_refresh_delegation ex t k s).
Proof. unfold apply_refresh_delegation. shift. by intros [= <- <-]. Qed.

Lemma shifts_revoke_delegation t k : shifts 0 (apply_revoke_delegation t k).
Proof.
  unfold apply_revoke_delegation. shift.
  - intros st st' r. discriminate.
  - pose proof (bump_epoch_balance (c_state c)) as H.
    destruct (bump_delegation_epoch (c_state c)) as [s' []]; intros; simplify_eq. done.
  - by intros [= <- <-].
Qed.

(** The balance of a cell made sovereign leaves with it. *)
Lemma shifts_make_sovereign t k : shifts 0 (apply_make_sovereign t k).
Proof.
  unfold apply_make_sovereign. shift. intros st st' []. unfold make_sovereign.
  pose proof (remove_some (x_ledger st) k) as Hr. pose proof (cells_remove (x_ledger st) k) as Hd.
  destruct (remove (x_ledger st) k) as [L' [cell|]] eqn:E; [|discriminate]. cbn [fst snd] in *.
  destruct (state_commitment cell) as [com|]; [|discriminate]. intros [= <-].
  unfold wealth. cbn [x_ledger x_journal record with_ledger cells with_sovereign].
  destruct (cells (x_ledger st) !! k) as [c|] eqn:Ec.
  - pose proof (Hr c eq_refl) as [= <-]. rewrite Hd, (supply_delete _ _ cell), sov_value_app by done. cbn. lia.
  - exfalso. unfold remove in E. assert (Hj : cells (journal_cell (x_ledger st) k) = cells (x_ledger st)).
    { unfold journal_cell. by repeat case_match. }
    by rewrite Hj, Ec in E.
Qed.

Lemma shifts_transition id f e : writes_lifecycle f -> shifts 0 (transition id f e).
Proof.
  intros Hf. unfold transition. shift. destruct (f c) as [c1|] eqn:E; [|discriminate].
  intros [= <- <-]. by apply Hf in E as [l ->].
Qed.

Lemma shifts_archive t h a : shifts 0 (apply_receipt_archive ex t h a).
Proof.
  unfold apply_receipt_archive. shift. destruct (negb _); [discriminate|].
  destruct (archive c a) as [c1|] eqn:E; [|discriminate]. intros [= <- <-].
  by apply archive_writes in E as [l ->].
Qed.

Lemma shifts_emit k topic data : shifts 0 (apply_emit_event k topic data).
Proof.
  unfold apply_emit_event. shift. intros st st' [] [= <-]. unfold wealth.
  cbn [x_ledger x_journal record]. rewrite sov_value_app. cbn. lia.
Qed.

Lemma shifts_refusal t a k o q : shifts 0 (apply_refusal ex t a k o q).
Proof.
  unfold apply_refusal. shift; try apply shifts_cross. cbn zeta. destruct (negb _); [discriminate|].
  pose proof (increment_nonce_balance (c_state c)) as H. destruct (increment_nonce (c_state c)) as [s1 []];
    [|discriminate]. cbn [negb fst] in *.
  destruct (set_field_ext _ s1 _ _) as [[s2 b]|] eqn:E; [|discriminate]. intros [= <- <-].
  apply set_field_ext_balance in E. split; [|done]. unfold cell_balance. cbn [c_state with_state]. congruence.
Qed.

Lemma shifts_note_spend n r pf v a vc : shifts 0 (apply_note_spend ex n r pf v a vc).
Proof.
  unfold apply_note_spend. shift. all: intros st st' []; destruct (as_contains _ _); [discriminate|].
  all: destruct (nullifier_insert _ _ _) as [[s' [?|?]]|]; [|discriminate|discriminate].
  all: intros [= <-]; unfold wealth; cbn [x_ledger x_journal record with_nullifiers].
  all: rewrite sov_value_app; cbn; lia.
Qed.

Lemma shifts_note_create k v vc rp : shifts 0 (apply_note_create k v vc rp).
Proof.
  unfold apply_note_create. shift. intros st st' []. destruct (as_contains _ _); [discriminate|].
  destruct (commitment_insert _ _ _) as [[s' [?|?]]|]; [|discriminate|discriminate].
  intros [= <-]. unfold wealth. cbn [x_ledger x_journal record with_commitments].
  rewrite sov_value_app. cbn. lia.
Qed.

Hint Resolve shifts_set_field shifts_transfer shifts_grant shifts_revoke shifts_emit
  shifts_increment_nonce shifts_create_cell shifts_set_permissions shifts_set_vk shifts_set_program
  shifts_note_spend shifts_note_create shifts_introduce shifts_spawn shifts_refresh
  shifts_revoke_delegation shifts_make_sovereign shifts_refusal shifts_burn shifts_mint
  shifts_attenuate shifts_archive : dregg.

Lemma shifts_effect turn e : forall target actor, shifts 0 (apply_effect ex turn e target actor).
Proof.
  revert e. apply (effect_ind' (fun e => forall target actor, shifts 0 (apply_effect ex turn e target actor))).
  - intros slot inner IH target actor. cbn. shift. apply shifts_for_each.
    eapply Forall_impl; [exact IH|]. auto.
  - intros e. destruct e; try exact I; intros target' actor; cbn; auto with dregg; try (shift; fail).
    all: unfold apply_cell_seal, apply_cell_unseal, apply_cell_destroy; shift; apply shifts_transition;
      auto using seal_writes, unseal_writes, destroy_writes.
Qed.

(** *** Actions and forests *)

Context `{HP : !ProgramSize} `{HK : !TurnChecks} (costs : ComputronCosts).

(** A computation that leaves an excess moves against it what it moves. *)
Definition conserves {A} (exc : A -> Z) (x : Z) (m : M A) : Prop :=
  forall st st' a, m st = Some (st', Ok a) -> wealth st' + exc a = wealth st + x.

Lemma conserves_ret {A} (exc : A -> Z) x a : exc a = x -> conserves exc x (ret a).
Proof. intros <- st st' b [= <- <-]. done. Qed.

Lemma conserves_shift {A B} (exc : B -> Z) x (m : M A) (k : A -> M B) :
  shifts 0 m -> (forall a, conserves exc x (k a)) -> conserves exc x (bind m k).
Proof.
  intros Hm Hk st st' b. unfold bind. destruct (m st) as [[st1 [a|e]]|] eqn:E; cbn; [|discriminate|discriminate].
  intros H. apply Hk in H. apply Hm in E. lia.
Qed.

Lemma conserves_bind {A B} (exc : A -> Z) (exc' : B -> Z) x (m : M A) (k : A -> M B) :
  conserves exc x m -> (forall a, conserves exc' (exc a) (k a)) -> conserves exc' x (bind m k).
Proof.
  intros Hm Hk st st' b. unfold bind. destruct (m st) as [[st1 [a|e]]|] eqn:E; cbn; [|discriminate|discriminate].
  intros H. apply Hk in H. apply Hm in E. lia.
Qed.

Lemma conserves_balance_change x t d : conserves id x (action_balance_change x t d).
Proof.
  intros st st' x'. unfold action_balance_change. unfold bind at 1.
  destruct (reads _ st) as [[st1 [[]|e]]|] eqn:E; cbn [mbind option_bind]; [|discriminate|discriminate].
  injection E as -> _. unfold bind. destruct (on_cell _ _ _ _) as [[st2 [[]|e]]|] eqn:E2;
    cbn [mbind option_bind]; [|discriminate|discriminate].
  unfold reads. intros [= <- H]. unfold checked_sub_i64 in H. destruct (in_i64 _); [|discriminate].
  injection H as <-. unfold id. eapply (shifts_on_cell d) in E2; [lia|]. intros c c' es [] [= <- <-]. done.
Qed.

Lemma shifts_snapshot_refresh p t : shifts 0 (snapshot_refresh ex p t).
Proof. unfold snapshot_refresh. shift. by destruct (c_delegation c); intros [= <- <-]. Qed.

Lemma shifts_proved k v : shifts 0 (update_proved_state k v).
Proof. unfold update_proved_state. shift. by destruct (Bool.eqb _ _); intros [= <- <-]. Qed.

Lemma shifts_bump t : shifts 0 (bump_target_nonce t).
Proof.
  unfold bump_target_nonce. shift. intros [= <- <-]. split; [|done]. apply increment_nonce_balance.
Qed.

Lemma shifts_meter b u c : shifts 0 (meter b u c).
Proof. unfold meter. shift. Qed.

Lemma shifts_each {A} (f : A -> M unit) l : (forall x, shifts 0 (f x)) -> shifts 0 (for_each f l).
Proof. intros H. apply shifts_for_each. by apply Forall_forall. Qed.

Lemma shifts_metered budget turn target actor es :
  forall used, shifts 0 (apply_metered ex costs budget turn target actor es used).
Proof.
  induction es as [|e es IH]; intros used; cbn [apply_metered]; shift;
    [apply shifts_meter|apply shifts_effect|apply IH].
Qed.

Lemma conserves_action a parent mode budget path n agent turn used x :
  conserves snd x (execute_action ex costs a parent mode budget path n agent turn (used, x)).
Proof.
  unfold execute_action, check_target, check_reach.
  do 10 (apply conserves_shift;
    [shift; auto using shifts_meter, shifts_snapshot_refresh, shifts_metered|intros ?]).
  apply conserves_shift; [|intros ?].
  { unfold mark_proved. apply shifts_each. intros c. shift; apply shifts_proved. }
  apply (conserves_bind id).
  { destruct (a_balance_change a); [apply conserves_balance_change|by apply conserves_ret]. }
  intros x'. apply conserves_shift; [|intros ?].
  { unfold check_programs. apply shifts_each. intros c. shift. }
  do 2 (apply conserves_shift; [shift; apply shifts_bump|intros ?]). by apply conserves_ret.
Qed.

Lemma conserves_tree budget n agent turn t : forall parent mode path used x,
  conserves snd x (execute_tree ex costs budget n agent turn t parent mode path (used, x)).
Proof.
  induction t as [a cs h IH] using tree_ind'. intros parent mode path used x. cbn [execute_tree].
  apply (conserves_bind snd); [apply conserves_action|]. intros counters.
  generalize 0%nat. revert counters. induction IH as [|c cs Hc _ IHcs]; intros [u y] i; [by apply conserves_ret|].
  apply conserves_shift; [unfold check_child; shift|intros _].
  apply (conserves_bind snd); [apply Hc|]. intros counters. apply IHcs.
Qed.

Lemma conserves_roots budget n agent turn ts : forall i used x,
  conserves snd x (execute_roots ex costs budget n agent turn i ts (used, x)).
Proof.
  induction ts as [|t ts IH]; intros i used x; cbn [execute_roots]; [by apply conserves_ret|].
  apply (conserves_bind snd); [apply conserves_tree|]. intros [u y]. apply IH.
Qed.

End Value.

(** ** Authority *)

Section Authority.
Context `{HB : Blake3} `{HC : ProgramCodec} `{HO : TurnOracles}.

(** The references a cell can act through: its c-list and the snapshot of its
    delegation. *)
Definition held_refs (c : Cell) : list CapabilityRef :=
  refs (c_capabilities c) ++ match c_delegation c with Some d => d_snapshot d | None => [] end.

(** Some hosted cell may act on [t], with credential [cr], at height [h], with
    the effect [bit]. *)
Definition authority (L : Ledger) (t : CellId) (cr : credential) (h bit : Z) : Prop :=
  exists id c r, cells L !! id = Some c /\ r ∈ held_refs c /\ confers r t cr h bit.

(** The two effects that can make authority over [t]: a grant by [t] of
    itself, and an introduction to [t]. *)
Fixpoint mints_over (t : CellId) (e : Effect) : bool :=
  match e with
  | EffGrantCapability from _ cap => bool_decide (from = t) && bool_decide (cap_target cap = t)
  | EffIntroduce _ _ target _ => bool_decide (target = t)
  | EffExerciseViaCapability _ inner => existsb (mints_over t) inner
  | _ => false
  end.

Context (t : CellId) (cr : credential) (h bit : Z).

Definition passes_on : relation ExecState := fun st st' =>
  authority (x_ledger st') t cr h bit -> authority (x_ledger st) t cr h bit.

#[local] Instance passes_on_pre : PreOrder passes_on.
Proof. split; [intros st H; exact H|]. intros st1 st2 st3 H1 H2 H3. auto. Qed.

Definition shrinks (c' c : Cell) : Prop :=
  forall r, r ∈ held_refs c' -> confers r t cr h bit -> exists r', r' ∈ held_refs c /\ confers r' t cr h bit.

Lemma shrinks_subset c' c : held_refs c' ⊆ held_refs c -> shrinks c' c.
Proof. intros Hs r Hr Hc. eauto. Qed.

Lemma shrinks_same c' c : held_refs c' = held_refs c -> shrinks c' c.
Proof. intros E. apply shrinks_subset. by rewrite E. Qed.

Lemma on_cell_passes {A} id e (body : Cell -> option (Cell * list JournalEntry * result A TurnError)) st st' r :
  on_cell id e body st = Some (st', r) ->
  (forall c c' es r', cells (x_ledger st) !! id = Some c -> body (invalidate_leaf_cache c) = Some (c', es, r') ->
     forall x, x ∈ held_refs c' -> confers x t cr h bit -> authority (x_ledger st) t cr h bit) ->
  passes_on st st'.
Proof.
  unfold on_cell. destruct (cells (x_ledger st) !! id) as [c|] eqn:E.
  - destruct (body (invalidate_leaf_cache c)) as [[[c' es] r']|] eqn:Eb; [|discriminate].
    intros [= <- _] Hx (k & ck & x & Hk & Hr & Hc). cbn [x_ledger record with_ledger] in Hk.
    rewrite cells_get_mut, E in Hk. destruct (decide (k = id)) as [->|Hne].
    + rewrite lookup_insert_eq in Hk. injection Hk as <-. eauto.
    + rewrite lookup_insert_ne in Hk by done. by exists k, ck, x.
  - intros [= <- _] _ (k & ck & x & Hk & H). cbn [x_ledger with_ledger] in Hk.
    rewrite cells_get_mut, E in Hk. by exists k, ck, x.
Qed.

Lemma passes_on_cell {A} id e (body : Cell -> option (Cell * list JournalEntry * result A TurnError)) :
  (forall c c' es r, body c = Some (c', es, r) -> shrinks c' c) -> always passes_on (on_cell id e body).
Proof.
  intros Hb st st' r Hrun. eapply on_cell_passes; [exact Hrun|]. intros c c' es r' Hc Eb x Hx Hconf.
  destruct (Hb _ _ _ _ Eb x Hx Hconf) as (y & Hy & Hyc). exists id, c, y. split_and!; [done|exact Hy|done].
Qed.

Lemma passes_if_hosted id (body : Cell -> option (Cell * list JournalEntry * result unit TurnError)) :
  (forall c c' es r, body c = Some (c', es, r) -> shrinks c' c) -> always passes_on (if_hosted id body).
Proof.
  intros Hb st st' r. unfold if_hosted. destruct (cells (x_ledger st) !! id) as [c|] eqn:E.
  - by apply passes_on_cell.
  - intros [= <- _] (k & ck & x & Hk & H). cbn [x_ledger with_ledger] in Hk.
    rewrite cells_get_mut, E in Hk. by exists k, ck, x.
Qed.

Lemma bind_passes {A B} (m : M A) (k : A -> M B) st st' r :
  bind m k st = Some (st', r) ->
  (forall st1 r1, m st = Some (st1, r1) -> passes_on st st1) -> (forall a, always passes_on (k a)) ->
  passes_on st st'.
Proof.
  unfold bind. destruct (m st) as [[st1 [a|e]]|]; cbn [mbind option_bind]; [| |discriminate].
  - intros Hk Hm Hall. transitivity st1; [by eapply Hm|by eapply Hall].
  - intros [= <- _] Hm _. by eapply Hm.
Qed.

(** The continuation of a read knows what was read of the state it runs in. *)
Lemma reads_passes {A B} (f : Ledger -> result A TurnError) (k : A -> M B) :
  (forall st st' r a, f (x_ledger st) = Ok a -> k a st = Some (st', r) -> passes_on st st') ->
  always passes_on (bind (reads f) k).
Proof.
  intros Hk st st' r. unfold bind, reads. cbn [mbind option_bind].
  destruct (f (x_ledger st)) as [a|e] eqn:E; [by apply Hk|]. intros [= <- _]. reflexivity.
Qed.

Lemma create_passes cell e st st' r :
  create cell e st = Some (st', r) ->
  (forall x, x ∈ held_refs cell -> confers x t cr h bit -> authority (x_ledger st) t cr h bit) ->
  passes_on st st'.
Proof.
  unfold create, insert_cell. destruct (cells (x_ledger st) !! c_id cell) eqn:E.
  { intros [= <- _] _ H. exact H. }
  intros [= <- _] Hx (k & ck & x & Hk & Hr & Hc). cbn [x_ledger record with_ledger] in Hk.
  rewrite cells_add_cell in Hk. destruct (decide (k = c_id cell)) as [->|Hne].
  - rewrite lookup_insert_eq in Hk. injection Hk as <-. by apply (Hx x).
  - rewrite lookup_insert_ne in Hk by done. by exists k, ck, x.
Qed.

(** Splits along the combinators; blocks that write a c-list remain. *)
Ltac pass :=
  repeat match goal with
    | |- always _ (ret _) => apply always_ret; apply _
    | |- always _ (throw _) => apply always_throw; apply _
    | |- always _ (reads _) => apply always_reads; apply _
    | |- always _ (guard _ _) => apply always_guard; apply _
    | |- always _ (bind (total _) _) => apply always_total_bind; intros ? ?
    | |- always _ (total _) => apply always_total; apply _
    | |- always _ (bind _ _) => apply always_bind; [apply _| |intros ?]
    | |- always _ (on_cell _ _ _) => apply passes_on_cell
    | |- always _ (if_hosted _ _) => apply passes_if_hosted
    | |- always _ (if ?b then _ else _) => destruct b
    | |- always _ (match ?x with _ => _ end) => destruct x
    end.

(** A block that writes neither c-list nor delegation. *)
Ltac inert :=
  intros c c' es r; cbn zeta beta;
  repeat match goal with
    | |- context [match ?x with _ => _ end = Some _] => destruct x
    | |- context [let '(_, _) := ?x in _] => destruct x
    end;
  cbn [mbind option_bind]; intros; simplify_eq; apply shrinks_same; reflexivity.

Context (ex : TurnExecutor).

Lemma passes_cross tg a c act n b : always passes_on (cross_cell ex tg a c act n b).
Proof. unfold cross_cell. pass. Qed.

Lemma passes_set_field tg a k i v : always passes_on (apply_set_field ex tg a k i v).
Proof.
  unfold apply_set_field. pass; [apply passes_cross..|]. intros c c' es r. cbn zeta.
  destruct (negb _); [intros [= <- _ _]; by apply shrinks_same|].
  destruct (_ <? _); [intros [= <- _ _]; by apply shrinks_same|].
  destruct (set_field_ext _ _ _ _) as [[s' b]|]; [|discriminate]. intros [= <- _ _]. by apply shrinks_same.
Qed.

Lemma passes_increment_nonce tg a k : always passes_on (apply_increment_nonce ex tg a k).
Proof. unfold apply_increment_nonce. pass; [apply passes_cross..|]. inert. Qed.

Lemma passes_set_permissions tg a k p : always passes_on (apply_set_permissions ex tg a k p).
Proof. unfold apply_set_permissions. pass; [apply passes_cross..|]. inert. Qed.

Lemma passes_set_vk tg a k p : always passes_on (apply_set_verification_key ex tg a k p).
Proof. unfold apply_set_verification_key. pass; [apply passes_cross..|]. inert. Qed.

Lemma passes_set_program tg a k p : always passes_on (apply_set_program ex tg a k p).
Proof. unfold apply_set_program. pass; [apply passes_cross..|]. inert. Qed.

Lemma passes_note es : always passes_on (note_entries es).
Proof. intros st st' r [= <- _] H. exact H. Qed.

Lemma passes_transfer tg a f to n : always passes_on (apply_transfer ex tg a f to n).
Proof.
  unfold apply_transfer. pass; [apply passes_cross|apply passes_note|inert|inert].
Qed.

Lemma new_cell_holds_nothing pk tok c : cell_with_balance pk tok 0 = Some c -> held_refs c = [].
Proof.
  unfold cell_with_balance, state_new. destruct empty_fields_root as [fr|]; [|discriminate].
  destruct empty_heap_root; [|discriminate]. by intros [= <-].
Qed.

Lemma passes_create_new pk tok c e :
  cell_with_balance pk tok 0 = Some c -> always passes_on (create c e).
Proof.
  intros Hn%new_cell_holds_nothing st st' r Hrun. eapply create_passes; [exact Hrun|].
  rewrite Hn. intros x Hx. by apply elem_of_nil in Hx.
Qed.

Lemma passes_materialize tok w e : always passes_on (materialize_well tok w e).
Proof. unfold materialize_well. pass. by eapply passes_create_new. Qed.

Lemma passes_burn a tg s n : always passes_on (apply_burn ex a tg s n).
Proof. unfold apply_burn, resolve_well. pass; [inert|apply passes_materialize|inert]. Qed.

Lemma passes_mint a tg s n : always passes_on (apply_mint ex a tg s n).
Proof. unfold apply_mint, resolve_well. pass; [apply passes_materialize|inert|inert]. Qed.

Lemma passes_insert_revocation k n : always passes_on (insert_revocation k n).
Proof.
  intros st st' r. unfold insert_revocation. destruct (as_contains _ _); [intros [= <- _] H; exact H|].
  destruct (revoked_insert _ _ _) as [[s' [?|?]]|]; [|discriminate|discriminate]. intros [= <- _] H; exact H.
Qed.

Lemma passes_revoke tg a k s : always passes_on (apply_revoke_capability ex tg a k s).
Proof.
  unfold apply_revoke_capability. pass; [apply passes_cross| |apply passes_insert_revocation].
  intros c c' es r [= <- _ _]. apply shrinks_subset. intros x. unfold held_refs.
  cbn [c_capabilities c_delegation with_capabilities refs].
  rewrite !elem_of_app, elem_of_retain. tauto.
Qed.

Lemma elem_of_update_first {A} (p : A -> bool) (f : A -> A) l x :
  x ∈ update_first p f l -> x ∈ l \/ exists y, ffind p l = Some y /\ x = f y.
Proof.
  induction l as [|y l IH]; simpl; [auto|]. destruct (p y) eqn:E.
  - rewrite !elem_of_cons. intros [->|H]; [right; by exists y|auto].
  - rewrite !elem_of_cons. intros [->|H]; [auto|]. destruct (IH H) as [?|?]; auto.
Qed.

Lemma passes_attenuate a k s p e x : always passes_on (apply_attenuate_capability a k s p e x).
Proof.
  unfold apply_attenuate_capability. pass. intros c c' es r.
  destruct (lookup_cap (c_capabilities c) s) as [old|] eqn:El; [|intros [= <- _ _]; by apply shrinks_same].
  unfold attenuate_in_place. rewrite El.
  destruct (is_narrower_or_equal p (cap_permissions old)) eqn:En; cbn [negb];
    [|intros [= <- _ _]; by apply shrinks_same].
  destruct (narrow_effects old e) as [eff'|] eqn:Ee; [|intros [= <- _ _]; by apply shrinks_same].
  destruct (narrow_expiry old x) as [exp'|] eqn:Ex; [|intros [= <- _ _]; by apply shrinks_same].
  intros [= <- _ _] y. unfold held_refs. cbn [c_capabilities c_delegation with_capabilities refs invalidate_cap_root_cache].
  rewrite elem_of_app. intros [[Hy|(z & Hz & ->)]%elem_of_update_first|Hy] Hc.
  - exists y. rewrite elem_of_app. auto.
  - unfold lookup_cap in El. rewrite El in Hz. injection Hz as <-. exists old. split.
    + apply elem_of_app. left. by apply ffind_some in El as [? _].
    + revert Hc. apply no_wider_fields; [done|done| |].
      * intros k'. by eapply narrow_expiry_sound.
      * intros b. by eapply narrow_effects_sound.
  - exists y. rewrite elem_of_app. auto.
Qed.

Lemma passes_create_cell pk tok b : always passes_on (apply_create_cell pk tok b).
Proof. unfold apply_create_cell. cbv zeta. pass. by eapply passes_create_new. Qed.

(** A snapshot repeats references its source holds. *)
Lemma snapshot_holds cell st id x :
  cells (x_ledger st) !! id = Some cell -> x ∈ refs (c_capabilities cell) ->
  confers x t cr h bit -> authority (x_ledger st) t cr h bit.
Proof. intros Hc Hx Hconf. exists id, cell, x. split_and!; [done|apply elem_of_app; by left|done]. Qed.

Lemma passes_spawn tg pk tok n : always passes_on (apply_spawn_with_delegation ex tg pk tok n).
Proof.
  unfold apply_spawn_with_delegation. apply reads_passes. intros st st' r parent Hp. cbv zeta.
  unfold get in Hp. destruct (cells (x_ledger st) !! tg) as [pc|] eqn:Ep; [|discriminate Hp].
  injection Hp as ->. unfold bind, total.
  destruct (cell_with_balance pk tok 0) as [child|] eqn:En; [|discriminate]. cbn [mbind option_bind].
  intros Hrun. eapply create_passes; [exact Hrun|]. apply new_cell_holds_nothing in En.
  intros x Hx. unfold held_refs in *. cbn [c_capabilities c_delegation with_delegation with_delegate] in Hx.
  apply app_eq_nil in En as [En _]. rewrite En in Hx. exact (snapshot_holds parent st tg x Ep Hx).
Qed.

Lemma passes_refresh tg k s : always passes_on (apply_refresh_delegation ex tg k s).
Proof.
  unfold apply_refresh_delegation. apply always_bind; [apply _|pass|intros _]. apply reads_passes. intros st st' r d Hd Hrun.
  unfold cell_or, get in Hd. destruct (cells (x_ledger st) !! tg) as [cc|]; [|discriminate].
  destruct (c_delegate cc) as [pid|]; [|discriminate]. cbv zeta in Hd.
  destruct (cells (x_ledger st) !! pid) as [pc|] eqn:Ep; [|discriminate].
  destruct (negb _); [discriminate|]. injection Hd as <-.
  eapply on_cell_passes; [exact Hrun|]. intros c c' es r' Hc [= <- _ _] x.
  unfold held_refs. cbn [c_capabilities c_delegation with_delegation]. rewrite elem_of_app.
  intros [Hx|Hx] Hconf; [|exact (snapshot_holds pc st pid x Ep Hx Hconf)].
  exists tg, c, x. split_and!; [done|apply elem_of_app; by left|done].
Qed.

Lemma passes_revoke_delegation tg k : always passes_on (apply_revoke_delegation tg k).
Proof.
  unfold apply_revoke_delegation. pass; [inert|]. intros c c' es r [= <- _ _].
  apply shrinks_subset. unfold held_refs. cbn [c_capabilities c_delegation with_delegation]. set_solver.
Qed.

Lemma passes_make_sovereign tg k : always passes_on (apply_make_sovereign tg k).
Proof.
  unfold apply_make_sovereign. pass. intros st st' r. unfold make_sovereign.
  pose proof (cells_remove (x_ledger st) k) as Hd.
  destruct (remove (x_ledger st) k) as [L' [cell|]]; cbn [fst] in Hd.
  - destruct (state_commitment cell) as [com|]; [|discriminate].
    intros [= <- _] (i & c & x & Hi & H). cbn [x_ledger record with_ledger cells with_sovereign] in Hi.
    rewrite Hd in Hi. apply lookup_delete_Some in Hi as [_ Hi]. by exists i, c, x.
  - intros [= <- _] (i & c & x & Hi & H). cbn [x_ledger with_ledger] in Hi.
    rewrite Hd in Hi. apply lookup_delete_Some in Hi as [_ Hi]. by exists i, c, x.
Qed.

Lemma passes_transition id f e : writes_lifecycle f -> always passes_on (transition id f e).
Proof.
  intros Hf. unfold transition. pass. intros c c' es r. destruct (f c) as [c1|] eqn:E;
    intros [= <- _ _]; [apply Hf in E as [l ->]|]; by apply shrinks_same.
Qed.

Lemma passes_archive tg n a : always passes_on (apply_receipt_archive ex tg n a).
Proof.
  unfold apply_receipt_archive. pass. intros c c' es r. destruct (negb _); [intros [= <- _ _]; by apply shrinks_same|].
  destruct (archive c a) as [c1|] eqn:E; intros [= <- _ _]; [apply archive_writes in E as [l ->]|];
    by apply shrinks_same.
Qed.

Lemma passes_emit k topic data : always passes_on (apply_emit_event k topic data).
Proof. unfold apply_emit_event. pass. apply passes_note. Qed.

Lemma passes_refusal tg a k o q : always passes_on (apply_refusal ex tg a k o q).
Proof.
  unfold apply_refusal. pass; [apply passes_cross|]. intros c c' es r. cbn zeta.
  destruct (negb _); [intros [= <- _ _]; by apply shrinks_same|].
  destruct (increment_nonce (c_state c)) as [s1 []]; cbn [negb]; [|intros [= <- _ _]; by apply shrinks_same].
  destruct (set_field_ext _ s1 _ _) as [[s2 b]|]; [|discriminate]. intros [= <- _ _]. by apply shrinks_same.
Qed.

Lemma passes_note_spend n r pf v a vc : always passes_on (apply_note_spend ex n r pf v a vc).
Proof.
  unfold apply_note_spend. pass. all: intros st st' q; destruct (as_contains _ _); [intros [= <- _] H; exact H|].
  all: destruct (nullifier_insert _ _ _) as [[s' [?|?]]|]; [| |discriminate]; intros [= <- _] H; exact H.
Qed.

Lemma passes_note_create k v vc rp : always passes_on (apply_note_create k v vc rp).
Proof.
  unfold apply_note_create. pass. intros st st' q. destruct (as_contains _ _); [intros [= <- _] H; exact H|].
  destruct (commitment_insert _ _ _) as [[s' [?|?]]|]; [| |discriminate]; intros [= <- _] H; exact H.
Qed.

(** *** Passing a capability on *)

Lemma install_passes to e f mk st st' r :
  (forall s, f s = append_ref s mk) -> install to e f st = Some (st', r) ->
  (forall z, confers (mk z) t cr h bit -> authority (x_ledger st) t cr h bit) -> passes_on st st'.
Proof.
  intros Hf Hrun Hmk. eapply on_cell_passes; [exact Hrun|]. intros c c' es r' Hc Eb x.
  cbn beta in Eb. rewrite Hf in Eb.
  assert (Hc' : c' = with_capabilities (invalidate_leaf_cache c) (append_ref (c_capabilities c) mk).1).
  { change (c_capabilities (invalidate_leaf_cache c)) with (c_capabilities c) in Eb.
    destruct (append_ref (c_capabilities c) mk) as [s' [slot|]]; injection Eb as <- _ _; done. }
  subst c'. unfold held_refs. cbn [c_capabilities c_delegation with_capabilities].
  destruct (append_ref_spec (c_capabilities c) mk) as (_ & _ & _ & -> & _).
  assert (Hold : x ∈ held_refs c -> confers x t cr h bit -> authority (x_ledger st) t cr h bit).
  { intros. by exists to, c, x. }
  destruct (_ <? _); [|exact Hold]. rewrite !elem_of_app. intros [[Hx|Hx]|Hx] Hconf.
  - apply Hold; [|done]. apply elem_of_app. by left.
  - apply list_elem_of_singleton in Hx as ->. by eapply Hmk.
  - apply Hold; [|done]. apply elem_of_app. by right.
Qed.

Lemma facet_all_permits m :
  0 < bit <= u32_max -> is_facet_attenuation m EFFECT_ALL = true -> is_effect_permitted (Some m) bit = true.
Proof.
  intros Hbit Hm. eapply (is_effect_permitted_mono m EFFECT_ALL); [done|].
  apply is_effect_permitted_Some. change EFFECT_ALL with (Z.ones 32).
  rewrite Z.land_ones, Z.mod_small by (unfold u32_max in Hbit; lia). lia.
Qed.

(** What [check_grant] lets through confers no more than the grantor's own
    reference. *)
Lemma grant_no_wider held cap :
  0 < bit <= u32_max -> cap_target held = cap_target cap ->
  is_attenuation (cap_permissions held) (cap_permissions cap) = true ->
  is_facet_attenuation (default EFFECT_ALL (cap_allowed_effects held))
    (default EFFECT_ALL (cap_allowed_effects cap)) = true ->
  expiry_admits (cap_expires_at held) (cap_expires_at cap) = true ->
  confers cap t cr h bit -> confers held t cr h bit.
Proof.
  intros Hbit Ht Hp Hf Hx (Ct & Cp & Ce & Cb). split_and!; [congruence| | |].
  - by eapply is_narrower_or_equal_sound.
  - unfold expiry_admits, not_expired in *. destruct (cap_expires_at held) as [he|]; [|done].
    destruct (cap_expires_at cap) as [ce|]; [|done]. apply negb_true_iff, Z.ltb_ge in Hx.
    apply Z.leb_le in Ce. apply Z.leb_le. lia.
  - destruct (cap_allowed_effects held) as [m|]; [|done]. cbn [default from_option id] in Hf.
    destruct (cap_allowed_effects cap) as [g|]; cbn in Hf.
    + by eapply is_effect_permitted_mono.
    + by apply facet_all_permits.
Qed.

Lemma passes_grant tg a f to cap turn :
  0 < bit <= u32_max -> bool_decide (f = t) && bool_decide (cap_target cap = t) = false ->
  always passes_on (apply_grant_capability ex tg a f to cap turn).
Proof.
  intros Hbit Hm. unfold apply_grant_capability. apply always_bind; [apply _|apply passes_cross|intros _].
  apply reads_passes. intros st st' r [] Hchk Hrun. unfold grant_ref_provenanced in Hrun.
  eapply install_passes; [|exact Hrun|]; [reflexivity|]. intros z Hconf.
  unfold cell_or, get in Hchk. destruct (cells (x_ledger st) !! f) as [fc|] eqn:Ef; [|discriminate Hchk].
  unfold check_grant in Hchk. destruct Hconf as (Ct & Crest). cbn in Ct.
  destruct (decide (cap_target cap = f)) as [E|Hne].
  { rewrite E in Ct. subst f. rewrite E in Hm. rewrite !bool_decide_true in Hm by done. discriminate Hm. }
  rewrite bool_decide_false in Hchk by done.
  destruct (lookup_by_target (c_capabilities fc) (cap_target cap)) as [held|] eqn:El; [|discriminate Hchk].
  cbn in Hchk. destruct (is_attenuation _ _) eqn:Ea; [|discriminate Hchk].
  destruct (is_facet_attenuation _ _) eqn:Em; [|discriminate Hchk].
  destruct (expiry_admits _ _) eqn:Ee; [|discriminate Hchk].
  apply ffind_some in El as [Hin Hht%bool_decide_eq_true].
  exists f, fc, held. split_and!; [done|apply elem_of_app; by left|].
  by eapply (grant_no_wider held cap).
Qed.

Lemma passes_introduce i r tgt p turn :
  bool_decide (tgt = t) = false -> always passes_on (apply_introduce ex i r tgt p turn).
Proof.
  intros Hm. unfold apply_introduce. cbv zeta. apply always_bind; [apply _|pass|intros prov].
  apply always_total_bind. intros exp _ st st' q Hrun. unfold grant_provenanced in Hrun.
  eapply install_passes; [|exact Hrun|]; [reflexivity|]. intros z (Ct & _). cbn in Ct. subst tgt.
  by rewrite bool_decide_true in Hm.
Qed.

Hint Resolve passes_set_field passes_transfer passes_grant passes_revoke passes_emit
  passes_increment_nonce passes_create_cell passes_set_permissions passes_set_vk passes_set_program
  passes_note_spend passes_note_create passes_introduce passes_spawn passes_refresh
  passes_revoke_delegation passes_make_sovereign passes_refusal passes_burn passes_mint
  passes_attenuate passes_archive : dregg.

Lemma passes_effect turn e : 0 < bit <= u32_max -> mints_over t e = false ->
  forall target actor, always passes_on (apply_effect ex turn e target actor).
Proof.
  intros Hbit. revert e. apply (effect_ind' (fun e => mints_over t e = false ->
    forall target actor, always passes_on (apply_effect ex turn e target actor))).
  - intros slot inner IH Hm target actor. cbn. pass. apply always_for_each; [apply _|].
    cbn in Hm. rewrite Forall_forall in IH. apply Forall_forall. intros e He. apply IH; [done|].
    destruct (mints_over t e) eqn:E; [|done]. rewrite <-Hm. symmetry. apply existsb_exists.
    exists e. split; [by apply list_elem_of_In|done].
  - intros e. destruct e; try exact I; intros Hm target' actor; cbn; auto with dregg; try (pass; fail).
    all: unfold apply_cell_seal, apply_cell_unseal, apply_cell_destroy; pass; apply passes_transition;
      auto using seal_writes, unseal_writes, destroy_writes.
Qed.

Lemma passes_snapshot_refresh p tg : always passes_on (snapshot_refresh ex p tg).
Proof.
  unfold snapshot_refresh. apply always_bind; [apply _|pass|intros [aid|]]; [|pass].
  apply reads_passes. intros st st' r anc Ha Hrun. unfold get in Ha.
  destruct (cells (x_ledger st) !! aid) as [ac|] eqn:Ea; [|discriminate Ha]. injection Ha as ->.
  apply bind_passes in Hrun; [exact Hrun| |intros _; pass]. clear Hrun st' r. intros st' r Hrun.
  eapply on_cell_passes; [exact Hrun|]. intros c c' es r' Hc Eb x.
  assert (Hold : x ∈ held_refs c -> confers x t cr h bit -> authority (x_ledger st) t cr h bit).
  { intros. by exists p, c, x. }
  cbn beta in Eb. change (c_delegation (invalidate_leaf_cache c)) with (c_delegation c) in Eb.
  destruct (c_delegation c) as [d|]; injection Eb as <- _ _; [exact Hold|].
  unfold held_refs. cbn [c_capabilities c_delegation with_delegation]. rewrite elem_of_app.
  intros [Hx|Hx] Hconf; [|exact (snapshot_holds anc st aid x Ea Hx Hconf)].
  apply Hold; [|done]. apply elem_of_app. by left.
Qed.

Lemma passes_roots `{HP : !ProgramSize} `{HK : !TurnChecks} costs budget n agent turn i ts counters :
  0 < bit <= u32_max -> existsb (mints_over t) (concat (map all_effects ts)) = false ->
  always passes_on (execute_roots ex costs budget n agent turn i ts counters).
Proof.
  intros Hbit Hm. apply lift_roots; [apply _|apply passes_snapshot_refresh|..].
  - intros k v. unfold update_proved_state. pass. inert.
  - intros x tg d. unfold action_balance_change. pass. inert.
  - intros tg. unfold bump_target_nonce. pass. inert.
  - apply Forall_forall. intros e He tn tg ac. apply passes_effect; [done|].
    destruct (mints_over t e) eqn:E; [|done]. rewrite <-Hm. symmetry. apply existsb_exists.
    exists e. split; [by apply list_elem_of_In|done].
Qed.

End Authority.

(** ** Properties *)

Section Properties.
Context `{HB : Blake3} `{HC : ProgramCodec} `{HO : TurnOracles} `{HP : !ProgramSize} `{HK : !TurnChecks}.

(** Value is conserved.  Over any call forest that runs to its end (transfers,
    burns into and mints out of the issuer wells, cell births, balance changes
    declared by actions and everything else, nested in capability exercises or
    not), the balances hosted in the ledger, plus those that left inside cells
    made sovereign, plus the running excess stay the same; so a turn whose excess
    returns to zero neither made nor lost value. *)
Theorem effects_conserve (ex : TurnExecutor) (costs : ComputronCosts) (budget turn_nonce : Z)
    (agent : CellId) (turn : bytes) (ts : list CallTree) (used excess : Z) (st0 st1 : ExecState) :
  execute_roots ex costs budget turn_nonce agent turn 0 ts (0, 0) st0 = Some (st1, Ok (used, excess)) ->
  supply (cells (x_ledger st1)) + sov_value (x_journal st1) + excess =
  supply (cells (x_ledger st0)) + sov_value (x_journal st0).
Proof.
  intros H. apply conserves_roots in H. unfold wealth in H. cbn [snd] in H. lia.
Qed.

(** C8: authority is only passed on.  Take a cell [t] and any call forest, of the
    effects of [Effect] (creation by a factory, which grants the references its
    parameters name, is not among them), that neither grants [t] by [t] itself nor introduces [t].  However its run ends,
    if afterwards some hosted cell holds a reference, in its c-list or in a
    delegation snapshot, that confers an effect on [t] (for a credential, at a
    height), then some hosted cell already held one before: grants,
    attenuations, revocations, spawned children, refreshed snapshots and the
    nested exercises create none. *)
Theorem authority_only_passed_on (ex : TurnExecutor) (costs : ComputronCosts) (budget turn_nonce : Z)
    (agent : CellId) (turn : bytes) (ts : list CallTree) (st0 st1 : ExecState) (r : result (Z * Z) TurnError)
    (t : CellId) (cr : credential) (h bit : Z) :
  0 < bit <= u32_max -> existsb (mints_over t) (concat (map all_effects ts)) = false ->
  execute_roots ex costs budget turn_nonce agent turn 0 ts (0, 0) st0 = Some (st1, r) ->
  authority (x_ledger st1) t cr h bit -> authority (x_ledger st0) t cr h bit.
Proof.
  intros Hbit Hm Hrun.
  exact (passes_roots t cr h bit ex costs budget turn_nonce agent turn 0 ts (0, 0) Hbit Hm st0 st1 r Hrun).
Qed.

(** An introduction asks nothing of the actor.  When some cell [i] holds a
    reference to [rcp] and a live one to [t], every actor, acting on every
    target, can have [i] introduce [rcp] to [t]: the effect succeeds, and the
    reference [rcp] receives carries no facet mask and the executor's own
    lifetime, whatever mask and expiry the reference of [i] has. *)
Theorem introduce_needs_no_authority (ex : TurnExecutor) (turn : bytes) (i rcp t : CellId)
    (p : AuthRequired) (st : ExecState) (ic tc rc : Cell) (held : CapabilityRef)
    (action_target actor : CellId) :
  cells (x_ledger st) !! i = Some ic -> cells (x_ledger st) !! rcp = Some rc ->
  cells (x_ledger st) !! t = Some tc ->
  has_access (c_capabilities ic) rcp = true -> lookup_by_target (c_capabilities ic) t = Some held ->
  not_expired held (block_height ex) = true -> is_attenuation (cap_permissions held) p = true ->
  delegate_perm (c_permissions tc) <> AR_Impossible -> next_slot (c_capabilities rc) < u32_max ->
  block_height ex + max_introduction_lifetime ex <= u64_max ->
  exists st' rc' new, apply_effect ex turn (EffIntroduce i rcp t p) action_target actor st = Some (st', Ok tt) /\
    cells (x_ledger st') !! rcp = Some rc' /\ new ∈ refs (c_capabilities rc') /\
    cap_target new = t /\ cap_permissions new = p /\ cap_allowed_effects new = None /\
    cap_expires_at new = Some (block_height ex + max_introduction_lifetime ex).
Proof.
  intros Hi Hr Ht Hacc Hheld Hexp Hatt Hdel Hslot Hlife.
  set (exp := block_height ex + max_introduction_lifetime ex).
  set (mk z := mkCap t z p None (Some exp) None None (cap_provenance t z (cap_prov held) turn)).
  assert (Hap : append_ref (c_capabilities rc) mk =
    ((append_ref (c_capabilities rc) mk).1, Some (next_slot (c_capabilities rc)))).
  { destruct (append_ref_spec (c_capabilities rc) mk) as (H & _). rewrite (proj2 (Z.ltb_lt _ _)) in H by done.
    rewrite <-H. by destruct (append_ref _ _). }
  do 3 eexists. split.
  - cbn [apply_effect]. unfold apply_introduce. cbv zeta. unfold bind, reads, cell_or, get.
    rewrite Hi, Hacc. cbn [negb]. rewrite Hheld. cbn [ok_or]. rewrite Hexp, Hatt. cbn [negb].
    rewrite Ht, bool_decide_false, Hr by done. cbn [mbind option_bind]. unfold total, checked_add_u64.
    rewrite (proj2 (Z.leb_le _ _)) by done. cbn [mbind option_bind]. unfold install, on_cell. rewrite Hr.
    change (c_capabilities (invalidate_leaf_cache rc)) with (c_capabilities rc).
    unfold grant_provenanced. fold exp. fold mk. rewrite Hap. reflexivity.
  - cbn [x_ledger record with_ledger]. rewrite cells_get_mut, Hr, lookup_insert_eq.
    split; [reflexivity|]. cbn [c_capabilities with_capabilities].
    destruct (append_ref_spec (c_capabilities rc) mk) as (_ & _ & _ & -> & _).
    rewrite (proj2 (Z.ltb_lt _ _)) by done. split; [apply elem_of_app; right; by left|]. done.
Qed.

End Properties.

(** ** Witnesses *)

#[local] Existing Instance model_blake3.
#[local] Existing Instance model_codec.
#[local] Existing Instance model_oracles.

#[local] Existing Instance model_size.
#[local] Existing Instance model_checks.

(** Pay 30; a bearer child declares an inflow of 4 to the payee. *)
Definition pay_trees : list CallTree :=
  [ mkTree (mkAction (fill32 10) AuthUnchecked [EffTransfer (fill32 10) (fill32 11) 30] DelegNone None [] []) [] zero32;
    mkTree (mkAction (fill32 11) AuthBearer [] DelegNone (Some 4) [] []) [] zero32 ].

Lemma effects_conserve_witness :
  exists st1, run_trees pay_trees (turn_state HEAP_ZERO8) = Some (st1, Ok (0, -4)) /\
    supply (cells (x_ledger st1)) = 109.
Proof.
  assert (H : exists st1, run_trees pay_trees (turn_state HEAP_ZERO8) = Some (st1, Ok (0, -4)) /\
    sov_value (x_journal st1) = 0) by (eexists; split; vm_compute; reflexivity).
  destruct H as (st1 & Hrun & Hsov). exists st1. split; [exact Hrun|].
  pose proof (effects_conserve turn_executor zero_costs 0 0 (fill32 10) (fill32 5) pay_trees 0 (-4)
                (turn_state HEAP_ZERO8) st1 Hrun) as H.
  rewrite Hsov in H. assert (Hs : supply (cells (x_ledger (turn_state HEAP_ZERO8))) = 105) by (vm_compute; reflexivity).
  rewrite Hs in H. cbn [x_journal turn_state sov_value foldr] in H. lia.
Defined.

(** The holder of a capability to cell 12, faceted to transfers and dead after
    height 9, passes it on. *)
Definition faceted : CapabilityRef :=
  mkCap (fill32 12) 0 AR_None None (Some 9) (Some EFFECT_TRANSFER) None (fill32 0).

Definition holder_clist : CapabilitySet :=
  (grant (grant_ref cset_new faceted).1 (fill32 11) AR_None).1.

Definition holder_state : ExecState :=
  mkExec (with_cells ledger_new {[ fill32 10 := turn_cell HEAP_ZERO8 (fill32 10) 100 holder_clist;
                                   fill32 11 := turn_cell HEAP_ZERO8 (fill32 11) 5 cset_new;
                                   fill32 12 := turn_cell HEAP_ZERO8 (fill32 12) 0 cset_new ]})
    [] as_new as_new as_new [].

Definition grant_trees : list CallTree :=
  [ tree_new (mkAction (fill32 10) AuthUnchecked [EffGrantCapability (fill32 10) (fill32 11) faceted]
                DelegNone None [] []) ].

Lemma authority_only_passed_on_witness :
  exists st1, run_trees grant_trees holder_state = Some (st1, Ok (0, 0)) /\
    authority (x_ledger st1) (fill32 12) (ByKind AK_Signature) 8 EFFECT_TRANSFER /\
    authority (x_ledger holder_state) (fill32 12) (ByKind AK_Signature) 8 EFFECT_TRANSFER.
Proof.
  assert (H : exists st1 rc new, run_trees grant_trees holder_state = Some (st1, Ok (0, 0)) /\
    cells (x_ledger st1) !! fill32 11 = Some rc /\ last (refs (c_capabilities rc)) = Some new /\
    cap_target new = fill32 12 /\ cap_permissions new = AR_None /\ not_expired new 8 = true /\
    is_effect_permitted (cap_allowed_effects new) EFFECT_TRANSFER = true).
  { do 3 eexists. split_and!; vm_compute; reflexivity. }
  destruct H as (st1 & rc & new & Hrun & Hc & Hl & Ht & Hp & He & Hb). exists st1.
  assert (Ha : authority (x_ledger st1) (fill32 12) (ByKind AK_Signature) 8 EFFECT_TRANSFER).
  { exists (fill32 11), rc, new. split_and!; [exact Hc| |].
    - apply elem_of_app. left. by apply last_Some_elem_of.
    - split_and!; [exact Ht|rewrite Hp; done|exact He|exact Hb]. }
  split_and!; [exact Hrun|exact Ha|].
  apply (authority_only_passed_on turn_executor zero_costs 0 0 (fill32 10) (fill32 5) grant_trees
           holder_state st1 (Ok (0, 0))); try done.
Defined.

(** A stranger, cell 99, has cell 10 introduce cell 11 to cell 12: the mask and
    the expiry of the capability passed on are gone. *)
Lemma introduce_needs_no_authority_witness :
  exists st' rc' new,
    apply_effect turn_executor (fill32 5) (EffIntroduce (fill32 10) (fill32 11) (fill32 12) AR_None)
      (fill32 99) (fill32 99) holder_state = Some (st', Ok tt) /\
    cells (x_ledger st') !! fill32 11 = Some rc' /\ new ∈ refs (c_capabilities rc') /\
    cap_target new = fill32 12 /\ cap_permissions new = AR_None /\ cap_allowed_effects new = None /\
    cap_expires_at new = Some 1007.
Proof.
  assert (H : exists ic rc tc held,
    cells (x_ledger holder_state) !! fill32 10 = Some ic /\ cells (x_ledger holder_state) !! fill32 11 = Some rc /\
    cells (x_ledger holder_state) !! fill32 12 = Some tc /\ has_access (c_capabilities ic) (fill32 11) = true /\
    lookup_by_target (c_capabilities ic) (fill32 12) = Some held /\ not_expired held 7 = true /\
    is_attenuation (cap_permissions held) AR_None = true /\ delegate_perm (c_permissions tc) <> AR_Impossible /\
    next_slot (c_capabilities rc) < u32_max).
  { do 4 eexists. split_and!; try (vm_compute; reflexivity). vm_compute. discriminate. }
  destruct H as (ic & rc & tc & held & H1 & H2 & H3 & H4 & H5 & H6 & H7 & H8 & H9).
  apply (introduce_needs_no_authority turn_executor (fill32 5) (fill32 10) (fill32 11) (fill32 12) AR_None
           holder_state ic tc rc held (fill32 99) (fill32 99) H1 H2 H3 H4 H5 H6 H7 H8 H9).
  cbn. unfold u64_max. lia.
Defined.
