(* ===== verification/TurnReplay.v ===== *)
(** * No turn runs twice

    Nonces only grow while a forest runs, unless a cell leaves the ledger; so the
    nonce a turn was charged for never comes back, and executing the turn again
    is refused at admission. *)

From stdpp Require Import base decidable option list gmap sorting strings relations.
From Stdlib Require Import ZArith Lia.
From S2P Require Import Prelude BabyBear Poseidon2 CapRoot Heap State Permissions Facet.
From S2P Require Import Derivation Capability Lifecycle Cell Migration Merkle Ledger Notes.
From S2P Require Import LedgerTree LedgerDelta LedgerRestore Channels Journal Executor Forest Metering.
From S2P Require Import Conflict BudgetGate ExecuteTree Execute TurnRollback TurnTrace TurnSafety TurnAtomic.

Open Scope Z_scope.

#[local] Opaque compute_canonical_fields_root_8.

Section Nonces.
Context `{HB : Blake3} `{HC : ProgramCodec} `{HO : TurnOracles}.

(** Whether a journal records a cell made sovereign. *)
Definition no_sov (es : list JournalEntry) : bool :=
  forallb (fun e => match e with JMakeSovereign _ => false | _ => true end) es.

(** Every hosted cell stays hosted with no smaller nonce, and none is made
    sovereign. *)
Definition nonces_grow : relation ExecState := fun st st' =>
  (forall id c, cells (x_ledger st) !! id = Some c ->
    exists c', cells (x_ledger st') !! id = Some c' /\ nonce (c_state c) <= nonce (c_state c')) /\
  (no_sov (x_journal st) = true -> no_sov (x_journal st') = true).

#[local] Instance nonces_grow_pre : PreOrder nonces_grow.
Proof.
  split.
  - intros st. split; [|done]. intros id c Hc. exists c. split; [done|lia].
  - intros st1 st2 st3 [H1 J1] [H2 J2]. split; [|auto]. intros id c Hc. destruct (H1 id c Hc) as (c2 & Hc2 & L2).
    destruct (H2 id c2 Hc2) as (c3 & Hc3 & L3). exists c3. split; [done|lia].
Qed.

Lemma no_sov_app es1 es2 : no_sov (es1 ++ es2) = no_sov es1 && no_sov es2.
Proof. apply forallb_app. Qed.

(** What a block does to its cell and the entries it leaves. *)
Definition grown (c c' : Cell) (es : list JournalEntry) : Prop :=
  nonce (c_state c) <= nonce (c_state c') /\ no_sov es = true.

(** The one effect that takes a cell out of the ledger. *)
Fixpoint makes_sovereign (e : Effect) : bool :=
  match e with
  | EffMakeSovereign _ => true
  | EffExerciseViaCapability _ inner => existsb makes_sovereign inner
  | _ => false
  end.

Lemma grow_same_cells st st' es : cells (x_ledger st') = cells (x_ledger st) ->
  x_journal st' = x_journal st ++ es -> no_sov es = true -> nonces_grow st st'.
Proof.
  intros E J Hes. split; [|rewrite J, no_sov_app, Hes; by intros ->].
  intros id c Hc. rewrite E. exists c. split; [done|lia].
Qed.

Lemma grow_get_mut st st' id c c' es :
  cells (x_ledger st) !! id = Some c -> cells (x_ledger st') = <[id := c']> (cells (x_ledger st)) ->
  x_journal st' = x_journal st ++ es -> grown c c' es -> nonces_grow st st'.
Proof.
  intros Hc E J [Hle Hes]. split; [|rewrite J, no_sov_app, Hes; by intros ->].
  intros i ci Hi. rewrite E. destruct (decide (i = id)) as [->|Hne].
  - rewrite lookup_insert_eq. exists c'. split; [done|]. rewrite Hc in Hi. injection Hi as <-. done.
  - rewrite lookup_insert_ne by done. exists ci. split; [done|lia].
Qed.

Lemma grow_on_cell {A} id e (body : Cell -> option (Cell * list JournalEntry * result A TurnError)) :
  (forall c c' es r, body c = Some (c', es, r) -> grown c c' es) ->
  always nonces_grow (on_cell id e body).
Proof.
  intros Hb st st' r. unfold on_cell. destruct (cells (x_ledger st) !! id) as [c|] eqn:E.
  - destruct (body (invalidate_leaf_cache c)) as [[[c' es] r']|] eqn:Eb; [|discriminate]. intros [= <- _].
    apply (grow_get_mut _ _ id c c' es); [done| |done|exact (Hb _ _ _ _ Eb)].
    cbn [x_ledger record with_ledger]. by rewrite cells_get_mut, E.
  - intros [= <- _]. apply (grow_same_cells _ _ []); [|by rewrite app_nil_r|done].
    cbn [x_ledger with_ledger]. by rewrite cells_get_mut, E.
Qed.

Lemma grow_if_hosted id (body : Cell -> option (Cell * list JournalEntry * result unit TurnError)) :
  (forall c c' es r, body c = Some (c', es, r) -> grown c c' es) ->
  always nonces_grow (if_hosted id body).
Proof.
  intros Hb st st' r. unfold if_hosted. destruct (cells (x_ledger st) !! id) as [c|] eqn:E.
  - by apply grow_on_cell.
  - intros [= <- _]. apply (grow_same_cells _ _ []); [|by rewrite app_nil_r|done].
    cbn [x_ledger with_ledger]. by rewrite cells_get_mut, E.
Qed.

Lemma grow_create cell e : always nonces_grow (create cell e).
Proof.
  intros st st' r. unfold create, insert_cell. destruct (cells (x_ledger st) !! c_id cell) eqn:E.
  { intros [= <- _]. by apply (grow_same_cells _ _ []); [|by rewrite app_nil_r|]. }
  intros [= <- _]. split; [|cbn [x_journal record with_ledger]; rewrite no_sov_app; by intros ->].
  intros id c Hc. cbn [x_ledger record with_ledger]. rewrite cells_add_cell, lookup_insert_ne by congruence.
  exists c. split; [done|lia].
Qed.

Ltac grow :=
  repeat match goal with
    | |- always _ (ret _) => apply always_ret; apply _
    | |- always _ (throw _) => apply always_throw; apply _
    | |- always _ (reads _) => apply always_reads; apply _
    | |- always _ (guard _ _) => apply always_guard; apply _
    | |- always _ (total _) => apply always_total; apply _
    | |- always _ (bind _ _) => apply always_bind; [apply _| |intros ?]
    | |- always _ (on_cell _ _ _) => apply grow_on_cell; intros c c' es r; cbn zeta beta
    | |- always _ (if_hosted _ _) => apply grow_if_hosted; intros c c' es r; cbn zeta beta
    | |- always _ (create _ _) => apply grow_create
    | |- always _ (note_entries _) => intros ? ? ? [= <- _]; eapply grow_same_cells; reflexivity
    | |- always _ (if ?b then _ else _) => destruct b
    | |- always _ (let '(_, _) := ?x in _) => destruct x
    | |- always _ (match ?x with _ => _ end) => destruct x
    end.

(** A block that keeps the nonce. *)
Ltac still := split; [apply Z.le_refl|reflexivity].

Ltac steady :=
  repeat match goal with
    | |- context [match ?x with _ => _ end = Some _] => destruct x
    | |- context [let '(_, _) := ?x in _] => destruct x
    end;
  cbn [mbind option_bind]; intros; simplify_eq; still.

Context (ex : TurnExecutor).

Lemma increment_nonce_grows s : nonce s <= nonce (increment_nonce s).1.
Proof.
  unfold increment_nonce. destruct (checked_add_u64 _ _) as [n|] eqn:E; cbn [fst]; [|lia].
  apply checked_add_u64_spec in E as [-> _]. cbn. lia.
Qed.

Lemma bump_epoch_nonce s : nonce (bump_delegation_epoch s).1 = nonce s.
Proof. unfold bump_delegation_epoch. by destruct (checked_add_u64 _ _). Qed.

Lemma set_field_ext_nonce w s k v s' b : set_field_ext w s k v = Some (s', b) -> nonce s' = nonce s.
Proof.
  unfold set_field_ext, set_field. destruct (_ <? _); [repeat case_match; by intros [= <- _]|].
  destruct (compute_canonical_fields_root_8 _); [|discriminate]. by intros [= <- _].
Qed.

(** The balance verbs keep the nonce. *)
Lemma verb_nonce (f : CellState -> Z -> CellState * bool) s n s' ok :
  (exists b, f s n = (with_balance s b, true)) \/ f s n = (s, false) -> f s n = (s', ok) -> nonce s' = nonce s.
Proof. intros [[b ->]| ->] [= <- _]; done. Qed.

Ltac verb cases :=
  match goal with
  | |- context [let '(_, _) := ?f (c_state ?c) ?n in _] =>
      let E := fresh "E" in
      destruct (f (c_state c) n) as [s' ok] eqn:E; apply (verb_nonce f _ _ _ _ (cases _ _)) in E;
      destruct ok; cbn [negb]; intros [= <- <- _]; (split; [cbn [c_state with_state]; lia|reflexivity])
  end.

Lemma grow_cross t a c act n b : always nonces_grow (cross_cell ex t a c act n b).
Proof. unfold cross_cell. grow. Qed.

Lemma grow_materialize tok w e : always nonces_grow (materialize_well tok w e).
Proof. unfold materialize_well. grow. Qed.

Lemma grow_insert_revocation k h : always nonces_grow (insert_revocation k h).
Proof.
  intros st st' r. unfold insert_revocation. destruct (as_contains _ _); [intros [= <- _]; reflexivity|].
  destruct (revoked_insert _ _ _) as [[s' [?|?]]|]; [|discriminate|discriminate]. intros [= <- _].
  by eapply grow_same_cells.
Qed.

Lemma grow_set_field t a k i v : always nonces_grow (apply_set_field ex t a k i v).
Proof.
  unfold apply_set_field. grow; try apply grow_cross. destruct (negb _); [intros [= <- <- _]; still|].
  destruct (_ <? _); [intros [= <- <- _]; still|].
  destruct (set_field_ext _ _ _ _) as [[s' b]|] eqn:E; [|discriminate]. intros [= <- <- _].
  apply set_field_ext_nonce in E. split; [cbn; lia|reflexivity].
Qed.

Lemma grow_increment_nonce t a k : always nonces_grow (apply_increment_nonce ex t a k).
Proof.
  unfold apply_increment_nonce. grow; try apply grow_cross. destruct (negb _); [intros [= <- <- _]; still|].
  pose proof (increment_nonce_grows (c_state c)) as H. destruct (increment_nonce (c_state c)) as [s' ok].
  intros [= <- <- _]. split; [exact H|reflexivity].
Qed.

Lemma grow_refusal t a k o q : always nonces_grow (apply_refusal ex t a k o q).
Proof.
  unfold apply_refusal. grow; try apply grow_cross. destruct (negb _); [intros [= <- <- _]; still|].
  pose proof (increment_nonce_grows (c_state c)) as H. destruct (increment_nonce (c_state c)) as [s1 ok].
  cbn [fst] in H. destruct ok; cbn [negb]; [|intros [= <- <- _]; split; [exact H|reflexivity]].
  destruct (set_field_ext _ s1 _ _) as [[s2 b]|] eqn:E; [|discriminate]. intros [= <- <- _].
  apply set_field_ext_nonce in E. split; [cbn; lia|reflexivity].
Qed.

Lemma grow_transfer t a f to n : always nonces_grow (apply_transfer ex t a f to n).
Proof. unfold apply_transfer. grow; try apply grow_cross; steady. Qed.

Lemma grow_burn a t s n : always nonces_grow (apply_burn ex a t s n).
Proof.
  unfold apply_burn, resolve_well. grow; try apply grow_materialize; [verb debit_cases|].
  destruct (negb (is_live _)); [intros [= <- <- _]; still|]. verb credit_cases.
Qed.

Lemma grow_mint a t s n : always nonces_grow (apply_mint ex a t s n).
Proof.
  unfold apply_mint, resolve_well. grow; try apply grow_materialize; [verb well_debit_cases|verb credit_cases].
Qed.

Lemma grow_install to e f : always nonces_grow (install to e f).
Proof. unfold install. grow. destruct (f (c_capabilities c)) as [s' [z|]]; intros [= <- <- _]; still. Qed.

Lemma grow_transition id f e : writes_lifecycle f -> always nonces_grow (transition id f e).
Proof.
  intros Hf. unfold transition. grow. destruct (f c) as [c1|] eqn:E; intros [= <- <- _]; [|still].
  apply Hf in E as [l ->]. still.
Qed.

Lemma grow_archive t h a : always nonces_grow (apply_receipt_archive ex t h a).
Proof.
  unfold apply_receipt_archive. grow. destruct (negb _); [intros [= <- <- _]; still|].
  destruct (archive c a) as [c1|] eqn:E; intros [= <- <- _]; [|still]. apply archive_writes in E as [l ->]. still.
Qed.

Lemma grow_revoke_delegation t k : always nonces_grow (apply_revoke_delegation t k).
Proof.
  unfold apply_revoke_delegation. grow; [|steady]. pose proof (bump_epoch_nonce (c_state c)) as H.
  destruct (bump_delegation_epoch (c_state c)) as [s' ok]. intros [= <- <- _]. split; [cbn in *; lia|reflexivity].
Qed.

Lemma grow_set_permissions t a k p : always nonces_grow (apply_set_permissions ex t a k p).
Proof. unfold apply_set_permissions. grow; try apply grow_cross; steady. Qed.

Lemma grow_set_vk t a k p : always nonces_grow (apply_set_verification_key ex t a k p).
Proof. unfold apply_set_verification_key. grow; try apply grow_cross; steady. Qed.

Lemma grow_set_program t a k p : always nonces_grow (apply_set_program ex t a k p).
Proof. unfold apply_set_program. grow; try apply grow_cross; steady. Qed.

Lemma grow_grant t a f to cap turn : always nonces_grow (apply_grant_capability ex t a f to cap turn).
Proof. unfold apply_grant_capability. grow; [apply grow_cross|apply grow_install]. Qed.

Lemma grow_introduce i r t p turn : always nonces_grow (apply_introduce ex i r t p turn).
Proof. unfold apply_introduce. cbv zeta. grow. apply grow_install. Qed.

Lemma grow_revoke t a k s : always nonces_grow (apply_revoke_capability ex t a k s).
Proof.
  unfold apply_revoke_capability. grow; [apply grow_cross| |apply grow_insert_revocation].
  intros [= <- <- _]. split; [apply Z.le_refl|by destruct (lookup_cap _ _)].
Qed.

Lemma grow_attenuate a k s p e x : always nonces_grow (apply_attenuate_capability a k s p e x).
Proof.
  unfold apply_attenuate_capability. grow. destruct (lookup_cap _ _) as [old|]; [|intros [= <- <- _]; still].
  destruct (attenuate_in_place _ _ _ _ _) as [k' [z|]]; intros [= <- <- _]; still.
Qed.

Lemma grow_create_cell pk tok b : always nonces_grow (apply_create_cell pk tok b).
Proof. unfold apply_create_cell. cbv zeta. grow. Qed.

Lemma grow_spawn t pk tok n : always nonces_grow (apply_spawn_with_delegation ex t pk tok n).
Proof. unfold apply_spawn_with_delegation. cbv zeta. grow. Qed.

Lemma grow_refresh t k s : always nonces_grow (apply_refresh_delegation ex t k s).
Proof. unfold apply_refresh_delegation. grow. intros [= <- <- _]. still. Qed.

Lemma grow_emit k topic data : always nonces_grow (apply_emit_event k topic data).
Proof. unfold apply_emit_event. grow. Qed.

Lemma grow_note_spend n r pf v a vc : always nonces_grow (apply_note_spend ex n r pf v a vc).
Proof.
  unfold apply_note_spend. grow. all: intros st st' q; destruct (as_contains _ _); [intros [= <- _]; reflexivity|].
  all: destruct (nullifier_insert _ _ _) as [[s' [?|?]]|]; [| |discriminate]; intros [= <- _];
    first [reflexivity|by eapply grow_same_cells|by apply (grow_same_cells _ _ []); [|by rewrite app_nil_r|]].
Qed.

Lemma grow_note_create k v vc rp : always nonces_grow (apply_note_create k v vc rp).
Proof.
  unfold apply_note_create. grow. intros st st' q. destruct (as_contains _ _); [intros [= <- _]; reflexivity|].
  destruct (commitment_insert _ _ _) as [[s' [?|?]]|]; [| |discriminate]; intros [= <- _];
    first [reflexivity|by eapply grow_same_cells|by apply (grow_same_cells _ _ []); [|by rewrite app_nil_r|]].
Qed.

Hint Resolve grow_set_field grow_transfer grow_grant grow_revoke grow_emit grow_increment_nonce
  grow_create_cell grow_set_permissions grow_set_vk grow_set_program grow_note_spend grow_note_create
  grow_introduce grow_spawn grow_refresh grow_revoke_delegation grow_refusal grow_burn grow_mint
  grow_attenuate grow_archive : dregg.

Lemma grow_effect turn e : makes_sovereign e = false ->
  forall target actor, always nonces_grow (apply_effect ex turn e target actor).
Proof.
  revert e. apply (effect_ind' (fun e => makes_sovereign e = false ->
    forall target actor, always nonces_grow (apply_effect ex turn e target actor))).
  - intros slot inner IH Hm target actor. cbn. grow. apply always_for_each; [apply _|].
    cbn in Hm. rewrite Forall_forall in IH. apply Forall_forall. intros e He. apply IH; [done|].
    destruct (makes_sovereign e) eqn:E; [|done]. rewrite <-Hm. symmetry. apply existsb_exists.
    exists e. split; [by apply list_elem_of_In|done].
  - intros e. destruct e; try exact I; intros Hm target' actor; try discriminate Hm; cbn; auto with dregg;
      try (grow; fail).
    all: unfold apply_cell_seal, apply_cell_unseal, apply_cell_destroy; grow; apply grow_transition;
      auto using seal_writes, unseal_writes, destroy_writes.
Qed.

Lemma grow_snapshot_refresh p tg : always nonces_grow (snapshot_refresh ex p tg).
Proof.
  unfold snapshot_refresh. grow. destruct (c_delegation c); intros [= <- <- _]; still.
Qed.

Lemma grow_bump t : always nonces_grow (bump_target_nonce t).
Proof.
  unfold bump_target_nonce. grow. intros [= <- <- _]. split; [apply increment_nonce_grows|reflexivity].
Qed.

Lemma grow_roots `{HP : !ProgramSize} `{HK : !TurnChecks} costs budget n agent turn i ts counters :
  existsb makes_sovereign (concat (map all_effects ts)) = false ->
  always nonces_grow (execute_roots ex costs budget n agent turn i ts counters).
Proof.
  intros Hm. apply lift_roots; [apply _|apply grow_snapshot_refresh|..|].
  - intros k v. unfold update_proved_state. grow. steady.
  - intros x tg d. unfold action_balance_change. grow. steady.
  - apply grow_bump.
  - apply Forall_forall. intros e He tn tg ac. apply grow_effect.
    destruct (makes_sovereign e) eqn:E; [|done]. rewrite <-Hm. symmetry. apply existsb_exists.
    exists e. split; [by apply list_elem_of_In|done].
Qed.

End Nonces.

Section Replay.
Context `{HB : Blake3} `{HC : ProgramCodec} `{HO : TurnOracles} `{HP : !ProgramSize} `{HK : !TurnChecks}
  `{HT : !TurnCrypto}.
(** The agent's nonce is past [n]. *)
Definition past (n : Z) (agent : CellId) (node : Node) : Prop :=
  exists c, cells (x_ledger (n_state node)) !! agent = Some c /\ n < nonce (c_state c).

Lemma past_refuses ex cfg turn node n :
  past n (t_agent turn) node -> t_nonce turn <= n ->
  exists e, execute ex cfg turn node = Some (node, Rejected e).
Proof.
  intros (c & Hc & Hn) Hle. unfold execute. destruct (admission ex cfg turn node) as [[]|e] eqn:Ea; [|by exists e].
  exfalso. apply admit_ok in Ea as (c' & Hc' & Hn' & _). rewrite Hc in Hc'. injection Hc' as <-. lia.
Qed.

(** ** What a turn keeps *)

(** Well-formed cells, each under its id. *)
Definition cells_ok (m : gmap CellId Cell) : Prop := keyed m /\ map_Forall (fun _ c => cell_ok c) m.

(** Every hosted cell stays hosted, with no smaller nonce. *)
Definition cells_kept : relation (gmap CellId Cell) := fun m m' =>
  forall id c, m !! id = Some c -> exists c', m' !! id = Some c' /\ nonce (c_state c) <= nonce (c_state c').

#[local] Instance cells_kept_pre : PreOrder cells_kept.
Proof.
  split; [intros m id c Hc; exists c; split; [done|lia]|]. intros m1 m2 m3 H1 H2 id c Hc.
  destruct (H1 id c Hc) as (c2 & Hc2 & L2). destruct (H2 id c2 Hc2) as (c3 & Hc3 & L3). exists c3. split; [done|lia].
Qed.

(** One cell rewritten with another state. *)
Lemma keep_state m id c s :
  m !! id = Some c -> cells_ok m -> (fields_ok (c_state c) -> fields_ok s) -> nonce (c_state c) <= nonce s ->
  cells_ok (<[id := with_state (invalidate_leaf_cache c) s]> m) /\
  cells_kept m (<[id := with_state (invalidate_leaf_cache c) s]> m).
Proof.
  intros Hc [Hk Ho] Hf Hn. split.
  - destruct (Ho id c Hc) as [Hl Hfc]. split; apply map_Forall_insert_2; try done; [by apply (Hk id c)|].
    split; [done|by apply Hf].
  - intros i ci Hi. destruct (decide (i = id)) as [->|Hne].
    + rewrite lookup_insert_eq. eexists. split; [reflexivity|]. rewrite Hc in Hi. by injection Hi as <-.
    + rewrite lookup_insert_ne by done. exists ci. split; [done|lia].
Qed.

Lemma debit_kept s n : nonce (debit_balance s n).1 = nonce s /\ (fields_ok s -> fields_ok (debit_balance s n).1).
Proof.
  unfold debit_balance. destruct (i64_try_from n); [|done]. destruct (_ <=? _); [|done].
  split; [done|]. by intros [].
Qed.

Lemma credit_kept s n : nonce (credit_balance s n).1 = nonce s /\ (fields_ok s -> fields_ok (credit_balance s n).1).
Proof.
  unfold credit_balance. destruct (i64_try_from n); [|done]. destruct (checked_add_i64 _ _); [|done].
  split; [done|]. by intros [].
Qed.

Lemma increment_kept s : nonce s <= nonce (increment_nonce s).1 /\ (fields_ok s -> fields_ok (increment_nonce s).1).
Proof.
  split; [apply increment_nonce_grows|]. unfold increment_nonce. destruct (checked_add_u64 _ _); [|done].
  by intros [].
Qed.

Lemma charge_keeps turn L L1 r :
  charge turn L = Some (L1, r) -> cells_ok (cells L) -> cells_ok (cells L1) /\ cells_kept (cells L) (cells L1).
Proof.
  unfold charge. destruct (cells L !! t_agent turn) as [c|] eqn:Ec; [|discriminate]. cbn [mbind option_bind].
  change (c_state (invalidate_leaf_cache c)) with (c_state c).
  destruct (debit_kept (c_state c) (t_fee turn)) as [Hn1 Hf1].
  destruct (debit_balance (c_state c) (t_fee turn)) as [s1 ok]. cbn [fst] in *. destruct (increment_kept s1) as [Hn2 Hf2].
  destruct ok; cbn [negb].
  - destruct (increment_nonce s1) as [s2 ok']. cbn [fst] in *. intros [= <- <-] Hm. rewrite cells_get_mut, Ec.
    apply keep_state; [done|done|auto|lia].
  - intros [= <- <-] Hm. rewrite cells_get_mut, Ec. apply keep_state; [done|done|auto|lia].
Qed.

Lemma share_keeps L o n :
  cells_ok (cells L) -> cells_ok (cells (credit_share L o n).1) /\ cells_kept (cells L) (cells (credit_share L o n).1).
Proof.
  intros Hm. unfold credit_share. destruct o as [id|]; [|by split]. destruct (cells L !! id) as [c|] eqn:Ec.
  2:{ cbn [fst]. rewrite cells_get_mut, Ec. by split. }
  change (c_state (invalidate_leaf_cache c)) with (c_state c). destruct (credit_kept (c_state c) n) as [Hn Hf].
  destruct (credit_balance (c_state c) n) as [s ok]. cbn [fst] in *. rewrite cells_get_mut, Ec.
  apply keep_state; [done|done|auto|lia].
Qed.

Lemma distribute_keeps L p t w fee L' :
  distribute_fee_shares L p t w fee = Some L' -> cells_ok (cells L) ->
  cells_ok (cells L') /\ cells_kept (cells L) (cells L').
Proof.
  unfold distribute_fee_shares. destruct (checked_mul_u64 fee 3) as [m|]; [|discriminate].
  cbn [fmap option_fmap option_map mbind option_bind]. intros H Hm.
  destruct (share_keeps L p (fee / 2) Hm) as [Hm1 Hk1]. destruct (credit_share L p _) as [L1 ok1]. cbn [fst] in *.
  destruct (share_keeps L1 t (m / 10) Hm1) as [Hm2 Hk2]. destruct (credit_share L1 t _) as [L2 ok2]. cbn [fst] in *.
  injection H as <-. set (rest := fee - _). destruct (share_keeps L2 w rest Hm2) as [Hm3 Hk3].
  split; [done|]. by rewrite Hk1, Hk2.
Qed.

Context (ex : TurnExecutor) (cfg : NodeConfig).

Lemma stamps_keep l : forall st st' r, for_each (stamp_height ex) l st = Some (st', r) -> cells_ok (cells (x_ledger st)) ->
  cells_ok (cells (x_ledger st')) /\ cells_kept (cells (x_ledger st)) (cells (x_ledger st')).
Proof.
  induction l as [|id l IH]; intros st st' r; cbn [for_each]; [by intros [= <- <-]|].
  unfold bind. destruct (stamp_height ex id st) as [[st1 r1]|] eqn:E; [|discriminate]. cbn [mbind option_bind].
  intros H Hm. assert (H1 : cells_ok (cells (x_ledger st1)) /\ cells_kept (cells (x_ledger st)) (cells (x_ledger st1))).
  { unfold stamp_height, if_hosted in E. destruct (cells (x_ledger st) !! id) as [c|] eqn:Ec.
    - unfold on_cell in E. rewrite Ec in E. cbn beta in E. set (old := committed_height _) in E.
      destruct (old =? block_height ex); cbn [mbind option_bind] in E; injection E as <- <-;
        cbn [x_ledger record with_ledger]; rewrite cells_get_mut, Ec.
      + replace (invalidate_leaf_cache c) with (with_state (invalidate_leaf_cache c) (c_state c)) by (by destruct c).
        apply keep_state; [done|done|done|lia].
      + apply keep_state; [done|done| |done]. by intros [].
    - injection E as <- <-. cbn [x_ledger with_ledger]. rewrite cells_get_mut, Ec. by split. }
  destruct H1 as [Hm1 Hk1]. destruct r1 as [[]|e]; [|by injection H as <- <-].
  destruct (IH _ _ _ H Hm1) as [Hm2 Hk2]. split; [done|]. by rewrite Hk1.
Qed.

Lemma sets_kept_stamps l : forall st st' r, for_each (stamp_height ex) l st = Some (st', r) ->
  x_nullifiers st' = x_nullifiers st /\ x_commitments st' = x_commitments st /\ x_revoked st' = x_revoked st.
Proof.
  induction l as [|id l IH]; intros st st' r; cbn [for_each]; [by intros [= <- <-]|].
  unfold bind. destruct (stamp_height ex id st) as [[st1 r1]|] eqn:E; [|discriminate]. cbn [mbind option_bind].
  assert (H1 : x_nullifiers st1 = x_nullifiers st /\ x_commitments st1 = x_commitments st /\ x_revoked st1 = x_revoked st).
  { unfold stamp_height, if_hosted, on_cell in E. destruct (cells (x_ledger st) !! id).
    - destruct (_ =? _); cbn [mbind option_bind] in E; by injection E as <- <-.
    - by injection E as <- <-. }
  destruct H1 as (E1 & E2 & E3). destruct r1 as [[]|e]; [|by intros [= <- <-]].
  intros H. apply IH in H as (-> & -> & ->). done.
Qed.

(** A turn that carries no sovereign witness and makes no cell sovereign. *)
Definition ordinary (turn : Turn) : Prop :=
  t_sovereign_witnesses turn = [] /\ existsb makes_sovereign (total_effects (t_call_forest turn)) = false.

Lemma jsteps_ok st st' : rtc jstep st st' -> st_ok st -> st_ok st'.
Proof. induction 1; [done|]. intros Hok. eauto using jstep_ok. Qed.

(** The forest of an ordinary turn, and its rollback. *)
Lemma forest_keeps turn node L st1 r :
  ordinary turn -> st_ok (at_ledger (n_state node) L) -> run_from ex cfg turn node L = Some (st1, r) ->
  st_ok st1 /\ cells_kept (cells L) (cells (x_ledger st1)) /\
  exists st2, rollback st1 = Some st2 /\ st_ok st2 /\ cells_kept (cells L) (cells (x_ledger st2)).
Proof.
  intros [_ Hm] Hok Hrun. unfold run_from in Hrun. pose proof Hrun as Hsteps. apply traces_roots in Hsteps.
  apply grow_roots in Hrun as [Hg Hj]; [|exact Hm]. split; [by eapply jsteps_ok|]. split; [exact Hg|].
  destruct (run_restores _ st1 Hsteps Hok eq_refl) as (st2 & E & Rc & _ & _ & Rn & Rm & Rv).
  { intros k Hk. specialize (Hj eq_refl). unfold no_sov in Hj. rewrite forallb_forall in Hj.
    apply list_elem_of_In, Hj in Hk. discriminate Hk. }
  exists st2. split; [done|]. split.
  - pose proof Hok as [Hk Hc H1 H2 H3]. destruct (restored_cells_ok _ _ Rc Hk Hc). split; try done; congruence.
  - intros id c Hc. specialize (Rc id). cbn [x_ledger at_ledger] in Rc. rewrite Hc in Rc.
    inversion Rc as [? c1 Hre E1 E2|]; subst. exists c1. split; [done|].
    destruct (re_state _ _ Hre) as [Hs _]. apply (f_equal nonce) in Hs. cbn in Hs. lia.
Qed.

Lemma at_ledger_ok st L : st_ok st -> cells_ok (cells L) -> st_ok (at_ledger st L).
Proof. intros [_ _ H1 H2 H3] [Hk Ho]. by split. Qed.

Lemma st_cells_ok st : st_ok st -> cells_ok (cells (x_ledger st)).
Proof. by intros []. Qed.

(** Whatever becomes of an ordinary turn, the state stays well formed and no
    nonce goes back; once the forest ran, the nonce of the agent is past it. *)
Lemma execute_keeps turn node node' res :
  ordinary turn -> st_ok (n_state node) -> execute ex cfg turn node = Some (node', res) ->
  st_ok (n_state node') /\ cells_kept (cells (x_ledger (n_state node))) (cells (x_ledger (n_state node'))) /\
  ((exists e, res = Rejected e /\ n_state node' = n_state node) \/
   exists L1 r, admission ex cfg turn node = Ok tt /\ charge turn (x_ledger (n_state node)) = Some (L1, r) /\
     cells_kept (cells L1) (cells (x_ledger (n_state node')))).
Proof.
  intros Hord Hok. pose proof Hord as [Hw _]. unfold execute. destruct (admission ex cfg turn node) as [[]|e].
  2:{ intros [= <- <-]. split_and!; [done|done|]. left. by exists e. }
  destruct (open_gate turn (n_gate node)) as [gate [digest|e]].
  2:{ intros [= <- <-]. split_and!; [done|done|]. left. by exists e. }
  destruct (charge turn _) as [[L1 r]|] eqn:Ech; [|discriminate]. cbn [mbind option_bind].
  destruct (charge_keeps _ _ _ _ Ech (st_cells_ok _ Hok)) as [Hm1 Hk1].
  pose proof (at_ledger_ok _ _ Hok Hm1) as Hok1.
  assert (Hend : forall st, st_ok st -> cells_kept (cells L1) (cells (x_ledger st)) ->
    st_ok st /\ cells_kept (cells (x_ledger (n_state node))) (cells (x_ledger st)) /\
    ((exists e, res = Rejected e /\ st = n_state node) \/ exists L2 r', @Ok unit TurnError tt = Ok tt /\ Some (L1, r) = Some (L2, r') /\
       cells_kept (cells L2) (cells (x_ledger st)))).
  { intros st Ho Hk. split_and!; [done|by rewrite Hk1|]. right. exists L1, r. done. }
  destruct r as [[]|e]; [|intros [= <- <-]; by apply Hend].
  rewrite Hw. cbn [inject_all mbind option_bind]. fold (run_from ex cfg turn node L1).
  destruct (run_from ex cfg turn node L1) as [[st1 r]|] eqn:Er; [|discriminate]. cbn [mbind option_bind].
  destruct (forest_keeps _ _ _ _ _ Hord Hok1 Er) as (Ho1 & Hkf & st2 & Erb & Ho2 & Hk2).
  destruct (verdict turn st1 r) as [[used|e]|]; [| |discriminate]; cbn [mbind option_bind].
  - unfold commit_turn. rewrite Hw. cbn [commit_sovereigns mbind option_bind bump_sequences foldl].
    replace (with_ledger st1 (x_ledger st1)) with st1 by (by destruct st1).
    destruct (for_each _ _ _) as [[st3 r3]|] eqn:Es; [|discriminate]. cbn [mbind option_bind].
    destruct (distribute_fee_shares _ _ _ _ _) as [L|] eqn:Ed; [|discriminate]. intros [= <- _]. cbn [n_state].
    destruct (stamps_keep _ _ _ _ Es (st_cells_ok _ Ho1)) as [Hm3 Hk3].
    destruct (distribute_keeps _ _ _ _ _ _ Ed Hm3) as [Hm4 Hk4].
    apply Hend; [|by rewrite Hkf, Hk3].
    pose proof (sets_kept_stamps _ _ _ _ Es) as (S1 & S2 & S3). destruct Ho1 as [_ _ H1 H2 H3], Hm4 as [Hm4 Hm4'].
    split; try done; cbn; congruence.
  - unfold abort_turn. rewrite Erb, Hw. cbn [mbind option_bind remove_injected foldl]. intros [= <- _].
    apply Hend; [|done]. apply at_ledger_ok; [done|by apply st_cells_ok].
Qed.

End Replay.

Section Replays.
Context `{HB : Blake3} `{HC : ProgramCodec} `{HO : TurnOracles} `{HP : !ProgramSize} `{HK : !TurnChecks}
  `{HT : !TurnCrypto}.

(** One more ordinary turn, of anyone, under any executor and configuration. *)
Definition turn_step : relation Node := fun node node' =>
  exists ex cfg turn res, ordinary turn /\ execute ex cfg turn node = Some (node', res).

Lemma past_stays n agent node node' :
  rtc turn_step node node' -> st_ok (n_state node) -> past n agent node -> past n agent node'.
Proof.
  induction 1 as [|node node1 node' (ex & cfg & turn & res & Hord & Hx) _ IH]; [done|].
  intros Hok (c & Hc & Hn). destruct (execute_keeps ex cfg turn node node1 res Hord Hok Hx) as (Hok1 & Hk & _).
  apply IH; [done|]. destruct (Hk _ _ Hc) as (c1 & Hc1 & Hle). exists c1. split; [done|lia].
Qed.

(** C2: no turn runs twice.  Take an ordinary turn, one that carries no sovereign
    witness and whose forest makes no cell sovereign, with a fee and a nonce that
    fit: the fee a balance, the nonce below the largest.  Executed, it is either refused without effect on the state (at
    admission or by the budget gate), or its nonce is spent, committed and
    rejected alike: after any further ordinary turns of anyone, the same turn and
    every turn of that agent with that nonce or an earlier one is refused at
    admission, under any executor and configuration, and leaves the node as it is. *)
Theorem turn_never_replays (ex : TurnExecutor) (cfg : NodeConfig) (turn turn' : Turn) (node node' node'' : Node)
    (res : TurnResult) (ex' : TurnExecutor) (cfg' : NodeConfig) :
  ordinary turn -> turn_fits turn -> st_ok (n_state node) ->
  t_agent turn' = t_agent turn -> t_nonce turn' <= t_nonce turn ->
  execute ex cfg turn node = Some (node', res) -> rtc turn_step node' node'' ->
  (exists e, res = Rejected e /\ n_state node' = n_state node) \/
  (exists e, execute ex' cfg' turn' node'' = Some (node'', Rejected e)).
Proof.
  intros Hord Hfit Hok Ha Hle Hx Hlater.
  destruct (execute_keeps ex cfg turn node node' res Hord Hok Hx) as (Hok' & _ & [Hs|(L1 & r & Had & Hch & Hk)]);
    [by left|right].
  apply (past_refuses ex' cfg' turn' node'' (t_nonce turn)); [|done]. rewrite Ha.
  apply (past_stays _ _ node'); [done|done|]. destruct (admit_ok ex cfg turn node Had) as (c & Hc & Hn & Hb).
  rewrite (charge_ok turn _ c Hfit Hc Hn Hb) in Hch. injection Hch as <- _.
  destruct (Hk (t_agent turn) (charged turn c)) as (c1 & Hc1 & Hle1).
  { by rewrite cells_get_mut, Hc, lookup_insert_eq. }
  exists c1. split; [done|]. cbn in Hle1. lia.
Qed.

End Replays.

(** ** Witness *)

#[local] Existing Instance model_blake3.
#[local] Existing Instance model_codec.
#[local] Existing Instance model_oracles.
#[local] Existing Instance model_size.
#[local] Existing Instance model_checks.
#[local] Existing Instance model_crypto.

(** Another turn of the agent, chained to the receipt of the first. *)
Definition next_turn : Turn :=
  mkTurn (fill32 10) 1 (t_call_forest paying_turn) 6 None (Some (fill32 10)) None [] [].

Lemma two_turns_commit root : exists node' node'',
  execute turn_executor atomic_config paying_turn (atomic_node root) = Some (node', Committed 0) /\
  execute turn_executor atomic_config next_turn node' = Some (node'', Committed 0) /\
  (fun c => nonce (c_state c)) <$> cells (x_ledger (n_state node'')) !! fill32 10 = Some 2.
Proof.
  assert (H : match execute turn_executor atomic_config paying_turn (atomic_node root) with
    | Some (node', Committed 0) =>
        match execute turn_executor atomic_config next_turn node' with
        | Some (node'', Committed 0) =>
            (fun c => nonce (c_state c)) <$> cells (x_ledger (n_state node'')) !! fill32 10 = Some 2
        | _ => False
        end
    | _ => False
    end) by (vm_compute; reflexivity).
  destruct (execute _ _ paying_turn _) as [[node' [[]|]]|]; [|done..].
  destruct (execute _ _ next_turn _) as [[node'' [[]|]]|] eqn:E; [|done..]. by exists node', node''.
Qed.

Lemma turn_never_replays_witness :
  exists node' node'' e, rtc turn_step node' node'' /\
    (fun c => nonce (c_state c)) <$> cells (x_ledger (n_state node'')) !! fill32 10 = Some 2 /\
    execute turn_executor atomic_config paying_turn node'' = Some (node'', Rejected e).
Proof.
  destruct (fields_root_total []) as [root Hr]; [simpl length; lia|].
  destruct (two_turns_commit root) as (node' & node'' & Hx & Hx' & Hn).
  assert (Hstep : rtc turn_step node' node'').
  { apply rtc_once. exists turn_executor, atomic_config, next_turn, (Committed 0). split; [by split; vm_compute|done]. }
  destruct (turn_never_replays turn_executor atomic_config paying_turn paying_turn (atomic_node root) node' node''
              (Committed 0) turn_executor atomic_config) as [(e & He & _)|(e & He)].
  - split; vm_compute; reflexivity.
  - split; cbn; unfold i64_max, u64_max; lia.
  - exact (turn_state_ok root Hr).
  - reflexivity.
  - cbn. lia.
  - exact Hx.
  - exact Hstep.
  - discriminate He.
  - exists node', node'', e. split_and!; [exact Hstep|exact Hn|exact He].
Defined.
