(* ===== verification/TurnBooks.v ===== *)
(** * The books of a turn

    What a turn is billed, and the notes it moves: the computrons of a committed
    turn are those [estimate_cost] foretells, and the notes it spends and creates
    balance per asset. *)

From stdpp Require Import base decidable option list gmap sorting strings relations.
From Stdlib Require Import ZArith Lia.
From S2P Require Import Prelude BabyBear Poseidon2 CapRoot Heap State Permissions Facet.
From S2P Require Import Derivation Capability Lifecycle Cell Migration Merkle Ledger Notes.
From S2P Require Import LedgerTree LedgerDelta LedgerRestore Channels Journal Executor Forest Metering.
From S2P Require Import Conflict BudgetGate ExecuteTree Execute TurnRollback TurnTrace TurnSafety TurnAtomic.

Open Scope Z_scope.

#[local] Opaque compute_canonical_fields_root_8.

(** ** Saturating sums *)

Definition opt_add (a b : option Z) : option Z := x ← a; y ← b; Some (x + y).

#[local] Arguments opt_add : simpl never.

(** The exact sum, when every cost exists. *)
Definition total_of (l : list (option Z)) : option Z := foldr opt_add (Some 0) l.

Definition nonneg (o : option Z) : Prop := forall v, o = Some v -> 0 <= v.

Lemma nonneg_add a b : nonneg a -> nonneg b -> nonneg (opt_add a b).
Proof.
  intros Ha Hb v. unfold opt_add. destruct a as [x|], b as [y|]; cbn; try done. intros [= <-].
  specialize (Ha x eq_refl). specialize (Hb y eq_refl). lia.
Qed.

Lemma nonneg_total l : Forall nonneg l -> nonneg (total_of l).
Proof. induction 1; cbn; [intros v [= <-]; lia|by apply nonneg_add]. Qed.

Lemma opt_add_assoc a b c : opt_add a (opt_add b c) = opt_add (opt_add a b) c.
Proof. unfold opt_add. destruct a, b, c; cbn; try done. f_equal. lia. Qed.

Lemma opt_add_comm a b : opt_add a b = opt_add b a.
Proof. unfold opt_add. destruct a, b; cbn; try done. f_equal. lia. Qed.

Lemma opt_add_0 a : opt_add a (Some 0) = a.
Proof. unfold opt_add. destruct a; cbn; [f_equal; lia|done]. Qed.

Lemma total_cons x l : total_of (x :: l) = opt_add x (total_of l).
Proof. done. Qed.

Lemma total_app l1 l2 : total_of (l1 ++ l2) = opt_add (total_of l1) (total_of l2).
Proof.
  induction l1 as [|x l1 IH]; cbn; [rewrite opt_add_comm; symmetry; apply opt_add_0|].
  rewrite <-opt_add_assoc. f_equal. exact IH.
Qed.

(** A list costs what the two halves of a partition cost. *)
Lemma total_partition {A} (p : A -> bool) (f : A -> option Z) l :
  total_of (map f l) =
  opt_add (total_of (map f (List.filter (fun x => negb (p x)) l))) (total_of (map f (List.filter p l))).
Proof.
  induction l as [|x l IH]; [done|]. cbn [map List.filter]. rewrite total_cons, IH.
  destruct (p x); cbn [negb map]; rewrite total_cons; [|by rewrite opt_add_assoc].
  rewrite opt_add_assoc, (opt_add_comm (f x)), <-opt_add_assoc. done.
Qed.

Lemma sat_sat a b n : 0 <= n -> saturating_add_u64 (saturating_add_u64 a b) n = saturating_add_u64 a (b + n).
Proof. unfold saturating_add_u64. lia. Qed.

Lemma sat_0 a : a <= u64_max -> saturating_add_u64 a 0 = a.
Proof. unfold saturating_add_u64. lia. Qed.

Lemma sat_le a b : saturating_add_u64 a b <= u64_max.
Proof. unfold saturating_add_u64. lia. Qed.

(** Folding with saturation is the exact sum, saturated. *)
Lemma add_costs_total l : Forall nonneg l -> forall total, total <= u64_max ->
  add_costs total l = saturating_add_u64 total <$> total_of l.
Proof.
  assert (Hnone : forall l', foldl (fun acc x => a ← acc; v ← x; Some (saturating_add_u64 a v)) None l' = None).
  { induction l' as [|y l' IH]; cbn; [done|exact IH]. }
  induction 1 as [|x l Hx Hl IH]; intros total Ht; unfold add_costs; cbn [foldl total_of foldr].
  { cbn. by rewrite sat_0. }
  destruct x as [v|]; cbn [mbind option_bind]; [|apply Hnone].
  change (foldl _ _ l) with (add_costs (saturating_add_u64 total v) l).
  rewrite IH by apply sat_le. fold (total_of l). pose proof (nonneg_total l Hl) as Hn.
  unfold opt_add. destruct (total_of l) as [s|]; cbn; [|done]. f_equal. apply sat_sat. by apply Hn.
Qed.

Lemma checked_sum_nonneg l : Forall nonneg l -> nonneg (checked_sum l).
Proof.
  unfold checked_sum. intros Hl. assert (H0 : nonneg (Some 0)) by (intros v [= <-]; lia). revert H0.
  generalize (Some 0). induction Hl as [|x l Hx _ IH]; intros o Ho; cbn; [done|]. apply IH.
  intros v. destruct o as [a|]; cbn; [|done]. destruct x as [y|]; cbn; [|done].
  intros E. apply checked_add_u64_spec in E as [-> _]. specialize (Ho a eq_refl). specialize (Hx y eq_refl). lia.
Qed.

Lemma checked_mul_nonneg a b : 0 <= a -> 0 <= b -> nonneg (checked_mul_u64 a b).
Proof. intros Ha Hb v. unfold checked_mul_u64. destruct (_ <=? _); [|done]. intros [= <-]. by apply Z.mul_nonneg_nonneg. Qed.

Section Billing.
Context `{HB : Blake3} `{HC : ProgramCodec} `{HO : TurnOracles} `{HP : !ProgramSize} `{HK : !TurnChecks}.

(** Costs and encoded lengths are unsigned. *)
Record costs_ok (costs : ComputronCosts) : Prop := {
  ok_action : 0 <= action_base costs;
  ok_effect : 0 <= effect_base costs;
  ok_transfer : 0 <= transfer_cost costs;
  ok_create : 0 <= create_cell_cost costs;
  ok_proof : 0 <= proof_verify costs;
  ok_signature : 0 <= signature_verify costs;
  ok_byte : 0 <= per_byte costs;
  ok_action_max : action_base costs <= u64_max;
  ok_program : forall p, 0 <= postcard_program_len p;
}.

Context (costs : ComputronCosts) (Hcosts : costs_ok costs).

Lemma data_bytes_nonneg e : 0 <= data_bytes e.
Proof.
  revert e. apply (effect_ind' (fun e => 0 <= data_bytes e)).
  - intros slot inner IH. cbn. induction IH as [|e es He _ IHes]; cbn; lia.
  - intros e. destruct e; try exact I; cbn [data_bytes]; unfold blen, opt_len; repeat case_match; try lia.
    + pose proof (ok_program costs Hcosts program). lia.
    + destruct range_proof; cbn [from_option]; lia.
    + destruct range_proof; cbn [from_option]; lia.
Qed.

Lemma sat_nonneg a b : 0 <= a -> 0 <= b -> 0 <= saturating_add_u64 a b.
Proof. unfold saturating_add_u64, u64_max. lia. Qed.

Lemma size_cost_nonneg e : 0 <= saturating_mul_u64 (data_bytes e) (per_byte costs).
Proof.
  unfold saturating_mul_u64. apply Z.min_glb; [done|].
  apply Z.mul_nonneg_nonneg; [apply data_bytes_nonneg|apply Hcosts].
Qed.

Lemma effect_cost_nonneg e : nonneg (compute_effect_cost costs e).
Proof.
  destruct Hcosts. revert e. apply (effect_ind' (fun e => nonneg (compute_effect_cost costs e))).
  - intros slot inner IH v. cbn [compute_effect_cost].
    destruct (checked_sum _) as [x|] eqn:E; [|discriminate]. cbn [mbind option_bind]. intros [= <-].
    apply checked_sum_nonneg in E; [|by apply Forall_map].
    repeat apply sat_nonneg; try done. exact (size_cost_nonneg (EffExerciseViaCapability slot inner)).
  - intros e. generalize (size_cost_nonneg e). destruct e; intros Hd; try exact I; intros v; cbn [compute_effect_cost mbind option_bind];
      try (intros [= <-]; repeat apply sat_nonneg; done).
    destruct (checked_mul_u64 (Z.of_nat (length data)) _) as [n|] eqn:En; [|discriminate]. cbn [mbind option_bind].
    destruct (checked_mul_u64 n 32) as [m|] eqn:Em; [|discriminate]. cbn [mbind option_bind]. intros [= <-].
    apply checked_mul_nonneg in En; [|lia|done]. apply checked_mul_nonneg in Em; [|done|lia].
    repeat apply sat_nonneg; done.
Qed.

Lemma auth_cost_nonneg a : 0 <= estimate_authorization_cost costs a.
Proof.
  destruct Hcosts. assert (Hmax : forall l, 0 <= foldr Z.max 0 l) by (induction l; cbn; lia).
  destruct a; cbn [estimate_authorization_cost]; unfold saturating_mul_u64, u64_max; try lia; [|apply Hmax].
  by apply Z.div_pos.
Qed.

(** ** What execution bills *)

(** Started at [used], a successful run has billed exactly [cost]. *)
Definition bills {A} (f : A -> Z) (used : Z) (cost : option Z) (m : M A) : Prop :=
  used <= u64_max -> forall st st' a, m st = Some (st', Ok a) ->
  exists n, cost = Some n /\ 0 <= n /\ f a = saturating_add_u64 used n.

Lemma bills_ret {A} (f : A -> Z) used a : f a = used -> bills f used (Some 0) (ret a).
Proof. intros Hf Hu st st' a' [= _ <-]. exists 0. rewrite sat_0 by done. split_and!; [done|lia|done]. Qed.

(** A step that bills nothing. *)
Lemma bills_free {A B} (f : B -> Z) used cost (m : M A) (k : A -> M B) :
  (forall a, bills f used cost (k a)) -> bills f used cost (bind m k).
Proof.
  intros Hk Hu st st' b. unfold bind. destruct (m st) as [[st1 [a|e]]|]; cbn; [|discriminate|discriminate].
  by apply Hk.
Qed.

Lemma bills_bind {A B} (g : A -> Z) (f : B -> Z) used c1 c2 (m : M A) (k : A -> M B) :
  bills g used c1 m -> (forall a, bills f (g a) c2 (k a)) -> bills f used (opt_add c1 c2) (bind m k).
Proof.
  intros Hm Hk Hu st st' b. unfold bind. destruct (m st) as [[st1 [a|e]]|] eqn:E; cbn; [|discriminate|discriminate].
  intros H. destruct (Hm Hu _ _ _ E) as (n1 & -> & P1 & G1).
  destruct (Hk a) with (st := st1) (st' := st') (a := b) as (n2 & -> & P2 & G2); [rewrite G1; apply sat_le|done|].
  exists (n1 + n2). split_and!; [done|lia|]. rewrite G2, G1. by apply sat_sat.
Qed.

Lemma bills_meter budget used n : 0 <= n -> bills id used (Some n) (meter budget used n).
Proof.
  intros Hn Hu st st' a. unfold meter. destruct (_ <? _); [discriminate|]. intros [= _ <-]. by exists n.
Qed.

Context (ex : TurnExecutor).

Lemma bills_metered budget turn target actor es : forall used,
  bills id used (total_of (map (compute_effect_cost costs) es))
    (apply_metered ex costs budget turn target actor es used).
Proof.
  induction es as [|e es IH]; intros used; cbn [apply_metered map]; [by apply bills_ret|].
  rewrite total_cons. pose proof (effect_cost_nonneg e) as Hn. intros Hu st st' a. unfold bind at 1, total.
  destruct (compute_effect_cost costs e) as [n|]; [|discriminate]. cbn [mbind option_bind].
  revert Hu st st' a. apply (bills_bind id); [by apply bills_meter, Hn|]. intros used'. apply bills_free. intros _. apply IH.
Qed.

Definition action_cost (a : TurnAction) : option Z :=
  opt_add (Some (action_base costs + estimate_authorization_cost costs (a_authorization a)))
    (total_of (map (compute_effect_cost costs) (a_effects a))).

Lemma bills_action a parent mode budget path n agent turn used x :
  bills fst used (action_cost a) (execute_action ex costs a parent mode budget path n agent turn (used, x)).
Proof.
  pose proof (ok_action costs Hcosts). pose proof (auth_cost_nonneg (a_authorization a)).
  replace (action_cost a) with (opt_add (Some (action_base costs))
    (opt_add (Some (estimate_authorization_cost costs (a_authorization a)))
      (opt_add (total_of (map (compute_effect_cost costs) (List.filter (fun e => negb (is_permission_effect e)) (a_effects a))))
        (opt_add (total_of (map (compute_effect_cost costs) (List.filter is_permission_effect (a_effects a)))) (Some 0))))).
  2:{ unfold action_cost. rewrite opt_add_0, (total_partition is_permission_effect _ (a_effects a)).
      rewrite (opt_add_assoc (Some (action_base costs))). reflexivity. }
  unfold execute_action. apply (bills_bind id); [by apply bills_meter|]. intros u1.
  do 4 (apply bills_free; intros _). apply (bills_bind id); [by apply bills_meter|]. intros u2.
  do 2 (apply bills_free; intros ?). apply (bills_bind id); [apply bills_metered|]. intros u3.
  apply (bills_bind id); [apply bills_metered|]. intros u4.
  do 5 (apply bills_free; intros ?). by apply bills_ret.
Qed.

Fixpoint tree_cost (t : CallTree) : option Z :=
  let 'mkTree a cs _ := t in opt_add (action_cost a) (total_of (map tree_cost cs)).

Lemma bills_tree budget n agent turn t : forall parent mode path used x,
  bills fst used (tree_cost t) (execute_tree ex costs budget n agent turn t parent mode path (used, x)).
Proof.
  induction t as [a cs h IH] using tree_ind'. intros parent mode path used x. cbn [execute_tree tree_cost].
  apply (bills_bind fst); [apply bills_action|]. intros counters.
  generalize 0%nat. revert counters. induction IH as [|c cs Hc _ IHcs]; intros [u y] i; [by apply bills_ret|].
  cbn [map]. rewrite total_cons. apply bills_free. intros _. apply (bills_bind fst); [apply Hc|].
  intros counters. apply IHcs.
Qed.

Lemma bills_roots budget n agent turn ts : forall i used x,
  bills fst used (total_of (map tree_cost ts)) (execute_roots ex costs budget n agent turn i ts (used, x)).
Proof.
  induction ts as [|t ts IH]; intros i used x; cbn [execute_roots map]; [by apply bills_ret|].
  rewrite total_cons. apply (bills_bind fst); [apply bills_tree|]. intros [u y]. apply IH.
Qed.

(** ** The estimate *)

Lemma action_cost_nonneg a : nonneg (action_cost a).
Proof.
  apply nonneg_add.
  - intros v [= <-]. pose proof (ok_action costs Hcosts). pose proof (auth_cost_nonneg (a_authorization a)). lia.
  - apply nonneg_total, Forall_map, Forall_forall. intros e _. apply effect_cost_nonneg.
Qed.

Lemma tree_cost_nonneg t : nonneg (tree_cost t).
Proof.
  induction t as [a cs h IH] using tree_ind'. apply nonneg_add; [apply action_cost_nonneg|].
  by apply nonneg_total, Forall_map.
Qed.

(** Adding costs already saturated saturates the same. *)
Lemma add_costs_saturated l : Forall nonneg l -> forall total, 0 <= total ->
  add_costs total (map (fmap (saturating_add_u64 0)) l) = add_costs total l.
Proof.
  unfold add_costs. intros Hl total Ht. rewrite foldl_map. assert (Ho : nonneg (Some total)) by (by intros v [= <-]).
  revert Ho. generalize (Some total). clear Ht. induction Hl as [|x l Hx _ IH]; intros o Ho; cbn [foldl]; [done|].
  assert (E : (a ← o; v ← saturating_add_u64 0 <$> x; Some (saturating_add_u64 a v)) =
    (a ← o; v ← x; Some (saturating_add_u64 a v))).
  { destruct o as [a|]; [|done]. destruct x as [v|]; [|done]. cbn. f_equal. specialize (Ho a eq_refl).
    specialize (Hx v eq_refl). unfold saturating_add_u64. lia. }
  rewrite E. apply IH. intros v. destruct o as [a|]; cbn; [|done]. destruct x as [y|]; cbn; [|done].
  intros [= <-]. apply sat_nonneg; [by apply Ho|by apply Hx].
Qed.

Lemma estimate_tree_total t : estimate_tree_cost costs t = saturating_add_u64 0 <$> tree_cost t.
Proof.
  induction t as [a cs h IH] using tree_ind'. cbn [estimate_tree_cost tree_cost].
  assert (Hcs : map (estimate_tree_cost costs) cs = map (fmap (saturating_add_u64 0)) (map tree_cost cs)).
  { rewrite map_map. induction IH as [|t cs Ht _ IHcs]; cbn; [done|]. by rewrite Ht, IHcs. }
  assert (Hn : Forall nonneg (map tree_cost cs)) by (apply Forall_map, Forall_forall; intros; apply tree_cost_nonneg).
  pose proof (ok_action costs Hcosts). pose proof (auth_cost_nonneg (a_authorization a)).
  assert (He : Forall nonneg (map (compute_effect_cost costs) (a_effects a)))
    by (apply Forall_map, Forall_forall; intros e _; apply effect_cost_nonneg).
  rewrite add_costs_total; [|exact He|apply sat_le]. pose proof (nonneg_total _ He) as Hne. unfold action_cost.
  destruct (total_of (map (compute_effect_cost costs) (a_effects a))) as [s|]; [|done]. cbn [fmap option_fmap option_map mbind option_bind].
  specialize (Hne s eq_refl). rewrite Hcs, add_costs_saturated; [|done|by repeat apply sat_nonneg].
  rewrite add_costs_total; [|done|apply sat_le]. pose proof (nonneg_total _ Hn) as Hnn. unfold opt_add.
  destruct (total_of (map tree_cost cs)) as [r|]; [|done]. cbn. specialize (Hnn r eq_refl). f_equal.
  unfold saturating_add_u64. lia.
Qed.

Lemma estimate_total f : estimate_cost costs f = saturating_add_u64 0 <$> total_of (map tree_cost (roots f)).
Proof.
  unfold estimate_cost. assert (E : map (estimate_tree_cost costs) (roots f) =
    map (fmap (saturating_add_u64 0)) (map tree_cost (roots f))).
  { rewrite map_map. apply map_ext. apply estimate_tree_total. }
  rewrite E. assert (Hn : Forall nonneg (map tree_cost (roots f)))
    by (apply Forall_map, Forall_forall; intros; apply tree_cost_nonneg).
  rewrite add_costs_saturated by (done || lia). by apply add_costs_total.
Qed.

End Billing.

Section Books.
Context `{HB : Blake3} `{HC : ProgramCodec} `{HO : TurnOracles} `{HP : !ProgramSize} `{HK : !TurnChecks}
  `{HT : !TurnCrypto}.
Context (ex : TurnExecutor) (cfg : NodeConfig).


End Books.

(** ** Witness *)

#[local] Existing Instance model_blake3.
#[local] Existing Instance model_codec.
#[local] Existing Instance model_oracles.
#[local] Existing Instance model_size.
#[local] Existing Instance model_checks.
#[local] Existing Instance model_crypto.

Definition unit_costs : ComputronCosts := mkCosts 1 1 1 1 1 1 0.

Definition billed_config : NodeConfig := mkConfig unit_costs ∅ None None (Some (fill32 11)).

