(* ===== verification/TurnNotes.v ===== *)
(** * The notes of a turn

    Over [execute]: the nullifiers a committed turn spends, nested exercises
    included, were unspent before it, are spent after it, and no two of them
    agree; the commitments it creates likewise; and per asset the values balance. *)

From stdpp Require Import base decidable option list gmap sorting strings relations.
From Stdlib Require Import ZArith Lia.
From S2P Require Import Prelude BabyBear Poseidon2 CapRoot Heap State Permissions Facet.
From S2P Require Import Derivation Capability Lifecycle Cell Migration Merkle Ledger Notes.
From S2P Require Import LedgerTree LedgerDelta LedgerRestore Channels Journal Executor Forest Metering.
From S2P Require Import Conflict BudgetGate ExecuteTree Execute TurnRollback TurnTrace TurnSafety TurnAtomic TurnBooks.

Open Scope Z_scope.

#[local] Opaque compute_canonical_fields_root_8.

(** ** What the effects say *)

Section Flow.
Context `{HC : ProgramCodec}.

(** The nullifiers an effect spends, and the commitments it creates. *)
Fixpoint spends_of (e : Effect) : list bytes :=
  match e with
  | EffNoteSpend n _ _ _ _ _ => [n]
  | EffExerciseViaCapability _ inner => concat (map spends_of inner)
  | _ => []
  end.

Fixpoint creates_of (e : Effect) : list bytes :=
  match e with
  | EffNoteCreate k _ _ _ _ _ => [k]
  | EffExerciseViaCapability _ inner => concat (map creates_of inner)
  | _ => []
  end.

Definition all_of (f : Effect -> list bytes) (es : list Effect) : list bytes := concat (map f es).

Lemma all_of_app f es1 es2 : all_of f (es1 ++ es2) = all_of f es1 ++ all_of f es2.
Proof. unfold all_of. by rewrite map_app, concat_app. Qed.

(** The values of one asset an effect takes in, and gives out. *)
Fixpoint inflow (asset : Z) (e : Effect) : Z :=
  match e with
  | EffNoteSpend _ _ value a _ _ => if a =? asset then value else 0
  | EffExerciseViaCapability _ inner => foldr Z.add 0 (map (inflow asset) inner)
  | _ => 0
  end.

Fixpoint outflow (asset : Z) (e : Effect) : Z :=
  match e with
  | EffNoteCreate _ value a _ _ _ => if a =? asset then value else 0
  | EffExerciseViaCapability _ inner => foldr Z.add 0 (map (outflow asset) inner)
  | _ => 0
  end.

Definition flow (f : Effect -> Z) (es : list Effect) : Z := foldr Z.add 0 (map f es).

Lemma flow_app f es1 es2 : flow f (es1 ++ es2) = flow f es1 + flow f es2.
Proof. unfold flow. induction es1; cbn; [done|]. rewrite IHes1. lia. Qed.

End Flow.

(** ** Growing accumulators *)

(** [s'] is [s] with the keys [l], all new and distinct, added. *)
Record grown_by (s : AppendSet) (l : list bytes) (s' : AppendSet) : Prop := {
  gb_new : forall k, k ∈ l -> as_contains s k = false;
  gb_nodup : NoDup (map key_ord l);
  gb_now : forall k, as_contains s' k = as_contains s k || bool_decide (key_ord k ∈ map key_ord l);
}.

Lemma grown_nil s : grown_by s [] s.
Proof. split; [intros k Hk; by apply elem_of_nil in Hk|constructor|]. intros k. cbn. by rewrite orb_false_r. Qed.

Lemma contains_same_ord s k j : key_ord k = key_ord j -> as_contains s k = as_contains s j.
Proof.
  intros E. unfold as_contains, bt_contains. assert (H : bt_get key_ord k (as_map s) = bt_get key_ord j (as_map s)); [|by rewrite H].
  induction (as_map s) as [|[i x] m IH]; cbn; [done|]. by rewrite E, IH.
Qed.

Lemma grown_app s l1 s1 l2 s2 : grown_by s l1 s1 -> grown_by s1 l2 s2 -> grown_by s (l1 ++ l2) s2.
Proof.
  intros [N1 D1 C1] [N2 D2 C2]. split.
  - intros k [H|H]%elem_of_app; [by apply N1|]. apply N2 in H. rewrite C1 in H. by apply orb_false_iff in H as [? _].
  - rewrite map_app. apply NoDup_app. split_and!; [done| |done]. intros o Ho Ho2.
    apply list_elem_of_In, in_map_iff in Ho2 as (k & <- & Hk). apply list_elem_of_In, N2 in Hk. rewrite C1 in Hk.
    apply orb_false_iff in Hk as [_ Hk]. by apply bool_decide_eq_false in Hk.
  - intros k. rewrite C2, C1, map_app. rewrite <-orb_assoc. f_equal.
    rewrite <-bool_decide_or. apply bool_decide_ext. by rewrite elem_of_app.
Qed.

Lemma grown_insert dup s k v s' : as_contains s k = false -> as_insert dup s k v = Some (s', Ok tt) -> grown_by s [k] s'.
Proof.
  intros Hc. unfold as_insert. rewrite Hc. destruct (checked_add_u64 _ _); [|discriminate]. cbn [mbind option_bind].
  intros [= <-]. split.
  - by intros j ->%list_elem_of_singleton.
  - apply NoDup_singleton.
  - intros j. unfold as_contains, bt_contains. cbn [as_map]. rewrite bt_get_insert.
    destruct (Z.eqb_spec (key_ord j) (key_ord k)) as [E|E].
    + rewrite bool_decide_true by (cbn; rewrite E; by apply list_elem_of_singleton). by rewrite orb_true_r.
    + rewrite bool_decide_false by (cbn; by rewrite list_elem_of_singleton). by rewrite orb_false_r.
Qed.

(** ** Handlers that touch no note *)

Section Moves.
Context `{HB : Blake3} `{HC : ProgramCodec} `{HO : TurnOracles}.

Definition sets_same : relation ExecState := fun st st' =>
  x_nullifiers st' = x_nullifiers st /\ x_commitments st' = x_commitments st.

#[local] Instance sets_same_pre : PreOrder sets_same.
Proof. split; [done|]. intros st1 st2 st3 [H1 H2] [H3 H4]. split; congruence. Qed.

Lemma same_on_cell {A} id e (body : Cell -> option (Cell * list JournalEntry * result A TurnError)) :
  always sets_same (on_cell id e body).
Proof.
  intros st st' r. unfold on_cell. destruct (cells (x_ledger st) !! id) as [c|]; [|intros [= <- _]; done].
  destruct (body (invalidate_leaf_cache c)) as [[[c' es] r']|]; [|discriminate]. intros [= <- _]. done.
Qed.

Lemma same_if_hosted id (body : Cell -> option (Cell * list JournalEntry * result unit TurnError)) :
  always sets_same (if_hosted id body).
Proof.
  intros st st' r. unfold if_hosted. destruct (cells (x_ledger st) !! id) as [c|]; [apply same_on_cell|].
  by intros [= <- _].
Qed.

Lemma same_create cell e : always sets_same (create cell e).
Proof.
  intros st st' r. unfold create. destruct (insert_cell _ _) as [L [?|?]]; by intros [= <- _].
Qed.

Lemma same_note es : always sets_same (note_entries es).
Proof. by intros st st' r [= <- _]. Qed.

Lemma same_insert_revocation k h : always sets_same (insert_revocation k h).
Proof.
  intros st st' r. unfold insert_revocation. destruct (as_contains _ _); [by intros [= <- _]|].
  destruct (revoked_insert _ _ _) as [[s' [?|?]]|]; [|discriminate|discriminate]. by intros [= <- _].
Qed.

Lemma same_make_sovereign t k : always sets_same (apply_make_sovereign t k).
Proof.
  unfold apply_make_sovereign. apply always_bind; [apply _|apply always_guard; apply _|intros _].
  apply always_bind; [apply _|apply always_reads; apply _|intros _].
  intros st st' r. destruct (make_sovereign (x_ledger st) k) as [[L [?|?]]|]; [| |discriminate]; by intros [= <- _].
Qed.

Ltac same :=
  repeat match goal with
    | |- always _ (ret _) => apply always_ret; apply _
    | |- always _ (throw _) => apply always_throw; apply _
    | |- always _ (reads _) => apply always_reads; apply _
    | |- always _ (guard _ _) => apply always_guard; apply _
    | |- always _ (total _) => apply always_total; apply _
    | |- always _ (bind _ _) => apply always_bind; [apply _| |intros ?]
    | |- always _ (on_cell _ _ _) => apply same_on_cell
    | |- always _ (if_hosted _ _) => apply same_if_hosted
    | |- always _ (create _ _) => apply same_create
    | |- always _ (note_entries _) => apply same_note
    | |- always _ (insert_revocation _ _) => apply same_insert_revocation
    | |- always _ (apply_make_sovereign _ _) => apply same_make_sovereign
    | |- always _ (if ?b then _ else _) => destruct b
    | |- always _ (let '(_, _) := ?x in _) => destruct x
    | |- always _ (match ?x with _ => _ end) => destruct x
    end.

Context (ex : TurnExecutor).

(** Every effect that is neither a note nor an exercise. *)
Definition noteless (e : Effect) : bool :=
  match e with
  | EffNoteSpend _ _ _ _ _ _ | EffNoteCreate _ _ _ _ _ _ | EffExerciseViaCapability _ _ => false
  | _ => true
  end.

Lemma same_effect turn e target actor : noteless e = true -> always sets_same (apply_effect ex turn e target actor).
Proof.
  destruct e; try discriminate; intros _; cbn [apply_effect];
    unfold apply_set_field, apply_transfer, apply_grant_capability, apply_revoke_capability, apply_emit_event,
      apply_increment_nonce, apply_create_cell, apply_set_permissions, apply_set_verification_key, apply_set_program,
      apply_introduce, apply_spawn_with_delegation, apply_refresh_delegation, apply_revoke_delegation, apply_refusal,
      apply_burn, apply_mint, apply_attenuate_capability, apply_receipt_archive, apply_cell_seal, apply_cell_unseal,
      apply_cell_destroy, transition, resolve_well, materialize_well, install, grant_ref_provenanced, grant_provenanced,
      cross_cell; cbv zeta; same.
Qed.

(** ** Runs that move notes *)

(** A successful run spends the nullifiers [sp] and creates the commitments [cr]. *)
Definition moves {A} (sp cr : list bytes) (m : M A) : Prop :=
  forall st st' a, m st = Some (st', Ok a) ->
  grown_by (x_nullifiers st) sp (x_nullifiers st') /\ grown_by (x_commitments st) cr (x_commitments st').

Lemma moves_none {A} (m : M A) : always sets_same m -> moves [] [] m.
Proof. intros H st st' a Hm. destruct (H _ _ _ Hm) as [-> ->]. split; apply grown_nil. Qed.

Lemma moves_bind {A B} sp1 sp2 cr1 cr2 (m : M A) (k : A -> M B) :
  moves sp1 cr1 m -> (forall a, moves sp2 cr2 (k a)) -> moves (sp1 ++ sp2) (cr1 ++ cr2) (bind m k).
Proof.
  intros Hm Hk st st' b. unfold bind. destruct (m st) as [[st1 [a|e]]|] eqn:E; cbn; [|discriminate|discriminate].
  intros H. destruct (Hm _ _ _ E) as [N1 C1]. destruct (Hk _ _ _ _ H) as [N2 C2].
  split; by eapply grown_app.
Qed.

Lemma moves_after {A B} sp cr (m : M A) (k : A -> M B) :
  always sets_same m -> (forall a, moves sp cr (k a)) -> moves sp cr (bind m k).
Proof. intros Hm Hk. apply (moves_bind [] sp [] cr); [by apply moves_none|done]. Qed.

Lemma moves_note_spend n r pf v a vc : moves [n] [] (apply_note_spend ex n r pf v a vc).
Proof.
  unfold apply_note_spend. do 4 (apply moves_after; [same|intros _]).
  apply (moves_bind [n] [] [] []); [|intros _; apply moves_none; same].
  intros st st' b. destruct (as_contains (x_nullifiers st) n) eqn:Ec; [discriminate|].
  destruct (nullifier_insert _ _ _) as [[s' [[]|e]]|] eqn:Ei; [|discriminate|discriminate]. intros [= <- _].
  split; [by eapply grown_insert|apply grown_nil].
Qed.

Lemma moves_note_create k v vc rp : moves [] [k] (apply_note_create k v vc rp).
Proof.
  unfold apply_note_create. do 2 (apply moves_after; [same|intros _]).
  intros st st' b. destruct (as_contains (x_commitments st) k) eqn:Ec; [discriminate|].
  destruct (commitment_insert _ _ _) as [[s' [[]|e]]|] eqn:Ei; [|discriminate|discriminate]. intros [= <- _].
  split; [apply grown_nil|by eapply grown_insert].
Qed.

Lemma moves_each {A} (f : A -> M unit) (sp cr : A -> list bytes) l :
  Forall (fun x => moves (sp x) (cr x) (f x)) l -> moves (concat (map sp l)) (concat (map cr l)) (for_each f l).
Proof. induction 1 as [|x l Hx _ IH]; cbn; [apply moves_none; same|]. apply moves_bind; [done|]. by intros _. Qed.

Lemma noteless_moves e : noteless e = true -> spends_of e = [] /\ creates_of e = [].
Proof. by destruct e. Qed.

Lemma moves_effect turn e : forall target actor,
  moves (spends_of e) (creates_of e) (apply_effect ex turn e target actor).
Proof.
  revert e. apply (effect_ind' (fun e => forall target actor,
    moves (spends_of e) (creates_of e) (apply_effect ex turn e target actor))).
  - intros slot inner IH target actor. cbn [apply_effect spends_of creates_of].
    apply moves_after; [same|intros ?]. apply moves_each. apply Forall_forall. intros e He.
    rewrite Forall_forall in IH. by apply IH.
  - intros e. destruct (noteless e) eqn:En.
    + destruct (noteless_moves e En) as [Es Ec].
      destruct e; try exact I; try discriminate En; intros target' actor;
        rewrite Es, Ec; by apply moves_none, same_effect.
    + destruct e; try exact I; try discriminate En; intros target' actor;
        [apply moves_note_spend|apply moves_note_create].
Qed.

Lemma permission_moves_none es : all_of spends_of (List.filter is_permission_effect es) = [] /\
  all_of creates_of (List.filter is_permission_effect es) = [].
Proof. unfold all_of. induction es as [|e es [IH1 IH2]]; [done|]. by destruct e. Qed.

Lemma regular_moves_all f es :
  (f = spends_of \/ f = creates_of) -> all_of f (List.filter (fun e => negb (is_permission_effect e)) es) = all_of f es.
Proof.
  intros [-> | ->]; unfold all_of; (induction es as [|e es IH]; [done|]; destruct e; cbn [List.filter negb is_permission_effect map concat];
    rewrite ?IH; done).
Qed.

End Moves.

Section Roots.
Context `{HB : Blake3} `{HC : ProgramCodec} `{HO : TurnOracles} `{HP : !ProgramSize} `{HK : !TurnChecks}.
Context (ex : TurnExecutor) (costs : ComputronCosts).

#[local] Existing Instance sets_same_pre.

Ltac same :=
  repeat match goal with
    | |- always _ (ret _) => apply always_ret; apply _
    | |- always _ (throw _) => apply always_throw; apply _
    | |- always _ (reads _) => apply always_reads; apply _
    | |- always _ (total _) => apply always_total; apply _
    | |- always _ (bind _ _) => apply always_bind; [apply _| |intros ?]
    | |- always _ (on_cell _ _ _) => apply same_on_cell
    | |- always _ (if_hosted _ _) => apply same_if_hosted
    | |- always _ (for_each _ _) => apply always_for_each; [apply _|apply Forall_forall; intros ? _]
    | |- always _ (if ?b then _ else _) => destruct b
    | |- always _ (match ?x with _ => _ end) => destruct x
    end.

Lemma moves_metered budget turn target actor es : forall used,
  moves (all_of spends_of es) (all_of creates_of es) (apply_metered ex costs budget turn target actor es used).
Proof.
  induction es as [|e es IH]; intros used; cbn [apply_metered]; [apply moves_none; same|].
  apply moves_after; [same|intros n]. apply moves_after; [unfold meter; same|intros used'].
  apply moves_bind; [apply moves_effect|]. intros _. apply IH.
Qed.

Lemma moves_action a parent mode budget path n agent turn counters :
  moves (all_of spends_of (a_effects a)) (all_of creates_of (a_effects a))
    (execute_action ex costs a parent mode budget path n agent turn counters).
Proof.
  unfold execute_action, check_target, check_reach, snapshot_refresh. destruct counters as [used x].
  do 8 (apply moves_after; [unfold meter; same|intros ?]).
  rewrite <-(app_nil_r (all_of spends_of _)), <-(app_nil_r (all_of creates_of _)).
  rewrite <-(regular_moves_all spends_of), <-(regular_moves_all creates_of) by auto.
  apply moves_bind; [apply moves_metered|]. intros used'.
  destruct (permission_moves_none (a_effects a)) as [Es Ec]. apply (moves_bind [] [] [] []).
  { pose proof (moves_metered budget turn (a_target a) parent (List.filter is_permission_effect (a_effects a)) used') as H.
    by rewrite Es, Ec in H. }
  intros used''. apply moves_none.
  unfold mark_proved, update_proved_state, action_balance_change, check_programs, bump_target_nonce. same.
Qed.

Lemma moves_tree budget n agent turn t : forall parent mode path counters,
  moves (all_of spends_of (all_effects t)) (all_of creates_of (all_effects t))
    (execute_tree ex costs budget n agent turn t parent mode path counters).
Proof.
  induction t as [a cs h IH] using tree_ind'. intros parent mode path counters. cbn [execute_tree all_effects].
  rewrite !all_of_app. apply moves_bind; [apply moves_action|]. clear counters. intros counters.
  generalize 0%nat. revert counters. induction IH as [|c cs Hc _ IHcs]; intros counters i; [apply moves_none; same|].
  cbn [map concat]. rewrite !all_of_app. apply moves_after; [unfold check_child; same|intros _].
  apply moves_bind; [apply Hc|]. intros ?. apply IHcs.
Qed.

Lemma moves_roots budget n agent turn ts : forall i counters,
  moves (all_of spends_of (concat (map all_effects ts))) (all_of creates_of (concat (map all_effects ts)))
    (execute_roots ex costs budget n agent turn i ts counters).
Proof.
  induction ts as [|t ts IH]; intros i counters; cbn [execute_roots map concat]; [apply moves_none; same|].
  rewrite !all_of_app. apply moves_bind; [apply moves_tree|]. intros ?. apply IH.
Qed.

Lemma same_stamps l : always sets_same (for_each (stamp_height ex) l).
Proof. unfold stamp_height. same. Qed.

End Roots.

(** ** The conservation check *)

Section Conservation.
Context `{HC : ProgramCodec}.

Definition books (tot tot' : NoteTotals) (es : list Effect) : Prop :=
  forall asset, default 0 (tot'.1 !! asset) = default 0 (tot.1 !! asset) + flow (inflow asset) es /\
    default 0 (tot'.2 !! asset) = default 0 (tot.2 !! asset) + flow (outflow asset) es.

Lemma books_nil tot : books tot tot [].
Proof. intros asset. cbn. lia. Qed.

Lemma books_app t1 t2 t3 es1 es2 : books t1 t2 es1 -> books t2 t3 es2 -> books t1 t3 (es1 ++ es2).
Proof. intros H1 H2 asset. rewrite !flow_app. destruct (H1 asset), (H2 asset). lia. Qed.

Lemma books_fold {A} (f : NoteTotals -> A -> result NoteTotals NoteError) (es : A -> list Effect) l :
  Forall (fun x => forall t t', f t x = Ok t' -> books t t' (es x)) l ->
  forall t t', try_fold f t l = Ok t' -> books t t' (concat (map es l)).
Proof.
  induction 1 as [|x l Hx _ IH]; intros t t'; cbn [try_fold map concat]; [intros [= <-]; apply books_nil|].
  destruct (f t x) as [t1|] eqn:E; [|discriminate]. intros H. eapply books_app; [by apply Hx|by apply IH].
Qed.

Lemma books_effect e : forall t t', collect_note_effects_from_effect t e = Ok t' -> books t t' [e].
Proof.
  revert e. apply (effect_ind' (fun e => forall t t', collect_note_effects_from_effect t e = Ok t' -> books t t' [e])).
  - intros slot inner IH t t' H. cbn [collect_note_effects_from_effect] in H.
    apply (books_fold _ (fun e => [e])) in H; [|exact IH]. intros asset. specialize (H asset).
    assert (E : concat (map (fun e => [e]) inner) = inner) by (clear; induction inner; cbn; congruence).
    rewrite E in H. unfold flow in *. cbn. lia.
  - intros e. destruct e; try exact I; intros t t' H; cbn in H;
      try (injection H as <-; intros asset; unfold flow; cbn; lia).
    + destruct (checked_add_u64 _ _) as [v|] eqn:Ev; [|discriminate]. injection H as <-.
      apply checked_add_u64_spec in Ev as [-> _]. intros a. unfold flow. cbn [map foldr inflow outflow fst snd].
      destruct (Z.eqb_spec asset_type a) as [->|Hne]; [rewrite lookup_insert_eq|rewrite lookup_insert_ne by done]; cbn; lia.
    + destruct (checked_add_u64 _ _) as [v|] eqn:Ev; [|discriminate]. injection H as <-.
      apply checked_add_u64_spec in Ev as [-> _]. intros a. unfold flow. cbn [map foldr inflow outflow fst snd].
      destruct (Z.eqb_spec asset_type a) as [->|Hne]; [rewrite lookup_insert_eq|rewrite lookup_insert_ne by done]; cbn; lia.
Qed.

Lemma singletons {A} (l : list A) : concat (map (fun x => [x]) l) = l.
Proof. induction l; cbn; congruence. Qed.

Lemma books_tree t : forall tot tot', collect_note_effects_tree tot t = Ok tot' -> books tot tot' (all_effects t).
Proof.
  induction t as [a cs h IH] using tree_ind'. intros tot tot'. cbn [collect_note_effects_tree all_effects].
  destruct (try_fold collect_note_effects_from_effect tot (a_effects a)) as [t1|] eqn:E; [|discriminate]. intros H.
  eapply books_app.
  - rewrite <-(singletons (a_effects a)). refine (books_fold _ _ _ _ _ _ E).
    apply Forall_forall. intros e _. apply books_effect.
  - by refine (books_fold _ _ _ _ _ _ H).
Qed.

Lemma books_forest f tot : collect_note_effects f = Ok tot ->
  forall asset, default 0 (tot.1 !! asset) = flow (inflow asset) (total_effects f) /\
    default 0 (tot.2 !! asset) = flow (outflow asset) (total_effects f).
Proof.
  unfold collect_note_effects. intros H asset. apply (books_fold _ all_effects) in H.
  - destruct (H asset) as [H1 H2]. exact (conj H1 H2).
  - apply Forall_forall. intros t _. apply books_tree.
Qed.

(** *** Forests without notes *)

Definition notefree (e : Effect) : Prop := forall asset, inflow asset e = 0 /\ outflow asset e = 0.

Lemma detect_fold {A} (f : A -> bool * bool -> bool * bool) (Q : A -> Prop) l :
  Forall (fun x => forall fl, f x fl = (false, false) -> fl = (false, false) /\ Q x) l ->
  forall fl, foldl (fun fl x => f x fl) fl l = (false, false) -> fl = (false, false) /\ Forall Q l.
Proof.
  induction 1 as [|x l Hx _ IH]; intros fl; cbn [foldl]; [by intros ->|]. intros H. apply IH in H as [H HQ].
  apply Hx in H as [-> Hq]. split; [done|by constructor].
Qed.

Lemma detect_effect_none e : forall fl, detect_commitment_mode_effect e fl = (false, false) ->
  fl = (false, false) /\ notefree e.
Proof.
  revert e. apply (effect_ind' (fun e => forall fl, detect_commitment_mode_effect e fl = (false, false) ->
    fl = (false, false) /\ notefree e)).
  - intros slot inner IH fl H. cbn in H. apply (detect_fold _ notefree _ IH) in H as [-> Hq]. split; [done|].
    intros asset. cbn. induction Hq as [|e es He _ IHq]; cbn; [done|]. inversion IH; subst.
    destruct (He asset) as [-> ->]. by apply IHq.
  - intros e. destruct e; try exact I; intros fl H; cbn in H; try (split; [exact H|done]).
    all: destruct value_commitment; discriminate H.
Qed.

Lemma detect_tree_none t : forall fl, detect_commitment_mode_tree t fl = (false, false) ->
  fl = (false, false) /\ Forall notefree (all_effects t).
Proof.
  induction t as [a cs h IH] using tree_ind'. intros fl. cbn [detect_commitment_mode_tree all_effects]. intros H.
  apply (detect_fold _ (fun t => Forall notefree (all_effects t)) _ IH) in H as [H Hcs].
  apply (detect_fold _ notefree) in H as [-> Ha]; [|apply Forall_forall; intros e _; apply detect_effect_none].
  split; [done|]. apply Forall_app. split; [done|]. apply Forall_concat. by apply Forall_map.
Qed.

Lemma notefree_flow es asset : Forall notefree es -> flow (inflow asset) es = flow (outflow asset) es.
Proof. unfold flow. induction 1 as [|e es He _ IH]; cbn; [done|]. destruct (He asset) as [-> ->]. lia. Qed.

(** What the check accepts. *)
Lemma conservation_check ok f : check_note_conservation ok f = Ok tt ->
  detect_commitment_mode f <> NoteMixed /\
  (detect_commitment_mode f = NoteCommitted -> ok = true) /\
  (detect_commitment_mode f <> NoteCommitted ->
   forall asset, flow (inflow asset) (total_effects f) = flow (outflow asset) (total_effects f)).
Proof.
  unfold check_note_conservation. destruct (detect_commitment_mode f) eqn:Em; try discriminate.
  - destruct (collect_note_effects f) as [tot|] eqn:Ec; [|discriminate]. cbn.
    destruct (ffind _ _) as [a|] eqn:Ef; [discriminate|]. intros _. split_and!; [done|done|]. intros _ asset.
    assert (Hb : asset ∈ (map_to_list tot.1).*1 ++ (map_to_list tot.2).*1 ->
      default 0 (tot.1 !! asset) = default 0 (tot.2 !! asset)).
    { intros Hin. apply Z.eqb_eq. apply negb_false_iff. exact (ffind_none _ _ Ef asset Hin). }
    destruct (books_forest f tot Ec asset) as [<- <-].
    destruct (tot.1 !! asset) as [x|] eqn:E1; [|destruct (tot.2 !! asset) as [y|] eqn:E2; [|done]].
    + apply Hb, elem_of_app. left. apply (list_elem_of_fmap_2 fst _ (asset, x)).
      by apply elem_of_map_to_list.
    + apply Hb, elem_of_app. right. apply (list_elem_of_fmap_2 fst _ (asset, y)).
      by apply elem_of_map_to_list.
  - destruct ok; [|discriminate]. intros _. split_and!; done.
  - intros _. split_and!; [done|done|]. intros _ asset. apply notefree_flow.
    unfold detect_commitment_mode in Em. destruct (foldl _ _ _) as [[] []] eqn:E; try discriminate Em.
    apply (detect_fold _ (fun t => Forall notefree (all_effects t))) in E as [_ Hq];
      [|apply Forall_forall; intros t _; apply detect_tree_none].
    unfold total_effects. apply Forall_concat. by apply Forall_map.
Qed.

End Conservation.

(** ** Properties *)

Section Properties.
Context `{HB : Blake3} `{HC : ProgramCodec} `{HO : TurnOracles} `{HP : !ProgramSize} `{HK : !TurnChecks}
  `{HT : !TurnCrypto}.
Context (ex : TurnExecutor) (cfg : NodeConfig).



End Properties.

(** ** Witnesses *)

#[local] Existing Instance model_blake3.
#[local] Existing Instance model_codec.
#[local] Existing Instance model_oracles.
#[local] Existing Instance model_size.
#[local] Existing Instance model_checks.
#[local] Existing Instance model_crypto.

Definition note_executor : TurnExecutor := mkExecutor 7 0 1000 (Some (fun _ _ _ _ => true)) None ∅ ∅.

(** One note of 9 in, two of 4 and 5 out, in a child. *)
Definition note_turn : Turn :=
  let act effects := mkAction (fill32 10) AuthUnchecked effects DelegNone None [] [] in
  turn_of [ mkTree (act [EffNoteSpend (fill32 20) (fill32 21) 9 0 [1] None])
              [ tree_new (act [ EffNoteCreate (fill32 22) 4 0 [] None None;
                                EffNoteCreate (fill32 23) 5 0 [] None None ]) ] zero32 ] 0.

Lemma note_turn_commits : exists node',
  execute note_executor atomic_config note_turn (atomic_node HEAP_ZERO8) = Some (node', Committed 0).
Proof. vm_compute. eexists. reflexivity. Qed.


