(* ===== verification/VerifiedGate.v ===== *)
(** * The verified gate of the coordination layer

    Models [coord/src/verified_gate.rs]: the seam through which the coordination
    code asks an external oracle (a build may install none) and the text it
    exchanges with it.  Text is bytes; the decimal printing and parsing, the
    splitting and the joining are those of the language's library. *)

From stdpp Require Import base decidable option list strings.
From Stdlib Require Import ZArith Lia.
From S2P Require Import Prelude.

Open Scope Z_scope.

Inductive Verdict2pc : Type := V2Commit | V2Abort | V2Pending.

(** The methods of the trait; [None] of a method is an unavailable answer. *)
Record CoordVerifiedGate : Type := mkGate {
  distributed_exports_available : bool;
  ask_happened_before : bytes -> option bool;
  ask_decide_2pc : bytes -> option Verdict2pc;
  ask_shared_budget : bytes -> option bytes;
}.

(** The installed gate, set once. *)
Class InstalledGate := gate : option CoordVerifiedGate.

Definition register_coord_verified_gate (installed : option CoordVerifiedGate) (g : CoordVerifiedGate)
    : option CoordVerifiedGate :=
  match installed with Some g' => Some g' | None => Some g end.

(** ** Text *)

Definition char_semi : Z := 59.
Definition char_comma : Z := 44.
Definition char_plus : Z := 43.
Definition char_zero : Z := 48.

(** A [u64] has at most twenty digits. *)
Fixpoint digits_from (n : nat) (z : Z) (acc : bytes) : bytes :=
  match n with
  | O => acc
  | S n =>
      let acc := (char_zero + z mod 10) :: acc in
      if z <? 10 then acc else digits_from n (z / 10) acc
  end.

Definition u64_to_string (z : Z) : bytes := digits_from 20 z [].

Definition is_digit (c : Z) : bool := (char_zero <=? c) && (c <=? char_zero + 9).

Fixpoint parse_digits (acc : Z) (l : bytes) : option Z :=
  match l with
  | [] => Some acc
  | c :: l =>
      if is_digit c
      then a ← checked_mul_u64 acc 10; a ← checked_add_u64 a (c - char_zero); parse_digits a l
      else None
  end.

(** [str::parse::<u64>]: a leading plus sign is read over, nothing else is. *)
Definition parse_u64 (l : bytes) : option Z :=
  match l with
  | [] => None
  | c :: rest =>
      if c =? char_plus then match rest with [] => None | _ => parse_digits 0 rest end
      else parse_digits 0 l
  end.

(** [str::split]: one piece more than there are separators. *)
Fixpoint split_on (sep : Z) (l : bytes) : list bytes :=
  match l with
  | [] => [[]]
  | c :: l =>
      let rest := split_on sep l in
      if c =? sep then [] :: rest
      else match rest with
           | [] => [[c]]
           | p :: ps => (c :: p) :: ps
           end
  end.

Fixpoint join_with (sep : Z) (l : list bytes) : bytes :=
  match l with
  | [] => []
  | [x] => x
  | x :: l => x ++ sep :: join_with sep l
  end.

Fixpoint strip_prefix (p l : bytes) : option bytes :=
  match p, l with
  | [], _ => Some l
  | c :: p, d :: l => if c =? d then strip_prefix p l else None
  | _ :: _, [] => None
  end.

(** ** Printing and parsing *)

Lemma strip_prefix_app p l : strip_prefix p (p ++ l) = Some l.
Proof. induction p as [|c p IH]; cbn; [done|]. by rewrite Z.eqb_refl. Qed.

Lemma strip_prefix_some p : forall l r, strip_prefix p l = Some r -> l = p ++ r.
Proof.
  induction p as [|c p IH]; intros l r; cbn; [by intros [= ->]|]. destruct l as [|d l]; [done|].
  destruct (Z.eqb_spec c d) as [->|]; [|done]. intros H. by rewrite (IH l r H).
Qed.

(** The pieces, joined, are the text. *)
Lemma join_split sep l : join_with sep (split_on sep l) = l.
Proof.
  induction l as [|c l IH]; [done|]. cbn [split_on]. destruct (split_on sep l) as [|x ps] eqn:E; [by destruct l; cbn in E; repeat case_match|].
  destruct (Z.eqb_spec c sep) as [->|]; [cbn [join_with app]; by f_equal|].
  rewrite <-IH. by destruct ps.
Qed.

(** Digits of a number, most significant first. *)
Lemma digits_from_spec n : forall z acc, 0 <= z < 10 ^ Z.of_nat n -> (0 < n)%nat ->
  exists ds, digits_from n z acc = ds ++ acc /\ ds <> [] /\ Forall (fun c => is_digit c = true) ds /\
    forall a rest, 0 <= a -> a * 10 ^ Z.of_nat (length ds) + z <= u64_max ->
      parse_digits a (ds ++ rest) = parse_digits (a * 10 ^ Z.of_nat (length ds) + z) rest.
Proof.
  induction n as [|n IH]; intros z acc Hz Hn; [lia|]. cbn [digits_from].
  assert (Hd : is_digit (char_zero + z mod 10) = true).
  { pose proof (Z.mod_pos_bound z 10). unfold is_digit, char_zero. apply andb_true_iff. split; apply Z.leb_le; lia. }
  destruct (Z.ltb_spec z 10) as [Hs|Hs].
  - exists [char_zero + z mod 10]. split; [done|]. split; [done|]. split; [by constructor|].
    intros a rest Ha Hb. cbn [app parse_digits length] in *. rewrite Hd.
    rewrite Z.mod_small in * by lia. change (10 ^ Z.of_nat 1) with 10 in *. unfold checked_mul_u64, checked_add_u64.
    rewrite (proj2 (Z.leb_le _ _)) by lia. cbn. replace (char_zero + z - char_zero) with z by lia.
    rewrite (proj2 (Z.leb_le _ _)) by lia. done.
  - assert (Hn' : (0 < n)%nat) by (destruct n; [cbn in Hz; lia|lia]).
    destruct (IH (z / 10) ((char_zero + z mod 10) :: acc)) as (ds & E & Hne & Hall & Hp); [|done|].
    { rewrite Nat2Z.inj_succ, Z.pow_succ_r in Hz by lia. split; [apply Z.div_pos; lia|].
      apply Z.div_lt_upper_bound; lia. }
    exists (ds ++ [char_zero + z mod 10]). rewrite E, <- app_assoc. split; [done|]. split; [by destruct ds|].
    split; [apply Forall_app; split; [done|by constructor]|].
    intros a rest Ha Hb. rewrite length_app in *. cbn [length] in *. rewrite <- app_assoc. cbn [app].
    pose proof (Z.div_mod z 10 ltac:(lia)) as Hdm. pose proof (Z.mod_pos_bound z 10 ltac:(lia)) as Hm.
    rewrite Nat2Z.inj_add, Z.pow_add_r in * by lia. change (10 ^ Z.of_nat 1) with 10 in *.
    set (k := 10 ^ Z.of_nat (length ds)) in *. assert (Hk : 0 < k) by (apply Z.pow_pos_nonneg; lia).
    assert (Hak : 0 <= a * k) by nia. rewrite Z.mul_assoc in *.
    rewrite Hp by lia. cbn [parse_digits]. rewrite Hd. unfold checked_mul_u64, checked_add_u64.
    replace (char_zero + z mod 10 - char_zero) with (z mod 10) by lia.
    assert (Hz10 : (a * k + z / 10) * 10 + z mod 10 = a * k * 10 + z) by (rewrite Hdm at 3; ring).
    rewrite (proj2 (Z.leb_le _ _)) by lia. cbn [mbind option_bind]. rewrite Hz10.
    rewrite (proj2 (Z.leb_le _ _)) by lia. done.
Qed.

Lemma u64_to_string_spec z : is_u64 z ->
  Forall (fun c => is_digit c = true) (u64_to_string z) /\ parse_u64 (u64_to_string z) = Some z.
Proof.
  unfold is_u64. intros Hz. destruct (digits_from_spec 20 z []) as (ds & E & Hne & Hall & Hp).
  { unfold u64_max in Hz. change (10 ^ Z.of_nat 20) with 100000000000000000000. lia. } { lia. }
  unfold u64_to_string. rewrite E, app_nil_r. split; [done|]. unfold parse_u64.
  destruct ds as [|c ds]; [done|]. inversion Hall as [|? ? Hc]; subst.
  assert (Hplus : (c =? char_plus) = false).
  { apply Z.eqb_neq. unfold is_digit in Hc. apply andb_true_iff in Hc as [Hc _]. apply Z.leb_le in Hc.
    unfold char_plus, char_zero in *. lia. }
  rewrite Hplus. specialize (Hp 0 []). rewrite app_nil_r in Hp. rewrite Hp by lia. done.
Qed.

(** ** Splitting what was joined *)

Lemma split_on_nonempty sep l : split_on sep l <> [].
Proof. destruct l as [|c l]; cbn; [done|]. case_match; [done|]. by case_match. Qed.

Lemma split_on_free sep x : Forall (fun c => c <> sep) x -> split_on sep x = [x].
Proof.
  induction 1 as [|c x Hc _ IH]; cbn; [done|]. rewrite (proj2 (Z.eqb_neq _ _) Hc), IH. done.
Qed.

Lemma split_on_cons sep x l : Forall (fun c => c <> sep) x -> split_on sep (x ++ sep :: l) = x :: split_on sep l.
Proof.
  induction 1 as [|c x Hc _ IH]; cbn; [by rewrite Z.eqb_refl|].
  rewrite (proj2 (Z.eqb_neq _ _) Hc), IH. done.
Qed.

Lemma split_on_join sep l : l <> [] -> Forall (Forall (fun c => c <> sep)) l -> split_on sep (join_with sep l) = l.
Proof.
  intros Hne Hall. induction Hall as [|x l Hx Hl IH]; [done|]. destruct l as [|y l].
  - cbn [join_with]. by apply split_on_free.
  - change (join_with sep (x :: y :: l)) with (x ++ sep :: join_with sep (y :: l)).
    rewrite split_on_cons by done. by rewrite IH.
Qed.

Lemma digits_free sep l : is_digit sep = false -> Forall (fun c => is_digit c = true) l -> Forall (fun c => c <> sep) l.
Proof. intros Hs Hl. eapply Forall_impl; [exact Hl|]. cbn. intros c Hc ->. congruence. Qed.
