(* ===== verification/Stingray.v ===== *)
(** * Bounded counters and fast unlock

    Models [coord/src/budget.rs]: the slice a silo spends from, the counter that
    hands slices out and reconciles them, and the locks of proposals with the
    quorum that releases them.  Ed25519 is the interface [Ed25519].

    The products [2f] and [3f] of a fault bound panic past the width, which is an
    outer [None]; where the bound was checked against the number of silos they
    cannot. *)

From stdpp Require Import base decidable option list gmap sorting strings.
From Stdlib Require Import ZArith Lia.
From S2P Require Import Prelude.

Open Scope Z_scope.

Inductive BudgetError : Type :=
| SliceExhausted (agent : bytes) (rem requested : Z)
| InsufficientSilos (have need : Z)
| UnknownSilo (silo : bytes)
| WrongAgent (expected got : bytes)
| VersionMismatch (expected got : Z)
| DuplicateCertificate (silo : bytes)
| DuplicateDebit (digest : bytes)
| CertificateExceedsCeiling (silo : bytes) (claimed ceil : Z)
| AlreadyLocked (proposal : bytes)
| AlreadyReleased (proposal : bytes)
| LockNotFound (proposal : bytes)
| InsufficientUnlockVotes (have need : Z)
| ConflictingUnlock (silo proposal : bytes)
| IncompleteCertificates (received expected : Z)
| MissingSiloPubkey (silo : bytes)
| InvalidCertificateSignature (silo : bytes)
| InvalidUnlockVoteSignature (voter : bytes).

(** ** A slice *)

Record BudgetSlice : Type := mkBSlice {
  bs_agent : bytes;
  bs_version : Z;
  ceiling : Z;
  spent : Z;
  debits : list bytes;
  debit_set : gset bytes;
}.

Definition bslice_new (agent : bytes) (version ceil : Z) : BudgetSlice := mkBSlice agent version ceil 0 [] ∅.

Definition with_spent (s : BudgetSlice) (n : Z) : BudgetSlice :=
  mkBSlice (bs_agent s) (bs_version s) (ceiling s) n (debits s) (debit_set s).
Definition with_debits (s : BudgetSlice) (ds : list bytes) (set : gset bytes) : BudgetSlice :=
  mkBSlice (bs_agent s) (bs_version s) (ceiling s) (spent s) ds set.
Definition with_ceiling (s : BudgetSlice) (c : Z) : BudgetSlice :=
  mkBSlice (bs_agent s) (bs_version s) c (spent s) (debits s) (debit_set s).

(** The set is rebuilt when a slice is read back. *)
Definition from_repr (agent : bytes) (version ceil spent : Z) (ds : list bytes) : BudgetSlice :=
  mkBSlice agent version ceil spent ds (list_to_set ds).

Definition bslice_remaining (s : BudgetSlice) : Z := saturating_sub (ceiling s) (spent s).
Definition bslice_has_budget (s : BudgetSlice) : bool := 0 <? bslice_remaining s.

Definition bslice_try_debit (s : BudgetSlice) (amount : Z) (digest : bytes) : BudgetSlice * result unit BudgetError :=
  if bslice_remaining s <? amount then (s, Err (SliceExhausted (bs_agent s) (bslice_remaining s) amount))
  else (with_debits (with_spent s (saturating_add_u64 (spent s) amount)) (debits s ++ [digest])
          (debit_set s ∪ {[ digest ]}), Ok tt).

Definition bslice_try_debit_fresh (s : BudgetSlice) (amount : Z) (digest : bytes)
    : BudgetSlice * result unit BudgetError :=
  if bool_decide (digest ∈ debit_set s) then (s, Err (DuplicateDebit digest))
  else bslice_try_debit s amount digest.

Definition bslice_refund (s : BudgetSlice) (amount : Z) : BudgetSlice :=
  with_spent s (saturating_sub (spent s) amount).

Definition bslice_unwind_debit (s : BudgetSlice) (amount : Z) (digest : bytes) : BudgetSlice * bool :=
  match position_of_digest digest (debits s) with
  | Some pos =>
      (with_spent (with_debits s (swap_remove (debits s) pos) (debit_set s ∖ {[ digest ]}))
         (saturating_sub (spent s) amount), true)
  | None => (s, false)
  end.

Record SpendingCertificate : Type := mkCert {
  sc_silo : bytes;
  sc_agent : bytes;
  sc_version : Z;
  sc_total_spent : Z;
  sc_debits : list bytes;
  sc_signature : bytes;
}.

Definition cert_message (agent : bytes) (version total : Z) (silo : bytes) : bytes :=
  agent ++ le_bytes 8 version ++ le_bytes 8 total ++ silo.

Section Certificates.
Context `{HE : Ed25519}.

Definition certificate (s : BudgetSlice) (silo signing_key : bytes) : SpendingCertificate :=
  mkCert silo (bs_agent s) (bs_version s) (spent s) (debits s)
    (ed_sign signing_key (cert_message (bs_agent s) (bs_version s) (spent s) silo)).

Definition signing_message (c : SpendingCertificate) : bytes :=
  cert_message (sc_agent c) (sc_version c) (sc_total_spent c) (sc_silo c).

Definition verify_signature (c : SpendingCertificate) (pubkey : bytes) : bool :=
  ed_verify pubkey (signing_message c) (sc_signature c).

End Certificates.

(** ** The counter *)

Record StingrayCounter : Type := mkCounter {
  agent : bytes;
  silos : list bytes;
  byzantine_tolerance : Z;
  version : Z;
  silo_states : gmap bytes BudgetSlice;
  total_balance : Z;
  total_allocated : Z;
  silo_pubkeys : gmap bytes bytes;
}.

Definition with_states (c : StingrayCounter) (m : gmap bytes BudgetSlice) : StingrayCounter :=
  mkCounter (agent c) (silos c) (byzantine_tolerance c) (version c) m (total_balance c) (total_allocated c)
    (silo_pubkeys c).

(** [f + 1 <= 2f + 1], so the quotient is no larger than the balance. *)
Definition slice_ceiling_for (f balance : Z) : Z := balance * (f + 1) / (2 * f + 1).

Definition compute_slice_ceiling (c : StingrayCounter) : Z :=
  slice_ceiling_for (byzantine_tolerance c) (total_balance c).

(** One round of the loop over the silos. *)
Definition distribute_one (c : StingrayCounter) (ceil : Z) (acc : gmap bytes BudgetSlice * Z) (silo : bytes)
    : gmap bytes BudgetSlice * Z :=
  (<[silo := bslice_new (agent c) (version c) ceil]> acc.1, saturating_add_u64 acc.2 ceil).

Definition distribute_slices (c : StingrayCounter) : StingrayCounter :=
  let '(m, total) := foldl (distribute_one c (compute_slice_ceiling c)) (∅, 0) (silos c) in
  mkCounter (agent c) (silos c) (byzantine_tolerance c) (version c) m (total_balance c) total (silo_pubkeys c).

Definition counter_new (agent : bytes) (balance : Z) (silos : list bytes) (f : Z)
    : option (result StingrayCounter BudgetError) :=
  need ← (m ← checked_mul_u64 3 f; checked_add_u64 m 1);
  Some (if Z.of_nat (length silos) <? need then Err (InsufficientSilos (Z.of_nat (length silos)) need)
        else Ok (distribute_slices (mkCounter agent silos f 0 ∅ balance 0 ∅))).

Definition register_silo_pubkey (c : StingrayCounter) (silo pubkey : bytes) : StingrayCounter :=
  mkCounter (agent c) (silos c) (byzantine_tolerance c) (version c) (silo_states c) (total_balance c)
    (total_allocated c) (<[silo := pubkey]> (silo_pubkeys c)).

(** [silo_states.get_mut(&silo).ok_or(..)?] followed by an operation on the slice. *)
Definition on_slice {A} (c : StingrayCounter) (silo : bytes)
    (f : BudgetSlice -> BudgetSlice * result A BudgetError) : StingrayCounter * result A BudgetError :=
  match silo_states c !! silo with
  | None => (c, Err (UnknownSilo silo))
  | Some s => let '(s', r) := f s in (with_states c (<[silo := s']> (silo_states c)), r)
  end.

Definition try_debit (c : StingrayCounter) (silo : bytes) (amount : Z) (digest : bytes)
    : StingrayCounter * result unit BudgetError :=
  on_slice c silo (fun s => bslice_try_debit s amount digest).

Definition try_debit_fresh (c : StingrayCounter) (silo : bytes) (amount : Z) (digest : bytes)
    : StingrayCounter * result unit BudgetError :=
  on_slice c silo (fun s => bslice_try_debit_fresh s amount digest).

Definition refund (c : StingrayCounter) (silo : bytes) (amount : Z) : StingrayCounter * result unit BudgetError :=
  on_slice c silo (fun s => (bslice_refund s amount, Ok tt)).

Definition unwind_debit (c : StingrayCounter) (silo : bytes) (amount : Z) (digest : bytes)
    : StingrayCounter * result bool BudgetError :=
  on_slice c silo (fun s => let '(s', b) := bslice_unwind_debit s amount digest in (s', Ok b)).

Definition restore_unapplied (c : StingrayCounter) (silo : bytes) (amount : Z) (digest : bytes)
    : option (StingrayCounter * result unit BudgetError) :=
  let restored := saturating_add_u64 (total_balance c) amount in
  let ceil := slice_ceiling_for (byzantine_tolerance c) restored in
  match silo_states c !! silo with
  | None => Some (c, Err (UnknownSilo silo))
  | Some s =>
      if bool_decide (digest ∈ debit_set s) then Some (c, Err (DuplicateDebit digest))
      else if ceil <? saturating_add_u64 (spent s) amount
      then Some (c, Err (SliceExhausted (agent c) (saturating_sub ceil (spent s)) amount))
      else
        let m := (fun s => with_ceiling s ceil) <$> silo_states c in
        let total := foldl (fun acc _ => saturating_add_u64 acc ceil) 0 (map_to_list m) in
        let c' := mkCounter (agent c) (silos c) (byzantine_tolerance c) (version c) m restored total (silo_pubkeys c) in
        match try_debit_fresh c' silo amount digest with
        | (c'', Ok _) => Some (c'', Ok tt)
        | (_, Err _) => None
        end
  end.

Definition counter_remaining (c : StingrayCounter) (silo : bytes) : option Z :=
  bslice_remaining <$> silo_states c !! silo.

(** The sum panics past the width. *)
Definition total_spent (c : StingrayCounter) : option Z :=
  foldl (fun acc p => a ← acc; checked_add_u64 a (spent p.2)) (Some 0) (map_to_list (silo_states c)).

Section Rebalance.
Context `{HE : Ed25519}.

(** One certificate of the loop; [seen] are the silos so far. *)
Definition check_certificate (c : StingrayCounter) (acc : gset bytes * Z) (cert : SpendingCertificate)
    : result (gset bytes * Z) BudgetError :=
  let '(seen, total) := acc in
  if negb (bool_decide (sc_agent cert = agent c)) then Err (WrongAgent (agent c) (sc_agent cert))
  else if negb (sc_version cert =? version c) then Err (VersionMismatch (version c) (sc_version cert))
  else if bool_decide (sc_silo cert ∈ seen) then Err (DuplicateCertificate (sc_silo cert))
  else match silo_states c !! sc_silo cert with
  | None => Err (UnknownSilo (sc_silo cert))
  | Some s =>
      if ceiling s <? sc_total_spent cert
      then Err (CertificateExceedsCeiling (sc_silo cert) (sc_total_spent cert) (ceiling s))
      else match silo_pubkeys c !! sc_silo cert with
           | None => Err (MissingSiloPubkey (sc_silo cert))
           | Some pk =>
               if negb (verify_signature cert pk) then Err (InvalidCertificateSignature (sc_silo cert))
               else Ok (seen ∪ {[ sc_silo cert ]}, saturating_add_u64 total (sc_total_spent cert))
           end
  end.

Definition assume_missing (c : StingrayCounter) (seen : gset bytes) (total : Z) : Z :=
  foldl (fun acc silo => if bool_decide (silo ∈ seen) then acc
                         else saturating_add_u64 acc (compute_slice_ceiling c)) total (silos c).

(** The version counter panics past the width. *)
Definition open_epoch (c : StingrayCounter) (spent : Z) : option StingrayCounter :=
  let balance := if total_balance c <? spent then 0 else total_balance c - spent in
  v ← checked_add_u64 (version c) 1;
  Some (distribute_slices (mkCounter (agent c) (silos c) (byzantine_tolerance c) v (silo_states c) balance
          (total_allocated c) (silo_pubkeys c))).

Definition rebalance_inner (c : StingrayCounter) (certs : list SpendingCertificate) (require_all : bool)
    : option (StingrayCounter * result Z BudgetError) :=
  if require_all && (length certs <? length (silos c))%nat
  then Some (c, Err (IncompleteCertificates (Z.of_nat (length certs)) (Z.of_nat (length (silos c)))))
  else match try_fold (check_certificate c) (∅, 0) certs with
       | Err e => Some (c, Err e)
       | Ok (seen, total) =>
           let total := if require_all then total else assume_missing c seen total in
           c' ← open_epoch c total;
           Some (c', Ok total)
       end.

Definition rebalance (c : StingrayCounter) (certs : list SpendingCertificate) := rebalance_inner c certs true.
Definition rebalance_partial (c : StingrayCounter) (certs : list SpendingCertificate) := rebalance_inner c certs false.

End Rebalance.

(** ** Fast unlock *)

Inductive LockStatus : Type :=
| Locked (proposal_id : bytes) (amount : Z) (silo : bytes) (lock_version : Z)
| Released.

Record UnlockRequest : Type := mkRequest {
  ur_proposal_id : bytes;
  ur_agent : bytes;
  ur_amount : Z;
  ur_requester : bytes;
}.

#[global] Instance UnlockRequest_eq_dec : EqDecision UnlockRequest.
Proof. solve_decision. Defined.

Record UnlockVote : Type := mkVote {
  uv_request : UnlockRequest;
  uv_voter : bytes;
  uv_has_conflict : bool;
  uv_signature : bytes;
}.

Record UnlockCertificate : Type := mkUnlock {
  uc_request : UnlockRequest;
  uc_votes : list UnlockVote;
}.

Record FastUnlockManager : Type := mkManager {
  locks : gmap bytes LockStatus;
  fm_tolerance : Z;
  fm_total_silos : Z;
  fm_pubkeys : gmap bytes bytes;
}.

Definition manager_new (f n : Z) : FastUnlockManager := mkManager ∅ f n ∅.

Definition with_locks (m : FastUnlockManager) (l : gmap bytes LockStatus) : FastUnlockManager :=
  mkManager l (fm_tolerance m) (fm_total_silos m) (fm_pubkeys m).

Definition manager_register (m : FastUnlockManager) (silo pubkey : bytes) : FastUnlockManager :=
  mkManager (locks m) (fm_tolerance m) (fm_total_silos m) (<[silo := pubkey]> (fm_pubkeys m)).

Definition lock (m : FastUnlockManager) (proposal_id : bytes) (amount : Z) (silo : bytes) (v : Z)
    : FastUnlockManager * result unit BudgetError :=
  match locks m !! proposal_id with
  | Some _ => (m, Err (AlreadyLocked proposal_id))
  | None => (with_locks m (<[proposal_id := Locked proposal_id amount silo v]> (locks m)), Ok tt)
  end.

(** The lock of a proposal, released. *)
Definition release (m : FastUnlockManager) (proposal_id : bytes)
    : FastUnlockManager * result (Z * bytes) BudgetError :=
  match locks m !! proposal_id with
  | Some (Locked _ amount silo _) => (with_locks m (<[proposal_id := Released]> (locks m)), Ok (amount, silo))
  | Some Released => (m, Err (AlreadyReleased proposal_id))
  | None => (m, Err (LockNotFound proposal_id))
  end.

Definition release_on_commit (m : FastUnlockManager) (proposal_id : bytes)
    : FastUnlockManager * result Z BudgetError :=
  match release m proposal_id with
  | (m', Ok (amount, _)) => (m', Ok amount)
  | (m', Err e) => (m', Err e)
  end.

Definition vote_message (proposal_id voter : bytes) (conflict : bool) : bytes :=
  proposal_id ++ voter ++ [if conflict then 1 else 0].

Section Unlock.
Context `{HE : Ed25519}.

Definition vote_unlock (request : UnlockRequest) (voter : bytes) (has_signed_commit : bool) (signing_key : bytes)
    : UnlockVote :=
  mkVote request voter has_signed_commit
    (ed_sign signing_key (vote_message (ur_proposal_id request) voter has_signed_commit)).

Definition verify_vote (v : UnlockVote) (pubkey : bytes) : bool :=
  ed_verify pubkey (vote_message (ur_proposal_id (uv_request v)) (uv_voter v) (uv_has_conflict v)) (uv_signature v).

Definition check_vote (m : FastUnlockManager) (request : UnlockRequest) (seen : gset bytes) (v : UnlockVote)
    : result (gset bytes) BudgetError :=
  if negb (bool_decide (uv_request v = request)) then Err (InvalidUnlockVoteSignature (uv_voter v))
  else if bool_decide (uv_voter v ∈ seen) then Err (InvalidUnlockVoteSignature (uv_voter v))
  else match fm_pubkeys m !! uv_voter v with
       | None => Err (MissingSiloPubkey (uv_voter v))
       | Some pk => if verify_vote v pk then Ok (seen ∪ {[ uv_voter v ]})
                    else Err (InvalidUnlockVoteSignature (uv_voter v))
       end.

Definition apply_unlock_certificate (m : FastUnlockManager) (cert : UnlockCertificate)
    : option (FastUnlockManager * result (Z * bytes) BudgetError) :=
  quorum ← (q ← checked_mul_u64 2 (fm_tolerance m); checked_add_u64 q 1);
  let have := Z.of_nat (length (uc_votes cert)) in
  Some (
    if have <? quorum then (m, Err (InsufficientUnlockVotes have quorum))
    else match try_fold (check_vote m (uc_request cert)) ∅ (uc_votes cert) with
         | Err e => (m, Err e)
         | Ok _ =>
             match ffind uv_has_conflict (uc_votes cert) with
             | Some v => (m, Err (ConflictingUnlock (uv_voter v) (ur_proposal_id (uc_request cert))))
             | None => release m (ur_proposal_id (uc_request cert))
             end
         end).

Definition apply_unlock_and_refund (m : FastUnlockManager) (cert : UnlockCertificate) (c : StingrayCounter)
    : option (FastUnlockManager * StingrayCounter * result Z BudgetError) :=
  '(m', r) ← apply_unlock_certificate m cert;
  Some (match r with
        | Err e => (m', c, Err e)
        | Ok (amount, silo) => (m', (refund c silo amount).1, Ok amount)
        end).

End Unlock.

Definition is_locked (m : FastUnlockManager) (proposal_id : bytes) : bool :=
  match locks m !! proposal_id with Some (Locked _ _ _ _) => true | _ => false end.

Definition locked_amount (m : FastUnlockManager) (proposal_id : bytes) : option Z :=
  match locks m !! proposal_id with Some (Locked _ amount _ _) => Some amount | _ => None end.

(** ** The invariant *)

(** A slice of the current epoch, within its ceiling. *)
Record slice_of (c : StingrayCounter) (s : BudgetSlice) : Prop := {
  so_agent : bs_agent s = agent c;
  so_version : bs_version s = version c;
  so_ceiling : ceiling s = compute_slice_ceiling c;
  so_spent : 0 <= spent s <= ceiling s;
}.

Record counter_ok (c : StingrayCounter) : Prop := {
  ck_silos : NoDup (silos c);
  ck_known : forall silo, is_Some (silo_states c !! silo) <-> silo ∈ silos c;
  ck_slices : map_Forall (fun _ s => slice_of c s) (silo_states c);
  ck_faults : 0 <= byzantine_tolerance c /\ 3 * byzantine_tolerance c + 1 <= Z.of_nat (length (silos c));
  ck_balance : is_u64 (total_balance c);
}.

Lemma ceiling_bounds f b : 0 <= f -> 0 <= b -> 0 <= slice_ceiling_for f b <= b.
Proof. apply quorum_share_bounds. Qed.

Lemma ceiling_mono f b b' : 0 <= f -> b <= b' -> slice_ceiling_for f b <= slice_ceiling_for f b'.
Proof. apply quorum_share_mono. Qed.

(** What the distribution leaves. *)
Lemma distribute_lookup c ceil l m t silo :
  (foldl (distribute_one c ceil) (m, t) l).1 !! silo =
  if bool_decide (silo ∈ l) then Some (bslice_new (agent c) (version c) ceil) else m !! silo.
Proof.
  revert m t. induction l as [|x l IH]; intros m t.
  { rewrite bool_decide_false by apply not_elem_of_nil. done. }
  change (foldl (distribute_one c ceil) (m, t) (x :: l)) with
    (foldl (distribute_one c ceil) (<[x := bslice_new (agent c) (version c) ceil]> m, saturating_add_u64 t ceil) l).
  rewrite IH. destruct (decide (silo ∈ l)) as [Hin|Hout].
  - rewrite !bool_decide_true by (try done; by apply list_elem_of_further). done.
  - rewrite (bool_decide_false (silo ∈ l)) by done. destruct (decide (silo = x)) as [->|Hne].
    + rewrite bool_decide_true by apply list_elem_of_here. by rewrite lookup_insert_eq.
    + rewrite bool_decide_false by (rewrite elem_of_cons; naive_solver). by rewrite lookup_insert_ne.
Qed.

Lemma distribute_states c silo :
  silo_states (distribute_slices c) !! silo =
  if bool_decide (silo ∈ silos c) then Some (bslice_new (agent c) (version c) (compute_slice_ceiling c)) else None.
Proof.
  unfold distribute_slices. pose proof (distribute_lookup c (compute_slice_ceiling c) (silos c) ∅ 0 silo) as H.
  destruct (foldl _ _ _) as [m t]. cbn [fst silo_states] in *. by rewrite H, lookup_empty.
Qed.

Lemma distribute_rest c :
  agent (distribute_slices c) = agent c /\ silos (distribute_slices c) = silos c /\
  byzantine_tolerance (distribute_slices c) = byzantine_tolerance c /\ version (distribute_slices c) = version c /\
  total_balance (distribute_slices c) = total_balance c /\ silo_pubkeys (distribute_slices c) = silo_pubkeys c.
Proof. unfold distribute_slices. by destruct (foldl _ _ _) as [m t]. Qed.

Lemma distribute_ok c :
  NoDup (silos c) -> 0 <= byzantine_tolerance c -> 3 * byzantine_tolerance c + 1 <= Z.of_nat (length (silos c)) ->
  is_u64 (total_balance c) -> counter_ok (distribute_slices c).
Proof.
  intros Hnd Hf Hn Hb. destruct (distribute_rest c) as (Ea & Es & Ef & Ev & Et & _).
  split; rewrite ?Es, ?Ef, ?Et; try done.
  - intros silo. rewrite distribute_states. case_bool_decide; naive_solver.
  - intros silo s. rewrite distribute_states. case_bool_decide; [|done]. intros [= <-].
    destruct (ceiling_bounds (byzantine_tolerance c) (total_balance c)) as [H0 _]; [done|apply Hb|].
    split; cbn; try congruence; [unfold compute_slice_ceiling; congruence|]. unfold compute_slice_ceiling. lia.
Qed.

(** Writing one slice keeps the invariant. *)
Lemma on_slice_ok {A} c silo (f : BudgetSlice -> BudgetSlice * result A BudgetError) c' r :
  counter_ok c -> (forall s s' r', slice_of c s -> f s = (s', r') -> slice_of c s') ->
  on_slice c silo f = (c', r) -> counter_ok c'.
Proof.
  intros Hok Hf. unfold on_slice. destruct (silo_states c !! silo) as [s|] eqn:E; [|by intros [= <- _]].
  destruct (f s) as [s' r'] eqn:Ef. intros [= <- _]. pose proof (ck_slices c Hok silo s E) as Hs.
  specialize (Hf s s' r' Hs Ef). destruct Hok as [H1 H2 H3 H4 H5]. split; cbn; try done.
  - intros i. rewrite <-H2. destruct (decide (i = silo)) as [->|Hne].
    + rewrite lookup_insert_eq, E. naive_solver.
    + by rewrite lookup_insert_ne.
  - intros i si Hi. destruct (decide (i = silo)) as [->|Hne].
    + rewrite lookup_insert_eq in Hi. injection Hi as <-. destruct Hf. by split.
    + rewrite lookup_insert_ne in Hi by done. destruct (H3 i si Hi). by split.
Qed.

(** *** The operations on a slice *)

Lemma debit_ok c s amount d s' r :
  0 <= amount -> is_u64 (total_balance c) -> 0 <= byzantine_tolerance c ->
  slice_of c s -> bslice_try_debit s amount d = (s', r) ->
  slice_of c s' /\ (r = Ok tt -> spent s' = spent s + amount).
Proof.
  intros Ha Hb Hf [H1 H2 H3 H4]. unfold bslice_try_debit.
  destruct (Z.ltb_spec (bslice_remaining s) amount) as [|Hle]; intros [= <- <-]; [split; [by split|done]|].
  destruct (ceiling_bounds _ _ Hf (proj1 Hb)) as [_ Hc]. unfold compute_slice_ceiling in H3.
  unfold bslice_remaining, saturating_sub in Hle. unfold is_u64 in Hb.
  assert (E : saturating_add_u64 (spent s) amount = spent s + amount) by (unfold saturating_add_u64; lia).
  split; [split; cbn; rewrite ?E; try done; lia|]. intros _. exact E.
Qed.

Lemma refund_ok c s amount : 0 <= amount -> slice_of c s -> slice_of c (bslice_refund s amount).
Proof. intros Ha [H1 H2 H3 H4]. split; try done. cbn. unfold saturating_sub. lia. Qed.

Lemma unwind_ok c s amount d s' b :
  0 <= amount -> slice_of c s -> bslice_unwind_debit s amount d = (s', b) -> slice_of c s'.
Proof.
  intros Ha Hs. unfold bslice_unwind_debit. destruct (position_of_digest _ _); intros [= <- _]; [|done].
  destruct Hs. split; try done. cbn. unfold saturating_sub. lia.
Qed.

(** ** Histories *)

Inductive CounterOp : Type :=
| OpDebit (silo : bytes) (amount : Z) (digest : bytes)
| OpDebitFresh (silo : bytes) (amount : Z) (digest : bytes)
| OpRefund (silo : bytes) (amount : Z)
| OpUnwind (silo : bytes) (amount : Z) (digest : bytes)
| OpRestore (silo : bytes) (amount : Z) (digest : bytes)
| OpRegister (silo pubkey : bytes)
| OpRebalance (certs : list SpendingCertificate) (require_all : bool).

(** Amounts are unsigned, in certificates too. *)
Definition op_unsigned (op : CounterOp) : Prop :=
  match op with
  | OpDebit _ n _ | OpDebitFresh _ n _ | OpRefund _ n | OpUnwind _ n _ | OpRestore _ n _ => 0 <= n
  | OpRegister _ _ => True
  | OpRebalance certs _ => Forall (fun k => 0 <= sc_total_spent k) certs
  end.

Section History.
Context `{HE : Ed25519}.

Definition run_op (c : StingrayCounter) (op : CounterOp) : option StingrayCounter :=
  match op with
  | OpDebit silo n d => Some (try_debit c silo n d).1
  | OpDebitFresh silo n d => Some (try_debit_fresh c silo n d).1
  | OpRefund silo n => Some (refund c silo n).1
  | OpUnwind silo n d => Some (unwind_debit c silo n d).1
  | OpRestore silo n d => fst <$> restore_unapplied c silo n d
  | OpRegister silo pk => Some (register_silo_pubkey c silo pk)
  | OpRebalance certs all => fst <$> rebalance_inner c certs all
  end.

Inductive counter_reachable : StingrayCounter -> Prop :=
| cr_new a b l f c : is_u64 b -> 0 <= f -> NoDup l -> counter_new a b l f = Some (Ok c) -> counter_reachable c
| cr_op c op c' : counter_reachable c -> op_unsigned op -> run_op c op = Some c' -> counter_reachable c'.

Lemma counter_new_ok a b l f c :
  is_u64 b -> 0 <= f -> NoDup l -> counter_new a b l f = Some (Ok c) -> counter_ok c.
Proof.
  intros Hb Hf Hnd. unfold counter_new. destruct (checked_mul_u64 3 f) as [m|] eqn:Em; [|discriminate].
  cbn [mbind option_bind]. unfold checked_mul_u64 in Em. destruct (_ <=? _); [|discriminate]. injection Em as <-.
  destruct (checked_add_u64 _ _) as [need|] eqn:En; [|discriminate]. apply checked_add_u64_spec in En as [-> _].
  cbn [mbind option_bind]. destruct (Z.ltb_spec (Z.of_nat (length l)) (3 * f + 1)); [discriminate|].
  intros [= <-]. by apply distribute_ok.
Qed.

Lemma spent_sum_nonneg c certs acc seen total :
  Forall (fun k => 0 <= sc_total_spent k) certs -> 0 <= acc.2 ->
  try_fold (check_certificate c) acc certs = Ok (seen, total) -> 0 <= total.
Proof.
  intros Hc. revert acc. induction Hc as [|k certs Hk _ IH]; intros [s t] Ht; cbn [try_fold]; [by intros [= _ <-]|].
  destruct (check_certificate c (s, t) k) as [acc'|] eqn:E; [|discriminate]. apply IH.
  unfold check_certificate in E. repeat (case_match; try discriminate). injection E as <-. cbn in *.
  unfold saturating_add_u64, u64_max. lia.
Qed.

Lemma assume_missing_le c seen total : 0 <= compute_slice_ceiling c -> 0 <= total -> 0 <= assume_missing c seen total.
Proof.
  intros Hc. unfold assume_missing. revert total. induction (silos c) as [|x l IH]; intros total Ht; cbn; [done|].
  apply IH. case_bool_decide; [done|]. unfold saturating_add_u64, u64_max. lia.
Qed.

Lemma open_epoch_ok c n c' : counter_ok c -> 0 <= n -> open_epoch c n = Some c' -> counter_ok c'.
Proof.
  intros [H1 H2 H3 [H4 H4'] H5] Hn. unfold open_epoch. destruct (checked_add_u64 _ _); [|discriminate].
  cbn [mbind option_bind]. intros [= <-]. apply distribute_ok; cbn; try done.
  unfold is_u64 in *. destruct (Z.ltb_spec (total_balance c) n); lia.
Qed.

Lemma restore_ok_inv c silo n d c' r :
  0 <= n -> counter_ok c -> restore_unapplied c silo n d = Some (c', r) -> counter_ok c'.
Proof.
  intros Hn Hok. unfold restore_unapplied. destruct (silo_states c !! silo) as [s|] eqn:Es; [|by intros [= <- _]].
  case_bool_decide; [by intros [= <- _]|]. destruct (_ <? _); [by intros [= <- _]|].
  set (c1 := mkCounter _ _ _ _ _ _ _ _). assert (Hc1 : counter_ok c1).
  { destruct Hok as [H1 H2 H3 [H4 H4'] H5]. unfold is_u64 in H5. subst c1. split; cbn; try done.
    - intros i. rewrite lookup_fmap, <-H2. destruct (silo_states c !! i); naive_solver.
    - intros i si. rewrite lookup_fmap. destruct (silo_states c !! i) as [s0|] eqn:Ei; [|discriminate].
      intros [= <-]. destruct (H3 i s0 Ei) as [A1 A2 A3 A4]. split; try done. cbn. unfold compute_slice_ceiling in *.
      cbn. split; [lia|]. rewrite A3 in A4. etransitivity; [apply A4|]. apply ceiling_mono; [done|].
      unfold saturating_add_u64. lia.
    - unfold is_u64, saturating_add_u64, u64_max in *. lia. }
  destruct (try_debit_fresh c1 silo n d) as [c2 [[]|e]] eqn:Ed; [|discriminate]. intros [= <- _].
  eapply on_slice_ok; [exact Hc1| |exact Ed]. intros s0 s1 r1 Hs. unfold bslice_try_debit_fresh.
  case_bool_decide; [by intros [= <- _]|]. intros Hd. destruct Hc1 as [_ _ _ [? _] ?]. by eapply debit_ok in Hd as [? _].
Qed.

Lemma run_op_ok c op c' : op_unsigned op -> counter_ok c -> run_op c op = Some c' -> counter_ok c'.
Proof.
  intros Hop Hok. pose proof (ck_faults c Hok) as [Hf _]. pose proof (ck_balance c Hok) as Hb.
  destruct op; cbn [run_op op_unsigned] in *.
  - unfold try_debit. destruct (on_slice _ _ _) as [c1 r] eqn:E. intros [= <-]. eapply on_slice_ok; [done| |exact E].
    intros s s' r' Hs Hd. by eapply debit_ok in Hd as [? _].
  - unfold try_debit_fresh. destruct (on_slice _ _ _) as [c1 r] eqn:E. intros [= <-]. eapply on_slice_ok; [done| |exact E].
    intros s s' r' Hs. unfold bslice_try_debit_fresh. case_bool_decide; [by intros [= <- _]|]. intros Hd. by eapply debit_ok in Hd as [? _].
  - unfold refund. destruct (on_slice _ _ _) as [c1 r] eqn:E. intros [= <-]. eapply on_slice_ok; [done| |exact E].
    intros s s' r' Hs [= <- _]. by apply refund_ok.
  - unfold unwind_debit. destruct (on_slice _ _ _) as [c1 r] eqn:E. intros [= <-]. eapply on_slice_ok; [done| |exact E].
    intros s s' r' Hs. cbn beta. destruct (bslice_unwind_debit s amount digest) as [s1 b] eqn:Eu. intros [= <- _]. exact (unwind_ok c s amount digest s1 b Hop Hs Eu).
  - destruct (restore_unapplied _ _ _ _) as [[c1 r]|] eqn:E; [|discriminate]. intros [= <-]. exact (restore_ok_inv c silo amount digest c1 r Hop Hok E).
  - intros [= <-]. destruct Hok as [H1 H2 H3 H4 H5]. split; try done. intros i s Hi. destruct (H3 i s Hi). by split.
  - unfold rebalance_inner. destruct (_ && _); [by intros [= <-]|].
    destruct (try_fold _ _ _) as [[seen total]|] eqn:E; [|by intros [= <-]].
    apply spent_sum_nonneg in E; [|done|done]. destruct (open_epoch _ _) as [c1|] eqn:Eo; [|discriminate].
    cbn. intros [= <-]. eapply open_epoch_ok; [done| |exact Eo]. destruct require_all; [done|].
    apply assume_missing_le; [|done]. apply ceiling_bounds; [done|apply Hb].
Qed.

Lemma counter_reachable_ok c : counter_reachable c -> counter_ok c.
Proof. induction 1; [by eapply counter_new_ok|by eapply run_op_ok]. Qed.

End History.

(** ** Rebalancing *)

Definition spent_of (c : StingrayCounter) (silo : bytes) : Z := from_option spent 0 (silo_states c !! silo).

Section Reconcile.
Context `{HE : Ed25519}.

(** A certificate the loop accepts. *)
Record accepted (c : StingrayCounter) (k : SpendingCertificate) : Prop := {
  ac_agent : sc_agent k = agent c;
  ac_version : sc_version k = version c;
  ac_spent : exists s, silo_states c !! sc_silo k = Some s /\ sc_total_spent k <= ceiling s;
  ac_signed : exists pk, silo_pubkeys c !! sc_silo k = Some pk /\ verify_signature k pk = true;
}.

Lemma check_certificate_ok c seen total k acc :
  check_certificate c (seen, total) k = Ok acc ->
  accepted c k /\ (sc_silo k ∉ seen) /\ acc = (seen ∪ {[ sc_silo k ]}, saturating_add_u64 total (sc_total_spent k)).
Proof.
  unfold check_certificate. case_bool_decide; [cbn [negb]|discriminate].
  destruct (Z.eqb_spec (sc_version k) (version c)); [cbn [negb]|discriminate]. case_bool_decide; [discriminate|].
  destruct (silo_states c !! sc_silo k) as [s|] eqn:Es; [|discriminate].
  destruct (Z.ltb_spec (ceiling s) (sc_total_spent k)); [discriminate|].
  destruct (silo_pubkeys c !! sc_silo k) as [pk|] eqn:Ep; [|discriminate].
  destruct (verify_signature k pk) eqn:Ev; [|discriminate]. intros [= <-].
  split; [|done]. split; [done|done|by exists s|by exists pk].
Qed.

Lemma check_certificate_accepts c seen total k :
  accepted c k -> sc_silo k ∉ seen ->
  check_certificate c (seen, total) k = Ok (seen ∪ {[ sc_silo k ]}, saturating_add_u64 total (sc_total_spent k)).
Proof.
  intros [H1 H2 (s & Es & Hle) (pk & Ep & Ev)] Hns. unfold check_certificate.
  rewrite bool_decide_true by done. cbn [negb]. rewrite (proj2 (Z.eqb_eq _ _) H2). cbn [negb].
  rewrite bool_decide_false by done. rewrite Es, (proj2 (Z.ltb_ge _ _) Hle), Ep, Ev. done.
Qed.

(** The whole loop: distinct silos, and the saturated sum. *)
Lemma certificates_loop c certs : forall seen total seen' total',
  Forall (fun k => 0 <= sc_total_spent k) certs -> total <= u64_max ->
  try_fold (check_certificate c) (seen, total) certs = Ok (seen', total') ->
  Forall (accepted c) certs /\ NoDup (map sc_silo certs) /\ (forall x, x ∈ map sc_silo certs -> x ∉ seen) /\
  total' = saturating_add_u64 total (sum_over sc_total_spent certs).
Proof.
  induction certs as [|k certs IH]; intros seen total seen' total' Hn Ht; cbn [try_fold map].
  { intros [= <- <-]. split_and!; [constructor|constructor|intros x Hx; by apply elem_of_nil in Hx|].
    unfold saturating_add_u64, sum_over; cbn. lia. }
  destruct (check_certificate c (seen, total) k) as [acc|] eqn:E; [|discriminate]. intros Hrest.
  apply check_certificate_ok in E as (Hk & Hns & ->). inversion Hn as [|? ? Hk0 Hn']; subst.
  apply IH in Hrest as (Ha & Hnd & Hout & ->); [|done|unfold saturating_add_u64; lia].
  split_and!.
  - by constructor.
  - constructor; [|done]. intros Hin. apply (Hout _ Hin). set_solver.
  - intros x [->|Hx]%elem_of_cons; [done|]. specialize (Hout x Hx). set_solver.
  - assert (Hs : 0 <= sum_over sc_total_spent certs)
      by (apply sum_over_nonneg; intros x Hx; by rewrite Forall_forall in Hn'; apply Hn').
    unfold sum_over in *. cbn [foldr]. unfold saturating_add_u64. lia.
Qed.

Lemma certificates_accept c certs : forall seen total,
  Forall (accepted c) certs -> NoDup (map sc_silo certs) -> (forall x, x ∈ map sc_silo certs -> x ∉ seen) ->
  exists seen' total', try_fold (check_certificate c) (seen, total) certs = Ok (seen', total').
Proof.
  induction certs as [|k certs IH]; intros seen total Ha Hnd Hout; cbn [try_fold]; [eauto|].
  inversion Ha; subst. cbn [map] in *. inversion Hnd; subst.
  rewrite check_certificate_accepts by (done || (apply Hout; apply list_elem_of_here)).
  apply IH; [done|done|]. intros x Hx Hin. apply elem_of_union in Hin as [Hin| ->%elem_of_singleton]; [|done].
  by apply (Hout x); [apply list_elem_of_further|].
Qed.

(** Certificates for distinct known silos, as many as there are silos, are one each. *)
Lemma one_each c certs : counter_ok c -> Forall (accepted c) certs -> NoDup (map sc_silo certs) ->
  (length (silos c) <= length certs)%nat -> map sc_silo certs ≡ₚ silos c.
Proof.
  intros Hok Ha Hnd Hlen. apply submseteq_length_Permutation; [|by rewrite length_map].
  apply NoDup_submseteq; [done|]. intros x Hx. apply list_elem_of_In, in_map_iff in Hx as (k & <- & Hk).
  apply list_elem_of_In in Hk. rewrite Forall_forall in Ha. destruct (Ha k Hk) as [_ _ (s & Es & _) _].
  apply (ck_known c Hok). by exists s.
Qed.

(** What a new epoch looks like. *)
Record fresh_epoch (c c' : StingrayCounter) (total : Z) : Prop := {
  fe_version : version c' = version c + 1;
  fe_balance : total_balance c' = Z.max 0 (total_balance c - total);
  fe_same : agent c' = agent c /\ silos c' = silos c /\ byzantine_tolerance c' = byzantine_tolerance c /\
    silo_pubkeys c' = silo_pubkeys c;
  fe_slices : forall silo, silo ∈ silos c' ->
    silo_states c' !! silo = Some (bslice_new (agent c') (version c') (compute_slice_ceiling c'));
}.

Lemma open_epoch_fresh c total c' : open_epoch c total = Some c' -> fresh_epoch c c' total.
Proof.
  unfold open_epoch. destruct (checked_add_u64 _ _) as [v|] eqn:Ev; [|discriminate].
  apply checked_add_u64_spec in Ev as [-> _]. cbn [mbind option_bind]. intros [= <-].
  set (c1 := mkCounter _ _ _ _ _ _ _ _). destruct (distribute_rest c1) as (Ea & Es & Ef & Evv & Et & Ep).
  split; rewrite ?Ea, ?Es, ?Ef, ?Evv, ?Et, ?Ep; try done.
  - cbn. destruct (Z.ltb_spec (total_balance c) total); lia.
  - intros silo Hin. rewrite distribute_states, bool_decide_true by done.
    unfold compute_slice_ceiling. by rewrite Ef, Et.
Qed.

End Reconcile.

(** ** Honest silos *)

Section Honest.
Context `{HE : Ed25519}.

(** What every silo certifies, with its own key. *)
Definition honest_certs (c : StingrayCounter) (keys : bytes -> bytes) (l : list bytes) : list SpendingCertificate :=
  omap (fun silo => (fun s => certificate s silo (keys silo)) <$> silo_states c !! silo) l.

Lemma honest_certs_spec c keys l :
  Ed25519OK HE -> counter_ok c ->
  (forall silo, silo ∈ silos c -> silo_pubkeys c !! silo = Some (ed_public (keys silo))) ->
  (forall x, x ∈ l -> x ∈ silos c) ->
  map sc_silo (honest_certs c keys l) = l /\ Forall (accepted c) (honest_certs c keys l) /\
  Forall (fun k => 0 <= sc_total_spent k) (honest_certs c keys l) /\
  sum_over sc_total_spent (honest_certs c keys l) = sum_over (spent_of c) l.
Proof.
  intros HS Hok Hkeys. unfold honest_certs. induction l as [|x l IH]; intros Hin.
  { split_and!; [done|apply Forall_nil; exact I|apply Forall_nil; exact I|done]. }
  destruct IH as (I1 & I2 & I3 & I4); [intros y Hy; apply Hin; by apply list_elem_of_further|].
  assert (Hx : x ∈ silos c) by (apply Hin, list_elem_of_here).
  destruct (proj2 (ck_known c Hok x) Hx) as [s Es]. destruct (ck_slices c Hok x s Es) as [A1 A2 A3 A4].
  cbn [omap list_omap]. rewrite Es. cbn [fmap option_fmap option_map map]. split_and!.
  - cbn. by rewrite I1.
  - constructor; [|done]. split; [done|done| |].
    + exists s. split; [done|cbn; lia].
    + exists (ed_public (keys x)). split; [by apply Hkeys|]. apply ed_sign_verifies.
  - constructor; [cbn; lia|done].
  - unfold sum_over in *. cbn [foldr]. rewrite I4. unfold spent_of at 2. by rewrite Es.
Qed.

(** Every silo debits its whole ceiling. *)
Definition debit_full (n : Z) (digest : bytes) (c : StingrayCounter) (silo : bytes) : result StingrayCounter BudgetError :=
  match try_debit c silo n digest with
  | (c', Ok _) => Ok c'
  | (_, Err e) => Err e
  end.

Lemma debit_full_all n digest l : forall c, 0 <= n <= u64_max -> NoDup l ->
  (forall x, x ∈ l -> exists s, silo_states c !! x = Some s /\ spent s = 0 /\ ceiling s = n) ->
  exists c', try_fold (debit_full n digest) c l = Ok c' /\
    (forall x, x ∈ l -> spent_of c' x = n) /\ (forall x, x ∉ l -> silo_states c' !! x = silo_states c !! x).
Proof.
  induction l as [|x l IH]; intros c Hn Hnd Hs; cbn [try_fold].
  { exists c. split_and!; [done|intros y Hy; by apply elem_of_nil in Hy|done]. }
  inversion Hnd as [|? ? Hx Hnd']; subst. destruct (Hs x (list_elem_of_here _ _)) as (s & Es & E0 & Ec).
  unfold debit_full at 1, try_debit, on_slice. rewrite Es. unfold bslice_try_debit, bslice_remaining, saturating_sub.
  rewrite E0, Ec. rewrite (proj2 (Z.ltb_ge _ _)) by lia.
  set (s' := with_debits _ _ _). destruct (IH (with_states c (<[x := s']> (silo_states c)))) as (c' & Er & Hd & Ho);
    [done|done| |].
  { intros y Hy. cbn. rewrite lookup_insert_ne by (by intros ->). by apply Hs, list_elem_of_further. }
  exists c'. split_and!; [exact Er| |].
  - intros y [->|Hy]%elem_of_cons; [|by apply Hd]. unfold spent_of. rewrite Ho by done. cbn.
    rewrite lookup_insert_eq. cbn. unfold saturating_add_u64. lia.
  - intros y [Hne Hy]%not_elem_of_cons. rewrite Ho by done. cbn. by rewrite lookup_insert_ne.
Qed.

End Honest.

(** Enough silos at their ceilings exceed the balance. *)
Lemma ceilings_exceed f b n : 0 <= f -> 3 * f + 1 <= n -> 2 <= n -> 2 <= b -> b < n * slice_ceiling_for f b.
Proof.
  intros Hf Hn Hn2 Hb. unfold slice_ceiling_for. assert (Hk : b / 2 <= b * (f + 1) / (2 * f + 1)).
  { apply Z.div_le_lower_bound; [lia|]. pose proof (Z.mul_div_le b 2). nia. }
  destruct (Z.eq_dec f 0) as [->|Hf0].
  - change (2 * 0 + 1) with 1. rewrite Z.div_1_r. nia.
  - pose proof (Z_div_mod_eq_full b 2). pose proof (Z.mod_pos_bound b 2).
    assert (b < 4 * (b / 2)) by lia. nia.
Qed.

(** ** Locks *)

Inductive lock_step : FastUnlockManager -> FastUnlockManager -> Prop :=
| ls_lock m p n s v : lock_step m (lock m p n s v).1
| ls_commit m p : lock_step m (release_on_commit m p).1
| ls_unlock `{Ed25519} m cert m' r : apply_unlock_certificate m cert = Some (m', r) -> lock_step m m'
| ls_register m s pk : lock_step m (manager_register m s pk).

Lemma release_locks m p p' : locks m !! p = Some Released -> locks (release m p').1 !! p = Some Released.
Proof.
  intros H. unfold release. destruct (locks m !! p') as [[? ? ? ?|]|] eqn:E; cbn; try done.
  destruct (decide (p = p')) as [->|Hne]; [by rewrite lookup_insert_eq|by rewrite lookup_insert_ne].
Qed.

Lemma unlock_cases `{Ed25519} m cert m' r : apply_unlock_certificate m cert = Some (m', r) ->
  (m' = m /\ exists e, r = Err e) \/ (m', r) = release m (ur_proposal_id (uc_request cert)).
Proof.
  unfold apply_unlock_certificate. destruct (checked_mul_u64 _ _) as [q|]; [|discriminate]. cbn [mbind option_bind].
  destruct (checked_add_u64 _ _); [|discriminate]. cbn [mbind option_bind]. intros [= E]. revert E.
  destruct (_ <? _); [intros [= <- <-]; eauto|]. destruct (try_fold _ _ _); [|intros [= <- <-]; eauto].
  destruct (ffind _ _); [intros [= <- <-]; eauto|]. intros <-. by right.
Qed.

Lemma released_step m m' p : lock_step m m' -> locks m !! p = Some Released -> locks m' !! p = Some Released.
Proof.
  destruct 1 as [m p' n s v|m p'|? m cert m' r E|m s pk]; intros H'.
  - unfold lock. destruct (locks m !! p') eqn:E; [done|]. cbn. rewrite lookup_insert_ne; [done|congruence].
  - unfold release_on_commit. pose proof (release_locks m p p' H') as Hr.
    destruct (release m p') as [m' [[]|]]; exact Hr.
  - apply unlock_cases in E as [[-> _]|E]; [done|]. pose proof (release_locks m p (ur_proposal_id (uc_request cert)) H') as Hr.
    rewrite <-E in Hr. exact Hr.
  - exact H'.
Qed.

Lemma votes_loop `{Ed25519} m req vs : forall s0 s1, try_fold (check_vote m req) s0 vs = Ok s1 ->
  NoDup (map uv_voter vs) /\ (forall x, x ∈ map uv_voter vs -> x ∉ s0) /\
  Forall (fun v => uv_request v = req /\
    exists pk, fm_pubkeys m !! uv_voter v = Some pk /\ verify_vote v pk = true) vs.
Proof.
  induction vs as [|v vs IH]; intros s0 s1; cbn [try_fold map].
  { intros _. split_and!; [constructor|intros x Hx; by apply elem_of_nil in Hx|constructor]. }
  destruct (check_vote m req s0 v) as [s2|] eqn:E; [|discriminate]. intros Hr.
  apply IH in Hr as (Hnd & Hout & Hall). unfold check_vote in E. case_bool_decide; [cbn [negb] in E|discriminate].
  case_bool_decide; [discriminate|]. destruct (fm_pubkeys m !! uv_voter v) as [pk|] eqn:Ep; [|discriminate].
  destruct (verify_vote v pk) eqn:Ev; [|discriminate]. injection E as <-. split_and!.
  - constructor; [|done]. intros Hin. apply (Hout _ Hin). set_solver.
  - intros x [->|Hx]%elem_of_cons; [done|]. specialize (Hout x Hx). set_solver.
  - constructor; [|done]. split; [done|by exists pk].
Qed.

(** ** Properties *)

Section Properties.
Context `{HE : Ed25519}.

(** C23: slices stay within their ceilings.  In every history of a counter over
    distinct silos (debits, refunds, unwound debits, restored settlements,
    rebalances complete and partial), exactly the silos hold slices, each of the
    current epoch with the ceiling of the current balance, none has spent more
    than it, and the silos together have spent at most as many ceilings. *)
Theorem counter_stays_bounded (c : StingrayCounter) :
  counter_reachable c ->
  counter_ok c /\ 0 <= compute_slice_ceiling c <= total_balance c /\
  sum_over (spent_of c) (silos c) <= Z.of_nat (length (silos c)) * compute_slice_ceiling c.
Proof.
  intros Hr. apply counter_reachable_ok in Hr as Hok. split; [done|]. split.
  { apply ceiling_bounds; [apply Hok|apply Hok]. }
  assert (H : forall x, x ∈ silos c -> spent_of c x <= compute_slice_ceiling c).
  { intros x Hx. destruct (proj2 (ck_known c Hok x) Hx) as [s Es]. unfold spent_of. rewrite Es. cbn.
    destruct (ck_slices c Hok x s Es) as [_ _ <- H]. lia. }
  clear Hr Hok. unfold sum_over. induction (silos c) as [|x l IH]; [done|]. cbn [foldr length].
  pose proof (H x (list_elem_of_here _ _)). assert (foldr (fun x acc => spent_of c x + acc) 0 l <=
    Z.of_nat (length l) * compute_slice_ceiling c); [|lia]. apply IH. intros y Hy. by apply H, list_elem_of_further.
Qed.

(** A complete rebalance counts every silo once.  It is refused without a
    change, or the certificates are one for each silo, each signed by its silo for
    this agent and epoch and within its ceiling; the balance falls by their
    (saturated) sum and no further than zero; and a new epoch opens with fresh
    slices of the new balance. *)
Theorem rebalance_exact (c c' : StingrayCounter) (certs : list SpendingCertificate) (r : result Z BudgetError) :
  counter_ok c -> Forall (fun k => 0 <= sc_total_spent k) certs -> rebalance c certs = Some (c', r) ->
  match r with
  | Err _ => c' = c
  | Ok total => map sc_silo certs ≡ₚ silos c /\ Forall (accepted c) certs /\
      total = saturating_add_u64 0 (sum_over sc_total_spent certs) /\ fresh_epoch c c' total
  end.
Proof.
  intros Hok Hn. unfold rebalance, rebalance_inner. cbn [andb].
  destruct (Nat.ltb_spec (length certs) (length (silos c))); [by intros [= <- <-]|].
  destruct (try_fold _ _ _) as [[seen total]|e] eqn:E; [|by intros [= <- <-]].
  destruct (certificates_loop c certs ∅ 0 seen total Hn ltac:(done) E) as (Ha & Hnd & _ & ->).
  destruct (open_epoch _ _) as [c1|] eqn:Eo; [|discriminate]. cbn. intros [= <- <-].
  split_and!; [by apply one_each|done|done|by apply open_epoch_fresh].
Qed.

(** Honest silos can rebalance.  When every silo certifies its slice with the
    key registered for it, the rebalance succeeds and reports what the silos
    spent. *)
Theorem honest_rebalance_completes `{!Ed25519OK HE} (c : StingrayCounter) (keys : bytes -> bytes) :
  counter_ok c -> version c < u64_max ->
  (forall silo, silo ∈ silos c -> silo_pubkeys c !! silo = Some (ed_public (keys silo))) ->
  exists c', rebalance c (honest_certs c keys (silos c)) =
      Some (c', Ok (saturating_add_u64 0 (sum_over (spent_of c) (silos c)))) /\
    fresh_epoch c c' (saturating_add_u64 0 (sum_over (spent_of c) (silos c))).
Proof.
  intros Hok Hv Hkeys. destruct (honest_certs_spec c keys (silos c) _ Hok Hkeys (fun x H => H)) as (E1 & Ha & Hn & Es).
  unfold rebalance, rebalance_inner. rewrite <-(length_map sc_silo), E1, Nat.ltb_irrefl. cbn [andb].
  destruct (certificates_accept c (honest_certs c keys (silos c)) ∅ 0) as (seen & total & E);
    [done|rewrite E1; apply Hok|set_solver|].
  rewrite E. destruct (certificates_loop c _ ∅ 0 seen total Hn ltac:(done) E) as (_ & _ & _ & ->). rewrite Es.
  assert (Ho : exists c', open_epoch c (saturating_add_u64 0 (sum_over (spent_of c) (silos c))) = Some c').
  { unfold open_epoch. rewrite (proj2 (checked_add_u64_spec (version c) 1 (version c + 1))) by lia. eauto. }
  destruct Ho as [c' Ho]. rewrite Ho. exists c'. split; [done|by apply open_epoch_fresh].
Qed.

(** Slices do not bound the balance.  With two silos or more, and a balance of
    two or more, every silo can debit its whole slice, all honest and all accepted,
    and together they have spent more than the balance. *)
Theorem honest_silos_overspend (a : bytes) (b : Z) (l : list bytes) (f : Z) (c : StingrayCounter) (digest : bytes) :
  counter_new a b l f = Some (Ok c) -> is_u64 b -> 0 <= f -> NoDup l -> (2 <= length l)%nat -> 2 <= b ->
  exists c', try_fold (debit_full (compute_slice_ceiling c) digest) c l = Ok c' /\ total_balance c = b /\
    b < sum_over (spent_of c') l.
Proof.
  intros Hnew Hb Hf Hnd Hlen Hb2. pose proof (counter_new_ok a b l f c Hb Hf Hnd Hnew) as Hok.
  assert (Hc : silos c = l /\ total_balance c = b /\ byzantine_tolerance c = f /\
    forall x, x ∈ l -> silo_states c !! x = Some (bslice_new a 0 (compute_slice_ceiling c))).
  { unfold counter_new in Hnew. destruct (checked_mul_u64 _ _); [|discriminate]. cbn [mbind option_bind] in Hnew.
    destruct (checked_add_u64 _ _); [|discriminate]. cbn [mbind option_bind] in Hnew. destruct (_ <? _); [discriminate|].
    injection Hnew as <-. set (c0 := mkCounter _ _ _ _ _ _ _ _). destruct (distribute_rest c0) as (_ & Es & Ef & _ & Et & _).
    split_and!; [exact Es|exact Et|exact Ef|]. intros x Hx. rewrite distribute_states, bool_decide_true by done.
    unfold compute_slice_ceiling. by rewrite Ef, Et. }
  destruct Hc as (Es & Et & Ef & Hs). destruct (ck_faults c Hok) as [_ Hn]. rewrite Es, Ef in Hn.
  destruct (ceiling_bounds f b Hf ltac:(lia)) as [C0 C1]. unfold is_u64 in Hb.
  destruct (debit_full_all (compute_slice_ceiling c) digest l c) as (c' & Er & Hd & _); [|done| |].
  { unfold compute_slice_ceiling. rewrite Ef, Et. lia. }
  { intros x Hx. eexists. split; [by apply Hs|]. done. }
  exists c'. split_and!; [done|done|]. rewrite (sum_over_const _ (compute_slice_ceiling c)) by done.
  unfold compute_slice_ceiling. rewrite Ef, Et. apply ceilings_exceed; lia.
Qed.

(** C24: an unlock has a quorum behind it and happens once.  When a certificate
    releases a lock, at least [2f+1] distinct registered silos signed that they hold
    no conflicting commit for that proposal, the amount and silo are those locked,
    and from then on, whatever is locked, committed or unlocked, the proposal stays
    released and no certificate releases it again. *)
Theorem unlock_once_by_quorum (m m' m'' : FastUnlockManager) (cert : UnlockCertificate) (amount : Z) (silo : bytes) :
  apply_unlock_certificate m cert = Some (m', Ok (amount, silo)) -> rtc lock_step m' m'' ->
  let p := ur_proposal_id (uc_request cert) in
  2 * fm_tolerance m + 1 <= Z.of_nat (length (uc_votes cert)) /\ NoDup (map uv_voter (uc_votes cert)) /\
  Forall (fun v => uv_request v = uc_request cert /\ uv_has_conflict v = false /\
            exists pk, fm_pubkeys m !! uv_voter v = Some pk /\ verify_vote v pk = true) (uc_votes cert) /\
  (exists q v, locks m !! p = Some (Locked q amount silo v)) /\ locks m'' !! p = Some Released /\
  release m'' p = (m'', Err (AlreadyReleased p)).
Proof.
  intros Hu Hrun p. pose proof (unlock_cases _ _ _ _ Hu) as [[_ [e [=]]]|Hrel]. fold p in Hrel.
  assert (Hl : (exists q v, locks m !! p = Some (Locked q amount silo v)) /\ locks m' !! p = Some Released).
  { unfold release in Hrel. destruct (locks m !! p) as [[q n s v|]|] eqn:El; try discriminate Hrel.
    injection Hrel as -> -> ->. split; [by exists q, v|]. cbn. by rewrite lookup_insert_eq. }
  destruct Hl as [Hl1 Hl2]. assert (Hl3 : locks m'' !! p = Some Released).
  { clear -Hrun Hl2. induction Hrun as [|x y z Hs _ IH]; [done|]. apply IH. by eapply released_step. }
  assert (Hrest : 2 * fm_tolerance m + 1 <= Z.of_nat (length (uc_votes cert)) /\
    (exists seen, try_fold (check_vote m (uc_request cert)) ∅ (uc_votes cert) = Ok seen) /\
    ffind uv_has_conflict (uc_votes cert) = None).
  { unfold apply_unlock_certificate in Hu. destruct (checked_mul_u64 _ _) as [q|] eqn:Eq; [|discriminate].
    unfold checked_mul_u64 in Eq. destruct (_ <=? _); [|discriminate]. injection Eq as <-. cbn [mbind option_bind] in Hu.
    destruct (checked_add_u64 _ _) as [q|] eqn:Eq; [|discriminate]. apply checked_add_u64_spec in Eq as [-> _].
    cbn [mbind option_bind] in Hu. destruct (Z.ltb_spec (Z.of_nat (length (uc_votes cert))) (2 * fm_tolerance m + 1)); [discriminate|].
    destruct (try_fold _ _ _) as [seen|]; [|discriminate]. destruct (ffind _ _); [discriminate|]. eauto. }
  destruct Hrest as (Hq & (seen & Hfold) & Hnc).
  destruct (votes_loop _ _ _ _ _ Hfold) as (Hnd & _ & Hall). split_and!; [done|done| |done|done|].
  - rewrite Forall_forall in *. intros v Hin. destruct (Hall v Hin) as [H1 H2]. split_and!; [done| |done].
    by apply (ffind_none _ _ Hnc).
  - unfold release. by rewrite Hl3.
Qed.

End Properties.

(** ** Witnesses and concrete runs *)

#[local] Existing Instance model_ed25519.
#[local] Existing Instance model_ed25519_ok.

Definition four_silos : list bytes := [fill32 1; fill32 2; fill32 3; fill32 4].

Lemma four_silos_distinct : NoDup four_silos.
Proof. apply (bool_decide_eq_true_1 (NoDup four_silos)). vm_compute. reflexivity. Qed.

Definition sample_new : StingrayCounter := distribute_slices (mkCounter (fill32 9) four_silos 1 0 ∅ 90 0 ∅).

Lemma sample_new_ok : counter_new (fill32 9) 90 four_silos 1 = Some (Ok sample_new).
Proof. reflexivity. Qed.

(** Two silos have spent 20 and 7; every silo's key is its id. *)
Definition sample_counter : StingrayCounter :=
  let c := (try_debit (try_debit sample_new (fill32 1) 20 (fill32 50)).1 (fill32 2) 7 (fill32 51)).1 in
  foldl (fun c silo => register_silo_pubkey c silo silo) c four_silos.

Lemma sample_reachable : counter_reachable sample_counter.
Proof.
  unfold sample_counter. cbn [foldl four_silos].
  do 4 (eapply (cr_op _ (OpRegister _ _)); [|exact I|reflexivity]).
  eapply (cr_op _ (OpDebit (fill32 2) 7 (fill32 51))); [|cbn; lia|reflexivity].
  eapply (cr_op _ (OpDebit (fill32 1) 20 (fill32 50))); [|cbn; lia|reflexivity].
  eapply cr_new; [|  |exact four_silos_distinct|exact sample_new_ok]; [unfold is_u64, u64_max; lia|lia].
Qed.

Lemma counter_stays_bounded_witness :
  counter_ok sample_counter /\ sum_over (spent_of sample_counter) four_silos = 27 /\
  compute_slice_ceiling sample_counter = 60.
Proof.
  destruct (counter_stays_bounded sample_counter sample_reachable) as (Hok & _ & _).
  split; [exact Hok|]. vm_compute. split; reflexivity.
Defined.

Lemma sample_keys silo : silo ∈ silos sample_counter -> silo_pubkeys sample_counter !! silo = Some (ed_public silo).
Proof.
  intros Hin. change (silo ∈ four_silos) in Hin. unfold four_silos in Hin. rewrite !elem_of_cons in Hin.
  destruct Hin as [->|[->|[->|[->|[]%elem_of_nil]]]]; vm_compute; reflexivity.
Qed.

Lemma honest_rebalance_completes_witness :
  exists c', rebalance sample_counter (honest_certs sample_counter id four_silos) = Some (c', Ok 27) /\
    total_balance c' = 63.
Proof.
  destruct (honest_rebalance_completes sample_counter id) as (c' & Hr & [_ Hb _ _]).
  - apply (counter_stays_bounded sample_counter sample_reachable).
  - vm_compute. reflexivity.
  - exact sample_keys.
  - exists c'. split; [exact Hr|]. rewrite Hb. vm_compute. reflexivity.
Defined.

Lemma rebalance_exact_witness :
  exists c', rebalance sample_counter (honest_certs sample_counter id four_silos) = Some (c', Ok 27) /\
    fresh_epoch sample_counter c' 27.
Proof.
  assert (H : exists c', rebalance sample_counter (honest_certs sample_counter id four_silos) = Some (c', Ok 27))
    by (vm_compute; eexists; reflexivity).
  destruct H as (c' & Hr). exists c'. split; [exact Hr|].
  destruct (rebalance_exact sample_counter c' (honest_certs sample_counter id four_silos) (Ok 27)) as (_ & _ & _ & Hf).
  - apply counter_reachable_ok, sample_reachable.
  - vm_compute. repeat constructor; discriminate.
  - exact Hr.
  - exact Hf.
Defined.

Lemma honest_silos_overspend_witness :
  exists c', try_fold (debit_full 60 (fill32 50)) sample_new four_silos = Ok c' /\ 90 < sum_over (spent_of c') four_silos.
Proof.
  destruct (honest_silos_overspend (fill32 9) 90 four_silos 1 sample_new (fill32 50)) as (c' & Hr & _ & Hlt).
  - exact sample_new_ok.
  - unfold is_u64, u64_max. lia.
  - lia.
  - exact four_silos_distinct.
  - cbn. lia.
  - lia.
  - exists c'. split; [exact Hr|exact Hlt].
Defined.

Definition sample_request : UnlockRequest := mkRequest (fill32 60) (fill32 9) 5 (fill32 1).

Definition sample_manager : FastUnlockManager :=
  let m := foldl (fun m silo => manager_register m silo silo) (manager_new 1 4) four_silos in
  (lock m (fill32 60) 5 (fill32 1) 0).1.

Definition sample_unlock : UnlockCertificate :=
  mkUnlock sample_request (map (fun silo => vote_unlock sample_request silo false silo) (take 3 four_silos)).

Lemma sample_unlocks : exists m', apply_unlock_certificate sample_manager sample_unlock = Some (m', Ok (5, fill32 1)).
Proof. vm_compute. eexists. reflexivity. Qed.

Lemma unlock_once_by_quorum_witness :
  exists m', apply_unlock_certificate sample_manager sample_unlock = Some (m', Ok (5, fill32 1)) /\
    release m' (fill32 60) = (m', Err (AlreadyReleased (fill32 60))).
Proof.
  destruct sample_unlocks as (m' & Hu). exists m'. split; [exact Hu|].
  destruct (unlock_once_by_quorum sample_manager m' m' sample_unlock 5 (fill32 1)) as (_ & _ & _ & _ & _ & Hr).
  - exact Hu.
  - apply rtc_refl.
  - exact Hr.
Defined.

(** The lock of an epoch refunds the slice of a later one: the version a lock
    records is never compared. *)
Definition next_epoch : StingrayCounter :=
  default sample_counter (fst <$> rebalance sample_counter (honest_certs sample_counter id four_silos)).

Lemma stale_unlock_refunds :
  rebalance sample_counter (honest_certs sample_counter id four_silos) = Some (next_epoch, Ok 27) /\
  exists m' c2,
  apply_unlock_and_refund sample_manager sample_unlock (try_debit next_epoch (fill32 1) 5 (fill32 52)).1 =
    Some (m', c2, Ok 5) /\
  version c2 = 1 /\ spent_of c2 (fill32 1) = 0 /\ debits <$> silo_states c2 !! fill32 1 = Some [fill32 52].
Proof. split; [vm_compute; reflexivity|]. do 2 eexists. split; [vm_compute; reflexivity|]. vm_compute. split_and!; reflexivity. Qed.

(** Unwinding one of two debits with the same digest forgets both, so the digest
    still on record is accepted as fresh. *)
Lemma unwind_forgets_duplicate (a : bytes) (v : Z) (d : bytes) :
  let s2 := (bslice_try_debit (bslice_try_debit (bslice_new a v 90) 10 d).1 10 d).1 in
  let s := (bslice_unwind_debit s2 10 d).1 in
  debits s = [d] /\ debit_set s = ∅ /\ (bslice_try_debit_fresh s 10 d).2 = Ok tt.
Proof.
  assert (Hp : position_of_digest d [d; d] = Some O) by (cbn; rewrite bool_decide_true by reflexivity; reflexivity).
  assert (E : (∅ ∪ {[d]} ∪ {[d]}) ∖ {[d]} = (∅ : gset bytes)) by set_solver.
  intros s2 s. assert (Es : s = mkBSlice a v 90 10 [d] ∅).
  { unfold s, bslice_unwind_debit. change (debits s2) with [d; d]. rewrite Hp. cbn [fst].
    change (debit_set s2) with (∅ ∪ {[d]} ∪ {[d]} : gset bytes). rewrite E. reflexivity. }
  rewrite Es. split_and!; [reflexivity|reflexivity|]. unfold bslice_try_debit_fresh. cbn [debit_set].
  rewrite bool_decide_false by apply not_elem_of_empty. reflexivity.
Qed.

(** At the top of the width the pre-check saturates, and the debit it vouched for
    panics after the balance was already raised. *)
Lemma restore_can_panic : exists c, counter_reachable c /\ restore_unapplied c (fill32 1) u64_max (fill32 52) = None.
Proof.
  exists (try_debit (distribute_slices (mkCounter (fill32 9) [fill32 1] 0 0 ∅ u64_max 0 ∅)) (fill32 1) 5 (fill32 50)).1.
  split; [|vm_compute; reflexivity].
  eapply (cr_op _ (OpDebit (fill32 1) 5 (fill32 50))); [|cbn; lia|reflexivity].
  apply (cr_new (fill32 9) u64_max [fill32 1] 0); [unfold is_u64, u64_max; lia|lia|apply NoDup_singleton|reflexivity].
Qed.
