(* ===== verification/SharedBudget.v ===== *)
(** * Shared resource budgets

    Models [coord/src/shared_budget.rs]: the allowances through which several
    agents spend one resource, the escalation of an overspent resource to an
    ordering of its debits, and the observer that reads debits off the blocks of
    the blocklace.  The blocks are those of [blocklace/src/finality.rs]; a
    blocklace is read through its map from ids to blocks only.

    An outer [None] is a panic: a sum of [u64]s, the epoch counter, or [2f + 1]
    past the width. *)

From stdpp Require Import base decidable option list gmap sorting strings.
From Stdlib Require Import ZArith Lia.
From S2P Require Import Prelude VerifiedGate.

Open Scope Z_scope.

(** ** Blocks *)

Record TurnArtifactBundle : Type := mkBundle {
  signed_turn : bytes;
  receipt : option bytes;
  witnessed_receipts : list bytes;
}.

Inductive MembershipAction : Type :=
| Join (node_id : bytes)
| Leave (node_id : bytes)
| Approve (proposal_block : bytes)
| Reject (proposal_block : bytes).

Inductive Payload : Type :=
| PTurn (data : bytes)
| PTurnBundle (bundle : TurnArtifactBundle)
| PAck
| PCheckpoint (root : bytes) (height : Z)
| PMembershipVote (action : MembershipAction)
| PData (data : bytes).

Record Block : Type := mkBlock {
  creator : bytes;
  ed25519 : bytes;
  seq : Z;
  payload : Payload;
  predecessors : list bytes;
  signature : bytes;
  pq_signature : bytes;
}.

(** ** Debits in payloads *)

Definition DEBIT_TAG : Z := 68.
Definition DEBIT_PAYLOAD_MIN_SIZE : nat := 41.

Definition slice_bytes (l : bytes) (from upto : nat) : bytes := take (upto - from) (drop from l).

(** The two payloads that carry application bytes. *)
Definition payload_data (p : Payload) : option bytes :=
  match p with
  | PTurn data | PData data => Some data
  | _ => None
  end.

Definition extract_debit_for_resource (block : Block) (resource_id : bytes) : option Z :=
  data ← payload_data (payload block);
  if (length data <? DEBIT_PAYLOAD_MIN_SIZE)%nat then None
  else if negb (bool_decide (data !! O = Some DEBIT_TAG)) then None
  else if negb (bool_decide (slice_bytes data 1 33 = resource_id)) then None
  else Some (of_le_bytes (slice_bytes data 33 41)).

Definition extract_resource_debit (block : Block) : option (bytes * Z) :=
  data ← payload_data (payload block);
  if (length data <? DEBIT_PAYLOAD_MIN_SIZE)%nat then None
  else if negb (bool_decide (data !! O = Some DEBIT_TAG)) then None
  else Some (slice_bytes data 1 33, of_le_bytes (slice_bytes data 33 41)).

Definition encode_debit_payload (resource_id : bytes) (amount : Z) : bytes :=
  DEBIT_TAG :: resource_id ++ le_bytes 8 amount.

(** ** Errors and states *)

Inductive SharedBudgetError : Type :=
| AllowanceExhausted (agent resource : bytes) (rem requested : Z)
| InsufficientParticipants (have need : Z)
| UnknownParticipant (agent : bytes)
| DuplicateParticipant (agent : bytes)
| DuplicateReport (agent : bytes)
| ReportExceedsCeiling (agent : bytes) (claimed ceil : Z)
| IncompleteReports (received expected : Z)
| ResourceClosing (resource : bytes).

Inductive ResourceState : Type :=
| Open
| Closing (conflicting : list bytes)
| Rebalancing.

#[export] Instance ResourceState_eq_dec : EqDecision ResourceState.
Proof. solve_decision. Defined.

Inductive DebitResolution : Type := Accepted | Rejected.

#[export] Instance DebitResolution_eq_dec : EqDecision DebitResolution.
Proof. solve_decision. Defined.

(** ** An allowance *)

Record AgentAllowance : Type := mkAllowance {
  al_agent : bytes;
  al_resource : bytes;
  al_version : Z;
  ceiling : Z;
  spent : Z;
  debits : list bytes;
}.

Definition allowance_new (agent resource : bytes) (version ceil : Z) : AgentAllowance :=
  mkAllowance agent resource version ceil 0 [].

Definition set_spent (n : Z) (a : AgentAllowance) : AgentAllowance :=
  mkAllowance (al_agent a) (al_resource a) (al_version a) (ceiling a) n (debits a).

Definition allowance_remaining (a : AgentAllowance) : Z := saturating_sub (ceiling a) (spent a).
Definition has_allowance (a : AgentAllowance) : bool := 0 <? allowance_remaining a.

Definition allowance_try_debit (a : AgentAllowance) (amount : Z) (digest : bytes)
    : AgentAllowance * result unit SharedBudgetError :=
  if allowance_remaining a <? amount
  then (a, Err (AllowanceExhausted (al_agent a) (al_resource a) (allowance_remaining a) amount))
  else (mkAllowance (al_agent a) (al_resource a) (al_version a) (ceiling a)
          (saturating_add_u64 (spent a) amount) (debits a ++ [digest]), Ok tt).

Definition allowance_refund (a : AgentAllowance) (amount : Z) : AgentAllowance :=
  set_spent (saturating_sub (spent a) amount) a.

(** ** The budget of a resource *)

Record SharedResourceBudget : Type := mkBudget {
  resource : bytes;
  participants : list bytes;
  byzantine_tolerance : Z;
  version : Z;
  allowances : gmap bytes AgentAllowance;
  total_balance : Z;
  epoch_credits : Z;
  state : ResourceState;
  resolutions : gmap bytes DebitResolution;
}.

Definition with_allowances (b : SharedResourceBudget) (m : gmap bytes AgentAllowance) : SharedResourceBudget :=
  mkBudget (resource b) (participants b) (byzantine_tolerance b) (version b) m (total_balance b)
    (epoch_credits b) (state b) (resolutions b).

(** [f + 1 <= 2f + 1], so the quotient is no larger than the balance. *)
Definition compute_allowance_ceiling (b : SharedResourceBudget) : Z :=
  total_balance b * (byzantine_tolerance b + 1) / (2 * byzantine_tolerance b + 1).

Definition distribute_one (b : SharedResourceBudget) (ceil : Z) (m : gmap bytes AgentAllowance) (p : bytes)
    : gmap bytes AgentAllowance :=
  <[p := allowance_new p (resource b) (version b) ceil]> m.

Definition distribute_allowances (b : SharedResourceBudget) : SharedResourceBudget :=
  with_allowances b (foldl (distribute_one b (compute_allowance_ceiling b)) ∅ (participants b)).

Definition budget_new (resource : bytes) (balance : Z) (participants : list bytes) (f : Z)
    : option (result SharedResourceBudget SharedBudgetError) :=
  need ← (m ← checked_mul_u64 2 f; checked_add_u64 m 1);
  Some (if Z.of_nat (length participants) <? need
        then Err (InsufficientParticipants (Z.of_nat (length participants)) need)
        else Ok (distribute_allowances (mkBudget resource participants f 0 ∅ balance 0 Open ∅))).

Definition try_debit (b : SharedResourceBudget) (agent : bytes) (amount : Z) (digest : bytes)
    : SharedResourceBudget * result unit SharedBudgetError :=
  if negb (bool_decide (state b = Open)) then (b, Err (ResourceClosing (resource b)))
  else match allowances b !! agent with
       | None => (b, Err (UnknownParticipant agent))
       | Some a => let '(a', r) := allowance_try_debit a amount digest in
                   (with_allowances b (<[agent := a']> (allowances b)), r)
       end.

Definition would_overspend (b : SharedResourceBudget) (agent : bytes) (amount : Z) : bool :=
  match allowances b !! agent with
  | Some a => allowance_remaining a <? amount
  | None => true
  end.

Definition budget_remaining (b : SharedResourceBudget) (agent : bytes) : option Z :=
  allowance_remaining <$> allowances b !! agent.

Definition add_spent (acc : option Z) (p : bytes * AgentAllowance) : option Z :=
  t ← acc; checked_add_u64 t (spent p.2).

Definition total_spent (b : SharedResourceBudget) : option Z :=
  foldl add_spent (Some 0) (map_to_list (allowances b)).

Definition credit (b : SharedResourceBudget) (amount : Z) : SharedResourceBudget :=
  mkBudget (resource b) (participants b) (byzantine_tolerance b) (version b) (allowances b)
    (saturating_add_u64 (total_balance b) amount) (saturating_add_u64 (epoch_credits b) amount) (state b)
    (resolutions b).

Definition is_overspent (b : SharedResourceBudget) : option bool :=
  t ← total_spent b; Some (total_balance b <? t).

(** *** What the blocklace shows *)

Definition update_spent (b : SharedResourceBudget) (agent : bytes) (n : Z) : SharedResourceBudget :=
  with_allowances b (alter (set_spent n) agent (allowances b)).

Definition record_observed_debit (b : SharedResourceBudget) (agent : bytes) (amount : Z) : SharedResourceBudget :=
  with_allowances b (alter (fun a => set_spent (saturating_add_u64 (spent a) amount) a) agent (allowances b)).

(** The first pass, which sums by creator. *)
Definition sum_by_creator (resource_id : bytes) (acc : option (gmap bytes Z)) (e : bytes * Block)
    : option (gmap bytes Z) :=
  m ← acc;
  match extract_debit_for_resource e.2 resource_id with
  | None => Some m
  | Some amount =>
      s ← checked_add_u64 (default 0 (m !! creator e.2)) amount;
      Some (<[creator e.2 := s]> m)
  end.

Definition sync_from_blocklace (b : SharedResourceBudget) (lace : gmap bytes Block) (resource_id : bytes)
    : option SharedResourceBudget :=
  m ← foldl (sum_by_creator resource_id) (Some ∅) (map_to_list lace);
  Some (foldl (fun b p => update_spent b p (default 0 (m !! p))) b (participants b)).

Definition escalate (b : SharedResourceBudget) (conflicting : list bytes) : SharedResourceBudget :=
  mkBudget (resource b) (participants b) (byzantine_tolerance b) (version b) (allowances b) (total_balance b)
    (epoch_credits b) (Closing conflicting) (resolutions b).

(** [if budget.is_overspent() && budget.state == Open], with what the branch does. *)
Definition close_if_overspent (b : SharedResourceBudget) : option (SharedResourceBudget * bool) :=
  over ← is_overspent b;
  Some (if over && bool_decide (state b = Open) then (escalate b [], true) else (b, false)).

Definition observe_for (resource_id : bytes) (b : SharedResourceBudget) (block : Block) : SharedResourceBudget :=
  match extract_debit_for_resource block resource_id with
  | Some amount => record_observed_debit b (creator block) amount
  | None => b
  end.

Definition sync_from_blocklace_blocks (b : SharedResourceBudget) (blocks : list Block) (resource_id : bytes)
    : option SharedResourceBudget :=
  fst <$> close_if_overspent (foldl (observe_for resource_id) b blocks).

Definition try_optimistic_debit (b : SharedResourceBudget) (agent : bytes) (amount : Z) (digest : bytes)
    : SharedResourceBudget * bool :=
  if negb (bool_decide (state b = Open)) then (b, false)
  else match try_debit b agent amount digest with
       | (b', Ok _) => (b', true)
       | (b', Err _) => (escalate b' [], false)
       end.

Definition sync_from_debit_map (b : SharedResourceBudget) (observed : gmap bytes Z) : SharedResourceBudget :=
  foldl (fun b e => update_spent b e.1 e.2) b (map_to_list observed).

(** *** Resolution by an ordering *)

Fixpoint resolve_ordered_native (balance : Z) (amounts : list Z) : list bool * Z :=
  match amounts with
  | [] => ([], balance)
  | amount :: rest =>
      if amount <=? balance
      then let '(vs, r) := resolve_ordered_native (balance - amount) rest in (true :: vs, r)
      else let '(vs, r) := resolve_ordered_native balance rest in (false :: vs, r)
  end.

Definition budget_wire (balance : Z) (amounts : list Z) : bytes :=
  str_bytes "B=" ++ u64_to_string balance ++ str_bytes ";D=" ++ join_with char_comma (u64_to_string <$> amounts).

Definition parse_verdict (v : bytes) : option bool :=
  if bool_decide (v = str_bytes "1") then Some true
  else if bool_decide (v = str_bytes "0") then Some false
  else None.

Definition parse_budget_reply (out : bytes) (expected : nat) : option (list bool * Z) :=
  match split_on char_semi out with
  | r :: b :: a :: rest =>
      r_seg ← strip_prefix (str_bytes "R=") r;
      b_seg ← strip_prefix (str_bytes "b=") b;
      _ ← strip_prefix (str_bytes "a=") a;
      match rest with
      | _ :: _ => None
      | [] =>
          verdicts ← (match r_seg with [] => Some [] | _ => mapM parse_verdict (split_on char_comma r_seg) end);
          if negb (length verdicts =? expected)%nat then None
          else rem ← parse_u64 b_seg; Some (verdicts, rem)
      end
  | _ => None
  end.

Section Resolution.
Context `{HG : InstalledGate}.

Definition verified_resolve_ordering (balance : Z) (amounts : list Z) : option (list bool * Z) :=
  g ← gate;
  if negb (distributed_exports_available g) then None
  else out ← ask_shared_budget g (budget_wire balance amounts); parse_budget_reply out (length amounts).

Definition decide_ordering (balance : Z) (amounts : list Z) : list bool * Z :=
  match verified_resolve_ordering balance amounts with
  | Some r => r
  | None => resolve_ordered_native balance amounts
  end.

(** The debits of the resource, in the order given. *)
Definition ordered_debits (lace : gmap bytes Block) (resource_id : bytes) (ordered : list bytes) : list (bytes * Z) :=
  omap (fun id => block ← lace !! id; amount ← extract_debit_for_resource block resource_id; Some (id, amount)) ordered.

Definition record_verdict (m : gmap bytes DebitResolution) (e : (bytes * Z) * bool) : gmap bytes DebitResolution :=
  <[e.1.1 := if e.2 then Accepted else Rejected]> m.

Definition resolve_with_ordering (b : SharedResourceBudget) (ordered : list bytes) (lace : gmap bytes Block)
    (resource_id : bytes) : option SharedResourceBudget :=
  let ds := ordered_debits lace resource_id ordered in
  let '(verdicts, rem) := decide_ordering (total_balance b) (map snd ds) in
  v ← checked_add_u64 (version b) 1;
  let b' := distribute_allowances
              (mkBudget (resource b) (participants b) (byzantine_tolerance b) v (allowances b) rem 0 Rebalancing
                 (foldl record_verdict ∅ (zip ds verdicts))) in
  Some (mkBudget (resource b') (participants b') (byzantine_tolerance b') (version b') (allowances b')
          (total_balance b') (epoch_credits b') Open (resolutions b')).

End Resolution.

Definition is_accepted (b : SharedResourceBudget) (id : bytes) : option bool :=
  (fun r => bool_decide (r = Accepted)) <$> resolutions b !! id.

(** *** Rebalancing *)

Definition check_report (b : SharedResourceBudget) (acc : gset bytes * Z) (report : bytes * Z)
    : result (gset bytes * Z) SharedBudgetError :=
  let '(seen, total) := acc in
  let '(agent, n) := report in
  if bool_decide (allowances b !! agent = None) then Err (UnknownParticipant agent)
  else if bool_decide (agent ∈ seen) then Err (DuplicateReport agent)
  else if compute_allowance_ceiling b <? n then Err (ReportExceedsCeiling agent n (compute_allowance_ceiling b))
  else Ok (seen ∪ {[ agent ]}, saturating_add_u64 total n).

Definition assume_missing (b : SharedResourceBudget) (seen : gset bytes) (total : Z) : Z :=
  foldl (fun acc p => if bool_decide (p ∈ seen) then acc
                      else saturating_add_u64 acc (compute_allowance_ceiling b)) total (participants b).

Definition open_epoch (b : SharedResourceBudget) (n : Z) : option SharedResourceBudget :=
  let balance := if total_balance b <? n then 0 else total_balance b - n in
  v ← checked_add_u64 (version b) 1;
  Some (distribute_allowances (mkBudget (resource b) (participants b) (byzantine_tolerance b) v (allowances b)
          balance 0 (state b) (resolutions b))).

Definition rebalance (b : SharedResourceBudget) (reports : list (bytes * Z)) (require_all : bool)
    : option (SharedResourceBudget * result Z SharedBudgetError) :=
  if require_all && (length reports <? length (participants b))%nat
  then Some (b, Err (IncompleteReports (Z.of_nat (length reports)) (Z.of_nat (length (participants b)))))
  else match try_fold (check_report b) (∅, 0) reports with
       | Err e => Some (b, Err e)
       | Ok (seen, total) =>
           let total := if require_all then total else assume_missing b seen total in
           b' ← open_epoch b total;
           Some (b', Ok total)
       end.

Definition add_participant (b : SharedResourceBudget) (agent : bytes)
    : SharedResourceBudget * result unit SharedBudgetError :=
  if bool_decide (allowances b !! agent = None)
  then (mkBudget (resource b) (participants b ++ [agent]) (byzantine_tolerance b) (version b)
          (<[agent := allowance_new agent (resource b) (version b) (compute_allowance_ceiling b)]> (allowances b))
          (total_balance b) (epoch_credits b) (state b) (resolutions b), Ok tt)
  else (b, Err (DuplicateParticipant agent)).

Definition remove_participant (b : SharedResourceBudget) (agent : bytes)
    : SharedResourceBudget * result unit SharedBudgetError :=
  if bool_decide (allowances b !! agent = None) then (b, Err (UnknownParticipant agent))
  else (mkBudget (resource b) (retain (fun p => negb (bool_decide (p = agent))) (participants b))
          (byzantine_tolerance b) (version b) (delete agent (allowances b)) (total_balance b) (epoch_credits b)
          (state b) (resolutions b), Ok tt).

(** ** The observer of new blocks *)

Record SharedBudgetObserver : Type := mkObserver { budgets : gmap bytes SharedResourceBudget }.

Definition observer_new : SharedBudgetObserver := mkObserver ∅.
Definition register (o : SharedBudgetObserver) (resource_id : bytes) (b : SharedResourceBudget) : SharedBudgetObserver :=
  mkObserver (<[resource_id := b]> (budgets o)).

(** One block of the loop, with the resources escalated so far. *)
Definition observe_block (acc : option (SharedBudgetObserver * list bytes)) (block : Block)
    : option (SharedBudgetObserver * list bytes) :=
  '(o, escalated) ← acc;
  match extract_resource_debit block with
  | None => Some (o, escalated)
  | Some (resource_id, amount) =>
      match budgets o !! resource_id with
      | None => Some (o, escalated)
      | Some b =>
          '(b', closed) ← close_if_overspent (record_observed_debit b (creator block) amount);
          Some (register o resource_id b', if (closed : bool) then escalated ++ [resource_id] else escalated)
      end
  end.

Definition on_blocklace_update (o : SharedBudgetObserver) (blocks : list Block)
    : option (SharedBudgetObserver * list bytes) :=
  foldl observe_block (Some (o, [])) blocks.

(** ** Payloads *)

(** A payload made of bytes. *)
Definition block_ok (block : Block) : Prop :=
  match payload_data (payload block) with
  | Some data => Forall is_byte data
  | None => True
  end.

Lemma extract_agrees block r a :
  extract_debit_for_resource block r = Some a <-> extract_resource_debit block = Some (r, a).
Proof.
  unfold extract_debit_for_resource, extract_resource_debit.
  destruct (payload_data (payload block)) as [data|]; [cbn [mbind option_bind]|by split].
  destruct (length data <? DEBIT_PAYLOAD_MIN_SIZE)%nat; [by split|]. case_bool_decide; [cbn|by split].
  case_bool_decide; cbn; naive_solver.
Qed.

Lemma extract_shape block r a :
  extract_resource_debit block = Some (r, a) ->
  exists data rest, payload_data (payload block) = Some data /\ (41 <= length data)%nat /\
    data = DEBIT_TAG :: rest /\ r = take 32 rest /\ a = of_le_bytes (take 8 (drop 32 rest)).
Proof.
  unfold extract_resource_debit. destruct (payload_data _) as [data|]; [cbn [mbind option_bind]|done].
  destruct (Nat.ltb_spec (length data) DEBIT_PAYLOAD_MIN_SIZE) as [|Hlen]; [done|]. unfold DEBIT_PAYLOAD_MIN_SIZE in Hlen.
  case_bool_decide as Ht; [cbn|done]. intros [= <- <-]. destruct data as [|t rest]; [done|].
  cbn in Ht. injection Ht as ->. exists (DEBIT_TAG :: rest), rest. done.
Qed.

Lemma extract_amount_u64 block r a : block_ok block -> extract_resource_debit block = Some (r, a) -> is_u64 a.
Proof.
  unfold block_ok. intros Hok (data & rest & Hp & Hlen & -> & _ & ->)%extract_shape. rewrite Hp in Hok.
  inversion Hok as [|? ? _ Hrest]; subst. cbn [length] in Hlen.
  assert (Hl : length (take 8 (drop 32 rest)) = 8%nat) by (rewrite length_take, length_drop; lia).
  pose proof (of_le_bytes_bound (take 8 (drop 32 rest)) ltac:(by apply Forall_take, Forall_drop)) as Hb.
  rewrite Hl in Hb. change (256 ^ Z.of_nat 8) with 18446744073709551616 in Hb. unfold is_u64, u64_max. lia.
Qed.

Lemma extract_for_u64 block r a : block_ok block -> extract_debit_for_resource block r = Some a -> is_u64 a.
Proof. intros Hok H%extract_agrees. by eapply extract_amount_u64. Qed.

(** ** Greedy resolution *)

(** First come, first served: what may be decided about debits in an order. *)
Inductive greedy : Z -> list Z -> list bool -> Z -> Prop :=
| greedy_nil b : greedy b [] [] b
| greedy_take b a l vs r : a <= b -> greedy (b - a) l vs r -> greedy b (a :: l) (true :: vs) r
| greedy_skip b a l vs r : b < a -> greedy b l vs r -> greedy b (a :: l) (false :: vs) r.

Lemma greedy_native b l vs r : greedy b l vs r <-> resolve_ordered_native b l = (vs, r).
Proof.
  split.
  - induction 1 as [b|b a l vs r Hle _ IH|b a l vs r Hlt _ IH]; cbn; [done| |].
    + by rewrite (proj2 (Z.leb_le _ _) Hle), IH.
    + by rewrite (proj2 (Z.leb_gt _ _) Hlt), IH.
  - revert b vs r. induction l as [|a l IH]; intros b vs r; cbn; [intros [= <- <-]; constructor|].
    destruct (Z.leb_spec a b) as [Hle|Hlt]; destruct (resolve_ordered_native _ l) as [vs' r'] eqn:E;
      intros [= <- <-]; constructor; auto.
Qed.

Lemma greedy_length b l vs r : greedy b l vs r -> length vs = length l.
Proof. induction 1; cbn; congruence. Qed.

(** What verdicts settle. *)
Definition settled_by (l : list Z) (vs : list bool) : Z :=
  sum_over (fun e : Z * bool => if e.2 then e.1 else 0) (zip l vs).

Lemma greedy_settles b l vs r : greedy b l vs r -> r = b - settled_by l vs.
Proof. unfold settled_by, sum_over. induction 1; cbn [zip zip_with foldr fst snd]; lia. Qed.

Lemma greedy_nonneg b l vs r : greedy b l vs r -> 0 <= b -> 0 <= r.
Proof. induction 1; lia. Qed.

Lemma greedy_le b l vs r : greedy b l vs r -> Forall is_u64 l -> r <= b.
Proof. unfold is_u64. induction 1; inversion 1; subst; [lia| |]; specialize (IHgreedy ltac:(done)); lia. Qed.

(** Each verdict looks at what the ones before it left. *)
Lemma greedy_verdict b l vs r i a : greedy b l vs r -> l !! i = Some a ->
  vs !! i = Some (bool_decide (a <= b - settled_by (take i l) (take i vs))).
Proof.
  intros Hg. revert i a. induction Hg as [b|b x l vs r Hle _ IH|b x l vs r Hlt _ IH]; intros i a Hi; [done| |].
  all: destruct i as [|i]; [injection Hi as ->; cbn; unfold settled_by, sum_over; cbn; f_equal; symmetry|].
  - apply bool_decide_true. lia.
  - change (vs !! i = Some (bool_decide (a <= b - (x + settled_by (take i l) (take i vs))))).
    rewrite (IH i a Hi). f_equal. apply bool_decide_ext. lia.
  - apply bool_decide_false. lia.
  - change (vs !! i = Some (bool_decide (a <= b - (0 + settled_by (take i l) (take i vs))))).
    rewrite (IH i a Hi). f_equal.
Qed.

(** ** The gate *)

Definition verdict_text (v : bool) : bytes := if v then str_bytes "1" else str_bytes "0".

(** The documented reply: the verdicts, what remains, and the accepted total. *)
Definition budget_reply (vs : list bool) (rem acc : Z) : bytes :=
  str_bytes "R=" ++ join_with char_comma (verdict_text <$> vs) ++ str_bytes ";b=" ++ u64_to_string rem ++
  str_bytes ";a=" ++ u64_to_string acc.

(** A gate answers [ERR], or with a greedy resolution in that format. *)
Class GateFaithful `{HG : InstalledGate} : Prop :=
  gate_reply : forall g b amounts out,
    gate = Some g -> is_u64 b -> Forall is_u64 amounts -> ask_shared_budget g (budget_wire b amounts) = Some out ->
    out = str_bytes "ERR" \/
    exists vs rem acc, out = budget_reply vs rem acc /\ is_u64 acc /\ greedy b amounts vs rem.

Lemma parse_verdict_text vs : mapM parse_verdict (verdict_text <$> vs) = Some vs.
Proof.
  apply mapM_Some_2. induction vs as [|v vs IH]; [constructor|]. cbn [fmap list_fmap]. constructor; [by destruct v|done].
Qed.

Lemma verdict_text_free sep vs : sep <> 48 -> sep <> 49 -> Forall (Forall (fun c => c <> sep)) (verdict_text <$> vs).
Proof.
  intros H0 H1. apply Forall_fmap, Forall_forall. intros v _. destruct v; cbn; repeat constructor; lia.
Qed.

Lemma join_free (sep sep' : Z) (l : list bytes) :
  sep <> sep' -> Forall (Forall (fun c => c <> sep)) l -> Forall (fun c => c <> sep) (join_with sep' l).
Proof.
  intros Hne. induction 1 as [|x l Hx Hl IH]; [constructor|]. destruct l as [|y l]; [done|].
  change (join_with sep' (x :: y :: l)) with (x ++ sep' :: join_with sep' (y :: l)).
  apply Forall_app. split; [done|]. by constructor.
Qed.

Lemma verdicts_segment vs :
  (match join_with char_comma (verdict_text <$> vs) with
   | [] => Some []
   | _ => mapM parse_verdict (split_on char_comma (join_with char_comma (verdict_text <$> vs)))
   end) = Some vs.
Proof.
  destruct vs as [|v vs]; [done|].
  assert (Hs : split_on char_comma (join_with char_comma (verdict_text <$> v :: vs)) = verdict_text <$> v :: vs)
    by (apply split_on_join; [done|by apply verdict_text_free]).
  rewrite Hs, parse_verdict_text.
  destruct (join_with char_comma (verdict_text <$> v :: vs)) eqn:E; [|done].
  destruct vs as [|w vs]; destruct v; discriminate E.
Qed.

Lemma parse_reply vs rem acc : is_u64 rem -> is_u64 acc ->
  parse_budget_reply (budget_reply vs rem acc) (length vs) = Some (vs, rem).
Proof.
  intros Hr Ha. destruct (u64_to_string_spec rem Hr) as [Hrd Hrp]. destruct (u64_to_string_spec acc Ha) as [Had _].
  unfold parse_budget_reply, budget_reply.
  set (J := join_with char_comma (verdict_text <$> vs)).
  assert (HJ : Forall (fun c => c <> char_semi) J) by (apply join_free; [done|by apply verdict_text_free]).
  replace (str_bytes "R=" ++ J ++ str_bytes ";b=" ++ u64_to_string rem ++ str_bytes ";a=" ++ u64_to_string acc)
    with ((str_bytes "R=" ++ J) ++ char_semi :: (str_bytes "b=" ++ u64_to_string rem) ++
          char_semi :: (str_bytes "a=" ++ u64_to_string acc)) by (by rewrite <- !app_assoc).
  assert (Hp : forall c d x, c <> char_semi -> d <> char_semi -> Forall (fun c => c <> char_semi) x ->
    Forall (fun c => c <> char_semi) ([c; d] ++ x)) by (intros; by repeat constructor).
  rewrite split_on_cons by (by apply Hp). rewrite split_on_cons by (apply Hp; [done|done|by apply digits_free]).
  rewrite split_on_free by (apply Hp; [done|done|by apply digits_free]).
  rewrite !strip_prefix_app. cbn [mbind option_bind]. subst J. rewrite verdicts_segment. cbn [mbind option_bind].
  rewrite Nat.eqb_refl. cbn [negb]. rewrite Hrp. done.
Qed.

(** A faithful gate decides as the loop does. *)
Lemma decide_faithful `{GateFaithful} b amounts : is_u64 b -> Forall is_u64 amounts ->
  decide_ordering b amounts = resolve_ordered_native b amounts.
Proof.
  intros Hb Ha. unfold decide_ordering, verified_resolve_ordering. destruct gate as [g|] eqn:Eg; [cbn [mbind option_bind]|done].
  destruct (distributed_exports_available g); [cbn [negb]|done].
  destruct (ask_shared_budget g (budget_wire b amounts)) as [out|] eqn:E; [cbn [mbind option_bind]|done].
  destruct (gate_reply g b amounts out Eg Hb Ha E) as [->|(vs & rem & acc & -> & Hacc & Hg)]; [done|].
  pose proof (greedy_nonneg _ _ _ _ Hg (proj1 Hb)). pose proof (greedy_le _ _ _ _ Hg Ha).
  rewrite <- (greedy_length _ _ _ _ Hg), parse_reply; [|unfold is_u64 in *; lia|done].
  symmetry. by apply greedy_native.
Qed.

(** ** Distribution *)

Lemma allowance_distribute_lookup b ceil l m p :
  foldl (distribute_one b ceil) m l !! p =
  if bool_decide (p ∈ l) then Some (allowance_new p (resource b) (version b) ceil) else m !! p.
Proof.
  revert m. induction l as [|x l IH]; intros m; cbn [foldl]; [by rewrite bool_decide_false by apply not_elem_of_nil|].
  rewrite IH. unfold distribute_one. destruct (decide (p ∈ l)) as [Hin|Hout].
  - rewrite !bool_decide_true by (try done; by apply list_elem_of_further). done.
  - rewrite (bool_decide_false (p ∈ l)) by done. destruct (decide (p = x)) as [->|Hne].
    + rewrite bool_decide_true by apply list_elem_of_here. by rewrite lookup_insert_eq.
    + rewrite bool_decide_false by (rewrite elem_of_cons; naive_solver). by rewrite lookup_insert_ne.
Qed.

Lemma distribute_allowances_lookup b p :
  allowances (distribute_allowances b) !! p =
  if bool_decide (p ∈ participants b) then Some (allowance_new p (resource b) (version b) (compute_allowance_ceiling b))
  else None.
Proof. cbn. by rewrite allowance_distribute_lookup, lookup_empty. Qed.

(** ** Resolution *)

Definition settled (b : SharedResourceBudget) (ds : list (bytes * Z)) : Z :=
  sum_over (fun d => if bool_decide (is_accepted b d.1 = Some true) then d.2 else 0) ds.

Lemma ordered_debits_sublist lace rid ordered : map fst (ordered_debits lace rid ordered) `sublist_of` ordered.
Proof.
  unfold ordered_debits. induction ordered as [|id l IH]; cbn [omap list_omap]; [constructor|].
  destruct (lace !! id) as [block|]; cbn [mbind option_bind]; [|by constructor].
  destruct (extract_debit_for_resource block rid) as [a|]; cbn; by constructor.
Qed.

Lemma elem_of_ordered_debits lace rid ordered id a : (id, a) ∈ ordered_debits lace rid ordered ->
  id ∈ ordered /\ exists block, lace !! id = Some block /\ extract_debit_for_resource block rid = Some a.
Proof.
  unfold ordered_debits. rewrite list_elem_of_omap. intros (id' & Hin & E).
  destruct (lace !! id') as [block|] eqn:El; [cbn in E|done].
  destruct (extract_debit_for_resource block rid) as [a'|] eqn:Ea; [cbn in E|done]. injection E as -> ->. eauto.
Qed.

Lemma ordered_debits_u64 lace rid ordered : map_Forall (fun _ => block_ok) lace ->
  Forall is_u64 (map snd (ordered_debits lace rid ordered)).
Proof.
  intros Hok. apply Forall_fmap, Forall_forall. intros [id a] Hin.
  apply elem_of_ordered_debits in Hin as (_ & block & El & Ea). eapply extract_for_u64; [by eapply Hok|done].
Qed.

Lemma record_other ds vs m id : id ∉ map fst ds -> foldl record_verdict m (zip ds vs) !! id = m !! id.
Proof.
  revert vs m. induction ds as [|d ds IH]; intros vs m Hn; [done|]. destruct vs as [|v vs]; [done|].
  cbn [zip zip_with foldl map] in *. apply not_elem_of_cons in Hn as [Hne Hn]. rewrite IH by done.
  unfold record_verdict. cbn. by rewrite lookup_insert_ne.
Qed.

Lemma verdicts_recorded ds vs m : NoDup (map fst ds) -> length vs = length ds ->
  Forall2 (fun d (v : bool) => foldl record_verdict m (zip ds vs) !! d.1 = Some (if v then Accepted else Rejected)) ds vs.
Proof.
  revert vs m. induction ds as [|d ds IH]; intros vs m Hnd Hlen; destruct vs as [|v vs]; try discriminate; [constructor|].
  cbn [map] in Hnd. inversion Hnd as [|? ? Hn Hnd']; subst. cbn [zip zip_with foldl]. constructor.
  - rewrite record_other by done. unfold record_verdict. cbn. by rewrite lookup_insert_eq.
  - apply IH; [done|]. cbn in Hlen. lia.
Qed.

Lemma settled_verdicts b ds vs : Forall2 (fun d v => is_accepted b d.1 = Some v) ds vs ->
  settled b ds = settled_by (map snd ds) vs.
Proof.
  unfold settled, settled_by, sum_over. induction 1 as [|d v ds vs Hd _ IH]; [done|].
  cbn [map zip zip_with foldr fst snd]. rewrite Hd, IH. destruct v; [by rewrite bool_decide_true|by rewrite bool_decide_false].
Qed.

Lemma resolve_inv `{GateFaithful} b ordered lace rid b' :
  is_u64 (total_balance b) -> map_Forall (fun _ => block_ok) lace -> resolve_with_ordering b ordered lace rid = Some b' ->
  let ds := ordered_debits lace rid ordered in
  exists vs rem, greedy (total_balance b) (map snd ds) vs rem /\ total_balance b' = rem /\
    resolutions b' = foldl record_verdict ∅ (zip ds vs) /\ state b' = Open /\ version b' = version b + 1 /\
    resource b' = resource b /\ participants b' = participants b /\ epoch_credits b' = 0 /\
    byzantine_tolerance b' = byzantine_tolerance b /\
    forall p, allowances b' !! p = if bool_decide (p ∈ participants b)
      then Some (allowance_new p (resource b') (version b') (compute_allowance_ceiling b')) else None.
Proof.
  intros Hb Hok Hr ds. unfold resolve_with_ordering in Hr. fold ds in Hr.
  rewrite decide_faithful in Hr by (done || by apply ordered_debits_u64).
  destruct (resolve_ordered_native (total_balance b) (map snd ds)) as [vs rem] eqn:Eg.
  destruct (checked_add_u64 (version b) 1) as [v|] eqn:Ev; [|done]. apply checked_add_u64_spec in Ev as [-> _].
  cbn [mbind option_bind] in Hr. injection Hr as <-. exists vs, rem. split; [by apply greedy_native|].
  cbn. split_and!; try done. intros p. by rewrite allowance_distribute_lookup, lookup_empty.
Qed.

Lemma resolve_verdicts `{GateFaithful} b ordered lace rid b' :
  is_u64 (total_balance b) -> map_Forall (fun _ => block_ok) lace -> NoDup ordered ->
  resolve_with_ordering b ordered lace rid = Some b' ->
  let ds := ordered_debits lace rid ordered in
  (forall i id a, ds !! i = Some (id, a) ->
     is_accepted b' id = Some (bool_decide (a <= total_balance b - settled b' (take i ds)))) /\
  total_balance b' = total_balance b - settled b' ds /\ 0 <= total_balance b'.
Proof.
  intros Hb Hok Hnd Hr ds. destruct (resolve_inv b ordered lace rid b' Hb Hok Hr) as (vs & rem & Hg & -> & Hres & _).
  fold ds in Hg, Hres. pose proof (greedy_length _ _ _ _ Hg) as Hlen. rewrite length_map in Hlen.
  assert (Hnd' : NoDup (map fst ds)) by (eapply sublist_NoDup; [exact Hnd|apply ordered_debits_sublist]).
  assert (Hall : Forall2 (fun d v => is_accepted b' d.1 = Some v) ds vs).
  { eapply Forall2_impl; [by apply (verdicts_recorded ds vs ∅)|]. cbn. intros d v E. unfold is_accepted.
    rewrite Hres, E. by destruct v. }
  split_and!.
  - intros i id a Hi.
    assert (Ha : map snd ds !! i = Some a) by (rewrite list_lookup_fmap, Hi; done).
    pose proof (greedy_verdict _ _ _ _ i a Hg Ha) as Hv. pose proof (Forall2_lookup_lr _ _ _ _ _ _ Hall Hi Hv) as Hl. cbn in Hl. rewrite Hl.
    rewrite (settled_verdicts b' (take i ds) (take i vs)) by (by apply Forall2_take). by rewrite fmap_take.
  - rewrite (settled_verdicts b' ds vs Hall). by apply greedy_settles.
  - eapply greedy_nonneg; [done|]. apply Hb.
Qed.

(** ** Histories *)

(** Every operation but the resolution by an ordering. *)
Inductive budget_step : SharedResourceBudget -> SharedResourceBudget -> Prop :=
| step_debit b agent n digest : 0 <= n -> budget_step b (try_debit b agent n digest).1
| step_optimistic b agent n digest : 0 <= n -> budget_step b (try_optimistic_debit b agent n digest).1
| step_credit b n : 0 <= n -> budget_step b (credit b n)
| step_update b agent n : is_u64 n -> budget_step b (update_spent b agent n)
| step_observe b agent n : 0 <= n -> budget_step b (record_observed_debit b agent n)
| step_sync b lace rid b' : map_Forall (fun _ => block_ok) lace -> sync_from_blocklace b lace rid = Some b' ->
    budget_step b b'
| step_sync_blocks b blocks rid b' : Forall block_ok blocks -> sync_from_blocklace_blocks b blocks rid = Some b' ->
    budget_step b b'
| step_sync_map b m : map_Forall (fun _ => is_u64) m -> budget_step b (sync_from_debit_map b m)
| step_escalate b l : budget_step b (escalate b l)
| step_rebalance b reports all b' r : Forall (fun p => 0 <= p.2) reports -> rebalance b reports all = Some (b', r) ->
    budget_step b b'
| step_add b agent : budget_step b (add_participant b agent).1
| step_remove b agent : budget_step b (remove_participant b agent).1.

(** *** Nothing but an ordering reopens a closed resource *)

Lemma update_spent_state b agent n : state (update_spent b agent n) = state b.
Proof. done. Qed.

Lemma fold_state {A} (f : SharedResourceBudget -> A -> SharedResourceBudget) l :
  (forall b x, state (f b x) = state b) -> forall b, state (foldl f b l) = state b.
Proof. intros H. induction l as [|x l IH]; intros b; cbn [foldl]; [done|]. by rewrite IH, H. Qed.

Lemma try_debit_state b agent n digest : state (try_debit b agent n digest).1 = state b.
Proof.
  unfold try_debit. case_bool_decide; cbn; [|done]. destruct (allowances b !! agent) as [a|]; [|done].
  by destruct (allowance_try_debit a n digest).
Qed.

Lemma close_if_overspent_inv b b' closed : close_if_overspent b = Some (b', closed) ->
  exists over, is_overspent b = Some over /\
    if closed then over = true /\ state b = Open /\ b' = escalate b [] else b' = b /\ (over = false \/ state b <> Open).
Proof.
  unfold close_if_overspent. destruct (is_overspent b) as [over|]; [cbn [mbind option_bind]|done]. intros [= H].
  exists over. split; [done|]. destruct over; cbn in H; [|by simplify_eq; auto]. case_bool_decide; simplify_eq; auto.
Qed.

Lemma observe_for_state rid b block : state (observe_for rid b block) = state b.
Proof. unfold observe_for. by destruct (extract_debit_for_resource block rid). Qed.

Lemma rebalance_state b reports all b' r : rebalance b reports all = Some (b', r) -> state b' = state b.
Proof.
  unfold rebalance. destruct (all && _); [by intros [= <- _]|]. destruct (try_fold _ _ _) as [[seen total]|e]; [|by intros [= <- _]].
  unfold open_epoch. destruct (checked_add_u64 _ _); [|done]. cbn. by intros [= <- _].
Qed.

Lemma step_closed b b' : budget_step b b' -> state b <> Open -> state b' <> Open.
Proof.
  intros [ | b0 agent n digest _ | | | | b0 lace rid b1 _ E | b0 blocks rid b1 _ E | b0 m _ | | b0 reports all b1 r _ E | | ];
    intros Hs; try done.
  - by rewrite try_debit_state.
  - unfold try_optimistic_debit. by rewrite bool_decide_false.
  - unfold sync_from_blocklace in E. destruct (foldl _ _ _) as [m|]; [cbn in E|done]. injection E as <-.
    by rewrite fold_state.
  - unfold sync_from_blocklace_blocks in E. destruct (close_if_overspent _) as [[b2 closed]|] eqn:Ec; [|done].
    injection E as <-. apply close_if_overspent_inv in Ec as (over & _ & Ec).
    rewrite fold_state in Ec by apply observe_for_state. destruct closed; [by destruct Ec as (_ & ? & _)|].
    destruct Ec as [-> _]. by rewrite fold_state by apply observe_for_state.
  - unfold sync_from_debit_map. by rewrite fold_state.
  - by rewrite (rebalance_state _ _ _ _ _ E).
  - unfold add_participant. by case_bool_decide.
  - unfold remove_participant. by case_bool_decide.
Qed.

Lemma steps_closed b b' : rtc budget_step b b' -> state b <> Open -> state b' <> Open.
Proof. induction 1; eauto using step_closed. Qed.

(** *** The invariant *)

Record allowance_of (b : SharedResourceBudget) (p : bytes) (a : AgentAllowance) : Prop := {
  ao_agent : al_agent a = p;
  ao_resource : al_resource a = resource b;
  ao_version : al_version a = version b;
  ao_ceiling : 0 <= ceiling a <= compute_allowance_ceiling b;
  ao_spent : is_u64 (spent a);
}.

Record budget_ok (b : SharedResourceBudget) : Prop := {
  bk_nodup : NoDup (participants b);
  bk_known : forall p, is_Some (allowances b !! p) <-> p ∈ participants b;
  bk_allowances : map_Forall (allowance_of b) (allowances b);
  bk_faults : 0 <= byzantine_tolerance b;
  bk_balance : is_u64 (total_balance b);
}.

Lemma allowance_ceiling_bounds b : budget_ok b -> 0 <= compute_allowance_ceiling b <= total_balance b.
Proof. intros Hok. apply quorum_share_bounds; [apply (bk_faults b Hok)|apply (bk_balance b Hok)]. Qed.

Lemma allowance_of_weaken b b' p a : allowance_of b p a -> resource b' = resource b -> version b' = version b ->
  compute_allowance_ceiling b <= compute_allowance_ceiling b' -> allowance_of b' p a.
Proof. intros [H1 H2 H3 H4 H5] Er Ev Hc. split; [done|congruence|congruence|lia|done]. Qed.

(** Replacing allowances by ones that differ in what was spent only. *)
Lemma alter_ok b agent f : budget_ok b ->
  (forall a, allowances b !! agent = Some a -> allowance_of b agent (f a)) ->
  budget_ok (with_allowances b (alter f agent (allowances b))).
Proof.
  intros Hok Hf. split; cbn; try apply Hok.
  - intros p. rewrite lookup_alter_is_Some. apply (bk_known b Hok).
  - intros p a. rewrite lookup_alter_Some. intros [(<- & a0 & Ha & ->)|[Hne Ha]];
      (apply (allowance_of_weaken b); [|done..]); [apply (Hf a0 Ha)|apply (bk_allowances b Hok p a Ha)].
Qed.

Lemma insert_known_alter b agent (a a' : AgentAllowance) : allowances b !! agent = Some a ->
  <[agent := a']> (allowances b) = alter (fun _ => a') agent (allowances b).
Proof.
  intros Ha. apply map_eq. intros p. destruct (decide (p = agent)) as [->|Hne].
  - by rewrite lookup_insert_eq, lookup_alter_eq, Ha.
  - by rewrite lookup_insert_ne, lookup_alter_ne.
Qed.

Lemma set_spent_of b p a n : allowance_of b p a -> is_u64 n -> allowance_of b p (set_spent n a).
Proof. intros [] Hn. by split. Qed.

Lemma saturating_add_u64_range x n : is_u64 x -> 0 <= n -> is_u64 (saturating_add_u64 x n).
Proof. unfold is_u64, saturating_add_u64, u64_max. lia. Qed.

Lemma with_same_allowances b : with_allowances b (allowances b) = b.
Proof. by destruct b. Qed.

Lemma try_debit_inv b agent n digest b' r : try_debit b agent n digest = (b', r) ->
  match r with
  | Ok _ => state b = Open /\ exists a, allowances b !! agent = Some a /\ n <= allowance_remaining a /\
      b' = with_allowances b (alter (fun _ => mkAllowance (al_agent a) (al_resource a) (al_version a) (ceiling a)
             (saturating_add_u64 (spent a) n) (debits a ++ [digest])) agent (allowances b))
  | Err _ => b' = b
  end.
Proof.
  unfold try_debit. case_bool_decide as Hs; cbn [negb]; [|by intros [= <- <-]].
  destruct (allowances b !! agent) as [a|] eqn:Ea; [|by intros [= <- <-]]. unfold allowance_try_debit.
  destruct (Z.ltb_spec (allowance_remaining a) n); intros [= <- <-].
  - by rewrite insert_id, with_same_allowances.
  - split; [done|]. exists a. split_and!; [done|done|]. by erewrite insert_known_alter.
Qed.

Lemma try_debit_ok b agent n digest : budget_ok b -> 0 <= n -> budget_ok (try_debit b agent n digest).1.
Proof.
  intros Hok Hn. destruct (try_debit b agent n digest) as [b' [u|e]] eqn:E; apply try_debit_inv in E; [|by subst].
  destruct E as (_ & a & Ea & _ & ->). cbn [fst]. apply alter_ok; [done|]. intros a0 Ha. rewrite Ea in Ha. injection Ha as <-.
  destruct (bk_allowances b Hok agent a Ea). split; cbn; try done. by apply saturating_add_u64_range.
Qed.

Lemma escalate_ok b l : budget_ok b -> budget_ok (escalate b l).
Proof.
  intros Hok. split; cbn; try apply Hok. intros p a Ha. apply (allowance_of_weaken b); [|done..].
  apply (bk_allowances b Hok p a Ha).
Qed.

Lemma optimistic_ok b agent n digest : budget_ok b -> 0 <= n -> budget_ok (try_optimistic_debit b agent n digest).1.
Proof.
  intros Hok Hn. pose proof (try_debit_ok b agent n digest Hok Hn) as H. unfold try_optimistic_debit.
  case_bool_decide; cbn [negb]; [|done]. destruct (try_debit b agent n digest) as [b' [u|e]]; [done|by apply escalate_ok].
Qed.

Lemma credit_ok b n : budget_ok b -> 0 <= n -> budget_ok (credit b n).
Proof.
  intros Hok Hn. pose proof (bk_balance b Hok) as Hb. split; cbn; try apply Hok.
  - intros p a Ha. apply (allowance_of_weaken b); [apply (bk_allowances b Hok p a Ha)|done..|].
    apply quorum_share_mono; [apply (bk_faults b Hok)|]. cbn. unfold is_u64, saturating_add_u64, u64_max in *. lia.
  - by apply saturating_add_u64_range.
Qed.

Lemma update_ok b agent n : budget_ok b -> is_u64 n -> budget_ok (update_spent b agent n).
Proof. intros Hok Hn. apply alter_ok; [done|]. intros a Ha. apply set_spent_of; [apply (bk_allowances b Hok agent a Ha)|done]. Qed.

Lemma observe_ok b agent n : budget_ok b -> 0 <= n -> budget_ok (record_observed_debit b agent n).
Proof.
  intros Hok Hn. apply alter_ok; [done|]. intros a Ha. pose proof (bk_allowances b Hok agent a Ha) as Hof.
  apply set_spent_of; [done|]. apply saturating_add_u64_range; [apply Hof|done].
Qed.

Lemma fold_ok {A} (f : SharedResourceBudget -> A -> SharedResourceBudget) (P : A -> Prop) l :
  (forall b x, budget_ok b -> P x -> budget_ok (f b x)) -> Forall P l -> forall b, budget_ok b -> budget_ok (foldl f b l).
Proof. intros Hf. induction 1 as [|x l Hx _ IH]; intros b Hb; cbn [foldl]; auto. Qed.

(** The sums by creator stay within the width, or panic. *)
Lemma sum_by_creator_range rid l : Forall (fun e : bytes * Block => block_ok e.2) l -> forall acc m,
  foldl (sum_by_creator rid) acc l = Some m -> (forall m0, acc = Some m0 -> map_Forall (fun _ => is_u64) m0) ->
  map_Forall (fun _ => is_u64) m.
Proof.
  induction 1 as [|e l He _ IH]; intros acc m Hf Hacc; cbn [foldl] in Hf; [by apply Hacc|].
  eapply IH; [exact Hf|]. intros m1 Hm1. unfold sum_by_creator in Hm1. destruct acc as [m0|]; [cbn [mbind option_bind] in Hm1|done].
  specialize (Hacc m0 eq_refl). destruct (extract_debit_for_resource e.2 rid) as [a|] eqn:Ea; [|by simplify_eq].
  pose proof (extract_for_u64 e.2 rid a He Ea) as Ha.
  destruct (checked_add_u64 _ a) as [s|] eqn:Es; [cbn [mbind option_bind] in Hm1|done]. apply checked_add_u64_spec in Es as [-> Hle].
  injection Hm1 as <-. apply map_Forall_insert_2; [|done].
  destruct (m0 !! creator e.2) as [t|] eqn:Et; cbn in *; [specialize (Hacc _ _ Et)|]; unfold is_u64 in *; cbn in *; lia.
Qed.

Lemma sync_ok b lace rid b' : budget_ok b -> map_Forall (fun _ => block_ok) lace -> sync_from_blocklace b lace rid = Some b' ->
  budget_ok b'.
Proof.
  intros Hok Hl. unfold sync_from_blocklace. destruct (foldl _ _ _) as [m|] eqn:E; [|done]. intros [= <-].
  apply sum_by_creator_range in E; [| |by intros m0 [= <-]; intros ? ?; rewrite lookup_empty].
  - eapply (fold_ok _ (fun _ => True)); [|by apply Forall_true|done]. intros b0 p Hb0 _. apply update_ok; [done|].
    destruct (m !! p) as [s|] eqn:Es; [apply (E _ _ Es)|]. unfold is_u64, u64_max. cbn. lia.
  - apply Forall_forall. intros [id block] Hin. apply elem_of_map_to_list in Hin. apply (Hl _ _ Hin).
Qed.

Lemma sync_blocks_ok b blocks rid b' : budget_ok b -> Forall block_ok blocks ->
  sync_from_blocklace_blocks b blocks rid = Some b' -> budget_ok b'.
Proof.
  intros Hok Hb. unfold sync_from_blocklace_blocks. destruct (close_if_overspent _) as [[b2 closed]|] eqn:Ec; [|done].
  intros [= <-]. assert (Hf : budget_ok (foldl (observe_for rid) b blocks)).
  { eapply fold_ok; [|exact Hb|done]. intros b0 block Hb0 Hx. unfold observe_for.
    destruct (extract_debit_for_resource block rid) as [a|] eqn:Ea; [|done]. apply observe_ok; [done|].
    apply (extract_for_u64 _ _ _ Hx Ea). }
  apply close_if_overspent_inv in Ec as (over & _ & Ec). destruct closed; [|by destruct Ec as [-> _]].
  destruct Ec as (_ & _ & ->). by apply escalate_ok.
Qed.

(** A budget whose allowances were just handed out. *)
Definition freshly_distributed (b : SharedResourceBudget) : Prop :=
  forall p, allowances b !! p = if bool_decide (p ∈ participants b)
    then Some (allowance_new p (resource b) (version b) (compute_allowance_ceiling b)) else None.

Lemma distribute_fresh b : freshly_distributed (distribute_allowances b).
Proof. intros p. by rewrite distribute_allowances_lookup. Qed.

Lemma fresh_ok b : freshly_distributed b -> NoDup (participants b) -> 0 <= byzantine_tolerance b ->
  is_u64 (total_balance b) -> budget_ok b.
Proof.
  intros Hf Hnd Ht Hb. split; try done.
  - intros p. rewrite Hf. case_bool_decide; [by split|]. split; [by intros [? ?]|done].
  - intros p a. rewrite Hf. case_bool_decide; [|done]. intros [= <-]. split; cbn; try done.
    + split; [apply quorum_share_bounds; [done|apply Hb]|lia].
Qed.

Lemma open_epoch_inv b n b' : open_epoch b n = Some b' ->
  freshly_distributed b' /\ total_balance b' = Z.max 0 (total_balance b - n) /\ version b' = version b + 1 /\
  participants b' = participants b /\ byzantine_tolerance b' = byzantine_tolerance b /\ resource b' = resource b /\
  state b' = state b /\ epoch_credits b' = 0 /\ resolutions b' = resolutions b.
Proof.
  unfold open_epoch. destruct (checked_add_u64 (version b) 1) as [v|] eqn:Ev; [cbn [mbind option_bind]|done].
  apply checked_add_u64_spec in Ev as [-> _]. intros [= <-]. split; [apply distribute_fresh|]. cbn. split_and!; try done.
  destruct (Z.ltb_spec (total_balance b) n); lia.
Qed.

(** *** Reports *)

(** A report the loop accepts. *)
Definition good_report (b : SharedResourceBudget) (p : bytes * Z) : Prop :=
  is_Some (allowances b !! p.1) /\ p.2 <= compute_allowance_ceiling b.

Lemma check_report_ok b seen total p acc : check_report b (seen, total) p = Ok acc ->
  good_report b p /\ (p.1 ∉ seen) /\ acc = (seen ∪ {[ p.1 ]}, saturating_add_u64 total p.2).
Proof.
  destruct p as [agent n]. unfold check_report, good_report. cbn [fst snd]. case_bool_decide as Hn; [discriminate|].
  case_bool_decide; [discriminate|]. destruct (Z.ltb_spec (compute_allowance_ceiling b) n); [discriminate|]. intros [= <-].
  split_and!; try done. by apply not_eq_None_Some.
Qed.

Lemma reports_loop b reports : forall seen total seen' total',
  Forall (fun p => 0 <= p.2) reports -> total <= u64_max ->
  try_fold (check_report b) (seen, total) reports = Ok (seen', total') ->
  Forall (good_report b) reports /\ NoDup (map fst reports) /\ (forall x, x ∈ map fst reports -> x ∉ seen) /\
  total' = saturating_add_u64 total (sum_over snd reports) /\ seen' = seen ∪ list_to_set (map fst reports).
Proof.
  induction reports as [|p reports IH]; intros seen total seen' total' Hn Ht; cbn [try_fold map].
  { intros [= <- <-]. split_and!; [constructor|constructor|intros x Hx; by apply elem_of_nil in Hx| |set_solver].
    unfold saturating_add_u64, sum_over; cbn. lia. }
  destruct (check_report b (seen, total) p) as [acc|] eqn:E; [|discriminate]. intros Hrest.
  apply check_report_ok in E as (Hk & Hns & ->). inversion Hn as [|? ? Hp Hn']; subst.
  apply IH in Hrest as (Ha & Hnd & Hout & -> & ->); [|done|unfold saturating_add_u64; lia]. split_and!.
  - by constructor.
  - constructor; [|done]. intros Hin. apply (Hout _ Hin). set_solver.
  - intros x [->|Hx]%elem_of_cons; [done|]. specialize (Hout x Hx). set_solver.
  - assert (Hs : 0 <= sum_over snd reports)
      by (apply sum_over_nonneg; intros x Hx; by rewrite Forall_forall in Hn'; apply Hn').
    unfold sum_over in *. cbn [foldr]. unfold saturating_add_u64. lia.
  - cbn [list_to_set]. set_solver.
Qed.

(** What is charged for participants that did not report. *)
Definition missing_charge (b : SharedResourceBudget) (reports : list (bytes * Z)) : Z :=
  sum_over (fun p => if bool_decide (p ∈ map fst reports) then 0 else compute_allowance_ceiling b) (participants b).

Lemma assume_missing_spec b seen l total : 0 <= compute_allowance_ceiling b -> 0 <= total <= u64_max ->
  foldl (fun acc p => if bool_decide (p ∈ seen) then acc else saturating_add_u64 acc (compute_allowance_ceiling b)) total l =
  saturating_add_u64 total (sum_over (fun p => if bool_decide (p ∈ (seen : gset bytes)) then 0 else compute_allowance_ceiling b) l).
Proof.
  intros Hc. revert total. induction l as [|x l IH]; intros total Ht; cbn [foldl].
  { unfold saturating_add_u64, sum_over; cbn. lia. }
  assert (Hs : 0 <= sum_over (fun p => if bool_decide (p ∈ seen) then 0 else compute_allowance_ceiling b) l)
    by (apply sum_over_nonneg; intros y _; case_bool_decide; lia).
  rewrite IH by (case_bool_decide; unfold saturating_add_u64; lia). unfold sum_over in *. cbn [foldr].
  case_bool_decide; unfold saturating_add_u64; lia.
Qed.

Lemma rebalance_inv b reports all b' r : budget_ok b -> Forall (fun p => 0 <= p.2) reports ->
  rebalance b reports all = Some (b', r) ->
  match r with
  | Err _ => b' = b
  | Ok total =>
      Forall (good_report b) reports /\ NoDup (map fst reports) /\
      (all = true -> (length (participants b) <= length reports)%nat) /\
      total = saturating_add_u64 0 (sum_over snd reports + if all then 0 else missing_charge b reports) /\
      open_epoch b total = Some b'
  end.
Proof.
  intros Hok Hn. unfold rebalance. destruct (all && _) eqn:Eall; [by intros [= <- <-]|].
  destruct (try_fold _ _ _) as [[seen total]|e] eqn:Ef; [|by intros [= <- <-]].
  destruct (open_epoch _ _) as [b1|] eqn:Eo; [cbn [mbind option_bind]|done]. intros [= <- <-].
  apply reports_loop in Ef as (Hg & Hnd & _ & -> & ->); [|done|done].
  assert (Hs : 0 <= sum_over snd reports)
    by (apply sum_over_nonneg; intros x Hx; by rewrite Forall_forall in Hn; apply Hn).
  split_and!; [done|done| | |done].
  - intros ->. cbn in Eall. apply Nat.ltb_ge in Eall. done.
  - destruct all; [unfold saturating_add_u64; f_equal; lia|]. unfold assume_missing.
    rewrite assume_missing_spec; [|apply (allowance_ceiling_bounds b Hok)|unfold saturating_add_u64, u64_max; lia].
    assert (Hm : sum_over (fun p => if bool_decide (p ∈ (∅ ∪ list_to_set (map fst reports) : gset bytes)) then 0
                                    else compute_allowance_ceiling b) (participants b) = missing_charge b reports).
    { apply sum_over_ext. intros x _. assert (Hx : x ∈ (∅ ∪ list_to_set (map fst reports) : gset bytes) <-> x ∈ map fst reports)
        by set_solver. by rewrite (bool_decide_ext _ _ Hx). }
    rewrite Hm. assert (0 <= missing_charge b reports); [|unfold saturating_add_u64; lia].
    apply sum_over_nonneg. intros y _. pose proof (allowance_ceiling_bounds b Hok). case_bool_decide; lia.
Qed.

Lemma reports_one_each b reports : budget_ok b -> Forall (good_report b) reports -> NoDup (map fst reports) ->
  (length (participants b) <= length reports)%nat -> map fst reports ≡ₚ participants b.
Proof.
  intros Hok Hg Hnd Hlen. apply submseteq_length_Permutation; [|by rewrite length_map].
  apply NoDup_submseteq; [done|]. intros x Hx. apply list_elem_of_fmap in Hx as (p & -> & Hp).
  rewrite Forall_forall in Hg. apply (bk_known b Hok). apply (Hg p Hp).
Qed.

Lemma epoch_ok b n b' : budget_ok b -> 0 <= n -> open_epoch b n = Some b' -> budget_ok b'.
Proof.
  intros Hok Hn (Hf & Hb & _ & Hp & Ht & _)%open_epoch_inv. pose proof (bk_balance b Hok) as Hr.
  apply fresh_ok; [done|rewrite Hp; apply Hok|rewrite Ht; apply Hok|]. unfold is_u64 in *. lia.
Qed.

Lemma add_ok b agent : budget_ok b -> budget_ok (add_participant b agent).1.
Proof.
  intros Hok. unfold add_participant. case_bool_decide as Hn; [|done]. pose proof (allowance_ceiling_bounds b Hok) as Hc.
  split; cbn; try apply Hok.
  - apply NoDup_app. split_and!; [apply Hok| |apply NoDup_singleton]. intros x Hx ->%list_elem_of_singleton.
    apply (bk_known b Hok) in Hx. rewrite Hn in Hx. by destruct Hx.
  - intros p. rewrite elem_of_app, list_elem_of_singleton. destruct (decide (p = agent)) as [->|Hne].
    + rewrite lookup_insert_eq. naive_solver.
    + rewrite lookup_insert_ne by done. rewrite (bk_known b Hok). naive_solver.
  - apply map_Forall_insert_2.
    + split; cbn; try done. unfold compute_allowance_ceiling in *. cbn. lia.
    + intros p a Ha. apply (allowance_of_weaken b); [apply (bk_allowances b Hok p a Ha)|done..].
Qed.

Lemma remove_participant_ok b agent : budget_ok b -> budget_ok (remove_participant b agent).1.
Proof.
  intros Hok. unfold remove_participant. case_bool_decide as Hn; [done|]. split; cbn; try apply Hok.
  - apply (sublist_NoDup _ (participants b)); [apply Hok|]. unfold retain.
    induction (participants b) as [|x l IH]; cbn; [constructor|]. destruct (negb _); by constructor.
  - intros p. rewrite elem_of_retain, lookup_delete_is_Some, (bk_known b Hok), negb_true_iff, bool_decide_eq_false. naive_solver.
  - intros p a. rewrite lookup_delete_Some. intros [_ Ha].
    apply (allowance_of_weaken b); [apply (bk_allowances b Hok p a Ha)|done..].
Qed.

Lemma step_ok b b' : budget_step b b' -> budget_ok b -> budget_ok b'.
Proof.
  intros [ | | | | | | | b0 m Hm | | b0 reports all b1 r Hn E | | ] Hok;
    eauto using try_debit_ok, optimistic_ok, credit_ok, update_ok, observe_ok, sync_ok, sync_blocks_ok, escalate_ok,
      add_ok, remove_participant_ok.
  - unfold sync_from_debit_map. eapply (fold_ok _ (fun e : bytes * Z => is_u64 e.2)); [|apply Forall_forall|done].
    + intros b1 e Hb1 He. by apply update_ok.
    + intros [p n] Hin. apply elem_of_map_to_list in Hin. apply (Hm _ _ Hin).
  - apply rebalance_inv in E; [|done|done]. destruct r as [total|e]; [|by subst].
    destruct E as (_ & _ & _ & -> & Ho). apply (epoch_ok _ _ _ Hok) in Ho; [done|].
    assert (0 <= sum_over snd reports)
      by (apply sum_over_nonneg; intros x Hx; by rewrite Forall_forall in Hn; apply Hn).
    assert (0 <= missing_charge b0 reports); [|destruct all; unfold saturating_add_u64, u64_max; lia].
    apply sum_over_nonneg. intros y _. pose proof (allowance_ceiling_bounds b0 Hok). case_bool_decide; lia.
Qed.

Section Reachable.
Context `{HF : GateFaithful}.

(** Histories of a budget over distinct participants. *)
Inductive budget_reachable : SharedResourceBudget -> Prop :=
| reach_new res balance l f b : is_u64 balance -> 0 <= f -> NoDup l -> budget_new res balance l f = Some (Ok b) ->
    budget_reachable b
| reach_step b b' : budget_reachable b -> budget_step b b' -> budget_reachable b'
| reach_resolve b ordered lace rid b' : budget_reachable b -> map_Forall (fun _ => block_ok) lace ->
    resolve_with_ordering b ordered lace rid = Some b' -> budget_reachable b'.

Lemma budget_reachable_ok b : budget_reachable b -> budget_ok b.
Proof.
  induction 1 as [res balance l f b Hb Hf Hnd E|b b' _ Hok Hs|b ordered lace rid b' _ Hok Hl Hr]; [|by eapply step_ok|].
  - unfold budget_new in E. destruct (m ← checked_mul_u64 2 f; checked_add_u64 m 1); [cbn [mbind option_bind] in E|done].
    destruct (_ <? _); [done|]. injection E as <-. by apply fresh_ok; [apply distribute_fresh|..].
  - destruct (resolve_inv b ordered lace rid b' (bk_balance b Hok) Hl Hr)
      as (vs & rem & Hg & Hb' & _ & _ & Hv & Hres & Hp & _ & Ht & Ha).
    pose proof (greedy_nonneg _ _ _ _ Hg (proj1 (bk_balance b Hok))).
    pose proof (greedy_le _ _ _ _ Hg (ordered_debits_u64 _ _ _ Hl)). pose proof (bk_balance b Hok).
    apply fresh_ok.
    + intros p. rewrite Ha. by rewrite Hp.
    + rewrite Hp. apply Hok.
    + rewrite Ht. apply Hok.
    + unfold is_u64 in *. lia.
Qed.

End Reachable.

(** ** The observer *)

(** No resource is both open and overspent. *)
Definition quiet (o : SharedBudgetObserver) : Prop :=
  map_Forall (fun _ b => state b = Open -> is_overspent b = Some false) (budgets o).

(** What the blocks show a participant to have spent of a resource. *)
Definition observed (r p : bytes) (blocks : list Block) : Z :=
  sum_over (fun block => match extract_resource_debit block with
                         | Some (r', a) => if bool_decide (r' = r /\ creator block = p) then a else 0
                         | None => 0
                         end) blocks.

Record watched (o0 : SharedBudgetObserver) (blocks : list Block) (o : SharedBudgetObserver) (escalated : list bytes)
    : Prop := {
  wa_known : forall r, is_Some (budgets o !! r) <-> is_Some (budgets o0 !! r);
  wa_quiet : quiet o;
  wa_once : NoDup escalated;
  wa_escalated : forall r b0 b, budgets o0 !! r = Some b0 -> budgets o !! r = Some b ->
    (r ∈ escalated <-> state b0 = Open /\ state b <> Open);
  wa_only : forall r, r ∈ escalated -> is_Some (budgets o0 !! r);
  wa_closed : forall r b0 b, budgets o0 !! r = Some b0 -> budgets o !! r = Some b -> state b0 <> Open -> state b <> Open;
  wa_spent : forall r b0 p a0, budgets o0 !! r = Some b0 -> allowances b0 !! p = Some a0 ->
    exists b a, budgets o !! r = Some b /\ allowances b !! p = Some a /\
      spent a = saturating_add_u64 (spent a0) (observed r p blocks);
}.

Lemma observed_nonneg r p blocks : Forall block_ok blocks -> 0 <= observed r p blocks.
Proof.
  intros Hok. apply sum_over_nonneg. intros block Hin. rewrite Forall_forall in Hok.
  destruct (extract_resource_debit block) as [[r' a]|] eqn:E; [|lia].
  pose proof (extract_amount_u64 _ _ _ (Hok block Hin) E) as [Ha _]. case_bool_decide; lia.
Qed.

Lemma observed_snoc r p blocks block :
  observed r p (blocks ++ [block]) = observed r p blocks + match extract_resource_debit block with
    | Some (r', a) => if bool_decide (r' = r /\ creator block = p) then a else 0 | None => 0 end.
Proof. unfold observed. rewrite sum_over_app. unfold sum_over at 2. cbn. lia. Qed.

(** A block that concerns no watched resource. *)
Lemma watched_skip o0 blocks o escalated block :
  watched o0 blocks o escalated ->
  (forall r a, extract_resource_debit block = Some (r, a) -> budgets o !! r = None) ->
  watched o0 (blocks ++ [block]) o escalated.
Proof.
  intros [H1 H2 H3 H4 H5 H6 H7] Hskip. split; try done. intros r b0 p a0 Hb0 Ha0. rewrite observed_snoc.
  replace (match extract_resource_debit block with Some (r', a) => _ | None => 0 end) with 0.
  - rewrite Z.add_0_r. eauto.
  - destruct (extract_resource_debit block) as [[r' a]|] eqn:E; [|done]. rewrite bool_decide_false; [done|].
    intros [-> _]. pose proof (Hskip r a eq_refl) as Hn. destruct (proj2 (H1 r) (ex_intro _ b0 Hb0)) as [b Hb]. congruence.
Qed.

Lemma record_observed_lookup b agent n p a : allowances b !! p = Some a ->
  exists a', allowances (record_observed_debit b agent n) !! p = Some a' /\
    spent a' = if bool_decide (agent = p) then saturating_add_u64 (spent a) n else spent a.
Proof.
  intros Ha. unfold record_observed_debit. cbn [with_allowances allowances]. destruct (decide (agent = p)) as [->|Hne].
  - rewrite lookup_alter_eq, Ha, bool_decide_true by done. eexists. split; [done|]. done.
  - rewrite lookup_alter_ne, bool_decide_false by done. eauto.
Qed.

Lemma close_effect b b' closed : close_if_overspent b = Some (b', closed) ->
  allowances b' = allowances b /\ (state b' <> Open <-> closed = true \/ state b <> Open) /\
  (closed = true -> state b = Open) /\ (state b' = Open -> is_overspent b' = Some false).
Proof.
  intros (over & Hover & Hc)%close_if_overspent_inv. destruct closed.
  - destruct Hc as (_ & Ho & ->). cbn. naive_solver.
  - destruct Hc as [-> Hor]. split_and!; [done|naive_solver|done|]. intros Ho. by destruct Hor as [->|Hno].
Qed.

(** A block that debits a watched resource. *)
Lemma watched_debit o0 blocks o escalated block rid n b b' closed :
  watched o0 blocks o escalated -> Forall block_ok blocks -> block_ok block ->
  extract_resource_debit block = Some (rid, n) -> budgets o !! rid = Some b ->
  close_if_overspent (record_observed_debit b (creator block) n) = Some (b', closed) ->
  watched o0 (blocks ++ [block]) (register o rid b') (if closed then escalated ++ [rid] else escalated).
Proof.
  intros [H1 H2 H3 H4 H5 H6 H7] Hbs Hbl Hx Hb Hc. apply close_effect in Hc as (Hal & Hst & Hcl & Hqu).
  change (state (record_observed_debit b (creator block) n)) with (state b) in Hst, Hcl.
  pose proof (extract_amount_u64 _ _ _ Hbl Hx) as [Hn _].
  destruct (proj1 (H1 rid) (ex_intro _ b Hb)) as [b00 Hb00].
  assert (Hfresh : closed = true -> rid ∉ escalated).
  { intros Hc Hin. apply (H4 rid b00 b Hb00 Hb) in Hin as [_ Hno]. by apply Hno, Hcl. }
  split; cbn [register budgets].
  - intros r. destruct (decide (r = rid)) as [->|Hne]; [|by rewrite lookup_insert_ne].
    rewrite lookup_insert_eq, Hb00. split; intros _; eauto.
  - by apply map_Forall_insert_2.
  - destruct closed; [|done]. apply NoDup_app. split_and!; [done| |apply NoDup_singleton].
    intros x Hx1 ->%list_elem_of_singleton. by apply Hfresh.
  - intros r b0 b1 Hb0. destruct (decide (r = rid)) as [->|Hne].
    + rewrite lookup_insert_eq. intros [= <-]. rewrite Hb0 in Hb00. injection Hb00 as <-. specialize (H4 rid b0 b Hb0 Hb).
      specialize (H6 rid b0 b Hb0 Hb). rewrite Hst. destruct closed.
      * rewrite elem_of_app, list_elem_of_singleton. specialize (Hcl eq_refl). destruct (decide (state b0 = Open)); naive_solver.
      * rewrite H4. naive_solver.
    + rewrite lookup_insert_ne by done. intros Hb1. rewrite <- (H4 r b0 b1 Hb0 Hb1). destruct closed; [|done].
      rewrite elem_of_app, list_elem_of_singleton. naive_solver.
  - intros r. destruct closed; [|apply H5]. rewrite elem_of_app, list_elem_of_singleton. intros [Hr| ->]; [by apply H5|eauto].
  - intros r b0 b1 Hb0. destruct (decide (r = rid)) as [->|Hne]; [|rewrite lookup_insert_ne by done; by apply H6].
    rewrite lookup_insert_eq. intros [= <-] Hno. apply Hst. right. by apply (H6 rid b0 b).
  - intros r b0 p a0 Hb0 Ha0. destruct (H7 r b0 p a0 Hb0 Ha0) as (b1 & a1 & Hb1 & Ha1 & Hs).
    rewrite observed_snoc, Hx. destruct (decide (r = rid)) as [->|Hne].
    + rewrite Hb in Hb1. injection Hb1 as <-. rewrite lookup_insert_eq. exists b'.
      destruct (record_observed_lookup b (creator block) n p a1 Ha1) as (a' & Ha' & Hs'). rewrite <- Hal in Ha'.
      exists a'. split_and!; [done|done|]. rewrite Hs', Hs. pose proof (observed_nonneg rid p blocks Hbs).
      destruct (decide (creator block = p)).
      * rewrite !bool_decide_true by done. unfold saturating_add_u64. lia.
      * rewrite !bool_decide_false by naive_solver. f_equal. lia.
    + rewrite lookup_insert_ne by done. rewrite bool_decide_false by naive_solver. rewrite Z.add_0_r. eauto.
Qed.

Lemma watched_update o blocks : quiet o -> (forall r b p a, budgets o !! r = Some b -> allowances b !! p = Some a -> is_u64 (spent a)) ->
  Forall block_ok blocks -> forall o' escalated, on_blocklace_update o blocks = Some (o', escalated) -> watched o blocks o' escalated.
Proof.
  intros Hq Hu. induction blocks as [|block blocks IH] using rev_ind; intros Hok o' escalated.
  { intros [= <- <-]. split; try done; [constructor|intros r b0 b -> [= <-]; set_solver|set_solver|by intros r b0 b -> [= <-]|].
    intros r b0 p a0 Hb0 Ha0. exists b0, a0. split_and!; try done. specialize (Hu r b0 p a0 Hb0 Ha0).
    unfold observed, sum_over, saturating_add_u64, is_u64 in *. cbn. lia. }
  apply Forall_app in Hok as [Hbs Hbl]. apply Forall_cons in Hbl as [Hbl _].
  unfold on_blocklace_update in *. rewrite foldl_app. cbn [foldl].
  destruct (foldl observe_block (Some (o, [])) blocks) as [[o1 esc]|] eqn:Ef; [|done]. specialize (IH Hbs o1 esc eq_refl).
  unfold observe_block. cbn [mbind option_bind]. destruct (extract_resource_debit block) as [[rid n]|] eqn:Ex.
  - destruct (budgets o1 !! rid) as [b|] eqn:Eb.
    + destruct (close_if_overspent _) as [[b' closed]|] eqn:Ec; [cbn [mbind option_bind]|done]. intros [= <- <-].
      apply (watched_debit _ _ _ _ _ _ _ _ _ _ IH Hbs Hbl Ex Eb Ec).
    + intros [= <- <-]. apply watched_skip; [done|]. intros r a. rewrite Ex. by intros [= <- <-].
  - intros [= <- <-]. apply watched_skip; [done|]. intros r a. by rewrite Ex.
Qed.

(** ** Theorems *)

(** C25: an ordering settles an overspent resource first come, first served.  With a
    faithful gate or none, a debit of the order is accepted exactly when the
    balance, less the accepted debits before it, covers it; the new balance is the
    old one less what was accepted and never negative; and the resource is open
    again in a new epoch with fresh allowances of that balance. *)
Theorem resolution_first_wins `{GateFaithful} (b b' : SharedResourceBudget) (ordered : list bytes)
    (lace : gmap bytes Block) (rid : bytes) :
  is_u64 (total_balance b) -> map_Forall (fun _ => block_ok) lace -> NoDup ordered ->
  resolve_with_ordering b ordered lace rid = Some b' ->
  let ds := ordered_debits lace rid ordered in
  (forall i id a, ds !! i = Some (id, a) ->
     is_accepted b' id = Some (bool_decide (a <= total_balance b - settled b' (take i ds)))) /\
  total_balance b' = total_balance b - settled b' ds /\ 0 <= total_balance b' /\
  state b' = Open /\ version b' = version b + 1 /\
  forall p, p ∈ participants b ->
    allowances b' !! p = Some (allowance_new p (resource b) (version b') (compute_allowance_ceiling b')).
Proof.
  intros Hb Hl Hnd Hr ds. destruct (resolve_verdicts b ordered lace rid b' Hb Hl Hnd Hr) as (H1 & H2 & H3).
  destruct (resolve_inv b ordered lace rid b' Hb Hl Hr) as (vs & rem & _ & _ & _ & Hs & Hv & Hres & _ & _ & _ & Ha).
  split_and!; try done. intros p Hp. by rewrite Ha, bool_decide_true, Hres by done.
Qed.

(** A closed resource stays closed until an ordering.  Whatever is observed,
    credited, rebalanced or joined in between, no debit is accepted, and a
    resolution by any ordering opens the resource again. *)
Theorem closed_until_ordered `{InstalledGate} (b b' : SharedResourceBudget) :
  state b <> Open -> rtc budget_step b b' -> version b' < u64_max ->
  (forall agent n digest, try_debit b' agent n digest = (b', Err (ResourceClosing (resource b'))) /\
     try_optimistic_debit b' agent n digest = (b', false)) /\
  forall ordered lace rid, exists b'', resolve_with_ordering b' ordered lace rid = Some b'' /\ state b'' = Open.
Proof.
  intros Hs Hr Hv. pose proof (steps_closed b b' Hr Hs) as Hs'. split.
  - intros agent n digest. unfold try_debit, try_optimistic_debit. by rewrite bool_decide_false.
  - intros ordered lace rid. unfold resolve_with_ordering. destruct (decide_ordering _ _) as [vs rem].
    unfold checked_add_u64. rewrite (proj2 (Z.leb_le _ _)) by lia. cbn [mbind option_bind]. eauto.
Qed.

(** In every history the participants, and they only, hold allowances of the
    current epoch, none with a ceiling above the share of the current balance, and
    an accepted debit of a positive amount leaves its agent within its ceiling and so within the
    balance. *)
Theorem allowances_within_balance `{GateFaithful} (b : SharedResourceBudget) :
  budget_reachable b ->
  budget_ok b /\ forall agent n digest b', 0 < n -> try_debit b agent n digest = (b', Ok tt) ->
    state b = Open /\ exists a a', allowances b !! agent = Some a /\ allowances b' !! agent = Some a' /\
      spent a' = spent a + n /\ debits a' = debits a ++ [digest] /\ spent a' <= ceiling a' <= total_balance b'.
Proof.
  intros Hok%budget_reachable_ok. split; [done|]. intros agent n digest b' Hn (Hs & a & Ea & Hle & ->)%try_debit_inv.
  split; [done|]. pose proof (bk_allowances b Hok agent a Ea) as [_ _ _ Hc Hsp]. pose proof (allowance_ceiling_bounds b Hok) as Hcb.
  pose proof (bk_balance b Hok). exists a. eexists. split; [done|]. cbn [with_allowances allowances].
  rewrite lookup_alter_eq, Ea. split; [done|]. cbn. unfold allowance_remaining, saturating_sub, saturating_add_u64, is_u64 in *.
  split_and!; try done; lia.
Qed.

(** The observer closes what blocks overspend.  When no open resource was
    overspent before an update, none is after it; the resources it reports are
    those that closed, each once; and every participant is charged, saturating, the
    debits its blocks carry. *)
Theorem observer_closes_overspent (o o' : SharedBudgetObserver) (blocks : list Block) (escalated : list bytes) :
  quiet o -> map_Forall (fun _ => budget_ok) (budgets o) -> Forall block_ok blocks ->
  on_blocklace_update o blocks = Some (o', escalated) -> watched o blocks o' escalated.
Proof.
  intros Hq Hok Hb Hu. eapply watched_update; try done. intros r b p a Hr Ha.
  apply (bk_allowances b (Hok r b Hr) p a Ha).
Qed.

(** A debit payload reads back as written, in a turn or a data block, whatever
    follows it; nothing else reads as that debit; and the two readers agree. *)
Theorem debit_payload_roundtrip (block : Block) (r : bytes) (a : Z) (data : bytes) :
  length r = 32%nat -> is_u64 a -> payload_data (payload block) = Some data -> Forall is_byte data ->
  (extract_resource_debit block = Some (r, a) <-> exists rest, data = encode_debit_payload r a ++ rest) /\
  (extract_debit_for_resource block r = Some a <-> extract_resource_debit block = Some (r, a)).
Proof.
  intros Hr Ha Hp Hbytes. split; [|apply extract_agrees]. split.
  - intros (data' & rest & Hp' & Hlen & -> & -> & ->)%extract_shape. rewrite Hp in Hp'. injection Hp' as ->.
    exists (drop 40 rest). unfold encode_debit_payload. cbn [app]. f_equal. cbn [length] in Hlen.
    assert (Hl : length (take 8 (drop 32 rest)) = 8%nat) by (rewrite length_take, length_drop; lia).
    rewrite <- Hl at 2. rewrite le_bytes_of_le_bytes.
    + rewrite <- app_assoc. change 40%nat with (32 + 8)%nat. rewrite <- (drop_drop rest 8 32), take_drop, take_drop. done.
    + apply Forall_cons in Hbytes as [_ Hbytes]. by apply Forall_take, Forall_drop.
  - intros (rest & ->). unfold extract_resource_debit. rewrite Hp. cbn [mbind option_bind].
    assert (Hlen : length (encode_debit_payload r a ++ rest) = (41 + length rest)%nat).
    { unfold encode_debit_payload. cbn [app length]. rewrite !length_app, length_le_bytes, Hr. lia. }
    destruct (Nat.ltb_spec (length (encode_debit_payload r a ++ rest)) DEBIT_PAYLOAD_MIN_SIZE) as [Hlt|_].
    { unfold DEBIT_PAYLOAD_MIN_SIZE in Hlt. lia. }
    rewrite bool_decide_true by done. cbn [negb]. unfold encode_debit_payload. cbn [app]. rewrite <- app_assoc.
    set (body := r ++ le_bytes 8 a ++ rest).
    change (Some (take 32 body, of_le_bytes (take 8 (drop 32 body))) = Some (r, a)). subst body.
    rewrite take_app_length' by done. rewrite drop_app_length' by done.
    rewrite take_app_length' by (by rewrite length_le_bytes). rewrite of_le_bytes_le_bytes.
    rewrite Z.mod_small; [done|]. unfold is_u64, u64_max in Ha. change (256 ^ Z.of_nat 8) with 18446744073709551616. lia.
Qed.

(** ** Concrete instances *)

(** A gate that reads the question and answers it. *)
Definition read_amounts (d : bytes) : option (list Z) :=
  match d with [] => Some [] | _ => mapM parse_u64 (split_on char_comma d) end.

Definition answer (wire : bytes) : option bytes :=
  match split_on char_semi wire with
  | [b; d] =>
      b ← strip_prefix (str_bytes "B=") b; b ← parse_u64 b;
      d ← strip_prefix (str_bytes "D=") d; amounts ← read_amounts d;
      let '(vs, rem) := resolve_ordered_native b amounts in Some (budget_reply vs rem (b - rem))
  | _ => None
  end.

Definition model_gate : CoordVerifiedGate := mkGate true (fun _ => None) (fun _ => None) answer.

#[local] Instance installed_model_gate : InstalledGate := Some model_gate.

Lemma parse_amounts l : Forall is_u64 l -> mapM parse_u64 (u64_to_string <$> l) = Some l.
Proof.
  intros Hl. apply mapM_Some_2. induction Hl as [|x l Hx _ IH]; [constructor|]. cbn [fmap list_fmap].
  constructor; [by apply u64_to_string_spec|done].
Qed.

Lemma amounts_free sep l : is_digit sep = false -> Forall is_u64 l -> Forall (Forall (fun c => c <> sep)) (u64_to_string <$> l).
Proof.
  intros Hs Hl. apply Forall_fmap. eapply Forall_impl; [exact Hl|]. intros x Hx. cbn. apply digits_free; [done|].
  by apply u64_to_string_spec.
Qed.

Lemma read_amounts_joined l : Forall is_u64 l -> read_amounts (join_with char_comma (u64_to_string <$> l)) = Some l.
Proof.
  intros Hl. destruct l as [|x l]; [done|]. unfold read_amounts.
  rewrite split_on_join; [|done|by apply amounts_free]. rewrite parse_amounts by done.
  destruct (join_with _ _) eqn:E; [|done]. exfalso. apply Forall_cons in Hl as [Hx _].
  destruct (u64_to_string_spec x Hx) as [_ Hp]. cbn [fmap list_fmap] in E.
  destruct (u64_to_string x) eqn:Ex; [done|]. destruct (u64_to_string <$> l); discriminate E.
Qed.

Lemma answer_wire b l : is_u64 b -> Forall is_u64 l ->
  answer (budget_wire b l) =
  let '(vs, rem) := resolve_ordered_native b l in Some (budget_reply vs rem (b - rem)).
Proof.
  intros Hb Hl. destruct (u64_to_string_spec b Hb) as [Hbd Hbp]. unfold answer, budget_wire.
  set (J := join_with char_comma (u64_to_string <$> l)).
  replace (str_bytes "B=" ++ u64_to_string b ++ str_bytes ";D=" ++ J)
    with ((str_bytes "B=" ++ u64_to_string b) ++ char_semi :: str_bytes "D=" ++ J) by (by rewrite <- app_assoc).
  assert (HJ : Forall (fun c => c <> char_semi) J) by (apply join_free; [done|by apply amounts_free]).
  rewrite split_on_cons by (repeat constructor; [done|done|by apply digits_free]).
  rewrite split_on_free by (by repeat constructor). rewrite !strip_prefix_app. cbn [mbind option_bind].
  rewrite Hbp. cbn [mbind option_bind]. subst J. by rewrite read_amounts_joined.
Qed.

#[local] Instance model_gate_faithful : GateFaithful.
Proof.
  intros g b l out [= <-] Hb Hl E. right. cbn [ask_shared_budget model_gate] in E. rewrite answer_wire in E by done.
  destruct (resolve_ordered_native b l) as [vs rem] eqn:Er. injection E as <-. apply greedy_native in Er.
  pose proof (greedy_nonneg _ _ _ _ Er (proj1 Hb)). pose proof (greedy_le _ _ _ _ Er Hl).
  exists vs, rem, (b - rem). split_and!; [done|unfold is_u64 in *; lia|done].
Qed.

Definition pool : bytes := fill32 7.
Definition agents : list bytes := [fill32 1; fill32 2; fill32 3].

Definition sample : SharedResourceBudget := distribute_allowances (mkBudget pool agents 1 0 ∅ 100 0 Open ∅).

Definition debit_block (agent : bytes) (n : Z) : Block :=
  mkBlock agent agent 0 (PTurn (encode_debit_payload pool n)) [] [] [].

Definition sample_blocks : list Block := [debit_block (fill32 1) 60; debit_block (fill32 2) 50; debit_block (fill32 3) 40].
Definition sample_order : list bytes := [fill32 101; fill32 102; fill32 103].
Definition sample_lace : gmap bytes Block := list_to_map (zip sample_order sample_blocks).

Lemma sample_lace_ok : map_Forall (fun _ => block_ok) sample_lace.
Proof.
  unfold sample_lace. repeat (apply map_Forall_insert_2; [vm_compute; repeat constructor; discriminate|]). apply map_Forall_empty.
Qed.

Lemma sample_budget_reachable : budget_reachable sample.
Proof.
  apply (reach_new pool 100 agents 1); [unfold is_u64, u64_max; lia|lia| |by vm_compute].
  apply (bool_decide_unpack _). by vm_compute.
Qed.

Lemma sample_ok : budget_ok sample.
Proof. apply budget_reachable_ok, sample_budget_reachable. Qed.

Definition resolved : SharedResourceBudget := default sample (resolve_with_ordering sample sample_order sample_lace pool).

Lemma resolution_first_wins_witness :
  (forall i id a, ordered_debits sample_lace pool sample_order !! i = Some (id, a) ->
     is_accepted resolved id =
       Some (bool_decide (a <= 100 - settled resolved (take i (ordered_debits sample_lace pool sample_order))))) /\
  total_balance resolved = 0 /\ is_accepted resolved (fill32 102) = Some false /\ is_accepted resolved (fill32 103) = Some true.
Proof.
  pose proof (resolution_first_wins sample resolved sample_order sample_lace pool
    ltac:(vm_compute; split; discriminate) sample_lace_ok ltac:(apply (bool_decide_unpack _); by vm_compute)
    ltac:(by vm_compute)) as (H1 & _).
  split; [exact H1|]. split_and!; by vm_compute.
Defined.

Lemma closed_until_ordered_witness :
  let b := credit (escalate sample []) 5 in
  try_optimistic_debit b (fill32 1) 1 (fill32 9) = (b, false) /\
  exists b'', resolve_with_ordering b sample_order sample_lace pool = Some b'' /\ state b'' = Open.
Proof.
  intros b. destruct (closed_until_ordered (escalate sample []) b) as [H1 H2].
  - discriminate.
  - apply rtc_once. apply step_credit. lia.
  - vm_compute. reflexivity.
  - split; [apply H1|apply H2].
Defined.

Lemma allowances_within_balance_witness :
  budget_reachable sample /\ exists a', allowances (try_debit sample (fill32 1) 50 (fill32 9)).1 !! fill32 1 = Some a' /\
    spent a' = 50 /\ spent a' <= ceiling a' <= 100.
Proof.
  split; [apply sample_budget_reachable|]. destruct (allowances_within_balance sample sample_budget_reachable) as [_ H].
  destruct (H (fill32 1) 50 (fill32 9) (try_debit sample (fill32 1) 50 (fill32 9)).1 ltac:(lia) ltac:(by vm_compute))
    as (_ & a & a' & Ha & Ha' & Hs & _ & Hc).
  exists a'. split; [exact Ha'|]. vm_compute in Ha. injection Ha as <-. split; [exact Hs|exact Hc].
Defined.

Definition watcher : SharedBudgetObserver := register observer_new pool sample.
Definition watcher_after : SharedBudgetObserver :=
  default watcher (fst <$> on_blocklace_update watcher sample_blocks).

Lemma observer_closes_overspent_witness :
  watched watcher sample_blocks watcher_after [pool] /\ quiet watcher_after.
Proof.
  assert (H : watched watcher sample_blocks watcher_after [pool]); [|by split; [|apply H]].
  apply observer_closes_overspent.
  - apply map_Forall_insert_2; [intros _; by vm_compute|apply map_Forall_empty].
  - apply map_Forall_insert_2; [apply sample_ok|apply map_Forall_empty].
  - repeat constructor; vm_compute; try discriminate.
  - by vm_compute.
Defined.

Lemma debit_payload_roundtrip_witness :
  extract_resource_debit (debit_block (fill32 1) 60) = Some (pool, 60) /\
  (extract_debit_for_resource (debit_block (fill32 1) 60) pool = Some 60).
Proof.
  destruct (debit_payload_roundtrip (debit_block (fill32 1) 60) pool 60 (encode_debit_payload pool 60)) as [H1 H2].
  - reflexivity.
  - split; vm_compute; discriminate.
  - reflexivity.
  - repeat constructor; vm_compute; discriminate.
  - assert (Hx : extract_resource_debit (debit_block (fill32 1) 60) = Some (pool, 60))
      by (apply H1; exists []; by rewrite app_nil_r).
    split; [exact Hx|by apply H2].
Defined.

(** ** Behaviour the comments do not promise *)

(** An optimistic debit is charged again when its own block is observed: one agent
    within its allowance closes the resource. *)
Lemma optimistic_debit_counted_twice :
  let b := (try_optimistic_debit sample (fill32 1) 60 (fill32 9)).1 in
  (try_optimistic_debit sample (fill32 1) 60 (fill32 9)).2 = true /\ state b = Open /\
  let b' := sync_from_blocklace_blocks b [debit_block (fill32 1) 60] pool in
  state <$> b' = Some (Closing []) /\ (b' ≫= total_spent) = Some 120.
Proof. cbv zeta. split_and!; by vm_compute. Qed.

(** What a removed participant spent is never deducted. *)
Lemma removed_spending_forgotten :
  let b := (try_debit sample (fill32 1) 60 (fill32 9)).1 in
  total_spent b = Some 60 /\
  (fun e => (total_balance e.1, e.2)) <$> rebalance (remove_participant b (fill32 1)).1 [(fill32 2, 0); (fill32 3, 0)] true
    = Some (100, Ok 0).
Proof. cbv zeta. split; by vm_compute. Qed.

(** A rebalance of a closed resource leaves it closed. *)
Lemma rebalance_keeps_closed b reports all b' total l :
  state b = Closing l -> rebalance b reports all = Some (b', Ok total) -> state b' = Closing l.
Proof. intros Hs Hr. by rewrite (rebalance_state _ _ _ _ _ Hr). Qed.

(** Two blocks whose debits do not fit a word stop the observer. *)
Lemma observation_can_panic :
  on_blocklace_update watcher [debit_block (fill32 1) u64_max; debit_block (fill32 2) 1] = None.
Proof. by vm_compute. Qed.
