(* ===== verification/Preconditions.v ===== *)
(** * Preconditions

    Models [cell/src/preconditions.rs]: what an action, or a leg of an atomic turn,
    asserts of a cell, of the height and of the time; the clauses that build it;
    its hash and its evaluation.  A witnessed predicate is opaque here: the hash
    needs its encoding ([WitnessedCodec]), the evaluation does not read it. *)

From stdpp Require Import base decidable option list gmap sorting strings.
From Stdlib Require Import ZArith Lia.
From S2P Require Import Prelude BabyBear Poseidon2 CapRoot Heap State.

Open Scope Z_scope.

Class WitnessedCodec := {
  WitnessedPredicate : Type;
  wp_bytes : WitnessedPredicate -> bytes;
}.

Record CellStatePrecondition : Type := mkCellPre {
  pre_nonce : option Z;
  min_nonce : option Z;
  min_balance : option Z;
  field_equals : list (nat * FieldElement);
  pre_proved_state : option bool;
}.

Definition cell_pre_default : CellStatePrecondition := mkCellPre None None None [] None.

Record NetworkPrecondition : Type := mkNetPre {
  min_height : option Z;
  max_height : option Z;
}.

Record TimeRange : Type := mkRange { range_start : Z; range_end : Z }.

Definition range_contains (r : TimeRange) (timestamp : Z) : bool :=
  (range_start r <=? timestamp) && (timestamp <=? range_end r).

Record EvalContext : Type := mkContext {
  ctx_block_height : Z;
  ctx_timestamp : Z;
  current_epoch : Z;
  sender : option bytes;
  sender_epoch_count : Z;
  revealed_preimage : option bytes;
}.

Definition minimal (block_height timestamp : Z) : EvalContext := mkContext block_height timestamp 0 None 0 None.

Inductive PreconditionError : Type :=
| NonceMismatch (expected actual : Z)
| NonceTooLow (required actual : Z)
| PreInsufficientBalance (required actual : Z)
| FieldMismatch (index : nat) (expected actual : FieldElement)
| InvalidFieldIndex (index : nat)
| HeightTooLow (required actual : Z)
| HeightTooHigh (max actual : Z)
| TimeOutOfRange (timestamp start stop : Z)
| ProvedStateMismatch (expected actual : bool).

Record Preconditions `{WitnessedCodec} : Type := mkPre {
  cell_state : option CellStatePrecondition;
  network : option NetworkPrecondition;
  valid_while : option TimeRange;
  witnessed : list WitnessedPredicate;
}.

Arguments mkPre {_} _ _ _ _.
Arguments cell_state {_} _.
Arguments network {_} _.
Arguments valid_while {_} _.
Arguments witnessed {_} _.

(** ** Evaluation *)

Definition check_opt {A E} (o : option A) (bad : A -> option E) : result unit E :=
  match o with
  | Some a => match bad a with Some e => Err e | None => Ok tt end
  | None => Ok tt
  end.

Definition check_field (s : CellState) (entry : nat * FieldElement) : result unit PreconditionError :=
  match get_field s entry.1 with
  | Some actual =>
      if bool_decide (actual = entry.2) then Ok tt else Err (FieldMismatch entry.1 entry.2 actual)
  | None => Err (InvalidFieldIndex entry.1)
  end.

Definition cell_pre_evaluate (p : CellStatePrecondition) (s : CellState) : result unit PreconditionError :=
  let? _ := check_opt (pre_nonce p) (fun n => if nonce s =? n then None else Some (NonceMismatch n (nonce s))) in
  let? _ := check_opt (min_nonce p) (fun n => if nonce s <? n then Some (NonceTooLow n (nonce s)) else None) in
  let? _ := check_opt (min_balance p) (fun n => if (balance s <? 0) || (balance s <? n)
                                                then Some (PreInsufficientBalance n (balance s)) else None) in
  let? _ := try_fold (fun _ entry => check_field s entry) tt (field_equals p) in
  check_opt (pre_proved_state p) (fun b => if Bool.eqb (proved_state s) b then None
                                           else Some (ProvedStateMismatch b (proved_state s))).

Definition net_pre_evaluate (p : NetworkPrecondition) (ctx : EvalContext) : result unit PreconditionError :=
  let? _ := check_opt (min_height p) (fun h => if ctx_block_height ctx <? h
                                               then Some (HeightTooLow h (ctx_block_height ctx)) else None) in
  check_opt (max_height p) (fun h => if h <? ctx_block_height ctx
                                     then Some (HeightTooHigh h (ctx_block_height ctx)) else None).

Section Preconditions.
Context `{HB : Blake3} `{HW : WitnessedCodec}.

Definition pre_default : Preconditions := mkPre None None None [].

Definition pre_evaluate (p : Preconditions) (s : CellState) (ctx : EvalContext) : result unit PreconditionError :=
  let? _ := match cell_state p with Some c => cell_pre_evaluate c s | None => Ok tt end in
  let? _ := match network p with Some n => net_pre_evaluate n ctx | None => Ok tt end in
  check_opt (valid_while p) (fun r => if range_contains r (ctx_timestamp ctx) then None
                                      else Some (TimeOutOfRange (ctx_timestamp ctx) (range_start r) (range_end r))).

(** ** The hash *)

Definition opt_u64_bytes (o : option Z) : bytes :=
  match o with Some z => 1 :: le_bytes 8 z | None => [0] end.

Definition cell_pre_bytes (c : CellStatePrecondition) : bytes :=
  opt_u64_bytes (pre_nonce c) ++ opt_u64_bytes (min_nonce c) ++ opt_u64_bytes (min_balance c) ++
  le_bytes 8 (Z.of_nat (length (field_equals c))) ++
  concat (map (fun e : nat * FieldElement => le_bytes 8 (Z.of_nat e.1) ++ e.2) (field_equals c)) ++
  match pre_proved_state c with Some b => [if (b : bool) then 1 else 0] | None => [] end.

Definition net_pre_bytes (n : NetworkPrecondition) : bytes :=
  le_bytes 8 (default 0 (min_height n)) ++ le_bytes 8 (default u64_max (max_height n)).

(** A signed word is written by its bits. *)
Definition range_bytes (r : TimeRange) : bytes :=
  le_bytes 8 (as_u64 (range_start r)) ++ le_bytes 8 (as_u64 (range_end r)).

Definition tagged {A} (o : option A) (f : A -> bytes) : bytes :=
  match o with Some a => 1 :: f a | None => [0] end.

Definition witnessed_bytes (w : WitnessedPredicate) : bytes :=
  le_bytes 8 (Z.of_nat (length (wp_bytes w))) ++ wp_bytes w.

Definition pre_hash (p : Preconditions) : bytes :=
  match cell_state p, network p, valid_while p, witnessed p with
  | None, None, None, [] => blake3_derive_key "dregg-empty-preconditions-v1" []
  | _, _, _, _ =>
      blake3_hash (str_bytes "preconditions-v1" ++ tagged (cell_state p) cell_pre_bytes ++
        tagged (network p) net_pre_bytes ++ tagged (valid_while p) range_bytes ++
        le_bytes 8 (Z.of_nat (length (witnessed p))) ++ concat (map witnessed_bytes (witnessed p)))
  end.

(** ** Clauses *)

Inductive Precondition : Type :=
| SlotEquals (index : nat) (value : FieldElement)
| SlotZero (index : nat)
| NonceAtLeast (n : Z)
| Witnessed (w : WitnessedPredicate).

(** [get_or_insert_with(Default::default)] and a change of the cell part. *)
Definition on_cell_state (p : Preconditions) (f : CellStatePrecondition -> CellStatePrecondition) : Preconditions :=
  mkPre (Some (f (default cell_pre_default (cell_state p)))) (network p) (valid_while p) (witnessed p).

Definition push_field (index : nat) (value : FieldElement) (c : CellStatePrecondition) : CellStatePrecondition :=
  mkCellPre (pre_nonce c) (min_nonce c) (min_balance c) (field_equals c ++ [(index, value)]) (pre_proved_state c).

Definition raise_nonce (n : Z) (c : CellStatePrecondition) : CellStatePrecondition :=
  mkCellPre (pre_nonce c) (Some (match min_nonce c with Some prev => Z.max prev n | None => n end)) (min_balance c)
    (field_equals c) (pre_proved_state c).

Definition apply_to (clause : Precondition) (p : Preconditions) : Preconditions :=
  match clause with
  | SlotEquals index value => on_cell_state p (push_field index value)
  | SlotZero index => on_cell_state p (push_field index zero32)
  | NonceAtLeast n => on_cell_state p (raise_nonce n)
  | Witnessed w => mkPre (cell_state p) (network p) (valid_while p) (witnessed p ++ [w])
  end.

Definition extend_clauses (p : Preconditions) (clauses : list Precondition) : Preconditions :=
  foldl (fun p c => apply_to c p) p clauses.

(** [builder().extend(clauses).build()] *)
Definition build (clauses : list Precondition) : Preconditions := extend_clauses pre_default clauses.

(** ** What an evaluation checks *)

Definition field_holds (s : CellState) (e : nat * FieldElement) : Prop := get_field s e.1 = Some e.2.

Record cell_holds (c : CellStatePrecondition) (s : CellState) : Prop := {
  ch_nonce : forall n, pre_nonce c = Some n -> nonce s = n;
  ch_min : forall n, min_nonce c = Some n -> n <= nonce s;
  ch_balance : forall n, min_balance c = Some n -> 0 <= balance s /\ n <= balance s;
  ch_fields : Forall (field_holds s) (field_equals c);
  ch_proved : forall b, pre_proved_state c = Some b -> proved_state s = b;
}.

Record pre_holds (p : Preconditions) (s : CellState) (ctx : EvalContext) : Prop := {
  ph_cell : forall c, cell_state p = Some c -> cell_holds c s;
  ph_low : forall n h, network p = Some n -> min_height n = Some h -> h <= ctx_block_height ctx;
  ph_high : forall n h, network p = Some n -> max_height n = Some h -> ctx_block_height ctx <= h;
  ph_time : forall r, valid_while p = Some r -> range_start r <= ctx_timestamp ctx <= range_end r;
}.

Lemma check_opt_ok {A E} (o : option A) (bad : A -> option E) :
  check_opt o bad = Ok tt <-> forall a, o = Some a -> bad a = None.
Proof.
  destruct o as [a|]; cbn; [|by split]. destruct (bad a) eqn:Eb; split; try done.
  - intros H. by specialize (H a eq_refl); congruence.
  - intros _ a' [= <-]. done.
Qed.

Lemma check_fields_ok s l : try_fold (fun _ e => check_field s e) tt l = Ok tt <-> Forall (field_holds s) l.
Proof.
  unfold field_holds. induction l as [|e l IH]; cbn [try_fold]; [by split|]. rewrite Forall_cons, <- IH. unfold check_field.
  destruct (get_field s e.1) as [a|]; [|naive_solver]. case_bool_decide; naive_solver.
Qed.

Lemma seq_ok {E} (a b : result unit E) : (let? _ := a in b) = Ok tt <-> a = Ok tt /\ b = Ok tt.
Proof. destruct a as [[]|e]; naive_solver. Qed.

Lemma cell_pre_evaluate_ok c s : cell_pre_evaluate c s = Ok tt <-> cell_holds c s.
Proof.
  unfold cell_pre_evaluate. rewrite !seq_ok, !check_opt_ok, check_fields_ok. split.
  - intros (H1 & H2 & H3 & H4 & H5). split; [|intros n Hn|intros n Hn|done|].
    + intros n Hn. specialize (H1 n Hn). destruct (Z.eqb_spec (nonce s) n); [done|discriminate].
    + specialize (H2 n Hn). destruct (Z.ltb_spec (nonce s) n); [discriminate|done].
    + specialize (H3 n Hn). destruct (Z.ltb_spec (balance s) 0); [discriminate|].
      destruct (Z.ltb_spec (balance s) n); [discriminate|done].
    + intros b Hb. specialize (H5 b Hb). destruct (Bool.eqb (proved_state s) b) eqn:Eb; [by apply Bool.eqb_prop|discriminate].
  - intros [H1 H2 H3 H4 H5]. split_and!; [intros n Hn..|done|intros b Hb].
    + by rewrite (H1 n Hn), Z.eqb_refl.
    + specialize (H2 n Hn). destruct (Z.ltb_spec (nonce s) n); [lia|done].
    + specialize (H3 n Hn). destruct (Z.ltb_spec (balance s) 0); [lia|]. destruct (Z.ltb_spec (balance s) n); [lia|done].
    + by rewrite (H5 b Hb), Bool.eqb_reflx.
Qed.

Lemma pre_evaluate_ok p s ctx : pre_evaluate p s ctx = Ok tt <-> pre_holds p s ctx.
Proof.
  unfold pre_evaluate, net_pre_evaluate. rewrite !seq_ok, check_opt_ok. split.
  - intros (H1 & H2 & H3). split.
    + intros c Hc. rewrite Hc in H1. by apply cell_pre_evaluate_ok.
    + intros n h Hn Hh. rewrite Hn in H2. rewrite seq_ok, !check_opt_ok in H2. destruct H2 as [H2 _]. specialize (H2 h Hh).
      destruct (Z.ltb_spec (ctx_block_height ctx) h); [discriminate|done].
    + intros n h Hn Hh. rewrite Hn in H2. rewrite seq_ok, !check_opt_ok in H2. destruct H2 as [_ H2]. specialize (H2 h Hh).
      destruct (Z.ltb_spec h (ctx_block_height ctx)); [discriminate|done].
    + intros r Hr. specialize (H3 r Hr). unfold range_contains in H3.
      destruct (Z.leb_spec (range_start r) (ctx_timestamp ctx)), (Z.leb_spec (ctx_timestamp ctx) (range_end r)); done || lia.
  - intros [H1 H2 H3 H4]. split_and!.
    + destruct (cell_state p) as [c|]; [|done]. by apply cell_pre_evaluate_ok, H1.
    + destruct (network p) as [n|]; [|done]. rewrite seq_ok, !check_opt_ok. split; intros h Hh.
      * specialize (H2 n h eq_refl Hh). destruct (Z.ltb_spec (ctx_block_height ctx) h); [lia|done].
      * specialize (H3 n h eq_refl Hh). destruct (Z.ltb_spec h (ctx_block_height ctx)); [lia|done].
    + intros r Hr. specialize (H4 r Hr). unfold range_contains.
      by rewrite (proj2 (Z.leb_le _ _)), (proj2 (Z.leb_le _ _)) by lia.
Qed.

(** What a clause asserts of a cell; a witnessed clause is left to the executor. *)
Definition clause_holds (c : Precondition) (s : CellState) : Prop :=
  match c with
  | SlotEquals index value => get_field s index = Some value
  | SlotZero index => get_field s index = Some zero32
  | NonceAtLeast n => n <= nonce s
  | Witnessed _ => True
  end.

Lemma cell_default_holds s : cell_holds cell_pre_default s.
Proof. by split. Qed.

Lemma push_field_holds i v c s : cell_holds (push_field i v c) s <-> cell_holds c s /\ get_field s i = Some v.
Proof.
  split.
  - intros [H1 H2 H3 H4 H5]. cbn in *. rewrite Forall_app, Forall_singleton in H4. by destruct H4.
  - intros [[H1 H2 H3 H4 H5] Hv]. split; cbn; try done. by rewrite Forall_app, Forall_singleton.
Qed.

Lemma raise_nonce_holds n c s : cell_holds (raise_nonce n c) s <-> cell_holds c s /\ n <= nonce s.
Proof.
  split.
  - intros [H1 H2 H3 H4 H5]. cbn in *. specialize (H2 _ eq_refl). destruct (min_nonce c) as [m|] eqn:Em.
    + split; [split; try done; intros k Hk; rewrite Em in Hk; injection Hk as <-; lia|lia].
    + split; [split; try done; congruence|lia].
  - intros [[H1 H2 H3 H4 H5] Hn]. split; cbn; try done. intros k [= <-]. destruct (min_nonce c) as [m|]; [|done].
    specialize (H2 m eq_refl). lia.
Qed.

Lemma on_cell_state_holds p f s ctx (P : Prop) :
  (forall c, cell_holds (f c) s <-> cell_holds c s /\ P) ->
  pre_holds (on_cell_state p f) s ctx <-> pre_holds p s ctx /\ P.
Proof.
  intros Hf. split.
  - intros [H1 H2 H3 H4]. specialize (H1 _ eq_refl). apply Hf in H1 as [H1 HP]. split; [|done]. split; try done.
    intros c Hc. by rewrite Hc in H1.
  - intros [[H1 H2 H3 H4] HP]. split; try done. intros c [= <-]. apply Hf. split; [|done].
    destruct (cell_state p) as [c|]; cbn; [by apply H1|apply cell_default_holds].
Qed.

Lemma apply_to_holds c p s ctx : pre_holds (apply_to c p) s ctx <-> pre_holds p s ctx /\ clause_holds c s.
Proof.
  destruct c as [i v|i|n|w]; cbn [apply_to clause_holds].
  - apply on_cell_state_holds. intros c. apply push_field_holds.
  - apply on_cell_state_holds. intros c. apply push_field_holds.
  - apply on_cell_state_holds. intros c. apply raise_nonce_holds.
  - split; [intros [H1 H2 H3 H4]; by split; [split|]|intros [[H1 H2 H3 H4] _]; by split].
Qed.

(** Clauses are a conjunction: preconditions extended with clauses evaluate to
    success exactly when they did before and every clause holds of the cell. *)
Theorem clauses_conjunction (p : Preconditions) (clauses : list Precondition) (s : CellState) (ctx : EvalContext) :
  pre_evaluate (extend_clauses p clauses) s ctx = Ok tt <->
  pre_evaluate p s ctx = Ok tt /\ Forall (fun c => clause_holds c s) clauses.
Proof.
  rewrite !pre_evaluate_ok. unfold extend_clauses. revert p. induction clauses as [|c l IH]; intros p; cbn [foldl].
  - split; [by split|by intros []].
  - rewrite IH, apply_to_holds, Forall_cons. naive_solver.
Qed.

End Preconditions.
