(* ===== verification/Atomic.v ===== *)
(** * Atomic turns of several parties

    Models the two-phase commit of [coord/src/atomic.rs]: the forest several nodes
    contribute to, the coordinator that proposes it, tallies signed votes and
    commits it by executing one turn, and the participant that votes and replays
    the commit.  Execution is that of [Execute]; the decision may come from the
    verified gate; signatures are the interface [Ed25519].

    Instants and durations are nanoseconds.  Of a receipt the model of the executor
    returns the computrons used, which stands for it here.  The texts that explain
    a refusal keep what they print as a value ([Reason]).  Private legs, and the
    wire encoding of a forest, are not modelled.  An outer [None] is a panic. *)

From stdpp Require Import base decidable option list gmap sorting strings.
From Stdlib Require Import ZArith Lia.
From S2P Require Import Prelude VerifiedGate BabyBear Poseidon2 CapRoot Heap State Permissions Facet.
From S2P Require Import Derivation Capability Lifecycle Cell Migration Merkle Ledger Notes.
From S2P Require Import Channels Journal Executor Forest Metering Conflict BudgetGate ExecuteTree Execute.
From S2P Require Import Preconditions TurnTrace.

Open Scope Z_scope.

Inductive CoordError : Type :=
| MissingDependency (turn_hash dep_hash : bytes)
| CausalCycle (turn_hash : bytes)
| DuplicateTurn (hash : bytes)
| SequenceGap (node_id : bytes) (expected got : Z)
| HashMismatch (claimed computed : bytes)
| InvalidCoordinatorState (expected actual : string)
| ParticipantRejected (participant : bytes) (reason : string)
| ThresholdNotMet (required received : Z)
| UnknownParticipant (id : bytes)
| DuplicateVote (participant : bytes)
| CoordPreconditionFailed (cell : CellId) (description : string)
| CoordEmptyForest
| NoParticipants
| InvalidThreshold (threshold participants : Z)
| InvalidVoteSignature (participant : bytes)
| CoordBudgetExceeded (estimated max_budget : Z)
| WireDecode (reason : string)
| TurnExecution (e : TurnError)
| CoordLedger (e : LedgerError).

(** The texts of refusals, by what they print. *)
Inductive Reason : Type :=
| RText (s : string)
| RInvalidForest (e : CoordError)
| RPrecondition (e : PreconditionError)
| RTimedOut (timeout : Z).

(** ** The forest *)

Record AtomicForest `{ProgramCodec} `{WitnessedCodec} : Type := mkAtomic {
  participants : list bytes;
  af_forest : CallForest;
  preconditions : list (CellId * Preconditions);
  initiator : CellId;
  fee : Z;
  af_hash : bytes;
}.

Arguments mkAtomic {_ _} _ _ _ _ _ _.
Arguments participants {_ _} _.
Arguments af_forest {_ _} _.
Arguments preconditions {_ _} _.
Arguments initiator {_ _} _.
Arguments fee {_ _} _.
Arguments af_hash {_ _} _.

(** [Action::hash], which the hash of a forest is computed from. *)
Class ActionHash `{ProgramCodec} := action_digest : TurnAction -> bytes.

Section Forest.
Context `{HB : Blake3} `{HC : ProgramCodec} `{HW : WitnessedCodec}.

Definition atomic_compute_hash (ps : list bytes) (forest_hash : bytes) (pre : list (CellId * Preconditions))
    (init : CellId) (fee : Z) : bytes :=
  blake3_hash (str_bytes "dregg-coord:atomic-forest" ++ concat ps ++ forest_hash ++
    concat (map (fun e : CellId * Preconditions => e.1 ++ pre_hash e.2) pre) ++ init ++ le_bytes 8 fee).

Definition atomic_new `{!ActionHash} (ps : list bytes) (f : CallForest) (pre : list (CellId * Preconditions)) (init : CellId) (fee : Z)
    : AtomicForest :=
  mkAtomic ps f pre init fee (atomic_compute_hash ps (forest_compute_hash action_digest f) pre init fee).

Definition validate (f : AtomicForest) : result unit CoordError :=
  match participants f with
  | [] => Err NoParticipants
  | _ => if forest_is_empty (af_forest f) then Err CoordEmptyForest else Ok tt
  end.

Definition participant_count (f : AtomicForest) : Z := Z.of_nat (length (participants f)).
Definition is_participant (f : AtomicForest) (node : bytes) : bool := bool_decide (node ∈ participants f).

Definition estimated_cost (f : AtomicForest) (costs : ComputronCosts) : Z :=
  saturating_mul_u64 (Z.of_nat (forest_action_count (af_forest f)))
    (saturating_add_u64 (action_base costs) (effect_base costs)).

(** *** The builder *)

Record AtomicForestBuilder : Type := mkBuilder {
  b_participants : list bytes;
  b_forest : CallForest;
  b_preconditions : list (CellId * Preconditions);
  b_initiator : option CellId;
  b_fee : Z;
}.

Definition builder_new : AtomicForestBuilder := mkBuilder [] forest_new [] None 0.
Definition builder_add_participant (b : AtomicForestBuilder) (node : bytes) : AtomicForestBuilder :=
  mkBuilder (b_participants b ++ [node]) (b_forest b) (b_preconditions b) (b_initiator b) (b_fee b).
Definition builder_set_forest (b : AtomicForestBuilder) (f : CallForest) : AtomicForestBuilder :=
  mkBuilder (b_participants b) f (b_preconditions b) (b_initiator b) (b_fee b).
Definition builder_add_precondition (b : AtomicForestBuilder) (cell : CellId) (p : Preconditions) : AtomicForestBuilder :=
  mkBuilder (b_participants b) (b_forest b) (b_preconditions b ++ [(cell, p)]) (b_initiator b) (b_fee b).
Definition builder_set_initiator (b : AtomicForestBuilder) (cell : CellId) : AtomicForestBuilder :=
  mkBuilder (b_participants b) (b_forest b) (b_preconditions b) (Some cell) (b_fee b).
Definition builder_set_fee (b : AtomicForestBuilder) (fee : Z) : AtomicForestBuilder :=
  mkBuilder (b_participants b) (b_forest b) (b_preconditions b) (b_initiator b) fee.

Definition builder_build `{!ActionHash} (b : AtomicForestBuilder) : result AtomicForest CoordError :=
  let? init := ok_or (b_initiator b) NoParticipants in
  let f := atomic_new (b_participants b) (b_forest b) (b_preconditions b) init (b_fee b) in
  let? _ := validate f in
  Ok f.

End Forest.

(** ** Votes *)

Inductive Vote : Type :=
| VYes (sig : bytes)
| VNo (reason : Reason) (sig : bytes).

Definition is_yes (v : Vote) : bool := match v with VYes _ => true | VNo _ _ => false end.
Definition is_no (v : Vote) : bool := match v with VNo _ _ => true | VYes _ => false end.

Definition VOTE_YES_FLAG : Z := 1.
Definition VOTE_NO_FLAG : Z := 0.
Definition ABORT_FLAG : Z := 2.

Definition vote_message (proposal_id forest_hash : bytes) (flag : Z) : bytes := proposal_id ++ forest_hash ++ [flag].

Section Votes.
Context `{HE : Ed25519}.

Definition sign_yes (proposal_id forest_hash key : bytes) : bytes :=
  ed_sign key (vote_message proposal_id forest_hash VOTE_YES_FLAG).
Definition sign_no (proposal_id forest_hash key : bytes) : bytes :=
  ed_sign key (vote_message proposal_id forest_hash VOTE_NO_FLAG).
Definition verify_yes (sig proposal_id forest_hash pubkey : bytes) : bool :=
  ed_verify pubkey (vote_message proposal_id forest_hash VOTE_YES_FLAG) sig.
Definition verify_no (sig proposal_id forest_hash pubkey : bytes) : bool :=
  ed_verify pubkey (vote_message proposal_id forest_hash VOTE_NO_FLAG) sig.

(** The check of a received vote, by its kind. *)
Definition verify_vote (v : Vote) (proposal_id forest_hash pubkey : bytes) : bool :=
  match v with
  | VYes sig => verify_yes sig proposal_id forest_hash pubkey
  | VNo _ sig => verify_no sig proposal_id forest_hash pubkey
  end.

End Votes.

(** ** Deciding *)

Inductive Decision : Type := DCommit | DAbort | DPending.

#[export] Instance Decision_eq_dec : EqDecision Decision.
Proof. solve_decision. Defined.

Definition tally_wire (yes no n threshold : Z) : bytes :=
  str_bytes "y=" ++ u64_to_string yes ++ str_bytes ";n=" ++ u64_to_string no ++
  str_bytes ";N=" ++ u64_to_string n ++ str_bytes ";t=" ++ u64_to_string threshold.

Definition verified_decision `{InstalledGate} (yes no n threshold : Z) : option Decision :=
  g ← gate;
  if negb (distributed_exports_available g) then None
  else match ask_decide_2pc g (tally_wire yes no n threshold) with
       | Some V2Commit => Some DCommit
       | Some V2Abort => Some DAbort
       | Some V2Pending => Some DPending
       | None => None
       end.

Definition count_votes (p : Vote -> bool) (votes : gmap bytes Vote) : Z :=
  Z.of_nat (length (List.filter (fun e : bytes * Vote => p e.2) (map_to_list votes))).

(** ** The coordinator *)

(** Of a receipt, the hash the executor records as the new head of the agent,
    which covers the whole receipt, and the computrons used. *)
Record TurnReceipt : Type := mkReceipt {
  rc_hash : bytes;
  rc_computrons_used : Z;
}.

Inductive CoordinatorState `{ProgramCodec} `{WitnessedCodec} : Type :=
| Idle
| Proposing (forest : AtomicForest) (votes : gmap bytes Vote) (proposal_id : bytes) (proposed_at : option Z)
| CommittedState (receipt : TurnReceipt) (proposal_id : bytes)
| AbortedState (reason : Reason) (proposal_id : bytes).

Definition state_name `{ProgramCodec} `{WitnessedCodec} (s : CoordinatorState) : string :=
  match s with
  | Idle => "Idle"
  | Proposing _ _ _ _ => "Proposing"
  | CommittedState _ _ => "Committed"
  | AbortedState _ _ => "Aborted"
  end.

Record ProposeMessage `{ProgramCodec} `{WitnessedCodec} : Type := mkPropose {
  pm_forest : AtomicForest;
  pm_coordinator : bytes;
  pm_proposal_id : bytes;
}.

Record CommitMessage : Type := mkCommit {
  cm_proposal_id : bytes;
  cm_receipt : TurnReceipt;
  cm_signatures : list (bytes * bytes);
}.

Record AbortMessage : Type := mkAbort {
  am_proposal_id : bytes;
  am_reason : Reason;
  am_rejectors : list bytes;
  am_signature : bytes;
}.

Record Coordinator `{ProgramCodec} `{WitnessedCodec} : Type := mkCoordinator {
  co_state : CoordinatorState;
  threshold : Z;
  node_id : bytes;
  signing_key : bytes;
  costs : ComputronCosts;
  max_budget : Z;
  participant_keys : gmap bytes bytes;
  proposal_timeout : Z;
}.

Arguments mkCoordinator {_ _} _ _ _ _ _ _ _ _.
Arguments co_state {_ _} _.
Arguments threshold {_ _} _.
Arguments node_id {_ _} _.
Arguments signing_key {_ _} _.
Arguments costs {_ _} _.
Arguments max_budget {_ _} _.
Arguments participant_keys {_ _} _.
Arguments proposal_timeout {_ _} _.

Definition seconds (n : Z) : Z := n * 1000000000.

(** [a.duration_since(b)] is zero when [b] is later. *)
Definition duration_since (now start : Z) : Z := Z.max 0 (now - start).

(** *** Executing a forest *)

Section Execution.
Context `{HB : Blake3} `{HC : ProgramCodec} `{HO : TurnOracles} `{HP : !ProgramSize} `{HK : !TurnChecks}
  `{HT : !TurnCrypto} `{HW : WitnessedCodec}.

(** [TurnExecutor::new(costs)]: no verifier, no channels, no fee recipients, and
    empty note sets and receipt heads. *)
Definition fresh_executor : TurnExecutor := mkExecutor 0 0 1000 None None ∅ ∅.
Definition fresh_config (c : ComputronCosts) : NodeConfig := mkConfig c ∅ None None None.
Definition fresh_node (L : Ledger) : Node := mkNode (mkExec L [] as_new as_new as_new []) None ∅ [].

(** *** The coordinator's execution *)

Definition atomic_turn (f : AtomicForest) (n : Z) : Turn :=
  mkTurn (initiator f) n (af_forest f) (fee f) None None None [] (str_bytes "atomic multi-party turn").

Definition execute_forest (c : ComputronCosts) (f : AtomicForest) (L : Ledger)
    : option (Ledger * result TurnReceipt CoordError) :=
  match get L (initiator f) with
  | None => Some (L, Err (TurnExecution (TE_CellNotFound (initiator f))))
  | Some agent_cell =>
      let turn := atomic_turn f (nonce (c_state agent_cell)) in
      '(node', r) ← execute fresh_executor (fresh_config c) turn (fresh_node L);
      let L' := x_ledger (n_state node') in
      Some (L', match r with
                | Committed used => Ok (mkReceipt (receipt_hash turn L L' used) used)
                | Rejected e => Err (TurnExecution e)
                end)
  end.

(** *** The replay of a participant *)

Definition replay_turn (f : AtomicForest) (n : Z) : Turn :=
  mkTurn (initiator f) n (af_forest f) (fee f) None None None [] (str_bytes "atomic multi-party turn").

(** The turn a participant builds from its own ledger, and its execution there;
    [None] in the result when the initiator is not hosted, before anything ran. *)
Definition replay_forest (c : ComputronCosts) (f : AtomicForest) (L : Ledger)
    : option (option (Ledger * result TurnReceipt CoordError)) :=
  match get L (initiator f) with
  | None => Some None
  | Some agent_cell =>
      let turn := replay_turn f (nonce (c_state agent_cell)) in
      '(node', r) ← execute fresh_executor (fresh_config c) turn (fresh_node L);
      let L' := x_ledger (n_state node') in
      Some (Some (L', match r with
                      | Committed used => Ok (mkReceipt (receipt_hash turn L L' used) used)
                      | Rejected e => Err (TurnExecution e)
                      end))
  end.

End Execution.

Section Coordinator.
Context `{HB : Blake3} `{HC : ProgramCodec} `{HO : TurnOracles} `{HP : !ProgramSize} `{HK : !TurnChecks}
  `{HT : !TurnCrypto} `{HW : WitnessedCodec} `{HE : Ed25519} `{HG : InstalledGate}.

Definition coordinator_new (node key : bytes) (threshold : Z) (c : ComputronCosts) (budget : Z) (keys : gmap bytes bytes)
    : Coordinator :=
  mkCoordinator Idle threshold node key c budget keys (seconds 30).

Definition with_proposal_timeout (c : Coordinator) (timeout : Z) : Coordinator :=
  mkCoordinator (co_state c) (threshold c) (node_id c) (signing_key c) (costs c) (max_budget c) (participant_keys c) timeout.

Definition with_state (c : Coordinator) (s : CoordinatorState) : Coordinator :=
  mkCoordinator s (threshold c) (node_id c) (signing_key c) (costs c) (max_budget c) (participant_keys c)
    (proposal_timeout c).

Definition proposal_id_for (forest_hash coordinator : bytes) : bytes :=
  blake3_hash (str_bytes "dregg-coord:proposal" ++ forest_hash ++ coordinator).

Definition compute_proposal_id (c : Coordinator) (f : AtomicForest) : bytes := proposal_id_for (af_hash f) (node_id c).

Definition propose (c : Coordinator) (now : Z) (f : AtomicForest) : Coordinator * result ProposeMessage CoordError :=
  match co_state c with
  | Idle =>
      match validate f with
      | Err e => (c, Err e)
      | Ok _ =>
          if (threshold c =? 0) || (participant_count f <? threshold c)
          then (c, Err (InvalidThreshold (threshold c) (participant_count f)))
          else if max_budget c <? estimated_cost f (costs c)
          then (c, Err (CoordBudgetExceeded (estimated_cost f (costs c)) (max_budget c)))
          else
            let id := compute_proposal_id c f in
            (with_state c (Proposing f ∅ id (Some now)), Ok (mkPropose _ _ f (node_id c) id))
      end
  | s => (c, Err (InvalidCoordinatorState "Idle" (state_name s)))
  end.

(** *** Tallying *)

Definition current_tally (c : Coordinator) : option (Z * Z * Z * Z) :=
  match co_state c with
  | Proposing f votes _ _ => Some (count_votes is_yes votes, count_votes is_no votes, participant_count f, threshold c)
  | _ => None
  end.

Definition decision_wire (c : Coordinator) : option bytes :=
  (fun '(yes, no, n, t) => tally_wire yes no n t) <$> current_tally c.

(** The difference panics when the threshold exceeds the participants. *)
Definition evaluate_votes_native (c : Coordinator) : option Decision :=
  match co_state c with
  | Proposing f votes _ _ =>
      if threshold c <=? count_votes is_yes votes then Some DCommit
      else if participant_count f <? threshold c then None
      else if participant_count f - threshold c <? count_votes is_no votes then Some DAbort
      else Some DPending
  | _ => Some DPending
  end.

Definition evaluate_votes (c : Coordinator) : option Decision :=
  match (t ← current_tally c; let '(yes, no, n, thr) := t in verified_decision yes no n thr) with
  | Some d => Some d
  | None => evaluate_votes_native c
  end.

Definition receive_vote (c : Coordinator) (from : bytes) (v : Vote)
    : option (Coordinator * result (option Decision) CoordError) :=
  match co_state c with
  | Proposing f votes id at_ =>
      if negb (is_participant f from) then Some (c, Err (UnknownParticipant from))
      else if bool_decide (is_Some (votes !! from)) then Some (c, Err (DuplicateVote from))
      else match participant_keys c !! from with
           | None => Some (c, Err (UnknownParticipant from))
           | Some pk =>
               if negb (verify_vote v id (af_hash f) pk) then Some (c, Err (InvalidVoteSignature from))
               else
                 let c' := with_state c (Proposing f (<[from := v]> votes) id at_) in
                 d ← evaluate_votes c';
                 Some (c', Ok (if bool_decide (d = DPending) then None else Some d))
           end
  | s => Some (c, Err (InvalidCoordinatorState "Proposing" (state_name s)))
  end.

(** *** Committing and aborting *)

Definition yes_signature (e : bytes * Vote) : option (bytes * bytes) :=
  match e.2 with VYes sig => Some (e.1, sig) | VNo _ _ => None end.

Definition commit (c : Coordinator) (L : Ledger) : option (Coordinator * Ledger * result CommitMessage CoordError) :=
  match co_state c with
  | Proposing f votes id _ =>
      if count_votes is_yes votes <? threshold c
      then Some (c, L, Err (ThresholdNotMet (threshold c) (count_votes is_yes votes)))
      else
        '(L', r) ← execute_forest (costs c) f L;
        Some (match r with
              | Ok receipt =>
                  (with_state c (CommittedState receipt id), L',
                   Ok (mkCommit id receipt (omap yes_signature (map_to_list votes))))
              | Err e => (c, L', Err e)
              end)
  | s => Some (c, L, Err (InvalidCoordinatorState "Proposing" (state_name s)))
  end.

Definition sign_abort (proposal_id key : bytes) : bytes := ed_sign key (proposal_id ++ [ABORT_FLAG]).

Definition verify_abort (m : AbortMessage) (pubkey : bytes) : bool :=
  ed_verify pubkey (am_proposal_id m ++ [ABORT_FLAG]) (am_signature m).

Definition rejectors (votes : gmap bytes Vote) : list bytes :=
  map fst (List.filter (fun e : bytes * Vote => is_no e.2) (map_to_list votes)).

Definition abort (c : Coordinator) (reason : Reason) : Coordinator * result AbortMessage CoordError :=
  match co_state c with
  | Proposing _ votes id _ =>
      (with_state c (AbortedState reason id),
       Ok (mkAbort id reason (rejectors votes) (sign_abort id (signing_key c))))
  | s => (c, Err (InvalidCoordinatorState "Proposing" (state_name s)))
  end.

Definition check_timeout (c : Coordinator) (now : Z) : Coordinator * option AbortMessage :=
  match co_state c with
  | Proposing _ votes id (Some start) =>
      if duration_since now start <? proposal_timeout c then (c, None)
      else
        let reason := RTimedOut (proposal_timeout c) in
        (with_state c (AbortedState reason id),
         Some (mkAbort id reason (rejectors votes) (sign_abort id (signing_key c))))
  | _ => (c, None)
  end.

Definition reset (c : Coordinator) : Coordinator := with_state c Idle.

End Coordinator.

(** ** The participant *)

Record Participant `{ProgramCodec} : Type := mkParticipant {
  p_cell_id : CellId;
  p_node_id : bytes;
  p_signing_key : bytes;
  p_ledger : Ledger;
  p_costs : ComputronCosts;
  vote_timeout : Z;
  voted_yes_at : option Z;
  active_proposal : option bytes;
}.

Arguments mkParticipant {_} _ _ _ _ _ _ _ _.
Arguments p_cell_id {_} _.
Arguments p_node_id {_} _.
Arguments p_signing_key {_} _.
Arguments p_ledger {_} _.
Arguments p_costs {_} _.
Arguments vote_timeout {_} _.
Arguments voted_yes_at {_} _.
Arguments active_proposal {_} _.

Section Participant.
Context `{HB : Blake3} `{HC : ProgramCodec} `{HO : TurnOracles} `{HP : !ProgramSize} `{HK : !TurnChecks}
  `{HT : !TurnCrypto} `{HW : WitnessedCodec} `{HE : Ed25519}.

Definition participant_with_costs (cell : CellId) (node key : bytes) (L : Ledger) (c : ComputronCosts) : Participant :=
  mkParticipant cell node key L c (seconds 60) None None.

Definition participant_new (cell : CellId) (node key : bytes) (L : Ledger) : Participant :=
  participant_with_costs cell node key L default_costs.

Definition with_vote_timeout (p : Participant) (timeout : Z) : Participant :=
  mkParticipant (p_cell_id p) (p_node_id p) (p_signing_key p) (p_ledger p) (p_costs p) timeout (voted_yes_at p)
    (active_proposal p).

(** The lock a Yes vote takes: its time and its proposal. *)
Definition with_lock (p : Participant) (lock : option (Z * bytes)) : Participant :=
  mkParticipant (p_cell_id p) (p_node_id p) (p_signing_key p) (p_ledger p) (p_costs p) (vote_timeout p)
    (fst <$> lock) (snd <$> lock).

Definition with_ledger (p : Participant) (L : Ledger) : Participant :=
  mkParticipant (p_cell_id p) (p_node_id p) (p_signing_key p) L (p_costs p) (vote_timeout p) (voted_yes_at p)
    (active_proposal p).

Definition has_vote_timed_out (p : Participant) (now : Z) : bool :=
  match voted_yes_at p with
  | Some at_ => vote_timeout p <=? duration_since now at_
  | None => false
  end.

Definition timeout_abort (p : Participant) : Participant := with_lock p None.

(** The first of the participant's own preconditions that fails. *)
Fixpoint failing_leg (p : Participant) (legs : list (CellId * Preconditions)) : option Reason :=
  match legs with
  | [] => None
  | (cell_id, pre) :: rest =>
      match (if bool_decide (cell_id = p_cell_id p) then cell_state pre else None) with
      | None => failing_leg p rest
      | Some cell_pre =>
          match get (p_ledger p) (p_cell_id p) with
          | None => Some (RText "our cell not found in local ledger")
          | Some cell =>
              match cell_pre_evaluate cell_pre (c_state cell) with
              | Err e => Some (RPrecondition e)
              | Ok _ => failing_leg p rest
              end
          end
      end
  end.

Definition evaluate_proposal (p : Participant) (now : Z) (proposal_id : bytes) (f : AtomicForest) : Participant * Vote :=
  let refuse reason := (p, VNo reason (sign_no proposal_id (af_hash f) (p_signing_key p))) in
  if negb (is_participant f (p_node_id p)) then refuse (RText "not listed as participant")
  else match validate f with
       | Err e => refuse (RInvalidForest e)
       | Ok _ =>
           match failing_leg p (preconditions f) with
           | Some reason => refuse reason
           | None => (with_lock p (Some (now, proposal_id)),
                      VYes (sign_yes proposal_id (af_hash f) (p_signing_key p)))
           end
       end.

Definition check_signature (keys : gmap bytes bytes) (proposal_id forest_hash : bytes) (_ : unit) (e : bytes * bytes)
    : result unit CoordError :=
  match keys !! e.1 with
  | None => Err (UnknownParticipant e.1)
  | Some pk => if verify_yes e.2 proposal_id forest_hash pk then Ok tt else Err (InvalidVoteSignature e.1)
  end.

Definition apply_commit (p : Participant) (m : CommitMessage) (f : AtomicForest) (keys : gmap bytes bytes) (threshold : Z)
    : option (Participant * result TurnReceipt CoordError) :=
  if Z.of_nat (length (cm_signatures m)) <? threshold
  then Some (p, Err (ThresholdNotMet threshold (Z.of_nat (length (cm_signatures m)))))
  else match try_fold (check_signature keys (cm_proposal_id m) (af_hash f)) tt (cm_signatures m) with
       | Err e => Some (p, Err e)
       | Ok _ =>
           outcome ← replay_forest (p_costs p) f (p_ledger p);
           Some (match outcome with
                 | None => (p, Err (TurnExecution (TE_CellNotFound (initiator f))))
                 | Some (L', r) => (with_lock (with_ledger p L') None, r)
                 end)
       end.

Definition verify_commit (m : CommitMessage) (f : AtomicForest) (keys : gmap bytes bytes) : bool :=
  forallb (fun e : bytes * bytes =>
    match keys !! e.1 with
    | None => false
    | Some pk => verify_yes e.2 (cm_proposal_id m) (af_hash f) pk
    end) (cm_signatures m).

End Participant.

(** ** Counting votes *)

Lemma length_filter_perm {A} (p : A -> bool) (l l' : list A) :
  l ≡ₚ l' -> length (List.filter p l) = length (List.filter p l').
Proof.
  induction 1 as [|x l l' _ IH|x y l|l l' l'' _ IH1 _ IH2]; cbn [List.filter]; [done| | |lia].
  - destruct (p x); cbn; lia.
  - by destruct (p x), (p y).
Qed.

Lemma count_insert (p : Vote -> bool) (votes : gmap bytes Vote) k v : votes !! k = None ->
  count_votes p (<[k := v]> votes) = (if p v then 1 else 0) + count_votes p votes.
Proof.
  intros Hk. unfold count_votes. rewrite (length_filter_perm _ _ _ (map_to_list_insert votes k v Hk)). cbn [List.filter snd].
  destruct (p v); cbn [length]; lia.
Qed.

Lemma count_filter (p : Vote -> bool) (votes : gmap bytes Vote) :
  count_votes p votes = Z.of_nat (size (filter (fun e : bytes * Vote => p e.2 = true) votes)).
Proof.
  induction votes as [|k v votes Hk IH] using map_ind; [done|]. rewrite count_insert, map_filter_insert by done. cbn [snd].
  destruct (p v) eqn:Ev; cbn [decide].
  - rewrite decide_True by done. rewrite map_size_insert_None; [lia|]. apply map_lookup_filter_None. by left.
  - rewrite decide_False by done. rewrite delete_id by done. lia.
Qed.

Lemma count_mono (p : Vote -> bool) (votes votes' : gmap bytes Vote) : votes ⊆ votes' -> count_votes p votes <= count_votes p votes'.
Proof.
  intros Hsub. rewrite !count_filter. apply Nat2Z.inj_le, map_subseteq_size, map_subseteq_spec.
  intros k v. rewrite !map_lookup_filter_Some. intros [Hk Hv]. split; [by eapply lookup_weaken|done].
Qed.

Lemma count_total (votes : gmap bytes Vote) : count_votes is_yes votes + count_votes is_no votes = Z.of_nat (size votes).
Proof.
  induction votes as [|k v votes Hk IH] using map_ind; [done|]. rewrite !count_insert, map_size_insert_None by done.
  destruct v; cbn [is_yes is_no]; lia.
Qed.

Lemma voters_bound (votes : gmap bytes Vote) (l : list bytes) : (forall k, is_Some (votes !! k) -> k ∈ l) ->
  Z.of_nat (size votes) <= Z.of_nat (length l).
Proof.
  intros Hin. rewrite <- size_dom. apply Nat2Z.inj_le. transitivity (size (list_to_set (C := gset bytes) l)).
  - apply subseteq_size. intros k Hk. apply elem_of_dom in Hk. apply elem_of_list_to_set. by apply Hin.
  - clear Hin. induction l as [|x l IH]; [done|]. cbn [list_to_set length]. rewrite size_union_alt, size_singleton.
    pose proof (subseteq_size (list_to_set l ∖ {[x]} : gset bytes) (list_to_set l)) as Hs. specialize (Hs ltac:(set_solver)). lia.
Qed.

(** The votes as they would be if everyone left voted Yes. *)
Definition all_yes (votes : gmap bytes Vote) (l : list bytes) : gmap bytes Vote :=
  votes ∪ gset_to_gmap (VYes []) (list_to_set l).

Lemma all_yes_count votes l : NoDup l -> (forall k, is_Some (votes !! k) -> k ∈ l) ->
  count_votes is_yes (all_yes votes l) = Z.of_nat (length l) - count_votes is_no votes.
Proof.
  intros Hnd Hin. pose proof (count_total (all_yes votes l)) as Ht.
  assert (Hs : size (all_yes votes l) = length l).
  { rewrite <- size_dom. rewrite <- (size_list_to_set (C := gset bytes) l Hnd). f_equal. unfold all_yes.
    rewrite dom_union_L, dom_gset_to_gmap. apply subseteq_union_1_L. intros k Hk%elem_of_dom.
    apply elem_of_list_to_set. by apply Hin. }
  assert (Hn : count_votes is_no (all_yes votes l) = count_votes is_no votes); [|lia].
  rewrite !count_filter. do 2 f_equal. apply map_eq. intros k. apply option_eq. intros v. rewrite !map_lookup_filter_Some.
  unfold all_yes. rewrite lookup_union_Some_raw, lookup_gset_to_gmap_Some. destruct (votes !! k); naive_solver.
Qed.

(** ** The protocol *)

(** A gate that answers a tally answers it as documented. *)
Class DecisionFaithful `{HG : InstalledGate} : Prop :=
  decision_reply : forall g yes no n t v,
    gate = Some g -> is_u64 yes -> is_u64 no -> is_u64 n -> 0 < t <= n ->
    ask_decide_2pc g (tally_wire yes no n t) = Some v ->
    (v = V2Commit <-> t <= yes) /\ (v = V2Abort <-> yes < t /\ n - t < no).

Section Protocol.
Context `{HB : Blake3} `{HC : ProgramCodec} `{HO : TurnOracles} `{HP : !ProgramSize} `{HK : !TurnChecks}
  `{HT : !TurnCrypto} `{HW : WitnessedCodec} `{HE : Ed25519} `{HG : InstalledGate}.

(** A vote of a listed participant, signed for this proposal with its key. *)
Definition vote_valid (c : Coordinator) (f : AtomicForest) (id : bytes) (from : bytes) (v : Vote) : Prop :=
  from ∈ participants f /\ exists pk, participant_keys c !! from = Some pk /\ verify_vote v id (af_hash f) pk = true.

Definition coord_ok (c : Coordinator) : Prop :=
  0 <= threshold c /\
  match co_state c with
  | Proposing f votes id _ =>
      id = compute_proposal_id c f /\ 0 < threshold c <= participant_count f /\ map_Forall (vote_valid c f id) votes /\
      validate f = Ok tt /\ estimated_cost f (costs c) <= max_budget c
  | _ => True
  end.

Inductive coord_step : Coordinator -> Coordinator -> Prop :=
| cs_propose c now f : coord_step c (propose c now f).1
| cs_vote c from v c' r : receive_vote c from v = Some (c', r) -> coord_step c c'
| cs_commit c L c' L' r : commit c L = Some (c', L', r) -> coord_step c c'
| cs_abort c reason : coord_step c (abort c reason).1
| cs_timeout c now : coord_step c (check_timeout c now).1
| cs_reset c : coord_step c (reset c).

Inductive coord_reachable : Coordinator -> Prop :=
| cr_new node key t cs budget keys : 0 <= t -> coord_reachable (coordinator_new node key t cs budget keys)
| cr_step c c' : coord_reachable c -> coord_step c c' -> coord_reachable c'.

Lemma propose_inv c now f c' m : propose c now f = (c', Ok m) ->
  co_state c = Idle /\ (validate f = Ok tt /\ estimated_cost f (costs c) <= max_budget c) /\ threshold c <> 0 /\
  threshold c <= participant_count f /\
  c' = with_state c (Proposing f ∅ (compute_proposal_id c f) (Some now)).
Proof.
  unfold propose. destruct (co_state c); try done. destruct (validate f) as [[]|]; [|done].
  destruct (Z.eqb_spec (threshold c) 0); [done|]. destruct (Z.ltb_spec (participant_count f) (threshold c)); [done|]. cbn [orb].
  destruct (Z.ltb_spec (max_budget c) (estimated_cost f (costs c))); [done|]. by intros [= <- _].
Qed.

Lemma propose_err c now f e : (propose c now f).2 = Err e -> (propose c now f).1 = c.
Proof.
  unfold propose. destruct (co_state c); try done. destruct (validate f) as [[]|]; [|done].
  destruct (_ || _); [done|]. by destruct (_ <? _).
Qed.

Lemma receive_vote_inv c from v c' r : receive_vote c from v = Some (c', r) ->
  match r with
  | Err _ => c' = c
  | Ok _ => exists f votes id at_, co_state c = Proposing f votes id at_ /\ votes !! from = None /\
      vote_valid c f id from v /\ c' = with_state c (Proposing f (<[from := v]> votes) id at_)
  end.
Proof.
  unfold receive_vote. destruct (co_state c) as [|f votes id at_| |] eqn:Es; try (intros [= <- <-]; done).
  unfold is_participant. case_bool_decide as Hp; cbn [negb]; [|by intros [= <- <-]].
  case_bool_decide as Hd; [by intros [= <- <-]|].
  destruct (participant_keys c !! from) as [pk|] eqn:Ek; [|by intros [= <- <-]].
  destruct (verify_vote v id (af_hash f) pk) eqn:Ev; cbn [negb]; [|by intros [= <- <-]].
  destruct (evaluate_votes _) as [d|]; [cbn [mbind option_bind]|done]. intros [= <- <-].
  exists f, votes, id, at_. split_and!; [done|by apply eq_None_not_Some| |done]. split; [done|]. by exists pk.
Qed.

Lemma commit_inv c L c' L' r : commit c L = Some (c', L', r) ->
  match r with
  | Err _ => c' = c
  | Ok m => exists f votes id at_ receipt, co_state c = Proposing f votes id at_ /\
      threshold c <= count_votes is_yes votes /\ execute_forest (costs c) f L = Some (L', Ok receipt) /\
      c' = with_state c (CommittedState receipt id) /\ m = mkCommit id receipt (omap yes_signature (map_to_list votes))
  end.
Proof.
  unfold commit. destruct (co_state c) as [|f votes id at_| |] eqn:Es; try (intros [= <- <- <-]; done).
  destruct (Z.ltb_spec (count_votes is_yes votes) (threshold c)); [by intros [= <- <- <-]|].
  destruct (execute_forest (costs c) f L) as [[L1 r1]|] eqn:Ex; [cbn [mbind option_bind]|done].
  destruct r1 as [receipt|e]; intros [= <- <- <-]; [|done]. exists f, votes, id, at_, receipt. done.
Qed.

Lemma with_state_ok c s : coord_ok c ->
  match s with Proposing _ _ _ _ => False | _ => True end -> coord_ok (with_state c s).
Proof. intros [Ht _] Hs. split; [done|]. by destruct s. Qed.

Lemma step_coord_ok c c' : coord_step c c' -> coord_ok c -> coord_ok c'.
Proof.
  intros [c0 now f|c0 from v c1 r E|c0 L c1 L' r E|c0 reason|c0 now|c0] Hok.
  - destruct (propose c0 now f) as [c1 [m|e]] eqn:E.
    2: { pose proof (propose_err c0 now f e) as He. rewrite E in He. cbn [fst snd] in *. by rewrite He. }
    apply propose_inv in E as (Hs & Hv & Hz & Hle & ->). destruct Hok as [Ht _]. split; [done|]. cbn. split; [done|]. split; [lia|].
    split; [apply map_Forall_empty|done].
  - apply receive_vote_inv in E. destruct r as [d|e]; [|by subst]. destruct E as (f & votes & id & at_ & Hs & Hn & Hv & ->).
    destruct Hok as [Ht Hok]. rewrite Hs in Hok. destruct Hok as (Hid & Hth & Hall & Hval). split; [done|]. cbn. split; [done|]. split; [done|].
    split; [by apply map_Forall_insert_2|done].
  - apply commit_inv in E. destruct r as [m|e]; [|by subst]. destruct E as (f & votes & id & at_ & receipt & _ & _ & _ & -> & _).
    by apply with_state_ok.
  - unfold abort. destruct (co_state c0) eqn:Es; try done. by apply with_state_ok.
  - unfold check_timeout. destruct (co_state c0) as [|f votes id [start|]| |] eqn:Es; try done.
    destruct (_ <? _); [done|]. by apply with_state_ok.
  - by apply with_state_ok.
Qed.

Lemma coord_reachable_ok c : coord_reachable c -> coord_ok c.
Proof. induction 1; [by split|]. by eapply step_coord_ok. Qed.

(** *** Signatures of a commit *)

Lemma yes_signatures_spec votes id sig :
  (id, sig) ∈ omap yes_signature (map_to_list votes) <-> votes !! id = Some (VYes sig).
Proof.
  rewrite list_elem_of_omap. split.
  - intros ([k v] & Hin & E). apply elem_of_map_to_list in Hin. unfold yes_signature in E. cbn in E. destruct v; [|done].
    by injection E as -> ->.
  - intros Hv. exists (id, VYes sig). split; [by apply elem_of_map_to_list|done].
Qed.

Lemma yes_signatures_shape (l : list (bytes * Vote)) :
  map fst (omap yes_signature l) `sublist_of` map fst l /\
  length (omap yes_signature l) = length (List.filter (fun e : bytes * Vote => is_yes e.2) l).
Proof.
  induction l as [|[k [sig|r sig]] l [IH1 IH2]]; [done| |].
  - change (omap yes_signature ((k, VYes sig) :: l)) with ((k, sig) :: omap yes_signature l).
    cbn [map List.filter is_yes fst snd length]. split; [by constructor|by f_equal].
  - change (omap yes_signature ((k, VNo r sig) :: l)) with (omap yes_signature l).
    cbn [map List.filter is_yes fst snd]. split; [by constructor|done].
Qed.

Lemma yes_signatures_distinct votes : NoDup (map fst (omap yes_signature (map_to_list votes))).
Proof. apply (sublist_NoDup _ (map fst (map_to_list votes))); [apply (NoDup_fst_map_to_list votes)|]. apply yes_signatures_shape. Qed.

Lemma signatures_check keys id h sigs : Forall (fun e : bytes * bytes => exists pk, keys !! e.1 = Some pk /\ verify_yes e.2 id h pk = true) sigs ->
  try_fold (check_signature keys id h) tt sigs = Ok tt.
Proof.
  induction 1 as [|e sigs (pk & Hk & Hv) _ IH]; [done|]. cbn [try_fold]. unfold check_signature at 1.
  by rewrite Hk, Hv.
Qed.

Lemma commit_signatures c f votes id at_ : coord_ok c -> co_state c = Proposing f votes id at_ ->
  Forall (fun e : bytes * bytes => e.1 ∈ participants f /\
    exists pk, participant_keys c !! e.1 = Some pk /\ verify_yes e.2 id (af_hash f) pk = true)
    (omap yes_signature (map_to_list votes)).
Proof.
  intros [_ Hok] Hs. rewrite Hs in Hok. destruct Hok as (_ & _ & Hall & _). apply Forall_forall. intros [k sig] Hin.
  apply yes_signatures_spec in Hin. destruct (Hall k _ Hin) as [Hp Hv]. done.
Qed.

(** *** Decisions *)

Lemma coord_tally c f votes id at_ : coord_ok c -> co_state c = Proposing f votes id at_ ->
  (forall k, is_Some (votes !! k) -> k ∈ participants f) /\ 0 < threshold c <= participant_count f.
Proof.
  intros [_ Hok] Hs. rewrite Hs in Hok. destruct Hok as (_ & Ht & Hall & _). split; [|done]. intros k [v Hv]. apply (Hall k v Hv).
Qed.

Lemma tally_range f votes : Z.of_nat (length (participants f)) <= u64_max ->
  (forall k, is_Some (votes !! k) -> k ∈ participants f) ->
  is_u64 (count_votes is_yes votes) /\ is_u64 (count_votes is_no votes) /\ is_u64 (participant_count f) /\
  count_votes is_yes votes + count_votes is_no votes <= participant_count f.
Proof.
  intros Hw Hin. pose proof (count_total votes). pose proof (voters_bound votes (participants f) Hin).
  assert (0 <= count_votes is_yes votes) by (unfold count_votes; lia).
  assert (0 <= count_votes is_no votes) by (unfold count_votes; lia).
  unfold is_u64, participant_count. lia.
Qed.

Lemma evaluate_faithful `{!DecisionFaithful} c f votes id at_ :
  co_state c = Proposing f votes id at_ -> Z.of_nat (length (participants f)) <= u64_max ->
  (forall k, is_Some (votes !! k) -> k ∈ participants f) -> 0 < threshold c <= participant_count f ->
  evaluate_votes c = Some (if threshold c <=? count_votes is_yes votes then DCommit
                           else if participant_count f - threshold c <? count_votes is_no votes then DAbort else DPending).
Proof.
  intros Hs Hw Hin Ht. destruct (tally_range f votes Hw Hin) as (Hy & Hn & HN & Hsum).
  unfold evaluate_votes, current_tally, evaluate_votes_native, verified_decision. rewrite Hs. cbn [mbind option_bind].
  assert (Hnat : (if threshold c <=? count_votes is_yes votes then Some DCommit
    else if participant_count f <? threshold c then None
    else if participant_count f - threshold c <? count_votes is_no votes then Some DAbort else Some DPending) =
    Some (if threshold c <=? count_votes is_yes votes then DCommit
          else if participant_count f - threshold c <? count_votes is_no votes then DAbort else DPending)).
  { destruct (_ <=? _); [done|]. rewrite (proj2 (Z.ltb_ge _ _)) by lia. by destruct (_ <? _). }
  destruct gate as [g|] eqn:Eg; [cbn [mbind option_bind]|done].
  destruct (distributed_exports_available g); [cbn [negb]|done].
  destruct (ask_decide_2pc g _) as [v|] eqn:Ea; [|done].
  destruct (decision_reply g _ _ _ _ v Eg Hy Hn HN Ht Ea) as [Hc Hab].
  destruct (Z.leb_spec (threshold c) (count_votes is_yes votes)).
  - rewrite (proj2 Hc) by done. done.
  - destruct (Z.ltb_spec (participant_count f - threshold c) (count_votes is_no votes)).
    + rewrite (proj2 Hab) by done. done.
    + destruct v; [exfalso; pose proof (proj1 Hc eq_refl); lia|exfalso; pose proof (proj1 Hab eq_refl); lia|done].
Qed.

(** *** Votes one after the other *)

Fixpoint receive_all (c : Coordinator) (l : list (bytes * Vote)) : option Coordinator :=
  match l with
  | [] => Some c
  | (from, v) :: l =>
      '(c', r) ← receive_vote c from v;
      match r with Ok _ => receive_all c' l | Err _ => None end
  end.

Lemma receive_all_reachable l : forall c c', coord_reachable c -> receive_all c l = Some c' -> coord_reachable c'.
Proof.
  induction l as [|[from v] l IH]; intros c c' Hc; cbn [receive_all]; [by intros [= <-]|].
  destruct (receive_vote c from v) as [[c1 r]|] eqn:E; [cbn [mbind option_bind]|done]. destruct r; [|done].
  apply IH. eapply cr_step; [exact Hc|]. by eapply cs_vote.
Qed.

Lemma receive_vote_ok `{!DecisionFaithful} c f votes id at_ from v :
  coord_ok c -> co_state c = Proposing f votes id at_ -> Z.of_nat (length (participants f)) <= u64_max ->
  votes !! from = None -> vote_valid c f id from v ->
  exists d, receive_vote c from v = Some (with_state c (Proposing f (<[from := v]> votes) id at_), Ok d) /\
    coord_ok (with_state c (Proposing f (<[from := v]> votes) id at_)).
Proof.
  intros Hok Hs Hw Hn [Hp (pk & Hk & Hv)]. destruct (coord_tally c f votes id at_ Hok Hs) as [Hin Ht].
  destruct (evaluate_votes (with_state c (Proposing f (<[from := v]> votes) id at_))) as [d|] eqn:Ed.
  2: { rewrite (evaluate_faithful _ f (<[from := v]> votes) id at_) in Ed; [discriminate|done|done| |done].
       intros k. destruct (decide (k = from)) as [->|Hne]; [done|]. rewrite lookup_insert_ne by done. apply Hin. }
  assert (Hr : receive_vote c from v =
    Some (with_state c (Proposing f (<[from := v]> votes) id at_), Ok (if bool_decide (d = DPending) then None else Some d))).
  { unfold receive_vote. rewrite Hs. unfold is_participant. rewrite bool_decide_true by done. cbn [negb].
    rewrite bool_decide_false by (rewrite Hn; by intros []). rewrite Hk, Hv. cbn [negb]. by rewrite Ed. }
  eexists. split; [exact Hr|]. apply (step_coord_ok c); [by eapply cs_vote|done].
Qed.

Lemma receive_all_ok `{!DecisionFaithful} f id at_ l : forall c votes,
  coord_ok c -> co_state c = Proposing f votes id at_ -> Z.of_nat (length (participants f)) <= u64_max ->
  NoDup (map fst l) -> Forall (fun e : bytes * Vote => votes !! e.1 = None /\ vote_valid c f id e.1 e.2) l ->
  receive_all c l = Some (with_state c (Proposing f (list_to_map l ∪ votes) id at_)) /\
  coord_ok (with_state c (Proposing f (list_to_map l ∪ votes) id at_)).
Proof.
  induction l as [|[from v] l IH]; intros c votes Hok Hs Hw Hnd Hall.
  { cbn [list_to_map foldr receive_all]. rewrite (left_id_L ∅ (∪) votes), <- Hs. by destruct c. }
  apply Forall_cons in Hall as [[Hn Hv] Hall]. cbn [fst snd map] in *. apply NoDup_cons in Hnd as [Hout Hnd].
  destruct (receive_vote_ok c f votes id at_ from v Hok Hs Hw Hn Hv) as (d & Hr & Hok').
  cbn [receive_all]. rewrite Hr. cbn [mbind option_bind].
  destruct (IH _ (<[from := v]> votes) Hok' eq_refl Hw Hnd) as [Hr' Hok''].
  { apply Forall_forall. intros e He. rewrite Forall_forall in Hall. destruct (Hall e He) as [He1 He2]. split; [|done].
    rewrite lookup_insert_ne; [done|]. intros ->. apply Hout. by apply list_elem_of_fmap_2. }
  cbn [list_to_map foldr]. rewrite <- insert_union_l, insert_union_r by (by apply not_elem_of_list_to_map_1). by split.
Qed.

End Protocol.

(** ** Theorems *)

Section Theorems.
Context `{HB : Blake3} `{HC : ProgramCodec} `{HO : TurnOracles} `{HP : !ProgramSize} `{HK : !TurnChecks}
  `{HT : !TurnCrypto} `{HW : WitnessedCodec} `{HE : Ed25519} `{HG : InstalledGate}.

(** What a coordinator executed, a participant with that ledger replays. *)
Lemma replay_agrees c f L L' receipt :
  execute_forest c f L = Some (L', Ok receipt) -> replay_forest c f L = Some (Some (L', Ok receipt)).
Proof.
  unfold execute_forest, replay_forest. destruct (get L (initiator f)) as [cell|]; [|by intros [=]].
  change (replay_turn f) with (atomic_turn f). destruct (execute _ _ _ _) as [[node' r]|]; [cbn [mbind option_bind]|done].
  by intros [= -> ->].
Qed.

(** C9: a commit has a quorum behind it and replays alike.  When a coordinator,
    after any history, commits, at least its threshold of distinct listed
    participants signed Yes to this proposal of this forest with their registered
    keys; and every participant that holds the ledger and the costs the
    coordinator executed with accepts the message, reaches the coordinator's
    ledger, receipt hash and computrons, and is unlocked. *)
Theorem commit_has_quorum (c c' : Coordinator) (L L' : Ledger) (m : CommitMessage) :
  coord_reachable c -> commit c L = Some (c', L', Ok m) ->
  exists f votes at_, co_state c = Proposing f votes (cm_proposal_id m) at_ /\
    cm_proposal_id m = proposal_id_for (af_hash f) (node_id c) /\ co_state c' = CommittedState (cm_receipt m) (cm_proposal_id m) /\
    threshold c <= Z.of_nat (length (cm_signatures m)) /\ NoDup (map fst (cm_signatures m)) /\
    Forall (fun e : bytes * bytes => e.1 ∈ participants f /\ exists pk, participant_keys c !! e.1 = Some pk /\
      verify_yes e.2 (cm_proposal_id m) (af_hash f) pk = true) (cm_signatures m) /\
    forall p, p_ledger p = L -> p_costs p = costs c ->
      exists p', apply_commit p m f (participant_keys c) (threshold c) = Some (p', Ok (cm_receipt m)) /\
        p_ledger p' = L' /\ voted_yes_at p' = None /\ active_proposal p' = None.
Proof.
  intros Hreach Hc. pose proof (coord_reachable_ok c Hreach) as Hok.
  apply commit_inv in Hc as (f & votes & id & at_ & receipt & Hs & Hth & Hx & -> & ->). cbn [cm_proposal_id cm_receipt cm_signatures].
  pose proof (commit_signatures c f votes id at_ Hok Hs) as Hsig.
  assert (Hlen : threshold c <= Z.of_nat (length (omap yes_signature (map_to_list votes))))
    by (rewrite (proj2 (yes_signatures_shape _)); exact Hth).
  exists f, votes, at_. split; [done|]. split; [|split; [done|]; split; [done|]; split; [apply yes_signatures_distinct|]; split; [done|]].
  { destruct Hok as [_ Hok]. rewrite Hs in Hok. apply Hok. }
  intros p <- Hcost. exists (with_lock (with_ledger p L') None). split; [|done].
  unfold apply_commit. cbn [cm_proposal_id cm_signatures]. rewrite (proj2 (Z.ltb_ge _ _) Hlen).
  rewrite signatures_check by (eapply Forall_impl; [exact Hsig|]; by intros e [_ He]). rewrite Hcost.
  by rewrite (replay_agrees _ _ _ _ _ Hx).
Qed.



(** Votes can be replayed.  A proposal is named by its forest and coordinator
    only: after a commit and a reset, proposing the forest again gives the same
    name, every vote of the first round is accepted again, and the forest commits
    again without its participants. *)
Theorem votes_replay_after_reset `{!DecisionFaithful} (c c1 : Coordinator) (L L' : Ledger) (m : CommitMessage) (now : Z) :
  coord_reachable c -> commit c L = Some (c1, L', Ok m) ->
  exists f votes id at_, co_state c = Proposing f votes id at_ /\
    (Z.of_nat (length (participants f)) <= u64_max ->
     let c2 := (propose (reset c1) now f).1 in
     exists c3, receive_all c2 (map_to_list votes) = Some c3 /\
       forall L2 L3 receipt, execute_forest (costs c) f L2 = Some (L3, Ok receipt) ->
         commit c3 L2 = Some (with_state c (CommittedState receipt id), L3, Ok (mkCommit id receipt (cm_signatures m)))).
Proof.
  intros Hreach Hc. pose proof (coord_reachable_ok c Hreach) as Hok. apply commit_inv in Hc as
    (f & votes & id & at_ & receipt & Hs & Hth & Hx & -> & ->). exists f, votes, id, at_. split; [done|]. intros Hw c2.
  destruct Hok as [Ht Hok']. rewrite Hs in Hok'. destruct Hok' as (Hid & Hthr & Hall & Hval & Hcost).
  assert (Hc2 : c2 = with_state c (Proposing f ∅ id (Some now))).
  { unfold c2, propose, reset. cbn [with_state co_state threshold max_budget costs]. rewrite Hval.
    rewrite (proj2 (Z.eqb_neq _ _)), (proj2 (Z.ltb_ge _ _)), (proj2 (Z.ltb_ge _ _)) by lia. by rewrite Hid. }
  assert (Hok2 : coord_ok c2).
  { rewrite Hc2. split; [done|]. cbn. split; [done|]. split; [done|]. split; [apply map_Forall_empty|done]. }
  destruct (receive_all_ok f id (Some now) (map_to_list votes) c2 ∅ Hok2) as [Hr _].
  - by rewrite Hc2.
  - done.
  - apply (NoDup_fst_map_to_list votes).
  - apply Forall_forall. intros [k v] Hin. apply elem_of_map_to_list in Hin. split; [by rewrite lookup_empty|].
    rewrite Hc2. apply (Hall k v Hin).
  - rewrite list_to_map_to_list, (right_id_L ∅ (∪)) in Hr. eexists. split; [exact Hr|]. intros L2 L3 r Hx2. rewrite Hc2.
    unfold commit. cbn [with_state co_state threshold costs cm_signatures]. rewrite (proj2 (Z.ltb_ge _ _) Hth), Hx2. done.
Qed.

(** One signature passes any threshold.  A participant does not look for
    repeated signers: a message that repeats one registered Yes signature as often
    as the threshold asks is applied like one that needs no signatures. *)
Theorem one_vote_passes_quorum (p : Participant) (f : AtomicForest) (keys : gmap bytes bytes) (id pk sig pid : bytes)
    (receipt : TurnReceipt) (t : Z) :
  keys !! id = Some pk -> verify_yes sig pid (af_hash f) pk = true -> 0 <= t ->
  let m := mkCommit pid receipt (replicate (Z.to_nat t) (id, sig)) in
  verify_commit m f keys = true /\ apply_commit p m f keys t = apply_commit p (mkCommit pid receipt []) f keys 0.
Proof.
  intros Hk Hv Ht m. split.
  - unfold verify_commit, m. cbn. apply forallb_forall. intros e He%list_elem_of_In. apply elem_of_replicate in He as [-> _].
    cbn. by rewrite Hk.
  - unfold apply_commit. cbn [m cm_signatures cm_proposal_id]. rewrite length_replicate, Z2Nat.id by done.
    rewrite (proj2 (Z.ltb_ge t t)) by lia. rewrite signatures_check; [done|]. apply Forall_replicate. cbn. by exists pk.
Qed.

End Theorems.

(** ** Concrete runs *)

(** A gate that reads the tally and decides it. *)
Definition read_count (prefix : bytes) (seg : bytes) : option Z := d ← strip_prefix prefix seg; parse_u64 d.

Definition answer_tally (wire : bytes) : option Verdict2pc :=
  match split_on char_semi wire with
  | [y; n; N; t] =>
      yes ← read_count (str_bytes "y=") y; no ← read_count (str_bytes "n=") n;
      total ← read_count (str_bytes "N=") N; thr ← read_count (str_bytes "t=") t;
      Some (if thr <=? yes then V2Commit else if total - thr <? no then V2Abort else V2Pending)
  | _ => None
  end.

#[local] Instance installed_tally_gate : InstalledGate :=
  Some (VerifiedGate.mkGate true (fun _ => None) answer_tally (fun _ => None)).

Lemma read_count_printed a b z : is_u64 z -> read_count [a; b] (a :: b :: u64_to_string z) = Some z.
Proof.
  intros Hz. unfold read_count. change (a :: b :: u64_to_string z) with ([a; b] ++ u64_to_string z).
  rewrite strip_prefix_app. cbn [mbind option_bind]. by apply u64_to_string_spec.
Qed.

Lemma answer_tally_wire yes no n t : is_u64 yes -> is_u64 no -> is_u64 n -> is_u64 t ->
  answer_tally (tally_wire yes no n t) =
  Some (if t <=? yes then V2Commit else if n - t <? no then V2Abort else V2Pending).
Proof.
  intros Hy Hn HN Ht. unfold answer_tally, tally_wire.
  replace (str_bytes "y=" ++ u64_to_string yes ++ str_bytes ";n=" ++ u64_to_string no ++
           str_bytes ";N=" ++ u64_to_string n ++ str_bytes ";t=" ++ u64_to_string t)
    with ((str_bytes "y=" ++ u64_to_string yes) ++ char_semi :: (str_bytes "n=" ++ u64_to_string no) ++
          char_semi :: (str_bytes "N=" ++ u64_to_string n) ++ char_semi :: (str_bytes "t=" ++ u64_to_string t))
    by (by rewrite <- !app_assoc).
  assert (Hp : forall a b z, a <> char_semi -> b <> char_semi -> is_u64 z ->
    Forall (fun c => c <> char_semi) ([a; b] ++ u64_to_string z)).
  { intros a b z Ha Hb Hz. repeat constructor; [done|done|]. apply digits_free; [done|]. by apply u64_to_string_spec. }
  rewrite !split_on_cons, split_on_free by (by apply Hp). cbn [str_bytes app].
  by rewrite !read_count_printed.
Qed.

#[local] Instance tally_gate_faithful : DecisionFaithful.
Proof.
  intros g yes no n t v [= <-] Hy Hn HN Ht E. cbn [ask_decide_2pc] in E.
  rewrite answer_tally_wire in E by (done || unfold is_u64 in *; lia).
  destruct (Z.leb_spec t yes); [|destruct (Z.ltb_spec (n - t) no)]; injection E as <-; split; (split; [done|lia]) || (split; lia || done).
Qed.

#[local] Existing Instance model_blake3.
#[local] Existing Instance model_codec.
#[local] Existing Instance model_oracles.
#[local] Existing Instance model_size.
#[local] Existing Instance model_checks.
#[local] Existing Instance model_ed25519.
#[local] Existing Instance model_ed25519_ok.

#[local] Instance run_crypto : TurnCrypto := {|
  turn_hash t := t_agent t;
  valid_public_key _ := true;
  witness_signature_ok _ := true;
  conservation_ok _ := true;
  receipt_hash t _ _ _ := t_agent t;
|}.

#[local] Instance run_witnessed : WitnessedCodec := {| WitnessedPredicate := unit; wp_bytes _ := [] |}.

Definition run_ledger : Ledger := x_ledger (turn_state HEAP_ZERO8).

(** Cell 10 pays 30 to cell 11; nodes 21 and 22 must agree. *)
Definition run_forest : AtomicForest :=
  mkAtomic [fill32 21; fill32 22]
    (mkForest [ tree_new (mkAction (fill32 10) AuthUnchecked [EffTransfer (fill32 10) (fill32 11) 30] DelegNone None [] []) ] zero32)
    [(fill32 10, build [NonceAtLeast 0])] (fill32 10) 6 (fill32 5).

Definition run_keys : gmap bytes bytes := {[ fill32 21 := fill32 31; fill32 22 := fill32 32 ]}.
Definition run_start : Coordinator := coordinator_new (fill32 20) (fill32 30) 2 zero_costs 100 run_keys.
Definition run_proposed : Coordinator := (propose run_start 5 run_forest).1.
Definition run_id : bytes := proposal_id_for (fill32 5) (fill32 20).

Definition run_parties : list Participant :=
  [participant_new (fill32 11) (fill32 22) (fill32 32) run_ledger; participant_new (fill32 10) (fill32 21) (fill32 31) run_ledger].

Definition run_votes : list (bytes * Vote) :=
  map (fun p => (p_node_id p, (evaluate_proposal p 6 run_id run_forest).2)) run_parties.

Definition run_ready : Coordinator := default run_proposed (receive_all run_proposed run_votes).

Lemma run_proposed_reachable : coord_reachable run_proposed.
Proof. eapply cr_step; [apply (cr_new (fill32 20) (fill32 30) 2); lia|apply cs_propose]. Qed.

Lemma run_ready_reachable : coord_reachable run_ready.
Proof. apply (receive_all_reachable run_votes run_proposed); [apply run_proposed_reachable|]. by vm_compute. Qed.

Lemma run_commits : exists c' L' m, commit run_ready run_ledger = Some (c', L', Ok m).
Proof. vm_compute. do 3 eexists. reflexivity. Qed.

Lemma commit_has_quorum_witness : exists c' L' m, commit run_ready run_ledger = Some (c', L', Ok m) /\
  2 <= Z.of_nat (length (cm_signatures m)) /\ NoDup (map fst (cm_signatures m)).
Proof.
  destruct run_commits as (c' & L' & m & Hc). exists c', L', m. split; [exact Hc|].
  destruct (commit_has_quorum run_ready c' run_ledger L' m run_ready_reachable Hc)
    as (f & votes & at_ & _ & _ & _ & Hl & Hnd & _). split; [exact Hl|exact Hnd].
Defined.

Definition run_tally : gmap bytes Vote := list_to_map run_votes.



Lemma votes_replay_after_reset_witness : exists c' L' m f votes id at_, commit run_ready run_ledger = Some (c', L', Ok m) /\
  co_state run_ready = Proposing f votes id at_ /\
  exists c3, receive_all (propose (reset c') 9 f).1 (map_to_list votes) = Some c3.
Proof.
  destruct run_commits as (c' & L' & m & Hc).
  destruct (votes_replay_after_reset run_ready c' run_ledger L' m 9 run_ready_reachable Hc) as (f & votes & id & at_ & Hs & Hr).
  exists c', L', m, f, votes, id, at_. split; [exact Hc|]. split; [exact Hs|].
  assert (Hs' : co_state run_ready = Proposing run_forest run_tally run_id (Some 5)) by (vm_compute; reflexivity).
  rewrite Hs in Hs'. injection Hs' as -> _ _ _.
  destruct Hr as (c3 & Hr & _); [vm_compute; discriminate|]. exists c3. exact Hr.
Defined.

Lemma one_vote_passes_quorum_witness :
  let m := mkCommit run_id (mkReceipt [] 0) (replicate 2 (fill32 21, sign_yes run_id (fill32 5) (fill32 31))) in
  verify_commit m run_forest run_keys = true.
Proof.
  apply (one_vote_passes_quorum (participant_new (fill32 11) (fill32 22) (fill32 32) run_ledger) run_forest run_keys
    (fill32 21) (fill32 31) (sign_yes run_id (fill32 5) (fill32 31)) run_id (mkReceipt [] 0) 2).
  - vm_compute. reflexivity.
  - vm_compute. reflexivity.
  - lia.
Defined.

(** A participant looks at the cell part of its preconditions only: it votes Yes to
    a leg that asks for a height or a time it cannot check. *)
Lemma height_preconditions_ignored `{WitnessedCodec} `{ProgramCodec} (p : Participant) (legs : list (CellId * Preconditions)) :
  Forall (fun leg => cell_state leg.2 = None) legs -> failing_leg p legs = None.
Proof.
  induction 1 as [|[cell pre] legs Hn _ IH]; [done|]. cbn [failing_leg snd] in *. rewrite Hn. by case_bool_decide.
Qed.
