(* ===== verification/Causal.v ===== *)
(** * Causal order

    Models [types/src/causal.rs], the graph of happened-before between turns, and
    the query of [coord/src/causal.rs] that may go through the verified gate.

    A hash set is a finite set, walked in the order of its elements; the searches
    are shown to find what is reachable, and the sort not to depend on the walk.  The searches and the sort take fuel, one step more than
    there are turns, and are shown to return; an outer [None] is fuel that ran out
    or a panic. *)

From stdpp Require Import base decidable option list gmap sorting strings relations.
From Stdlib Require Import ZArith Lia.
From S2P Require Import Prelude VerifiedGate Notes Atomic.

Open Scope Z_scope.

Inductive CausalError : Type :=
| MissingDeps (turn_hash : bytes) (missing : list bytes)
| Duplicate (hash : bytes).

(** [From<CausalError> for CoordError]: the first missing dependency is kept. *)
Definition coord_of_causal (e : CausalError) : CoordError :=
  match e with
  | MissingDeps turn_hash missing => MissingDependency turn_hash (default (replicate 32 0) (head missing))
  | Duplicate hash => DuplicateTurn hash
  end.

Record CausalDag : Type := mkDag {
  successors : gmap bytes (gset bytes);
  dependencies : gmap bytes (gset bytes);
  all_turns : gset bytes;
  frontier : gset bytes;
}.

Definition dag_new : CausalDag := mkDag ∅ ∅ ∅ ∅.

(** ** Insertion *)

Definition has_all_deps (d : CausalDag) (deps : list bytes) : bool :=
  forallb (fun x => bool_decide (x ∈ all_turns d)) deps.

Definition missing_deps (d : CausalDag) (deps : list bytes) : list bytes :=
  List.filter (fun x => negb (bool_decide (x ∈ all_turns d))) deps.

(** One dependency of the loop that registers the new turn. *)
Definition register_successor (turn : bytes) (acc : gmap bytes (gset bytes) * gset bytes) (dep : bytes)
    : gmap bytes (gset bytes) * gset bytes :=
  (<[dep := default ∅ (acc.1 !! dep) ∪ {[ turn ]}]> acc.1, acc.2 ∖ {[ dep ]}).

Definition dag_insert (d : CausalDag) (turn : bytes) (deps : list bytes) : CausalDag * result unit CausalError :=
  if bool_decide (turn ∈ all_turns d) then (d, Err (Duplicate turn))
  else if bool_decide (turn ∈ deps) then (d, Err (Duplicate turn))
  else match missing_deps d deps with
       | _ :: _ => (d, Err (MissingDeps turn (missing_deps d deps)))
       | [] =>
           let succ := <[turn := default ∅ (successors d !! turn)]> (successors d) in
           let '(succ, front) := foldl (register_successor turn) (succ, frontier d) deps in
           (mkDag succ (<[turn := list_to_set deps]> (dependencies d)) (all_turns d ∪ {[ turn ]})
              (front ∪ {[ turn ]}), Ok tt)
       end.

Definition insert_genesis (d : CausalDag) (turn : bytes) : CausalDag * result unit CausalError := dag_insert d turn [].

Definition try_insert (d : CausalDag) (turn : bytes) (deps : list bytes)
    : CausalDag * result (option (list bytes)) CausalError :=
  if bool_decide (turn ∈ all_turns d) then (d, Err (Duplicate turn))
  else match missing_deps d deps with
       | [] => match dag_insert d turn deps with
               | (d', Ok _) => (d', Ok None)
               | (d', Err e) => (d', Err e)
               end
       | missing => (d, Ok (Some missing))
       end.

(** ** Queries *)

Definition contains (d : CausalDag) (turn : bytes) : bool := bool_decide (turn ∈ all_turns d).
Definition dag_len (d : CausalDag) : nat := size (all_turns d).
Definition dag_is_empty (d : CausalDag) : bool := bool_decide (all_turns d = ∅).
Definition deps_of (d : CausalDag) (turn : bytes) : option (gset bytes) := dependencies d !! turn.
Definition successors_of (d : CausalDag) (turn : bytes) : option (gset bytes) := successors d !! turn.

Definition before (m : gmap bytes (gset bytes)) (turn : bytes) : gset bytes := default ∅ (m !! turn).

(** [if result.insert(x) { queue.push_back(x) }] *)
Definition visit (acc : gset bytes * list bytes) (x : bytes) : gset bytes * list bytes :=
  if bool_decide (x ∈ acc.1) then acc else (acc.1 ∪ {[ x ]}, acc.2 ++ [x]).

(** The search behind [happened_before]: the target is looked for among the
    dependencies of a turn while they are queued. *)
Fixpoint search_loop (fuel : nat) (m : gmap bytes (gset bytes)) (target : bytes) (visited : gset bytes) (queue : list bytes)
    : option bool :=
  match fuel, queue with
  | _, [] => Some false
  | O, _ :: _ => None
  | S fuel, current :: rest =>
      if bool_decide (target ∈ before m current) then Some true
      else let '(visited, queue) := foldl visit (visited, rest) (elements (before m current)) in
           search_loop fuel m target visited queue
  end.

Definition happened_before (d : CausalDag) (ancestor descendant : bytes) : option bool :=
  if bool_decide (ancestor = descendant) then Some false
  else if negb (contains d ancestor) || negb (contains d descendant) then Some false
  else search_loop (S (size (all_turns d))) (dependencies d) ancestor {[ descendant ]} [descendant].

Definition are_concurrent (d : CausalDag) (a b : bytes) : option bool :=
  if bool_decide (a = b) then Some false
  else x ← happened_before d a b; if (x : bool) then Some false else negb <$> happened_before d b a.

Fixpoint closure_loop (fuel : nat) (m : gmap bytes (gset bytes)) (found : gset bytes) (queue : list bytes)
    : option (gset bytes) :=
  match fuel, queue with
  | _, [] => Some found
  | O, _ :: _ => None
  | S fuel, current :: rest =>
      let '(found, queue) := foldl visit (found, rest) (elements (before m current)) in
      closure_loop fuel m found queue
  end.

Definition descendants (d : CausalDag) (hash : bytes) : option (gset bytes) :=
  closure_loop (S (size (all_turns d))) (successors d) ∅ [hash].

Definition ancestors (d : CausalDag) (hash : bytes) : option (gset bytes) :=
  closure_loop (S (size (all_turns d))) (dependencies d) ∅ [hash].

Definition sort_hashes (l : list bytes) : list bytes := sort_by_key key_ord l.

Definition merge_frontier `{Blake3} (d : CausalDag) : bytes :=
  blake3_hash (concat (sort_hashes (elements (frontier d)))).

(** *** Topological order *)

(** One successor of the turn taken from the queue. *)
Definition release_one (acc : gmap bytes nat * list bytes) (succ : bytes) : option (gmap bytes nat * list bytes) :=
  match acc.1 !! succ with
  | None => Some acc
  | Some O => None
  | Some (S deg) => Some (<[succ := deg]> acc.1, if (deg =? 0)%nat then acc.2 ++ [succ] else acc.2)
  end.

Fixpoint release_all (acc : gmap bytes nat * list bytes) (succs : list bytes) : option (gmap bytes nat * list bytes) :=
  match succs with
  | [] => Some acc
  | s :: succs => acc ← release_one acc s; release_all acc succs
  end.

Fixpoint order_loop (fuel : nat) (m : gmap bytes (gset bytes)) (in_deg : gmap bytes nat) (queue result : list bytes)
    : option (list bytes) :=
  match fuel, queue with
  | _, [] => Some result
  | O, _ :: _ => None
  | S fuel, turn :: rest =>
      '(in_deg, next) ← release_all (in_deg, []) (elements (before m turn));
      order_loop fuel m in_deg (rest ++ sort_hashes next) (result ++ [turn])
  end.

Definition in_degrees (d : CausalDag) : gmap bytes nat :=
  set_to_map (fun turn => (turn, size (before (dependencies d) turn))) (all_turns d).

Definition topological_order (d : CausalDag) : option (list bytes) :=
  let initial := map fst (List.filter (fun e : bytes * nat => (e.2 =? 0)%nat) (map_to_list (in_degrees d))) in
  order_loop (S (size (all_turns d))) (successors d) (in_degrees d) (sort_hashes initial) [].

(** *** Depth *)

Fixpoint depth_loop (fuel : nat) (m : gmap bytes (gset bytes)) (node : bytes) (memo : gmap bytes nat)
    : option (nat * gmap bytes nat) :=
  match memo !! node with
  | Some n => Some (n, memo)
  | None =>
      match fuel with
      | O => None
      | S fuel =>
          '(best, memo) ← foldl (fun acc dep =>
                            '(best, memo) ← acc; '(n, memo) ← depth_loop fuel m dep memo;
                            Some (Nat.max best (S n), memo))
                          (Some (O, memo)) (elements (before m node));
          Some (best, <[node := best]> memo)
      end
  end.

(** [None] for an unknown turn; the outer one for fuel. *)
Definition depth (d : CausalDag) (turn : bytes) : option (option nat) :=
  if contains d turn then '(n, _) ← depth_loop (S (size (all_turns d))) (dependencies d) turn ∅; Some (Some n)
  else Some None.

(** ** The gate *)

Definition nat_text (n : nat) : bytes := u64_to_string (Z.of_nat n).

(** The number of a turn; an order lists it once. *)
Definition position (order : list bytes) (h : bytes) : option nat := fst <$> list_find (fun x => x = h) order.

(** The positions of the dependencies of a turn. *)
Definition dep_positions (d : CausalDag) (order : list bytes) (h : bytes) : list nat :=
  Z.to_nat <$> sort_by_key id (Z.of_nat <$> omap (position order) (elements (before (dependencies d) h))).

(** A turn by its position, with those of its dependencies. *)
Definition interned (d : CausalDag) (order : list bytes) : list (nat * list nat) :=
  imap (fun i h => (i, dep_positions d order h)) order.

Definition entry_text (e : nat * list nat) : bytes :=
  nat_text e.1 ++ str_bytes ":" ++ join_with char_comma (nat_text <$> e.2).

Definition causal_wire (entries : list (nat * list nat)) (a b : nat) : bytes :=
  str_bytes "G=" ++ join_with 124 (entry_text <$> entries) ++ str_bytes ";a=" ++ nat_text a ++ str_bytes ";b=" ++ nat_text b.

Section Gate.
Context `{HG : InstalledGate}.

Definition lean_happened_before (d : CausalDag) (ancestor descendant : bytes) : option bool :=
  g ← gate;
  if negb (distributed_exports_available g) then None
  else
    order ← topological_order d;
    a ← position order ancestor;
    b ← position order descendant;
    ask_happened_before g (causal_wire (interned d order) a b).

Definition verified_happened_before (d : CausalDag) (ancestor descendant : bytes) : option bool :=
  native ← happened_before d ancestor descendant;
  Some (match lean_happened_before d ancestor descendant with Some verified => verified | None => native end).

End Gate.

(** ** Well-formed graphs *)

(** [y] is a direct dependency of [x]. *)
Definition depends (m : gmap bytes (gset bytes)) (x y : bytes) : Prop := y ∈ before m x.

(** Turns can be numbered so that dependencies come first. *)
Definition ranked (d : CausalDag) (rank : bytes -> nat) : Prop :=
  (forall x y, depends (dependencies d) x y -> (rank y < rank x)%nat) /\
  (forall x, x ∈ all_turns d -> (rank x < size (all_turns d))%nat).

Record dag_ok (d : CausalDag) : Prop := {
  dk_known : forall x y, depends (dependencies d) x y -> x ∈ all_turns d /\ y ∈ all_turns d;
  dk_inverse : forall x y, depends (successors d) y x <-> depends (dependencies d) x y;
  dk_frontier : forall x, x ∈ frontier d <-> x ∈ all_turns d /\ forall y, ~ depends (successors d) x y;
  dk_ranked : exists rank, ranked d rank;
}.

Lemma before_insert (m : gmap bytes (gset bytes)) (x y : bytes) (s : gset bytes) : before (<[x := s]> m) y = if decide (y = x) then s else before m y.
Proof. unfold before. destruct (decide (y = x)) as [->|Hne]; [by rewrite lookup_insert_eq|by rewrite lookup_insert_ne]. Qed.

Lemma register_all (turn : bytes) (deps : list bytes) (succ : gmap bytes (gset bytes)) (front : gset bytes) :
  (forall z, before (foldl (register_successor turn) (succ, front) deps).1 z =
     before succ z ∪ if decide (z ∈ deps) then {[ turn ]} else ∅) /\
  (foldl (register_successor turn) (succ, front) deps).2 = front ∖ list_to_set deps.
Proof.
  revert succ front. induction deps as [|dep deps IH]; intros succ front; cbn [foldl].
  { split; [intros z; rewrite decide_False by apply not_elem_of_nil|]; set_solver. }
  unfold register_successor at 2 4. cbn [fst snd].
  destruct (IH (<[dep := default ∅ (succ !! dep) ∪ {[turn]}]> succ) (front ∖ {[dep]})) as [H1 H2]. split.
  - intros z. rewrite H1, before_insert. destruct (decide (z = dep)) as [->|Hne].
    + rewrite (decide_True (P := dep ∈ dep :: deps)) by apply list_elem_of_here. unfold before.
      destruct (decide (dep ∈ deps)); set_solver.
    + destruct (decide (z ∈ deps)) as [Hin|Hout].
      * by rewrite decide_True by (by apply list_elem_of_further).
      * rewrite decide_False; [done|]. intros [Hz|Hz]%elem_of_cons; done.
  - rewrite H2. set_solver.
Qed.

Lemma missing_none d (deps : list bytes) : missing_deps d deps = [] -> forall x, x ∈ deps -> x ∈ all_turns d.
Proof.
  unfold missing_deps. induction deps as [|y deps IH]; cbn [List.filter]; intros H x Hx; [by apply elem_of_nil in Hx|].
  case_bool_decide as Hy; cbn [negb] in H; [|done]. apply elem_of_cons in Hx as [->|Hx]; [done|by apply IH].
Qed.

(** The effect of an accepted insertion. *)
Lemma dag_insert_inv (d : CausalDag) (turn : bytes) (deps : list bytes) d' : dag_insert d turn deps = (d', Ok tt) ->
  turn ∉ all_turns d /\ turn ∉ deps /\ (forall x, x ∈ deps -> x ∈ all_turns d) /\
  all_turns d' = all_turns d ∪ {[ turn ]} /\ dependencies d' = <[turn := list_to_set deps]> (dependencies d) /\
  frontier d' = frontier d ∖ list_to_set deps ∪ {[ turn ]} /\
  forall z, before (successors d') z = before (successors d) z ∪ if decide (z ∈ deps) then {[ turn ]} else ∅.
Proof.
  unfold dag_insert. case_bool_decide; [done|]. case_bool_decide; [done|].
  destruct (missing_deps d deps) as [|? ?] eqn:Em; [|done].
  pose proof (register_all turn deps (<[turn := default ∅ (successors d !! turn)]> (successors d)) (frontier d)) as [H1 H2].
  destruct (foldl _ _ _) as [succ front]. cbn [fst snd] in *. intros [= <-]. subst front. split_and!; try done.
  - by apply missing_none.
  - intros z. cbn [successors]. rewrite H1, before_insert. destruct (decide (z = turn)) as [->|]; done.
Qed.

Lemma insert_err (d : CausalDag) (turn : bytes) (deps : list bytes) d' e : dag_insert d turn deps = (d', Err e) -> d' = d.
Proof.
  unfold dag_insert. case_bool_decide; [by intros [= <- _]|]. case_bool_decide; [by intros [= <- _]|].
  destruct (missing_deps d deps); [by destruct (foldl _ _ _)|by intros [= <- _]].
Qed.

Lemma dag_new_ok : dag_ok dag_new.
Proof.
  split; cbn; unfold depends, before.
  - intros x y. rewrite lookup_empty. set_solver.
  - intros x y. by rewrite !lookup_empty.
  - set_solver.
  - exists (fun _ => O). split; [intros x y; unfold depends, before; cbn; rewrite lookup_empty; set_solver|set_solver].
Qed.

Lemma insert_ok (d : CausalDag) (turn : bytes) (deps : list bytes) d' : dag_ok d -> dag_insert d turn deps = (d', Ok tt) -> dag_ok d'.
Proof.
  intros [Hk Hi Hf [rank [Hr1 Hr2]]] (Hn & Hnd & Hin & Ha & Hd & Hfr & Hs)%dag_insert_inv.
  assert (Hdep : forall x y, depends (dependencies d') x y <-> (x = turn /\ y ∈ deps) \/ (x <> turn /\ depends (dependencies d) x y)).
  { intros x y. unfold depends. rewrite Hd, before_insert. destruct (decide (x = turn)) as [->|]; [rewrite elem_of_list_to_set|];
      naive_solver. }
  assert (Hsuc : forall y x, depends (successors d') y x <-> depends (successors d) y x \/ (x = turn /\ y ∈ deps)).
  { intros y x. unfold depends. rewrite Hs, elem_of_union. destruct (decide (y ∈ deps)); set_solver. }
  assert (Hold : forall y, ~ depends (dependencies d) turn y) by (intros y Hy; by destruct (Hk _ _ Hy)).
  assert (Hold' : forall x, ~ depends (dependencies d) x turn) by (intros x Hy; by destruct (Hk _ _ Hy)).
  split.
  - intros x y [[-> Hy]|[_ Hy]]%Hdep; rewrite Ha; [set_solver|]. destruct (Hk _ _ Hy). set_solver.
  - intros x y. rewrite Hsuc, Hdep, Hi. split; [intros [Hy|[-> Hy]]|intros [[-> Hy]|[_ Hy]]]; try naive_solver.
  - intros x. rewrite Hfr, Ha, elem_of_union, elem_of_difference, elem_of_list_to_set, elem_of_singleton, Hf. split.
    + intros [[[Hx Hno] Hnd']| ->]; (split; [set_solver|]); intros y [Hy|[-> Hy]]%Hsuc; try naive_solver.
    + intros [Hx Hno]. apply elem_of_union in Hx as [Hx|Hx%elem_of_singleton]; [left|by right]. split; [split; [done|]|].
      * intros y Hy. apply (Hno y), Hsuc. by left.
      * intros Hx'. apply (Hno turn), Hsuc. by right.
  - assert (Hsz : size (all_turns d') = S (size (all_turns d))).
    { rewrite Ha, size_union by set_solver. rewrite size_singleton. lia. }
    exists (fun x => if decide (x = turn) then size (all_turns d) else rank x). split.
    + intros x y [[-> Hy]|[Hne Hy]]%Hdep.
      * rewrite (decide_True (P := turn = turn)) by done. rewrite decide_False by (intros ->; done). by apply Hr2, Hin.
      * rewrite (decide_False (P := x = turn)) by done. rewrite decide_False by (intros ->; by apply Hold' in Hy). by apply Hr1.
    + intros x Hx. rewrite Hsz. destruct (decide (x = turn)) as [->|Hne]; [lia|]. rewrite Ha in Hx.
      assert (x ∈ all_turns d) as Hx' by set_solver. specialize (Hr2 x Hx'). lia.
Qed.

(** ** The searches *)

Lemma size_disjoint (X Y : gset bytes) : X ## Y -> size (X ∪ Y) = (size X + size Y)%nat.
Proof. apply size_union. Qed.

Section Search.
Context (m : gmap bytes (gset bytes)) (U : gset bytes).
Hypothesis HU : forall x y, depends m x y -> y ∈ U.

Lemma visit_all (l : list bytes) (found : gset bytes) (queue : list bytes) : exists new,
  foldl visit (found, queue) l = (found ∪ list_to_set l, queue ++ new) /\ NoDup new /\
  forall x, x ∈ new <-> x ∈ l /\ x ∉ found.
Proof.
  revert found queue. induction l as [|x l IH]; intros found queue; cbn [foldl].
  { exists []. rewrite app_nil_r. split_and!; [f_equal; set_solver|constructor|set_solver]. }
  unfold visit at 2. cbn [fst snd]. case_bool_decide as Hx.
  - destruct (IH found queue) as (new & -> & Hnd & Hin). exists new. split_and!; [f_equal; set_solver|done|].
    intros y. rewrite Hin. set_solver.
  - destruct (IH (found ∪ {[x]}) (queue ++ [x])) as (new & -> & Hnd & Hin). exists (x :: new).
    rewrite <-(assoc_L (++)). split_and!; [f_equal; set_solver|constructor; [rewrite Hin; set_solver|done]|].
    intros y. rewrite elem_of_cons, Hin, elem_of_cons. destruct (decide (y = x)) as [->|]; set_solver.
Qed.

(** Work left: the queue and the turns not found yet. *)
Definition work (found : gset bytes) (queue : list bytes) : nat := length queue + size (U ∖ found).

Lemma visit_work (found : gset bytes) (rest new : list bytes) (current : bytes) :
  NoDup new -> (forall x, x ∈ new <-> x ∈ elements (before m current) /\ x ∉ found) ->
  (work (found ∪ list_to_set (elements (before m current))) (rest ++ new) < work found (current :: rest))%nat.
Proof.
  intros Hnd Hin. unfold work. rewrite length_app. cbn [length].
  assert (Hs : U ∖ found = list_to_set new ∪ U ∖ (found ∪ list_to_set (elements (before m current)))).
  { apply set_eq. intros x. specialize (Hin x). specialize (HU current x). unfold depends in HU.
    destruct (decide (x ∈ before m current)); set_solver. }
  rewrite Hs, size_disjoint by set_solver. rewrite (size_list_to_set (C := gset bytes)) by done. lia.
Qed.

(** Found turns are reachable, queued ones known, and the others fully explored. *)
Definition search_inv (start : bytes) (found : gset bytes) (queue : list bytes) : Prop :=
  (forall x, x ∈ found -> tc (depends m) start x) /\
  (forall x, x ∈ queue -> x = start \/ x ∈ found) /\
  (forall x, x = start \/ x ∈ found -> x ∈ queue \/ forall y, depends m x y -> y ∈ found).

Lemma search_inv_step start found current rest new :
  search_inv start found (current :: rest) -> (forall x, x ∈ new <-> x ∈ elements (before m current) /\ x ∉ found) ->
  search_inv start (found ∪ list_to_set (elements (before m current))) (rest ++ new).
Proof.
  intros (H1 & H2 & H3) Hin. split_and!.
  - intros x [Hx|Hx%elem_of_list_to_set%elem_of_elements]%elem_of_union; [by apply H1|].
    destruct (H2 current (list_elem_of_here _ _)) as [->|Hc]; [by apply tc_once|]. eapply tc_r; [by apply H1|done].
  - intros x [Hx|Hx]%elem_of_app; [destruct (H2 x (list_elem_of_further _ _ _ Hx)); set_solver|].
    apply Hin in Hx. set_solver.
  - intros x Hx. destruct (decide (x = current)) as [->|Hne]; [right; intros y Hy; unfold depends in Hy; set_solver|].
    assert (Hx' : (x = start \/ x ∈ found) \/ x ∈ elements (before m current) /\ x ∉ found).
    { destruct (decide (x ∈ found)); set_solver. }
    destruct Hx' as [Hx'|Hx']; [|left; rewrite elem_of_app; right; by apply Hin].
    destruct (H3 x Hx') as [[?|?]%elem_of_cons|Hy]; [done|left; rewrite elem_of_app; by left|right; set_solver].
Qed.

Lemma search_inv_done start found : search_inv start found [] -> forall y, y ∈ found <-> tc (depends m) start y.
Proof.
  intros (H1 & _ & H3) y. split; [apply H1|]. intros Htc.
  assert (Hg : forall x, x = start \/ x ∈ found -> tc (depends m) x y -> y ∈ found).
  { intros x Hx Hxy. induction Hxy as [x y Hxy|x z y Hxz _ IH]; destruct (H3 x Hx) as [[]%elem_of_nil|Hy]; [by apply Hy|].
    apply IH; [done|]. right. by apply Hy. }
  apply (Hg start); [by left|done].
Qed.

Lemma closure_loop_ok fuel : forall start found queue,
  (work found queue <= fuel)%nat -> search_inv start found queue ->
  exists r, closure_loop fuel m found queue = Some r /\ forall y, y ∈ r <-> tc (depends m) start y.
Proof.
  induction fuel as [|fuel IH]; intros start found [|current rest] Hf Hi; cbn [closure_loop];
    try (exists found; split; [done|by apply search_inv_done]).
  { unfold work in Hf. cbn [length] in Hf. lia. }
  destruct (visit_all (elements (before m current)) found rest) as (new & -> & Hnd & Hin).
  pose proof (visit_work found rest new current Hnd Hin). apply IH; [lia|by apply search_inv_step].
Qed.

Lemma closure_ok start : exists r,
  closure_loop (S (size U)) m ∅ [start] = Some r /\ forall y, y ∈ r <-> tc (depends m) start y.
Proof.
  apply closure_loop_ok.
  - unfold work. cbn [length]. rewrite difference_empty_L. lia.
  - split_and!; [set_solver|set_solver|]. intros x [->|?]; [left; apply list_elem_of_here|set_solver].
Qed.

(** No target among what a search explored: none is reachable. *)
Lemma unreached (target : bytes) (visited : gset bytes) :
  (forall x, x ∈ visited -> ~ depends m x target /\ forall y, depends m x y -> y ∈ visited) ->
  forall x, x ∈ visited -> ~ tc (depends m) x target.
Proof.
  intros H x Hx Htc. induction Htc as [x y Hxy|x z y Hxz _ IH]; destruct (H x Hx) as [Hn Hc]; [done|].
  apply IH; [done|]. by apply Hc.
Qed.

Lemma search_loop_ok fuel : forall start target visited queue,
  (work visited queue <= fuel)%nat -> (forall x, x ∈ visited -> rtc (depends m) start x) ->
  (forall x, x ∈ queue -> x ∈ visited) -> start ∈ visited ->
  (forall x, x ∈ visited -> x ∈ queue \/ ~ depends m x target /\ forall y, depends m x y -> y ∈ visited) ->
  exists b, search_loop fuel m target visited queue = Some b /\ (b = true <-> tc (depends m) start target).
Proof.
  induction fuel as [|fuel IH]; intros start target visited [|current rest] Hf H1 H2 Hs H3; cbn [search_loop].
  1,3: exists false; split; [done|split; [done|]]; intros Htc; destruct (unreached target visited) with start; [|done|done];
    intros x Hx; destruct (H3 x Hx) as [[]%elem_of_nil|?]; done.
  { unfold work in Hf. cbn [length] in Hf. lia. }
  assert (Hc : rtc (depends m) start current) by apply H1, H2, list_elem_of_here.
  case_bool_decide as Ht.
  { exists true. split; [done|]. split; [intros _|done]. eapply tc_rtc_l; [exact Hc|]. by apply tc_once. }
  destruct (visit_all (elements (before m current)) visited rest) as (new & -> & Hnd & Hin).
  pose proof (visit_work visited rest new current Hnd Hin). apply IH; [lia| | |set_solver|].
  - intros x [Hx|Hx%elem_of_list_to_set%elem_of_elements]%elem_of_union; [by apply H1|].
    eapply rtc_r; [exact Hc|exact Hx].
  - intros x [Hx|Hx]%elem_of_app; [pose proof (H2 x (list_elem_of_further _ _ _ Hx)); set_solver|].
    apply Hin in Hx. set_solver.
  - intros x Hx. destruct (decide (x = current)) as [->|Hne].
    { right. split; [done|]. intros y Hy. unfold depends in Hy. set_solver. }
    destruct (decide (x ∈ visited)) as [Hv|Hv]; [|left; rewrite elem_of_app; right; apply Hin; set_solver].
    destruct (H3 x Hv) as [[?|?]%elem_of_cons|[Hn Hy]]; [done|left; rewrite elem_of_app; by left|right; set_solver].
Qed.

Lemma search_ok start target : start ∈ U -> exists b,
  search_loop (S (size U)) m target {[ start ]} [start] = Some b /\ (b = true <-> tc (depends m) start target).
Proof.
  intros Hs. apply search_loop_ok; [|set_solver..].
  unfold work. cbn [length]. 
  assert (size (U ∖ {[start]}) <= size U)%nat by (apply subseteq_size; set_solver). lia.
Qed.

End Search.

(** ** What the queries answer *)

Section Queries.
Context (d : CausalDag) (Hd : dag_ok d).

Lemma reach_known x y : tc (depends (dependencies d)) x y -> x ∈ all_turns d /\ y ∈ all_turns d.
Proof.
  induction 1 as [x y Hxy|x z y Hxz _ [_ IH]]; [by apply (dk_known d Hd)|]. split; [|done]. by destruct (dk_known d Hd _ _ Hxz).
Qed.

Lemma reach_ranked rank : ranked d rank -> forall x y, tc (depends (dependencies d)) x y -> (rank y < rank x)%nat.
Proof. intros [Hr _] x y. induction 1 as [x y Hxy|x z y Hxz _ IH]; [by apply Hr|]. apply Hr in Hxz. lia. Qed.

Lemma reach_irrefl x : ~ tc (depends (dependencies d)) x x.
Proof. destruct (dk_ranked d Hd) as [rank Hr]. intros H%(reach_ranked rank Hr). lia. Qed.

Lemma happened_before_ok a b : exists r,
  happened_before d a b = Some r /\ (r = true <-> tc (depends (dependencies d)) b a).
Proof.
  unfold happened_before, contains. case_bool_decide as Hab.
  { subst. exists false. split; [done|split; [done|]]. intros H. by apply reach_irrefl in H. }
  destruct (decide (a ∈ all_turns d /\ b ∈ all_turns d)) as [[Ha Hb]|Hno].
  - rewrite !bool_decide_eq_true_2 by done. cbn [negb orb]. apply search_ok; [|done].
    intros x y Hy. by destruct (dk_known d Hd _ _ Hy).
  - exists false. split; [do 2 case_bool_decide; naive_solver|]. split; [done|]. intros H%reach_known. naive_solver.
Qed.

Lemma tc_inverse x y : tc (depends (successors d)) x y <-> tc (depends (dependencies d)) y x.
Proof.
  split; induction 1 as [x y Hxy|x z y Hxz _ IH].
  - apply tc_once. by apply (dk_inverse d Hd).
  - eapply tc_r; [exact IH|]. by apply (dk_inverse d Hd).
  - apply tc_once. by apply (dk_inverse d Hd).
  - eapply tc_r; [exact IH|]. by apply (dk_inverse d Hd).
Qed.

Lemma ancestors_ok x : exists r, ancestors d x = Some r /\ forall y, y ∈ r <-> tc (depends (dependencies d)) x y.
Proof. apply closure_ok. intros a b Hb. by destruct (dk_known d Hd _ _ Hb). Qed.

Lemma descendants_ok x : exists r, descendants d x = Some r /\ forall y, y ∈ r <-> tc (depends (dependencies d)) y x.
Proof.
  destruct (closure_ok (successors d) (all_turns d)) with (start := x) as (r & Hr & Hin).
  - intros a b Hb%(dk_inverse d Hd). by destruct (dk_known d Hd _ _ Hb).
  - exists r. split; [done|]. intros y. by rewrite Hin, tc_inverse.
Qed.

End Queries.

(** ** Topological order *)

Lemma release_all_ok (succs : list bytes) : forall (g : gmap bytes nat) (q : list bytes),
  NoDup succs -> (forall s, s ∈ succs -> exists k, g !! s = Some (S k)) ->
  exists g', release_all (g, q) succs = Some (g', q ++ List.filter (fun s => bool_decide (g !! s = Some 1%nat)) succs) /\
    forall x, g' !! x = if decide (x ∈ succs) then Nat.pred <$> g !! x else g !! x.
Proof.
  induction succs as [|s succs IH]; intros g q Hnd Hg; cbn [release_all List.filter].
  { exists g. rewrite app_nil_r. split; [done|]. intros x. by rewrite decide_False by apply not_elem_of_nil. }
  apply NoDup_cons in Hnd as [Hs Hnd]. destruct (Hg s (list_elem_of_here _ _)) as [k Hk].
  unfold release_one at 1. cbn [fst snd]. rewrite Hk. cbn [mbind option_bind].
  destruct (IH (<[s := k]> g) (if (k =? 0)%nat then q ++ [s] else q) Hnd) as (g' & -> & Hg').
  { intros x Hx. rewrite lookup_insert_ne by (intros ->; done). apply Hg. by apply list_elem_of_further. }
  exists g'. split.
  - do 2 f_equal. rewrite (List.filter_ext_in _ (fun s => bool_decide (g !! s = Some 1%nat))).
    + destruct k; cbn [Nat.eqb]; [rewrite bool_decide_eq_true_2 by done; by rewrite <-(assoc_L (++))|].
      by rewrite bool_decide_eq_false_2 by congruence.
    + intros x Hx%list_elem_of_In. by rewrite lookup_insert_ne by (intros ->; done).
  - intros x. rewrite Hg'. destruct (decide (x = s)) as [->|Hne].
    + rewrite decide_False by done. rewrite decide_True by apply list_elem_of_here. by rewrite lookup_insert_eq, Hk.
    + rewrite lookup_insert_ne by done. destruct (decide (x ∈ succs)) as [Hx|Hx].
      * by rewrite decide_True by (by apply list_elem_of_further).
      * rewrite decide_False; [done|]. by intros [?|?]%elem_of_cons.
Qed.

(** The order in which successors are walked does not show. *)
Lemma release_order_irrelevant (succs succs' : list bytes) (g : gmap bytes nat) :
  NoDup succs -> succs ≡ₚ succs' -> Forall key32 succs -> (forall s, s ∈ succs -> exists k, g !! s = Some (S k)) ->
  prod_map id sort_hashes <$> release_all (g, []) succs = prod_map id sort_hashes <$> release_all (g, []) succs'.
Proof.
  intros Hnd Hp Hk Hg. destruct (release_all_ok succs g [] Hnd Hg) as (g1 & -> & H1).
  destruct (release_all_ok succs' g []) as (g2 & -> & H2); [by rewrite <-Hp|intros s; rewrite <-Hp; apply Hg|].
  cbn [fmap option_fmap option_map prod_map app id]. unfold prod_map. cbn [fst snd id]. do 2 f_equal.
  - apply map_eq. intros x. rewrite H1, H2. apply decide_ext. by rewrite Hp.
  - apply sort_by_key_unique.
    + apply NoDup_fmap_2_strong; [|by apply NoDup_ListNoDup, List.NoDup_filter, NoDup_ListNoDup].
      rewrite Forall_forall in Hk. intros x y. rewrite !list_elem_of_In, !filter_In, <-!list_elem_of_In. intros [Hx _] [Hy _].
      apply key_ord_inj; by apply Hk.
    + clear -Hp. induction Hp; cbn [List.filter]; repeat case_bool_decide; try done; try by constructor. by etrans.
Qed.

Section Kahn.
Context (d : CausalDag) (Hd : dag_ok d).

Notation deps := (before (dependencies d)).

(** Dependencies come before the turns that have them. *)
Definition deps_first (l : list bytes) : Prop := forall l1 x l2, l = l1 ++ x :: l2 -> deps x ⊆ list_to_set l1.

Record kahn (g : gmap bytes nat) (queue result : list bytes) : Prop := {
  ka_nodup : NoDup (result ++ queue);
  ka_known : forall x, x ∈ result ++ queue -> x ∈ all_turns d;
  ka_degree : forall x, x ∈ all_turns d -> g !! x = Some (size (deps x ∖ list_to_set result));
  ka_ready : forall x, x ∈ all_turns d -> x ∈ result ++ queue <-> deps x ⊆ list_to_set result;
  ka_first : deps_first result;
}.

Lemma deps_first_snoc l t : deps_first l -> deps t ⊆ list_to_set l -> deps_first (l ++ [t]).
Proof.
  intros Hl Ht l1 x l2 E. destruct l2 as [|y l2 _] using rev_ind.
  - apply app_inj_tail in E as [-> ->]. done.
  - rewrite app_comm_cons, (assoc_L (++)) in E. apply app_inj_tail in E as [-> ->]. by eapply Hl.
Qed.

Lemma degree_pop (s : gset bytes) (result : list bytes) t : t ∉ result ->
  size (s ∖ list_to_set result) = (size (s ∖ list_to_set (result ++ [t])) + if decide (t ∈ s) then 1 else 0)%nat.
Proof.
  intros Ht. destruct (decide (t ∈ s)).
  - replace (s ∖ list_to_set result) with (s ∖ list_to_set (result ++ [t]) ∪ {[ t ]}) by
      (apply set_eq; intros x; destruct (decide (x = t)); set_solver).
    rewrite size_disjoint by set_solver. by rewrite size_singleton.
  - rewrite Nat.add_0_r. assert (s ∖ list_to_set result = s ∖ list_to_set (result ++ [t])) as ->; [|done].
    apply set_eq. intros x. destruct (decide (x = t)); set_solver.
Qed.

Lemma degree_zero (s : gset bytes) (result : list bytes) : size (s ∖ list_to_set result) = 0%nat <-> s ⊆ list_to_set result.
Proof.
  rewrite size_empty_iff, elem_of_equiv_empty. split; intros H x; specialize (H x); [|set_solver].
  destruct (decide (x ∈ list_to_set (C := gset bytes) result)); set_solver.
Qed.

Lemma kahn_step g t rest result : kahn g (t :: rest) result -> exists g' next,
  release_all (g, []) (elements (before (successors d) t)) = Some (g', next) /\
  kahn g' (rest ++ sort_hashes next) (result ++ [t]).
Proof.
  intros [Hnd Hk Hg Hr Hf].
  assert (Ht : t ∉ result) by (apply NoDup_app in Hnd as (_ & H & _); intros Hx; by apply (H t Hx), list_elem_of_here).
  assert (HtU : t ∈ all_turns d) by (apply Hk; set_solver).
  assert (Hsucc : forall x, x ∈ elements (before (successors d) t) <-> t ∈ deps x).
  { intros x. rewrite elem_of_elements. apply (dk_inverse d Hd). }
  assert (HsU : forall x, t ∈ deps x -> x ∈ all_turns d) by (intros x Hx; by destruct (dk_known d Hd _ _ Hx)).
  destruct (release_all_ok (elements (before (successors d) t)) g []) as (g' & E & Hg').
  - apply NoDup_elements.
  - intros s Hs%Hsucc. rewrite Hg, (degree_pop _ _ t Ht), decide_True by eauto. eexists. by rewrite Nat.add_1_r.
  - set (next := List.filter _ _) in E. exists g', next. split; [done|].
    assert (Hnext : forall x, x ∈ next <-> t ∈ deps x /\ deps x ⊆ list_to_set (result ++ [t])).
    { intros x. unfold next. rewrite list_elem_of_In, filter_In, <-list_elem_of_In, Hsucc, bool_decide_eq_true.
      split; intros [Hx H]; (split; [done|]); [apply degree_zero|]; rewrite (Hg x (HsU x Hx)) in *;
        rewrite (degree_pop _ _ t Ht), decide_True in * by done; [injection H; lia|]. apply degree_zero in H. by rewrite H. }
    assert (Hold : forall x, x ∈ next -> x ∉ result ++ t :: rest).
    { intros x [Hx _]%Hnext Hin. apply Hr in Hin; [|by apply HsU]. apply Ht. set_solver. }
    assert (Happ : forall x, x ∈ (result ++ [t]) ++ rest ++ sort_hashes next <-> x ∈ result ++ t :: rest \/ x ∈ next).
    { intros x. unfold sort_hashes. rewrite !elem_of_app, elem_of_cons, elem_of_sort_by_key. set_solver. }
    split.
    + replace ((result ++ [t]) ++ rest ++ sort_hashes next) with ((result ++ t :: rest) ++ sort_hashes next)
        by (rewrite <-!(assoc_L (++)); done).
      apply NoDup_app. unfold sort_hashes. split_and!; [done| |].
      * intros x Hx Hn%elem_of_sort_by_key. by apply (Hold x).
      * rewrite sort_by_key_perm. apply NoDup_ListNoDup, List.NoDup_filter, NoDup_ListNoDup, NoDup_elements.
    + intros x [Hx|[Hx _]%Hnext]%Happ; [by apply Hk|by apply HsU].
    + intros x Hx. rewrite Hg', Hg, (degree_pop (deps x) _ t Ht) by done. destruct (decide (t ∈ deps x)) as [Hin|Hout].
      * rewrite decide_True by (by apply Hsucc). rewrite Nat.add_1_r. done.
      * rewrite decide_False by (by rewrite Hsucc). by rewrite Nat.add_0_r.
    + intros x Hx. rewrite Happ, Hr, Hnext by done. destruct (decide (t ∈ deps x)); set_solver.
    + apply deps_first_snoc; [done|]. apply Hr; set_solver.
Qed.

Lemma kahn_length g queue result : kahn g queue result -> (length result + length queue <= size (all_turns d))%nat.
Proof.
  intros [Hnd Hk _ _ _]. rewrite <-length_app, <-(size_list_to_set (C := gset bytes)) by done.
  apply subseteq_size. intros x Hx%elem_of_list_to_set. by apply Hk.
Qed.

(** With an empty queue nothing is left: a turn of least rank would have been
    ready. *)
Lemma kahn_done g result : kahn g [] result -> result ≡ₚ elements (all_turns d).
Proof.
  intros [Hnd Hk _ Hr _]. rewrite app_nil_r in *. apply NoDup_Permutation; [done|apply NoDup_elements|].
  intros x. rewrite elem_of_elements. split; [apply Hk|]. destruct (dk_ranked d Hd) as [rank [Hrank _]].
  remember (rank x) as n eqn:En. revert x En. induction n as [n IH] using lt_wf_ind. intros x -> Hx.
  apply Hr; [done|]. intros y Hy. apply elem_of_list_to_set, (IH (rank y)); [by apply Hrank|done|].
  by destruct (dk_known d Hd _ _ Hy).
Qed.

Lemma order_loop_ok fuel : forall g queue result,
  (size (all_turns d) - length result <= fuel)%nat -> kahn g queue result ->
  exists l, order_loop fuel (successors d) g queue result = Some l /\ l ≡ₚ elements (all_turns d) /\ deps_first l.
Proof.
  induction fuel as [|fuel IH]; intros g [|t rest] result Hf Hk; cbn [order_loop];
    try (exists result; split_and!; [done|by eapply kahn_done|by destruct Hk]).
  { apply kahn_length in Hk. cbn [length] in Hk. lia. }
  destruct (kahn_step g t rest result Hk) as (g' & next & -> & Hk'). cbn [mbind option_bind].
  apply IH; [|done]. rewrite length_app. cbn [length]. lia.
Qed.

Lemma in_degrees_lookup x : in_degrees d !! x = if decide (x ∈ all_turns d) then Some (size (deps x)) else None.
Proof.
  unfold in_degrees. apply option_eq. intros n. rewrite lookup_set_to_map by (intros ? ? _ _ H; exact H).
  destruct (decide (x ∈ all_turns d)); naive_solver.
Qed.

Lemma kahn_start : kahn (in_degrees d)
  (sort_hashes (map fst (List.filter (fun e : bytes * nat => (e.2 =? 0)%nat) (map_to_list (in_degrees d))))) [].
Proof.
  set (initial := map fst _).
  assert (Hin : forall x, x ∈ initial <-> x ∈ all_turns d /\ deps x = ∅).
  { intros x. unfold initial. rewrite list_elem_of_In, in_map_iff. setoid_rewrite filter_In. setoid_rewrite <-list_elem_of_In.
    split.
    - intros ([y n] & <- & Hy%elem_of_map_to_list & Hn%Nat.eqb_eq). cbn [fst snd] in *. rewrite in_degrees_lookup in Hy.
      destruct (decide _); [|done]. split; [done|]. apply leibniz_equiv, size_empty_iff. congruence.
    - intros [Hx He]. exists (x, 0%nat). split_and!; [done| |done]. apply elem_of_map_to_list.
      by rewrite in_degrees_lookup, decide_True, He. }
  split; cbn [app].
  - unfold sort_hashes. rewrite sort_by_key_perm. unfold initial.
    apply NoDup_fmap_2_strong; [|apply NoDup_ListNoDup, List.NoDup_filter, NoDup_ListNoDup, NoDup_map_to_list].
    intros [x n] [y k]. rewrite !list_elem_of_In, !filter_In, <-!list_elem_of_In. cbn [fst]. intros [Hx _] [Hy _] <-.
    f_equal. exact (map_to_list_unique _ _ _ _ Hx Hy).
  - intros x. unfold sort_hashes. rewrite elem_of_sort_by_key, Hin. by intros [? _].
  - intros x Hx. rewrite in_degrees_lookup, decide_True by done. by rewrite list_to_set_nil, difference_empty_L.
  - intros x Hx. unfold sort_hashes. rewrite elem_of_sort_by_key, Hin. set_solver.
  - intros [|] ? ? E; done.
Qed.

Lemma topological_ok : exists l, topological_order d = Some l /\ l ≡ₚ elements (all_turns d) /\ deps_first l.
Proof. apply order_loop_ok; [cbn; lia|apply kahn_start]. Qed.

End Kahn.

(** ** Depth *)

Section Depth.
Context (d : CausalDag) (Hd : dag_ok d).

Notation R := (depends (dependencies d)).

(** [n] is the length of the longest chain of dependencies below [x]. *)
Definition longest (x : bytes) (n : nat) : Prop :=
  (exists y, nsteps R n x y) /\ forall k y, nsteps R k x y -> (k <= n)%nat.

Definition memo_ok (memo : gmap bytes nat) : Prop := forall x n, memo !! x = Some n -> longest x n.

(** [best] is the longest chain that starts at one of the first dependencies. *)
Definition best_of (l : list bytes) (best : nat) : Prop :=
  (best = 0%nat \/ exists dep n, dep ∈ l /\ longest dep n /\ best = S n) /\
  forall dep k y, dep ∈ l -> nsteps R k dep y -> (S k <= best)%nat.

Lemma best_of_snoc l best dep n : best_of l best -> longest dep n -> best_of (l ++ [dep]) (Nat.max best (S n)).
Proof.
  intros [He Hub] Hl. split.
  - destruct (Nat.max_spec best (S n)) as [[_ ->]|[_ ->]]; [right; exists dep, n; set_solver|].
    destruct He as [->|(x & k & Hx & Hk & ->)]; [by left|right]. exists x, k. set_solver.
  - intros x k y [Hx|Hx%list_elem_of_singleton]%elem_of_app Hk; [pose proof (Hub _ _ _ Hx Hk); lia|].
    subst x. destruct Hl as [_ Hl]. specialize (Hl _ _ Hk). lia.
Qed.

Lemma best_of_deps x best : best_of (elements (before (dependencies d) x)) best -> longest x best.
Proof.
  intros [He Hub]. split.
  - destruct He as [->|(dep & n & Hin & [[y Hy] _] & ->)]; [exists x; constructor|]. exists y.
    econstructor; [|exact Hy]. by apply elem_of_elements.
  - intros k y Hk. inversion Hk as [|k' ? z ? Hz Hk']; subst; [lia|]. apply (Hub z k' y); [|done]. by apply elem_of_elements.
Qed.

Lemma depth_loop_ok rank : ranked d rank -> forall fuel x memo, (rank x < fuel)%nat -> memo_ok memo ->
  exists n memo', depth_loop fuel (dependencies d) x memo = Some (n, memo') /\ longest x n /\ memo_ok memo'.
Proof.
  intros Hr. induction fuel as [|fuel IH]; intros x memo Hf Hm; [lia|]. cbn [depth_loop].
  destruct (memo !! x) as [n|] eqn:Ex; [exists n, memo; split_and!; [done|by apply Hm|done]|].
  set (step := fun (acc : option (nat * gmap bytes nat)) (dep : bytes) => _).
  assert (Hfold : forall l1 l2 best memo, (forall dep, dep ∈ l2 -> R x dep) -> best_of l1 best -> memo_ok memo ->
    exists best' memo', foldl step (Some (best, memo)) l2 = Some (best', memo') /\ best_of (l1 ++ l2) best' /\ memo_ok memo').
  { intros l1 l2. revert l1. induction l2 as [|dep l2 IHl]; intros l1 best memo1 Hl Hb Hm1; cbn [foldl].
    { exists best, memo1. by rewrite app_nil_r. }
    assert (Hdep : R x dep) by apply Hl, list_elem_of_here. apply (proj1 Hr) in Hdep.
    destruct (IH dep memo1) as (n & memo2 & E & Hn & Hm2); [lia|done|].
    unfold step at 2. cbn [mbind option_bind]. rewrite E. cbn [mbind option_bind].
    destruct (IHl (l1 ++ [dep]) (Nat.max best (S n)) memo2) as (b & memo3 & -> & Hb3 & Hm3);
      [intros; apply Hl; by apply list_elem_of_further|by apply best_of_snoc|done|].
    exists b, memo3. by rewrite <-(assoc_L (++)) in Hb3. }
  destruct (Hfold [] (elements (before (dependencies d) x)) 0%nat memo) as (b & memo' & -> & Hb & Hm').
  - intros dep Hdep. by apply elem_of_elements in Hdep.
  - split; [by left|]. intros ??? []%elem_of_nil.
  - done.
  - cbn [mbind option_bind]. apply best_of_deps in Hb. exists b, (<[x := b]> memo'). split_and!; [done..|].
    intros y k. destruct (decide (y = x)) as [->|]; [rewrite lookup_insert_eq; by intros [= <-]|].
    rewrite lookup_insert_ne by done. apply Hm'.
Qed.

Lemma depth_ok x : x ∈ all_turns d -> exists n, depth d x = Some (Some n) /\ longest x n.
Proof.
  intros Hx. unfold depth, contains. rewrite bool_decide_eq_true_2 by done. destruct (dk_ranked d Hd) as [rank Hr].
  destruct (depth_loop_ok rank Hr (S (size (all_turns d))) x ∅) as (n & memo & -> & Hn & _).
  - pose proof (proj2 Hr x Hx). lia.
  - by intros y k ?%lookup_empty_Some.
  - by exists n.
Qed.

End Depth.

(** ** The gate's wire *)

Section Interning.
Context (d : CausalDag) (Hd : dag_ok d) (order : list bytes).
Context (Hp : order ≡ₚ elements (all_turns d)).

Lemma order_nodup : NoDup order.
Proof. rewrite Hp. apply NoDup_elements. Qed.

Lemma position_lookup h i : position order h = Some i <-> order !! i = Some h.
Proof.
  unfold position. rewrite fmap_Some. split.
  - intros ([j x] & (Hx & -> & _)%list_find_Some & ->). done.
  - intros Hi. exists (i, h). split; [|done]. apply list_find_Some. split_and!; [done..|].
    intros j y Hj Hlt ->. pose proof (NoDup_lookup _ _ _ _ order_nodup Hi Hj). lia.
Qed.

Lemma elem_of_interned i ds : (i, ds) ∈ interned d order -> exists h, order !! i = Some h /\
  forall j, j ∈ ds <-> exists y, y ∈ before (dependencies d) h /\ order !! j = Some y.
Proof.
  intros (k & h & [= <- ->] & Hk)%elem_of_lookup_imap_1. exists h. split; [done|]. intros j.
  unfold dep_positions. rewrite list_elem_of_fmap. setoid_rewrite elem_of_sort_by_key. setoid_rewrite list_elem_of_fmap.
  setoid_rewrite list_elem_of_omap. setoid_rewrite elem_of_elements. setoid_rewrite position_lookup. split.
  - intros (z & -> & n & -> & y & Hy & Hn). exists y. by rewrite Nat2Z.id.
  - intros (y & Hy & Hj). exists (Z.of_nat j). rewrite Nat2Z.id. naive_solver.
Qed.

(** An edge of the graph the gate reads. *)
Definition wire_edge (entries : list (nat * list nat)) (i j : nat) : Prop := exists ds, (i, ds) ∈ entries /\ j ∈ ds.

Lemma wire_edge_ok i j : wire_edge (interned d order) i j <->
  exists h y, order !! i = Some h /\ order !! j = Some y /\ depends (dependencies d) h y.
Proof.
  split.
  - intros (ds & (h & Hh & Hds)%elem_of_interned & (y & Hy & Hj)%Hds). by exists h, y.
  - intros (h & y & Hi & Hj & Hy). exists (dep_positions d order h).
    pose proof (elem_of_lookup_imap_2 (fun i h => (i, dep_positions d order h)) order h i Hi) as Hin. split; [done|].
    apply elem_of_interned in Hin as (h' & Hh' & Hds). apply Hds. simplify_eq. by exists y.
Qed.

Lemma known_position x : x ∈ all_turns d -> exists i, order !! i = Some x.
Proof. intros Hx. apply list_elem_of_lookup. rewrite Hp. by apply elem_of_elements. Qed.

Lemma wire_reach i j h y : order !! i = Some h -> order !! j = Some y ->
  tc (wire_edge (interned d order)) i j <-> tc (depends (dependencies d)) h y.
Proof.
  intros Hi Hj. split; intros Htc.
  - revert h Hi. induction Htc as [i j (h' & y' & Hi' & Hj' & H)%wire_edge_ok|i k j (h' & z & Hi' & Hk & H)%wire_edge_ok _ IH];
      intros h Hi; simplify_eq; [by apply tc_once|]. eapply tc_l; [exact H|]. by apply IH.
  - revert i Hi. induction Htc as [h y H|h z y H _ IH]; intros i Hi.
    + apply tc_once, wire_edge_ok. by exists h, y.
    + destruct (dk_known d Hd _ _ H) as [_ (k & Hk)%known_position]. eapply tc_l; [|by apply IH].
      apply wire_edge_ok. by exists h, z.
Qed.

(** Dependencies carry smaller numbers. *)
Lemma interned_smaller i j : deps_first d order -> wire_edge (interned d order) i j -> (j < i)%nat.
Proof.
  intros Hf (h & y & Hi & Hj & Hy)%wire_edge_ok. pose proof (lookup_lt_Some _ _ _ Hi) as Hlt.
  pose proof (take_drop_middle _ _ _ Hi) as E. symmetry in E. pose proof (Hf _ _ _ E y Hy) as Hin.
  apply elem_of_list_to_set, list_elem_of_lookup in Hin as [k Hk].
  apply lookup_take_Some in Hk as [Hk Hki]. by rewrite (NoDup_lookup _ _ _ _ order_nodup Hj Hk).
Qed.

End Interning.

(** ** Graphs built by insertion *)

(** One call that may change the graph. *)
Inductive causal_step (d d' : CausalDag) : Prop :=
| cs_insert turn deps r : dag_insert d turn deps = (d', r) -> causal_step d d'
| cs_genesis turn r : insert_genesis d turn = (d', r) -> causal_step d d'
| cs_try turn deps r : try_insert d turn deps = (d', r) -> causal_step d d'.

Definition built (d : CausalDag) : Prop := rtc causal_step dag_new d.

Lemma insert_any_ok d turn deps d' r : dag_ok d -> dag_insert d turn deps = (d', r) -> dag_ok d'.
Proof. destruct r as [[]|e]; intros Hd H; [by eapply insert_ok|]. by rewrite (insert_err _ _ _ _ _ H). Qed.

Lemma try_insert_ok d turn deps d' r : dag_ok d -> try_insert d turn deps = (d', r) -> dag_ok d'.
Proof.
  intros Hd. unfold try_insert. case_bool_decide; [by intros [= <- _]|].
  destruct (missing_deps d deps); [|by intros [= <- _]].
  destruct (dag_insert d turn deps) as [d1 r1] eqn:E. apply insert_any_ok in E; [|done]. by destruct r1; intros [= <- _].
Qed.

Lemma dag_built_ok d : built d -> dag_ok d.
Proof.
  unfold built. apply (rtc_ind_r (fun d => dag_ok d)); [apply dag_new_ok|].
  intros d1 d2 _ [turn deps r H|turn r H|turn deps r H] Hd; [by eapply insert_any_ok..|by eapply try_insert_ok].
Qed.

Lemma happened_before_iff d a b : dag_ok d -> happened_before d a b = Some true <-> tc (depends (dependencies d)) b a.
Proof. intros Hd. destruct (happened_before_ok d Hd a b) as (r & -> & <-). destruct r; naive_solver. Qed.

Lemma happened_before_not d a b : dag_ok d -> happened_before d a b = Some false <-> ~ tc (depends (dependencies d)) b a.
Proof. intros Hd. destruct (happened_before_ok d Hd a b) as (r & -> & <-). destruct r; naive_solver. Qed.

Lemma concurrent_iff d a b : dag_ok d -> exists r, are_concurrent d a b = Some r /\
  (r = true <-> a <> b /\ happened_before d a b = Some false /\ happened_before d b a = Some false).
Proof.
  intros Hd. unfold are_concurrent. case_bool_decide as Hab; [exists false; naive_solver|].
  destruct (happened_before_ok d Hd a b) as (r1 & -> & _), (happened_before_ok d Hd b a) as (r2 & -> & _).
  destruct r1, r2; cbn; eexists; (split; [done|naive_solver]).
Qed.

(** C21: in every graph built by insertions the query returns and answers
    reachability along dependencies; it is irreflexive and transitive, concurrency
    is the absence of both orders, and the sets of ancestors and descendants are
    the turns the query says so of. *)
Theorem happened_before_is_causality (d : CausalDag) (a b : bytes) : built d ->
  (exists r, happened_before d a b = Some r /\ (r = true <-> tc (depends (dependencies d)) b a)) /\
  happened_before d a a = Some false /\
  (forall c, happened_before d a b = Some true -> happened_before d b c = Some true -> happened_before d a c = Some true) /\
  (exists r, are_concurrent d a b = Some r /\
     (r = true <-> a <> b /\ happened_before d a b = Some false /\ happened_before d b a = Some false)) /\
  (exists s, ancestors d b = Some s /\ (a ∈ s <-> happened_before d a b = Some true)) /\
  (exists s, descendants d a = Some s /\ (b ∈ s <-> happened_before d a b = Some true)).
Proof.
  intros Hd%dag_built_ok. split_and!.
  - by apply happened_before_ok.
  - apply happened_before_not; [done|]. by apply reach_irrefl.
  - intros c. rewrite !happened_before_iff by done. intros Hab Hbc. by transitivity b.
  - by apply concurrent_iff.
  - destruct (ancestors_ok d Hd b) as (s & -> & Hs). exists s. by rewrite Hs, happened_before_iff.
  - destruct (descendants_ok d Hd a) as (s & -> & Hs). exists s. by rewrite Hs, happened_before_iff.
Qed.

(** C22: the topological order of a graph built by insertions is returned, lists
    each turn exactly once, and puts every turn after all that happened before
    it. *)
Theorem topological_order_extends (d : CausalDag) : built d ->
  exists l, topological_order d = Some l /\ NoDup l /\ (forall x, x ∈ l <-> contains d x = true) /\
    forall a b i j, happened_before d a b = Some true -> l !! i = Some a -> l !! j = Some b -> (i < j)%nat.
Proof.
  intros Hd%dag_built_ok. destruct (topological_ok d Hd) as (l & -> & Hp & Hf). exists l. split_and!; [done| | |].
  - rewrite Hp. apply NoDup_elements.
  - intros x. unfold contains. by rewrite Hp, elem_of_elements, bool_decide_eq_true.
  - intros a b i j Hab Ha Hb. apply happened_before_iff in Hab; [|done].
    apply (wire_reach d Hd l Hp j i b a Hb Ha) in Hab. clear Ha Hb.
    induction Hab as [j i H|j k i H _ IH]; apply (interned_smaller d l Hp) in H; [done|done|lia|done].
Qed.

(** An accepted insertion adds the turn above its dependencies and leaves the
    order of the other turns as it was. *)
Theorem insert_keeps_history (d d' : CausalDag) (turn : bytes) (deps : list bytes) (a b : bytes) :
  built d -> dag_insert d turn deps = (d', Ok tt) ->
  (b <> turn -> happened_before d' a b = happened_before d a b) /\
  (happened_before d' a turn = Some true <-> exists dep, dep ∈ deps /\ (a = dep \/ happened_before d a dep = Some true)) /\
  (a ∈ frontier d' <-> contains d' a = true /\ forall y, happened_before d' a y = Some false).
Proof.
  intros Hd%dag_built_ok Hi. pose proof (insert_ok _ _ _ _ Hd Hi) as Hd'.
  pose proof (dag_insert_inv _ _ _ _ Hi) as (Hn & Hnd & Hin & _ & Hdep & _).
  assert (He : forall x y, depends (dependencies d') x y <-> if decide (x = turn) then y ∈ deps else depends (dependencies d) x y).
  { intros x y. unfold depends. rewrite Hdep, before_insert. destruct (decide (x = turn)); [by rewrite elem_of_list_to_set|done]. }
  assert (Hold : forall x y, x <> turn -> tc (depends (dependencies d')) x y <-> tc (depends (dependencies d)) x y).
  { intros x y Hx. split; intros Htc.
    - induction Htc as [x y H|x z y H _ IH]; apply He in H; rewrite decide_False in H by done; [by apply tc_once|].
      eapply tc_l; [exact H|]. apply IH. intros ->. by destruct (dk_known d Hd _ _ H).
    - assert (Hg : forall x y, tc (depends (dependencies d)) x y -> tc (depends (dependencies d')) x y); [|by apply Hg].
      clear x y Hx Htc. intros x y Htc. induction Htc as [x y H|x z y H _ IH].
      + apply tc_once, He. rewrite decide_False; [done|]. intros ->. by destruct (dk_known d Hd _ _ H).
      + eapply tc_l; [|exact IH]. apply He. rewrite decide_False; [done|]. intros ->. by destruct (dk_known d Hd _ _ H). }
  split_and!.
  - intros Hb. destruct (happened_before_ok d Hd a b) as (r & -> & Hr), (happened_before_ok d' Hd' a b) as (r' & -> & Hr').
    rewrite Hold in Hr' by done. f_equal. destruct r, r'; naive_solver.
  - rewrite happened_before_iff by done. split.
    + intros Htc. inversion Htc as [x y H|x z y H Hz]; subst; apply He in H; rewrite decide_True in H by done.
      * exists a. by split; [|left].
      * exists z. split; [done|right]. apply happened_before_iff; [done|]. apply Hold; [|done]. by intros ->.
    + intros (dep & Hdi & Hor). assert (Hne : dep <> turn) by (by intros ->).
      assert (He' : depends (dependencies d') turn dep) by (apply He; by rewrite decide_True).
      destruct Hor as [->|Hor%happened_before_iff]; [by apply tc_once| |done]. eapply tc_l; [exact He'|]. by apply Hold.
  - rewrite (dk_frontier d' Hd'). unfold contains. rewrite bool_decide_eq_true. apply and_iff_compat_l.
    setoid_rewrite happened_before_not; [|done]. split; intros H y Hy.
    + apply (tc_inverse d' Hd') in Hy. inversion Hy; subst; by eapply H.
    + apply (H y), (tc_inverse d' Hd'). by apply tc_once.
Qed.

(** The depth of a known turn is returned, and is the length of the longest chain
    of dependencies below it; of an unknown turn it is absent. *)
Theorem depth_is_longest_chain (d : CausalDag) (x : bytes) : built d ->
  if contains d x
  then exists n, depth d x = Some (Some n) /\ (exists y, nsteps (depends (dependencies d)) n x y) /\
       forall k y, nsteps (depends (dependencies d)) k x y -> (k <= n)%nat
  else depth d x = Some None.
Proof.
  intros Hd%dag_built_ok. destruct (contains d x) eqn:Ex; [|unfold depth; by rewrite Ex].
  destruct (depth_ok d Hd x) as (n & Hn & Hl); [by apply bool_decide_eq_true in Ex|]. by exists n.
Qed.

Section GateAgreement.
Context `{HG : InstalledGate}.

(** A gate that, asked about a graph by positions, answers reachability there
    agrees with the search on hashes; the graph it is sent numbers dependencies
    below the turns that have them. *)
Theorem verified_order_agrees (d : CausalDag) (a b : bytes) (order : list bytes) :
  built d -> topological_order d = Some order ->
  (forall g i j r, gate = Some g -> position order a = Some i -> position order b = Some j ->
     ask_happened_before g (causal_wire (interned d order) i j) = Some r ->
     r = true <-> tc (wire_edge (interned d order)) j i) ->
  verified_happened_before d a b = happened_before d a b /\
  forall i j, wire_edge (interned d order) i j -> (j < i < length order)%nat.
Proof.
  intros Hd%dag_built_ok Ho Hg. destruct (topological_ok d Hd) as (l & Hl & Hp & Hf). rewrite Ho in Hl. injection Hl as <-. split.
  - unfold verified_happened_before. destruct (happened_before_ok d Hd a b) as (r & -> & Hr). cbn [mbind option_bind].
    destruct (lean_happened_before d a b) as [v|] eqn:Ev; [|done]. unfold lean_happened_before in Ev. rewrite Ho in Ev.
    destruct gate as [g|] eqn:Eg; [|done]. cbn [mbind option_bind] in Ev.
    destruct (negb _); [done|]. destruct (position order a) as [i|] eqn:Ei; [|done].
    destruct (position order b) as [j|] eqn:Ej; [|done]. cbn [mbind option_bind] in Ev.
    pose proof (Hg g i j v eq_refl eq_refl eq_refl Ev) as Hv. apply (position_lookup d order Hp) in Ei, Ej.
    rewrite (wire_reach d Hd order Hp j i b a Ej Ei), <-Hr in Hv. f_equal. destruct v, r; naive_solver.
  - intros i j Hij. split; [by eapply (interned_smaller d order Hp)|].
    apply (wire_edge_ok d order Hp) in Hij as (h & _ & Hi & _). by eapply lookup_lt_Some.
Qed.

End GateAgreement.

(** ** A graph *)

(** Two turns on a common one, and one that joins them. *)
Definition diamond : CausalDag :=
  let d := (insert_genesis dag_new [1]).1 in
  let d := (dag_insert d [2] [[1]]).1 in
  let d := (dag_insert d [3] [[1]]).1 in
  (dag_insert d [4] [[3]; [2]; [2]]).1.

Example diamond_queries :
  happened_before diamond [1] [4] = Some true /\ are_concurrent diamond [2] [3] = Some true /\
  topological_order diamond = Some [[1]; [2]; [3]; [4]] /\ depth diamond [4] = Some (Some 2%nat) /\
  frontier diamond = {[ [4] ]} /\ (try_insert diamond [6] [[5]]).2 = Ok (Some [[5]]) /\
  (dag_insert diamond [6] [[5]; [1]]).2 = Err (MissingDeps [6] [[5]]) /\ (dag_insert diamond [6] [[6]]).2 = Err (Duplicate [6]).
Proof. by vm_compute. Qed.

Lemma diamond_built : built diamond.
Proof.
  unfold diamond. cbv zeta. eapply rtc_r; [eapply rtc_r; [eapply rtc_r; [eapply rtc_once|]|]|].
  - eapply cs_genesis, surjective_pairing.
  - eapply cs_insert, surjective_pairing.
  - eapply cs_insert, surjective_pairing.
  - eapply cs_insert, surjective_pairing.
Qed.

Lemma happened_before_is_causality_witness : happened_before diamond [1] [4] = Some true /\ tc (depends (dependencies diamond)) [4] [1].
Proof.
  destruct (happened_before_is_causality diamond [1] [4] diamond_built) as [(r & E & Hr) _].
  assert (H : happened_before diamond [1] [4] = Some true) by (vm_compute; reflexivity).
  split; [exact H|]. apply Hr. rewrite H in E. injection E. congruence.
Defined.

Lemma topological_order_extends_witness : exists l, topological_order diamond = Some l /\ NoDup l.
Proof.
  destruct (topological_order_extends diamond diamond_built) as (l & E & Hl & _). exists l. split; [exact E|exact Hl].
Defined.

Lemma insert_keeps_history_witness :
  happened_before (dag_insert diamond [5] [[4]]).1 [1] [2] = happened_before diamond [1] [2].
Proof.
  assert (E : dag_insert diamond [5] [[4]] = ((dag_insert diamond [5] [[4]]).1, Ok tt)) by (vm_compute; reflexivity).
  destruct (insert_keeps_history diamond (dag_insert diamond [5] [[4]]).1 [5] [[4]] [1] [2] diamond_built E) as [H _].
  apply H. congruence.
Defined.

Lemma depth_is_longest_chain_witness : exists y, nsteps (depends (dependencies diamond)) 2 [4] y.
Proof.
  pose proof (depth_is_longest_chain diamond [4] diamond_built) as H.
  assert (E : contains diamond [4] = true) by (vm_compute; reflexivity). rewrite E in H. clear E.
  destruct H as (n & Hn & Hy & _). assert (E : depth diamond [4] = Some (Some 2%nat)) by (vm_compute; reflexivity).
  rewrite E in Hn. injection Hn as <-. exact Hy.
Defined.

(** A gate that answers yes. *)
#[local] Instance yes_gate : InstalledGate := Some (mkGate true (fun _ => Some true) (fun _ => None) (fun _ => None)).

Lemma verified_order_agrees_witness : verified_happened_before diamond [1] [2] = happened_before diamond [1] [2].
Proof.
  apply (verified_order_agrees diamond [1] [2] [[1]; [2]; [3]; [4]] diamond_built).
  - vm_compute. reflexivity.
  - intros g i j r [= <-] Hi Hj [= <-]. vm_compute in Hi, Hj. injection Hi as <-. injection Hj as <-.
    split; [intros _|reflexivity]. apply tc_once. exists [0%nat]. split; [|left].
    apply (list_elem_of_lookup_2 _ 1%nat). vm_compute. reflexivity.
Defined.
