(* ===== verification/Captp.v ===== *)
(** * Sessions and sturdy references

    Models [captp/src/session.rs], the tables of a session between two peers,
    [captp/src/sturdy.rs], the table of swiss numbers behind durable references,
    and [captp/src/uri.rs], their written form.

    Base 58 is a library ([Base58]); a random number is an argument.  Counters are
    [u32] or [u64] and an outer [None] is their overflow. *)

From stdpp Require Import base decidable option list gmap strings.
From Stdlib Require Import ZArith Lia.
From S2P Require Import Prelude VerifiedGate Permissions Facet.

Open Scope Z_scope.

(** ** The written form *)

Class Base58 := {
  bs58_encode : bytes -> bytes;
  bs58_decode : bytes -> result bytes string;
}.

(** Encodings are read back and are made of letters and digits, so hold no
    slash. *)
Class Base58OK (H : Base58) : Prop := {
  bs58_round : forall b, bs58_decode (bs58_encode b) = Ok b;
  bs58_no_slash : forall b, Forall (fun c => c <> 47) (bs58_encode b);
}.

Inductive UriError : Type :=
| InvalidScheme
| WrongSegmentCount (found : nat)
| Base58Decode (segment : string) (message : string)
| InvalidLength (segment : string) (expected found : nat).

Record DreggUri : Type := mkUri { uri_federation : bytes; uri_cell : bytes; uri_swiss : bytes }.

Section Uri.
Context `{HB : Base58}.

Definition decode_segment (s : bytes) (name : string) : result bytes UriError :=
  match bs58_decode s with
  | Err e => Err (Base58Decode name e)
  | Ok b => if negb (length b =? 32)%nat then Err (InvalidLength name 32 (length b)) else Ok b
  end.

Definition uri_scheme : bytes := str_bytes "dregg://".

Definition uri_parse (s : bytes) : result DreggUri UriError :=
  match strip_prefix uri_scheme s with
  | None => Err InvalidScheme
  | Some rest =>
      match split_on 47 rest with
      | [a; b; c] =>
          match decode_segment a "federation_id" with
          | Err e => Err e
          | Ok federation =>
              match decode_segment b "cell_id" with
              | Err e => Err e
              | Ok cell =>
                  match decode_segment c "swiss" with
                  | Err e => Err e
                  | Ok swiss => Ok (mkUri federation cell swiss)
                  end
              end
          end
      | segments => Err (WrongSegmentCount (length segments))
      end
  end.

Definition to_uri_string (u : DreggUri) : bytes :=
  uri_scheme ++ bs58_encode (uri_federation u) ++ 47 :: bs58_encode (uri_cell u) ++ 47 :: bs58_encode (uri_swiss u).

End Uri.

(** ** Swiss numbers *)

Inductive EnlivenError : Type := NotFound | EnExpired | ExhaustedUses.

Definition opaque_message : string := "denied".
Definition to_boundary_message (e : EnlivenError) : string := opaque_message.

Record SwissEntry : Type := mkSwiss {
  sw_cell : bytes;
  sw_permissions : AuthRequired;
  sw_allowed_effects : option Z;
  sw_expires_at : option Z;
  sw_created_at : Z;
  sw_max_uses : option Z;
  sw_use_count : Z;
}.

Record SwissTable : Type := mkTable { st_entries : gmap bytes SwissEntry; seen_handoff_nonces : gset bytes }.

Definition swiss_new : SwissTable := mkTable ∅ ∅.

Definition handoff_nonce_seen (t : SwissTable) (nonce : bytes) : bool := bool_decide (nonce ∈ seen_handoff_nonces t).

Definition register_handoff_nonce (t : SwissTable) (nonce : bytes) : SwissTable * bool :=
  (mkTable (st_entries t) (seen_handoff_nonces t ∪ {[ nonce ]}), negb (handoff_nonce_seen t nonce)).

(** [swiss] is what the random generator fills in. *)
Definition export_with_options (t : SwissTable) (swiss cell : bytes) (permissions : AuthRequired) (height : Z)
    (expires_at allowed_effects max_uses : option Z) : SwissTable * bytes :=
  (mkTable (<[swiss := mkSwiss cell permissions allowed_effects expires_at height max_uses 0]> (st_entries t))
     (seen_handoff_nonces t), swiss).

Definition swiss_export (t : SwissTable) (swiss cell : bytes) (permissions : AuthRequired) (height : Z)
    (expires_at : option Z) : SwissTable * bytes :=
  export_with_options t swiss cell permissions height expires_at None None.

Definition make_uri (t : SwissTable) (federation swiss : bytes) : option DreggUri :=
  e ← st_entries t !! swiss; Some (mkUri federation (sw_cell e) swiss).

(** The checks that [enliven] and [check] share. *)
Definition admission (e : SwissEntry) (height : Z) : result unit EnlivenError :=
  if match sw_expires_at e with Some exp => exp <? height | None => false end then Err EnExpired
  else if match sw_max_uses e with Some max => max <=? sw_use_count e | None => false end then Err ExhaustedUses
  else Ok tt.

Definition with_uses (e : SwissEntry) (n : Z) : SwissEntry :=
  mkSwiss (sw_cell e) (sw_permissions e) (sw_allowed_effects e) (sw_expires_at e) (sw_created_at e) (sw_max_uses e) n.

Definition enliven (t : SwissTable) (swiss : bytes) (height : Z) : option (SwissTable * result SwissEntry EnlivenError) :=
  match st_entries t !! swiss with
  | None => Some (t, Err NotFound)
  | Some e =>
      match admission e height with
      | Err x => Some (t, Err x)
      | Ok _ =>
          n ← checked_add_u32 (sw_use_count e) 1;
          let e := with_uses e n in
          Some (mkTable (<[swiss := e]> (st_entries t)) (seen_handoff_nonces t), Ok e)
      end
  end.

Definition swiss_check (t : SwissTable) (swiss : bytes) (height : Z) : result SwissEntry EnlivenError :=
  match st_entries t !! swiss with
  | None => Err NotFound
  | Some e => match admission e height with Err x => Err x | Ok _ => Ok e end
  end.

Definition swiss_revoke (t : SwissTable) (swiss : bytes) : SwissTable * bool :=
  (mkTable (delete swiss (st_entries t)) (seen_handoff_nonces t), bool_decide (is_Some (st_entries t !! swiss))).

Definition swiss_contains (t : SwissTable) (swiss : bytes) : bool := bool_decide (is_Some (st_entries t !! swiss)).
Definition swiss_len (t : SwissTable) : nat := size (st_entries t).
Definition swiss_peek (t : SwissTable) (swiss : bytes) : option SwissEntry := st_entries t !! swiss.

(** ** Sessions *)

Record SessionExport : Type := mkSExport { se_cell : bytes; se_permissions : AuthRequired; se_ref_count : Z }.
Record SessionImport : Type := mkSImport { si_cell : bytes; si_permissions : AuthRequired; si_live : bool }.

Inductive PromiseState : Type := Pending | Fulfilled (cell : bytes) | Broken (reason : string).

Record CapSession : Type := mkSession {
  cs_peer : bytes;
  cs_strand : option bytes;
  cs_epoch : Z;
  cs_exports : gmap bytes SessionExport;
  cs_imports : gmap bytes SessionImport;
  cs_promises : gmap Z PromiseState;
  cs_next_promise : Z;
}.

Definition session_with_epoch (peer : bytes) (epoch : Z) : CapSession := mkSession peer None epoch ∅ ∅ ∅ 0.
Definition session_new (peer : bytes) : CapSession := session_with_epoch peer 0.
Definition session_with_strand (strand : bytes) (epoch : Z) : CapSession := mkSession strand (Some strand) epoch ∅ ∅ ∅ 0.

Definition with_exports (s : CapSession) (x : gmap bytes SessionExport) : CapSession :=
  mkSession (cs_peer s) (cs_strand s) (cs_epoch s) x (cs_imports s) (cs_promises s) (cs_next_promise s).
Definition with_imports (s : CapSession) (x : gmap bytes SessionImport) : CapSession :=
  mkSession (cs_peer s) (cs_strand s) (cs_epoch s) (cs_exports s) x (cs_promises s) (cs_next_promise s).
Definition with_promises (s : CapSession) (x : gmap Z PromiseState) (next : Z) : CapSession :=
  mkSession (cs_peer s) (cs_strand s) (cs_epoch s) (cs_exports s) (cs_imports s) x next.

Definition session_export (s : CapSession) (cell : bytes) (permissions : AuthRequired) : option (CapSession * bytes) :=
  let e := default (mkSExport cell permissions 0) (cs_exports s !! cell) in
  n ← checked_add_u32 (se_ref_count e) 1;
  let p := if is_narrower_or_equal permissions (se_permissions e) then permissions else se_permissions e in
  Some (with_exports s (<[cell := mkSExport (se_cell e) p n]> (cs_exports s)), cell).

Definition release_export (s : CapSession) (cell : bytes) : CapSession * bool :=
  match cs_exports s !! cell with
  | None => (s, false)
  | Some e =>
      let n := Z.max 0 (se_ref_count e - 1) in
      if n =? 0 then (with_exports s (delete cell (cs_exports s)), true)
      else (with_exports s (<[cell := mkSExport (se_cell e) (se_permissions e) n]> (cs_exports s)), false)
  end.

Definition session_import (s : CapSession) (cell : bytes) (permissions : AuthRequired) : CapSession :=
  with_imports s (<[cell := mkSImport cell permissions true]> (cs_imports s)).

Definition disconnect_import (s : CapSession) (cell : bytes) : CapSession :=
  match cs_imports s !! cell with
  | None => s
  | Some i => with_imports s (<[cell := mkSImport (si_cell i) (si_permissions i) false]> (cs_imports s))
  end.

Definition create_promise (s : CapSession) : option (CapSession * Z) :=
  let id := cs_next_promise s in
  next ← checked_add_u64 id 1;
  Some (with_promises s (<[id := Pending]> (cs_promises s)) next, id).

(** A pending promise takes its outcome; another does not. *)
Definition settle_promise (s : CapSession) (id : Z) (outcome : PromiseState) : CapSession * bool :=
  match cs_promises s !! id with
  | Some Pending => (with_promises s (<[id := outcome]> (cs_promises s)) (cs_next_promise s), true)
  | _ => (s, false)
  end.

Definition fulfill_promise (s : CapSession) (id : Z) (cell : bytes) : CapSession * bool := settle_promise s id (Fulfilled cell).
Definition break_promise (s : CapSession) (id : Z) (reason : string) : CapSession * bool := settle_promise s id (Broken reason).
Definition promise_state (s : CapSession) (id : Z) : option PromiseState := cs_promises s !! id.

Definition session_is_active (s : CapSession) : bool :=
  negb (bool_decide (cs_exports s = ∅)) || existsb (fun e : bytes * SessionImport => si_live e.2) (map_to_list (cs_imports s)).

(** ** Round trip of a written reference *)

Lemma decode_segment_spec `{Base58} s name b : decode_segment s name = Ok b <-> bs58_decode s = Ok b /\ length b = 32%nat.
Proof.
  unfold decode_segment. destruct (bs58_decode s) as [x|e]; [|naive_solver].
  destruct (Nat.eqb_spec (length x) 32); cbn [negb]; naive_solver.
Qed.

(** A reference with three 32-byte parts is read back from its text, and a text is
    read only when it has the scheme and three parts that decode to 32 bytes. *)
Theorem uri_round_trip `{HB : Base58} `{!Base58OK HB} (u : DreggUri) (s : bytes) :
  length (uri_federation u) = 32%nat -> length (uri_cell u) = 32%nat -> length (uri_swiss u) = 32%nat ->
  uri_parse (to_uri_string u) = Ok u /\
  (uri_parse s = Ok u -> exists a b c, s = uri_scheme ++ a ++ 47 :: b ++ 47 :: c /\
     bs58_decode a = Ok (uri_federation u) /\ bs58_decode b = Ok (uri_cell u) /\ bs58_decode c = Ok (uri_swiss u)).
Proof.
  intros H1 H2 H3. split.
  - unfold uri_parse, to_uri_string. rewrite strip_prefix_app, !split_on_cons, split_on_free by apply bs58_no_slash.
    rewrite (proj2 (decode_segment_spec _ _ (uri_federation u))) by (by rewrite bs58_round).
    rewrite (proj2 (decode_segment_spec _ _ (uri_cell u))) by (by rewrite bs58_round).
    rewrite (proj2 (decode_segment_spec _ _ (uri_swiss u))) by (by rewrite bs58_round). by destruct u.
  - unfold uri_parse. destruct (strip_prefix uri_scheme s) as [rest|] eqn:Es; [|done]. apply strip_prefix_some in Es as ->.
    destruct (split_on 47 rest) as [|a [|b [|c [|? ?]]]] eqn:Er; try done.
    destruct (decode_segment a _) as [x|] eqn:Ea; [|done]. destruct (decode_segment b _) as [y|] eqn:Eb; [|done].
    destruct (decode_segment c _) as [z|] eqn:Ec; [|done]. intros [= <-]. exists a, b, c.
    apply decode_segment_spec in Ea as [? _], Eb as [? _], Ec as [? _]. split_and!; [|done..].
    f_equal. by rewrite <-(join_split 47 rest), Er.
Qed.

(** ** Use counts *)

(** A table whose counters are within their limits. *)
Definition table_ok (t : SwissTable) : Prop := forall sw e, st_entries t !! sw = Some e ->
  is_u32 (sw_use_count e) /\ forall max, sw_max_uses e = Some max -> sw_use_count e <= max.

Lemma admission_ok e height : admission e height = Ok tt <->
  (forall exp, sw_expires_at e = Some exp -> height <= exp) /\ (forall max, sw_max_uses e = Some max -> sw_use_count e < max).
Proof.
  unfold admission. destruct (sw_expires_at e) as [exp|], (sw_max_uses e) as [max|];
    repeat (match goal with |- context [?a <? ?b] => destruct (Z.ltb_spec a b) | |- context [?a <=? ?b] => destruct (Z.leb_spec a b) end);
    split; try done; try (intros [Ha Hb]; exfalso; try specialize (Ha _ eq_refl); try specialize (Hb _ eq_refl); lia);
    intros _; split; intros ? [= <-]; lia.
Qed.

Lemma admission_cases e height : admission e height = Ok tt \/ exists x, admission e height = Err x.
Proof. unfold admission. destruct (sw_expires_at e), (sw_max_uses e); repeat case_match; eauto. Qed.

(** ** Sessions *)

Inductive session_step (s s' : CapSession) : Prop :=
| ss_export cell p r : session_export s cell p = Some (s', r) -> session_step s s'
| ss_release cell r : release_export s cell = (s', r) -> session_step s s'
| ss_import cell p : session_import s cell p = s' -> session_step s s'
| ss_disconnect cell : disconnect_import s cell = s' -> session_step s s'
| ss_create id : create_promise s = Some (s', id) -> session_step s s'
| ss_fulfill id cell r : fulfill_promise s id cell = (s', r) -> session_step s s'
| ss_break id reason r : break_promise s id reason = (s', r) -> session_step s s'.

(** Promise numbers are below the next one, and exports are referenced. *)
Definition session_ok (s : CapSession) : Prop :=
  (forall id x, cs_promises s !! id = Some x -> id < cs_next_promise s) /\
  (forall c e, cs_exports s !! c = Some e -> 0 < se_ref_count e).

(** A promise that is settled stays as it is, one that is pending is not lost. *)
Definition promise_kept (s s' : CapSession) : Prop := forall id,
  match cs_promises s !! id with
  | Some Pending => is_Some (cs_promises s' !! id)
  | Some x => cs_promises s' !! id = Some x
  | None => True
  end.

Lemma settle_spec s id out s' r : settle_promise s id out = (s', r) ->
  (r = true /\ cs_promises s !! id = Some Pending /\ s' = with_promises s (<[id := out]> (cs_promises s)) (cs_next_promise s)) \/
  (r = false /\ cs_promises s !! id <> Some Pending /\ s' = s).
Proof.
  unfold settle_promise. destruct (cs_promises s !! id) as [[]|] eqn:E; intros [= <- <-]; [left|right..]; done.
Qed.

Lemma promise_kept_same s s' : cs_promises s' = cs_promises s -> promise_kept s s'.
Proof. intros E id. rewrite E. destruct (cs_promises s !! id) as [[]|]; [by eexists|done..]. Qed.

Lemma settle_step s id out s' r : session_ok s -> settle_promise s id out = (s', r) -> session_ok s' /\ promise_kept s s'.
Proof.
  intros Hs [(-> & Hp & ->)|(-> & _ & ->)]%settle_spec; [|split; [done|by apply promise_kept_same]]. split.
  - destruct Hs as [H1 H2]. split; cbn; [|done]. intros j x. destruct (decide (j = id)) as [->|]; [by eauto|].
    rewrite lookup_insert_ne by done. apply H1.
  - intros j. cbn. destruct (decide (j = id)) as [->|]; [rewrite Hp, lookup_insert_eq; by eexists|].
    rewrite lookup_insert_ne by done. destruct (cs_promises s !! j) as [[]|]; [by eexists|done..].
Qed.

Lemma session_step_ok s s' : session_ok s -> session_step s s' -> session_ok s' /\ promise_kept s s'.
Proof.
  intros Hs Hst. destruct Hst as [c p r E|c r E|c p E|c E|id E|id c r E|id m r E]; try (by eapply settle_step).
  - unfold session_export in E. destruct (checked_add_u32 _ _) as [n|] eqn:En; [|done]. injection E as <- _.
    split; [|by apply promise_kept_same]. destruct Hs as [H1 H2]. split; cbn; [done|]. intros c' e'.
    destruct (decide (c' = c)) as [->|]; [|rewrite lookup_insert_ne by done; apply H2]. rewrite lookup_insert_eq. intros [= <-]. cbn.
    apply checked_add_u32_spec in En as [-> _]. destruct (cs_exports s !! c) as [e|] eqn:Ee; cbn; [specialize (H2 _ _ Ee); lia|lia].
  - unfold release_export in E. destruct (cs_exports s !! c) as [e|] eqn:Ee; [|injection E as <- _; split; [done|by apply promise_kept_same]].
    destruct Hs as [H1 H2]. destruct (Z.eqb_spec (Z.max 0 (se_ref_count e - 1)) 0); injection E as <- _; (split; [|by apply promise_kept_same]);
      (split; cbn; [done|]); intros c' e'.
    + intros [_ Hc]%lookup_delete_Some. by eapply H2.
    + destruct (decide (c' = c)) as [->|]; [|rewrite lookup_insert_ne by done; apply H2]. rewrite lookup_insert_eq. intros [= <-]. cbn. lia.
  - subst s'. split; [done|by apply promise_kept_same].
  - subst s'. unfold disconnect_import. destruct (cs_imports s !! c); (split; [done|by apply promise_kept_same]).
  - unfold create_promise in E. destruct (checked_add_u64 _ _) as [n|] eqn:En; [|done]. injection E as <- <-.
    apply checked_add_u64_spec in En as [-> _]. destruct Hs as [H1 H2]. split; [split; cbn; [|done]|].
    + intros j x. destruct (decide (j = cs_next_promise s)) as [->|]; [lia|]. rewrite lookup_insert_ne by done. intros Hj%H1. lia.
    + intros j. cbn. destruct (cs_promises s !! j) as [x|] eqn:Ej; [|done]. rewrite lookup_insert_ne by (apply H1 in Ej; lia).
      rewrite Ej. destruct x; [by eexists|done..].
Qed.

(** From a fresh session, or any with its numbers in order, whatever happens on it, an outcome is final: a
    promise that is fulfilled or broken stays so, can be settled no more, and its
    number is not issued again. *)
Theorem promise_settles_once (s0 s s' : CapSession) (id : Z) (x : PromiseState) :
  session_ok s0 -> rtc session_step s0 s -> rtc session_step s s' -> cs_promises s !! id = Some x -> x <> Pending ->
  promise_state s' id = Some x /\ (forall out, settle_promise s' id out = (s', false)) /\
  (forall s'' id', create_promise s' = Some (s'', id') -> id' <> id).
Proof.
  intros H0 Hr0 Hr Hx Hnp. assert (Hs : session_ok s).
  { clear -H0 Hr0. induction Hr0 as [|s s1 s' Hst _ IH]; [done|]. apply IH. by apply (session_step_ok s). }
  assert (Hg : session_ok s' /\ cs_promises s' !! id = Some x).
  { clear H0 Hr0. induction Hr as [|s s1 s' Hst _ IH]; [done|]. destruct (session_step_ok s s1 Hs Hst) as [Hs1 Hk].
    apply IH; [|done]. specialize (Hk id). rewrite Hx in Hk. by destruct x. }
  destruct Hg as [Hs' Hx']. split_and!; [done| |].
  - intros out. unfold settle_promise. rewrite Hx'. by destruct x.
  - intros s'' id'. unfold create_promise. destruct (checked_add_u64 _ _); [|done]. intros [= _ <-] E.
    apply (proj1 Hs') in Hx'. lia.
Qed.

(** Exporting again counts the reference and never widens what the peer may do;
    the release that takes the last reference removes the export. *)
Theorem session_export_narrows (s s' : CapSession) (c r : bytes) (p : AuthRequired) (e : SessionExport) :
  session_ok s -> cs_exports s !! c = Some e -> session_export s c p = Some (s', r) ->
  exists e', cs_exports s' !! c = Some e' /\ is_narrower_or_equal (se_permissions e') (se_permissions e) = true /\
    se_ref_count e' = se_ref_count e + 1 /\ (is_narrower_or_equal p (se_permissions e) = true -> se_permissions e' = p) /\
    (release_export s' c).2 = false /\ (release_export s c).2 = (se_ref_count e =? 1).
Proof.
  intros [_ Hpos] Hc E. specialize (Hpos _ _ Hc). unfold session_export in E. rewrite Hc in E. cbn [default from_option id] in E.
  destruct (checked_add_u32 _ _) as [n|] eqn:En; [|done]. apply checked_add_u32_spec in En as [-> _]. injection E as <- _.
  eexists. cbn [cs_exports with_exports]. split; [apply lookup_insert_eq|]. cbn [se_permissions se_ref_count].
  destruct (is_narrower_or_equal p (se_permissions e)) eqn:Ep; split_and!; auto using is_narrower_or_equal_refl; try done.
  all: unfold release_export; cbn [cs_exports with_exports]; rewrite ?lookup_insert_eq, ?Hc; cbn [se_ref_count];
    repeat match goal with |- context [?a =? ?b] => destruct (Z.eqb_spec a b) end; (done || lia).
Qed.

Lemma fresh_session_ok peer strand epoch : session_ok (mkSession peer strand epoch ∅ ∅ ∅ 0).
Proof. split; cbn; intros ??; by rewrite lookup_empty. Qed.

(** ** Examples *)

(** A writing of bytes that leaves the slash out. *)
Definition shift58 (b : Z) : Z := if b <? 47 then b else b + 1.
Definition unshift58 (c : Z) : Z := if c <? 47 then c else c - 1.

Definition shifted58 : Base58 := {| bs58_encode b := shift58 <$> b; bs58_decode s := Ok (unshift58 <$> s) |}.

Lemma shifted58_ok : Base58OK shifted58.
Proof.
  assert (H : forall b, unshift58 (shift58 b) = b /\ shift58 b <> 47).
  { intros b. unfold unshift58, shift58. destruct (Z.ltb_spec b 47); [rewrite (proj2 (Z.ltb_lt b 47)) by lia; lia|].
    rewrite (proj2 (Z.ltb_ge (b + 1) 47)) by lia. lia. }
  split; intros b; cbn.
  - f_equal. rewrite <-list_fmap_compose. rewrite <-(list_fmap_id b) at 2. apply list_fmap_ext. intros ? x _. apply H.
  - apply Forall_fmap, Forall_forall. intros x _. apply H.
Qed.

Lemma uri_round_trip_witness :
  uri_parse (HB := shifted58) (to_uri_string (HB := shifted58) (mkUri (replicate 32 1) (replicate 32 47) (replicate 32 3))) =
  Ok (mkUri (replicate 32 1) (replicate 32 47) (replicate 32 3)).
Proof.
  exact (proj1 (@uri_round_trip shifted58 shifted58_ok (mkUri (replicate 32 1) (replicate 32 47) (replicate 32 3)) [] eq_refl eq_refl eq_refl)).
Defined.

(** One promise, fulfilled. *)
Definition promised : CapSession := default (session_new [1]) (fst <$> create_promise (session_new [1])).
Definition fulfilled : CapSession := (fulfill_promise promised 0 [7]).1.

Lemma promise_settles_once_witness : promise_state fulfilled 0 = Some (Fulfilled [7]) /\ break_promise fulfilled 0 "late" = (fulfilled, false).
Proof.
  assert (H1 : session_step (session_new [1]) promised) by (apply (ss_create _ _ 0); vm_compute; reflexivity).
  assert (H2 : session_step promised fulfilled) by (apply (ss_fulfill _ _ 0 [7] true); vm_compute; reflexivity).
  assert (Hx : cs_promises fulfilled !! 0 = Some (Fulfilled [7])) by (vm_compute; reflexivity).
  destruct (promise_settles_once (session_new [1]) fulfilled fulfilled 0 (Fulfilled [7]) (fresh_session_ok _ _ _)
    (rtc_l _ _ _ _ H1 (rtc_once _ _ H2)) (rtc_refl _ _) Hx ltac:(discriminate)) as (E & Hs & _).
  split; [exact E|apply Hs].
Defined.

(** One export. *)
Definition exported : CapSession := default (session_new [1]) (fst <$> session_export (session_new [1]) [9] AR_Either).

Lemma exported_ok : session_ok exported.
Proof.
  assert (H : session_step (session_new [1]) exported) by (apply (ss_export _ _ [9] AR_Either [9]); by vm_compute).
  by apply (session_step_ok (session_new [1])); [apply fresh_session_ok|].
Qed.

Lemma session_export_narrows_witness : exists e',
  cs_exports (default exported (fst <$> session_export exported [9] AR_Signature)) !! [9] = Some e' /\
  is_narrower_or_equal (se_permissions e') AR_Either = true /\ se_ref_count e' = 2.
Proof.
  assert (E : session_export exported [9] AR_Signature =
    Some (default exported (fst <$> session_export exported [9] AR_Signature), [9])) by (vm_compute; reflexivity).
  assert (Hc : cs_exports exported !! [9] = Some (mkSExport [9] AR_Either 1)) by (vm_compute; reflexivity).
  destruct (session_export_narrows exported _ [9] [9] AR_Signature (mkSExport [9] AR_Either 1) exported_ok Hc E) as (e' & H1 & H2 & H3 & _).
  exists e'. split; [exact H1|]. split; [exact H2|exact H3].
Defined.
