(* ===== verification/CaptpGc.v ===== *)
(** * Distributed references

    Models [captp/src/gc.rs], the counting of references that peers hold to our
    cells and that we hold to theirs, and the seam of [captp/src/verified_gate.rs].

    Federations, strands and cells are 32-byte names.  A drop asks the installed
    gate, when there is one, for its verdict, with the holders of the cell written
    out in the order of the map; counters are [u64], and an outer [None] is their
    overflow or underflow. *)

From stdpp Require Import base decidable option list gmap strings.
From Stdlib Require Import ZArith Lia.
From S2P Require Import Prelude VerifiedGate.

Open Scope Z_scope.

(** ** The gate *)

(** The methods of the trait; [None] of a method is an unavailable answer. *)
Record CaptpVerifiedGate : Type := mkCaptpGate {
  cg_available : bool;
  cg_handoff_non_amplifying : bytes -> option bool;
  cg_process_drop : bytes -> option bytes;
  cg_pipeline_resolve : bytes -> option bytes;
}.

(** The installed gate, set once. *)
Class CaptpGate := captp_gate : option CaptpVerifiedGate.

Definition register_captp_verified_gate (installed : option CaptpVerifiedGate) (g : CaptpVerifiedGate)
    : option CaptpVerifiedGate :=
  match installed with Some g' => Some g' | None => Some g end.

(** ** Exports *)

Record RefCount : Type := mkRefCount { rc_count : Z; rc_last_activity : Z; rc_sessions : gmap Z Z }.

Definition session_count (rc : RefCount) (session : Z) : Z := default 0 (rc_sessions rc !! session).

Record ExportEntry : Type := mkExport {
  ee_cell : bytes;
  ee_holders : gmap bytes RefCount;
  ee_total : Z;
  ee_exported_at : Z;
}.

Inductive DropResult : Type := StillHeld | CanRevoke | Invalid.

#[export] Instance DropResult_eq_dec : EqDecision DropResult.
Proof. solve_decision. Defined.

Record ExportGcManager : Type := mkExports { exports : gmap bytes ExportEntry }.

Definition export_gc_new : ExportGcManager := mkExports ∅.

Definition record_export_with_session (m : ExportGcManager) (cell fed : bytes) (height session : Z)
    : option ExportGcManager :=
  let entry := default (mkExport cell ∅ 0 height) (exports m !! cell) in
  let rc := default (mkRefCount 0 height ∅) (ee_holders entry !! fed) in
  count ← checked_add_u64 (rc_count rc) 1;
  bucket ← checked_add_u64 (session_count rc session) 1;
  total ← checked_add_u64 (ee_total entry) 1;
  let rc := mkRefCount count height (<[session := bucket]> (rc_sessions rc)) in
  Some (mkExports (<[cell := mkExport (ee_cell entry) (<[fed := rc]> (ee_holders entry)) total (ee_exported_at entry)]>
                     (exports m))).

Definition record_export (m : ExportGcManager) (cell fed : bytes) (height : Z) : option ExportGcManager :=
  record_export_with_session m cell fed height 0.

(** [x -= 1] on a [u64]. *)
Definition decrement (x : Z) : option Z := if 1 <=? x then Some (x - 1) else None.

(** *** What the gate is sent *)

Definition bucket_text (b : Z * Z) : bytes := u64_to_string b.1 ++ str_bytes "=" ++ u64_to_string b.2.

Definition holder_text (id : nat) (rc : RefCount) : bytes :=
  u64_to_string (Z.of_nat id) ++ str_bytes ":" ++ u64_to_string (rc_count rc) ++ str_bytes ":" ++
  join_with char_plus (bucket_text <$> sort_by_key fst (map_to_list (rc_sessions rc))).

(** The number of a holder; a stranger gets the next one. *)
Definition fed_id (holders : list (bytes * RefCount)) (fed : bytes) : nat :=
  match list_find (fun e : bytes * RefCount => e.1 = fed) holders with Some (i, _) => i | None => length holders end.

Definition drop_wire (e : ExportEntry) (fed : bytes) (session : Z) : bytes :=
  let holders := map_to_list (ee_holders e) in
  str_bytes "H=" ++ join_with 124 (imap (fun i h => holder_text i h.2) holders) ++
  str_bytes ";f=" ++ u64_to_string (Z.of_nat (fed_id holders fed)) ++ str_bytes ";s=" ++ u64_to_string session.

(** The reply names its verdict first; an unknown one is [Invalid]. *)
Definition parse_verdict (out : bytes) : option DropResult :=
  first ← head (split_on char_semi out);
  tag ← strip_prefix (str_bytes "S=") first;
  Some (if bool_decide (tag = str_bytes "0") then StillHeld
        else if bool_decide (tag = str_bytes "1") then CanRevoke else Invalid).

(** Emptied buckets and holders are removed. *)
Definition put_bucket (m : gmap Z Z) (session b : Z) : gmap Z Z := if b =? 0 then delete session m else <[session := b]> m.

Definition put_holder (m : gmap bytes RefCount) (fed : bytes) (rc : RefCount) : gmap bytes RefCount :=
  if rc_count rc =? 0 then delete fed m else <[fed := rc]> m.

Section Drops.
Context `{HG : CaptpGate}.

Definition verified_drop_verdict (entry : option ExportEntry) (fed : bytes) (session : Z) : option DropResult :=
  g ← captp_gate;
  if negb (cg_available g) then None
  else match entry with
       | None => Some Invalid
       | Some e => out ← cg_process_drop g (drop_wire e fed session); parse_verdict out
       end.

Definition process_drop_inner (m : ExportGcManager) (cell fed : bytes) (session : Z)
    : option (ExportGcManager * DropResult) :=
  let verified := verified_drop_verdict (exports m !! cell) fed session in
  if bool_decide (verified = Some Invalid) then Some (m, Invalid)
  else
    match exports m !! cell with
    | None => Some (m, Invalid)
    | Some e =>
        match ee_holders e !! fed with
        | None => Some (m, Invalid)
        | Some rc =>
            match rc_sessions rc !! session with
            | Some b =>
                if negb (0 <? b) then Some (m, Invalid)
                else
                  let sessions := put_bucket (rc_sessions rc) session (b - 1) in
                  count ← decrement (rc_count rc);
                  total ← decrement (ee_total e);
                  let holders := put_holder (ee_holders e) fed (mkRefCount count (rc_last_activity rc) sessions) in
                  let native := if total =? 0 then CanRevoke else StillHeld in
                  Some (mkExports (<[cell := mkExport (ee_cell e) holders total (ee_exported_at e)]> (exports m)),
                        match verified with Some v => v | None => native end)
            | None => Some (m, Invalid)
            end
        end
    end.

Definition process_drop_with_session := process_drop_inner.

(** A drop that names no session changes nothing. *)
Definition process_drop (m : ExportGcManager) (cell fed : bytes) : ExportGcManager * DropResult := (m, Invalid).

Definition record_export_by_strand := record_export_with_session.
Definition process_drop_by_strand := process_drop_with_session.

End Drops.

Definition is_stale (max_idle height : Z) (e : ExportEntry) : bool :=
  forallb (fun h : bytes * RefCount => max_idle <? Z.max 0 (height - rc_last_activity h.2)) (map_to_list (ee_holders e)).

Definition stale_exports (m : ExportGcManager) (max_idle height : Z) : list bytes :=
  ee_cell <$> List.filter (is_stale max_idle height) (snd <$> map_to_list (exports m)).

Definition gc_sweep (m : ExportGcManager) : ExportGcManager * list bytes :=
  let dead := fst <$> List.filter (fun e : bytes * ExportEntry => ee_total e.2 =? 0) (map_to_list (exports m)) in
  (mkExports (foldl (fun acc cell => delete cell acc) (exports m) dead), dead).

Definition export_get (m : ExportGcManager) (cell : bytes) : option ExportEntry := exports m !! cell.
Definition export_len (m : ExportGcManager) : nat := size (exports m).

(** ** Imports *)

Record ImportEntry : Type := mkImport { ie_federation : bytes; ie_cell : bytes; ie_local_refs : Z }.

Record DropMessage : Type := mkDrop { dm_target : bytes; dm_cell : bytes }.

Record ImportGcManager : Type := mkImports { imports : gmap (bytes * bytes) ImportEntry }.

Definition import_gc_new : ImportGcManager := mkImports ∅.

Definition record_import (m : ImportGcManager) (fed cell : bytes) : option ImportGcManager :=
  let e := default (mkImport fed cell 0) (imports m !! (fed, cell)) in
  n ← checked_add_u64 (ie_local_refs e) 1;
  Some (mkImports (<[(fed, cell) := mkImport (ie_federation e) (ie_cell e) n]> (imports m))).

Definition local_ref_dropped (m : ImportGcManager) (fed cell : bytes) : ImportGcManager * option DropMessage :=
  match imports m !! (fed, cell) with
  | None => (m, None)
  | Some e =>
      if ie_local_refs e =? 0 then (m, None)
      else
        let n := ie_local_refs e - 1 in
        if n =? 0 then (mkImports (delete (fed, cell) (imports m)), Some (mkDrop fed cell))
        else (mkImports (<[(fed, cell) := mkImport (ie_federation e) (ie_cell e) n]> (imports m)), None)
  end.

Definition import_get (m : ImportGcManager) (fed cell : bytes) : option ImportEntry := imports m !! (fed, cell).

(** ** Counting *)

(** Sums over the values of a map. *)
Section MapSum.
Context `{Countable K} {A : Type} (f : A -> Z).

Definition msum (m : gmap K A) : Z := sum_over (fun e : K * A => f e.2) (map_to_list m).

Lemma msum_empty : msum ∅ = 0.
Proof. unfold msum. by rewrite map_to_list_empty. Qed.

Lemma msum_insert_fresh (m : gmap K A) k x : m !! k = None -> msum (<[k := x]> m) = f x + msum m.
Proof. intros Hk. unfold msum. by rewrite (sum_over_perm _ _ _ (map_to_list_insert m k x Hk)). Qed.

Lemma msum_delete (m : gmap K A) k x : m !! k = Some x -> msum m = f x + msum (delete k m).
Proof.
  intros Hk. rewrite <-(insert_delete_id m k x Hk) at 1. by rewrite msum_insert_fresh by apply lookup_delete_eq.
Qed.

Lemma msum_insert (m : gmap K A) k x : msum (<[k := x]> m) = f x + msum m - default 0 (f <$> m !! k).
Proof.
  destruct (m !! k) as [y|] eqn:Ek; cbn [fmap option_fmap option_map from_option id].
  - rewrite <-insert_delete_eq, msum_insert_fresh by apply lookup_delete_eq. rewrite (msum_delete m k y Ek). lia.
  - rewrite msum_insert_fresh by done. lia.
Qed.

Lemma msum_pos (m : gmap K A) : (forall k x, m !! k = Some x -> 0 < f x) -> 0 <= msum m /\ (msum m = 0 -> m = ∅).
Proof.
  induction m as [|k x m Hk IH] using map_ind; intros Hpos; [by rewrite msum_empty|].
  rewrite msum_insert_fresh by done. pose proof (Hpos k x (lookup_insert_eq _ _ _)).
  destruct IH as [IH _]; [|split; lia]. intros j y Hj. apply (Hpos j). by rewrite lookup_insert_ne by congruence.
Qed.

Lemma msum_ge (m : gmap K A) k x : (forall k x, m !! k = Some x -> 0 < f x) -> m !! k = Some x -> f x <= msum m.
Proof.
  intros Hpos Hk. rewrite (msum_delete m k x Hk). destruct (msum_pos (delete k m)) as [? _]; [|lia].
  intros j y [_ Hj]%lookup_delete_Some. by apply (Hpos j).
Qed.

End MapSum.

Record holder_ok (rc : RefCount) : Prop := {
  ho_pos : 0 < rc_count rc;
  ho_sum : rc_count rc = msum id (rc_sessions rc);
  ho_sessions : forall s n, rc_sessions rc !! s = Some n -> 0 < n;
}.

Record export_ok (cell : bytes) (e : ExportEntry) : Prop := {
  eo_cell : ee_cell e = cell;
  eo_total : ee_total e = msum rc_count (ee_holders e);
  eo_holders : forall f rc, ee_holders e !! f = Some rc -> holder_ok rc;
}.

Definition gc_ok (m : ExportGcManager) : Prop := forall cell e, exports m !! cell = Some e -> export_ok cell e.

(** What a holder's sessions have of a cell. *)
Definition held (holders : gmap bytes RefCount) (f : bytes) (s : Z) : Z :=
  match holders !! f with Some rc => session_count rc s | None => 0 end.

(** The references a session of a federation holds to a cell. *)
Definition refs (m : ExportGcManager) (cell fed : bytes) (session : Z) : Z :=
  match exports m !! cell with
  | Some e => held (ee_holders e) fed session
  | None => 0
  end.

Lemma refs_nonneg m c f s : gc_ok m -> 0 <= refs m c f s.
Proof.
  intros Hm. unfold refs, held, session_count. destruct (exports m !! c) as [e|] eqn:Ee; [|done].
  destruct (ee_holders e !! f) as [rc|] eqn:Er; [|done]. destruct (rc_sessions rc !! s) as [n|] eqn:Es; cbn; [|done].
  pose proof (ho_sessions _ (eo_holders _ _ (Hm _ _ Ee) _ _ Er) _ _ Es). lia.
Qed.

Lemma refs_insert m c e c' f s : refs (mkExports (<[c := e]> (exports m))) c' f s =
  if decide (c' = c) then held (ee_holders e) f s else refs m c' f s.
Proof.
  unfold refs. cbn [exports]. destruct (decide (c' = c)) as [->|]; [by rewrite lookup_insert_eq|by rewrite lookup_insert_ne].
Qed.

(** No count is left exactly when nothing is referenced. *)
Lemma total_zero m c e : gc_ok m -> exports m !! c = Some e -> ee_total e = 0 <-> forall f s, refs m c f s = 0.
Proof.
  intros Hm He. destruct (Hm c e He) as [_ Ht Hh]. unfold refs, held. rewrite He.
  destruct (msum_pos rc_count (ee_holders e)) as [_ Hz]; [intros f rc Hf; apply Hh in Hf as []; done|]. rewrite Ht. split.
  - intros Ez f s. by rewrite (Hz Ez), lookup_empty.
  - intros Hall. destruct (decide (ee_holders e = ∅)) as [->|Hne]; [apply msum_empty|]. exfalso.
    apply map_choose in Hne as (f & rc & Hf). destruct (Hh f rc Hf) as [Hp Hs Hpos].
    assert (rc_sessions rc <> ∅) as (s & n & Hn)%map_choose by (intros E; rewrite E, msum_empty in Hs; lia).
    specialize (Hall f s). rewrite Hf in Hall. unfold session_count in Hall. rewrite Hn in Hall. specialize (Hpos s n Hn).
    cbn in Hall. lia.
Qed.

(** ** The operations on references *)

Lemma holder_default_ok h : msum id (rc_sessions (mkRefCount 0 h ∅)) = 0.
Proof. apply msum_empty. Qed.

Lemma export_spec m c f h s m' : gc_ok m -> record_export_with_session m c f h s = Some m' ->
  gc_ok m' /\ forall c' f' s', refs m' c' f' s' = refs m c' f' s' + if decide ((c', f', s') = (c, f, s)) then 1 else 0.
Proof.
  intros Hm. unfold record_export_with_session.
  set (e := default (mkExport c ∅ 0 h) (exports m !! c)). set (rc := default (mkRefCount 0 h ∅) (ee_holders e !! f)).
  assert (He : ee_cell e = c /\ ee_total e = msum rc_count (ee_holders e) /\ (forall f rc, ee_holders e !! f = Some rc -> holder_ok rc) /\
    forall f' s', refs m c f' s' = held (ee_holders e) f' s').
  { unfold e, refs, held. destruct (exports m !! c) as [e0|] eqn:E0; cbn [default from_option id]; [by destruct (Hm _ _ E0)|].
    cbn [ee_cell ee_total ee_holders]. rewrite msum_empty. split_and!; [done..| |]; intros ??; by rewrite lookup_empty. }
  destruct He as (Hc & Ht & Hh & Hrefs). clearbody e.
  assert (Hrc : rc_count rc = msum id (rc_sessions rc) /\ (forall s n, rc_sessions rc !! s = Some n -> 0 < n) /\
    rc_count rc = default 0 (rc_count <$> ee_holders e !! f) /\ 0 <= rc_count rc /\
    forall s', match ee_holders e !! f with Some rc => session_count rc s' | None => 0 end = session_count rc s').
  { unfold rc. destruct (ee_holders e !! f) as [r0|] eqn:E0; cbn [default from_option id fmap option_fmap option_map].
    - destruct (Hh _ _ E0). split_and!; [done|done|done|lia|done].
    - rewrite holder_default_ok. split_and!; done. }
  destruct Hrc as (Hs & Hpos & Hdef & Hnn & Hb). clearbody rc.
  destruct (checked_add_u64 (rc_count rc) 1) as [count|] eqn:E1; [|done]. apply checked_add_u64_spec in E1 as [-> _].
  destruct (checked_add_u64 (session_count rc s) 1) as [b|] eqn:E2; [|done]. apply checked_add_u64_spec in E2 as [-> _].
  destruct (checked_add_u64 (ee_total e) 1) as [t|] eqn:E3; [|done]. apply checked_add_u64_spec in E3 as [-> _].
  cbn [mbind option_bind]. intros [= <-]. assert (Hsn : 0 <= session_count rc s).
  { unfold session_count. destruct (rc_sessions rc !! s) as [n|] eqn:En; cbn; [specialize (Hpos _ _ En); lia|done]. }
  split.
  - intros c' e'. cbn [exports]. destruct (decide (c' = c)) as [->|]; [rewrite lookup_insert_eq|rewrite lookup_insert_ne by done; apply Hm].
    intros [= <-]. split; cbn [ee_cell ee_total ee_holders]; [done| |].
    + rewrite msum_insert, <-Hdef. cbn [rc_count]. lia.
    + intros f' rc'. destruct (decide (f' = f)) as [->|]; [rewrite lookup_insert_eq|rewrite lookup_insert_ne by done; apply Hh].
      intros [= <-]. split; cbn [rc_count rc_sessions]; [lia| |].
      * rewrite msum_insert, Hs. unfold session_count. destruct (rc_sessions rc !! s); cbn; lia.
      * intros s' n. destruct (decide (s' = s)) as [->|]; [rewrite lookup_insert_eq; intros [= <-]; lia|].
        rewrite lookup_insert_ne by done. apply Hpos.
  - intros c' f' s'. rewrite refs_insert. destruct (decide (c' = c)) as [->|]; [|rewrite decide_False by congruence; lia].
    rewrite Hrefs. unfold held. cbn [ee_holders]. destruct (decide (f' = f)) as [->|].
    + rewrite lookup_insert_eq, Hb. unfold session_count at 1. cbn [rc_sessions]. destruct (decide (s' = s)) as [->|].
      * rewrite lookup_insert_eq, decide_True by done. done.
      * rewrite lookup_insert_ne, decide_False by congruence. unfold session_count. lia.
    + rewrite lookup_insert_ne, decide_False by congruence. lia.
Qed.

Lemma refs_pos m c f s : 0 < refs m c f s -> exists e rc n,
  exports m !! c = Some e /\ ee_holders e !! f = Some rc /\ rc_sessions rc !! s = Some n /\ refs m c f s = n.
Proof.
  unfold refs, held, session_count. destruct (exports m !! c) as [e|] eqn:Ee; [|lia].
  destruct (ee_holders e !! f) as [rc|] eqn:Er; [|lia]. destruct (rc_sessions rc !! s) as [n|] eqn:Es; cbn in *; [|lia].
  intros _. by exists e, rc, n.
Qed.

Lemma take_bucket rc s n : holder_ok rc -> rc_sessions rc !! s = Some n ->
  let sessions := put_bucket (rc_sessions rc) s (n - 1) in
  msum id sessions = rc_count rc - 1 /\ (forall s n, sessions !! s = Some n -> 0 < n) /\
  forall s', default 0 (sessions !! s') = session_count rc s' - if decide (s' = s) then 1 else 0.
Proof.
  intros [Hp Hs Hpos] Es. pose proof (Hpos _ _ Es). unfold put_bucket, session_count. destruct (Z.eqb_spec (n - 1) 0) as [E|E].
  - split_and!; [rewrite Hs, (msum_delete id _ s n Es); unfold id; lia| |].
    + intros s' k [_ Hk]%lookup_delete_Some. by eapply Hpos.
    + intros s'. destruct (decide (s' = s)) as [->|]; [rewrite lookup_delete_eq, Es; cbn; lia|].
      rewrite lookup_delete_ne by done. lia.
  - split_and!; [rewrite msum_insert, Hs, Es; unfold id; cbn; lia| |].
    + intros s' k. destruct (decide (s' = s)) as [->|]; [rewrite lookup_insert_eq; intros [= <-]; lia|].
      rewrite lookup_insert_ne by done. apply Hpos.
    + intros s'. destruct (decide (s' = s)) as [->|]; [rewrite lookup_insert_eq, Es; cbn; lia|].
      rewrite lookup_insert_ne by done. lia.
Qed.

Lemma take_holder (holders : gmap bytes RefCount) f s rc (sessions : gmap Z Z) :
  (forall f rc, holders !! f = Some rc -> holder_ok rc) -> holders !! f = Some rc ->
  msum id sessions = rc_count rc - 1 -> (forall s n, sessions !! s = Some n -> 0 < n) ->
  (forall s', default 0 (sessions !! s') = session_count rc s' - if decide (s' = s) then 1 else 0) ->
  let holders' := put_holder holders f (mkRefCount (rc_count rc - 1) (rc_last_activity rc) sessions) in
  msum rc_count holders' = msum rc_count holders - 1 /\ (forall f rc, holders' !! f = Some rc -> holder_ok rc) /\
  forall f' s', held holders' f' s' = held holders f' s' - if decide ((f', s') = (f, s)) then 1 else 0.
Proof.
  intros Hh Er Hms Hps Hss. pose proof (ho_pos _ (Hh _ _ Er)). unfold put_holder, held. cbn [rc_count].
  assert (Hd : forall s', (if decide ((f, s') = (f, s)) then 1 else 0) = (if decide (s' = s) then 1 else 0)).
  { intros s'. destruct (decide (s' = s)) as [->|]; [by rewrite decide_True|by rewrite decide_False by congruence]. }
  destruct (Z.eqb_spec (rc_count rc - 1) 0) as [E|E].
  - assert (sessions = ∅) as -> by (apply (msum_pos id sessions Hps); lia).
    split_and!; [rewrite (msum_delete rc_count _ f rc Er); lia| |].
    + intros f' rc' [_ Hk]%lookup_delete_Some. by eapply Hh.
    + intros f' s'. destruct (decide (f' = f)) as [->|].
      * rewrite lookup_delete_eq, Er, Hd. specialize (Hss s'). rewrite lookup_empty in Hss. cbn in Hss. lia.
      * rewrite lookup_delete_ne, decide_False by congruence. lia.
  - split_and!; [rewrite msum_insert, Er; cbn; lia| |].
    + intros f' rc'. destruct (decide (f' = f)) as [->|]; [|rewrite lookup_insert_ne by done; apply Hh].
      rewrite lookup_insert_eq. intros [= <-]. split; cbn [rc_count rc_sessions]; [lia|done|done].
    + intros f' s'. destruct (decide (f' = f)) as [->|].
      * rewrite lookup_insert_eq, Er, Hd. unfold session_count at 1. cbn [rc_sessions]. apply Hss.
      * rewrite lookup_insert_ne, decide_False by congruence. lia.
Qed.

(** The verdict on a drop by a session with [n] references to a cell that [total]
    refer to. *)
Definition drop_verdict (n total : Z) : DropResult :=
  if n =? 0 then Invalid else if total =? 1 then CanRevoke else StillHeld.

Definition total_refs (m : ExportGcManager) (c : bytes) : Z := default 0 (ee_total <$> exports m !! c).

Section DropLemmas.
Context `{HG : CaptpGate}.

(** The gate, if it answers this drop, answers as the counts say. *)
Definition gate_agrees (m : ExportGcManager) (c f : bytes) (s : Z) : Prop :=
  forall v, verified_drop_verdict (exports m !! c) f s = Some v -> v = drop_verdict (refs m c f s) (total_refs m c).

Lemma drop_none m c f s : gc_ok m -> refs m c f s = 0 -> process_drop_inner m c f s = Some (m, Invalid).
Proof.
  intros Hm Hr. unfold process_drop_inner. case_bool_decide; [done|]. unfold refs, held, session_count in Hr.
  destruct (exports m !! c) as [e|] eqn:Ee; [|done]. destruct (ee_holders e !! f) as [rc|] eqn:Er; [|done].
  destruct (rc_sessions rc !! s) as [n|] eqn:Es; [|done]. cbn in Hr. subst n. done.
Qed.

Lemma drop_some m c f s : gc_ok m -> 0 < refs m c f s -> verified_drop_verdict (exports m !! c) f s <> Some Invalid ->
  exists m', process_drop_inner m c f s =
    Some (m', default (drop_verdict (refs m c f s) (total_refs m c)) (verified_drop_verdict (exports m !! c) f s)) /\
  gc_ok m' /\ total_refs m' c = total_refs m c - 1 /\ is_Some (exports m' !! c) /\
  forall c' f' s', refs m' c' f' s' = refs m c' f' s' - if decide ((c', f', s') = (c, f, s)) then 1 else 0.
Proof.
  intros Hm Hr Hv. unfold process_drop_inner. rewrite bool_decide_eq_false_2 by done. clear Hv.
  destruct (refs_pos m c f s Hr) as (e & rc & n & Ee & Er & Es & Hn). rewrite Hn in *.
  destruct (Hm _ _ Ee) as [Hc Ht Hh]. destruct (Hh _ _ Er) as [Hp Hs Hpos].
  assert (Hcnt : rc_count rc <= ee_total e).
  { rewrite Ht. apply (msum_ge rc_count _ f); [|done]. intros f' rc' Hf. by destruct (Hh _ _ Hf). }
  assert (Htot : total_refs m c = ee_total e) by (unfold total_refs; by rewrite Ee).
  rewrite Ee, Er, Es, (proj2 (Z.ltb_lt _ _)) by lia. cbn [negb]. unfold decrement.
  rewrite (proj2 (Z.leb_le 1 (rc_count rc))) by lia. rewrite (proj2 (Z.leb_le 1 (ee_total e))) by lia. cbn [mbind option_bind].
  destruct (take_bucket rc s n (Hh _ _ Er) Es) as (Hms & Hps & Hss).
  destruct (take_holder (ee_holders e) f s rc (put_bucket (rc_sessions rc) s (n - 1)) Hh Er Hms Hps Hss) as (Hmh & Hhh & Hhs).
  eexists. split_and!.
  - rewrite Htot. unfold drop_verdict. rewrite (proj2 (Z.eqb_neq n 0)) by lia.
    destruct (verified_drop_verdict _ _ _); cbn; [done|]. do 2 f_equal.
    destruct (Z.eqb_spec (ee_total e - 1) 0), (Z.eqb_spec (ee_total e) 1); (done || lia).
  - intros c' e'. cbn [exports]. destruct (decide (c' = c)) as [->|]; [rewrite lookup_insert_eq|rewrite lookup_insert_ne by done; apply Hm].
    intros [= <-]. split; cbn [ee_cell ee_total ee_holders]; [done|by rewrite Hmh, Ht|done].
  - unfold total_refs. cbn [exports]. by rewrite lookup_insert_eq, Ee.
  - cbn [exports]. rewrite lookup_insert_eq. by eexists.
  - intros c' f' s'. rewrite refs_insert. cbn [ee_holders]. destruct (decide (c' = c)) as [->|]; [|rewrite decide_False by congruence; lia].
    rewrite Hhs. unfold refs. rewrite Ee. f_equal. destruct (decide ((f', s') = (f, s))) as [[= -> ->]|]; [by rewrite decide_True|].
    by rewrite decide_False by congruence.
Qed.

End DropLemmas.

(** ** Sweeping *)

Lemma foldl_delete (cells : list bytes) : forall (m : gmap bytes ExportEntry) c,
  foldl (fun acc cell => delete cell acc) m cells !! c = if decide (c ∈ cells) then None else m !! c.
Proof.
  induction cells as [|x cells IH]; intros m c; cbn [foldl]; [by rewrite decide_False by apply not_elem_of_nil|].
  rewrite IH. destruct (decide (c ∈ cells)) as [Hc|Hc].
  - by rewrite decide_True by (by apply list_elem_of_further).
  - destruct (decide (c = x)) as [->|]; [by rewrite lookup_delete_eq, decide_True by apply list_elem_of_here|].
    rewrite lookup_delete_ne, decide_False; [done| |done]. by intros [?|?]%elem_of_cons.
Qed.

Lemma sweep_dead m c : c ∈ (gc_sweep m).2 <-> exists e, exports m !! c = Some e /\ ee_total e = 0.
Proof.
  unfold gc_sweep. cbn [snd]. rewrite list_elem_of_fmap. setoid_rewrite list_elem_of_In. setoid_rewrite filter_In.
  setoid_rewrite <-list_elem_of_In. split.
  - intros ([c' e] & -> & He%elem_of_map_to_list & Ht%Z.eqb_eq). by exists e.
  - intros (e & He & Ht). exists (c, e). split_and!; [done|by apply elem_of_map_to_list|by apply Z.eqb_eq].
Qed.

Lemma sweep_spec m : gc_ok m -> gc_ok (gc_sweep m).1 /\
  (forall c f s, refs (gc_sweep m).1 c f s = refs m c f s) /\
  forall c, c ∈ (gc_sweep m).2 -> exports (gc_sweep m).1 !! c = None /\ forall f s, refs m c f s = 0.
Proof.
  intros Hm. assert (Hl : forall c, exports (gc_sweep m).1 !! c = if decide (c ∈ (gc_sweep m).2) then None else exports m !! c)
    by (intros c; apply foldl_delete).
  assert (Hdead : forall c, c ∈ (gc_sweep m).2 -> forall f s, refs m c f s = 0)
    by (intros c (e & He & Ht)%sweep_dead; by apply (total_zero m c e)).
  split_and!.
  - intros c e. rewrite Hl. destruct (decide _); [done|apply Hm].
  - intros c f s. unfold refs at 1. rewrite Hl. destruct (decide _) as [Hc|]; [symmetry; by apply Hdead|done].
  - intros c Hc. rewrite Hl, decide_True by done. split; [done|]. by apply Hdead.
Qed.

(** ** Histories *)

Inductive GcEvent : Type :=
| GExport (cell fed : bytes) (session : Z)
| GDrop (cell fed : bytes) (session : Z) (r : DropResult)
| GSweep (dead : list bytes).

(** References given out under a session, and taken back by it. *)
Definition given (es : list GcEvent) (c f : bytes) (s : Z) : Z :=
  sum_over (fun e => match e with
                     | GExport c' f' s' => if decide ((c', f', s') = (c, f, s)) then 1 else 0
                     | _ => 0 end) es.

Definition taken (es : list GcEvent) (c f : bytes) (s : Z) : Z :=
  sum_over (fun e => match e with
                     | GDrop c' f' s' Invalid => 0
                     | GDrop c' f' s' _ => if decide ((c', f', s') = (c, f, s)) then 1 else 0
                     | _ => 0 end) es.

Section Histories.
Context `{HG : CaptpGate}.

Inductive gc_history : list GcEvent -> ExportGcManager -> Prop :=
| gh_new : gc_history [] export_gc_new
| gh_export es m c f h s m' : gc_history es m -> record_export_with_session m c f h s = Some m' ->
    gc_history (es ++ [GExport c f s]) m'
| gh_drop es m c f s m' r : gc_history es m -> process_drop_with_session m c f s = Some (m', r) ->
    gc_history (es ++ [GDrop c f s r]) m'
| gh_plain_drop es m c f m' r : gc_history es m -> process_drop m c f = (m', r) -> gc_history es m'
| gh_sweep es m m' dead : gc_history es m -> gc_sweep m = (m', dead) -> gc_history (es ++ [GSweep dead]) m'.

Lemma drop_result m c f s m' r : gc_ok m -> process_drop_inner m c f s = Some (m', r) ->
  (r = Invalid /\ m' = m) \/ (r <> Invalid /\ 0 < refs m c f s /\ gc_ok m' /\ total_refs m' c = total_refs m c - 1 /\
    is_Some (exports m' !! c) /\
    forall c' f' s', refs m' c' f' s' = refs m c' f' s' - if decide ((c', f', s') = (c, f, s)) then 1 else 0).
Proof.
  intros Hm E. destruct (decide (verified_drop_verdict (exports m !! c) f s = Some Invalid)) as [Hv|Hv].
  { unfold process_drop_inner in E. rewrite bool_decide_eq_true_2 in E by done. injection E as <- <-. by left. }
  destruct (decide (refs m c f s = 0)) as [Hr|Hr]; [rewrite drop_none in E by done; injection E as <- <-; by left|].
  assert (Hpos : 0 < refs m c f s) by (pose proof (refs_nonneg m c f s Hm); lia).
  destruct (drop_some m c f s Hm Hpos Hv) as (m1 & E1 & Hok). rewrite E1 in E. injection E as <- <-. right. split; [|done].
  unfold drop_verdict. rewrite (proj2 (Z.eqb_neq _ 0)) by done.
  destruct (verified_drop_verdict _ _ _) as [[]|]; cbn in *; try done. by destruct (_ =? 1).
Qed.

Lemma history_refs es m : gc_history es m -> gc_ok m /\ forall c f s, refs m c f s = given es c f s - taken es c f s.
Proof.
  unfold given, taken. induction 1 as [|es m c f h s m' _ [Hm IH] E|es m c f s m' r _ [Hm IH] E|es m c f m' r _ IH E|es m m' dead _ [Hm IH] E].
  - split; [intros c e; cbn; by rewrite lookup_empty|]. intros c f s. unfold refs. cbn. by rewrite lookup_empty.
  - destruct (export_spec _ _ _ _ _ _ Hm E) as [Hm' Hr]. split; [done|]. intros c' f' s'. rewrite Hr, IH, !sum_over_app. cbn.
    destruct (decide ((c', f', s') = (c, f, s))), (decide ((c, f, s) = (c', f', s'))); try congruence; lia.
  - destruct (drop_result _ _ _ _ _ _ Hm E) as [[-> ->]|(Hr & _ & Hm' & _ & _ & Hrefs)].
    + split; [done|]. intros. rewrite !sum_over_app. cbn. rewrite IH. lia.
    + split; [done|]. intros c' f' s'. rewrite Hrefs, IH, !sum_over_app. cbn.
      destruct r; try done; destruct (decide ((c', f', s') = (c, f, s))), (decide ((c, f, s) = (c', f', s'))); try congruence; lia.
  - by injection E as <- _.
  - destruct (sweep_spec m Hm) as (Hm' & Hr & _). rewrite E in *. cbn [fst] in *. split; [done|]. intros c f s.
    rewrite Hr, IH, !sum_over_app. cbn. lia.
Qed.

(** C17: in any history, whatever the gate answers, a session holds the references
    it was given less those it dropped, never fewer than none; a drop always
    returns, and changes nothing unless its own session has a reference left; a
    cell that is swept has had every reference dropped by the session that got
    it. *)
Theorem references_are_exact (es : list GcEvent) (m : ExportGcManager) : gc_history es m ->
  (forall c f s, refs m c f s = given es c f s - taken es c f s /\ taken es c f s <= given es c f s) /\
  (forall c f s, exists m' r, process_drop_with_session m c f s = Some (m', r) /\
     (given es c f s = taken es c f s -> r = Invalid) /\ (r = Invalid -> m' = m) /\
     (forall c' f' s', (c', f', s') <> (c, f, s) -> refs m' c' f' s' = refs m c' f' s')) /\
  (forall c, c ∈ (gc_sweep m).2 -> forall f s, given es c f s = taken es c f s).
Proof.
  intros [Hm Hr]%history_refs. split_and!.
  - intros c f s. pose proof (refs_nonneg m c f s Hm). rewrite Hr in *. lia.
  - intros c f s. unfold process_drop_with_session.
    assert (exists p, process_drop_inner m c f s = Some p) as [[m' r] E].
    { destruct (decide (verified_drop_verdict (exports m !! c) f s = Some Invalid)) as [Hv|Hv].
      { unfold process_drop_inner. rewrite bool_decide_eq_true_2 by done. by eexists. }
      destruct (decide (refs m c f s = 0)) as [Hz|Hz]; [rewrite drop_none by done; by eexists|].
      destruct (drop_some m c f s Hm) as (m' & -> & _); [pose proof (refs_nonneg m c f s Hm); lia|done|by eexists]. }
    exists m', r. split; [done|]. destruct (drop_result _ _ _ _ _ _ Hm E) as [[-> ->]|(Hne & Hpos & _ & _ & _ & Hrefs)]; [done|].
    rewrite Hr in Hpos. split_and!; [lia|done|]. intros c' f' s' Hn. rewrite Hrefs, decide_False by done. lia.
  - intros c Hc f s. destruct (sweep_spec m Hm) as (_ & _ & Hd). destruct (Hd c Hc) as [_ Hz]. specialize (Hz f s).
    rewrite Hr in Hz. lia.
Qed.

(** When the gate is absent or answers as the counts say, a drop is refused
    exactly when its session has no reference left, and reports that the cell can
    be revoked exactly when no session of any federation has one left after it. *)
Theorem revocable_when_unreferenced (es : list GcEvent) (m m' : ExportGcManager) (c f : bytes) (s : Z) (r : DropResult) :
  gc_history es m -> gate_agrees m c f s -> process_drop_with_session m c f s = Some (m', r) ->
  (r = Invalid <-> given es c f s = taken es c f s) /\
  (r = CanRevoke <-> r <> Invalid /\ forall f' s', refs m' c f' s' = 0).
Proof.
  intros [Hm Hr]%history_refs Hg E. unfold process_drop_with_session in E.
  assert (Hrv : r = drop_verdict (refs m c f s) (total_refs m c)).
  { destruct (decide (verified_drop_verdict (exports m !! c) f s = Some Invalid)) as [Hv|Hv].
    { unfold process_drop_inner in E. rewrite bool_decide_eq_true_2 in E by done. injection E as <- <-. by apply Hg. }
    destruct (decide (refs m c f s = 0)) as [Hz|Hz]; [rewrite drop_none in E by done; injection E as <- <-; by rewrite Hz|].
    destruct (drop_some m c f s Hm) as (m1 & E1 & _); [pose proof (refs_nonneg m c f s Hm); lia|done|].
    rewrite E1 in E. injection E as <- <-. destruct (verified_drop_verdict _ _ _) eqn:Ev; cbn; [by apply Hg|done]. }
  destruct (drop_result _ _ _ _ _ _ Hm E) as [[-> ->]|(Hne & Hpos & Hm' & Ht & [e He] & _)].
  - split; [|split; [done|by intros [? _]]]. split; [|done]. intros _. rewrite Hr in Hrv. unfold drop_verdict in Hrv.
    destruct (Z.eqb_spec (given es c f s - taken es c f s) 0); [lia|]. by destruct (_ =? 1) in Hrv.
  - split; [split; [done|rewrite Hr in Hpos; lia]|]. pose proof (total_zero m' c e Hm' He) as Hz.
    assert (Ht' : ee_total e = total_refs m c - 1) by (rewrite <-Ht; unfold total_refs; by rewrite He).
    rewrite <-Hz, Ht', Hrv. unfold drop_verdict. rewrite (proj2 (Z.eqb_neq _ 0)) by lia.
    destruct (Z.eqb_spec (total_refs m c) 1); split; try done; [intros _; split; [done|lia]|intros [_ ?]; lia].
Qed.

End Histories.

(** ** The importing side *)

Definition local_refs (m : ImportGcManager) (fed cell : bytes) : Z := default 0 (ie_local_refs <$> imports m !! (fed, cell)).

(** Entries are filed under what they name and hold a reference. *)
Definition imports_ok (m : ImportGcManager) : Prop := forall fed cell e,
  imports m !! (fed, cell) = Some e -> ie_federation e = fed /\ ie_cell e = cell /\ 0 < ie_local_refs e.

Lemma local_refs_insert m fed cell e fed' cell' :
  local_refs (mkImports (<[(fed, cell) := e]> (imports m))) fed' cell' =
  if decide ((fed', cell') = (fed, cell)) then ie_local_refs e else local_refs m fed' cell'.
Proof.
  unfold local_refs. cbn [imports]. destruct (decide _) as [[= -> ->]|]; [by rewrite lookup_insert_eq|by rewrite lookup_insert_ne].
Qed.

(** A local reference taken counts one up; one dropped counts one down, and the
    message to the exporter leaves exactly with the last. *)
Theorem import_counts_exact (m : ImportGcManager) (fed cell : bytes) : imports_ok m ->
  (forall m', record_import m fed cell = Some m' -> imports_ok m' /\ forall fed' cell',
     local_refs m' fed' cell' = local_refs m fed' cell' + if decide ((fed', cell') = (fed, cell)) then 1 else 0) /\
  let '(m', msg) := local_ref_dropped m fed cell in
  imports_ok m' /\ msg = (if local_refs m fed cell =? 1 then Some (mkDrop fed cell) else None) /\ forall fed' cell',
     local_refs m' fed' cell' = if decide ((fed', cell') = (fed, cell)) then Z.max 0 (local_refs m fed cell - 1) else local_refs m fed' cell'.
Proof.
  intros Hm. split.
  - intros m'. unfold record_import. set (e := default (mkImport fed cell 0) _).
    assert (He : ie_federation e = fed /\ ie_cell e = cell /\ ie_local_refs e = local_refs m fed cell /\ 0 <= ie_local_refs e).
    { unfold e, local_refs. destruct (imports m !! (fed, cell)) as [e0|] eqn:E0; cbn; [|done]. destruct (Hm _ _ _ E0) as (? & ? & ?).
      split_and!; [done..|lia]. }
    destruct He as (Hf & Hc & Hl & Hn). clearbody e. destruct (checked_add_u64 _ _) as [k|] eqn:Ek; [|done].
    apply checked_add_u64_spec in Ek as [-> _]. cbn [mbind option_bind]. intros [= <-]. split.
    + intros fed' cell' e'. cbn [imports]. destruct (decide ((fed', cell') = (fed, cell))) as [[= -> ->]|]; [|rewrite lookup_insert_ne by done; apply Hm].
      rewrite lookup_insert_eq. intros [= <-]. cbn. split_and!; [done..|lia].
    + intros fed' cell'. rewrite local_refs_insert. cbn [ie_local_refs]. destruct (decide _) as [[= -> ->]|]; lia.
  - unfold local_ref_dropped. destruct (imports m !! (fed, cell)) as [e|] eqn:Ee.
    + destruct (Hm _ _ _ Ee) as (Hf & Hc & Hp). assert (Hl : local_refs m fed cell = ie_local_refs e) by (unfold local_refs; by rewrite Ee).
      rewrite Hl, (proj2 (Z.eqb_neq _ 0)) by lia. destruct (Z.eqb_spec (ie_local_refs e - 1) 0) as [E1|E1].
      * split_and!; [| |].
        -- intros fed' cell' e'. cbn [imports]. intros [_ He]%lookup_delete_Some. by apply Hm.
        -- by rewrite (proj2 (Z.eqb_eq _ 1)) by lia.
        -- intros fed' cell'. unfold local_refs. cbn [imports].
           destruct (decide _) as [[= -> ->]|]; [rewrite lookup_delete_eq; cbn; lia|by rewrite lookup_delete_ne].
      * split_and!; [| |].
        -- intros fed' cell' e'. cbn [imports]. destruct (decide ((fed', cell') = (fed, cell))) as [[= -> ->]|]; [|rewrite lookup_insert_ne by done; apply Hm].
           rewrite lookup_insert_eq. intros [= <-]. cbn. split_and!; [done..|lia].
        -- by rewrite (proj2 (Z.eqb_neq _ 1)) by lia.
        -- intros fed' cell'. rewrite local_refs_insert. cbn [ie_local_refs]. destruct (decide _); [lia|done].
    + assert (Hl : local_refs m fed cell = 0) by (unfold local_refs; by rewrite Ee). rewrite Hl. split_and!; [done|done|].
      intros fed' cell'. destruct (decide _) as [[= -> ->]|]; [by rewrite Hl|done].
Qed.

(** ** Both sides *)

Definition export_many (n : nat) (c f : bytes) (h s : Z) : option ExportGcManager :=
  Nat.iter n (fun o => m ← o; record_export_with_session m c f h s) (Some export_gc_new).

Definition import_many (n : nat) (g c : bytes) : option ImportGcManager :=
  Nat.iter n (fun o => m ← o; record_import m g c) (Some import_gc_new).

Fixpoint release_many (n : nat) (m : ImportGcManager) (g c : bytes) : ImportGcManager * list DropMessage :=
  match n with
  | O => (m, [])
  | S n => let '(m, msg) := local_ref_dropped m g c in
           let '(m, msgs) := release_many n m g c in (m, option_list msg ++ msgs)
  end.

Lemma export_many_ok n c f h s : (0 < n)%nat -> Z.of_nat n <= u64_max ->
  export_many n c f h s = Some (mkExports {[ c := mkExport c {[ f := mkRefCount (Z.of_nat n) h {[ s := Z.of_nat n ]} ]} (Z.of_nat n) h ]}).
Proof.
  induction n as [|n IH]; intros Hn Hb; [lia|]. unfold export_many in *.
  destruct n as [|n]; [reflexivity|]. rewrite Nat.iter_succ, IH by lia. cbn [mbind option_bind]. unfold record_export_with_session. cbn [exports].
  rewrite lookup_singleton_eq. cbn [default from_option id ee_holders]. rewrite lookup_singleton_eq.
  cbn [default from_option id rc_count]. unfold session_count. cbn [rc_sessions]. rewrite lookup_singleton_eq. cbn [default from_option id ee_total].
  unfold checked_add_u64. rewrite (proj2 (Z.leb_le (Z.of_nat (S n) + 1) u64_max)) by lia. cbn [mbind option_bind].
  rewrite !insert_singleton_eq. cbn [ee_cell ee_exported_at]. by replace (Z.of_nat (S n) + 1) with (Z.of_nat (S (S n))) by lia.
Qed.

Lemma import_many_ok n g c : (0 < n)%nat -> Z.of_nat n <= u64_max ->
  import_many n g c = Some (mkImports {[ (g, c) := mkImport g c (Z.of_nat n) ]}).
Proof.
  induction n as [|n IH]; intros Hn Hb; [lia|]. unfold import_many in *.
  destruct n as [|n]; [reflexivity|]. rewrite Nat.iter_succ, IH by lia. cbn [mbind option_bind]. unfold record_import. cbn [imports].
  rewrite lookup_singleton_eq. cbn [default from_option id ie_local_refs]. unfold checked_add_u64.
  rewrite (proj2 (Z.leb_le (Z.of_nat (S n) + 1) u64_max)) by lia. cbn [mbind option_bind ie_federation ie_cell].
  rewrite insert_singleton_eq. by replace (Z.of_nat (S n) + 1) with (Z.of_nat (S (S n))) by lia.
Qed.

Lemma release_many_ok n g c : (0 < n)%nat ->
  (release_many n (mkImports {[ (g, c) := mkImport g c (Z.of_nat n) ]}) g c).2 = [mkDrop g c].
Proof.
  induction n as [|n IH]; intros Hn; [lia|]. cbn [release_many]. unfold local_ref_dropped. cbn [imports].
  rewrite lookup_singleton_eq. cbn [ie_local_refs]. rewrite (proj2 (Z.eqb_neq _ 0)) by lia.
  replace (Z.of_nat (S n) - 1) with (Z.of_nat n) by lia. destruct n as [|n]; [reflexivity|].
  rewrite (proj2 (Z.eqb_neq _ 0)) by lia. cbn [ie_federation ie_cell]. rewrite insert_singleton_eq.
  specialize (IH ltac:(lia)). destruct (release_many _ _ _ _) as [m' msgs]. done.
Qed.

(** A cell exported and imported [n] times: releasing every local reference sends
    one message, and the exporter still counts [n - 1] after it. *)
Theorem reexport_leaks `{CaptpGate} (n : nat) (c f g : bytes) (h s : Z) : (0 < n)%nat -> Z.of_nat n <= u64_max ->
  exists m im, export_many n c f h s = Some m /\ import_many n g c = Some im /\
    (release_many n im g c).2 = [mkDrop g c] /\ refs m c f s = Z.of_nat n /\
    forall m' r, process_drop_with_session m c f s = Some (m', r) -> Z.of_nat n - 1 <= refs m' c f s.
Proof.
  intros Hn Hb. eexists _, _. split_and!; [by apply export_many_ok|by apply import_many_ok|by apply release_many_ok| |].
  - unfold refs, held, session_count. cbn. rewrite lookup_singleton_eq. cbn. rewrite lookup_singleton_eq. cbn. by rewrite lookup_singleton_eq.
  - intros m' r E.
    match type of E with process_drop_with_session ?m _ _ _ = _ => assert (Hm : gc_ok m /\ refs m c f s = Z.of_nat n) end.
    { split.
      - intros c' e. cbn [exports]. rewrite lookup_singleton_Some. intros [<- <-]. split; cbn [ee_cell ee_total ee_holders]; [done| |].
        + rewrite <-(insert_empty f), msum_insert, msum_empty, lookup_empty. cbn. lia.
        + intros f' rc [<- <-]%lookup_singleton_Some. split; cbn [rc_count rc_sessions]; [lia| |].
          * rewrite <-(insert_empty s), msum_insert, msum_empty, lookup_empty. unfold id. cbn. lia.
          * intros s' k [_ <-]%lookup_singleton_Some. lia.
      - unfold refs, held, session_count. cbn. rewrite lookup_singleton_eq. cbn. rewrite lookup_singleton_eq. cbn. by rewrite lookup_singleton_eq. }
    destruct Hm as [Hm Hr]. destruct (drop_result _ _ _ _ _ _ Hm E) as [[_ ->]|(_ & _ & _ & _ & _ & Hrefs)]; [lia|].
    rewrite Hrefs, decide_True by done. lia.
Qed.

(** ** One reference, given and dropped *)

(** A gate that calls every cell revocable. *)
#[local] Instance revoke_gate : CaptpGate :=
  Some (mkCaptpGate true (fun _ => None) (fun _ => Some (str_bytes "S=1;t=0")) (fun _ => None)).

Definition one_ref : ExportGcManager := default export_gc_new (record_export_with_session export_gc_new [1] [2] 5 7).

Lemma one_ref_history : gc_history [GExport [1] [2] 7] one_ref.
Proof. eapply (gh_export [] export_gc_new [1] [2] 5 7); [constructor|by vm_compute]. Qed.

Example one_ref_drops :
  snd <$> process_drop_with_session one_ref [1] [2] 8 = Some Invalid /\
  fst <$> process_drop_with_session one_ref [1] [3] 7 = Some one_ref /\
  drop_wire (default (mkExport [] ∅ 0 0) (exports one_ref !! [1])) [3] 8 = str_bytes "H=0:1:7=1;f=1;s=8".
Proof. by vm_compute. Qed.

Lemma references_are_exact_witness : refs one_ref [1] [2] 7 = 1 /\ taken [GExport [1] [2] 7] [1] [2] 7 = 0.
Proof.
  destruct (references_are_exact [GExport [1] [2] 7] one_ref one_ref_history) as [H _].
  destruct (H [1] [2] 7) as [E _]. split; [|reflexivity]. rewrite E. vm_compute. reflexivity.
Defined.

Lemma revocable_when_unreferenced_witness : exists m',
  process_drop_with_session one_ref [1] [2] 7 = Some (m', CanRevoke) /\ refs m' [1] [2] 7 = 0.
Proof.
  assert (E : process_drop_with_session one_ref [1] [2] 7 =
    Some (default one_ref (fst <$> process_drop_with_session one_ref [1] [2] 7), CanRevoke)) by (vm_compute; reflexivity).
  assert (Hg : gate_agrees one_ref [1] [2] 7).
  { intros v Hv. vm_compute in Hv. injection Hv as <-. vm_compute. reflexivity. }
  eexists. split; [exact E|].
  destruct (revocable_when_unreferenced _ _ _ _ _ _ _ one_ref_history Hg E) as [_ H].
  apply H. reflexivity.
Defined.

Lemma import_counts_exact_witness :
  (local_ref_dropped (mkImports {[ ([1], [2]) := mkImport [1] [2] 1 ]}) [1] [2]).2 = Some (mkDrop [1] [2]).
Proof.
  assert (Hok : imports_ok (mkImports {[ ([1], [2]) := mkImport [1] [2] 1 ]})).
  { intros fed cell e. cbn [imports]. intros [[= <- <-] <-]%lookup_singleton_Some. cbn. split_and!; [reflexivity..|lia]. }
  destruct (import_counts_exact _ [1] [2] Hok) as [_ H]. destruct (local_ref_dropped _ _ _) as [m' msg].
  destruct H as (_ & -> & _). vm_compute. reflexivity.
Defined.

Lemma reexport_leaks_witness : exists m im, export_many 3 [1] [2] 5 7 = Some m /\ import_many 3 [9] [1] = Some im /\
  (release_many 3 im [9] [1]).2 = [mkDrop [9] [1]].
Proof.
  destruct (reexport_leaks 3 [1] [2] [9] 5 7 ltac:(lia) ltac:(unfold u64_max; lia)) as (m & im & H1 & H2 & H3 & _).
  exists m, im. split_and!; [exact H1|exact H2|exact H3].
Defined.
