(* ===== verification/CaptpHandoff.v ===== *)
(** * Handoffs

    Models [captp/src/handoff.rs]: certificates by which a holder introduces a
    third party to a cell, their presentation, and the validation at the target,
    with the hybrid variant and the identity commitment of [types/src/lib.rs].

    Signatures are the interfaces [Ed25519] and [MlDsa]; random nonces and routing
    tokens are arguments; the gate is that of CaptpGc.v.  The byte and text forms
    of a certificate, made by external serialisers, are left out. *)

From stdpp Require Import base decidable option list gmap strings.
From Stdlib Require Import ZArith Lia.
From S2P Require Import Prelude VerifiedGate Permissions Facet Cell Captp CaptpGc.

Open Scope Z_scope.

(** ML-DSA-65: keys from a seed, signatures under a context. *)
Class MlDsa := {
  ml_public : bytes -> bytes;
  ml_sign : bytes -> bytes -> bytes -> bytes;
  ml_verify : bytes -> bytes -> bytes -> bytes -> bool;
}.

Inductive HandoffError : Type :=
| InvalidIntroducerSignature
| InvalidRecipientSignature
| InvalidIntroducerPqSignature
| IntroducerIdentityCommitmentMismatch
| InvalidRecipientPqSignature
| UntrustedIntroducer
| SwissNotFound
| HandoffExpired
| MaxUsesExhausted
| DeserializationFailed (reason : string)
| ReplayDetected
| Amplification
| TargetMismatch.

Record HandoffCertificate : Type := mkCert {
  hc_introducer : bytes;
  hc_signature : bytes;
  hc_target_federation : bytes;
  hc_target_cell : bytes;
  hc_recipient_pk : bytes;
  hc_permissions : AuthRequired;
  hc_allowed_effects : option Z;
  hc_expires_at : option Z;
  hc_max_uses : option Z;
  hc_nonce : bytes;
  hc_swiss : bytes;
}.

(** ** Messages *)

Definition handoff_auth_bytes (a : AuthRequired) : bytes :=
  match a with
  | AR_None => [0]
  | AR_Signature => [1]
  | AR_Proof => [2]
  | AR_Either => [3]
  | AR_Impossible => [4]
  | AR_Custom vk_hash => 5 :: vk_hash
  end.

Definition signing_message (c : HandoffCertificate) : bytes :=
  str_bytes "dregg-handoff-cert-v1" ++ hc_introducer c ++ hc_target_federation c ++ hc_target_cell c ++ hc_recipient_pk c ++
  handoff_auth_bytes (hc_permissions c) ++ opt_bytes (le_bytes 4) (hc_allowed_effects c) ++
  opt_bytes (le_bytes 8) (hc_expires_at c) ++ opt_bytes (le_bytes 4) (hc_max_uses c) ++ hc_nonce c ++ hc_swiss c.

Definition presentation_message (c : HandoffCertificate) : bytes :=
  str_bytes "dregg-handoff-present-v1" ++ hc_nonce c ++ hc_target_cell c ++ hc_target_federation c.

Definition with_signature (c : HandoffCertificate) (sig : bytes) : HandoffCertificate :=
  mkCert (hc_introducer c) sig (hc_target_federation c) (hc_target_cell c) (hc_recipient_pk c) (hc_permissions c)
    (hc_allowed_effects c) (hc_expires_at c) (hc_max_uses c) (hc_nonce c) (hc_swiss c).

Definition cert_is_valid (c : HandoffCertificate) (height : Z) : bool :=
  match hc_expires_at c with Some exp => negb (exp <? height) | None => true end.

Record HandoffPresentation : Type := mkPresentation { hp_certificate : HandoffCertificate; hp_signature : bytes }.

Record HandoffAcceptance : Type := mkAcceptance {
  ha_routing_token : bytes;
  ha_cell : bytes;
  ha_permissions : AuthRequired;
  ha_allowed_effects : option Z;
}.

Section Signing.
Context `{HE : Ed25519}.

Definition cert_create (key introducer target_federation target_cell recipient_pk : bytes) (permissions : AuthRequired)
    (allowed_effects expires_at max_uses : option Z) (swiss nonce : bytes) : HandoffCertificate :=
  let cert := mkCert introducer (replicate 64 0) target_federation target_cell recipient_pk permissions allowed_effects
                expires_at max_uses nonce swiss in
  with_signature cert (ed_sign key (signing_message cert)).

Definition verify_signature (c : HandoffCertificate) (introducer_pk : bytes) : bool :=
  ed_verify introducer_pk (signing_message c) (hc_signature c).

Definition presentation_create (c : HandoffCertificate) (recipient_key : bytes) : HandoffPresentation :=
  mkPresentation c (ed_sign recipient_key (presentation_message c)).

Definition verify_recipient_signature (p : HandoffPresentation) : bool :=
  ed_verify (hc_recipient_pk (hp_certificate p)) (presentation_message (hp_certificate p)) (hp_signature p).

End Signing.

(** ** Non-amplification *)

Definition auth_required_tag (a : AuthRequired) : Z :=
  match a with
  | AR_None => 0
  | AR_Signature => 1
  | AR_Proof => 2
  | AR_Either => 3
  | AR_Impossible => 4
  | AR_Custom vk_hash => saturating_add_u64 5 (of_le_bytes (take 8 vk_hash))
  end.

Definition effect_mask_field (m : option Z) : bytes := match m with None => str_bytes "x" | Some mask => u64_to_string mask end.

Definition handoff_wire (granted held : AuthRequired) (granted_eff held_eff : option Z) : bytes :=
  str_bytes "h=" ++ u64_to_string (auth_required_tag held) ++ str_bytes ";g=" ++ u64_to_string (auth_required_tag granted) ++
  str_bytes ";he=" ++ effect_mask_field held_eff ++ str_bytes ";ge=" ++ effect_mask_field granted_eff.

(** The lattice of permissions and the facet of effects. *)
Definition native_non_amplifying (granted held : AuthRequired) (granted_eff held_eff : option Z) : bool :=
  is_narrower_or_equal granted held &&
  match granted_eff, held_eff with
  | _, None => true
  | None, Some _ => false
  | Some g, Some h => is_facet_attenuation h g
  end.

Definition handoff_error (e : EnlivenError) : HandoffError :=
  match e with NotFound => SwissNotFound | EnExpired => HandoffExpired | ExhaustedUses => MaxUsesExhausted end.

Section Validation.
Context `{HE : Ed25519} `{HG : CaptpGate}.

Definition verified_non_amplifying (granted held : AuthRequired) (granted_eff held_eff : option Z) : option bool :=
  g ← captp_gate;
  if negb (cg_available g) then None else cg_handoff_non_amplifying g (handoff_wire granted held granted_eff held_eff).

Definition non_amplifying (c : HandoffCertificate) (e : SwissEntry) : bool :=
  default (native_non_amplifying (hc_permissions c) (sw_permissions e) (hc_allowed_effects c) (sw_allowed_effects e))
    (verified_non_amplifying (hc_permissions c) (sw_permissions e) (hc_allowed_effects c) (sw_allowed_effects e)).

Definition validate_handoff (p : HandoffPresentation) (introducer_pk : bytes) (t : SwissTable)
    (known_federations : list bytes) (height : Z) (token : bytes) : option (SwissTable * result HandoffAcceptance HandoffError) :=
  let cert := hp_certificate p in
  if negb (verify_signature cert introducer_pk) then Some (t, Err InvalidIntroducerSignature)
  else if negb (verify_recipient_signature p) then Some (t, Err InvalidRecipientSignature)
  else if negb (bool_decide (hc_introducer cert ∈ known_federations)) then Some (t, Err UntrustedIntroducer)
  else if negb (cert_is_valid cert height) then Some (t, Err HandoffExpired)
  else
    match swiss_check t (hc_swiss cert) height with
    | Err e => Some (t, Err (handoff_error e))
    | Ok held =>
        if negb (bool_decide (hc_target_cell cert = sw_cell held)) then Some (t, Err TargetMismatch)
        else if negb (non_amplifying cert held) then Some (t, Err Amplification)
        else if handoff_nonce_seen t (hc_nonce cert) then Some (t, Err ReplayDetected)
        else
          '(t1, r) ← enliven t (hc_swiss cert) height;
          match r with
          | Err e => Some (t1, Err (handoff_error e))
          | Ok _ =>
              let '(t2, _) := register_handoff_nonce t1 (hc_nonce cert) in
              Some (t2, Ok (mkAcceptance token (hc_target_cell cert) (hc_permissions cert) (hc_allowed_effects cert)))
          end
    end.

End Validation.

(** ** Hybrid certificates *)

Definition HYBRID_ID_CONTEXT : string := "dregg-hybrid-id-v1".
Definition HANDOFF_PQ_CTX : bytes := str_bytes "dregg-captp-handoff-hybrid-v1".

Definition hybrid_id_commitment `{Blake3} (ed25519_pk ml_dsa_pk : bytes) : bytes :=
  blake3_derive_key HYBRID_ID_CONTEXT (ed25519_pk ++ le_bytes 4 (Z.of_nat (length ml_dsa_pk)) ++ ml_dsa_pk).

Definition verify_committed_ml_dsa `{Blake3} (id ed25519_pk ml_dsa_pk : bytes) : bool :=
  bool_decide (hybrid_id_commitment ed25519_pk ml_dsa_pk = id).

Record HybridHandoffCertificate : Type := mkHybridCert {
  hh_base : HandoffCertificate;
  hh_introducer_ml_pk : bytes;
  hh_recipient_ml_pk : bytes;
  hh_introducer_ml_sig : bytes;
}.

Record HybridHandoffPresentation : Type := mkHybrid {
  hy_certificate : HybridHandoffCertificate;
  hy_signature : bytes;
  hy_ml_sig : bytes;
}.

Definition hybrid_signing_message (base : HandoffCertificate) (introducer_ml recipient_ml : bytes) : bytes :=
  str_bytes "dregg-handoff-cert-hybrid-v1" ++ sized (signing_message base) ++ sized introducer_ml ++ sized recipient_ml.

Definition hybrid_presentation_message (base : HandoffCertificate) (recipient_ml : bytes) : bytes :=
  str_bytes "dregg-handoff-present-hybrid-v1" ++ sized (presentation_message base) ++ sized recipient_ml.

Section Hybrid.
Context `{HE : Ed25519} `{HM : MlDsa} `{HG : CaptpGate} `{HB : Blake3}.

Definition hybrid_cert_create (key introducer target_federation target_cell recipient_pk : bytes) (permissions : AuthRequired)
    (allowed_effects expires_at max_uses : option Z) (swiss recipient_ml nonce : bytes) : HybridHandoffCertificate :=
  let base := cert_create key introducer target_federation target_cell recipient_pk permissions allowed_effects expires_at
                max_uses swiss nonce in
  mkHybridCert base (ml_public key) recipient_ml
    (ml_sign key HANDOFF_PQ_CTX (hybrid_signing_message base (ml_public key) recipient_ml)).

Definition hybrid_presentation_create (c : HybridHandoffCertificate) (recipient_key : bytes) : HybridHandoffPresentation :=
  mkHybrid c (ed_sign recipient_key (presentation_message (hh_base c)))
    (ml_sign recipient_key HANDOFF_PQ_CTX (hybrid_presentation_message (hh_base c) (hh_recipient_ml_pk c))).

Definition validate_handoff_hybrid (p : HybridHandoffPresentation) (introducer_pk : bytes) (t : SwissTable)
    (known_federations : list bytes) (height : Z) (token : bytes) : option (SwissTable * result HandoffAcceptance HandoffError) :=
  let hcert := hy_certificate p in
  let base := hh_base hcert in
  if negb (verify_signature base introducer_pk) then Some (t, Err InvalidIntroducerSignature)
  else if negb (verify_committed_ml_dsa (hc_introducer base) introducer_pk (hh_introducer_ml_pk hcert))
  then Some (t, Err IntroducerIdentityCommitmentMismatch)
  else if negb (ml_verify (hh_introducer_ml_pk hcert) HANDOFF_PQ_CTX
                  (hybrid_signing_message base (hh_introducer_ml_pk hcert) (hh_recipient_ml_pk hcert)) (hh_introducer_ml_sig hcert))
  then Some (t, Err InvalidIntroducerPqSignature)
  else if negb (ed_verify (hc_recipient_pk base) (presentation_message base) (hy_signature p))
  then Some (t, Err InvalidRecipientSignature)
  else if negb (ml_verify (hh_recipient_ml_pk hcert) HANDOFF_PQ_CTX
                  (hybrid_presentation_message base (hh_recipient_ml_pk hcert)) (hy_ml_sig p))
  then Some (t, Err InvalidRecipientPqSignature)
  else validate_handoff (mkPresentation base (hy_signature p)) introducer_pk t known_federations height token.

End Hybrid.

(** ** What a signature covers *)

Record cert_wf (c : HandoffCertificate) : Prop := {
  cw_introducer : length (hc_introducer c) = 32%nat;
  cw_federation : length (hc_target_federation c) = 32%nat;
  cw_cell : length (hc_target_cell c) = 32%nat;
  cw_recipient : length (hc_recipient_pk c) = 32%nat;
  cw_permissions : auth_wf (hc_permissions c);
  cw_effects : from_option is_u32 True (hc_allowed_effects c);
  cw_expires : from_option is_u64 True (hc_expires_at c);
  cw_uses : from_option is_u32 True (hc_max_uses c);
  cw_nonce : length (hc_nonce c) = 32%nat;
  cw_swiss : length (hc_swiss c) = 32%nat;
}.

Lemma pc_handoff_auth : prefix_code auth_wf id handoff_auth_bytes.
Proof.
  intros a b x y Ha Hb. unfold id. destruct a, b; cbn in *; try done; intros [= E]; [by subst..|].
  apply app_inj_1 in E as [-> ->]; [done|congruence].
Qed.

(** Certificates with the same signing message are the same but for their
    signature: the introducer, the target, the recipient, every right and limit,
    the nonce and the swiss number are all signed. *)
Theorem certificate_fully_signed (c d : HandoffCertificate) : cert_wf c -> cert_wf d ->
  signing_message c = signing_message d -> d = with_signature c (hc_signature d).
Proof.
  intros [? ? ? ? ? ? ? ? ? ?] [? ? ? ? ? ? ? ? ? ?] E. unfold signing_message in E. apply app_inv_head in E.
  apply (pc_fixed 32) in E as [E1 E]; [|done..]. apply (pc_fixed 32) in E as [E2 E]; [|done..].
  apply (pc_fixed 32) in E as [E3 E]; [|done..]. apply (pc_fixed 32) in E as [E4 E]; [|done..].
  apply pc_handoff_auth in E as [E5 E]; [|done..]. apply (pc_opt _ _ _ pc_le4) in E as [E6 E]; [|done..].
  apply (pc_opt _ _ _ pc_le8) in E as [E7 E]; [|done..]. apply (pc_opt _ _ _ pc_le4) in E as [E8 E]; [|done..].
  apply (pc_fixed 32) in E as [E9 E]; [|done..]. unfold id in *. rewrite !option_fmap_id in *.
  destruct c, d. cbn in *. unfold with_signature. cbn. by subst.
Qed.

(** ** The decision *)

Section Decision.
Context `{HE : Ed25519} `{HG : CaptpGate}.

(** The conditions under which a presentation is accepted. *)
Record admissible (p : HandoffPresentation) (pk : bytes) (t : SwissTable) (known : list bytes) (height : Z) (held : SwissEntry)
    : Prop := {
  ad_introducer : ed_verify pk (signing_message (hp_certificate p)) (hc_signature (hp_certificate p)) = true;
  ad_recipient : ed_verify (hc_recipient_pk (hp_certificate p)) (presentation_message (hp_certificate p)) (hp_signature p) = true;
  ad_known : hc_introducer (hp_certificate p) ∈ known;
  ad_fresh : forall exp, hc_expires_at (hp_certificate p) = Some exp -> height <= exp;
  ad_entry : st_entries t !! hc_swiss (hp_certificate p) = Some held;
  ad_admission : admission held height = Ok tt;
  ad_target : hc_target_cell (hp_certificate p) = sw_cell held;
  ad_narrow : non_amplifying (hp_certificate p) held = true;
  ad_nonce : hc_nonce (hp_certificate p) ∉ seen_handoff_nonces t;
}.

(** The table after an acceptance. *)
Definition accepted_table (t : SwissTable) (c : HandoffCertificate) (held : SwissEntry) : SwissTable :=
  mkTable (<[hc_swiss c := with_uses held (sw_use_count held + 1)]> (st_entries t)) (seen_handoff_nonces t ∪ {[ hc_nonce c ]}).

Definition acceptance (c : HandoffCertificate) (token : bytes) : HandoffAcceptance :=
  mkAcceptance token (hc_target_cell c) (hc_permissions c) (hc_allowed_effects c).

Lemma cert_is_valid_iff c height : cert_is_valid c height = true <-> forall exp, hc_expires_at c = Some exp -> height <= exp.
Proof.
  unfold cert_is_valid. destruct (hc_expires_at c) as [exp|]; [|naive_solver]. rewrite negb_true_iff, Z.ltb_ge.
  split; [by intros H ? [= <-]|intros H; by apply H].
Qed.

Lemma admissible_unique p pk t known height h1 h2 : admissible p pk t known height h1 -> admissible p pk t known height h2 -> h1 = h2.
Proof. intros [] []. congruence. Qed.

Lemma validate_accepts p pk t known height token held : admissible p pk t known height held ->
  validate_handoff p pk t known height token =
  if sw_use_count held + 1 <=? u32_max
  then Some (accepted_table t (hp_certificate p) held, Ok (acceptance (hp_certificate p) token)) else None.
Proof.
  intros [H1 H2 H3 H4 H5 H6 H7 H8 H9]. unfold validate_handoff, verify_signature, verify_recipient_signature.
  rewrite H1, H2. rewrite bool_decide_eq_true_2 by done. rewrite (proj2 (cert_is_valid_iff _ _)) by done. cbn [negb].
  unfold swiss_check. rewrite H5, H6. rewrite bool_decide_eq_true_2 by done. rewrite H8. cbn [negb].
  unfold handoff_nonce_seen. rewrite bool_decide_eq_false_2 by done. unfold enliven. rewrite H5, H6. unfold checked_add_u32.
  by destruct (_ <=? _).
Qed.

Lemma validate_rejects p pk t known height token : (forall held, ~ admissible p pk t known height held) ->
  exists e, validate_handoff p pk t known height token = Some (t, Err e).
Proof.
  intros Hno. unfold validate_handoff, verify_signature, verify_recipient_signature.
  destruct (ed_verify pk _ _) eqn:H1; cbn [negb]; [|by eexists]. destruct (ed_verify (hc_recipient_pk _) _ _) eqn:H2; cbn [negb]; [|by eexists].
  case_bool_decide as H3; cbn [negb]; [|by eexists]. destruct (cert_is_valid _ height) eqn:H4; cbn [negb]; [|by eexists].
  unfold swiss_check. destruct (st_entries t !! _) as [held|] eqn:H5; [|by eexists].
  destruct (admission held height) as [[]|x] eqn:H6; [|by eexists]. case_bool_decide as H7; cbn [negb]; [|by eexists].
  destruct (non_amplifying _ held) eqn:H8; cbn [negb]; [|by eexists].
  unfold handoff_nonce_seen. case_bool_decide as H9; [by eexists|]. exfalso. apply (Hno held). split; try done. by apply cert_is_valid_iff.
Qed.

(** The admissible entry, if there is one. *)
Lemma admissible_dec p pk t known height :
  (exists held, admissible p pk t known height held) \/ (forall held, ~ admissible p pk t known height held).
Proof.
  destruct (st_entries t !! hc_swiss (hp_certificate p)) as [held|] eqn:Ee; [|right; intros held []; congruence].
  assert (Hall : forall h, admissible p pk t known height h -> h = held) by (intros h []; congruence).
  destruct (decide (ed_verify pk (signing_message (hp_certificate p)) (hc_signature (hp_certificate p)) = true));
    [|right; intros h []; congruence].
  destruct (decide (ed_verify (hc_recipient_pk (hp_certificate p)) (presentation_message (hp_certificate p)) (hp_signature p) = true));
    [|right; intros h []; congruence].
  destruct (decide (hc_introducer (hp_certificate p) ∈ known)); [|right; by intros h []].
  destruct (cert_is_valid (hp_certificate p) height) eqn:Ev; [|right; intros h [? ? ? Hf%cert_is_valid_iff]; congruence].
  destruct (admission_cases held height) as [Ha|[x Hx]]; [|right; intros h Hh; pose proof (Hall h Hh) as ->; destruct Hh; congruence].
  destruct (decide (hc_target_cell (hp_certificate p) = sw_cell held)); [|right; intros h Hh; pose proof (Hall h Hh) as ->; by destruct Hh].
  destruct (decide (non_amplifying (hp_certificate p) held = true)); [|right; intros h Hh; pose proof (Hall h Hh) as ->; by destruct Hh].
  destruct (decide (hc_nonce (hp_certificate p) ∈ seen_handoff_nonces t)); [right; by intros h []|].
  left. exists held. split; try done. by apply cert_is_valid_iff.
Qed.

(** The decision is exact.  A presentation is accepted when both signatures
    verify, the introducer is known, certificate and swiss entry are in force, the
    entry is for the named cell and grants at least what is handed on, and the
    nonce is new; then one use is counted and the nonce recorded, and nothing else
    changes.  A counter at its 32-bit limit overflows; otherwise a presentation that is not
    admissible is refused and nothing changes at all. *)
Theorem handoff_decision_exact (p : HandoffPresentation) (pk : bytes) (t : SwissTable) (known : list bytes) (height : Z) (token : bytes) :
  (exists held, admissible p pk t known height held /\
     validate_handoff p pk t known height token =
       if sw_use_count held + 1 <=? u32_max
       then Some (accepted_table t (hp_certificate p) held, Ok (acceptance (hp_certificate p) token)) else None) \/
  ((forall held, ~ admissible p pk t known height held) /\
   exists e, validate_handoff p pk t known height token = Some (t, Err e)).
Proof.
  destruct (admissible_dec p pk t known height) as [[held Ha]|Hno]; [left|right; by split; [|apply validate_rejects]].
  exists held. split; [done|by apply validate_accepts].
Qed.

Lemma validate_ok_inv p pk t known height token t' a : validate_handoff p pk t known height token = Some (t', Ok a) ->
  exists held, admissible p pk t known height held /\ t' = accepted_table t (hp_certificate p) held /\
    a = acceptance (hp_certificate p) token.
Proof.
  intros E. destruct (admissible_dec p pk t known height) as [[held Ha]|Hno].
  - exists held. split; [done|]. rewrite (validate_accepts _ _ _ _ _ _ _ Ha) in E. destruct (_ <=? _); [|done]. by injection E as <- <-.
  - destruct (validate_rejects p pk t known height token Hno) as [e Er]. congruence.
Qed.

Lemma validate_err_inv p pk t known height token t' e : validate_handoff p pk t known height token = Some (t', Err e) -> t' = t.
Proof.
  intros E. destruct (admissible_dec p pk t known height) as [[held Ha]|Hno].
  - rewrite (validate_accepts _ _ _ _ _ _ _ Ha) in E. by destruct (_ <=? _).
  - destruct (validate_rejects p pk t known height token Hno) as [e' Er]. congruence.
Qed.

End Decision.

(** ** Histories *)

Inductive HandoffEvent : Type :=
| HExported (swiss : bytes) (max_uses : option Z)
| HEnlivened (swiss : bytes)
| HAccepted (swiss nonce : bytes).

(** The numbers issued, the uses of one, the acceptances of a certificate. *)
Definition issued (es : list HandoffEvent) : list (bytes * option Z) :=
  omap (fun e => match e with HExported sw max => Some (sw, max) | _ => None end) es.

Definition uses (es : list HandoffEvent) (swiss : bytes) : Z :=
  sum_over (fun e => match e with
                     | HEnlivened sw | HAccepted sw _ => if decide (sw = swiss) then 1 else 0
                     | HExported _ _ => 0 end) es.

Definition accepted (es : list HandoffEvent) (nonce : bytes) : Z :=
  sum_over (fun e => match e with HAccepted _ n => if decide (n = nonce) then 1 else 0 | _ => 0 end) es.

Section Histories.
Context `{HE : Ed25519} `{HM : MlDsa} `{HG : CaptpGate} `{HB : Blake3}.

(** What can happen to a table; a number that is issued has not been before. *)
Inductive swiss_history : list HandoffEvent -> SwissTable -> Prop :=
| sh_new : swiss_history [] swiss_new
| sh_export es t sw cell perm h exp eff max t' r : swiss_history es t -> sw ∉ (issued es).*1 -> from_option (Z.le 0) True max ->
    export_with_options t sw cell perm h exp eff max = (t', r) -> swiss_history (es ++ [HExported sw max]) t'
| sh_enliven es t sw h t' e : swiss_history es t -> enliven t sw h = Some (t', Ok e) -> swiss_history (es ++ [HEnlivened sw]) t'
| sh_not_enlivened es t sw h t' x : swiss_history es t -> enliven t sw h = Some (t', Err x) -> swiss_history es t'
| sh_accept es t p pk known h token t' a : swiss_history es t -> validate_handoff p pk t known h token = Some (t', Ok a) ->
    swiss_history (es ++ [HAccepted (hc_swiss (hp_certificate p)) (hc_nonce (hp_certificate p))]) t'
| sh_refuse es t p pk known h token t' x : swiss_history es t -> validate_handoff p pk t known h token = Some (t', Err x) ->
    swiss_history es t'
| sh_accept_hybrid es t p pk known h token t' a : swiss_history es t ->
    validate_handoff_hybrid p pk t known h token = Some (t', Ok a) ->
    swiss_history (es ++ [HAccepted (hc_swiss (hh_base (hy_certificate p))) (hc_nonce (hh_base (hy_certificate p)))]) t'
| sh_refuse_hybrid es t p pk known h token t' x : swiss_history es t ->
    validate_handoff_hybrid p pk t known h token = Some (t', Err x) -> swiss_history es t'
| sh_revoke es t sw t' r : swiss_history es t -> swiss_revoke t sw = (t', r) -> swiss_history es t'
| sh_register es t n t' r : swiss_history es t -> register_handoff_nonce t n = (t', r) -> swiss_history es t'.

(** A hybrid acceptance is a classical one, under keys the introducer's identity
    commits to. *)
Lemma hybrid_ok_inv p pk t known h token t' a : validate_handoff_hybrid p pk t known h token = Some (t', Ok a) ->
  hybrid_id_commitment pk (hh_introducer_ml_pk (hy_certificate p)) = hc_introducer (hh_base (hy_certificate p)) /\
  ml_verify (hh_introducer_ml_pk (hy_certificate p)) HANDOFF_PQ_CTX
    (hybrid_signing_message (hh_base (hy_certificate p)) (hh_introducer_ml_pk (hy_certificate p)) (hh_recipient_ml_pk (hy_certificate p)))
    (hh_introducer_ml_sig (hy_certificate p)) = true /\
  ml_verify (hh_recipient_ml_pk (hy_certificate p)) HANDOFF_PQ_CTX
    (hybrid_presentation_message (hh_base (hy_certificate p)) (hh_recipient_ml_pk (hy_certificate p))) (hy_ml_sig p) = true /\
  validate_handoff (mkPresentation (hh_base (hy_certificate p)) (hy_signature p)) pk t known h token = Some (t', Ok a).
Proof.
  unfold validate_handoff_hybrid, verify_committed_ml_dsa. destruct (verify_signature _ _); cbn [negb]; [|done].
  case_bool_decide as Hc; cbn [negb]; [|done]. destruct (ml_verify _ _ (hybrid_signing_message _ _ _) _) eqn:E1; cbn [negb]; [|done].
  destruct (ed_verify _ _ _); cbn [negb]; [|done]. destruct (ml_verify _ _ (hybrid_presentation_message _ _) _) eqn:E2; cbn [negb]; done.
Qed.

Lemma hybrid_err_inv p pk t known h token t' x : validate_handoff_hybrid p pk t known h token = Some (t', Err x) -> t' = t.
Proof.
  unfold validate_handoff_hybrid. repeat case_match; try (by intros [= <- _]). apply validate_err_inv.
Qed.

Lemma enliven_ok_inv t sw h t' e : enliven t sw h = Some (t', Ok e) -> exists e0,
  st_entries t !! sw = Some e0 /\ admission e0 h = Ok tt /\
  t' = mkTable (<[sw := with_uses e0 (sw_use_count e0 + 1)]> (st_entries t)) (seen_handoff_nonces t).
Proof.
  unfold enliven. destruct (st_entries t !! sw) as [e0|] eqn:E0; [|done]. destruct (admission e0 h) as [[]|] eqn:Ea; [|done].
  destruct (checked_add_u32 _ _) as [n|] eqn:En; [|done]. apply checked_add_u32_spec in En as [-> _]. intros [= <- _]. by exists e0.
Qed.

Lemma enliven_err_inv t sw h t' x : enliven t sw h = Some (t', Err x) -> t' = t.
Proof.
  unfold enliven. destruct (st_entries t !! sw) as [e0|]; [|by intros [= <- _]]. destruct (admission e0 h); [|by intros [= <- _]].
  by destruct (checked_add_u32 _ _).
Qed.

(** The table agrees with its history. *)
Record table_tracks (es : list HandoffEvent) (t : SwissTable) : Prop := {
  tt_entry : forall sw e, st_entries t !! sw = Some e -> (sw, sw_max_uses e) ∈ issued es /\ sw_use_count e = uses es sw;
  tt_limit : forall sw k, (sw, Some k) ∈ issued es -> uses es sw <= k;
  tt_unissued : forall sw, sw ∉ (issued es).*1 -> uses es sw = 0;
  tt_once : NoDup (issued es).*1;
  tt_seen : forall n, n ∉ seen_handoff_nonces t -> accepted es n = 0;
  tt_accepted : forall n, accepted es n <= 1;
}.

Lemma uses_snoc es e sw : uses (es ++ [e]) sw =
  uses es sw + match e with HEnlivened s | HAccepted s _ => if decide (s = sw) then 1 else 0 | HExported _ _ => 0 end.
Proof. unfold uses. rewrite sum_over_app. cbn. lia. Qed.

Lemma accepted_snoc es e n : accepted (es ++ [e]) n =
  accepted es n + match e with HAccepted _ k => if decide (k = n) then 1 else 0 | _ => 0 end.
Proof. unfold accepted. rewrite sum_over_app. cbn. lia. Qed.

Lemma issued_snoc es e : issued (es ++ [e]) = issued es ++ match e with HExported sw max => [(sw, max)] | _ => [] end.
Proof. unfold issued. rewrite omap_app. by destruct e. Qed.

Lemma issued_unique es sw a b : NoDup (issued es).*1 -> (sw, a) ∈ issued es -> (sw, b) ∈ issued es -> a = b.
Proof.
  generalize (issued es). intros l. induction l as [|[k c] l IH]; cbn; intros Hnd Ha Hb; [by apply elem_of_nil in Ha|].
  apply NoDup_cons in Hnd as [Hk Hnd].
  assert (Hfst : forall x, (k, x) ∈ l -> k ∈ l.*1) by (intros x Hx; apply list_elem_of_fmap; by exists (k, x)).
  apply elem_of_cons in Ha as [Ea|Ha], Hb as [Eb|Hb]; simplify_eq; [done|by destruct Hk; eapply Hfst..|by apply IH].
Qed.

(** Counting one more use of an entry in force. *)
Lemma tracks_use es t ev sw held h seen' : table_tracks es t -> st_entries t !! sw = Some held -> admission held h = Ok tt ->
  (ev = HEnlivened sw /\ seen' = seen_handoff_nonces t \/
   exists n, ev = HAccepted sw n /\ n ∉ seen_handoff_nonces t /\ seen' = seen_handoff_nonces t ∪ {[ n ]}) ->
  table_tracks (es ++ [ev]) (mkTable (<[sw := with_uses held (sw_use_count held + 1)]> (st_entries t)) seen').
Proof.
  intros [H1 H2 H3 H4 H5 H6] He Ha Hev. apply admission_ok in Ha as [_ Hmax]. destruct (H1 _ _ He) as [Hi Hu].
  assert (Hiss : issued (es ++ [ev]) = issued es) by (rewrite issued_snoc; destruct Hev as [[-> _]|(n & -> & _)]; apply app_nil_r).
  assert (Huse : forall s, uses (es ++ [ev]) s = uses es s + if decide (sw = s) then 1 else 0)
    by (intros s; rewrite uses_snoc; by destruct Hev as [[-> _]|(n & -> & _)]).
  split; cbn [st_entries seen_handoff_nonces]; rewrite ?Hiss.
  - intros s e. rewrite Huse. destruct (decide (sw = s)) as [<-|Hne].
    + rewrite lookup_insert_eq. intros [= <-]. cbn. by rewrite Hu.
    + rewrite lookup_insert_ne by done. rewrite Z.add_0_r. apply H1.
  - intros s k Hk. rewrite Huse. destruct (decide (sw = s)) as [<-|]; [|specialize (H2 _ _ Hk); lia].
    assert (Hm : sw_max_uses held = Some k) by (by apply (issued_unique es sw)).
    specialize (Hmax _ Hm). lia.
  - intros s Hs. rewrite Huse, (H3 s Hs). rewrite decide_False; [done|]. intros <-. apply Hs.
    apply list_elem_of_fmap. by exists (sw, sw_max_uses held).
  - done.
  - intros n Hn. rewrite accepted_snoc. destruct Hev as [[-> ->]|(k & -> & Hk & ->)]; [rewrite H5 by done; lia|].
    rewrite H5 by set_solver. rewrite decide_False by set_solver. lia.
  - intros n. rewrite accepted_snoc. destruct Hev as [[-> _]|(k & -> & Hk & _)]; [specialize (H6 n); lia|].
    destruct (decide (k = n)) as [<-|]; [rewrite H5 by done; lia|specialize (H6 n); lia].
Qed.

Lemma tracks_weaken es t t' : table_tracks es t -> seen_handoff_nonces t ⊆ seen_handoff_nonces t' ->
  (forall sw e, st_entries t' !! sw = Some e -> st_entries t !! sw = Some e) -> table_tracks es t'.
Proof. intros [H1 H2 H3 H4 H5 H6] Hs He. split; [|done..| |done]; [intros sw e Hx; by apply H1, He|intros n Hn; apply H5; set_solver]. Qed.

Lemma history_tracks es t : swiss_history es t -> table_tracks es t.
Proof.
  induction 1 as [|es t sw cell perm h exp eff max t' r _ IH Hnew Hmax E|es t sw h t' e _ IH E|es t sw h t' x _ IH E
    |es t p pk known h token t' a _ IH E|es t p pk known h token t' x _ IH E|es t p pk known h token t' a _ IH E
    |es t p pk known h token t' x _ IH E|es t sw t' r _ IH E|es t n t' r _ IH E].
  - split; try done; [intros sw k []%elem_of_nil|constructor].
  - injection E as <- _. destruct IH as [H1 H2 H3 H4 H5 H6]. split; cbn [st_entries seen_handoff_nonces].
    + intros s e. rewrite issued_snoc, uses_snoc, elem_of_app, Z.add_0_r. destruct (decide (s = sw)) as [->|].
      * rewrite lookup_insert_eq. intros [= <-]. cbn. split; [right; left|symmetry; by apply H3].
      * rewrite lookup_insert_ne by done. intros [? ?]%H1. by split; [left|].
    + intros s k. rewrite issued_snoc, uses_snoc, elem_of_app, Z.add_0_r.
      intros [?|[= -> <-]%list_elem_of_singleton]; [by apply H2|]. by rewrite H3.
    + intros s. rewrite issued_snoc, uses_snoc, fmap_app, elem_of_app, Z.add_0_r. intros Hs. apply H3. tauto.
    + rewrite issued_snoc, fmap_app. cbn. apply NoDup_app. split_and!; [done| |apply NoDup_singleton].
      by intros s Hs ->%list_elem_of_singleton.
    + intros n Hn. rewrite accepted_snoc, H5 by done. done.
    + intros n. rewrite accepted_snoc. specialize (H6 n). lia.
  - apply enliven_ok_inv in E as (e0 & He & Ha & ->). eapply tracks_use; [done..|]. by left.
  - by apply enliven_err_inv in E as ->.
  - apply validate_ok_inv in E as (held & Had & -> & _). eapply tracks_use; [done|by destruct Had..|]. right.
    eexists. split_and!; [done|by destruct Had|done].
  - by apply validate_err_inv in E as ->.
  - apply hybrid_ok_inv in E as (_ & _ & _ & E). apply validate_ok_inv in E as (held & Had & -> & _).
    eapply (tracks_use _ _ _ _ _ h); [done|by destruct Had..|]. right. eexists. split_and!; [done|by destruct Had|done].
  - by apply hybrid_err_inv in E as ->.
  - injection E as <- _. apply (tracks_weaken _ t); [done..|]. cbn. by intros s e [_ ?]%lookup_delete_Some.
  - injection E as <- _. apply (tracks_weaken _ t); [done|cbn; set_solver|done].
Qed.

(** C16: in any history of a table, whatever certificates are presented and
    replayed, classical or hybrid, a nonce is accepted at most once, and a swiss
    number is used, by enlivening or by handoffs, at most as often as it was issued
    for. *)
Theorem handoffs_used_within_limits (es : list HandoffEvent) (t : SwissTable) : swiss_history es t ->
  (forall nonce, accepted es nonce <= 1) /\ (forall sw k, (sw, Some k) ∈ issued es -> uses es sw <= k) /\
  (forall sw e, st_entries t !! sw = Some e -> sw_use_count e = uses es sw).
Proof. intros [H1 H2 _ _ _ H6]%history_tracks. split_and!; [done..|]. intros sw e He. by apply H1. Qed.

End Histories.

(** ** What is handed on *)

Section Authority.
Context `{HE : Ed25519} `{HM : MlDsa} `{HG : CaptpGate} `{HB : Blake3}.

Lemma native_sound g h ge he : native_non_amplifying g h ge he = true ->
  (forall c, accepts g c -> accepts h c) /\ (forall bit, is_effect_permitted ge bit = true -> is_effect_permitted he bit = true).
Proof.
  unfold native_non_amplifying. intros [Hp He]%andb_true_iff. split; [intros c; by apply is_narrower_or_equal_sound|].
  destruct ge as [g'|], he as [h'|]; [|done..]. intros bit. by apply is_effect_permitted_mono.
Qed.

(** C15: an accepted handoff amplifies nothing.  When no gate is installed, or
    one whose yes the lattice backs, what an accepted handoff confers is within
    what the introducer's entry at the target confers: every credential accepted
    under the new grant and every effect it permits is accepted and permitted by
    the entry, and the cell is the entry's. *)
Theorem handoff_never_amplifies (p : HandoffPresentation) (pk : bytes) (t t' : SwissTable) (known : list bytes) (height : Z)
    (token : bytes) (a : HandoffAcceptance) :
  (forall g h ge he, verified_non_amplifying g h ge he = Some true -> native_non_amplifying g h ge he = true) ->
  validate_handoff p pk t known height token = Some (t', Ok a) ->
  exists held, st_entries t !! hc_swiss (hp_certificate p) = Some held /\ ha_cell a = sw_cell held /\
    (forall c, accepts (ha_permissions a) c -> accepts (sw_permissions held) c) /\
    (forall bit, is_effect_permitted (ha_allowed_effects a) bit = true -> is_effect_permitted (sw_allowed_effects held) bit = true).
Proof.
  intros Hg (held & Had & _ & ->)%validate_ok_inv. exists held. destruct Had as [_ _ _ _ H5 _ H7 H8 _]. cbn.
  assert (Hn : native_non_amplifying (hc_permissions (hp_certificate p)) (sw_permissions held)
                 (hc_allowed_effects (hp_certificate p)) (sw_allowed_effects held) = true).
  { unfold non_amplifying in H8. destruct (verified_non_amplifying _ _ _ _) as [r|] eqn:Ev; cbn in H8; [|done].
    subst r. by apply Hg. }
  by destruct (native_sound _ _ _ _ Hn).
Qed.

(** The gate is told eight bytes of a custom verification key: two keys that agree
    on them are the same to it, although the lattice has them incomparable. *)
Theorem custom_keys_conflated (a b : bytes) (ge he : option Z) (c : HandoffCertificate) (e : SwissEntry) :
  take 8 a = take 8 b -> a <> b -> verified_non_amplifying (AR_Custom b) (AR_Custom b) ge he = Some true ->
  hc_permissions c = AR_Custom a -> hc_allowed_effects c = ge -> sw_permissions e = AR_Custom b -> sw_allowed_effects e = he ->
  non_amplifying c e = true /\ native_non_amplifying (AR_Custom a) (AR_Custom b) ge he = false.
Proof.
  intros Ht Hne Hv Hc1 Hc2 He1 He2. split.
  - unfold non_amplifying. rewrite Hc1, Hc2, He1, He2. unfold verified_non_amplifying, handoff_wire in *. cbn [auth_required_tag] in *.
    by rewrite Ht, Hv.
  - unfold native_non_amplifying. cbn [is_narrower_or_equal]. by rewrite bool_decide_eq_false_2.
Qed.

(** Hybrid handoffs from one identity verify under one pair of keys. *)
Theorem introducer_keys_pinned `{!Blake3CR HB} (p q : HybridHandoffPresentation) (pk qk : bytes) (t1 t2 t1' t2' : SwissTable)
    (known1 known2 : list bytes) (h1 h2 : Z) (token1 token2 : bytes) (a1 a2 : HandoffAcceptance) :
  validate_handoff_hybrid p pk t1 known1 h1 token1 = Some (t1', Ok a1) ->
  validate_handoff_hybrid q qk t2 known2 h2 token2 = Some (t2', Ok a2) ->
  hc_introducer (hh_base (hy_certificate p)) = hc_introducer (hh_base (hy_certificate q)) ->
  length pk = 32%nat -> length qk = 32%nat -> pk = qk /\
  (is_u32 (Z.of_nat (length (hh_introducer_ml_pk (hy_certificate p)))) -> is_u32 (Z.of_nat (length (hh_introducer_ml_pk (hy_certificate q)))) ->
   hh_introducer_ml_pk (hy_certificate p) = hh_introducer_ml_pk (hy_certificate q)).
Proof.
  intros (E1 & _)%hybrid_ok_inv (E2 & _)%hybrid_ok_inv Hid Hp Hq. rewrite <-E1, <-E2 in Hid. unfold hybrid_id_commitment in Hid.
  apply blake3_derive_key_inj in Hid as [_ Hid]. apply app_inj_1 in Hid as [-> Hid]; [|congruence]. split; [done|].
  intros Hl1 Hl2. apply pc_le4 in Hid as [_ Hid]; done.
Qed.

End Authority.

(** ** A handoff *)

#[local] Instance plain_ed : Ed25519 := model_ed25519.
#[local] Instance plain_ml : MlDsa :=
  {| ml_public sk := sk; ml_sign sk ctx msg := sk ++ ctx ++ msg; ml_verify pk ctx msg sig := bool_decide (sig = pk ++ ctx ++ msg) |}.
#[local] Instance plain_blake : Blake3 := model_blake3.

Section NoGate.

#[local] Instance no_gate : CaptpGate := None.

Definition sample_table : SwissTable := (export_with_options swiss_new [7] [9] AR_Either 0 None (Some 3) (Some 2)).1.

Definition sample_cert (sk introducer : bytes) : HandoffCertificate :=
  cert_create sk introducer [5] [9] [4] AR_Signature (Some 1) (Some 20) None [7] [8].

Definition sample_presentation : HandoffPresentation := presentation_create (sample_cert [3] [2]) [4].

Definition sample_result : option (SwissTable * result HandoffAcceptance HandoffError) :=
  validate_handoff sample_presentation [3] sample_table [[2]] 10 [6].

Definition sample_after : SwissTable := default swiss_new (fst <$> sample_result).

Example sample_accepted : sample_result = Some (sample_after, Ok (mkAcceptance [6] [9] AR_Signature (Some 1))) /\
  validate_handoff sample_presentation [3] sample_after [[2]] 10 [6] = Some (sample_after, Err ReplayDetected).
Proof. by vm_compute. Qed.

Lemma sample_history : swiss_history [HExported [7] (Some 2); HAccepted [7] [8]] sample_after.
Proof.
  eapply (sh_accept [HExported [7] (Some 2)] sample_table sample_presentation [3] [[2]] 10 [6]); [|apply sample_accepted].
  eapply (sh_export [] swiss_new [7] [9] AR_Either 0 None (Some 3) (Some 2)); [constructor|apply not_elem_of_nil|done|reflexivity].
Qed.

Lemma handoffs_used_within_limits_witness : uses [HExported [7] (Some 2); HAccepted [7] [8]] [7] <= 2.
Proof.
  destruct (handoffs_used_within_limits _ _ sample_history) as (_ & H & _). apply H.
  apply (list_elem_of_lookup_2 _ 0%nat). reflexivity.
Defined.

Lemma handoff_never_amplifies_witness : exists held, st_entries sample_table !! [7] = Some held /\ sw_cell held = [9].
Proof.
  assert (Hg : forall g h ge he, verified_non_amplifying g h ge he = Some true -> native_non_amplifying g h ge he = true).
  { intros g h ge he H. change (None = Some true) in H. discriminate H. }
  destruct (handoff_never_amplifies sample_presentation [3] sample_table sample_after [[2]] 10 [6] _ Hg (proj1 sample_accepted)) as (held & H1 & H2 & _).
  exists held. split; [exact H1|]. symmetry. exact H2.
Defined.

Lemma certificate_fully_signed_witness :
  let c := cert_create [3] (replicate 32 1) (replicate 32 2) (replicate 32 3) (replicate 32 4) AR_Signature (Some 1) (Some 20) None (replicate 32 6) (replicate 32 7) in
  with_signature c [] = with_signature c (hc_signature (with_signature c [])).
Proof.
  intros c. assert (Hw : cert_wf c /\ cert_wf (with_signature c [])).
  { split; split; try reflexivity; try exact I; cbn; unfold is_u32, is_u64, u32_max, u64_max; lia. }
  exact (certificate_fully_signed c (with_signature c []) (proj1 Hw) (proj2 Hw) eq_refl).
Defined.

Definition sample_hybrid : HybridHandoffPresentation :=
  let key := replicate 32 3 in
  hybrid_presentation_create
    (hybrid_cert_create key (hybrid_id_commitment key key) [5] [9] (replicate 32 4) AR_Signature (Some 1) (Some 20) None [7] (replicate 32 4) [8])
    (replicate 32 4).

Definition sample_hybrid_result : option (SwissTable * result HandoffAcceptance HandoffError) :=
  validate_handoff_hybrid sample_hybrid (replicate 32 3) sample_table [hybrid_id_commitment (replicate 32 3) (replicate 32 3)] 10 [6].

Example sample_hybrid_accepted :
  sample_hybrid_result = Some (default swiss_new (fst <$> sample_hybrid_result), Ok (mkAcceptance [6] [9] AR_Signature (Some 1))).
Proof. by vm_compute. Qed.

Lemma introducer_keys_pinned_witness : replicate 32 3 = replicate 32 3 :> bytes.
Proof.
  exact (proj1 (introducer_keys_pinned (Blake3CR0 := model_blake3_cr) sample_hybrid sample_hybrid _ _ _ _ _ _ _ _ _ _ _ _ _ _
    sample_hybrid_accepted sample_hybrid_accepted eq_refl eq_refl eq_refl)).
Defined.

End NoGate.

(** A gate that finds equal tags equal. *)
#[local] Instance equal_gate : CaptpGate := Some (mkCaptpGate true (fun _ => Some true) (fun _ => None) (fun _ => None)).

Lemma custom_keys_conflated_witness :
  native_non_amplifying (AR_Custom (replicate 32 1)) (AR_Custom (replicate 8 1 ++ replicate 24 2)) None None = false.
Proof.
  exact (proj2 (custom_keys_conflated (replicate 32 1) (replicate 8 1 ++ replicate 24 2) None None
    (mkCert [] [] [] [] [] (AR_Custom (replicate 32 1)) None None None [] [])
    (mkSwiss [] (AR_Custom (replicate 8 1 ++ replicate 24 2)) None None 0 None 0) eq_refl ltac:(discriminate) eq_refl eq_refl eq_refl eq_refl eq_refl)).
Defined.
