(* ===== verification/CaptpPipeline.v ===== *)
(** * Promise pipelining

    Models [captp/src/pipeline.rs]: messages sent to promises that are not yet
    resolved, their delivery when a promise resolves, the cascade when one breaks,
    chains, and the bridge that keeps a registry per peer.

    Numbers of promises are [u64] and an outer [None] is their overflow.  A
    cascade takes fuel, one step more than there are queued messages, and is shown
    to return.  The gate is that of CaptpGc.v; reasons are bytes. *)

From stdpp Require Import base decidable option list gmap strings relations.
From Stdlib Require Import ZArith Lia.
From S2P Require Import Prelude VerifiedGate CaptpGc.

Open Scope Z_scope.

Record PipelinedAction : Type := mkAction { pa_method : string; pa_args : bytes; pa_authorization : bytes }.

Record PipelinedMessage : Type := mkMessage {
  pm_target : Z;
  pm_action : PipelinedAction;
  pm_result : option Z;
  pm_sender : bytes;
}.

#[export] Instance PipelinedAction_eq_dec : EqDecision PipelinedAction.
Proof. solve_decision. Defined.
#[export] Instance PipelinedMessage_eq_dec : EqDecision PipelinedMessage.
Proof. solve_decision. Defined.

Inductive PipelinePromiseState : Type :=
| PPending
| PFulfilled (resolved_cell : bytes)
| PBroken (reason : bytes).

Record BrokenPromiseNotification : Type := mkNotice { bn_promise : Z; bn_reason : bytes; bn_notify : bytes }.

Inductive PipelineError : Type :=
| PromiseNotFound (promise_id : Z)
| PromiseAlreadyBroken (promise_id : Z) (reason : bytes)
| EmptyChain.

Record PipelineRegistry : Type := mkRegistry {
  pr_queued : gmap Z (list PipelinedMessage);
  pr_promises : gmap Z PipelinePromiseState;
  pr_next : Z;
}.

Definition registry_new : PipelineRegistry := mkRegistry ∅ ∅ 0.

Definition pipeline_create_promise (r : PipelineRegistry) : option (PipelineRegistry * Z) :=
  let id := pr_next r in
  next ← checked_add_u64 id 1;
  Some (mkRegistry (<[id := []]> (pr_queued r)) (<[id := PPending]> (pr_promises r)) next, id).

(** [queued.entry(target).or_default().push(msg)] *)
Definition queue_message (r : PipelineRegistry) (msg : PipelinedMessage) : PipelineRegistry :=
  mkRegistry (<[pm_target msg := default [] (pr_queued r !! pm_target msg) ++ [msg]]> (pr_queued r)) (pr_promises r) (pr_next r).

Definition pipeline_message (r : PipelineRegistry) (msg : PipelinedMessage) : PipelineRegistry * result unit PipelineError :=
  match pr_promises r !! pm_target msg with
  | None => (r, Err (PromiseNotFound (pm_target msg)))
  | Some (PBroken reason) => (r, Err (PromiseAlreadyBroken (pm_target msg) reason))
  | Some _ => (queue_message r msg, Ok tt)
  end.

(** A known promise takes a new state; its queue is taken out. *)
Definition settle (r : PipelineRegistry) (id : Z) (st : PipelinePromiseState) : PipelineRegistry :=
  mkRegistry (delete id (pr_queued r))
    (match pr_promises r !! id with Some _ => <[id := st]> (pr_promises r) | None => pr_promises r end) (pr_next r).

Definition queue_of (r : PipelineRegistry) (id : Z) : list PipelinedMessage := default [] (pr_queued r !! id).

(** *** The order of delivery *)

Fixpoint parse_indices (l : list bytes) : option (list nat) :=
  match l with
  | [] => Some []
  | x :: l => n ← parse_u64 x; ns ← parse_indices l; Some (Z.to_nat n :: ns)
  end.

(** [slots[i].take()] for each index in turn. *)
Fixpoint take_slots (slots : list (option PipelinedMessage)) (order : list nat) : list PipelinedMessage :=
  match order with
  | [] => []
  | i :: order =>
      match slots !! i with
      | Some (Some msg) => msg :: take_slots (<[i := None]> slots) order
      | _ => take_slots slots order
      end
  end.

Definition reorder (drained : list PipelinedMessage) (out : bytes) : list PipelinedMessage :=
  match first ← head (split_on char_semi out); strip_prefix (str_bytes "D=") first with
  | None => drained
  | Some seg =>
      match (if bool_decide (seg = []) then Some [] else parse_indices (split_on char_comma seg)) with
      | None => drained
      | Some order =>
          if existsb (fun i => length drained <=? i)%nat order then drained else take_slots (Some <$> drained) order
      end
  end.

Definition drain_wire (n : nat) (fulfill : bool) : bytes :=
  str_bytes "Q=" ++ join_with char_comma ((fun i => u64_to_string (Z.of_nat i)) <$> seq 0 n) ++
  str_bytes (if fulfill then ";e=f" else ";e=b").

Section Registry.
Context `{HG : CaptpGate}.

Definition verified_drain_reorder (drained : list PipelinedMessage) (fulfill : bool) : list PipelinedMessage :=
  match captp_gate with
  | Some g =>
      if cg_available g
      then match cg_pipeline_resolve g (drain_wire (length drained) fulfill) with
           | Some out => reorder drained out
           | None => drained
           end
      else drained
  | None => drained
  end.

Definition pipeline_resolve_promise (r : PipelineRegistry) (id : Z) (cell : bytes) : PipelineRegistry * list PipelinedMessage :=
  (settle r id (PFulfilled cell), verified_drain_reorder (queue_of r id) true).

End Registry.

(** *** Breaking *)

Definition cascade_reason (id : Z) (reason : bytes) : bytes :=
  str_bytes "upstream promise " ++ u64_to_string id ++ str_bytes " broken: " ++ reason.

Fixpoint break_loop (fuel : nat) (r : PipelineRegistry) (id : Z) (reason : bytes)
    : option (PipelineRegistry * list BrokenPromiseNotification) :=
  match fuel with
  | O => None
  | S fuel =>
      foldl (fun acc msg =>
        '(r, notices) ← acc;
        match pm_result msg with
        | None => Some (r, notices)
        | Some result_id =>
            let notices := notices ++ [mkNotice result_id (cascade_reason id reason) (pm_sender msg)] in
            match pr_promises r !! result_id with
            | None => Some (r, notices)
            | Some _ =>
                '(r, inner) ← break_loop fuel r result_id (cascade_reason id reason);
                Some (r, notices ++ inner)
            end
        end) (Some (settle r id (PBroken reason), [])) (queue_of r id)
  end.

Definition all_queued (r : PipelineRegistry) : list PipelinedMessage := concat (snd <$> map_to_list (pr_queued r)).

Definition pipeline_break_promise (r : PipelineRegistry) (id : Z) (reason : bytes)
    : option (PipelineRegistry * list BrokenPromiseNotification) :=
  break_loop (S (length (all_queued r))) r id reason.

(** *** Chains *)

(** The loop over the steps; a refused message is ignored, as in the code. *)
Fixpoint chain_loop (r : PipelineRegistry) (target : Z) (steps : list PipelinedAction) (sender : bytes)
    : option (PipelineRegistry * Z) :=
  match steps with
  | [] => Some (r, target)
  | action :: steps =>
      '(r, result_promise) ← pipeline_create_promise r;
      let '(r, _) := pipeline_message r (mkMessage target action (Some result_promise) sender) in
      chain_loop r result_promise steps sender
  end.

Definition pipeline_chain (r : PipelineRegistry) (initial : Z) (steps : list PipelinedAction) (sender : bytes)
    : option (PipelineRegistry * result Z PipelineError) :=
  match steps with
  | [] => Some (r, Err EmptyChain)
  | _ =>
      match pr_promises r !! initial with
      | None => Some (r, Err (PromiseNotFound initial))
      | Some (PBroken reason) => Some (r, Err (PromiseAlreadyBroken initial reason))
      | Some _ => '(r, last) ← chain_loop r initial steps sender; Some (r, Ok last)
      end
  end.

Definition queued_count (r : PipelineRegistry) (id : Z) : nat := length (queue_of r id).
Definition promise_count (r : PipelineRegistry) : nat := size (pr_promises r).

(** ** The bridge *)

Inductive PipelineResultValue : Type :=
| RSuccess (cell_id receipt_hash : bytes)
| RFailure (error : bytes).

Inductive PipelineWireMessage : Type :=
| PipelineToPromise (promise_id : Z) (action : PipelinedAction) (result_promise_id : option Z) (sender_federation : bytes)
| PromiseResolved (promise_id : Z) (resolved_cell : bytes)
| PromiseBroken (promise_id : Z) (reason : bytes)
| PipelineResult (original_result_promise_id : Z) (result : PipelineResultValue).

Record CrossFedPipelineBridge : Type := mkBridge {
  br_peers : gmap bytes PipelineRegistry;
  br_local : PipelineRegistry;
  br_outbox : list (bytes * PipelineWireMessage);
  br_federation : option bytes;
}.

Definition bridge_new : CrossFedPipelineBridge := mkBridge ∅ registry_new [] None.
Definition with_local_federation (f : bytes) : CrossFedPipelineBridge := mkBridge ∅ registry_new [] (Some f).
Definition set_local_federation (b : CrossFedPipelineBridge) (f : bytes) : CrossFedPipelineBridge :=
  mkBridge (br_peers b) (br_local b) (br_outbox b) (Some f).

Definition outbound_sender (b : CrossFedPipelineBridge) : bytes := default (replicate 32 0) (br_federation b).

Definition with_local (b : CrossFedPipelineBridge) (r : PipelineRegistry) : CrossFedPipelineBridge :=
  mkBridge (br_peers b) r (br_outbox b) (br_federation b).
Definition with_peers (b : CrossFedPipelineBridge) (p : gmap bytes PipelineRegistry) : CrossFedPipelineBridge :=
  mkBridge p (br_local b) (br_outbox b) (br_federation b).
Definition push_outbox (b : CrossFedPipelineBridge) (to : bytes) (m : PipelineWireMessage) : CrossFedPipelineBridge :=
  mkBridge (br_peers b) (br_local b) (br_outbox b ++ [(to, m)]) (br_federation b).

Definition pipeline_to_remote (b : CrossFedPipelineBridge) (target : bytes) (promise : Z) (action : PipelinedAction)
    : option (CrossFedPipelineBridge * Z) :=
  '(r, id) ← pipeline_create_promise (br_local b);
  Some (push_outbox (with_local b r) target (PipelineToPromise promise action (Some id) (outbound_sender b)), id).

Fixpoint remote_chain_loop (b : CrossFedPipelineBridge) (target : bytes) (promise last : Z) (steps : list PipelinedAction)
    : option (CrossFedPipelineBridge * Z) :=
  match steps with
  | [] => Some (b, last)
  | action :: steps => '(b, id) ← pipeline_to_remote b target promise action; remote_chain_loop b target id id steps
  end.

Definition pipeline_chain_to_remote (b : CrossFedPipelineBridge) (target : bytes) (initial : Z) (steps : list PipelinedAction)
    : option (CrossFedPipelineBridge * result Z PipelineError) :=
  match steps with
  | [] => Some (b, Err EmptyChain)
  | _ => '(b, last) ← remote_chain_loop b target initial 0 steps; Some (b, Ok last)
  end.

Definition on_pipeline_message (b : CrossFedPipelineBridge) (from : bytes) (promise : Z) (action : PipelinedAction)
    (result_promise : option Z) : CrossFedPipelineBridge * result unit PipelineError :=
  let registry := default registry_new (br_peers b !! from) in
  let msg := mkMessage promise action result_promise from in
  match pr_promises (br_local b) !! promise with
  | Some _ =>
      let b := with_peers b (<[from := registry]> (br_peers b)) in
      let '(r, res) := pipeline_message (br_local b) msg in (with_local b r, res)
  | None =>
      let registry :=
        match pr_promises registry !! promise with
        | Some _ => registry
        | None => mkRegistry (<[promise := []]> (pr_queued registry)) (<[promise := PPending]> (pr_promises registry)) (pr_next registry)
        end in
      let '(r, res) := pipeline_message registry msg in (with_peers b (<[from := r]> (br_peers b)), res)
  end.

Definition on_remote_breakage (b : CrossFedPipelineBridge) (from : bytes) (promise : Z) (reason : bytes)
    : option (CrossFedPipelineBridge * list BrokenPromiseNotification) :=
  '(r, notices) ← pipeline_break_promise (br_local b) promise reason; Some (with_local b r, notices).

(** The peers that know the promise, one after the other. *)
Definition break_peer (promise : Z) (reason : bytes) (acc : option (gmap bytes PipelineRegistry * list BrokenPromiseNotification))
    (peer : bytes * PipelineRegistry) : option (gmap bytes PipelineRegistry * list BrokenPromiseNotification) :=
  '(peers, notices) ← acc;
  match pr_promises peer.2 !! promise with
  | None => Some (peers, notices)
  | Some _ => '(r, more) ← pipeline_break_promise peer.2 promise reason; Some (<[peer.1 := r]> peers, notices ++ more)
  end.

Definition break_local_promise (b : CrossFedPipelineBridge) (promise : Z) (reason : bytes)
    : option (CrossFedPipelineBridge * list BrokenPromiseNotification) :=
  '(peers, notices) ← foldl (break_peer promise reason) (Some (br_peers b, [])) (map_to_list (br_peers b));
  '(r, more) ← pipeline_break_promise (br_local b) promise reason;
  Some (with_local (with_peers b peers) r, notices ++ more).

Definition drain_outbox (b : CrossFedPipelineBridge) : CrossFedPipelineBridge * list (bytes * PipelineWireMessage) :=
  (mkBridge (br_peers b) (br_local b) [] (br_federation b), br_outbox b).

Definition peer_registry (b : CrossFedPipelineBridge) (peer : bytes) : option PipelineRegistry := br_peers b !! peer.

Section Bridge.
Context `{HG : CaptpGate}.

Definition on_remote_resolution (b : CrossFedPipelineBridge) (from : bytes) (promise : Z) (cell : bytes)
    : CrossFedPipelineBridge * list PipelinedMessage :=
  let '(r, msgs) := pipeline_resolve_promise (br_local b) promise cell in (with_local b r, msgs).

Definition on_pipeline_result (b : CrossFedPipelineBridge) (from : bytes) (promise : Z) (result : PipelineResultValue)
    : option (CrossFedPipelineBridge * list PipelinedMessage) :=
  match result with
  | RSuccess cell _ => let '(r, msgs) := pipeline_resolve_promise (br_local b) promise cell in Some (with_local b r, msgs)
  | RFailure error => '(r, _) ← pipeline_break_promise (br_local b) promise error; Some (with_local b r, [])
  end.

Definition resolve_peer (promise : Z) (cell : bytes) (acc : gmap bytes PipelineRegistry * list PipelinedMessage)
    (peer : bytes * PipelineRegistry) : gmap bytes PipelineRegistry * list PipelinedMessage :=
  match pr_promises peer.2 !! promise with
  | None => acc
  | Some _ => let '(r, msgs) := pipeline_resolve_promise peer.2 promise cell in (<[peer.1 := r]> acc.1, acc.2 ++ msgs)
  end.

Definition resolve_local_promise (b : CrossFedPipelineBridge) (promise : Z) (cell : bytes)
    : CrossFedPipelineBridge * list PipelinedMessage :=
  let '(peers, msgs) := foldl (resolve_peer promise cell) (br_peers b, []) (map_to_list (br_peers b)) in
  let '(r, more) := pipeline_resolve_promise (br_local b) promise cell in
  (with_local (with_peers b peers) r, msgs ++ more).

End Bridge.

(** ** Queues *)

Lemma concat_perm {A} (l1 l2 : list (list A)) : l1 ≡ₚ l2 -> concat l1 ≡ₚ concat l2.
Proof.
  induction 1 as [|x l1 l2 _ IH|x y l|l1 l2 l3 _ IH1 _ IH2]; cbn [concat]; [done|by rewrite IH| |by rewrite IH1].
  rewrite !(assoc_L (++)). by rewrite (comm (++) x y).
Qed.

Lemma queued_delete (r : PipelineRegistry) (p : Z) st : all_queued r ≡ₚ queue_of r p ++ all_queued (settle r p st).
Proof.
  unfold all_queued, queue_of, settle. cbn [pr_queued]. destruct (pr_queued r !! p) as [q|] eqn:E; cbn [default from_option id].
  - change (q ++ concat (snd <$> map_to_list (delete p (pr_queued r)))) with
      (concat (snd <$> ((p, q) :: map_to_list (delete p (pr_queued r))))).
    apply concat_perm. by rewrite (map_to_list_delete _ _ _ E).
  - by rewrite delete_id.
Qed.

(** Results that messages owe to their senders. *)
Definition owed_by (m : PipelinedMessage) : option (Z * bytes) := (fun y => (y, pm_sender m)) <$> pm_result m.
Definition owed (r : PipelineRegistry) : list (Z * bytes) := omap owed_by (all_queued r).
Definition notified (ns : list BrokenPromiseNotification) : list (Z * bytes) := (fun n => (bn_promise n, bn_notify n)) <$> ns.

Lemma owed_delete r (p : Z) st : owed r ≡ₚ omap owed_by (queue_of r p) ++ owed (settle r p st).
Proof. unfold owed. rewrite <-omap_app. apply omap_Permutation, queued_delete. Qed.

(** ** The cascade *)

(** A message queued for [x] wants its result at the known promise [y]. *)
Definition edge (r : PipelineRegistry) (x y : Z) : Prop :=
  exists msg, msg ∈ queue_of r x /\ pm_result msg = Some y /\ is_Some (pr_promises r !! y).

Definition is_broken (r : PipelineRegistry) (x : Z) : Prop := exists reason, pr_promises r !! x = Some (PBroken reason).

(** From [r] to [r'] only queues were taken out and promises broken, those that
    [p] reaches; [todo] is what is left of the queue of [p]. *)
Record cascade (r : PipelineRegistry) (p : Z) (todo : list PipelinedMessage) (r' : PipelineRegistry)
    (ns : list BrokenPromiseNotification) : Prop := {
  ca_queue : forall x, pr_queued r' !! x = None \/ pr_queued r' !! x = pr_queued r !! x;
  ca_dom : forall x, is_Some (pr_promises r' !! x) <-> is_Some (pr_promises r !! x);
  ca_state : forall x, pr_promises r' !! x = pr_promises r !! x \/ is_broken r' x /\ rtc (edge r) p x;
  ca_reached : forall x q, pr_queued r !! x = Some q -> pr_queued r' !! x = None -> rtc (edge r) p x;
  ca_self : pr_queued r' !! p = None /\ (is_Some (pr_promises r !! p) -> is_broken r' p);
  ca_closed : forall x q msg y, pr_queued r !! x = Some q -> pr_queued r' !! x = None -> msg ∈ q -> (x = p -> msg ∉ todo) ->
    pm_result msg = Some y -> is_Some (pr_promises r !! y) -> pr_queued r' !! y = None /\ is_broken r' y;
  ca_owed : owed r ≡ₚ notified ns ++ omap owed_by todo ++ owed r';
  ca_length : (length (all_queued r') + length (queue_of r p) <= length (all_queued r))%nat;
}.

Lemma cascade_start r p reason : cascade r p (queue_of r p) (settle r p (PBroken reason)) [].
Proof.
  assert (Hs : forall x, pr_promises (settle r p (PBroken reason)) !! x =
    if decide (x = p) then (fun _ => PBroken reason) <$> pr_promises r !! p else pr_promises r !! x).
  { intros x. cbn. destruct (pr_promises r !! p) as [s|] eqn:E; destruct (decide (x = p)) as [->|]; cbn;
      [by rewrite lookup_insert_eq|by rewrite lookup_insert_ne|done|done]. }
  assert (Hq : forall x, pr_queued (settle r p (PBroken reason)) !! x = if decide (x = p) then None else pr_queued r !! x).
  { intros x. cbn. destruct (decide (x = p)) as [->|]; [by rewrite lookup_delete_eq|by rewrite lookup_delete_ne]. }
  split.
  - intros x. rewrite Hq. destruct (decide _); [by left|by right].
  - intros x. rewrite Hs. destruct (decide (x = p)) as [->|]; [by rewrite fmap_is_Some|done].
  - intros x. rewrite Hs. destruct (decide (x = p)) as [->|]; [|by left].
    destruct (pr_promises r !! p) eqn:E; [right|by left]. split; [|apply rtc_refl]. exists reason. by rewrite Hs, decide_True.
  - intros x q Hx. rewrite Hq. destruct (decide (x = p)) as [->|]; [intros _; apply rtc_refl|congruence].
  - rewrite Hq, decide_True by done. split; [done|]. intros [s Es]. exists reason. by rewrite Hs, decide_True, Es.
  - intros x q msg y Hx. rewrite Hq. destruct (decide (x = p)) as [->|]; [|congruence]. intros _ Hm Hno. exfalso.
    apply Hno; [done|]. unfold queue_of. by rewrite Hx.
  - cbn. apply owed_delete.
  - rewrite (queued_delete r p (PBroken reason)), length_app. lia.
Qed.

(** A message that wants no result, or one at a promise that is not here. *)
Lemma cascade_skip r p msg todo ri ns notice : cascade r p (msg :: todo) ri ns ->
  (forall y, pm_result msg = Some y -> pr_promises r !! y = None) -> notified notice = option_list (owed_by msg) ->
  cascade r p todo ri (ns ++ notice).
Proof.
  intros [H1 H2 H3 H4 H5 H6 H7 H8] Hno Hn. split; try done.
  - intros x q m y Hx Hx' Hm Hnot Hy Hdom. destruct (decide (x = p /\ m = msg)) as [[-> ->]|Hne].
    + rewrite (Hno y Hy) in Hdom. by destruct Hdom.
    + apply (H6 x q m y); try done. intros ->. intros [->|?]%elem_of_cons; [by apply Hne|by apply Hnot].
  - rewrite H7. unfold notified in *. rewrite fmap_app, Hn, <-!(assoc_L (++)). f_equiv. cbn [omap list_omap].
    destruct (owed_by msg); done.
Qed.

Lemma edge_shrinks r ri : (forall x, pr_queued ri !! x = None \/ pr_queued ri !! x = pr_queued r !! x) ->
  (forall x, is_Some (pr_promises ri !! x) <-> is_Some (pr_promises r !! x)) -> forall x y, edge ri x y -> edge r x y.
Proof.
  intros Hq Hd x y (msg & Hm & Hr & Hs). exists msg. split_and!; [|done|by apply Hd]. unfold queue_of in *.
  destruct (Hq x) as [E|E]; rewrite E in Hm; [by apply elem_of_nil in Hm|done].
Qed.

(** A message whose result promise is here, with what breaking that one did. *)
Lemma cascade_into r p msg todo ri ns y rj inner notice : msg ∈ queue_of r p -> pm_result msg = Some y ->
  is_Some (pr_promises r !! y) -> cascade r p (msg :: todo) ri ns -> cascade ri y [] rj inner ->
  notified notice = option_list (owed_by msg) -> cascade r p todo rj (ns ++ notice ++ inner).
Proof.
  intros Hmsg Hres Hy [H1 H2 H3 H4 H5 H6 H7 H8] [I1 I2 I3 I4 I5 I6 I7 I8] Hn.
  assert (Hpy : rtc (edge r) p y) by (apply rtc_once; by exists msg).
  assert (Hreach : forall x, rtc (edge ri) y x -> rtc (edge r) p x).
  { intros x Hx. etrans; [exact Hpy|]. eapply rtc_subrel; [|exact Hx]. by apply edge_shrinks. }
  assert (Hkeep : forall x, is_broken ri x -> is_broken rj x) by (intros x [z Hz]; destruct (I3 x) as [E|[? _]]; [exists z; congruence|done]).
  assert (Hgone : forall x, pr_queued ri !! x = None -> pr_queued rj !! x = None) by (intros x Hx; destruct (I1 x); congruence).
  assert (Hbr : is_broken rj y) by (apply I5, H2, Hy).
  split.
  - intros x. destruct (I1 x) as [?|E]; [by left|]. rewrite E. apply H1.
  - intros x. by rewrite I2, H2.
  - intros x. destruct (I3 x) as [E|[Hb Hr]]; [|right; split; [done|by apply Hreach]]. destruct (H3 x) as [E'|[Hb Hr]]; [left; congruence|].
    right. split; [by apply Hkeep|done].
  - intros x q Hx Hx'. destruct (pr_queued ri !! x) as [q'|] eqn:Ei; [by apply Hreach, (I4 x q')|by apply (H4 x q)].
  - destruct H5 as [Ha Hb]. split; [by apply Hgone|]. intros Hp. by apply Hkeep, Hb.
  - intros x q m z Hx Hx' Hm Hnot Hz Hdom. destruct (decide (x = p /\ m = msg)) as [[-> ->]|Hne].
    { rewrite Hres in Hz. injection Hz as <-. split; [apply I5|done]. }
    destruct (pr_queued ri !! x) as [q'|] eqn:Ei.
    + destruct (H1 x) as [E|E]; [congruence|]. assert (q' = q) as -> by congruence.
      apply (I6 x q m z); [done..| |done|by apply H2]. intros _. apply not_elem_of_nil.
    + destruct (H6 x q m z) as [Ha Hb]; try done; [|split; [by apply Hgone|by apply Hkeep]].
      intros ->. intros [->|?]%elem_of_cons; [by apply Hne|by apply Hnot].
  - rewrite H7, I7. unfold notified in *. rewrite !fmap_app, Hn. cbn [omap list_omap]. destruct (owed_by msg) as [o|]; cbn [option_list app].
    + solve_Permutation.
    + solve_Permutation.
  - lia.
Qed.

(** One message of the loop of [break_loop]. *)
Definition break_one (fuel : nat) (p : Z) (reason : bytes) (acc : option (PipelineRegistry * list BrokenPromiseNotification))
    (msg : PipelinedMessage) : option (PipelineRegistry * list BrokenPromiseNotification) :=
  '(r, notices) ← acc;
  match pm_result msg with
  | None => Some (r, notices)
  | Some result_id =>
      let notices := notices ++ [mkNotice result_id (cascade_reason p reason) (pm_sender msg)] in
      match pr_promises r !! result_id with
      | None => Some (r, notices)
      | Some _ => '(r, inner) ← break_loop fuel r result_id (cascade_reason p reason); Some (r, notices ++ inner)
      end
  end.

Lemma break_loop_ok fuel : forall r p reason, (length (all_queued r) < fuel)%nat ->
  exists r' ns, break_loop fuel r p reason = Some (r', ns) /\ cascade r p [] r' ns.
Proof.
  induction fuel as [|fuel IH]; intros r p reason Hf; [lia|].
  change (break_loop (S fuel) r p reason) with (foldl (break_one fuel p reason) (Some (settle r p (PBroken reason), [])) (queue_of r p)).
  assert (Hfold : forall todo ri ns, (forall msg, msg ∈ todo -> msg ∈ queue_of r p) -> cascade r p todo ri ns ->
    exists r' ns', foldl (break_one fuel p reason) (Some (ri, ns)) todo = Some (r', ns') /\ cascade r p [] r' ns').
  { induction todo as [|msg todo IHt]; intros ri ns Hin Hc; cbn [foldl]; [by exists ri, ns|].
    assert (Hm : msg ∈ queue_of r p) by apply Hin, list_elem_of_here.
    assert (Hin' : forall m, m ∈ todo -> m ∈ queue_of r p) by (intros m ?; by apply Hin, list_elem_of_further).
    unfold break_one at 2. cbn [mbind option_bind]. destruct (pm_result msg) as [y|] eqn:Ey.
    2: { apply IHt; [done|]. rewrite <-(app_nil_r ns). eapply cascade_skip; [done|congruence|]. unfold owed_by. by rewrite Ey. }
    destruct (pr_promises ri !! y) as [s|] eqn:Es.
    - assert (Hlen : (length (all_queued ri) < fuel)%nat).
      { pose proof (ca_length _ _ _ _ _ Hc). apply list_elem_of_lookup_1 in Hm as [i Hi]. apply lookup_lt_Some in Hi. lia. }
      destruct (IH ri y (cascade_reason p reason) Hlen) as (rj & inner & -> & Hj). cbn [mbind option_bind].
      apply IHt; [done|]. rewrite <-(assoc_L (++)). eapply cascade_into; [done|done| |done|done|unfold owed_by; by rewrite Ey].
      apply (ca_dom _ _ _ _ _ Hc). by rewrite Es.
    - apply IHt; [done|]. eapply cascade_skip; [done| |unfold owed_by; by rewrite Ey].
      intros z Hz. assert (z = y) as -> by congruence. destruct (pr_promises r !! y) eqn:Er; [|done].
      assert (is_Some (pr_promises ri !! y)) as [? ?] by (apply (ca_dom _ _ _ _ _ Hc); by rewrite Er). congruence. }
  apply Hfold; [done|apply cascade_start].
Qed.

Lemma cascade_reaches r p r' ns x : cascade r p [] r' ns -> rtc (edge r) p x ->
  pr_queued r' !! x = None /\ (is_Some (pr_promises r !! x) -> is_broken r' x).
Proof.
  intros [H1 H2 H3 H4 H5 H6 H7 H8] Hr. revert x Hr. apply (rtc_ind_r (fun x => pr_queued r' !! x = None /\ (is_Some (pr_promises r !! x) -> is_broken r' x))); [done|].
  intros x y _ (msg & Hm & Hres & Hdom) [Hx _]. unfold queue_of in Hm. destruct (pr_queued r !! x) as [q|] eqn:Eq; [|by apply elem_of_nil in Hm].
  destruct (H6 x q msg y) as [Ha Hb]; try done. intros _. apply not_elem_of_nil.
Qed.

(** C18: breaking a promise always returns.  Exactly the queues it reaches through
    the results that queued messages wait for are emptied, exactly the promises so
    reached are broken, and each emptied message that owed a result is notified to
    its sender exactly once; all else is as before. *)
Theorem break_cascade_exact (r : PipelineRegistry) (p : Z) (reason : bytes) : exists r' ns,
  pipeline_break_promise r p reason = Some (r', ns) /\
  (forall x, rtc (edge r) p x -> pr_queued r' !! x = None /\ (is_Some (pr_promises r !! x) -> is_broken r' x)) /\
  (forall x, ~ rtc (edge r) p x -> pr_queued r' !! x = pr_queued r !! x /\ pr_promises r' !! x = pr_promises r !! x) /\
  (forall x, pr_promises r !! x = None -> pr_promises r' !! x = None) /\
  owed r ≡ₚ notified ns ++ owed r'.
Proof.
  destruct (break_loop_ok (S (length (all_queued r))) r p reason) as (r' & ns & E & Hc); [lia|]. exists r', ns.
  split; [done|]. split_and!.
  - intros x. by eapply cascade_reaches.
  - destruct Hc as [H1 H2 H3 H4 H5 H6 H7 H8]. intros x Hx. split; [|by destruct (H3 x) as [?|[_ ?]]].
    destruct (H1 x) as [E1|?]; [|done]. rewrite E1. destruct (pr_queued r !! x) as [q|] eqn:Eq; [|done]. by destruct Hx; eapply H4.
  - intros x Hx. destruct (pr_promises r' !! x) eqn:E'; [|done]. assert (is_Some (pr_promises r !! x)) as [? ?]; [|congruence].
    apply (ca_dom _ _ _ _ _ Hc). by rewrite E'.
  - by destruct Hc.
Qed.

(** ** Delivery *)

Lemma take_slots_sub order : forall slots, take_slots slots order ⊆+ omap id slots.
Proof.
  induction order as [|i order IH]; intros slots; cbn [take_slots]; [apply submseteq_nil_l|].
  destruct (slots !! i) as [[msg|]|] eqn:E; [|apply IH..].
  rewrite <-(take_drop_middle _ _ _ E) at 2. rewrite omap_app. cbn [omap list_omap id]. rewrite <-Permutation_middle.
  apply submseteq_skip. etrans; [apply IH|]. rewrite insert_take_drop by (by eapply lookup_lt_Some). by rewrite omap_app.
Qed.

Lemma omap_some (l : list PipelinedMessage) : omap id (Some <$> l) = l.
Proof. induction l as [|x l IH]; cbn; [done|by f_equal]. Qed.

Lemma reorder_sub drained out : reorder drained out ⊆+ drained.
Proof.
  unfold reorder. repeat case_match; try done; rewrite <-(omap_some drained) at 2; apply take_slots_sub.
Qed.

(** Resolving a promise hands out what was sent to it, each message at most
    once and none that was not sent, whatever the gate replies, and in the order of
    sending when there is no gate or it keeps the queue; the queue is then empty
    and no other promise or queue is touched. *)
Theorem resolve_delivers_once `{CaptpGate} (r : PipelineRegistry) (p : Z) (cell : bytes) :
  let '(r', msgs) := pipeline_resolve_promise r p cell in
  msgs ⊆+ queue_of r p /\ (captp_gate = None -> msgs = queue_of r p) /\
  (forall r1 msgs1, pipeline_resolve_promise r' p cell = (r1, msgs1) -> msgs1 = []) /\
  (is_Some (pr_promises r !! p) -> pr_promises r' !! p = Some (PFulfilled cell)) /\
  forall x, x <> p -> queue_of r' x = queue_of r x /\ pr_promises r' !! x = pr_promises r !! x.
Proof.
  unfold pipeline_resolve_promise. assert (Hsub : forall q b, verified_drain_reorder q b ⊆+ q).
  { intros q b. unfold verified_drain_reorder. repeat case_match; try done. apply reorder_sub. }
  split_and!.
  - apply Hsub.
  - intros E. unfold verified_drain_reorder. by rewrite E.
  - intros r1 msgs1 [= _ <-]. unfold queue_of, settle at 1. cbn [pr_queued]. rewrite lookup_delete_eq.
    apply submseteq_nil_r. apply Hsub.
  - intros [s Es]. cbn. by rewrite Es, lookup_insert_eq.
  - intros x Hx. unfold queue_of, settle. cbn [pr_queued pr_promises]. rewrite lookup_delete_ne by done. split; [done|].
    destruct (pr_promises r !! p); [by rewrite lookup_insert_ne|done].
Qed.

(** A message for a promise that is not broken joins the end of its queue; another
    is refused and changes nothing. *)
Lemma pipeline_message_cases r msg r' res : pipeline_message r msg = (r', res) ->
  (res = Ok tt /\ is_Some (pr_promises r !! pm_target msg) /\ ~ is_broken r (pm_target msg) /\ r' = queue_message r msg) \/
  ((exists e, res = Err e) /\ (pr_promises r !! pm_target msg = None \/ is_broken r (pm_target msg)) /\ r' = r).
Proof.
  unfold pipeline_message, is_broken. destruct (pr_promises r !! pm_target msg) as [[]|] eqn:E; intros [= <- <-]; naive_solver.
Qed.

(** ** Chains *)

(** Known numbers are below the next one. *)
Definition registry_ok (r : PipelineRegistry) : Prop :=
  (forall x s, pr_promises r !! x = Some s -> x < pr_next r) /\ (forall x q, pr_queued r !! x = Some q -> x < pr_next r).

Lemma create_queue_message r msg id r1 : registry_ok r -> pipeline_create_promise r = Some (r1, id) -> pm_target msg < id ->
  is_Some (pr_promises r !! pm_target msg) -> ~ is_broken r (pm_target msg) -> pm_result msg = Some id ->
  id = pr_next r /\ exists r2, pipeline_message r1 msg = (r2, Ok tt) /\ registry_ok r2 /\ pr_next r2 = pr_next r + 1 /\
  (forall x, pr_promises r2 !! x = if decide (x = id) then Some PPending else pr_promises r !! x) /\
  (forall x y, edge r x y -> edge r2 x y) /\ edge r2 (pm_target msg) id.
Proof.
  intros [Hp Hq] Hc Ht Hs Hb Hres. unfold pipeline_create_promise in Hc. destruct (checked_add_u64 _ _) as [n|] eqn:En; [|done].
  apply checked_add_u64_spec in En as [-> _]. injection Hc as <- <-. split; [done|].
  destruct Hs as [s Es]. assert (Hns : forall z, s <> PBroken z) by (intros z ->; destruct Hb; by eexists).
  set (r1 := mkRegistry _ _ _). assert (Hm : pipeline_message r1 msg = (queue_message r1 msg, Ok tt)).
  { unfold pipeline_message, r1. cbn [pr_promises]. rewrite lookup_insert_ne, Es by lia. destruct s; [done..|by destruct (Hns reason)]. }
  exists (queue_message r1 msg). split; [done|]. clear Hm. unfold r1, queue_message. cbn [pr_queued pr_promises pr_next].
  assert (Hpr : forall x, <[pr_next r := PPending]> (pr_promises r) !! x = if decide (x = pr_next r) then Some PPending else pr_promises r !! x).
  { intros x. destruct (decide (x = pr_next r)) as [->|]; [by rewrite lookup_insert_eq|by rewrite lookup_insert_ne]. }
  assert (Hfresh : pr_queued r !! pr_next r = None) by (destruct (pr_queued r !! pr_next r) eqn:E; [apply Hq in E; lia|done]).
  split_and!.
  - split; cbn [pr_queued pr_promises pr_next]; intros x z.
    + rewrite Hpr. destruct (decide _) as [->|]; [lia|]. intros Hz%Hp. lia.
    + destruct (decide (x = pm_target msg)) as [->|]; [lia|]. rewrite lookup_insert_ne by done.
      destruct (decide (x = pr_next r)) as [->|]; [lia|]. rewrite lookup_insert_ne by done. intros Hz%Hq. lia.
  - done.
  - done.
  - intros x y (m & Hm & Hy & Hd). exists m. split_and!; [|done|cbn [pr_promises]; rewrite Hpr; by destruct (decide _)].
    unfold queue_of in *. cbn [pr_queued]. destruct (decide (x = pm_target msg)) as [->|].
    + rewrite lookup_insert_eq, lookup_insert_ne by lia. cbn. apply elem_of_app. by left.
    + rewrite lookup_insert_ne by done. destruct (decide (x = pr_next r)) as [->|]; [rewrite Hfresh in Hm; by apply elem_of_nil in Hm|].
      by rewrite lookup_insert_ne.
  - exists msg. split_and!; [|done|cbn [pr_promises]; rewrite Hpr, decide_True by done; by eexists].
    unfold queue_of. cbn [pr_queued]. rewrite lookup_insert_eq. cbn. apply elem_of_app. right. apply list_elem_of_here.
Qed.

Lemma chain_loop_ok steps : forall r target sender, registry_ok r -> is_Some (pr_promises r !! target) -> ~ is_broken r target ->
  pr_next r + Z.of_nat (length steps) <= u64_max -> target < pr_next r -> exists r' last, chain_loop r target steps sender = Some (r', last) /\
  registry_ok r' /\ rtc (edge r') target last /\ last = (if decide (steps = []) then target else pr_next r + Z.of_nat (length steps) - 1) /\
  (forall x, x < pr_next r -> pr_promises r' !! x = pr_promises r !! x) /\ (forall x y, edge r x y -> edge r' x y) /\
  (forall x, pr_next r <= x < pr_next r + Z.of_nat (length steps) -> pr_promises r' !! x = Some PPending /\ rtc (edge r') target x).
Proof.
  induction steps as [|action steps IH]; intros r target sender Hr Hs Hb Hmax Ht; cbn [chain_loop length] in *.
  { exists r, target. split_and!; try done. intros x Hx. lia. }
  destruct (pipeline_create_promise r) as [[r1 id]|] eqn:Ec.
  2: { unfold pipeline_create_promise, checked_add_u64 in Ec. rewrite (proj2 (Z.leb_le _ _)) in Ec by lia. done. }
  assert (Hid : id = pr_next r) by (unfold pipeline_create_promise in Ec; destruct (checked_add_u64 _ _); [by injection Ec|done]).
  destruct (create_queue_message r (mkMessage target action (Some id) sender) id r1 Hr Ec ltac:(cbn; lia) Hs Hb eq_refl)
    as (_ & r2 & Em & Hr2 & Hn2 & Hp2 & He2 & Hedge). cbn [mbind option_bind]. rewrite Em. cbn [pm_target] in *. subst id.
  destruct (IH r2 (pr_next r) sender Hr2) as (r' & last & -> & Hr' & Hreach & Hlast & Hold & Hedges & Hnew);
    [rewrite Hp2, decide_True by done; by eexists|intros [z Hz]; by rewrite Hp2, decide_True in Hz|lia|lia|].
  assert (Hfirst : edge r' target (pr_next r)) by (by apply Hedges). exists r', last. split_and!; [done|done| | | | |].
  - eapply rtc_l; [exact Hfirst|exact Hreach].
  - rewrite (decide_False (P := action :: steps = [])), Hlast, Hn2 by done. destruct (decide (steps = [])) as [->|]; cbn [length]; lia.
  - intros x Hx. rewrite Hold by lia. by rewrite Hp2, decide_False by lia.
  - intros x y Hxy. by apply Hedges, He2.
  - intros x Hx. destruct (decide (x = pr_next r)) as [->|Hne].
    + rewrite Hold by lia. rewrite Hp2, decide_True by done. split; [done|by apply rtc_once].
    + destruct (Hnew x) as [Ha Hb']; [lia|]. split; [done|]. by eapply rtc_l.
Qed.

(** A chain on a promise that is known and not broken makes one pending promise
    per step; breaking the promise it starts from breaks every one of them. *)
Theorem broken_chain_breaks_all (r : PipelineRegistry) (initial : Z) (steps : list PipelinedAction) (sender reason : bytes) :
  registry_ok r -> steps <> [] -> is_Some (pr_promises r !! initial) -> ~ is_broken r initial ->
  pr_next r + Z.of_nat (length steps) <= u64_max ->
  exists r1, pipeline_chain r initial steps sender = Some (r1, Ok (pr_next r + Z.of_nat (length steps) - 1)) /\
    (forall x, pr_next r <= x < pr_next r + Z.of_nat (length steps) -> pr_promises r1 !! x = Some PPending) /\
    (forall x, x < pr_next r -> pr_promises r1 !! x = pr_promises r !! x) /\
    exists r2 ns, pipeline_break_promise r1 initial reason = Some (r2, ns) /\
      forall x, pr_next r <= x < pr_next r + Z.of_nat (length steps) -> is_broken r2 x.
Proof.
  intros Hr Hne Hs Hb Hmax. assert (Hlt : initial < pr_next r) by (destruct Hs as [s Es]; by apply (proj1 Hr) in Es).
  destruct (chain_loop_ok steps r initial sender Hr Hs Hb Hmax Hlt) as (r1 & last & E & _ & _ & Hlast & Hold & _ & Hnew).
  rewrite decide_False in Hlast by done. exists r1. split_and!.
  - unfold pipeline_chain. destruct steps as [|a steps]; [done|]. destruct Hs as [s Es]. rewrite Es.
    destruct s as [| |z]; [by rewrite E, <-Hlast..|destruct Hb; by exists z].
  - intros x Hx. by apply Hnew.
  - done.
  - destruct (break_cascade_exact r1 initial reason) as (r2 & ns & E2 & Hreach & _). exists r2, ns. split; [done|].
    intros x Hx. destruct (Hnew x Hx) as [Ep Hrx]. apply (Hreach x Hrx). by rewrite Ep.
Qed.

(** ** What the registry and the bridge do not check *)

(** Settled promises are settled again: a broken one can be fulfilled and a
    fulfilled one broken. *)
Theorem settled_promise_overturned `{CaptpGate} (r : PipelineRegistry) (p : Z) (cell reason : bytes) : is_Some (pr_promises r !! p) ->
  pr_promises (pipeline_resolve_promise r p cell).1 !! p = Some (PFulfilled cell) /\
  exists r' ns, pipeline_break_promise (pipeline_resolve_promise r p cell).1 p reason = Some (r', ns) /\ is_broken r' p.
Proof.
  intros Hp. assert (E : pr_promises (pipeline_resolve_promise r p cell).1 !! p = Some (PFulfilled cell)).
  { cbn. destruct Hp as [s ->]. by rewrite lookup_insert_eq. }
  split; [done|]. destruct (break_cascade_exact (pipeline_resolve_promise r p cell).1 p reason) as (r' & ns & Eb & Hr & _).
  exists r', ns. split; [done|]. apply (Hr p); [apply rtc_refl|by rewrite E].
Qed.

(** The peer that reports an outcome need not be the one it was asked of. *)
Lemma any_peer_resolves `{CaptpGate} (b : CrossFedPipelineBridge) (from from' : bytes) (p : Z) (cell : bytes) :
  on_remote_resolution b from p cell = on_remote_resolution b from' p cell.
Proof. reflexivity. Qed.

#[local] Instance pipeline_no_gate : CaptpGate := None.

Definition step (m : string) : PipelinedAction := mkAction m [] [].

(** Federation 1 chains two steps to promise 5 of federation 2, which has a
    promise of its own under the number the chain gives its first result: the
    second step is delivered to what that promise resolves to. *)
Definition chain_sender : CrossFedPipelineBridge :=
  default bridge_new (fst <$> pipeline_chain_to_remote (with_local_federation [1]) [2] 5 [step "open"; step "write"]).

Definition chain_receiver : CrossFedPipelineBridge :=
  foldl (fun b m => match m with
                    | (_, PipelineToPromise p a res from) => (on_pipeline_message b from p a res).1
                    | _ => b end)
    (default bridge_new (fst <$> pipeline_to_remote (with_local_federation [2]) [3] 9 (step "other"))) (drain_outbox chain_sender).2.

Example chain_step_misrouted :
  (drain_outbox chain_sender).2 = [([2], PipelineToPromise 5 (step "open") (Some 0) [1]); ([2], PipelineToPromise 0 (step "write") (Some 1) [1])] /\
  (on_remote_resolution chain_receiver [3] 0 [77]).2 = [mkMessage 0 (step "write") (Some 1) [1]] /\
  (resolve_local_promise chain_receiver 5 [88]).2 = [mkMessage 5 (step "open") (Some 0) [1]].
Proof. by vm_compute. Qed.

(** A promise with a chain of two steps on it. *)
Definition one_promise : PipelineRegistry := default registry_new (fst <$> pipeline_create_promise registry_new).

Lemma one_promise_ok : registry_ok one_promise.
Proof.
  change one_promise with (mkRegistry {[ 0 := [] ]} {[ 0 := PPending ]} 1).
  split; cbn [pr_promises pr_queued pr_next]; intros x z [<- _]%lookup_singleton_Some; lia.
Qed.

Lemma broken_chain_breaks_all_witness : exists r1, pipeline_chain one_promise 0 [step "open"; step "write"] [1] = Some (r1, Ok 2).
Proof.
  assert (Hs : is_Some (pr_promises one_promise !! 0)) by (exists PPending; vm_compute; reflexivity).
  assert (Hb : ~ is_broken one_promise 0) by (intros [z Hz]; vm_compute in Hz; discriminate Hz).
  destruct (broken_chain_breaks_all one_promise 0 [step "open"; step "write"] [1] [] one_promise_ok ltac:(discriminate) Hs Hb
    ltac:(vm_compute; discriminate)) as (r1 & E & _).
  exists r1. exact E.
Defined.

Lemma settled_promise_overturned_witness : exists r' ns,
  pipeline_break_promise (pipeline_resolve_promise one_promise 0 [7]).1 0 [] = Some (r', ns) /\ is_broken r' 0.
Proof.
  assert (Hs : is_Some (pr_promises one_promise !! 0)) by (exists PPending; vm_compute; reflexivity).
  exact (proj2 (settled_promise_overturned one_promise 0 [7] [] Hs)).
Defined.
