(* ===== verification/Macaroon.v ===== *)
(** * Macaroons

    Models the macaroon/ crate: [crypto.rs], [caveat.rs], [caveat_3p.rs] and
    [macaroon.rs], tokens whose caveats are chained by a MAC, with third-party
    caveats and their discharges; [action.rs] and [resource.rs], masks of actions
    per resource; and the token form of [format.rs].

    The primitives (HMAC-SHA256, SHA-256, XChaCha20-Poly1305) and the encodings
    (MsgPack, base 64) are external: [MacCrypto] and [MacCodec].  Random bytes and
    the clock are arguments.  An outer [None] is the overflow of the age of a
    discharge.  The texts of errors are shortened. *)

From stdpp Require Import base decidable option list gmap strings.
From Stdlib Require Import ZArith Lia.
From S2P Require Import Prelude VerifiedGate.

Open Scope Z_scope.

Inductive MacaroonError : Type :=
| SignatureInvalid
| CaveatNotSatisfied (reason : string)
| MissingDischarge (location : bytes)
| DischargeInvalid (location : bytes)
| DischargeUnbound
| DecryptionFailed (reason : string)
| EncryptionFailed (reason : string)
| MacEncoding (reason : string)
| Malformed (reason : string)
| UnknownCaveatType (t : Z)
| InvalidKeyMaterial (reason : string).

(** ** Caveats *)

Definition CAV_PLATFORM_MIN : Z := 0.
Definition CAV_PLATFORM_MAX : Z := 31.
Definition CAV_USER_REG_MIN : Z := 32.
Definition CAV_USER_REG_MAX : Z := 47.
Definition CAV_USER_MIN : Z := 48.
Definition CAV_USER_MAX : Z := 253.
Definition CAV_THIRD_PARTY : Z := 254.
Definition CAV_BIND_TO_PARENT : Z := 255.

Record WireCaveat : Type := mkCaveat { caveat_type : Z; caveat_body : bytes }.

#[export] Instance WireCaveat_eq_dec : EqDecision WireCaveat.
Proof. solve_decision. Defined.

Definition wire_encode (w : WireCaveat) : bytes := le_bytes 2 (caveat_type w) ++ caveat_body w.

Definition is_third_party (t : Z) : bool := t =? CAV_THIRD_PARTY.

Definition is_first_party (w : WireCaveat) : bool :=
  negb (caveat_type w =? CAV_THIRD_PARTY) && negb (caveat_type w =? CAV_BIND_TO_PARENT).

Definition has_third_party (cs : list WireCaveat) : bool := existsb (fun w => is_third_party (caveat_type w)) cs.
Definition third_party_caveats (cs : list WireCaveat) : list WireCaveat := List.filter (fun w => is_third_party (caveat_type w)) cs.
Definition first_party_caveats (cs : list WireCaveat) : list WireCaveat := List.filter is_first_party cs.

(** ** Primitives and encodings *)

Class MacCrypto := {
  hmac_sha256 : bytes -> bytes -> bytes;
  sha256 : bytes -> bytes;
  aead_encrypt : bytes -> bytes -> bytes -> result bytes string;
  aead_decrypt : bytes -> bytes -> bytes -> result bytes string;
}.

Record Nonce : Type := mkNonce { kid : bytes; rnd : bytes; created_at : Z }.
Record ThirdPartyCaveat : Type := mkThird { tp_location : bytes; tp_verifier_key : bytes; tp_ticket : bytes }.
Record WireTicket : Type := mkTicket { wt_discharge_key : bytes; wt_caveats : list WireCaveat }.

Class MacCodec := {
  encode_nonce : Nonce -> bytes;
  encode_third : ThirdPartyCaveat -> result bytes string;
  decode_third : bytes -> result ThirdPartyCaveat string;
  encode_ticket : WireTicket -> result bytes string;
  decode_ticket : bytes -> result WireTicket string;
}.

Definition MAX_DISCHARGE_AGE : Z := 300.

Record Macaroon : Type := mkMacaroon {
  mac_nonce : Nonce;
  mac_location : bytes;
  mac_caveats : list WireCaveat;
  mac_tail : bytes;
}.

Section Macaroons.
Context `{HC : MacCrypto} `{HD : MacCodec}.

Definition constant_time_eq (a b : bytes) : bool := bool_decide (a = b).

(** [nonce24] is what the generator returns. *)
Definition seal (key plaintext nonce24 : bytes) : result bytes MacaroonError :=
  match aead_encrypt key nonce24 plaintext with
  | Err e => Err (EncryptionFailed e)
  | Ok ciphertext => Ok (nonce24 ++ ciphertext)
  end.

Definition unseal (key sealed : bytes) : result bytes MacaroonError :=
  if (length sealed <? 24)%nat then Err (DecryptionFailed "sealed data too short")
  else match aead_decrypt key (take 24 sealed) (drop 24 sealed) with
       | Err e => Err (DecryptionFailed e)
       | Ok p => Ok p
       end.

Definition binding_hash (tail : bytes) : bytes := sha256 tail.

Definition binding_hash_eq (a b : bytes) : bool := if negb (length a =? 32)%nat then false else bool_decide (a = b).

(** *** Third-party caveats *)

(** [r] is the discharge key, [n1] and [n2] the nonces of the two boxes. *)
Definition third_new (location current_tail shared_key : bytes) (caveats : list WireCaveat) (r n1 n2 : bytes)
    : result (ThirdPartyCaveat * bytes) MacaroonError :=
  match encode_ticket (mkTicket r caveats) with
  | Err e => Err (MacEncoding e)
  | Ok plaintext =>
      match seal shared_key plaintext n1 with
      | Err e => Err e
      | Ok ticket =>
          match seal current_tail r n2 with
          | Err e => Err e
          | Ok vid => Ok (mkThird location vid ticket, r)
          end
      end
  end.

Definition decrypt_ticket (ticket shared_key : bytes) : result WireTicket MacaroonError :=
  match unseal shared_key ticket with
  | Err e => Err e
  | Ok p => match decode_ticket p with Err e => Err (MacEncoding e) | Ok t => Ok t end
  end.

Definition decrypt_verifier_key (verifier_key current_tail : bytes) : result bytes MacaroonError :=
  match unseal current_tail verifier_key with
  | Err e => Err e
  | Ok p => if negb (length p =? 32)%nat then Err (DecryptionFailed "discharge key must be 32 bytes") else Ok p
  end.

(** *** Construction and attenuation *)

Definition with_nonce (root_key : bytes) (nonce : Nonce) (location : bytes) : Macaroon :=
  mkMacaroon nonce location [] (hmac_sha256 root_key (encode_nonce nonce)).

Definition mac_new (root_key k location rnd : bytes) : Macaroon := with_nonce root_key (mkNonce k rnd 0) location.

(** The chain step of every operation that adds a caveat. *)
Definition add_first_party_wire (m : Macaroon) (w : WireCaveat) : Macaroon :=
  mkMacaroon (mac_nonce m) (mac_location m) (mac_caveats m ++ [w]) (hmac_sha256 (mac_tail m) (wire_encode w)).

Definition add_third_party (m : Macaroon) (location shared_key : bytes) (caveats : list WireCaveat) (r n1 n2 : bytes)
    : Macaroon * result unit MacaroonError :=
  match third_new location (mac_tail m) shared_key caveats r n1 n2 with
  | Err e => (m, Err e)
  | Ok (tp, _) =>
      match encode_third tp with
      | Err e => (m, Err (MacEncoding e))
      | Ok body => (add_first_party_wire m (mkCaveat CAV_THIRD_PARTY body), Ok tt)
      end
  end.

Definition bind_discharge (m discharge : Macaroon) : Macaroon :=
  add_first_party_wire discharge (mkCaveat CAV_BIND_TO_PARENT (binding_hash (mac_tail m))).

Definition create_discharge (ticket discharge_key location : bytes) (caveats : list WireCaveat) (rnd : bytes) (now : Z) : Macaroon :=
  foldl add_first_party_wire (with_nonce discharge_key (mkNonce ticket rnd now) location) caveats.

(** *** Verification *)

(** The loop of [verify_discharge]: the tail, the caveats collected, and whether a
    binding was seen. *)
Fixpoint discharge_loop (parent_tail current : bytes) (cs collected : list WireCaveat) (found : bool)
    : result (bytes * list WireCaveat * bool) MacaroonError :=
  match cs with
  | [] => Ok (current, collected, found)
  | w :: cs =>
      let next := hmac_sha256 current (wire_encode w) in
      if caveat_type w =? CAV_BIND_TO_PARENT
      then if binding_hash_eq (caveat_body w) (binding_hash parent_tail) then discharge_loop parent_tail next cs collected true
           else Err DischargeUnbound
      else if caveat_type w =? CAV_THIRD_PARTY then Err (Malformed "nested 3P caveats in discharge not yet supported")
      else discharge_loop parent_tail next cs (collected ++ [w]) found
  end.

Definition verify_discharge (d : Macaroon) (discharge_key parent_tail : bytes) (now : Z)
    : option (result (list WireCaveat) MacaroonError) :=
  if created_at (mac_nonce d) =? 0 then Some (Err (Malformed "discharge missing created_at timestamp"))
  else
    age ← checked_sub_i64 now (created_at (mac_nonce d));
    if negb ((0 <=? age) && (age <=? MAX_DISCHARGE_AGE)) then Some (Err (Malformed "discharge expired"))
    else
      Some (match discharge_loop parent_tail (hmac_sha256 discharge_key (encode_nonce (mac_nonce d))) (mac_caveats d) [] false with
            | Err e => Err e
            | Ok (current, collected, found) =>
                if negb (constant_time_eq current (mac_tail d)) then Err SignatureInvalid
                else if negb found then Err DischargeUnbound
                else Ok collected
            end).

Definition matching (ds : list Macaroon) (tp : ThirdPartyCaveat) : option Macaroon :=
  List.find (fun d => bool_decide (kid (mac_nonce d) = tp_ticket tp) && bool_decide (mac_location d = tp_location tp)) ds.

(** One third-party caveat: the caveats of its discharge. *)
Definition check_third (body current parent_tail : bytes) (ds : list Macaroon) (now : Z)
    : option (result (list WireCaveat) MacaroonError) :=
  match decode_third body with
  | Err e => Some (Err (MacEncoding e))
  | Ok tp =>
      match matching ds tp with
      | None => Some (Err (MissingDischarge (tp_location tp)))
      | Some d =>
          match decrypt_verifier_key (tp_verifier_key tp) current with
          | Err e => Some (Err e)
          | Ok key =>
              r ← verify_discharge d key parent_tail now;
              Some (match r with Ok cs => Ok cs | Err _ => Err (DischargeInvalid (tp_location tp)) end)
          end
      end
  end.

Fixpoint verify_loop (parent_tail : bytes) (ds : list Macaroon) (now : Z) (current : bytes) (cs collected : list WireCaveat)
    : option (result (bytes * list WireCaveat) MacaroonError) :=
  match cs with
  | [] => Some (Ok (current, collected))
  | w :: cs =>
      let next := hmac_sha256 current (wire_encode w) in
      if caveat_type w =? CAV_THIRD_PARTY
      then r ← check_third (caveat_body w) current parent_tail ds now;
           match r with
           | Err e => Some (Err e)
           | Ok more => verify_loop parent_tail ds now next cs (collected ++ more)
           end
      else if caveat_type w =? CAV_BIND_TO_PARENT then verify_loop parent_tail ds now next cs collected
      else verify_loop parent_tail ds now next cs (collected ++ [w])
  end.

Definition verify (m : Macaroon) (root_key : bytes) (ds : list Macaroon) (now : Z) : option (result (list WireCaveat) MacaroonError) :=
  r ← verify_loop (mac_tail m) ds now (hmac_sha256 root_key (encode_nonce (mac_nonce m))) (mac_caveats m) [];
  Some (match r with
        | Err e => Err e
        | Ok (current, collected) => if negb (constant_time_eq current (mac_tail m)) then Err SignatureInvalid else Ok collected
        end).

End Macaroons.

(** ** Actions and resources *)

Definition ACTION_NONE : Z := 0.
Definition ACTION_READ : Z := 1.
Definition ACTION_WRITE : Z := 2.
Definition ACTION_CREATE : Z := 4.
Definition ACTION_DELETE : Z := 8.
Definition ACTION_CONTROL : Z := 16.
Definition ACTION_ALL : Z := 31.

Definition action_from_bits (bits : Z) : Z := Z.land bits 31.
Definition action_contains (a b : Z) : bool := Z.land a b =? b.
Definition action_intersect (a b : Z) : Z := Z.land a b.
Definition action_union (a b : Z) : Z := Z.lor a b.
Definition action_is_empty (a : Z) : bool := a =? 0.

Definition action_char (c : Z) : Z :=
  if c =? 114 then ACTION_READ else if c =? 119 then ACTION_WRITE else if c =? 99 then ACTION_CREATE
  else if c =? 100 then ACTION_DELETE else if c =? 67 then ACTION_CONTROL else 0.

Definition action_parse (s : bytes) : Z :=
  if bool_decide (s = str_bytes "*") then ACTION_ALL else foldl (fun bits c => Z.lor bits (action_char c)) 0 s.

Definition action_display (a : Z) : bytes :=
  if a =? ACTION_ALL then str_bytes "*"
  else (if action_contains a ACTION_READ then str_bytes "r" else []) ++ (if action_contains a ACTION_WRITE then str_bytes "w" else []) ++
       (if action_contains a ACTION_CREATE then str_bytes "c" else []) ++ (if action_contains a ACTION_DELETE then str_bytes "d" else []) ++
       (if action_contains a ACTION_CONTROL then str_bytes "C" else []).

(** Resources by name; the default name is the wildcard. *)
Section Resources.
Context `{Countable K} (wild : K).

Definition resource_resolve (set : gmap K Z) (id : K) : option Z :=
  match set !! id, (if decide (id = wild) then None else set !! wild) with
  | Some e, Some w => Some (action_intersect e w)
  | Some e, None => Some e
  | None, w => w
  end.

(** [Ok] when the access is allowed. *)
Definition resource_prohibits (set : gmap K Z) (id : K) (action : Z) : result unit string :=
  match resource_resolve set id with
  | Some mask => if action_contains mask action then Ok tt else Err "insufficient permissions"
  | None => Err "resource not in set"
  end.

End Resources.

(** ** Tokens *)

Class Base64 := { b64_encode : bytes -> bytes; b64_decode : bytes -> result bytes string }.

Definition TOKEN_PREFIX : bytes := str_bytes "em2_".

Definition encode_token `{Base64} (binary : bytes) : bytes := TOKEN_PREFIX ++ b64_encode binary.

Definition decode_token `{Base64} (token : bytes) : result bytes MacaroonError :=
  match strip_prefix TOKEN_PREFIX token with
  | None => Err (Malformed "missing 'em2_' prefix")
  | Some b64 => match b64_decode b64 with Err e => Err (MacEncoding e) | Ok b => Ok b end
  end.

Definition AUTH_SCHEME : bytes := str_bytes "DreggV1".

Definition format_auth_header `{Base64} (permission : bytes) (discharges : list bytes) : bytes :=
  AUTH_SCHEME ++ str_bytes " " ++ join_with char_comma (encode_token permission :: (encode_token <$> discharges)).

(** ** The chain *)

Section Chain.
Context `{HC : MacCrypto} `{HD : MacCodec}.

(** The tag of a chain of caveats. *)
Definition fold_tag (tag : bytes) (cs : list WireCaveat) : bytes := foldl (fun t w => hmac_sha256 t (wire_encode w)) tag cs.
Definition chain_tag (root_key : bytes) (nonce : Nonce) (cs : list WireCaveat) : bytes :=
  fold_tag (hmac_sha256 root_key (encode_nonce nonce)) cs.

(** A macaroon as its issuer and its holders make it. *)
Definition well_tagged (root_key : bytes) (m : Macaroon) : Prop := mac_tail m = chain_tag root_key (mac_nonce m) (mac_caveats m).

Lemma fold_tag_app tag cs ds : fold_tag tag (cs ++ ds) = fold_tag (fold_tag tag cs) ds.
Proof. apply foldl_app. Qed.

Lemma with_nonce_tagged root nonce location : well_tagged root (with_nonce root nonce location).
Proof. done. Qed.

Lemma add_wire_tagged root m w : well_tagged root m -> well_tagged root (add_first_party_wire m w).
Proof. intros E. unfold well_tagged, chain_tag in *. cbn. by rewrite fold_tag_app, <-E. Qed.

Lemma discharge_loop_ok parent : forall cs cur collected found r, discharge_loop parent cur cs collected found = Ok r <->
  r = (fold_tag cur cs, collected ++ first_party_caveats cs, found || existsb (fun w => caveat_type w =? CAV_BIND_TO_PARENT) cs) /\
  (forall w, w ∈ cs -> caveat_type w <> CAV_THIRD_PARTY) /\
  (forall w, w ∈ cs -> caveat_type w = CAV_BIND_TO_PARENT -> binding_hash_eq (caveat_body w) (binding_hash parent) = true).
Proof.
  induction cs as [|w cs IH]; intros cur collected found r; cbn [discharge_loop first_party_caveats List.filter existsb fold_tag foldl].
  { rewrite app_nil_r, orb_false_r. split; [intros [= <-]; split_and!; [done|by intros w []%elem_of_nil..]|by intros [-> _]]. }
  unfold is_first_party at 1. destruct (Z.eqb_spec (caveat_type w) CAV_BIND_TO_PARENT) as [Eb|Eb].
  - rewrite (proj2 (Z.eqb_neq (caveat_type w) CAV_THIRD_PARTY)) by (rewrite Eb; done). cbn [negb andb orb]. rewrite orb_true_r.
    destruct (binding_hash_eq (caveat_body w) (binding_hash parent)) eqn:Eh; [rewrite IH|].
    + split; (intros (-> & H1 & H2); split_and!; [done| |]); [..|intros w' Hw'; apply H1; by apply list_elem_of_further|intros w' Hw'; apply H2; by apply list_elem_of_further];
        intros w' [->|Hw']%elem_of_cons; try (by apply H1); try (by apply H2); try done. by rewrite Eb.
    + split; [done|]. intros (_ & _ & H2). rewrite (H2 w (list_elem_of_here _ _) Eb) in Eh. done.
  - destruct (Z.eqb_spec (caveat_type w) CAV_THIRD_PARTY) as [Et|Et].
    + split; [done|]. intros (_ & H1 & _). by destruct (H1 w (list_elem_of_here _ _)).
    + cbn [negb andb orb]. rewrite IH, <-(assoc_L (++)). cbn [app].
      split; (intros (-> & H1 & H2); split_and!; [done| |]); [..|intros w' Hw'; apply H1; by apply list_elem_of_further|intros w' Hw'; apply H2; by apply list_elem_of_further];
        intros w' [->|Hw']%elem_of_cons; try (by apply H1); try (by apply H2); done.
Qed.

(** A discharge that is accepted. *)
Record discharged (d : Macaroon) (key parent : bytes) (now : Z) : Prop := {
  dc_fresh : created_at (mac_nonce d) <> 0 /\ 0 <= now - created_at (mac_nonce d) <= MAX_DISCHARGE_AGE;
  dc_tagged : well_tagged key d;
  dc_bound : exists w, w ∈ mac_caveats d /\ caveat_type w = CAV_BIND_TO_PARENT;
  dc_binds : forall w, w ∈ mac_caveats d -> caveat_type w = CAV_BIND_TO_PARENT -> caveat_body w = binding_hash parent /\ length (caveat_body w) = 32%nat;
  dc_flat : forall w, w ∈ mac_caveats d -> caveat_type w <> CAV_THIRD_PARTY;
}.

Lemma binding_hash_eq_iff a b : binding_hash_eq a b = true <-> a = b /\ length a = 32%nat.
Proof. unfold binding_hash_eq. destruct (Nat.eqb_spec (length a) 32); cbn [negb]; [rewrite bool_decide_eq_true; naive_solver|naive_solver]. Qed.

Lemma verify_discharge_ok d key parent now cs : verify_discharge d key parent now = Some (Ok cs) <->
  discharged d key parent now /\ cs = first_party_caveats (mac_caveats d).
Proof.
  unfold verify_discharge. destruct (Z.eqb_spec (created_at (mac_nonce d)) 0) as [E0|E0].
  { split; [done|]. by intros [[[? _] _ _ _ _] _]. }
  destruct (checked_sub_i64 now (created_at (mac_nonce d))) as [age|] eqn:Ea; cbn [mbind option_bind].
  2: { split; [done|]. intros [[[_ Hf] _ _ _ _] _]. exfalso. assert (Hs : checked_sub_i64 now (created_at (mac_nonce d)) = Some (now - created_at (mac_nonce d)));
    [|congruence]. apply checked_sub_i64_spec. split; [done|]. unfold is_i64, i64_min, i64_max, MAX_DISCHARGE_AGE in *. lia. }
  apply checked_sub_i64_spec in Ea as [-> _].
  destruct (Z.leb_spec 0 (now - created_at (mac_nonce d))), (Z.leb_spec (now - created_at (mac_nonce d)) MAX_DISCHARGE_AGE); cbn [negb andb];
    try (split; [done|intros [[[_ Hf] _ _ _ _] _]; lia]).
  pose proof (discharge_loop_ok parent (mac_caveats d) (hmac_sha256 key (encode_nonce (mac_nonce d))) [] false) as Hl.
  destruct (discharge_loop _ _ _ _ _) as [[[cur coll] found]|e] eqn:El.
  - destruct (proj1 (Hl _) eq_refl) as ([= -> -> ->] & Hflat & Hbind). cbn [app orb]. unfold constant_time_eq.
    case_bool_decide as Et; cbn [negb]; [|split; [done|intros [[_ Ht _ _ _] _]; by destruct Et]].
    destruct (existsb _ _) eqn:Ex; cbn [negb].
    + apply existsb_exists in Ex as (w & Hw%list_elem_of_In & Hb%Z.eqb_eq). split; [intros [= <-]; split; [|done]|by intros [_ ->]].
      split; [by split|done|by exists w| |done]. intros w' Hw' Hb'. apply binding_hash_eq_iff. by apply Hbind.
    + split; [done|]. intros [[_ _ (w & Hw & Hb) _ _] _]. rewrite (proj2 (existsb_exists _ _)) in Ex; [done|].
      exists w. split; [by apply list_elem_of_In|by apply Z.eqb_eq].
  - split; [done|]. intros [[_ _ _ Hb Hf] _]. assert (Err e = Ok (fold_tag (hmac_sha256 key (encode_nonce (mac_nonce d))) (mac_caveats d),
      [] ++ first_party_caveats (mac_caveats d), false || existsb (fun w => caveat_type w =? CAV_BIND_TO_PARENT) (mac_caveats d))); [|done].
    apply Hl. split_and!; [done|done|]. intros w Hw Ht. apply binding_hash_eq_iff. by apply Hb.
Qed.

End Chain.

(** ** What verification establishes *)

Section Verification.
Context `{HC : MacCrypto} `{HD : MacCodec}.

(** The caveats a chain of caveats leaves to be cleared, from the tag before it:
    its own, and those of the discharges of its third-party caveats. *)
Inductive collects (parent : bytes) (ds : list Macaroon) (now : Z) : bytes -> list WireCaveat -> list WireCaveat -> Prop :=
| co_nil cur : collects parent ds now cur [] []
| co_first cur w cs s : is_first_party w = true -> collects parent ds now (hmac_sha256 cur (wire_encode w)) cs s ->
    collects parent ds now cur (w :: cs) (w :: s)
| co_bind cur w cs s : caveat_type w = CAV_BIND_TO_PARENT -> collects parent ds now (hmac_sha256 cur (wire_encode w)) cs s ->
    collects parent ds now cur (w :: cs) s
| co_third cur w cs s tp d key : caveat_type w = CAV_THIRD_PARTY -> decode_third (caveat_body w) = Ok tp -> matching ds tp = Some d ->
    decrypt_verifier_key (tp_verifier_key tp) cur = Ok key -> discharged d key parent now ->
    collects parent ds now (hmac_sha256 cur (wire_encode w)) cs s ->
    collects parent ds now cur (w :: cs) (first_party_caveats (mac_caveats d) ++ s).

Lemma check_third_ok body cur parent ds now s : check_third body cur parent ds now = Some (Ok s) <->
  exists tp d key, decode_third body = Ok tp /\ matching ds tp = Some d /\ decrypt_verifier_key (tp_verifier_key tp) cur = Ok key /\
    discharged d key parent now /\ s = first_party_caveats (mac_caveats d).
Proof.
  unfold check_third. destruct (decode_third body) as [tp|e]; [|split; [done|by intros (? & ? & ? & ? & _)]].
  destruct (matching ds tp) as [d|] eqn:Em; [|split; [done|intros (? & ? & ? & [= <-] & ? & _); congruence]].
  destruct (decrypt_verifier_key (tp_verifier_key tp) cur) as [key|e] eqn:Ek; [|split; [done|intros (? & ? & ? & [= <-] & ? & ? & _); congruence]].
  destruct (verify_discharge d key parent now) as [[cs|e]|] eqn:Ev; cbn [mbind option_bind]; split.
  - intros [= <-]. apply verify_discharge_ok in Ev as [? ->]. by exists tp, d, key.
  - intros (? & ? & k' & [= <-] & ? & Hk & Hd & ->). assert (k' = key) as -> by congruence. simplify_eq. rewrite (proj2 (verify_discharge_ok _ _ _ _ _) (conj Hd eq_refl)) in Ev.
    congruence.
  - done.
  - intros (? & ? & k' & [= <-] & ? & Hk & Hd & ->). assert (k' = key) as -> by congruence. simplify_eq. by rewrite (proj2 (verify_discharge_ok _ _ _ _ _) (conj Hd eq_refl)) in Ev.
  - done.
  - intros (? & ? & k' & [= <-] & ? & Hk & Hd & ->). assert (k' = key) as -> by congruence. simplify_eq. by rewrite (proj2 (verify_discharge_ok _ _ _ _ _) (conj Hd eq_refl)) in Ev.
Qed.

Lemma verify_loop_ok parent ds now : forall cs cur collected t s,
  verify_loop parent ds now cur cs collected = Some (Ok (t, s)) <->
  t = fold_tag cur cs /\ exists s', collects parent ds now cur cs s' /\ s = collected ++ s'.
Proof.
  induction cs as [|w cs IH]; intros cur collected t s; cbn [verify_loop fold_tag foldl].
  { split; [intros [= <- <-]; split; [done|]; exists []; by rewrite app_nil_r; split; [constructor|]|].
    intros [-> (s' & Hs & ->)]. inversion Hs; subst. by rewrite app_nil_r. }
  destruct (Z.eqb_spec (caveat_type w) CAV_THIRD_PARTY) as [Et|Et].
  { destruct (check_third _ cur parent ds now) as [[more|e]|] eqn:Ec; cbn [mbind option_bind].
    - rewrite IH. pose proof Ec as Hc. apply check_third_ok in Hc as (tp & d & key & H1 & H2 & H3 & H4 & ->).
      split; intros [-> (s' & Hs & ->)]; (split; [done|]).
      + exists (first_party_caveats (mac_caveats d) ++ s'). rewrite <-(assoc_L (++)). split; [by eapply co_third|done].
      + inversion Hs as [|? ? ? ? Hf|? ? ? ? Hb|? ? ? s0 tp' d' key' ? H1' H2' H3' ? Hs']; subst.
        * unfold is_first_party in Hf. by rewrite Et in Hf.
        * by rewrite Et in Hb.
        * assert (tp' = tp) as -> by congruence. assert (d' = d) as -> by congruence. exists s0. split; [done|apply (assoc_L (++))].
    - split; [done|]. intros [_ (s' & Hs & _)]. inversion Hs as [|? ? ? ? Hf|? ? ? ? Hb|? ? ? s0 tp' d' key' ? H1' H2' H3' Hd Hs']; subst.
      + unfold is_first_party in Hf. by rewrite Et in Hf.
      + by rewrite Et in Hb.
      + rewrite (proj2 (check_third_ok _ _ _ _ _ (first_party_caveats (mac_caveats d')))) in Ec; [done|]. by exists tp', d', key'.
    - split; [done|]. intros [_ (s' & Hs & _)]. inversion Hs as [|? ? ? ? Hf|? ? ? ? Hb|? ? ? s0 tp' d' key' ? H1' H2' H3' Hd Hs']; subst.
      + unfold is_first_party in Hf. by rewrite Et in Hf.
      + by rewrite Et in Hb.
      + rewrite (proj2 (check_third_ok _ _ _ _ _ (first_party_caveats (mac_caveats d')))) in Ec; [done|]. by exists tp', d', key'. }
  destruct (Z.eqb_spec (caveat_type w) CAV_BIND_TO_PARENT) as [Eb|Eb]; rewrite IH; split; intros [-> (s' & Hs & ->)]; (split; [done|]).
  - exists s'. split; [by apply co_bind|done].
  - inversion Hs as [|? ? ? ? Hf|? ? ? ? Hb|]; subst; [unfold is_first_party in Hf; rewrite Eb in Hf; done|by exists s'|congruence].
  - exists (w :: s'). rewrite <-(assoc_L (++)). split; [apply co_first; [|done]|done]. unfold is_first_party.
    by rewrite (proj2 (Z.eqb_neq _ _)), (proj2 (Z.eqb_neq _ _)).
  - inversion Hs as [|? ? ? s0 Hf|? ? ? ? Hb|]; subst; [exists s0; by rewrite <-(assoc_L (++))|congruence|congruence].
Qed.

(** Verification succeeds exactly on a chain tagged from the root key, each of
    whose third-party caveats has a fresh discharge, tagged with the key sealed for
    the verifier and bound to this token; what it returns is what has to be
    cleared. *)
Lemma verify_ok m root ds now s : verify m root ds now = Some (Ok s) <->
  well_tagged root m /\ collects (mac_tail m) ds now (hmac_sha256 root (encode_nonce (mac_nonce m))) (mac_caveats m) s.
Proof.
  unfold verify. pose proof (verify_loop_ok (mac_tail m) ds now (mac_caveats m) (hmac_sha256 root (encode_nonce (mac_nonce m))) []) as Hl.
  destruct (verify_loop _ _ _ _ _ _) as [[[t c]|e]|] eqn:E; cbn [mbind option_bind].
  - destruct (proj1 (Hl t c) eq_refl) as [-> (s' & Hs & ->)]. unfold constant_time_eq, well_tagged, chain_tag. cbn [app] in *.
    case_bool_decide as Et; cbn [negb]; [|split; [done|intros [? _]; by destruct Et]]. split; [by intros [= <-]|].
    intros [_ Hs2]. pose proof (proj2 (Hl _ s) (conj eq_refl (ex_intro _ s (conj Hs2 eq_refl)))) as E2. by injection E2 as ->.
  - split; [done|]. intros [_ Hs2]. by pose proof (proj2 (Hl _ s) (conj eq_refl (ex_intro _ s (conj Hs2 eq_refl)))).
  - split; [done|]. intros [_ Hs2]. by pose proof (proj2 (Hl _ s) (conj eq_refl (ex_intro _ s (conj Hs2 eq_refl)))).
Qed.

Lemma collects_first parent ds now cur cs s : collects parent ds now cur cs s -> first_party_caveats cs `sublist_of` s.
Proof.
  unfold first_party_caveats.
  induction 1 as [|cur w cs s Hf _ IH|cur w cs s Hb _ IH|cur w cs s tp d key Ht _ _ _ _ _ IH]; cbn [List.filter]; [constructor|..].
  - rewrite Hf. by apply sublist_skip.
  - unfold is_first_party at 1. by rewrite Hb.
  - unfold is_first_party at 1. rewrite Ht. cbn. by apply sublist_inserts_l.
Qed.

Lemma collects_third parent ds now cur cs s w : collects parent ds now cur cs s -> w ∈ cs -> caveat_type w = CAV_THIRD_PARTY ->
  exists tp d key, decode_third (caveat_body w) = Ok tp /\ d ∈ ds /\ kid (mac_nonce d) = tp_ticket tp /\ discharged d key parent now /\
    forall c, c ∈ first_party_caveats (mac_caveats d) -> c ∈ s.
Proof.
  induction 1 as [|cur w' cs s Hf _ IH|cur w' cs s Hb _ IH|cur w' cs s tp d key Ht H1 H2 H3 H4 _ IH]; intros Hw Hty; [by apply elem_of_nil in Hw|..].
  - apply elem_of_cons in Hw as [->|Hw]; [unfold is_first_party in Hf; by rewrite Hty in Hf|].
    destruct (IH Hw Hty) as (tp & d & key & ? & ? & ? & ? & Hin). exists tp, d, key. split_and!; try done. intros c Hc.
    apply list_elem_of_further. by apply Hin.
  - apply elem_of_cons in Hw as [->|Hw]; [by rewrite Hb in Hty|by apply IH].
  - apply elem_of_cons in Hw as [->|Hw].
    + exists tp, d, key. apply List.find_some in H2 as [Hd [Hk _]%andb_true_iff]. apply bool_decide_eq_true in Hk.
      split_and!; [done|by apply list_elem_of_In|done|done|]. intros c Hc. apply elem_of_app. by left.
    + destruct (IH Hw Hty) as (tp' & d' & key' & ? & ? & ? & ? & Hin). exists tp', d', key'. split_and!; try done. intros c Hc.
      apply elem_of_app. right. by apply Hin.
Qed.

End Verification.

(** ** What a holder can make of a token *)

(** The primitives as their users rely on them.  Every key of the scheme has 32
    bytes. *)
Class MacIdeal `{MacCrypto} := {
  hmac_len : forall k d, length (hmac_sha256 k d) = 32%nat;
  hmac_inj : forall k k' d d', length k = 32%nat -> length k' = 32%nat -> hmac_sha256 k d = hmac_sha256 k' d' -> k = k' /\ d = d';
  sha256_len : forall d, length (sha256 d) = 32%nat;
  sha256_inj : forall d d', sha256 d = sha256 d' -> d = d';
  aead_round_trip : forall k n p c, length k = 32%nat -> length n = 24%nat -> aead_encrypt k n p = Ok c -> aead_decrypt k n c = Ok p;
}.

Class MacCodecOk `{MacCodec} := {
  encode_nonce_inj : forall n n', encode_nonce n = encode_nonce n' -> n = n';
  third_round_trip : forall t b, encode_third t = Ok b -> decode_third b = Ok t;
  ticket_round_trip : forall t b, encode_ticket t = Ok b -> decode_ticket b = Ok t;
}.

Definition caveat_wf (w : WireCaveat) : Prop := 0 <= caveat_type w < 2 ^ 16.

Section Holder.
Context `{HC : MacCrypto} `{HD : MacCodec} {HI : MacIdeal} {HO : MacCodecOk}.

Lemma wire_encode_inj w w' : caveat_wf w -> caveat_wf w' -> wire_encode w = wire_encode w' -> w = w'.
Proof.
  destruct w as [t b], w' as [t' b']. unfold caveat_wf, wire_encode. cbn [caveat_type caveat_body]. intros H1 H2 E.
  apply app_inj_1 in E as [Et ->]; [|by rewrite !length_le_bytes]. f_equal. by apply (le_bytes_inj 2) in Et.
Qed.

Lemma fold_tag_len tag cs : length tag = 32%nat -> length (fold_tag tag cs) = 32%nat.
Proof. revert tag. induction cs as [|w cs IH]; intros tag H; [done|]. apply IH, hmac_len. Qed.

Lemma chain_tag_len root n cs : length (chain_tag root n cs) = 32%nat.
Proof. apply fold_tag_len, hmac_len. Qed.

Lemma chain_tag_snoc root n cs w : chain_tag root n (cs ++ [w]) = hmac_sha256 (chain_tag root n cs) (wire_encode w).
Proof. unfold chain_tag. by rewrite fold_tag_app. Qed.

(** A key that no tag is. *)
Definition fresh_key (root : bytes) : Prop := length root = 32%nat /\ forall k d, root <> hmac_sha256 k d.

Lemma chain_tag_fresh root n cs : fresh_key root -> root <> chain_tag root n cs.
Proof. intros [_ H]. destruct cs as [|w cs _] using rev_ind; [apply H|]. rewrite chain_tag_snoc. apply H. Qed.

(** The tag of a chain determines the chain. *)
Lemma chain_tag_inj root n n' : forall cs cs', fresh_key root -> Forall caveat_wf cs -> Forall caveat_wf cs' ->
  chain_tag root n cs = chain_tag root n' cs' -> n = n' /\ cs = cs'.
Proof.
  intros cs cs' Hr. revert cs'. induction cs as [|w cs IH] using rev_ind; intros cs' Hw Hw' E; destruct cs' as [|w' cs' _] using rev_ind.
  - apply hmac_inj in E as [_ E]; [|apply Hr..]. split; [by apply encode_nonce_inj|done].
  - rewrite chain_tag_snoc in E. apply hmac_inj in E as [E _]; [|apply Hr|apply chain_tag_len]. destruct (chain_tag_fresh root n' cs' Hr E).
  - rewrite chain_tag_snoc in E. apply hmac_inj in E as [E _]; [|apply chain_tag_len|apply Hr]. by destruct (chain_tag_fresh root n cs Hr).
  - rewrite !chain_tag_snoc in E. apply Forall_app in Hw as [Hw [Hx _]%Forall_cons], Hw' as [Hw' [Hx' _]%Forall_cons].
    apply hmac_inj in E as [E Ew]; [|apply chain_tag_len..]. apply wire_encode_inj in Ew as ->; [|done..].
    by destruct (IH cs' Hw Hw' E) as [-> ->].
Qed.

(** The tags a party can compute: those it holds, and the MAC of anything under a
    32-byte string it holds. *)
Inductive derivable (held : bytes -> Prop) : bytes -> Prop :=
| dv_held t : held t -> derivable held t
| dv_mac k d : derivable held k -> length k = 32%nat -> derivable held (hmac_sha256 k d).

(** What a holder of the tokens [issued] under a key starts from: their tails,
    and strings unrelated to that key. *)
Definition holds (root : bytes) (issued : list Macaroon) (other : bytes -> Prop) (t : bytes) : Prop :=
  (exists m, m ∈ issued /\ t = mac_tail m) \/ (other t /\ t <> root /\ forall n cs, t <> chain_tag root n cs).

(** The tokens a key was used for. *)
Definition issued_under (root : bytes) (issued : list Macaroon) : Prop :=
  forall m, m ∈ issued -> well_tagged root m /\ Forall caveat_wf (mac_caveats m).

Lemma key_not_derivable root issued other : fresh_key root -> issued_under root issued -> ~ derivable (holds root issued other) root.
Proof.
  intros Hr Hi H. remember root as t eqn:E in H at 2. destruct H as [t [(m & Hm & ->)|(_ & Hne & _)]|k d _ _]; [|done|].
  - destruct (Hi m Hm) as [Ht _]. rewrite Ht in E. by destruct (chain_tag_fresh root (mac_nonce m) (mac_caveats m) Hr).
  - by destruct Hr as [_ Hr]; destruct (Hr k d).
Qed.

Lemma derivable_extends root issued other t n cs : fresh_key root -> issued_under root issued -> derivable (holds root issued other) t ->
  Forall caveat_wf cs -> t = chain_tag root n cs -> exists m extra, m ∈ issued /\ n = mac_nonce m /\ cs = mac_caveats m ++ extra.
Proof.
  intros Hr Hi H. revert cs. induction H as [t [(m & Hm & ->)|(_ & _ & Hne)]|k d Hk IH Hlen]; intros cs Hw E.
  - destruct (Hi m Hm) as [Ht Hwm]. rewrite Ht in E. apply chain_tag_inj in E as [<- <-]; [|done..]. exists m, []. by rewrite app_nil_r.
  - by destruct (Hne n cs).
  - destruct cs as [|w cs _] using rev_ind.
    + apply hmac_inj in E as [-> _]; [|done|apply Hr]. by destruct (key_not_derivable root issued other).
    + rewrite chain_tag_snoc in E. apply hmac_inj in E as [-> _]; [|done|apply chain_tag_len]. apply Forall_app in Hw as [Hw _].
      destruct (IH cs Hw eq_refl) as (m & extra & Hm & -> & ->). exists m, (extra ++ [w]). by rewrite (assoc_L (++)).
Qed.

(** C19: whoever holds tokens issued under the root key, and nothing else that depends
    on it, can get a token accepted only by adding caveats to an issued one; the
    first-party caveats of the issued token, in their order, are among those that
    remain to be cleared, and each of its third-party caveats was discharged. *)
Theorem only_attenuates root issued other m ds now s : fresh_key root -> issued_under root issued ->
  derivable (holds root issued other) (mac_tail m) -> Forall caveat_wf (mac_caveats m) -> verify m root ds now = Some (Ok s) ->
  exists m0 extra, m0 ∈ issued /\ mac_nonce m = mac_nonce m0 /\ mac_caveats m = mac_caveats m0 ++ extra /\
    first_party_caveats (mac_caveats m0) `sublist_of` s /\
    (forall w, w ∈ mac_caveats m0 -> caveat_type w = CAV_THIRD_PARTY ->
      exists tp d key, decode_third (caveat_body w) = Ok tp /\ d ∈ ds /\ kid (mac_nonce d) = tp_ticket tp /\
        discharged d key (mac_tail m) now /\ forall c, c ∈ first_party_caveats (mac_caveats d) -> c ∈ s).
Proof.
  intros Hr Hi Hd Hw Hv. apply verify_ok in Hv as [Ht Hc].
  destruct (derivable_extends root issued other (mac_tail m) (mac_nonce m) (mac_caveats m)) as (m0 & extra & Hm & En & Ec); [done..|].
  exists m0, extra. split_and!; [done..| |].
  - apply collects_first in Hc. rewrite Ec in Hc. unfold first_party_caveats in *. rewrite List.filter_app in Hc.
    etrans; [|exact Hc]. by apply sublist_inserts_r.
  - intros w Hwm Hty. apply (collects_third _ _ _ _ _ _ w Hc); [|done]. rewrite Ec. apply elem_of_app. by left.
Qed.

(** A discharge serves one token: what it is bound to is the tag of that token. *)
Lemma discharge_one_parent d key key' p p' now now' :
  discharged d key p now -> discharged d key' p' now' -> p = p'.
Proof.
  intros [_ _ (w & Hw & Hb) H1 _] [_ _ _ H2 _]. destruct (H1 w Hw Hb) as [E1 _], (H2 w Hw Hb) as [E2 _].
  apply sha256_inj. unfold binding_hash in *. congruence.
Qed.

Lemma discharge_one_token root m m' d key key' now now' : fresh_key root ->
  Forall caveat_wf (mac_caveats m) -> Forall caveat_wf (mac_caveats m') -> well_tagged root m -> well_tagged root m' ->
  discharged d key (mac_tail m) now -> discharged d key' (mac_tail m') now' ->
  mac_nonce m = mac_nonce m' /\ mac_caveats m = mac_caveats m'.
Proof.
  intros Hr Hw Hw' Ht Ht' Hd Hd'. apply (chain_tag_inj root); [done..|]. rewrite <-Ht, <-Ht'. by eapply discharge_one_parent.
Qed.

End Holder.

(** ** Third parties *)

Section ThirdParties.
Context `{HC : MacCrypto} `{HD : MacCodec} {HI : MacIdeal} {HO : MacCodecOk}.

Lemma unseal_seal key p n c : length key = 32%nat -> length n = 24%nat -> seal key p n = Ok c -> unseal key c = Ok p.
Proof.
  unfold seal, unseal. intros Hk Hn E. destruct (aead_encrypt key n p) as [ct|e] eqn:Ea; [|done]. injection E as <-.
  rewrite length_app, Hn. cbn [Nat.add Nat.ltb Nat.leb]. rewrite <-Hn at 1. rewrite take_app_length, <-Hn, drop_app_length.
  by rewrite (aead_round_trip _ _ _ _ Hk Hn Ea).
Qed.

(** The caveat that delegates to a third party: the verifier recovers the
    discharge key with the tag before it, the third party with the shared key. *)
Lemma add_third_party_ok m m' location shared cavs r n1 n2 : length (mac_tail m) = 32%nat -> length shared = 32%nat ->
  length r = 32%nat -> length n1 = 24%nat -> length n2 = 24%nat ->
  add_third_party m location shared cavs r n1 n2 = (m', Ok tt) ->
  exists w tp, m' = add_first_party_wire m w /\ caveat_type w = CAV_THIRD_PARTY /\ decode_third (caveat_body w) = Ok tp /\
    tp_location tp = location /\ decrypt_verifier_key (tp_verifier_key tp) (mac_tail m) = Ok r /\
    decrypt_ticket (tp_ticket tp) shared = Ok (mkTicket r cavs).
Proof.
  unfold add_third_party, third_new. intros Hm Hs Hr H1 H2 E. destruct (encode_ticket (mkTicket r cavs)) as [p|e] eqn:Ep; [|done].
  destruct (seal shared p n1) as [ticket|e] eqn:Et; [|done]. destruct (seal (mac_tail m) r n2) as [vid|e] eqn:Ev; [|done].
  destruct (encode_third (mkThird location vid ticket)) as [body|e] eqn:Eb; [|done]. injection E as <-.
  exists (mkCaveat CAV_THIRD_PARTY body), (mkThird location vid ticket). split_and!; [done|done|by apply third_round_trip|done| |]; cbn [tp_verifier_key tp_ticket].
  - unfold decrypt_verifier_key. rewrite (unseal_seal _ _ _ _ Hm H2 Ev). by rewrite Hr.
  - unfold decrypt_ticket. rewrite (unseal_seal _ _ _ _ Hs H1 Et). by rewrite (ticket_round_trip _ _ Ep).
Qed.

Lemma add_third_party_err m m' location shared cavs r n1 n2 e : add_third_party m location shared cavs r n1 n2 = (m', Err e) -> m' = m.
Proof.
  unfold add_third_party. destruct (third_new _ _ _ _ _ _ _) as [[tp ?]|?]; [|congruence]. destruct (encode_third tp); [done|congruence].
Qed.

Lemma collects_app parent ds now : forall cur cs1 cs2 s1 s2, collects parent ds now cur cs1 s1 ->
  collects parent ds now (fold_tag cur cs1) cs2 s2 -> collects parent ds now cur (cs1 ++ cs2) (s1 ++ s2).
Proof.
  intros cur cs1 cs2 s1 s2 H H2. induction H as [cur|cur w cs s Hf _ IH|cur w cs s Hb _ IH|cur w cs s tp d key Ht H1 H3 H4 H5 _ IH]; cbn [app]; [done|..].
  - apply co_first; [done|]. by apply IH.
  - apply co_bind; [done|]. by apply IH.
  - rewrite <-(assoc_L (++)). eapply co_third; [done..|]. by apply IH.
Qed.

Lemma collects_all_first parent ds now : forall cs cur, Forall (fun w => is_first_party w = true) cs -> collects parent ds now cur cs cs.
Proof. induction cs as [|w cs IH]; intros cur H; [constructor|]. apply Forall_cons in H as [Hw H]. by apply co_first; [|apply IH]. Qed.

(** The third-party caveat after the caveats [cs1], and the discharge that clears it. *)
Lemma collects_at parent ds now w cs2 : caveat_type w = CAV_THIRD_PARTY -> forall cs1 cur s,
  collects parent ds now cur (cs1 ++ w :: cs2) s ->
  exists tp d key, decode_third (caveat_body w) = Ok tp /\ matching ds tp = Some d /\
    decrypt_verifier_key (tp_verifier_key tp) (fold_tag cur cs1) = Ok key /\ discharged d key parent now /\
    first_party_caveats (mac_caveats d) `sublist_of` s.
Proof.
  intros Hty. induction cs1 as [|w1 cs1 IH]; intros cur s H; cbn [app] in H.
  - inversion H as [|? ? ? ? Hf|? ? ? ? Hb|? ? ? s0 tp d key ? H1 H2 H3 H4 H5]; subst.
    + unfold is_first_party in Hf. by rewrite Hty in Hf.
    + by rewrite Hb in Hty.
    + exists tp, d, key. split_and!; [done..|]. by apply sublist_inserts_r.
  - inversion H as [|? ? ? s0 Hf H0|? ? ? ? Hb H0|? ? ? s0 tp d key ? H1 H2 H3 H4 H0]; subst;
      destruct (IH _ _ H0) as (tp' & d' & key' & ? & ? & ? & ? & Hsub); exists tp', d', key'; split_and!; try done.
    + by apply sublist_cons.
    + by apply sublist_inserts_l.
Qed.

Lemma matching_some ds tp d : matching ds tp = Some d -> d ∈ ds /\ kid (mac_nonce d) = tp_ticket tp /\ mac_location d = tp_location tp.
Proof.
  intros [Hd [H1%bool_decide_eq_true H2%bool_decide_eq_true]%andb_true_iff]%List.find_some. split; [by apply list_elem_of_In|done].
Qed.

(** C20: a caveat that delegates to a third party can be cleared only by a discharge
    which that party made with the key of the caveat, for this token, in the last
    300 seconds: the discharges presented extend those made, and the caveats the
    third party put on the one used remain to be cleared. *)
Theorem third_party_needed root m0 m1 location shared cavs r n1 n2 made other m extra ds now s :
  length (mac_tail m0) = 32%nat -> length shared = 32%nat -> length n1 = 24%nat -> length n2 = 24%nat ->
  well_tagged root m0 -> add_third_party m0 location shared cavs r n1 n2 = (m1, Ok tt) ->
  fresh_key r -> issued_under r made -> (forall d, d ∈ ds -> derivable (holds r made other) (mac_tail d) /\ Forall caveat_wf (mac_caveats d)) ->
  mac_nonce m = mac_nonce m1 -> mac_caveats m = mac_caveats m1 ++ extra -> verify m root ds now = Some (Ok s) ->
  exists d0 d added, d0 ∈ made /\ d ∈ ds /\ mac_nonce d = mac_nonce d0 /\ mac_caveats d = mac_caveats d0 ++ added /\
    discharged d r (mac_tail m) now /\ first_party_caveats (mac_caveats d0) `sublist_of` s.
Proof.
  intros H0 Hs H1 H2 Ht Ha Hr Hmade Hds En Ec Hv. destruct (add_third_party_ok _ _ _ _ _ _ _ _ H0 Hs (proj1 Hr) H1 H2 Ha) as (w & tp & -> & Hty & Hde & _ & Hk & _).
  cbn in En, Ec. rewrite <-(assoc_L (++)) in Ec. cbn [app] in Ec. apply verify_ok in Hv as [_ Hc]. rewrite Ec, En in Hc.
  apply (collects_at _ _ _ w _ Hty) in Hc as (tp' & d & key & Hde' & [Hd _]%matching_some & Hk' & Hdis & Hsub).
  assert (tp' = tp) as -> by congruence. fold (chain_tag root (mac_nonce m0) (mac_caveats m0)) in Hk'. rewrite <-Ht in Hk'.
  assert (key = r) as -> by congruence. destruct (Hds d Hd) as [Hder Hwf].
  destruct (derivable_extends r made other (mac_tail d) (mac_nonce d) (mac_caveats d)) as (d0 & added & Hm & Hn & Hcs); [done..|by apply Hdis|].
  exists d0, d, added. split_and!; [done..|]. etrans; [|exact Hsub]. rewrite Hcs. unfold first_party_caveats. rewrite List.filter_app. by apply sublist_inserts_r.
Qed.

(** *** The honest run *)

Lemma add_all_spec cs : forall m, foldl add_first_party_wire m cs = mkMacaroon (mac_nonce m) (mac_location m) (mac_caveats m ++ cs) (fold_tag (mac_tail m) cs).
Proof.
  induction cs as [|w cs IH]; intros m; cbn [foldl fold_tag]; [by destruct m; cbn; rewrite app_nil_r|].
  rewrite IH. unfold add_first_party_wire. cbn [mac_nonce mac_location mac_caveats mac_tail]. by rewrite <-(assoc_L (++)).
Qed.

Lemma add_all_tagged root cs m : well_tagged root m -> well_tagged root (foldl add_first_party_wire m cs).
Proof. revert m. induction cs as [|w cs IH]; intros m H; [done|]. by apply IH, add_wire_tagged. Qed.

Lemma first_party_all cs : Forall (fun w => is_first_party w = true) cs -> first_party_caveats cs = cs.
Proof. induction 1 as [|w cs Hw _ IH]; [done|]. cbn. rewrite Hw. by f_equal. Qed.

Lemma first_party_type w : is_first_party w = true -> caveat_type w <> CAV_THIRD_PARTY /\ caveat_type w <> CAV_BIND_TO_PARENT.
Proof. unfold is_first_party. intros [H1 H2]%andb_true_iff. apply negb_true_iff, Z.eqb_neq in H1, H2. done. Qed.

Lemma made_discharge_ok m ticket r location cs rnd at_ now : Forall (fun w => is_first_party w = true) cs ->
  at_ <> 0 -> 0 <= now - at_ <= MAX_DISCHARGE_AGE ->
  let d := bind_discharge m (create_discharge ticket r location cs rnd at_) in
  discharged d r (mac_tail m) now /\ kid (mac_nonce d) = ticket /\ mac_location d = location /\ first_party_caveats (mac_caveats d) = cs.
Proof.
  intros Hf Ha Hn d. assert (Ed : mac_nonce d = mkNonce ticket rnd at_ /\ mac_location d = location /\
    mac_caveats d = cs ++ [mkCaveat CAV_BIND_TO_PARENT (binding_hash (mac_tail m))]).
  { subst d. unfold bind_discharge, create_discharge. by rewrite add_all_spec. }
  destruct Ed as (En & El & Ec). split_and!; [|by rewrite En|done|].
  - split; rewrite ?En, ?Ec; [done| | | |].
    + by apply add_wire_tagged, add_all_tagged, with_nonce_tagged.
    + eexists. split; [apply elem_of_app; right; by apply list_elem_of_singleton|done].
    + intros w [Hw| ->%list_elem_of_singleton]%elem_of_app Hb; [|split; [done|apply sha256_len]]. rewrite Forall_forall in Hf. by destruct (first_party_type w (Hf w Hw)).
    + intros w [Hw| ->%list_elem_of_singleton]%elem_of_app; [|done]. rewrite Forall_forall in Hf. by destruct (first_party_type w (Hf w Hw)).
  - rewrite Ec. unfold first_party_caveats. rewrite List.filter_app. cbn. rewrite app_nil_r. by apply first_party_all.
Qed.

(** A token made, attenuated, delegated to a third party and attenuated again is
    accepted with the discharge that party makes, once bound to it, and exactly
    the caveats of both are left to be cleared. *)
Lemma delegated_token_verifies root k location rnd cs1 tploc shared cavs r n1 n2 cs2 m1 :
  Forall (fun w => is_first_party w = true) cs1 -> Forall (fun w => is_first_party w = true) cs2 ->
  length shared = 32%nat -> length r = 32%nat -> length n1 = 24%nat -> length n2 = 24%nat ->
  add_third_party (foldl add_first_party_wire (mac_new root k location rnd) cs1) tploc shared cavs r n1 n2 = (m1, Ok tt) ->
  exists w tp, mac_caveats m1 = cs1 ++ [w] /\ decode_third (caveat_body w) = Ok tp /\ tp_location tp = tploc /\
    decrypt_ticket (tp_ticket tp) shared = Ok (mkTicket r cavs) /\
    forall dcs rnd' made_at now, Forall (fun w => is_first_party w = true) dcs -> made_at <> 0 -> 0 <= now - made_at <= MAX_DISCHARGE_AGE ->
      let m2 := foldl add_first_party_wire m1 cs2 in
      verify m2 root [bind_discharge m2 (create_discharge (tp_ticket tp) r tploc dcs rnd' made_at)] now = Some (Ok (cs1 ++ dcs ++ cs2)).
Proof.
  intros Hf1 Hf2 Hs Hr H1 H2 Ha. pose proof (add_all_tagged root cs1 _ (with_nonce_tagged root (mkNonce k rnd 0) location)) as Ht.
  fold (mac_new root k location rnd) in Ht. set (m0 := foldl _ _ cs1) in *.
  assert (Hlen : length (mac_tail m0) = 32%nat) by (rewrite Ht; apply chain_tag_len).
  destruct (add_third_party_ok _ _ _ _ _ _ _ _ Hlen Hs Hr H1 H2 Ha) as (w & tp & -> & Hty & Hde & Hloc & Hk & Htk).
  assert (Hm0 : mac_nonce m0 = mkNonce k rnd 0 /\ mac_caveats m0 = cs1) by (by subst m0; rewrite add_all_spec).
  destruct Hm0 as [En Ec]. exists w, tp. split_and!; [by cbn; rewrite Ec|done..|].
  intros dcs rnd' at_ now Hfd Hat Hnow m2. destruct (made_discharge_ok m2 (tp_ticket tp) r tploc dcs rnd' at_ now Hfd Hat Hnow) as (Hd & Hkid & Hl & Hfirst).
  apply verify_ok. split; [by apply add_all_tagged, add_wire_tagged|].
  assert (E2 : mac_nonce m2 = mkNonce k rnd 0 /\ mac_caveats m2 = cs1 ++ w :: cs2).
  { subst m2. rewrite add_all_spec. cbn. by rewrite En, Ec, <-(assoc_L (++)). }
  destruct E2 as [-> ->]. apply collects_app; [by apply collects_all_first|]. rewrite <-Hfirst at 2. eapply co_third; [done|done| | |exact Hd|by apply collects_all_first].
  - unfold matching. cbn [List.find]. by rewrite Hkid, Hl, Hloc, !bool_decide_eq_true_2.
  - unfold well_tagged, chain_tag in Ht. rewrite En, Ec in Ht. by rewrite <-Ht.
Qed.

End ThirdParties.

(** ** What the tag does not cover *)

Section Uncovered.
Context `{HC : MacCrypto} `{HD : MacCodec}.

Definition relocate (m : Macaroon) (location : bytes) : Macaroon := mkMacaroon (mac_nonce m) location (mac_caveats m) (mac_tail m).

(** The location of a token and that of a discharge can be rewritten at will; in
    particular a discharge with the ticket of a caveat serves it wherever it was
    made. *)
Lemma location_unsigned m d tp root key parent ds now location :
  verify (relocate m location) root ds now = verify m root ds now /\
  verify_discharge (relocate d location) key parent now = verify_discharge d key parent now /\
  (kid (mac_nonce d) = tp_ticket tp -> matching (relocate d (tp_location tp) :: ds) tp = Some (relocate d (tp_location tp))).
Proof. split_and!; [done|done|]. intros E. unfold matching. cbn. by rewrite E, !bool_decide_eq_true_2. Qed.

(** The age of a discharge is computed before its tag is checked, from a time that
    whoever presents it chooses. *)
Lemma discharge_age_overflow d key parent now : created_at (mac_nonce d) <> 0 -> ~ is_i64 (now - created_at (mac_nonce d)) ->
  verify_discharge d key parent now = None.
Proof.
  intros E0 Hi. unfold verify_discharge. rewrite (proj2 (Z.eqb_neq _ _) E0).
  destruct (checked_sub_i64 now (created_at (mac_nonce d))) as [a|] eqn:E; [|done]. by apply checked_sub_i64_spec in E as [-> ?].
Qed.

End Uncovered.

(** ** Masks *)

Lemma action_contains_bits a b : action_contains a b = true <-> forall i, 0 <= i -> Z.testbit b i = true -> Z.testbit a i = true.
Proof.
  unfold action_contains. rewrite Z.eqb_eq. split.
  - intros E i Hi Hb. rewrite <-E, Z.land_spec in Hb. by apply andb_true_iff in Hb as [? _].
  - intros H. apply Z.bits_inj'. intros i Hi. rewrite Z.land_spec. destruct (Z.testbit b i) eqn:Eb; [by rewrite (H i Hi Eb)|apply andb_false_r].
Qed.

Lemma action_contains_intersect a b c : action_contains (action_intersect a b) c = action_contains a c && action_contains b c.
Proof.
  apply eq_true_iff_eq. rewrite andb_true_iff, !action_contains_bits. unfold action_intersect. setoid_rewrite Z.land_spec.
  setoid_rewrite andb_true_iff. naive_solver.
Qed.

(** An access is allowed exactly when an entry applies to the resource, its own or
    the wildcard, and each that applies has every action asked for. *)
Lemma resource_prohibits_exact `{Countable K} (wild : K) set id action :
  resource_prohibits wild set id action = Ok tt <->
  (exists k mask, (k = id \/ k = wild) /\ set !! k = Some mask) /\
  (forall k mask, k = id \/ k = wild -> set !! k = Some mask -> action_contains mask action = true).
Proof.
  unfold resource_prohibits, resource_resolve. destruct (set !! id) as [e|] eqn:Ee.
  - assert (Hid : (forall k mask, k = id \/ k = wild -> set !! k = Some mask -> action_contains mask action = true) ->
      action_contains e action = true) by (intros H'; apply (H' id); auto).
    destruct (decide (id = wild)) as [->|Hne]; [|destruct (set !! wild) as [w|] eqn:Ew].
    + destruct (action_contains e action) eqn:Ea; (split; [try done|by intros [_ ?%Hid]]).
      intros _. split; [by exists wild, e; auto|]. intros k mask [->| ->] ?; congruence.
    + rewrite action_contains_intersect. destruct (action_contains e action) eqn:Ea; cbn [andb]; [|split; [done|by intros [_ ?%Hid]]].
      destruct (action_contains w action) eqn:Eb.
      * split; [|done]. intros _. split; [by exists id, e; auto|]. intros k mask [->| ->] ?; congruence.
      * split; [done|]. intros [_ H']. specialize (H' wild w (or_intror eq_refl) Ew). congruence.
    + destruct (action_contains e action) eqn:Ea; (split; [try done|by intros [_ ?%Hid]]).
      intros _. split; [by exists id, e; auto|]. intros k mask [->| ->] ?; congruence.
  - destruct (decide (id = wild)) as [->|Hne]; [split; [done|intros [(k & mask & [->| ->] & ?) _]; congruence]|].
    destruct (set !! wild) as [w|] eqn:Ew; [|split; [done|intros [(k & mask & [->| ->] & ?) _]; congruence]].
    destruct (action_contains w action) eqn:Eb.
    + split; [|done]. intros _. split; [by exists wild, w; auto|]. intros k mask [->| ->] ?; congruence.
    + split; [done|]. intros [_ H']. specialize (H' wild w (or_intror eq_refl) Ew). congruence.
Qed.

Lemma action_display_parse a : 0 <= a <= ACTION_ALL -> action_parse (action_display a) = a.
Proof.
  intros H. apply Z.eqb_eq. assert (Hall : forallb (fun n => action_parse (action_display (Z.of_nat n)) =? Z.of_nat n) (seq 0 32) = true) by reflexivity.
  rewrite forallb_forall in Hall. specialize (Hall (Z.to_nat a)). rewrite Z2Nat.id in Hall by lia. apply Hall, in_seq. unfold ACTION_ALL in H. lia.
Qed.

Lemma action_parse_bits s : 0 <= action_parse s <= ACTION_ALL.
Proof.
  unfold action_parse. case_bool_decide; [done|]. assert (Hc : forall l acc, Z.land acc 31 = acc -> Z.land (foldl (fun bits c => Z.lor bits (action_char c)) acc l) 31 = foldl (fun bits c => Z.lor bits (action_char c)) acc l).
  { induction l as [|c l IH]; intros acc Ha; [done|]. cbn. apply IH. rewrite Z.land_lor_distr_l, Ha. f_equal. unfold action_char. by repeat case_match. }
  specialize (Hc s 0 eq_refl). rewrite <-Hc. change 31 with (Z.ones 5). rewrite Z.land_ones by lia. unfold ACTION_ALL.
  pose proof (Z.mod_pos_bound (foldl (fun bits c => Z.lor bits (action_char c)) 0 s) (2 ^ 5)). lia.
Qed.

(** ** Tokens *)

Class Base64Ok `{Base64} := { b64_round_trip : forall b, b64_decode (b64_encode b) = Ok b }.

Lemma token_round_trip `{Base64Ok} b : decode_token (encode_token b) = Ok b.
Proof. unfold decode_token, encode_token. by rewrite strip_prefix_app, b64_round_trip. Qed.

Lemma decode_token_prefix `{Base64} t b : decode_token t = Ok b -> exists rest, t = TOKEN_PREFIX ++ rest /\ b64_decode rest = Ok b.
Proof.
  unfold decode_token. destruct (strip_prefix TOKEN_PREFIX t) as [rest|] eqn:E; [|done]. apply strip_prefix_some in E as ->.
  destruct (b64_decode rest) as [x|?] eqn:Ed; [|done]. intros [= <-]. by exists rest.
Qed.

(** ** An instance *)

(** Bytes as one number. *)
Definition w_digest {A} `{Countable A} (x : A) : bytes := Z.pos (encode x) :: replicate 31 0.

Lemma w_digest_inj {A} `{Countable A} (x y : A) : w_digest x = w_digest y -> x = y.
Proof. unfold w_digest. intros [= E]. by apply encode_inj in E. Qed.

#[export] Instance w_crypto : MacCrypto := {|
  hmac_sha256 k d := w_digest (k, d);
  sha256 d := w_digest d;
  aead_encrypt k n p := Ok (w_digest (k, n) ++ p);
  aead_decrypt k n c := match strip_prefix (w_digest (k, n)) c with Some p => Ok p | None => Err "aead" end;
|}.

#[export] Instance w_ideal : MacIdeal.
Proof.
  split; cbn [hmac_sha256 sha256 aead_encrypt aead_decrypt w_crypto].
  - done.
  - intros k k' d d' _ _ E. apply w_digest_inj in E. by injection E as -> ->.
  - done.
  - intros d d' E. by apply w_digest_inj in E.
  - intros k n p c _ _ E. assert (c = w_digest (k, n) ++ p) as -> by congruence. by rewrite strip_prefix_app.
Qed.

#[export] Instance w_codec : MacCodec := {|
  encode_nonce n := [Z.pos (encode (kid n, rnd n, created_at n))];
  encode_third t := Ok [Z.pos (encode (tp_location t, tp_verifier_key t, tp_ticket t))];
  decode_third b := match b with
                    | [Z.pos p] => match decode p with Some (l, v, t) => Ok (mkThird l v t) | None => Err "third" end
                    | _ => Err "third"
                    end;
  encode_ticket t := Ok [Z.pos (encode (wt_discharge_key t, (fun w => (caveat_type w, caveat_body w)) <$> wt_caveats t))];
  decode_ticket b := match b with
                     | [Z.pos p] => match decode p with Some (r, cs) => Ok (mkTicket r ((fun w => mkCaveat w.1 w.2) <$> cs)) | None => Err "ticket" end
                     | _ => Err "ticket"
                     end;
|}.

#[export] Instance w_codec_ok : MacCodecOk.
Proof.
  split; cbn [encode_nonce encode_third decode_third encode_ticket decode_ticket w_codec].
  - intros [k r c] [k' r' c'] E. cbn [kid rnd created_at] in E. injection E as E. apply encode_inj in E. by injection E as -> -> ->.
  - intros [l v t] b [= <-]. cbn [tp_location tp_verifier_key tp_ticket]. by rewrite decode_encode.
  - intros [r cs] b [= <-]. cbn [wt_discharge_key wt_caveats]. rewrite decode_encode, <-list_fmap_compose. do 2 f_equal.
    rewrite (list_fmap_ext _ id); [by rewrite list_fmap_id|]. by intros i [t b] _.
Qed.

(** Keys that are no digests. *)
Definition w_root : bytes := replicate 32 0.
Definition w_key : bytes := replicate 32 5.

Lemma w_root_fresh : fresh_key w_root.
Proof. split; [done|]. intros k d E. discriminate E. Qed.

Lemma w_key_fresh : fresh_key w_key.
Proof. split; [done|]. intros k d E. apply (f_equal (fun l => nth 1 l 0)) in E. discriminate E. Qed.

Definition w_read : WireCaveat := mkCaveat 48 [1; 2].
Definition w_until : WireCaveat := mkCaveat 49 [7].

(** A token with a caveat, and what its holder makes of it. *)
Definition w_token : Macaroon := add_first_party_wire (mac_new w_root [1] [2] [3]) w_read.
Definition w_narrowed : Macaroon := add_first_party_wire w_token w_until.

Lemma w_issued : issued_under w_root [w_token].
Proof.
  intros m ->%list_elem_of_singleton. split; [by apply add_wire_tagged, with_nonce_tagged|]. constructor; [|constructor].
  unfold caveat_wf. cbn. lia.
Qed.

Lemma only_attenuates_witness : verify w_narrowed w_root [] 0 = Some (Ok [w_read; w_until]) /\
  exists m0 extra, m0 ∈ [w_token] /\ mac_nonce w_narrowed = mac_nonce m0 /\ mac_caveats w_narrowed = mac_caveats m0 ++ extra /\
    first_party_caveats (mac_caveats m0) `sublist_of` [w_read; w_until].
Proof.
  assert (Hv : verify w_narrowed w_root [] 0 = Some (Ok [w_read; w_until])).
  { apply verify_ok. split; [by apply add_wire_tagged, add_wire_tagged, with_nonce_tagged|]. apply collects_all_first. by repeat constructor. }
  split; [exact Hv|]. destruct (only_attenuates w_root [w_token] (fun _ => False) w_narrowed [] 0 [w_read; w_until]) as (m0 & extra & H).
  - exact w_root_fresh.
  - exact w_issued.
  - apply dv_mac; [|done]. apply dv_held. left. exists w_token. split; [by apply list_elem_of_singleton|done].
  - repeat (constructor; [by split|]). constructor.
  - exact Hv.
  - exists m0, extra. split_and!; apply H.
Defined.

(** The token delegated to a third party, which made one discharge of it. *)
Definition w_shared : bytes := replicate 32 6.
Definition w_n24 : bytes := replicate 24 9.
Definition w_delegated : Macaroon := (add_third_party w_token [4] w_shared [w_read] w_key w_n24 w_n24).1.
Definition w_third : ThirdPartyCaveat :=
  match third_new [4] (mac_tail w_token) w_shared [w_read] w_key w_n24 w_n24 with Ok (tp, _) => tp | Err _ => mkThird [] [] [] end.
Definition w_made : Macaroon := create_discharge (tp_ticket w_third) w_key [4] [w_until] [8] 100.

Lemma w_made_under : issued_under w_key [w_made].
Proof.
  intros m ->%list_elem_of_singleton. split; [by apply add_all_tagged, with_nonce_tagged|].
  constructor; [|constructor]. unfold caveat_wf. cbn. lia.
Qed.

Lemma w_delegated_verifies : verify w_delegated w_root [bind_discharge w_delegated w_made] 120 = Some (Ok [w_read; w_until]).
Proof.
  destruct (delegated_token_verifies w_root [1] [2] [3] [w_read] [4] w_shared [w_read] w_key w_n24 w_n24 [] w_delegated) as (w & tp & Ec & Ed & _ & _ & H);
    [by repeat constructor|by constructor|done..|].
  assert (Etp : decode_third (caveat_body w) = Ok w_third).
  { cbn [app] in Ec. assert (Ew : mac_caveats w_delegated !! 1%nat = Some w) by (by rewrite Ec). injection Ew as <-. by apply third_round_trip. }
  rewrite Etp in Ed. injection Ed as <-. apply (H [w_until] [8] 100 120); [by repeat constructor|done|done].
Qed.

Lemma third_party_needed_witness : verify w_delegated w_root [bind_discharge w_delegated w_made] 120 = Some (Ok [w_read; w_until]) /\
  exists d0 d added, d0 ∈ [w_made] /\ d ∈ [bind_discharge w_delegated w_made] /\ mac_nonce d = mac_nonce d0 /\
    mac_caveats d = mac_caveats d0 ++ added /\ discharged d w_key (mac_tail w_delegated) 120 /\
    first_party_caveats (mac_caveats d0) `sublist_of` [w_read; w_until].
Proof.
  split; [exact w_delegated_verifies|].
  apply (third_party_needed w_root w_token w_delegated [4] w_shared [w_read] w_key w_n24 w_n24 [w_made] (fun _ => False) w_delegated []
    [bind_discharge w_delegated w_made] 120 [w_read; w_until]).
  - done.
  - done.
  - done.
  - done.
  - by apply add_wire_tagged, with_nonce_tagged.
  - done.
  - exact w_key_fresh.
  - exact w_made_under.
  - intros d ->%list_elem_of_singleton. split.
    + apply dv_mac; [|apply hmac_len]. apply dv_held. left. exists w_made. split; [by apply list_elem_of_singleton|done].
    + change (mac_caveats (bind_discharge w_delegated w_made)) with [w_until; mkCaveat CAV_BIND_TO_PARENT (binding_hash (mac_tail w_delegated))].
      repeat (constructor; [by split|]). constructor.
  - done.
  - by rewrite app_nil_r.
  - exact w_delegated_verifies.
Defined.
