(* ===== verification/Blocklace.v ===== *)
(** * The block lattice

    Models [blocklace/src/lib.rs]: blocks named by the hash of their content, the
    lattice with its two write paths, the causal past of a block and the
    topological order.

    A hash map or set is a finite map or set, walked in the order of its elements
    where the code walks one.  The signatures are [Ed25519] and [BlockPq].  The
    searches take fuel, shown to be enough; an outer [None] is fuel that ran out,
    or the underflow of a count of predecessors. *)

From stdpp Require Import base decidable option list gmap sorting strings relations.
From Stdlib Require Import ZArith Lia.
From S2P Require Import Prelude.

Open Scope Z_scope.

(** ** Byte order *)

(** Comparison of byte arrays. *)
Fixpoint lex_leb (a b : bytes) : bool :=
  match a, b with
  | [], _ => true
  | _ :: _, [] => false
  | x :: a, y :: b => if x =? y then lex_leb a b else x <? y
  end.

Fixpoint lex_insert (x : bytes) (l : list bytes) : list bytes :=
  match l with
  | [] => [x]
  | y :: l' => if lex_leb x y then x :: y :: l' else y :: lex_insert x l'
  end.

Definition lex_sort (l : list bytes) : list bytes := foldr lex_insert [] l.

(** ** Blocks *)

(** The post-quantum half of a signature; signing may fail for want of entropy. *)
Class BlockPq := {
  pq_public : bytes -> bytes;
  pq_sign : bytes -> bytes -> option bytes;
  pq_verify : bytes -> bytes -> bytes -> bool;
}.

Record Block : Type := mkBlock {
  creator : bytes;
  sequence : Z;
  predecessors : list bytes;
  payload : bytes;
  signature : bytes;
  pq_signature : bytes;
}.

#[export] Instance Block_eq_dec : EqDecision Block.
Proof. solve_decision. Defined.

Definition as_u32 (n : nat) : Z := Z.of_nat n mod 2 ^ 32.

Definition id_preimage (b : Block) : bytes :=
  creator b ++ le_bytes 8 (sequence b) ++ le_bytes 4 (as_u32 (length (predecessors b))) ++
  concat (lex_sort (predecessors b)) ++ le_bytes 4 (as_u32 (length (payload b))) ++ payload b.

Definition block_id `{Blake3} (b : Block) : bytes := blake3_derive_key "dregg-blocklace-block-v1" (id_preimage b).

Definition block_new (creator : bytes) (sequence : Z) (predecessors : list bytes) (payload : bytes) : Block :=
  mkBlock creator sequence predecessors payload (replicate 64 0) [].

Definition block_sign `{Blake3} `{Ed25519} `{BlockPq} (b : Block) (sk : bytes) : Block * bytes :=
  let b := mkBlock (ed_public sk) (sequence b) (predecessors b) (payload b) (signature b) (pq_signature b) in
  let id := block_id b in
  let sig := ed_sign sk id in
  (mkBlock (creator b) (sequence b) (predecessors b) (payload b) sig (default [] (pq_sign sk id)), sig).

Definition new_signed `{Blake3} `{Ed25519} `{BlockPq} (sk : bytes) (sequence : Z) (predecessors : list bytes) (payload : bytes) : Block :=
  (block_sign (block_new (ed_public sk) sequence predecessors payload) sk).1.

Definition is_signed (b : Block) : bool := negb (bool_decide (signature b = replicate 64 0)) && negb (bool_decide (pq_signature b = [])).

Record EquivocationProof : Type := mkEquivocation {
  eq_creator : bytes;
  eq_sequence : Z;
  eq_existing : bytes;
  eq_conflicting : bytes;
}.

Inductive InsertError : Type :=
| MissingPredecessors (ids : list bytes)
| Unsigned (creator : bytes) (sequence : Z)
| BadSignature (creator : bytes) (sequence : Z)
| BadPqSignature (creator : bytes) (sequence : Z)
| UnenrolledCreator (creator : bytes) (sequence : Z)
| SeqRegression (creator : bytes) (attempted tip_sequence : Z)
| Equivocation (proof : EquivocationProof).

Definition missing_predecessors (e : InsertError) : option (list bytes) :=
  match e with MissingPredecessors m => Some m | _ => None end.

Definition verify_block `{Blake3} `{Ed25519} `{BlockPq} (b : Block) (enrolled : bytes) : result unit InsertError :=
  if negb (is_signed b) then Err (Unsigned (creator b) (sequence b))
  else if negb (ed_verify (creator b) (block_id b) (signature b)) then Err (BadSignature (creator b) (sequence b))
  else if negb (pq_verify enrolled (block_id b) (pq_signature b)) then Err (BadPqSignature (creator b) (sequence b))
  else Ok tt.

(** ** The lattice *)

(** The blocks by their names, which is all that the searches read. *)
Notation Lace := (gmap bytes Block).

Record Blocklace : Type := mkLace {
  blocks : Lace;
  successors : gmap bytes (gset bytes);
  tips : gmap bytes bytes;
  tip_sequence : gmap bytes Z;
  equivocators : gset bytes;
  equivocation_proofs : list EquivocationProof;
  frontier : gset bytes;
  by_creator_seq : gmap (bytes * Z) bytes;
  pq_roster : gmap bytes bytes;
}.

Definition lace_new : Blocklace := mkLace ∅ ∅ ∅ ∅ ∅ [] ∅ ∅ ∅.

Definition enroll_pq (l : Blocklace) (creator pubkey : bytes) : Blocklace :=
  mkLace (blocks l) (successors l) (tips l) (tip_sequence l) (equivocators l) (equivocation_proofs l) (frontier l)
    (by_creator_seq l) (<[creator := pubkey]> (pq_roster l)).

(** One predecessor of a block being stored. *)
Definition link (id : bytes) (acc : gset bytes * gmap bytes (gset bytes)) (pred : bytes) : gset bytes * gmap bytes (gset bytes) :=
  (acc.1 ∖ {[ pred ]}, <[pred := default ∅ (acc.2 !! pred) ∪ {[ id ]}]> acc.2).

Definition store_block (l : Blocklace) (id : bytes) (b : Block) : Blocklace :=
  let '(front, succ) := foldl (link id) (frontier l, successors l) (predecessors b) in
  mkLace (blocks l) (<[id := default ∅ (succ !! id)]> succ) (tips l) (tip_sequence l) (equivocators l) (equivocation_proofs l)
    (front ∪ {[ id ]})
    (match by_creator_seq l !! (creator b, sequence b) with
     | Some _ => by_creator_seq l
     | None => <[(creator b, sequence b) := id]> (by_creator_seq l)
     end)
    (pq_roster l).

Definition put_block (l : Blocklace) (id : bytes) (b : Block) : Blocklace :=
  mkLace (<[id := b]> (blocks l)) (successors l) (tips l) (tip_sequence l) (equivocators l) (equivocation_proofs l) (frontier l)
    (by_creator_seq l) (pq_roster l).

(** The withdrawal of a feed that forked. *)
Definition withdraw (l : Blocklace) (proof : EquivocationProof) : Blocklace :=
  mkLace (blocks l) (successors l) (delete (eq_creator proof) (tips l)) (tip_sequence l) ({[ eq_creator proof ]} ∪ equivocators l)
    (equivocation_proofs l ++ [proof]) (frontier l) (by_creator_seq l) (pq_roster l).

Definition set_tip (l : Blocklace) (creator id : bytes) (sequence : Z) : Blocklace :=
  mkLace (blocks l) (successors l) (<[creator := id]> (tips l)) (<[creator := sequence]> (tip_sequence l)) (equivocators l)
    (equivocation_proofs l) (frontier l) (by_creator_seq l) (pq_roster l).

Definition find_conflict (l : Blocklace) (b : Block) (id : bytes) : option bytes :=
  match by_creator_seq l !! (creator b, sequence b) with
  | Some existing => if bool_decide (existing = id) then None else Some existing
  | None => None
  end.

Definition missing (m : Lace) (ids : list bytes) : list bytes := List.filter (fun p => negb (bool_decide (is_Some (m !! p)))) ids.

(** The guard on the sequence; a feed known to fork has no head to extend. *)
Definition regresses (l : Blocklace) (b : Block) : option Z :=
  if bool_decide (creator b ∈ equivocators l) then None
  else match tip_sequence l !! creator b with
       | Some tip => if sequence b <=? tip then Some tip else None
       | None => None
       end.

Definition insert `{Blake3} `{Ed25519} `{BlockPq} (l : Blocklace) (b : Block) : Blocklace * result bytes InsertError :=
  let id := block_id b in
  if bool_decide (is_Some (blocks l !! id)) then (l, Ok id)
  else
    match (match pq_roster l !! creator b with
           | Some enrolled => verify_block b enrolled
           | None => Err (UnenrolledCreator (creator b) (sequence b))
           end) with
    | Err e => (l, Err e)
    | Ok _ =>
        match missing (blocks l) (predecessors b) with
        | _ :: _ => (l, Err (MissingPredecessors (missing (blocks l) (predecessors b))))
        | [] =>
            match find_conflict l b id with
            | Some existing =>
                let proof := mkEquivocation (creator b) (sequence b) existing id in
                (withdraw (put_block (store_block l id b) id b) proof, Err (Equivocation proof))
            | None =>
                match regresses l b with
                | Some tip => (l, Err (SeqRegression (creator b) (sequence b) tip))
                | None =>
                    let l' := store_block l id b in
                    let l' := if bool_decide (creator b ∈ equivocators l') then l' else set_tip l' (creator b) id (sequence b) in
                    (put_block l' id b, Ok id)
                end
            end
        end
    end.

Definition insert_unverified `{Blake3} (l : Blocklace) (b : Block) : Blocklace * result bytes (list bytes) :=
  let id := block_id b in
  if bool_decide (is_Some (blocks l !! id)) then (l, Ok id)
  else
    match missing (blocks l) (predecessors b) with
    | _ :: _ => (l, Err (missing (blocks l) (predecessors b)))
    | [] =>
        let l' := store_block l id b in
        let seq := match tip_sequence l' !! creator b with Some s => Z.max s (sequence b) | None => sequence b end in
        (put_block (set_tip l' (creator b) id seq) id b, Ok id)
    end.

(** *** The causal past *)

Definition preds (m : Lace) (id : bytes) : list bytes := match m !! id with Some b => predecessors b | None => [] end.

Definition unseen (seen : gset bytes) (ids : list bytes) : list bytes := List.filter (fun p => negb (bool_decide (p ∈ seen))) ids.

Fixpoint past_loop (fuel : nat) (m : Lace) (seen : gset bytes) (queue : list bytes) : option (gset bytes) :=
  match fuel, queue with
  | _, [] => Some seen
  | O, _ :: _ => None
  | S fuel, current :: rest =>
      if bool_decide (current ∈ seen) then past_loop fuel m seen rest
      else let seen := {[ current ]} ∪ seen in past_loop fuel m seen (rest ++ unseen seen (preds m current))
  end.

(** The edges there are to walk. *)
Definition edges (m : Lace) : nat := sum_list ((fun e : bytes * Block => length (predecessors e.2)) <$> map_to_list m).

Definition causal_past (m : Lace) (id : bytes) : option (gset bytes) := past_loop (edges m + 1) m ∅ [id].

Definition causal_past_union (m : Lace) (ids : list bytes) : option (gset bytes) := past_loop (edges m + length ids) m ∅ ids.

(** *** Sorting by counts of predecessors *)

(** One dependent of the node taken from the queue: its count goes down, and at
    zero it is ready. *)
Definition release_one (acc : gmap bytes nat * list bytes) (succ : bytes) : option (gmap bytes nat * list bytes) :=
  match acc.1 !! succ with
  | None => Some acc
  | Some O => None
  | Some (S deg) => Some (<[succ := deg]> acc.1, if (deg =? 0)%nat then acc.2 ++ [succ] else acc.2)
  end.

Fixpoint release_all (acc : gmap bytes nat * list bytes) (succs : list bytes) : option (gmap bytes nat * list bytes) :=
  match succs with
  | [] => Some acc
  | s :: succs => acc ← release_one acc s; release_all acc succs
  end.

(** The loop the sorts of the crate share: [pop] and [merge] are how the queue is
    kept, [visit] is what is done with a node. *)
Fixpoint kahn_loop {A} (pop : list bytes -> option (bytes * list bytes)) (merge : list bytes -> list bytes -> list bytes)
    (visit : A -> bytes -> A) (outs : bytes -> list bytes) (fuel : nat) (deg : gmap bytes nat) (queue : list bytes) (a : A) : option A :=
  match pop queue with
  | None => Some a
  | Some (x, rest) =>
      match fuel with
      | O => None
      | S fuel =>
          '(deg, next) ← release_all (deg, []) (outs x);
          kahn_loop pop merge visit outs fuel deg (merge rest next) (visit a x)
      end
  end.

Definition pop_front (q : list bytes) : option (bytes * list bytes) := match q with [] => None | x :: q => Some (x, q) end.

Definition zeros (deg : gmap bytes nat) : list bytes := map fst (List.filter (fun e : bytes * nat => (e.2 =? 0)%nat) (map_to_list deg)).

(** Predecessors that are stored, as often as they are named. *)
Definition stored_preds (m : Lace) (b : Block) : list bytes := List.filter (fun p => bool_decide (is_Some (m !! p))) (predecessors b).

Definition topological_order (l : Blocklace) : option (list bytes) :=
  let deg := (fun b => length (stored_preds (blocks l) b)) <$> blocks l in
  kahn_loop pop_front (fun rest next => rest ++ lex_sort next) (fun acc id => acc ++ [id])
    (fun id => elements (default ∅ (successors l !! id))) (size (blocks l)) deg (lex_sort (zeros deg)) [].

Definition topological_subset (l : Blocklace) (subset : gset bytes) : option (list bytes) :=
  List.filter (fun id => bool_decide (id ∈ subset)) <$> topological_order l.

(** ** Lemmas on the byte order *)

Definition lex_le (a b : bytes) : Prop := lex_leb a b = true.

Lemma lex_refl a : lex_le a a.
Proof. unfold lex_le. induction a as [|x a IH]; [done|]. cbn. by rewrite Z.eqb_refl. Qed.

Lemma lex_total a b : lex_le a b \/ lex_le b a.
Proof.
  unfold lex_le. revert b. induction a as [|x a IH]; intros [|y b]; cbn; auto. rewrite (Z.eqb_sym y x).
  destruct (Z.eqb_spec x y); [apply IH|]. rewrite !Z.ltb_lt. lia.
Qed.

Lemma lex_trans a b c : lex_le a b -> lex_le b c -> lex_le a c.
Proof.
  unfold lex_le. revert b c. induction a as [|x a IH]; intros [|y b] [|z c]; cbn; try done.
  destruct (Z.eqb_spec x y), (Z.eqb_spec y z), (Z.eqb_spec x z); subst; rewrite ?Z.ltb_lt; try lia; try done. apply IH.
Qed.

Lemma lex_antisym a b : lex_le a b -> lex_le b a -> a = b.
Proof.
  unfold lex_le. revert b. induction a as [|x a IH]; intros [|y b]; cbn; try done. rewrite (Z.eqb_sym y x).
  destruct (Z.eqb_spec x y) as [->|]; [intros ? ?; f_equal; by apply IH|]. rewrite !Z.ltb_lt. lia.
Qed.

Lemma lex_insert_perm x l : lex_insert x l ≡ₚ x :: l.
Proof. induction l as [|y l IH]; cbn; [done|]. destruct (lex_leb x y); [done|]. rewrite IH. apply Permutation_swap. Qed.

Lemma lex_sort_perm l : lex_sort l ≡ₚ l.
Proof. induction l as [|x l IH]; cbn; [done|]. by rewrite lex_insert_perm, IH. Qed.

Lemma lex_insert_sorted x l : StronglySorted lex_le l -> StronglySorted lex_le (lex_insert x l).
Proof.
  induction 1 as [|y l Hs IH Hy]; cbn; [by repeat constructor|]. destruct (lex_leb x y) eqn:E.
  - constructor; [by constructor|]. constructor; [done|]. eapply Forall_impl; [exact Hy|]. intros z. by apply lex_trans.
  - constructor; [done|]. rewrite lex_insert_perm. constructor; [|done]. destruct (lex_total x y) as [H|]; [|done]. by rewrite H in E.
Qed.

Lemma lex_sort_sorted l : StronglySorted lex_le (lex_sort l).
Proof. induction l; cbn; [constructor|by apply lex_insert_sorted]. Qed.

Lemma lex_sort_unique l l' : l ≡ₚ l' -> lex_sort l = lex_sort l'.
Proof.
  intros Hp. assert (AntiSymm (=) lex_le) by (intros a b; apply lex_antisym).
  apply (StronglySorted_unique lex_le); [apply lex_sort_sorted..|]. by rewrite !lex_sort_perm.
Qed.

(** ** Sorting by counts *)

Section Counts.
Implicit Types (g : gmap bytes nat) (x y s : bytes) (l q : list bytes).

Definition occurrences x l : nat := count_occ (decide_rel (=)) l x.

Lemma occurrences_cons x y l : occurrences x (y :: l) = (if decide (y = x) then S (occurrences x l) else occurrences x l).
Proof. unfold occurrences. cbn. by destruct (decide_rel (=) y x), (decide (y = x)). Qed.

Lemma occurrences_app x l q : occurrences x (l ++ q) = (occurrences x l + occurrences x q)%nat.
Proof. apply count_occ_app. Qed.

Lemma occurrences_pos x l : (0 < occurrences x l)%nat <-> x ∈ l.
Proof. unfold occurrences. rewrite list_elem_of_In. symmetry. apply count_occ_In. Qed.

Lemma occurrences_not x l : x ∉ l -> occurrences x l = 0%nat.
Proof. intros H. destruct (occurrences x l) eqn:E; [done|]. destruct H. apply occurrences_pos. lia. Qed.

Lemma occurrences_nodup x l : NoDup l -> x ∈ l -> occurrences x l = 1%nat.
Proof. intros Hn%NoDup_ListNoDup Hx%list_elem_of_In. by apply NoDup_count_occ'. Qed.

(** Counts go down by what is released; what reaches zero is ready, once. *)
Lemma release_all_spec succs : forall g q, (forall s, s ∈ succs -> exists n, g !! s = Some n /\ (occurrences s succs <= n)%nat) ->
  exists g' next, release_all (g, q) succs = Some (g', q ++ next) /\ NoDup next /\
    (forall s, s ∈ next <-> s ∈ succs /\ g !! s = Some (occurrences s succs)) /\
    (forall s, g' !! s = (fun n => (n - occurrences s succs)%nat) <$> g !! s).
Proof.
  induction succs as [|s succs IH]; intros g q Hg; cbn [release_all].
  { exists g, []. rewrite app_nil_r. split_and!; [done|constructor|intros s; split; [by intros ?%elem_of_nil|by intros [?%elem_of_nil _]]|].
    intros s. destruct (g !! s) as [n|]; cbn; [|done]. f_equal. unfold occurrences. cbn. lia. }
  destruct (Hg s) as (n & Hs & Hn); [apply list_elem_of_here|]. rewrite occurrences_cons, decide_True in Hn by done.
  destruct n as [|n]; [lia|]. unfold release_one. cbn [fst snd]. rewrite Hs. cbn [mbind option_bind].
  destruct (IH (<[s := n]> g) (if (n =? 0)%nat then q ++ [s] else q)) as (g' & next & E & Hnd & Hnext & Hg').
  { intros t Ht. destruct (decide (t = s)) as [->|Hne]; [exists n; rewrite lookup_insert_eq; split; [done|lia]|].
    destruct (Hg t) as (k & Hk & Hle); [by apply list_elem_of_further|]. exists k. rewrite lookup_insert_ne by done. split; [done|].
    by rewrite occurrences_cons, decide_False in Hle by done. }
  rewrite E. exists g', (if (n =? 0)%nat then s :: next else next). split_and!.
  - destruct (n =? 0)%nat; [by rewrite <-(assoc_L (++))|done].
  - destruct (Nat.eqb_spec n 0) as [->|]; [|done]. constructor; [|done]. rewrite Hnext, lookup_insert_eq. intros [Hin%occurrences_pos [= E0]]. lia.
  - intros t. destruct (decide (t = s)) as [->|Hne].
    + rewrite occurrences_cons, decide_True by done. rewrite Hs. destruct (Nat.eqb_spec n 0) as [->|Hn0].
      * split; [intros _|intros _; apply list_elem_of_here]. split; [apply list_elem_of_here|]. do 2 f_equal. lia.
      * rewrite Hnext, lookup_insert_eq. split; [intros [? [= <-]]; split; [apply list_elem_of_here|done]|].
        intros [_ [= E0]]. split; [|by rewrite E0]. apply occurrences_pos. lia.
    + assert (t ∈ (if (n =? 0)%nat then s :: next else next) <-> t ∈ next) as -> by (destruct (n =? 0)%nat; rewrite ?elem_of_cons; naive_solver).
      rewrite Hnext, lookup_insert_ne, occurrences_cons, elem_of_cons by done. rewrite (decide_False (P := s = t)) by done. naive_solver.
  - intros t. rewrite Hg', occurrences_cons. destruct (decide (s = t)) as [<-|Hne].
    + rewrite lookup_insert_eq, Hs. cbn. f_equal.
    + by rewrite lookup_insert_ne by done.
Qed.

End Counts.

(** What a sort works on: the nodes, the predecessors of each as often as they are
    counted, and the dependents of each. *)
Section Kahn.
Context (U : gset bytes) (ins outs : bytes -> list bytes) (rank : bytes -> nat).
Context (Hins : forall x p, x ∈ U -> p ∈ ins x -> p ∈ U /\ (rank p < rank x)%nat).
Context (Houts : forall p x, p ∈ U -> x ∈ outs p -> x ∈ U).
Context (Hcount : forall p x, p ∈ U -> x ∈ U -> occurrences x (outs p) = occurrences p (ins x)).

Definition open (x : bytes) (result : list bytes) : list bytes := List.filter (fun p => negb (bool_decide (p ∈ result))) (ins x).

Lemma open_snoc x result t : t ∉ result -> length (open x result) = (length (open x (result ++ [t])) + occurrences t (ins x))%nat.
Proof.
  intros Ht. unfold open. induction (ins x) as [|p l IH]; [done|]. cbn [List.filter]. rewrite occurrences_cons.
  destruct (decide (p = t)) as [->|Hne].
  - rewrite (bool_decide_eq_false_2 (t ∈ result)), (bool_decide_eq_true_2 (t ∈ result ++ [t])) by set_solver. cbn [negb length]. lia.
  - rewrite (bool_decide_ext (p ∈ result ++ [t]) (p ∈ result)) by set_solver. case_bool_decide; cbn [negb length]; lia.
Qed.

Lemma open_none x result : open x result = [] <-> forall p, p ∈ ins x -> p ∈ result.
Proof.
  unfold open. split.
  - intros E p Hp. destruct (decide (p ∈ result)) as [|Hn]; [done|]. assert (Hin : p ∈ List.filter (fun p => negb (bool_decide (p ∈ result))) (ins x)).
    { apply list_elem_of_In, filter_In. split; [by apply list_elem_of_In|]. by rewrite bool_decide_eq_false_2. }
    rewrite E in Hin. by apply elem_of_nil in Hin.
  - intros H. destruct (List.filter _ _) as [|p l] eqn:E; [done|]. assert (Hin : p ∈ List.filter (fun p => negb (bool_decide (p ∈ result))) (ins x))
      by (rewrite E; apply list_elem_of_here). apply list_elem_of_In, filter_In in Hin as [Hin Hb]. rewrite bool_decide_eq_true_2 in Hb; [done|].
    by apply H, list_elem_of_In.
Qed.

Record kahn_inv (g : gmap bytes nat) (queue result : list bytes) : Prop := {
  ki_nodup : NoDup (result ++ queue);
  ki_known : forall x, x ∈ result -> x ∈ U;
  ki_degree : forall x, x ∈ U -> g !! x = Some (length (open x result));
  ki_ready : forall x, x ∈ queue <-> x ∈ U /\ x ∉ result /\ forall p, p ∈ ins x -> p ∈ result;
  ki_first : forall l1 x l2, result = l1 ++ x :: l2 -> forall p, p ∈ ins x -> p ∈ l1;
}.

Lemma kahn_inv_step g q x rest result (merge : list bytes -> list bytes -> list bytes) :
  (forall a b, merge a b ≡ₚ a ++ b) -> kahn_inv g q result -> q ≡ₚ x :: rest -> exists g' next,
  release_all (g, []) (outs x) = Some (g', next) /\ kahn_inv g' (merge rest next) (result ++ [x]).
Proof.
  intros Hm [Hnd Hk Hg Hr Hf] Hq. assert (Hxq : x ∈ q) by (rewrite Hq; apply list_elem_of_here).
  destruct (proj1 (Hr x) Hxq) as (HxU & Hxr & Hxp).
  assert (Hnr : NoDup (x :: rest)) by (rewrite <-Hq; by apply NoDup_app in Hnd as (_ & _ & ?)). apply NoDup_cons in Hnr as [Hxrest Hnrest].
  destruct (release_all_spec (outs x) g []) as (g' & next & E & Hnn & Hnext & Hg').
  { intros s Hs. pose proof (Houts x s HxU Hs) as HsU. eexists. split; [by apply Hg|]. rewrite (Hcount x s HxU HsU), (open_snoc s result x Hxr). lia. }
  assert (Hnext' : forall s, s ∈ next <-> s ∈ outs x /\ s ∈ U /\ open s (result ++ [x]) = []).
  { intros s. rewrite Hnext. split.
    - intros [Hs Hgs]. pose proof (Houts x s HxU Hs) as HsU. split_and!; [done..|]. rewrite (Hg s HsU), (open_snoc s result x Hxr), (Hcount x s HxU HsU) in Hgs.
      injection Hgs as Hgs. apply length_zero_iff_nil. lia.
    - intros (Hs & HsU & Ho). split; [done|]. rewrite (Hg s HsU), (open_snoc s result x Hxr), (Hcount x s HxU HsU), Ho. done. }
  assert (Hnotyet : forall s, s ∈ next -> s ∉ q /\ s ∉ result).
  { intros s (Hs & HsU & _)%Hnext'. assert (Hp : x ∈ ins s).
    { apply occurrences_pos. rewrite <-(Hcount x s HxU HsU). by apply occurrences_pos. }
    split; [intros (_ & _ & H)%Hr; by apply Hxr, H|]. intros Hin. apply list_elem_of_split in Hin as (l1 & l2 & El). apply Hxr. rewrite El.
    apply elem_of_app. left. by eapply Hf. }
  exists g', next. split; [done|]. split.
  - rewrite Hm. rewrite <-(assoc_L (++)). cbn [app]. apply NoDup_app in Hnd as (Hn1 & Hn2 & Hn3). apply NoDup_app. split_and!; [done| |].
    + intros y Hy. rewrite elem_of_cons, elem_of_app. intros [->|[Hyr|Hyn]]; [done| |by destruct (Hnotyet y Hyn)].
      apply (Hn2 y Hy). rewrite Hq. by apply list_elem_of_further.
    + apply NoDup_cons. split; [rewrite elem_of_app; intros [?|Hin]; [done|]; destruct (Hnotyet x Hin); done|].
      apply NoDup_app. split_and!; [done| |done]. intros y Hy Hyn. destruct (Hnotyet y Hyn) as [Hc _]. apply Hc. rewrite Hq. by apply list_elem_of_further.
  - intros y [Hy| ->%list_elem_of_singleton]%elem_of_app; [by apply Hk|done].
  - intros y Hy. rewrite Hg', (Hg y Hy). cbn. f_equal. rewrite (open_snoc y result x Hxr), (Hcount x y HxU Hy). lia.
  - intros y. rewrite Hm, elem_of_app, not_elem_of_app, list_elem_of_singleton. split.
    + intros [Hy|Hy].
      * destruct (proj1 (Hr y)) as (HyU & Hyr & Hyp); [rewrite Hq; by apply list_elem_of_further|]. split_and!; [done|done|by intros ->|].
        intros p Hp. apply elem_of_app. left. by apply Hyp.
      * destruct (Hnotyet y Hy) as [Hyq Hyr]. apply Hnext' in Hy as (Ho & HyU & Hz). split_and!; [done|done|by intros ->|]. by apply open_none.
    + intros (HyU & [Hyr Hyx] & Hp). destruct (decide (y ∈ q)) as [Hyq|Hyq].
      * left. rewrite Hq in Hyq. by apply elem_of_cons in Hyq as [->|].
      * right. apply Hnext'. split_and!; [|done|by apply open_none]. apply occurrences_pos. rewrite (Hcount x y HxU HyU). apply occurrences_pos.
        destruct (decide (x ∈ ins y)) as [|Hno]; [done|]. destruct Hyq. apply Hr. split_and!; [done..|]. intros p Hpi.
        specialize (Hp p Hpi). apply elem_of_app in Hp as [|Hpx%list_elem_of_singleton]; [done|]. by subst.
  - intros l1 y l2 El p Hp. destruct l2 as [|z l2 _] using rev_ind.
    + apply app_inj_tail in El as [-> ->]. by apply Hxp.
    + rewrite app_comm_cons, (assoc_L (++)) in El. apply app_inj_tail in El as [-> ->]. by eapply Hf.
Qed.

Lemma kahn_inv_done g result : kahn_inv g [] result -> result ≡ₚ elements U.
Proof.
  intros [Hnd Hk _ Hr _]. rewrite app_nil_r in Hnd. apply NoDup_Permutation; [done|apply NoDup_elements|].
  intros x. rewrite elem_of_elements. split; [apply Hk|]. remember (rank x) as n eqn:En. revert x En. induction n as [n IH] using lt_wf_ind. intros x -> Hx.
  destruct (decide (x ∈ result)) as [|Hn]; [done|]. destruct (not_elem_of_nil x). apply Hr. split_and!; [done|done|].
  intros p Hp. destruct (Hins x p Hx Hp) as [HpU Hlt]. by apply (IH (rank p) Hlt).
Qed.

(** How the nodes come out: each once, after its predecessors, and each as the
    queue chooses among those that are ready. *)
Definition sorted_by (pop : list bytes -> option (bytes * list bytes)) (l : list bytes) : Prop :=
  l ≡ₚ elements U /\ (forall l1 x l2, l = l1 ++ x :: l2 -> forall p, p ∈ ins x -> p ∈ l1) /\
  forall l1 x l2, l = l1 ++ x :: l2 -> exists q rest, pop q = Some (x, rest) /\
    forall y, y ∈ q <-> y ∈ U /\ y ∉ l1 /\ forall p, p ∈ ins y -> p ∈ l1.

Lemma kahn_loop_from {A} pop merge (visit : A -> bytes -> A) :
  (forall q, q <> [] -> is_Some (pop q)) -> (forall q x rest, pop q = Some (x, rest) -> q ≡ₚ x :: rest) -> (forall a b, merge a b ≡ₚ a ++ b) ->
  forall fuel g q result a, (size U - length result <= fuel)%nat -> kahn_inv g q result ->
  exists l, kahn_loop pop merge visit outs fuel g q a = Some (foldl visit a l) /\ result ++ l ≡ₚ elements U /\
    (forall l1 x l2, result ++ l = l1 ++ x :: l2 -> forall p, p ∈ ins x -> p ∈ l1) /\
    forall l1 x l2, l = l1 ++ x :: l2 -> exists q rest, pop q = Some (x, rest) /\
      forall y, y ∈ q <-> y ∈ U /\ y ∉ result ++ l1 /\ forall p, p ∈ ins y -> p ∈ result ++ l1.
Proof.
  intros Hsome Hperm Hm fuel. induction fuel as [|fuel IH]; intros g q result a Hf Hk; cbn [kahn_loop]; destruct (pop q) as [[x rest]|] eqn:Ep.
  2,4: (assert (q = []) as -> by (destruct q as [|y q]; [done|]; destruct (Hsome (y :: q)); [done|congruence]); exists []; rewrite app_nil_r;
        split_and!; [done|by eapply kahn_inv_done|by eapply ki_first|intros [|] ? ? ?; done]).
  - exfalso. assert (Hin : x ∈ q) by (rewrite (Hperm _ _ _ Ep); apply list_elem_of_here). destruct Hk as [Hnd Hkn _ Hr _].
    assert (Hlen : (length (result ++ [x]) <= size U)%nat).
    { rewrite <-(size_list_to_set (C := gset bytes)).
      - apply subseteq_size. intros y Hy%elem_of_list_to_set. apply elem_of_app in Hy as [Hy| ->%list_elem_of_singleton]; [by apply Hkn|by apply Hr].
      - apply NoDup_app in Hnd as (H1 & H2 & _). apply NoDup_app. split_and!; [done| |apply NoDup_singleton]. intros y Hy ->%list_elem_of_singleton. by apply (H2 x Hy). }
    rewrite length_app in Hlen. cbn [length] in Hlen. lia.
  - destruct (kahn_inv_step g q x rest result merge Hm Hk (Hperm _ _ _ Ep)) as (g' & next & -> & Hk'). cbn [mbind option_bind].
    destruct (IH g' (merge rest next) (result ++ [x]) (visit a x)) as (l & El & Hl & Hfirst & Hpick); [rewrite length_app; cbn [length]; lia|done|].
    exists (x :: l). rewrite El. rewrite <-(assoc_L (++)) in Hl. split_and!; [done|done| |].
    + intros l1 y l2 E. eapply Hfirst. rewrite <-(assoc_L (++)). exact E.
    + intros [|z l1] y l2 [= <- E]; [exists q, rest; rewrite app_nil_r; split; [done|apply Hk]|].
      destruct (Hpick l1 y l2 E) as (q' & rest' & Hp & Hy). exists q', rest'. split; [done|]. intros w. rewrite Hy, <-!(assoc_L (++)). done.
Qed.

Lemma zeros_elem (deg : gmap bytes nat) x : x ∈ zeros deg <-> deg !! x = Some 0%nat.
Proof.
  unfold zeros. rewrite list_elem_of_In, in_map_iff. setoid_rewrite filter_In. setoid_rewrite <-list_elem_of_In. setoid_rewrite elem_of_map_to_list'.
  split; [intros ([y n] & <- & H & Hn%Nat.eqb_eq); cbn in *; congruence|]. intros H. by exists (x, 0%nat).
Qed.

Lemma zeros_nodup (deg : gmap bytes nat) : NoDup (zeros deg).
Proof.
  unfold zeros. apply NoDup_fmap_2_strong; [|apply NoDup_ListNoDup, List.NoDup_filter, NoDup_ListNoDup, NoDup_map_to_list].
  intros [x n] [y k]. rewrite !list_elem_of_In, !filter_In, <-!list_elem_of_In. cbn [fst]. intros [Hx _] [Hy _] <-. f_equal. exact (map_to_list_unique _ _ _ _ Hx Hy).
Qed.

Lemma kahn_sorts {A} pop merge (visit : A -> bytes -> A) deg q fuel a :
  (forall q, q <> [] -> is_Some (pop q)) -> (forall q x rest, pop q = Some (x, rest) -> q ≡ₚ x :: rest) -> (forall a b, merge a b ≡ₚ a ++ b) ->
  (forall x, deg !! x = if decide (x ∈ U) then Some (length (ins x)) else None) -> q ≡ₚ zeros deg -> (size U <= fuel)%nat ->
  exists l, kahn_loop pop merge visit outs fuel deg q a = Some (foldl visit a l) /\ sorted_by pop l.
Proof.
  intros Hs Hp Hm Hd Hq Hf. destruct (kahn_loop_from pop merge visit Hs Hp Hm fuel deg q [] a) as (l & E & H1 & H2 & H3); [cbn; lia| |by exists l].
  split.
  - cbn [app]. rewrite Hq. apply zeros_nodup.
  - by intros x ?%elem_of_nil.
  - intros x Hx. rewrite Hd, decide_True by done. do 2 f_equal. unfold open. induction (ins x) as [|p l IH]; [done|]. cbn [List.filter].
    rewrite bool_decide_eq_false_2 by apply not_elem_of_nil. cbn [negb]. by rewrite <-IH.
  - intros x. rewrite Hq, zeros_elem, Hd. destruct (decide (x ∈ U)) as [HU|HU]; [|naive_solver]. split.
    + intros [= E]. apply length_zero_iff_nil in E. split_and!; [done|apply not_elem_of_nil|]. by rewrite E.
    + intros (_ & _ & Hn). f_equal. apply length_zero_iff_nil. destruct (ins x) as [|p l]; [done|]. destruct (not_elem_of_nil p). apply Hn, list_elem_of_here.
  - intros [|] ? ? ?; done.
Qed.

End Kahn.

(** ** The causal past *)

Section Past.
Context (m : Lace).

(** One step down, and any number of them. *)
Definition names (x y : bytes) : Prop := y ∈ preds m x.
Definition reaches : bytes -> bytes -> Prop := rtc names.

Definition open_edges (l : list (bytes * Block)) (seen : gset bytes) : nat :=
  sum_list ((fun e : bytes * Block => if bool_decide (e.1 ∈ seen) then 0%nat else length (predecessors e.2)) <$> l).

Lemma open_edges_step l seen x : NoDup l.*1 -> x ∉ seen ->
  open_edges l seen = (open_edges l ({[ x ]} ∪ seen) + length (preds (list_to_map l) x))%nat.
Proof.
  intros Hnd Hx. induction l as [|[k b] l IH]; [unfold preds; cbn; by rewrite lookup_empty|]. apply NoDup_cons in Hnd as [Hk Hnd]. specialize (IH Hnd).
  unfold open_edges, preds in *. cbn [fmap list_fmap sum_list fst snd list_to_map foldr uncurry] in *. destruct (decide (k = x)) as [->|Hne].
  - rewrite lookup_insert_eq. rewrite not_elem_of_list_to_map_1 in IH by done. rewrite (bool_decide_eq_false_2 (x ∈ seen)), (bool_decide_eq_true_2 (x ∈ {[x]} ∪ seen)) by set_solver.
    cbn [length id] in *. lia.
  - rewrite lookup_insert_ne by done. rewrite (bool_decide_ext (k ∈ {[x]} ∪ seen) (k ∈ seen)) by set_solver. cbn [id]. lia.
Qed.

Lemma open_edges_start l : open_edges l ∅ = sum_list ((fun e : bytes * Block => length (predecessors e.2)) <$> l).
Proof. unfold open_edges. induction l as [|e l IH]; [done|]. cbn [fmap list_fmap sum_list]. rewrite bool_decide_eq_false_2 by set_solver. by f_equal. Qed.

Lemma unseen_elem seen ids y : y ∈ unseen seen ids <-> y ∈ ids /\ y ∉ seen.
Proof. unfold unseen. rewrite list_elem_of_In, filter_In, <-list_elem_of_In, negb_true_iff, bool_decide_eq_false. done. Qed.

Lemma unseen_length seen ids : (length (unseen seen ids) <= length ids)%nat.
Proof. apply filter_length_le. Qed.

Record past_inv (starts : list bytes) (seen : gset bytes) (queue : list bytes) : Prop := {
  pi_start : forall x, x ∈ starts -> x ∈ seen \/ x ∈ queue;
  pi_reached : forall y, y ∈ seen \/ y ∈ queue -> exists x, x ∈ starts /\ reaches x y;
  pi_closed : forall x y, x ∈ seen -> names x y -> y ∈ seen \/ y ∈ queue;
}.

Lemma past_inv_step starts seen x rest : past_inv starts seen (x :: rest) -> x ∉ seen ->
  past_inv starts ({[ x ]} ∪ seen) (rest ++ unseen ({[ x ]} ∪ seen) (preds m x)).
Proof.
  intros [Hs Hr Hc] Hx. assert (Hin : forall y, y ∈ seen \/ y ∈ x :: rest -> y ∈ {[ x ]} ∪ seen \/ y ∈ rest ++ unseen ({[ x ]} ∪ seen) (preds m x)) by set_solver.
  split.
  - intros y Hy. by apply Hin, Hs.
  - intros y [Hy|Hy].
    + apply elem_of_union in Hy as [->%elem_of_singleton|Hy]; apply Hr; set_solver.
    + apply elem_of_app in Hy as [Hy|[Hy _]%unseen_elem]; [apply Hr; set_solver|]. destruct (Hr x) as (s & Hss & Hrx); [set_solver|].
      exists s. split; [done|]. eapply rtc_r; [exact Hrx|exact Hy].
  - intros z y Hz Hzy. apply elem_of_union in Hz as [->%elem_of_singleton|Hz].
    + destruct (decide (y ∈ ({[ x ]} ∪ seen : gset bytes))) as [|Hn]; [by left|]. right. apply elem_of_app. right. by apply unseen_elem.
    + apply Hin. by apply (Hc z).
Qed.

Lemma past_loop_ok fuel : forall starts seen queue, (length queue + open_edges (map_to_list m) seen <= fuel)%nat -> past_inv starts seen queue ->
  exists r, past_loop fuel m seen queue = Some r /\ forall y, y ∈ r <-> exists x, x ∈ starts /\ reaches x y.
Proof.
  induction fuel as [|fuel IH]; intros starts seen [|x rest] Hf Hi; cbn [past_loop length] in *.
  1,3: (exists seen; split; [done|]; intros y; split; [intros Hy; apply (pi_reached _ _ _ Hi); by left|];
        intros (x & Hx & Hxy); assert (Hsx : x ∈ seen) by (by destruct (pi_start _ _ _ Hi x Hx) as [|?%elem_of_nil]);
        clear Hx; induction Hxy as [|x z y Hxz _ IHr]; [done|]; apply IHr; by destruct (pi_closed _ _ _ Hi x z Hsx Hxz) as [|?%elem_of_nil]).
  - lia.
  - case_bool_decide as Hx.
    + apply IH; [lia|]. destruct Hi as [Hs Hr Hc]. split; set_solver.
    + apply IH; [|by apply past_inv_step]. rewrite (open_edges_step _ _ x) in Hf; [|apply NoDup_fst_map_to_list|done].
      rewrite list_to_map_to_list in Hf. rewrite length_app. pose proof (unseen_length ({[ x ]} ∪ seen) (preds m x)). lia.
Qed.

Lemma past_inv_start starts : past_inv starts ∅ starts.
Proof. split; [by right| |set_solver]. intros y [Hy|Hy]; [set_solver|]. exists y. split; [done|apply rtc_refl]. Qed.

Lemma causal_past_ok x : exists r, causal_past m x = Some r /\ forall y, y ∈ r <-> reaches x y.
Proof.
  destruct (past_loop_ok (edges m + 1) [x] ∅ [x]) as (r & E & Hr); [cbn [length]; unfold edges; rewrite open_edges_start; lia|apply past_inv_start|].
  exists r. split; [done|]. intros y. rewrite Hr. set_solver.
Qed.

Lemma causal_past_union_ok ids : exists r, causal_past_union m ids = Some r /\ forall y, y ∈ r <-> exists x, x ∈ ids /\ reaches x y.
Proof. apply past_loop_ok; [unfold edges; rewrite open_edges_start; lia|apply past_inv_start]. Qed.

(** The predecessors of what is stored are stored, and there is no cycle. *)
Definition closed : Prop := forall x y, names x y -> is_Some (m !! y).
Definition acyclic (rank : bytes -> nat) : Prop := forall x y, names x y -> (rank y < rank x)%nat.

Lemma reaches_stored x y : closed -> is_Some (m !! x) -> reaches x y -> is_Some (m !! y).
Proof. intros Hc Hx Hr. induction Hr as [|x z y Hxz _ IH]; [done|]. apply IH. by apply (Hc x). Qed.

Lemma reaches_rank rank x y : acyclic rank -> reaches x y -> x = y \/ (rank y < rank x)%nat.
Proof.
  intros Hr. induction 1 as [|x z y Hxz _ IH]; [by left|]. right. specialize (Hr _ _ Hxz). destruct IH as [->|]; lia.
Qed.

End Past.

(** ** Names of blocks *)

(** What a block says, up to the order in which it names its predecessors. *)
Definition same_content (b b' : Block) : Prop :=
  creator b = creator b' /\ sequence b = sequence b' /\ predecessors b ≡ₚ predecessors b' /\ payload b = payload b'.

Record block_wf (b : Block) : Prop := {
  bw_creator : length (creator b) = 32%nat;
  bw_sequence : is_u64 (sequence b);
  bw_preds : Forall (fun p : bytes => length p = 32%nat) (predecessors b);
  bw_count : Z.of_nat (length (predecessors b)) < 2 ^ 32;
  bw_size : Z.of_nat (length (payload b)) < 2 ^ 32;
}.

Lemma concat_inj_32 (l l' : list bytes) r r' : Forall (fun p : bytes => length p = 32%nat) l -> Forall (fun p : bytes => length p = 32%nat) l' ->
  length l = length l' -> concat l ++ r = concat l' ++ r' -> l = l' /\ r = r'.
Proof.
  revert l'. induction l as [|a l IH]; intros [|a' l'] Hl Hl' Hn E; try done. cbn [concat] in E. rewrite <-!(assoc_L (++)) in E.
  apply Forall_cons in Hl as [Ha Hl], Hl' as [Ha' Hl']. apply app_inj_1 in E as [-> E]; [|congruence].
  by destruct (IH l' Hl Hl' ltac:(by injection Hn) E) as [-> ->].
Qed.

Lemma as_u32_inj n k : Z.of_nat n < 2 ^ 32 -> Z.of_nat k < 2 ^ 32 -> le_bytes 4 (as_u32 n) = le_bytes 4 (as_u32 k) -> n = k.
Proof.
  unfold as_u32. intros Hn Hk E. rewrite !Z.mod_small in E by lia. apply le_bytes_inj in E; [lia|cbn; lia..].
Qed.

(** The name of a block is the name of nothing else. *)
Lemma block_id_binds `{HB : Blake3} `{!Blake3CR HB} b b' : block_wf b -> block_wf b' -> block_id b = block_id b' <-> same_content b b'.
Proof.
  intros [H1 H2 H3 H4 H5] [H1' H2' H3' H4' H5']. unfold block_id, id_preimage. split.
  - intros [_ E]%blake3_derive_key_inj. apply app_inj_1 in E as [Ec E]; [|congruence]. apply app_inj_1 in E as [Es E]; [|by rewrite !length_le_bytes].
    apply app_inj_1 in E as [Ep E]; [|by rewrite !length_le_bytes]. apply as_u32_inj in Ep; [|done..]. apply le_bytes8_inj in Es; [|done..].
    apply concat_inj_32 in E as [El E]; [|by rewrite lex_sort_perm..|by rewrite !lex_sort_perm]. apply app_inj_1 in E as [_ E]; [|by rewrite !length_le_bytes].
    split_and!; [done|done| |done]. by rewrite <-(lex_sort_perm (predecessors b)), El, lex_sort_perm.
  - intros (-> & -> & Hp & ->). by rewrite (lex_sort_unique _ _ Hp), Hp.
Qed.

(** ** Invariants *)

Section Lattice.
Context `{HB : Blake3} `{HE : Ed25519} `{HP : BlockPq}.

Definition below (l : Blocklace) (x : bytes) : gset bytes := default ∅ (successors l !! x).

(** The lattice as both write paths keep it: blocks under their names, closed
    under predecessors and without cycle, with its edges, its frontier and the
    index of feeds. *)
Record lace_ok (l : Blocklace) : Prop := {
  lo_named : forall id b, blocks l !! id = Some b -> id = block_id b;
  lo_closed : closed (blocks l);
  lo_rank : exists rank, acyclic (blocks l) rank;
  lo_succ : forall x y, y ∈ below l x <-> names (blocks l) y x;
  lo_frontier : forall x, x ∈ frontier l <-> is_Some (blocks l !! x) /\ forall y, ~ names (blocks l) y x;
  lo_feed : forall c s id, by_creator_seq l !! (c, s) = Some id -> exists b, blocks l !! id = Some b /\ creator b = c /\ sequence b = s;
  lo_indexed : forall id b, blocks l !! id = Some b -> is_Some (by_creator_seq l !! (creator b, sequence b));
}.

Lemma link_all id ps : forall F S, let '(F', S') := foldl (link id) (F, S) ps in
  (forall x, x ∈ F' <-> x ∈ F /\ x ∉ ps) /\
  (forall x y, y ∈ (default ∅ (S' !! x) : gset bytes) <-> y ∈ (default ∅ (S !! x) : gset bytes) \/ y = id /\ x ∈ ps).
Proof.
  induction ps as [|p ps IH]; intros F S; cbn [foldl]; [split; set_solver|]. specialize (IH (F ∖ {[ p ]}) (<[p := default ∅ (S !! p) ∪ {[ id ]}]> S)).
  unfold link at 2. cbn [fst snd]. destruct (foldl (link id) _ ps) as [F' S'] eqn:E. destruct IH as [H1 H2]. split.
  - intros x. rewrite H1. set_solver.
  - intros x y. rewrite H2. destruct (decide (x = p)) as [->|Hne]; [rewrite lookup_insert_eq|rewrite lookup_insert_ne by done]; cbn [default]; set_solver.
Qed.

Lemma missing_nil m ids : missing m ids = [] -> forall p, p ∈ ids -> is_Some (m !! p).
Proof.
  intros E p Hp. destruct (decide (is_Some (m !! p))) as [|Hn]; [done|]. assert (Hin : p ∈ missing m ids).
  { unfold missing. apply list_elem_of_In, filter_In. split; [by apply list_elem_of_In|]. by rewrite bool_decide_eq_false_2. }
  rewrite E in Hin. by apply elem_of_nil in Hin.
Qed.

Lemma preds_insert m id b x : preds (<[id := b]> m) x = if decide (x = id) then predecessors b else preds m x.
Proof. unfold preds. destruct (decide (x = id)) as [->|]; [by rewrite lookup_insert_eq|by rewrite lookup_insert_ne]. Qed.

(** What storing a block makes of the lattice. *)
Record stored (l l' : Blocklace) (id : bytes) (b : Block) : Prop := {
  sd_blocks : blocks l' = <[id := b]> (blocks l);
  sd_succ : forall x y, y ∈ below l' x <-> y ∈ below l x \/ y = id /\ x ∈ predecessors b;
  sd_frontier : forall x, x ∈ frontier l' <-> x = id \/ x ∈ frontier l /\ x ∉ predecessors b;
  sd_index : by_creator_seq l' = match by_creator_seq l !! (creator b, sequence b) with
                                 | Some _ => by_creator_seq l
                                 | None => <[(creator b, sequence b) := id]> (by_creator_seq l)
                                 end;
}.

Lemma stored_put l id b : stored l (put_block (store_block l id b) id b) id b.
Proof.
  unfold store_block. pose proof (link_all id (predecessors b) (frontier l) (successors l)) as H. destruct (foldl _ _ _) as [F S]. destruct H as [HF HS].
  split; cbn [put_block blocks frontier by_creator_seq]; [done| |set_solver|done].
  intros x y. unfold below. cbn [put_block successors]. rewrite <-HS. destruct (decide (x = id)) as [->|Hne]; [by rewrite lookup_insert_eq|by rewrite lookup_insert_ne].
Qed.

Lemma stored_ok l l' id b : lace_ok l -> stored l l' id b -> id = block_id b -> blocks l !! id = None -> missing (blocks l) (predecessors b) = [] -> lace_ok l'.
Proof.
  intros [Hn Hc [rank Hr] Hs Hf Hi Hx] [Eb Es Ef Ei] Hid Hnew Hm. pose proof (missing_nil _ _ Hm) as Hp.
  assert (Hfresh : id ∉ predecessors b) by (intros Hin; destruct (Hp id Hin); congruence).
  assert (Hnot : forall y, ~ names (blocks l) y id) by (intros y Hy; destruct (Hc y id Hy); congruence).
  assert (Hnm : forall x y, names (blocks l') x y <-> names (blocks l) x y \/ x = id /\ y ∈ predecessors b).
  { intros x y. unfold names. rewrite Eb, preds_insert. destruct (decide (x = id)) as [->|]; [|naive_solver]. unfold preds. rewrite Hnew. set_solver. }
  split.
  - intros x c. rewrite Eb. intros [[<- <-]|[_ Hx']]%lookup_insert_Some; [done|by apply Hn].
  - intros x y [Hxy|[-> Hy]]%Hnm; rewrite Eb; apply lookup_insert_is_Some'; right; [by apply (Hc x)|by apply Hp].
  - exists (fun x => if decide (x = id) then S (max_list (rank <$> predecessors b)) else rank x). intros x y [Hxy|[-> Hy]]%Hnm.
    + rewrite (decide_False (P := x = id)), (decide_False (P := y = id)); [by apply Hr|intros ->; by apply (Hnot x)|intros ->; unfold names, preds in Hxy; rewrite Hnew in Hxy; by apply elem_of_nil in Hxy].
    + rewrite (decide_True (P := id = id)), (decide_False (P := y = id)) by (done || by intros ->). assert (rank y <= max_list (rank <$> predecessors b))%nat; [|lia].
      apply max_list_elem_of_le. by apply list_elem_of_fmap_2.
  - intros x y. rewrite Es, Hs, Hnm. done.
  - intros x. rewrite Ef, Hf. assert (Hlk : is_Some (blocks l' !! x) <-> id = x \/ is_Some (blocks l !! x)) by (rewrite Eb; apply lookup_insert_is_Some').
    rewrite Hlk. split.
    + intros [->|[[Hsx Hnx] Hxp]]; (split; [by auto|]); intros y [Hy|[_ Hy]]%Hnm; try done; [by apply (Hnot y)|by apply (Hnx y)].
    + intros [[<-|Hsx] Hnx]; [by left|]. destruct (decide (x = id)) as [|Hne]; [by left|right].
      split; [split; [done|]|]; [intros y Hy; apply (Hnx y), Hnm; by left|intros Hxp; apply (Hnx id), Hnm; by right].
  - intros c s x. rewrite Ei, Eb. destruct (by_creator_seq l !! (creator b, sequence b)) eqn:E.
    + intros Hl. destruct (Hi c s x Hl) as (b' & Hb' & ? & ?). exists b'. rewrite lookup_insert_ne by (intros ->; congruence). done.
    + intros [[[= <- <-] <-]|[_ Hl]]%lookup_insert_Some; [exists b; by rewrite lookup_insert_eq|]. destruct (Hi c s x Hl) as (b' & Hb' & ? & ?). exists b'.
      rewrite lookup_insert_ne by (intros ->; congruence). done.
  - intros x c. rewrite Eb, Ei. intros [[<- <-]|[_ Hx']]%lookup_insert_Some; destruct (by_creator_seq l !! (creator b, sequence b)) eqn:E; rewrite ?E; [done|by rewrite lookup_insert_eq|by eapply Hx|].
    apply lookup_insert_is_Some'. right. by eapply Hx.
Qed.

Lemma lace_new_ok : lace_ok lace_new.
Proof.
  assert (Hno : forall x y, ~ names (blocks lace_new) x y) by (intros x y; unfold names, preds; cbn; rewrite lookup_empty; apply not_elem_of_nil).
  split.
  - intros id b. cbn. by rewrite lookup_empty.
  - intros x y Hxy. by destruct (Hno x y).
  - exists (fun _ => 0%nat). intros x y Hxy. by destruct (Hno x y).
  - intros x y. unfold below. cbn. rewrite lookup_empty. cbn. split; [set_solver|]. intros Hxy. by destruct (Hno y x).
  - intros x. cbn. rewrite lookup_empty. split; [set_solver|]. by intros [[? ?] _].
  - intros c s id. cbn. by rewrite lookup_empty.
  - intros id b. cbn. by rewrite lookup_empty.
Qed.

(** The parts of the lattice that [lace_ok] reads. *)
Definition same_graph (l l' : Blocklace) : Prop :=
  blocks l' = blocks l /\ successors l' = successors l /\ frontier l' = frontier l /\ by_creator_seq l' = by_creator_seq l.

Lemma same_graph_stored l l1 l2 id b : stored l l1 id b -> same_graph l1 l2 -> stored l l2 id b.
Proof. intros [H1 H2 H3 H4] (E1 & E2 & E3 & E4). split; unfold below in *; rewrite ?E1, ?E2, ?E3, ?E4; done. Qed.

(** Every insert leaves the lattice alone or stores one block. *)
Lemma insert_cases l b l' r : insert l b = (l', r) -> l' = l \/
  (stored l l' (block_id b) b /\ blocks l !! block_id b = None /\ missing (blocks l) (predecessors b) = []).
Proof.
  unfold insert. case_bool_decide as Hin; [intros [= <- _]; by left|]. assert (Hnone : blocks l !! block_id b = None) by (apply eq_None_not_Some; done).
  destruct (match pq_roster l !! creator b with Some k => verify_block b k | None => _ end); [|intros [= <- _]; by left].
  destruct (missing (blocks l) (predecessors b)) eqn:Em; [|intros [= <- _]; by left].
  destruct (find_conflict l b (block_id b)) as [x|].
  - intros [= <- _]. right. split_and!; [|done..]. eapply same_graph_stored; [apply stored_put|]. by repeat split.
  - destruct (regresses l b); [intros [= <- _]; by left|]. intros [= <- _]. right. split_and!; [|done..].
    eapply same_graph_stored; [apply stored_put|]. case_bool_decide; repeat split.
Qed.

Lemma insert_keeps l b l' r : lace_ok l -> insert l b = (l', r) -> lace_ok l'.
Proof. intros Hl [->|(Hs & Hn & Hm)]%insert_cases; [done|]. by eapply stored_ok. Qed.

Lemma insert_unverified_keeps l b l' r : lace_ok l -> insert_unverified l b = (l', r) -> lace_ok l'.
Proof.
  intros Hl. unfold insert_unverified. case_bool_decide as Hin; [by intros [= <- _]|]. destruct (missing _ _) eqn:Em; [|by intros [= <- _]].
  intros [= <- _]. eapply stored_ok; [done| |done|by apply eq_None_not_Some|done]. eapply same_graph_stored; [apply stored_put|]. repeat split.
Qed.

(** Any history of the two write paths and of enrolments. *)
Inductive lace_step (l l' : Blocklace) : Prop :=
| ls_insert b r : insert l b = (l', r) -> lace_step l l'
| ls_unverified b r : insert_unverified l b = (l', r) -> lace_step l l'
| ls_enroll c pk : l' = enroll_pq l c pk -> lace_step l l'.

Definition lace_built (l : Blocklace) : Prop := rtc lace_step lace_new l.

Lemma lace_built_ok l : lace_built l -> lace_ok l.
Proof.
  intros H. cut (forall l0, rtc lace_step l0 l -> lace_ok l0 -> lace_ok l); [intros G; exact (G _ H lace_new_ok)|]. clear H.
  intros l0 H. induction H as [|l0 l1 l2 Hs _ IH]; [done|]. intros H0. apply IH. destruct Hs as [b r E|b r E|c pk ->].
  - by eapply insert_keeps.
  - by eapply insert_unverified_keeps.
  - destruct H0. by split.
Qed.

End Lattice.

(** ** Feeds *)

Section Feeds.
Context `{HB : Blake3} `{HE : Ed25519} `{HP : BlockPq}.

Definition by_feed (l : Blocklace) (c id : bytes) (b : Block) : Prop := blocks l !! id = Some b /\ creator b = c.

Definition forked (l : Blocklace) (c : bytes) : Prop :=
  exists id id' b b', id <> id' /\ by_feed l c id b /\ by_feed l c id' b' /\ sequence b = sequence b'.

(** The head of a feed that has not forked. *)
Definition head_ok (l : Blocklace) (c : bytes) : Prop :=
  match tips l !! c with
  | None => tip_sequence l !! c = None /\ forall id b, ~ by_feed l c id b
  | Some id => exists b, by_feed l c id b /\ tip_sequence l !! c = Some (sequence b) /\ forall id' b', by_feed l c id' b' -> sequence b' <= sequence b
  end.

(** Signed by its creator twice: with its key, and with a post-quantum key that
    was enrolled for it. *)
Definition authentic (enrolled : list (bytes * bytes)) (b : Block) : Prop :=
  is_signed b = true /\ ed_verify (creator b) (block_id b) (signature b) = true /\
  exists key, (creator b, key) ∈ enrolled /\ pq_verify key (block_id b) (pq_signature b) = true.

(** What the write path that checks signatures keeps. *)
Record feeds_ok (enrolled : list (bytes * bytes)) (l : Blocklace) : Prop := {
  fd_lace : lace_ok l;
  fd_forks : forall c, c ∈ equivocators l <-> forked l c;
  fd_head : forall c, c ∉ equivocators l -> head_ok l c;
  fd_gone : forall c, c ∈ equivocators l -> tips l !! c = None;
  fd_proofs : forall p, p ∈ equivocation_proofs l -> eq_existing p <> eq_conflicting p /\
    exists b b', by_feed l (eq_creator p) (eq_existing p) b /\ by_feed l (eq_creator p) (eq_conflicting p) b' /\ sequence b = eq_sequence p /\ sequence b' = eq_sequence p;
  fd_attributed : forall c, c ∈ equivocators l -> exists p, p ∈ equivocation_proofs l /\ eq_creator p = c;
  fd_authentic : forall id b, blocks l !! id = Some b -> authentic enrolled b;
  fd_roster : forall c key, pq_roster l !! c = Some key -> (c, key) ∈ enrolled;
}.

Lemma verify_block_ok es b key : (creator b, key) ∈ es -> verify_block b key = Ok tt -> authentic es b.
Proof.
  intros Hin. unfold verify_block, authentic. destruct (is_signed b); [|done]. destruct (ed_verify _ _ _); [|done]. destruct (pq_verify _ _ _) eqn:E; [|done]. by eauto.
Qed.

Lemma conflict_found l b x : lace_ok l -> find_conflict l b (block_id b) = Some x -> x <> block_id b /\ exists b', by_feed l (creator b) x b' /\ sequence b' = sequence b.
Proof.
  intros Hl. unfold find_conflict. destruct (by_creator_seq l !! _) as [y|] eqn:E; [|done]. case_bool_decide; [done|]. intros [= <-]. split; [done|].
  destruct (lo_feed _ Hl _ _ _ E) as (b' & ? & ? & ?). exists b'. by repeat split.
Qed.

Lemma conflict_none l b : lace_ok l -> blocks l !! block_id b = None -> find_conflict l b (block_id b) = None ->
  forall id' b', by_feed l (creator b) id' b' -> sequence b' <> sequence b.
Proof.
  intros Hl Hn. unfold find_conflict. destruct (by_creator_seq l !! _) as [y|] eqn:E.
  - case_bool_decide as Ey; [|done]. destruct (lo_feed _ Hl _ _ _ E) as (b' & ? & _). congruence.
  - intros _ id' b' [Hb Hc] Hs. destruct (lo_indexed _ Hl _ _ Hb). rewrite Hc, Hs in *. congruence.
Qed.

Section Stored.
Context (l l' : Blocklace) (b : Block) (Eb : blocks l' = <[block_id b := b]> (blocks l)) (Hn : blocks l !! block_id b = None).

Lemma by_feed_stored c id x : by_feed l' c id x <-> by_feed l c id x \/ id = block_id b /\ x = b /\ c = creator b.
Proof.
  unfold by_feed. rewrite Eb. destruct (decide (id = block_id b)) as [->|Hne].
  - rewrite lookup_insert_eq, Hn. naive_solver.
  - rewrite lookup_insert_ne by done. naive_solver.
Qed.

Lemma forked_other c : c <> creator b -> forked l' c <-> forked l c.
Proof. intros Hc. unfold forked. setoid_rewrite by_feed_stored. naive_solver. Qed.

Lemma head_other c : c <> creator b -> tips l' !! c = tips l !! c -> tip_sequence l' !! c = tip_sequence l !! c -> head_ok l c -> head_ok l' c.
Proof.
  unfold head_ok. intros Hc -> ->. destruct (tips l !! c).
  - intros (x & Hx & Ht & Hmax). exists x. split_and!; [apply by_feed_stored; by left|done|]. intros id' b' [H|(_ & _ & ?)]%by_feed_stored; [by eapply Hmax|done].
  - intros [Ht Hno]. split; [done|]. intros id x [H|(_ & _ & ?)]%by_feed_stored; [by eapply Hno|done].
Qed.

Lemma proofs_stored p : (eq_existing p <> eq_conflicting p /\
    exists x x', by_feed l (eq_creator p) (eq_existing p) x /\ by_feed l (eq_creator p) (eq_conflicting p) x' /\ sequence x = eq_sequence p /\ sequence x' = eq_sequence p) ->
  eq_existing p <> eq_conflicting p /\
    exists x x', by_feed l' (eq_creator p) (eq_existing p) x /\ by_feed l' (eq_creator p) (eq_conflicting p) x' /\ sequence x = eq_sequence p /\ sequence x' = eq_sequence p.
Proof. intros (Hne & x & x' & H1 & H2 & ?). split; [done|]. exists x, x'. split_and!; [apply by_feed_stored; by left..|by destruct_and?|by destruct_and?]. Qed.

End Stored.

(** A block at a position already taken: both are kept, and the feed is withdrawn. *)
Lemma fork_keeps es l b x : feeds_ok es l -> blocks l !! block_id b = None -> authentic es b -> missing (blocks l) (predecessors b) = [] ->
  find_conflict l b (block_id b) = Some x ->
  feeds_ok es (withdraw (put_block (store_block l (block_id b) b) (block_id b) b) (mkEquivocation (creator b) (sequence b) x (block_id b))).
Proof.
  intros [Hl Hf Hh Hg Hp Ht Ha Hro] Hn Hv Hm Hc. destruct (conflict_found l b x Hl Hc) as (Hne & b0 & H0 & Hs0).
  set (l' := withdraw _ _). assert (Hst : stored l l' (block_id b) b) by (eapply same_graph_stored; [apply stored_put|by repeat split]).
  pose proof (sd_blocks _ _ _ _ Hst) as Eb.
  assert (Ee : equivocators l' = {[ creator b ]} ∪ equivocators l /\ tips l' = delete (creator b) (tips l) /\ tip_sequence l' = tip_sequence l /\
    pq_roster l' = pq_roster l /\ equivocation_proofs l' = equivocation_proofs l ++ [mkEquivocation (creator b) (sequence b) x (block_id b)])
    by (subst l'; unfold store_block; by destruct (foldl _ _ _)).
  destruct Ee as (Ee & Et & Es & Er & Ep). split.
  - by eapply stored_ok.
  - intros c. rewrite Ee, elem_of_union, elem_of_singleton. destruct (decide (c = creator b)) as [->|Hcn].
    + split; [intros _|by left]. exists x, (block_id b), b0, b. split_and!; [done|apply (by_feed_stored l l' b Eb Hn); by left|apply (by_feed_stored l l' b Eb Hn); by right|done].
    + rewrite (forked_other l l' b Eb Hn c Hcn), <-Hf. naive_solver.
  - intros c. rewrite Ee, not_elem_of_union, not_elem_of_singleton. intros [Hcn Hce]. apply (head_other l l' b Eb Hn c Hcn); [|by rewrite Es|by apply Hh].
    by rewrite Et, lookup_delete_ne.
  - intros c. rewrite Ee, Et, elem_of_union, elem_of_singleton. destruct (decide (c = creator b)) as [->|Hcn]; [by rewrite lookup_delete_eq|].
    rewrite lookup_delete_ne by done. intros [?|?]; [done|by apply Hg].
  - intros p. rewrite Ep. intros [Hin| ->%list_elem_of_singleton]%elem_of_app; [by apply (proofs_stored l l' b Eb Hn), Hp|]. cbn.
    split; [done|]. exists b0, b. split_and!; [apply (by_feed_stored l l' b Eb Hn); by left|apply (by_feed_stored l l' b Eb Hn); by right|done|done].
  - intros c. rewrite Ee, Ep. intros [->%elem_of_singleton|Hin]%elem_of_union.
    + eexists. split; [apply elem_of_app; right; by apply list_elem_of_singleton|done].
    + destruct (Ht c Hin) as (p & Hpi & Hpc). exists p. split; [apply elem_of_app; by left|done].
  - intros id y. rewrite Eb. intros [[_ <-]|[_ Hy]]%lookup_insert_Some; [done|by eapply Ha].
  - by rewrite Er.
Qed.

Lemma extend_keeps es l b : feeds_ok es l -> blocks l !! block_id b = None -> authentic es b -> missing (blocks l) (predecessors b) = [] ->
  find_conflict l b (block_id b) = None -> regresses l b = None ->
  let l' := store_block l (block_id b) b in
  feeds_ok es (put_block (if bool_decide (creator b ∈ equivocators l') then l' else set_tip l' (creator b) (block_id b) (sequence b)) (block_id b) b).
Proof.
  intros [Hl Hf Hh Hg Hp Ht Ha Hro] Hn Hv Hm Hc Hr l0. pose proof (conflict_none l b Hl Hn Hc) as Hfree.
  set (l' := put_block _ _ _). assert (Hst : stored l l' (block_id b) b).
  { eapply same_graph_stored; [apply stored_put|]. subst l'. case_bool_decide; by repeat split. }
  pose proof (sd_blocks _ _ _ _ Hst) as Eb.
  assert (E0 : equivocators l0 = equivocators l /\ tips l0 = tips l /\ tip_sequence l0 = tip_sequence l /\
    pq_roster l0 = pq_roster l /\ equivocation_proofs l0 = equivocation_proofs l)
    by (subst l0; unfold store_block; by destruct (foldl _ _ _)).
  destruct E0 as (Ee & Et & Es & Er0 & Ep).
  assert (Er : pq_roster l' = pq_roster l) by (subst l'; case_bool_decide; exact Er0). clearbody l0.
  assert (E1 : equivocators l' = equivocators l /\ equivocation_proofs l' = equivocation_proofs l) by (subst l'; case_bool_decide; cbn; by rewrite Ee, Ep).
  destruct E1 as (Ee' & Ep').
  assert (Etips : tips l' = (if bool_decide (creator b ∈ equivocators l) then tips l else <[creator b := block_id b]> (tips l)) /\
    tip_sequence l' = (if bool_decide (creator b ∈ equivocators l) then tip_sequence l else <[creator b := sequence b]> (tip_sequence l)))
    by (subst l'; rewrite Ee; destruct (bool_decide (creator b ∈ equivocators l)); cbn [put_block set_tip tips tip_sequence]; rewrite Et, Es; done).
  destruct Etips as (Et' & Es').
  split.
  - by eapply stored_ok.
  - intros c. rewrite Ee'. destruct (decide (c = creator b)) as [->|Hcn]; [|by rewrite (forked_other l l' b Eb Hn c Hcn)]. rewrite Hf. split.
    + intros (i & i' & y & y' & ? & H1 & H2 & ?). exists i, i', y, y'. split_and!; [done|apply (by_feed_stored l l' b Eb Hn); by left..|done].
    + intros (i & i' & y & y' & Hii & H1 & H2 & Hyy). apply (by_feed_stored l l' b Eb Hn) in H1 as [H1|(-> & -> & _)], H2 as [H2|(-> & -> & _)].
      * by exists i, i', y, y'.
      * by destruct (Hfree i y H1).
      * by destruct (Hfree i' y' H2).
      * done.
  - intros c. rewrite Ee'. intros Hce. destruct (decide (c = creator b)) as [->|Hcn].
    + rewrite bool_decide_eq_false_2 in Et', Es' by done. unfold head_ok. rewrite Et', Es', !lookup_insert_eq. exists b.
      split_and!; [apply (by_feed_stored l l' b Eb Hn); by right|done|]. intros i y [Hy|(_ & -> & _)]%(by_feed_stored l l' b Eb Hn); [|done].
      specialize (Hh _ Hce). unfold head_ok, regresses in *. rewrite bool_decide_eq_false_2 in Hr by done.
      destruct (tips l !! creator b); [|by destruct Hh as [_ Hno]; destruct (Hno i y)]. destruct Hh as (z & _ & Hz & Hmax). rewrite Hz in Hr.
      destruct (Z.leb_spec (sequence b) (sequence z)); [done|]. specialize (Hmax i y Hy). lia.
    + apply (head_other l l' b Eb Hn c Hcn); [rewrite Et'|rewrite Es'|by apply Hh]; case_bool_decide; by rewrite ?lookup_insert_ne.
  - intros c. rewrite Ee', Et'. intros Hce. case_bool_decide as Hcb; [by apply Hg|]. rewrite lookup_insert_ne by (intros <-; done). by apply Hg.
  - intros p. rewrite Ep'. intros Hin. by apply (proofs_stored l l' b Eb Hn), Hp.
  - intros c. rewrite Ee', Ep'. apply Ht.
  - intros id y. rewrite Eb. intros [[_ <-]|[_ Hy]]%lookup_insert_Some; [done|by eapply Ha].
  - by rewrite Er.
Qed.

Lemma insert_feeds es l b l' r : feeds_ok es l -> insert l b = (l', r) -> feeds_ok es l'.
Proof.
  intros Hl. unfold insert. case_bool_decide as Hin; [by intros [= <- _]|]. assert (Hn : blocks l !! block_id b = None) by (by apply eq_None_not_Some).
  destruct (pq_roster l !! creator b) as [key|] eqn:Ek; [|by intros [= <- _]]. destruct (verify_block b key) as [[]|e] eqn:Ev; [|by intros [= <- _]].
  apply (verify_block_ok es) in Ev; [|by apply (fd_roster _ _ Hl)].
  destruct (missing _ _) eqn:Em; [|by intros [= <- _]]. destruct (find_conflict l b (block_id b)) as [x|] eqn:Ec.
  - intros [= <- _]. by apply fork_keeps.
  - destruct (regresses l b) eqn:Er; [by intros [= <- _]|]. intros [= <- _]. by apply extend_keeps.
Qed.

Lemma enroll_feeds es l c pk : feeds_ok es l -> feeds_ok ((c, pk) :: es) (enroll_pq l c pk).
Proof.
  intros [Hl Hf Hh Hg Hp Ht Ha Hro]. split; try done; [by destruct Hl|..].
  - intros id b Hb. destruct (Ha id b Hb) as (H1 & H2 & key & Hk & H3). repeat split; [done|done|]. exists key. split; [by right|done].
  - intros c' key. cbn. intros [[<- <-]|[_ H]]%lookup_insert_Some; [left|right; by apply Hro].
Qed.

(** A history of the write path that checks, with the keys it enrolled. *)
Inductive fed : list (bytes * bytes) -> Blocklace -> Prop :=
| fed_new : fed [] lace_new
| fed_insert es l b l' r : fed es l -> insert l b = (l', r) -> fed es l'
| fed_enroll es l c pk : fed es l -> fed ((c, pk) :: es) (enroll_pq l c pk).

Lemma feeds_new : feeds_ok [] lace_new.
Proof.
  assert (Hno : forall c id b, ~ by_feed lace_new c id b) by (intros c id b [H _]; cbn in H; by rewrite lookup_empty in H).
  split; [apply lace_new_ok|..].
  - intros c. split; [cbn; set_solver|]. intros (i & _ & b & _ & _ & H & _). by destruct (Hno c i b).
  - intros c _. unfold head_ok. cbn. rewrite lookup_empty. split; [done|apply Hno].
  - cbn. set_solver.
  - cbn. by intros p ?%elem_of_nil.
  - cbn. set_solver.
  - intros id b. cbn. by rewrite lookup_empty.
  - intros c key. cbn. by rewrite lookup_empty.
Qed.

Lemma fed_ok es l : fed es l -> feeds_ok es l.
Proof. induction 1; eauto using feeds_new, insert_feeds, enroll_feeds. Qed.

End Feeds.

(** ** Topological order *)

Lemma pop_front_some q : q <> [] -> is_Some (pop_front q).
Proof. destruct q; [done|]. by eexists. Qed.

Lemma pop_front_perm q x rest : pop_front q = Some (x, rest) -> q ≡ₚ x :: rest.
Proof. destruct q; [done|]. by intros [= -> ->]. Qed.

Lemma stored_preds_closed m x b : closed m -> m !! x = Some b -> stored_preds m b = predecessors b.
Proof.
  intros Hc Hx. unfold stored_preds. assert (Hall : Forall (fun p => is_Some (m !! p)) (predecessors b)).
  { apply Forall_forall. intros p Hp. apply (Hc x). unfold names, preds. by rewrite Hx. }
  induction Hall as [|p ps Hp _ IH]; [done|]. cbn [List.filter]. rewrite bool_decide_eq_true_2 by done. by rewrite IH.
Qed.

Lemma foldl_snoc (l acc : list bytes) : foldl (fun acc id => acc ++ [id]) acc l = acc ++ l.
Proof. revert acc. induction l as [|x l IH]; intros acc; cbn; [by rewrite app_nil_r|]. by rewrite IH, <-(assoc_L (++)). Qed.

Section Order.
Context `{HB : Blake3} `{HE : Ed25519} `{HP : BlockPq}.

(** When no block names a predecessor twice, the order lists every block once,
    after its predecessors. *)
Lemma topological_order_ok l : lace_ok l -> (forall id b, blocks l !! id = Some b -> NoDup (predecessors b)) ->
  exists order, topological_order l = Some order /\ order ≡ₚ elements (dom (blocks l)) /\
    forall l1 x l2, order = l1 ++ x :: l2 -> forall p, p ∈ preds (blocks l) x -> p ∈ l1.
Proof.
  intros Hl Hnd. destruct (lo_rank _ Hl) as [rank Hr].
  assert (Hpn : forall x, NoDup (preds (blocks l) x)) by (intros x; unfold preds; destruct (blocks l !! x) eqn:E; [by eapply Hnd|constructor]).
  destruct (kahn_sorts (dom (blocks l)) (preds (blocks l)) (fun id => elements (below l id)) rank) with (A := list bytes) (pop := pop_front)
    (merge := fun rest next => rest ++ lex_sort next) (visit := fun (acc : list bytes) id => acc ++ [id]) (deg := (fun b => length (stored_preds (blocks l) b)) <$> blocks l)
    (q := lex_sort (zeros ((fun b => length (stored_preds (blocks l) b)) <$> blocks l))) (fuel := size (blocks l)) (a := @nil bytes) as (order & E & H1 & H2 & _).
  - intros x p _ Hp. split; [apply elem_of_dom; by apply (lo_closed _ Hl x)|by apply Hr].
  - intros p x _ Hx%elem_of_elements. apply (lo_succ _ Hl) in Hx. apply elem_of_dom. unfold names, preds in Hx. destruct (blocks l !! x); [done|by apply elem_of_nil in Hx].
  - intros p x _ _. destruct (decide (x ∈ below l p)) as [Hx|Hx].
    + rewrite (occurrences_nodup x) by (apply NoDup_elements || by apply elem_of_elements). apply (lo_succ _ Hl) in Hx. by rewrite (occurrences_nodup p).
    + rewrite (occurrences_not x) by (by rewrite elem_of_elements). rewrite (lo_succ _ Hl) in Hx. by rewrite (occurrences_not p).
  - apply pop_front_some.
  - apply pop_front_perm.
  - intros a b. by rewrite lex_sort_perm.
  - intros x. rewrite lookup_fmap. destruct (decide (x ∈ dom (blocks l))) as [[b Hb]%elem_of_dom|Hx%not_elem_of_dom]; [|by rewrite Hx].
    rewrite Hb. cbn. rewrite (stored_preds_closed _ x); [|apply Hl|done]. unfold preds. by rewrite Hb.
  - apply lex_sort_perm.
  - by rewrite size_dom.
  - exists order. rewrite foldl_snoc in E. by repeat split.
Qed.

End Order.

(** ** What a node can rely on *)

(** C14: in any history of enrolments and checked inserts, the stored blocks are
    authentic (signed by their creators, the post-quantum half under a key the
    history enrolled for the creator), closed under predecessors and free of
    cycles; a creator is listed as forked exactly when two of its blocks claim one
    position, both are kept, and a proof names them; any other feed has a head, its
    block of highest sequence. *)
Theorem feed_integrity `{HB : Blake3} `{HE : Ed25519} `{HP : BlockPq} enrolled l : fed enrolled l -> feeds_ok enrolled l.
Proof. apply fed_ok. Qed.

(** ** Runs *)

Section Runs.

(** Blocks named by what they say. *)
Definition w_content : Blake3 := {| blake3_hash x := x; blake3_derive_key _ x := x |}.
#[local] Existing Instance w_content.
#[local] Existing Instance model_ed25519.
Definition w_pq : BlockPq := {| pq_public sk := sk; pq_sign sk m := Some (sk ++ m); pq_verify pk m s := bool_decide (s = pk ++ m) |}.
#[local] Existing Instance w_pq.

(** A creator signs two blocks for its first position. *)
Definition w_b : Block := new_signed [1] 0 [] [5].
Definition w_fork : Block := new_signed [1] 0 [] [6].
Definition w_enrolled : Blocklace := enroll_pq lace_new [1] [1].
Definition w_one : Blocklace := (insert w_enrolled w_b).1.
Definition w_forked : Blocklace := (insert w_one w_fork).1.

Lemma w_forked_fed : fed [([1], [1])] w_forked.
Proof.
  eapply (fed_insert _ w_one w_fork); [|apply surjective_pairing].
  eapply (fed_insert _ w_enrolled w_b); [|apply surjective_pairing]. apply fed_enroll, fed_new.
Qed.

Lemma feed_integrity_witness : size (blocks w_forked) = 2%nat /\ [1] ∈ equivocators w_forked /\ forked w_forked [1].
Proof.
  assert (He : [1] ∈ equivocators w_forked) by (apply (bool_decide_eq_true_1 ([1] ∈ equivocators w_forked)); by vm_compute).
  split; [by vm_compute|]. split; [exact He|]. apply (feed_integrity [([1], [1])] w_forked w_forked_fed). exact He.
Defined.

(** A block that names a predecessor twice is counted twice and released once: it
    is missing from the order, with everything after it. *)
Definition w_genesis : Block := block_new [1] 0 [] [].
Definition w_twice : Block := block_new [1] 1 [block_id w_genesis; block_id w_genesis] [].
Definition w_repeated : Blocklace := (insert_unverified (insert_unverified lace_new w_genesis).1 w_twice).1.

Lemma repeated_predecessor_lost : size (blocks w_repeated) = 2%nat /\ topological_order w_repeated = Some [block_id w_genesis].
Proof. split; by vm_compute. Qed.

End Runs.
