(* ===== verification/Ordering.v ===== *)
(** * The total order of the block lattice

    Models [blocklace/src/ordering.rs], the Cordial Miners order: rounds, waves and
    their leaders, approval, ratification and finality of a leader, the segments
    the final leaders anchor, and the order of a group over a shared lattice.

    Rounds and counts are natural numbers.  A hash map is walked in the order of its
    elements; that none of the results depends on it is shown by their
    specifications.  The memo of causal pasts is filled with the past of every
    block before it is read.  The binary heap is a list whose least element is
    taken.  An outer [None] is a search that does not return, an underflow or an
    index out of range; the order is shown to return when waves have a length. *)

From stdpp Require Import base decidable option list gmap sorting strings relations.
From Stdlib Require Import ZArith Lia.
From S2P Require Import Prelude Blocklace.

Open Scope nat_scope.

(** [PastCache]: the past of a block by its name. *)
Notation PastCache := (gmap bytes (gset bytes)).

Record OrderingConfig : Type := mkConfig { wavelength : nat }.
Definition default_config : OrderingConfig := mkConfig 3.

(** The memo after every block was asked for. *)
Definition fill_cache (m : Lace) : option PastCache :=
  foldr (fun id acc => cache ← acc; past ← causal_past m id; Some (<[id := past]> cache)) (Some ∅) (elements (dom m)).

Definition past_of (cache : PastCache) (id : bytes) : gset bytes := default ∅ (cache !! id).

(** ** Rounds *)

(** The blocks that count, [m], and for each the number of its predecessors among
    them. *)
Definition pred_counts (m : Lace) : gmap bytes nat := (fun b => length (stored_preds m b)) <$> m.

(** Dependents, one entry for each time a predecessor is named. *)
Definition push_successor (id : bytes) (succ : gmap bytes (list bytes)) (p : bytes) : gmap bytes (list bytes) :=
  <[p := default [] (succ !! p) ++ [id]]> succ.

Definition dependents (m : Lace) : gmap bytes (list bytes) :=
  foldl (fun succ (e : bytes * Block) => foldl (push_successor e.1) succ (stored_preds m e.2)) ∅ (map_to_list m).

Definition known_rounds (rounds : gmap bytes nat) (ids : list bytes) : list nat := omap (fun p => rounds !! p) ids.

Definition round_at (m : Lace) (rounds : gmap bytes nat) (id : bytes) : nat :=
  match preds m id with [] => 1 | ps => 1 + max_list (known_rounds rounds ps) end.

(** A block taken from the queue. *)
Definition assign (round : gmap bytes nat -> bytes -> nat) (acc : gmap bytes nat * nat) (id : bytes) : gmap bytes nat * nat :=
  let r := round acc.1 id in (<[id := r]> acc.1, if acc.2 <? r then r else acc.2).

Definition rounds_loop (m : Lace) (round : gmap bytes nat -> bytes -> nat) : option (gmap bytes nat * nat) :=
  kahn_loop pop_front app (assign round) (fun id => default [] (dependents m !! id)) (size m) (pred_counts m) (zeros (pred_counts m)) (∅, 0).

Definition compute_rounds (m : Lace) : option (gmap bytes nat * nat) := rounds_loop m (round_at m).

(** ** Equivocation *)

(** [EquivocationIndex]: by creator, the groups of its blocks of one round. *)
Notation EquivocationIndex := (gmap bytes (list (list bytes))).

Definition group_block (rounds : gmap bytes nat) (groups : gmap (bytes * nat) (list bytes)) (e : bytes * Block) : gmap (bytes * nat) (list bytes) :=
  match rounds !! e.1 with
  | Some round => <[(creator e.2, round) := default [] (groups !! (creator e.2, round)) ++ [e.1]]> groups
  | None => groups
  end.

Definition index_group (index : EquivocationIndex) (e : (bytes * nat) * list bytes) : EquivocationIndex :=
  if 1 <? length e.2 then <[e.1.1 := default [] (index !! e.1.1) ++ [e.2]]> index else index.

Definition index_build (m : Lace) (rounds : gmap bytes nat) : EquivocationIndex :=
  foldl index_group ∅ (map_to_list (foldl (group_block rounds) ∅ (map_to_list m))).

Definition equivocates_in_past (index : EquivocationIndex) (c : bytes) (past : gset bytes) : bool :=
  match index !! c with
  | None => false
  | Some groups => existsb (fun group => 1 <? length (List.filter (fun b => bool_decide (b ∈ past)) group)) groups
  end.

(** ** Waves *)

Definition round_to_wave (round wavelength : nat) : nat := (round - 1) / wavelength.
Definition wave_first_round (wave wavelength : nat) : nat := wave * wavelength + 1.
Definition wave_last_round (wave wavelength : nat) : nat := (wave + 1) * wavelength.

Definition wave_leader (wave : nat) (participants : list bytes) : option bytes := participants !! (wave mod length participants).

Definition supermajority_threshold (n : nat) : nat := n * 2 / 3 + 1.

(** ** Approval, ratification, finality *)

Section Votes.
Context (cache : PastCache) (m : Lace) (rounds : gmap bytes nat) (equiv : EquivocationIndex) (participants : list bytes).

Definition creator_is (c id : bytes) : bool := match m !! id with Some b => bool_decide (creator b = c) | None => false end.

Definition approves (observer leader_id leader_creator : bytes) : bool :=
  let past := past_of cache observer in
  if negb (bool_decide (leader_id ∈ past)) then false else negb (equivocates_in_past equiv leader_creator past).

Definition ratifies (observer leader_id leader_creator : bytes) : bool :=
  let past := past_of cache observer in
  let approving := List.filter (fun p => existsb (fun bid => creator_is p bid && approves bid leader_id leader_creator) (elements past)) participants in
  supermajority_threshold (length participants) <=? length approving.

(** The blocks of a round. *)
Definition at_round (r : nat) : list bytes := map fst (List.filter (fun e : bytes * nat => e.2 =? r) (map_to_list rounds)).

Definition is_super_ratified (leader_id leader_creator : bytes) (wave_end : nat) : bool :=
  let ratifying : gset bytes := list_to_set (omap (fun id =>
    b ← m !! id; if ratifies id leader_id leader_creator then Some (creator b) else None) (at_round wave_end)) in
  supermajority_threshold (length participants) <=? size ratifying.

(** The leader of a wave, if it is final. *)
Definition final_leader (config : OrderingConfig) (wave : nat) : option (list bytes) :=
  leader_key ← wave_leader wave participants;
  Some (match List.filter (creator_is leader_key) (at_round (wave_first_round wave (wavelength config))) with
        | [leader_id] => if is_super_ratified leader_id leader_key (wave_last_round wave (wavelength config)) then [leader_id] else []
        | _ => []
        end).

Fixpoint leaders_loop (fuel : nat) (config : OrderingConfig) (max_round wave : nat) (found : list bytes) : option (list bytes) :=
  if max_round <? wave_last_round wave (wavelength config) then Some found
  else match fuel with
       | O => None
       | S fuel => l ← final_leader config wave; leaders_loop fuel config max_round (wave + 1) (found ++ l)
       end.

Definition find_all_final_leaders (config : OrderingConfig) (max_round : nat) : option (list bytes) :=
  leaders_loop max_round config max_round 0 [].

End Votes.

(** ** The sort of a segment *)

(** The heap: the least name is taken. *)
Fixpoint pop_min (q : list bytes) : option (bytes * list bytes) :=
  match q with
  | [] => None
  | x :: q => match pop_min q with
              | None => Some (x, [])
              | Some (y, rest) => if lex_leb x y then Some (x, q) else Some (y, x :: rest)
              end
  end.

Definition ancestors_in_set (cache : PastCache) (set : gset bytes) (id : bytes) : gset bytes :=
  filter (fun a => a <> id /\ a ∈ set) (past_of cache id).

Definition segment_dependents (cache : PastCache) (set : gset bytes) : gmap bytes (list bytes) :=
  foldl (fun deps id => foldl (push_successor id) deps (elements (ancestors_in_set cache set id))) ∅ (elements set).

Definition xsort (cache : PastCache) (set : gset bytes) : option (list bytes) :=
  let deg : gmap bytes nat := set_to_map (fun id => (id, size (ancestors_in_set cache set id))) set in
  kahn_loop pop_min app (fun acc id => acc ++ [id]) (fun id => default [] (segment_dependents cache set !! id)) (size set) deg (zeros deg) [].

(** ** The order *)

Section Tau.
Context (cache : PastCache) (m : Lace) (rounds : gmap bytes nat) (equiv : EquivocationIndex) (participants : list bytes) (config : OrderingConfig).
(** Which creators may be listed. *)
Context (keep : bytes -> bool).

Definition coverage_of (leader_id : bytes) : gset bytes :=
  let leader_round := default 1 (rounds !! leader_id) in
  let wave_end := wave_last_round (round_to_wave leader_round (wavelength config)) (wavelength config) in
  let leader_creator := match m !! leader_id with Some b => creator b | None => replicate 32 0%Z end in
  ⋃ (past_of cache <$> List.filter (fun id => ratifies cache m equiv participants id leader_id leader_creator) (at_round rounds wave_end)).

Definition listed (leader_id : bytes) (id : bytes) : bool :=
  match m !! id with
  | Some b => keep (creator b) && negb (equivocates_in_past equiv (creator b) (past_of cache leader_id))
  | None => false
  end.

Fixpoint segments (leaders : list bytes) (prev_covered : gset bytes) : option (list bytes) :=
  match leaders with
  | [] => Some []
  | leader_id :: leaders =>
      let coverage := coverage_of leader_id in
      let new_blocks : gset bytes := filter (fun id => listed leader_id id = true) (coverage ∖ prev_covered) in
      sorted ← xsort cache new_blocks; rest ← segments leaders coverage; Some (sorted ++ rest)
  end.

End Tau.

Definition tau_from (m : Lace) (rounds_max : option (gmap bytes nat * nat)) (participants : list bytes) (config : OrderingConfig) (keep : bytes -> bool) : option (list bytes) :=
  cache ← fill_cache m;
  '(rounds, max_round) ← rounds_max;
  let equiv := index_build m rounds in
  leaders ← find_all_final_leaders cache m rounds equiv participants config max_round;
  segments cache m rounds equiv participants config keep leaders ∅.

Definition tau_with_config (m : Lace) (participants : list bytes) (config : OrderingConfig) : option (list bytes) :=
  if bool_decide (participants = []) || bool_decide (m = ∅) then Some []
  else tau_from m (compute_rounds m) participants config (fun _ => true).

Definition tau (m : Lace) (participants : list bytes) : option (list bytes) := tau_with_config m participants default_config.

(** *** Cordiality *)

Definition is_cordial (m : Lace) (id : bytes) (participants : list bytes) : option bool :=
  '(rounds, _) ← compute_rounds m;
  Some (match rounds !! id with
        | None => false
        | Some round =>
            if round <=? 1 then true
            else match m !! id with
                 | None => false
                 | Some b =>
                     let prev_round := round - 1 in
                     let prev_creators : gset bytes := list_to_set (omap (fun i => creator <$> m !! i) (at_round rounds prev_round)) in
                     let acknowledged : gset bytes := list_to_set (omap (fun p =>
                       pb ← m !! p; pr ← rounds !! p;
                       if (pr =? prev_round) && bool_decide (creator pb ∈ prev_creators) then Some (creator pb) else None) (predecessors b)) in
                     supermajority_threshold (length participants) <=? size acknowledged
                 end
        end).

(** *** Groups over a shared lattice *)

Record ReferenceGroup : Type := mkGroup {
  rg_participants : list bytes;
  rg_threshold : nat;
  rg_timeout_waves : Z;
  rg_routes_commitment : option bytes;
}.

Definition group_new (participants : list bytes) (timeout_waves : Z) : ReferenceGroup :=
  mkGroup participants (supermajority_threshold (length participants)) timeout_waves None.

Definition compute_id `{Blake3} (g : ReferenceGroup) : bytes := blake3_derive_key "dregg-group-id-v1" (concat (lex_sort (rg_participants g))).

Definition is_member (g : ReferenceGroup) (key : bytes) : bool := bool_decide (key ∈ rg_participants g).
Definition member_count (g : ReferenceGroup) : nat := length (rg_participants g).

(** The blocks of the members. *)
Definition relevant (m : Lace) (g : ReferenceGroup) : Lace := filter (fun e : bytes * Block => creator e.2 ∈ rg_participants g) m.

Definition round_at_filtered (m : Lace) (rounds : gmap bytes nat) (id : bytes) : nat :=
  if forallb (fun p => negb (bool_decide (is_Some (m !! p)))) (preds m id) then 1
  else 1 + max_list (known_rounds rounds (List.filter (fun p => bool_decide (is_Some (m !! p))) (preds m id))).

Definition compute_rounds_filtered (m : Lace) (g : ReferenceGroup) : option (gmap bytes nat * nat) :=
  let m := relevant m g in rounds_loop m (round_at_filtered m).

Definition tau_unified (m : Lace) (g : ReferenceGroup) (config : OrderingConfig) : option (list bytes) :=
  if bool_decide (rg_participants g = []) || bool_decide (m = ∅) then Some []
  else tau_from m (compute_rounds_filtered m g) (rg_participants g) config (fun c => bool_decide (c ∈ rg_participants g)).

Definition finalize (g : ReferenceGroup) (m : Lace) (config : OrderingConfig) : option (list bytes) := tau_unified m g config.

(** *** What the executor reads *)

Definition finalized_turns (m : Lace) (participants : list bytes) : option (list (bytes * bytes)) :=
  order ← tau m participants;
  Some (omap (fun id => b ← m !! id; match payload b return option (bytes * bytes) with [] => None | p => Some (id, p) end) (order : list bytes)).

Definition is_finalized (m : Lace) (id : bytes) (participants : list bytes) : option bool :=
  order ← tau m participants; Some (bool_decide (id ∈ order)).

(** ** Buckets *)

(** A map of lists filled by walking a list: what ends up under a key. *)
Definition bucket {E K V} `{Countable K} (key : E -> option K) (v : E -> V) (g : gmap K (list V)) (e : E) : gmap K (list V) :=
  match key e with Some k => <[k := default [] (g !! k) ++ [v e]]> g | None => g end.

Lemma bucket_lookup {E K V} `{Countable K} (key : E -> option K) (v : E -> V) (l : list E) : forall g k,
  default [] (foldl (bucket key v) g l !! k) = default [] (g !! k) ++ map v (List.filter (fun e => bool_decide (key e = Some k)) l).
Proof.
  induction l as [|e l IH]; intros g k; cbn [foldl List.filter map]; [by rewrite app_nil_r|]. rewrite IH. unfold bucket.
  destruct (key e) as [k'|] eqn:Ek; [|by rewrite bool_decide_eq_false_2]. destruct (decide (k' = k)) as [->|Hne].
  - rewrite lookup_insert_eq, bool_decide_eq_true_2 by done. cbn [from_option id map]. by rewrite <-(assoc_L (++)).
  - rewrite lookup_insert_ne, bool_decide_eq_false_2 by congruence. done.
Qed.

Lemma bucket_some {E K V} `{Countable K} (key : E -> option K) (v : E -> V) (l : list E) : forall g k,
  is_Some (foldl (bucket key v) g l !! k) <-> is_Some (g !! k) \/ exists e, e ∈ l /\ key e = Some k.
Proof.
  induction l as [|e l IH]; intros g k; cbn [foldl]; [set_solver|]. rewrite IH. unfold bucket. destruct (key e) as [k'|] eqn:Ek.
  - rewrite lookup_insert_is_Some'. split.
    + intros [[->|?]|(e' & ? & ?)]; [right; exists e; set_solver|by left|right; exists e'; set_solver].
    + intros [?|(e' & [->|?]%elem_of_cons & ?)]; [by left; right|left; left; congruence|right; by exists e'].
  - split; [intros [?|(e' & ? & ?)]; [by left|right; exists e'; set_solver]|]. intros [?|(e' & [->|?]%elem_of_cons & ?)]; [by left|congruence|right; by exists e'].
Qed.

Lemma occurrences_perm x l l' : l ≡ₚ l' -> occurrences x l = occurrences x l'.
Proof. unfold occurrences. intros Hp. induction Hp; cbn; repeat case_match; congruence. Qed.

(** Dependents, from the entries walked and what each is filed under. *)
Section Dependents.
Context {E : Type} (k : E -> bytes) (f : E -> list bytes).

Definition filed (l : list E) (g : gmap bytes (list bytes)) : gmap bytes (list bytes) := foldl (fun g e => foldl (push_successor (k e)) g (f e)) g l.

Lemma push_all_lookup i ps : forall (g : gmap bytes (list bytes)) p,
  default [] (foldl (push_successor i) g ps !! p) = default [] (g !! p) ++ replicate (occurrences p ps) i.
Proof.
  induction ps as [|q ps IH]; intros g p; cbn [foldl]; [by rewrite app_nil_r|]. rewrite IH, occurrences_cons. unfold push_successor.
  destruct (decide (q = p)) as [->|Hne]; [rewrite lookup_insert_eq|by rewrite lookup_insert_ne]. cbn [from_option id]. by rewrite <-(assoc_L (++)).
Qed.

Lemma occurrences_replicate x y n : occurrences x (replicate n y) = if decide (y = x) then n else 0.
Proof. induction n as [|n IH]; cbn [replicate]; [by destruct (decide _)|]. rewrite occurrences_cons, IH. by destruct (decide _). Qed.

Lemma filed_other l : forall g p x, x ∉ k <$> l -> occurrences x (default [] (filed l g !! p)) = occurrences x (default [] (g !! p)).
Proof.
  induction l as [|e l IH]; intros g p x Hx; [done|]. cbn [filed foldl]. apply not_elem_of_cons in Hx as [Hxe Hx]. unfold filed in IH. rewrite IH by done.
  rewrite push_all_lookup, occurrences_app, occurrences_replicate, decide_False by done. lia.
Qed.

Lemma filed_count l : forall g p e, NoDup (k <$> l) -> e ∈ l ->
  occurrences (k e) (default [] (filed l g !! p)) = occurrences (k e) (default [] (g !! p)) + occurrences p (f e).
Proof.
  induction l as [|e' l IH]; intros g p e Hnd He; [by apply elem_of_nil in He|]. cbn [filed foldl]. apply NoDup_cons in Hnd as [Hn Hnd].
  apply elem_of_cons in He as [->|He].
  - pose proof (filed_other l (foldl (push_successor (k e')) g (f e')) p (k e') Hn) as Ho. unfold filed in Ho. rewrite Ho.
    rewrite push_all_lookup, occurrences_app, occurrences_replicate, decide_True by done. done.
  - unfold filed in IH. rewrite IH by done. rewrite push_all_lookup, occurrences_app, occurrences_replicate, decide_False; [lia|].
    intros Ek. apply Hn. rewrite Ek. by apply list_elem_of_fmap_2.
Qed.

Lemma filed_known l p x : x ∈ default [] (filed l ∅ !! p) -> x ∈ k <$> l.
Proof.
  intros Hx. destruct (decide (x ∈ k <$> l)) as [|Hn]; [done|]. apply occurrences_pos in Hx. rewrite (filed_other l ∅ p x Hn), lookup_empty in Hx. cbn in Hx. lia.
Qed.

End Dependents.

(** ** The memo *)

Lemma fill_cache_ok m : exists cache, fill_cache m = Some cache /\ forall x, is_Some (m !! x) -> forall y, y ∈ past_of cache x <-> reaches m x y.
Proof.
  unfold fill_cache. assert (H : forall l, exists cache, foldr (fun id acc => cache ← acc; past ← causal_past m id; Some (<[id := past]> cache)) (Some ∅) l = Some cache /\
    forall x, x ∈ l -> forall y, y ∈ past_of cache x <-> reaches m x y).
  { induction l as [|id l (cache & E & IH)]; cbn [foldr]; [exists ∅; split; [done|]; by intros x ?%elem_of_nil|]. rewrite E. cbn [mbind option_bind].
    destruct (causal_past_ok m id) as (r & -> & Hr). cbn [mbind option_bind]. eexists. split; [done|]. intros x Hx. unfold past_of.
    destruct (decide (x = id)) as [->|Hne]; [by rewrite lookup_insert_eq|]. rewrite lookup_insert_ne by done. apply IH. by apply elem_of_cons in Hx as [|]. }
  destruct (H (elements (dom m))) as (cache & E & Hc). exists cache. split; [exact E|]. intros x Hx. apply Hc. by apply elem_of_elements, elem_of_dom.
Qed.

(** ** Rounds *)

(** Every block has a round, one more than the greatest among its predecessors. *)
Definition rounds_ok (m : Lace) (rounds : gmap bytes nat) : Prop :=
  forall x, rounds !! x = (fun b => 1 + max_list (known_rounds rounds (predecessors b))) <$> m !! x.

Definition max_ok (rounds : gmap bytes nat) (max_round : nat) : Prop :=
  (forall x r, rounds !! x = Some r -> r <= max_round) /\ (max_round = 0 \/ exists x, rounds !! x = Some max_round).

Section Rounds.
Context (m : Lace) (rank : bytes -> nat) (Hrank : acyclic m rank).
Context (round : gmap bytes nat -> bytes -> nat).
Context (Hround : forall rounds x b, (forall y, is_Some (rounds !! y) -> is_Some (m !! y)) -> m !! x = Some b -> round rounds x = 1 + max_list (known_rounds rounds (predecessors b))).

Definition ins_of (x : bytes) : list bytes := match m !! x with Some b => stored_preds m b | None => [] end.

Lemma stored_preds_elem b p : p ∈ stored_preds m b <-> p ∈ predecessors b /\ is_Some (m !! p).
Proof. unfold stored_preds. by rewrite list_elem_of_In, filter_In, <-list_elem_of_In, bool_decide_eq_true. Qed.

Lemma ins_of_elem x p : p ∈ ins_of x <-> names m x p /\ is_Some (m !! p).
Proof. unfold ins_of, names, preds. destruct (m !! x); [apply stored_preds_elem|set_solver]. Qed.

Lemma dependents_filed : dependents m = filed fst (fun e : bytes * Block => stored_preds m e.2) (map_to_list m) ∅.
Proof. done. Qed.

Lemma rounds_sorted : exists l, rounds_loop m round = Some (foldl (assign round) (∅, 0) l) /\ sorted_by (dom m) ins_of pop_front l.
Proof.
  unfold rounds_loop. apply (kahn_sorts (dom m) ins_of _ rank).
  - intros x p _ [Hxp Hp]%ins_of_elem. split; [by apply elem_of_dom|by apply Hrank].
  - intros p x _ Hx. rewrite dependents_filed in Hx. apply filed_known in Hx. apply list_elem_of_fmap in Hx as ([i b] & -> & Hin%elem_of_map_to_list). apply elem_of_dom. by exists b.
  - intros p x _ [b Hb]%elem_of_dom. rewrite dependents_filed.
    pose proof (filed_count fst (fun e : bytes * Block => stored_preds m e.2) (map_to_list m) ∅ p (x, b) (NoDup_fst_map_to_list m)) as Hc.
    cbn [fst snd] in Hc. rewrite Hc by (by apply elem_of_map_to_list). rewrite lookup_empty. cbn. unfold ins_of. by rewrite Hb.
  - apply pop_front_some.
  - apply pop_front_perm.
  - done.
  - intros x. unfold pred_counts, ins_of. rewrite lookup_fmap. destruct (decide (x ∈ dom m)) as [[b Hb]%elem_of_dom|Hx%not_elem_of_dom]; [by rewrite Hb|by rewrite Hx].
  - done.
  - by rewrite size_dom.
Qed.

Record assigned (done_ : list bytes) (acc : gmap bytes nat * nat) : Prop := {
  as_dom : forall x, is_Some (acc.1 !! x) <-> x ∈ done_;
  as_round : forall x r, acc.1 !! x = Some r -> exists b, m !! x = Some b /\ r = 1 + max_list (known_rounds acc.1 (predecessors b));
  as_max : max_ok acc.1 acc.2;
}.

Lemma known_rounds_insert (rounds : gmap bytes nat) x r ps : (forall p, p ∈ ps -> p <> x) -> known_rounds (<[x := r]> rounds) ps = known_rounds rounds ps.
Proof.
  intros H. unfold known_rounds. induction ps as [|p ps IH]; [done|]. cbn. rewrite lookup_insert_ne by (apply not_eq_sym, H, list_elem_of_here).
  rewrite IH; [done|]. intros q Hq. by apply H, list_elem_of_further.
Qed.

Lemma assigned_step done_ acc x b : assigned done_ acc -> m !! x = Some b -> x ∉ done_ -> (forall y, y ∈ done_ -> is_Some (m !! y)) ->
  (forall y, y ∈ done_ -> x ∉ preds m y) -> assigned (done_ ++ [x]) (assign round acc x).
Proof.
  destruct acc as [R M]. intros [Hd Hr [Hle Hat]] Hb Hx Hin Hlate. cbn [fst snd] in *. unfold assign. cbn [fst snd].
  assert (Hself : x ∉ predecessors b). { intros Hp. assert (names m x x) as H by (unfold names, preds; by rewrite Hb). specialize (Hrank _ _ H). lia. }
  assert (Er : round R x = 1 + max_list (known_rounds R (predecessors b))). { apply Hround; [|done]. intros y Hy. by apply Hin, Hd. }
  assert (HRx : R !! x = None) by (apply eq_None_not_Some; by rewrite Hd).
  rewrite Er. set (r := 1 + _) in *. split; cbn [fst snd].
  - intros y. rewrite lookup_insert_is_Some', elem_of_app, list_elem_of_singleton, Hd. naive_solver.
  - intros y q [[<- <-]|[Hne Hy]]%lookup_insert_Some.
    + exists b. split; [done|]. rewrite known_rounds_insert; [done|]. by intros p Hp ->.
    + destruct (Hr y q Hy) as (c & Hc & ->). exists c. split; [done|]. rewrite known_rounds_insert; [done|]. intros p Hp ->.
      apply (Hlate y); [by apply Hd|]. unfold preds. by rewrite Hc.
  - split.
    + intros y q [[<- <-]|[_ Hy]]%lookup_insert_Some; [destruct (Nat.ltb_spec M r); lia|]. specialize (Hle y q Hy). destruct (Nat.ltb_spec M r); lia.
    + right. destruct (Nat.ltb_spec M r); [exists x; by rewrite lookup_insert_eq|]. destruct Hat as [->|(y & Hy)]; [lia|]. exists y. rewrite lookup_insert_ne; [done|]. congruence.
Qed.

Lemma assigned_all l : sorted_by (dom m) ins_of pop_front l -> forall l1 l2, l = l1 ++ l2 -> assigned l1 (foldl (assign round) (∅, 0) l1).
Proof.
  intros (Hp & Hf & _). assert (Hnd : NoDup l) by (rewrite Hp; apply NoDup_elements).
  assert (Hin : forall x, x ∈ l -> is_Some (m !! x)) by (intros x Hx; rewrite Hp in Hx; by apply elem_of_elements, elem_of_dom in Hx).
  induction l1 as [|x l1 IH] using rev_ind; intros l2 E.
  - cbn. split; cbn; [|intros x r; by rewrite lookup_empty|split; [intros x r; by rewrite lookup_empty|by left]].
    intros x. rewrite lookup_empty. split; [by intros [? ?]|by intros ?%elem_of_nil].
  - rewrite foldl_app. cbn [foldl]. rewrite <-(assoc_L (++)) in E. cbn [app] in E. destruct (Hin x) as [b Hb]; [rewrite E; set_solver|].
    assert (Hx : x ∉ l1). { rewrite E in Hnd. apply NoDup_app in Hnd as (_ & Hd & _). intros Hx. by apply (Hd x Hx), list_elem_of_here. }
    apply (assigned_step _ _ x b); [by eapply IH|done|done|intros y Hy; apply Hin; rewrite E; set_solver|].
    intros y Hy Hxy. apply list_elem_of_split in Hy as (a & c & ->). rewrite <-(assoc_L (++)) in E. cbn [app] in E.
    assert (Hxi : x ∈ ins_of y) by (apply ins_of_elem; split; [done|by exists b]). apply Hx. specialize (Hf _ _ _ E x Hxi). set_solver.
Qed.

Lemma rounds_loop_ok : exists rounds max_round, rounds_loop m round = Some (rounds, max_round) /\ rounds_ok m rounds /\ max_ok rounds max_round.
Proof.
  destruct rounds_sorted as (l & E & Hs). pose proof (assigned_all l Hs l [] (eq_sym (app_nil_r l))) as [Hd Hr Hm].
  destruct (foldl (assign round) (∅, 0) l) as [R M]. cbn [fst snd] in *. exists R, M. split_and!; [done| |done].
  intros x. destruct (m !! x) as [b|] eqn:Hb; cbn.
  - destruct (proj2 (Hd x)) as [r Hrx]; [destruct Hs as [Hp _]; rewrite Hp; apply elem_of_elements, elem_of_dom; by exists b|].
    rewrite Hrx. destruct (Hr x r Hrx) as (b' & Hb' & ->). rewrite Hb in Hb'. by injection Hb' as ->.
  - apply eq_None_not_Some. intros [r Hrx]. destruct (Hr x r Hrx) as (b' & Hb' & _). congruence.
Qed.

End Rounds.

Lemma compute_rounds_ok m rank : acyclic m rank -> exists rounds max_round, compute_rounds m = Some (rounds, max_round) /\ rounds_ok m rounds /\ max_ok rounds max_round.
Proof.
  intros Hr. apply (rounds_loop_ok m rank Hr). intros rounds x b _ Hb. unfold round_at, preds. rewrite Hb. by destruct (predecessors b).
Qed.

Lemma relevant_lookup m g x b : relevant m g !! x = Some b <-> m !! x = Some b /\ creator b ∈ rg_participants g.
Proof. unfold relevant. by rewrite map_lookup_filter_Some. Qed.

Lemma relevant_acyclic m g rank : acyclic m rank -> acyclic (relevant m g) rank.
Proof.
  intros Hr x y Hxy. apply Hr. unfold names, preds in *. destruct (relevant m g !! x) as [b|] eqn:E; [|by apply elem_of_nil in Hxy].
  apply relevant_lookup in E as [-> _]. done.
Qed.

Lemma known_rounds_present (m : Lace) (rounds : gmap bytes nat) ps : (forall y, is_Some (rounds !! y) -> is_Some (m !! y)) ->
  known_rounds rounds (List.filter (fun p => bool_decide (is_Some (m !! p))) ps) = known_rounds rounds ps.
Proof.
  intros H. unfold known_rounds. induction ps as [|p ps IH]; [done|]. cbn [List.filter omap list_omap]. case_bool_decide as Hp; cbn [omap list_omap]; [by rewrite IH|].
  destruct (rounds !! p) eqn:E; [|done]. destruct Hp. apply H. by rewrite E.
Qed.

Lemma compute_rounds_filtered_ok m g rank : acyclic m rank ->
  exists rounds max_round, compute_rounds_filtered m g = Some (rounds, max_round) /\ rounds_ok (relevant m g) rounds /\ max_ok rounds max_round.
Proof.
  intros Hr. apply (rounds_loop_ok _ rank (relevant_acyclic m g rank Hr)). intros rounds x b Hd Hb. unfold round_at_filtered, preds. rewrite Hb.
  destruct (forallb _ _) eqn:Ef; [|by rewrite known_rounds_present].
  rewrite <-(known_rounds_present (relevant m g)) by done. rewrite forallb_forall in Ef. setoid_rewrite <-list_elem_of_In in Ef.
  induction (predecessors b) as [|p ps IH]; [done|]. cbn [List.filter]. specialize (Ef p (list_elem_of_here _ _)) as Ep. case_bool_decide; [done|].
  apply IH. intros q Hq. apply Ef. by apply list_elem_of_further.
Qed.

(** ** Equivocation *)

Lemma two_elements {A} `{EqDecision A} (l : list A) : NoDup l -> 1 < length l <-> exists x y, x <> y /\ x ∈ l /\ y ∈ l.
Proof.
  intros Hnd. split.
  - destruct l as [|x [|y l]]; cbn [length]; [lia|lia|]. intros _. exists x, y. apply NoDup_cons in Hnd as [Hx _]. split_and!; set_solver.
  - intros (x & y & Hne & Hx & Hy). destruct l as [|a [|c l]]; cbn [length]; [by apply elem_of_nil in Hx| |lia].
    apply list_elem_of_singleton in Hx, Hy. congruence.
Qed.

Section Index.
Context (m : Lace) (rounds : gmap bytes nat).

Definition group_key (e : bytes * Block) : option (bytes * nat) := (fun r => (creator e.2, r)) <$> rounds !! e.1.
Definition groups : gmap (bytes * nat) (list bytes) := foldl (bucket group_key fst) ∅ (map_to_list m).
Definition conflict_key (e : (bytes * nat) * list bytes) : option bytes := if 1 <? length e.2 then Some e.1.1 else None.

Lemma index_buckets : index_build m rounds = foldl (bucket conflict_key snd) ∅ (map_to_list groups).
Proof.
  assert (Hg : forall l g, foldl (group_block rounds) g l = foldl (bucket group_key fst) g l).
  { induction l as [|e l IH]; intros g; [done|]. cbn [foldl]. rewrite IH. f_equal. unfold group_block, bucket, group_key. by destruct (rounds !! e.1). }
  assert (Hi : forall l g, foldl index_group g l = foldl (bucket conflict_key snd) g l).
  { induction l as [|e l IH]; intros g; [done|]. cbn [foldl]. rewrite IH. f_equal. unfold index_group, bucket, conflict_key. by destruct (1 <? length e.2). }
  unfold index_build. by rewrite Hi, Hg.
Qed.

Lemma group_elem c r group x : groups !! (c, r) = Some group -> x ∈ group <-> exists b, m !! x = Some b /\ creator b = c /\ rounds !! x = Some r.
Proof.
  intros E. pose proof (bucket_lookup group_key fst (map_to_list m) ∅ (c, r)) as H. fold groups in H. rewrite E, lookup_empty in H. cbn [from_option id app] in H. rewrite H.
  rewrite list_elem_of_In, in_map_iff. setoid_rewrite filter_In. setoid_rewrite <-list_elem_of_In. setoid_rewrite elem_of_map_to_list'. setoid_rewrite bool_decide_eq_true.
  unfold group_key. split.
  - intros ([y b] & <- & Hy & Hk). cbn in *. destruct (rounds !! y) as [r'|]; [|done]. injection Hk as Ec ->. by exists b.
  - intros (b & Hb & <- & Hr). exists (x, b). cbn. by rewrite Hr.
Qed.

Lemma group_nodup c r group : groups !! (c, r) = Some group -> NoDup group.
Proof.
  intros E. pose proof (bucket_lookup group_key fst (map_to_list m) ∅ (c, r)) as H. fold groups in H. rewrite E, lookup_empty in H. cbn [from_option id app] in H. rewrite H.
  apply NoDup_fmap_2_strong; [|apply NoDup_ListNoDup, List.NoDup_filter, NoDup_ListNoDup, NoDup_map_to_list].
  intros [x b] [y b']. rewrite !list_elem_of_In, !filter_In, <-!list_elem_of_In. cbn [fst]. intros [Hx _] [Hy _] <-. f_equal. exact (map_to_list_unique _ _ _ _ Hx Hy).
Qed.

(** The precomputed index answers what a scan of the past would: whether two
    blocks of the creator, of one round, are in it. *)
Definition sees_fork (c : bytes) (past : gset bytes) : Prop :=
  exists x y bx b_y r, x <> y /\ x ∈ past /\ y ∈ past /\ m !! x = Some bx /\ m !! y = Some b_y /\ creator bx = c /\ creator b_y = c /\
    rounds !! x = Some r /\ rounds !! y = Some r.

Lemma equivocates_iff c past : equivocates_in_past (index_build m rounds) c past = true <-> sees_fork c past.
Proof.
  pose proof (bucket_lookup conflict_key snd (map_to_list groups) ∅ c) as H. rewrite <-index_buckets, lookup_empty in H. cbn [from_option id app] in H.
  assert (E : equivocates_in_past (index_build m rounds) c past =
    existsb (fun group => 1 <? length (List.filter (fun b => bool_decide (b ∈ past)) group)) (default [] (index_build m rounds !! c))).
  { unfold equivocates_in_past. by destruct (index_build m rounds !! c). }
  rewrite E, H, existsb_exists. setoid_rewrite in_map_iff. setoid_rewrite filter_In. setoid_rewrite <-list_elem_of_In. setoid_rewrite bool_decide_eq_true.
  assert (Hfilt : forall r group, groups !! (c, r) = Some group -> 1 <? length (List.filter (fun b => bool_decide (b ∈ past)) group) = true <->
    exists x y, x <> y /\ x ∈ past /\ y ∈ past /\ x ∈ group /\ y ∈ group).
  { intros r group Hg. rewrite Nat.ltb_lt, two_elements by (apply NoDup_ListNoDup, List.NoDup_filter, NoDup_ListNoDup; by eapply group_nodup).
    setoid_rewrite list_elem_of_In. setoid_rewrite filter_In. setoid_rewrite <-list_elem_of_In. setoid_rewrite bool_decide_eq_true. naive_solver. }
  split.
  - intros (group & ([[c' r] g'] & Eg & Hin%elem_of_map_to_list & Hk) & Hl). cbn in Eg. subst g'. unfold conflict_key in Hk. cbn [fst snd] in Hk.
    destruct (1 <? length group); [|done]. injection Hk as ->. apply (Hfilt r group Hin) in Hl as (x & y & Hne & Hx & Hy & Hgx & Hgy).
    apply (group_elem _ _ _ x Hin) in Hgx as (bx & ? & ? & ?). apply (group_elem _ _ _ y Hin) in Hgy as (b_y & ? & ? & ?).
    by exists x, y, bx, b_y, r.
  - intros (x & y & bx & b_y & r & Hne & Hx & Hy & Hbx & Hby & Hcx & Hcy & Hrx & Hry).
    assert (Hs : is_Some (groups !! (c, r))).
    { apply bucket_some. right. exists (x, bx). split; [by apply elem_of_map_to_list|]. unfold group_key. cbn. rewrite Hrx. cbn. by rewrite Hcx. }
    destruct Hs as [group Hg]. exists group. assert (Hgx : x ∈ group) by (apply (group_elem c r _ _ Hg); by exists bx).
    assert (Hgy : y ∈ group) by (apply (group_elem c r _ _ Hg); by exists b_y).
    split; [|apply (Hfilt r group Hg); by exists x, y]. exists ((c, r), group). split_and!; [done|by apply elem_of_map_to_list|]. unfold conflict_key. cbn [fst snd].
    rewrite (proj2 (Nat.ltb_lt _ _)); [done|]. apply two_elements; [by eapply group_nodup|]. by exists x, y.
Qed.

End Index.

(** ** Quorums *)

(** Two quorums have more than a third of the members in common, whatever their
    number. *)
Lemma quorums_meet {A} (p q bad : A -> bool) (l : list A) :
  supermajority_threshold (length l) <= length (List.filter p l) -> supermajority_threshold (length l) <= length (List.filter q l) ->
  length (List.filter bad l) <= (length l - 1) / 3 -> exists x, x ∈ l /\ p x = true /\ q x = true /\ bad x = false.
Proof.
  intros Hp Hq Hb. assert (Hcount : forall k, length (List.filter p k) + length (List.filter q k) <=
    length k + length (List.filter bad k) + length (List.filter (fun x => p x && q x && negb (bad x)) k)).
  { induction k as [|x k IH]; [done|]. cbn [List.filter]. destruct (p x), (q x), (bad x); cbn [andb negb length]; lia. }
  specialize (Hcount l). destruct (List.filter (fun x => p x && q x && negb (bad x)) l) as [|x k] eqn:E.
  - exfalso. cbn [length] in Hcount. unfold supermajority_threshold in *. destruct l as [|y l]; [cbn in Hp; lia|]. cbn [length] in *.
    pose proof (Nat.div_mod_eq (S (length l) * 2) 3). pose proof (Nat.mod_upper_bound (S (length l) * 2) 3). pose proof (Nat.div_mod_eq (S (length l) - 1) 3). lia.
  - assert (Hin : x ∈ List.filter (fun x => p x && q x && negb (bad x)) l) by (rewrite E; apply list_elem_of_here).
    apply list_elem_of_In, filter_In in Hin as [Hin [[Hpx Hqx]%andb_true_iff Hbx%negb_true_iff]%andb_true_iff]. exists x. split; [by apply list_elem_of_In|done].
Qed.

Lemma threshold_is_n_minus_f n : 1 <= n -> supermajority_threshold n = n - (n - 1) / 3.
Proof.
  intros Hn. unfold supermajority_threshold. pose proof (Nat.div_mod_eq (n * 2) 3). pose proof (Nat.mod_upper_bound (n * 2) 3).
  pose proof (Nat.div_mod_eq (n - 1) 3). pose proof (Nat.mod_upper_bound (n - 1) 3). lia.
Qed.

(** ** Votes *)

(** A lattice as a node holds it. *)
Record view (m : Lace) : Prop := { vw_closed : closed m; vw_acyclic : exists rank, acyclic m rank }.

Section VoteSpecs.
Context (m : Lace) (cache : PastCache) (rounds : gmap bytes nat) (participants : list bytes).

Notation equiv := (index_build m rounds).

Lemma creator_is_iff c id : creator_is m c id = true <-> exists b, m !! id = Some b /\ creator b = c.
Proof. unfold creator_is. destruct (m !! id) as [b|]; [rewrite bool_decide_eq_true|]; naive_solver. Qed.

Lemma at_round_elem r x : x ∈ at_round rounds r <-> rounds !! x = Some r.
Proof.
  unfold at_round. rewrite list_elem_of_In, in_map_iff. setoid_rewrite filter_In. setoid_rewrite <-list_elem_of_In. setoid_rewrite elem_of_map_to_list'.
  split; [intros ([y n] & <- & H & Hn%Nat.eqb_eq); cbn in *; congruence|]. intros H. exists (x, r). cbn. by rewrite Nat.eqb_refl.
Qed.

Lemma at_round_nodup r : NoDup (at_round rounds r).
Proof.
  unfold at_round. apply NoDup_fmap_2_strong; [|apply NoDup_ListNoDup, List.NoDup_filter, NoDup_ListNoDup, NoDup_map_to_list].
  intros [x n] [y k]. rewrite !list_elem_of_In, !filter_In, <-!list_elem_of_In. cbn [fst]. intros [Hx _] [Hy _] <-. f_equal. exact (map_to_list_unique _ _ _ _ Hx Hy).
Qed.

Lemma approves_iff o l c : approves cache equiv o l c = true <-> l ∈ past_of cache o /\ ~ sees_fork m rounds c (past_of cache o).
Proof.
  unfold approves. rewrite <-equivocates_iff. case_bool_decide; cbn [negb]; [|naive_solver]. rewrite negb_true_iff, not_true_iff_false. naive_solver.
Qed.

(** A participant with a block below that approves. *)
Definition approver (o l c p : bytes) : bool := existsb (fun bid => creator_is m p bid && approves cache equiv bid l c) (elements (past_of cache o)).

Lemma ratifies_iff o l c : ratifies cache m equiv participants o l c = true <-> supermajority_threshold (length participants) <= length (List.filter (approver o l c) participants).
Proof. unfold ratifies. apply Nat.leb_le. Qed.

(** A final leader was ratified by a block at the end of its wave. *)
Lemma super_ratified_some l c wave_end : is_super_ratified cache m rounds equiv participants l c wave_end = true ->
  exists o b, rounds !! o = Some wave_end /\ m !! o = Some b /\ ratifies cache m equiv participants o l c = true.
Proof.
  unfold is_super_ratified. rewrite Nat.leb_le. intros H. set (S := list_to_set _) in H.
  assert (Hne : S <> ∅) by (intros E; rewrite E, size_empty in H; unfold supermajority_threshold in H; lia).
  apply set_choose_L in Hne as [k Hk]. subst S. apply elem_of_list_to_set, list_elem_of_omap in Hk as (o & Ho%at_round_elem & Hk).
  destruct (m !! o) as [b|] eqn:Eb; [|done]. cbn [mbind option_bind] in Hk. destruct (ratifies cache m equiv participants o l c) eqn:Er; [|done]. by exists o, b.
Qed.

Lemma final_leader_inv config wave l : final_leader cache m rounds equiv participants config wave = Some [l] ->
  exists k b, wave_leader wave participants = Some k /\ m !! l = Some b /\ creator b = k /\ rounds !! l = Some (wave_first_round wave (wavelength config)) /\
    is_super_ratified cache m rounds equiv participants l k (wave_last_round wave (wavelength config)) = true.
Proof.
  unfold final_leader. destruct (wave_leader wave participants) as [k|]; [|done]. cbn [mbind option_bind].
  destruct (List.filter _ _) as [|x [|]] eqn:Ef; [done| |done]. destruct (is_super_ratified cache m rounds equiv participants x k (wave_last_round wave (wavelength config))) eqn:Es; [|done]. intros [= <-].
  assert (Hin : x ∈ List.filter (creator_is m k) (at_round rounds (wave_first_round wave (wavelength config)))) by (rewrite Ef; apply list_elem_of_here).
  apply list_elem_of_In, filter_In in Hin as [Hin%list_elem_of_In%at_round_elem (b & Hb & Hc)%creator_is_iff]. by exists k, b.
Qed.

Context (Hcache : forall x, is_Some (m !! x) -> forall y, y ∈ past_of cache x <-> reaches m x y).

Lemma approver_iff o l c p : is_Some (m !! o) -> approver o l c p = true <-> exists x, reaches m o x /\ creator_is m p x = true /\ approves cache equiv x l c = true.
Proof.
  intros Ho. unfold approver. rewrite existsb_exists. setoid_rewrite <-list_elem_of_In. setoid_rewrite elem_of_elements. setoid_rewrite (Hcache o Ho).
  setoid_rewrite andb_true_iff. done.
Qed.

End VoteSpecs.

(** ** Two views *)

Section TwoViews.
Context (m1 m2 : Lace) (H1 : view m1) (H2 : view m2).

(** Names are hashes: what two nodes hold under one name agrees. *)
Definition compatible : Prop :=
  forall x b1 b2, m1 !! x = Some b1 -> m2 !! x = Some b2 -> creator b1 = creator b2 /\ predecessors b1 ≡ₚ predecessors b2.
Context (Hcomp : compatible).

Lemma names_agree x y : is_Some (m1 !! x) -> is_Some (m2 !! x) -> names m1 x y <-> names m2 x y.
Proof.
  intros [b1 E1] [b2 E2]. unfold names, preds. rewrite E1, E2. destruct (Hcomp x b1 b2 E1 E2) as [_ Hp]. by rewrite Hp.
Qed.

Lemma reaches_agree x y : is_Some (m1 !! x) -> is_Some (m2 !! x) -> reaches m1 x y -> reaches m2 x y /\ is_Some (m2 !! y) /\ is_Some (m1 !! y).
Proof.
  intros Hx1 Hx2 Hr. induction Hr as [|x z y Hxz _ IH]; [split; [apply rtc_refl|done]|].
  assert (Hz2 : names m2 x z) by (by apply names_agree). destruct IH as (? & ? & ?).
  - by apply (vw_closed _ H1 x).
  - by apply (vw_closed _ H2 x).
  - split; [|done]. by apply (rtc_l _ x z).
Qed.

Lemma max_list_perm l l' : l ≡ₚ l' -> max_list l = max_list l'.
Proof. induction 1; cbn; lia. Qed.

(** The round of a block does not depend on who computes it. *)
Lemma rounds_agree R1 R2 x : rounds_ok m1 R1 -> rounds_ok m2 R2 -> is_Some (m1 !! x) -> is_Some (m2 !! x) -> R1 !! x = R2 !! x.
Proof.
  intros HR1 HR2. destruct (vw_acyclic _ H1) as [rank Hrank]. remember (rank x) as n eqn:En. revert x En. induction n as [n IH] using lt_wf_ind.
  intros x -> [b1 E1] [b2 E2]. rewrite (HR1 x), (HR2 x), E1, E2. cbn. do 2 f_equal. destruct (Hcomp x b1 b2 E1 E2) as [_ Hp].
  assert (Hall : forall p, p ∈ predecessors b1 -> R1 !! p = R2 !! p).
  { intros p Hpin. assert (Hn1 : names m1 x p) by (unfold names, preds; by rewrite E1). apply (IH (rank p) (Hrank _ _ Hn1)); [done|by apply (vw_closed _ H1 x)|].
    apply (vw_closed _ H2 x), names_agree; [by eexists..|done]. }
  assert (E : known_rounds R1 (predecessors b1) = known_rounds R2 (predecessors b1)).
  { unfold known_rounds. clear -Hall. induction (predecessors b1) as [|p ps IH]; [done|]. cbn. rewrite (Hall p) by apply list_elem_of_here.
    rewrite IH; [done|]. intros q Hq. by apply Hall, list_elem_of_further. }
  rewrite E. apply max_list_perm. unfold known_rounds. by rewrite Hp.
Qed.

(** Blocks of a participant in either view, and one below another in either. *)
Definition block_of (p x : bytes) : Prop := exists b, (m1 !! x = Some b \/ m2 !! x = Some b) /\ creator b = p.
Definition linked (x y : bytes) : Prop := (is_Some (m1 !! x) /\ reaches m1 x y) \/ (is_Some (m2 !! x) /\ reaches m2 x y).

(** A participant that does not fork: its blocks are a chain. *)
Definition honest (p : bytes) : Prop := forall x y, block_of p x -> block_of p y -> linked x y \/ linked y x.

End TwoViews.

Lemma compatible_sym m1 m2 : compatible m1 m2 -> compatible m2 m1.
Proof. intros H x b2 b1 E2 E1. destruct (H x b1 b2 E1 E2). by split. Qed.

Lemma honest_sym m1 m2 p : honest m1 m2 p -> honest m2 m1 p.
Proof.
  intros H x y (bx & Hx & ?) (b_y & Hy & ?). unfold linked.
  assert (Bx : block_of m1 m2 p x) by (exists bx; tauto). assert (By : block_of m1 m2 p y) by (exists b_y; tauto).
  destruct (H x y Bx By) as [[?|?]|[?|?]]; tauto.
Qed.

(** A block that approves a leader sees no other of that creator and round: an
    honest participant approves one of two. *)
Lemma approves_one m1 m2 c1 R1 R2 x1 x2 l1 l2 b1 b2 key r : view m1 -> view m2 -> compatible m1 m2 ->
  (forall x, is_Some (m1 !! x) -> forall y, y ∈ past_of c1 x <-> reaches m1 x y) -> rounds_ok m1 R1 -> rounds_ok m2 R2 ->
  is_Some (m1 !! x1) -> linked m1 m2 x1 x2 -> is_Some (m2 !! x2) -> reaches m2 x2 l2 -> m1 !! l1 = Some b1 -> m2 !! l2 = Some b2 ->
  creator b1 = key -> creator b2 = key -> R1 !! l1 = Some r -> R2 !! l2 = Some r -> approves c1 (index_build m1 R1) x1 l1 key = true -> l1 = l2.
Proof.
  intros V1 V2 Hc Hc1 HR1 HR2 Hx1 Hl Hx2 Hr2 E1 E2 K1 K2 Hl1 Hl2 Hap. apply (approves_iff m1 c1 R1) in Hap as [Ha Hno]. destruct (decide (l1 = l2)) as [|Hne]; [done|]. destruct Hno.
  assert (Hr12 : reaches m1 x1 x2).
  { destruct Hl as [[_ ?]|[Hx1' ?]]; [done|]. by destruct (reaches_agree m2 m1 V2 V1 (compatible_sym _ _ Hc) x1 x2). }
  assert (Hx2' : is_Some (m1 !! x2)) by (eapply reaches_stored; [apply V1|exact Hx1|done]).
  destruct (reaches_agree m2 m1 V2 V1 (compatible_sym _ _ Hc) x2 l2 Hx2 Hx2' Hr2) as (Hr & [b2' E2'] & _).
  destruct (Hc l2 b2' b2 E2' E2) as [Hk _].
  exists l1, l2, b1, b2', r. split_and!; [done|done| |done|done|done|congruence|done|].
  - apply Hc1; [done|]. by etrans.
  - rewrite (rounds_agree m1 m2 V1 V2 Hc R1 R2 l2 HR1 HR2); [done|by eexists|by eexists].
Qed.

(** A leader final in a wave, as a node computes it. *)
Definition final_in (m : Lace) (participants : list bytes) (config : OrderingConfig) (wave : nat) (l : bytes) : Prop :=
  exists cache rounds max_round, fill_cache m = Some cache /\ compute_rounds m = Some (rounds, max_round) /\
    wave_last_round wave (wavelength config) <= max_round /\ final_leader cache m rounds (index_build m rounds) participants config wave = Some [l].

(** C12: two nodes with closed views that agree on the blocks they share never hold
    different leaders final in one wave, when fewer than a third of the
    participants fork: the blocks of every other are a chain across both views. *)
Theorem final_leaders_agree m1 m2 participants config wave l1 l2 (bad : bytes -> bool) : view m1 -> view m2 -> compatible m1 m2 ->
  length (List.filter bad participants) <= (length participants - 1) / 3 ->
  (forall p, p ∈ participants -> bad p = false -> honest m1 m2 p) ->
  final_in m1 participants config wave l1 -> final_in m2 participants config wave l2 -> l1 = l2.
Proof.
  intros V1 V2 Hc Hbad Hh (c1 & R1 & M1 & Ec1 & ER1 & _ & F1) (c2 & R2 & M2 & Ec2 & ER2 & _ & F2).
  destruct (fill_cache_ok m1) as (c1' & E & Hc1). rewrite Ec1 in E. injection E as <-. destruct (fill_cache_ok m2) as (c2' & E & Hc2). rewrite Ec2 in E. injection E as <-.
  destruct (vw_acyclic _ V1) as [rk1 Hrk1], (vw_acyclic _ V2) as [rk2 Hrk2].
  destruct (compute_rounds_ok m1 rk1 Hrk1) as (? & ? & E & HR1 & _). rewrite ER1 in E. injection E as <- <-.
  destruct (compute_rounds_ok m2 rk2 Hrk2) as (? & ? & E & HR2 & _). rewrite ER2 in E. injection E as <- <-.
  apply final_leader_inv in F1 as (k & b1 & Ek & Eb1 & K1 & Hr1 & S1), F2 as (k' & b2 & Ek' & Eb2 & K2 & Hr2 & S2). rewrite Ek in Ek'. injection Ek' as <-.
  apply super_ratified_some in S1 as (o1 & bo1 & _ & Eo1 & T1), S2 as (o2 & bo2 & _ & Eo2 & T2). apply ratifies_iff in T1, T2.
  destruct (quorums_meet _ _ bad participants T1 T2 Hbad) as (p & Hp & A1 & A2 & Hgood).
  apply (approver_iff m1 c1 R1 Hc1) in A1 as (x1 & Hox1 & (bx1 & Ex1 & P1)%creator_is_iff & Ap1); [|by eexists].
  apply (approver_iff m2 c2 R2 Hc2) in A2 as (x2 & Hox2 & (bx2 & Ex2 & P2)%creator_is_iff & Ap2); [|by eexists].
  pose proof (proj1 (proj1 (approves_iff m1 c1 R1 x1 l1 k) Ap1)) as Hl1. pose proof (proj1 (proj1 (approves_iff m2 c2 R2 x2 l2 k) Ap2)) as Hl2.
  apply Hc1 in Hl1; [|by eexists]. apply Hc2 in Hl2; [|by eexists].
  assert (Sx1 : is_Some (m1 !! x1)) by (by eexists). assert (Sx2 : is_Some (m2 !! x2)) by (by eexists).
  destruct (Hh p Hp Hgood x1 x2) as [Hl|Hl]; [exists bx1; auto|exists bx2; auto| |].
  - by apply (approves_one m1 m2 c1 R1 R2 x1 x2 l1 l2 b1 b2 k (wave_first_round wave (wavelength config))).
  - assert (Hl' : linked m2 m1 x2 x1) by (destruct Hl as [?|?]; [by right|by left]). symmetry.
    apply (approves_one m2 m1 c2 R2 R1 x2 x1 l2 l1 b2 b1 k (wave_first_round wave (wavelength config))); try done. by apply compatible_sym.
Qed.

(** ** The sort of a segment *)

Lemma pop_min_some q : q <> [] -> is_Some (pop_min q).
Proof. destruct q as [|x q]; [done|]. intros _. cbn. destruct (pop_min q) as [[y r]|]; [destruct (lex_leb x y)|]; by eexists. Qed.

Lemma pop_min_spec q : forall x rest, pop_min q = Some (x, rest) -> q ≡ₚ x :: rest /\ forall y, y ∈ q -> lex_le x y.
Proof.
  induction q as [|z q IH]; intros x rest; cbn; [done|]. destruct (pop_min q) as [[y r]|] eqn:E.
  - destruct (IH y r eq_refl) as [Hp Hm]. destruct (lex_leb z y) eqn:El; intros [= <- <-].
    + split; [done|]. intros w [->|Hw]%elem_of_cons; [apply lex_refl|]. eapply lex_trans; [exact El|by apply Hm].
    + split; [rewrite Hp; apply Permutation_swap|]. intros w [->|Hw]%elem_of_cons; [|by apply Hm]. destruct (lex_total z y) as [H|]; [by rewrite H in El|done].
  - intros [= <- <-]. destruct q as [|y q]; [split; [done|]; intros w ->%list_elem_of_singleton; apply lex_refl|]. by destruct (pop_min_some (y :: q) ltac:(done)) as [? Hs]; rewrite E in Hs.
Qed.

(** The order of a set of blocks: each after those of the set below it, and the
    least name first among those that can come next. *)
Record linear (m : Lace) (set : gset bytes) (l : list bytes) : Prop := {
  ln_perm : l ≡ₚ elements set;
  ln_below : forall l1 x l2, l = l1 ++ x :: l2 -> forall a, a ∈ set -> a <> x -> reaches m x a -> a ∈ l1;
  ln_least : forall l1 x l2, l = l1 ++ x :: l2 -> forall y, y ∈ set -> y ∉ l1 -> (forall a, a ∈ set -> a <> y -> reaches m y a -> a ∈ l1) -> lex_le x y;
}.

(** There is one such order, so the sort does not depend on how sets are walked. *)
Lemma linear_unique m set l l' : linear m set l -> linear m set l' -> l = l'.
Proof.
  intros [Hp Hb Hl] [Hp' Hb' Hl']. assert (Hnd : NoDup l) by (rewrite Hp; apply NoDup_elements). assert (Hnd' : NoDup l') by (rewrite Hp'; apply NoDup_elements).
  assert (Hlen : length l = length l') by (by rewrite Hp, Hp').
  assert (G : forall n p r r', length r = n -> l = p ++ r -> l' = p ++ r' -> r = r'); [|by apply (G (length l) [] l l')].
  induction n as [|n IH]; intros p r r' Hn E E'.
  - rewrite E, E', !length_app in Hlen. destruct r, r'; cbn in *; [done|lia..].
  - destruct r as [|x r]; [done|]. destruct r' as [|x' r']; [rewrite E, E', !length_app in Hlen; cbn in Hlen; lia|].
    assert (Hin : forall y q, l = p ++ y :: q -> y ∈ set /\ y ∉ p).
    { intros y q Eq. split; [apply elem_of_elements; rewrite <-Hp, Eq; set_solver|]. rewrite Eq in Hnd. apply NoDup_app in Hnd as (_ & Hd & _). intros Hy. by apply (Hd y Hy), list_elem_of_here. }
    assert (Hin' : forall y q, l' = p ++ y :: q -> y ∈ set /\ y ∉ p).
    { intros y q Eq. split; [apply elem_of_elements; rewrite <-Hp', Eq; set_solver|]. rewrite Eq in Hnd'. apply NoDup_app in Hnd' as (_ & Hd & _). intros Hy. by apply (Hd y Hy), list_elem_of_here. }
    destruct (Hin x r E) as [Hxs Hxp], (Hin' x' r' E') as [Hxs' Hxp'].
    assert (x = x') as <-. { apply lex_antisym; [apply (Hl p x r E x' Hxs' Hxp'); by eapply Hb'|apply (Hl' p x' r' E' x Hxs Hxp); by eapply Hb]. }
    f_equal. apply (IH (p ++ [x])); [by injection Hn|by rewrite <-(assoc_L (++))..].
Qed.

Lemma xsort_ok (m : Lace) (cache : PastCache) (rank : bytes -> nat) (set : gset bytes) : acyclic m rank -> (forall x, x ∈ set -> forall y, y ∈ past_of cache x <-> reaches m x y) ->
  exists l, xsort cache set = Some l /\ linear m set l.
Proof.
  intros Hr Hc. assert (Ha : forall x a, x ∈ set -> a ∈ ancestors_in_set cache set x <-> a ∈ set /\ a <> x /\ reaches m x a).
  { intros x a Hx. unfold ancestors_in_set. rewrite elem_of_filter, (Hc x Hx). naive_solver. }
  destruct (kahn_sorts set (fun x => elements (ancestors_in_set cache set x)) (fun x => default [] (segment_dependents cache set !! x)) rank) with (A := list bytes) (pop := pop_min)
    (merge := @app bytes) (visit := fun (acc : list bytes) i => acc ++ [i]) (deg := set_to_map (fun i => (i, size (ancestors_in_set cache set i))) set : gmap bytes nat)
    (q := zeros (set_to_map (fun i => (i, size (ancestors_in_set cache set i))) set)) (fuel := size set) (a := @nil bytes) as (l & E & Hp & Hf & Hpick).
  - intros x p Hx Hp%elem_of_elements. apply (Ha x p Hx) in Hp as (Hps & Hne & Hrp). split; [done|]. destruct (reaches_rank m rank x p Hr Hrp) as [<-|]; done.
  - intros p x _ Hx. apply (filed_known (fun i : bytes => i) (fun i => elements (ancestors_in_set cache set i)) (elements set)) in Hx. rewrite list_fmap_id in Hx. by apply elem_of_elements.
  - intros p x Hp Hx. pose proof (filed_count (fun i : bytes => i) (fun i => elements (ancestors_in_set cache set i)) (elements set) ∅ p x) as H. rewrite list_fmap_id in H.
    rewrite lookup_empty in H. cbn [from_option id] in H. apply H; [apply NoDup_elements|by apply elem_of_elements].
  - apply pop_min_some.
  - intros q x rest Hq. by apply pop_min_spec.
  - done.
  - intros x. apply option_eq. intros n. rewrite lookup_set_to_map by (intros ? ? _ _ Heq; exact Heq). destruct (decide (x ∈ set)); naive_solver.
  - done.
  - done.
  - rewrite foldl_snoc in E. exists l. split; [exact E|]. split; [done| |].
    + intros l1 x l2 El a Has Hne Hra. apply (Hf l1 x l2 El), elem_of_elements, Ha; [|done]. apply elem_of_elements. rewrite <-Hp, El. set_solver.
    + intros l1 x l2 El y Hy Hyl Hready. destruct (Hpick l1 x l2 El) as (q & rest & Hq & Hready'). apply (proj2 (pop_min_spec q x rest Hq)), Hready'. split_and!; [done|done|].
      intros p Hp'%elem_of_elements. apply (Ha y p Hy) in Hp' as (? & ? & ?). by apply Hready.
Qed.

(** ** The order *)

Lemma last_round_le wave wl max_round : 0 < wl -> wave_last_round wave wl <= max_round <-> wave < max_round / wl.
Proof.
  intros Hw. unfold wave_last_round. pose proof (Nat.div_mod_eq max_round wl). pose proof (Nat.mod_upper_bound max_round wl ltac:(lia)).
  split; intros H1; nia.
Qed.

Section Leaders.
Context (cache : PastCache) (m : Lace) (rounds : gmap bytes nat) (equiv : EquivocationIndex) (participants : list bytes) (config : OrderingConfig).
Context (Hp : participants <> []) (Hw : 0 < wavelength config).

Definition leader_of (wave : nat) : list bytes := default [] (final_leader cache m rounds equiv participants config wave).

Lemma final_leader_some wave : final_leader cache m rounds equiv participants config wave = Some (leader_of wave).
Proof.
  unfold leader_of, final_leader, wave_leader. destruct (participants !! (wave mod length participants)) as [k|] eqn:E; [done|].
  apply lookup_ge_None in E. destruct participants as [|k0 ps]; [done|]. pose proof (Nat.mod_upper_bound wave (length (k0 :: ps)) ltac:(done)). lia.
Qed.

Lemma leaders_loop_ok max_round : forall fuel wave found, max_round / wavelength config - wave <= fuel ->
  leaders_loop cache m rounds equiv participants fuel config max_round wave found =
  Some (found ++ concat (map leader_of (seq wave (max_round / wavelength config - wave)))).
Proof.
  assert (Hcut : forall wave, (max_round <? wave_last_round wave (wavelength config)) = true <-> max_round / wavelength config <= wave).
  { intros wave. rewrite Nat.ltb_lt. pose proof (last_round_le wave (wavelength config) max_round Hw). lia. }
  induction fuel as [|fuel IH]; intros wave found Hf; cbn [leaders_loop]; destruct (max_round <? _) eqn:E.
  1,3: (apply Hcut in E; replace (max_round / wavelength config - wave) with 0 by lia; by rewrite app_nil_r).
  - exfalso. apply not_true_iff_false in E. rewrite Hcut in E. lia.
  - apply not_true_iff_false in E. rewrite Hcut in E. rewrite final_leader_some. cbn [mbind option_bind]. rewrite IH by lia.
    replace (max_round / wavelength config - wave) with (S (max_round / wavelength config - (wave + 1))) by lia.
    cbn [seq map concat]. rewrite <-(assoc_L (++)). by rewrite (Nat.add_1_r wave).
Qed.

Lemma find_leaders_ok max_round : find_all_final_leaders cache m rounds equiv participants config max_round =
  Some (concat (map leader_of (seq 0 (max_round / wavelength config)))).
Proof.
  unfold find_all_final_leaders. rewrite leaders_loop_ok; [by rewrite Nat.sub_0_r|]. rewrite Nat.sub_0_r. apply Nat.Div0.div_le_upper_bound. nia.
Qed.

End Leaders.

Section Segments.
Context (m : Lace) (rank : bytes -> nat) (Hclosed : closed m) (Hrank : acyclic m rank).
Context (cache : PastCache) (Hcache : forall x, is_Some (m !! x) -> forall y, y ∈ past_of cache x <-> reaches m x y).
Context (rounds : gmap bytes nat) (Hrounds : forall x, is_Some (rounds !! x) -> is_Some (m !! x)).
Context (participants : list bytes) (config : OrderingConfig) (keep : bytes -> bool).

Notation equiv := (index_build m rounds).
Notation cover := (coverage_of cache m rounds equiv participants config).

(** The blocks a leader adds. *)
Definition fresh_blocks (leader : bytes) (prev : gset bytes) : gset bytes := filter (fun i => listed cache m equiv keep leader i = true) (cover leader ∖ prev).

Lemma fresh_stored leader prev x : x ∈ fresh_blocks leader prev -> is_Some (m !! x) /\ x ∈ cover leader /\ x ∉ prev.
Proof.
  unfold fresh_blocks. rewrite elem_of_filter, elem_of_difference. intros [Hl ?]. split; [|done]. unfold listed in Hl. destruct (m !! x); [by eexists|done].
Qed.

Lemma cover_below leader x a : x ∈ cover leader -> reaches m x a -> a ∈ cover leader.
Proof.
  unfold coverage_of. rewrite !elem_of_union_list. intros (past & Hin & Hx) Hr. exists past. split; [done|].
  apply list_elem_of_fmap in Hin as (o & -> & Ho). apply list_elem_of_In, filter_In in Ho as [Ho%list_elem_of_In%at_round_elem _].
  assert (Hs : is_Some (m !! o)) by (apply Hrounds; by eexists). apply Hcache; [done|]. apply Hcache in Hx; [|done]. by etrans.
Qed.

(** The order as the segments of the leaders, one after the other. *)
Inductive segmented : gset bytes -> list bytes -> list (list bytes) -> Prop :=
| sg_nil prev : segmented prev [] []
| sg_cons prev leader s leaders ss : linear m (fresh_blocks leader prev) s -> segmented (cover leader) leaders ss -> segmented prev (leader :: leaders) (s :: ss).

Lemma segments_ok leaders : forall prev, exists ss,
  segments cache m rounds equiv participants config keep leaders prev = Some (concat ss) /\ segmented prev leaders ss.
Proof.
  induction leaders as [|leader leaders IH]; intros prev; cbn [segments]; [exists []; split; [done|constructor]|].
  destruct (xsort_ok m cache rank (fresh_blocks leader prev) Hrank) as (s & Es & Hs).
  { intros x Hx. apply Hcache. by destruct (fresh_stored _ _ _ Hx). }
  unfold fresh_blocks in Es. rewrite Es. cbn [mbind option_bind]. destruct (IH (cover leader)) as (ss & -> & Hss). cbn [mbind option_bind].
  exists (s :: ss). split; [done|by constructor].
Qed.

(** Each leader covers what the one before it covered. *)
Fixpoint nested (prev : gset bytes) (leaders : list bytes) : Prop :=
  match leaders with [] => True | leader :: leaders => prev ⊆ cover leader /\ nested (cover leader) leaders end.

Lemma nested_order prev leaders ss : segmented prev leaders ss -> nested prev leaders ->
  NoDup (concat ss) /\ (forall x, x ∈ concat ss -> x ∉ prev) /\
  forall l1 x l2, concat ss = l1 ++ x :: l2 -> forall a, a ∈ concat ss -> a <> x -> reaches m x a -> a ∈ l1.
Proof.
  induction 1 as [prev|prev leader s leaders ss Hs Hss IH]; cbn [nested concat].
  { intros _. split_and!; [constructor|by intros x ?%elem_of_nil|]. by intros [|] ? ? ?. }
  intros [Hsub Hn]. destruct (IH Hn) as (Hnd & Hout & Hord).
  assert (Hin : forall x, x ∈ s <-> x ∈ fresh_blocks leader prev) by (intros x; by rewrite (ln_perm _ _ _ Hs), elem_of_elements).
  assert (Hcov : forall x, x ∈ s -> x ∈ cover leader) by (intros x Hx%Hin; by destruct (fresh_stored _ _ _ Hx) as (_ & ? & _)).
  split_and!.
  - apply NoDup_app. split_and!; [rewrite (ln_perm _ _ _ Hs); apply NoDup_elements| |done]. intros x Hx Hr. by apply (Hout x Hr), Hcov.
  - intros x [Hx%Hin|Hx]%elem_of_app; [by destruct (fresh_stored _ _ _ Hx) as (_ & _ & ?)|]. intros Hpx. by apply (Hout x Hx), Hsub.
  - intros l1 x l2 E a Ha Hne Hra. apply app_eq_inv in E as [(k & El & Er)|(k & El & Er)].
    + destruct k as [|y k]; cbn in Er.
      * rewrite app_nil_r in El. subst l1. symmetry in Er. assert (Hx : x ∈ concat ss) by (rewrite Er; set_solver). apply elem_of_app in Ha as [|Ha]; [done|].
        exfalso. specialize (Hord [] x l2 Er a Ha Hne Hra). by apply elem_of_nil in Hord.
      * injection Er as <- Er. assert (Hxs : x ∈ s) by (rewrite El; set_solver). assert (Hac : a ∈ cover leader) by (eapply cover_below; [by apply Hcov|done]).
        apply elem_of_app in Ha as [Ha|Ha]; [|by destruct (Hout a Ha)]. eapply (ln_below _ _ _ Hs); [exact El|by apply Hin|done|done].
    + subst l1. apply elem_of_app in Ha as [Ha|Ha]; [set_solver|]. apply elem_of_app. right. by eapply Hord.
Qed.

End Segments.

(** ** The whole order *)

Section Whole.
Context (m : Lace) (V : view m) (participants : list bytes) (config : OrderingConfig).
Context (Hp : participants <> []) (Hm : m <> ∅) (Hw : 0 < wavelength config).

Lemma rounds_stored (N : Lace) rounds x : rounds_ok N rounds -> is_Some (rounds !! x) -> is_Some (N !! x).
Proof. intros HR. rewrite (HR x). destruct (N !! x); [by eexists|by intros [? ?]]. Qed.

(** What the order is computed from. *)
Record computed (cache : PastCache) (rounds : gmap bytes nat) (max_round : nat) : Prop := {
  cp_fill : fill_cache m = Some cache;
  cp_cache : forall x, is_Some (m !! x) -> forall y, y ∈ past_of cache x <-> reaches m x y;
  cp_run : compute_rounds m = Some (rounds, max_round);
  cp_rounds : rounds_ok m rounds;
  cp_max : max_ok rounds max_round;
}.

Lemma computes : exists cache rounds max_round, computed cache rounds max_round.
Proof.
  destruct (fill_cache_ok m) as (cache & E & Hc). destruct (vw_acyclic _ V) as [rank Hr]. destruct (compute_rounds_ok m rank Hr) as (rounds & max_round & E' & HR & HM).
  by exists cache, rounds, max_round.
Qed.

Definition waves (max_round : nat) : list nat := seq 0 (max_round / wavelength config).

Lemma tau_computed cache rounds max_round : computed cache rounds max_round ->
  let leaders := concat (map (leader_of cache m rounds (index_build m rounds) participants config) (waves max_round)) in
  exists ss, tau_with_config m participants config = Some (concat ss) /\ segmented m cache rounds participants config (fun _ => true) ∅ leaders ss.
Proof.
  intros [E Hc E' HR HM] leaders. destruct (vw_acyclic _ V) as [rank Hr].
  destruct (segments_ok m rank Hr cache Hc rounds participants config (fun _ => true) leaders ∅) as (ss & Es & Hs).
  exists ss. split; [|done]. unfold tau_with_config. rewrite !bool_decide_eq_false_2 by done. cbn [orb]. unfold tau_from. rewrite E. cbn [mbind option_bind]. rewrite E'. cbn [mbind option_bind].
  rewrite find_leaders_ok by done. exact Es.
Qed.

End Whole.

(** ** A lattice that grows *)

Section Growth.
Context (m m' : Lace) (V : view m) (V' : view m') (Hsub : m ⊆ m') (participants : list bytes) (config : OrderingConfig).
Context (Hp : participants <> []) (Hw : 0 < wavelength config).
Context (c c' : PastCache) (R R' : gmap bytes nat) (M M' : nat) (C : computed m c R M) (C' : computed m' c' R' M').

(** Nothing new arrived for the waves that were complete. *)
Notation bound := (wavelength config * (M / wavelength config)).
Context (Hlate : forall x r, m !! x = None -> R' !! x = Some r -> bound < r).

Lemma grown x b : m !! x = Some b -> m' !! x = Some b.
Proof. intros H. by eapply lookup_weaken. Qed.

Lemma grown_some x : is_Some (m !! x) -> is_Some (m' !! x).
Proof. intros [b H]. exists b. by apply grown. Qed.

Lemma grown_compatible : compatible m m'.
Proof. intros x b1 b2 E1 E2. apply grown in E1. rewrite E1 in E2. by injection E2 as ->. Qed.

Lemma reaches_same x y : is_Some (m !! x) -> reaches m x y <-> reaches m' x y.
Proof.
  intros Hx. split; intros Hr.
  - by destruct (reaches_agree m m' V V' grown_compatible x y Hx (grown_some x Hx) Hr).
  - by destruct (reaches_agree m' m V' V (compatible_sym _ _ grown_compatible) x y (grown_some x Hx) Hx Hr).
Qed.

Lemma round_same x : is_Some (m !! x) -> R !! x = R' !! x.
Proof. intros Hx. apply (rounds_agree m m' V V' grown_compatible); [apply C|apply C'|done|by apply grown_some]. Qed.

Lemma past_same x : is_Some (m !! x) -> past_of c x = past_of c' x.
Proof. intros Hx. apply set_eq. intros y. rewrite (cp_cache _ _ _ _ C x Hx), (cp_cache _ _ _ _ C' x (grown_some x Hx)). by apply reaches_same. Qed.

Lemma past_stored x y : is_Some (m !! x) -> y ∈ past_of c x -> is_Some (m !! y).
Proof. intros Hx Hy. apply (cp_cache _ _ _ _ C x Hx) in Hy. eapply reaches_stored; [apply V|exact Hx|done]. Qed.

Lemma fork_same x k : is_Some (m !! x) -> equivocates_in_past (index_build m R) k (past_of c x) = equivocates_in_past (index_build m' R') k (past_of c x).
Proof.
  intros Hx. apply eq_true_iff_eq. rewrite !equivocates_iff. split; intros (y & z & b_y & bz & r & Hne & Hy & Hz & Eb & Ez & ? & ? & Ry & Rz); exists y, z, b_y, bz, r.
  - rewrite <-!round_same by eauto using past_stored. split_and!; try done; by apply grown.
  - pose proof (past_stored x y Hx Hy) as Sy. pose proof (past_stored x z Hx Hz) as Sz. rewrite !round_same by done.
    destruct Sy as [b1 E1], Sz as [b2 E2]. pose proof (grown _ _ E1). pose proof (grown _ _ E2). split_and!; try done; congruence.
Qed.

Lemma approves_same x l k : is_Some (m !! x) -> approves c (index_build m R) x l k = approves c' (index_build m' R') x l k.
Proof. intros Hx. unfold approves. by rewrite <-(past_same x Hx), (fork_same x k Hx). Qed.

Lemma creator_same p x : is_Some (m !! x) -> creator_is m p x = creator_is m' p x.
Proof. intros [b E]. unfold creator_is. by rewrite E, (grown _ _ E). Qed.

Lemma ratifies_same o l k : is_Some (m !! o) -> ratifies c m (index_build m R) participants o l k = ratifies c' m' (index_build m' R') participants o l k.
Proof.
  intros Ho. unfold ratifies. rewrite <-(past_same o Ho). f_equal. f_equal. apply List.filter_ext. intros p. apply eq_true_iff_eq. rewrite !existsb_exists.
  setoid_rewrite <-list_elem_of_In. setoid_rewrite elem_of_elements. split; intros (x & Hx & Hb); exists x; (split; [done|]); pose proof (past_stored o x Ho Hx) as Sx.
  - by rewrite <-creator_same, <-approves_same.
  - by rewrite creator_same, approves_same.
Qed.

Lemma round_before x r : r <= bound -> R' !! x = Some r -> is_Some (m !! x).
Proof. intros Hr E. destruct (m !! x) eqn:Em; [by eexists|]. specialize (Hlate x r Em E). lia. Qed.

Lemma at_round_same r : r <= bound -> at_round R r ≡ₚ at_round R' r.
Proof.
  intros Hr. apply NoDup_Permutation; [apply at_round_nodup..|]. intros x. rewrite !at_round_elem. split; intros E.
  - rewrite <-round_same; [done|]. eapply rounds_stored; [apply C|]. by eexists.
  - rewrite round_same; [done|]. by eapply round_before.
Qed.

Lemma at_round_stored r x : x ∈ at_round R r -> is_Some (m !! x).
Proof. rewrite at_round_elem. intros E. eapply rounds_stored; [apply C|]. by eexists. Qed.

Lemma super_same l k wave_end : wave_end <= bound ->
  is_super_ratified c m R (index_build m R) participants l k wave_end = is_super_ratified c' m' R' (index_build m' R') participants l k wave_end.
Proof.
  intros Hb. unfold is_super_ratified. do 2 f_equal. apply set_eq. intros x. rewrite !elem_of_list_to_set, !list_elem_of_omap. setoid_rewrite <-(at_round_same wave_end Hb).
  split; intros (o & Ho & E); exists o; (split; [done|]); destruct (at_round_stored _ _ Ho) as [b Eb]; rewrite Eb, (grown _ _ Eb) in *; cbn [mbind option_bind] in *.
  - rewrite <-ratifies_same; [done|by eexists].
  - rewrite ratifies_same; [done|by eexists].
Qed.

Lemma wave_bound wave : wave < M / wavelength config -> wave_first_round wave (wavelength config) <= bound /\ wave_last_round wave (wavelength config) <= bound.
Proof. unfold wave_first_round, wave_last_round. intros H. split; nia. Qed.

Lemma leader_same wave : wave < M / wavelength config ->
  leader_of c m R (index_build m R) participants config wave = leader_of c' m' R' (index_build m' R') participants config wave.
Proof.
  intros Hlt. destruct (wave_bound wave Hlt) as [H1 H2]. unfold leader_of, final_leader. destruct (wave_leader wave participants) as [k|]; [|done]. cbn [mbind option_bind].
  assert (Hf : List.filter (creator_is m k) (at_round R (wave_first_round wave (wavelength config))) ≡ₚ List.filter (creator_is m' k) (at_round R' (wave_first_round wave (wavelength config)))).
  { rewrite (List.filter_ext_in (creator_is m k) (creator_is m' k)); [|intros x Hx%list_elem_of_In; apply creator_same; by eapply at_round_stored].
    induction (at_round_same _ H1); cbn [List.filter]; repeat case_match; try done; [by constructor|apply Permutation_swap|by etrans]. }
  set (F := List.filter (creator_is m k) _) in *. set (F' := List.filter (creator_is m' k) _) in *. clearbody F F'. pose proof (Permutation_length Hf) as Hlen.
  destruct F as [|x [|y F]], F' as [|x' [|y' F']]; cbn [length] in Hlen; try done; try lia.
  apply Permutation_singleton_l in Hf. injection Hf as <-. by rewrite super_same.
Qed.

Lemma max_grows : M <= M'.
Proof.
  destruct (cp_max _ _ _ _ C) as [_ [->|[x Hx]]]; [lia|]. apply (proj1 (cp_max _ _ _ _ C') x). rewrite <-round_same; [done|]. eapply rounds_stored; [apply C|]. by eexists.
Qed.

Lemma leaders_grow : exists more, concat (map (leader_of c' m' R' (index_build m' R') participants config) (waves config M')) =
  concat (map (leader_of c m R (index_build m R) participants config) (waves config M)) ++ more.
Proof.
  unfold waves. pose proof (Nat.Div0.div_le_mono M M' (wavelength config) max_grows) as Hle.
  replace (M' / wavelength config) with (M / wavelength config + (M' / wavelength config - M / wavelength config)) by lia.
  rewrite seq_app, map_app, concat_app. eexists. f_equal. f_equal. apply map_ext_in. intros w [_ Hlt]%in_seq. symmetry. by apply leader_same.
Qed.

(** A leader of a complete wave. *)
Definition leads (leader : bytes) : Prop := exists wave, wave < M / wavelength config /\ R !! leader = Some (wave_first_round wave (wavelength config)).

Lemma leaders_lead leader : leader ∈ concat (map (leader_of c m R (index_build m R) participants config) (waves config M)) -> leads leader.
Proof.
  rewrite list_elem_of_In, in_concat. intros (l & (wave & <- & [_ Hlt]%in_seq)%in_map_iff & Hin). exists wave. split; [done|].
  unfold leader_of in Hin. destruct (final_leader _ _ _ _ _ _ wave) as [ls|] eqn:E; [|done]. cbn [from_option id] in Hin.
  assert (ls = [leader]) as ->.
  { unfold final_leader in E. destruct (wave_leader wave participants); [|done]. cbn [mbind option_bind] in E. destruct (List.filter _ _) as [|x [|]]; try (by injection E as <-).
    destruct (is_super_ratified _ _ _ _ _ _ _ _); injection E as <-; [|done]. by destruct Hin as [->|]. }
  apply final_leader_inv in E as (k & b & _ & _ & _ & Hr & _). done.
Qed.

Lemma coverage_same leader : leads leader -> coverage_of c m R (index_build m R) participants config leader = coverage_of c' m' R' (index_build m' R') participants config leader.
Proof.
  intros (wave & Hlt & Hr). destruct (wave_bound wave Hlt) as [_ H2]. assert (Hs : is_Some (m !! leader)) by (eapply rounds_stored; [apply C|by eexists]).
  unfold coverage_of. rewrite <-(round_same leader Hs), Hr. cbn [from_option id].
  assert (round_to_wave (wave_first_round wave (wavelength config)) (wavelength config) = wave) as ->.
  { unfold round_to_wave, wave_first_round. rewrite Nat.add_sub. apply Nat.div_mul. lia. }
  destruct Hs as [b Eb]. rewrite Eb, (grown _ _ Eb). apply set_eq. intros x. rewrite !elem_of_union_list. setoid_rewrite list_elem_of_fmap.
  split; intros (past & (o & -> & Ho) & Hx); apply list_elem_of_In, filter_In in Ho as [Ho%list_elem_of_In Hrat].
  - pose proof (at_round_stored _ _ Ho) as So. exists (past_of c' o). split; [|by rewrite <-past_same]. exists o. split; [done|]. apply list_elem_of_In, filter_In.
    split; [apply list_elem_of_In; by rewrite <-at_round_same|by rewrite <-ratifies_same].
  - rewrite <-at_round_same in Ho by done. pose proof (at_round_stored _ _ Ho) as So. exists (past_of c o). split; [|by rewrite past_same]. exists o. split; [done|]. apply list_elem_of_In, filter_In.
    split; [by apply list_elem_of_In|by rewrite ratifies_same].
Qed.

Lemma coverage_stored leader x : x ∈ coverage_of c m R (index_build m R) participants config leader -> is_Some (m !! x).
Proof.
  unfold coverage_of. rewrite elem_of_union_list. intros (past & Hin & Hx). apply list_elem_of_fmap in Hin as (o & -> & Ho).
  apply list_elem_of_In, filter_In in Ho as [Ho%list_elem_of_In _]. eapply past_stored; [by eapply at_round_stored|done].
Qed.

Lemma fresh_same keep leader prev : leads leader ->
  fresh_blocks m c R participants config keep leader prev = fresh_blocks m' c' R' participants config keep leader prev.
Proof.
  intros Hl. unfold fresh_blocks. rewrite <-(coverage_same leader Hl). assert (Hs : is_Some (m !! leader)) by (destruct Hl as (w & _ & Hr); eapply rounds_stored; [apply C|by eexists]).
  apply set_eq. intros x. rewrite !elem_of_filter, elem_of_difference. assert (Hx : x ∈ coverage_of c m R (index_build m R) participants config leader ->
    listed c m (index_build m R) keep leader x = listed c' m' (index_build m' R') keep leader x).
  { intros Hx. destruct (coverage_stored leader x Hx) as [b Eb]. unfold listed. rewrite Eb, (grown _ _ Eb), <-(past_same leader Hs). by rewrite fork_same. }
  split; intros (H1 & H2 & H3); (split; [|done]); [by rewrite <-Hx|by rewrite Hx].
Qed.

Lemma linear_same (set : gset bytes) l : (forall x, x ∈ set -> is_Some (m !! x)) -> linear m set l -> linear m' set l.
Proof.
  intros Hs [Hperm Hb Hl]. assert (Hin : forall l1 x l2, l = l1 ++ x :: l2 -> x ∈ set) by (intros l1 x l2 ->; apply elem_of_elements; rewrite <-Hperm; set_solver).
  split; [done| |].
  - intros l1 x l2 E a Ha Hne Hr. apply (Hb l1 x l2 E a Ha Hne). apply reaches_same; [|done]. by eapply Hs, Hin.
  - intros l1 x l2 E y Hy Hyl Hready. apply (Hl l1 x l2 E y Hy Hyl). intros a Ha Hne Hr. apply (Hready a Ha Hne). apply reaches_same; [|done]. by apply Hs.
Qed.

Lemma segments_grow keep leaders : forall prev more ss ss', (forall l, l ∈ leaders -> leads l) ->
  segmented m c R participants config keep prev leaders ss -> segmented m' c' R' participants config keep prev (leaders ++ more) ss' -> concat ss `prefix_of` concat ss'.
Proof.
  induction leaders as [|leader leaders IH]; intros prev more ss ss' Hl Hs Hs'; inversion Hs as [|? ? s ? ss0 Hlin Hrest]; subst; [apply prefix_nil|].
  cbn [app] in Hs'. inversion Hs' as [|? ? s' ? ss0' Hlin' Hrest']; subst. cbn [concat].
  assert (Hlead : leads leader) by (apply Hl; set_solver). rewrite <-(fresh_same keep leader prev Hlead) in Hlin'. rewrite <-(coverage_same leader Hlead) in Hrest'.
  assert (s = s') as <-. { eapply (linear_unique m'); [|exact Hlin']. apply linear_same; [|done]. intros x Hx. by destruct (fresh_stored _ _ _ _ _ _ _ _ _ Hx). }
  apply prefix_app. eapply IH; [|exact Hrest|exact Hrest']. intros l Hin. apply Hl. by apply list_elem_of_further.
Qed.

End Growth.

(** ** Nodes *)

Lemma lace_view `{HB : Blake3} l : lace_ok l -> view (blocks l).
Proof. intros Hl. split; apply Hl. Qed.

(** Two nodes that hold well-formed blocks have compatible views. *)
Lemma nodes_compatible `{HB : Blake3} `{!Blake3CR HB} l1 l2 : lace_ok l1 -> lace_ok l2 ->
  (forall i b, blocks l1 !! i = Some b \/ blocks l2 !! i = Some b -> block_wf b) -> compatible (blocks l1) (blocks l2).
Proof.
  intros H1 H2 Hwf x b1 b2 E1 E2. assert (E : block_id b1 = block_id b2) by (rewrite <-(lo_named _ H1 _ _ E1); by apply (lo_named _ H2)).
  apply block_id_binds in E as (? & _ & ? & _); [done|by eapply Hwf; left|by eapply Hwf; right].
Qed.

(** ** What the order gives *)

(** On any lattice a node can hold, and for waves of any length but none, the order is computed. *)
Lemma tau_returns m participants config : view m -> 0 < wavelength config -> is_Some (tau_with_config m participants config).
Proof.
  intros V Hw. destruct (decide (participants = [])) as [->|Hp]; [by eexists|]. destruct (decide (m = ∅)) as [->|Hm].
  { unfold tau_with_config. rewrite (bool_decide_eq_true_2 (∅ = ∅)) by done. rewrite orb_true_r. by eexists. }
  destruct (computes m V) as (c & R & M & C). destruct (tau_computed m V participants config Hp Hm Hw c R M C) as (ss & E & _). by exists (concat ss).
Qed.

(** With waves of length zero the search for leaders never ends. *)
Lemma leaders_never cache m rounds equiv participants max_round : forall fuel wave found,
  leaders_loop cache m rounds equiv participants fuel (mkConfig 0) max_round wave found = None.
Proof.
  induction fuel as [|fuel IH]; intros wave found; cbn [leaders_loop wavelength]; unfold wave_last_round; rewrite Nat.mul_0_r; [done|].
  cbn. destruct (final_leader _ _ _ _ _ _ _); [apply IH|done].
Qed.

Lemma tau_without_waves m participants : participants <> [] -> m <> ∅ -> tau_with_config m participants (mkConfig 0) = None.
Proof.
  intros Hp Hm. unfold tau_with_config. rewrite !bool_decide_eq_false_2 by done. cbn [orb]. unfold tau_from. destruct (fill_cache m); [|done]. cbn [mbind option_bind].
  destruct (compute_rounds m) as [[R M]|]; [|done]. cbn [mbind option_bind]. unfold find_all_final_leaders. by rewrite leaders_never.
Qed.

(** When each final leader covers what the one before it covered, the order lists
    no block twice and every block after those below it. *)
Theorem tau_linearises m participants config c R M : view m -> participants <> [] -> m <> ∅ -> 0 < wavelength config -> computed m c R M ->
  nested m c R participants config ∅ (concat (map (leader_of c m R (index_build m R) participants config) (waves config M))) ->
  exists o, tau_with_config m participants config = Some o /\ NoDup o /\
    forall l1 x l2, o = l1 ++ x :: l2 -> forall a, a ∈ o -> a <> x -> reaches m x a -> a ∈ l1.
Proof.
  intros V Hp Hm Hw C Hn. destruct (tau_computed m V participants config Hp Hm Hw c R M C) as (ss & E & Hs). exists (concat ss). split; [done|].
  assert (HR : forall x, is_Some (R !! x) -> is_Some (m !! x)) by (intros x; apply rounds_stored; apply C).
  destruct (vw_acyclic _ V) as [rank Hr]. by destruct (nested_order m rank (vw_closed _ V) Hr c (cp_cache _ _ _ _ C) R HR participants config _ _ _ _ Hs Hn) as (? & _ & ?).
Qed.

(** C13: what is final stays as it is while the lattice grows, as long as nothing
    arrives for a wave that was complete. *)
Theorem finalized_prefix_stable m m' participants config c c' R R' M M' : view m -> view m' -> m ⊆ m' -> participants <> [] -> m <> ∅ -> 0 < wavelength config ->
  computed m c R M -> computed m' c' R' M' ->
  (forall x r, m !! x = None -> R' !! x = Some r -> wavelength config * (M / wavelength config) < r) ->
  exists o o', tau_with_config m participants config = Some o /\ tau_with_config m' participants config = Some o' /\ o `prefix_of` o'.
Proof.
  intros V V' Hsub Hp Hm Hw C C' Hlate. assert (Hm' : m' <> ∅) by (intros ->; apply Hm, map_empty; intros i; destruct (m !! i) eqn:Ei; [|done]; by apply (lookup_weaken _ ∅) in Ei).
  destruct (tau_computed m V participants config Hp Hm Hw c R M C) as (ss & E & Hs). destruct (tau_computed m' V' participants config Hp Hm' Hw c' R' M' C') as (ss' & E' & Hs').
  exists (concat ss), (concat ss'). split_and!; [done|done|].
  destruct (leaders_grow m m' V V' Hsub participants config Hw c c' R R' M M' C C' Hlate) as [more Hmore]. rewrite Hmore in Hs'.
  eapply (segments_grow m m' V V' Hsub participants config Hp Hw c c' R R' M M' C C' Hlate); [|exact Hs|exact Hs'].
  intros l. apply leaders_lead.
Qed.

(** A group lists blocks of its members only. *)
Lemma tau_unified_members m g config : view m -> 0 < wavelength config ->
  exists o, tau_unified m g config = Some o /\ forall x, x ∈ o -> exists b, m !! x = Some b /\ creator b ∈ rg_participants g.
Proof.
  intros V Hw. unfold tau_unified. destruct (decide (rg_participants g = [])) as [E|Hp].
  { rewrite bool_decide_eq_true_2 by done. exists []. split; [done|]. by intros x ?%elem_of_nil. }
  destruct (decide (m = ∅)) as [->|Hm].
  { rewrite (bool_decide_eq_true_2 (∅ = ∅)) by done. rewrite orb_true_r. exists []. split; [done|]. by intros x ?%elem_of_nil. }
  rewrite !bool_decide_eq_false_2 by done. cbn [orb]. unfold tau_from. destruct (fill_cache_ok m) as (cache & -> & Hc). cbn [mbind option_bind].
  destruct (vw_acyclic _ V) as [rank Hr]. destruct (compute_rounds_filtered_ok m g rank Hr) as (R & M & -> & _). cbn [mbind option_bind]. rewrite find_leaders_ok by done. cbn [mbind option_bind].
  destruct (segments_ok m rank Hr cache Hc R (rg_participants g) config (fun k => bool_decide (k ∈ rg_participants g))
    (concat (map (leader_of cache m R (index_build m R) (rg_participants g) config) (seq 0 (M / wavelength config)))) ∅) as (ss & -> & Hs).
  exists (concat ss). split; [done|]. induction Hs as [|prev leader s leaders ss Hlin _ IH]; cbn [concat]; [by intros x ?%elem_of_nil|].
  intros x [Hx|Hx]%elem_of_app; [|by apply IH]. rewrite (ln_perm _ _ _ Hlin), elem_of_elements in Hx. unfold fresh_blocks in Hx. apply elem_of_filter in Hx as [Hl _].
  unfold listed in Hl. destruct (m !! x) as [b|]; [|done]. apply andb_true_iff in Hl as [Hk%bool_decide_eq_true _]. by exists b.
Qed.

(** The threshold a group carries is not read. *)
Lemma group_threshold_unread m ps t t' w r config : tau_unified m (mkGroup ps t w r) config = tau_unified m (mkGroup ps t' w r) config.
Proof. done. Qed.

(** The order of the members does not show in the name of a group. *)
Lemma group_id_order_free `{Blake3} g g' : rg_participants g ≡ₚ rg_participants g' -> compute_id g = compute_id g'.
Proof. intros Hp. unfold compute_id. by rewrite (lex_sort_unique _ _ Hp). Qed.

(** ** Runs *)

Open Scope Z_scope.

(** Names made of the creator and the sequence, enough for the runs below. *)
Definition w_names : Blake3 := {| blake3_hash x := x; blake3_derive_key _ x := take 2 x |}.
#[local] Existing Instance w_names.

Definition w_lace (bs : list Block) : Blocklace := foldl (fun l b => (insert_unverified l b).1) lace_new bs.

Lemma w_lace_ok bs : lace_ok (w_lace bs).
Proof.
  unfold w_lace. assert (H : forall l, lace_ok l -> lace_ok (foldl (fun l b => (insert_unverified l b).1) l bs)); [|apply H, lace_new_ok].
  induction bs as [|b bs IH]; intros l Hl; [done|]. cbn [foldl]. apply IH. destruct (insert_unverified l b) as [l' r] eqn:E. by eapply insert_unverified_keeps.
Qed.

Lemma w_lace_view bs : view (blocks (w_lace bs)).
Proof. apply lace_view, w_lace_ok. Qed.

(** A block of each of three members, on all of their blocks before. *)
Definition w_block (c s : Z) (ps : list (Z * Z)) : Block := block_new [c] s ((fun p => [p.1; p.2]) <$> ps) [c; s].
Definition w_three (s : Z) : list (Z * Z) := [(1, s); (2, s); (3, s)].
Definition w_round (s : Z) : list Block := (fun c => w_block c s (if s =? 0 then [] else w_three (s - 1))) <$> [1; 2; 3].
Definition w_members : list bytes := [[1]; [2]; [3]; [4]].

(** The fourth member makes one block, at the end of the first wave, which the
    others see only when they start the third. *)
Definition w_late : Block := w_block 4 0 (w_three 1).
Definition w_wave0 : list Block := w_round 0 ++ w_round 1 ++ w_round 2.
Definition w_wave1 : list Block := w_round 3 ++ w_round 4 ++ w_round 5.
Definition w_wave2 : list Block := ((fun c => w_block c 6 ((4, 0) :: w_three 5)) <$> [1; 2; 3]) ++ w_round 7 ++ w_round 8.

Definition w_first : Lace := blocks (w_lace w_wave0).
Definition w_without : Lace := blocks (w_lace (w_wave0 ++ w_wave1)).
Definition w_with : Lace := blocks (w_lace (w_wave0 ++ [w_late] ++ w_wave1)).
Definition w_third : Lace := blocks (w_lace (w_wave0 ++ [w_late] ++ w_wave1 ++ w_wave2)).

Definition included (m m' : Lace) : bool := forallb (fun e : bytes * Block => bool_decide (m' !! e.1 = Some e.2)) (map_to_list m).

Lemma included_ok m m' : included m m' = true -> m ⊆ m'.
Proof.
  unfold included. rewrite forallb_forall. intros H. apply map_subseteq_spec. intros x b Hb%elem_of_map_to_list%list_elem_of_In. specialize (H _ Hb). by apply bool_decide_eq_true in H.
Qed.

(** Whether the blocks of every creator are a chain. *)
Definition chains (m : Lace) (cache : PastCache) : bool :=
  forallb (fun e : bytes * Block => forallb (fun e' : bytes * Block => negb (bool_decide (creator e.2 = creator e'.2)) ||
    bool_decide (e'.1 ∈ past_of cache e.1) || bool_decide (e.1 ∈ past_of cache e'.1)) (map_to_list m)) (map_to_list m).

Lemma chains_honest m m' : m ⊆ m' -> (chains m' <$> fill_cache m') = Some true -> forall p, honest m m' p.
Proof.
  intros Hsub Hch p x y Hx Hy. destruct (fill_cache_ok m') as (cache & E & Hc). rewrite E in Hch. cbn in Hch. injection Hch as Hch.
  assert (Hin : forall z, block_of m m' p z -> exists b, m' !! z = Some b /\ creator b = p) by (intros z (b & [Hb|Hb] & ?); exists b; [split; [by eapply lookup_weaken|done]|done]).
  destruct (Hin x Hx) as (bx & Ex & Cx), (Hin y Hy) as (b_y & Ey & Cy). unfold chains in Hch. rewrite forallb_forall in Hch.
  specialize (Hch (x, bx) (proj1 (list_elem_of_In _ _) (proj2 (elem_of_map_to_list _ _ _) Ex))). rewrite forallb_forall in Hch.
  specialize (Hch (y, b_y) (proj1 (list_elem_of_In _ _) (proj2 (elem_of_map_to_list _ _ _) Ey))). cbn [fst snd] in Hch.
  apply orb_true_iff in Hch as [[Hch|Hch%bool_decide_eq_true]%orb_true_iff|Hch%bool_decide_eq_true].
  - apply negb_true_iff, bool_decide_eq_false in Hch. congruence.
  - left. right. split; [by eexists|]. apply Hc; [by eexists|done].
  - right. right. split; [by eexists|]. apply Hc; [by eexists|done].
Qed.

(** One honest block that arrives late changes the order of what was final: two
    waves are final without it, and it is listed between them once it is known. *)
Lemma late_block_rewrites_order : w_without ⊆ w_with /\ (forall p, honest w_without w_with p) /\
  exists o o', tau w_without w_members = Some o /\ tau w_with w_members = Some o' /\ ~ o `prefix_of` o'.
Proof.
  assert (Hsub : w_without ⊆ w_with) by (apply included_ok; by vm_compute). split_and!; [done|apply chains_honest; [done|by vm_compute]|].
  assert (H : (a ← tau w_without w_members; b ← tau w_with w_members; Some (bool_decide (a `prefix_of` b))) = Some false) by (by vm_compute).
  destruct (tau w_without w_members) as [o|]; [|done]. destruct (tau w_with w_members) as [o'|]; [|done]. exists o, o'. split_and!; [done..|].
  cbn in H. apply (inj Some) in H. by apply bool_decide_eq_false in H.
Qed.

(** The same block is listed again with the wave that sees it. *)
Lemma block_listed_twice : (forall p, honest w_third w_third p) /\ exists o, tau w_third w_members = Some o /\ ~ NoDup o.
Proof.
  split; [apply chains_honest; [done|by vm_compute]|]. assert (H : (o ← tau w_third w_members; Some (bool_decide (NoDup o))) = Some false) by (by vm_compute).
  destruct (tau w_third w_members) as [o|]; [|done]. exists o. split; [done|]. cbn in H. apply (inj Some) in H. by apply bool_decide_eq_false in H.
Qed.

(** Blocks of strangers make a leader final that no member has ratified at the
    end of its wave. *)
Definition w_strangers : Lace := blocks (w_lace (w_round 0 ++ w_round 1 ++ ((fun c => w_block c 0 (w_three 1)) <$> [7; 8; 9]))).

Lemma strangers_finalize : (exists o, tau w_strangers w_members = Some o /\ [1; 0] ∈ o) /\
  exists rounds, compute_rounds w_strangers = Some (rounds, 3%nat) /\ forall x b, rounds !! x = Some 3%nat -> w_strangers !! x = Some b -> creator b ∉ w_members.
Proof.
  split.
  - assert (H : (o ← tau w_strangers w_members; Some (bool_decide ([1; 0] ∈ o))) = Some true) by (by vm_compute).
    destruct (tau w_strangers w_members) as [o|]; [|done]. exists o. split; [done|]. cbn in H. apply (inj Some) in H. by apply bool_decide_eq_true in H.
  - assert (H : ('(R, M) ← compute_rounds w_strangers; Some ((M =? 3)%nat && forallb (fun e : bytes * Block => negb (bool_decide (R !! e.1 = Some 3%nat)) || negb (bool_decide (creator e.2 ∈ w_members))) (map_to_list w_strangers))) = Some true)
      by (by vm_compute).
    destruct (compute_rounds w_strangers) as [[R M]|]; [|done]. cbn [mbind option_bind] in H. apply (inj Some) in H. apply andb_true_iff in H as [->%Nat.eqb_eq H]. exists R. split; [done|].
    intros x b Hx Hb. rewrite forallb_forall in H. specialize (H (x, b) (proj1 (list_elem_of_In _ _) (proj2 (elem_of_map_to_list _ _ _) Hb))). cbn [fst snd] in H.
    rewrite bool_decide_eq_true_2 in H by done. cbn in H. by apply negb_true_iff, bool_decide_eq_false in H.
Qed.

(** ** Witnesses *)

Lemma w_final (m : Lace) : view m -> (cache ← fill_cache m; '(R, M) ← compute_rounds m;
  Some ((3 <=? M)%nat && bool_decide (final_leader cache m R (index_build m R) w_members default_config 0 = Some [[1; 0]]))) = Some true -> final_in m w_members default_config 0 [1; 0].
Proof.
  intros V H. destruct (fill_cache m) as [c|] eqn:Ec; [|done]. destruct (compute_rounds m) as [[R M]|] eqn:ER; [|done]. cbn [mbind option_bind] in H. apply (inj Some) in H.
  apply andb_true_iff in H as [Hm%Nat.leb_le Hf%bool_decide_eq_true]. exists c, R, M. by split_and!.
Qed.

Lemma final_leaders_agree_witness : final_in w_first w_members default_config 0 [1; 0] /\ final_in w_with w_members default_config 0 [1; 0] /\ [1; 0] = [1; 0].
Proof.
  assert (F1 : final_in w_first w_members default_config 0 [1; 0]) by (apply w_final; [apply w_lace_view|by vm_compute]).
  assert (F2 : final_in w_with w_members default_config 0 [1; 0]) by (apply w_final; [apply w_lace_view|by vm_compute]).
  assert (Hsub : w_first ⊆ w_with) by (apply included_ok; by vm_compute).
  split; [exact F1|split; [exact F2|]]. apply (final_leaders_agree w_first w_with w_members default_config 0 [1; 0] [1; 0] (fun _ => false)).
  - apply w_lace_view.
  - apply w_lace_view.
  - by apply grown_compatible.
  - cbn. lia.
  - intros p _ _. apply chains_honest; [done|by vm_compute].
  - exact F1.
  - exact F2.
Defined.

Lemma w_first_rounds : exists R, compute_rounds w_first = Some (R, 3%nat).
Proof.
  assert (H : (snd <$> compute_rounds w_first) = Some 3%nat) by (by vm_compute). destruct (compute_rounds w_first) as [[R M]|]; [|done]. cbn in H. injection H as ->. by exists R.
Qed.

Lemma w_without_late R' M' x r : compute_rounds w_without = Some (R', M') -> w_first !! x = None -> R' !! x = Some r -> (3 < r)%nat.
Proof.
  intros E Hx Hr. assert (H : ('(R, M) ← compute_rounds w_without; Some (forallb (fun e : bytes * nat => bool_decide (is_Some (w_first !! e.1)) || (3 <? e.2)%nat) (map_to_list R))) = Some true) by (by vm_compute).
  rewrite E in H. cbn [mbind option_bind] in H. apply (inj Some) in H. rewrite forallb_forall in H. specialize (H (x, r) (proj1 (list_elem_of_In _ _) (proj2 (elem_of_map_to_list _ _ _) Hr))). cbn [fst snd] in H.
  rewrite bool_decide_eq_false_2 in H by (rewrite Hx; by intros [? ?]). by apply Nat.ltb_lt in H.
Qed.

Lemma finalized_prefix_stable_witness : exists o o', tau w_first w_members = Some o /\ tau w_without w_members = Some o' /\ o `prefix_of` o'.
Proof.
  destruct (computes w_first (w_lace_view _)) as (c & R & M & C). destruct (computes w_without (w_lace_view _)) as (c' & R' & M' & C').
  assert (HM : M = 3%nat) by (destruct w_first_rounds as [R0 E]; pose proof (cp_run _ _ _ _ C) as E'; rewrite E in E'; by injection E').
  apply (finalized_prefix_stable w_first w_without w_members default_config c c' R R' M M').
  - apply w_lace_view.
  - apply w_lace_view.
  - apply included_ok. by vm_compute.
  - done.
  - intros E. assert (H : bool_decide (w_first = ∅) = false) by (by vm_compute). by rewrite bool_decide_eq_true_2 in H.
  - cbn. lia.
  - exact C.
  - exact C'.
  - intros x r Hx Hr. rewrite HM. cbn. eapply w_without_late; [exact (cp_run _ _ _ _ C')|done|done].
Defined.

Lemma tau_linearises_witness : exists o, tau w_without w_members = Some o /\ NoDup o.
Proof.
  destruct (computes w_without (w_lace_view _)) as (c & R & M & C).
  destruct (tau_linearises w_without w_members default_config c R M) as (o & E & Hnd & _).
  - apply w_lace_view.
  - done.
  - intros E. assert (H : bool_decide (w_without = ∅) = false) by (by vm_compute). by rewrite bool_decide_eq_true_2 in H.
  - cbn. lia.
  - exact C.
  - assert (H : (cache ← fill_cache w_without; '(R, M) ← compute_rounds w_without;
      match concat (map (leader_of cache w_without R (index_build w_without R) w_members default_config) (waves default_config M)) with
      | [l1; l2] => Some (bool_decide (coverage_of cache w_without R (index_build w_without R) w_members default_config l1 ⊆ coverage_of cache w_without R (index_build w_without R) w_members default_config l2))
      | _ => None
      end) = Some true) by (by vm_compute).
    rewrite (cp_fill _ _ _ _ C), (cp_run _ _ _ _ C) in H. cbn [mbind option_bind] in H.
    destruct (concat _) as [|l1 [|l2 [|]]]; try done. apply (inj Some) in H. apply bool_decide_eq_true in H. cbn [nested]. split; [set_solver|done].
  - exists o. split; [unfold tau; exact E|exact Hnd].
Defined.
